(* ===== verification/_CoqProject ===== *)
-Q . S2P
Prelude.v
CppString.v
Status.v
Config.v
Paths.v
LruCache.v
StorageUri.v
ColumnGroups.v
Properties.v
FsConfig.v
Manifest.v
ManifestCodec.v
FileSystem.v
ManifestIO.v
Updates.v
Transaction.v
TxnConcurrency.v
ArrowData.v
Double.v
FsProducers.v
FsCache.v
PackedMetadata.v
ParquetWriter.v
PackedWriter.v
ChunkManager.v
PackedReader.v
PackedReaderCorrect.v
ColumnGroupReader.v
ColumnGroupReaderCorrect.v
ColumnGroupChunks.v
FormatReaderCache.v
AsyncTasks.v
ChunkReader.v
ScanReader.v
ScanReaderCorrect.v
ScanSource.v
ArrowTables.v
LazyReader.v
LazyReaderCorrect.v
Reader.v
ReaderCorrect.v
TakeAsync.v
TakeSample.v
VortexPlanner.v
VortexPlannerCorrect.v
LobColumn.v
LobColumnCorrect.v
LobShared.v
LobBatchRead.v
LobSample.v
ColumnGroupPolicy.v
ColumnGroupWriter.v
ColumnGroupWriterCorrect.v
Writer.v
WriterCorrect.v
WriterSample.v
Segment.v
SegmentCorrect.v
SegmentReadCorrect.v
SegmentSample.v
CHeap.v
CHeapLogic.v
FfiBridge.v
FfiBridgeRep.v
FfiBridgeCorrect.v
FfiBuilder.v
FfiBridgeRuns.v
FfiProperties.v
FfiPropertiesCorrect.v
FfiManifest.v
FfiManifestRep.v
FfiManifestCorrect.v
FfiManifestRuns.v
FfiTransaction.v
FfiTransactionCorrect.v
FfiSample.v
FfiTransactionSample.v
