(* ===== verification/Prelude.v ===== *)
(** * A verification library for milvus-storage

    milvus-storage is the storage layer of a vector database.  A data set is a
    directory of column group files and of numbered manifest files; a manifest
    lists the column groups with their files, the delta logs, statistics,
    indexes and large-object files of one version.  Transactions read a
    manifest, record updates and commit the next version with a conditional
    write.  The packed format stores one table in several parquet files, one
    per column group, and reads them back together.  A writer divides columns into
    groups by a policy and writes each group to files of a format; readers open the
    files of column groups, cut them into chunks and return chunks, scans of all
    columns or single rows.  Source paths below are relative to [src/cpp/src] and [src/cpp/include/milvus-storage].

    ** Files, in the order of dependency

    - [Prelude]: outcomes, the state monad with errors, weakest preconditions,
      machine integers, priority queues, tactics, hint databases and the lemmas
      that several components share.
    - [CppString]: [std::string], [std::to_string], [std::from_chars],
      [std::stoll].
    - [Status]: [arrow::Status] with the extension codes of
      [common/extend_status.*], and the error codes of [ffi_internal/*] and
      [ffi/result_c.cpp].
    - [Config]: the constants of [common/config.h].
    - [Paths]: [common/path_util.h] and [common/layout.*].
    - [LruCache]: [common/lrucache.h], with its specification as a recency list.
    - [StorageUri]: the class [StorageUri] of [filesystem/fs.*].
    - [ColumnGroups]: [column_groups.h], [common/properties_convert.h], and the
      heap of column groups that [std::shared_ptr] shares.
    - [Properties]: [properties.*], the registry of properties.
    - [FsConfig]: [ArrowFileSystemConfig], [create_file_system_config], the
      resolution of external filesystems and the cache key of [filesystem/fs.*].
    - [Manifest], [ManifestCodec], [ManifestIO]: [manifest.*], that is the data
      with its path conversion, the encoding with the formats of earlier
      versions, and reading and writing files with the process-wide cache.
    - [FileSystem]: the operations of [arrow::fs::FileSystem] and of
      [filesystem/upload_conditional.h], as a class with laws.
    - [Updates], [Transaction], [TxnConcurrency]: [transaction/transaction.*],
      that is the recorded updates and [applyUpdates], opening and the commit
      loop of one transaction, and any number of runs of that loop on one table,
      interleaved at every call to the store: the filesystem instance [script_fs]
      answers the calls of [Transaction.Commit] from a list and stops it at the
      first call without an answer, [step] lets one transaction make its next
      call on the shared files, whose answers are a parameter with the laws
      [StoreLaws], and [replay_never_diverges] shows that an answer only
      continues the run.
    - [ArrowData]: the memory accounting of [common/arrow_util.cpp] and the
      record batches the writers use.
    - [Double]: the [double] arithmetic of the parquet writer.
    - [FsProducers]: [CreateArrowFileSystem] with the producers of
      [filesystem/s3/s3_filesystem_producer.cpp], [filesystem/gcp/*],
      [filesystem/azure/azure_fs_producer.cpp] and of local filesystems, and the
      initialisation of the AWS SDK ([filesystem/s3/s3_global.cpp]).
    - [FsCache]: [FilesystemCache] of [filesystem/fs.cpp].
    - [PackedMetadata]: [common/metadata.*].
    - [ParquetWriter]: [format/parquet/parquet_writer.*].
    - [PackedWriter]: [packed/writer.*], [packed/column_group.*],
      [packed/splitter/*].
    - [ChunkManager]: [packed/chunk_manager.*].
    - [PackedReader], [PackedReaderCorrect]: [packed/reader.*] and
      [common/row_offset_heap.h], the model and its correctness.
    - [ColumnGroupReader], [ColumnGroupReaderCorrect], [ColumnGroupChunks]:
      [format/column_group_reader.cpp] and [format/format_reader.cpp], that is
      opening files, chunk bookkeeping and reading chunks.
    - [AsyncTasks]: [format/async_tasks.*], requests split into tasks.
    - [ChunkReader]: [ChunkReaderImpl] of [reader.cpp] and the asynchronous part
      of the column group reader.
    - [ScanReader], [ScanReaderCorrect], [ScanSource]: the scan
      [PackedRecordBatchReader] of [reader.cpp], proved against the interface
      [ChunkSource] and then for column group readers.
    - [VortexPlanner], [VortexPlannerCorrect]: [format/vortex/vortex_planner.*].
    - [LobColumn], [LobColumnCorrect], [LobShared], [LobBatchRead], [LobSample]:
      [lob_column/*], large objects stored in files of their own, and several
      writers of them on one filesystem.
    - [ColumnGroupPolicy]: the column group policies of [writer.cpp].
    - [ColumnGroupWriter], [ColumnGroupWriterCorrect]:
      [format/column_group_writer.cpp] and [Format::get].
    - [Writer], [WriterCorrect], [WriterSample]: [WriterImpl] of [writer.cpp].
    - [Segment], [SegmentCorrect], [SegmentReadCorrect], [SegmentSample]:
      [segment/*], the composition of the top-level writer, the top-level reader
      and the large-object columns, with [GetFieldId] of [common/arrow_util.h].
    - [FormatReaderCache]: [format/format_reader_cache.*], its calls as interleaved
      steps.
    - [ArrowTables]: Arrow tables and [CopySelectedRows] of [common/arrow_util.cpp].
    - [LazyReader], [LazyReaderCorrect]: [format/column_group_lazy_reader.cpp], the
      rows of one column group by index.
    - [Reader], [ReaderCorrect], [TakeAsync], [TakeSample]: [ReaderImpl] of
      [reader.cpp] with [take] and [take_async].
    - [CHeap], [CHeapLogic]: the memory of the C interface as a machine, and a
      separation logic for it.
    - [FfiBridge], [FfiBridgeRep], [FfiBridgeCorrect], [FfiBuilder],
      [FfiBridgeRuns]: column groups in [ffi/bridge.cpp],
      [ffi/column_groups_c.cpp] and [ffi/v2_column_groups_builder.cpp].
    - [FfiProperties], [FfiPropertiesCorrect]: [ffi/properties_c.cpp].
    - [FfiManifest], [FfiManifestRep], [FfiManifestCorrect], [FfiManifestRuns]:
      manifests in [ffi/bridge.cpp] and [ffi/manifest_c.cpp].
    - [FfiTransaction], [FfiTransactionCorrect]: the functions on transactions of
      [ffi/manifest_c.cpp], over [Transaction], [Properties] and [FsCache].
    - [FfiSample], [FfiTransactionSample]: these theorems at concrete inputs, and
      the error paths evaluated.

    ** How code becomes definitions

    A function that can fail returns an [outcome]: [Ok], [Err] with the
    returned status (or [raised], a status or an exception, where callers tell
    the two apart), or [Ub] for undefined behaviour.  A function with effects
    is in the monad [M], whose state survives an error return, as the members
    of a C++ object do.  Records have the fields of the class, with the same
    names up to a prefix.  A [shared_ptr] whose target is mutated is a location
    in a heap, so that aliasing is visible; an immutable target is a value.
    Integers are [Z] with [wrap_u64], [wrap_i64] and [wrap_i32] where the code
    converts or lets an unsigned integer wrap.  A [std::priority_queue] is a
    list up to permutation of which any greatest element may be taken.

    The C interface works on a memory of blocks that remember the operator that
    allocated them; a structure is a row of words, which are indeterminate
    until they are written, and a list of faults says which of the next
    allocations fail.  Reading an indeterminate word, leaving a block and
    freeing twice or with the wrong operator are [Ub].  Its assertions are an
    instance of the [bi] interface of Iris, so that the proofs use its proof mode;
    they are linear, and what a function leaks stays visible in its
    specification.

    Code outside the repository is a class of operations with a class of laws:
    [UriParser], [Avro], [FileSystem], [RecordBatches], [ParquetLib],
    [KeyValueMetadata], [Arrays], [PackedFiles], [StdHash], [HashOrder],
    [CloudEnv], [LocalDisk], [AwsUriParser]; the store that concurrent commits
    share is a relation with the laws [StoreLaws].  Components of the repository
    meet at classes too: [FormatReaders] and [AsyncReaders] below the column group
    reader, [ChunkSource] below the scan, [VortexFooter] below the planner,
    [LobFiles] below the large-object columns, [FormatWriters] below the column
    group writer, [TakeReaders] below the lazy reader, [TableReaders] and
    [SegmentArrays] below segments, [PropertyValue] between the
    C++ types and the registry; Arrow's types and tables are [DataTypes] and
    [TableOps].  Every
    class has a concrete instance at which the theorems are evaluated.

    ** What the theorems show

    - Transactions.  A commit creates the next version at a moment it did not
      exist and never replaces a file; the file it creates stands for the
      specified result of the recorded updates; the loop ends within
      [retry_limit + 1] attempts; opening yields what the file of that version
      stands for.  Under every interleaving of the calls of any number of
      commits, where calls may fail and a failed upload may have taken effect,
      the versions are 1..n, each is the work of one transaction, which is the
      one that returned it if any did, versions never change, and with the
      strict resolver the history is the serial execution of the transactions
      that created the versions.  Applying a transaction's updates must change
      no object they hold ([txn_ok]): otherwise a retry applies other updates.
    - Updates.  [applyUpdates] on shared groups refines a specification on
      values; it preserves the uniqueness of index identities and, under
      conditions on the updates that the code does not check, row alignment
      and column uniqueness.
    - Manifests.  Decoding inverts encoding, every earlier raw format is read
      as what it stood for, a written file is read back with the same content
      and paths, the cache stays coherent, and the cache refines a bounded
      recency list.
    - Packed files.  The files of a packed writer hold the projections of all
      rows in order, with accurate row group metadata, within the memory
      accounting; their footers are read back; a packed reader over accurate
      files, given in lexicographic order of their paths and all needed, returns
      every row of every wanted column once, in order, keeps to its memory limit
      and ends.
    - Properties.  Whatever texts are set, no assertion fails and every key reads
      at its registered type a value its validator accepts; a rejected text
      changes nothing; a printed value is read back.
    - Filesystems.  A configuration read from properties is complete and within
      its bounds; a URI resolves to the alias it was written for, in whatever
      order hash maps are traversed, unless its address is a host [http] or
      [https] with a port; configurations with one cache key make the
      same filesystem, but for roles that Azure and Google ignore; a request to
      a registered bucket finds its credentials by path, and by host if its name
      has no period; the SDK is initialised once and
      a second kind of cloud is refused; the cache hands every user the
      filesystem of its own configuration, and keeps no failure.
    - Writing.  Each policy puts every column into exactly one group; after any
      writes and flushes the files of the groups hold their columns of all rows
      in order, and a column group writer touches no file but its own.
    - Reading.  The chunks of an opened column group tile its visible rows; reading
      chunks together, in parallel or asynchronously returns what reading each
      alone returns; a scan returns every row of every column once and ends; a
      take returns exactly the requested rows in the requested order, at once or
      asynchronously, and refuses rows out of range.
    - Format reader cache.  Under every interleaving all callers of a key get the
      value that one of them loaded, a failed load leaves nothing behind, and from
      every reachable state every call can return.
    - Vortex plans read exactly the requested rows, and the planner accepts the
      cells that the builders make.
    - Large objects.  Every reference handed out reads back as its value; batch and
      array reads agree with single reads; aborting deletes the files.
    - Segments.  A written segment holds every batch with references in place of
      its large objects; each reference resolves to its value in a file that the
      output lists, and no row is referenced twice; a reader gives the original
      values back for whatever rows its scan returns.
    - C interface.  Column groups and manifests that are exported, imported and
      destroyed come back unchanged, but for the delta logs that do not cross,
      and the memory is then what it was; whichever allocations fail, an export
      of column groups into a null word and the builder touch no memory they
      must not, and the builder leaves nothing behind; properties are found by their keys.
      Through C structures a transaction records exactly what they denote, and a
      commit that reports success stores the groups that the caller appended.
    - Layout, URIs and statuses.  Base paths and URIs are recovered from what
      was built, and the classification of statuses is consistent.
    - Defects.  Theorems whose comment says so state what the code does on a
      concrete input where this is not what it means to do: appends that
      mutate recorded updates, the retry limit [UINT32_MAX], unsorted paths and
      a retry in the packed reader, a write after closing, zero-byte slices, two
      Azure accounts behind one cache key, an ambiguous alias, an address with a
      host named [http], a bucket with a period in its name, an aborted segment
      that leaves files, a field id without metadata, exports that leak or read
      counters that were never written when memory runs out, properties with a
      repeated key, a negative version that is not the latest.

    ** Bounds and fuel

    Loops over containers are structural.  The commit loop takes
    [retry_limit + 1] fuel, the flush loops the size of the heap, the prefetch
    loop the number of row groups that are left, the eviction loop the number
    of entries, the loops of the scan the number of chunks that are left, the
    splitting of tasks their total size, [CopySelectedRows] the number of indices; each is proved enough, since running out is [Ub] or [None] and
    the theorems exclude it.  The reader's theorems ask for at most [INT32_MAX]
    rows, because the code keeps row offsets of its heap in an [int]; those of the C
    interface for counters that fit the 32 bits of their fields and strings
    without NUL.

    ** What is not modelled

    Log lines, message texts and fault injection.  The file format adapters
    and the S3, Azure and GCP clients, which call libraries and services that
    are not in the repository.  Of the C interface the functions on readers,
    writers, filesystems and segments, which unpack their arguments for the
    classes modelled here, the debug strings, and the allocations of the C++
    containers it uses.  The JNI and Rust bindings. *)

From stdpp Require Export base tactics list gmap strings pretty numbers sorting.
From Stdlib Require Export ZArith Lia.

#[global] Open Scope Z_scope.

(** ** Outcomes of C++ code

    [Ok] is a normal return, [Err] a returned [arrow::Status] (or a thrown
    exception, depending on [E]) and [Ub] undefined behaviour: a null
    dereference, or growing a vector while iterating over it.  A theorem that
    concludes [Ok] or [Err] therefore also excludes undefined behaviour. *)
Inductive outcome (E A : Type) : Type :=
  | Ok (a : A)
  | Err (e : E)
  | Ub.
Arguments Ok {E A} a.
Arguments Err {E A} e.
Arguments Ub {E A}.

#[global] Instance outcome_ret {E} : MRet (outcome E) := λ A a, Ok a.
#[global] Instance outcome_bind {E} : MBind (outcome E) := λ A B f m,
  match m with Ok a => f a | Err e => Err e | Ub => Ub end.
#[global] Instance outcome_fmap {E} : FMap (outcome E) := λ A B f m,
  match m with Ok a => Ok (f a) | Err e => Err e | Ub => Ub end.

#[global] Instance outcome_eq_dec `{EqDecision E, EqDecision A} :
  EqDecision (outcome E A).
Proof. solve_decision. Defined.

(** A null [shared_ptr] dereference. *)
Definition deref {E A} (p : option A) : outcome E A :=
  match p with Some a => Ok a | None => Ub end.

(** ** State passing with errors

    The effects of a C++ function that mutates [S]: the state survives an
    error return. *)
Definition M (S E A : Type) : Type := S → S * outcome E A.

#[global] Instance M_ret {S E} : MRet (M S E) := λ A a s, (s, Ok a).
#[global] Instance M_bind {S E} : MBind (M S E) := λ A B f m s,
  match m s with
  | (s', Ok a) => f a s'
  | (s', Err e) => (s', Err e)
  | (s', Ub) => (s', Ub)
  end.
#[global] Instance M_fmap {S E} : FMap (M S E) := λ A B f m s,
  match m s with
  | (s', Ok a) => (s', Ok (f a))
  | (s', Err e) => (s', Err e)
  | (s', Ub) => (s', Ub)
  end.

Section state_ops.
Context {S E : Type}.

Definition get_st : M S E S := λ s, (s, Ok s).
Definition put_st (s : S) : M S E unit := λ _, (s, Ok tt).
Definition modify (f : S → S) : M S E unit := λ s, (f s, Ok tt).
Definition fail {A} (e : E) : M S E A := λ s, (s, Err e).
Definition undefined {A} : M S E A := λ s, (s, Ub).
(** Lift a computation that does not touch the state. *)
Definition lift {A} (o : outcome E A) : M S E A := λ s, (s, o).
(** Keep a returned status instead of propagating it. *)
Definition catch {A} (m : M S E A) : M S E (A + E) := λ s,
  match m s with
  | (s', Ok a) => (s', Ok (inl a))
  | (s', Err e) => (s', Ok (inr e))
  | (s', Ub) => (s', Ub)
  end.
End state_ops.

(** A range-based [for] over a container that only carries effects. *)
Fixpoint for_each {S E A} (f : A → M S E unit) (l : list A) : M S E unit :=
  match l with
  | [] => mret tt
  | x :: l' => f x ;; for_each f l'
  end.

(** A range-based [for] that threads an accumulator and may return early. *)
Fixpoint fold_out {E A B} (f : B → A → outcome E B) (l : list A) (b : B) : outcome E B :=
  match l with
  | [] => Ok b
  | x :: l' => b' ← f b x; fold_out f l' b'
  end.

(** A range-based [for] whose body only checks and may return an error. *)
Fixpoint check_all {E A} (f : A → outcome E unit) (l : list A) : outcome E unit :=
  match l with
  | [] => Ok tt
  | x :: l' => f x ;; check_all f l'
  end.

(** ** Machine integers *)

Definition INT64_MIN : Z := - 2 ^ 63.
Definition INT64_MAX : Z := 2 ^ 63 - 1.
Definition UINT64_MOD : Z := 2 ^ 64.
Definition INT32_MIN : Z := - 2 ^ 31.
Definition INT32_MAX : Z := 2 ^ 31 - 1.

Definition in_int64 (z : Z) : bool := (INT64_MIN <=? z) && (z <=? INT64_MAX).
Definition in_int32 (z : Z) : bool := (INT32_MIN <=? z) && (z <=? INT32_MAX).
Definition in_uint64 (z : Z) : bool := (0 <=? z) && (z <? UINT64_MOD).

(** Conversion to [size_t] / arithmetic on [size_t]. *)
Definition wrap_u64 (z : Z) : Z := z mod UINT64_MOD.
(** Conversion of a [size_t] to [int64_t]. *)
Definition wrap_i64 (z : Z) : Z := (z + 2 ^ 63) mod UINT64_MOD - 2 ^ 63.

(** Conversion of a wider integer to [int]. *)
Definition wrap_i32 (z : Z) : Z := (z + 2 ^ 31) mod 2 ^ 32 - 2 ^ 31.

Lemma wrap_i32_small z : INT32_MIN ≤ z ≤ INT32_MAX → wrap_i32 z = z.
Proof.
  unfold wrap_i32, INT32_MIN, INT32_MAX. intros. rewrite Z.mod_small; lia.
Qed.

Lemma wrap_u64_range z : 0 ≤ wrap_u64 z < UINT64_MOD.
Proof. apply Z.mod_pos_bound. done. Qed.

Lemma wrap_u64_small z : 0 ≤ z < UINT64_MOD → wrap_u64 z = z.
Proof. apply Z.mod_small. Qed.

Lemma wrap_u64_idemp_add a b : wrap_u64 (wrap_u64 a + b) = wrap_u64 (a + b).
Proof. unfold wrap_u64. apply Zplus_mod_idemp_l. Qed.

(** Arithmetic on [size_t] and [uint64_t]. *)
Definition u64_add (a b : Z) : Z := wrap_u64 (a + b).
Definition u64_sub (a b : Z) : Z := wrap_u64 (a - b).

Lemma u64_add_small a b : 0 ≤ a + b < UINT64_MOD → u64_add a b = a + b.
Proof. apply wrap_u64_small. Qed.

Lemma u64_sub_small a b : 0 ≤ a - b < UINT64_MOD → u64_sub a b = a - b.
Proof. apply wrap_u64_small. Qed.

Lemma wrap_i64_small z : INT64_MIN ≤ z ≤ INT64_MAX → wrap_i64 z = z.
Proof.
  unfold wrap_i64, INT64_MIN, INT64_MAX, UINT64_MOD. intros.
  rewrite Z.mod_small; lia.
Qed.

Lemma in_int64_spec z : in_int64 z = true ↔ INT64_MIN ≤ z ≤ INT64_MAX.
Proof. unfold in_int64. rewrite andb_true_iff, !Z.leb_le. lia. Qed.

(** ** Tactics and hint databases *)

Create HintDb milvus.
Create Rewrite HintDb milvus_rw.

(** Case analysis on the outcome of every bind in a hypothesis, keeping the
    branches that can still hold. *)
Ltac simp_bind H :=
  repeat match type of H with
  | context [mbind _ ?m] => let E := fresh "Hm" in
      unfold mbind, outcome_bind, M_bind in H; cbn beta in H
  | context [match ?m with Ok _ => _ | Err _ => _ | Ub => _ end] =>
      let E := fresh "Hm" in destruct m eqn:E; try discriminate H
  end.

Ltac split_and_all := repeat match goal with
  | H : _ ∧ _ |- _ => destruct H
  | H : ∃ _, _ |- _ => destruct H
  end.

(** ** Generic lemmas *)

Section monad_laws.
Context {S E : Type}.

Lemma bind_Ok {A B} (a : A) (f : A → outcome E B) : (Ok a ≫= f) = f a.
Proof. done. Qed.
Lemma bind_Err {A B} (e : E) (f : A → outcome E B) : (Err e ≫= f) = Err e.
Proof. done. Qed.
Lemma bind_Ub {A B} (f : A → outcome E B) : (Ub ≫= f) = Ub.
Proof. done. Qed.

Lemma bind_Ok_inv {A B} (m : outcome E A) (f : A → outcome E B) b :
  (m ≫= f) = Ok b → ∃ a, m = Ok a ∧ f a = Ok b.
Proof. destruct m; simpl; eauto; discriminate. Qed.

Lemma M_bind_Ok_inv {A B} (m : M S E A) (f : A → M S E B) s s' b :
  (m ≫= f) s = (s', Ok b) → ∃ s1 a, m s = (s1, Ok a) ∧ f a s1 = (s', Ok b).
Proof.
  unfold mbind, M_bind. destruct (m s) as [s1 [a|e|]]; intros; [eauto|congruence..].
Qed.

Lemma M_bind_Ok {A B} (m : M S E A) (f : A → M S E B) s s1 a :
  m s = (s1, Ok a) → (m ≫= f) s = f a s1.
Proof. unfold mbind, M_bind. by intros ->. Qed.

(** Every outcome of a bind, with the state it leaves. *)
Lemma M_bind_inv {A B} (m : M S E A) (f : A → M S E B) s s' r :
  (m ≫= f) s = (s', r) →
  (∃ s1 a, m s = (s1, Ok a) ∧ f a s1 = (s', r)) ∨
  (∃ e, m s = (s', Err e) ∧ r = Err e) ∨ (m s = (s', Ub) ∧ r = Ub).
Proof.
  unfold mbind, M_bind. destruct (m s) as [s1 [a|e|]]; intros; simplify_eq; eauto 10.
Qed.

Lemma M_bind_Err {A B} (m : M S E A) (f : A → M S E B) s s1 e :
  m s = (s1, Err e) → (m ≫= f) s = (s1, Err e).
Proof. unfold mbind, M_bind. by intros ->. Qed.
End monad_laws.

(** ** Weakest preconditions

    [wp m s Q R]: from [s] the computation has no undefined behaviour, a
    normal return satisfies [Q] and an error return satisfies [R]. *)
Section weakest_pre.
Context {S E : Type}.

Definition wp {A} (m : M S E A) (s : S) (Q : A → S → Prop) (R : E → S → Prop) : Prop :=
  match m s with
  | (s', Ok a) => Q a s'
  | (s', Err e) => R e s'
  | (_, Ub) => False
  end.

Lemma wp_bind {A B} (m : M S E A) (f : A → M S E B) s Q R :
  wp m s (λ a s', wp (f a) s' Q R) R → wp (m ≫= f) s Q R.
Proof. unfold wp, mbind, M_bind. by destruct (m s) as [s' [a|e|]]. Qed.

Lemma wp_mono {A} (m : M S E A) s (Q Q' : A → S → Prop) (R R' : E → S → Prop) :
  wp m s Q R → (∀ a s', Q a s' → Q' a s') → (∀ e s', R e s' → R' e s') → wp m s Q' R'.
Proof. unfold wp. destruct (m s) as [s' [a|e|]]; auto. Qed.

Lemma wp_seq {A B} (m : M S E A) (f : A → M S E B) s Q0 Q R :
  wp m s Q0 R → (∀ a s', Q0 a s' → wp (f a) s' Q R) → wp (m ≫= f) s Q R.
Proof. intros Hm Hf. apply wp_bind. eapply wp_mono; eauto. Qed.

Lemma wp_ret {A} (a : A) s Q R : Q a s → wp (mret a : M S E A) s Q R.
Proof. done. Qed.

Lemma wp_get s (Q : S → S → Prop) R : Q s s → wp (get_st : M S E S) s Q R.
Proof. done. Qed.

Lemma wp_modify (f : S → S) s Q R : Q tt (f s) → wp (modify f : M S E unit) s Q R.
Proof. done. Qed.

Lemma wp_lift {A} (o : outcome E A) a s Q R : o = Ok a → Q a s → wp (lift o) s Q R.
Proof. by intros ->. Qed.

Lemma wp_Ok {A} (m : M S E A) s s' a Q R : m s = (s', Ok a) → wp m s Q R → Q a s'.
Proof. unfold wp. by intros ->. Qed.

Lemma wp_and {A} (m : M S E A) s Q1 Q2 R :
  wp m s Q1 R → wp m s Q2 R → wp m s (λ a s', Q1 a s' ∧ Q2 a s') R.
Proof. unfold wp. destruct (m s) as [s' [a|e|]]; auto. Qed.
End weakest_pre.

Section loops.
Context {E : Type}.

Lemma check_all_Ok {A} (f : A → outcome E unit) l :
  check_all f l = Ok tt ↔ Forall (λ x, f x = Ok tt) l.
Proof.
  induction l as [|x l IH]; simpl; [by split|].
  rewrite Forall_cons. destruct (f x) as [[]| |] eqn:Hf; simpl.
  - rewrite IH. naive_solver.
  - split; [discriminate|naive_solver congruence].
  - split; [discriminate|naive_solver congruence].
Qed.

Lemma fold_out_app {A B} (f : B → A → outcome E B) l1 l2 b :
  fold_out f (l1 ++ l2) b = fold_out f l1 b ≫= fold_out f l2.
Proof.
  revert b; induction l1 as [|x l1 IH]; intros b; simpl; [done|].
  destruct (f b x); simpl; auto.
Qed.

Lemma fold_out_invariant {A B} (P : B → Prop) (f : B → A → outcome E B) l b b' :
  P b → (∀ x c c', x ∈ l → P c → f c x = Ok c' → P c') →
  fold_out f l b = Ok b' → P b'.
Proof.
  revert b; induction l as [|x l IH]; simpl; intros b Hb Hf Hl.
  - congruence.
  - apply bind_Ok_inv in Hl as (c & Hx & Hl).
    eapply IH; [|intros; eapply Hf; [by right|..]; eauto|exact Hl].
    eapply Hf; [by left|..]; eauto.
Qed.
(** A traversal in another order, when steps on different entries commute. *)
Lemma fold_out_perm {A B K} (g : A → K) (P : A → Prop) (f : B → A → outcome E B) l1 l2 b :
  (∀ x y b, P x → P y → g x ≠ g y → (b' ← f b x; f b' y) = (b' ← f b y; f b' x)) →
  l1 ≡ₚ l2 → NoDup (g <$> l1) → Forall P l1 → fold_out f l1 b = fold_out f l2 b.
Proof.
  intros Hc Hp. revert b. induction Hp as [|x l1 l2 Hp IH|x y l|l1 l2 l3 Hp1 IH1 Hp2 IH2]; intros b Hnd HP.
  - done.
  - cbn [fold_out]. rewrite fmap_cons, NoDup_cons in Hnd. apply Forall_cons in HP as [_ HP].
    destruct (f b x) as [b'|e|]; [|done..]. rewrite !bind_Ok. apply IH; [apply Hnd|done].
  - cbn [fold_out]. rewrite !fmap_cons, !NoDup_cons in Hnd. apply Forall_cons in HP as [Hy HP].
    apply Forall_cons in HP as [Hx _]. destruct Hnd as [Hxy _].
    assert (g y ≠ g x) as Hne by (intros Heq; apply Hxy; rewrite Heq; apply list_elem_of_here).
    specialize (Hc y x b Hy Hx Hne).
    transitivity (b' ← (b' ← f b y; f b' x); fold_out f l b').
    + destruct (f b y); reflexivity.
    + rewrite Hc. destruct (f b x); reflexivity.
  - rewrite IH1 by done. apply IH2; [by rewrite <- Hp1|by rewrite <- Hp1].
Qed.

End loops.

(** Filtering a list by a boolean predicate: [erase(remove_if ...)]. *)
Definition remove_if {A} (p : A → bool) (l : list A) : list A :=
  List.filter (λ x, negb (p x)) l.

Lemma elem_of_remove_if {A} (p : A → bool) l x :
  x ∈ remove_if p l ↔ x ∈ l ∧ p x = false.
Proof.
  unfold remove_if. rewrite !list_elem_of_In, filter_In, negb_true_iff. done.
Qed.

Lemma remove_if_idemp {A} (p : A → bool) l : remove_if p (remove_if p l) = remove_if p l.
Proof.
  induction l as [|x l IH]; simpl; [done|]. unfold remove_if in *; simpl.
  destruct (p x) eqn:Hp; simpl; [done|]. rewrite Hp; simpl. by f_equal.
Qed.

Lemma remove_if_none {A} (p : A → bool) l :
  (∀ x, x ∈ l → p x = false) → remove_if p l = l.
Proof.
  unfold remove_if. induction l as [|x l IH]; simpl; intros Hp; [done|].
  rewrite Hp by left. simpl. f_equal. apply IH. intros; apply Hp; by right.
Qed.

Lemma filter_none {A} (P : A → Prop) `{∀ x, Decision (P x)} l : Forall (λ x, ¬ P x) l → filter P l = [].
Proof. induction 1; [done|]. by rewrite filter_cons_False. Qed.

Lemma remove_if_app {A} (p : A → bool) l1 l2 :
  remove_if p (l1 ++ l2) = remove_if p l1 ++ remove_if p l2.
Proof. apply List.filter_app. Qed.

Lemma remove_if_comm {A} (p q : A → bool) l :
  remove_if p (remove_if q l) = remove_if q (remove_if p l).
Proof.
  unfold remove_if. induction l as [|x l IH]; simpl; [done|].
  destruct (p x) eqn:Hp, (q x) eqn:Hq; simpl; rewrite ?Hp, ?Hq; simpl; congruence.
Qed.

#[export] Hint Resolve elem_of_remove_if : milvus.
#[export] Hint Rewrite @remove_if_idemp @remove_if_app @bind_Ok @bind_Err @bind_Ub : milvus_rw.

(** Sums of a list of integers. *)
Definition sum_Z (l : list Z) : Z := foldr Z.add 0 l.

Lemma sum_Z_app l1 l2 : sum_Z (l1 ++ l2) = sum_Z l1 + sum_Z l2.
Proof. induction l1; simpl; unfold sum_Z in *; simpl in *; lia. Qed.

Lemma sum_Z_perm l1 l2 : l1 ≡ₚ l2 → sum_Z l1 = sum_Z l2.
Proof. induction 1; unfold sum_Z in *; simpl in *; lia. Qed.

(** The integers of the half-open interval from [a] to [b]. *)
Definition seg (a b : Z) : list Z := seqZ a (b - a).

Lemma seg_nil a b : b ≤ a → seg a b = [].
Proof. intros. unfold seg. apply seqZ_nil. lia. Qed.

Lemma seg_app a m b : a ≤ m ≤ b → seg a b = seg a m ++ seg m b.
Proof.
  intros. unfold seg. replace (b - a) with ((m - a) + (b - m)) by lia.
  rewrite seqZ_app by lia. do 2 f_equal. lia.
Qed.

Lemma elem_of_seg x a b : x ∈ seg a b ↔ a ≤ x < b.
Proof. unfold seg. rewrite elem_of_seqZ. lia. Qed.

Lemma length_seg a b : length (seg a b) = Z.to_nat (b - a).
Proof. unfold seg. apply length_seqZ. Qed.

Lemma lookup_seg a b i x : seg a b !! i = Some x ↔ x = a + Z.of_nat i ∧ x < b.
Proof. unfold seg. rewrite lookup_seqZ. lia. Qed.

(** Cutting an interval at [m] and clipping both parts to the same window. *)
Lemma seg_clip lo hi a m b :
  a ≤ m ≤ b →
  seg (Z.max lo a) (Z.min hi b) = seg (Z.max lo a) (Z.min hi m) ++ seg (Z.max lo m) (Z.min hi b).
Proof.
  intros Hm. destruct (decide (Z.min hi m ≤ Z.max lo a)) as [Hl|Hl].
  - rewrite (seg_nil _ (Z.min hi m)) by done. simpl.
    destruct (decide (Z.min hi b ≤ Z.max lo m)) as [Hr|Hr].
    + rewrite !seg_nil by lia. done.
    + f_equal. lia.
  - destruct (decide (Z.min hi b ≤ Z.max lo m)) as [Hr|Hr].
    + rewrite (seg_nil (Z.max lo m)) by done. rewrite app_nil_r. f_equal. lia.
    + rewrite (seg_app (Z.max lo a) m) by lia. do 2 f_equal; lia.
Qed.

(** ** Priority queues

    [std::priority_queue] as the multiset of its elements, a list up to
    permutation.  [pop_top] is [top] followed by [pop]: some element whose key
    is greatest.  Which of several such elements it is, the standard leaves to
    the implementation, so clients are proved for any choice. *)
Class PriorityQueue {A : Type} (key : A → Z) := {
  pop_top : list A → option (A * list A);
  pop_top_None l : pop_top l = None ↔ l = [];
  pop_top_Some l a l' : pop_top l = Some (a, l') →
    l ≡ₚ a :: l' ∧ Forall (λ b, key b ≤ key a) l;
}.

Lemma pop_top_length `{PriorityQueue A key} l a l' :
  pop_top l = Some (a, l') → length l = S (length l').
Proof. intros [Hp _]%pop_top_Some. by rewrite Hp. Qed.

(** A concrete choice: the first greatest element. *)
Fixpoint pop_first {A} (key : A → Z) (l : list A) : option (A * list A) :=
  match l with
  | [] => None
  | x :: l' =>
      match pop_first key l' with
      | None => Some (x, [])
      | Some (y, r) => if key y <=? key x then Some (x, l') else Some (y, x :: r)
      end
  end.

Lemma pop_first_spec {A} (key : A → Z) l a l' :
  pop_first key l = Some (a, l') → l ≡ₚ a :: l' ∧ Forall (λ b, key b ≤ key a) l.
Proof.
  revert a l'; induction l as [|x l IH]; intros a l'; simpl; [done|].
  destruct (pop_first key l) as [[y r]|] eqn:E.
  - destruct (IH y r eq_refl) as [Hp Hf]. rewrite Forall_forall in Hf.
    assert (y ∈ l) as Hy by (rewrite Hp; by left).
    destruct (Z.leb_spec (key y) (key x)) as [Hle|Hgt]; intros [= <- <-]; split.
    + done.
    + constructor; [lia|]. apply Forall_forall. intros b Hb. specialize (Hf b Hb). simpl in Hf. lia.
    + rewrite Hp. apply Permutation_swap.
    + constructor; [lia|]. apply Forall_forall. intros b Hb. by apply Hf.
  - intros [= <- <-]. destruct l as [|z l]; [split; [done|by repeat constructor]|].
    simpl in E. destruct (pop_first key l) as [[]|]; [by case_match|done].
Qed.

Lemma pop_first_None {A} (key : A → Z) l : pop_first key l = None ↔ l = [].
Proof.
  split; [|by intros ->]. destruct l as [|x l]; [done|]. simpl.
  destruct (pop_first key l) as [[]|]; [by case_match|done].
Qed.

(** Not an instance for every key: clients choose. *)
Definition first_greatest {A} (key : A → Z) : PriorityQueue key :=
  {| pop_top := pop_first key; pop_top_None := pop_first_None key;
     pop_top_Some := pop_first_spec key |}.
