(* ===== verification/CppString.v ===== *)
(** * C++ strings and number conversion

    The operations of [std::string], [std::to_string], [std::from_chars] and
    [std::stoll] that the repository uses, as executable functions on
    [string], with the round-trip lemmas the components share. *)

From S2P Require Import Prelude.
From Stdlib Require Import Ascii.

(** ** Splitting and searching *)

(** The [find(c)]/[substr] loop over a one-character delimiter: the pieces
    between delimiters, never empty. *)
Fixpoint split_on (c : ascii) (s : string) : list string :=
  match s with
  | EmptyString => [EmptyString]
  | String a s' =>
      if Ascii.eqb a c then EmptyString :: split_on c s'
      else match split_on c s' with
           | [] => [String a EmptyString]
           | w :: ws => String a w :: ws
           end
  end.

(** Writing items to a stream with a delimiter between them. *)
Fixpoint join_with (c : ascii) (l : list string) : string :=
  match l with
  | [] => EmptyString
  | [w] => w
  | w :: l' => w +:+ String c (join_with c l')
  end.

(** The loop [while (std::getline(ss, token, c))]: as [split_on], but an empty
    piece at the very end of the stream is not produced. *)
Definition getline_all (c : ascii) (s : string) : list string :=
  match last (split_on c s) with
  | Some EmptyString => take (pred (length (split_on c s))) (split_on c s)
  | _ => split_on c s
  end.

Fixpoint mem_char (c : ascii) (s : string) : bool :=
  match s with
  | EmptyString => false
  | String a s' => Ascii.eqb a c || mem_char c s'
  end.

(** [s.find(p) == 0] / [s.substr(0, p.size()) == p]. *)
Fixpoint starts_with (p s : string) : bool :=
  match p, s with
  | EmptyString, _ => true
  | String _ _, EmptyString => false
  | String a p', String b s' => Ascii.eqb a b && starts_with p' s'
  end.

(** [s.substr(n)], for [n <= s.size()]. *)
Fixpoint drop_str (n : nat) (s : string) : string :=
  match n, s with
  | O, _ => s
  | _, EmptyString => EmptyString
  | S n', String _ s' => drop_str n' s'
  end.

(** [s.substr(0, n)]. *)
Fixpoint take_str (n : nat) (s : string) : string :=
  match n, s with
  | O, _ => EmptyString
  | _, EmptyString => EmptyString
  | S n', String a s' => String a (take_str n' s')
  end.

Definition is_empty (s : string) : bool :=
  match s with EmptyString => true | _ => false end.

(** [s.back()], none on the empty string. *)
Fixpoint last_char (s : string) : option ascii :=
  match s with
  | EmptyString => None
  | String a EmptyString => Some a
  | String _ s' => last_char s'
  end.

(** [s.find_last_of(c)] as the pair of the text before and after the last
    occurrence. *)
Fixpoint rsplit1 (c : ascii) (s : string) : option (string * string) :=
  match s with
  | EmptyString => None
  | String a s' =>
      match rsplit1 c s' with
      | Some (l, r) => Some (String a l, r)
      | None => if Ascii.eqb a c then Some (EmptyString, s') else None
      end
  end.

(** ** Numbers *)

Definition digit_val (a : ascii) : option Z := Z.of_nat <$> Ascii.is_nat a.

Definition is_digit (a : ascii) : bool :=
  match digit_val a with Some _ => true | None => false end.

(** The longest prefix of decimal digits, and what follows. *)
Fixpoint scan_digits (s : string) : string * string :=
  match s with
  | EmptyString => (EmptyString, EmptyString)
  | String a s' =>
      if is_digit a then let '(d, r) := scan_digits s' in (String a d, r)
      else (EmptyString, s)
  end.

(** The value of a string of digits, after the digits already read. *)
Fixpoint dec_value (acc : Z) (s : string) : Z :=
  match s with
  | EmptyString => acc
  | String a s' => dec_value (10 * acc + default 0 (digit_val a)) s'
  end.

(** [std::to_string] / [operator<<] on an integer. *)
Definition to_string (z : Z) : string := pretty z.

(** [std::from_chars] into an integer type with range [lo..hi]: no leading
    white space, no plus sign, a minus sign only for a signed type ([lo < 0]).
    The result is the value and the unread suffix; [None] is an error code
    (no digits, or out of range). *)
Definition minus_of (lo : Z) (s : string) : bool * string :=
  match s with
  | String "-" s' => if lo <? 0 then (true, s') else (false, s)
  | _ => (false, s)
  end.

Definition from_chars (lo hi : Z) (s : string) : option (Z * string) :=
  let '(neg, body) := minus_of lo s in
  let '(d, r) := scan_digits body in
  if is_empty d then None
  else
    let v := if (neg : bool) then - dec_value 0 d else dec_value 0 d in
    if (lo <=? v) && (v <=? hi) then Some (v, r) else None.

(** [from_chars] that must consume the whole string, the idiom of the code. *)
Definition from_chars_exact (lo hi : Z) (s : string) : option Z :=
  match from_chars lo hi s with
  | Some (v, EmptyString) => Some v
  | _ => None
  end.

(** [std::stoll] and [std::stoull]: leading white space and either sign are
    accepted, trailing characters ignored; [None] is a thrown
    [invalid_argument] or [out_of_range]. *)
Fixpoint skip_spaces (s : string) : string :=
  match s with
  | String a s' => if Ascii.is_space a then skip_spaces s' else s
  | EmptyString => EmptyString
  end.

Definition sign_of (s : string) : bool * string :=
  match s with
  | String "-" s' => (true, s')
  | String "+" s' => (false, s')
  | _ => (false, s)
  end.

Definition stoll (s : string) : option Z :=
  let '(neg, body) := sign_of (skip_spaces s) in
  let '(d, _) := scan_digits body in
  if is_empty d then None
  else
    let v := if (neg : bool) then - dec_value 0 d else dec_value 0 d in
    if in_int64 v then Some v else None.

(** [strtoull] negates modulo [2^64] after the sign. *)
Definition stoull (s : string) : option Z :=
  let '(neg, body) := sign_of (skip_spaces s) in
  let '(d, _) := scan_digits body in
  if is_empty d then None
  else
    let v := dec_value 0 d in
    if in_uint64 v then Some (if (neg : bool) then wrap_u64 (- v) else v) else None.

(** ** Lemmas: append *)

Lemma app_str_nil_r s : s +:+ EmptyString = s.
Proof. induction s; unfold String.app in *; simpl; congruence. Qed.

Lemma app_str_cons a s t : String a s +:+ t = String a (s +:+ t).
Proof. done. Qed.

Lemma app_str_nil_l t : EmptyString +:+ t = t.
Proof. done. Qed.

Lemma app_str_assoc s t u : (s +:+ t) +:+ u = s +:+ (t +:+ u).
Proof. induction s; rewrite ?app_str_cons, ?app_str_nil_l; congruence. Qed.

Lemma length_app_str s t : String.length (s +:+ t) = (String.length s + String.length t)%nat.
Proof. induction s; rewrite ?app_str_cons, ?app_str_nil_l; simpl; lia. Qed.

Lemma app_str_inj_l p a b : p +:+ a = p +:+ b → a = b.
Proof. induction p; [done|]. rewrite !app_str_cons. intros [= ?]. auto. Qed.

Lemma starts_with_app p s : starts_with p (p +:+ s) = true.
Proof. induction p as [|a p IH]; [done|]. rewrite app_str_cons; simpl.
  by rewrite Ascii.eqb_refl, IH. Qed.

Lemma starts_with_inv p s : starts_with p s = true → ∃ t, s = p +:+ t.
Proof.
  revert s; induction p as [|a p IH]; intros s; [by exists s|].
  destruct s as [|b s]; simpl; [discriminate|].
  rewrite andb_true_iff. intros [Ha%Ascii.eqb_eq [t ->]%IH]. subst. by exists t.
Qed.

Lemma drop_str_app p s : drop_str (String.length p) (p +:+ s) = s.
Proof. induction p; rewrite ?app_str_cons; simpl; auto. Qed.

Lemma take_str_app p s : take_str (String.length p) (p +:+ s) = p.
Proof. induction p; rewrite ?app_str_cons; simpl; [done|congruence]. Qed.

(** ** Lemmas: splitting *)

Section split.
Context (c : ascii).

Lemma split_on_not_nil s : split_on c s ≠ [].
Proof. induction s as [|a s IH]; simpl; [done|]. by repeat case_match. Qed.

Lemma split_on_free s : mem_char c s = false → split_on c s = [s].
Proof.
  induction s as [|a s IH]; simpl; [done|].
  destruct (Ascii.eqb a c); simpl; [discriminate|]. intros H. by rewrite IH.
Qed.

Lemma split_on_app s t :
  mem_char c s = false → split_on c (s +:+ String c t) = s :: split_on c t.
Proof.
  induction s as [|a s IH]; intros Hs.
  - rewrite app_str_nil_l; simpl. by rewrite Ascii.eqb_refl.
  - rewrite app_str_cons. simpl in *. destruct (Ascii.eqb a c); simpl in *; [done|].
    by rewrite IH.
Qed.

Lemma split_join l :
  l ≠ [] → Forall (λ w, mem_char c w = false) l → split_on c (join_with c l) = l.
Proof.
  intros Hl. induction 1 as [|w l Hw Hall IH]; [done|].
  destruct l as [|w' l]; simpl.
  - by apply split_on_free.
  - rewrite split_on_app by done. f_equal. by apply IH.
Qed.

Lemma join_split s : join_with c (split_on c s) = s.
Proof.
  induction s as [|a s IH]; simpl; [done|].
  destruct (Ascii.eqb_spec a c) as [->|Hac].
  - pose proof (split_on_not_nil s). destruct (split_on c s) as [|w ws]; [done|].
    simpl in *. rewrite app_str_nil_l. by rewrite IH.
  - pose proof (split_on_not_nil s). destruct (split_on c s) as [|w ws]; [done|].
    destruct ws; simpl in *; rewrite ?app_str_cons; congruence.
Qed.

Lemma split_on_mem s : Forall (λ w, mem_char c w = false) (split_on c s).
Proof.
  induction s as [|a s IH]; simpl; [by repeat constructor|].
  destruct (Ascii.eqb a c) eqn:Ha; [by constructor|].
  destruct (split_on c s) as [|w ws]; constructor; simpl; rewrite ?Ha; auto;
    try by inversion IH.
Qed.

Lemma getline_join l :
  Forall (λ w, mem_char c w = false ∧ w ≠ EmptyString) l →
  getline_all c (join_with c l) = l.
Proof.
  intros Hl. unfold getline_all. destruct l as [|w l]; [done|].
  rewrite split_join; [|done|eapply Forall_impl; [exact Hl|naive_solver]].
  destruct (last (w :: l)) as [x|] eqn:Hlast; [|done].
  apply last_Some_elem_of in Hlast.
  rewrite Forall_forall in Hl. destruct (Hl _ Hlast) as [_ Hne]. by destruct x.
Qed.
End split.

Lemma mem_char_app c s t : mem_char c (s +:+ t) = mem_char c s || mem_char c t.
Proof. induction s; rewrite ?app_str_cons, ?app_str_nil_l; simpl; [done|].
  by rewrite IHs, orb_assoc. Qed.

(** ** Lemmas: numbers *)

Fixpoint all_digits (s : string) : bool :=
  match s with EmptyString => true | String a s' => is_digit a && all_digits s' end.

Lemma digit_val_pretty (x : N) : (x < 10)%N → digit_val (pretty_N_char x) = Some (Z.of_N x).
Proof.
  intros Hx. assert (x = 0 ∨ x = 1 ∨ x = 2 ∨ x = 3 ∨ x = 4 ∨ x = 5 ∨ x = 6 ∨ x = 7 ∨
    x = 8 ∨ x = 9)%N as Hc by lia.
  destruct_or! Hc; subst; reflexivity.
Qed.

Lemma pretty_go_value (x : N) s : dec_value 0 (pretty_N_go x s) = dec_value (Z.of_N x) s.
Proof.
  revert s; induction (N.lt_wf_0 x) as [x _ IH]; intros s.
  destruct (decide (x = 0%N)) as [->|Hx]; [done|].
  rewrite pretty_N_go_step by lia. rewrite IH by (apply N.div_lt; lia). simpl.
  rewrite digit_val_pretty by (apply N.mod_lt; lia). simpl. f_equal.
  rewrite N2Z.inj_div, N2Z.inj_mod. pose proof (Z.div_mod (Z.of_N x) 10). lia.
Qed.

Lemma pretty_go_digits (x : N) s : all_digits s = true → all_digits (pretty_N_go x s) = true.
Proof.
  revert s; induction (N.lt_wf_0 x) as [x _ IH]; intros s Hs.
  destruct (decide (x = 0%N)) as [->|Hx]; [done|].
  rewrite pretty_N_go_step by lia. apply IH; [apply N.div_lt; lia|].
  simpl. unfold is_digit. by rewrite digit_val_pretty by (apply N.mod_lt; lia).
Qed.

Lemma pretty_go_nonempty (x : N) s : s ≠ EmptyString → pretty_N_go x s ≠ EmptyString.
Proof.
  revert s; induction (N.lt_wf_0 x) as [x _ IH]; intros s Hs.
  destruct (decide (x = 0%N)) as [->|Hx]; [done|].
  rewrite pretty_N_go_step by lia. apply IH; [apply N.div_lt; lia|done].
Qed.

Lemma pretty_N_value (x : N) : dec_value 0 (pretty x) = Z.of_N x.
Proof. unfold pretty, pretty_N. case_decide; subst; [done|]. apply pretty_go_value. Qed.

Lemma pretty_N_digits (x : N) : all_digits (pretty x) = true.
Proof. unfold pretty, pretty_N. case_decide; [done|]. by apply pretty_go_digits. Qed.

Lemma pretty_N_nonempty (x : N) : is_empty (pretty x) = false.
Proof.
  unfold pretty, pretty_N. case_decide; [done|]. rewrite pretty_N_go_step by lia.
  destruct (pretty_N_go _ _) eqn:He; [|done]. by apply pretty_go_nonempty in He.
Qed.

Definition stops (r : string) : bool :=
  match r with EmptyString => true | String a _ => negb (is_digit a) end.

Lemma scan_digits_app d r :
  all_digits d = true → stops r = true → scan_digits (d +:+ r) = (d, r).
Proof.
  induction d as [|a d IH]; intros Hd Hr.
  - rewrite app_str_nil_l. destruct r as [|a r]; simpl in *; [done|].
    by destruct (is_digit a).
  - rewrite app_str_cons. simpl in *. apply andb_true_iff in Hd as [-> Hd].
    by rewrite IH.
Qed.

Lemma digits_head d : all_digits d = true → is_empty d = false →
  ∃ a d', d = String a d' ∧ is_digit a = true.
Proof. destruct d as [|a d]; [done|]. simpl. intros [? _]%andb_true_iff _. eauto. Qed.

Lemma digit_not_sign a : is_digit a = true →
  a ≠ "-"%char ∧ a ≠ "+"%char ∧ Ascii.is_space a = false.
Proof. destruct a as [[][][][][][][][]]; cbv; intros; split_and!; congruence. Qed.

Lemma digits_no_sign d r lo : all_digits d = true → is_empty d = false →
  minus_of lo (d +:+ r) = (false, d +:+ r) ∧
  sign_of (skip_spaces (d +:+ r)) = (false, d +:+ r).
Proof.
  intros Hd He. destruct (digits_head d Hd He) as (a & d' & -> & Ha).
  destruct (digit_not_sign a Ha) as (? & ? & Hs).
  rewrite app_str_cons. simpl. rewrite Hs. clear Hd He Hs.
  split; destruct a as [[][][][][][][][]]; done.
Qed.

(** A printed number is its digits, after a minus sign when negative. *)
Lemma to_string_shape z :
  ∃ d, all_digits d = true ∧ is_empty d = false ∧ dec_value 0 d = Z.abs z ∧
       to_string z = if z <? 0 then String "-" d else d.
Proof.
  unfold to_string, pretty, pretty_Z. destruct z as [|p|p].
  - by exists "0".
  - exists (pretty (N.pos p)).
    split_and!; auto using pretty_N_digits, pretty_N_nonempty, pretty_N_value.
  - exists (pretty (N.pos p)).
    split_and!; auto using pretty_N_digits, pretty_N_nonempty, pretty_N_value.
Qed.

(** Reading back a printed number, whatever follows it (not a digit). *)
Lemma from_chars_to_string lo hi z r :
  lo ≤ z ≤ hi → stops r = true → (lo < 0 ∨ 0 ≤ z) →
  from_chars lo hi (to_string z +:+ r) = Some (z, r).
Proof.
  intros Hz Hr Hsign. destruct (to_string_shape z) as (d & Hd & He & Hv & ->).
  unfold from_chars. destruct (Z.ltb_spec z 0).
  - rewrite app_str_cons. unfold minus_of. replace (lo <? 0) with true by lia.
    rewrite (scan_digits_app d r), He, Hv by done.
    replace (- Z.abs z) with z by lia.
    replace (lo <=? z) with true by lia. by replace (z <=? hi) with true by lia.
  - rewrite (proj1 (digits_no_sign d r lo Hd He)).
    rewrite (scan_digits_app d r), He, Hv by done.
    replace (Z.abs z) with z by lia.
    replace (lo <=? z) with true by lia. by replace (z <=? hi) with true by lia.
Qed.

Lemma from_chars_exact_to_string lo hi z :
  lo ≤ z ≤ hi → (lo < 0 ∨ 0 ≤ z) → from_chars_exact lo hi (to_string z) = Some z.
Proof.
  intros. unfold from_chars_exact.
  rewrite <- (app_str_nil_r (to_string z)), from_chars_to_string by done. done.
Qed.

Lemma stoll_to_string z : INT64_MIN ≤ z ≤ INT64_MAX → stoll (to_string z) = Some z.
Proof.
  intros Hz%in_int64_spec. destruct (to_string_shape z) as (d & Hd & He & Hv & ->).
  unfold stoll. pose proof (scan_digits_app d "" Hd eq_refl) as Hscan.
  rewrite app_str_nil_r in Hscan. destruct (Z.ltb_spec z 0).
  - simpl. rewrite Hscan, He, Hv. replace (- Z.abs z) with z by lia. by rewrite Hz.
  - rewrite <- (app_str_nil_r d), (proj2 (digits_no_sign d "" 0 Hd He)), app_str_nil_r.
    rewrite Hscan, He, Hv. replace (Z.abs z) with z by lia. by rewrite Hz.
Qed.

Lemma stoull_to_string z : 0 ≤ z < UINT64_MOD → stoull (to_string z) = Some z.
Proof.
  intros Hz. destruct (to_string_shape z) as (d & Hd & He & Hv & ->).
  replace (z <? 0) with false by lia. unfold stoull.
  rewrite <- (app_str_nil_r d), (proj2 (digits_no_sign d "" 0 Hd He)), app_str_nil_r.
  pose proof (scan_digits_app d "" Hd eq_refl) as Hscan. rewrite app_str_nil_r in Hscan.
  rewrite Hscan, He, Hv. replace (Z.abs z) with z by lia.
  assert (in_uint64 z = true) as -> by (unfold in_uint64; lia). done.
Qed.

(** A printed number contains no character that is neither a digit nor a minus
    sign: delimiters survive printing. *)
Lemma digits_mem_char c d : is_digit c = false → all_digits d = true → mem_char c d = false.
Proof.
  intros Hc. induction d as [|a d IH]; simpl; [done|]. intros [Ha Hd]%andb_true_iff.
  rewrite (IH Hd), orb_false_r. apply Ascii.eqb_neq. congruence.
Qed.

Lemma to_string_mem_char c z :
  is_digit c = false → c ≠ "-"%char → mem_char c (to_string z) = false.
Proof.
  intros Hc Hm. destruct (to_string_shape z) as (d & Hd & _ & _ & ->).
  destruct (z <? 0); [|by apply digits_mem_char].
  change (Ascii.eqb "-" c || mem_char c d = false).
  rewrite (digits_mem_char c d), orb_false_r by done. apply Ascii.eqb_neq. congruence.
Qed.

Lemma to_string_nonempty z : is_empty (to_string z) = false.
Proof.
  destruct (to_string_shape z) as (d & _ & He & _ & ->). by destruct (z <? 0).
Qed.

Lemma to_string_inj z1 z2 : to_string z1 = to_string z2 → z1 = z2.
Proof. unfold to_string. apply (inj pretty). Qed.

#[export] Hint Rewrite app_str_nil_l app_str_nil_r app_str_cons app_str_assoc
  length_app_str : milvus_rw.
#[export] Hint Resolve to_string_nonempty starts_with_app : milvus.
