(* ===== verification/Status.v ===== *)
(** * Statuses and their classification

    [arrow::Status] with the repository's extension codes
    ([common/extend_status.h/.cpp]), the error codes that cross the C ABI
    ([ffi_internal/ffi_error_code.h], [ffi_internal/result.h],
    [ffi/result_c.cpp]) and the classification segcore consumes.  The text of
    a message is not modelled: no code branches on it. *)

From S2P Require Import Prelude CppString.

(** [arrow::StatusCode] (the error codes; OK is [outcome]'s [Ok]). *)
Inductive StatusCode :=
  | OutOfMemory | KeyError | TypeError | Invalid | IOError | CapacityError
  | IndexError | Cancelled | UnknownError | NotImplemented | SerializationError
  | RError | CodeGenError | ExpressionValidationError | ExecutionError | AlreadyExists.

(** [enum class ExtendStatusCode]. *)
Inductive ExtendStatusCode :=
  | PackedInvalidArgs | PackedStorageIO | PackedMetadataCorrupted | PackedFileCorrupted
  | PackedArrowError | PackedUnexpected
  | AwsErrorNoSuchUpload | AwsErrorConflict | AwsErrorPreConditionFailed
  | AwsErrorNotFound | AwsErrorAccessDenied | AwsErrorNonRetryable
  | StorageTransientNetwork | StorageTransientTimeout | StorageTransientThrottling
  | StorageTransientService
  | TxnExhaustedRetry | TxnResolutionFailed.

#[global] Instance StatusCode_eq_dec : EqDecision StatusCode.
Proof. solve_decision. Defined.
#[global] Instance ExtendStatusCode_eq_dec : EqDecision ExtendStatusCode.
Proof. solve_decision. Defined.

(** [status.detail()]: this repository's detail, arrow's errno detail (with the
    errno it carries), or a detail of another type. *)
Inductive StatusDetail :=
  | ExtendDetail (code : ExtendStatusCode)
  | ErrnoDetail (errno : Z)
  | OtherDetail.

Record Status := mkStatus {
  st_code : StatusCode;
  st_detail : option StatusDetail;
}.

#[global] Instance StatusDetail_eq_dec : EqDecision StatusDetail.
Proof. solve_decision. Defined.
#[global] Instance Status_eq_dec : EqDecision Status.
Proof. solve_decision. Defined.

(** [arrow::Result<A>] and [arrow::Status]. *)
Abbreviation Result A := (outcome Status A).

Definition status_Invalid : Status := mkStatus Invalid None.
Definition status_IOError : Status := mkStatus IOError None.
Definition status_AlreadyExists : Status := mkStatus AlreadyExists None.
Definition status_NotImplemented : Status := mkStatus NotImplemented None.
Definition status_IndexError : Status := mkStatus IndexError None.

(** ** The table of extension codes *)

(** The numeric values of the enumerators: 50 to 55, then the values of the
    LOON_* macros. *)
Definition ext_code_int (c : ExtendStatusCode) : Z :=
  match c with
  | PackedInvalidArgs => 50
  | PackedStorageIO => 51
  | PackedMetadataCorrupted => 52
  | PackedFileCorrupted => 53
  | PackedArrowError => 54
  | PackedUnexpected => 55
  | AwsErrorNoSuchUpload => 101
  | AwsErrorConflict => 102
  | AwsErrorPreConditionFailed => 103
  | AwsErrorNotFound => 104
  | AwsErrorAccessDenied => 105
  | AwsErrorNonRetryable => 106
  | StorageTransientNetwork => 107
  | StorageTransientTimeout => 108
  | StorageTransientThrottling => 109
  | StorageTransientService => 110
  | TxnExhaustedRetry => 111
  | TxnResolutionFailed => 112
  end.

Record ExtendStatusCodeMetadata := mkMeta {
  meta_code : ExtendStatusCode;
  meta_name : string;
  meta_retryable : bool;
}.

Definition kExtendStatusCodeMetadata : list ExtendStatusCodeMetadata :=
  [ mkMeta PackedInvalidArgs "PackedInvalidArgs" false;
    mkMeta PackedStorageIO "PackedStorageIO" false;
    mkMeta PackedMetadataCorrupted "PackedMetadataCorrupted" false;
    mkMeta PackedFileCorrupted "PackedFileCorrupted" false;
    mkMeta PackedArrowError "PackedArrowError" false;
    mkMeta PackedUnexpected "PackedUnexpected" false;
    mkMeta AwsErrorNoSuchUpload "AwsErrorNoSuchUpload" true;
    mkMeta AwsErrorConflict "AwsErrorConflict" false;
    mkMeta AwsErrorPreConditionFailed "AwsErrorPreConditionFailed" false;
    mkMeta AwsErrorNotFound "AwsErrorNotFound" false;
    mkMeta AwsErrorAccessDenied "AwsErrorAccessDenied" false;
    mkMeta AwsErrorNonRetryable "AwsErrorNonRetryable" false;
    mkMeta StorageTransientNetwork "StorageTransientNetwork" true;
    mkMeta StorageTransientTimeout "StorageTransientTimeout" true;
    mkMeta StorageTransientThrottling "StorageTransientThrottling" true;
    mkMeta StorageTransientService "StorageTransientService" true;
    mkMeta TxnExhaustedRetry "TxnExhaustedRetry" false;
    mkMeta TxnResolutionFailed "TxnResolutionFailed" false ].

(** The two overloads of [FindExtendStatusCodeMetadata]. *)
Definition FindExtendStatusCodeMetadata (code : ExtendStatusCode) :
    option ExtendStatusCodeMetadata :=
  List.find (λ m, bool_decide (meta_code m = code)) kExtendStatusCodeMetadata.

Definition FindExtendStatusCodeMetadata_int (code : Z) : option ExtendStatusCodeMetadata :=
  List.find (λ m, ext_code_int (meta_code m) =? code) kExtendStatusCodeMetadata.

Definition CodeAsString (code : ExtendStatusCode) : string :=
  match FindExtendStatusCodeMetadata code with
  | Some m => meta_name m
  | None => "Unknown"
  end.

Definition ExtendStatusCodeFromInt (code : Z) : option ExtendStatusCode :=
  meta_code <$> FindExtendStatusCodeMetadata_int code.

Definition DefaultRetryableForExtendStatusCode (code : ExtendStatusCode) : bool :=
  match FindExtendStatusCodeMetadata code with
  | Some m => meta_retryable m
  | None => false
  end.

(** [ExtendStatusDetail::UnwrapStatus]. *)
Definition UnwrapStatus (st : Status) : option ExtendStatusCode :=
  match st_detail st with
  | Some (ExtendDetail c) => Some c
  | _ => None
  end.

Definition MakeExtendError (code : ExtendStatusCode) : Status :=
  mkStatus (if decide (code = PackedInvalidArgs) then Invalid else IOError)
           (Some (ExtendDetail code)).

Definition WrapExtendError (code : ExtendStatusCode) (cause : Status) : Status :=
  match st_detail cause with
  | Some d => mkStatus (st_code cause) (Some d)
  | None => MakeExtendError code
  end.

(** [milvus::ErrorCode], the codes this file returns. *)
Inductive SegcoreErrorCode :=
  | Success | InvalidParameter | StorageError | DataFormatBroken | StorageTransientError
  | ObjectNotExist | MemAllocateFailed.

#[global] Instance SegcoreErrorCode_eq_dec : EqDecision SegcoreErrorCode.
Proof. solve_decision. Defined.

Definition ToSegcoreErrorCode (code : ExtendStatusCode) : SegcoreErrorCode :=
  match code with
  | PackedInvalidArgs => InvalidParameter
  | PackedStorageIO => StorageError
  | PackedMetadataCorrupted | PackedFileCorrupted => DataFormatBroken
  | PackedArrowError | PackedUnexpected => StorageError
  | AwsErrorNoSuchUpload => StorageTransientError
  | StorageTransientNetwork | StorageTransientTimeout
  | StorageTransientThrottling | StorageTransientService => StorageTransientError
  | AwsErrorConflict | AwsErrorPreConditionFailed
  | TxnExhaustedRetry | TxnResolutionFailed => StorageError
  | AwsErrorNotFound => ObjectNotExist
  | AwsErrorAccessDenied | AwsErrorNonRetryable => StorageError
  end.

Definition ENOENT : Z := 2.

(** [arrow::internal::ErrnoFromStatus]: 0 without an errno detail. *)
Definition ErrnoFromStatus (st : Status) : Z :=
  match st_detail st with Some (ErrnoDetail n) => n | _ => 0 end.

(** [ToSegcoreError]; [None] is an OK status. *)
Definition ToSegcoreError (st : option Status) : SegcoreErrorCode :=
  match st with
  | None => Success
  | Some st =>
      match UnwrapStatus st with
      | Some c => ToSegcoreErrorCode c
      | None =>
          if ErrnoFromStatus st =? ENOENT then ObjectNotExist
          else match st_code st with
               | OutOfMemory => MemAllocateFailed
               | IOError => StorageError
               | Invalid | TypeError | KeyError => DataFormatBroken
               | _ => StorageError
               end
      end
  end.

(** ** The C ABI *)

Definition LOON_SUCCESS : Z := 0.
Definition LOON_ARROW_ERROR : Z := 3.
Definition LOON_FILE_NOT_FOUND : Z := 12.

Definition FFIErrorCodeFromExtendStatusCode (code : ExtendStatusCode) (fallback : Z) : Z :=
  match ExtendStatusCodeFromInt (ext_code_int code) with
  | Some _ => ext_code_int code
  | None => fallback
  end.

Definition ExtendStatusCodeFromFFIErrorCode (err_code : Z) : option ExtendStatusCode :=
  ExtendStatusCodeFromInt err_code.

Definition FFIErrorCodeFromExtendStatus (st : Status) (fallback : Z) : Z :=
  match UnwrapStatus st with
  | Some c => FFIErrorCodeFromExtendStatusCode c fallback
  | None => if ErrnoFromStatus st =? ENOENT then LOON_FILE_NOT_FOUND else fallback
  end.

Definition loon_ffi_is_retryable_errcode (err_code : Z) : bool :=
  match ExtendStatusCodeFromInt err_code with
  | Some c => DefaultRetryableForExtendStatusCode c
  | None => false
  end.

Definition error_strings : list (Z * string) :=
  [ (0, "Success"); (1, "Invalid args"); (2, "Memory allocation failed");
    (3, "Internal error"); (4, "Logical error"); (5, "Got exception");
    (6, "Unreachable code"); (7, "Invalid properties"); (8, "Fault injection error");
    (9, "Not supported"); (12, "File not found");
    (101, "AwsErrorNoSuchUpload"); (102, "AwsErrorConflict");
    (103, "AwsErrorPreConditionFailed"); (104, "AwsErrorNotFound");
    (105, "AwsErrorAccessDenied"); (106, "AwsErrorNonRetryable");
    (107, "StorageTransientNetwork"); (108, "StorageTransientTimeout");
    (109, "StorageTransientThrottling"); (110, "StorageTransientService");
    (111, "TxnExhaustedRetry"); (112, "TxnResolutionFailed") ].

Definition error_to_string (code : Z) : string :=
  match List.find (λ e, e.1 =? code) error_strings with
  | Some e => e.2
  | None => "Unknown error(undefined)"
  end.

(** ** Lemmas *)

Lemma ext_code_from_to_int c : ExtendStatusCodeFromInt (ext_code_int c) = Some c.
Proof. by destruct c. Qed.

Lemma ext_code_to_from_int z c : ExtendStatusCodeFromInt z = Some c → ext_code_int c = z.
Proof.
  unfold ExtendStatusCodeFromInt, FindExtendStatusCodeMetadata_int.
  destruct (List.find _ _) eqn:Hf; simpl; [|discriminate].
  apply List.find_some in Hf as [_ Hf]. apply Z.eqb_eq in Hf. congruence.
Qed.

Lemma ext_code_int_inj c1 c2 : ext_code_int c1 = ext_code_int c2 → c1 = c2.
Proof.
  intros H. enough (Some c1 = Some c2) by congruence.
  by rewrite <- !ext_code_from_to_int, H.
Qed.

Lemma MakeExtendError_unwrap c : UnwrapStatus (MakeExtendError c) = Some c.
Proof. done. Qed.

#[export] Hint Rewrite ext_code_from_to_int MakeExtendError_unwrap : milvus_rw.

(** ** Properties *)

(** an error keeps its meaning on every route out of the library.  For a
    status built with [MakeExtendError], the C error code decodes back to the
    same extension code; the retry answer given to C callers, the metadata
    table and the segcore classification agree (an extension code is retryable
    exactly when segcore is told the error is transient); and wrapping a
    status that already has a detail, whatever the new code, changes neither
    its segcore classification nor its C error code. *)
Theorem status_classification_consistent (c c' : ExtendStatusCode) (cause : Status) (fb : Z) :
  ExtendStatusCodeFromFFIErrorCode (FFIErrorCodeFromExtendStatus (MakeExtendError c) fb) = Some c ∧
  loon_ffi_is_retryable_errcode (FFIErrorCodeFromExtendStatus (MakeExtendError c) fb) =
    bool_decide (ToSegcoreError (Some (MakeExtendError c)) = StorageTransientError) ∧
  (is_Some (st_detail cause) →
     ToSegcoreError (Some (WrapExtendError c' cause)) = ToSegcoreError (Some cause) ∧
     FFIErrorCodeFromExtendStatus (WrapExtendError c' cause) fb =
       FFIErrorCodeFromExtendStatus cause fb).
Proof.
  split_and!.
  - by destruct c.
  - by destruct c.
  - destruct cause as [code [d|]]; intros [? ?]; [done|discriminate].
Qed.

Lemma status_classification_consistent_witness :
  is_Some (st_detail (mkStatus IOError (Some (ErrnoDetail ENOENT)))) ∧
  ToSegcoreError (Some (WrapExtendError PackedStorageIO
    (mkStatus IOError (Some (ErrnoDetail ENOENT))))) = ObjectNotExist ∧
  FFIErrorCodeFromExtendStatus (WrapExtendError PackedStorageIO
    (mkStatus IOError (Some (ErrnoDetail ENOENT)))) LOON_ARROW_ERROR = LOON_FILE_NOT_FOUND.
Proof.
  assert (is_Some (st_detail (mkStatus IOError (Some (ErrnoDetail ENOENT))))) as Hd
    by (eexists; reflexivity).
  destruct (status_classification_consistent PackedStorageIO PackedStorageIO
    (mkStatus IOError (Some (ErrnoDetail ENOENT))) LOON_ARROW_ERROR) as (_ & _ & Hw).
  destruct (Hw Hd) as [-> ->]. split_and!; [exact Hd|reflexivity|reflexivity].
Defined.
