(* ===== verification/Config.v ===== *)
(** * Constants of the configuration

    The constants of [common/config.h], and the names of the cloud providers of
    [filesystem/fs.h], that the components share. *)

From S2P Require Import Prelude CppString.

(** ** [common/config.h] *)

Definition DEFAULT_MAX_ROW_GROUP_SIZE : Z := 1024 * 1024.
Definition DEFAULT_READ_BATCH_SIZE : Z := 1024.
Definition MINIMAL_MULTIPART_UPLOAD_PART_SIZE : Z := 10 * 1024 * 1024.
Definition DEFAULT_MULTIPART_UPLOAD_PART_SIZE : Z := 10 * 1024 * 1024.
Definition MAXIMAL_MULTIPART_UPLOAD_PART_SIZE : Z := 5 * 1024 * 1024 * 1024.
Definition LOON_FORMAT_PARQUET : string := "parquet".
Definition LOON_FORMAT_VORTEX : string := "vortex".
Definition LOON_FORMAT_LANCE_TABLE : string := "lance-table".
Definition LOON_FORMAT_ICEBERG_TABLE : string := "iceberg-table".
Definition LOON_FORMAT_PAIMON_TABLE : string := "paimon-table".
Definition LOON_FS_TYPE_LOCAL : string := "local".
Definition LOON_FS_TYPE_REMOTE : string := "remote".
Definition ENCRYPTION_ALGORITHM_AES_GCM_V1 : string := "AES_GCM_V1".
Definition ENCRYPTION_ALGORITHM_AES_GCM_CTR_V1 : string := "AES_GCM_CTR_V1".
Definition LOON_COLUMN_GROUP_POLICY_SINGLE : string := "single".
Definition LOON_COLUMN_GROUP_POLICY_SCHEMA_BASED : string := "schema_based".
Definition LOON_COLUMN_GROUP_POLICY_SIZE_BASED : string := "size_based".

(** ** [filesystem/fs.h] *)

Definition kCloudProviderAWS : string := "aws".
Definition kCloudProviderGCP : string := "gcp".
Definition kCloudProviderAliyun : string := "aliyun".
Definition kCloudProviderTencent : string := "tencent".
Definition kCloudProviderHuawei : string := "huawei".
Definition kCloudProviderAzure : string := "azure".
