(* ===== verification/Paths.v ===== *)
(** * Paths and the directory layout

    The lexical part of [std::filesystem::path] that the code uses
    ([operator/], [lexically_normal], [parent_path], [is_relative], POSIX
    separators), the helpers of [common/path_util.h] and the directory layout
    of [common/layout.h/.cpp].  Everything is a function on the path's
    string. *)

From S2P Require Import Prelude CppString.
From Stdlib Require Import Ascii.

Definition kSep : ascii := "/"%char.

(** ** [std::filesystem::path] *)
Module Path.

Definition is_absolute (s : string) : bool := starts_with "/" s.
Definition is_relative (s : string) : bool := negb (is_absolute s).

(** The filenames of a path, without the empty ones between separators. *)
Definition comps (s : string) : list string :=
  List.filter (λ w, negb (is_empty w)) (split_on kSep s).

Definition ends_with_sep (s : string) : bool :=
  bool_decide (last_char s = Some kSep).

(** [a / b]. *)
Definition append (a b : string) : string :=
  if is_absolute b then b
  else if is_empty a || ends_with_sep a then a +:+ b
  else a +:+ String kSep b.

(** The stack machine of [lexically_normal] on filenames; the stack holds the
    kept filenames, last one first. *)
Fixpoint norm_go (root : bool) (st names : list string) : list string :=
  match names with
  | [] => st
  | n :: ns =>
      if decide (n = ".") then norm_go root st ns
      else if decide (n = "..") then
        match st with
        | [] => if root then norm_go root [] ns else norm_go root [".."] ns
        | top :: st' =>
            if decide (top = "..") then norm_go root (".." :: st) ns
            else norm_go root st' ns
        end
      else norm_go root (n :: st) ns
  end.

(** A separator is kept after the last filename when there was one, or when
    the last filename of the input was a removed dot or dot-dot. *)
Definition trailing (s : string) : bool :=
  match last (comps s) with
  | Some n => bool_decide (n = ".") || bool_decide (n = "..") || ends_with_sep s
  | None => false
  end.

Definition render (root : bool) (st : list string) (trail : bool) : string :=
  (if root then "/" else "") +:+ join_with kSep (rev st) +:+
  match st with
  | [] => ""
  | top :: _ => if trail && negb (bool_decide (top = "..")) then "/" else ""
  end.

Definition lexically_normal (s : string) : string :=
  if is_empty s then ""
  else
    let st := norm_go (is_absolute s) [] (comps s) in
    let r := render (is_absolute s) st (trailing s) in
    if is_empty r then "." else r.

(** Remove the separators at the end. *)
Fixpoint rstrip (s : string) : string :=
  match s with
  | EmptyString => EmptyString
  | String a s' =>
      match rstrip s' with
      | EmptyString => if Ascii.eqb a kSep then EmptyString else String a EmptyString
      | r => String a r
      end
  end.

Definition parent_path (s : string) : string :=
  match comps s with
  | [] => s
  | _ =>
      match rsplit1 kSep s with
      | None => ""
      | Some (d, _) =>
          if is_empty (rstrip d) && is_absolute s then "/" else rstrip d
      end
  end.

(** *** Lemmas on components *)

Definition good_name (n : string) : Prop := mem_char kSep n = false ∧ n ≠ "".
Definition plain_name (n : string) : Prop := good_name n ∧ n ≠ "." ∧ n ≠ "..".

Lemma comps_good s : Forall good_name (comps s).
Proof.
  unfold comps. pose proof (split_on_mem kSep s) as Hm.
  rewrite Forall_forall in *. intros w Hw%list_elem_of_In.
  apply filter_In in Hw as [Hw He]. split; [apply Hm; by apply list_elem_of_In|].
  by destruct w.
Qed.

Lemma split_on_app_gen s t :
  ∃ l w ws, split_on kSep s = l ++ [w] ∧ split_on kSep (s +:+ String kSep t) = split_on kSep s ++ ws
    ∧ split_on kSep t = ws.
Proof.
  induction s as [|a s IH].
  - exists [], "", (split_on kSep t). by rewrite app_str_nil_l.
  - destruct IH as (l & w & ws & Hs & Hst & Ht). rewrite app_str_cons.
    cbn [split_on]. rewrite Hst, Hs. destruct (Ascii.eqb a kSep).
    + exists ("" :: l), w, ws. by rewrite Ht.
    + destruct l as [|w' l]; simpl.
      * exists [], (String a w), ws. by rewrite Ht.
      * exists (String a w' :: l), w, ws. by rewrite Ht.
Qed.

Lemma comps_app_sep s t : comps (s +:+ String kSep t) = comps s ++ comps t.
Proof.
  destruct (split_on_app_gen s t) as (l & w & ws & Hs & Hst & Ht).
  unfold comps. rewrite Hst, Ht. apply List.filter_app.
Qed.

Lemma ends_with_sep_inv s : ends_with_sep s = true → ∃ t, s = t +:+ "/".
Proof.
  unfold ends_with_sep. rewrite bool_decide_eq_true. induction s as [|a s IH]; [done|].
  destruct s as [|b s].
  - intros [= ->]. by exists "".
  - intros H. destruct (IH H) as [t ->]. exists (String a t). by rewrite app_str_cons.
Qed.

Lemma comps_append a b :
  is_absolute b = false → comps (append a b) = comps a ++ comps b.
Proof.
  intros Hb. unfold append. rewrite Hb.
  destruct (is_empty a) eqn:Ha; simpl; [by destruct a|].
  destruct (ends_with_sep a) eqn:He; [|apply comps_app_sep].
  destruct (ends_with_sep_inv a He) as [t ->].
  rewrite app_str_assoc. change ("/" +:+ b) with (String kSep b).
  change (t +:+ "/") with (t +:+ String kSep ""). by rewrite !comps_app_sep, app_nil_r.
Qed.

Lemma is_absolute_app a b : is_empty a = false → is_absolute (a +:+ b) = is_absolute a.
Proof. destruct a as [|c a]; [done|]. intros _. rewrite app_str_cons. done. Qed.

Lemma is_absolute_append a b :
  is_absolute b = false → is_absolute (append a b) = is_absolute a.
Proof.
  intros Hb. unfold append. rewrite Hb.
  destruct (is_empty a) eqn:Ha; simpl; [by destruct a|].
  destruct (ends_with_sep a); by apply is_absolute_app.
Qed.

Lemma ends_with_sep_append a b :
  is_absolute b = false → ends_with_sep b = true → ends_with_sep (append a b) = true.
Proof.
  intros Hb He. unfold append. rewrite Hb.
  assert (∀ s c, ends_with_sep c = true → ends_with_sep (s +:+ c) = true) as Happ.
  { intros s c Hc. induction s as [|x s IH]; [done|]. rewrite app_str_cons.
    unfold ends_with_sep in *. rewrite bool_decide_eq_true in *.
    destruct s; [|done]. rewrite app_str_nil_l in *. simpl. by destruct c. }
  assert (∀ c s, ends_with_sep s = true → ends_with_sep (String c s) = true) as Hcons.
  { intros c s Hs. by apply (Happ (String c "") s). }
  destruct (is_empty a || ends_with_sep a); auto.
Qed.

Lemma comps_join l : Forall good_name l → comps (join_with kSep l) = l.
Proof.
  destruct (decide (l = [])) as [->|Hne]; [done|]. intros Hl. unfold comps.
  rewrite split_join; [|done|eapply Forall_impl; [exact Hl|by intros ? []]]. clear Hne.
  induction Hl as [|m l' [_ Hm] _ IH]; [done|]. simpl. destruct m; [done|]. simpl. by f_equal.
Qed.

Lemma comps_snoc_sep s : comps (s +:+ "/") = comps s.
Proof. change "/" with (String kSep ""). by rewrite comps_app_sep, app_nil_r. Qed.

Lemma comps_cons_sep s : comps (String kSep s) = comps s.
Proof. apply (comps_app_sep "" s). Qed.

Lemma comps_render root st trail : Forall good_name st → comps (render root st trail) = rev st.
Proof.
  intros Hst. unfold render.
  assert (Forall good_name (rev st)) as Hr by by apply Forall_rev.
  assert (∀ t, comps (join_with kSep (rev st) +:+ match st with [] => "" | _ :: _ =>
    if t : bool then "/" else "" end) = rev st) as Hj.
  { intros t. destruct st as [|n st]; [done|]. destruct t; rewrite ?comps_snoc_sep, ?app_str_nil_r;
    by apply comps_join. }
  specialize (Hj (match st with [] => false | top :: _ =>
    trail && negb (bool_decide (top = "..")) end)).
  destruct st; destruct root; rewrite ?app_str_nil_l; auto; rewrite app_str_cons, app_str_nil_l;
    change "/"%char with kSep; rewrite comps_cons_sep; auto.
Qed.

(** *** Lemmas on the stack machine *)

Lemma norm_go_app root st l1 l2 :
  norm_go root st (l1 ++ l2) = norm_go root (norm_go root st l1) l2.
Proof.
  revert st. induction l1 as [|n l1 IH]; intros st; simpl; [done|].
  repeat (case_decide || case_match); auto.
Qed.

Lemma norm_go_plain root st l : Forall plain_name l → norm_go root st l = rev l ++ st.
Proof.
  intros Hl. revert st. induction Hl as [|n l (_ & Hd & Hdd) _ IH]; intros st; simpl; [done|].
  rewrite !decide_False by done. by rewrite IH, <- app_assoc.
Qed.

(** Normal stacks: plain names over dot-dots, which a rooted path lacks. *)
Definition normal (root : bool) (st : list string) : Prop :=
  ∃ ps k, st = ps ++ replicate k ".." ∧ Forall plain_name ps ∧ (root = true → k = 0%nat).

Lemma norm_go_normal root st l :
  Forall good_name l → normal root st → normal root (norm_go root st l).
Proof.
  intros Hl. revert st. induction Hl as [|n l Hn _ IH]; intros st Hst; simpl; [done|].
  case_decide; [auto|]. case_decide.
  - subst. destruct Hst as (ps & k & -> & Hps & Hk). destruct ps as [|p ps]; simpl.
    + destruct k as [|k]; simpl.
      * destruct root; apply IH; [by exists [], 0%nat|by exists [], 1%nat].
      * apply IH. exists [], (S (S k)). split_and!; [done|done|]. intros Hr.
        by specialize (Hk Hr).
    + inversion Hps as [|? ? (Hg & Hd & Hdd) Hps']; subst. rewrite decide_False by done.
      apply IH. by exists ps, k.
  - apply IH. destruct Hst as (ps & k & -> & Hps & Hk).
    exists (n :: ps), k. split_and!; [done| |done]. by constructor.
Qed.

Lemma norm_go_dotdots root k j :
  (root = true → j = 0%nat) →
  norm_go root (replicate k "..") (replicate j "..") = replicate (j + k) "..".
Proof.
  revert k. induction j as [|j IH]; intros k Hr; simpl; [done|].
  assert (root = false) as -> by (destruct root; [by specialize (Hr eq_refl)|done]).
  destruct k as [|k]; simpl.
  - change [".."] with (replicate 1 ".."). rewrite (IH 1%nat) by done.
    by rewrite Nat.add_0_r, Nat.add_1_r.
  - change (".." :: ".." :: replicate k "..") with (replicate (S (S k)) "..").
    rewrite IH by done. by rewrite !Nat.add_succ_r.
Qed.

Lemma norm_go_fixed root st : normal root st → norm_go root [] (rev st) = st.
Proof.
  intros (ps & k & -> & Hps & Hk). rewrite rev_app_distr, norm_go_app.
  assert (rev (replicate k "..") = replicate k "..") as ->.
  { unfold reverse; rewrite rev_alt. apply reverse_replicate. }
  pose proof (norm_go_dotdots root 0 k Hk) as Hd. simpl in Hd. rewrite Hd, Nat.add_0_r.
  rewrite norm_go_plain; [by rewrite rev_involutive|].
  by apply Forall_rev.
Qed.

Lemma normal_nil root : normal root [].
Proof. by exists [], 0%nat. Qed.

Lemma normal_good root st : normal root st → Forall good_name st.
Proof.
  intros (ps & k & -> & Hps & _). apply Forall_app. split.
  - eapply Forall_impl; [exact Hps|by intros ? []].
  - apply Forall_replicate. by split.
Qed.

Lemma comps_normal root s : normal root (norm_go root [] (comps s)).
Proof. apply norm_go_normal; [apply comps_good|apply normal_nil]. Qed.

End Path.

(** ** [common/path_util.h] *)

Definition HasTrailingSlash (s : string) : bool :=
  negb (is_empty s) && Path.ends_with_sep s.

Definition EnsureTrailingSlash (v : string) : string :=
  if negb (is_empty v) && negb (HasTrailingSlash v) then v +:+ String kSep "" else v.

Definition GetAbstractPathParent (s : string) : string * string :=
  match rsplit1 kSep s with
  | None => ("", s)
  | Some (l, r) => (l, r)
  end.

Definition ConcatenateFilePath (parent child : string) : string :=
  parent +:+ String kSep child.

(** ** [common/layout.h] and [common/layout.cpp] *)

Definition kMetadataDir : string := "_metadata".
Definition kDataDir : string := "_data".
Definition kDeltaDir : string := "_delta".
Definition kStatsDir : string := "_stats".
Definition kIndexDir : string := "_index".

Definition kManifestFileNamePrefix : string := "manifest-".
Definition kManifestFileNameSuffix : string := ".avro".

Definition kMetadataPath : string := kMetadataDir +:+ String kSep "".
Definition kDataPath : string := kDataDir +:+ String kSep "".
Definition kDeltaPath : string := kDeltaDir +:+ String kSep "".
Definition kStatsPath : string := kStatsDir +:+ String kSep "".
Definition kIndexPath : string := kIndexDir +:+ String kSep "".
Definition kLobPath : string := ".." +:+ String kSep ("lobs" +:+ String kSep "").

Definition in_dir (base_path dir : string) : string :=
  Path.lexically_normal (Path.append base_path dir).

Definition get_manifest_path (base_path : string) : string := in_dir base_path kMetadataPath.

(** The version is passed as a [size_t]. *)
Definition get_manifest_filename (version : Z) : string :=
  kManifestFileNamePrefix +:+ to_string (wrap_u64 version) +:+ kManifestFileNameSuffix.

Definition get_manifest_filepath (base_path : string) (version : Z) : string :=
  in_dir (get_manifest_path base_path) (get_manifest_filename version).

Definition base_path_for_manifest (manifest_path : string) : string :=
  Path.parent_path (Path.parent_path manifest_path).

Definition get_data_path (base_path : string) : string := in_dir base_path kDataPath.

(** The random uuid of the file name is an argument. *)
Definition get_data_filename (uuid : string) (column_group_id : Z) (format : string) : string :=
  to_string column_group_id +:+ "_" +:+ uuid +:+ "." +:+ format.

Definition get_data_filepath_for (uuid base_path : string) (column_group_id : Z)
    (format : string) : string :=
  in_dir (get_data_path base_path) (get_data_filename uuid column_group_id format).

Definition get_data_filepath (base_path file_name : string) : string :=
  in_dir (get_data_path base_path) file_name.

Definition get_delta_path (base_path : string) : string := in_dir base_path kDeltaPath.
Definition get_delta_filepath (base_path file_name : string) : string :=
  in_dir (get_delta_path base_path) file_name.

Definition get_stats_path (base_path : string) : string := in_dir base_path kStatsPath.
Definition get_stats_filepath (base_path file_name : string) : string :=
  in_dir (get_stats_path base_path) file_name.

Definition get_index_path (base_path : string) : string := in_dir base_path kIndexPath.
Definition get_index_filepath (base_path file_name : string) : string :=
  in_dir (get_index_path base_path) file_name.

Example layout_ex :
  get_manifest_filepath "files/seg/../seg1/" 3 = "files/seg1/_metadata/manifest-3.avro" ∧
  base_path_for_manifest "files/seg1/_metadata/manifest-3.avro" = "files/seg1" ∧
  in_dir "files/seg1" kLobPath = "files/lobs/" ∧
  Path.lexically_normal "a/./" = "a/" ∧ Path.lexically_normal "a/.." = "." ∧
  Path.lexically_normal "/.." = "/" ∧ Path.lexically_normal "../." = "..".
Proof. vm_compute. split_and!; reflexivity. Qed.

(** ** Layout lemmas *)

Module Layout.
Import Path.

(** A directory of the layout: relative, ends with a separator, and its last
    filename is plain. *)
Definition layout_dir (dir : string) : Prop :=
  is_absolute dir = false ∧ ends_with_sep dir = true ∧
  ∃ l d, comps dir = l ++ [d] ∧ plain_name d.

(** A file name inside a directory: plain filenames joined by one separator. *)
Definition file_name (rel : string) : Prop :=
  is_absolute rel = false ∧ comps rel ≠ [] ∧ Forall plain_name (comps rel) ∧
  rel = join_with kSep (comps rel).

(** The normal form of a base directory. *)
Definition base_stack (base : string) : list string :=
  norm_go (is_absolute base) [] (comps base).
Definition base_dir (base : string) : string :=
  (if is_absolute base then "/" else "") +:+ join_with kSep (rev (base_stack base)).

Lemma render_nonempty root n st t : good_name n → is_empty (render root (n :: st) t) = false.
Proof.
  intros Hn. destruct (is_empty (render root (n :: st) t)) eqn:He; [|done].
  destruct (render root (n :: st) t) eqn:Hr; [|done].
  unfold render in Hr. apply (f_equal String.length) in Hr. rewrite !length_app_str in Hr.
  assert (∀ l, l ++ [n] ≠ [] → String.length (join_with kSep (l ++ [n])) ≠ 0%nat) as Hj.
  { intros l _. destruct Hn as [_ Hn]. induction l as [|x l IH]; simpl; [by destruct n|].
    destruct (l ++ [n]) eqn:El; [by destruct l|]. rewrite length_app_str. simpl. lia. }
  simpl in Hr. specialize (Hj (rev st)). destruct (decide (rev st ++ [n] = [])) as [E|E].
  - by destruct (rev st).
  - specialize (Hj E). simpl in Hr. lia.
Qed.

Lemma in_dir_layout base dir : layout_dir dir →
  ∃ d st, plain_name d ∧ norm_go (is_absolute base) [] (comps base ++ comps dir) = d :: st ∧
    in_dir base dir = render (is_absolute base) (d :: st) true.
Proof.
  intros (Hrel & Hsep & l & d & Hc & Hd). pose proof Hd as (Hg & Hd1 & Hd2).
  exists d, (norm_go (is_absolute base) [] (comps base ++ l)).
  assert (norm_go (is_absolute base) [] (comps base ++ comps dir) =
    d :: norm_go (is_absolute base) [] (comps base ++ l)) as Hn.
  { rewrite Hc, app_assoc, norm_go_app. simpl. by rewrite !decide_False by done. }
  split_and!; [done|done|].
  unfold in_dir, lexically_normal.
  assert (is_empty (append base dir) = false) as ->.
  { pose proof (ends_with_sep_append base dir Hrel Hsep).
    by destruct (append base dir). }
  rewrite is_absolute_append, comps_append by done. rewrite Hn.
  assert (trailing (append base dir) = true) as ->.
  { unfold trailing. rewrite comps_append, Hc, app_assoc, last_snoc by done.
    rewrite ends_with_sep_append by done. by rewrite !orb_true_r. }
  by rewrite render_nonempty.
Qed.

Lemma join_app l1 l2 : l1 ≠ [] → l2 ≠ [] →
  join_with kSep (l1 ++ l2) = join_with kSep l1 +:+ String kSep (join_with kSep l2).
Proof.
  intros H1 H2. induction l1 as [|x l1 IH]; [done|].
  destruct l1 as [|y l1]; simpl.
  - by destruct l2.
  - simpl in IH. rewrite IH by done. by rewrite app_str_assoc, app_str_cons.
Qed.

Lemma render_file root d st rs :
  plain_name d → rs ≠ [] →
  render root (rev rs ++ d :: st) false = render root (d :: st) true +:+ join_with kSep rs.
Proof.
  intros (Hg & Hd1 & Hd2) Hrs. unfold render.
  rewrite rev_app_distr, rev_involutive, join_app by
    (try done; simpl; by destruct (rev st)).
  rewrite bool_decide_false by done. simpl.
  assert (match rev rs ++ d :: st with [] => "" | _ :: _ => "" end = "") as ->
    by by destruct (rev rs).
  by rewrite app_str_nil_r, !app_str_assoc, app_str_cons, app_str_nil_l.
Qed.

Lemma last_char_app s t : t ≠ "" → last_char (s +:+ t) = last_char t.
Proof.
  intros Ht. induction s as [|x s IH]; [done|]. rewrite app_str_cons. simpl.
  rewrite <- IH. destruct (s +:+ t) eqn:E; [|done].
  apply (f_equal String.length) in E. rewrite length_app_str in E.
  destruct t; simpl in E; [done|lia].
Qed.

Lemma last_char_name n : good_name n → last_char n ≠ Some kSep.
Proof.
  intros [Hm _]. induction n as [|a n IH]; [done|]. simpl in *.
  apply orb_false_iff in Hm as [Ha Hm]. destruct n; [|auto]. intros [= ->]. done.
Qed.

Lemma last_char_file rel : file_name rel → last_char rel ≠ Some kSep.
Proof.
  intros (_ & Hne & Hpl & Hj). rewrite Hj. destruct (exists_last Hne) as (rs & r & Hr).
  rewrite Hr in *. apply Forall_app in Hpl as [_ [Hg _]%Forall_inv].
  destruct rs as [|x rs]; [by apply last_char_name|]. rewrite join_app by done.
  rewrite last_char_app by done. simpl. destruct Hg as [Hm Hn]. destruct r as [|c r]; [done|].
  by apply last_char_name.
Qed.

(** A file name adds no trailing separator. *)
Lemma trailing_file s rel : file_name rel → trailing (append s rel) = false.
Proof.
  intros Hf. pose proof (last_char_file rel Hf) as Hl. destruct Hf as (Hrel & Hne & Hpl & Hj).
  destruct (exists_last Hne) as (rs & r & Hr).
  assert (plain_name r) as (_ & H1 & H2).
  { rewrite Hr in Hpl. by apply Forall_app in Hpl as [_ ?%Forall_inv]. }
  unfold trailing. rewrite comps_append, Hr, app_assoc, last_snoc by done.
  rewrite !bool_decide_false by done. simpl.
  unfold ends_with_sep. apply bool_decide_eq_false. unfold append. rewrite Hrel.
  assert (rel ≠ "") by (intros ->; done).
  destruct (_ || _); rewrite last_char_app by done; [done|]. by destruct rel.
Qed.

(** Joining a file name to a directory in normal form is concatenation. *)
Lemma normal_dir_file s d st rel :
  plain_name d → norm_go (is_absolute s) [] (comps s) = d :: st → file_name rel →
  lexically_normal (append s rel) = render (is_absolute s) (d :: st) true +:+ rel.
Proof.
  intros Hd Hn Hf. pose proof Hf as (Hrel & Hne & Hpl & Hj).
  unfold lexically_normal. rewrite is_absolute_append, comps_append by done.
  rewrite norm_go_app, Hn, norm_go_plain, trailing_file by done.
  assert (is_empty (append s rel) = false) as ->.
  { assert (comps (append s rel) ≠ []) as Hc.
    { rewrite comps_append by done. by intros [_ ?]%app_eq_nil. }
    by destruct (append s rel). }
  rewrite render_file by done. rewrite <- Hj. destruct (is_empty _) eqn:He; [|done].
  pose proof (render_nonempty (is_absolute s) d st true (proj1 Hd)) as Hr.
  destruct (render (is_absolute s) (d :: st) true); [done|]. by rewrite app_str_cons in He.
Qed.

(** Joining a file name to a layout directory is plain concatenation. *)
Lemma in_dir_file base dir rel : layout_dir dir → file_name rel →
  lexically_normal (append (append base dir) rel) = in_dir base dir +:+ rel.
Proof.
  intros Hdir Hf. destruct (in_dir_layout base dir Hdir) as (d & st & Hd & Hn & ->).
  destruct Hdir as (Hdrel & _). rewrite <- (is_absolute_append base dir) by done.
  apply normal_dir_file; [done| |done].
  by rewrite is_absolute_append, comps_append.
Qed.

Lemma name_not_absolute n : good_name n → is_absolute n = false ∧ is_empty n = false.
Proof.
  intros [Hm Hne]. destruct n as [|a n]; [done|]. split; [|done].
  change (Ascii.eqb "/" a && true = false). cbn [mem_char] in Hm.
  apply orb_false_iff in Hm as [Hm _]. rewrite andb_true_r. apply Ascii.eqb_neq.
  apply Ascii.eqb_neq in Hm. unfold kSep in Hm. congruence.
Qed.

Lemma is_absolute_render root st t : Forall good_name st → is_absolute (render root st t) = root.
Proof.
  intros Hst. unfold render. destruct root; [done|]. rewrite app_str_nil_l.
  apply Forall_rev in Hst. destruct st as [|x st]; [done|].
  destruct (rev (x :: st)) as [|n l] eqn:Hr; [simpl in Hr; by destruct (rev st)|].
  inversion Hst as [|? ? Hn _]; subst. apply name_not_absolute in Hn as [Hn He].
  destruct l; simpl; rewrite ?app_str_assoc; by rewrite is_absolute_app.
Qed.

(** The directories of the layout only depend on the normal form of the base
    path. *)
Lemma in_dir_base base dir : layout_dir dir → in_dir (base_dir base) dir = in_dir base dir.
Proof.
  intros Hdir. pose proof (comps_normal (is_absolute base) base) as Hnorm.
  assert (base_dir base = render (is_absolute base) (base_stack base) false) as Hb.
  { unfold render, base_dir. destruct (base_stack base); cbn [andb];
    by rewrite !app_str_nil_r. }
  pose proof (normal_good _ _ Hnorm) as Hg.
  assert (is_absolute (base_dir base) = is_absolute base) as Habs
    by (rewrite Hb; by apply is_absolute_render).
  assert (comps (base_dir base) = rev (base_stack base)) as Hcb
    by (rewrite Hb; by apply comps_render).
  destruct (in_dir_layout base dir Hdir) as (d & st & _ & Hn & ->).
  destruct (in_dir_layout (base_dir base) dir Hdir) as (d' & st' & _ & Hn' & ->).
  rewrite Habs in *. rewrite Hcb, norm_go_app, norm_go_fixed in Hn' by done.
  rewrite norm_go_app in Hn. unfold base_stack in Hn'. congruence.
Qed.

Lemma rsplit1_none n : mem_char kSep n = false → rsplit1 kSep n = None.
Proof.
  induction n as [|a n IH]; simpl; [done|]. intros [Ha Hn]%orb_false_iff.
  by rewrite IH, Ha.
Qed.

Lemma rsplit1_name s n : mem_char kSep n = false → rsplit1 kSep (s +:+ String kSep n) = Some (s, n).
Proof.
  intros Hn%rsplit1_none. induction s as [|a s IH].
  - rewrite app_str_nil_l. simpl. by rewrite Hn.
  - rewrite app_str_cons. simpl. by rewrite IH.
Qed.

Lemma rstrip_name s n : good_name n → rstrip (s +:+ n) = s +:+ n.
Proof.
  intros [Hm Hne]. induction s as [|a s IH].
  - rewrite app_str_nil_l. induction n as [|b n IH]; [done|]. simpl in *.
    apply orb_false_iff in Hm as [Hb Hm]. destruct n as [|c n]; simpl in *.
    + by rewrite Hb.
    + rewrite IH by done. done.
  - rewrite app_str_cons. simpl. rewrite IH. destruct (s +:+ n) eqn:E; [|done].
    apply (f_equal String.length) in E. rewrite length_app_str in E.
    destruct n; simpl in E; [done|lia].
Qed.

Lemma parent_path_name (root : bool) n st : good_name n → Forall good_name st →
  parent_path ((if root then "/" else "") +:+ join_with kSep (rev (n :: st))) =
  (if root : bool then "/" else "") +:+ join_with kSep (rev st).
Proof.
  intros Hn Hst.
  set (s := (if root then "/" else "") +:+ join_with kSep (rev (n :: st))).
  assert (comps s = rev (n :: st)) as Hc.
  { assert (s = render root (n :: st) false) as ->.
    { unfold s, render. by rewrite app_str_nil_r. }
    apply comps_render. by constructor. }
  unfold parent_path. rewrite Hc.
  assert (∀ A (x y : A), match rev (n :: st) with [] => x | _ :: _ => y end = y) as ->.
  { intros. simpl. by destruct (rev st). }
  destruct (decide (st = [])) as [->|Hne].
  - unfold s. simpl. rewrite app_str_nil_r. destruct root; rewrite ?app_str_nil_l.
    + change ("/" +:+ n) with ("" +:+ String kSep n).
      rewrite rsplit1_name by apply Hn. done.
    + by rewrite rsplit1_none by apply Hn.
  - assert (rev st ≠ []) as Hrne.
    { destruct st; [done|]. simpl. by destruct (rev st). }
    unfold s. simpl. rewrite join_app by done. simpl. rewrite <- app_str_assoc, rsplit1_name by apply Hn.
    destruct (exists_last Hrne) as (l & m & Hm). rewrite Hm.
    assert (good_name m) as Hgm.
    { apply Forall_rev in Hst. rewrite Hm in Hst. by apply Forall_app in Hst as [_ ?%Forall_inv]. }
    assert (∃ t, (if root then "/" else "") +:+ join_with kSep (l ++ [m]) = t +:+ m) as [t Ht].
    { destruct l as [|x l]; [by eexists|]. rewrite join_app by done. simpl.
      exists ((if root then "/" else "") +:+ join_with kSep (x :: l) +:+ "/").
      by rewrite !app_str_assoc. }
    rewrite Ht, rstrip_name by done. destruct (is_empty (t +:+ m)) eqn:E; [|done].
    destruct (t +:+ m) eqn:E'; [|done]. apply (f_equal String.length) in E'.
    rewrite length_app_str in E'. destruct Hgm as [_ Hgm]. destruct m; simpl in E'; [done|lia].
Qed.

Lemma metadata_dir_ok : layout_dir kMetadataPath.
Proof. split_and!; [done|done|]. exists [], "_metadata". by split. Qed.

Lemma manifest_filename_sep version : mem_char kSep (get_manifest_filename version) = false.
Proof. unfold get_manifest_filename. rewrite !mem_char_app, to_string_mem_char by done. done. Qed.

Lemma manifest_filename_ok version : file_name (get_manifest_filename version).
Proof.
  pose proof (manifest_filename_sep version) as Hm.
  assert (comps (get_manifest_filename version) = [get_manifest_filename version]) as Hc.
  { unfold comps. by rewrite split_on_free. }
  unfold file_name. rewrite Hc. split_and!; [done|done| |done].
  apply Forall_singleton. by split_and!.
Qed.

(** A file in a directory of the layout. *)
Lemma in_layout_dir base dir rel : layout_dir dir → file_name rel →
  in_dir (in_dir base dir) rel = in_dir base dir +:+ rel.
Proof.
  intros Hdir Hf. destruct (in_dir_layout base _ Hdir) as (d & st & Hd & Hn & Heq).
  assert (normal (is_absolute base) (d :: st)) as Hnorm.
  { rewrite <- Hn. apply norm_go_normal; [|apply normal_nil]. apply Forall_app. split; apply comps_good. }
  pose proof (normal_good _ _ Hnorm) as Hgood. unfold in_dir at 1. rewrite Heq.
  pose proof (is_absolute_render (is_absolute base) (d :: st) true Hgood) as Habs.
  rewrite (normal_dir_file _ d st), Habs by
    (rewrite ?Habs, ?comps_render, ?norm_go_fixed by done; done). done.
Qed.

(** A name without separators. *)
Lemma plain_file_name n : mem_char kSep n = false → n ≠ "" → n ≠ "." → n ≠ ".." → file_name n.
Proof.
  intros Hm H0 H1 H2.
  assert (comps n = [n]) as Hc.
  { unfold comps. rewrite split_on_free by done. by destruct n. }
  unfold file_name. rewrite Hc. split_and!; [by apply name_not_absolute|done| |done].
  apply Forall_singleton. by split_and!.
Qed.

(** The path of a manifest file, in normal form. *)
Lemma manifest_filepath_eq base version :
  get_manifest_filepath base version = get_manifest_path base +:+ get_manifest_filename version ∧
  get_manifest_filepath base version =
    (if is_absolute base then "/" else "") +:+
    join_with kSep (rev (get_manifest_filename version :: kMetadataDir :: base_stack base)).
Proof.
  pose proof metadata_dir_ok as Hdir. pose proof (manifest_filename_ok version) as Hf.
  destruct (in_dir_layout base _ Hdir) as (d & st & Hd & Hn & Heq).
  assert (normal (is_absolute base) (d :: st)) as Hnorm.
  { rewrite <- Hn. apply norm_go_normal; [|apply normal_nil].
    apply Forall_app. split; apply comps_good. }
  pose proof (normal_good _ _ Hnorm) as Hgood.
  assert (get_manifest_filepath base version =
    get_manifest_path base +:+ get_manifest_filename version) as Hcat by (by apply in_layout_dir).
  split; [done|]. rewrite Hcat. unfold get_manifest_path. rewrite Heq.
  assert (d = kMetadataDir ∧ st = base_stack base) as [-> ->].
  { rewrite norm_go_app in Hn. by injection Hn as <- <-. }
  destruct Hf as (_ & Hne & _ & Hj).
  pose proof (render_file (is_absolute base) kMetadataDir (base_stack base)
    [get_manifest_filename version] Hd ltac:(done)) as Hrf.
  simpl in Hrf. rewrite <- Hrf. unfold render. by rewrite app_str_nil_r.
Qed.

Lemma base_path_for_manifest_eq base version :
  base_path_for_manifest (get_manifest_filepath base version) = base_dir base.
Proof.
  rewrite (proj2 (manifest_filepath_eq base version)). unfold base_path_for_manifest.
  pose proof (normal_good _ _ (comps_normal (is_absolute base) base)) as Hg.
  destruct (manifest_filename_ok version) as (_ & _ & Hf & _).
  assert (good_name (get_manifest_filename version)) as Hfn.
  { unfold comps in Hf. rewrite split_on_free in Hf.
    - simpl in Hf. by inversion Hf as [|? ? [? _]].
    - unfold get_manifest_filename. by rewrite !mem_char_app, to_string_mem_char. }
  rewrite parent_path_name; [|done|by constructor]. by rewrite parent_path_name.
Qed.

Lemma layout_dirs_ok :
  Forall layout_dir [kMetadataPath; kDataPath; kDeltaPath; kStatsPath; kIndexPath; kLobPath].
Proof.
  repeat constructor; try done.
  - exists [], "_metadata". by split.
  - exists [], "_data". by split.
  - exists [], "_delta". by split.
  - exists [], "_stats". by split.
  - exists [], "_index". by split.
  - exists [".."], "lobs". by split.
Qed.

(** the base path recovered from a manifest file's path
    ([base_path_for_manifest]) designates the same directories of the layout as
    the base path the file was written under: for every base path and every
    version, each of the metadata, data, delta, stats, index and lob
    directories computed from the recovered base path is the one computed from
    the original, so that paths stored relative to them keep their meaning. *)
Theorem manifest_base_path_roundtrip (base : string) (version : Z) (dir : string) :
  dir ∈ [kMetadataPath; kDataPath; kDeltaPath; kStatsPath; kIndexPath; kLobPath] →
  in_dir (base_path_for_manifest (get_manifest_filepath base version)) dir = in_dir base dir.
Proof.
  intros Hdir. rewrite base_path_for_manifest_eq. apply in_dir_base.
  pose proof layout_dirs_ok as Hok. rewrite Forall_forall in Hok. auto.
Qed.

Lemma manifest_base_path_roundtrip_witness :
  kLobPath ∈ [kMetadataPath; kDataPath; kDeltaPath; kStatsPath; kIndexPath; kLobPath] ∧
  in_dir (base_path_for_manifest (get_manifest_filepath "/data//part/./seg7/" 12)) kLobPath
    = "/data/part/lobs/".
Proof.
  assert (kLobPath ∈ [kMetadataPath; kDataPath; kDeltaPath; kStatsPath; kIndexPath; kLobPath])
    as Hin by (repeat (first [left; reflexivity | right])).
  split; [exact Hin|].
  rewrite (manifest_base_path_roundtrip "/data//part/./seg7/" 12 kLobPath Hin).
  vm_compute. reflexivity.
Defined.
End Layout.
