(* ===== verification/LruCache.v ===== *)
(** * The LRU cache

    [LRUCache<K, V>] of [common/lrucache.h]: a recency list of keys and a map
    from keys to values.  The map's iterator into the list is modelled by the
    key of the node it points to.  The specification is a recency-ordered
    association list, truncated to the capacity; the theorems show that the
    implementation refines it and never reads an empty list.

    Each method holds the mutex for its whole body, so that one method is one
    atomic step. *)

From S2P Require Import Prelude.

Section lru.
Context {K V : Type} `{Countable K}.

Record LRUCache := mkLRU {
  lru_list_ : list K;       (* most recent first *)
  cache_ : gmap K V;
  capacity_ : nat;
}.

Definition LRU_new (capacity : nat) : LRUCache := mkLRU [] ∅ capacity.

(** [lru_list_.splice(begin, lru_list_, it)] / [erase(it)]: the node that
    holds [k]. *)
Definition unlink (k : K) (l : list K) : list K := List.filter (λ x, bool_decide (x ≠ k)) l.
Definition splice_front (k : K) (l : list K) : list K := k :: unlink k l.

(** The eviction loop.  [lru_list_.back()] on an empty list is undefined
    behaviour ([None]); so is running out of fuel, which the list's length
    bounds. *)
Fixpoint evict (fuel : nat) (c : LRUCache) : option LRUCache :=
  if decide (capacity_ c < size (cache_ c))%nat then
    match fuel, last (lru_list_ c) with
    | S fuel', Some last_key =>
        evict fuel' (mkLRU (take (pred (length (lru_list_ c))) (lru_list_ c))
                           (delete last_key (cache_ c)) (capacity_ c))
    | _, _ => None
    end
  else Some c.

Definition set_capacity (capacity : nat) (c : LRUCache) : option LRUCache :=
  evict (length (lru_list_ c)) (mkLRU (lru_list_ c) (cache_ c) capacity).

Definition get (k : K) (c : LRUCache) : LRUCache * option V :=
  match cache_ c !! k with
  | Some v => (mkLRU (splice_front k (lru_list_ c)) (cache_ c) (capacity_ c), Some v)
  | None => (c, None)
  end.

Definition put (k : K) (v : V) (c : LRUCache) : option LRUCache :=
  match cache_ c !! k with
  | Some _ =>
      Some (mkLRU (splice_front k (lru_list_ c)) (<[k := v]> (cache_ c)) (capacity_ c))
  | None =>
      evict (S (length (lru_list_ c)))
        (mkLRU (k :: lru_list_ c) (<[k := v]> (cache_ c)) (capacity_ c))
  end.

Definition remove (k : K) (c : LRUCache) : LRUCache :=
  match cache_ c !! k with
  | Some _ => mkLRU (unlink k (lru_list_ c)) (delete k (cache_ c)) (capacity_ c)
  | None => c
  end.

Definition clean (c : LRUCache) : LRUCache := mkLRU [] ∅ (capacity_ c).

Definition lru_size (c : LRUCache) : nat := size (cache_ c).

(** ** The specification: a recency list of entries *)

Definition spec_lookup (k : K) (l : list (K * V)) : option V :=
  snd <$> List.find (λ e, bool_decide (e.1 = k)) l.
Definition spec_remove (k : K) (l : list (K * V)) : list (K * V) :=
  List.filter (λ e, bool_decide (e.1 ≠ k)) l.

Definition spec_get (k : K) (l : list (K * V)) : list (K * V) * option V :=
  match spec_lookup k l with
  | Some v => ((k, v) :: spec_remove k l, Some v)
  | None => (l, None)
  end.

Definition spec_put (cap : nat) (k : K) (v : V) (l : list (K * V)) : list (K * V) :=
  match spec_lookup k l with
  | Some _ => (k, v) :: spec_remove k l
  | None => take cap ((k, v) :: l)
  end.

(** The representation invariant and the entries a cache stands for. *)
Record lru_ok (c : LRUCache) : Prop := {
  lru_nodup : NoDup (lru_list_ c);
  lru_dom : ∀ k, k ∈ lru_list_ c ↔ is_Some (cache_ c !! k);
  lru_bound : (length (lru_list_ c) ≤ capacity_ c)%nat;
}.

Definition entries (c : LRUCache) : list (K * V) :=
  omap (λ k, (λ v, (k, v)) <$> cache_ c !! k) (lru_list_ c).

(** ** Lemmas *)

Lemma elem_of_unlink k x l : x ∈ unlink k l ↔ x ∈ l ∧ x ≠ k.
Proof. unfold unlink. by rewrite !list_elem_of_In, filter_In, bool_decide_eq_true. Qed.

Lemma NoDup_unlink k l : NoDup l → NoDup (unlink k l).
Proof. rewrite !NoDup_ListNoDup. apply List.NoDup_filter. Qed.

Lemma unlink_notin k l : k ∉ l → unlink k l = l.
Proof.
  induction l as [|x l IH]; [done|]. rewrite not_elem_of_cons. intros [Hx Hl].
  unfold unlink in *. simpl. rewrite bool_decide_true by congruence. by f_equal; apply IH.
Qed.

Lemma length_unlink k l : NoDup l → k ∈ l → S (length (unlink k l)) = length l.
Proof.
  induction 1 as [|x l Hx Hl IH]; [by rewrite elem_of_nil|].
  rewrite elem_of_cons. unfold unlink in *. cbn [List.filter length].
  destruct (decide (x = k)) as [->|Hk].
  - intros _. rewrite bool_decide_false by congruence. f_equal. fold (unlink k l).
    by rewrite unlink_notin.
  - intros [?|Hin]; [congruence|]. rewrite bool_decide_true by done. simpl. f_equal. by apply IH.
Qed.

(** The invariant without the bound: what holds inside the eviction loop. *)
Definition lru_wf (c : LRUCache) : Prop :=
  NoDup (lru_list_ c) ∧ ∀ k, k ∈ lru_list_ c ↔ is_Some (cache_ c !! k).

Lemma lru_wf_size c : lru_wf c → size (cache_ c) = length (lru_list_ c).
Proof.
  intros [Hnd Hdom]. rewrite <- size_dom.
  assert (dom (cache_ c) = list_to_set (lru_list_ c)) as ->.
  { apply set_eq. intros k. by rewrite elem_of_dom, elem_of_list_to_set, Hdom. }
  by apply size_list_to_set.
Qed.

Lemma lru_ok_wf c : lru_ok c ↔ lru_wf c ∧ (length (lru_list_ c) ≤ capacity_ c)%nat.
Proof. split; [by intros []|]. by intros [[] ?]. Qed.

Lemma last_take {A} (l : list A) x :
  last l = Some x → l = take (pred (length l)) l ++ [x].
Proof.
  intros [l' ->]%last_Some. rewrite length_app, Nat.add_1_r. cbn [pred].
  by rewrite take_app_length.
Qed.

Lemma wf_pop c k : lru_wf c → last (lru_list_ c) = Some k →
  lru_wf (mkLRU (take (pred (length (lru_list_ c))) (lru_list_ c))
                (delete k (cache_ c)) (capacity_ c)).
Proof.
  intros [Hnd Hdom] Hlast%last_take. set (l' := take _ _) in *. rewrite Hlast in Hnd.
  apply NoDup_app in Hnd as (Hnd & Hdisj & _). split; [done|]. simpl. intros x.
  rewrite lookup_delete_is_Some, <- Hdom, Hlast, elem_of_app, list_elem_of_singleton.
  split; [|naive_solver]. intros Hx. split; [|by left]. intros ->.
  apply (Hdisj _ Hx). by rewrite list_elem_of_singleton.
Qed.

Lemma entries_ext (l : list K) (m1 m2 : gmap K V) : (∀ k, k ∈ l → m1 !! k = m2 !! k) →
  omap (λ k, (λ v, (k, v)) <$> m1 !! k) l = omap (λ k, (λ v, (k, v)) <$> m2 !! k) l.
Proof.
  induction l as [|x l IH]; intros Hm; [done|]. cbn [omap list_omap].
  rewrite Hm by left. destruct (m2 !! x); cbn; [f_equal|]; apply IH; intros; apply Hm; by right.
Qed.

Lemma length_entries c : lru_wf c → length (entries c) = length (lru_list_ c).
Proof.
  intros [_ Hdom]. unfold entries. assert (∀ k, k ∈ lru_list_ c → is_Some (cache_ c !! k)) as Hs
    by naive_solver. revert Hs. generalize (lru_list_ c). clear Hdom.
  induction l as [|x l IH]; intros Hs; [done|]. cbn [omap list_omap].
  destruct (Hs x) as [v ->]; [by left|]. cbn. f_equal. apply IH. intros; apply Hs; by right.
Qed.

Lemma entries_pop c k : lru_wf c → last (lru_list_ c) = Some k →
  entries (mkLRU (take (pred (length (lru_list_ c))) (lru_list_ c))
                 (delete k (cache_ c)) (capacity_ c)) =
  take (pred (length (entries c))) (entries c).
Proof.
  intros Hwf Hlast. rewrite length_entries by done. destruct Hwf as [Hnd Hdom].
  pose proof (last_take _ _ Hlast) as Heq. set (n := pred _) in *.
  assert (length (take n (lru_list_ c)) = n) as Hlen.
  { rewrite length_take. unfold n. lia. }
  assert (k ∉ take n (lru_list_ c)) as Hk.
  { rewrite Heq in Hnd. apply NoDup_app in Hnd as (_ & Hd & _). intros Hk. apply (Hd _ Hk).
    by rewrite list_elem_of_singleton. }
  set (f := λ k, (λ v, (k, v)) <$> cache_ c !! k).
  assert (entries (mkLRU (take n (lru_list_ c)) (delete k (cache_ c)) (capacity_ c)) =
    omap f (take n (lru_list_ c))) as He.
  { apply entries_ext. intros x Hx. simpl. rewrite lookup_delete_ne; [done|congruence]. }
  assert (entries c = omap f (take n (lru_list_ c)) ++ omap f [k]) as Hc.
  { rewrite <- omap_app, <- Heq. done. }
  assert (length (omap f (take n (lru_list_ c))) = n) as Hl.
  { rewrite <- He, length_entries; [done|]. by apply (wf_pop c k). }
  rewrite He, Hc. symmetry. by apply take_app_length'.
Qed.

(** The eviction loop terminates within its fuel, never reads an empty list,
    and keeps the most recent entries. *)
Lemma evict_spec fuel c :
  lru_wf c → (length (lru_list_ c) ≤ fuel)%nat →
  ∃ c', evict fuel c = Some c' ∧ lru_ok c' ∧ capacity_ c' = capacity_ c ∧
        entries c' = take (capacity_ c) (entries c).
Proof.
  revert c. induction fuel as [|fuel IH]; intros c Hwf Hfuel;
    pose proof (lru_wf_size c Hwf) as Hsz; pose proof (length_entries c Hwf) as Hle;
    cbn [evict]; case_decide as Hd.
  - lia.
  - exists c. split_and!; [done|apply lru_ok_wf; split; [done|lia]|done|]. by rewrite take_ge by lia.
  - destruct (last (lru_list_ c)) as [k|] eqn:Hlast.
    2:{ apply last_None in Hlast. rewrite Hlast in Hsz. simpl in Hsz. lia. }
    destruct (IH _ (wf_pop c k Hwf Hlast)) as (c' & Hev & Hok & Hcap & Hent).
    { simpl. rewrite length_take. lia. }
    exists c'. split_and!; [done|done|done|]. rewrite Hent; simpl.
    rewrite entries_pop, take_take by done. f_equal. lia.
  - exists c. split_and!; [done|apply lru_ok_wf; split; [done|lia]|done|]. by rewrite take_ge by lia.
Qed.

Lemma spec_lookup_entries c k : lru_wf c → spec_lookup k (entries c) = cache_ c !! k.
Proof.
  intros [_ Hdom]. unfold entries, spec_lookup.
  assert (cache_ c !! k = if decide (k ∈ lru_list_ c) then cache_ c !! k else None) as ->.
  { case_decide as Hk; [done|]. rewrite Hdom in Hk. by destruct (cache_ c !! k); [destruct Hk|]. }
  clear Hdom. induction (lru_list_ c) as [|x l IH]; [done|]. cbn [omap list_omap].
  destruct (cache_ c !! x) as [v|] eqn:Hx; cbn.
  - case_bool_decide as Hk; simpl.
    + subst. rewrite decide_True by left. by rewrite Hx.
    + rewrite IH. do 2 case_decide; try done; set_solver.
  - rewrite IH. do 2 case_decide; try done; [set_solver|].
    assert (x = k) as -> by set_solver. by rewrite Hx.
Qed.

Lemma spec_remove_entries k (l : list K) (m : gmap K V) :
  spec_remove k (omap (λ k, (λ v, (k, v)) <$> m !! k) l) =
  omap (λ k, (λ v, (k, v)) <$> m !! k) (unlink k l).
Proof.
  unfold spec_remove, unlink. induction l as [|x l IH]; [done|]. cbn [omap list_omap List.filter].
  destruct (m !! x) eqn:Hx; cbn [List.filter fmap option_fmap option_map].
  - simpl. case_bool_decide; cbn [omap list_omap]; rewrite ?Hx; cbn; by rewrite IH.
  - case_bool_decide; cbn [omap list_omap]; rewrite ?Hx; cbn; by rewrite IH.
Qed.

Lemma splice_wf c k v : lru_wf c → is_Some (cache_ c !! k) →
  lru_wf (mkLRU (splice_front k (lru_list_ c)) (<[k := v]> (cache_ c)) (capacity_ c)) ∧
  length (splice_front k (lru_list_ c)) = length (lru_list_ c) ∧
  entries (mkLRU (splice_front k (lru_list_ c)) (<[k := v]> (cache_ c)) (capacity_ c)) =
    (k, v) :: spec_remove k (entries c).
Proof.
  intros [Hnd Hdom] Hk. pose proof (proj2 (Hdom k) Hk) as Hin.
  unfold splice_front. split_and!.
  - split; simpl.
    + constructor; [rewrite elem_of_unlink; naive_solver|by apply NoDup_unlink].
    + intros x. rewrite elem_of_cons, elem_of_unlink, lookup_insert_is_Some, Hdom.
      destruct (decide (x = k)); naive_solver.
  - simpl. by apply length_unlink.
  - unfold entries; simpl. rewrite lookup_insert_eq. cbn. f_equal.
    rewrite spec_remove_entries. apply entries_ext. intros x Hx%elem_of_unlink.
    rewrite lookup_insert_ne; naive_solver.
Qed.

Lemma push_wf c k v : lru_wf c → cache_ c !! k = None →
  lru_wf (mkLRU (k :: lru_list_ c) (<[k := v]> (cache_ c)) (capacity_ c)) ∧
  entries (mkLRU (k :: lru_list_ c) (<[k := v]> (cache_ c)) (capacity_ c)) = (k, v) :: entries c.
Proof.
  intros [Hnd Hdom] Hk. assert (k ∉ lru_list_ c) as Hin.
  { rewrite Hdom, Hk. by intros [? ?]. }
  split; [split; simpl|].
  - by constructor.
  - intros x. rewrite elem_of_cons, lookup_insert_is_Some, Hdom. destruct (decide (x = k)); naive_solver.
  - unfold entries; simpl. rewrite lookup_insert_eq. cbn. f_equal. apply entries_ext.
    intros x Hx. rewrite lookup_insert_ne by congruence. done.
Qed.

Lemma LRU_new_ok cap : lru_ok (LRU_new cap).
Proof. split; simpl; [constructor| |lia]. intros k. rewrite elem_of_nil, lookup_empty. split; [done|]. by intros [? ?]. Qed.

(** What clients of the cache rely on: it only ever holds what was put. *)
Lemma evict_incl fuel c c' : evict fuel c = Some c' → cache_ c' ⊆ cache_ c.
Proof.
  revert c. induction fuel as [|fuel IH]; intros c; cbn [evict];
    (case_decide; [|by intros [= ->]]); [done|].
  destruct (last (lru_list_ c)) as [k|]; [|done]. intros Hs%IH. etrans; [exact Hs|]. apply delete_subseteq.
Qed.

Lemma get_ok k c : lru_ok c →
  lru_ok (get k c).1 ∧ cache_ (get k c).1 = cache_ c ∧ (get k c).2 = cache_ c !! k.
Proof.
  intros [Hwf Hb]%lru_ok_wf. unfold get. destruct (cache_ c !! k) as [v|] eqn:Hk; simpl.
  - split_and!; [|done|done]. destruct (splice_wf c k v Hwf) as (Hw & Hl & _); [by eexists|].
    rewrite insert_id in Hw by done. apply lru_ok_wf. simpl in *. split; [done|lia].
  - split_and!; [by apply lru_ok_wf|done|done].
Qed.

Lemma put_ok k v c : lru_ok c →
  ∃ c', put k v c = Some c' ∧ lru_ok c' ∧ cache_ c' ⊆ <[k := v]> (cache_ c).
Proof.
  intros [Hwf Hb]%lru_ok_wf. unfold put. destruct (cache_ c !! k) as [v'|] eqn:Hk.
  - destruct (splice_wf c k v Hwf) as (Hw & Hl & He); [by eexists|].
    eexists. split_and!; [done| |done]. apply lru_ok_wf. split; [done|]. simpl in *. lia.
  - destruct (push_wf c k v Hwf Hk) as [Hw He].
    destruct (evict_spec (S (length (lru_list_ c))) _ Hw) as (c' & Hev & Hok & _); [done|].
    exists c'. split_and!; [done|done|]. exact (evict_incl _ _ _ Hev).
Qed.

Lemma put_found k v c : lru_ok c → (0 < capacity_ c)%nat →
  ∃ c', put k v c = Some c' ∧ cache_ c' !! k = Some v.
Proof.
  intros [Hwf Hb]%lru_ok_wf Hcap. unfold put. destruct (cache_ c !! k) as [v'|] eqn:Hk.
  - eexists. split; [done|]. apply lookup_insert_eq.
  - destruct (push_wf c k v Hwf Hk) as [Hw He].
    destruct (evict_spec (S (length (lru_list_ c))) _ Hw) as (c' & Hev & Hok & _ & Hent); [done|].
    exists c'. split; [done|]. apply lru_ok_wf in Hok as [Hw' _]. rewrite <- spec_lookup_entries by done.
    rewrite Hent, He. simpl. destruct (capacity_ c); [lia|]. unfold spec_lookup. simpl. by rewrite bool_decide_true.
Qed.

Lemma LRU_clean_ok c : lru_ok (clean c).
Proof.
  split; simpl; [by apply NoDup_nil|intros k; rewrite lookup_empty; set_solver|lia].
Qed.

Lemma remove_ok k c : lru_ok c → lru_ok (remove k c) ∧ cache_ (remove k c) ⊆ cache_ c.
Proof.
  intros Hok. unfold remove. destruct (cache_ c !! k) as [v|] eqn:Hk; [|done]. simpl. split; [|apply delete_subseteq].
  destruct Hok as [Hnd Hdom Hb]. split; simpl.
  - by apply NoDup_unlink.
  - intros k'. rewrite elem_of_unlink, Hdom. rewrite lookup_delete_is_Some. naive_solver.
  - assert (k ∈ lru_list_ c) as Hin by (apply Hdom; by eexists). pose proof (length_unlink k _ Hnd Hin). lia.
Qed.

Lemma set_capacity_ok n c : lru_ok c → ∃ c', set_capacity n c = Some c' ∧ lru_ok c' ∧ cache_ c' ⊆ cache_ c.
Proof.
  intros [Hwf _]%lru_ok_wf. unfold set_capacity.
  destruct (evict_spec (length (lru_list_ c)) (mkLRU (lru_list_ c) (cache_ c) n)) as (c' & Hev & Hok & _); [done|done|].
  exists c'. split_and!; [done|done|]. exact (evict_incl _ _ _ Hev).
Qed.

(** C35: the cache refines its specification.  From a well-formed cache, [get]
    and [put] return (the eviction loop ends and never touches an empty list),
    leave a well-formed cache that holds at most [capacity_] keys, and act on
    the recency-ordered list of entries exactly as the specification: a hit
    moves the entry to the front, [put] of a cached key replaces its value and
    moves it to the front, and [put] of a new key drops the least recently
    used entries beyond the capacity; [set_capacity] keeps the most recent
    entries, [remove] drops one key and [clean] all of them. *)
Theorem lru_refines_spec (c : LRUCache) (k : K) (v : V) (cap : nat) :
  lru_ok c →
  (lru_ok (get k c).1 ∧ (entries (get k c).1, (get k c).2) = spec_get k (entries c)) ∧
  (∃ c', put k v c = Some c' ∧ lru_ok c' ∧ entries c' = spec_put (capacity_ c) k v (entries c)) ∧
  (∃ c', set_capacity cap c = Some c' ∧ lru_ok c' ∧ entries c' = take cap (entries c)) ∧
  (lru_ok (remove k c) ∧ entries (remove k c) = spec_remove k (entries c)) ∧
  (lru_ok (clean c) ∧ entries (clean c) = []).
Proof.
  intros [Hwf Hb]%lru_ok_wf. unfold get, put, spec_get, spec_put, remove.
  rewrite spec_lookup_entries by done. split_and!.
  - destruct (cache_ c !! k) as [v'|] eqn:Hk; simpl; [|by apply lru_ok_wf].
    destruct (splice_wf c k v' Hwf) as (Hw & Hl & _); [by eexists|].
    rewrite insert_id in Hw by done. apply lru_ok_wf. simpl in *. split; [done|lia].
  - destruct (cache_ c !! k) as [v'|] eqn:Hk; [|done].
    destruct (splice_wf c k v' Hwf) as (_ & _ & He); [by eexists|].
    rewrite insert_id in He by done. simpl. by rewrite He.
  - destruct (cache_ c !! k) as [v'|] eqn:Hk.
    + destruct (splice_wf c k v Hwf) as (Hw & Hl & He); [by eexists|].
      eexists. split_and!; [done| |exact He]. apply lru_ok_wf. split; [done|]. simpl in *. lia.
    + destruct (push_wf c k v Hwf Hk) as [Hw He].
      destruct (evict_spec (S (length (lru_list_ c))) _ Hw) as (c' & Hev & Hok & _ & Hent); [done|].
      exists c'. split_and!; [done|done|]. by rewrite Hent, He.
  - destruct (evict_spec (length (lru_list_ c)) (mkLRU (lru_list_ c) (cache_ c) cap))
      as (c' & Hev & Hok & _ & Hent); [done|done|]. by exists c'.
  - destruct (cache_ c !! k) as [v'|] eqn:Hk; [|by apply lru_ok_wf].
    destruct Hwf as [Hnd Hdom]. split; simpl.
    + by apply NoDup_unlink.
    + intros x. rewrite elem_of_unlink, lookup_delete_is_Some, Hdom. naive_solver.
    + pose proof (length_unlink k _ Hnd) as Hl. rewrite Hdom, Hk in Hl.
      specialize (Hl ltac:(by eexists)). lia.
  - destruct (cache_ c !! k) as [v'|] eqn:Hk.
    + unfold entries; simpl. rewrite spec_remove_entries. apply entries_ext.
      intros x Hx%elem_of_unlink. rewrite lookup_delete_ne; naive_solver.
    + unfold entries. rewrite spec_remove_entries, unlink_notin; [done|].
      destruct Hwf as [_ Hdom]. rewrite Hdom, Hk. by intros [? ?].
  - unfold clean. apply (LRU_new_ok (capacity_ c)).
  - done.
Qed.

End lru.

Arguments LRUCache K V {_ _} : assert.
Arguments mkLRU {_ _ _ _} _ _ _ : assert.

Lemma lru_refines_spec_witness :
  lru_ok (mkLRU [2%Z; 1%Z] {[ 1%Z := "a"; 2%Z := "b" ]} 2) ∧
  (∃ c', put 3%Z "c" (mkLRU [2%Z; 1%Z] {[ 1%Z := "a"; 2%Z := "b" ]} 2) = Some c' ∧
         entries c' = [(3%Z, "c"); (2%Z, "b")]).
Proof.
  assert (lru_ok (mkLRU [2%Z; 1%Z] {[ 1%Z := "a"; 2%Z := "b" ]} 2)) as Hok.
  { split; simpl.
    - by apply (bool_decide_unpack _).
    - intros k. rewrite lookup_insert_is_Some, lookup_singleton_is_Some. set_solver.
    - lia. }
  split; [exact Hok|].
  destruct (lru_refines_spec _ 3%Z "c" 0 Hok) as (_ & (c' & Hput & _ & He) & _).
  exists c'. split; [exact Hput|]. rewrite He. vm_compute. reflexivity.
Defined.
