(* ===== verification/StorageUri.v ===== *)
(** * Storage URIs

    [StorageUri] of [filesystem/fs.h] and [filesystem/fs.cpp].  The parser of
    general URIs, [arrow::util::Uri], is third-party code: it is the class
    [UriParser], and what the round trip relies on is the class
    [UriParserLaws]. *)

From S2P Require Import Prelude CppString Status.
From Stdlib Require Import Ascii.

(** What the accessors of [arrow::util::Uri] return; [port()] is -1 when the
    URI has none. *)
Record Uri := mkUri {
  uri_scheme : string;
  uri_host : string;
  uri_port : Z;
  uri_path : string;
}.

(** [Uri::Parse]; [None] is a status that is not OK. *)
Class UriParser := uri_parse : string → option Uri.

Record StorageUri := mkStorageUri {
  scheme : string;
  address : string;
  bucket_name : string;
  key : string;
}.

#[global] Instance StorageUri_eq_dec : EqDecision StorageUri.
Proof. solve_decision. Defined.

Definition IsRelativeUri (u : StorageUri) : bool := is_empty (scheme u).
Definition IsAbsoluteUri (u : StorageUri) : bool := negb (is_empty (scheme u)).
Definition ToRelativePath (u : StorageUri) : string := key u.

(** [s.find("://")]: the texts before and after its first occurrence. *)
Fixpoint split_scheme (s : string) : option (string * string) :=
  if starts_with "://" s then Some (EmptyString, drop_str 3 s)
  else match s with
       | EmptyString => None
       | String a s' => match split_scheme s' with
                        | Some (l, r) => Some (String a l, r)
                        | None => None
                        end
       end.

(** [s.find(c)]: the texts before and after the first [c]. *)
Fixpoint split1 (c : ascii) (s : string) : option (string * string) :=
  match s with
  | EmptyString => None
  | String a s' => if Ascii.eqb a c then Some (EmptyString, s')
                   else match split1 c s' with
                        | Some (l, r) => Some (String a l, r)
                        | None => None
                        end
  end.

Section uri.
Context `{UriParser}.

(** [host], and [":port"] when there is a port. *)
Definition host_port (u : Uri) : string :=
  if 0 <? uri_port u then uri_host u +:+ ":" +:+ to_string (uri_port u) else uri_host u.

Definition Parse (uri : string) (include_address : bool) : Result StorageUri :=
  match uri_parse uri with
  | None => Ok (mkStorageUri "" "" "" uri)
  | Some parsed =>
      if is_empty (uri_scheme parsed) then Ok (mkStorageUri "" "" "" uri)
      else
        let host := host_port parsed in
        let path := uri_path parsed in
        if is_empty path then Err status_Invalid
        else
          let path := if starts_with "/" path then drop_str 1 path else path in
          if is_empty path then Err status_Invalid
          else
            let result :=
              if include_address then
                match split1 "/" path with
                | None => None
                | Some (bucket, k) => Some (mkStorageUri (uri_scheme parsed) host bucket k)
                end
              else Some (mkStorageUri (uri_scheme parsed) "" host path) in
            match result with
            | None => Err status_Invalid
            | Some r => if is_empty (bucket_name r) then Err status_Invalid else Ok r
            end
  end.

(** The bare [host:port] of an address that may be an HTTP URL. *)
Definition resolve_address (addr : string) : string :=
  match uri_parse addr with
  | Some p =>
      if bool_decide (uri_scheme p = "http") || bool_decide (uri_scheme p = "https")
      then host_port p else addr
  | None => addr
  end.

Definition Make (u : StorageUri) (include_address : bool) : Result string :=
  if is_empty (scheme u) then Err status_Invalid
  else if is_empty (bucket_name u) then Err status_Invalid
  else if is_empty (key u) then Err status_Invalid
  else if negb include_address then
    Ok (scheme u +:+ "://" +:+ bucket_name u +:+ "/" +:+ key u)
  else
    let resolved_address :=
      if is_empty (address u) then address u else resolve_address (address u) in
    Ok (scheme u +:+ "://" +:+ resolved_address +:+ "/" +:+ bucket_name u +:+ "/" +:+ key u).

Definition BuildEndpointUrl (addr : string) (use_ssl : bool) : string :=
  if is_empty addr then ""
  else match split_scheme addr with
       | Some _ => addr
       | None => (if use_ssl then "https://" else "http://") +:+ addr
       end.

Definition BuildAzureEndpointAddress (addr account_name : string) (use_ssl : bool) : string :=
  let host := match split_scheme addr with Some (_, r) => r | None => addr end in
  let scheme := if use_ssl then "https" else "http" in
  if starts_with "." host
  then scheme +:+ "://" +:+ account_name +:+ host
  else scheme +:+ "://" +:+ host +:+ "/" +:+ account_name.

End uri.

(** ** The documented behaviour of the URI parser *)

(** Characters of a URI that need no escaping and delimit nothing. *)
Definition uri_char (a : ascii) : bool :=
  let n := N_of_ascii a in
  (((48 <=? n) && (n <=? 57)) || ((65 <=? n) && (n <=? 90)) || ((97 <=? n) && (n <=? 122))
   || (n =? 45) || (n =? 46) || (n =? 95))%N.
Fixpoint uri_word (s : string) : bool :=
  match s with EmptyString => true | String a s' => uri_char a && uri_word s' end.
(** Words separated by slashes. *)
Fixpoint uri_path_ok (s : string) : bool :=
  match s with
  | EmptyString => true
  | String a s' => (uri_char a || Ascii.eqb a "/") && uri_path_ok s'
  end.

(** A scheme of RFC 3986: a letter, then letters, digits, plus signs, hyphens
    and periods. *)
Definition scheme_alpha (a : ascii) : bool :=
  let n := N_of_ascii a in (((65 <=? n) && (n <=? 90)) || ((97 <=? n) && (n <=? 122)))%N.
Definition scheme_char (a : ascii) : bool :=
  let n := N_of_ascii a in
  (scheme_alpha a || ((48 <=? n) && (n <=? 57)) || (n =? 43) || (n =? 45) || (n =? 46))%N.
Fixpoint scheme_rest (s : string) : bool :=
  match s with EmptyString => true | String a s' => scheme_char a && scheme_rest s' end.
Definition uri_scheme_ok (s : string) : bool :=
  match s with EmptyString => false | String a s' => scheme_alpha a && scheme_rest s' end.

(** [scheme://host[:port]/path] parses into its parts, and the scheme of
    whatever parses is empty or the text before the first colon. *)
Class UriParserLaws `{UriParser} : Prop := {
  uri_parse_host s h p :
    uri_scheme_ok s = true → uri_word h = true → is_empty h = false → uri_path_ok p = true →
    uri_parse (s +:+ "://" +:+ h +:+ "/" +:+ p) = Some (mkUri s h (-1) (String "/" p));
  uri_parse_port s h (n : Z) p :
    uri_scheme_ok s = true → uri_word h = true → is_empty h = false → uri_path_ok p = true →
    0 < n < 65536 →
    uri_parse (s +:+ "://" +:+ (h +:+ ":" +:+ to_string n) +:+ "/" +:+ p) =
      Some (mkUri s h n (String "/" p));
  uri_parse_scheme a u : uri_parse a = Some u →
    uri_scheme u = "" ∨
    uri_scheme_ok (uri_scheme u) = true ∧ ∃ rest, a = uri_scheme u +:+ ":" +:+ rest;
}.

(** ** Lemmas *)

Lemma split1_app c s t : mem_char c s = false → split1 c (s +:+ String c t) = Some (s, t).
Proof.
  induction s as [|a s IH]; intros Hs.
  - rewrite app_str_nil_l. simpl. by rewrite Ascii.eqb_refl.
  - rewrite app_str_cons. simpl in *. apply orb_false_iff in Hs as [Ha Hs].
    by rewrite Ha, IH.
Qed.

Lemma split1_none c s : mem_char c s = false → split1 c s = None.
Proof.
  induction s as [|a s IH]; simpl; [done|]. intros [-> Hs]%orb_false_iff. by rewrite IH.
Qed.

Lemma uri_word_path s : uri_word s = true → uri_path_ok s = true.
Proof. induction s; simpl; [done|]. intros [-> Hs]%andb_true_iff. auto. Qed.

Lemma uri_path_app s t : uri_path_ok (s +:+ t) = uri_path_ok s && uri_path_ok t.
Proof.
  induction s; rewrite ?app_str_cons, ?app_str_nil_l; simpl; [done|]. by rewrite IHs, andb_assoc.
Qed.

Lemma uri_word_mem c s : uri_char c = false → uri_word s = true → mem_char c s = false.
Proof.
  intros Hc. induction s as [|a s IH]; simpl; [done|]. intros [Ha Hs]%andb_true_iff.
  rewrite (IH Hs), orb_false_r. apply Ascii.eqb_neq. congruence.
Qed.

Lemma uri_scheme_colon s : uri_scheme_ok s = true → mem_char ":" s = false.
Proof.
  destruct s as [|a s]; [done|]. cbn [uri_scheme_ok]. intros [Ha Hs]%andb_true_iff.
  assert (∀ b, scheme_char b = true → Ascii.eqb b ":" = false) as Hc.
  { intros b Hb. apply Ascii.eqb_neq. intros ->. done. }
  cbn [mem_char]. rewrite Hc by (unfold scheme_char; by rewrite Ha). cbn [orb].
  induction s as [|b s IH]; [done|]. cbn [scheme_rest mem_char] in *.
  apply andb_true_iff in Hs as [Hb Hs]. rewrite Hc by done. by apply IH.
Qed.

Lemma uri_scheme_nonempty s : uri_scheme_ok s = true → is_empty s = false.
Proof. by destruct s. Qed.

(** An address that is a host, or a host other than [http] and [https] with a
    port, is not an HTTP URL. *)
Lemma resolve_address_plain `{UriParserLaws} addr :
  (∀ h rest, split1 ":" addr = Some (h, rest) → h ≠ "http" ∧ h ≠ "https") →
  resolve_address addr = addr.
Proof.
  intros Hh. unfold resolve_address. destruct (uri_parse addr) as [u|] eqn:Hu; [|done].
  destruct (uri_parse_scheme addr u Hu) as [->|(Hs & rest & Ha)]; [done|].
  destruct (Hh (uri_scheme u) rest) as [H1 H2]; [|by rewrite !bool_decide_false].
  rewrite Ha at 1. change (":" +:+ rest) with (String ":" rest).
  apply split1_app. by apply uri_scheme_colon.
Qed.

(** ** Properties *)

(** A location the code can address: a bucket and a key made of plain
    characters, and as address a plain host with an optional port.  A host named
    [http] or [https] with a port is excluded: [Make] takes such an address for
    a URL of that scheme (see [http_host_dropped]). *)
Definition uri_good (u : StorageUri) (host : string) (port : option Z) : Prop :=
  uri_scheme_ok (scheme u) = true ∧
  (uri_word (bucket_name u) = true ∧ is_empty (bucket_name u) = false) ∧
  (uri_path_ok (key u) = true ∧ is_empty (key u) = false) ∧
  (uri_word host = true ∧ is_empty host = false) ∧
  match port with
  | None => address u = host
  | Some n => address u = host +:+ ":" +:+ to_string n ∧ 0 < n < 65536 ∧
      host ≠ "http" ∧ host ≠ "https"
  end.

(** [StorageUri::Make] and [StorageUri::Parse] are inverse on
    well-formed locations.  With the address, [Make] succeeds and [Parse] of
    its result gives the same scheme, address (host with optional port),
    bucket and key; without it, the result is the same location with an empty
    address. *)
Theorem storage_uri_roundtrip `{UriParserLaws} (u : StorageUri) (host : string) (port : option Z) :
  uri_good u host port →
  (∃ s, Make u true = Ok s ∧ Parse s true = Ok u) ∧
  (∃ s, Make u false = Ok s ∧
        Parse s false = Ok (mkStorageUri (scheme u) "" (bucket_name u) (key u))).
Proof.
  destruct u as [sch addr b k]. unfold uri_good; simpl.
  intros (Hs & [Hb Hbe] & [Hk Hke] & [Hh Hhe] & Hport).
  assert (is_empty sch = false) as Hse.
  { by apply uri_scheme_nonempty. }
  assert (split1 "/" (b +:+ String "/" k) = Some (b, k)) as Hsplit
    by (apply split1_app; by apply uri_word_mem).
  assert (is_empty (b +:+ String "/" k) = false) as Hne by by destruct b.
  assert (uri_path_ok (b +:+ String "/" k) = true) as Hpath.
  { rewrite uri_path_app, (uri_word_path b Hb). simpl. by rewrite Hk. }
  assert (is_empty addr = false) as Hae.
  { destruct port as [n|]; [destruct Hport as [-> _]|by subst].
    destruct host; [done|]. by rewrite app_str_cons. }
  assert (resolve_address addr = addr) as Hres.
  { apply resolve_address_plain. intros h rest Hsp. destruct port as [n|].
    - destruct Hport as (-> & _ & H1 & H2).
      change (":" +:+ to_string n) with (String ":" (to_string n)) in Hsp.
      rewrite split1_app in Hsp by by apply uri_word_mem. by injection Hsp as <- <-.
    - subst. rewrite split1_none in Hsp; [done|]. by apply uri_word_mem. }
  split.
  - eexists. split.
    { unfold Make; simpl. by rewrite Hse, Hbe, Hke, Hae, Hres. }
    unfold Parse. change ("/" +:+ b +:+ "/" +:+ k) with ("/" +:+ (b +:+ String "/" k)).
    destruct port as [n|].
    + destruct Hport as (-> & Hn & _). rewrite uri_parse_port by done. simpl.
      rewrite Hse, Hne. unfold host_port; simpl. replace (0 <? n) with true by lia.
      by rewrite Hsplit; simpl; rewrite Hbe.
    + subst. rewrite uri_parse_host by done. simpl. rewrite Hse, Hne. unfold host_port; simpl.
      by rewrite Hsplit; simpl; rewrite Hbe.
  - eexists. split.
    { unfold Make; simpl. by rewrite Hse, Hbe, Hke. }
    unfold Parse. rewrite uri_parse_host by done. simpl. rewrite Hse, Hke.
    unfold host_port; simpl. by rewrite Hbe.
Qed.

(** ** A parser that satisfies the laws *)
Module ToyUri.

(** [scheme:rest], where a rest that starts with two slashes has an authority,
    with an optional decimal port, up to the next slash. *)
Definition authority (s : string) : string * Z :=
  match split1 ":" s with
  | Some (h, p) => (h, default (-1) (from_chars_exact 0 65535 p))
  | None => (s, -1)
  end.

#[export] Instance parser : UriParser := λ s,
  match split1 ":" s with
  | None => None
  | Some (sch, rest) =>
      if negb (uri_scheme_ok sch) then None
      else if negb (starts_with "//" rest) then Some (mkUri sch "" (-1) rest)
      else
        let '(auth, path) := match split1 "/" (drop_str 2 rest) with
                             | None => (drop_str 2 rest, "")
                             | Some (auth, path) => (auth, String "/" path)
                             end in
        let '(h, n) := authority auth in Some (mkUri sch h n path)
  end.

Lemma split1_inv c s l r : split1 c s = Some (l, r) → s = l +:+ String c r.
Proof.
  revert l. induction s as [|a s IH]; intros l; [done|]. cbn [split1].
  destruct (Ascii.eqb a c) eqn:Ha.
  - apply Ascii.eqb_eq in Ha as ->. by intros [= <- <-].
  - destruct (split1 c s) as [[l' r']|]; [|done]. intros [= <- <-]. by rewrite (IH l').
Qed.

Lemma parse_authority sch auth path : uri_scheme_ok sch = true → mem_char "/" auth = false →
  uri_parse (sch +:+ "://" +:+ auth +:+ "/" +:+ path) =
    let '(h, n) := authority auth in Some (mkUri sch h n (String "/" path)).
Proof.
  intros Hs Ha. unfold uri_parse, parser.
  change ("://" +:+ auth +:+ "/" +:+ path) with (String ":" ("//" +:+ auth +:+ "/" +:+ path)).
  rewrite split1_app by by apply uri_scheme_colon. rewrite Hs. cbn [negb].
  rewrite starts_with_app. cbn [negb]. change 2%nat with (String.length "//").
  rewrite drop_str_app. change ("/" +:+ path) with (String "/" path). by rewrite split1_app.
Qed.

#[export] Instance parser_laws : UriParserLaws.
Proof.
  split.
  - intros s h p Hs Hh He Hp. rewrite parse_authority by (try done; by apply uri_word_mem).
    unfold authority. by rewrite split1_none by by apply uri_word_mem.
  - intros s h n p Hs Hh He Hp Hn. rewrite parse_authority; [|done|].
    2:{ rewrite !mem_char_app, to_string_mem_char by done. by rewrite uri_word_mem. }
    unfold authority. change (":" +:+ to_string n) with (String ":" (to_string n)).
    rewrite split1_app by by apply uri_word_mem. rewrite from_chars_exact_to_string; [done|lia|lia].
  - intros a u. unfold uri_parse, parser. destruct (split1 ":" a) as [[sch rest]|] eqn:Ha; [|done].
    apply split1_inv in Ha as ->. destruct (uri_scheme_ok sch) eqn:Hs; [|done]. cbn [negb].
    assert (∀ h n p, Some (mkUri sch h n p) = Some u → uri_scheme u = "" ∨
      uri_scheme_ok (uri_scheme u) = true ∧
        ∃ rest', sch +:+ String ":" rest = uri_scheme u +:+ ":" +:+ rest') as Hr.
    { intros h n p [= <-]. right. split; [done|]. by exists rest. }
    destruct (starts_with "//" rest); cbn [negb]; [|apply Hr].
    destruct (split1 "/" _) as [[au pa]|]; destruct (authority _); apply Hr.
Qed.

(** A host named [http] with a port: [Make] takes the address for a URL of the
    scheme [http] without a host, and writes a URI without an address. *)
Example http_host_dropped :
  Make (mkStorageUri "s3" "http:9000" "bucket" "a/b.parquet") true = Ok "s3:///bucket/a/b.parquet".
Proof. vm_compute. reflexivity. Qed.
End ToyUri.

Lemma storage_uri_roundtrip_witness :
  uri_good (mkStorageUri "s3" "localhost:9000" "bucket" "a/b.parquet") "localhost" (Some 9000) ∧
  ∃ s, @Make ToyUri.parser (mkStorageUri "s3" "localhost:9000" "bucket" "a/b.parquet") true = Ok s ∧
       @Parse ToyUri.parser s true = Ok (mkStorageUri "s3" "localhost:9000" "bucket" "a/b.parquet").
Proof.
  assert (uri_good (mkStorageUri "s3" "localhost:9000" "bucket" "a/b.parquet")
    "localhost" (Some 9000)) as Hg.
  { repeat split; try reflexivity; done || lia. }
  split; [exact Hg|].
  exact (proj1 (@storage_uri_roundtrip ToyUri.parser ToyUri.parser_laws _ _ _ Hg)).
Defined.
