(* ===== verification/ColumnGroups.v ===== *)
(** * Column groups and the objects they share

    [ColumnGroupFile], [ColumnGroup], [ColumnGroups] and [copy_column_groups]
    of [column_groups.h], the property conversions of
    [common/properties_convert.h], and the heap of [ColumnGroup] objects that
    [std::shared_ptr] shares: a column group reached through two pointers is
    one object, and a write through one of them is seen through the other. *)

From S2P Require Import Prelude CppString Status.
From Stdlib Require Import Ascii.

(** ** Property conversions *)

Module Convert.

(** [convertFunc<T>] returns a success flag and a value; the value is only
    used when the flag is set, so that the pair is an [option]. *)
Class ConvertFunc (T : Type) := convertFunc : string → option T.

(** The integer types of the code, to tell their conversions apart. *)
Record int32_t := mk_i32 { i32 : Z }.
Record int64_t := mk_i64 { i64 : Z }.
Record uint32_t := mk_u32 { u32 : Z }.
Record uint64_t := mk_u64 { u64 : Z }.

Definition convertIntFunc (lo hi : Z) (s : string) : option Z := from_chars_exact lo hi s.

#[export] Instance convert_int32 : ConvertFunc int32_t := λ s,
  mk_i32 <$> convertIntFunc INT32_MIN INT32_MAX s.
#[export] Instance convert_int64 : ConvertFunc int64_t := λ s,
  mk_i64 <$> convertIntFunc INT64_MIN INT64_MAX s.
#[export] Instance convert_uint32 : ConvertFunc uint32_t := λ s,
  mk_u32 <$> convertIntFunc 0 (2 ^ 32 - 1) s.
#[export] Instance convert_uint64 : ConvertFunc uint64_t := λ s,
  mk_u64 <$> convertIntFunc 0 (UINT64_MOD - 1) s.
#[export] Instance convert_string : ConvertFunc string := λ s, Some s.

(** [::tolower] in the C locale. *)
Definition tolower (a : ascii) : ascii :=
  let n := N_of_ascii a in
  if (65 <=? n)%N && (n <=? 90)%N then ascii_of_N (n + 32) else a.
Fixpoint tolower_str (s : string) : string :=
  match s with EmptyString => EmptyString | String a s' => String (tolower a) (tolower_str s') end.

#[export] Instance convert_bool : ConvertFunc bool := λ s,
  let lower := tolower_str s in
  if bool_decide (lower = "true") || bool_decide (lower = "false")
  then Some (bool_decide (lower = "true")) else None.

(** The comma-separated list; [boost::trim_copy] is an argument. *)
Definition convertVectorFunc (trim_copy : string → string) (s : string) : option (list string) :=
  Some (if is_empty s then [] else trim_copy <$> split_on "," s).

(** [std::to_string] of the value, what [Set] stores. *)
Class ToString (T : Type) := to_str : T → string.
#[export] Instance to_str_i32 : ToString int32_t := λ x, to_string (i32 x).
#[export] Instance to_str_i64 : ToString int64_t := λ x, to_string (i64 x).
#[export] Instance to_str_u32 : ToString uint32_t := λ x, to_string (u32 x).
#[export] Instance to_str_u64 : ToString uint64_t := λ x, to_string (u64 x).
#[export] Instance to_str_string : ToString string := λ x, x.

(** What [Get] relies on: a value that was printed converts back to itself.
    [in_type] is the range of the C++ type. *)
Class ConvertLaws (T : Type) `{ConvertFunc T, ToString T} := {
  in_type : T → Prop;
  convert_to_str x : in_type x → convertFunc (to_str x) = Some x;
}.

#[export] Instance laws_i32 : ConvertLaws int32_t.
Proof.
  exists (λ x, INT32_MIN ≤ i32 x ≤ INT32_MAX). intros [x] Hx.
  unfold convertFunc, convert_int32, convertIntFunc, to_str, to_str_i32; simpl in *.
  rewrite from_chars_exact_to_string; [done|done|left; done].
Defined.
#[export] Instance laws_i64 : ConvertLaws int64_t.
Proof.
  exists (λ x, INT64_MIN ≤ i64 x ≤ INT64_MAX). intros [x] Hx.
  unfold convertFunc, convert_int64, convertIntFunc, to_str, to_str_i64; simpl in *.
  rewrite from_chars_exact_to_string; [done|done|left; done].
Defined.
#[export] Instance laws_u32 : ConvertLaws uint32_t.
Proof.
  exists (λ x, 0 ≤ u32 x ≤ 2 ^ 32 - 1). intros [x] Hx.
  unfold convertFunc, convert_uint32, convertIntFunc, to_str, to_str_u32; simpl in *.
  rewrite from_chars_exact_to_string; [done|done|right; lia].
Defined.
#[export] Instance laws_u64 : ConvertLaws uint64_t.
Proof.
  exists (λ x, 0 ≤ u64 x ≤ UINT64_MOD - 1). intros [x] Hx.
  unfold convertFunc, convert_uint64, convertIntFunc, to_str, to_str_u64; simpl in *.
  rewrite from_chars_exact_to_string; [done|done|right; lia].
Defined.
#[export] Instance laws_string : ConvertLaws string.
Proof. exists (λ _, True). done. Defined.

End Convert.
Export Convert.

(** ** Data *)

Record ColumnGroupFile := mkFile {
  cgf_path : string;
  start_index : Z;
  end_index : Z;
  cgf_properties : gmap string string;
}.

Record ColumnGroup := mkGroup {
  columns : list string;
  format : string;
  files : list ColumnGroupFile;
}.

#[global] Instance ColumnGroupFile_eq_dec : EqDecision ColumnGroupFile.
Proof. solve_decision. Defined.
#[global] Instance ColumnGroup_eq_dec : EqDecision ColumnGroup.
Proof. solve_decision. Defined.

Definition kPropertyFileSize : string := "file_size".
Definition kPropertyFooterSize : string := "footer_size".
Definition kPropertyMetadata : string := "metadata".

(** [ColumnGroupFile::Get<T>] and [Set]. *)
Definition cgf_Get {T} `{ConvertFunc T} (f : ColumnGroupFile) (key : string) (default_val : T) : T :=
  match cgf_properties f !! key with
  | None => default_val
  | Some s => match convertFunc s with Some v => v | None => default_val end
  end.

Definition cgf_Set {T} `{ToString T} (f : ColumnGroupFile) (key : string) (value : T) :
    ColumnGroupFile :=
  mkFile (cgf_path f) (start_index f) (end_index f) (<[key := to_str value]> (cgf_properties f)).

(** A default-constructed [ColumnGroup]. *)
Definition empty_group : ColumnGroup := mkGroup [] "" [].

(** ** The heap of shared column groups

    A location is an index of the heap; objects are only ever added, so that a
    location stays valid.  [std::shared_ptr<ColumnGroup>] is [option loc],
    with [None] the null pointer. *)
Abbreviation loc := nat.
Abbreviation Heap := (list ColumnGroup).
Abbreviation ColumnGroupPtr := (option loc).
Abbreviation ColumnGroups := (list ColumnGroupPtr).

Section heap.
Context {E : Type}.

(** [std::make_shared<ColumnGroup>(g)]. *)
Definition alloc (g : ColumnGroup) : M Heap E ColumnGroupPtr := λ h,
  (h ++ [g], Ok (Some (length h))).

(** [*p]: undefined on a null pointer. *)
Definition load (p : ColumnGroupPtr) : M Heap E ColumnGroup := λ h,
  match p with
  | Some l => match h !! l with Some g => (h, Ok g) | None => (h, Ub) end
  | None => (h, Ub)
  end.

(** [*p = g]. *)
Definition store (p : ColumnGroupPtr) (g : ColumnGroup) : M Heap E unit := λ h,
  match p with
  | Some l => match h !! l with Some _ => (<[l := g]> h, Ok tt) | None => (h, Ub) end
  | None => (h, Ub)
  end.

Fixpoint copy_column_groups (source : ColumnGroups) : M Heap E ColumnGroups :=
  match source with
  | [] => mret []
  | Some l :: rest =>
      g ← load (Some l);
      p ← alloc g;
      ps ← copy_column_groups rest;
      mret (p :: ps)
  | None :: rest =>
      ps ← copy_column_groups rest;
      mret (None :: ps)
  end.
End heap.

(** What a pointer stands for in a heap. *)
Definition view_ptr (h : Heap) (p : ColumnGroupPtr) : option ColumnGroup :=
  l ← p; h !! l.

(** [ps] are valid, non-null pointers to objects with the values [gs]. *)
Definition points (h : Heap) (ps : ColumnGroups) (gs : list ColumnGroup) : Prop :=
  Forall2 (λ p g, view_ptr h p = Some g) ps gs.

(** The pointers to [n] objects allocated in a row from location [l]. *)
Definition fresh_ptrs (l n : nat) : ColumnGroups := Some <$> seq l n.

(** ** Lemmas *)

Lemma points_length h ps gs : points h ps gs → length ps = length gs.
Proof. apply Forall2_length. Qed.

Lemma view_ptr_Some h p g : view_ptr h p = Some g ↔ ∃ l, p = Some l ∧ h !! l = Some g.
Proof. destruct p as [l|]; simpl; naive_solver. Qed.

(** The heap only grows: a location keeps its value unless it is stored to. *)
Lemma view_ptr_app h h' p g : view_ptr h p = Some g → view_ptr (h ++ h') p = Some g.
Proof. rewrite !view_ptr_Some. intros (l & -> & Hl). eauto using lookup_app_l_Some. Qed.

Lemma points_app_heap h h' ps gs : points h ps gs → points (h ++ h') ps gs.
Proof. intros Hp. eapply Forall2_impl; [exact Hp|]. eauto using view_ptr_app. Qed.

Lemma fresh_ptrs_S l n : fresh_ptrs l (S n) = Some l :: fresh_ptrs (S l) n.
Proof. done. Qed.

Lemma points_fresh h gs h' :
  points (h ++ gs ++ h') (fresh_ptrs (length h) (length gs)) gs.
Proof.
  unfold points, fresh_ptrs. apply Forall2_same_length_lookup_2; [by rewrite length_fmap, length_seq|].
  intros i p g Hp Hg. apply list_lookup_fmap_Some in Hp as (l & -> & Hl).
  apply lookup_seq in Hl as [-> Hi]. apply view_ptr_Some. eexists; split; [done|].
  rewrite lookup_app_r by lia. replace (length h + i - length h)%nat with i by lia.
  by apply lookup_app_l_Some.
Qed.

Section heap_lemmas.
Context {E : Type}.

Lemma load_ok h p g : view_ptr h p = Some g → load (E:=E) p h = (h, Ok g).
Proof. rewrite view_ptr_Some. intros (l & -> & Hl). unfold load. by rewrite Hl. Qed.

Lemma store_ok h l g g' : h !! l = Some g → store (E:=E) (Some l) g' h = (<[l := g']> h, Ok tt).
Proof. intros Hl. unfold store. by rewrite Hl. Qed.

(** A deep copy allocates one fresh object per group and touches nothing
    else. *)
Lemma copy_column_groups_ok h src gs : points h src gs →
  copy_column_groups (E:=E) src h = (h ++ gs, Ok (fresh_ptrs (length h) (length gs))).
Proof.
  revert h gs. induction src as [|p src IH]; intros h gs Hp.
  - apply Forall2_nil_inv_l in Hp as ->. by rewrite app_nil_r.
  - apply Forall2_cons_inv_l in Hp as (g & gs' & Hg & Hp & ->).
    pose proof Hg as (l & -> & _)%view_ptr_Some. cbn [copy_column_groups].
    rewrite (M_bind_Ok _ _ _ h g) by by apply load_ok.
    rewrite (M_bind_Ok _ _ _ (h ++ [g]) (Some (length h))) by done.
    rewrite (M_bind_Ok _ _ _ ((h ++ [g]) ++ gs') (fresh_ptrs (S (length h)) (length gs'))).
    { rewrite <- app_assoc. done. }
    rewrite (IH _ gs') by by apply points_app_heap. by rewrite length_app, Nat.add_1_r.
Qed.
End heap_lemmas.

(** A store to a location no pointer of the list designates is not seen. *)
Lemma points_store_ne h ps gs l g :
  Some l ∉ ps → points h ps gs → points (<[l := g]> h) ps gs.
Proof.
  intros Hl Hp. unfold points in *. induction Hp as [|p x ps gs Hx Hp IH]; constructor.
  - apply view_ptr_Some in Hx as (l' & -> & Hx). apply view_ptr_Some. exists l'. split; [done|].
    rewrite list_lookup_insert_ne; [done|]. set_solver.
  - apply IH. set_solver.
Qed.

Lemma fresh_ptrs_elem l n x : Some x ∈ fresh_ptrs l n ↔ (l ≤ x < l + n)%nat.
Proof.
  unfold fresh_ptrs. rewrite list_elem_of_fmap. setoid_rewrite elem_of_seq. naive_solver.
Qed.

Lemma fresh_ptrs_nodup l n : NoDup (fresh_ptrs l n).
Proof. apply NoDup_fmap_2; [apply _|]. apply NoDup_ListNoDup, seq_NoDup. Qed.

#[export] Hint Resolve points_app_heap view_ptr_app : milvus.

(** ** Properties *)

(** a property set on a file entry is read back: for every property type
    of the code and every value in its range, [Get] after [Set] of the same
    key returns the value whatever the default, and [Get] of another key is
    unaffected. *)
Theorem property_set_get {T U} `{ConvertLaws T, ConvertFunc U} (f : ColumnGroupFile)
    (key key' : string) (v d : T) (d' : U) :
  in_type v →
  cgf_Get (cgf_Set f key v) key d = v ∧
  (key' ≠ key → cgf_Get (cgf_Set f key v) key' d' = cgf_Get f key' d').
Proof.
  intros Hv. unfold cgf_Get, cgf_Set; simpl. split.
  - rewrite lookup_insert_eq. by rewrite convert_to_str.
  - intros Hne. by rewrite lookup_insert_ne.
Qed.

Lemma property_set_get_witness :
  @in_type int64_t _ _ _ (mk_i64 (-9223372036854775808)) ∧
  cgf_Get (cgf_Set (mkFile "a.parquet" 0 10 ∅) kPropertyFileSize
    (mk_i64 (-9223372036854775808))) kPropertyFileSize (mk_i64 0) =
    mk_i64 (-9223372036854775808).
Proof.
  assert (@in_type int64_t _ _ _ (mk_i64 (-9223372036854775808))) as Hin.
  { cbv -[Z.le]. split; lia. }
  split; [exact Hin|].
  exact (proj1 (property_set_get (U:=string) (mkFile "a.parquet" 0 10 ∅) kPropertyFileSize
    "k" (mk_i64 (-9223372036854775808)) (mk_i64 0) "" Hin)).
Defined.
