(* ===== verification/Properties.v ===== *)
(** * The property registry

    [properties.h/.cpp]: the properties a user can set, with their types,
    defaults and validators; [SetValue] parses and checks a text, [GetValue] and
    [GetValueNoError] read a typed value or the default, [ConvertFFIProperties]
    sets a list of them.

    The theorems: whatever texts are set, no assertion fails and every stored
    value is one the validator of its property accepted, at its registered type;
    a rejected text changes nothing; a printed value is read back; every default
    would itself be accepted. *)

From S2P Require Import Prelude CppString Status Config ColumnGroups.

(** ** Keys *)

Definition PROPERTY_FS_PREFIX : string := "fs.".
Definition PROPERTY_EXTFS_PREFIX : string := "extfs.".
Definition PROPERTY_FS_ADDRESS : string := "fs.address".
Definition PROPERTY_FS_BUCKET_NAME : string := "fs.bucket_name".
Definition PROPERTY_FS_ACCESS_KEY_ID : string := "fs.access_key_id".
Definition PROPERTY_FS_ACCESS_KEY_VALUE : string := "fs.access_key_value".
Definition PROPERTY_FS_ROOT_PATH : string := "fs.root_path".
Definition PROPERTY_FS_STORAGE_TYPE : string := "fs.storage_type".
Definition PROPERTY_FS_CLOUD_PROVIDER : string := "fs.cloud_provider".
Definition PROPERTY_FS_IAM_ENDPOINT : string := "fs.iam_endpoint".
Definition PROPERTY_FS_LOG_LEVEL : string := "fs.log_level".
Definition PROPERTY_FS_REGION : string := "fs.region".
Definition PROPERTY_FS_USE_SSL : string := "fs.use_ssl".
Definition PROPERTY_FS_SSL_CA_CERT : string := "fs.ssl_ca_cert".
Definition PROPERTY_FS_USE_IAM : string := "fs.use_iam".
Definition PROPERTY_FS_USE_VIRTUAL_HOST : string := "fs.use_virtual_host".
Definition PROPERTY_FS_REQUEST_TIMEOUT_MS : string := "fs.request_timeout_ms".
Definition PROPERTY_FS_GCP_NATIVE_WITHOUT_AUTH : string := "fs.gcp_native_without_auth".
Definition PROPERTY_FS_GCP_CREDENTIAL_JSON : string := "fs.gcp_credential_json".
Definition PROPERTY_FS_USE_CUSTOM_PART_UPLOAD : string := "fs.use_custom_part_upload".
Definition PROPERTY_FS_MAX_CONNECTIONS : string := "fs.max_connections".
Definition PROPERTY_FS_MULTI_PART_UPLOAD_SIZE : string := "fs.multi_part_upload_size".
Definition PROPERTY_FS_ROLE_ARN : string := "fs.role_arn".
Definition PROPERTY_FS_SESSION_NAME : string := "fs.session_name".
Definition PROPERTY_FS_EXTERNAL_ID : string := "fs.external_id".
Definition PROPERTY_FS_LOAD_FREQUENCY : string := "fs.load_frequency".
Definition PROPERTY_FS_TLS_MIN_VERSION : string := "fs.tls_min_version".
Definition PROPERTY_FS_BACKGROUND_WRITES : string := "fs.background_writes".
Definition PROPERTY_FS_USE_CRC32C_CHECKSUM : string := "fs.use_crc32c_checksum".
Definition PROPERTY_FS_S3_CRT_ASYNC_READ : string := "fs.s3.crt_async_read".
Definition PROPERTY_FS_LANCE_IO_PARALLELISM : string := "fs.lance_io_parallelism".
Definition PROPERTY_FS_IOPS_INITIAL_RATE : string := "fs.iops_initial_rate".
Definition PROPERTY_FS_IOPS_MAX_RATE : string := "fs.iops_max_rate".
Definition PROPERTY_FS_GCP_TARGET_SERVICE_ACCOUNT : string := "fs.gcp_target_service_account".
Definition PROPERTY_FS_AZURE_CLIENT_ID : string := "fs.azure_client_id".
Definition PROPERTY_FS_AZURE_TENANT_ID : string := "fs.azure_tenant_id".
Definition PROPERTY_FS_AZURE_CREDENTIAL_ENDPOINT : string := "fs.azure_credential_endpoint".
Definition PROPERTY_WRITER_POLICY : string := "writer.policy".
Definition PROPERTY_WRITER_FORMAT : string := "writer.format".
Definition PROPERTY_WRITER_SCHEMA_BASE_PATTERNS : string := "writer.split.schema_based.patterns".
Definition PROPERTY_WRITER_SCHEMA_BASE_FORMATS : string := "writer.split.schema_based.formats".
Definition PROPERTY_WRITER_SIZE_BASE_MACS : string := "writer.split.size_based.max_avg_column_size".
Definition PROPERTY_WRITER_SIZE_BASE_MCIG : string := "writer.split.size_based.max_columns_in_group".
Definition PROPERTY_WRITER_BUFFER_SIZE : string := "writer.buffer_size".
Definition PROPERTY_WRITER_FILE_ROLLING_SIZE : string := "writer.file_rolling.size".
Definition PROPERTY_WRITER_COMPRESSION : string := "writer.compression".
Definition PROPERTY_WRITER_COMPRESSION_LEVEL : string := "writer.compression_level".
Definition PROPERTY_WRITER_ENABLE_DICTIONARY : string := "writer.enable_dictionary".
Definition PROPERTY_WRITER_ENC_ENABLE : string := "writer.enc.enable".
Definition PROPERTY_WRITER_ENC_KEY : string := "writer.enc.key".
Definition PROPERTY_WRITER_ENC_META : string := "writer.enc.meta".
Definition PROPERTY_WRITER_ENC_ALGORITHM : string := "writer.enc.algorithm".
Definition PROPERTY_WRITER_VORTEX_ENABLE_STATISTICS : string := "writer.vortex.enable_statistics".
Definition PROPERTY_WRITER_VORTEX_FORMAT_VERSION : string := "writer.vortex.format_version".
Definition PROPERTY_WRITER_VORTEX_V2_ROW_GROUP_MAX_SIZE : string := "writer.vortex_v2.row_group_max_size".
Definition PROPERTY_READER_RECORD_BATCH_MAX_ROWS : string := "reader.record_batch_max_rows".
Definition PROPERTY_READER_RECORD_BATCH_MAX_SIZE : string := "reader.record_batch_max_size".
Definition PROPERTY_READER_LOGICAL_CHUNK_ROWS : string := "reader.logical_chunk_rows".
Definition PROPERTY_READER_METADATA_CACHE_ENABLE : string := "reader.metadata_cache.enable".
Definition PROPERTY_READER_PARQUET_PREBUFFER_HOLE_SIZE_LIMIT : string := "reader.parquet.prebuffer.hole_size_limit".
Definition PROPERTY_READER_PARQUET_PREBUFFER_RANGE_SIZE_LIMIT : string := "reader.parquet.prebuffer.range_size_limit".
Definition PROPERTY_READER_VORTEX_SPLIT_ROW_INDICES : string := "reader.vortex.split_row_indices".
Definition PROPERTY_READER_ASYNC_TASK_SPLIT_STRATEGY : string := "reader.async.task_split_strategy".
Definition PROPERTY_ICEBERG_SNAPSHOT_ID : string := "iceberg.snapshot_id".
Definition PROPERTY_PAIMON_SCAN_MODE : string := "paimon.scan_mode".
Definition PROPERTY_PAIMON_SNAPSHOT_ID : string := "paimon.snapshot_id".
Definition PROPERTY_TRANSACTION_COMMIT_NUM_RETRIES : string := "transaction.commit.num-retries".

(** ** Types and values *)

Inductive PropertyType := STRING | INT32 | INT64 | UINT32 | UINT64 | BOOL | VECTOR_STR.

#[global] Instance PropertyType_eq_dec : EqDecision PropertyType.
Proof. solve_decision. Defined.

Inductive PropertyVariant :=
  | PStr (s : string) | PI32 (z : Z) | PI64 (z : Z) | PU32 (z : Z) | PU64 (z : Z) | PBool (b : bool)
  | PVec (l : list string) | PNull.

Definition Properties : Type := gmap string PropertyVariant.

(** The name and type of a property, what a validator looks at. *)
Record PropertyHead := mkHead {
  pi_name : string;
  pi_type : PropertyType;
}.

(** An error message, or nothing; an assertion of the code may fail. *)
Definition Verdict : Type := outcome unit (option string).

Definition ValidatorFunc : Type := PropertyHead → string → Verdict.

(** A null [std::function] is [None]. *)
Definition PropertiesValidator : Type := option ValidatorFunc.

(** [PropertyInfo]; the description is not modelled. *)
Record PropertyInfo := mkInfo {
  pi_head : PropertyHead;
  pi_defval : PropertyVariant;
  pi_validator : option PropertiesValidator;
}.

(** [PropertiesValidator::operator()]. *)
Definition run_validator (v : PropertiesValidator) (h : PropertyHead) (s : string) : Verdict :=
  match v with None => Ok None | Some fn => fn h s end.

(** [operator+]. *)
Definition validator_add (a b : PropertiesValidator) : PropertiesValidator :=
  Some (λ h s,
    r ← run_validator a h s;
    match r with
    | Some e => Ok (Some e)
    | None => run_validator b h s
    end).

Declare Scope validator_scope.
Infix "+v" := validator_add (at level 50, left associativity) : validator_scope.
Open Scope validator_scope.

(** ** Conversion *)

(** The C++ types a property can have. *)
Class PropertyValue (T : Type) := {
  value_type : PropertyType;
  to_variant : T → PropertyVariant;
  of_variant : PropertyVariant → option T;    (* [std::get_if] *)
}.

Arguments value_type T {_}.

#[export] Instance value_string : PropertyValue string := {|
  value_type := STRING; to_variant := PStr;
  of_variant v := match v with PStr s => Some s | _ => None end |}.
#[export] Instance value_i32 : PropertyValue int32_t := {|
  value_type := INT32; to_variant x := PI32 (i32 x);
  of_variant v := match v with PI32 z => Some (mk_i32 z) | _ => None end |}.
#[export] Instance value_i64 : PropertyValue int64_t := {|
  value_type := INT64; to_variant x := PI64 (i64 x);
  of_variant v := match v with PI64 z => Some (mk_i64 z) | _ => None end |}.
#[export] Instance value_u32 : PropertyValue uint32_t := {|
  value_type := UINT32; to_variant x := PU32 (u32 x);
  of_variant v := match v with PU32 z => Some (mk_u32 z) | _ => None end |}.
#[export] Instance value_u64 : PropertyValue uint64_t := {|
  value_type := UINT64; to_variant x := PU64 (u64 x);
  of_variant v := match v with PU64 z => Some (mk_u64 z) | _ => None end |}.
#[export] Instance value_bool : PropertyValue bool := {|
  value_type := BOOL; to_variant := PBool;
  of_variant v := match v with PBool b => Some b | _ => None end |}.
#[export] Instance value_vector : PropertyValue (list string) := {|
  value_type := VECTOR_STR; to_variant := PVec;
  of_variant v := match v with PVec l => Some l | _ => None end |}.

Section registry.
(** [boost::trim_copy]. *)
Context (trim_copy : string → string).

#[local] Instance convert_vector : ConvertFunc (list string) := convertVectorFunc trim_copy.

Definition ValidatePropertyValueType (h : PropertyHead) (v : string) : bool :=
  match pi_type h with
  | STRING => true
  | BOOL => bool_decide (is_Some (convertFunc (T := bool) v))
  | INT32 => bool_decide (is_Some (convertFunc (T := int32_t) v))
  | INT64 => bool_decide (is_Some (convertFunc (T := int64_t) v))
  | VECTOR_STR => bool_decide (is_Some (convertFunc (T := list string) v))
  | UINT32 => bool_decide (is_Some (convertFunc (T := uint32_t) v))
  | UINT64 => bool_decide (is_Some (convertFunc (T := uint64_t) v))
  end.

(** [GetPropertyValue<T>]: the assertion at its end fails when the type is not
    the property's or the text does not convert. *)
Definition GetPropertyValueT {T} `{PropertyValue T} `{ConvertFunc T} (h : PropertyHead) (v : string) :
    outcome unit T :=
  if bool_decide (pi_type h = value_type T) then deref (convertFunc v) else Ub.

Definition GetPropertyValue (h : PropertyHead) (v : string) : outcome unit PropertyVariant :=
  match pi_type h with
  | STRING => x ← GetPropertyValueT (T := string) h v; Ok (to_variant x)
  | BOOL => x ← GetPropertyValueT (T := bool) h v; Ok (to_variant x)
  | INT32 => x ← GetPropertyValueT (T := int32_t) h v; Ok (to_variant x)
  | INT64 => x ← GetPropertyValueT (T := int64_t) h v; Ok (to_variant x)
  | VECTOR_STR => x ← GetPropertyValueT (T := list string) h v; Ok (to_variant x)
  | UINT32 => x ← GetPropertyValueT (T := uint32_t) h v; Ok (to_variant x)
  | UINT64 => x ← GetPropertyValueT (T := uint64_t) h v; Ok (to_variant x)
  end.

(** ** Validators *)

Definition ValidatePropertyType : PropertiesValidator := Some (λ h v,
  Ok (if ValidatePropertyValueType h v then None
      else Some ("type mismatch: [key=" +:+ pi_name h +:+ "] [value=" +:+ v +:+ "]"))).

Fixpoint comma_list (l : list string) : string :=
  match l with
  | [] => ""
  | [x] => x
  | x :: l' => x +:+ ", " +:+ comma_list l'
  end.

Definition not_allowed (val : string) (allowed : list string) : string :=
  "value '" +:+ val +:+ "' not in allowed set: [" +:+ comma_list allowed +:+ "]".

(** Instantiated at [std::string] only. *)
Definition ValidatePropertyEnum (allowed_values : list string) : PropertiesValidator := Some (λ h v,
  val ← GetPropertyValueT (T := string) h v;
  Ok (if bool_decide (val ∈ allowed_values) then None else Some (not_allowed val allowed_values))).

(** The first element that is not allowed. *)
Definition ValidatePropertyVectorEnum (allowed_values : list string) : PropertiesValidator := Some (λ h v,
  vals ← GetPropertyValueT (T := list string) h v;
  Ok (match filter (λ x, x ∉ allowed_values) vals with
      | [] => None
      | val :: _ => Some (not_allowed val allowed_values)
      end)).

(** The integer types that ranges are over. *)
Class RangeType (T : Type) := range_value : T → Z.
#[local] Instance range_i32 : RangeType int32_t := i32.
#[local] Instance range_i64 : RangeType int64_t := i64.
#[local] Instance range_u32 : RangeType uint32_t := u32.
#[local] Instance range_u64 : RangeType uint64_t := u64.

Definition ValidatePropertyRange {T} `{PropertyValue T} `{ConvertFunc T} `{RangeType T} (minval maxval : T) :
    PropertiesValidator := Some (λ h v,
  val ← GetPropertyValueT (T := T) h v;
  Ok (if (range_value minval <=? range_value val) && (range_value val <=? range_value maxval) then None
      else Some ("value '" +:+ to_string (range_value val) +:+ "' not in range: [" +:+
                 to_string (range_value minval) +:+ ", " +:+ to_string (range_value maxval) +:+ "]"))).

(** ** The registry *)

Definition property_infos : list PropertyInfo := [
  mkInfo (mkHead PROPERTY_FS_ADDRESS STRING) (PStr "localhost:9000") None;
  mkInfo (mkHead PROPERTY_FS_BUCKET_NAME STRING) (PStr "a-bucket") None;
  mkInfo (mkHead PROPERTY_FS_ACCESS_KEY_ID STRING) (PStr "minioadmin") None;
  mkInfo (mkHead PROPERTY_FS_ACCESS_KEY_VALUE STRING) (PStr "minioadmin") None;
  mkInfo (mkHead PROPERTY_FS_ROOT_PATH STRING) (PStr "files") None;
  mkInfo (mkHead PROPERTY_FS_STORAGE_TYPE STRING) (PStr LOON_FS_TYPE_LOCAL)
    (Some (ValidatePropertyType +v ValidatePropertyEnum [LOON_FS_TYPE_LOCAL; LOON_FS_TYPE_REMOTE]));
  mkInfo (mkHead PROPERTY_FS_CLOUD_PROVIDER STRING) (PStr kCloudProviderAWS)
    (Some (ValidatePropertyType +v ValidatePropertyEnum [kCloudProviderAWS; kCloudProviderGCP; kCloudProviderAliyun; kCloudProviderAzure; kCloudProviderTencent; kCloudProviderHuawei]));
  mkInfo (mkHead PROPERTY_FS_IAM_ENDPOINT STRING) (PStr "") None;
  mkInfo (mkHead PROPERTY_FS_LOG_LEVEL STRING) (PStr "fatal")
    (Some (ValidatePropertyType +v ValidatePropertyEnum ["fatal"; "error"; "warn"; "info"; "debug"; "trace"; "off"]));
  mkInfo (mkHead PROPERTY_FS_REGION STRING) (PStr "") None;
  mkInfo (mkHead PROPERTY_FS_USE_SSL BOOL) (PBool false)
    (Some ValidatePropertyType);
  mkInfo (mkHead PROPERTY_FS_SSL_CA_CERT STRING) (PStr "") None;
  mkInfo (mkHead PROPERTY_FS_USE_IAM BOOL) (PBool false)
    (Some ValidatePropertyType);
  mkInfo (mkHead PROPERTY_FS_USE_VIRTUAL_HOST BOOL) (PBool false)
    (Some ValidatePropertyType);
  mkInfo (mkHead PROPERTY_FS_REQUEST_TIMEOUT_MS INT64) (PI64 3000)
    (Some ValidatePropertyType);
  mkInfo (mkHead PROPERTY_FS_GCP_NATIVE_WITHOUT_AUTH BOOL) (PBool false)
    (Some ValidatePropertyType);
  mkInfo (mkHead PROPERTY_FS_GCP_CREDENTIAL_JSON STRING) (PStr "") None;
  mkInfo (mkHead PROPERTY_FS_USE_CUSTOM_PART_UPLOAD BOOL) (PBool true)
    (Some ValidatePropertyType);
  mkInfo (mkHead PROPERTY_FS_MAX_CONNECTIONS UINT32) (PU32 100)
    (Some ValidatePropertyType);
  mkInfo (mkHead PROPERTY_FS_MULTI_PART_UPLOAD_SIZE INT64) (PI64 DEFAULT_MULTIPART_UPLOAD_PART_SIZE)
    (Some (ValidatePropertyType +v ValidatePropertyRange (mk_i64 MINIMAL_MULTIPART_UPLOAD_PART_SIZE) (mk_i64 MAXIMAL_MULTIPART_UPLOAD_PART_SIZE)));
  mkInfo (mkHead PROPERTY_FS_ROLE_ARN STRING) (PStr "") None;
  mkInfo (mkHead PROPERTY_FS_SESSION_NAME STRING) (PStr "") None;
  mkInfo (mkHead PROPERTY_FS_EXTERNAL_ID STRING) (PStr "") None;
  mkInfo (mkHead PROPERTY_FS_LOAD_FREQUENCY INT32) (PI32 900)
    (Some (ValidatePropertyType +v ValidatePropertyRange (mk_i32 900) (mk_i32 43200)));
  mkInfo (mkHead PROPERTY_FS_TLS_MIN_VERSION STRING) (PStr "")
    (Some (ValidatePropertyType +v ValidatePropertyEnum [""; "1.0"; "1.1"; "1.2"; "1.3"]));
  mkInfo (mkHead PROPERTY_FS_BACKGROUND_WRITES BOOL) (PBool true)
    (Some ValidatePropertyType);
  mkInfo (mkHead PROPERTY_FS_USE_CRC32C_CHECKSUM BOOL) (PBool false)
    (Some ValidatePropertyType);
  mkInfo (mkHead PROPERTY_FS_S3_CRT_ASYNC_READ BOOL) (PBool true)
    (Some ValidatePropertyType);
  mkInfo (mkHead PROPERTY_FS_LANCE_IO_PARALLELISM UINT32) (PU32 64)
    (Some (ValidatePropertyType +v ValidatePropertyRange (mk_u32 0) (mk_u32 256)));
  mkInfo (mkHead PROPERTY_FS_IOPS_INITIAL_RATE UINT32) (PU32 2000)
    (Some (ValidatePropertyType +v ValidatePropertyRange (mk_u32 1) (mk_u32 (2 ^ 32 - 1))));
  mkInfo (mkHead PROPERTY_FS_IOPS_MAX_RATE UINT32) (PU32 5000)
    (Some (ValidatePropertyType +v ValidatePropertyRange (mk_u32 0) (mk_u32 (2 ^ 32 - 1))));
  mkInfo (mkHead PROPERTY_FS_GCP_TARGET_SERVICE_ACCOUNT STRING) (PStr "") None;
  mkInfo (mkHead PROPERTY_FS_AZURE_CLIENT_ID STRING) (PStr "") None;
  mkInfo (mkHead PROPERTY_FS_AZURE_TENANT_ID STRING) (PStr "") None;
  mkInfo (mkHead PROPERTY_FS_AZURE_CREDENTIAL_ENDPOINT STRING) (PStr "") None;
  mkInfo (mkHead PROPERTY_WRITER_POLICY STRING) (PStr LOON_COLUMN_GROUP_POLICY_SINGLE)
    (Some (ValidatePropertyType +v ValidatePropertyEnum [LOON_COLUMN_GROUP_POLICY_SINGLE; LOON_COLUMN_GROUP_POLICY_SCHEMA_BASED; LOON_COLUMN_GROUP_POLICY_SIZE_BASED]));
  mkInfo (mkHead PROPERTY_WRITER_FORMAT STRING) (PStr LOON_FORMAT_PARQUET)
    (Some (ValidatePropertyType +v ValidatePropertyEnum [LOON_FORMAT_PARQUET; LOON_FORMAT_VORTEX; LOON_FORMAT_LANCE_TABLE; LOON_FORMAT_ICEBERG_TABLE]));
  mkInfo (mkHead PROPERTY_WRITER_SCHEMA_BASE_PATTERNS VECTOR_STR) (PVec [])
    (Some ValidatePropertyType);
  mkInfo (mkHead PROPERTY_WRITER_SCHEMA_BASE_FORMATS VECTOR_STR) (PVec [])
    (Some (ValidatePropertyType +v ValidatePropertyVectorEnum [LOON_FORMAT_PARQUET; LOON_FORMAT_VORTEX; LOON_FORMAT_LANCE_TABLE; LOON_FORMAT_ICEBERG_TABLE]));
  mkInfo (mkHead PROPERTY_WRITER_SIZE_BASE_MACS INT64) (PI64 0)
    (Some ValidatePropertyType);
  mkInfo (mkHead PROPERTY_WRITER_SIZE_BASE_MCIG INT64) (PI64 0)
    (Some ValidatePropertyType);
  mkInfo (mkHead PROPERTY_WRITER_BUFFER_SIZE INT32) (PI32 (32 * 1024 * 1024))
    (Some ValidatePropertyType);
  mkInfo (mkHead PROPERTY_WRITER_FILE_ROLLING_SIZE UINT64) (PU64 (2 * 1024 * 1024 * 1024))
    (Some ValidatePropertyType);
  mkInfo (mkHead PROPERTY_WRITER_COMPRESSION STRING) (PStr "zstd")
    (Some (ValidatePropertyType +v ValidatePropertyEnum ["uncompressed"; "snappy"; "gzip"; "lz4"; "zstd"; "brotli"]));
  mkInfo (mkHead PROPERTY_WRITER_COMPRESSION_LEVEL INT32) (PI32 3)
    (Some ValidatePropertyType);
  mkInfo (mkHead PROPERTY_WRITER_ENABLE_DICTIONARY BOOL) (PBool true)
    (Some ValidatePropertyType);
  mkInfo (mkHead PROPERTY_WRITER_ENC_ENABLE BOOL) (PBool false)
    (Some ValidatePropertyType);
  mkInfo (mkHead PROPERTY_WRITER_ENC_KEY STRING) (PStr "")
    (Some ValidatePropertyType);
  mkInfo (mkHead PROPERTY_WRITER_ENC_META STRING) (PStr "")
    (Some ValidatePropertyType);
  mkInfo (mkHead PROPERTY_WRITER_ENC_ALGORITHM STRING) (PStr ENCRYPTION_ALGORITHM_AES_GCM_V1)
    (Some (ValidatePropertyType +v ValidatePropertyEnum [ENCRYPTION_ALGORITHM_AES_GCM_V1; ENCRYPTION_ALGORITHM_AES_GCM_CTR_V1]));
  mkInfo (mkHead PROPERTY_WRITER_VORTEX_ENABLE_STATISTICS BOOL) (PBool true)
    (Some ValidatePropertyType);
  mkInfo (mkHead PROPERTY_WRITER_VORTEX_FORMAT_VERSION UINT64) (PU64 2)
    (Some (ValidatePropertyType +v ValidatePropertyRange (mk_u64 1) (mk_u64 2)));
  mkInfo (mkHead PROPERTY_WRITER_VORTEX_V2_ROW_GROUP_MAX_SIZE UINT64) (PU64 DEFAULT_MAX_ROW_GROUP_SIZE)
    (Some (ValidatePropertyType +v ValidatePropertyRange (mk_u64 (128 * 1024)) (mk_u64 (UINT64_MOD - 1))));
  mkInfo (mkHead PROPERTY_READER_RECORD_BATCH_MAX_ROWS INT64) (PI64 8192)
    (Some (ValidatePropertyType +v ValidatePropertyRange (mk_i64 1) (mk_i64 INT64_MAX)));
  mkInfo (mkHead PROPERTY_READER_RECORD_BATCH_MAX_SIZE INT64) (PI64 (32 * 1024 * 1024))
    (Some (ValidatePropertyType +v ValidatePropertyRange (mk_i64 1) (mk_i64 (4 * 1024 * 1024 * 1024))));
  mkInfo (mkHead PROPERTY_READER_LOGICAL_CHUNK_ROWS UINT64) (PU64 8192)
    (Some (ValidatePropertyType +v ValidatePropertyRange (mk_u64 1) (mk_u64 (UINT64_MOD - 1))));
  mkInfo (mkHead PROPERTY_READER_METADATA_CACHE_ENABLE BOOL) (PBool true)
    (Some ValidatePropertyType);
  mkInfo (mkHead PROPERTY_READER_PARQUET_PREBUFFER_HOLE_SIZE_LIMIT INT64) (PI64 0)
    (Some (ValidatePropertyType +v ValidatePropertyRange (mk_i64 0) (mk_i64 INT64_MAX)));
  mkInfo (mkHead PROPERTY_READER_PARQUET_PREBUFFER_RANGE_SIZE_LIMIT INT64) (PI64 0)
    (Some (ValidatePropertyType +v ValidatePropertyRange (mk_i64 0) (mk_i64 INT64_MAX)));
  mkInfo (mkHead PROPERTY_READER_VORTEX_SPLIT_ROW_INDICES STRING) (PStr "auto")
    (Some (ValidatePropertyType +v ValidatePropertyEnum ["auto"; "true"; "false"]));
  mkInfo (mkHead PROPERTY_READER_ASYNC_TASK_SPLIT_STRATEGY STRING) (PStr "parallelism")
    (Some (ValidatePropertyType +v ValidatePropertyEnum ["parallelism"; "none"; "all"]));
  mkInfo (mkHead PROPERTY_PAIMON_SCAN_MODE STRING) (PStr "auto")
    (Some (ValidatePropertyType +v ValidatePropertyEnum ["auto"; "direct-file"; "data-split"]));
  mkInfo (mkHead PROPERTY_PAIMON_SNAPSHOT_ID INT64) (PI64 (-1))
    (Some (ValidatePropertyType +v ValidatePropertyRange (mk_i64 (-1)) (mk_i64 INT64_MAX)));
  mkInfo (mkHead PROPERTY_TRANSACTION_COMMIT_NUM_RETRIES INT32) (PI32 1)
    (Some (ValidatePropertyType +v ValidatePropertyRange (mk_i32 0) (mk_i32 10)))
].

(** [property_infos.find(key)]. *)
Definition find_info (key : string) : option PropertyInfo :=
  List.find (λ i, bool_decide (pi_name (pi_head i) = key)) property_infos.

(** ** Reading and writing *)

Definition GetValue {T} `{PropertyValue T} (properties : Properties) (key : string) : outcome Status T :=
  match properties !! key with
  | None =>
      match find_info key with
      | None => Err status_Invalid
      | Some info => match of_variant (pi_defval info) with Some x => Ok x | None => Err status_Invalid end
      end
  | Some v => match of_variant v with Some x => Ok x | None => Err status_Invalid end
  end.

(** The two assertions, and [std::get] of another alternative. *)
Definition GetValueNoError {T} `{PropertyValue T} (properties : Properties) (key : string) : outcome unit T :=
  match properties !! key with
  | None => info ← deref (find_info key); deref (of_variant (pi_defval info))
  | Some v => deref (of_variant v)
  end.

Definition SetValue (properties : Properties) (key value : string) (allow_undefined_key : bool) :
    outcome unit (Properties * option string) :=
  match find_info key with
  | None =>
      if allow_undefined_key then Ok (<[key := PStr value]> properties, None)
      else Ok (properties, Some ("undefined key: '" +:+ key +:+ "'. should define the property first."))
  | Some info =>
      err ← match pi_validator info with Some v => run_validator v (pi_head info) value | None => Ok None end;
      match err with
      | Some e => Ok (properties, Some e)
      | None => v ← GetPropertyValue (pi_head info) value; Ok (<[key := v]> properties, None)
      end
  end.

(** The loop of [ConvertFFIProperties]. *)
Fixpoint set_all (properties : Properties) (l : list (string * string)) :
    outcome unit (Properties * option string) :=
  match l with
  | [] => Ok (properties, None)
  | (key, value) :: l' =>
      r ← SetValue properties key value true;
      match r.2 with
      | Some e => Ok r
      | None => set_all r.1 l'
      end
  end.

(** A null list of properties is [None]. *)
Definition ConvertFFIProperties (result : Properties) (properties : option (list (string * string))) :
    outcome unit (Properties * option string) :=
  set_all result (default [] properties).

(** ** Lemmas *)

Definition variant_type (v : PropertyVariant) : option PropertyType :=
  match v with
  | PStr _ => Some STRING | PI32 _ => Some INT32 | PI64 _ => Some INT64 | PU32 _ => Some UINT32
  | PU64 _ => Some UINT64 | PBool _ => Some BOOL | PVec _ => Some VECTOR_STR | PNull => None
  end.

(** A C++ type and the alternative of the variant that holds it. *)
Class PropertyValueLaws (T : Type) `{PropertyValue T} `{ConvertFunc T} := {
  of_to_variant (x : T) : of_variant (to_variant x) = Some x;
  to_variant_type (x : T) : variant_type (to_variant x) = Some (value_type T);
  of_variant_typed v : variant_type v = Some (value_type T) → ∃ x : T, v = to_variant x;
  value_checked h v : pi_type h = value_type T →
    ValidatePropertyValueType h v = bool_decide (is_Some (convertFunc (T := T) v));
  value_converted h v : pi_type h = value_type T →
    GetPropertyValue h v = (x ← deref (convertFunc (T := T) v); Ok (to_variant x));
}.

Ltac solve_laws mk :=
  split;
  [by intros []|by intros []|intros []; simpl; intros; simplify_eq; by eexists (mk _)|
   intros [? []] v; simpl; intros; by simplify_eq|intros [? []] v; simpl; intros; by simplify_eq].

#[local] Instance laws_value_i32 : PropertyValueLaws int32_t.
Proof. solve_laws mk_i32. Qed.
#[local] Instance laws_value_i64 : PropertyValueLaws int64_t.
Proof. solve_laws mk_i64. Qed.
#[local] Instance laws_value_u32 : PropertyValueLaws uint32_t.
Proof. solve_laws mk_u32. Qed.
#[local] Instance laws_value_u64 : PropertyValueLaws uint64_t.
Proof. solve_laws mk_u64. Qed.
#[local] Instance laws_value_bool : PropertyValueLaws bool.
Proof. solve_laws (@id bool). Qed.
#[local] Instance laws_value_vector : PropertyValueLaws (list string).
Proof. solve_laws (@id (list string)). Qed.
#[local] Instance laws_value_string : PropertyValueLaws string.
Proof. solve_laws (@id string). Qed.

(** The shapes of validators that the registry uses, and the types they fit. *)
Inductive good_validator (t : PropertyType) : option PropertiesValidator → Prop :=
  | good_none : t = STRING → good_validator t None
  | good_type : good_validator t (Some ValidatePropertyType)
  | good_enum l : t = STRING → good_validator t (Some (ValidatePropertyType +v ValidatePropertyEnum l))
  | good_vector l : t = VECTOR_STR →
      good_validator t (Some (ValidatePropertyType +v ValidatePropertyVectorEnum l))
  | good_range {T} `{PropertyValueLaws T} `{RangeType T} (lo hi : T) : t = value_type T →
      good_validator t (Some (ValidatePropertyType +v ValidatePropertyRange lo hi)).

Definition verdict (info : PropertyInfo) (text : string) : Verdict :=
  match pi_validator info with Some v => run_validator v (pi_head info) text | None => Ok None end.

(** A text that converts gives a value of the registered type. *)
Lemma typed_value h text :
  ValidatePropertyValueType h text = true →
  ∃ x, GetPropertyValue h text = Ok x ∧ variant_type x = Some (pi_type h).
Proof.
  unfold ValidatePropertyValueType, GetPropertyValue, GetPropertyValueT. intros Hv.
  destruct h as [n []]; simpl in *; try (apply bool_decide_eq_true in Hv as [x ->]); by eexists.
Qed.

Lemma typed_getter {T} `{PropertyValueLaws T} h text :
  pi_type h = value_type T → ValidatePropertyValueType h text = true →
  ∃ x, GetPropertyValueT (T := T) h text = Ok x.
Proof.
  intros Ht Hv. rewrite value_checked in Hv by done. apply bool_decide_eq_true in Hv as [x Hx].
  exists x. unfold GetPropertyValueT. by rewrite bool_decide_true, Hx.
Qed.

Lemma type_then {v : PropertiesValidator} h text :
  (ValidatePropertyValueType h text = true → ∃ r, run_validator v h text = Ok r) →
  ∃ r, run_validator (ValidatePropertyType +v v) h text = Ok r ∧
    (r = None → ValidatePropertyValueType h text = true).
Proof.
  intros Hv. unfold validator_add. cbn [run_validator ValidatePropertyType]. rewrite bind_Ok.
  destruct (ValidatePropertyValueType h text); [|by eexists]. destruct (Hv eq_refl) as [r Hr]. by exists r.
Qed.

(** No text makes a validator or the conversion after it fail an assertion. *)
Lemma verdict_defined info text :
  good_validator (pi_type (pi_head info)) (pi_validator info) →
  ∃ r, verdict info text = Ok r ∧
    (r = None → ∃ x, GetPropertyValue (pi_head info) text = Ok x ∧ variant_type x = Some (pi_type (pi_head info))).
Proof.
  unfold verdict. destruct info as [h d v]. simpl.
  assert (∀ w, (ValidatePropertyValueType h text = true → ∃ r, run_validator w h text = Ok r) →
    ∃ r, run_validator (ValidatePropertyType +v w) h text = Ok r ∧
      (r = None → ∃ x, GetPropertyValue h text = Ok x ∧ variant_type x = Some (pi_type h))) as Hthen.
  { intros w Hw. destruct (type_then h text Hw) as (r & Hr & Hn). exists r. split; [done|].
    intros ->. by apply typed_value, Hn. }
  destruct 1 as [Ht| |l Ht|l Ht|T pv cv pvl rt lo hi Ht].
  - exists None. split; [done|]. intros _. apply typed_value. unfold ValidatePropertyValueType. by rewrite Ht.
  - eexists. split; [done|]. intros Hn. apply typed_value. by destruct (ValidatePropertyValueType h text).
  - apply Hthen. intros Hv. destruct (typed_getter (T := string) h text) as [x Hx]; [done..|].
    eexists. unfold ValidatePropertyEnum. cbn [run_validator]. by rewrite Hx, bind_Ok.
  - apply Hthen. intros Hv. destruct (typed_getter (T := list string) h text) as [x Hx]; [done..|].
    eexists. unfold ValidatePropertyVectorEnum. cbn [run_validator]. by rewrite Hx, bind_Ok.
  - apply Hthen. intros Hv. destruct (typed_getter (T := T) h text) as [x Hx]; [done..|].
    eexists. unfold ValidatePropertyRange. cbn [run_validator]. by rewrite Hx, bind_Ok.
Qed.

Ltac good_entry :=
  first [by apply good_none|apply good_type|by apply good_enum|by apply good_vector|
         by apply (good_range _ (T := int32_t))|by apply (good_range _ (T := int64_t))|
         by apply (good_range _ (T := uint32_t))|by apply (good_range _ (T := uint64_t))].

Lemma registry_good : Forall (λ i, good_validator (pi_type (pi_head i)) (pi_validator i)) property_infos.
Proof. unfold property_infos. repeat (apply Forall_cons; split; [simpl; good_entry|]). apply Forall_nil. done. Qed.

Lemma find_info_spec key info :
  find_info key = Some info → info ∈ property_infos ∧ pi_name (pi_head info) = key.
Proof.
  intros Hf. apply List.find_some in Hf as [Hin Hn%bool_decide_eq_true]. split; [by apply list_elem_of_In|done].
Qed.

Lemma find_info_good key info :
  find_info key = Some info → good_validator (pi_type (pi_head info)) (pi_validator info).
Proof. intros [Hin _]%find_info_spec. eapply Forall_forall in Hin; [|exact registry_good]. done. Qed.

(** The validator accepted a text for this value. *)
Definition admitted (info : PropertyInfo) (x : PropertyVariant) : Prop :=
  ∃ text, verdict info text = Ok None ∧ GetPropertyValue (pi_head info) text = Ok x.

Definition properties_ok (p : Properties) : Prop := ∀ key x, p !! key = Some x →
  match find_info key with
  | Some info => admitted info x
  | None => ∃ text, x = PStr text
  end.

(** A text whose value is the default. *)
Definition default_text (v : PropertyVariant) : string :=
  match v with
  | PStr s => s
  | PI32 z | PI64 z | PU32 z | PU64 z => to_string z
  | PBool b => if b then "true" else "false"
  | PVec _ | PNull => ""
  end.

Lemma defaults_admitted : Forall (λ i, admitted i (pi_defval i)) property_infos.
Proof.
  assert (Forall (λ i, verdict i (default_text (pi_defval i)) = Ok None ∧
    GetPropertyValue (pi_head i) (default_text (pi_defval i)) = Ok (pi_defval i)) property_infos) as Hall.
  { unfold property_infos. repeat (apply Forall_cons; split; [split; vm_compute; reflexivity|]). by apply Forall_nil. }
  eapply Forall_impl; [exact Hall|]. intros i [H1 H2]. by exists (default_text (pi_defval i)).
Qed.

Lemma admitted_typed info x :
  good_validator (pi_type (pi_head info)) (pi_validator info) → admitted info x →
  variant_type x = Some (pi_type (pi_head info)).
Proof.
  intros Hg (text & Hv & Hx). destruct (verdict_defined info text Hg) as (r & Hr & Hn).
  rewrite Hv in Hr. simplify_eq. destruct (Hn eq_refl) as (y & Hy & Ht).
  rewrite Hx in Hy. by injection Hy as <-.
Qed.

Lemma SetValue_registered p key value allow info :
  find_info key = Some info →
  SetValue p key value allow =
    (err ← verdict info value;
     match err with
     | Some e => Ok (p, Some e)
     | None => v ← GetPropertyValue (pi_head info) value; Ok (<[key := v]> p, None)
     end).
Proof. intros Hf. unfold SetValue. by rewrite Hf. Qed.

(** What [SetValue] does, by case. *)
Lemma SetValue_spec p key value allow :
  match find_info key with
  | None => SetValue p key value allow =
      Ok (if allow then (<[key := PStr value]> p, None)
          else (p, Some ("undefined key: '" +:+ key +:+ "'. should define the property first.")))
  | Some info =>
      (∃ e, verdict info value = Ok (Some e) ∧ SetValue p key value allow = Ok (p, Some e)) ∨
      (∃ x, verdict info value = Ok None ∧ GetPropertyValue (pi_head info) value = Ok x ∧
         SetValue p key value allow = Ok (<[key := x]> p, None))
  end.
Proof.
  destruct (find_info key) as [info|] eqn:Hf; [|unfold SetValue; rewrite Hf; by destruct allow].
  destruct (verdict_defined info value (find_info_good key info Hf)) as (r & Hr & Hn).
  rewrite (SetValue_registered _ _ _ _ _ Hf), Hr, bind_Ok. destruct r as [e|]; [left; by exists e|right].
  destruct (Hn eq_refl) as (x & Hx & _). exists x. by rewrite Hx, bind_Ok.
Qed.

Lemma SetValue_ok p key value allow :
  properties_ok p → ∃ p' err, SetValue p key value allow = Ok (p', err) ∧ properties_ok p'.
Proof.
  intros Hp. pose proof (SetValue_spec p key value allow) as Hs.
  assert (∀ x, match find_info key with Some info => admitted info x | None => ∃ text, x = PStr text end →
    properties_ok (<[key := x]> p)) as Hins.
  { intros x Hx key' x' [[<- <-]|[_ Hl]]%lookup_insert_Some; [done|by apply Hp]. }
  destruct (find_info key) as [info|].
  - destruct Hs as [(e & _ & ->)|(x & Hv & Hx & ->)]; [by repeat eexists|].
    do 2 eexists. split; [done|]. apply Hins. by exists value.
  - rewrite Hs. destruct allow; [|by repeat eexists]. do 2 eexists. split; [done|]. apply Hins. by exists value.
Qed.

Lemma set_all_ok p l :
  properties_ok p → ∃ p' err, set_all p l = Ok (p', err) ∧ properties_ok p'.
Proof.
  revert p. induction l as [|[key value] l IH]; intros p Hp; [by repeat eexists|].
  cbn [set_all]. destruct (SetValue_ok p key value true Hp) as (p1 & err & -> & Hp1). rewrite bind_Ok. simpl.
  destruct err; [by repeat eexists|]. by apply IH.
Qed.

(** The value read for a registered key at its type. *)
Lemma read_typed {T} `{PropertyValueLaws T} p key info :
  properties_ok p → find_info key = Some info → pi_type (pi_head info) = value_type T →
  ∃ x : T, GetValue p key = Ok x ∧ GetValueNoError p key = Ok x ∧ admitted info (to_variant x).
Proof.
  intros Hp Hf Ht. pose proof (find_info_good key info Hf) as Hg.
  assert (∀ v, admitted info v → ∃ x : T, v = to_variant x) as Hinv.
  { intros v Hv. apply of_variant_typed. rewrite <- Ht. by apply admitted_typed. }
  unfold GetValue, GetValueNoError. destruct (p !! key) as [v|] eqn:Hk.
  - specialize (Hp key v Hk). rewrite Hf in Hp. destruct (Hinv v Hp) as [x ->]. exists x. by rewrite of_to_variant.
  - rewrite Hf. cbn [deref]. rewrite bind_Ok. apply find_info_spec in Hf as [Hin _].
    pose proof (proj1 (Forall_forall _ _) defaults_admitted info Hin) as Hd. simpl in Hd.
    destruct (Hinv _ Hd) as [x Hx]. rewrite Hx in *. exists x. by rewrite of_to_variant.
Qed.

(** ** Properties *)

(** C21: Properties stay typed.  Setting any list of texts, starting from
    properties that are well formed, never fails an assertion and leaves them
    well formed; every registered key then reads at its registered type, with
    [GetValue] as with [GetValueNoError], and the value read, the default
    included, is one that the validator of the key accepts. *)
Theorem properties_stay_typed p l :
  properties_ok p →
  ∃ p' err, ConvertFFIProperties p l = Ok (p', err) ∧ properties_ok p' ∧
    ∀ key info T (H0 : PropertyValue T) (H1 : ConvertFunc T), PropertyValueLaws T → find_info key = Some info →
      pi_type (pi_head info) = value_type T →
      ∃ x : T, GetValue p' key = Ok x ∧ GetValueNoError p' key = Ok x ∧ admitted info (to_variant x).
Proof.
  intros Hp. destruct (set_all_ok p (default [] l) Hp) as (p' & err & Hs & Hp'). exists p', err.
  split; [done|]. split; [done|]. intros key info T H0 H1 Hl Hf Ht. by apply read_typed.
Qed.

(** A rejected property changes nothing after it.  When setting a list
    reports an error, the texts before the rejected one have been set, the
    rejected one and those after it have not, and the error is the one that
    [SetValue] gives for it; a single [SetValue] that reports an error leaves the
    properties as they were, and it does so exactly when the validator of the key
    rejects the text or the key is undefined and undefined keys are not allowed. *)
Theorem rejected_property_changes_nothing p l p' e :
  ConvertFFIProperties p l = Ok (p', Some e) →
  ∃ before key value after, default [] l = before ++ (key, value) :: after ∧
    ConvertFFIProperties p (Some before) = Ok (p', None) ∧
    SetValue p' key value true = Ok (p', Some e) ∧
    ∀ q k v allow, (∃ q' e', SetValue q k v allow = Ok (q', Some e')) ↔
      match find_info k with
      | Some info => ∃ e', verdict info v = Ok (Some e') ∧ SetValue q k v allow = Ok (q, Some e')
      | None => allow = false ∧ ∃ e', SetValue q k v allow = Ok (q, Some e')
      end.
Proof.
  unfold ConvertFFIProperties. intros Hs.
  assert (∃ before key value after, default [] l = before ++ (key, value) :: after ∧
    set_all p before = Ok (p', None) ∧ SetValue p' key value true = Ok (p', Some e)) as (b & k & v & a & Hl & Hb & He).
  { revert p Hs. generalize (default [] l). clear l. intros l. induction l as [|[key value] l IH]; intros p Hs; [done|].
    cbn [set_all] in Hs. apply bind_Ok_inv in Hs as ([p1 err] & Hset & Hs). simpl in Hs. destruct err as [e1|].
    - injection Hs as -> ->. exists [], key, value, l. split; [done|].
      pose proof (SetValue_spec p key value true) as Hsp. destruct (find_info key).
      + destruct Hsp as [(e2 & _ & Hsp)|(x & _ & _ & Hsp)]; rewrite Hset in Hsp; simplify_eq. done.
      + rewrite Hset in Hsp. simplify_eq.
    - apply IH in Hs as (b & k & v & a & -> & Hb & He). exists ((key, value) :: b), k, v, a. split; [done|].
      split; [|done]. cbn [set_all]. rewrite Hset, bind_Ok. done. }
  exists b, k, v, a. split_and!; try done. intros q k' v' allow. pose proof (SetValue_spec q k' v' allow) as Hsp.
  destruct (find_info k') as [info|].
  - destruct Hsp as [(e2 & Hv & ->)|(x & Hv & _ & ->)]; split; intros Hex; destruct_and?; naive_solver.
  - rewrite Hsp. destruct allow; naive_solver.
Qed.

(** A property that was set reads back.  When the text of a value is
    accepted for a key registered at its type, reading the key gives the value
    again, and every other key is as before. *)
Theorem set_property_read_back {T} `{PropertyValueLaws T} `{!ToString T} `{!ConvertLaws T} p key info (x : T) p' :
  find_info key = Some info → pi_type (pi_head info) = value_type T → in_type x →
  SetValue p key (to_str x) true = Ok (p', None) →
  GetValue p' key = Ok x ∧ GetValueNoError p' key = Ok x ∧ ∀ key', key' ≠ key → p' !! key' = p !! key'.
Proof.
  intros Hf Ht Hx Hs. pose proof (SetValue_spec p key (to_str x) true) as Hsp. rewrite Hf in Hsp.
  destruct Hsp as [(e & _ & Hsp)|(y & _ & Hy & Hsp)]; rewrite Hs in Hsp; simplify_eq.
  rewrite (value_converted (T := T)) in Hy by done. rewrite convert_to_str in Hy by done.
  cbn [deref] in Hy. rewrite bind_Ok in Hy. simplify_eq. unfold GetValue, GetValueNoError.
  assert (∀ y, (<[key := y]> p : Properties) !! key = Some y) as Hl by (intros y; apply lookup_insert_eq).
  rewrite !Hl, of_to_variant. split_and!; try done. intros key' Hne. by apply lookup_insert_ne.
Qed.
End registry.

(** ** Examples *)

Module SampleProperties.

Lemma properties_ok_empty trim : properties_ok trim ∅.
Proof. intros key x Hl. by apply lookup_empty_Some in Hl. Qed.

Definition texts : list (string * string) :=
  [("writer.buffer_size", "1048576"); ("my.own.key", "17"); ("writer.policy", "sized"); ("fs.use_ssl", "true")].

(** The third text is not in the allowed set: the first two are kept. *)
Definition kept : Properties :=
  match ConvertFFIProperties id ∅ (Some texts) with Ok (p, _) => p | _ => ∅ end.
Definition rejection : string :=
  match ConvertFFIProperties id ∅ (Some texts) with Ok (_, Some e) => e | _ => "" end.

Lemma texts_rejected : ConvertFFIProperties id ∅ (Some texts) = Ok (kept, Some rejection).
Proof. vm_compute. reflexivity. Qed.

Lemma rejected_property_changes_nothing_witness :
  ConvertFFIProperties id ∅ (Some texts) = Ok (kept, Some rejection) ∧
  ∃ before key value after, texts = before ++ (key, value) :: after ∧
    ConvertFFIProperties id ∅ (Some before) = Ok (kept, None) ∧
    SetValue id kept key value true = Ok (kept, Some rejection).
Proof.
  split; [exact texts_rejected|].
  destruct (rejected_property_changes_nothing id ∅ (Some texts) kept rejection texts_rejected)
    as (b & k & v & a & Hl & Hb & He & _).
  exists b, k, v, a. exact (conj Hl (conj Hb He)).
Defined.

Definition buffer_set : Properties := <[PROPERTY_WRITER_BUFFER_SIZE := PI32 1048576]> ∅.
Lemma buffer_size_set :
  SetValue id ∅ PROPERTY_WRITER_BUFFER_SIZE (to_str (mk_i32 1048576)) true = Ok (buffer_set, None).
Proof. vm_compute. reflexivity. Qed.

Lemma buffer_size_found :
  ∃ info, find_info id PROPERTY_WRITER_BUFFER_SIZE = Some info ∧ pi_type (pi_head info) = INT32.
Proof.
  assert ((λ i, pi_type (pi_head i)) <$> find_info id PROPERTY_WRITER_BUFFER_SIZE = Some INT32) as Hf
    by (vm_compute; reflexivity).
  apply fmap_Some in Hf as (info & Hf & Ht). by exists info.
Qed.

Lemma properties_stay_typed_witness :
  properties_ok id ∅ ∧
  ∃ p' err, ConvertFFIProperties id ∅ (Some texts) = Ok (p', err) ∧ properties_ok id p' ∧
    ∃ x : int32_t, GetValue id p' PROPERTY_WRITER_BUFFER_SIZE = Ok x.
Proof.
  split; [apply properties_ok_empty|].
  destruct (properties_stay_typed id ∅ (Some texts) (properties_ok_empty id)) as (p' & err & Hc & Hok & Hr).
  exists p', err. split; [exact Hc|]. split; [exact Hok|]. destruct buffer_size_found as (info & Hf & Ht).
  destruct (Hr _ info int32_t _ _ (laws_value_i32 id) Hf Ht) as (x & Hx & _). exists x. exact Hx.
Defined.

Lemma set_property_read_back_witness :
  SetValue id ∅ PROPERTY_WRITER_BUFFER_SIZE (to_str (mk_i32 1048576)) true = Ok (buffer_set, None) ∧
  GetValue id buffer_set PROPERTY_WRITER_BUFFER_SIZE = Ok (mk_i32 1048576).
Proof.
  split; [exact buffer_size_set|]. destruct buffer_size_found as (info & Hf & Ht).
  refine (proj1 (set_property_read_back id (T := int32_t) (H1 := laws_value_i32 id) ∅ PROPERTY_WRITER_BUFFER_SIZE
    info (mk_i32 1048576) buffer_set Hf Ht _ buffer_size_set)).
  cbv -[Z.le]. split; lia.
Defined.

End SampleProperties.
