(* ===== verification/FsConfig.v ===== *)
(** * Filesystem configuration

    [ArrowFileSystemConfig] of [filesystem/fs.h] with the functions of
    [filesystem/fs.cpp] that make and resolve it: a configuration is read from [fs.*] properties, or from
    the [extfs.<alias>.*] properties that match a URI; filesystems are cached
    under a hash of the fields that identify them.

    [std::hash] is a parameter, as the standard leaves it to the library; so is
    the order in which a [std::unordered_map] is traversed.

    The theorems: a configuration read from well-formed properties is complete
    and within its bounds; which external filesystem a URI resolves to does not
    depend on the order of the hash maps unless two aliases claim it; a location
    written as a URI resolves to its alias. *)

From S2P Require Import Prelude CppString Status Config StorageUri ColumnGroups Properties.
From Stdlib Require Import Ascii.

(** ** The configuration *)

Record ArrowFileSystemConfig := mkFsConfig {
  fc_address : string;
  fc_bucket_name : string;
  fc_access_key_id : string;
  fc_access_key_value : string;
  fc_root_path : string;
  fc_storage_type : string;
  fc_cloud_provider : string;
  fc_iam_endpoint : string;
  fc_log_level : string;
  fc_region : string;
  fc_use_ssl : bool;
  fc_ssl_ca_cert : string;
  fc_use_iam : bool;
  fc_use_virtual_host : bool;
  fc_request_timeout_ms : Z;          (* int64_t *)
  fc_gcp_native_without_auth : bool;
  fc_gcp_credential_json : string;
  fc_use_custom_part_upload : bool;
  fc_max_connections : Z;             (* uint32_t *)
  fc_multi_part_upload_size : Z;      (* int64_t *)
  fc_role_arn : string;
  fc_session_name : string;
  fc_external_id : string;
  fc_gcp_target_service_account : string;
  fc_azure_client_id : string;
  fc_azure_tenant_id : string;
  fc_azure_credential_endpoint : string;
  fc_load_frequency : Z;              (* int32_t *)
  fc_tls_min_version : string;
  fc_background_writes : bool;
  fc_use_crc32c_checksum : bool;
  fc_s3_crt_async_read : bool;
  fc_lance_io_parallelism : Z;        (* uint32_t *)
  fc_iops_initial_rate : Z;           (* uint32_t *)
  fc_iops_max_rate : Z;               (* uint32_t *)
  fc_alias : string;
}.

#[global] Instance ArrowFileSystemConfig_eq_dec : EqDecision ArrowFileSystemConfig.
Proof. solve_decision. Defined.

(** [ArrowFileSystemConfig config;] *)
Definition default_config : ArrowFileSystemConfig := {|
  fc_address := ""; fc_bucket_name := ""; fc_access_key_id := ""; fc_access_key_value := "";
  fc_root_path := "files"; fc_storage_type := "local"; fc_cloud_provider := kCloudProviderAWS;
  fc_iam_endpoint := ""; fc_log_level := "warn"; fc_region := ""; fc_use_ssl := false; fc_ssl_ca_cert := "";
  fc_use_iam := false; fc_use_virtual_host := false; fc_request_timeout_ms := 3000;
  fc_gcp_native_without_auth := false; fc_gcp_credential_json := ""; fc_use_custom_part_upload := true;
  fc_max_connections := 100; fc_multi_part_upload_size := DEFAULT_MULTIPART_UPLOAD_PART_SIZE;
  fc_role_arn := ""; fc_session_name := ""; fc_external_id := ""; fc_gcp_target_service_account := "";
  fc_azure_client_id := ""; fc_azure_tenant_id := ""; fc_azure_credential_endpoint := "";
  fc_load_frequency := 900; fc_tls_min_version := ""; fc_background_writes := true;
  fc_use_crc32c_checksum := false; fc_s3_crt_async_read := true; fc_lance_io_parallelism := 64;
  fc_iops_initial_rate := 2000; fc_iops_max_rate := 5000; fc_alias := "" |}.

Definition set_alias (alias : string) (c : ArrowFileSystemConfig) : ArrowFileSystemConfig := {|
  fc_address := fc_address c; fc_bucket_name := fc_bucket_name c; fc_access_key_id := fc_access_key_id c;
  fc_access_key_value := fc_access_key_value c; fc_root_path := fc_root_path c;
  fc_storage_type := fc_storage_type c; fc_cloud_provider := fc_cloud_provider c;
  fc_iam_endpoint := fc_iam_endpoint c; fc_log_level := fc_log_level c; fc_region := fc_region c;
  fc_use_ssl := fc_use_ssl c; fc_ssl_ca_cert := fc_ssl_ca_cert c; fc_use_iam := fc_use_iam c;
  fc_use_virtual_host := fc_use_virtual_host c; fc_request_timeout_ms := fc_request_timeout_ms c;
  fc_gcp_native_without_auth := fc_gcp_native_without_auth c;
  fc_gcp_credential_json := fc_gcp_credential_json c; fc_use_custom_part_upload := fc_use_custom_part_upload c;
  fc_max_connections := fc_max_connections c; fc_multi_part_upload_size := fc_multi_part_upload_size c;
  fc_role_arn := fc_role_arn c; fc_session_name := fc_session_name c; fc_external_id := fc_external_id c;
  fc_gcp_target_service_account := fc_gcp_target_service_account c;
  fc_azure_client_id := fc_azure_client_id c; fc_azure_tenant_id := fc_azure_tenant_id c;
  fc_azure_credential_endpoint := fc_azure_credential_endpoint c; fc_load_frequency := fc_load_frequency c;
  fc_tls_min_version := fc_tls_min_version c; fc_background_writes := fc_background_writes c;
  fc_use_crc32c_checksum := fc_use_crc32c_checksum c; fc_s3_crt_async_read := fc_s3_crt_async_read c;
  fc_lance_io_parallelism := fc_lance_io_parallelism c; fc_iops_initial_rate := fc_iops_initial_rate c;
  fc_iops_max_rate := fc_iops_max_rate c; fc_alias := alias |}.

Definition IsAzureCredentialBrokerEnabled (c : ArrowFileSystemConfig) : bool :=
  bool_decide (fc_cloud_provider c = kCloudProviderAzure) &&
  (negb (is_empty (fc_azure_client_id c)) || negb (is_empty (fc_azure_tenant_id c)) ||
   negb (is_empty (fc_azure_credential_endpoint c))).

(** ** The cache key *)

(** The types that are hashed. *)
Inductive HashValue :=
  | HString (s : string) | HBool (b : bool) | HInt64 (z : Z) | HUint32 (z : Z) | HInt32 (z : Z).

#[global] Instance HashValue_eq_dec : EqDecision HashValue.
Proof. solve_decision. Defined.

(** [std::hash<T>], a [size_t]. *)
Class StdHash := std_hash : HashValue → Z.

(** The arguments of [hash_combine] for the credentials. *)
Definition credential_parts (c : ArrowFileSystemConfig) : list HashValue :=
  if IsAzureCredentialBrokerEnabled c then
    [HString (fc_access_key_id c); HString (fc_azure_client_id c); HString (fc_azure_tenant_id c);
     HString (fc_azure_credential_endpoint c)]
  else if bool_decide (fc_cloud_provider c = kCloudProviderGCP) then
    HBool (fc_use_iam c) ::
    if fc_use_iam c then [HString (fc_gcp_target_service_account c)]
    else [HString (fc_access_key_id c); HString (fc_access_key_value c)]
  else if negb (is_empty (fc_role_arn c)) then
    [HString (fc_role_arn c); HString (fc_session_name c); HString (fc_external_id c)]
  else
    HBool (fc_use_iam c) ::
    if negb (fc_use_iam c) || bool_decide (fc_cloud_provider c = kCloudProviderAzure)
    then [HString (fc_access_key_id c); HString (fc_access_key_value c)] else [].

(** The arguments of [hash_combine], in the order of the calls. *)
Definition cache_key_parts (c : ArrowFileSystemConfig) : list HashValue :=
  HString (fc_storage_type c) ::
  if bool_decide (fc_storage_type c = "local") then [HString (fc_root_path c)]
  else
    [HString (fc_cloud_provider c); HString (fc_address c); HString (fc_bucket_name c); HString (fc_region c);
     HBool (fc_use_ssl c); HString (fc_ssl_ca_cert c); HBool (fc_use_virtual_host c);
     HInt64 (fc_request_timeout_ms c); HUint32 (fc_max_connections c); HInt64 (fc_multi_part_upload_size c);
     HString (fc_tls_min_version c); HBool (fc_background_writes c); HBool (fc_use_crc32c_checksum c);
     HBool (fc_s3_crt_async_read c); HInt32 (fc_load_frequency c)] ++
    credential_parts c.

Section hash.
Context `{StdHash}.

(** [seed ^= hash(value) + 0x9e3779b97f4a7c15 + (seed << 6) + (seed >> 2)] on
    [size_t]. *)
Definition hash_combine (seed : Z) (value : HashValue) : Z :=
  Z.lxor seed (wrap_u64 (std_hash value + 0x9e3779b97f4a7c15 + wrap_u64 (Z.shiftl seed 6) + Z.shiftr seed 2)).

Definition GetCacheKey (c : ArrowFileSystemConfig) : string :=
  "fs:" +:+ to_string (fold_left hash_combine (cache_key_parts c) 0).

End hash.

(** ** Reading a configuration *)

(** The traversal of a [std::unordered_map]: its entries in an order that is
    not specified. *)
Class HashOrder := iterate : ∀ {V}, gmap string V → list (string * V).
Class HashOrderLaws `{HashOrder} : Prop := iterate_perm : ∀ {V} (m : gmap string V), iterate m ≡ₚ map_to_list m.

Section config.
Context (trim_copy : string → string).
Context `{UriParser}.

#[local] Abbreviation str p key := (GetValue trim_copy (T := string) p key).
#[local] Abbreviation flag p key := (GetValue trim_copy (T := bool) p key).

(** The assignments of [create_file_system_config]; the alias is not assigned.
    A failed call leaves [result] assigned in part, and every caller drops it. *)
Definition read_config (p : Properties) (result : ArrowFileSystemConfig) : Result ArrowFileSystemConfig :=
  address ← str p PROPERTY_FS_ADDRESS;
  bucket_name ← str p PROPERTY_FS_BUCKET_NAME;
  access_key_id ← str p PROPERTY_FS_ACCESS_KEY_ID;
  access_key_value ← str p PROPERTY_FS_ACCESS_KEY_VALUE;
  root_path ← str p PROPERTY_FS_ROOT_PATH;
  storage_type ← str p PROPERTY_FS_STORAGE_TYPE;
  cloud_provider ← str p PROPERTY_FS_CLOUD_PROVIDER;
  iam_endpoint ← str p PROPERTY_FS_IAM_ENDPOINT;
  log_level ← str p PROPERTY_FS_LOG_LEVEL;
  region ← str p PROPERTY_FS_REGION;
  use_ssl ← flag p PROPERTY_FS_USE_SSL;
  ssl_ca_cert ← str p PROPERTY_FS_SSL_CA_CERT;
  use_iam ← flag p PROPERTY_FS_USE_IAM;
  use_virtual_host ← flag p PROPERTY_FS_USE_VIRTUAL_HOST;
  request_timeout_ms ← GetValue trim_copy (T := int64_t) p PROPERTY_FS_REQUEST_TIMEOUT_MS;
  gcp_native_without_auth ← flag p PROPERTY_FS_GCP_NATIVE_WITHOUT_AUTH;
  gcp_credential_json ← str p PROPERTY_FS_GCP_CREDENTIAL_JSON;
  use_custom_part_upload ← flag p PROPERTY_FS_USE_CUSTOM_PART_UPLOAD;
  max_connections ← GetValue trim_copy (T := uint32_t) p PROPERTY_FS_MAX_CONNECTIONS;
  multi_part_upload_size ← GetValue trim_copy (T := int64_t) p PROPERTY_FS_MULTI_PART_UPLOAD_SIZE;
  role_arn ← str p PROPERTY_FS_ROLE_ARN;
  session_name ← str p PROPERTY_FS_SESSION_NAME;
  external_id ← str p PROPERTY_FS_EXTERNAL_ID;
  load_frequency ← GetValue trim_copy (T := int32_t) p PROPERTY_FS_LOAD_FREQUENCY;
  tls_min_version ← str p PROPERTY_FS_TLS_MIN_VERSION;
  background_writes ← flag p PROPERTY_FS_BACKGROUND_WRITES;
  use_crc32c_checksum ← flag p PROPERTY_FS_USE_CRC32C_CHECKSUM;
  s3_crt_async_read ← flag p PROPERTY_FS_S3_CRT_ASYNC_READ;
  lance_io_parallelism ← GetValue trim_copy (T := uint32_t) p PROPERTY_FS_LANCE_IO_PARALLELISM;
  initial_rate ← GetValue trim_copy (T := uint32_t) p PROPERTY_FS_IOPS_INITIAL_RATE;
  max_rate ← GetValue trim_copy (T := uint32_t) p PROPERTY_FS_IOPS_MAX_RATE;
  let iops_initial_rate :=
    if (0 <? u32 max_rate) && (u32 max_rate <? u32 initial_rate) then u32 max_rate else u32 initial_rate in
  gcp_target_service_account ← str p PROPERTY_FS_GCP_TARGET_SERVICE_ACCOUNT;
  azure_client_id ← str p PROPERTY_FS_AZURE_CLIENT_ID;
  azure_tenant_id ← str p PROPERTY_FS_AZURE_TENANT_ID;
  azure_credential_endpoint ← str p PROPERTY_FS_AZURE_CREDENTIAL_ENDPOINT;
  Ok {| fc_address := address; fc_bucket_name := bucket_name; fc_access_key_id := access_key_id;
        fc_access_key_value := access_key_value; fc_root_path := root_path; fc_storage_type := storage_type;
        fc_cloud_provider := cloud_provider; fc_iam_endpoint := iam_endpoint; fc_log_level := log_level;
        fc_region := region; fc_use_ssl := use_ssl; fc_ssl_ca_cert := ssl_ca_cert; fc_use_iam := use_iam;
        fc_use_virtual_host := use_virtual_host; fc_request_timeout_ms := i64 request_timeout_ms;
        fc_gcp_native_without_auth := gcp_native_without_auth; fc_gcp_credential_json := gcp_credential_json;
        fc_use_custom_part_upload := use_custom_part_upload; fc_max_connections := u32 max_connections;
        fc_multi_part_upload_size := i64 multi_part_upload_size; fc_role_arn := role_arn;
        fc_session_name := session_name; fc_external_id := external_id;
        fc_gcp_target_service_account := gcp_target_service_account; fc_azure_client_id := azure_client_id;
        fc_azure_tenant_id := azure_tenant_id; fc_azure_credential_endpoint := azure_credential_endpoint;
        fc_load_frequency := i32 load_frequency; fc_tls_min_version := tls_min_version;
        fc_background_writes := background_writes; fc_use_crc32c_checksum := use_crc32c_checksum;
        fc_s3_crt_async_read := s3_crt_async_read; fc_lance_io_parallelism := u32 lance_io_parallelism;
        fc_iops_initial_rate := iops_initial_rate; fc_iops_max_rate := u32 max_rate;
        fc_alias := fc_alias result |}.

(** The parsed endpoint must have a host and be an HTTP(S) URL. *)
Definition http_endpoint (endpoint : string) : bool :=
  match uri_parse endpoint with
  | None => false
  | Some u => negb (is_empty (uri_host u)) &&
      (bool_decide (uri_scheme u = "http") || bool_decide (uri_scheme u = "https"))
  end.

Definition check_broker (c : ArrowFileSystemConfig) : Result unit :=
  if bool_decide (fc_cloud_provider c = kCloudProviderAzure) && IsAzureCredentialBrokerEnabled c then
    if is_empty (fc_azure_client_id c) || is_empty (fc_azure_tenant_id c) ||
       is_empty (fc_azure_credential_endpoint c) || is_empty (fc_access_key_id c) ||
       is_empty (fc_bucket_name c) || is_empty (fc_region c) || (fc_request_timeout_ms c <=? 0)
    then Err status_Invalid
    else if http_endpoint (fc_azure_credential_endpoint c) then Ok tt else Err status_Invalid
  else Ok tt.

Definition create_file_system_config (p : Properties) (result : ArrowFileSystemConfig) :
    Result ArrowFileSystemConfig :=
  c ← read_config p result; check_broker c;; Ok c.

(** ** External filesystems *)

(** One property: [extfs.<name>.<property>] sets [fs.<property>] of [name].
    [std::get<std::string>] of another alternative would throw; no [extfs.*] key
    is registered, so the values are strings. *)
Definition extract_property (external_fs_map : gmap string Properties) (kv : string * PropertyVariant) :
    Result (gmap string Properties) :=
  let '(key, value) := kv in
  if negb (String.length PROPERTY_EXTFS_PREFIX <? String.length key)%nat ||
     negb (bool_decide (take_str (String.length PROPERTY_EXTFS_PREFIX) key = PROPERTY_EXTFS_PREFIX))
  then Ok external_fs_map
  else
    let remainder := drop_str (String.length PROPERTY_EXTFS_PREFIX) key in
    match split1 "." remainder with
    | None => Err status_Invalid
    | Some (fs_name, fs_property) =>
        if is_empty fs_name then Err status_Invalid
        else if is_empty fs_property then Err status_Invalid
        else
          let standard_key := PROPERTY_FS_PREFIX +:+ fs_property in
          match value with
          | PStr text =>
              match SetValue trim_copy (default ∅ (external_fs_map !! fs_name)) standard_key text false with
              | Ok (props, None) => Ok (<[fs_name := props]> external_fs_map)
              | Ok (_, Some _) => Err status_Invalid
              | _ => Ub
              end
          | _ => Ub
          end
    end.

Definition ExtractExternalFsProperties `{HashOrder} (p : Properties) : Result (gmap string Properties) :=
  fold_out extract_property (iterate p) ∅.

Definition CreateExternalFsConfig (alias : string) (props : Properties) (result : ArrowFileSystemConfig) :
    Result ArrowFileSystemConfig :=
  c ← create_file_system_config props result; Ok (set_alias alias c).

(** Whether the address and bucket of an external filesystem are those of the
    URI; an HTTP address is compared by its [host:port]. *)
Definition extfs_matches (uri : StorageUri) (fs_props : Properties) : bool :=
  let address_matches :=
    is_empty (address uri) ||
    match str fs_props PROPERTY_FS_ADDRESS with
    | Ok a => bool_decide (resolve_address a = address uri)
    | _ => false
    end in
  let bucket_matches :=
    match str fs_props PROPERTY_FS_BUCKET_NAME with
    | Ok b => bool_decide (b = bucket_name uri)
    | _ => false
    end in
  address_matches && bucket_matches.

(** The loop over the external filesystems: the first that matches. *)
Fixpoint first_match (uri : StorageUri) (l : list (string * Properties)) : Result ArrowFileSystemConfig :=
  match l with
  | [] => Err status_Invalid
  | (fs_alias, fs_props) :: l' =>
      if extfs_matches uri fs_props then CreateExternalFsConfig fs_alias fs_props default_config
      else first_match uri l'
  end.

Definition resolve_config `{HashOrder} (p : Properties) (path : string) : Result ArrowFileSystemConfig :=
  if is_empty path then create_file_system_config p default_config
  else
    uri ← Parse path true;
    if IsAbsoluteUri uri then
      external_fs_props_map ← ExtractExternalFsProperties p;
      first_match uri (iterate external_fs_props_map)
    else create_file_system_config p default_config.

End config.

(** ** Well-formed properties give complete configurations *)

Section reading.
Context (trim_copy : string → string).

#[local] Abbreviation properties_ok := (properties_ok trim_copy).
#[local] Abbreviation find_info := (find_info trim_copy).

#[local] Existing Instances laws_value_string laws_value_bool laws_value_i32 laws_value_i64 laws_value_u32
  range_i32 range_i64 range_u32.

Lemma read_setting {T} `{Hl : PropertyValueLaws trim_copy T} p key :
  properties_ok p → pi_type ∘ pi_head <$> find_info key = Some (value_type T) →
  ∃ x : T, GetValue trim_copy p key = Ok x.
Proof.
  intros Hp (info & Hf & Ht)%fmap_Some.
  destruct (read_typed trim_copy p key info Hp Hf (eq_sym Ht)) as (x & Hx & _). by exists x.
Qed.

Lemma read_choice p key d l :
  properties_ok p →
  find_info key = Some (mkInfo (mkHead key STRING) d
    (Some (ValidatePropertyType trim_copy +v ValidatePropertyEnum l))) →
  ∃ x : string, GetValue trim_copy p key = Ok x ∧ x ∈ l.
Proof.
  intros Hp Hf. destruct (read_typed (T := string) trim_copy p key _ Hp Hf) as (x & Hx & _ & text & Hv & Hg); [done|].
  exists x. split; [done|]. cbn in Hv, Hg. injection Hg as <-. unfold GetPropertyValueT in Hv. 
  rewrite bool_decide_true in Hv by done. cbn in Hv. by case_bool_decide.
Qed.

Lemma read_bounded {T} `{Hl : PropertyValueLaws trim_copy T} `{Hr : RangeType T} p key d (lo hi : T) :
  properties_ok p →
  find_info key = Some (mkInfo (mkHead key (value_type T)) d
    (Some (ValidatePropertyType trim_copy +v ValidatePropertyRange lo hi))) →
  ∃ x : T, GetValue trim_copy p key = Ok x ∧ range_value lo ≤ range_value x ≤ range_value hi.
Proof.
  intros Hp Hf. destruct (read_typed (T := T) trim_copy p key _ Hp Hf) as (x & Hx & _ & text & Hv & Hg); [done|].
  exists x. split; [done|]. cbn [pi_head] in Hg. rewrite (@value_converted trim_copy T _ _ Hl) in Hg by done.
  destruct (convertFunc text) as [y|] eqn:Hy; [|done]. cbn in Hg. injection Hg as Hxy.
  apply (f_equal (of_variant (T := T))) in Hxy. rewrite !(@of_to_variant trim_copy T _ _ Hl) in Hxy. injection Hxy as ->.
  unfold verdict, validator_add, ValidatePropertyRange, GetPropertyValueT in Hv. cbn [pi_validator pi_head] in Hv.
  cbn [run_validator ValidatePropertyType] in Hv. rewrite bind_Ok in Hv.
  destruct (ValidatePropertyValueType _ _ _); [|done]. cbn [run_validator pi_type] in Hv.
  rewrite bool_decide_true, Hy in Hv by done. cbn [deref] in Hv. rewrite bind_Ok in Hv.
  destruct (_ && _) eqn:Hb; [|done]. lia.
Qed.


(** The values that the code relies on. *)
Record config_valid (c : ArrowFileSystemConfig) : Prop := {
  cv_storage : fc_storage_type c ∈ [LOON_FS_TYPE_LOCAL; LOON_FS_TYPE_REMOTE];
  cv_provider : fc_cloud_provider c ∈ [kCloudProviderAWS; kCloudProviderGCP; kCloudProviderAliyun;
    kCloudProviderAzure; kCloudProviderTencent; kCloudProviderHuawei];
  cv_log_level : fc_log_level c ∈ ["fatal"; "error"; "warn"; "info"; "debug"; "trace"; "off"];
  cv_part_size : MINIMAL_MULTIPART_UPLOAD_PART_SIZE ≤ fc_multi_part_upload_size c ≤ MAXIMAL_MULTIPART_UPLOAD_PART_SIZE;
  cv_load_frequency : 900 ≤ fc_load_frequency c ≤ 43200;
  cv_tls : fc_tls_min_version c ∈ [""; "1.0"; "1.1"; "1.2"; "1.3"];
  cv_lance : 0 ≤ fc_lance_io_parallelism c ≤ 256;
  cv_max_rate : 0 ≤ fc_iops_max_rate c < 2 ^ 32;
  cv_initial_rate : 1 ≤ fc_iops_initial_rate c < 2 ^ 32;
  cv_rates : 0 < fc_iops_max_rate c → fc_iops_initial_rate c ≤ fc_iops_max_rate c;
}.

(** What the Azure credential broker needs. *)
Definition broker_complete `{UriParser} (c : ArrowFileSystemConfig) : Prop :=
  Forall (λ s, s ≠ "") [fc_azure_client_id c; fc_azure_tenant_id c; fc_azure_credential_endpoint c;
    fc_access_key_id c; fc_bucket_name c; fc_region c] ∧
  0 < fc_request_timeout_ms c ∧ http_endpoint (fc_azure_credential_endpoint c) = true.

Lemma check_broker_spec `{UriParser} c :
  ((IsAzureCredentialBrokerEnabled c = true → broker_complete c) ∧ check_broker c = Ok tt) ∨
  (IsAzureCredentialBrokerEnabled c = true ∧ ¬ broker_complete c ∧ check_broker c = Err status_Invalid).
Proof.
  assert (∀ s, is_empty s = false ↔ s ≠ "") as He by by intros [].
  unfold check_broker. destruct (IsAzureCredentialBrokerEnabled c) eqn:Hb; [|left; by rewrite andb_false_r].
  assert (bool_decide (fc_cloud_provider c = kCloudProviderAzure) = true) as ->.
  { unfold IsAzureCredentialBrokerEnabled in Hb. by apply andb_true_iff in Hb as [-> _]. }
  cbn [andb]. destruct (_ || _) eqn:Hmiss.
  - right. split_and!; [done| |done]. intros (Hall & Ht & _).
    repeat (apply Forall_cons in Hall as [? Hall]).
    rewrite !(proj2 (He _)) in Hmiss by done. simpl in Hmiss. lia.
  - apply orb_false_iff in Hmiss as [Hmiss Ht]. repeat (apply orb_false_iff in Hmiss as [Hmiss ?]).
    destruct (http_endpoint (fc_azure_credential_endpoint c)) eqn:Hh.
    + left. split; [intros _|done]. split_and!; [|lia|done]. repeat (apply Forall_cons; split; [by apply He|]). by apply Forall_nil.
    + right. split_and!; [done| |done]. intros (_ & _ & ?). congruence.
Qed.

Ltac next_setting Hp :=
  lazymatch goal with
  | |- context [GetValue _ (T := ?T) ?p ?key ≫= _] =>
      let x := fresh "x" in let E := fresh "Hx" in let B := fresh "Hb" in
      first [edestruct (read_bounded (T := T) p key) as (x & E & B); [exact Hp|reflexivity|]
            |edestruct (read_choice p key) as (x & E & B); [exact Hp|reflexivity|]
            |destruct (read_setting (T := T) p key Hp) as (x & E); [reflexivity|]];
      rewrite E, bind_Ok; clear E
  end.

Lemma read_config_valid p result :
  properties_ok p → ∃ c, read_config trim_copy p result = Ok c ∧ config_valid c ∧ fc_alias c = fc_alias result.
Proof.
  intros Hp. unfold read_config. repeat next_setting Hp. cbv zeta. eexists. split; [reflexivity|]. split; [|done].
  unfold range_value, range_i32, range_i64, range_u32 in *. simpl in *.
  split; simpl; try done; try lia; destruct (_ && _) eqn:?; lia.
Qed.

(** C29: A configuration is read completely from well-formed properties.  Reading
    never fails for a missing or mistyped property and never fails an assertion;
    the result has a known storage type and cloud provider, and its part size,
    credential lifetime, parallelism and request rates are within their bounds,
    the initial rate never above a positive maximal rate.  It is rejected as
    invalid exactly when the Azure credential broker is enabled by one of its
    settings and another one is missing or its endpoint is not an HTTP URL. *)
Theorem config_from_properties `{UriParser} p result :
  properties_ok p →
  ∃ c, read_config trim_copy p result = Ok c ∧ config_valid c ∧ fc_alias c = fc_alias result ∧
    ((IsAzureCredentialBrokerEnabled c = true → broker_complete c) →
      create_file_system_config trim_copy p result = Ok c) ∧
    (IsAzureCredentialBrokerEnabled c = true → ¬ broker_complete c →
      create_file_system_config trim_copy p result = Err status_Invalid).
Proof.
  intros Hp. destruct (read_config_valid p result Hp) as (c & Hc & Hv & Ha). exists c.
  unfold create_file_system_config. rewrite Hc, bind_Ok.
  destruct (check_broker_spec c) as [[Hok ->]|(Hb & Hn & ->)]; split_and!; try done; [|]; intros; exfalso; auto.
Qed.

End reading.

(** ** External filesystems do not depend on the order of hash maps *)

Section external.
Context (trim_copy : string → string).

#[local] Abbreviation properties_ok := (properties_ok trim_copy).

(** What one property does: nothing, an error, or setting one value. *)
Inductive ExtAction :=
  | ExtSkip | ExtBad | ExtSet (fs_name key : string) (x : PropertyVariant).

Definition run_action (a : ExtAction) (m : gmap string Properties) : Result (gmap string Properties) :=
  match a with
  | ExtSkip => Ok m
  | ExtBad => Err status_Invalid
  | ExtSet n k x => Ok (<[n := <[k := x]> (default ∅ (m !! n))]> m)
  end.

(** The name and property of a key [extfs.<name>.<property>]. *)
Definition ext_key (fs_name fs_property : string) : string :=
  PROPERTY_EXTFS_PREFIX +:+ fs_name +:+ "." +:+ fs_property.

Lemma take_drop_str n s : take_str n s +:+ drop_str n s = s.
Proof. revert s. induction n as [|n IH]; intros [|a s]; try done. simpl. by rewrite app_str_cons, IH. Qed.

Lemma split1_join c s l r : split1 c s = Some (l, r) → s = l +:+ String c r.
Proof.
  revert l. induction s as [|a s IH]; intros l; simpl; [done|].
  destruct (Ascii.eqb_spec a c) as [->|Hne]; [by intros [= <- <-]|].
  destruct (split1 c s) as [[l' r']|]; [|done]. intros [= <- <-]. by rewrite app_str_cons, <- (IH l').
Qed.

(** The entry [extfs.<n>.<f>] sets [fs.<f>] of [n] to the value of its text. *)
Definition ext_sets (kv : string * PropertyVariant) (n k : string) (x : PropertyVariant) : Prop :=
  ∃ f text info, kv = (ext_key n f, PStr text) ∧ k = PROPERTY_FS_PREFIX +:+ f ∧
    n ≠ "" ∧ f ≠ "" ∧ mem_char "." n = false ∧
    find_info trim_copy k = Some info ∧ verdict info text = Ok None ∧
    GetPropertyValue trim_copy (pi_head info) text = Ok x.

Definition ext_text (kv : string * PropertyVariant) : Prop :=
  (∃ text, kv.2 = PStr text) ∨ (∀ n f, kv.1 ≠ ext_key n f).

Lemma split1_head_free c s l r : split1 c s = Some (l, r) → mem_char c l = false.
Proof.
  revert l. induction s as [|a s IH]; intros l; simpl; [done|].
  destruct (Ascii.eqb_spec a c) as [->|Hne]; [by intros [= <- <-]|].
  destruct (split1 c s) as [[l' r']|]; [|done]. intros [= <- <-]. simpl. rewrite (IH l' eq_refl), orb_false_r.
  by apply Ascii.eqb_neq.
Qed.

Lemma ext_key_parts n f : mem_char "." n = false →
  (String.length PROPERTY_EXTFS_PREFIX <? String.length (ext_key n f))%nat = true ∧
  take_str (String.length PROPERTY_EXTFS_PREFIX) (ext_key n f) = PROPERTY_EXTFS_PREFIX ∧
  split1 "." (drop_str (String.length PROPERTY_EXTFS_PREFIX) (ext_key n f)) = Some (n, f).
Proof.
  intros Hn. unfold ext_key. rewrite take_str_app, drop_str_app. split_and!; [|done|].
  - apply Nat.ltb_lt. rewrite !length_app_str. simpl. lia.
  - by apply split1_app.
Qed.

(** Keys by their shape: not of an external filesystem, malformed, or the name
    and property. *)
Definition ext_parse (key : string) : option (option (string * string)) :=
  if negb (String.length PROPERTY_EXTFS_PREFIX <? String.length key)%nat ||
     negb (bool_decide (take_str (String.length PROPERTY_EXTFS_PREFIX) key = PROPERTY_EXTFS_PREFIX))
  then None
  else Some (
    match split1 "." (drop_str (String.length PROPERTY_EXTFS_PREFIX) key) with
    | Some (n, f) => if is_empty n || is_empty f then None else Some (n, f)
    | None => None
    end).

Lemma ext_parse_spec key n f :
  ext_parse key = Some (Some (n, f)) ↔ key = ext_key n f ∧ n ≠ "" ∧ f ≠ "" ∧ mem_char "." n = false.
Proof.
  assert (∀ s, is_empty s = false ↔ s ≠ "") as He by by intros [].
  unfold ext_parse. split.
  - destruct (_ || _) eqn:Hpre; [done|].
    apply orb_false_iff in Hpre as [_ Hpre%negb_false_iff%bool_decide_eq_true].
    destruct (split1 "." _) as [[n' f']|] eqn:Hsp; [|done].
    destruct (is_empty n' || is_empty f') eqn:Hne; [done|]. intros [= -> ->].
    apply orb_false_iff in Hne as [Hn%He Hf%He]. split_and!; [|done|done|by eapply split1_head_free].
    rewrite <- (take_drop_str (String.length PROPERTY_EXTFS_PREFIX) key), Hpre.
    by rewrite (split1_join _ _ _ _ Hsp).
  - intros (-> & Hn%He & Hf%He & Hd). destruct (ext_key_parts n f Hd) as (-> & -> & ->).
    rewrite bool_decide_true by done. simpl. by rewrite Hn, Hf.
Qed.

Lemma extract_property_parse m key v :
  extract_property trim_copy m (key, v) =
  match ext_parse key with
  | None => Ok m
  | Some None => Err status_Invalid
  | Some (Some (n, f)) =>
      match v with
      | PStr text =>
          match SetValue trim_copy (default ∅ (m !! n)) (PROPERTY_FS_PREFIX +:+ f) text false with
          | Ok (props, None) => Ok (<[n := props]> m)
          | Ok (_, Some _) => Err status_Invalid
          | _ => Ub
          end
      | _ => Ub
      end
  end.
Proof.
  unfold extract_property, ext_parse. destruct (_ || _); [done|]. destruct (split1 "." _) as [[n f]|]; [|done].
  cbv zeta. by destruct (is_empty n), (is_empty f).
Qed.

(** The action of an entry whose value is a text. *)
Lemma extract_property_action kv :
  ext_text kv →
  ∃ a, (∀ m, extract_property trim_copy m kv = run_action a m) ∧
    ∀ n k x, ext_sets kv n k x ↔ a = ExtSet n k x.
Proof.
  destruct kv as [key v]. intros Hv.
  assert (∀ n k x, ext_sets (key, v) n k x → ∃ f, k = PROPERTY_FS_PREFIX +:+ f ∧ ext_parse key = Some (Some (n, f)))
    as Hshape.
  { intros n k x (f & text & info & Hkv & -> & ? & ? & ? & _). simplify_eq. exists f. split; [done|].
    by apply ext_parse_spec. }
  assert (∀ a, (∀ n k x, ¬ ext_sets (key, v) n k x) → a = ExtSkip ∨ a = ExtBad →
    ∀ n k x, ext_sets (key, v) n k x ↔ a = ExtSet n k x) as Hnone.
  { intros a Hno Ha n k x. split; [intros ?; by destruct (Hno n k x)|by destruct Ha as [->| ->]]. }
  setoid_rewrite extract_property_parse. destruct (ext_parse key) as [[[n f]|]|] eqn:Hpk.
  2:{ exists ExtBad. split; [done|]. apply Hnone; [|by right]. by intros n k x (f & _ & ?)%Hshape. }
  2:{ exists ExtSkip. split; [done|]. apply Hnone; [|by left]. by intros n k x (f & _ & ?)%Hshape. }
  apply ext_parse_spec in Hpk as (-> & Hn & Hf & Hd).
  destruct Hv as [[text Ht]|Hne]; [|by destruct (Hne n f)]. simpl in Ht. subst v.
  pose proof (λ p, SetValue_spec trim_copy p (PROPERTY_FS_PREFIX +:+ f) text false) as Hset.
  assert (∀ n' k x, ext_sets (ext_key n f, PStr text) n' k x → n' = n ∧ k = PROPERTY_FS_PREFIX +:+ f ∧
    ∃ info, find_info trim_copy k = Some info ∧ verdict info text = Ok None ∧
      GetPropertyValue trim_copy (pi_head info) text = Ok x) as Hsets.
  { intros n' k x Hs. destruct (Hshape _ _ _ Hs) as (f' & -> & Hp).
    injection Hp as <- <-. split_and!; [done..|].
    destruct Hs as (f'' & text' & info & Hkv & _ & _ & _ & _ & ? & ? & ?). simplify_eq. by exists info. }
  destruct (find_info trim_copy (PROPERTY_FS_PREFIX +:+ f)) as [info|] eqn:Hi.
  - destruct (Hset ∅) as [(e & He & _)|(x & Hx & Hg & _)].
    + exists ExtBad. split.
      * intros m. destruct (Hset (default ∅ (m !! n))) as [(e' & _ & ->)|(x & Hx & _)]; [done|congruence].
      * apply Hnone; [|by right]. intros n' k x (-> & -> & info' & Hi' & Hv' & _)%Hsets. congruence.
    + exists (ExtSet n (PROPERTY_FS_PREFIX +:+ f) x). split.
      * intros m. destruct (Hset (default ∅ (m !! n))) as [(e' & He' & _)|(x' & Hx' & Hg' & ->)]; [congruence|].
        rewrite Hg in Hg'. by injection Hg' as ->.
      * intros n' k x'. split.
        -- intros (-> & -> & info' & Hi' & _ & Hg')%Hsets. rewrite Hi in Hi'. simplify_eq.
           rewrite Hg in Hg'. by injection Hg' as ->.
        -- intros [= <- <- <-]. by exists f, text, info.
  - exists ExtBad. split; [intros m; by rewrite Hset|]. apply Hnone; [|by right].
    intros n' k x (-> & -> & info' & Hi' & _)%Hsets. congruence.
Qed.

Lemma run_action_comm a1 a2 m :
  (∀ n k x y, a1 = ExtSet n k x → a2 = ExtSet n k y → False) →
  (m' ← run_action a1 m; run_action a2 m') = (m' ← run_action a2 m; run_action a1 m').
Proof.
  intros Hd. destruct a1 as [| |n1 k1 x1], a2 as [| |n2 k2 x2]; try done. unfold run_action.
  rewrite !bind_Ok. f_equal. destruct (decide (n1 = n2)) as [->|Hn].
  - rewrite !lookup_insert_eq. simpl. rewrite !insert_insert_eq. f_equal. apply insert_insert_ne.
    intros ->. by eapply Hd.
  - rewrite !lookup_insert_ne by done. by rewrite insert_insert_ne.
Qed.

Lemma ext_sets_key kv1 kv2 n k x y : ext_sets kv1 n k x → ext_sets kv2 n k y → kv1.1 = kv2.1.
Proof.
  intros (f1 & t1 & i1 & -> & -> & _) (f2 & t2 & i2 & -> & Hk & _). simpl. by apply app_str_inj_l in Hk as ->.
Qed.

(** The entries of well-formed properties: no key of an external filesystem is
    registered. *)
Lemma properties_ext_text p : properties_ok p → Forall ext_text (map_to_list p).
Proof.
  intros Hp. apply Forall_forall. intros [key v] Hkv%elem_of_map_to_list. specialize (Hp key v Hkv).
  unfold ext_text. simpl. destruct (find_info trim_copy key) as [info|] eqn:Hf; [right|by left].
  intros n f ->. apply find_info_spec in Hf as [Hin Hname].
  assert (forallb (λ i, negb (starts_with PROPERTY_EXTFS_PREFIX (pi_name (pi_head i))))
    (property_infos trim_copy) = true) as Hall by (vm_compute; reflexivity).
  rewrite forallb_forall in Hall. apply list_elem_of_In, Hall in Hin. rewrite Hname in Hin.
  unfold ext_key in Hin. by rewrite starts_with_app in Hin.
Qed.

Lemma extract_perm l1 l2 m :
  l1 ≡ₚ l2 → NoDup l1.*1 → Forall ext_text l1 →
  fold_out (extract_property trim_copy) l1 m = fold_out (extract_property trim_copy) l2 m.
Proof.
  apply fold_out_perm. intros kv1 kv2 m' H1 H2 Hne.
  destruct (extract_property_action kv1 H1) as (a1 & Ha1 & Hs1).
  destruct (extract_property_action kv2 H2) as (a2 & Ha2 & Hs2).
  rewrite Ha1, Ha2. transitivity (m'' ← run_action a1 m'; run_action a2 m''); [destruct (run_action a1 m'); by rewrite ?bind_Ok, ?Ha2|].
  rewrite run_action_comm; [destruct (run_action a2 m'); by rewrite ?bind_Ok, ?Ha1|].
  intros n k x y Hx%Hs1 Hy%Hs2. by eapply Hne, ext_sets_key.
Qed.

(** The value of a property of an external filesystem. *)
Definition ext_lookup (m : gmap string Properties) (n k : string) : option PropertyVariant :=
  match m !! n with Some props => props !! k | None => None end.

Lemma run_action_lookup a m m' n k :
  run_action a m = Ok m' → ext_lookup m' n k =
  match a with
  | ExtSet n' k' y => if decide (n' = n ∧ k' = k) then Some y else ext_lookup m n k
  | _ => ext_lookup m n k
  end.
Proof.
  destruct a as [| |n' k' y]; [by intros [= <-]|done|]. intros [= <-]. unfold ext_lookup.
  destruct (decide (n' = n)) as [->|Hn].
  - rewrite lookup_insert_eq. destruct (decide (k' = k)) as [->|Hk].
    + rewrite decide_True by done. apply lookup_insert_eq.
    + etrans; [by apply lookup_insert_ne|]. rewrite decide_False by tauto. by destruct (m !! n).
  - rewrite lookup_insert_ne by done. by rewrite decide_False by tauto.
Qed.

(** What the extraction collects. *)
Lemma extract_collects l m n k x :
  NoDup l.*1 → Forall ext_text l → fold_out (extract_property trim_copy) l ∅ = Ok m →
  ext_lookup m n k = Some x ↔ ∃ kv, kv ∈ l ∧ ext_sets kv n k x.
Proof.
  revert m. induction l as [|kv l IH] using rev_ind; intros m Hnd HP.
  { intros [= <-]. unfold ext_lookup. rewrite lookup_empty. set_solver. }
  rewrite fmap_app in Hnd. apply NoDup_app in Hnd as (Hnd & Hkv & _). apply Forall_app in HP as [HP Hkvt].
  apply Forall_cons in Hkvt as [Hkvt _]. destruct (extract_property_action kv Hkvt) as (a & Ha & Hs).
  rewrite fold_out_app. destruct (fold_out _ l ∅) as [m1|e|]; [|done..]. rewrite bind_Ok. cbn [fold_out].
  rewrite Ha. destruct (run_action a m1) as [m'|e|] eqn:Hr; [|done..]. rewrite bind_Ok. intros [= ->].
  rewrite (run_action_lookup _ _ _ n k Hr).
  assert ((∃ kv', kv' ∈ l ++ [kv] ∧ ext_sets kv' n k x) ↔ (∃ kv', kv' ∈ l ∧ ext_sets kv' n k x) ∨ a = ExtSet n k x) as ->.
  { setoid_rewrite elem_of_app. setoid_rewrite list_elem_of_singleton. rewrite <- Hs. naive_solver. }
  rewrite <- (IH m1 Hnd HP eq_refl).
  destruct a as [| |n' k' y]; [naive_solver..|]. case_decide as Hd; [|naive_solver].
  destruct Hd as [-> ->]. split; [intros [= ->]; by right|]. intros [Hx|[= ->]]; [|done].
  apply (IH m1 Hnd HP eq_refl) in Hx as (kv' & Hin & Hx). destruct (Hkv kv'.1); [by apply list_elem_of_fmap_2|].
  rewrite (ext_sets_key _ _ _ _ _ _ Hx (proj2 (Hs n k y) eq_refl)). apply list_elem_of_here.
Qed.

Lemma extract_errors l m :
  Forall ext_text l →
  match fold_out (extract_property trim_copy) l m with Ok _ => True | Err e => e = status_Invalid | Ub => False end.
Proof.
  intros HP. revert m. induction HP as [|kv l Hkv HP IH]; intros m; [done|]. cbn [fold_out].
  destruct (extract_property_action kv Hkv) as (a & -> & _).
  destruct a; cbn [run_action]; [rewrite bind_Ok; apply IH|done|rewrite bind_Ok; apply IH].
Qed.

(** The extracted properties are well formed. *)
Lemma extract_ok l m :
  NoDup l.*1 → Forall ext_text l → fold_out (extract_property trim_copy) l ∅ = Ok m →
  map_Forall (λ _, properties_ok) m.
Proof.
  intros Hnd HP Hm n props Hn k x Hk.
  assert (ext_lookup m n k = Some x) as Hx by (unfold ext_lookup; by rewrite Hn).
  apply (extract_collects _ _ _ _ _ Hnd HP Hm) in Hx as (kv & _ & f & text & info & _ & _ & _ & _ & _ & -> & Hv & Hg).
  by exists text.
Qed.

(** The properties of external filesystems are collected as they were set.
    Whatever the order in which the hash map is traversed, the result is the
    same; no assertion fails; the only error is an invalid property.  On success
    the filesystem [n] has the property [fs.<f>] with a value exactly when
    [extfs.<n>.<f>] was set to a text that the registry converts to this value,
    and the properties of every external filesystem are well formed. *)
Theorem external_settings_collected (p : Properties) :
  properties_ok p →
  ∃ r : Result (gmap string Properties),
    (∀ o : HashOrder, HashOrderLaws → ExtractExternalFsProperties trim_copy p = r) ∧
    match r with
    | Ok m => map_Forall (λ _, properties_ok) m ∧
        ∀ n k x, ext_lookup m n k = Some x ↔ ∃ key v, p !! key = Some v ∧ ext_sets (key, v) n k x
    | Err e => e = status_Invalid
    | Ub => False
    end.
Proof.
  intros Hp. pose proof (properties_ext_text p Hp) as Ht. pose proof (NoDup_fst_map_to_list p) as Hnd.
  exists (fold_out (extract_property trim_copy) (map_to_list p) ∅). split.
  { intros o Ho. symmetry. apply extract_perm; [|done..]. symmetry. apply Ho. }
  destruct (fold_out _ _ ∅) as [m|e|] eqn:Hm.
  - split; [by eapply extract_ok|]. intros n k x. rewrite (extract_collects _ _ n k x Hnd Ht Hm). split.
    + intros ([key v] & Hin%elem_of_map_to_list & Hs). by exists key, v.
    + intros (key & v & Hin & Hs). exists (key, v). split; [by apply elem_of_map_to_list|done].
  - pose proof (extract_errors _ ∅ Ht) as He. by rewrite Hm in He.
  - pose proof (extract_errors _ ∅ Ht) as He. by rewrite Hm in He.
Qed.

End external.

(** ** Resolving a URI *)

Section resolve.
Context (trim_copy : string → string) `{UriParserLaws}.

#[local] Abbreviation properties_ok := (properties_ok trim_copy).

Lemma read_config_location p result c :
  read_config trim_copy p result = Ok c →
  GetValue trim_copy p PROPERTY_FS_ADDRESS = Ok (fc_address c) ∧
  GetValue trim_copy p PROPERTY_FS_BUCKET_NAME = Ok (fc_bucket_name c).
Proof.
  unfold read_config. intros Hc. repeat (apply bind_Ok_inv in Hc as (? & ? & Hc)).
  cbv zeta in Hc. repeat (apply bind_Ok_inv in Hc as (? & ? & Hc)). injection Hc as <-. done.
Qed.

Lemma external_config_valid a props c :
  properties_ok props → CreateExternalFsConfig trim_copy a props default_config = Ok c →
  config_valid c ∧ fc_alias c = a ∧ GetValue trim_copy props PROPERTY_FS_ADDRESS = Ok (fc_address c) ∧
  GetValue trim_copy props PROPERTY_FS_BUCKET_NAME = Ok (fc_bucket_name c).
Proof.
  intros Hp (c0 & Hc0 & [= <-])%bind_Ok_inv. apply bind_Ok_inv in Hc0 as (c1 & Hc1 & Hb).
  apply bind_Ok_inv in Hb as ([] & _ & [= <-]).
  destruct (read_config_valid trim_copy props default_config Hp) as (c2 & Hc2 & Hv & _).
  rewrite Hc1 in Hc2. injection Hc2 as <-. apply read_config_location in Hc1 as [Hadr Hbkt].
  split_and!; [by destruct Hv; split|done..].
Qed.

Lemma uri_good_address u host port : uri_good u host port → is_empty (address u) = false.
Proof.
  intros (_ & _ & _ & [_ Hh] & Hport). destruct port as [n|]; [destruct Hport as [-> _]|by rewrite Hport].
  destruct host; [done|]. by rewrite app_str_cons.
Qed.

Lemma first_match_one u l a props :
  NoDup l.*1 → (a, props) ∈ l → extfs_matches trim_copy u props = true →
  (∀ b qs, (b, qs) ∈ l → extfs_matches trim_copy u qs = true → b = a) →
  first_match trim_copy u l = CreateExternalFsConfig trim_copy a props default_config.
Proof.
  induction l as [|[b qs] l IH]; intros Hnd Hin Hm Huniq; [by apply elem_of_nil in Hin|]. cbn [first_match].
  apply NoDup_cons in Hnd as [Hb Hnd]. simpl in Hb. apply elem_of_cons in Hin as [[= <- <-]|Hin]; [by rewrite Hm|].
  destruct (extfs_matches trim_copy u qs) eqn:Hq.
  - destruct Hb. rewrite (Huniq b qs (list_elem_of_here _ _) Hq). by apply (list_elem_of_fmap_2 fst _ (a, props)).
  - apply IH; [done..|]. intros b' qs' Hin'. by apply Huniq, list_elem_of_further.
Qed.

Lemma first_match_none u l :
  (∀ b qs, (b, qs) ∈ l → extfs_matches trim_copy u qs = false) → first_match trim_copy u l = Err status_Invalid.
Proof.
  induction l as [|[b qs] l IH]; intros Hno; [done|]. cbn [first_match]. rewrite (Hno b qs) by apply list_elem_of_here.
  apply IH. intros b' qs' Hin'. by eapply Hno, list_elem_of_further.
Qed.

(** A location that was written as a URI is looked up among the external
    filesystems. *)
Lemma resolve_made_uri `{HashOrder} p u host port s m :
  uri_good u host port → Make u true = Ok s → ExtractExternalFsProperties trim_copy p = Ok m →
  resolve_config trim_copy p s = first_match trim_copy u (iterate m).
Proof.
  intros Hu Hs Hm. destruct (storage_uri_roundtrip u host port Hu) as [(s' & Hs' & Hp) _].
  rewrite Hs in Hs'. injection Hs' as <-. destruct Hu as (Hsch & _).
  pose proof (uri_scheme_nonempty _ Hsch) as Hne.
  assert (is_empty s = false) as Hsne.
  { unfold Make in Hs. rewrite Hne in Hs. destruct (is_empty (bucket_name u)), (is_empty (key u)); try done.
    simpl in Hs. injection Hs as <-. by destruct (scheme u). }
  unfold resolve_config. rewrite Hsne, Hp, bind_Ok. unfold IsAbsoluteUri. rewrite Hne. simpl. by rewrite Hm.
Qed.

(** C28: A URI resolves to the external filesystem it names.  Let an address be a
    plain host, or a plain host other than [http] and [https] with a port, and a
    bucket and a key be plain words and paths ([uri_good]).  The URI that
    [StorageUri::Make] writes for them is resolved, in every traversal order of
    the hash maps, to the configuration of the one external filesystem whose
    address and bucket match; a configuration that is returned bears its alias,
    its bucket and its address and is within its bounds.  If none matches, the
    URI is refused as invalid.  (For a host [http] or [https] with a port,
    [Make] drops the address: [StorageUri.ToyUri.http_host_dropped].) *)
Theorem external_uri_resolved `{HashOrder} `{!HashOrderLaws} p u host port s m :
  properties_ok p → uri_good u host port → Make u true = Ok s →
  ExtractExternalFsProperties trim_copy p = Ok m →
  (∀ a props, m !! a = Some props → extfs_matches trim_copy u props = true →
    (∀ b qs, m !! b = Some qs → extfs_matches trim_copy u qs = true → b = a) →
    resolve_config trim_copy p s = CreateExternalFsConfig trim_copy a props default_config ∧
    ∀ c, resolve_config trim_copy p s = Ok c →
      config_valid c ∧ fc_alias c = a ∧ fc_bucket_name c = bucket_name u ∧
      resolve_address (fc_address c) = address u) ∧
  ((∀ a props, m !! a = Some props → extfs_matches trim_copy u props = false) →
    resolve_config trim_copy p s = Err status_Invalid).
Proof.
  intros Hp Hu Hs Hm. rewrite (resolve_made_uri _ _ _ _ _ _ Hu Hs Hm).
  assert (∀ b qs, (b, qs) ∈ iterate m ↔ m !! b = Some qs) as Hit.
  { intros b qs. rewrite iterate_perm. apply elem_of_map_to_list. }
  split.
  - intros a props Ha Hma Huniq.
    assert (first_match trim_copy u (iterate m) = CreateExternalFsConfig trim_copy a props default_config) as ->.
    { apply first_match_one; [| |done|].
      - rewrite iterate_perm. apply NoDup_fst_map_to_list.
      - by apply Hit.
      - intros b qs Hb%Hit. by apply Huniq. }
    split; [done|]. intros c Hc.
    assert (properties_ok props) as Hprops.
    { eapply (extract_ok trim_copy (iterate p)); [| |exact Hm|exact Ha].
      - rewrite iterate_perm. apply NoDup_fst_map_to_list.
      - rewrite iterate_perm. by apply (properties_ext_text trim_copy). }
    destruct (external_config_valid _ _ _ Hprops Hc) as (Hv & Hal & Hadr & Hbkt).
    unfold extfs_matches in Hma. rewrite Hadr, Hbkt, (uri_good_address _ _ _ Hu) in Hma.
    apply andb_true_iff in Hma as [Hm1%bool_decide_eq_true Hm2%bool_decide_eq_true]. done.
  - intros Hno. apply first_match_none. intros b qs Hb%Hit. by eapply Hno.
Qed.

End resolve.

(** ** Evaluation *)

Module SampleConfig.

#[export] Instance sorted_order : HashOrder := λ V m, map_to_list m.
#[export] Instance sorted_order_laws : @HashOrderLaws sorted_order.
Proof. by intros V m. Qed.
Definition reversed_order : HashOrder := λ V m, reverse (map_to_list m).
Lemma reversed_order_laws : @HashOrderLaws reversed_order.
Proof. intros V m. apply reverse_Permutation. Qed.

Definition set_texts (texts : list (string * string)) : Properties :=
  match ConvertFFIProperties id ∅ (Some texts) with Ok (p, None) => p | _ => ∅ end.

Lemma set_texts_ok texts : properties_ok id (set_texts texts).
Proof.
  unfold set_texts. change (ConvertFFIProperties id ∅ (Some texts)) with (set_all id ∅ texts).
  destruct (set_all_ok id ∅ texts (SampleProperties.properties_ok_empty id)) as (p & err & Heq & Hp). rewrite Heq.
  destruct err; [apply SampleProperties.properties_ok_empty|done].
Qed.

Definition location : StorageUri := mkStorageUri "s3" "store:9000" "prod-bucket" "a/b.parquet".

Definition texts : list (string * string) :=
  [("fs.storage_type", "remote"); ("fs.iops_initial_rate", "9000"); ("extfs.prod.storage_type", "remote");
   ("extfs.prod.address", "store:9000"); ("extfs.prod.bucket_name", "prod-bucket");
   ("extfs.backup.address", "vault:9000"); ("extfs.backup.bucket_name", "prod-bucket")].

Definition extracted : gmap string Properties :=
  match ExtractExternalFsProperties id (set_texts texts) with Ok m => m | _ => ∅ end.

Lemma extracted_ok : ExtractExternalFsProperties id (set_texts texts) = Ok extracted.
Proof.
  unfold extracted. destruct (ExtractExternalFsProperties id (set_texts texts)) as [m|e|] eqn:Hm; [done|exfalso..].
  all: assert ((if ExtractExternalFsProperties id (set_texts texts) is Ok _ then true else false) = true) as Ht
    by (vm_compute; reflexivity); by rewrite Hm in Ht.
Qed.

Lemma config_from_properties_witness :
  properties_ok id (set_texts texts) ∧
  ∃ c, read_config id (set_texts texts) default_config = Ok c ∧ config_valid c ∧ fc_iops_initial_rate c = 5000.
Proof.
  split; [apply set_texts_ok|].
  destruct (@config_from_properties id ToyUri.parser (set_texts texts) default_config (set_texts_ok texts))
    as (c & Hc & Hv & _).
  exists c. split; [exact Hc|]. split; [exact Hv|].
  assert (fc_iops_initial_rate <$> read_config id (set_texts texts) default_config = Ok 5000) as Hr
    by (vm_compute; reflexivity).
  rewrite Hc in Hr. by injection Hr.
Defined.

Lemma external_settings_collected_witness :
  properties_ok id (set_texts texts) ∧
  ∃ r : Result (gmap string Properties), r = Ok extracted ∧
    @ExtractExternalFsProperties id reversed_order (set_texts texts) = r.
Proof.
  split; [apply set_texts_ok|].
  destruct (external_settings_collected id (set_texts texts) (set_texts_ok texts)) as (r & Hr & _).
  exists r. split; [rewrite <- (Hr sorted_order sorted_order_laws); exact extracted_ok|].
  exact (Hr reversed_order reversed_order_laws).
Defined.

Lemma location_good : uri_good location "store" (Some 9000).
Proof. repeat split; try reflexivity; done || lia. Qed.

Definition location_text : string := "s3://store:9000/prod-bucket/a/b.parquet".

Lemma only_one (f : Properties → bool) (m : gmap string Properties) a :
  fst <$> List.filter (λ e, f e.2) (map_to_list m) = [a] → ∀ b qs, m !! b = Some qs → f qs = true → b = a.
Proof.
  intros Hf b qs Hb%elem_of_map_to_list Hq. apply list_elem_of_singleton. rewrite <- Hf.
  apply (list_elem_of_fmap_2 fst _ (b, qs)), list_elem_of_In, filter_In. split; [by apply list_elem_of_In|done].
Qed.

Lemma external_uri_resolved_witness :
  properties_ok id (set_texts texts) ∧ @Make ToyUri.parser location true = Ok location_text ∧
  ∃ c, @resolve_config id ToyUri.parser sorted_order (set_texts texts) location_text = Ok c ∧
    fc_alias c = "prod" ∧ fc_bucket_name c = "prod-bucket".
Proof.
  split; [apply set_texts_ok|]. split; [vm_compute; reflexivity|].
  assert (fc_alias <$> @resolve_config id ToyUri.parser sorted_order (set_texts texts) location_text = Ok "prod") as Hr
    by (vm_compute; reflexivity).
  destruct (resolve_config id (set_texts texts) location_text) as [c|e|] eqn:Hc; [|discriminate Hr|discriminate Hr].
  exists c. split; [reflexivity|].
  destruct (@external_uri_resolved id ToyUri.parser ToyUri.parser_laws sorted_order sorted_order_laws
    (set_texts texts) location "store" (Some 9000) location_text extracted (set_texts_ok texts) location_good
    ltac:(vm_compute; reflexivity) extracted_ok) as [Hone _].
  assert (@extfs_matches id ToyUri.parser location <$> extracted !! "prod" = Some true) as Hx by (vm_compute; reflexivity).
  apply fmap_Some in Hx as (props & Hp & Hx). destruct (Hone "prod" props Hp) as [_ Hall].
  - by symmetry.
  - apply only_one. vm_compute. reflexivity.
  - destruct (Hall c Hc) as (_ & Ha & Hb & _). split; [exact Ha|exact Hb].
Defined.

(** Two external filesystems with one address and bucket: which of them a URI
    resolves to, and so the credentials used, depends on the order of the hash
    map. *)
Definition two_owners : Properties :=
  set_texts [("extfs.a.address", "store:9000"); ("extfs.a.bucket_name", "prod-bucket");
             ("extfs.b.address", "store:9000"); ("extfs.b.bucket_name", "prod-bucket")].

Example ambiguous_alias_depends_on_order :
  fc_alias <$> @resolve_config id ToyUri.parser sorted_order two_owners location_text ≠
  fc_alias <$> @resolve_config id ToyUri.parser reversed_order two_owners location_text.
Proof. vm_compute. discriminate. Qed.

End SampleConfig.
