(* ===== verification/Manifest.v ===== *)
(** * The manifest

    The data of [manifest.h] (column groups, delta logs, statistics, indexes,
    lob files), the lookups of the class [Manifest], and the conversion of the
    stored paths between their relative form on disk and their absolute form in
    memory ([toRelativePaths], [ToAbsolutePaths] of [manifest.cpp]).

    The record is polymorphic in the pointer type: [Manifest loc] is the
    object in memory, whose groups live in the heap of [ColumnGroups];
    [Manifest ColumnGroup] is its value, what is written to disk. *)

From S2P Require Import Prelude CppString Status Paths StorageUri ColumnGroups.

Definition MANIFEST_VERSION : Z := 6.

(** ** Data *)

Record LobFileInfo := mkLob {
  lob_path : string;
  lob_field_id : Z;
  total_rows : Z;
  valid_rows : Z;
  file_size_bytes : Z;
}.

(** An enumeration with underlying type [int]: reading a manifest casts any
    32-bit value to it. *)
Definition DeltaLogType := Z.
Definition PRIMARY_KEY : DeltaLogType := 0.
Definition POSITIONAL : DeltaLogType := 1.
Definition EQUALITY : DeltaLogType := 2.

Record DeltaLog := mkDelta {
  dl_path : string;
  dl_type : DeltaLogType;
  num_entries : Z;
}.

Record Index := mkIndex {
  column_name : string;
  index_name : string;
  index_type : string;
  idx_path : string;
  idx_field_id : Z;
  index_id : Z;
  build_id : Z;
  index_version : Z;
  num_rows : Z;
  serialized_size : Z;
  mem_size : Z;
  current_index_version : Z;
  current_scalar_index_version : Z;
  index_store_path_version : Z;
  index_file_keys : list string;
  idx_properties : gmap string string;
}.

Record Statistics := mkStat {
  paths : list string;
  metadata : gmap string string;
}.

Record Manifest (P : Type) := mkManifest {
  version_ : Z;
  column_groups_ : list (option P);
  delta_logs_ : list DeltaLog;
  stats_ : gmap string Statistics;
  indexes_ : list Index;
  lob_files_ : list LobFileInfo;
}.
Arguments mkManifest {P} _ _ _ _ _ _.
Arguments version_ {P} _.
Arguments column_groups_ {P} _.
Arguments delta_logs_ {P} _.
Arguments stats_ {P} _.
Arguments indexes_ {P} _.
Arguments lob_files_ {P} _.

#[global] Instance LobFileInfo_eq_dec : EqDecision LobFileInfo.
Proof. solve_decision. Defined.
#[global] Instance DeltaLog_eq_dec : EqDecision DeltaLog.
Proof. unfold DeltaLogType in *. solve_decision. Defined.
#[global] Instance Index_eq_dec : EqDecision Index.
Proof. solve_decision. Defined.
#[global] Instance Statistics_eq_dec : EqDecision Statistics.
Proof. solve_decision. Defined.
#[global] Instance Manifest_eq_dec `{EqDecision P} : EqDecision (Manifest P).
Proof. solve_decision. Defined.

(** The default constructor. *)
Definition empty_manifest {P} : Manifest P := mkManifest MANIFEST_VERSION [] [] ∅ [] [].

Definition with_groups {P Q} (m : Manifest P) (cgs : list (option Q)) : Manifest Q :=
  mkManifest (version_ m) cgs (delta_logs_ m) (stats_ m) (indexes_ m) (lob_files_ m).

(** The value of a manifest in memory; defined when no group is null. *)
Definition manifest_view (h : Heap) (m : Manifest loc) (mv : Manifest ColumnGroup) : Prop :=
  ∃ gs, points h (column_groups_ m) gs ∧ mv = with_groups m (Some <$> gs).

Section ops.
Context {E : Type}.

(** [Manifest(const Manifest&)]: a deep copy. *)
Definition copy_manifest (m : Manifest loc) : M Heap E (Manifest loc) :=
  cgs ← copy_column_groups (column_groups_ m);
  mret (with_groups m cgs).

(** [getColumnGroup]: every group up to the match is dereferenced. *)
Fixpoint find_column_group (column_name : string) (cgs : ColumnGroups) :
    M Heap E ColumnGroupPtr :=
  match cgs with
  | [] => mret None
  | cg :: rest =>
      g ← load cg;
      if decide (column_name ∈ columns g) then mret cg
      else find_column_group column_name rest
  end.

Definition getColumnGroup (m : Manifest loc) (column_name : string) : M Heap E ColumnGroupPtr :=
  find_column_group column_name (column_groups_ m).
End ops.

Definition getIndex {P} (m : Manifest P) (col ty : string) : option Index :=
  List.find (λ i, bool_decide (column_name i = col) && bool_decide (index_type i = ty)) (indexes_ m).

Definition getLobFilesForField {P} (m : Manifest P) (field_id : Z) : list LobFileInfo :=
  List.filter (λ f, lob_field_id f =? field_id) (lob_files_ m).

(** ** Relative and absolute paths *)

Section relpaths.
Context `{UriParser}.

(** [ToRelative], with the base path present (every caller passes one). *)
Definition ToRelative (path base_path dir_path : string) : string :=
  let dir_path_str := in_dir base_path dir_path in
  if starts_with dir_path_str path then drop_str (String.length dir_path_str) path
  else path.

(** [uri_result.ok() && !uri_result->scheme.empty()]. *)
Definition has_scheme (path : string) : bool :=
  match Parse path true with Ok u => negb (is_empty (scheme u)) | _ => false end.

Definition ToAbsolute (path base_path dir_path : string) : string :=
  if has_scheme path then path
  else if Path.is_relative path
  then Path.lexically_normal (Path.append (Path.append base_path dir_path) path)
  else path.

(** Rewrite every path of a manifest; the same fields in the same order for
    both directions. *)
Definition map_file_path (f : string → string) (x : ColumnGroupFile) : ColumnGroupFile :=
  mkFile (f (cgf_path x)) (start_index x) (end_index x) (cgf_properties x).
Definition map_group_paths (f : string → string) (g : ColumnGroup) : ColumnGroup :=
  mkGroup (columns g) (format g) (map_file_path f <$> files g).
Definition map_delta_path (f : string → string) (d : DeltaLog) : DeltaLog :=
  mkDelta (f (dl_path d)) (dl_type d) (num_entries d).
Definition map_stat_paths (f : string → string) (s : Statistics) : Statistics :=
  mkStat (f <$> paths s) (metadata s).
Definition map_index_path (f : string → string) (i : Index) : Index :=
  mkIndex (column_name i) (index_name i) (index_type i) (f (idx_path i)) (idx_field_id i)
    (index_id i) (build_id i) (index_version i) (num_rows i) (serialized_size i) (mem_size i)
    (current_index_version i) (current_scalar_index_version i) (index_store_path_version i)
    (index_file_keys i) (idx_properties i).
Definition map_lob_path (f : string → string) (l : LobFileInfo) : LobFileInfo :=
  mkLob (f (lob_path l)) (lob_field_id l) (total_rows l) (valid_rows l) (file_size_bytes l).

(** The paths that are not behind a pointer. *)
Definition map_plain_paths {P} (conv : string → string → string) (m : Manifest P) : Manifest P :=
  mkManifest (version_ m) (column_groups_ m)
    (map_delta_path (λ p, conv p kDeltaPath) <$> delta_logs_ m)
    (map_stat_paths (λ p, conv p kStatsPath) <$> stats_ m)
    (map_index_path (λ p, conv p kIndexPath) <$> indexes_ m)
    (map_lob_path (λ p, conv p kLobPath) <$> lob_files_ m).

(** The loop over the column groups: a null group is dereferenced. *)
Definition map_group_files {E} (conv : string → string → string) (cgs : ColumnGroups) :
    M Heap E unit :=
  for_each (λ cg, g ← load cg; store cg (map_group_paths (λ p, conv p kDataPath) g)) cgs.

Definition toRelativePaths {E} (m : Manifest loc) (base_path : string) :
    M Heap E (Manifest loc) :=
  c ← copy_manifest m;
  map_group_files (λ p dir, ToRelative p base_path dir) (column_groups_ c) ;;
  mret (map_plain_paths (λ p dir, ToRelative p base_path dir) c).

Definition ToAbsolutePaths {E} (m : Manifest loc) (base_path : string) :
    M Heap E (Manifest loc) :=
  map_group_files (λ p dir, ToAbsolute p base_path dir) (column_groups_ m) ;;
  mret (map_plain_paths (λ p dir, ToAbsolute p base_path dir) m).

(** The same conversions on values. *)
Definition map_paths (conv : string → string → string) (m : Manifest ColumnGroup) :
    Manifest ColumnGroup :=
  map_plain_paths conv
    (with_groups m ((λ g : option ColumnGroup,
      map_group_paths (λ p, conv p kDataPath) <$> g) <$> column_groups_ m)).

End relpaths.

(** ** Lemmas *)

(** Rewriting the paths of distinct objects is rewriting their values. *)
Lemma map_group_files_ok {E} conv h l gs h2 :
  length h = l →
  map_group_files (E:=E) conv (fresh_ptrs l (length gs)) (h ++ gs ++ h2) =
  (h ++ (map_group_paths (λ p, conv p kDataPath) <$> gs) ++ h2, Ok tt).
Proof.
  intros <-. revert h. induction gs as [|g gs IH]; intros h; [done|].
  unfold map_group_files in *. cbn [length]. rewrite fresh_ptrs_S. cbn [for_each].
  assert ((h ++ (g :: gs) ++ h2) !! length h = Some g) as Hl.
  { rewrite lookup_app_r by lia. by rewrite Nat.sub_diag. }
  erewrite M_bind_Ok; [|erewrite M_bind_Ok by (apply load_ok, view_ptr_Some; eauto);
    apply (store_ok _ _ _ _ Hl)].
  rewrite insert_app_r_alt by lia. rewrite Nat.sub_diag. cbn [app insert list_insert].
  specialize (IH (h ++ [map_group_paths (λ p, conv p kDataPath) g])).
  rewrite length_app, Nat.add_1_r, <- !app_assoc in IH. simpl in IH. by rewrite IH.
Qed.

Lemma copy_manifest_ok {E} h m gs : points h (column_groups_ m) gs →
  copy_manifest (E:=E) m h =
  (h ++ gs, Ok (with_groups m (fresh_ptrs (length h) (length gs)))).
Proof.
  intros Hp. unfold copy_manifest. by rewrite (M_bind_Ok _ _ _ _ _ (copy_column_groups_ok _ _ _ Hp)).
Qed.

(** [toRelativePaths] leaves every existing object alone and returns a copy
    whose value is the relative form of the manifest. *)
Lemma toRelativePaths_ok `{UriParser} {E} h m mv base :
  manifest_view h m mv →
  ∃ h' m', toRelativePaths (E:=E) m base h = (h ++ h', Ok m') ∧
    manifest_view (h ++ h') m' (map_paths (λ p dir, ToRelative p base dir) mv).
Proof.
  intros (gs & Hp & ->). unfold toRelativePaths.
  set (conv := λ p dir, ToRelative p base dir).
  exists (map_group_paths (λ p, conv p kDataPath) <$> gs). eexists. split.
  - rewrite (M_bind_Ok _ _ _ _ _ (copy_manifest_ok h m gs Hp)).
    pose proof (map_group_files_ok (E:=E) conv h (length h) gs [] eq_refl) as Hg.
    rewrite !app_nil_r in Hg. simpl. by rewrite (M_bind_Ok _ _ _ _ _ Hg).
  - exists (map_group_paths (λ p, conv p kDataPath) <$> gs). simpl. split.
    + pose proof (points_fresh h (map_group_paths (λ p, conv p kDataPath) <$> gs) []) as Hf.
      by rewrite app_nil_r, length_fmap in Hf.
    + unfold map_paths, with_groups, map_plain_paths; simpl. f_equal.
      by rewrite <- !list_fmap_compose.
Qed.

(** [ToAbsolutePaths] on a freshly read manifest. *)
Lemma ToAbsolutePaths_ok `{UriParser} {E} h m gs base :
  column_groups_ m = fresh_ptrs (length h) (length gs) →
  ∃ h' m', ToAbsolutePaths (E:=E) m base (h ++ gs) = (h ++ h', Ok m') ∧
    manifest_view (h ++ h') m' (map_paths (λ p dir, ToAbsolute p base dir)
      (with_groups m (Some <$> gs))).
Proof.
  intros Hm. unfold ToAbsolutePaths. set (conv := λ p dir, ToAbsolute p base dir).
  exists (map_group_paths (λ p, conv p kDataPath) <$> gs). eexists. split.
  - pose proof (map_group_files_ok (E:=E) conv h (length h) gs [] eq_refl) as Hg.
    rewrite !app_nil_r in Hg. rewrite Hm. by rewrite (M_bind_Ok _ _ _ _ _ Hg).
  - exists (map_group_paths (λ p, conv p kDataPath) <$> gs). simpl. split.
    + pose proof (points_fresh h (map_group_paths (λ p, conv p kDataPath) <$> gs) []) as Hf.
      rewrite app_nil_r, length_fmap in Hf. by rewrite Hm.
    + unfold map_paths, with_groups, map_plain_paths; simpl. f_equal.
      by rewrite <- !list_fmap_compose.
Qed.

(** ** Properties *)

Section roundtrip.
Context `{UriParser} (base : string).

(** A path the manifest can store: a file below the directory of its kind, or
    an external location that is a URI or an absolute path elsewhere. *)
Definition stored_path_ok (dir p : string) : Prop :=
  (∃ rel, p = in_dir base dir +:+ rel ∧ Layout.file_name rel ∧ has_scheme rel = false) ∨
  (starts_with (in_dir base dir) p = false ∧ (has_scheme p = true ∨ Path.is_absolute p = true)).

Definition manifest_paths_ok (m : Manifest ColumnGroup) : Prop :=
  Forall (λ og, ∀ g : ColumnGroup, og = Some g →
    Forall (λ f, stored_path_ok kDataPath (cgf_path f)) (files g)) (column_groups_ m) ∧
  Forall (λ d, stored_path_ok kDeltaPath (dl_path d)) (delta_logs_ m) ∧
  map_Forall (λ _ st, Forall (stored_path_ok kStatsPath) (paths st)) (stats_ m) ∧
  Forall (λ i, stored_path_ok kIndexPath (idx_path i)) (indexes_ m) ∧
  Forall (λ l, stored_path_ok kLobPath (lob_path l)) (lob_files_ m).

Lemma path_roundtrip dir p : Layout.layout_dir dir → stored_path_ok dir p →
  ToAbsolute (ToRelative p base dir) base dir = p.
Proof.
  intros Hdir Hp. unfold ToRelative. destruct Hp as [(rel & -> & Hf & Hs)|(Hp & Hext)].
  - rewrite starts_with_app, drop_str_app. unfold ToAbsolute. rewrite Hs.
    assert (Path.is_relative rel = true) as ->.
    { destruct Hf as [Hf _]. unfold Path.is_relative. by rewrite Hf. }
    by apply Layout.in_dir_file.
  - rewrite Hp. unfold ToAbsolute, Path.is_relative. destruct (has_scheme p) eqn:Hs; [done|].
    destruct Hext as [?|Ha]; [congruence|]. by rewrite Ha.
Qed.

Lemma map_Forall_id {A} (f : A → A) l : Forall (λ x, f x = x) l → f <$> l = l.
Proof. induction 1; simpl; [done|]. unfold fmap in *. simpl. by f_equal. Qed.

Lemma map_path_list dir l : Layout.layout_dir dir → Forall (stored_path_ok dir) l →
  (λ p, ToAbsolute p base dir) <$> ((λ p, ToRelative p base dir) <$> l) = l.
Proof.
  intros Hd Hl. rewrite <- list_fmap_compose. apply map_Forall_id.
  eapply Forall_impl; [exact Hl|]. intros p Hp. by apply path_roundtrip.
Qed.

Lemma manifest_paths_roundtrip_aux (m : Manifest ColumnGroup) : manifest_paths_ok m →
  map_paths (λ p dir, ToAbsolute p base dir) (map_paths (λ p dir, ToRelative p base dir) m) = m.
Proof.
  pose proof Layout.layout_dirs_ok as Hdirs. rewrite Forall_forall in Hdirs.
  assert (Layout.layout_dir kDataPath ∧ Layout.layout_dir kDeltaPath ∧
    Layout.layout_dir kStatsPath ∧ Layout.layout_dir kIndexPath ∧ Layout.layout_dir kLobPath)
    as (Hda & Hde & Hst & Hix & Hlo) by (split_and!; apply Hdirs; set_solver).
  destruct m as [v cgs dl st ix lo]. intros (Hc & Hd & Hs & Hi & Hl); simpl in *.
  unfold map_paths, map_plain_paths, with_groups; simpl. f_equal.
  - rewrite <- list_fmap_compose. apply map_Forall_id. eapply Forall_impl; [exact Hc|].
    intros [g|] Hg; [|done]. simpl. f_equal. destruct g as [cols fm fs].
    unfold map_group_paths; simpl. f_equal. rewrite <- list_fmap_compose. apply map_Forall_id.
    eapply Forall_impl; [exact (Hg _ eq_refl)|]. intros [p a b pr] Hp.
    unfold map_file_path; simpl. f_equal. by apply path_roundtrip.
  - rewrite <- list_fmap_compose. apply map_Forall_id. eapply Forall_impl; [exact Hd|].
    intros [p t n] Hp. unfold map_delta_path; simpl. f_equal. by apply path_roundtrip.
  - rewrite <- map_fmap_compose. rewrite <- (map_fmap_id st) at 2. apply map_fmap_ext.
    intros k [ps md] Hk. unfold map_stat_paths; simpl. f_equal.
    apply map_path_list; [done|]. exact (Hs k _ Hk).
  - rewrite <- list_fmap_compose. apply map_Forall_id. eapply Forall_impl; [exact Hi|].
    intros [] Hp. unfold map_index_path; simpl in *. f_equal. by apply path_roundtrip.
  - rewrite <- list_fmap_compose. apply map_Forall_id. eapply Forall_impl; [exact Hl|].
    intros [] Hp. unfold map_lob_path; simpl in *. f_equal. by apply path_roundtrip.
Qed.

End roundtrip.
