(* ===== verification/ManifestCodec.v ===== *)
(** * Manifest serialization

    The [codec_traits] specializations, [serialize], [deserialize] and
    [deserializeLegacy] of [manifest.cpp].  Avro itself (the wire encoding of
    primitives, of [std::vector] and [std::map], and the object container
    file) is third-party code: it is the class [Avro], and the behaviour the
    manifest relies on is the class [AvroLaws].  Bytes are strings. *)

From S2P Require Import Prelude CppString Status ColumnGroups Manifest.
From Stdlib Require Import Ascii.

(** ** The Avro interface *)

(** Encoders return the bytes they append, decoders the value and the unread
    input; [None] is a thrown [avro::Exception]. *)
Class Avro := {
  put_string : string → string;
  put_long : Z → string;
  put_int : Z → string;
  put_bytes : string → string;
  put_arrayStart : string;
  put_arrayEnd : string;
  put_mapStart : string;
  put_mapEnd : string;
  put_itemCount : nat → string;
  put_startItem : string;
  get_string : string → option (string * string);
  get_long : string → option (Z * string);
  get_int : string → option (Z * string);
  get_bytes : string → option (string * string);
  get_arrayStart : string → option (nat * string);
  get_arrayNext : string → option (nat * string);
  get_mapStart : string → option (nat * string);
  get_mapNext : string → option (nat * string);
  (* codec_traits<std::vector<T>> and codec_traits<std::map<std::string, T>> *)
  put_vector : ∀ {T}, (T → string) → list T → string;
  get_vector : ∀ {T}, (string → option (T * string)) → string → option (list T * string);
  put_map : ∀ {T}, (T → string) → gmap string T → string;
  get_map : ∀ {T}, (string → option (T * string)) → string → option (gmap string T * string);
  (* DataFileWriter and DataFileReader with the manifest's schema: one record;
     reading is [None] on an exception and [Some None] without a record *)
  ocf_write : string → string;
  ocf_read : string → option (option string);
}.

Definition ocf_magic : string := "Obj" +:+ String (ascii_of_nat 1) "".

Class AvroLaws `{Avro} : Prop := {
  get_put_string s r : get_string (put_string s +:+ r) = Some (s, r);
  get_put_long z r : in_int64 z = true → get_long (put_long z +:+ r) = Some (z, r);
  get_put_int z r : in_int32 z = true → get_int (put_int z +:+ r) = Some (z, r);
  get_put_bytes s r : get_bytes (put_bytes s +:+ r) = Some (s, r);
  startItem_silent : put_startItem = "";
  arrayStart_count n r : (0 < n)%nat →
    get_arrayStart (put_arrayStart +:+ put_itemCount n +:+ r) = Some (n, r);
  arrayStart_empty r : get_arrayStart (put_arrayStart +:+ put_arrayEnd +:+ r) = Some (0%nat, r);
  arrayNext_end r : get_arrayNext (put_arrayEnd +:+ r) = Some (0%nat, r);
  mapStart_count n r : (0 < n)%nat →
    get_mapStart (put_mapStart +:+ put_itemCount n +:+ r) = Some (n, r);
  mapStart_empty r : get_mapStart (put_mapStart +:+ put_mapEnd +:+ r) = Some (0%nat, r);
  mapNext_end r : get_mapNext (put_mapEnd +:+ r) = Some (0%nat, r);
  get_put_vector {T} (e : T → string) d l r :
    Forall (λ x, ∀ r, d (e x +:+ r) = Some (x, r)) l →
    get_vector d (put_vector e l +:+ r) = Some (l, r);
  get_put_map {T} (e : T → string) d m r :
    map_Forall (λ _ x, ∀ r, d (e x +:+ r) = Some (x, r)) m →
    get_map d (put_map e m +:+ r) = Some (m, r);
  ocf_read_write b : ocf_read (ocf_write b) = Some (Some b);
  ocf_write_magic b : starts_with ocf_magic (ocf_write b) = true;
}.

(** ** [codec_traits] *)

Class Codec (T : Type) := mkCodec {
  encode : T → string;
  decode : string → option (T * string);
}.

(** A codec round-trips on the values its C++ type can hold. *)
Class CodecLaws (T : Type) `{Codec T} := {
  codec_ok : T → Prop;
  decode_encode x r : codec_ok x → decode (encode x +:+ r) = Some (x, r);
}.

Section codecs.
Context `{Avro}.

#[export] Instance string_codec : Codec string := mkCodec _ put_string get_string.
Definition long_codec : Codec Z := mkCodec _ put_long get_long.
Definition int_codec : Codec Z := mkCodec _ put_int get_int.
#[export] Instance vector_codec {T} `{Codec T} : Codec (list T) :=
  mkCodec _ (put_vector encode) (get_vector decode).
#[export] Instance map_codec {T} `{Codec T} : Codec (gmap string T) :=
  mkCodec _ (put_map encode) (get_map decode).

(** *** [codec_traits<std::unordered_map<std::string, V>>] *)

Definition put_entry {V} `{Codec V} (kv : string * V) : string :=
  put_startItem +:+ put_string kv.1 +:+ encode kv.2.

Definition concat_str (l : list string) : string := foldr String.app "" l.

(** The iteration order of the map is immaterial; [map_to_list] is one. *)
Definition encode_umap {V} `{Codec V} (m : gmap string V) : string :=
  put_mapStart +:+
  (if decide (m = ∅) then ""
   else put_itemCount (size m) +:+ concat_str (put_entry <$> map_to_list m)) +:+
  put_mapEnd.

(** One block of [n] entries. *)
Fixpoint decode_entries {V} `{Codec V} (n : nat) (m : gmap string V) (s : string) :
    option (gmap string V * string) :=
  match n with
  | O => Some (m, s)
  | S n' => '(key, s) ← get_string s; '(val, s) ← decode s; decode_entries n' (<[key := val]> m) s
  end.

(** The loop over blocks; each [mapNext] reads input, so that the length of
    the input bounds the number of blocks. *)
Fixpoint decode_map_blocks {V} `{Codec V} (fuel n : nat) (m : gmap string V) (s : string) :
    option (gmap string V * string) :=
  match n, fuel with
  | O, _ => Some (m, s)
  | S _, O => None
  | S _, S fuel' =>
      '(m, s) ← decode_entries n m s;
      '(n', s) ← get_mapNext s;
      decode_map_blocks fuel' n' m s
  end.

Definition decode_umap {V} `{Codec V} (s : string) : option (gmap string V * string) :=
  '(n, s') ← get_mapStart s;
  decode_map_blocks (S (String.length s)) n ∅ s'.

(** *** The records *)

#[export] Instance file_codec : Codec ColumnGroupFile := {
  encode f := put_string (cgf_path f) +:+ put_long (start_index f) +:+ put_long (end_index f) +:+
    encode_umap (cgf_properties f);
  decode s :=
    '(path, s) ← get_string s;
    '(start, s) ← get_long s;
    '(end_, s) ← get_long s;
    '(props, s) ← decode_umap s;
    Some (mkFile path start end_ props, s);
}.

#[export] Instance group_codec : Codec ColumnGroup := {
  encode g := encode (columns g) +:+ encode (files g) +:+ put_string (format g);
  decode s :=
    '(columns, s) ← decode s;
    '(files, s) ← decode s;
    '(format, s) ← get_string s;
    Some (mkGroup columns format files, s);
}.

(** A null group is written as an empty one. *)
#[export] Instance group_ptr_codec : Codec (option ColumnGroup) := {
  encode g := match g with Some g => encode g | None => encode empty_group end;
  decode s := '(g, s) ← decode s; Some (Some g, s);
}.

#[export] Instance delta_codec : Codec DeltaLog := {
  encode d := put_string (dl_path d) +:+ put_int (dl_type d) +:+ put_long (num_entries d);
  decode s :=
    '(path, s) ← get_string s;
    '(type_int, s) ← get_int s;
    '(num, s) ← get_long s;
    Some (mkDelta path type_int num, s);
}.

#[export] Instance index_codec : Codec Index := {
  encode i :=
    put_string (column_name i) +:+ put_string (index_name i) +:+ put_string (index_type i) +:+
    put_string (idx_path i) +:+ put_long (idx_field_id i) +:+ put_long (index_id i) +:+
    put_long (build_id i) +:+ put_long (index_version i) +:+ put_long (num_rows i) +:+
    put_long (serialized_size i) +:+ put_long (mem_size i) +:+
    put_int (current_index_version i) +:+ put_int (current_scalar_index_version i) +:+
    put_int (index_store_path_version i) +:+ encode (index_file_keys i) +:+
    encode (idx_properties i);
  decode s :=
    '(column_name, s) ← get_string s;
    '(index_name, s) ← get_string s;
    '(index_type, s) ← get_string s;
    '(path, s) ← get_string s;
    '(field_id, s) ← get_long s;
    '(index_id, s) ← get_long s;
    '(build_id, s) ← get_long s;
    '(index_version, s) ← get_long s;
    '(num_rows, s) ← get_long s;
    '(serialized_size, s) ← get_long s;
    '(mem_size, s) ← get_long s;
    '(current_index_version, s) ← get_int s;
    '(current_scalar_index_version, s) ← get_int s;
    '(index_store_path_version, s) ← get_int s;
    '(keys, s) ← decode s;
    '(props, s) ← decode s;
    Some (mkIndex column_name index_name index_type path field_id index_id build_id
      index_version num_rows serialized_size mem_size current_index_version
      current_scalar_index_version index_store_path_version keys props, s);
}.

#[export] Instance stat_codec : Codec Statistics := {
  encode st := encode (paths st) +:+ encode (metadata st);
  decode s :=
    '(paths, s) ← decode s;
    '(metadata, s) ← decode s;
    Some (mkStat paths metadata, s);
}.

#[export] Instance lob_codec : Codec LobFileInfo := {
  encode l := put_string (lob_path l) +:+ put_long (lob_field_id l) +:+ put_long (total_rows l) +:+
    put_long (valid_rows l) +:+ put_long (file_size_bytes l);
  decode s :=
    '(path, s) ← get_string s;
    '(field_id, s) ← get_long s;
    '(total, s) ← get_long s;
    '(valid, s) ← get_long s;
    '(size, s) ← get_long s;
    Some (mkLob path field_id total valid size, s);
}.

(** The fields after the manifest's own version, which the container file's
    schema replaces. *)
Definition encode_manifest (m : Manifest ColumnGroup) : string :=
  encode (column_groups_ m) +:+ encode (delta_logs_ m) +:+ encode (stats_ m) +:+
  encode (indexes_ m) +:+ encode (lob_files_ m).

Definition decode_manifest (version : Z) (s : string) : option (Manifest ColumnGroup * string) :=
  '(cgs, s) ← decode s;
  '(dls, s) ← decode s;
  '(stats, s) ← decode s;
  '(idxs, s) ← decode s;
  '(lobs, s) ← decode s;
  Some (mkManifest version cgs dls stats idxs lobs, s).

(** ** [serialize] and [deserialize] *)

Definition serialize (m : Manifest ColumnGroup) : Result string :=
  Ok (ocf_write (encode_manifest m)).

Definition MANIFEST_MAGIC : Z := 0x4D494C56.

(** *** [deserializeLegacy]: the array loops of the raw format *)

Fixpoint repeat_decode {T} (d : string → option (T * string)) (n : nat) (s : string) :
    option (list T * string) :=
  match n with
  | O => Some ([], s)
  | S n' => '(x, s) ← d s; '(xs, s) ← repeat_decode d n' s; Some (x :: xs, s)
  end.

Fixpoint decode_array_blocks {T} (d : string → option (T * string)) (fuel n : nat) (s : string) :
    option (list T * string) :=
  match n, fuel with
  | O, _ => Some ([], s)
  | S _, O => None
  | S _, S fuel' =>
      '(xs, s) ← repeat_decode d n s;
      '(n', s) ← get_arrayNext s;
      '(ys, s) ← decode_array_blocks d fuel' n' s;
      Some (xs ++ ys, s)
  end.

Definition decode_array {T} (d : string → option (T * string)) (s : string) :
    option (list T * string) :=
  '(n, s') ← get_arrayStart s;
  decode_array_blocks d (S (String.length s)) n s'.

(** A file entry of the raw format carries metadata bytes, which are skipped. *)
Definition decode_legacy_file (s : string) : option (ColumnGroupFile * string) :=
  '(path, s) ← get_string s;
  '(start, s) ← get_long s;
  '(end_, s) ← get_long s;
  '(unused_bytes, s) ← get_bytes s;
  Some (mkFile path start end_ ∅, s).

Definition decode_legacy_group (s : string) : option (option ColumnGroup * string) :=
  '(columns, s) ← decode s;
  '(files, s) ← decode_array decode_legacy_file s;
  '(format, s) ← get_string s;
  Some (Some (mkGroup columns format files), s).

(** Before version 3 a statistic was a list of paths. *)
Definition decode_legacy_stats (version : Z) (s : string) :
    option (gmap string Statistics * string) :=
  if 3 <=? version then decode s
  else '(legacy_stats, s) ← decode (T := gmap string (list string)) s;
       Some ((λ files, mkStat files ∅) <$> (legacy_stats : gmap string (list string)), s).

Definition deserializeLegacy (s : string) : option (Manifest ColumnGroup) :=
  '(magic, s) ← get_int s;
  if negb (magic =? MANIFEST_MAGIC) then None
  else
    '(version, s) ← get_int s;
    '(cgs, s) ← decode_array decode_legacy_group s;
    '(dls, s) ← decode s;
    '(stats, s) ← decode_legacy_stats version s;
    '(idxs, s) ← (if 6 <=? version then decode s else Some ([], s));
    '(lobs, s) ← (if 5 <=? version then decode s else Some ([], s));
    Some (mkManifest version cgs dls stats idxs lobs).

Definition deserialize (data : string) : Result (Manifest ColumnGroup) :=
  if (String.length data <? 4)%nat then Err status_Invalid
  else if starts_with ocf_magic data then
    match ocf_read data with
    | Some (Some record) =>
        match decode_manifest MANIFEST_VERSION record with
        | Some (m, _) => Ok m
        | None => Err status_Invalid
        end
    | _ => Err status_Invalid
    end
  else match deserializeLegacy data with
       | Some m => Ok m
       | None => Err status_Invalid
       end.

End codecs.

(** ** Codec laws *)

(** Decode the next field: regroup the input and use the law of the field. *)
Ltac decode_field :=
  rewrite ?app_str_assoc;
  first
    [ rewrite get_put_string | rewrite get_put_long by assumption
    | rewrite get_put_int by assumption | rewrite get_put_bytes
    | rewrite decode_encode by assumption ];
  cbn [mbind option_bind].

Section laws.
Context `{AvroLaws}.

#[export] Program Instance string_laws : CodecLaws string := {| codec_ok _ := True |}.
Next Obligation. intros. apply get_put_string. Qed.

#[export] Program Instance vector_laws {T} `{CodecLaws T} : CodecLaws (list T) :=
  {| codec_ok l := Forall codec_ok l |}.
Next Obligation.
  intros T ? ? l r Hl. apply get_put_vector. eapply Forall_impl; [exact Hl|].
  intros. by apply decode_encode.
Qed.

#[export] Program Instance map_laws {T} `{CodecLaws T} : CodecLaws (gmap string T) :=
  {| codec_ok m := map_Forall (λ _ x, codec_ok x) m |}.
Next Obligation.
  intros T ? ? m r Hm. apply get_put_map. eapply map_Forall_impl; [exact Hm|].
  intros. by apply decode_encode.
Qed.

Lemma concat_str_cons x l : concat_str (x :: l) = x +:+ concat_str l.
Proof. done. Qed.

Lemma decode_entries_ok {V} `{CodecLaws V} (l : list (string * V)) m r :
  Forall (λ kv, codec_ok kv.2) l →
  decode_entries (length l) m (concat_str (put_entry <$> l) +:+ r) =
    Some (foldl (λ m kv, <[kv.1 := kv.2]> m) m l, r).
Proof.
  intros Hl. revert m. induction Hl as [|[k v] l Hv Hl IH]; intros m; [done|].
  cbn [length fmap list_fmap decode_entries]. rewrite concat_str_cons. unfold put_entry at 1.
  rewrite startItem_silent, app_str_nil_l. cbn [fst snd] in *. do 2 decode_field. apply IH.
Qed.

Lemma foldl_insert_list_to_map {V} (l : list (string * V)) (m : gmap string V) :
  NoDup l.*1 → (∀ k, k ∈ l.*1 → m !! k = None) →
  foldl (λ m kv, <[kv.1 := kv.2]> m) m l = list_to_map l ∪ m.
Proof.
  revert m. induction l as [|[k v] l IH]; intros m Hnd Hm; simpl.
  - by rewrite (left_id_L ∅ (∪)).
  - apply NoDup_cons in Hnd as [Hk Hnd]. rewrite IH; [|done|].
    + rewrite <- insert_union_r; [by rewrite insert_union_l|].
      by apply not_elem_of_list_to_map_1.
    + intros k' Hk'. rewrite lookup_insert_ne by (intros ->; done).
      apply Hm. by right.
Qed.

Lemma decode_umap_ok {V} `{CodecLaws V} (m : gmap string V) r :
  map_Forall (λ _ x, codec_ok x) m → decode_umap (encode_umap m +:+ r) = Some (m, r).
Proof.
  intros Hm. unfold encode_umap, decode_umap. case_decide as He; rewrite ?app_str_assoc.
  - subst. rewrite app_str_nil_l, mapStart_empty. done.
  - rewrite mapStart_count.
    2:{ destruct (size m) eqn:Hs; [by apply map_size_empty_inv in Hs|lia]. }
    cbn [mbind option_bind].
    assert (size m = length (map_to_list m)) as Hsz by (symmetry; apply length_map_to_list).
    destruct (size m) as [|n] eqn:Hn; [by apply map_size_empty_inv in Hn|].
    cbn [decode_map_blocks]. rewrite Hsz.
    rewrite decode_entries_ok.
    2:{ apply Forall_forall. intros [k v] Hkv%elem_of_map_to_list. exact (Hm k v Hkv). }
    cbn [mbind option_bind]. rewrite mapNext_end. cbn [mbind option_bind].
    rewrite foldl_insert_list_to_map by
      (try apply NoDup_fst_map_to_list; intros; apply lookup_empty).
    rewrite (right_id_L ∅ (∪)), list_to_map_to_list. by destruct (String.length _).
Qed.

#[export] Program Instance file_laws : CodecLaws ColumnGroupFile :=
  {| codec_ok f := in_int64 (start_index f) = true ∧ in_int64 (end_index f) = true |}.
Next Obligation.
  intros [p a b pr] r [Ha Hb]. cbn [encode decode file_codec cgf_path start_index end_index
    cgf_properties] in *. do 3 decode_field.
  rewrite decode_umap_ok; [done|]. by intros k v _.
Qed.

#[export] Program Instance group_laws : CodecLaws ColumnGroup :=
  {| codec_ok g := Forall codec_ok (files g) |}.
Next Obligation.
  intros [cs fm fs] r Hf. cbn [encode decode group_codec columns files format] in *.
  rewrite !app_str_assoc.
  pose proof (decode_encode (T:=list string) cs) as Hc. cbn [encode decode] in Hc. rewrite Hc.
  2:{ by apply Forall_true. }
  cbn [mbind option_bind]. pose proof (decode_encode (T:=list ColumnGroupFile) fs) as Hfs.
  cbn [encode decode] in Hfs. rewrite Hfs by done. cbn [mbind option_bind].
  by rewrite get_put_string.
Qed.

#[export] Program Instance group_ptr_laws : CodecLaws (option ColumnGroup) :=
  {| codec_ok p := ∃ g, p = Some g ∧ codec_ok g |}.
Next Obligation.
  intros p r (g & -> & Hg). cbn [encode decode group_ptr_codec].
  pose proof (decode_encode g r Hg) as Hd. by rewrite Hd.
Qed.

#[export] Program Instance delta_laws : CodecLaws DeltaLog :=
  {| codec_ok d := in_int32 (dl_type d) = true ∧ in_int64 (num_entries d) = true |}.
Next Obligation.
  intros [p t n] r [Ht Hn]. cbn [encode decode delta_codec dl_path dl_type num_entries] in *.
  by do 3 decode_field.
Qed.

#[export] Program Instance stat_laws : CodecLaws Statistics := {| codec_ok _ := True |}.
Next Obligation.
  intros [ps md] r _. cbn [encode decode stat_codec paths metadata]. rewrite app_str_assoc.
  pose proof (decode_encode (T:=list string) ps) as Hp. cbn [encode decode] in Hp.
  rewrite Hp by by apply Forall_true. cbn [mbind option_bind].
  pose proof (decode_encode (T:=gmap string string) md) as Hm. cbn [encode decode] in Hm.
  by rewrite Hm by by intros ???.
Qed.

#[export] Program Instance lob_laws : CodecLaws LobFileInfo :=
  {| codec_ok l := in_int64 (lob_field_id l) = true ∧ in_int64 (total_rows l) = true ∧
       in_int64 (valid_rows l) = true ∧ in_int64 (file_size_bytes l) = true |}.
Next Obligation.
  intros [p a b c d] r (? & ? & ? & ?). cbn [encode decode lob_codec lob_path lob_field_id
    total_rows valid_rows file_size_bytes] in *. by do 5 decode_field.
Qed.

#[export] Program Instance index_laws : CodecLaws Index :=
  {| codec_ok i := Forall (λ z, in_int64 z = true) [idx_field_id i; index_id i; build_id i;
         index_version i; num_rows i; serialized_size i; mem_size i] ∧
       Forall (λ z, in_int32 z = true) [current_index_version i;
         current_scalar_index_version i; index_store_path_version i] |}.
Next Obligation.
  intros [x1 x2 x3 x4 x5 x6 x7 x8 x9 x10 x11 x12 x13 x14 keys props] r [Hl Hi]. cbn in Hl, Hi.
  repeat match goal with HF : Forall _ (_ :: _) |- _ => apply Forall_cons in HF as [? HF] end.
  cbn [encode decode index_codec column_name index_name index_type idx_path idx_field_id index_id
    build_id index_version num_rows serialized_size mem_size current_index_version
    current_scalar_index_version index_store_path_version index_file_keys idx_properties].
  do 14 decode_field. rewrite ?app_str_assoc.
  pose proof (decode_encode (T:=list string) keys) as Hp. cbn [encode decode] in Hp.
  rewrite Hp by by apply Forall_true. cbn [mbind option_bind].
  pose proof (decode_encode (T:=gmap string string) props) as Hm.
  cbn [encode decode] in Hm. by rewrite Hm by by intros ???.
Qed.

(** The integers of the manifest fit their C++ types and no group is null. *)
Definition manifest_codec_ok (m : Manifest ColumnGroup) : Prop :=
  codec_ok (column_groups_ m) ∧ codec_ok (delta_logs_ m) ∧ codec_ok (stats_ m) ∧
  codec_ok (indexes_ m) ∧ codec_ok (lob_files_ m).

Lemma decode_encode_manifest v m r : manifest_codec_ok m →
  decode_manifest v (encode_manifest m +:+ r) =
    Some (mkManifest v (column_groups_ m) (delta_logs_ m) (stats_ m) (indexes_ m) (lob_files_ m), r).
Proof.
  intros (Hc & Hd & Hs & Hi & Hl). unfold decode_manifest, encode_manifest. by do 5 decode_field.
Qed.

Lemma ocf_write_length b : (4 ≤ String.length (ocf_write b))%nat.
Proof.
  pose proof (ocf_write_magic b) as Hm. apply starts_with_inv in Hm as [t ->].
  rewrite length_app_str. simpl. lia.
Qed.

Lemma serialize_deserialize_aux m : manifest_codec_ok m →
  ∃ data, serialize m = Ok data ∧
    deserialize data = Ok (mkManifest MANIFEST_VERSION (column_groups_ m) (delta_logs_ m)
      (stats_ m) (indexes_ m) (lob_files_ m)).
Proof.
  intros Hm. exists (ocf_write (encode_manifest m)). split; [done|]. unfold deserialize.
  pose proof (ocf_write_length (encode_manifest m)) as Hl.
  replace (String.length (ocf_write (encode_manifest m)) <? 4)%nat with false
    by (symmetry; apply Nat.ltb_ge; lia).
  rewrite ocf_write_magic, ocf_read_write.
  pose proof (decode_encode_manifest MANIFEST_VERSION m "" Hm) as Hd.
  rewrite app_str_nil_r in Hd. by rewrite Hd.
Qed.
End laws.

(** ** The raw format of older manifests

    What the writers of the raw format produced, to state what
    [deserializeLegacy] accepts: a manifest of format version [v] whose file
    entries carry the metadata bytes [meta]. *)
Section legacy.
Context `{AvroLaws}.

Definition legacy_array {T} (e : T → string) (l : list T) : string :=
  put_arrayStart +:+
  (if decide (length l = 0%nat) then ""
   else put_itemCount (length l) +:+ concat_str ((λ x, put_startItem +:+ e x) <$> l)) +:+
  put_arrayEnd.

Definition legacy_file (meta : string) (f : ColumnGroupFile) : string :=
  put_string (cgf_path f) +:+ put_long (start_index f) +:+ put_long (end_index f) +:+ put_bytes meta.

Definition legacy_group (meta : string) (g : ColumnGroup) : string :=
  encode (columns g) +:+ legacy_array (legacy_file meta) (files g) +:+ put_string (format g).

Definition legacy_encode (v : Z) (meta : string) (gs : list ColumnGroup)
    (m : Manifest ColumnGroup) : string :=
  put_int MANIFEST_MAGIC +:+ put_int v +:+ legacy_array (legacy_group meta) gs +:+
  encode (delta_logs_ m) +:+
  (if 3 <=? v then encode (stats_ m) else encode (paths <$> stats_ m)) +:+
  (if 6 <=? v then encode (indexes_ m) else "") +:+
  (if 5 <=? v then encode (lob_files_ m) else "").

(** What a reader of today's format makes of it. *)
Definition legacy_upgrade (v : Z) (gs : list ColumnGroup) (m : Manifest ColumnGroup) :
    Manifest ColumnGroup :=
  mkManifest v
    ((λ g, Some (mkGroup (columns g) (format g)
       ((λ f, mkFile (cgf_path f) (start_index f) (end_index f) ∅) <$> files g))) <$> gs)
    (delta_logs_ m)
    (if 3 <=? v then stats_ m else (λ st, mkStat (paths st) ∅) <$> stats_ m)
    (if 6 <=? v then indexes_ m else [])
    (if 5 <=? v then lob_files_ m else []).

Lemma repeat_decode_ok {T U} (e : T → string) (d : string → option (U * string)) (f : T → U) l r :
  Forall (λ x, ∀ r, d (e x +:+ r) = Some (f x, r)) l →
  repeat_decode d (length l) (concat_str ((λ x, put_startItem +:+ e x) <$> l) +:+ r) =
    Some (f <$> l, r).
Proof.
  rewrite startItem_silent. induction 1 as [|x l Hx Hl IH]; [done|].
  rewrite !fmap_cons, concat_str_cons, app_str_nil_l, app_str_assoc.
  cbn [length repeat_decode]. rewrite Hx. cbn [mbind option_bind]. by rewrite IH.
Qed.

Lemma legacy_array_ok {T U} (e : T → string) (d : string → option (U * string)) (f : T → U) l r :
  Forall (λ x, ∀ r, d (e x +:+ r) = Some (f x, r)) l →
  decode_array d (legacy_array e l +:+ r) = Some (f <$> l, r).
Proof.
  intros Hl. unfold legacy_array, decode_array. case_decide as He; rewrite ?app_str_assoc.
  - destruct l; [|done]. rewrite app_str_nil_l, arrayStart_empty. done.
  - rewrite arrayStart_count by lia. cbn [mbind option_bind].
    destruct (length l) as [|n] eqn:Hn; [done|]. cbn [decode_array_blocks]. rewrite <- Hn.
    rewrite (repeat_decode_ok _ _ f) by done. cbn [mbind option_bind].
    rewrite arrayNext_end. cbn [mbind option_bind].
    destruct (String.length _); cbn; by rewrite app_nil_r.
Qed.

Lemma deserializeLegacy_ok v meta gs m r :
  in_int32 v = true → Forall codec_ok gs → codec_ok (delta_logs_ m) →
  codec_ok (indexes_ m) → codec_ok (lob_files_ m) →
  deserializeLegacy (legacy_encode v meta gs m +:+ r) = Some (legacy_upgrade v gs m).
Proof.
  intros Hv Hgs Hd Hi Hl. assert (in_int32 MANIFEST_MAGIC = true) as Hmagic by done.
  unfold deserializeLegacy, legacy_encode. decode_field. cbn [negb].
  replace (MANIFEST_MAGIC =? MANIFEST_MAGIC) with true by done. cbn [negb]. decode_field.
  rewrite ?app_str_assoc.
  rewrite (legacy_array_ok _ _ (λ g, Some (mkGroup (columns g) (format g)
       ((λ f, mkFile (cgf_path f) (start_index f) (end_index f) ∅) <$> files g)))).
  2:{ eapply Forall_impl; [exact Hgs|]. intros g Hg r'. unfold decode_legacy_group, legacy_group.
      assert (codec_ok (columns g)) as Hc by by apply Forall_true.
      decode_field. rewrite ?app_str_assoc.
      rewrite (legacy_array_ok _ _ (λ f, mkFile (cgf_path f) (start_index f) (end_index f) ∅)).
      2:{ eapply Forall_impl; [exact Hg|]. intros f [Ha Hb] r''.
          unfold decode_legacy_file, legacy_file. by do 4 decode_field. }
      cbn [mbind option_bind]. by decode_field. }
  cbn [mbind option_bind]. decode_field. unfold decode_legacy_stats, legacy_upgrade.
  assert (codec_ok (stats_ m)) as Hs by by intros ???.
  assert (codec_ok (paths <$> stats_ m)) as Hp by (intros k x _; by apply Forall_true).
  assert (∀ st r, (if 3 <=? v then decode ((if 3 <=? v then encode (stats_ m) else st) +:+ r)
    else None) = if 3 <=? v then Some (stats_ m, r) else None) as Hst3.
  { intros st r'. destruct (3 <=? v); [|done]. by rewrite decode_encode. }
  destruct (3 <=? v) eqn:H3.
  - decode_field. destruct (6 <=? v) eqn:H6; [decode_field|rewrite app_str_nil_l; cbn [mbind option_bind]];
      (destruct (5 <=? v) eqn:H5; [by decode_field|done]).
  - decode_field. rewrite <- map_fmap_compose.
    destruct (6 <=? v) eqn:H6; [lia|]. destruct (5 <=? v) eqn:H5; [lia|]. done.
Qed.
End legacy.

(** ** A concrete wire format that satisfies the laws *)
Module ToyAvro.

Definition put_num (z : Z) : string := to_string z +:+ ";".
Definition get_num (s : string) : option (Z * string) :=
  let '(neg, body) := minus_of (-1) s in
  let '(d, r) := scan_digits body in
  match r with
  | String ";" r' => Some (if (neg : bool) then - dec_value 0 d else dec_value 0 d, r')
  | _ => None
  end.
Definition put_text (s : string) : string := put_num (Z.of_nat (String.length s)) +:+ s.
Definition get_text (s : string) : option (string * string) :=
  '(n, r) ← get_num s; Some (take_str (Z.to_nat n) r, drop_str (Z.to_nat n) r).
Definition get_count (s : string) : option (nat * string) :=
  '(n, r) ← get_num s; Some (Z.to_nat n, r).
Definition put_list {T} (e : T → string) (l : list T) : string :=
  String "[" (foldr (λ x r, String "," (e x +:+ r)) "]" l).
(** Items are read while a comma announces one. *)
Fixpoint get_items {T} (d : string → option (T * string)) (fuel : nat) (s : string) :
    option (list T * string) :=
  match fuel, s with
  | S f, String "," s' => '(x, r) ← d s'; '(xs, r) ← get_items d f r; Some (x :: xs, r)
  | _, String "]" s' => Some ([], s')
  | _, _ => None
  end.
Definition get_list {T} (d : string → option (T * string)) (s : string) :
    option (list T * string) :=
  match s with String "[" s' => get_items d (String.length s') s' | _ => None end.

#[export] Instance avro : Avro := {
  put_string := put_text; put_long := put_num; put_int := put_num; put_bytes := put_text;
  put_arrayStart := ""; put_arrayEnd := put_num 0; put_mapStart := ""; put_mapEnd := put_num 0;
  put_itemCount n := put_num (Z.of_nat n); put_startItem := "";
  get_string := get_text; get_long := get_num; get_int := get_num; get_bytes := get_text;
  get_arrayStart := get_count; get_arrayNext := get_count;
  get_mapStart := get_count; get_mapNext := get_count;
  put_vector T e l := put_list e l;
  get_vector T d s := get_list d s;
  put_map T e m := put_list (λ kv : string * T, put_text kv.1 +:+ e kv.2) (map_to_list m);
  get_map T d s :=
    '(l, r) ← get_list (λ s, '(k, s) ← get_text s; '(v, s) ← d s; Some ((k, v), s)) s;
    Some (list_to_map l, r);
  ocf_write b := ocf_magic +:+ b;
  ocf_read s := Some (Some (drop_str 4 s));
}.

Lemma get_put_num z r : get_num (put_num z +:+ r) = Some (z, r).
Proof.
  unfold get_num, put_num. rewrite app_str_assoc.
  destruct (to_string_shape z) as (d & Hd & He & Hv & ->).
  change (";" +:+ r) with (String ";" r). destruct (Z.ltb_spec z 0).
  - rewrite app_str_cons. cbn [minus_of]. change (-1 <? 0) with true. cbn match.
    rewrite scan_digits_app, Hv by done. do 2 f_equal. lia.
  - rewrite (proj1 (digits_no_sign d (String ";" r) (-1) Hd He)).
    rewrite scan_digits_app, Hv by done. do 2 f_equal. lia.
Qed.

Lemma get_put_text s r : get_text (put_text s +:+ r) = Some (s, r).
Proof.
  unfold get_text, put_text. rewrite app_str_assoc, get_put_num. cbn [mbind option_bind].
  by rewrite Nat2Z.id, take_str_app, drop_str_app.
Qed.

Lemma get_put_count (n : nat) r : get_count (put_num (Z.of_nat n) +:+ r) = Some (n, r).
Proof. unfold get_count. rewrite get_put_num. cbn. by rewrite Nat2Z.id. Qed.

Lemma get_put_list {T} (e : T → string) d l r :
  Forall (λ x, ∀ r, d (e x +:+ r) = Some (x, r)) l →
  get_list d (put_list e l +:+ r) = Some (l, r).
Proof.
  intros Hl. unfold get_list, put_list. rewrite app_str_cons. cbn match.
  assert (∀ fuel, (length l ≤ fuel)%nat →
    get_items d fuel (foldr (λ x r, String "," (e x +:+ r)) "]" l +:+ r) = Some (l, r)) as Hit.
  { induction Hl as [|x l Hx Hl IH]; intros fuel Hf; cbn [foldr].
    - change ("]" +:+ r) with (String "]" r). by destruct fuel.
    - destruct fuel as [|fuel]; [simpl in Hf; lia|]. rewrite app_str_cons, app_str_assoc.
      cbn [get_items]. rewrite Hx. cbn [mbind option_bind]. rewrite IH by (simpl in Hf; lia). done. }
  apply Hit. rewrite length_app_str. clear. induction l as [|x l IH]; cbn [foldr length]; [lia|].
  cbn [String.length]. rewrite length_app_str. lia.
Qed.

#[export] Instance avro_laws : AvroLaws.
Proof.
  split; intros; cbn [avro put_string put_long put_int put_bytes put_arrayStart put_arrayEnd
    put_mapStart put_mapEnd put_itemCount put_startItem get_string get_long get_int get_bytes
    get_arrayStart get_arrayNext get_mapStart get_mapNext put_vector get_vector put_map get_map
    ocf_write ocf_read]; rewrite ?app_str_nil_l;
    auto using get_put_text, get_put_num, get_put_count, get_put_list, (get_put_count 0).
  rewrite get_put_list.
  { cbn. by rewrite list_to_map_to_list. }
  apply Forall_forall. intros [k v] Hkv%elem_of_map_to_list r'. cbn [fst snd].
  rewrite app_str_assoc, get_put_text. cbn [mbind option_bind].
  match goal with HF : map_Forall _ _ |- _ => by rewrite (HF k v Hkv) end.
Qed.

End ToyAvro.

(** ** Properties *)

(** C33: [deserialize] inverts [serialize].  For every manifest whose integers
    fit their C++ types and which has no null group, [serialize] succeeds and
    [deserialize] of its bytes succeeds with the same column groups, delta
    logs, statistics, indexes and lob files, at the current format version. *)
Theorem serialize_deserialize `{AvroLaws} (m : Manifest ColumnGroup) :
  manifest_codec_ok m →
  ∃ data, serialize m = Ok data ∧
    deserialize data = Ok (mkManifest MANIFEST_VERSION (column_groups_ m) (delta_logs_ m)
      (stats_ m) (indexes_ m) (lob_files_ m)).
Proof. apply serialize_deserialize_aux. Qed.

Definition sample_manifest : Manifest ColumnGroup :=
  mkManifest 2
    [Some (mkGroup ["id"; "vec"] "parquet"
       [mkFile "0_a.parquet" 0 100 {[ "file_size" := "4096"; "footer_size" := "64" ]}])]
    [mkDelta "d1" PRIMARY_KEY 3]
    {[ "bm25.101" := mkStat ["s1"; "s2"] {[ "k" := "v" ]} ]}
    [mkIndex "vec" "idx" "hnsw" "i1" 101 7 1 1 100 10 20 1 1 1 ["f1"] {[ "M" := "16" ]}]
    [mkLob "l1" 102 10 9 1000].

Lemma serialize_deserialize_witness :
  @manifest_codec_ok ToyAvro.avro ToyAvro.avro_laws sample_manifest ∧
  ∃ data, @serialize ToyAvro.avro sample_manifest = Ok data ∧
    @deserialize ToyAvro.avro data = Ok (mkManifest MANIFEST_VERSION
      (column_groups_ sample_manifest) (delta_logs_ sample_manifest) (stats_ sample_manifest)
      (indexes_ sample_manifest) (lob_files_ sample_manifest)).
Proof.
  assert (@manifest_codec_ok ToyAvro.avro ToyAvro.avro_laws sample_manifest) as Hok.
  { repeat split; try (intros ? ? _; exact I); repeat constructor.
    eexists; split; [reflexivity|]. repeat constructor. }
  split; [exact Hok|].
  exact (@serialize_deserialize ToyAvro.avro ToyAvro.avro_laws sample_manifest Hok).
Defined.

(** manifests in the raw format of earlier releases are still readable.
    For every format version, a raw manifest of that version deserializes to
    the manifest it stood for: file entries lose their opaque metadata and get
    no properties, statistics of versions before 3 become path lists without
    metadata, indexes are only read from version 6 on and lob files from
    version 5 on; the format version is kept. *)
Theorem legacy_manifest_upgrade `{AvroLaws} (v : Z) (meta : string) (gs : list ColumnGroup)
    (m : Manifest ColumnGroup) :
  in_int32 v = true → Forall codec_ok gs → codec_ok (delta_logs_ m) →
  codec_ok (indexes_ m) → codec_ok (lob_files_ m) →
  (4 ≤ String.length (legacy_encode v meta gs m))%nat →
  starts_with ocf_magic (legacy_encode v meta gs m) = false →
  deserialize (legacy_encode v meta gs m) = Ok (legacy_upgrade v gs m).
Proof.
  intros Hv Hg Hd Hi Hl Hlen Hmagic. unfold deserialize. rewrite Hmagic.
  replace (String.length (legacy_encode v meta gs m) <? 4)%nat with false
    by (symmetry; apply Nat.ltb_ge; lia).
  pose proof (deserializeLegacy_ok v meta gs m "" Hv Hg Hd Hi Hl) as Hok.
  rewrite app_str_nil_r in Hok. by rewrite Hok.
Qed.

Lemma legacy_manifest_upgrade_witness :
  (4 ≤ String.length (@legacy_encode ToyAvro.avro 2 "meta" [mkGroup ["a"] "parquet"
     [mkFile "f" 0 5 ∅]] sample_manifest))%nat ∧
  @deserialize ToyAvro.avro (@legacy_encode ToyAvro.avro 2 "meta" [mkGroup ["a"] "parquet"
     [mkFile "f" 0 5 ∅]] sample_manifest) =
    Ok (legacy_upgrade 2 [mkGroup ["a"] "parquet" [mkFile "f" 0 5 ∅]] sample_manifest).
Proof.
  split; [vm_compute; lia|].
  apply (@legacy_manifest_upgrade ToyAvro.avro ToyAvro.avro_laws).
  - reflexivity.
  - repeat constructor.
  - repeat constructor.
  - repeat constructor.
  - repeat constructor.
  - vm_compute; lia.
  - vm_compute. reflexivity.
Defined.
