(* ===== verification/FileSystem.v ===== *)
(** * The filesystem interface

    The operations of [arrow::fs::FileSystem] and of [UploadConditional]
    ([filesystem/upload_conditional.h]) that manifests and transactions call.
    The implementations are third-party or remote services: the class
    [FileSystem] holds the operations, the class [FsLaws] what the code relies
    on.  The state type covers everything the service keeps, so that the
    effect of other clients between two calls is part of a call's effect. *)

From S2P Require Import Prelude CppString Status Paths.

Inductive FileType := NotFound | UnknownFile | RegularFile | Directory.

#[global] Instance FileType_eq_dec : EqDecision FileType.
Proof. solve_decision. Defined.

Class FileSystem (S : Type) := {
  stream : Type;
  fs_type_name : string;
  fs_subtree_base : option string;     (* dynamic_cast<SubTreeFileSystem*>, base_path() *)
  fs_conditional : bool;               (* dynamic_pointer_cast<UploadConditional> *)
  GetFileInfo : string → M S Status FileType;
  GetFileInfo_selector : string → M S Status (list string);  (* base names, not recursive *)
  OpenInputFile : string → M S Status stream;
  GetSize : stream → M S Status Z;
  Read : stream → Z → M S Status string;   (* the bytes read, at most as many as asked *)
  CloseInput : stream → M S Status unit;
  CreateDir : string → M S Status unit;
  OpenOutputStream : string → M S Status stream;
  OpenConditionalOutputStream : string → M S Status stream;
  Write : stream → string → M S Status unit;
  CloseOutput : stream → M S Status unit;
}.

Definition IsLocalFileSystem {S} `{FileSystem S} : bool := bool_decide (fs_type_name = "local").

(** At some moment between the two stores the file did not exist and was
    created with these bytes. *)
Definition created (before : gmap string string) (p d : string) (after : gmap string string) :
    Prop :=
  ∃ at_ : gmap string string, before ⊆ at_ ∧ at_ !! p = None ∧ <[p := d]> at_ ⊆ after.

(** ** What the code relies on

    [fs_files] is the content of the store.  Other clients may act between any
    two calls; they add files but neither remove nor replace one, which is the
    discipline of a manifest directory. *)
Class FsLaws (S : Type) `{FileSystem S} := {
  fs_files : S → gmap string string;
  (* no call removes or replaces a file *)
  info_mono p s s' r : GetFileInfo p s = (s', r) → fs_files s ⊆ fs_files s';
  list_mono p s s' r : GetFileInfo_selector p s = (s', r) → fs_files s ⊆ fs_files s';
  openin_mono p s s' r : OpenInputFile p s = (s', r) → fs_files s ⊆ fs_files s';
  size_mono h s s' r : GetSize h s = (s', r) → fs_files s ⊆ fs_files s';
  read_mono h n s s' r : Read h n s = (s', r) → fs_files s ⊆ fs_files s';
  closein_mono h s s' r : CloseInput h s = (s', r) → fs_files s ⊆ fs_files s';
  mkdir_mono p s s' r : CreateDir p s = (s', r) → fs_files s ⊆ fs_files s';
  opencond_mono p s s' r :
    OpenConditionalOutputStream p s = (s', r) → fs_files s ⊆ fs_files s';
  write_mono h d s s' r : Write h d s = (s', r) → fs_files s ⊆ fs_files s';
  closeout_mono h s s' r : CloseOutput h s = (s', r) → fs_files s ⊆ fs_files s';
  (* a directory that is not found holds no file; a listing has every file *)
  info_notfound d s s' : GetFileInfo d s = (s', Ok NotFound) →
    ∃ s0, fs_files s ⊆ fs_files s0 ∧ fs_files s0 ⊆ fs_files s' ∧
      ∀ name, fs_files s0 !! (d +:+ name) = None;
  list_spec d s s' names : GetFileInfo_selector d s = (s', Ok names) →
    ∃ s0, fs_files s ⊆ fs_files s0 ∧ fs_files s0 ⊆ fs_files s' ∧
      ∀ name, mem_char kSep name = false →
        name ∈ names ↔ is_Some (fs_files s0 !! (d +:+ name));
  (* reading a whole file *)
  read_spec p s s1 h s2 n s3 d s4 : OpenInputFile p s = (s1, Ok h) → GetSize h s1 = (s2, Ok n) →
    Read h n s2 = (s3, Ok d) → Z.of_nat (String.length d) = n → CloseInput h s3 = (s4, Ok tt) →
    fs_files s4 !! p = Some d;
  (* a conditional write that succeeds created the file *)
  fs_conditional_yes : fs_conditional = true;
  opencond_implemented p s s' st :
    OpenConditionalOutputStream p s = (s', Err st) → st_code st ≠ NotImplemented;
  cond_write_spec p d s s1 h s2 s3 : OpenConditionalOutputStream p s = (s1, Ok h) →
    Write h d s1 = (s2, Ok tt) → CloseOutput h s2 = (s3, Ok tt) →
    created (fs_files s) p d (fs_files s3);
}.

(** ** A filesystem in memory

    A concrete instance of the interface that satisfies the laws.  Other
    clients are a script: before each listing and before each opening of a
    conditional output stream the next batch of their files is added, never
    over an existing file. *)
Module MemFs.

Record State := mkState {
  mem : gmap string string;
  script : list (gmap string string);
}.

Definition others (s : State) : State :=
  match script s with
  | [] => s
  | b :: bs => mkState (mem s ∪ b) bs
  end.

Definition conflict : Status := MakeExtendError AwsErrorPreConditionFailed.

(** The names of the files below a directory path that ends with a separator. *)
Definition list_dir (d : string) (m : gmap string string) : list string :=
  omap (λ kv : string * string,
    if starts_with d kv.1 then Some (drop_str (String.length d) kv.1) else None) (map_to_list m).

(** A stream is the path it was opened for. *)
#[export] Instance memfs : FileSystem State := {
  stream := string;
  fs_type_name := "mem";
  fs_subtree_base := Some "root";
  fs_conditional := true;
  GetFileInfo p s := (s, Ok (if decide (mem s !! p = None ∧ list_dir p (mem s) = [])
                             then NotFound else RegularFile));
  GetFileInfo_selector d s := let s := others s in (s, Ok (list_dir d (mem s)));
  OpenInputFile p s := (s, match mem s !! p with Some _ => Ok p | None => Err status_IOError end);
  GetSize h s := (s, match mem s !! h with
                     | Some d => Ok (Z.of_nat (String.length d)) | None => Err status_IOError end);
  Read h n s := (s, match mem s !! h with Some d => Ok d | None => Err status_IOError end);
  CloseInput _ s := (s, Ok tt);
  CreateDir _ s := (s, Ok tt);
  OpenOutputStream p s := (s, Ok p);
  OpenConditionalOutputStream p s :=
    let s := others s in
    (s, match mem s !! p with Some _ => Err conflict | None => Ok p end);
  Write h d s :=
    match mem s !! h with
    | Some _ => (s, Err conflict)
    | None => (mkState (<[h := d]> (mem s)) (script s), Ok tt)
    end;
  CloseOutput _ s := (s, Ok tt);
}.

Lemma others_mono s : mem s ⊆ mem (others s).
Proof. unfold others. destruct (script s); simpl; [done|]. apply map_union_subseteq_l. Qed.

Lemma elem_of_list_dir d m name :
  name ∈ list_dir d m ↔ is_Some (m !! (d +:+ name)).
Proof.
  unfold list_dir. rewrite list_elem_of_omap. split.
  - intros ([k v] & Hk%elem_of_map_to_list & Hn). simpl in Hn.
    destruct (starts_with d k) eqn:Hd; [|done]. apply starts_with_inv in Hd as [t ->].
    rewrite drop_str_app in Hn. injection Hn as <-. by eexists.
  - intros [v Hv]. exists (d +:+ name, v). split; [by apply elem_of_map_to_list|].
    simpl. by rewrite starts_with_app, drop_str_app.
Qed.

#[export] Instance memfs_laws : FsLaws State.
Proof.
  unshelve esplit; [exact mem|..]; simpl; intros;
    repeat (simplify_eq; match goal with
    | H : context [match mem ?s !! ?p with _ => _ end] |- _ => destruct (mem s !! p) eqn:?
    | H : context [if decide ?P then _ else _] |- _ => destruct (decide P)
    end); simplify_eq; try done; try apply others_mono.
  - simpl. by apply insert_subseteq.
  - exists s'. split_and!; [done|done|]. destruct a as [_ Hl]. intros name.
    apply eq_None_not_Some. rewrite <- elem_of_list_dir, Hl. apply not_elem_of_nil.
  - eexists. split_and!; [apply others_mono|reflexivity|]. intros name _.
    apply elem_of_list_dir.
  - exists (mem (others s)). split_and!; [apply others_mono|done|done].
Defined.

End MemFs.
