(* ===== verification/ManifestIO.v ===== *)
(** * Reading and writing manifest files

    [Manifest::ReadFrom], [Manifest::WriteTo] and the process-wide manifest
    cache ([manifest.cpp]).  The world of these operations is the heap of
    column groups, the cache and the filesystem. *)

From S2P Require Import Prelude CppString Status Paths LruCache StorageUri ColumnGroups Manifest ManifestCodec FileSystem.

Section io.
Context {S : Type} {FS : FileSystem S} {UP : UriParser} {AV : Avro}.

Record World := mkWorld {
  w_heap : Heap;
  w_cache : LRUCache string (Manifest loc);
  w_fs : S;
}.

(** Run an operation of one part of the world. *)
Definition on_heap {A} (m : M Heap Status A) : M World Status A := λ w,
  let '(h, r) := m (w_heap w) in (mkWorld h (w_cache w) (w_fs w), r).
Definition on_fs {A} (m : M S Status A) : M World Status A := λ w,
  let '(s, r) := m (w_fs w) in (mkWorld (w_heap w) (w_cache w) s, r).

(** ** The manifest cache *)

Definition kManifestCacheCapacity : nat := 1024.

(** The function-local static of [getCache]. *)
Definition getCache : LRUCache string (Manifest loc) := LRU_new kManifestCacheCapacity.

Definition cache_get (k : string) : M World Status (option (Manifest loc)) := λ w,
  let '(c, r) := LruCache.get k (w_cache w) in (mkWorld (w_heap w) c (w_fs w), Ok r).

Definition cache_put (k : string) (m : Manifest loc) : M World Status unit := λ w,
  match LruCache.put k m (w_cache w) with
  | Some c => (mkWorld (w_heap w) c (w_fs w), Ok tt)
  | None => (w, Ub)
  end.

Definition CleanCache : M World Status unit := λ w,
  (mkWorld (w_heap w) (LruCache.clean (w_cache w)) (w_fs w), Ok tt).

Definition MakeCacheKey (path : string) : string :=
  match fs_subtree_base with
  | Some base_path => base_path +:+ "/" +:+ path
  | None => fs_type_name +:+ "://" +:+ path
  end.

(** ** [ReadFrom] *)

(** Opening, sizing, reading and closing the file. *)
Definition read_file (path : string) : M S Status string :=
  input_file ← OpenInputFile path;
  file_size ← GetSize input_file;
  data ← Read input_file file_size;
  if negb (Z.of_nat (String.length data) =? file_size) then fail status_IOError
  else CloseInput input_file ;; mret data.

(** The groups a decoded manifest holds are allocated one by one. *)
Fixpoint alloc_groups (gs : list (option ColumnGroup)) : M Heap Status ColumnGroups :=
  match gs with
  | [] => mret []
  | Some g :: rest => p ← alloc g; ps ← alloc_groups rest; mret (p :: ps)
  | None :: rest => ps ← alloc_groups rest; mret (None :: ps)
  end.

Definition ReadFrom (path : string) : M World Status (Manifest loc) :=
  let cache_key := MakeCacheKey path in
  cached ← cache_get cache_key;
  match cached with
  | Some m => mret m
  | None =>
      data ← on_fs (read_file path);
      mv ← lift (deserialize data);
      cgs ← on_heap (alloc_groups (column_groups_ mv));
      manifest ← on_heap (ToAbsolutePaths (with_groups mv cgs) (base_path_for_manifest path));
      cache_put cache_key manifest ;;
      mret manifest
  end.

(** ** [WriteTo] *)

Definition IsConditionalWriteConflict (status : Status) : bool :=
  if negb (bool_decide (st_code status = IOError)) then false
  else match UnwrapStatus status with
       | None => false
       | Some detail => bool_decide (detail = AwsErrorPreConditionFailed)
                        || bool_decide (detail = AwsErrorConflict)
       end.

(** The groups [serialize] visits. *)
Fixpoint load_groups (ps : ColumnGroups) : M Heap Status (list (option ColumnGroup)) :=
  match ps with
  | [] => mret []
  | Some l :: rest => g ← load (Some l); gs ← load_groups rest; mret (Some g :: gs)
  | None :: rest => gs ← load_groups rest; mret (None :: gs)
  end.

(** The plain write path: check existence, then write. *)
Definition write_fallback (path data : string) : M S Status unit :=
  file_info ← GetFileInfo path;
  if negb (bool_decide (file_info = NotFound)) then fail status_AlreadyExists
  else
    output_stream ← OpenOutputStream path;
    Write output_stream data ;;
    CloseOutput output_stream.

(** Writing the serialized bytes. *)
Definition write_file (path data : string) : M S Status unit :=
  (if IsLocalFileSystem then
     let '(parent, _) := GetAbstractPathParent path in
     if negb (is_empty parent) then CreateDir parent else mret tt
   else mret tt) ;;
  if fs_conditional then
    res ← catch (OpenConditionalOutputStream path);
    match res with
    | inl output_stream =>
        Write output_stream data ;;
        close_status ← catch (CloseOutput output_stream);
        match close_status with
        | inl _ => mret tt
        | inr st => if IsConditionalWriteConflict st then fail status_AlreadyExists else fail st
        end
    | inr st =>
        if IsConditionalWriteConflict st then fail status_AlreadyExists
        else if negb (bool_decide (st_code st = NotImplemented)) then fail st
        else write_fallback path data
    end
  else write_fallback path data.

Definition WriteTo (path : string) (manifest : Manifest loc) : M World Status unit :=
  let base_path := base_path_for_manifest path in
  relative_manifest ← on_heap (toRelativePaths manifest base_path);
  gs ← on_heap (load_groups (column_groups_ relative_manifest));
  data ← lift (serialize (with_groups relative_manifest gs));
  on_fs (write_file path data).

End io.
Arguments World S : clear implicits.
Arguments mkWorld {S} _ _ _.
Arguments w_heap {S} _.
Arguments w_cache {S} _.
Arguments w_fs {S} _.

(** ** Lemmas *)

Section lemmas.
Context {S : Type} {FS : FileSystem S} {FL : FsLaws S} {UP : UriParser} {AV : Avro}
  {AL : AvroLaws}.
Implicit Types (w : World S).

Lemma on_heap_inv {A} (m : M Heap Status A) w w' r : on_heap m w = (w', r) →
  m (w_heap w) = (w_heap w', r) ∧ w_cache w' = w_cache w ∧ w_fs w' = w_fs w.
Proof. unfold on_heap. destruct (m (w_heap w)). intros [= <- <-]. done. Qed.

Lemma on_fs_inv {A} (m : M S Status A) w w' r : on_fs m w = (w', r) →
  m (w_fs w) = (w_fs w', r) ∧ w_cache w' = w_cache w ∧ w_heap w' = w_heap w.
Proof. unfold on_fs. destruct (m (w_fs w)). intros [= <- <-]. done. Qed.

Lemma on_heap_eq {A} (m : M Heap Status A) w h r : m (w_heap w) = (h, r) →
  on_heap m w = (mkWorld h (w_cache w) (w_fs w), r).
Proof. unfold on_heap. by intros ->. Qed.

Lemma on_fs_eq {A} (m : M S Status A) w s r : m (w_fs w) = (s, r) →
  on_fs m w = (mkWorld (w_heap w) (w_cache w) s, r).
Proof. unfold on_fs. by intros ->. Qed.

(** The value of a manifest survives the growth of the heap. *)
Lemma manifest_view_app h h' m mv : manifest_view h m mv → manifest_view (h ++ h') m mv.
Proof. intros (gs & Hp & ->). exists gs. split; [by apply points_app_heap|done]. Qed.

Lemma manifest_view_prefix h h' m mv :
  h `prefix_of` h' → manifest_view h m mv → manifest_view h' m mv.
Proof. intros [k ->]. apply manifest_view_app. Qed.

Lemma alloc_groups_prefix gs h h' r : alloc_groups gs h = (h', r) → h `prefix_of` h'.
Proof.
  revert h h' r. induction gs as [|[g|] gs IH]; intros h h' r.
  - intros [= <- <-]. done.
  - cbn [alloc_groups]. intros Hb. rewrite (M_bind_Ok _ _ _ (h ++ [g]) (Some (length h))) in Hb by done.
    apply M_bind_inv in Hb as [(s1 & a & Ha & [= <- <-])|[(e & Ha & ->)|[Ha ->]]];
      apply IH in Ha; etrans; try exact Ha; by eexists.
  - cbn [alloc_groups]. intros Hb.
    apply M_bind_inv in Hb as [(s1 & a & Ha & [= <- <-])|[(e & Ha & ->)|[Ha ->]]]; eauto.
Qed.

Lemma alloc_groups_some (gs : list ColumnGroup) h :
  alloc_groups (Some <$> gs) h = (h ++ gs, Ok (fresh_ptrs (length h) (length gs))).
Proof.
  revert h. induction gs as [|g gs IH]; intros h; [by rewrite app_nil_r|].
  cbn [fmap list_fmap alloc_groups].
  rewrite (M_bind_Ok _ _ _ (h ++ [g]) (Some (length h))) by done.
  rewrite (M_bind_Ok _ _ _ _ _ (IH (h ++ [g]))). rewrite <- app_assoc, length_app, Nat.add_1_r. done.
Qed.

Lemma load_groups_ok h ps gs : points h ps gs → load_groups ps h = (h, Ok (Some <$> gs)).
Proof.
  induction 1 as [|p g ps gs Hg Hp IH]; [done|].
  pose proof Hg as (l & -> & _)%view_ptr_Some. cbn [load_groups].
  rewrite (M_bind_Ok _ _ _ h g) by by apply load_ok. by rewrite (M_bind_Ok _ _ _ _ _ IH).
Qed.

(** A null group in a decoded manifest would be dereferenced. *)
Lemma ToAbsolutePaths_some m gs h h0 h' m' base :
  alloc_groups gs h0 = (h, Ok (column_groups_ m)) →
  ToAbsolutePaths (E:=Status) m base h = (h', Ok m') → ∃ gs', gs = Some <$> gs'.
Proof.
  unfold ToAbsolutePaths. intros Ha Hb. apply M_bind_Ok_inv in Hb as (s1 & [] & Hf & _).
  generalize dependent (column_groups_ m). clear m'. intros ps Ha Hf.
  unfold map_group_files in Hf.
  assert (Forall is_Some ps) as Hps.
  { clear Ha h0 gs. revert h Hf. induction ps as [|p ps IH]; intros h Hf; constructor.
    - destruct p; [by eexists|]. done.
    - apply M_bind_Ok_inv in Hf as (s2 & [] & _ & Hf). eauto. }
  clear Hf. revert h0 ps Ha Hps.
  induction gs as [|[g|] gs IH]; intros h0 ps Ha Hps.
  - by exists [].
  - cbn [alloc_groups] in Ha. rewrite (M_bind_Ok _ _ _ (h0 ++ [g]) (Some (length h0))) in Ha by done.
    apply M_bind_Ok_inv in Ha as (s2 & ps' & Ha & [= <- <-]).
    destruct (IH _ _ Ha) as [gs' ->]; [by inversion Hps|]. by exists (g :: gs').
  - apply M_bind_Ok_inv in Ha as (s2 & ps' & Ha & [= <- <-]).
    inversion Hps as [|? ? [? ?]]; congruence.
Qed.

Lemma MakeCacheKey_inj p q : MakeCacheKey p = MakeCacheKey q → p = q.
Proof.
  unfold MakeCacheKey. destruct fs_subtree_base as [b|]; rewrite <- ?app_str_assoc;
    apply app_str_inj_l.
Qed.

(** Reading a whole file. *)
Lemma read_file_mono p s s' r : read_file p s = (s', r) → fs_files s ⊆ fs_files s'.
Proof.
  unfold read_file. intros Hb.
  apply M_bind_inv in Hb as [(s1 & h & H1 & Hb)|[(e & H1 & ->)|[H1 ->]]];
    apply openin_mono in H1; [|done..].
  apply M_bind_inv in Hb as [(s2 & n & H2 & Hb)|[(e & H2 & ->)|[H2 ->]]];
    apply size_mono in H2; [|by etrans..].
  apply M_bind_inv in Hb as [(s3 & d & H3 & Hb)|[(e & H3 & ->)|[H3 ->]]];
    apply read_mono in H3; [|by repeat (etrans; [eassumption|])..].
  destruct (negb _); [injection Hb as <- <-; by repeat (etrans; [eassumption|])|].
  apply M_bind_inv in Hb as [(s4 & u & H4 & [= <- <-])|[(e & H4 & ->)|[H4 ->]]];
    apply closein_mono in H4; by repeat (etrans; [eassumption|]).
Qed.

Lemma read_file_Ok p s s' d : read_file p s = (s', Ok d) → fs_files s' !! p = Some d.
Proof.
  unfold read_file. intros Hb.
  apply M_bind_Ok_inv in Hb as (s1 & h & H1 & Hb).
  apply M_bind_Ok_inv in Hb as (s2 & n & H2 & Hb).
  apply M_bind_Ok_inv in Hb as (s3 & d' & H3 & Hb).
  destruct (Z.eqb_spec (Z.of_nat (String.length d')) n) as [Hn|]; [|done]. cbn [negb] in Hb.
  apply M_bind_Ok_inv in Hb as (s4 & [] & H4 & [= <- <-]). eapply read_spec; eauto.
Qed.

(** ** The cache invariant

    What a manifest file stands for, and the invariant that every cached
    manifest of this filesystem is what its file stands for. *)
Definition file_denotes (files : gmap string string) (path : string)
    (mv : Manifest ColumnGroup) : Prop :=
  ∃ data rel, files !! path = Some data ∧ deserialize data = Ok rel ∧
    mv = map_paths (λ p dir, ToAbsolute p (base_path_for_manifest path) dir) rel.

Record cache_ok (w : World S) : Prop := {
  cache_lru : lru_ok (w_cache w);
  cache_sound path m : cache_ (w_cache w) !! MakeCacheKey path = Some m →
    ∃ mv, manifest_view (w_heap w) m mv ∧ file_denotes (fs_files (w_fs w)) path mv;
}.

Lemma file_denotes_mono f g p mv : f ⊆ g → file_denotes f p mv → file_denotes g p mv.
Proof.
  intros Hs (d & rel & Hd & Hr). exists d, rel. split; [|done]. by eapply lookup_weaken.
Qed.

Lemma file_denotes_fun f p mv1 mv2 : file_denotes f p mv1 → file_denotes f p mv2 → mv1 = mv2.
Proof. intros (d & rel & Hd & Hr & ->) (d' & rel' & Hd' & Hr' & ->). congruence. Qed.

(** The world only grows: objects keep their values, files their contents. *)
Definition world_le (w w' : World S) : Prop :=
  w_heap w `prefix_of` w_heap w' ∧ fs_files (w_fs w) ⊆ fs_files (w_fs w').

#[export] Instance world_le_preorder : PreOrder world_le.
Proof.
  split.
  - intros w. by split.
  - intros w1 w2 w3 [H1 H2] [H3 H4]. split; by etrans.
Qed.

Lemma cache_ok_le w w' : cache_ok w → world_le w w' → lru_ok (w_cache w') →
  cache_ (w_cache w') ⊆ cache_ (w_cache w) → cache_ok w'.
Proof.
  intros [Hl Hs] [Hh Hf] Hl' Hsub. split; [done|]. intros p m Hm.
  destruct (Hs p m) as (mv & Hv & Hd); [by eapply lookup_weaken|].
  exists mv. split; [by eapply manifest_view_prefix|by eapply file_denotes_mono].
Qed.

(** The part of [ReadFrom] that runs on a miss, once the bytes are there. *)
Lemma ReadFrom_hit path w m : cache_ok w → cache_ (w_cache w) !! MakeCacheKey path = Some m →
  ∃ w', ReadFrom path w = (w', Ok m) ∧ cache_ok w' ∧ w_heap w' = w_heap w ∧ w_fs w' = w_fs w.
Proof.
  intros Hok Hm. pose proof Hok as [Hl _].
  destruct (get_ok (MakeCacheKey path) (w_cache w) Hl) as (Hl' & Hc & Hr).
  exists (mkWorld (w_heap w) (LruCache.get (MakeCacheKey path) (w_cache w)).1 (w_fs w)).
  split_and!; [|eapply cache_ok_le; [exact Hok|by split|done|by simpl; rewrite Hc]|done|done].
  unfold ReadFrom. erewrite M_bind_Ok.
  2:{ unfold cache_get. rewrite (surjective_pairing (LruCache.get _ _)), Hr, Hm. done. }
  done.
Qed.

Lemma cache_get_miss k w : cache_ (w_cache w) !! k = None → cache_get k w = (w, Ok None).
Proof. intros Hk. unfold cache_get, LruCache.get. rewrite Hk. by destruct w. Qed.

(** Entering a manifest that its file stands for keeps the invariant. *)
Lemma cache_put_ok path m mv w : cache_ok w → manifest_view (w_heap w) m mv →
  file_denotes (fs_files (w_fs w)) path mv →
  ∃ w', cache_put (MakeCacheKey path) m w = (w', Ok tt) ∧ cache_ok w' ∧
    w_heap w' = w_heap w ∧ w_fs w' = w_fs w.
Proof.
  intros [Hl Hs] Hv Hd. unfold cache_put.
  destruct (put_ok (MakeCacheKey path) m _ Hl) as (c' & -> & Hl' & Hsub).
  eexists. split_and!; [done| |done|done]. split; [done|]. simpl. intros p x Hx.
  eapply lookup_weaken in Hx; [|exact Hsub].
  destruct (decide (p = path)) as [->|Hne].
  - rewrite lookup_insert_eq in Hx. injection Hx as <-. eauto.
  - rewrite lookup_insert_ne in Hx; [by apply Hs|]. by intros ?%MakeCacheKey_inj.
Qed.

(** A miss with readable bytes that decode to non-null groups. *)
Lemma ReadFrom_miss path w s d rel gs :
  cache_ok w → cache_ (w_cache w) !! MakeCacheKey path = None →
  read_file path (w_fs w) = (s, Ok d) → deserialize d = Ok rel →
  column_groups_ rel = Some <$> gs →
  ∃ w' m, ReadFrom path w = (w', Ok m) ∧ cache_ok w' ∧ world_le w w' ∧ w_fs w' = s ∧
    manifest_view (w_heap w') m
      (map_paths (λ p dir, ToAbsolute p (base_path_for_manifest path) dir) rel).
Proof.
  intros Hok Hm Hr Hd Hgs. pose proof (read_file_mono _ _ _ _ Hr) as Hfs.
  pose proof (read_file_Ok _ _ _ _ Hr) as Hfile.
  set (base := base_path_for_manifest path).
  destruct (ToAbsolutePaths_ok (E:=Status) (w_heap w)
    (with_groups rel (fresh_ptrs (length (w_heap w)) (length gs))) gs base)
    as (h' & m & Habs & Hview); [done|].
  assert (with_groups (with_groups rel (fresh_ptrs (length (w_heap w)) (length gs)))
    (Some <$> gs) = rel) as Hrel by (rewrite <- Hgs; by destruct rel).
  rewrite Hrel in Hview.
  set (w1 := mkWorld (w_heap w ++ h') (w_cache w) s).
  assert (world_le w w1) as Hle by (split; [by eexists|done]).
  assert (cache_ok w1) as Hok1 by (eapply cache_ok_le; [exact Hok|done|apply Hok|done]).
  destruct (cache_put_ok path m _ w1 Hok1 Hview) as (w' & Hput & Hok' & Hh & Hf).
  { by exists d, rel. }
  exists w', m. split_and!; [|done| |done|by rewrite Hh].
  - unfold ReadFrom. rewrite (M_bind_Ok _ _ _ _ _ (cache_get_miss _ _ Hm)).
    rewrite (M_bind_Ok _ _ _ _ _ (on_fs_eq _ _ _ _ Hr)). unfold lift at 1. rewrite Hd.
    rewrite (M_bind_Ok _ _ _ (mkWorld (w_heap w) (w_cache w) s) rel) by done. rewrite Hgs.
    rewrite (M_bind_Ok _ _ _ _ _ (on_heap_eq _ (mkWorld (w_heap w) (w_cache w) s) _ _
      (alloc_groups_some gs (w_heap w)))).
    erewrite M_bind_Ok by (apply on_heap_eq; exact Habs).
    by rewrite (M_bind_Ok _ _ _ _ _ Hput).
  - destruct Hle as [Hle1 Hle2]. split; rewrite ?Hh, ?Hf; done.
Qed.

Lemma alloc_groups_no_err gs h h' r : alloc_groups gs h = (h', r) → ∃ ps, r = Ok ps.
Proof.
  revert h h' r. induction gs as [|[g|] gs IH]; intros h h' r Hb; cbn [alloc_groups] in Hb.
  - injection Hb as <- <-. by eexists.
  - rewrite (M_bind_Ok _ _ _ (h ++ [g]) (Some (length h))) in Hb by done.
    apply M_bind_inv in Hb as [(s1 & a & Ha & [= <- <-])|[(e & [? ?]%IH & ->)|[[? ?]%IH ->]]];
      first [by eexists|done].
  - apply M_bind_inv in Hb as [(s1 & a & Ha & [= <- <-])|[(e & [? ?]%IH & ->)|[[? ?]%IH ->]]];
      first [by eexists|done].
Qed.

Lemma ToAbsolutePaths_no_err m base h h' e :
  ToAbsolutePaths (E:=Status) m base h ≠ (h', Err e).
Proof.
  unfold ToAbsolutePaths. intros Hb.
  apply M_bind_inv in Hb as [(s1 & a & _ & ?)|[(e' & Hf & _)|[_ ?]]]; [done| |done].
  unfold map_group_files in Hf. revert h Hf. induction (column_groups_ m) as [|p ps IH]; intros h Hf.
  - done.
  - apply M_bind_inv in Hf as [(s2 & [] & _ & Hf)|[(e2 & Hf & _)|[_ ?]]]; [eauto| |done].
    apply M_bind_inv in Hf as [(s2 & g & _ & Hf)|[(e3 & Hf & _)|[_ ?]]]; [| |done].
    + unfold store in Hf. destruct p as [l|]; [|done]. by destruct (s2 !! l).
    + unfold load in Hf. destruct p as [l|]; [|done]. by destruct (h !! l).
Qed.

(** Every outcome of [ReadFrom] that is not undefined keeps the invariant, and
    a manifest it returns is what its file stands for. *)
Lemma ReadFrom_inv path w w' r : cache_ok w → ReadFrom path w = (w', r) → r ≠ Ub →
  cache_ok w' ∧ world_le w w' ∧
  ∀ m, r = Ok m → ∃ mv, manifest_view (w_heap w') m mv ∧
    file_denotes (fs_files (w_fs w')) path mv.
Proof.
  intros Hok Hread Hub. destruct (cache_ (w_cache w) !! MakeCacheKey path) as [m|] eqn:Hm.
  - destruct (ReadFrom_hit path w m Hok Hm) as (w2 & Heq & Hok' & Hh & Hf).
    rewrite Heq in Hread. injection Hread as <- <-. split_and!; [done|split; by rewrite ?Hh, ?Hf|].
    intros ? [= <-]. rewrite Hh, Hf. by apply Hok.
  - pose proof Hread as Hb. unfold ReadFrom in Hb.
    rewrite (M_bind_Ok _ _ _ _ _ (cache_get_miss _ _ Hm)) in Hb.
    assert (∀ w2, w_cache w2 = w_cache w → world_le w w2 → cache_ok w2) as Hkeep.
    { intros w2 Hc Hle. eapply cache_ok_le; [exact Hok|done|rewrite Hc; apply Hok|by rewrite Hc]. }
    apply M_bind_inv in Hb as [(w1 & d & (Hr & Hc1 & Hh1)%on_fs_inv & Hb)|
      [(e & (Hr & Hc1 & Hh1)%on_fs_inv & ->)|[_ ->]]]; [| |done];
      pose proof (read_file_mono _ _ _ _ Hr) as Hmono.
    2:{ assert (world_le w w') as Hle1 by (split; [by rewrite Hh1|done]).
        split_and!; [by apply Hkeep|done|done]. }
    assert (world_le w w1) as Hle1 by (split; [by rewrite Hh1|done]).
    apply M_bind_inv in Hb as [(w2 & rel & [= <- Hd] & Hb)|[(e & [= <- Hd] & ->)|[[= <- Hd] ->]]];
      [| |done].
    2:{ split_and!; [by apply Hkeep|done|done]. }
    apply M_bind_inv in Hb as [(w2 & ps & (Ha & Hc2 & Hf2)%on_heap_inv & Hb)|
      [(e & (Ha & _)%on_heap_inv & ->)|[_ ->]]];
      [|by apply alloc_groups_no_err in Ha as [? ?]|done].
    apply M_bind_inv in Hb as [(w3 & m & (Hab & _)%on_heap_inv & Hb)|
      [(e & (Ha' & _)%on_heap_inv & ->)|[_ ->]]];
      [|by apply ToAbsolutePaths_no_err in Ha'|done].
    destruct (ToAbsolutePaths_some (with_groups rel ps) (column_groups_ rel) (w_heap w2)
      (w_heap w1) _ _ _ Ha Hab) as [gs Hgs].
    destruct (ReadFrom_miss path w (w_fs w1) d rel gs Hok Hm) as (w4 & m4 & Heq & Hok4 & Hle4 & Hf4 & Hv);
      [done..|].
    rewrite Heq in Hread. injection Hread as <- <-. split_and!; [done|done|].
    intros ? [= <-]. eexists. split; [exact Hv|]. exists d, rel. split_and!; [|done|done].
    rewrite Hf4. by apply read_file_Ok in Hr.
Qed.

(** *** Writing *)

Lemma catch_inv {St A} (m : M St Status A) s s' (r : outcome Status (A + Status)) :
  catch m s = (s', r) →
  (∃ a, m s = (s', Ok a) ∧ r = Ok (inl a)) ∨ (∃ e, m s = (s', Err e) ∧ r = Ok (inr e)) ∨
  (m s = (s', Ub) ∧ r = Ub).
Proof. unfold catch. destruct (m s) as [s1 [a|e|]]; intros [= <- <-]; eauto 10. Qed.

(** The directory of the local filesystem. *)
Lemma mkdir_step_mono (p : string) s s' (r : Result unit) :
  (if IsLocalFileSystem then
     let '(parent, _) := GetAbstractPathParent p in
     if negb (is_empty parent) then CreateDir parent else mret tt
   else mret tt) s = (s', r) → fs_files s ⊆ fs_files s'.
Proof.
  destruct IsLocalFileSystem; [|by intros [= <- _]].
  destruct (GetAbstractPathParent p) as [parent x]. destruct (negb _); [apply mkdir_mono|].
  by intros [= <- _].
Qed.

(** Every outcome of the conditional write: nothing is removed or replaced,
    and success means that this call created the file. *)
Lemma write_file_inv p d s s' r : write_file p d s = (s', r) →
  fs_files s ⊆ fs_files s' ∧ (r = Ok tt → created (fs_files s) p d (fs_files s')).
Proof.
  unfold write_file. intros Hb.
  apply M_bind_inv in Hb as [(s0 & [] & Hmk%mkdir_step_mono & Hb)|
    [(e & Hmk%mkdir_step_mono & ->)|[Hmk%mkdir_step_mono ->]]]; [|done..].
  rewrite fs_conditional_yes in Hb.
  apply M_bind_inv in Hb as [(s1 & res & Hopen & Hb)|[(e & Hopen & ->)|[Hopen ->]]].
  2:{ apply catch_inv in Hopen as [(? & ? & ?)|[(? & ? & ?)|[? ?]]]; congruence. }
  2:{ apply catch_inv in Hopen as [(? & ? & ?)|[(? & ? & ?)|[Ho _]]]; [congruence..|].
      split; [|done]. etrans; [exact Hmk|by eapply opencond_mono]. }
  apply catch_inv in Hopen as [(h & Ho & [= ->])|[(e & Ho & [= ->])|[? ?]]]; [| |done];
    pose proof (opencond_mono _ _ _ _ Ho) as Hm1.
  2:{ pose proof (opencond_implemented _ _ _ _ Ho) as Hni.
      destruct (IsConditionalWriteConflict e); [injection Hb as <- <-; split; [by etrans|done]|].
      rewrite bool_decide_false in Hb by done. injection Hb as <- <-. split; [by etrans|done]. }
  apply M_bind_inv in Hb as [(s2 & [] & Hw & Hb)|[(e & Hw & ->)|[Hw ->]]];
    pose proof (write_mono _ _ _ _ _ Hw) as Hm2; [|split; [by do 2 (etrans; [eassumption|])|done]..].
  assert (fs_files s ⊆ fs_files s2) as Hm02 by (by do 2 (etrans; [eassumption|])).
  apply M_bind_inv in Hb as [(s3 & res & Hclose & Hb)|[(e & Hclose & ->)|[Hclose ->]]].
  2:{ apply catch_inv in Hclose as [(? & ? & ?)|[(? & ? & ?)|[? ?]]]; congruence. }
  2:{ apply catch_inv in Hclose as [(? & ? & ?)|[(? & ? & ?)|[Hc _]]]; [congruence..|].
      split; [|done]. etrans; [exact Hm02|by eapply closeout_mono]. }
  apply catch_inv in Hclose as [([] & Hc & [= ->])|[(e & Hc & [= ->])|[? ?]]]; [| |done];
    pose proof (closeout_mono _ _ _ _ Hc) as Hm3.
  2:{ destruct (IsConditionalWriteConflict e); injection Hb as <- <-; (split; [by etrans|done]). }
  injection Hb as <- <-. split; [by etrans|]. intros _.
  destruct (cond_write_spec _ _ _ _ _ _ _ Ho Hw Hc) as (a & Ha & Hn & Hi).
  exists a. split_and!; [etrans; [exact Hmk|exact Ha]|done|done].
Qed.

Definition relative_to (path : string) (mv : Manifest ColumnGroup) : Manifest ColumnGroup :=
  map_paths (λ p dir, ToRelative p (base_path_for_manifest path) dir) mv.

(** [WriteTo] is the conditional write of the serialized relative manifest;
    it allocates the copy and touches neither the cache nor other objects. *)
Lemma WriteTo_eq path m mv w : manifest_view (w_heap w) m mv →
  ∃ h' data, serialize (relative_to path mv) = Ok data ∧
    WriteTo path m w =
      (mkWorld (w_heap w ++ h') (w_cache w) (write_file path data (w_fs w)).1,
       (write_file path data (w_fs w)).2).
Proof.
  intros Hv. destruct (toRelativePaths_ok (E:=Status) _ _ _ (base_path_for_manifest path) Hv)
    as (h' & m' & Hrel & gs & Hp & Heq).
  exists h', (ocf_write (encode_manifest (relative_to path mv))). split; [done|].
  unfold WriteTo. rewrite (M_bind_Ok _ _ _ _ _ (on_heap_eq _ _ _ _ Hrel)).
  erewrite M_bind_Ok by (apply on_heap_eq; simpl; by apply load_groups_ok).
  rewrite <- Heq. erewrite M_bind_Ok by done. simpl. unfold on_fs, relative_to. simpl.
  by destruct (write_file _ _ _).
Qed.

Lemma WriteTo_inv path m mv w w' r : manifest_view (w_heap w) m mv → WriteTo path m w = (w', r) →
  world_le w w' ∧ w_cache w' = w_cache w ∧
  (r = Ok tt → ∃ data, serialize (relative_to path mv) = Ok data ∧
     created (fs_files (w_fs w)) path data (fs_files (w_fs w'))).
Proof.
  intros Hv Hw. destruct (WriteTo_eq path m mv w Hv) as (h' & data & Hs & Heq).
  rewrite Heq in Hw. injection Hw as <- <-.
  destruct (write_file path data (w_fs w)) as [s' r'] eqn:Hf. simpl.
  apply write_file_inv in Hf as [Hm Hc]. split_and!; [split; [by eexists|done]|done|].
  intros ->. eauto.
Qed.

(** Rewriting paths does not change the integers of a manifest. *)
Lemma codec_ok_map_paths conv mv : manifest_codec_ok mv → manifest_codec_ok (map_paths conv mv).
Proof.
  intros (Hc & Hd & Hs & Hi & Hl). unfold manifest_codec_ok, map_paths, map_plain_paths; simpl.
  split_and!.
  - apply Forall_fmap. eapply Forall_impl; [exact Hc|]. intros og (g & -> & Hg).
    eexists. split; [done|]. apply Forall_fmap. eapply Forall_impl; [exact Hg|]. intros f. done.
  - apply Forall_fmap. eapply Forall_impl; [exact Hd|]. done.
  - by intros ???.
  - apply Forall_fmap. eapply Forall_impl; [exact Hi|]. done.
  - apply Forall_fmap. eapply Forall_impl; [exact Hl|]. done.
Qed.

(** The manifest a reader gets back: the format version is the current one. *)
Definition at_current_version (mv : Manifest ColumnGroup) : Manifest ColumnGroup :=
  mkManifest MANIFEST_VERSION (column_groups_ mv) (delta_logs_ mv) (stats_ mv) (indexes_ mv)
    (lob_files_ mv).

(** A file that [WriteTo] created stands for the manifest written. *)
Lemma written_denotes path mv data files :
  manifest_codec_ok mv → manifest_paths_ok (base_path_for_manifest path) mv →
  serialize (relative_to path mv) = Ok data → files !! path = Some data →
  (∃ rel, deserialize data = Ok rel ∧ Forall is_Some (column_groups_ rel)) ∧
  file_denotes files path (at_current_version mv).
Proof.
  intros Hc Hp Hs Hf. pose proof (codec_ok_map_paths
    (λ p dir, ToRelative p (base_path_for_manifest path) dir) mv Hc) as Hcr.
  destruct (serialize_deserialize_aux _ Hcr) as (data' & Hs' & Hd).
  assert (data' = data) as -> by (unfold relative_to in Hs; congruence).
  split.
  - eexists. split; [exact Hd|]. simpl. destruct Hcr as [Hcr _]. eapply Forall_impl; [exact Hcr|].
    intros og (g & -> & _). by eexists.
  - exists data. eexists. split_and!; [done|exact Hd|].
    rewrite <- (manifest_paths_roundtrip_aux (base_path_for_manifest path) mv Hp) at 1. done.
Qed.
End lemmas.

(** ** Properties *)

Section properties.
Context {S : Type} {FS : FileSystem S} {FL : FsLaws S} {UP : UriParser} {AV : Avro}
  {AL : AvroLaws}.

(** [WriteTo] never removes or replaces a file, whatever it returns, and
    leaves the cache and the objects in memory alone; when it succeeds, this
    very call created the manifest file, at a moment when it did not exist,
    with the serialized manifest in relative form as its content; and on a
    remote filesystem a precondition failure of the conditional write is
    reported as [AlreadyExists], any other failure as itself. *)
Theorem write_to_creates (path : string) (m : Manifest loc) (mv : Manifest ColumnGroup)
    (w w' : World S) (r : Result unit) :
  manifest_view (w_heap w) m mv → WriteTo path m w = (w', r) →
  fs_files (w_fs w) ⊆ fs_files (w_fs w') ∧ w_cache w' = w_cache w ∧
  w_heap w `prefix_of` w_heap w' ∧
  (r = Ok tt → ∃ data, serialize (relative_to path mv) = Ok data ∧
     created (fs_files (w_fs w)) path data (fs_files (w_fs w'))) ∧
  (∀ s st, IsLocalFileSystem = false → OpenConditionalOutputStream path (w_fs w) = (s, Err st) →
     r = Err (if IsConditionalWriteConflict st then status_AlreadyExists else st)).
Proof.
  intros Hv Hw. destruct (WriteTo_inv path m mv w w' r Hv Hw) as ([Hh Hf] & Hc & Hok).
  split_and!; [done..|]. intros s st Hlocal Hopen.
  destruct (WriteTo_eq path m mv w Hv) as (h' & data & _ & Heq). rewrite Heq in Hw.
  injection Hw as _ <-. unfold write_file.
  rewrite Hlocal, (M_bind_Ok _ _ _ (w_fs w) tt), fs_conditional_yes by done.
  erewrite M_bind_Ok by (unfold catch; by rewrite Hopen).
  cbn match. destruct (IsConditionalWriteConflict st); [done|].
  by rewrite bool_decide_false by by eapply opencond_implemented.
Qed.

(** C31: the manifest cache is transparent.  From a world whose cached
    manifests are what their files stand for, every outcome of [ReadFrom] that
    is not undefined leaves such a world, removes no file and changes no
    object; and a manifest it returns, from the cache or from the store, is
    what the file at that path stands for: its bytes, deserialized, with
    absolute paths. *)
Theorem read_from_cache_coherent (path : string) (w w' : World S) (r : Result (Manifest loc)) :
  cache_ok w → ReadFrom path w = (w', r) → r ≠ Ub →
  cache_ok w' ∧ world_le w w' ∧
  ∀ m, r = Ok m → ∃ mv, manifest_view (w_heap w') m mv ∧
    file_denotes (fs_files (w_fs w')) path mv.
Proof. apply ReadFrom_inv. Qed.

(** C8: what is written is read back.  After a successful [WriteTo] of a
    manifest whose integers fit their types and whose paths lie in the layout
    (or are external), in every later world, [ReadFrom] of that path succeeds
    as soon as the path is cached or the store serves the bytes, and returns
    the same column groups, delta logs, statistics, indexes and lob files with
    the same absolute paths. *)
Theorem write_read_roundtrip (path : string) (m : Manifest loc) (mv : Manifest ColumnGroup)
    (w w1 w2 : World S) :
  manifest_view (w_heap w) m mv → manifest_codec_ok mv →
  manifest_paths_ok (base_path_for_manifest path) mv →
  WriteTo path m w = (w1, Ok tt) →
  cache_ok w2 → fs_files (w_fs w1) ⊆ fs_files (w_fs w2) →
  is_Some (cache_ (w_cache w2) !! MakeCacheKey path) ∨
    (∃ s d, read_file path (w_fs w2) = (s, Ok d)) →
  ∃ w3 m3, ReadFrom path w2 = (w3, Ok m3) ∧ cache_ok w3 ∧
    manifest_view (w_heap w3) m3 (at_current_version mv).
Proof.
  intros Hv Hc Hp Hw Hok Hf Hread.
  destruct (WriteTo_inv path m mv w w1 _ Hv Hw) as (_ & _ & Hcr).
  destruct Hcr as (data & Hs & a & _ & _ & Hins); [done|].
  assert (fs_files (w_fs w2) !! path = Some data) as Hfile.
  { eapply lookup_weaken; [|exact Hf]. eapply lookup_weaken; [|exact Hins]. apply lookup_insert_eq. }
  destruct (written_denotes path mv data _ Hc Hp Hs Hfile) as ((rel & Hd & Hsome) & Hden).
  assert (∃ w3 m3, ReadFrom path w2 = (w3, Ok m3)) as (w3 & m3 & Heq).
  { destruct (cache_ (w_cache w2) !! MakeCacheKey path) as [m'|] eqn:Hm.
    - destruct (ReadFrom_hit path w2 m' Hok Hm) as (w3 & Heq & _). eauto.
    - destruct Hread as [[? ?]|(s & d & Hr)]; [done|].
      assert (d = data) as ->.
      { apply read_file_Ok in Hr as Hr1. pose proof (read_file_mono _ _ _ _ Hr) as Hm2.
        eapply lookup_weaken in Hfile; [|exact Hm2]. congruence. }
      assert (∃ gs, column_groups_ rel = Some <$> gs) as [gs Hgs].
      { clear -Hsome. induction Hsome as [|x l [g ->] _ [gs ->]]; [by exists []|by exists (g :: gs)]. }
      destruct (ReadFrom_miss path w2 s data rel gs Hok Hm Hr Hd Hgs) as (w3 & m3 & Heq & _). eauto. }
  destruct (ReadFrom_inv path w2 w3 _ Hok Heq) as (Hok3 & [_ Hle] & Hres); [done|].
  destruct (Hres m3 eq_refl) as (mv3 & Hv3 & Hd3). exists w3, m3. split_and!; [done|done|].
  by rewrite (file_denotes_fun _ _ _ _ (file_denotes_mono _ _ _ _ Hle Hden) Hd3).
Qed.
End properties.

(** ** Witnesses *)

Module IoSample.
Import MemFs.

#[local] Existing Instance ToyAvro.avro.
#[local] Existing Instance ToyAvro.avro_laws.
#[local] Existing Instance ToyUri.parser.

Definition group : ColumnGroup :=
  mkGroup ["id"; "vec"] "parquet" [mkFile "seg/_data/0_a.parquet" 0 100 {[ "file_size" := "4096" ]};
                                   mkFile "s3://host/ext/b.parquet" 0 7 ∅].
Definition manifest : Manifest loc :=
  mkManifest 6 [Some 0%nat] [mkDelta "seg/_delta/d1" PRIMARY_KEY 3]
    {[ "bm25" := mkStat ["seg/_stats/s1"; "/abs/s2"] ∅ ]} [] [mkLob "lobs/102/_data/l1" 102 10 9 8].
Definition value : Manifest ColumnGroup := with_groups manifest [Some group].
Definition path : string := get_manifest_filepath "seg" 1.

(** Another client adds a file of its own before the conditional write. *)
Definition w0 : World State :=
  mkWorld [group] getCache (mkState ∅ [{[ "seg/_metadata/other" := "x" ]}]).
(** The world in which version 1 is already taken when the write starts. *)
Definition w_taken : World State :=
  mkWorld [group] getCache (mkState ∅ [{[ path := "x" ]}]).
Definition w1 : World State := Eval vm_compute in (WriteTo path manifest w0).1.

Lemma io_view : manifest_view (w_heap w0) manifest value.
Proof. exists [group]. split; [|done]. repeat constructor. Defined.

Lemma codec : manifest_codec_ok value.
Proof.
  repeat split; try (intros ? ? _; exact I); repeat constructor.
  eexists; split; [reflexivity|]. repeat constructor.
Defined.

(** A plain name below a directory of the layout. *)
Lemma stored (dir p rel : string) :
  p = in_dir "seg" dir +:+ rel → Path.is_absolute rel = false →
  bool_decide (Path.comps rel ≠ []) = true →
  bool_decide (Forall Path.plain_name (Path.comps rel)) = true →
  bool_decide (rel = join_with kSep (Path.comps rel)) = true →
  has_scheme rel = false → stored_path_ok "seg" dir p.
Proof.
  intros Hp Ha H1%bool_decide_eq_true H2%bool_decide_eq_true H3%bool_decide_eq_true Hs. left.
  exists rel. split_and!; [done| |done]. by split_and!.
Defined.

Lemma paths_ok : manifest_paths_ok (base_path_for_manifest path) value.
Proof.
  change (base_path_for_manifest path) with "seg". split_and!.
  - apply Forall_singleton. intros g [= <-]. repeat apply Forall_cons_2; [| |apply Forall_nil_2].
    + eapply (stored _ _ "0_a.parquet"); vm_compute; reflexivity.
    + right. split; [vm_compute; reflexivity|left; vm_compute; reflexivity].
  - apply Forall_singleton. eapply (stored _ _ "d1"); vm_compute; reflexivity.
  - assert (stats_ value = {[ "bm25" := mkStat ["seg/_stats/s1"; "/abs/s2"] ∅ ]}) as -> by done.
    apply map_Forall_singleton.
    repeat apply Forall_cons_2; [| |apply Forall_nil_2].
    + eapply (stored _ _ "s1"); vm_compute; reflexivity.
    + right. split; [vm_compute; reflexivity|right; vm_compute; reflexivity].
  - apply Forall_nil_2.
  - apply Forall_singleton. eapply (stored _ _ "102/_data/l1"); vm_compute; reflexivity.
Defined.

Lemma cache_ok_start h s : cache_ok (mkWorld h getCache s).
Proof. split; [apply LRU_new_ok|]. intros p m. simpl. by rewrite lookup_empty. Defined.

Lemma write_to_creates_witness :
  (∃ data, serialize (relative_to path value) = Ok data ∧
    created (fs_files (w_fs w0)) path data (fs_files (w_fs w1))) ∧
  (WriteTo path manifest w_taken).2 = Err status_AlreadyExists.
Proof.
  split.
  - assert (WriteTo path manifest w0 = (w1, Ok tt)) as Hw
      by (vm_compute; reflexivity).
    exact (proj1 (proj2 (proj2 (proj2 (write_to_creates _ _ _ _ _ _ io_view Hw)))) eq_refl).
  - refine (proj2 (proj2 (proj2 (proj2 (write_to_creates path manifest
      value w_taken _ _ io_view (surjective_pairing _))))) (others (w_fs w_taken)) conflict _ _);
      vm_compute; reflexivity.
Defined.

Lemma read_from_cache_coherent_witness :
  ∃ w' m mv, ReadFrom path w1 = (w', Ok m) ∧ cache_ok w' ∧
    manifest_view (w_heap w') m mv ∧ file_denotes (fs_files (w_fs w')) path mv.
Proof.
  assert (∃ w' m, ReadFrom path w1 = (w', Ok m)) as (w' & m & Hr)
    by (do 2 eexists; vm_compute; reflexivity).
  destruct (read_from_cache_coherent path w1 w' (Ok m)
    (cache_ok_start _ _) Hr ltac:(discriminate)) as (Hok & _ & Hres).
  destruct (Hres m eq_refl) as (mv & Hv & Hd). exists w', m, mv. auto.
Defined.

Lemma write_read_roundtrip_witness :
  ∃ w3 m3, ReadFrom path w1 = (w3, Ok m3) ∧ cache_ok w3 ∧
    manifest_view (w_heap w3) m3 (at_current_version value).
Proof.
  apply (write_read_roundtrip path manifest value
    w0 w1 w1).
  - exact io_view.
  - exact codec.
  - exact paths_ok.
  - vm_compute; reflexivity.
  - apply cache_ok_start.
  - reflexivity.
  - right. do 2 eexists. vm_compute. reflexivity.
Defined.

End IoSample.
