(* ===== verification/Updates.v ===== *)
(** * Transaction updates and their application to a manifest

    The class [Updates] and [applyUpdates] of [transaction/transaction.cpp].
    [applyUpdates] runs on the heap of shared column groups; [apply_spec] is
    its specification on values, and the refinement between the two needs the
    pointers the caller passed to be distinct. *)

From S2P Require Import Prelude CppString Status Paths StorageUri ColumnGroups Manifest.

(** ** The recorded updates

    Polymorphic in the representation of a group: [Updates ColumnGroupPtr] is
    the object, [Updates ColumnGroup] its value. *)
Record Updates (P : Type) := mkUpdates {
  dropped_columns_ : list string;
  added_column_groups_ : list P;
  appended_files_ : list (list P);
  added_delta_logs_ : list DeltaLog;
  added_stats_ : gmap string Statistics;
  added_indexes_ : list Index;
  dropped_indexes_ : list Z;
  added_lob_files_ : list LobFileInfo;
}.
Arguments mkUpdates {P} _ _ _ _ _ _ _ _.
Arguments dropped_columns_ {P} _.
Arguments added_column_groups_ {P} _.
Arguments appended_files_ {P} _.
Arguments added_delta_logs_ {P} _.
Arguments added_stats_ {P} _.
Arguments added_indexes_ {P} _.
Arguments dropped_indexes_ {P} _.
Arguments added_lob_files_ {P} _.

Section recorders.
Context {P : Type}.
Implicit Types u : Updates P.

Definition no_updates : Updates P := mkUpdates [] [] [] [] ∅ [] [] [].

Definition hasChanges u : bool :=
  negb (bool_decide (length (dropped_columns_ u) = 0%nat))
  || negb (bool_decide (length (added_column_groups_ u) = 0%nat))
  || negb (bool_decide (length (appended_files_ u) = 0%nat))
  || negb (bool_decide (length (added_delta_logs_ u) = 0%nat))
  || negb (bool_decide (size (added_stats_ u) = 0%nat))
  || negb (bool_decide (length (added_indexes_ u) = 0%nat))
  || negb (bool_decide (length (dropped_indexes_ u) = 0%nat))
  || negb (bool_decide (length (added_lob_files_ u) = 0%nat)).

Definition DropColumn (column_name : string) u : Updates P :=
  mkUpdates (dropped_columns_ u ++ [column_name]) (added_column_groups_ u) (appended_files_ u)
    (added_delta_logs_ u) (added_stats_ u) (added_indexes_ u) (dropped_indexes_ u)
    (added_lob_files_ u).
Definition AddColumnGroup (cg : P) u : Updates P :=
  mkUpdates (dropped_columns_ u) (added_column_groups_ u ++ [cg]) (appended_files_ u)
    (added_delta_logs_ u) (added_stats_ u) (added_indexes_ u) (dropped_indexes_ u)
    (added_lob_files_ u).
Definition AppendFiles (cgs : list P) u : Updates P :=
  mkUpdates (dropped_columns_ u) (added_column_groups_ u) (appended_files_ u ++ [cgs])
    (added_delta_logs_ u) (added_stats_ u) (added_indexes_ u) (dropped_indexes_ u)
    (added_lob_files_ u).
Definition AddDeltaLog (delta_log : DeltaLog) u : Updates P :=
  mkUpdates (dropped_columns_ u) (added_column_groups_ u) (appended_files_ u)
    (added_delta_logs_ u ++ [delta_log]) (added_stats_ u) (added_indexes_ u) (dropped_indexes_ u)
    (added_lob_files_ u).
Definition UpdateStat (key : string) (stat : Statistics) u : Updates P :=
  mkUpdates (dropped_columns_ u) (added_column_groups_ u) (appended_files_ u)
    (added_delta_logs_ u) (<[key := stat]> (added_stats_ u)) (added_indexes_ u)
    (dropped_indexes_ u) (added_lob_files_ u).
Definition AddIndex (index : Index) u : Updates P :=
  mkUpdates (dropped_columns_ u) (added_column_groups_ u) (appended_files_ u)
    (added_delta_logs_ u) (added_stats_ u) (added_indexes_ u ++ [index]) (dropped_indexes_ u)
    (added_lob_files_ u).
Definition DropIndex (index_id : Z) u : Updates P :=
  mkUpdates (dropped_columns_ u) (added_column_groups_ u) (appended_files_ u)
    (added_delta_logs_ u) (added_stats_ u) (added_indexes_ u) (dropped_indexes_ u ++ [index_id])
    (added_lob_files_ u).
Definition AddLobFile (lob_file : LobFileInfo) u : Updates P :=
  mkUpdates (dropped_columns_ u) (added_column_groups_ u) (appended_files_ u)
    (added_delta_logs_ u) (added_stats_ u) (added_indexes_ u) (dropped_indexes_ u)
    (added_lob_files_ u ++ [lob_file]).
End recorders.

(** ** [applyUpdates] *)

Section apply.
Abbreviation HM A := (M Heap Status A).

(** Phase 1 of dropping a column: erase it from every group. *)
Definition drop_from_groups (col_name : string) (cgs : ColumnGroups) : HM unit :=
  for_each (λ cg,
    match cg with
    | None => fail status_Invalid
    | Some _ =>
        g ← load cg;
        store cg (mkGroup (remove_if (λ c, bool_decide (c = col_name)) (columns g)) (format g) (files g))
    end) cgs.

(** Phase 2: [remove_if] of the groups without columns. *)
Fixpoint drop_empty_groups (cgs : ColumnGroups) : HM ColumnGroups :=
  match cgs with
  | [] => mret []
  | cg :: rest =>
      g ← load cg;
      rest' ← drop_empty_groups rest;
      mret (if bool_decide (length (columns g) = 0%nat) then rest' else cg :: rest')
  end.

Fixpoint drop_columns (cols : list string) (cgs : ColumnGroups) (indexes : list Index) :
    HM (ColumnGroups * list Index) :=
  match cols with
  | [] => mret (cgs, indexes)
  | col_name :: rest =>
      drop_from_groups col_name cgs ;;
      cgs ← drop_empty_groups cgs;
      drop_columns rest cgs (remove_if (λ idx, bool_decide (column_name idx = col_name)) indexes)
  end.

(** The number of rows of a group, as the [size_t] sum of the lengths of its
    files; the difference of two [int64_t] must fit. *)
Definition group_rows (g : ColumnGroup) : Result Z :=
  fold_out (λ rows f,
    let n := end_index f - start_index f in
    if in_int64 n then Ok (wrap_u64 (rows + n)) else Ub) (files g) 0.

(** The validation of one added group against the groups of the base. *)
Definition validate_added (cgs : ColumnGroups) (new_cg : ColumnGroupPtr) : HM unit :=
  match new_cg with
  | None => fail status_Invalid
  | Some _ =>
      g ← load new_cg;
      for_each (λ column_name,
        found ← find_column_group column_name cgs;
        if bool_decide (found ≠ None) then fail status_Invalid else mret tt) (columns g) ;;
      match cgs with
      | [] => new_group_rows ← lift (group_rows g); mret tt
      | cg0 :: _ =>
          g0 ← load cg0;
          origin_group_rows ← lift (group_rows g0);
          new_group_rows ← lift (group_rows g);
          if negb (origin_group_rows =? new_group_rows) then fail status_Invalid else mret tt
      end
  end.

(** One position of an appended batch against the base. *)
Definition check_shape (g n : ColumnGroup) : Result unit :=
  if negb (length (columns g) =? length (columns n))%nat then Err status_Invalid
  else if negb (String.eqb (format g) (format n)) then Err status_Invalid
  else if negb (bool_decide (list_to_set (C:=gset string) (columns g) = list_to_set (columns n)))
  then Err status_Invalid
  else Ok tt.

Definition validate_appended (cgs new_cgs : ColumnGroups) : HM unit :=
  if negb (bool_decide (length cgs = 0%nat)) && negb (length cgs =? length new_cgs)%nat
  then fail status_Invalid
  else for_each (λ pq : ColumnGroupPtr * ColumnGroupPtr,
    match pq with
    | (Some p, Some q) => g ← load (Some p); n ← load (Some q); lift (check_shape g n)
    | _ => fail status_Invalid
    end) (zip cgs new_cgs).

(** The columns that an appended batch adds files to. *)
Fixpoint affected_in (new_cgs : ColumnGroups) (acc : gset string) : HM (gset string) :=
  match new_cgs with
  | [] => mret acc
  | None :: rest => affected_in rest acc
  | Some l :: rest =>
      g ← load (Some l);
      affected_in rest (if bool_decide (length (files g) = 0%nat) then acc
                        else list_to_set (columns g) ∪ acc)
  end.

Fixpoint affected_columns (appended : list ColumnGroups) (acc : gset string) : HM (gset string) :=
  match appended with
  | [] => mret acc
  | new_cgs :: rest => acc ← affected_in new_cgs acc; affected_columns rest acc
  end.

(** The replacement rule of an added index. *)
Definition replaced_by (new_idx idx : Index) : bool :=
  if negb (index_id new_idx =? 0) then index_id idx =? index_id new_idx
  else (index_id idx =? 0) && bool_decide (column_name idx = column_name new_idx)
       && bool_decide (index_type idx = index_type new_idx).

Definition add_index (indexes : list Index) (new_idx : Index) : list Index :=
  remove_if (replaced_by new_idx) indexes ++ [new_idx].

Definition resolve_indexes (affected : gset string) (dropped : list Z) (added : list Index)
    (indexes : list Index) : list Index :=
  let indexes := remove_if (λ idx, bool_decide (column_name idx ∈ affected)) indexes in
  let indexes := foldl (λ l d, remove_if (λ idx, index_id idx =? d) l) indexes dropped in
  foldl add_index indexes added.

(** [cgs[i]->files.push_back(file)] for every file of [new_cgs[i]]; appending
    to the vector that is being iterated over is undefined. *)
Definition append_group (pq : ColumnGroupPtr * ColumnGroupPtr) : HM unit :=
  match pq with
  | (Some p, Some q) =>
      n ← load (Some q);
      g ← load (Some p);
      if bool_decide (p = q) && negb (bool_decide (length (files n) = 0%nat)) then undefined
      else store (Some p) (mkGroup (columns g) (format g) (files g ++ files n))
  | _ => mret tt
  end.

(** [cgs = new_cgs] copies pointers: the base then shares the groups of the
    updates. *)
Fixpoint append_files (cgs : ColumnGroups) (appended : list ColumnGroups) : HM ColumnGroups :=
  match appended with
  | [] => mret cgs
  | new_cgs :: rest =>
      match cgs with
      | [] => append_files new_cgs rest
      | _ => for_each append_group (zip cgs new_cgs) ;; append_files cgs rest
      end
  end.

Definition applyUpdates (manifest : Manifest loc) (updates : Updates ColumnGroupPtr) :
    HM (Manifest loc) :=
  base ← copy_manifest manifest;
  '(cgs, indexes) ← drop_columns (dropped_columns_ updates) (column_groups_ base) (indexes_ base);
  for_each (validate_added cgs) (added_column_groups_ updates) ;;
  for_each (validate_appended cgs) (appended_files_ updates) ;;
  affected ← affected_columns (appended_files_ updates) ∅;
  cgs ← append_files cgs (appended_files_ updates);
  mret (mkManifest (version_ base)
    (cgs ++ added_column_groups_ updates)
    (delta_logs_ base ++ added_delta_logs_ updates)
    (added_stats_ updates ∪ stats_ base)
    (resolve_indexes affected (dropped_indexes_ updates) (added_indexes_ updates) indexes)
    (lob_files_ base ++ added_lob_files_ updates)).
End apply.

(** ** The specification on values *)

Definition groups (m : Manifest ColumnGroup) : list ColumnGroup := omap id (column_groups_ m).

Definition drop_column_spec (col_name : string) (gs : list ColumnGroup) : list ColumnGroup :=
  remove_if (λ g, bool_decide (length (columns g) = 0%nat))
    ((λ g, mkGroup (remove_if (λ c, bool_decide (c = col_name)) (columns g)) (format g) (files g))
       <$> gs).

Definition drop_spec (cols : list string) (gs : list ColumnGroup) : list ColumnGroup :=
  foldl (λ gs c, drop_column_spec c gs) gs cols.

Definition has_column (c : string) (gs : list ColumnGroup) : bool :=
  existsb (λ g, bool_decide (c ∈ columns g)) gs.

Definition check_added (gs : list ColumnGroup) (g : ColumnGroup) : Result unit :=
  if existsb (λ c, has_column c gs) (columns g) then Err status_Invalid
  else match gs with
       | [] => _ ← group_rows g; mret tt
       | g0 :: _ =>
           r0 ← group_rows g0; r ← group_rows g;
           if negb (r0 =? r) then Err status_Invalid else mret tt
       end.

Definition check_appended (gs ns : list ColumnGroup) : Result unit :=
  if negb (bool_decide (length gs = 0%nat)) && negb (length gs =? length ns)%nat
  then Err status_Invalid
  else check_all (λ gn : ColumnGroup * ColumnGroup, check_shape gn.1 gn.2) (zip gs ns).

Definition affected_spec (appended : list (list ColumnGroup)) : gset string :=
  list_to_set (mjoin (columns <$>
    remove_if (λ g, bool_decide (length (files g) = 0%nat)) (mjoin appended))).

Fixpoint zip_append (gs ns : list ColumnGroup) : list ColumnGroup :=
  match gs, ns with
  | g :: gs', n :: ns' => mkGroup (columns g) (format g) (files g ++ files n) :: zip_append gs' ns'
  | _, _ => gs
  end.

Definition append_spec (gs : list ColumnGroup) (appended : list (list ColumnGroup)) :
    list ColumnGroup :=
  foldl (λ gs ns, match gs with [] => ns | _ => zip_append gs ns end) gs appended.

Definition apply_spec (m : Manifest ColumnGroup) (u : Updates ColumnGroup) :
    Result (Manifest ColumnGroup) :=
  let gs := drop_spec (dropped_columns_ u) (groups m) in
  check_all (check_added gs) (added_column_groups_ u) ;;
  check_all (check_appended gs) (appended_files_ u) ;;
  mret (mkManifest (version_ m)
    (Some <$> (append_spec gs (appended_files_ u) ++ added_column_groups_ u))
    (delta_logs_ m ++ added_delta_logs_ u)
    (added_stats_ u ∪ stats_ m)
    (resolve_indexes (affected_spec (appended_files_ u)) (dropped_indexes_ u) (added_indexes_ u)
       (remove_if (λ i, bool_decide (column_name i ∈ dropped_columns_ u)) (indexes_ m)))
    (lob_files_ m ++ added_lob_files_ u)).

(** ** Lemmas: loops over distinct objects *)

(** The heaps agree outside of the objects in [ps]. *)
Definition agree_except (ps : ColumnGroups) (h h' : Heap) : Prop :=
  length h' = length h ∧ ∀ l, Some l ∉ ps → h' !! l = h !! l.

Lemma agree_refl ps h : agree_except ps h h.
Proof. done. Qed.

Lemma agree_trans ps h1 h2 h3 : agree_except ps h1 h2 → agree_except ps h2 h3 → agree_except ps h1 h3.
Proof. intros [L1 A1] [L2 A2]. split; [congruence|]. intros l Hl. rewrite A2, A1; done. Qed.

Lemma agree_weaken ps qs h h' : ps ⊆ qs → agree_except ps h h' → agree_except qs h h'.
Proof. intros Hs [L A]. split; [done|]. intros l Hl. apply A. set_solver. Qed.

Lemma agree_store l (g : ColumnGroup) h : agree_except [Some l] h (<[l := g]> h).
Proof.
  split; [by rewrite length_insert|]. intros l' Hl. rewrite list_lookup_insert_ne; [done|].
  intros ->. apply Hl. by left.
Qed.

Lemma points_agree h h' ps qs gs :
  agree_except ps h h' → (∀ p, p ∈ qs → p ∉ ps) → points h qs gs → points h' qs gs.
Proof.
  intros [_ A] Hd Hp. unfold points in *. induction Hp as [|q g qs gs Hq Hp IH]; constructor.
  - apply view_ptr_Some in Hq as (l & -> & Hl). apply view_ptr_Some. exists l. split; [done|].
    rewrite A; [done|]. apply Hd. by left.
  - apply IH. intros p Hin. apply Hd. by right.
Qed.

Section refinement.
Abbreviation HM A := (M Heap Status A).

(** A loop that rewrites distinct objects. *)
Lemma for_each_store (step : ColumnGroupPtr → HM unit) (f : ColumnGroup → ColumnGroup) ps gs h :
  (∀ l g h, h !! l = Some g → step (Some l) h = (<[l := f g]> h, Ok tt)) →
  NoDup ps → points h ps gs →
  ∃ h', for_each step ps h = (h', Ok tt) ∧ points h' ps (f <$> gs) ∧ agree_except ps h h'.
Proof.
  intros Hstep Hnd Hp. revert h gs Hp. induction Hnd as [|p ps Hp' Hnd IH]; intros h gs Hp.
  - apply Forall2_nil_inv_l in Hp as ->. exists h. split_and!; [done|constructor|done].
  - apply Forall2_cons_inv_l in Hp as (g & gs' & Hg & Hp & ->).
    apply view_ptr_Some in Hg as (l & -> & Hl).
    assert (points (<[l := f g]> h) ps gs') as Hp1 by by apply points_store_ne.
    destruct (IH _ _ Hp1) as (h' & He & Hpts & Hag). exists h'. split_and!.
    + cbn [for_each]. by rewrite (M_bind_Ok _ _ _ _ _ (Hstep _ _ _ Hl)).
    + constructor; [|done]. apply view_ptr_Some. exists l. split; [done|].
      destruct Hag as [_ Hag]. rewrite Hag by done.
      apply list_lookup_insert_eq. by apply lookup_lt_Some in Hl.
    + apply agree_trans with (<[l := f g]> h); [apply (agree_weaken [Some l]); [set_solver|apply agree_store]|].
      eapply agree_weaken; [|exact Hag]. set_solver.
Qed.

(** A loop of checks that do not touch the heap. *)
Lemma for_each_check {A B} (step : A → HM unit) (check : B → Result unit) l vs h :
  Forall2 (λ a v, step a h = (h, check v)) l vs →
  for_each step l h = (h, check_all check vs).
Proof.
  induction 1 as [|a v l vs Hs Hl IH]; [done|]. cbn [for_each check_all].
  unfold mbind at 1, M_bind at 1. rewrite Hs. destruct (check v) as [[]| |]; simpl; done.
Qed.

Lemma drop_empty_groups_ok h ps gs : points h ps gs →
  ∃ qs, drop_empty_groups ps h = (h, Ok qs) ∧ qs `sublist_of` ps ∧
    points h qs (remove_if (λ g, bool_decide (length (columns g) = 0%nat)) gs).
Proof.
  induction 1 as [|p g ps gs Hg Hp (qs & He & Hs & Hq)].
  - exists []. by split_and!; [|constructor|constructor].
  - cbn [drop_empty_groups]. rewrite (M_bind_Ok _ _ _ h g) by by apply load_ok.
    rewrite (M_bind_Ok _ _ _ _ _ He). unfold remove_if in *. cbn [List.filter].
    case_bool_decide; cbn [negb].
    + exists qs. split_and!; [done|by constructor|done].
    + exists (p :: qs). split_and!; [done|by constructor|by constructor].
Qed.

Lemma drop_columns_ok cols : ∀ h ps gs idx, NoDup ps → points h ps gs →
  ∃ h' qs, drop_columns cols ps idx h =
      (h', Ok (qs, remove_if (λ i, bool_decide (column_name i ∈ cols)) idx)) ∧
    qs `sublist_of` ps ∧ points h' qs (drop_spec cols gs) ∧ agree_except ps h h'.
Proof.
  induction cols as [|c cols IH]; intros h ps gs idx Hnd Hp.
  - exists h, ps. split_and!; [|done|done|done]. cbn [drop_columns].
    rewrite remove_if_none; [done|]. intros i _. by apply bool_decide_eq_false, not_elem_of_nil.
  - set (f := λ g, mkGroup (remove_if (λ x, bool_decide (x = c)) (columns g)) (format g) (files g)).
    destruct (for_each_store (λ cg : ColumnGroupPtr,
        match cg with
        | None => fail status_Invalid
        | Some _ => g ← load cg; store cg (f g) end) f ps gs h) as (h1 & He & Hp1 & Ha); [|done|done|].
    { intros l g h0 Hl. rewrite (M_bind_Ok _ _ _ h0 g) by (apply load_ok, view_ptr_Some; eauto).
      by eapply store_ok. }
    destruct (drop_empty_groups_ok _ _ _ Hp1) as (qs & Hq & Hs & Hpq).
    assert (NoDup qs) as Hndq by by eapply sublist_NoDup.
    destruct (IH h1 qs _ (remove_if (λ i, bool_decide (column_name i = c)) idx) Hndq Hpq)
      as (h2 & qs2 & Hd & Hs2 & Hp2 & Ha2).
    exists h2, qs2. split_and!; [|by etrans|done|].
    + cbn [drop_columns]. unfold drop_from_groups. fold f.
      rewrite (M_bind_Ok _ _ _ _ _ He), (M_bind_Ok _ _ _ _ _ Hq), Hd.
      do 3 f_equal. unfold remove_if. clear. induction idx as [|i idx IH]; [done|].
      cbn [List.filter]. case_bool_decide as H1; cbn [negb].
      * rewrite (bool_decide_true (_ ∈ c :: cols)) by (rewrite H1; by left). done.
      * cbn [List.filter]. case_bool_decide as H2; cbn [negb].
        -- rewrite bool_decide_true by by right. done.
        -- rewrite bool_decide_false by set_solver. cbn [negb]. by f_equal.
    + eapply agree_trans; [exact Ha|]. eapply agree_weaken; [|exact Ha2].
      intros x Hx. by eapply elem_of_sublist.
Qed.

Lemma find_column_group_ok c h ps gs : points h ps gs →
  ∃ r, find_column_group (E:=Status) c ps h = (h, Ok r) ∧ bool_decide (r ≠ None) = has_column c gs.
Proof.
  induction 1 as [|p g ps gs Hg Hp (r & He & Hr)]; [by exists None|].
  cbn [find_column_group]. rewrite (M_bind_Ok _ _ _ h g) by by apply load_ok.
  unfold has_column in *. cbn [existsb]. case_decide as Hc.
  - exists p. split; [done|]. rewrite (bool_decide_true (c ∈ columns g)) by done. cbn [orb].
    apply bool_decide_eq_true. by apply view_ptr_Some in Hg as (l & -> & _).
  - exists r. rewrite (bool_decide_false (c ∈ columns g)) by done. done.
Qed.

Lemma check_columns_ok h ps gs cols : points h ps gs →
  for_each (λ column_name,
        found ← find_column_group column_name ps;
        if bool_decide (found ≠ None) then fail status_Invalid else mret tt) cols h =
  (h, if existsb (λ c, has_column c gs) cols then Err status_Invalid else Ok tt).
Proof.
  intros Hp. induction cols as [|c cols IH]; [done|]. cbn [for_each existsb].
  destruct (find_column_group_ok c h ps gs Hp) as (r & He & Hr).
  destruct (has_column c gs) eqn:Hc; cbn [orb].
  - erewrite M_bind_Err; [done|]. rewrite (M_bind_Ok _ _ _ _ _ He), Hr. done.
  - erewrite M_bind_Ok; [exact IH|]. rewrite (M_bind_Ok _ _ _ _ _ He), Hr. done.
Qed.

Lemma validate_added_ok h ps gs p g : points h ps gs → view_ptr h p = Some g →
  validate_added ps p h = (h, check_added gs g).
Proof.
  intros Hp Hg. pose proof Hg as (l & -> & Hl)%view_ptr_Some. unfold validate_added, check_added.
  rewrite (M_bind_Ok _ _ _ h g) by by apply load_ok.
  unfold mbind at 1, M_bind at 1. rewrite (check_columns_ok h ps gs) by done.
  destruct (existsb _ _); [done|]. destruct Hp as [|p0 g0 ps gs Hg0 Hp].
  - unfold mbind, M_bind, lift, outcome_bind. by destruct (group_rows g).
  - rewrite (M_bind_Ok _ _ _ h g0) by by apply load_ok.
    unfold mbind, M_bind, lift, outcome_bind. destruct (group_rows g0); [|done..].
    destruct (group_rows g); [|done..]. by destruct (negb _).
Qed.

Lemma validate_appended_ok h ps gs qs ns : points h ps gs → points h qs ns →
  validate_appended ps qs h = (h, check_appended gs ns).
Proof.
  intros Hp Hq. unfold validate_appended, check_appended.
  rewrite (points_length _ _ _ Hp), (points_length _ _ _ Hq). destruct (_ && _); [done|].
  apply for_each_check. revert qs ns Hq. induction Hp as [|p g ps gs Hg Hp IH]; intros qs ns Hq.
  { constructor. }
  destruct Hq as [|q n qs ns Hn Hq]; [constructor|]. constructor; [|by apply IH].
  pose proof Hg as (l & -> & Hl)%view_ptr_Some. pose proof Hn as (l' & -> & Hl')%view_ptr_Some.
  rewrite (M_bind_Ok _ _ _ h g) by by apply load_ok.
  by rewrite (M_bind_Ok _ _ _ h n) by by apply load_ok.
Qed.

Lemma affected_in_ok h qs ns acc : points h qs ns →
  affected_in qs acc h = (h, Ok (list_to_set (mjoin (columns <$>
    remove_if (λ g, bool_decide (length (files g) = 0%nat)) ns)) ∪ acc)).
Proof.
  intros Hq. revert acc. induction Hq as [|q n qs ns Hn Hq IH]; intros acc.
  - change (list_to_set (C:=gset string) _) with (∅ : gset string) at 1. by rewrite union_empty_l_L.
  - pose proof Hn as (l & -> & _)%view_ptr_Some. cbn [affected_in].
    rewrite (M_bind_Ok _ _ _ h n) by by apply load_ok. rewrite IH. do 2 f_equal.
    unfold remove_if. cbn [List.filter]. case_bool_decide; cbn [negb]; [done|].
    rewrite fmap_cons. change (mjoin (columns n :: ?l)) with (columns n ++ mjoin l).
    rewrite list_to_set_app_L. set_solver.
Qed.

Lemma affected_columns_ok h appended vals acc : Forall2 (points h) appended vals →
  affected_columns appended acc h = (h, Ok (affected_spec vals ∪ acc)).
Proof.
  intros Hl. revert acc. induction Hl as [|qs ns l vs Hq Hl IH]; intros acc.
  - unfold affected_spec. change (list_to_set (C:=gset string) _) with (∅ : gset string).
    by rewrite union_empty_l_L.
  - cbn [affected_columns]. rewrite (M_bind_Ok _ _ _ _ _ (affected_in_ok h qs ns acc Hq)), IH.
    do 2 f_equal. unfold affected_spec.
    change (mjoin (ns :: vs)) with (ns ++ mjoin vs).
    rewrite remove_if_app, fmap_app, join_app, list_to_set_app_L. set_solver.
Qed.

(** Appending to distinct objects files of other objects. *)
Lemma append_groups_ok h ps gs qs ns :
  NoDup ps → (∀ q, q ∈ qs → q ∉ ps) → points h ps gs → points h qs ns →
  ∃ h', for_each append_group (zip ps qs) h = (h', Ok tt) ∧
    points h' ps (zip_append gs ns) ∧ agree_except ps h h'.
Proof.
  intros Hnd. revert h gs qs ns. induction Hnd as [|p ps Hp' Hnd IH]; intros h gs qs ns Hd Hp Hq.
  - apply Forall2_nil_inv_l in Hp as ->. exists h. split_and!; [done|constructor|done].
  - pose proof Hp as Hp0. apply Forall2_cons_inv_l in Hp as (g & gs' & Hg & Hp & ->).
    destruct Hq as [|q n qs ns Hn Hq]; [by exists h|].
    pose proof Hg as (l & -> & Hl)%view_ptr_Some. pose proof Hn as (l' & -> & Hl')%view_ptr_Some.
    assert (l ≠ l') as Hne by (intros ->; apply (Hd (Some l')); set_solver).
    set (g' := mkGroup (columns g) (format g) (files g ++ files n)).
    assert (append_group (Some l, Some l') h = (<[l := g']> h, Ok tt)) as Hstep.
    { unfold append_group. rewrite (M_bind_Ok _ _ _ h n) by by apply load_ok.
      rewrite (M_bind_Ok _ _ _ h g) by by apply load_ok.
      rewrite bool_decide_false by done. by eapply store_ok. }
    destruct (IH (<[l := g']> h) gs' qs ns) as (h' & He & Hpts & Hag).
    + set_solver.
    + by apply points_store_ne.
    + apply points_store_ne; [|done]. intros Hin. apply (Hd (Some l)); set_solver.
    + exists h'. split_and!.
      * cbn [zip zip_with for_each]. by rewrite (M_bind_Ok _ _ _ _ _ Hstep).
      * constructor; [|done]. apply view_ptr_Some. exists l. split; [done|].
        destruct Hag as [_ Hag]. rewrite Hag by done.
        apply list_lookup_insert_eq. by apply lookup_lt_Some in Hl.
      * apply agree_trans with (<[l := g']> h);
          [apply (agree_weaken [Some l]); [set_solver|apply agree_store]|].
        eapply agree_weaken; [|exact Hag]. set_solver.
Qed.

Lemma points_nil_iff h ps gs : points h ps gs → ps = [] ↔ gs = [].
Proof. by destruct 1. Qed.

Lemma batches_agree h h' ps l vs : agree_except ps h h' →
  (∀ q, q ∈ mjoin l → q ∉ ps) → Forall2 (points h) l vs → Forall2 (points h') l vs.
Proof.
  intros Ha Hd. induction 1 as [|qs ns l vs Hq Hl IH]; constructor.
  - eapply points_agree; [exact Ha| |exact Hq]. intros q Hin. apply Hd.
    change (mjoin (qs :: l)) with (qs ++ mjoin l). apply elem_of_app. by left.
  - apply IH. intros q Hin. apply Hd. change (mjoin (qs :: l)) with (qs ++ mjoin l).
    apply elem_of_app. by right.
Qed.

(** Into a base that has groups, only those are written. *)
Lemma append_files_cons appended : ∀ h ps gs vals,
  ps ≠ [] → NoDup ps → (∀ q, q ∈ mjoin appended → q ∉ ps) →
  points h ps gs → Forall2 (points h) appended vals →
  ∃ h', append_files ps appended h = (h', Ok ps) ∧ points h' ps (append_spec gs vals) ∧
    agree_except ps h h'.
Proof.
  induction appended as [|qs appended IH]; intros h ps gs vals Hne Hnd Hd Hp Hv.
  - apply Forall2_nil_inv_l in Hv as ->. destruct ps; by exists h.
  - apply Forall2_cons_inv_l in Hv as (ns & vals' & Hq & Hv & ->).
    change (mjoin (qs :: appended)) with (qs ++ mjoin appended) in Hd.
    setoid_rewrite elem_of_app in Hd.
    destruct (append_groups_ok h ps gs qs ns) as (h1 & He & Hp1 & Ha1); [done|by auto|done|done|].
    destruct (IH h1 ps (zip_append gs ns) vals') as (h2 & He2 & Hp2 & Ha2); [done|done|by auto|done| |].
    + eapply batches_agree; [exact Ha1| |exact Hv]. auto.
    + exists h2. split_and!; [|  |by eapply agree_trans].
      * destruct ps as [|p ps]; [done|]. cbn [append_files]. by rewrite (M_bind_Ok _ _ _ _ _ He).
      * unfold append_spec in *. cbn [foldl]. destruct gs; [|done].
        apply points_length in Hp. by destruct ps.
Qed.

Lemma append_files_ok appended : ∀ h ps gs vals,
  NoDup (ps ++ mjoin appended) → points h ps gs → Forall2 (points h) appended vals →
  ∃ h' qs, append_files ps appended h = (h', Ok qs) ∧ points h' qs (append_spec gs vals) ∧
    agree_except (ps ++ mjoin appended) h h' ∧
    (ps ≠ [] → agree_except ps h h') ∧ (ps = [] → (length appended ≤ 1)%nat → h' = h).
Proof.
  induction appended as [|qs appended IH]; intros h ps gs vals Hnd Hp Hv.
  - apply Forall2_nil_inv_l in Hv as ->. exists h, ps. destruct ps; by split_and!.
  - destruct ps as [|p ps].
    + apply Forall2_nil_inv_l in Hp as ->.
      apply Forall2_cons_inv_l in Hv as (ns & vals' & Hq & Hv & ->).
      destruct (IH h qs ns vals' Hnd Hq Hv) as (h' & qs' & He & Hp' & Ha & Hc & Hn).
      exists h', qs'. split_and!; [done|done|done|done|]. intros _ Hlen. simpl in Hlen.
      destruct appended; [|simpl in Hlen; lia]. simpl in He. destruct qs; by injection He.
    + apply NoDup_app in Hnd as (Hnd & Hd & _).
      destruct (append_files_cons (qs :: appended) h (p :: ps) gs vals)
        as (h' & He & Hp' & Ha); [done|done| |done|done|].
      { intros q Hq Hq'. by apply (Hd q). }
      exists h', (p :: ps). split_and!; [done|done| |done|done].
      eapply agree_weaken; [|exact Ha]. set_solver.
Qed.
End refinement.

(** ** The refinement of [apply_spec] by [applyUpdates] *)

Definition updates_view (h : Heap) (u : Updates ColumnGroupPtr) (uv : Updates ColumnGroup) : Prop :=
  points h (added_column_groups_ u) (added_column_groups_ uv) ∧
  Forall2 (points h) (appended_files_ u) (appended_files_ uv) ∧
  dropped_columns_ uv = dropped_columns_ u ∧ added_delta_logs_ uv = added_delta_logs_ u ∧
  added_stats_ uv = added_stats_ u ∧ added_indexes_ uv = added_indexes_ u ∧
  dropped_indexes_ uv = dropped_indexes_ u ∧ added_lob_files_ uv = added_lob_files_ u.

(** No group object is passed to two appends, or to an append and an add. *)
Definition updates_distinct (u : Updates ColumnGroupPtr) : Prop :=
  NoDup (mjoin (appended_files_ u)) ∧
  ∀ p, p ∈ added_column_groups_ u → p ∉ mjoin (appended_files_ u).

Lemma groups_some m gs : column_groups_ m = Some <$> gs → groups m = gs.
Proof.
  unfold groups. intros ->. induction gs as [|g gs IH]; [done|]. cbn. by f_equal.
Qed.

Lemma agree_prefix ps (h0 h h' : Heap) : h0 `prefix_of` h →
  (∀ l, Some l ∈ ps → (length h0 ≤ l)%nat) → agree_except ps h h' → h0 `prefix_of` h'.
Proof.
  intros [k ->] Hl [Hlen Ha]. exists (drop (length h0) h').
  rewrite <- (take_drop (length h0) h') at 1. f_equal.
  apply list_eq. intros i. rewrite lookup_take. case_decide as Hi.
  - rewrite Ha; [by rewrite lookup_app_l|]. intros Hin%Hl. lia.
  - symmetry. apply lookup_ge_None. lia.
Qed.

(** Pointers into a heap are not fresh. *)
Lemma points_old h ps gs n q : points h ps gs → q ∈ ps → q ∉ fresh_ptrs (length h) n.
Proof.
  intros Hp Hq. apply list_elem_of_lookup in Hq as [i Hi].
  pose proof (Forall2_lookup_l _ _ _ _ _ Hp Hi) as (g & _ & Hg).
  apply view_ptr_Some in Hg as (l & -> & Hl). apply lookup_lt_Some in Hl.
  rewrite fresh_ptrs_elem. lia.
Qed.

Lemma batches_old h l vs n q : Forall2 (points h) l vs → q ∈ mjoin l →
  q ∉ fresh_ptrs (length h) n.
Proof.
  induction 1 as [|qs ns l vs Hq Hl IH]; [by intros ?%elem_of_nil|].
  change (mjoin (qs :: l)) with (qs ++ mjoin l). intros [Hin|Hin]%elem_of_app; [|by apply IH].
  by eapply points_old.
Qed.

(** The common part of every run: the copy and the dropped columns. *)
Lemma copy_drop_ok h m mv cols : manifest_view h m mv →
  ∃ h1 base h2 qs, copy_manifest (E:=Status) m h = (h1, Ok base) ∧
    version_ base = version_ m ∧ delta_logs_ base = delta_logs_ m ∧ stats_ base = stats_ m ∧
    lob_files_ base = lob_files_ m ∧
    drop_columns cols (column_groups_ base) (indexes_ base) h1 =
      (h2, Ok (qs, remove_if (λ i, bool_decide (column_name i ∈ cols)) (indexes_ m))) ∧
    points h2 qs (drop_spec cols (groups mv)) ∧ h `prefix_of` h2 ∧ NoDup qs ∧
    (∀ p, p ∈ qs → ∃ n, p ∈ fresh_ptrs (length h) n).
Proof.
  intros (gs & Hp & ->).
  assert (points (h ++ gs) (fresh_ptrs (length h) (length gs)) gs) as Hp1.
  { pose proof (points_fresh h gs []) as Hf. by rewrite app_nil_r in Hf. }
  destruct (drop_columns_ok cols _ _ _ (indexes_ m) (fresh_ptrs_nodup _ _) Hp1)
    as (h2 & qs & Hd & Hs & Hp2 & Ha).
  do 2 eexists. exists h2, qs. split_and!; [by apply copy_manifest_ok|done..|exact Hd| | | |].
  - by rewrite (groups_some _ gs).
  - eapply agree_prefix; [by eexists| |exact Ha]. intros l Hl%fresh_ptrs_elem. lia.
  - eapply sublist_NoDup; [apply fresh_ptrs_nodup|exact Hs].
  - intros p Hin. eexists. by eapply elem_of_sublist.
Qed.

Lemma applyUpdates_refines h m mv u uv :
  manifest_view h m mv → updates_view h u uv → updates_distinct u →
  match apply_spec mv uv with
  | Ok mv' => ∃ h' m', applyUpdates m u h = (h', Ok m') ∧ manifest_view h' m' mv' ∧
      (∀ l g, h !! l = Some g → Some l ∉ mjoin (appended_files_ u) → h' !! l = Some g) ∧
      (drop_spec (dropped_columns_ u) (groups mv) ≠ [] ∨ (length (appended_files_ u) ≤ 1)%nat →
         h `prefix_of` h')
  | Err e => ∃ h', applyUpdates m u h = (h', Err e) ∧ h `prefix_of` h'
  | Ub => ∃ h', applyUpdates m u h = (h', Ub)
  end.
Proof.
  intros Hv (Hadd & Happ & Hdc & Hdl & Hst & Hai & Hdi & Hlo) [Hnd Hdis].
  destruct (copy_drop_ok h m mv (dropped_columns_ u) Hv)
    as (h1 & base & h2 & qs & Hcopy & Hb1 & Hb2 & Hb3 & Hb4 & Hdrop & Hp & Hpre & Hndq & Hfresh).
  unfold apply_spec, applyUpdates. rewrite Hdc. set (gs := drop_spec _ _) in *.
  rewrite (M_bind_Ok _ _ _ _ _ Hcopy), (M_bind_Ok _ _ _ _ _ Hdrop). cbn beta match.
  destruct Hpre as [k ->]. pose proof (points_app_heap _ k _ _ Hadd) as Hadd2.
  assert (Forall2 (points (h ++ k)) (appended_files_ u) (appended_files_ uv)) as Happ2.
  { eapply Forall2_impl; [exact Happ|]. intros. by apply points_app_heap. }
  assert (for_each (validate_added qs) (added_column_groups_ u) (h ++ k) =
    (h ++ k, check_all (check_added gs) (added_column_groups_ uv))) as Hc1.
  { apply for_each_check. eapply Forall2_impl; [exact Hadd2|]. intros p g Hg.
    by apply validate_added_ok. }
  assert (for_each (validate_appended qs) (appended_files_ u) (h ++ k) =
    (h ++ k, check_all (check_appended gs) (appended_files_ uv))) as Hc2.
  { apply for_each_check. eapply Forall2_impl; [exact Happ2|]. intros x y Hxy.
    by apply validate_appended_ok. }
  destruct (check_all (check_added gs) (added_column_groups_ uv)) as [[]|e|]; rewrite ?bind_Ok, ?bind_Err, ?bind_Ub.
  2:{ exists (h ++ k). split; [by erewrite M_bind_Err|by eexists]. }
  2:{ exists (h ++ k). unfold mbind at 1, M_bind at 1. by rewrite Hc1. }
  rewrite (M_bind_Ok _ _ _ _ _ Hc1).
  destruct (check_all (check_appended gs) (appended_files_ uv)) as [[]|e|]; rewrite ?bind_Ok, ?bind_Err, ?bind_Ub.
  2:{ exists (h ++ k). split; [by erewrite M_bind_Err|by eexists]. }
  2:{ exists (h ++ k). unfold mbind at 1, M_bind at 1. by rewrite Hc2. }
  rewrite (M_bind_Ok _ _ _ _ _ Hc2), (M_bind_Ok _ _ _ _ _ (affected_columns_ok _ _ _ ∅ Happ2)).
  assert (∀ q, q ∈ mjoin (appended_files_ u) → q ∉ qs) as Hsep.
  { intros q Hq Hq'. apply Hfresh in Hq' as [n Hn]. exact (batches_old _ _ _ _ _ Happ Hq Hn). }
  destruct (append_files_ok (appended_files_ u) (h ++ k) qs gs (appended_files_ uv))
    as (h3 & qs' & Heq & Hp3 & Hag & Hag1 & Hag2); [|done|done|].
  { apply NoDup_app. split_and!; [done| |done]. intros q Hq Hq'. by apply (Hsep q). }
  rewrite (M_bind_Ok _ _ _ _ _ Heq), union_empty_r_L.
  assert (∀ l, Some l ∈ qs → (length h ≤ l)%nat) as Hnew.
  { intros l Hl. apply Hfresh in Hl as [n Hn%fresh_ptrs_elem]. lia. }
  do 2 eexists. split_and!; [reflexivity| | |].
  - exists (append_spec gs (appended_files_ uv) ++ added_column_groups_ uv). cbn [column_groups_].
    split; [|unfold with_groups; cbn; destruct Hv as (? & ? & ->); cbn;
      by rewrite Hdl, Hst, Hai, Hdi, Hlo, Hb1, Hb2, Hb3, Hb4].
    apply Forall2_app; [exact Hp3|]. eapply points_agree; [exact Hag| |exact Hadd2].
    intros p Hpa [Hq|Hq]%elem_of_app; [|by apply (Hdis p)].
    apply Hfresh in Hq as [n Hn]. exact (points_old _ _ _ _ _ Hadd Hpa Hn).
  - intros l g Hl Hna. destruct Hag as [_ Hag]. rewrite Hag.
    + by apply lookup_app_l_Some.
    + intros [Hq|Hq]%elem_of_app; [|done]. apply Hnew in Hq. apply lookup_lt_Some in Hl. lia.
  - intros Hcond. destruct (decide (qs = [])) as [->|Hne].
    + rewrite (Hag2 eq_refl); [by eexists|]. destruct Hcond as [Hgs|?]; [|done].
      by apply Forall2_nil_inv_l in Hp.
    + eapply agree_prefix; [by eexists| |by apply Hag1]. done.
Qed.

(** ** What a successful application guarantees *)

(** The identity of an index: its id, or column and type for entries that did
    not record one. *)
Definition index_key (i : Index) : Z + string * string :=
  if negb (index_id i =? 0) then inl (index_id i) else inr (column_name i, index_type i).

Lemma replaced_by_key n i : replaced_by n i = bool_decide (index_key i = index_key n).
Proof.
  unfold replaced_by, index_key. destruct (Z.eqb_spec (index_id n) 0) as [Hn|Hn]; cbn [negb];
    destruct (Z.eqb_spec (index_id i) 0) as [Hi|Hi]; cbn [negb andb];
    try destruct (Z.eqb_spec (index_id i) (index_id n));
    repeat case_bool_decide; first [done|exfalso; congruence].
Qed.

Lemma remove_if_sublist {A} (p : A → bool) l : remove_if p l `sublist_of` l.
Proof.
  unfold remove_if. induction l as [|x l IH]; [done|]. simpl. destruct (negb (p x)); by constructor.
Qed.

Lemma keys_remove (p : Index → bool) l :
  NoDup (index_key <$> l) → NoDup (index_key <$> remove_if p l).
Proof. intros Hl. eapply sublist_NoDup; [exact Hl|]. apply fmap_sublist, remove_if_sublist. Qed.

Lemma add_index_keys l i : NoDup (index_key <$> l) → NoDup (index_key <$> add_index l i).
Proof.
  intros Hl. unfold add_index. rewrite fmap_app. apply NoDup_app. split_and!.
  - by apply keys_remove.
  - intros k (j & -> & [_ Hj]%elem_of_remove_if)%list_elem_of_fmap Hk.
    rewrite replaced_by_key in Hj. apply bool_decide_eq_false in Hj.
    apply list_elem_of_singleton in Hk. done.
  - apply NoDup_singleton.
Qed.

Lemma resolve_indexes_keys aff dropped added l :
  NoDup (index_key <$> l) → NoDup (index_key <$> resolve_indexes aff dropped added l).
Proof.
  intros Hl. unfold resolve_indexes.
  apply keys_remove with (p := λ idx, bool_decide (column_name idx ∈ aff)) in Hl.
  set (l1 := remove_if _ l) in *. clearbody l1. clear l.
  assert (NoDup (index_key <$>
    foldl (λ l d, remove_if (λ idx, index_id idx =? d) l) l1 dropped)) as Hd.
  { revert l1 Hl. induction dropped as [|d dropped IH]; intros l1 Hl; [done|]. cbn [foldl].
    by apply IH, keys_remove. }
  set (l2 := foldl _ l1 dropped) in *. clearbody l2. clear l1 Hl.
  revert l2 Hd. induction added as [|i added IH]; intros l2 Hd; [done|]. cbn [foldl].
  by apply IH, add_index_keys.
Qed.

(** An index that survives was there or was added; the old ones are not on an
    affected column and were not dropped. *)
Lemma resolve_indexes_elem aff dropped added l i : i ∈ resolve_indexes aff dropped added l →
  i ∈ added ∨ (i ∈ l ∧ column_name i ∉ aff ∧ index_id i ∉ dropped).
Proof.
  unfold resolve_indexes.
  set (l1 := remove_if (λ idx, bool_decide (column_name idx ∈ aff)) l).
  assert (∀ i l1, i ∈ foldl (λ l d, remove_if (λ idx, index_id idx =? d) l) l1 dropped →
    i ∈ l1 ∧ index_id i ∉ dropped) as Hdrop.
  { clear. induction dropped as [|d dropped IH]; intros i l1 Hi; [set_solver|].
    cbn [foldl] in Hi. apply IH in Hi as [[Hi Hd]%elem_of_remove_if Hn]. split; [done|].
    apply Z.eqb_neq in Hd. set_solver. }
  assert (∀ i l2, i ∈ foldl add_index l2 added → i ∈ added ∨ i ∈ l2) as Hadd.
  { clear. induction added as [|n added IH]; intros i l2 Hi; [by right|].
    cbn [foldl] in Hi. apply IH in Hi as [Hi|Hi]; [set_solver|]. unfold add_index in Hi.
    rewrite elem_of_app, elem_of_remove_if, list_elem_of_singleton in Hi. set_solver. }
  intros [Hi|Hi]%Hadd; [by left|]. apply Hdrop in Hi as [Hi Hn].
  apply elem_of_remove_if in Hi as [Hi Ha%bool_decide_eq_false]. by right.
Qed.

Lemma drop_columns_indexes cols : ∀ ps idx h h' qs idx',
  drop_columns cols ps idx h = (h', Ok (qs, idx')) →
  idx' `sublist_of` idx ∧ ∀ i, i ∈ idx' → column_name i ∉ cols.
Proof.
  induction cols as [|c cols IH]; intros ps idx h h' qs idx' Hb; cbn [drop_columns] in Hb.
  - injection Hb as <- <- <-. set_solver.
  - apply M_bind_Ok_inv in Hb as (h1 & [] & _ & Hb).
    apply M_bind_Ok_inv in Hb as (h2 & qs2 & _ & Hb). apply IH in Hb as [Hs Hi]. split.
    + etrans; [exact Hs|]. apply remove_if_sublist.
    + intros i Hin. specialize (Hi i Hin). eapply elem_of_sublist in Hs; [|exact Hin].
      apply elem_of_remove_if in Hs as [_ Hc%bool_decide_eq_false]. set_solver.
Qed.

(** The plain parts of the result of any successful run. *)
Lemma applyUpdates_plain m u h h' m' : applyUpdates m u h = (h', Ok m') →
  ∃ aff idx, idx `sublist_of` indexes_ m ∧
    (∀ i, i ∈ idx → column_name i ∉ dropped_columns_ u) ∧
    indexes_ m' = resolve_indexes aff (dropped_indexes_ u) (added_indexes_ u) idx ∧
    version_ m' = version_ m ∧ delta_logs_ m' = delta_logs_ m ++ added_delta_logs_ u ∧
    stats_ m' = added_stats_ u ∪ stats_ m ∧ lob_files_ m' = lob_files_ m ++ added_lob_files_ u.
Proof.
  unfold applyUpdates. intros Hb. apply M_bind_Ok_inv in Hb as (h1 & base & Hc & Hb).
  unfold copy_manifest in Hc. apply M_bind_Ok_inv in Hc as (? & ? & _ & [= <- <-]).
  apply M_bind_Ok_inv in Hb as (h2 & [cgs idx] & Hd & Hb).
  apply M_bind_Ok_inv in Hb as (? & [] & _ & Hb). apply M_bind_Ok_inv in Hb as (? & [] & _ & Hb).
  apply M_bind_Ok_inv in Hb as (? & aff & _ & Hb). apply M_bind_Ok_inv in Hb as (? & ? & _ & Hb).
  injection Hb as <- <-. apply drop_columns_indexes in Hd as [Hs Hi].
  exists aff, idx. by split_and!.
Qed.

(** *** Columns *)

Lemma has_column_true c gs : has_column c gs = true ↔ ∃ g, g ∈ gs ∧ c ∈ columns g.
Proof.
  unfold has_column. rewrite existsb_exists. split.
  - intros (g & Hg%list_elem_of_In & Hc%bool_decide_eq_true). eauto.
  - intros (g & Hg%list_elem_of_In & Hc). exists g. by rewrite bool_decide_true.
Qed.

(** What dropping columns leaves of each group, in order. *)
Lemma drop_spec_elem cols : ∀ gs g, g ∈ drop_spec cols gs →
  ∃ g0, g0 ∈ gs ∧ format g = format g0 ∧ files g = files g0 ∧
    columns g `sublist_of` columns g0 ∧ (∀ c, c ∈ columns g ↔ c ∈ columns g0 ∧ c ∉ cols).
Proof.
  induction cols as [|c cols IH]; intros gs g Hg.
  - exists g. set_solver.
  - change (drop_spec (c :: cols) gs) with (drop_spec cols (drop_column_spec c gs)) in Hg.
    apply IH in Hg as (g1 & Hg1 & Hf & Hfi & Hs & Hc). unfold drop_column_spec in Hg1.
    apply elem_of_remove_if in Hg1 as [(g0 & -> & Hg0)%list_elem_of_fmap _]. exists g0.
    cbn [columns format files] in *. split_and!; [done..| |].
    + etrans; [exact Hs|]. apply remove_if_sublist.
    + intros x. rewrite Hc, elem_of_remove_if, bool_decide_eq_false. set_solver.
Qed.

Lemma zip_append_columns gs ns : columns <$> zip_append gs ns = columns <$> gs.
Proof. revert ns. induction gs as [|g gs IH]; intros [|n ns]; cbn; [done..|]. by f_equal. Qed.

Lemma has_column_columns c gs gs' :
  columns <$> gs = columns <$> gs' → has_column c gs = has_column c gs'.
Proof.
  revert gs'. induction gs as [|g gs IH]; intros [|g' gs'] He; try done.
  injection He as Hg He. unfold has_column in *. cbn [existsb]. by rewrite Hg, (IH gs').
Qed.

Lemma zip_append_ne gs ns : zip_append gs ns ≠ [] ↔ gs ≠ [].
Proof. by destruct gs, ns. Qed.

Lemma append_spec_columns gs appended : gs ≠ [] →
  columns <$> append_spec gs appended = columns <$> gs.
Proof.
  unfold append_spec. revert gs. induction appended as [|ns appended IH]; intros gs Hne; [done|].
  cbn [foldl]. destruct gs as [|g gs]; [done|]. rewrite IH by by rewrite zip_append_ne.
  apply zip_append_columns.
Qed.

(** *** Row counts and column uniqueness *)

Definition rows (g : ColumnGroup) : Z :=
  wrap_u64 (sum_Z ((λ f, end_index f - start_index f) <$> files g)).

(** Every group has the same number of rows, and no column is in two groups. *)
Record groups_wf (gs : list ColumnGroup) : Prop := {
  rows_aligned : ∃ r, ∀ g, g ∈ gs → rows g = r;
  columns_unique : NoDup (mjoin (columns <$> gs));
}.

Lemma group_rows_eq g r : group_rows g = Ok r → r = rows g.
Proof.
  unfold group_rows, rows.
  assert (∀ l a r, 0 ≤ a < UINT64_MOD → fold_out (λ rows f,
    let n := end_index f - start_index f in
    if in_int64 n then Ok (wrap_u64 (rows + n)) else (Ub : Result Z)) l a = Ok r →
    r = wrap_u64 (a + sum_Z ((λ f, end_index f - start_index f) <$> l))) as Hgen.
  { clear. induction l as [|f l IH]; intros a r Ha Hf; cbn [fold_out] in Hf.
    - injection Hf as <-. cbn. by rewrite Z.add_0_r, wrap_u64_small.
    - apply bind_Ok_inv in Hf as (b & Hb & Hf). cbn zeta in Hb.
      destruct (in_int64 _); [|done]. injection Hb as <-.
      apply IH in Hf; [|apply wrap_u64_range]. rewrite Hf, wrap_u64_idemp_add. f_equal.
      rewrite fmap_cons. unfold sum_Z. simpl. lia. }
  intros Hg. apply (Hgen _ 0) in Hg; [done|]. unfold UINT64_MOD. lia.
Qed.

Lemma rows_append g n : rows (mkGroup (columns g) (format g) (files g ++ files n)) =
  wrap_u64 (rows g + rows n).
Proof.
  unfold rows. cbn [files]. rewrite fmap_app, sum_Z_app. unfold wrap_u64.
  rewrite Z.add_mod by done. reflexivity.
Qed.

Lemma join_sublist (l1 l2 : list (list string)) : Forall2 sublist l1 l2 →
  mjoin l1 `sublist_of` mjoin l2.
Proof.
  induction 1 as [|x y l1 l2 Hxy Hl IH]; [done|].
  change (mjoin (x :: l1)) with (x ++ mjoin l1). change (mjoin (y :: l2)) with (y ++ mjoin l2).
  by apply sublist_app.
Qed.

Lemma drop_column_sublist c gs :
  mjoin (columns <$> drop_column_spec c gs) `sublist_of` mjoin (columns <$> gs).
Proof.
  unfold drop_column_spec. induction gs as [|g gs IH]; [done|].
  rewrite !fmap_cons. unfold remove_if at 1. cbn [List.filter columns].
  fold (remove_if (λ x, bool_decide (x = c)) (columns g)).
  change (mjoin (columns g :: ?l)) with (columns g ++ mjoin l). case_bool_decide; cbn [negb].
  - by apply sublist_inserts_l.
  - rewrite fmap_cons. cbn [columns]. change (mjoin (?x :: ?l)) with (x ++ mjoin l).
    apply sublist_app; [apply remove_if_sublist|done].
Qed.

Lemma drop_spec_wf cols gs : groups_wf gs → groups_wf (drop_spec cols gs).
Proof.
  intros [[r Hr] Hc]. split.
  - exists r. intros g (g0 & Hg0 & _ & Hf & _)%drop_spec_elem. rewrite <- (Hr g0 Hg0).
    unfold rows. by rewrite Hf.
  - clear r Hr. revert gs Hc. induction cols as [|c cols IH]; intros gs Hc; [done|].
    apply IH. eapply sublist_NoDup; [exact Hc|]. apply drop_column_sublist.
Qed.

Lemma zip_append_rows r k gs ns : length gs = length ns →
  (∀ g, g ∈ gs → rows g = r) → (∀ n, n ∈ ns → rows n = k) →
  ∀ g, g ∈ zip_append gs ns → rows g = wrap_u64 (r + k).
Proof.
  revert ns. induction gs as [|g gs IH]; intros [|n ns] Hlen Hr Hk x Hx; try done.
  - by apply elem_of_nil in Hx.
  - cbn [zip_append] in Hx. apply elem_of_cons in Hx as [->|Hx].
    + rewrite rows_append, Hr, Hk by left. done.
    + eapply IH; [|intros ? ?; apply Hr; by right|intros ? ?; apply Hk; by right|exact Hx].
      simpl in Hlen. lia.
Qed.

(** What the validation of a batch establishes. *)
Definition same_shape (g n : ColumnGroup) : Prop :=
  length (columns g) = length (columns n) ∧ format g = format n ∧
  ∀ c, c ∈ columns g ↔ c ∈ columns n.

Lemma check_shape_Ok g n : check_shape g n = Ok tt → same_shape g n.
Proof.
  unfold check_shape. destruct (Nat.eqb_spec (length (columns g)) (length (columns n))); [|done].
  destruct (String.eqb_spec (format g) (format n)); [|done]. cbn [negb].
  case_bool_decide as Hc; [|done]. cbn [negb]. intros _. split_and!; [done|done|]. intros c.
  by rewrite <- !(elem_of_list_to_set (C:=gset string)), Hc.
Qed.

Lemma check_appended_Ok gs ns : gs ≠ [] → check_appended gs ns = Ok tt → Forall2 same_shape gs ns.
Proof.
  intros Hne. unfold check_appended. rewrite bool_decide_false by by destruct gs. cbn [negb andb].
  destruct (Nat.eqb_spec (length gs) (length ns)) as [Hlen|]; [|done]. cbn [negb].
  rewrite check_all_Ok. revert ns Hlen. clear Hne.
  induction gs as [|g gs IH]; intros [|n ns] Hlen Hall; try done.
  apply Forall_cons in Hall as [Hg Hall]. constructor; [by apply check_shape_Ok|].
  apply IH; [simpl in Hlen; lia|done].
Qed.

Lemma append_spec_aligned gs appended : gs ≠ [] →
  Forall (Forall2 same_shape gs) appended →
  (∃ r, ∀ g, g ∈ gs → rows g = r) →
  Forall (λ ns, ∃ k, ∀ n, n ∈ ns → rows n = k) appended →
  ∃ r, ∀ g, g ∈ append_spec gs appended → rows g = r.
Proof.
  intros Hne Hsh [r Hr] Hal.
  assert (Forall (λ ns : list ColumnGroup, length ns = length gs) appended) as Hlen.
  { eapply Forall_impl; [exact Hsh|]. intros ns Hns. by apply Forall2_length in Hns. }
  clear Hsh. revert gs r Hne Hr Hlen. induction Hal as [|ns appended [k Hk] Hal IH]; intros gs r Hne Hr Hlen.
  - by exists r.
  - apply Forall_cons in Hlen as [Hl Hlen]. unfold append_spec in *. cbn [foldl].
    destruct gs as [|g gs]; [done|].
    apply (IH (zip_append (g :: gs) ns) (wrap_u64 (r + k))); [by rewrite zip_append_ne| |].
    + by apply zip_append_rows.
    + eapply Forall_impl; [exact Hlen|]. intros x ->.
      pose proof (f_equal length (zip_append_columns (g :: gs) ns)) as Hz.
      by rewrite !length_fmap in Hz.
Qed.

Lemma check_added_Ok gs g : check_added gs g = Ok tt →
  (∀ c, c ∈ columns g → has_column c gs = false) ∧
  (∀ g0 rest, gs = g0 :: rest → rows g = rows g0).
Proof.
  unfold check_added. destruct (existsb _ _) eqn:He; [done|]. intros Hr. split.
  - intros c Hc. destruct (has_column c gs) eqn:Hh; [|done].
    assert (existsb (λ c, has_column c gs) (columns g) = true); [|congruence].
    apply existsb_exists. exists c. by rewrite <- list_elem_of_In.
  - intros g0 rest ->. apply bind_Ok_inv in Hr as (r0 & H0%group_rows_eq & Hr).
    apply bind_Ok_inv in Hr as (r1 & H1%group_rows_eq & Hr).
    destruct (Z.eqb_spec r0 r1); [|done]. congruence.
Qed.

(** What a successful application has checked, and the groups it yields. *)
Lemma apply_spec_Ok mv uv mv' : apply_spec mv uv = Ok mv' →
  let gs := drop_spec (dropped_columns_ uv) (groups mv) in
  Forall (λ g, check_added gs g = Ok tt) (added_column_groups_ uv) ∧
  Forall (λ ns, check_appended gs ns = Ok tt) (appended_files_ uv) ∧
  groups mv' = append_spec gs (appended_files_ uv) ++ added_column_groups_ uv.
Proof.
  intros Hb gs. unfold apply_spec in Hb. apply bind_Ok_inv in Hb as ([] & H1%check_all_Ok & Hb).
  apply bind_Ok_inv in Hb as ([] & H2%check_all_Ok & [= <-]). split_and!; [done|done|].
  by apply groups_some.
Qed.

Lemma applyUpdates_Ok h m mv u uv h' m' :
  manifest_view h m mv → updates_view h u uv → updates_distinct u →
  applyUpdates m u h = (h', Ok m') →
  ∃ mv', apply_spec mv uv = Ok mv' ∧ manifest_view h' m' mv'.
Proof.
  intros Hv Hu Hd Ha. pose proof (applyUpdates_refines h m mv u uv Hv Hu Hd) as Hr.
  destruct (apply_spec mv uv) as [mv'|e|].
  - destruct Hr as (h2 & m2 & He & Hv2 & _). exists mv'. split; [done|].
    rewrite He in Ha. by injection Ha as <- <-.
  - destruct Hr as (h2 & He & _). congruence.
  - destruct Hr as (h2 & He). congruence.
Qed.

(** *** Error returns *)

(** Every error a computation returns is [Invalid]. *)
Definition only_invalid {A} (m : M Heap Status A) : Prop :=
  ∀ h h' e, m h = (h', Err e) → e = status_Invalid.

Section only_invalid.
Lemma inv_bind {A B} (m : M Heap Status A) (f : A → M Heap Status B) :
  only_invalid m → (∀ a, only_invalid (f a)) → only_invalid (m ≫= f).
Proof.
  intros Hm Hf h h' e Hb.
  apply M_bind_inv in Hb as [(s1 & a & _ & Hb)|[(e' & Hb & He)|[_ ?]]]; [by eapply Hf| |done].
  apply Hm in Hb. congruence.
Qed.
Lemma inv_ret {A} (a : A) : only_invalid (mret a).
Proof. by intros h h' e [=]. Qed.
Lemma inv_fail {A} : only_invalid (A:=A) (fail status_Invalid).
Proof. by intros h h' e [= _ <-]. Qed.
Lemma inv_undefined {A} : only_invalid (A:=A) undefined.
Proof. by intros h h' e [=]. Qed.
Lemma inv_load p : only_invalid (load p).
Proof. intros h h' e. unfold load. destruct p as [l|]; [|done]. by destruct (h !! l). Qed.
Lemma inv_store p g : only_invalid (store p g).
Proof. intros h h' e. unfold store. destruct p as [l|]; [|done]. by destruct (h !! l). Qed.
Lemma inv_for_each {A} (f : A → M Heap Status unit) l :
  (∀ a, only_invalid (f a)) → only_invalid (for_each f l).
Proof. intros Hf. induction l; [apply inv_ret|]. by apply inv_bind. Qed.
Lemma inv_lift {A} (o : Result A) : (∀ e, o = Err e → e = status_Invalid) → only_invalid (lift o).
Proof. intros Ho h h' e [= _ He]. by apply Ho. Qed.
Lemma inv_copy ps : only_invalid (copy_column_groups ps).
Proof.
  induction ps as [|[l|] ps IH]; cbn [copy_column_groups].
  - apply inv_ret.
  - apply inv_bind; [apply inv_load|intros g]. apply inv_bind; [by intros h h' e [=]|intros p].
    apply inv_bind; [done|intros; apply inv_ret].
  - apply inv_bind; [done|intros; apply inv_ret].
Qed.
Lemma inv_find c ps : only_invalid (find_column_group c ps).
Proof.
  induction ps as [|p ps IH]; cbn [find_column_group]; [apply inv_ret|].
  apply inv_bind; [apply inv_load|intros g]. case_decide; [apply inv_ret|done].
Qed.
Lemma group_rows_no_err g e : group_rows g ≠ Err e.
Proof.
  unfold group_rows. generalize 0. induction (files g) as [|f l IH]; intros z; cbn [fold_out]; [done|].
  destruct (in_int64 _); [|done]. rewrite bind_Ok. apply IH.
Qed.
Lemma check_shape_err g n e : check_shape g n = Err e → e = status_Invalid.
Proof. unfold check_shape. repeat case_match; congruence. Qed.
End only_invalid.
#[export] Hint Resolve inv_bind inv_ret inv_fail inv_undefined inv_load inv_store inv_for_each
  inv_lift inv_copy inv_find check_shape_err : milvus.

Lemma inv_drop_columns cols : ∀ ps idx, only_invalid (drop_columns cols ps idx).
Proof.
  assert (∀ ps, only_invalid (drop_empty_groups ps)) as Hde.
  { induction ps; cbn [drop_empty_groups]; eauto 6 with milvus. }
  induction cols as [|c cols IH]; intros ps idx; cbn [drop_columns]; [eauto with milvus|].
  apply inv_bind; [|intros; by apply inv_bind]. apply inv_for_each. intros [l|]; eauto with milvus.
Qed.

Lemma inv_validate_added ps p : only_invalid (validate_added ps p).
Proof.
  assert (∀ g, only_invalid (lift (group_rows g))) as Hrows.
  { intros g. apply inv_lift. intros e He. by apply group_rows_no_err in He. }
  unfold validate_added. destruct p as [l|]; [|apply inv_fail].
  apply inv_bind; [apply inv_load|intros g]. apply inv_bind.
  - apply inv_for_each. intros c. apply inv_bind; [apply inv_find|intros r].
    destruct (bool_decide _); eauto with milvus.
  - intros _. destruct ps as [|p0 ps]; [eauto with milvus|].
    apply inv_bind; [apply inv_load|intros g0]. apply inv_bind; [done|intros r0].
    apply inv_bind; [done|intros r]. destruct (negb _); eauto with milvus.
Qed.

Lemma inv_validate_appended ps qs : only_invalid (validate_appended ps qs).
Proof.
  unfold validate_appended. destruct (_ && _); [apply inv_fail|].
  apply inv_for_each. intros [[p|] [q|]]; eauto 6 with milvus.
Qed.

Lemma inv_affected l : ∀ acc, only_invalid (affected_columns l acc).
Proof.
  assert (∀ qs acc, only_invalid (affected_in qs acc)) as Hin.
  { induction qs as [|[q|] qs IH]; intros acc; cbn [affected_in]; eauto with milvus. }
  induction l as [|qs l IH]; intros acc; cbn [affected_columns]; eauto with milvus.
Qed.

Lemma inv_append l : ∀ ps, only_invalid (append_files ps l).
Proof.
  assert (∀ pq, only_invalid (append_group pq)) as Hg.
  { intros [[p|] [q|]]; cbn [append_group]; [|apply inv_ret..].
    apply inv_bind; [apply inv_load|intros n]. apply inv_bind; [apply inv_load|intros g].
    destruct (_ && _); eauto with milvus. }
  induction l as [|qs l IH]; intros [|p ps]; cbn [append_files]; eauto with milvus.
Qed.

(** *** Kept data *)

Lemma zip_append_lookup gs ns i g : gs !! i = Some g →
  zip_append gs ns !! i =
    Some (mkGroup (columns g) (format g) (files g ++ default [] (files <$> ns !! i))).
Proof.
  revert ns i. induction gs as [|x gs IH]; intros ns i Hi; [done|].
  destruct ns as [|n ns].
  - cbn. rewrite app_nil_r. destruct g. by rewrite Hi.
  - destruct i as [|i]; [|exact (IH ns i Hi)]. cbn in *. by injection Hi as ->.
Qed.

(** The files the batches append to the group at position [i]. *)
Definition appended_at (i : nat) (appended : list (list ColumnGroup)) : list ColumnGroupFile :=
  mjoin ((λ ns : list ColumnGroup, default [] (files <$> ns !! i)) <$> appended).

Lemma append_spec_lookup appended : ∀ gs i g, gs !! i = Some g →
  append_spec gs appended !! i =
    Some (mkGroup (columns g) (format g) (files g ++ appended_at i appended)).
Proof.
  induction appended as [|ns appended IH]; intros gs i g Hi.
  - unfold append_spec, appended_at. cbn. rewrite app_nil_r, Hi. by destruct g.
  - unfold append_spec in *. cbn [foldl]. destruct gs as [|g0 gs]; [done|].
    erewrite IH by by apply zip_append_lookup. cbn [columns format files].
    unfold appended_at. rewrite fmap_cons.
    change (mjoin (?x :: ?l)) with (x ++ mjoin l). by rewrite app_assoc.
Qed.

(** ** Properties *)

(** C5: [applyUpdates] refines its value specification.  For a manifest
    without null groups and updates whose group objects are distinct, the run
    on the heap returns exactly what [apply_spec] returns on the values: the
    same manifest, or the same error with nothing changed.  No object that
    existed before changes, except groups the caller passed to [AppendFiles];
    and not even those when the base keeps a group or there is at most one
    append, so that the (possibly cached) source manifest is never mutated. *)
Theorem apply_updates_refines (h : Heap) (m : Manifest loc) (mv : Manifest ColumnGroup)
    (u : Updates ColumnGroupPtr) (uv : Updates ColumnGroup) :
  manifest_view h m mv → updates_view h u uv → updates_distinct u →
  match apply_spec mv uv with
  | Ok mv' => ∃ h' m', applyUpdates m u h = (h', Ok m') ∧ manifest_view h' m' mv' ∧
      (∀ l g, h !! l = Some g → Some l ∉ mjoin (appended_files_ u) → h' !! l = Some g) ∧
      (drop_spec (dropped_columns_ u) (groups mv) ≠ [] ∨ (length (appended_files_ u) ≤ 1)%nat →
         h `prefix_of` h')
  | Err e => ∃ h', applyUpdates m u h = (h', Err e) ∧ h `prefix_of` h'
  | Ub => ∃ h', applyUpdates m u h = (h', Ub)
  end.
Proof. apply applyUpdates_refines. Qed.

(** The identity of indexes stays unique.  If no two indexes of the
    manifest have the same identity (the index id, or column and type for
    entries without an id), then none of the result have, whatever indexes the
    updates add; an added index is in the result unless a later one replaces
    it, and every other index of the result was there before, is not on a
    dropped column and does not have a dropped id. *)
Theorem index_identity_unique (h h' : Heap) (m m' : Manifest loc) (u : Updates ColumnGroupPtr) :
  NoDup (index_key <$> indexes_ m) → applyUpdates m u h = (h', Ok m') →
  NoDup (index_key <$> indexes_ m') ∧
  (∀ i, last (added_indexes_ u) = Some i → i ∈ indexes_ m') ∧
  (∀ i, i ∈ indexes_ m' → i ∈ added_indexes_ u ∨
     (i ∈ indexes_ m ∧ column_name i ∉ dropped_columns_ u ∧ index_id i ∉ dropped_indexes_ u)).
Proof.
  intros Hnd Ha. destruct (applyUpdates_plain _ _ _ _ _ Ha) as (aff & idx & Hs & Hi & -> & _).
  split_and!.
  - apply resolve_indexes_keys. eapply sublist_NoDup; [exact Hnd|]. by apply fmap_sublist.
  - intros i [l Hl]%last_Some. rewrite Hl. unfold resolve_indexes.
    rewrite foldl_app. cbn [foldl]. unfold add_index at 1. apply elem_of_app. right. by left.
  - intros i [Hin|(Hin & _ & Hd)]%resolve_indexes_elem; [by left|]. right.
    split_and!; [by eapply elem_of_sublist|by apply Hi|done].
Qed.

(** dropped columns are gone.  After a successful application, a dropped
    column that the updates do not add again is in no group of the result and
    every index on it is one the updates added. *)
Theorem dropped_columns_gone (h h' : Heap) (m m' : Manifest loc) (mv : Manifest ColumnGroup)
    (u : Updates ColumnGroupPtr) (uv : Updates ColumnGroup) (c : string) :
  manifest_view h m mv → updates_view h u uv → updates_distinct u →
  applyUpdates m u h = (h', Ok m') →
  c ∈ dropped_columns_ u →
  has_column c (added_column_groups_ uv) = false →
  has_column c (mjoin (appended_files_ uv)) = false →
  ∃ mv', manifest_view h' m' mv' ∧ has_column c (groups mv') = false ∧
    ∀ i, i ∈ indexes_ m' → column_name i = c → i ∈ added_indexes_ u.
Proof.
  intros Hv Hu Hd Ha Hc Hadd Happ.
  destruct (applyUpdates_Ok _ _ _ _ _ _ _ Hv Hu Hd Ha) as (mv' & Hs & Hv').
  exists mv'. split_and!; [done| |].
  - destruct (apply_spec_Ok _ _ _ Hs) as (_ & _ & Hg). rewrite Hg.
    assert (∀ gs appended, has_column c gs = false → has_column c (mjoin appended) = false →
      has_column c (append_spec gs appended) = false) as Hkeep.
    { clear. intros gs appended. revert gs.
      induction appended as [|ns appended IH]; intros gs Hg Ha; [done|].
      change (mjoin (ns :: appended)) with (ns ++ mjoin appended) in Ha.
      unfold has_column in Ha at 1. rewrite existsb_app in Ha. apply orb_false_iff in Ha as [Hn Ha].
      unfold append_spec in *. cbn [foldl]. apply IH; [|done]. destruct gs as [|g gs]; [done|].
      rewrite <- Hg. apply has_column_columns, zip_append_columns. }
    unfold has_column at 1. rewrite existsb_app. apply orb_false_iff. split; [|done].
    apply Hkeep; [|done]. apply not_true_is_false. intros He.
    apply has_column_true in He as (g & (g0 & _ & _ & _ & _ & Hcg)%drop_spec_elem & Hin).
    destruct Hu as (_ & _ & Hdc & _). rewrite Hdc in Hcg. apply Hcg in Hin as [_ Hn]. done.
  - intros i Hi Hic. destruct (applyUpdates_plain _ _ _ _ _ Ha) as (aff & idx & _ & Hdr & Heq & _).
    rewrite Heq in Hi. apply resolve_indexes_elem in Hi as [Hi|(Hi & _)]; [done|].
    apply Hdr in Hi. by rewrite Hic in Hi.
Qed.

(** C32: row alignment and column uniqueness are kept.  If all groups of the
    manifest have the same number of rows and no column is in two groups, the
    same holds for the result, provided the base keeps a group after the
    drops, the added groups have distinct columns, each appended batch is
    itself aligned, and the updates do not both append files and add groups.
    (The code checks none of the last three: two added groups may share a
    column, and a group added next to an append is compared with the rows
    before the append.) *)
Theorem apply_updates_keeps_groups_wf (h h' : Heap) (m m' : Manifest loc)
    (mv : Manifest ColumnGroup) (u : Updates ColumnGroupPtr) (uv : Updates ColumnGroup) :
  manifest_view h m mv → updates_view h u uv → updates_distinct u →
  applyUpdates m u h = (h', Ok m') →
  groups_wf (groups mv) →
  drop_spec (dropped_columns_ u) (groups mv) ≠ [] →
  NoDup (mjoin (columns <$> added_column_groups_ uv)) →
  Forall (λ ns, ∃ k, ∀ n, n ∈ ns → rows n = k) (appended_files_ uv) →
  added_column_groups_ uv = [] ∨ appended_files_ uv = [] →
  ∃ mv', manifest_view h' m' mv' ∧ groups_wf (groups mv').
Proof.
  intros Hv Hu Hd Ha Hwf Hne Hnd Hal Hone.
  destruct (applyUpdates_Ok _ _ _ _ _ _ _ Hv Hu Hd Ha) as (mv' & Hs & Hv').
  exists mv'. split; [done|]. destruct (apply_spec_Ok _ _ _ Hs) as (Hca & Hcp & ->).
  destruct Hu as (_ & _ & Hdc & _). rewrite Hdc in *.
  set (gs := drop_spec _ _) in *. pose proof (drop_spec_wf (dropped_columns_ u) _ Hwf) as [Hr Hc].
  fold gs in Hr, Hc.
  assert (Forall (Forall2 same_shape gs) (appended_files_ uv)) as Hshape.
  { eapply Forall_impl; [exact Hcp|]. intros ns Hn. by apply check_appended_Ok. }
  split.
  - destruct (append_spec_aligned gs (appended_files_ uv) Hne Hshape Hr Hal) as [r' Hr'].
    destruct Hone as [->| ->]; [exists r'; by rewrite app_nil_r|].
    destruct Hr as [r Hr]. exists r. intros g [Hg|Hg]%elem_of_app; [by apply Hr|].
    rewrite Forall_forall in Hca. apply Hca in Hg as [_ Hrow]%check_added_Ok.
    destruct gs as [|g0 gs']; [done|]. rewrite (Hrow g0 gs' eq_refl). apply Hr. by left.
  - rewrite fmap_app, join_app, append_spec_columns by done. apply NoDup_app. split_and!; [done| |done].
    intros c Hin Hin'. apply list_elem_of_join in Hin as (cs & Hcs & (g & -> & Hg)%list_elem_of_fmap).
    apply list_elem_of_join in Hin' as (cs' & Hcs' & (g' & -> & Hg')%list_elem_of_fmap).
    rewrite Forall_forall in Hca. apply Hca in Hg' as [Hnew _]%check_added_Ok.
    specialize (Hnew c Hcs'). assert (has_column c gs = true); [|congruence].
    apply has_column_true. eauto.
Qed.

(** what is accepted is consistent, and nothing is lost.  A successful
    application has checked that no added column exists in the base after the
    drops and, when the base has groups, that every appended batch has the
    same number of groups with the same columns and formats.  Every group of
    such a base is kept at its position with its columns and format, and its
    files are the old ones followed by those of the batches, in order; the
    added groups follow; delta logs and lob files are extended, and statistics
    overridden by key. *)
Theorem apply_updates_validated (h h' : Heap) (m m' : Manifest loc)
    (mv : Manifest ColumnGroup) (u : Updates ColumnGroupPtr) (uv : Updates ColumnGroup) :
  manifest_view h m mv → updates_view h u uv → updates_distinct u →
  applyUpdates m u h = (h', Ok m') →
  let gs := drop_spec (dropped_columns_ u) (groups mv) in
  ∃ mv', manifest_view h' m' mv' ∧
    (∀ g c, g ∈ added_column_groups_ uv → c ∈ columns g → has_column c gs = false) ∧
    (gs ≠ [] → Forall (Forall2 same_shape gs) (appended_files_ uv)) ∧
    (∀ i g, gs !! i = Some g → groups mv' !! i =
       Some (mkGroup (columns g) (format g) (files g ++ appended_at i (appended_files_ uv)))) ∧
    (gs ≠ [] → drop (length gs) (groups mv') = added_column_groups_ uv) ∧
    delta_logs_ m' = delta_logs_ m ++ added_delta_logs_ u ∧
    lob_files_ m' = lob_files_ m ++ added_lob_files_ u ∧
    (∀ k, stats_ m' !! k = match added_stats_ u !! k with Some s => Some s | None => stats_ m !! k end).
Proof.
  intros Hv Hu Hd Ha gs.
  destruct (applyUpdates_Ok _ _ _ _ _ _ _ Hv Hu Hd Ha) as (mv' & Hs & Hv').
  destruct (apply_spec_Ok _ _ _ Hs) as (Hca & Hcp & Hg). destruct Hu as (_ & _ & Hdc & _).
  rewrite Hdc in *. fold gs in Hca, Hcp, Hg. rewrite Forall_forall in Hca.
  destruct (applyUpdates_plain _ _ _ _ _ Ha) as (_ & _ & _ & _ & _ & _ & -> & -> & ->).
  exists mv'. split_and!; [done| | | | |done|done|].
  - intros g c Hg' Hc. apply Hca in Hg' as [Hn _]%check_added_Ok. by apply Hn.
  - intros Hne. eapply Forall_impl; [exact Hcp|]. intros ns Hn. by apply check_appended_Ok.
  - intros i g Hi. rewrite Hg. apply lookup_app_l_Some. by apply append_spec_lookup.
  - intros Hne. rewrite Hg. replace (length gs) with (length (append_spec gs (appended_files_ uv))).
    { by rewrite drop_app_length. }
    pose proof (f_equal length (append_spec_columns gs (appended_files_ uv) Hne)) as Hl.
    by rewrite !length_fmap in Hl.
  - intros k. rewrite lookup_union. destruct (added_stats_ u !! k), (stats_ m !! k); done.
Qed.

(** errors.  The only error [applyUpdates] returns, on any heap, manifest
    and updates, is [Invalid]; and updates that add a null group are never
    accepted. *)
Theorem apply_updates_errors (h h' : Heap) (m : Manifest loc) (u : Updates ColumnGroupPtr)
    (r : Result (Manifest loc)) :
  applyUpdates m u h = (h', r) →
  (∀ e, r = Err e → e = status_Invalid) ∧
  (None ∈ added_column_groups_ u → ∀ m', r ≠ Ok m').
Proof.
  intros Ha. split.
  - intros e ->. revert Ha. generalize h, h', e. change (only_invalid (applyUpdates m u)).
    unfold applyUpdates, copy_manifest.
    apply inv_bind; [eauto with milvus|intros base]. apply inv_bind; [apply inv_drop_columns|].
    intros [cgs idx]. apply inv_bind; [apply inv_for_each; intros; apply inv_validate_added|intros _].
    apply inv_bind; [apply inv_for_each; intros; apply inv_validate_appended|intros _].
    apply inv_bind; [apply inv_affected|intros aff]. apply inv_bind; [apply inv_append|].
    intros; apply inv_ret.
  - intros Hn m' ->. unfold applyUpdates in Ha.
    apply M_bind_Ok_inv in Ha as (h1 & base & _ & Ha).
    apply M_bind_Ok_inv in Ha as (h2 & [cgs idx] & _ & Ha).
    apply M_bind_Ok_inv in Ha as (h3 & [] & Ha & _). revert h2 Ha.
    induction (added_column_groups_ u) as [|p l IH]; intros h2 Ha; [by apply elem_of_nil in Hn|].
    apply M_bind_Ok_inv in Ha as (h4 & [] & Hp & Ha).
    apply elem_of_cons in Hn as [<-|Hn]; [done|by eapply IH].
Qed.

(** ** Witnesses *)

Module UpdatesSample.

Definition idx (col : string) (id : Z) : Index :=
  mkIndex col "i" "hnsw" "p" 1 id 0 0 0 0 0 0 0 0 [] ∅.

Definition heap : Heap :=
  [ mkGroup ["id"; "vec"] "parquet" [mkFile "a" 0 100 ∅];
    mkGroup ["txt"; "old"] "parquet" [mkFile "b" 0 100 ∅];
    mkGroup ["vec"; "id"] "parquet" [mkFile "c" 0 7 ∅];
    mkGroup ["txt"] "parquet" [mkFile "d" 10 17 ∅] ].
Definition manifest : Manifest loc :=
  mkManifest 6 [Some 0%nat; Some 1%nat] [] ∅ [idx "txt" 5; idx "old" 6; idx "vec" 0] [].
Definition value : Manifest ColumnGroup := with_groups manifest (Some <$> take 2 heap).

Definition updates : Updates ColumnGroupPtr :=
  AddIndex (idx "txt" 7) (AppendFiles [Some 2%nat; Some 3%nat] (DropColumn "old" no_updates)).
Definition updates_value : Updates ColumnGroup :=
  AddIndex (idx "txt" 7) (AppendFiles (drop 2 heap) (DropColumn "old" no_updates)).

Definition result : Heap * Result (Manifest loc) := Eval vm_compute in applyUpdates manifest updates heap.
Definition result_manifest : Manifest loc :=
  match result.2 with Ok m => m | _ => empty_manifest end.

Lemma run : applyUpdates manifest updates heap = (result.1, Ok result_manifest).
Proof. vm_compute. reflexivity. Defined.

Lemma view : manifest_view heap manifest value.
Proof. exists (take 2 heap). split; [|reflexivity]. repeat constructor. Defined.

Lemma uview : updates_view heap updates updates_value.
Proof. repeat split; repeat constructor. Defined.

Lemma distinct : updates_distinct updates.
Proof.
  split.
  - apply (bool_decide_unpack _); vm_compute; exact I.
  - intros p Hp. apply elem_of_nil in Hp. destruct Hp.
Defined.

Lemma apply_updates_refines_witness :
  ∃ mv' h' m', apply_spec value updates_value = Ok mv' ∧
    applyUpdates manifest updates heap = (h', Ok m') ∧ manifest_view h' m' mv' ∧
    heap `prefix_of` h'.
Proof.
  pose proof (apply_updates_refines heap manifest value updates updates_value view uview distinct)
    as Hr.
  destruct (apply_spec value updates_value) as [mv'| |] eqn:Hs; [|vm_compute in Hs; discriminate..].
  destruct Hr as (h' & m' & Ha & Hv & _ & Hp). exists mv', h', m'. split_and!; [done..|].
  apply Hp. right. vm_compute. lia.
Defined.

Lemma index_identity_unique_witness :
  NoDup (index_key <$> indexes_ manifest) ∧ NoDup (index_key <$> indexes_ result_manifest).
Proof.
  assert (NoDup (index_key <$> indexes_ manifest)) as Hn
    by (apply (bool_decide_unpack _); vm_compute; exact I).
  split; [exact Hn|].
  exact (proj1 (index_identity_unique heap result.1 manifest result_manifest updates Hn run)).
Defined.

Lemma dropped_columns_gone_witness :
  ∃ mv', manifest_view result.1 result_manifest mv' ∧ has_column "old" (groups mv') = false ∧
    ∀ i, i ∈ indexes_ result_manifest → column_name i = "old" → i ∈ added_indexes_ updates.
Proof.
  apply (dropped_columns_gone heap result.1 manifest result_manifest value updates updates_value
    "old" view uview distinct run); [by left|vm_compute; reflexivity..].
Defined.

Lemma wf : groups_wf (groups value).
Proof.
  split.
  - exists 100. intros g Hg. apply elem_of_cons in Hg as [->|Hg]; [vm_compute; reflexivity|].
    apply elem_of_cons in Hg as [->|Hg]; [vm_compute; reflexivity|]. apply elem_of_nil in Hg. done.
  - apply (bool_decide_unpack _); vm_compute; exact I.
Defined.

Lemma apply_updates_keeps_groups_wf_witness :
  ∃ mv', manifest_view result.1 result_manifest mv' ∧ groups_wf (groups mv').
Proof.
  apply (apply_updates_keeps_groups_wf heap result.1 manifest result_manifest value updates
    updates_value view uview distinct run wf).
  - vm_compute. discriminate.
  - constructor.
  - apply Forall_singleton. exists 7. intros n Hn.
    apply elem_of_cons in Hn as [->|Hn]; [vm_compute; reflexivity|].
    apply elem_of_cons in Hn as [->|Hn]; [vm_compute; reflexivity|]. by apply elem_of_nil in Hn.
  - left. reflexivity.
Defined.

Lemma apply_updates_validated_witness :
  ∃ mv', manifest_view result.1 result_manifest mv' ∧
    groups mv' !! 1%nat = Some (mkGroup ["txt"] "parquet" [mkFile "b" 0 100 ∅; mkFile "d" 10 17 ∅]).
Proof.
  destruct (apply_updates_validated heap result.1 manifest result_manifest value updates
    updates_value view uview distinct run) as (mv' & Hv & _ & _ & Hl & _).
  exists mv'. split; [exact Hv|]. rewrite (Hl 1%nat (mkGroup ["txt"] "parquet" [mkFile "b" 0 100 ∅]));
    vm_compute; reflexivity.
Defined.

Lemma apply_updates_errors_witness :
  (applyUpdates manifest (AddColumnGroup None no_updates) heap).2 = Err status_Invalid ∧
  ∀ m', (applyUpdates manifest (AddColumnGroup None no_updates) heap).2 ≠ Ok m'.
Proof.
  split; [vm_compute; reflexivity|].
  apply (proj2 (apply_updates_errors heap _ manifest (AddColumnGroup None no_updates) _
    (surjective_pairing _))). by left.
Defined.

(** *** Behaviours outside the conditions of the theorems *)

(** two appends to an empty table are not idempotent.  With an empty base
    the first batch becomes the base and the second one is appended to the
    caller's own group: whatever the two groups are, the group recorded in the
    updates has changed after one application, and applying the same updates
    again, as a retry of the commit does, yields a manifest with the files of
    the second batch twice. *)
Theorem two_appends_to_empty_duplicate_on_retry (g0 g1 : ColumnGroup) :
  let u := AppendFiles [Some 1%nat] (AppendFiles [Some 0%nat] no_updates) in
  let once := applyUpdates empty_manifest u [g0; g1] in
  let twice := applyUpdates empty_manifest u once.1 in
  once = ([mkGroup (columns g0) (format g0) (files g0 ++ files g1); g1], Ok (mkManifest
    MANIFEST_VERSION [Some 0%nat] [] ∅ [] [])) ∧
  twice = ([mkGroup (columns g0) (format g0) ((files g0 ++ files g1) ++ files g1); g1], Ok (mkManifest
    MANIFEST_VERSION [Some 0%nat] [] ∅ [] [])).
Proof. split; reflexivity. Qed.

(** Appending the same vector twice to an empty base grows a vector while it
    is being iterated over. *)
Lemma same_batch_twice_is_undefined :
  (applyUpdates empty_manifest (AppendFiles [Some 0%nat] (AppendFiles [Some 0%nat] no_updates))
     [mkGroup ["id"] "parquet" [mkFile "a" 0 5 ∅]]).2 = Ub.
Proof. vm_compute. reflexivity. Qed.

(** The rows of an added group are compared with the base before the appends:
    appending and adding in one transaction yields groups of different
    length. *)
Lemma append_and_add_misaligns :
  let h := [mkGroup ["id"] "parquet" [mkFile "a" 0 100 ∅]; mkGroup ["id"] "parquet" [mkFile "b" 0 10 ∅];
            mkGroup ["new"] "parquet" [mkFile "c" 0 100 ∅]] in
  let m := mkManifest 6 [Some 0%nat] [] ∅ [] [] in
  let r := applyUpdates m (AddColumnGroup (Some 2%nat) (AppendFiles [Some 1%nat] no_updates)) h in
  (∃ m', r.2 = Ok m' ∧ column_groups_ m' = [Some 3%nat; Some 2%nat]) ∧
  (rows <$> r.1 !! 3%nat) = Some 110 ∧ (rows <$> r.1 !! 2%nat) = Some 100.
Proof. vm_compute. split; [eexists; split|split]; reflexivity. Qed.

(** Two added groups are only compared with the base, not with each other. *)
Lemma added_groups_may_share_a_column :
  let h := [mkGroup ["x"] "parquet" []; mkGroup ["x"] "parquet" []] in
  ∃ m', (applyUpdates empty_manifest
           (AddColumnGroup (Some 1%nat) (AddColumnGroup (Some 0%nat) no_updates)) h).2 = Ok m' ∧
    column_groups_ m' = [Some 0%nat; Some 1%nat].
Proof. vm_compute. eexists; split; reflexivity. Qed.

(** A null group appended to an empty base is accepted. *)
Lemma null_group_accepted_into_empty :
  ∃ m', (applyUpdates empty_manifest (AppendFiles [None] no_updates) []).2 = Ok m' ∧
    column_groups_ m' = [None].
Proof. vm_compute. eexists; split; reflexivity. Qed.

End UpdatesSample.
