(* ===== verification/Transaction.v ===== *)
(** * Transactions

    The class [Transaction] of [transaction/transaction.h] and
    [transaction.cpp]: opening at a version, the built-in conflict resolvers,
    finding the latest version in the store, and the commit loop.  The fault
    injection points are compiled out in production builds. *)

From S2P Require Import Prelude CppString Status Paths LruCache StorageUri ColumnGroups Manifest ManifestCodec FileSystem ManifestIO Updates.

Definition LATEST : Z := -1.

(** ** Resolvers

    The abstract class [Resolver].  A [shared_ptr<Manifest>] argument may be
    null. *)
Record Resolver := mkResolver {
  resolve : option (Manifest loc) → Z → option (Manifest loc) → Z → Updates ColumnGroupPtr →
    M Heap Status (Manifest loc);
  requireLatest : bool;
}.

(** [applyUpdates] dereferences its first argument. *)
Definition apply_to (manifest : option (Manifest loc)) (updates : Updates ColumnGroupPtr) :
    M Heap Status (Manifest loc) :=
  match manifest with
  | Some m => applyUpdates m updates
  | None => undefined
  end.

Definition OverwriteResolver : Resolver := {|
  resolve read_manifest _ _ _ updates := apply_to read_manifest updates;
  requireLatest := false;
|}.

Definition FailResolver : Resolver := {|
  resolve read_manifest read_version latest_manifest latest_version updates :=
    if read_version =? latest_version then
      apply_to (match latest_manifest with Some m => Some m | None => read_manifest end) updates
    else fail (MakeExtendError TxnResolutionFailed);
  requireLatest := false;
|}.

Record Transaction := mkTxn {
  read_version_ : Z;
  read_manifest_ : option (Manifest loc);
  base_path_ : string;
  updates_ : Updates ColumnGroupPtr;
  resolver_ : Resolver;
  retry_limit_ : Z;      (* uint32_t *)
}.

(** ** Recording updates *)

Definition with_updates (f : Updates ColumnGroupPtr → Updates ColumnGroupPtr) (t : Transaction) :
    Transaction :=
  mkTxn (read_version_ t) (read_manifest_ t) (base_path_ t) (f (updates_ t)) (resolver_ t)
    (retry_limit_ t).

Definition txn_DropColumn (column_name : string) := with_updates (DropColumn column_name).
Definition txn_AddColumnGroup (cg : ColumnGroupPtr) := with_updates (AddColumnGroup cg).
Definition txn_AppendFiles (cgs : ColumnGroups) := with_updates (AppendFiles cgs).
Definition txn_AddDeltaLog (delta_log : DeltaLog) := with_updates (AddDeltaLog delta_log).
Definition txn_UpdateStat (key : string) (stat : Statistics) := with_updates (UpdateStat key stat).
Definition txn_AddIndexInfo (index : Index) := with_updates (AddIndex index).
Definition txn_DropIndex (index_id : Z) := with_updates (DropIndex index_id).
Definition txn_AddLobFile (lob_file : LobFileInfo) := with_updates (AddLobFile lob_file).

Section txn.
Context {S : Type} {FS : FileSystem S} {UP : UriParser} {AV : Avro}.

(** ** Versions in the store *)

(** The version a file name stands for, if any: the prefix is compared, the
    last characters are only counted. *)
Definition parse_version (file_name : string) : option Z :=
  let plen := String.length kManifestFileNamePrefix in
  let slen := String.length kManifestFileNameSuffix in
  if negb (starts_with kManifestFileNamePrefix file_name) then None
  else if (String.length file_name <=? plen + slen)%nat then None
  else
    let version_str :=
      take_str (String.length file_name - plen - slen) (drop_str plen file_name) in
    from_chars_exact INT64_MIN INT64_MAX version_str.

Definition latest_of (file_names : list string) : Z :=
  foldl (λ latest_version file_name,
    match parse_version file_name with
    | None => latest_version
    | Some version => Z.max latest_version version
    end) 0 file_names.

Definition get_latest_version (base_path : string) : M S Status Z :=
  let metadata_dir := get_manifest_path base_path in
  dir_info ← GetFileInfo metadata_dir;
  if bool_decide (dir_info = NotFound) then mret 0
  else
    file_infos ← GetFileInfo_selector metadata_dir;
    mret (latest_of file_infos).

(** ** Reading and writing versions *)

Definition read_manifest (base_path : string) (version : Z) : M (World S) Status (Manifest loc) :=
  if version <=? 0 then mret empty_manifest
  else ReadFrom (get_manifest_filepath base_path version).

Definition write_manifest (base_path : string) (manifest : Manifest loc) (old_version new_version : Z) :
    M (World S) Status unit :=
  WriteTo (get_manifest_filepath base_path new_version) manifest.

(** ** [Open] *)

Definition Open (base_path : string) (read_version : Z) (resolver : Resolver) (retry_limit : Z) :
    M (World S) Status Transaction :=
  storage_uri ← lift (Parse base_path true);
  let base := ToRelativePath storage_uri in
  actual_read_version ← (if read_version =? LATEST then on_fs (get_latest_version base)
                         else mret read_version);
  manifest ← (if 0 <? actual_read_version then read_manifest base actual_read_version
              else mret empty_manifest);
  mret (mkTxn actual_read_version (Some manifest) base no_updates resolver retry_limit).

Definition GetManifest (t : Transaction) : Result (Manifest loc) :=
  match read_manifest_ t with
  | None => Err status_Invalid
  | Some m => Ok m
  end.

Definition GetReadVersion (t : Transaction) : Z := read_version_ t.

(** ** [Commit] *)

(** The lambda [reload_latest_manifest]. *)
Definition reload_latest_manifest (t : Transaction) :
    M (World S) Status (Z * option (Manifest loc)) :=
  latest_version ← on_fs (get_latest_version (base_path_ t));
  if latest_version =? read_version_ t then mret (latest_version, read_manifest_ t)
  else if negb (requireLatest (resolver_ t)) then mret (latest_version, None)
  else
    latest_manifest ← read_manifest (base_path_ t) latest_version;
    mret (latest_version, Some latest_manifest).

(** One iteration of the loop: [Some v] is a committed version, [None] a
    conflict.  Incrementing the largest [int64_t] is undefined. *)
Definition commit_once (t : Transaction) : M (World S) Status (option Z) :=
  '(latest_version, latest_manifest) ← reload_latest_manifest t;
  resolved_manifest ← on_heap (resolve (resolver_ t) (read_manifest_ t) (read_version_ t)
    latest_manifest latest_version (updates_ t));
  committed_version ← (if in_int64 (latest_version + 1) then mret (latest_version + 1)
                       else undefined);
  status ← catch (write_manifest (base_path_ t) resolved_manifest latest_version committed_version);
  match status with
  | inl _ => mret (Some committed_version)
  | inr st => if bool_decide (st_code st = AlreadyExists) then mret None
              else fail status_IOError
  end.

(** The retry loop; [retry_count] is a [uint32_t].  [None] means that the
    iterations given did not suffice. *)
Fixpoint commit_loop (fuel : nat) (retry_count : Z) (t : Transaction) (w : World S) :
    option (World S * Result Z) :=
  if retry_count <=? retry_limit_ t then
    match fuel with
    | O => None
    | Datatypes.S fuel' =>
        match commit_once t w with
        | (w', Ok (Some committed_version)) => Some (w', Ok committed_version)
        | (w', Ok None) =>
            let retry_count := (retry_count + 1) mod 2 ^ 32 in
            if retry_limit_ t <? retry_count
            then Some (w', Err (MakeExtendError TxnExhaustedRetry))
            else commit_loop fuel' retry_count t w'
        | (w', Err e) => Some (w', Err e)
        | (w', Ub) => Some (w', Ub)
        end
    end
  else Some (w, Err status_Invalid).

(** At most [retry_limit + 1] iterations are needed. *)
Definition Commit (t : Transaction) (w : World S) : option (World S * Result Z) :=
  if negb (hasChanges (updates_ t)) then Some (w, Err status_Invalid)
  else commit_loop (Datatypes.S (Z.to_nat (retry_limit_ t))) 0 t w.

End txn.

(** ** Lemmas *)

Lemma wrap_u64_version v : 0 ≤ v ≤ INT64_MAX → wrap_u64 v = v.
Proof. intros Hv. apply wrap_u64_small. unfold INT64_MAX, UINT64_MOD in *. lia. Qed.

(** The name of a manifest file parses back to its version. *)
Lemma parse_version_filename v : 0 ≤ v ≤ INT64_MAX →
  parse_version (get_manifest_filename v) = Some v.
Proof.
  intros Hv. unfold parse_version, get_manifest_filename. rewrite starts_with_app. cbn [negb].
  rewrite wrap_u64_version by done. set (n := to_string v).
  assert (0 < String.length n)%nat as Hn.
  { pose proof (to_string_nonempty v) as He. fold n in He. destruct n; [done|]. simpl. lia. }
  rewrite !length_app_str.
  replace (_ <=? _)%nat with false by (symmetry; apply Nat.leb_gt; lia).
  rewrite drop_str_app.
  replace (_ - _ - _)%nat with (String.length n) by lia. rewrite take_str_app.
  unfold n. apply from_chars_exact_to_string; [|left; done].
  unfold INT64_MIN, INT64_MAX in *. lia.
Qed.

Lemma latest_of_app l1 l2 : latest_of (l1 ++ l2) =
  foldl (λ a n, match parse_version n with None => a | Some v => Z.max a v end) (latest_of l1) l2.
Proof. unfold latest_of. apply foldl_app. Qed.

(** [latest_of] is the greatest version among the names, or 0. *)
Lemma latest_of_spec names :
  0 ≤ latest_of names ∧
  (∀ n v, n ∈ names → parse_version n = Some v → v ≤ latest_of names) ∧
  (latest_of names = 0 ∨ ∃ n, n ∈ names ∧ parse_version n = Some (latest_of names)).
Proof.
  induction names as [|n names IH] using rev_ind.
  - split_and!; [done|by intros ? ? ?%elem_of_nil|by left].
  - destruct IH as (H0 & Hmax & Hex). rewrite latest_of_app. cbn [foldl].
    destruct (parse_version n) as [v|] eqn:Hn.
    + split_and!; [lia| |].
      * intros n' v' [Hin|Hin]%elem_of_app Hv'; [specialize (Hmax _ _ Hin Hv'); lia|].
        apply list_elem_of_singleton in Hin as ->. rewrite Hn in Hv'. injection Hv' as <-. lia.
      * destruct (Z.max_spec (latest_of names) v) as [[_ ->]|[_ ->]].
        -- right. exists n. split; [|done]. apply elem_of_app. right. by left.
        -- destruct Hex as [->|(n' & Hin & Hv')]; [by left|]. right. exists n'.
           split; [|done]. apply elem_of_app. by left.
    + split_and!; [done| |].
      * intros n' v' [Hin|Hin]%elem_of_app Hv'; [by eapply Hmax|].
        apply list_elem_of_singleton in Hin as ->. congruence.
      * destruct Hex as [->|(n' & Hin & Hv')]; [by left|]. right. exists n'.
        split; [|done]. apply elem_of_app. by left.
Qed.

Section store.
Context {S : Type} {FS : FileSystem S} {FL : FsLaws S} {UP : UriParser} {AV : Avro}
  {AL : AvroLaws}.
Implicit Types (w : World S) (t : Transaction).

(** The manifest file of a version exists. *)
Definition has_version (files : gmap string string) (base : string) (v : Z) : Prop :=
  0 ≤ v ≤ INT64_MAX ∧ is_Some (files !! get_manifest_filepath base v).

Lemma has_version_mono f g base v : f ⊆ g → has_version f base v → has_version g base v.
Proof. intros Hs [Hv [d Hd]]. split; [done|]. exists d. by eapply lookup_weaken. Qed.

(** The version found is at least every version that existed when the call
    started, and never negative. *)
Lemma get_latest_version_ok base s s' v : get_latest_version base s = (s', Ok v) →
  fs_files s ⊆ fs_files s' ∧ 0 ≤ v ∧
  ∃ s0, fs_files s ⊆ fs_files s0 ∧ fs_files s0 ⊆ fs_files s' ∧
    (∀ n, has_version (fs_files s0) base n → n ≤ v) ∧
    (v = 0 ∨ ∃ name, parse_version name = Some v ∧
       (mem_char kSep name = false → is_Some (fs_files s0 !! (get_manifest_path base +:+ name)))).
Proof.
  unfold get_latest_version. intros Hb. apply M_bind_Ok_inv in Hb as (s1 & info & Hi & Hb).
  pose proof (info_mono _ _ _ _ Hi) as Hm1. case_bool_decide as Hn.
  - injection Hb as <- <-. subst. apply info_notfound in Hi as (s0 & H0 & H1 & Hnone).
    split_and!; [done|done|]. exists s0. split_and!; [done|done| |by left].
    intros n [_ [d Hd]]. rewrite (proj1 (Layout.manifest_filepath_eq base n)), Hnone in Hd. done.
  - apply M_bind_Ok_inv in Hb as (s2 & names & Hl & [= <- <-]).
    pose proof (list_mono _ _ _ _ Hl) as Hm2. apply list_spec in Hl as (s0 & H0 & H1 & Hls).
    destruct (latest_of_spec names) as (Hge & Hmax & Hex).
    split_and!; [by etrans|done|]. exists s0. split_and!; [by etrans|done| |].
    + intros n [Hv Hd]. rewrite (proj1 (Layout.manifest_filepath_eq base n)) in Hd.
      apply Hls in Hd; [|apply Layout.manifest_filename_sep].
      eapply Hmax; [exact Hd|]. by apply parse_version_filename.
    + destruct Hex as [->|(name & Hin & Hp)]; [by left|]. right. exists name. split; [done|].
      intros Hsep. by apply Hls.
Qed.

Lemma get_latest_version_mono base s s' r : get_latest_version base s = (s', r) →
  fs_files s ⊆ fs_files s'.
Proof.
  unfold get_latest_version. intros Hb.
  apply M_bind_inv in Hb as [(s1 & info & Hi & Hb)|[(e & Hi & ->)|[Hi ->]]];
    apply info_mono in Hi; [|done..].
  destruct (bool_decide _); [by injection Hb as <- <-|].
  apply M_bind_inv in Hb as [(s2 & names & Hl & [= <- <-])|[(e & Hl & ->)|[Hl ->]]];
    apply list_mono in Hl; by etrans.
Qed.

(** *** One iteration of the commit loop *)

Lemma resolvers_differ : FailResolver ≠ OverwriteResolver.
Proof.
  intros He. apply (f_equal (λ r, (resolve r None 0 None 1 no_updates []).2)) in He. discriminate.
Qed.

Definition builtin (r : Resolver) : Prop := r = FailResolver ∨ r = OverwriteResolver.

(** The transaction's manifest and updates have values in this heap, the
    updates' objects are distinct, and applying them changes no object. *)
Definition txn_ok (h : Heap) t (mv : Manifest ColumnGroup) (uv : Updates ColumnGroup) : Prop :=
  ∃ rm, read_manifest_ t = Some rm ∧ manifest_view h rm mv ∧ updates_view h (updates_ t) uv ∧
    updates_distinct (updates_ t) ∧
    (drop_spec (dropped_columns_ (updates_ t)) (groups mv) ≠ [] ∨
     (length (appended_files_ (updates_ t)) ≤ 1)%nat).

Lemma txn_ok_prefix h h' t mv uv : h `prefix_of` h' → txn_ok h t mv uv → txn_ok h' t mv uv.
Proof.
  intros [k ->] (rm & Hr & Hv & (Ha & Hp & Hu) & Hd). exists rm.
  split; [done|]. split; [by apply manifest_view_app|]. split; [|done].
  split; [by apply points_app_heap|]. split; [|done].
  eapply Forall2_impl; [exact Hp|]. intros. by apply points_app_heap.
Qed.

Lemma reload_inv t w w' r : builtin (resolver_ t) → reload_latest_manifest t w = (w', r) →
  w_heap w' = w_heap w ∧ w_cache w' = w_cache w ∧ fs_files (w_fs w) ⊆ fs_files (w_fs w') ∧
  ∀ v lm, r = Ok (v, lm) →
    lm = (if v =? read_version_ t then read_manifest_ t else None) ∧ 0 ≤ v ∧
    ∃ listed : gmap string string, fs_files (w_fs w) ⊆ listed ∧ listed ⊆ fs_files (w_fs w') ∧
      ∀ n, has_version listed (base_path_ t) n → n ≤ v.
Proof.
  intros Hbr. unfold reload_latest_manifest. intros Hb.
  apply M_bind_inv in Hb as [(w1 & v & (Hg & Hc & Hh)%on_fs_inv & Hb)|
    [(e & (Hg & Hc & Hh)%on_fs_inv & ->)|[(Hg & Hc & Hh)%on_fs_inv ->]]];
    pose proof (get_latest_version_mono _ _ _ _ Hg) as Hm; [|by split_and!..].
  assert (requireLatest (resolver_ t) = false) as Hrl by by destruct Hbr as [->| ->].
  rewrite Hrl in Hb. cbn [negb] in Hb.
  destruct (get_latest_version_ok _ _ _ _ Hg) as (_ & H0 & s0 & Hs0 & Hs1 & Hmax & _).
  destruct (v =? read_version_ t) eqn:Hv; injection Hb as <- <-;
    (split_and!; [done|done|done|]); intros v' lm [= <- <-]; rewrite Hv;
    (split_and!; [done|done|]); by exists (fs_files s0).
Qed.

(** Both resolvers apply the updates to the manifest that was read; the strict
    one only if its version is still the latest. *)
Lemma resolve_inv t v h h' r mv uv : builtin (resolver_ t) → txn_ok h t mv uv →
  resolve (resolver_ t) (read_manifest_ t) (read_version_ t)
    (if v =? read_version_ t then read_manifest_ t else None) v (updates_ t) h = (h', r) →
  r ≠ Ub →
  h `prefix_of` h' ∧
  (r = Err (MakeExtendError TxnResolutionFailed) ∧ resolver_ t = FailResolver ∧ v ≠ read_version_ t ∨
   (resolver_ t = FailResolver → v = read_version_ t) ∧
   match r with
   | Ok m' => ∃ mv', apply_spec mv uv = Ok mv' ∧ manifest_view h' m' mv'
   | Err e => apply_spec mv uv = Err e
   | Ub => False
   end).
Proof.
  intros Hbr (rm & Hrm & Hv & Hu & Hd & Hiso) Hres Hub.
  assert (applyUpdates rm (updates_ t) h = (h', r) → h `prefix_of` h' ∧
    match r with
    | Ok m' => ∃ mv', apply_spec mv uv = Ok mv' ∧ manifest_view h' m' mv'
    | Err e => apply_spec mv uv = Err e
    | Ub => False
    end) as Happ.
  { intros Ha. pose proof (applyUpdates_refines h rm mv (updates_ t) uv Hv Hu Hd) as Hr.
    destruct (apply_spec mv uv) as [mv'|e|].
    - destruct Hr as (h2 & m2 & He & Hv2 & _ & Hp). rewrite He in Ha. injection Ha as <- <-. eauto.
    - destruct Hr as (h2 & He & Hp). rewrite He in Ha. by injection Ha as <- <-.
    - destruct Hr as (h2 & He). rewrite He in Ha. by injection Ha as _ <-. }
  rewrite Hrm in Hres. destruct Hbr as [Hr|Hr]; rewrite Hr in Hres |- *.
  - unfold FailResolver, resolve in Hres. rewrite (Z.eqb_sym v) in Hres.
    destruct (Z.eqb_spec (read_version_ t) v) as [Hvr|Hvr].
    + destruct (Happ Hres) as [Hp Hm]. split; [done|]. right. by split.
    + injection Hres as <- <-. split; [done|]. left. split_and!; [done|done|congruence].
  - destruct (Happ Hres) as [Hp Hm]. split; [done|]. right. split; [|done].
    intros He. by destruct (resolvers_differ (eq_sym He)).
Qed.

(** What an iteration does, whatever its outcome. *)
Definition committed t (mv : Manifest ColumnGroup) (uv : Updates ColumnGroup) (v : Z)
    (before after : gmap string string) : Prop :=
  ∃ mv' data, apply_spec mv uv = Ok mv' ∧
    serialize (relative_to (get_manifest_filepath (base_path_ t) v) mv') = Ok data ∧
    0 < v ≤ INT64_MAX ∧
    (∃ listed : gmap string string, before ⊆ listed ∧
       (∀ n, has_version listed (base_path_ t) n → n < v) ∧
       created listed (get_manifest_filepath (base_path_ t) v) data after) ∧
    (resolver_ t = FailResolver → v = read_version_ t + 1).

Lemma commit_once_inv t w w' r mv uv : builtin (resolver_ t) → txn_ok (w_heap w) t mv uv →
  commit_once t w = (w', r) → r ≠ Ub →
  world_le w w' ∧ w_cache w' = w_cache w ∧
  (∀ v, r = Ok (Some v) → committed t mv uv v (fs_files (w_fs w)) (fs_files (w_fs w'))).
Proof.
  intros Hbr Hok Hb Hub. unfold commit_once in Hb.
  apply M_bind_inv in Hb as [(w1 & [v lm] & Hrel & Hb)|[(e & Hrel & ->)|[_ ->]]]; [| |done];
    destruct (reload_inv _ _ _ _ Hbr Hrel) as (Hh & Hc & Hf & Hl).
  2:{ split_and!; [split; by rewrite ?Hh|done|done]. }
  destruct (Hl v lm eq_refl) as (-> & H0 & ls & Hls1 & Hls2 & Hmax).
  apply M_bind_inv in Hb as [(w2 & m' & (Hres & Hc2 & Hf2)%on_heap_inv & Hb)|
    [(e & (Hres & Hc2 & Hf2)%on_heap_inv & ->)|[_ ->]]]; [| |done]; rewrite Hh in Hres;
    (destruct (resolve_inv t v _ _ _ mv uv Hbr Hok Hres) as [Hpre Hr]; [done|]).
  2:{ split_and!; [split; by rewrite ?Hf2|congruence|done]. }
  destruct Hr as [(? & _)|(Hfail & mv' & Hs & Hv')]; [done|].
  destruct (in_int64 (v + 1)) eqn:Hin; [|by unfold undefined in Hb; injection Hb as _ <-].
  apply in_int64_spec in Hin.
  rewrite (M_bind_Ok _ _ _ w2 (v + 1)) in Hb by done.
  assert (world_le w w2) as Hle2 by (split; [done|by rewrite Hf2]).
  apply M_bind_inv in Hb as [(w3 & st & Hcatch & Hb)|[(e & Hcatch & ->)|[Hcatch ->]]]; [| |done];
    apply catch_inv in Hcatch as [(a & Hw & Hst)|[(e' & Hw & Hst)|[_ ?]]]; try done;
    apply (WriteTo_inv _ _ mv') in Hw as (Hle & Hc3 & Hcr); try done.
  - injection Hst as ->. injection Hb as <- <-. split_and!; [by etrans|congruence|].
    intros v' [= <-]. destruct a. destruct (Hcr eq_refl) as (data & Hdata & Hcreated).
    exists mv', data. split_and!; [done|done|lia|lia| |].
    + exists ls. split_and!; [done| |].
      * intros n Hn. apply Hmax in Hn. lia.
      * destruct Hcreated as (at_ & Ha1 & Ha2 & Ha3). exists at_. split_and!; [|done|done].
        etrans; [exact Hls2|]. by rewrite <- Hf2.
    + intros Hfr. by rewrite (Hfail Hfr).
  - injection Hst as ->. destruct (bool_decide _); injection Hb as <- <-;
      (split_and!; [by etrans|congruence|done]).
Qed.

(** *** The loop *)

Lemma committed_weaken t mv uv v f g g' :
  f ⊆ g → committed t mv uv v g g' → committed t mv uv v f g'.
Proof.
  intros Hs (mv' & data & H1 & H2 & H4 & (a & Ha & Hb) & H6). exists mv', data.
  split_and!; [done|done|lia|lia|exists a; split; [by etrans|done]|done].
Qed.

Lemma commit_loop_inv t mv uv fuel : builtin (resolver_ t) → ∀ rc w w' r,
  txn_ok (w_heap w) t mv uv → commit_loop fuel rc t w = Some (w', r) → r ≠ Ub →
  world_le w w' ∧ w_cache w' = w_cache w ∧
  (∀ v, r = Ok v → committed t mv uv v (fs_files (w_fs w)) (fs_files (w_fs w'))).
Proof.
  intros Hbr. induction fuel as [|fuel IH]; intros rc w w' r Hok Hl Hub; cbn [commit_loop] in Hl;
    (destruct (rc <=? retry_limit_ t); [|by injection Hl as <- <-]); [done|].
  destruct (commit_once t w) as [w1 [[v|]|e|]] eqn:Ho; [| | |by injection Hl as _ <-];
    destruct (commit_once_inv t w w1 _ mv uv Hbr Hok Ho ltac:(done)) as (Hle & Hc & Hcm).
  - injection Hl as <- <-. split_and!; [done|done|]. intros ? [= <-]. by apply Hcm.
  - destruct (_ <? _); [injection Hl as <- <-; by split_and!|].
    destruct (IH _ _ _ _ (txn_ok_prefix _ _ _ _ _ (proj1 Hle) Hok) Hl Hub) as (Hle2 & Hc2 & Hcm2).
    split_and!; [by etrans|congruence|]. intros v Hv.
    eapply committed_weaken; [exact (proj2 Hle)|by apply Hcm2].
  - injection Hl as <- <-. by split_and!.
Qed.

Lemma Commit_inv t mv uv w w' r : builtin (resolver_ t) →
  txn_ok (w_heap w) t mv uv → Commit t w = Some (w', r) → r ≠ Ub →
  world_le w w' ∧ w_cache w' = w_cache w ∧
  (∀ v, r = Ok v → committed t mv uv v (fs_files (w_fs w)) (fs_files (w_fs w'))).
Proof.
  intros Hbr Hok Hc Hub. unfold Commit in Hc. destruct (negb _).
  - by injection Hc as <- <-.
  - by eapply commit_loop_inv.
Qed.

(** The file of a committed version stands for the updated manifest. *)
Lemma commit_denotes t mv uv w w' v : builtin (resolver_ t) →
  txn_ok (w_heap w) t mv uv → Commit t w = Some (w', Ok v) →
  let path := get_manifest_filepath (base_path_ t) v in
  ∃ mv' data, apply_spec mv uv = Ok mv' ∧ serialize (relative_to path mv') = Ok data ∧
    fs_files (w_fs w') !! path = Some data ∧
    (manifest_codec_ok mv' → manifest_paths_ok (base_path_for_manifest path) mv' →
     file_denotes (fs_files (w_fs w')) path (at_current_version mv')).
Proof.
  intros Hb Hok Hc path.
  destruct (Commit_inv t mv uv w w' _ Hb Hok Hc) as (_ & _ & Hcm); [done|].
  destruct (Hcm v eq_refl) as (mv' & data & Hs & Hd & _ & (ls & _ & _ & a & _ & _ & Ha) & _).
  assert (fs_files (w_fs w') !! path = Some data) as Hf.
  { eapply lookup_weaken; [|exact Ha]. apply lookup_insert_eq. }
  exists mv', data. split_and!; [done..|]. intros Hco Hp.
  by eapply (written_denotes path mv' data _ Hco Hp).
Qed.

(** Enough iterations for every remaining retry. *)
Lemma commit_loop_total t fuel : 0 ≤ retry_limit_ t < 2 ^ 32 - 1 → ∀ rc w,
  0 ≤ rc → (retry_limit_ t - rc < Z.of_nat fuel) → is_Some (commit_loop fuel rc t w).
Proof.
  intros Hl. induction fuel as [|fuel IH]; intros rc w Hrc Hfuel; cbn [commit_loop];
    (destruct (Z.leb_spec rc (retry_limit_ t)); [|by eexists]); [lia|].
  destruct (commit_once t w) as [w1 [[v|]|e|]]; [by eexists| |by eexists..].
  rewrite Z.mod_small by lia. destruct (_ <? _); [by eexists|]. apply IH; lia.
Qed.
End store.

(** ** Properties *)

Section properties.
Context {S : Type} {FS : FileSystem S} {FL : FsLaws S} {UP : UriParser} {AV : Avro}
  {AL : AvroLaws}.

(** C7: a commit is atomic and never overwrites.  Whatever a commit with a
    built-in resolver returns, it removes or replaces no file and changes no
    object in memory; when it returns a version, there is a moment at which
    every version in the store was smaller and a later moment at which the
    version's manifest file did not exist and was created by this commit; and
    with the strict resolver the version is the successor of the one the
    transaction read. *)
Theorem commit_creates_next_version (t : Transaction) (mv : Manifest ColumnGroup)
    (uv : Updates ColumnGroup) (w w' : World S) (r : Result Z) :
  builtin (resolver_ t) → txn_ok (w_heap w) t mv uv → Commit t w = Some (w', r) → r ≠ Ub →
  fs_files (w_fs w) ⊆ fs_files (w_fs w') ∧ w_heap w `prefix_of` w_heap w' ∧
  w_cache w' = w_cache w ∧
  ∀ v, r = Ok v →
    0 < v ≤ INT64_MAX ∧
    (∃ (listed : gmap string string) data, fs_files (w_fs w) ⊆ listed ∧
       (∀ n, has_version listed (base_path_ t) n → n < v) ∧
       created listed (get_manifest_filepath (base_path_ t) v) data (fs_files (w_fs w'))) ∧
    (resolver_ t = FailResolver → v = read_version_ t + 1).
Proof.
  intros Hb Hok Hc Hub. destruct (Commit_inv t mv uv w w' r Hb Hok Hc Hub) as ([H1 H2] & H3 & H4).
  split_and!; [done..|]. intros v (mv' & data & _ & _ & Hv & (ls & Hls & Hn & Hcr) & Hf)%H4.
  split_and!; [lia|lia| |done]. by exists ls, data.
Qed.

(** C4: the committed manifest is the updated one.  When a commit returns a
    version, the file it created stands for the result of applying the
    recorded updates, as specified by [apply_spec], to the manifest the
    transaction read; provided its integers fit and its paths lie in the
    layout, a reader of that version gets exactly that manifest. *)
Theorem commit_stores_updated_manifest (t : Transaction) (mv : Manifest ColumnGroup)
    (uv : Updates ColumnGroup) (w w' : World S) (v : Z) :
  builtin (resolver_ t) → txn_ok (w_heap w) t mv uv → Commit t w = Some (w', Ok v) →
  let path := get_manifest_filepath (base_path_ t) v in
  ∃ mv' data, apply_spec mv uv = Ok mv' ∧ serialize (relative_to path mv') = Ok data ∧
    fs_files (w_fs w') !! path = Some data ∧
    (manifest_codec_ok mv' → manifest_paths_ok (base_path_for_manifest path) mv' →
     file_denotes (fs_files (w_fs w')) path (at_current_version mv')).
Proof. intros Hb Hok Hc. by eapply commit_denotes. Qed.

(** C34: [Commit] terminates.  For every retry limit below the largest
    [uint32_t], every store and every behaviour of other writers, the commit
    loop ends within the limit plus one attempts, each of which calls the
    conditional write at most once; without recorded updates it returns
    [Invalid] and touches nothing. *)
Theorem commit_terminates (t : Transaction) (w : World S) :
  0 ≤ retry_limit_ t < 2 ^ 32 - 1 →
  (∃ w' r, Commit t w = Some (w', r)) ∧
  (hasChanges (updates_ t) = false → Commit t w = Some (w, Err status_Invalid)).
Proof.
  intros Hl. split.
  - unfold Commit. destruct (negb _); [by do 2 eexists|].
    destruct (commit_loop_total t (Datatypes.S (Z.to_nat (retry_limit_ t))) Hl 0 w)
      as [[w' r] Hr]; [lia|lia|]. eauto.
  - unfold Commit. by intros ->.
Qed.

(** the latest version is the greatest one listed.  [get_latest_version]
    returns a version that is at least every version whose manifest file
    existed when the call started; it is 0, or the version of a name that the
    store listed; and the name of a manifest file parses to its version. *)
Theorem latest_version_is_greatest (base : string) (s s' : S) (v : Z) :
  get_latest_version base s = (s', Ok v) →
  fs_files s ⊆ fs_files s' ∧ 0 ≤ v ∧
  (∀ n, has_version (fs_files s) base n → n ≤ v) ∧
  (v = 0 ∨ ∃ name, parse_version name = Some v ∧
     (mem_char kSep name = false → is_Some (fs_files s' !! (get_manifest_path base +:+ name)))) ∧
  (∀ n, 0 ≤ n ≤ INT64_MAX → parse_version (get_manifest_filename n) = Some n).
Proof.
  intros Hg. destruct (get_latest_version_ok base s s' v Hg) as (Hm & H0 & s0 & H1 & H2 & Hmax & Hex).
  split_and!; [done|done| | |].
  - intros n Hn. by eapply Hmax, has_version_mono.
  - destruct Hex as [->|(name & Hp & Hs)]; [by left|]. right. exists name. split; [done|].
    intros Hsep. destruct (Hs Hsep) as [d Hd]. exists d. by eapply lookup_weaken.
  - intros n. apply parse_version_filename.
Qed.

(** [Open] reads a consistent snapshot.  A transaction opened in a world
    whose cache agrees with the store holds a manifest that is what the file
    of its read version stands for, or the empty manifest at version 0 and
    below; it has no updates; opened at [LATEST], its read version is at least
    every version that existed before, and otherwise it is the one asked for. *)
Theorem open_reads_snapshot (base_path : string) (version : Z) (res : Resolver) (limit : Z)
    (w w' : World S) (t : Transaction) :
  cache_ok w → Open base_path version res limit w = (w', Ok t) →
  cache_ok w' ∧ world_le w w' ∧ updates_ t = no_updates ∧ resolver_ t = res ∧
  retry_limit_ t = limit ∧
  (∃ m mv, read_manifest_ t = Some m ∧ manifest_view (w_heap w') m mv ∧
     (0 < read_version_ t →
        file_denotes (fs_files (w_fs w'))
          (get_manifest_filepath (base_path_ t) (read_version_ t)) mv) ∧
     (read_version_ t ≤ 0 → mv = empty_manifest)) ∧
  (version ≠ LATEST → read_version_ t = version) ∧
  (version = LATEST → 0 ≤ read_version_ t ∧
     ∀ n, has_version (fs_files (w_fs w)) (base_path_ t) n → n ≤ read_version_ t).
Proof.
  intros Hok Hb. unfold Open in Hb. apply M_bind_Ok_inv in Hb as (w0 & uri & [= <- Hu] & Hb).
  cbv zeta in Hb. set (base := ToRelativePath uri) in *.
  apply M_bind_Ok_inv in Hb as (w1 & rv & Hv & Hb). apply M_bind_Ok_inv in Hb as (w2 & m & Hm & Hb).
  injection Hb as <- <-. cbn [read_manifest_ base_path_ read_version_ updates_ resolver_ retry_limit_].
  assert (world_le w w1 ∧ cache_ok w1 ∧ (version ≠ LATEST → rv = version) ∧
    (version = LATEST → 0 ≤ rv ∧ ∀ n, has_version (fs_files (w_fs w)) base n → n ≤ rv))
    as (Hle & Hok1 & Hne & Hlat).
  { destruct (Z.eqb_spec version LATEST) as [Hl|Hl].
    - apply on_fs_inv in Hv as (Hg & Hc & Hh).
      destruct (get_latest_version_ok _ _ _ _ Hg) as (Hf & H0 & s0 & H1 & _ & Hmax & _).
      assert (world_le w w1) as Hle by (split; [by rewrite Hh|done]).
      split_and!; [done| |done|]. { eapply cache_ok_le; [exact Hok|done|rewrite Hc; apply Hok|by rewrite Hc]. }
      intros _. split; [done|]. intros n Hn. by eapply Hmax, has_version_mono.
    - injection Hv as <- <-. by split_and!. }
  destruct (Z.ltb_spec 0 rv) as [Hrv|Hrv].
  - unfold read_manifest in Hm. destruct (Z.leb_spec rv 0); [lia|].
    destruct (ReadFrom_inv _ _ _ _ Hok1 Hm) as (Hok2 & Hle2 & Hres); [done|].
    destruct (Hres m eq_refl) as (mv & Hview & Hden).
    split_and!; [done|by etrans|done|done|done| |done|done].
    exists m, mv. split_and!; [done|done|done|lia].
  - injection Hm as <- <-. split_and!; [done|done|done|done|done| |done|done].
    exists empty_manifest, empty_manifest. split_and!; [done| |lia|done].
    exists []. split; [constructor|done].
Qed.
End properties.

(** ** Retry limits at the end of [uint32_t]

    A store whose conditional writes always conflict.  With the largest retry
    limit the counter wraps before it exceeds the limit, so that no number of
    iterations suffices; with any smaller limit the loop gives up. *)
Module AlwaysConflict.

#[export] Instance fs : FileSystem unit := {
  stream := unit;
  fs_type_name := "s3";
  fs_subtree_base := None;
  fs_conditional := true;
  GetFileInfo _ s := (s, Ok NotFound);
  GetFileInfo_selector _ s := (s, Ok []);
  OpenInputFile _ s := (s, Err status_IOError);
  GetSize _ s := (s, Err status_IOError);
  Read _ _ s := (s, Err status_IOError);
  CloseInput _ s := (s, Ok tt);
  CreateDir _ s := (s, Ok tt);
  OpenOutputStream _ s := (s, Err status_IOError);
  OpenConditionalOutputStream _ s := (s, Err (MakeExtendError AwsErrorPreConditionFailed));
  Write _ _ s := (s, Ok tt);
  CloseOutput _ s := (s, Ok tt);
}.
#[local] Existing Instance ToyAvro.avro.
#[local] Existing Instance ToyUri.parser.

Definition txn (limit : Z) : Transaction :=
  mkTxn 0 (Some empty_manifest) "seg" (AddDeltaLog (mkDelta "seg/_delta/d" 0 1) no_updates)
    FailResolver limit.

Lemma commit_once_conflicts limit (w : World unit) :
  commit_once (txn limit) w = (w, Ok None).
Proof. destruct w as [h c []]. unfold commit_once. reflexivity. Qed.

(** with the largest retry limit the loop has no bound: the counter wraps
    before it can exceed the limit, so that against a store whose conditional
    writes always conflict no number of iterations is enough, while for
    every smaller limit the loop ends. *)
Theorem max_retry_limit_never_gives_up (fuel : nat) (w : World unit) :
  commit_loop fuel 0 (txn (2 ^ 32 - 1)) w = None.
Proof.
  assert (∀ rc, 0 ≤ rc < 2 ^ 32 → commit_loop fuel rc (txn (2 ^ 32 - 1)) w = None) as Hgen.
  { induction fuel as [|fuel IH]; intros rc Hrc; cbn [commit_loop];
      change (retry_limit_ (txn (2 ^ 32 - 1))) with (2 ^ 32 - 1);
      (destruct (Z.leb_spec rc (2 ^ 32 - 1)); [|lia]); [done|].
    rewrite commit_once_conflicts.
    pose proof (Z.mod_pos_bound (rc + 1) (2 ^ 32) ltac:(lia)).
    destruct (Z.ltb_spec (2 ^ 32 - 1) ((rc + 1) mod 2 ^ 32)); [lia|]. by apply IH. }
  apply Hgen. lia.
Qed.

Lemma default_retry_limit_gives_up (w : World unit) :
  Commit (txn 1) w = Some (w, Err (MakeExtendError TxnExhaustedRetry)).
Proof.
  unfold Commit. change (negb (hasChanges (updates_ (txn 1)))) with false. cbv iota.
  change (Z.to_nat (retry_limit_ (txn 1))) with 1%nat. cbn [commit_loop].
  rewrite !commit_once_conflicts. reflexivity.
Qed.
End AlwaysConflict.

(** ** Witnesses *)

Module TxnSample.
Import MemFs.
#[local] Existing Instance ToyAvro.avro.
#[local] Existing Instance ToyAvro.avro_laws.
#[local] Existing Instance ToyUri.parser.

Definition group : ColumnGroup :=
  mkGroup ["id"; "vec"] "parquet" [mkFile "seg/_data/0_a.parquet" 0 100 ∅].

(** Another writer claims version 1 just before the first attempt's write. *)
Definition w0 : World State :=
  mkWorld [group] getCache (mkState ∅ [{[ get_manifest_filepath "seg" 1 := "x" ]}]).

Definition txn : Transaction :=
  txn_AppendFiles [Some 0%nat]
    (mkTxn 0 (Some empty_manifest) "seg" no_updates OverwriteResolver 1).
Definition uv : Updates ColumnGroup := AppendFiles [group] no_updates.
Definition w1 : World State :=
  Eval vm_compute in match Commit txn w0 with Some (w, _) => w | None => w0 end.

Lemma txn_good : txn_ok (w_heap w0) txn empty_manifest uv.
Proof.
  exists empty_manifest. split; [reflexivity|]. split; [exists []; split; [constructor|reflexivity]|].
  split; [repeat split; repeat constructor|]. split; [|right; vm_compute; lia]. split.
  - apply (bool_decide_unpack _); vm_compute; exact I.
  - intros p Hp. apply elem_of_nil in Hp. destruct Hp.
Defined.

Lemma commit_run : Commit txn w0 = Some (w1, Ok 2).
Proof. vm_compute. reflexivity. Defined.

Lemma builtin_ok : builtin (resolver_ txn).
Proof. right. reflexivity. Defined.

Lemma commit_creates_next_version_witness :
  (∃ (listed : gmap string string) data, fs_files (w_fs w0) ⊆ listed ∧
    (∀ n, has_version listed "seg" n → n < 2) ∧
    created listed (get_manifest_filepath "seg" 2) data (fs_files (w_fs w1))) ∧
  fs_files (w_fs w0) ⊆ fs_files (w_fs w1).
Proof.
  destruct (commit_creates_next_version txn empty_manifest uv w0 w1 (Ok 2) builtin_ok txn_good commit_run
    ltac:(discriminate)) as (Hf & _ & _ & Hv).
  destruct (Hv 2 eq_refl) as (_ & Hc & _). split; [exact Hc|exact Hf].
Defined.

Lemma commit_stores_updated_manifest_witness :
  ∃ mv', apply_spec empty_manifest uv = Ok mv' ∧ groups mv' = [group] ∧
    file_denotes (fs_files (w_fs w1)) (get_manifest_filepath "seg" 2) (at_current_version mv').
Proof.
  destruct (commit_stores_updated_manifest txn empty_manifest uv w0 w1 2 builtin_ok txn_good commit_run)
    as (mv' & data & Hs & _ & _ & Hd).
  vm_compute in Hs. injection Hs as <-. eexists. split; [vm_compute; reflexivity|].
  split; [reflexivity|]. apply Hd.
  - repeat split; try (intros ? ? _; exact I); repeat constructor.
    eexists; split; [reflexivity|]. repeat constructor.
  - change (base_path_for_manifest _) with "seg".
    split_and!; [|apply Forall_nil_2|exact (map_Forall_empty _)|apply Forall_nil_2|apply Forall_nil_2].
    apply Forall_singleton. intros g [= <-]. apply Forall_singleton.
    eapply (IoSample.stored _ _ "0_a.parquet"); vm_compute; reflexivity.
Defined.

Lemma commit_terminates_witness : ∃ w' r, Commit txn w0 = Some (w', r).
Proof.
  assert (0 ≤ retry_limit_ txn < 2 ^ 32 - 1) as Hl by (vm_compute; split; [discriminate|reflexivity]).
  exact (proj1 (commit_terminates txn w0 Hl)).
Defined.

Lemma latest_version_is_greatest_witness :
  get_latest_version "seg" (w_fs w1) = (w_fs w1, Ok 2) ∧
  ∀ n, has_version (fs_files (w_fs w1)) "seg" n → n ≤ 2.
Proof.
  assert (get_latest_version "seg" (w_fs w1) = (w_fs w1, Ok 2)) as Hg by (vm_compute; reflexivity).
  split; [exact Hg|].
  exact (proj1 (proj2 (proj2 (latest_version_is_greatest "seg" (w_fs w1) (w_fs w1) 2 Hg)))).
Defined.

Lemma open_reads_snapshot_witness :
  ∃ w' t, Open "seg" LATEST FailResolver 1 w1 = (w', Ok t) ∧ read_version_ t = 2 ∧
    ∃ m mv, read_manifest_ t = Some m ∧ manifest_view (w_heap w') m mv ∧
      file_denotes (fs_files (w_fs w')) (get_manifest_filepath "seg" 2) mv.
Proof.
  assert (match (Open "seg" LATEST FailResolver 1 w1).2 with
          | Ok t => (read_version_ t =? 2) && String.eqb (base_path_ t) "seg"
          | _ => false
          end = true) as Hrun by (vm_compute; reflexivity).
  destruct (Open "seg" LATEST FailResolver 1 w1) as [w' [t|e|]] eqn:Ho;
    cbn [snd] in Hrun; [|discriminate Hrun..].
  apply andb_true_iff in Hrun as [Hv Hb]. apply Z.eqb_eq in Hv. apply String.eqb_eq in Hb.
  exists w', t. split; [reflexivity|]. split; [exact Hv|].
  destruct (open_reads_snapshot "seg" LATEST FailResolver 1 w1 w' t
    (IoSample.cache_ok_start _ _) Ho) as (_ & _ & _ & _ & _ & (m & mv & Hm & Hview & Hd & _) & _).
  rewrite Hv, Hb in Hd. exists m, mv. split; [exact Hm|]. split; [exact Hview|]. apply Hd. lia.
Defined.
End TxnSample.
