(* ===== verification/TxnConcurrency.v ===== *)
(** * Concurrent transactions

    Any number of transactions on one table, interleaved at every single call
    they make to the store.

    A transaction at work is a run of [Transaction.Commit] itself: the
    [FileSystem] instance [script_fs] answers the calls of the run from a list
    of answered calls and stops it at the first call that has no answer yet.
    A process is a transaction with the calls answered so far; its next call
    is the one its run stops at, and its result is what its run returns
    ([next_call], [result]).  [replay_never_diverges] shows that an answer only
    ever continues a run.  The store is shared: its answers and their effect
    are a parameter [serve] with the laws [StoreLaws], which allow every call to
    fail at any time, and the upload of a file to fail although the file came
    into being.  [step] lets one process make one call. *)

From S2P Require Import Prelude CppString Status Paths LruCache StorageUri ColumnGroups Manifest ManifestCodec FileSystem ManifestIO Updates Transaction.

Abbreviation Mf := (Manifest ColumnGroup).

(** ** The calls of one transaction *)

(** The calls [Commit] makes on a filesystem with conditional writes. *)
Inductive Call :=
  | CGetFileInfo (path : string)
  | CGetFileInfoSelector (dir : string)
  | CCreateDir (path : string)
  | COpenConditional (path : string)
  | CWrite (path data : string)
  | CClose (path data : string).    (* completes an upload of these bytes *)

Inductive Answer :=
  | AFileInfo (r : FileType + Status)
  | ANames (r : list string + Status)
  | ADone (r : unit + Status).

#[global] Instance Call_eq_dec : EqDecision Call.
Proof. solve_decision. Defined.
#[global] Instance Answer_eq_dec : EqDecision Answer.
Proof. solve_decision. Defined.

(** A run: the answered calls ahead, the call it stopped at, whether it made
    another call than the one answered, and the output streams it opened, each
    with the bytes written so far. *)
Record Script := mkScript {
  s_ahead : list (Call * Answer);
  s_asks : option Call;
  s_diverged : bool;
  s_streams : list (string * string);
}.

Definition script (l : list (Call * Answer)) : Script := mkScript l None false [].

Definition ask (c : Call) : M Script Status Answer := λ s,
  match s_ahead s with
  | [] => (mkScript [] (Some c) (s_diverged s) (s_streams s), Ub)
  | (c', a) :: rest =>
      if decide (c = c') then (mkScript rest (s_asks s) (s_diverged s) (s_streams s), Ok a)
      else (mkScript (s_ahead s) (s_asks s) true (s_streams s), Ub)
  end.

Definition returned {A} (r : A + Status) : M Script Status A :=
  match r with inl a => mret a | inr st => fail st end.

Definition ask_done (c : Call) : M Script Status unit :=
  a ← ask c; match a with ADone r => returned r | _ => undefined end.

Definition set_streams (l : list (string * string)) (s : Script) : Script :=
  mkScript (s_ahead s) (s_asks s) (s_diverged s) l.

Definition new_stream (p : string) : M Script Status nat := λ s,
  (set_streams (s_streams s ++ [(p, "")]) s, Ok (length (s_streams s))).

(** [kind] is the type name of the filesystem.  [Commit] with a built-in
    resolver reads no file, and opens a plain output stream only where
    conditional writes are not implemented. *)
#[local] Instance script_fs (kind : string) : FileSystem Script := {
  stream := nat;
  fs_type_name := kind;
  fs_subtree_base := None;
  fs_conditional := true;
  GetFileInfo p := a ← ask (CGetFileInfo p);
    match a with AFileInfo r => returned r | _ => undefined end;
  GetFileInfo_selector d := a ← ask (CGetFileInfoSelector d);
    match a with ANames r => returned r | _ => undefined end;
  OpenInputFile _ := undefined;
  GetSize _ := undefined;
  Read _ _ := undefined;
  CloseInput _ := undefined;
  CreateDir p := ask_done (CCreateDir p);
  OpenOutputStream _ := undefined;
  OpenConditionalOutputStream p := ask_done (COpenConditional p) ;; new_stream p;
  Write h d := λ s,
    match s_streams s !! h with
    | None => (s, Ub)
    | Some (p, buf) => (ask_done (CWrite p d) ;;
        modify (λ s, set_streams (<[h := (p, buf +:+ d)]> (s_streams s)) s)) s
    end;
  CloseOutput h := λ s,
    match s_streams s !! h with
    | None => (s, Ub)
    | Some (p, buf) => ask_done (CClose p buf) s
    end;
}.

(** ** Processes *)

(** A transaction in its own memory, with the values of the manifest it read
    and of the updates it recorded. *)
Record Proc := mkProc {
  p_txn : Transaction;
  p_heap : Heap;
  p_cache : LRUCache string (Manifest loc);
  p_read : Mf;
  p_updates : Updates ColumnGroup;
  p_calls : list (Call * Answer);
}.

Definition answered (p : Proc) (c : Call) (a : Answer) : Proc :=
  mkProc (p_txn p) (p_heap p) (p_cache p) (p_read p) (p_updates p) (p_calls p ++ [(c, a)]).

Section process.
Context (kind : string) {UP : UriParser} {AV : Avro}.

(** The run of [Commit] on the calls answered so far. *)
Definition run (p : Proc) : option (World Script * Result Z) :=
  Commit (FS:=script_fs kind) (p_txn p) (mkWorld (p_heap p) (p_cache p) (script (p_calls p))).

Definition next_call (p : Proc) : option Call :=
  match run p with Some (w, _) => s_asks (w_fs w) | None => None end.

Definition result (p : Proc) : option (Result Z) :=
  match run p with
  | Some (w, r) => match s_asks (w_fs w) with None => Some r | Some _ => None end
  | None => None
  end.
End process.

(** ** The shared store *)

(** What a call may be answered, and the files after it.  Only the completion
    of an upload changes a file; it creates the file if there is none, and
    when it is answered with success it has.  A listing has names of files or
    of directories only; it may miss some. *)
Class StoreLaws (serve : Call → gmap string string → Answer → gmap string string → Prop) := {
  serve_keeps c f a f' : serve c f a f' → (∀ p d, c ≠ CClose p d) → f' = f;
  serve_close p d f a f' : serve (CClose p d) f a f' →
    f' = f ∨ f !! p = None ∧ f' = <[p := d]> f;
  serve_close_ok p d f f' : serve (CClose p d) f (ADone (inl tt)) f' →
    f !! p = None ∧ f' = <[p := d]> f;
  serve_list dir f names f' name :
    serve (CGetFileInfoSelector dir) f (ANames (inl names)) f' → name ∈ names →
    is_Some (f !! (dir +:+ name)) ∨ ∃ q, is_Some (f !! (dir +:+ name +:+ String kSep q));
  serve_implemented p f st f' :
    serve (COpenConditional p) f (ADone (inr st)) f' → st_code st ≠ NotImplemented;
}.

(** [creator] records which process's upload created a file. *)
Record Sys := mkSys {
  files : gmap string string;
  procs : gmap nat Proc;
  creator : gmap string nat;
}.

Lemma sys_eta s : mkSys (files s) (procs s) (creator s) = s.
Proof. by destruct s. Defined.

Definition record_creator (f f' : gmap string string) (c : Call) (i : nat)
    (cr : gmap string nat) : gmap string nat :=
  match c with
  | CClose p _ => if decide (f' = f) then cr else <[p := i]> cr
  | _ => cr
  end.

Section system.
Context (kind base : string) {UP : UriParser} {AV : Avro} {AL : AvroLaws}.
Context (serve : Call → gmap string string → Answer → gmap string string → Prop).

(** The manifest [Open] reads for a version. *)
Definition snapshot (f : gmap string string) (v : Z) (mv : Mf) : Prop :=
  (v ≤ 0 → mv = empty_manifest) ∧
  (0 < v → file_denotes f (get_manifest_filepath base v) mv).

(** The result of the updates can be written and read back. *)
Definition fits (p : Proc) : Prop := ∀ mv', apply_spec (p_read p) (p_updates p) = Ok mv' →
  manifest_codec_ok mv' ∧ manifest_paths_ok (Layout.base_dir base) mv'.

Record well_formed (p : Proc) : Prop := mkWf {
  wf_base : base_path_ (p_txn p) = base;
  wf_builtin : builtin (resolver_ (p_txn p));
  wf_txn : txn_ok (p_heap p) (p_txn p) (p_read p) (p_updates p);
  wf_fits : fits p;
}.

Inductive step : Sys → Sys → Prop :=
  (* a transaction that was opened on the present store begins to commit *)
  | step_begin f ps cr i p :
      ps !! i = None → well_formed p → snapshot f (read_version_ (p_txn p)) (p_read p) →
      p_calls p = [] →
      step (mkSys f ps cr) (mkSys f (<[i := p]> ps) cr)
  (* a process makes its next call *)
  | step_call f ps cr i p c a f' :
      ps !! i = Some p → next_call kind p = Some c → serve c f a f' →
      step (mkSys f ps cr)
        (mkSys f' (<[i := answered p c a]> ps) (record_creator f f' c i cr))
  (* anyone does anything outside the manifest directory *)
  | step_other f ps cr f' :
      (∀ q, starts_with (get_manifest_path base) q = true → f' !! q = f !! q) →
      step (mkSys f ps cr) (mkSys f' ps cr).

(** From a store without manifests. *)
Definition reachable (s : Sys) : Prop :=
  ∃ f, (∀ q, starts_with (get_manifest_path base) q = true → f !! q = None) ∧
    rtc step (mkSys f ∅ ∅) s.

Lemma reachable_steps s s' : reachable s → rtc step s s' → reachable s'.
Proof. intros (f & Hf & Hr) Hs. exists f. split; [done|]. by etrans. Qed.
End system.

(** The manifest after the updates of the given processes, one after the other,
    each on the result of the previous one. *)
Fixpoint serial (ps : gmap nat Proc) (ids : list nat) (m : Mf) : Result Mf :=
  match ids with
  | [] => Ok m
  | i :: rest =>
      match ps !! i with
      | Some p => m' ← apply_spec m (p_updates p); serial ps rest (at_current_version m')
      | None => Ub
      end
  end.

(** ** What a run asks

    [guarded I E m Q s]: every return of [m] from [s] keeps [I], a normal one
    satisfies [Q], and a stop satisfies [E]. *)
Section guarded.
Context {St : Type} (I E : St → Prop).

Definition guarded {A} (m : M St Status A) (Q : A → St → Prop) (s : St) : Prop :=
  match m s with
  | (s', Ok a) => I s' ∧ Q a s'
  | (s', Err _) => I s'
  | (s', Ub) => E s'
  end.

Lemma guarded_bind {A B} (m : M St Status A) (f : A → M St Status B) Q Q' s :
  guarded m Q s → (∀ a s', I s' → Q a s' → guarded (f a) Q' s') → guarded (m ≫= f) Q' s.
Proof.
  unfold guarded, mbind, M_bind. destruct (m s) as [s' [a|e|]]; [|done..].
  intros [HI HQ] Hf. by apply Hf.
Qed.

Lemma guarded_catch {A} (m : M St Status A) Q s :
  guarded m Q s → guarded (catch m) (λ r s', ∀ a, r = inl a → Q a s') s.
Proof.
  unfold guarded, catch. destruct (m s) as [s' [a|e|]]; [|done..].
  intros [HI HQ]. split; [done|]. by intros ? [= <-].
Qed.

Lemma guarded_ret {A} (a : A) (Q : A → St → Prop) s : I s → Q a s → guarded (mret a) Q s.
Proof. by split. Qed.

Lemma guarded_weaken {A} (m : M St Status A) (Q Q' : A → St → Prop) s :
  guarded m Q s → (∀ a s', Q a s' → Q' a s') → guarded m Q' s.
Proof. unfold guarded. destruct (m s) as [s' [a|e|]]; [|done..]. intros [HI HQ] H. eauto. Qed.
End guarded.

(** The calls ahead of a run that has not stopped are part of the given ones. *)
Definition within (calls : list (Call * Answer)) (s : Script) : Prop :=
  (∃ used, calls = used ++ s_ahead s) ∧ s_asks s = None.

Definition asking (E : Call → Prop) (s : Script) : Prop := ∀ c, s_asks s = Some c → E c.

Section runs.
Context (kind : string) {UP : UriParser} {AV : Avro} {AL : AvroLaws}.
Context (calls : list (Call * Answer)).
#[local] Existing Instance script_fs.
#[local] Abbreviation asks E m Q s := (guarded (within calls) (asking E) m Q s).

Lemma asks_ask (E : Call → Prop) c s : within calls s → E c →
  asks E (ask c) (λ a s', (c, a) ∈ calls ∧ s_streams s' = s_streams s) s.
Proof.
  intros [[used Hu] Hn] Hc. unfold guarded, ask. destruct (s_ahead s) as [|[c' a] rest] eqn:Ha.
  - by intros ? [= <-].
  - case_decide as Heq; [|by intros ? Hs; simpl in Hs; congruence]. subst c'. split_and!; simpl.
    + split; [|done]. exists (used ++ [(c, a)]). by rewrite <- app_assoc.
    + rewrite Hu. apply elem_of_app. right. by left.
    + done.
Qed.

Lemma asks_undefined {A} (E : Call → Prop) Q s : within calls s → asks E (undefined (A:=A)) Q s.
Proof. intros [_ Hn] c Hc. simpl in Hc. congruence. Qed.

Lemma asks_returned {A} (E : Call → Prop) (r : A + Status) s : within calls s →
  asks E (returned r) (λ a s', r = inl a ∧ s' = s) s.
Proof. intros Hw. destruct r; [by apply guarded_ret|done]. Qed.

Lemma asks_done (E : Call → Prop) c s : within calls s → E c →
  asks E (ask_done c) (λ _ s', (c, ADone (inl tt)) ∈ calls ∧ s_streams s' = s_streams s) s.
Proof.
  intros Hw Hc. eapply guarded_bind; [by apply asks_ask|]. intros a s' Hw' [Hin Hs].
  destruct a as [r|r|r]; [by apply asks_undefined..|].
  eapply guarded_weaken; [by apply asks_returned|]. intros [] s2 [-> ->]. by split.
Qed.

(** The version found is 0 or the greatest one of a listing. *)
Definition listed (base : string) (v : Z) : Prop :=
  v = 0 ∨ ∃ names, (CGetFileInfoSelector (get_manifest_path base), ANames (inl names)) ∈ calls ∧
    v = latest_of names.

Definition no_upload (c : Call) : Prop := ∀ p d, c ≠ CClose p d.

Lemma asks_latest base s : within calls s →
  asks no_upload (get_latest_version (FS:=script_fs kind) base) (λ v _, listed base v) s.
Proof.
  intros Hw. eapply (guarded_bind _ _ _ _ (λ _ _, True)).
  { eapply guarded_bind; [by apply asks_ask|]. intros [r|r|r] s' Hw' _;
      [|by apply asks_undefined..]. by eapply guarded_weaken; [apply asks_returned|]. }
  intros info s1 Hw1 _. case_bool_decide; [by apply guarded_ret; [|left]|].
  eapply (guarded_bind _ _ _ _ (λ names _, (CGetFileInfoSelector (get_manifest_path base),
    ANames (inl names)) ∈ calls)).
  { eapply guarded_bind; [by apply asks_ask|]. intros [r|r|r] s' Hw' [Hin _];
      [by apply asks_undefined| |by apply asks_undefined].
    eapply guarded_weaken; [by apply asks_returned|]. by intros names s2 [-> ->]. }
  intros names s2 Hw2 Hin. apply guarded_ret; [done|]. right. eauto.
Qed.

(** An output stream: its path and the bytes written to it. *)
Definition stream_at (s : Script) (h : nat) : option (string * string) := s_streams s !! h.

Definition uploads (path data : string) (c : Call) : Prop :=
  ∀ p d, c = CClose p d → p = path ∧ d = data.

Lemma asks_stream_write path data h s : within calls s → stream_at s h = Some (path, "") →
  asks (uploads path data) (Write (FileSystem:=script_fs kind) h data)
    (λ _ s', stream_at s' h = Some (path, data)) s.
Proof.
  unfold stream_at. intros Hw Hh. unfold guarded, Write, script_fs. rewrite Hh.
  eapply guarded_bind; [by apply asks_done|]. intros _ s3 Hw3 [_ Hs]. split; [done|].
  simpl. rewrite Hs. apply list_lookup_insert_eq. by apply lookup_lt_Some in Hh.
Qed.

Lemma asks_stream_close path data h s : within calls s → stream_at s h = Some (path, data) →
  asks (uploads path data) (CloseOutput (FileSystem:=script_fs kind) h)
    (λ _ _, (CClose path data, ADone (inl tt)) ∈ calls) s.
Proof.
  unfold stream_at. intros Hw Hh. unfold guarded, CloseOutput, script_fs. rewrite Hh.
  eapply guarded_weaken; [apply asks_done; [done|]|by intros ? ? [? _]]. by intros p d [= <- <-].
Qed.

(** Writing a file uploads its bytes only, and returns normally only if the
    upload was answered with success. *)
Lemma asks_write path data s : within calls s →
  asks (uploads path data)
    (write_file (FS:=script_fs kind) path data)
    (λ _ _, (CClose path data, ADone (inl tt)) ∈ calls) s.
Proof.
  intros Hw. eapply (guarded_bind _ _ _ _ (λ _ _, True)).
  { destruct (IsLocalFileSystem (H:=script_fs kind)); [|by apply guarded_ret].
    destruct (GetAbstractPathParent path) as [parent x]. destruct (negb _); [|by apply guarded_ret].
    eapply guarded_weaken; [by apply asks_done|done]. }
  intros _ s1 Hw1 _. change (@fs_conditional Script (script_fs kind)) with true. cbv iota.
  eapply guarded_bind.
  { eapply guarded_catch, (guarded_bind _ _ _ _ (λ _ _, True)).
    { by eapply guarded_weaken; [apply asks_done|]. }
    intros _ s2 Hw2 _. instantiate (1 := λ h s', stream_at s' h = Some (path, "")).
    split; [done|]. by apply list_lookup_middle. }
  intros [h|st] s2 Hw2 Hh0.
  2:{ destruct (IsConditionalWriteConflict st); [done|]. destruct (negb _); [done|].
      eapply (guarded_bind _ _ _ _ (λ _ _, True)).
      { eapply guarded_bind; [by apply asks_ask|]. intros [r|r|r] s' Hw' _;
          [|by apply asks_undefined..]. by eapply guarded_weaken; [apply asks_returned|]. }
      intros info s3 Hw3 _. destruct (negb _); [done|].
      eapply (guarded_bind _ _ _ _ (λ _ _, False)); [by apply asks_undefined|]. by intros. }
  pose proof (Hh0 h eq_refl) as Hh.
  eapply guarded_bind; [by apply asks_stream_write|].
  intros u s3 Hw3 Hd.
  eapply guarded_bind.
  { by eapply guarded_catch, asks_stream_close. }
  intros [[]|st] s4 Hw4 Hc; [by apply guarded_ret; [|eapply Hc]|].
  by destruct (IsConditionalWriteConflict st).
Qed.

(** An upload a commit attempts: the manifest of the version after a listed
    one, with the updates applied to the manifest that was read. *)
Definition attempt (t : Transaction) (mv : Mf) (uv : Updates ColumnGroup) (path data : string) :
    Prop :=
  ∃ v mv', path = get_manifest_filepath (base_path_ t) v ∧ apply_spec mv uv = Ok mv' ∧
    serialize (relative_to path mv') = Ok data ∧ 0 < v ≤ INT64_MAX ∧
    listed (base_path_ t) (v - 1) ∧ (resolver_ t = FailResolver → v = read_version_ t + 1).

Definition uploaded (t : Transaction) (v : Z) : Prop :=
  0 < v ≤ INT64_MAX ∧
  ∃ data, (CClose (get_manifest_filepath (base_path_ t) v) data, ADone (inl tt)) ∈ calls.

Section commit.
Context (t : Transaction) (mv : Mf) (uv : Updates ColumnGroup) (h0 : Heap).
Context (Hbr : builtin (resolver_ t)) (Hok : txn_ok h0 t mv uv).

Definition going (w : World Script) : Prop := within calls (w_fs w) ∧ h0 `prefix_of` w_heap w.
Definition stopped (w : World Script) : Prop :=
  asking (λ c, ∀ p d, c = CClose p d → attempt t mv uv p d) (w_fs w).

Lemma going_stopped w : going w → stopped w.
Proof. intros [[_ Hn] _] c Hc. congruence. Qed.

Lemma guarded_on_fs {A} (E : Call → Prop) (m : M Script Status A) Q w :
  asks E m Q (w_fs w) → going w → (∀ c, E c → ∀ p d, c = CClose p d → attempt t mv uv p d) →
  guarded going stopped (on_fs m) (λ a w', Q a (w_fs w')) w.
Proof.
  unfold guarded, on_fs. destruct (m (w_fs w)) as [s' [a|e|]]; intros Hm [_ Hh] HE.
  - by destruct Hm.
  - by split.
  - intros c Hc. apply HE. by apply Hm.
Qed.

Lemma guarded_reload w : going w →
  guarded going stopped (reload_latest_manifest (FS:=script_fs kind) t)
    (λ '(v, lm) _, lm = (if v =? read_version_ t then read_manifest_ t else None) ∧
       listed (base_path_ t) v) w.
Proof.
  intros Hw. eapply guarded_bind.
  { eapply guarded_on_fs; [apply asks_latest; by destruct Hw|done|]. intros c Hc p d He. by destruct (Hc p d). }
  cbv beta. intros v w1 Hw1 Hl.
  assert (requireLatest (resolver_ t) = false) as Hrl by by destruct Hbr as [->| ->].
  rewrite Hrl. cbn [negb].
  destruct (v =? read_version_ t) eqn:Hv; (apply guarded_ret; [done|split; [by rewrite Hv|done]]).
Qed.

Lemma guarded_resolve v w : going w →
  guarded going stopped (on_heap (resolve (resolver_ t) (read_manifest_ t) (read_version_ t)
      (if v =? read_version_ t then read_manifest_ t else None) v (updates_ t)))
    (λ m w', ∃ mv', apply_spec mv uv = Ok mv' ∧ manifest_view (w_heap w') m mv' ∧
       (resolver_ t = FailResolver → v = read_version_ t)) w.
Proof.
  intros Hw. pose proof Hw as [Hwi Hpre]. unfold guarded.
  destruct (on_heap _ w) as [w' r] eqn:Hr. apply on_heap_inv in Hr as (Hr & _ & Hf).
  destruct (decide (r = Ub)) as [->|Hub].
  { intros c. rewrite Hf. by apply going_stopped. }
  destruct (resolve_inv t v _ _ _ mv uv Hbr (txn_ok_prefix _ _ _ _ _ Hpre Hok) Hr Hub)
    as [Hp Hres].
  assert (going w') as Hg by (split; [by rewrite Hf|by etrans]).
  destruct r as [m|e|]; [|done..]. split; [done|].
  destruct Hres as [(? & _)|(Hfail & mv' & Hs & Hv)]; [done|]. eauto.
Qed.

Lemma guarded_write v m mv' w : going w → apply_spec mv uv = Ok mv' →
  manifest_view (w_heap w) m mv' → 0 < v + 1 ≤ INT64_MAX → listed (base_path_ t) v →
  (resolver_ t = FailResolver → v = read_version_ t) →
  guarded going stopped (catch (write_manifest (FS:=script_fs kind) (base_path_ t) m v (v + 1)))
    (λ r _, ∀ u, r = inl u → uploaded t (v + 1)) w.
Proof.
  intros [Hwi Hpre] Hs Hv Hlim Hl Hfail.
  apply (guarded_catch _ _ _ (λ _ _, uploaded t (v + 1))). unfold write_manifest.
  set (path := get_manifest_filepath (base_path_ t) (v + 1)).
  destruct (WriteTo_eq (FS:=script_fs kind) path m mv' w Hv) as (h' & data & Hd & Heq).
  pose proof (asks_write path data (w_fs w) Hwi) as Hwr. unfold guarded in *. rewrite Heq.
  destruct (write_file path data (w_fs w)) as [s' [[]|e|]]; cbn [fst snd].
  - destruct Hwr as [Hw' Hin]. split; [|split; [lia|by exists data]].
    split; [done|]. etrans; [exact Hpre|by eexists].
  - split; [done|]. etrans; [exact Hpre|by eexists].
  - intros c Hc p d ->. destruct (Hwr _ Hc p d eq_refl) as [-> ->]. exists (v + 1), mv'.
    split_and!; [done|done|done|lia|lia| |].
    + by replace (v + 1 - 1) with v by lia.
    + intros Hr. by rewrite (Hfail Hr).
Qed.

Lemma listed_nonneg base v : listed base v → 0 ≤ v.
Proof. intros [->|(names & _ & ->)]; [done|]. apply latest_of_spec. Qed.

Lemma guarded_once w : going w →
  guarded going stopped (commit_once (FS:=script_fs kind) t)
    (λ r _, ∀ v, r = Some v → uploaded t v) w.
Proof.
  intros Hw. eapply guarded_bind; [by apply guarded_reload|].
  intros [v lm] w1 Hw1 [-> Hl]. eapply guarded_bind; [by apply guarded_resolve|].
  cbv beta. intros m w2 Hw2 (mv' & Hs & Hv & Hfail).
  eapply (guarded_bind _ _ _ _ (λ cv w', cv = v + 1 ∧ w' = w2 ∧ 0 < v + 1 ≤ INT64_MAX)).
  { destruct (in_int64 (v + 1)) eqn:Hin; [|by apply going_stopped].
    apply in_int64_spec in Hin. apply listed_nonneg in Hl. apply guarded_ret; [done|].
    split_and!; [done|done|lia|lia]. }
  intros cv w3 Hw3 (-> & -> & Hlim). eapply guarded_bind; [by eapply guarded_write|].
  intros [u|st] w4 Hw4 Hu.
  - apply guarded_ret; [done|]. intros ? [= <-]. by eapply Hu.
  - case_bool_decide; [by apply guarded_ret|]. done.
Qed.

(** The loop stops at an attempted upload, or ends with an uploaded version
    if it ends well. *)
Lemma loop_script fuel : ∀ rc w w' r, going w →
  commit_loop (FS:=script_fs kind) fuel rc t w = Some (w', r) →
  stopped w' ∧ ∀ v, r = Ok v → uploaded t v.
Proof.
  induction fuel as [|fuel IH]; intros rc w w' r Hw Hl; cbn [commit_loop] in Hl;
    (destruct (rc <=? retry_limit_ t);
     [|injection Hl as <- <-; split; [by apply going_stopped|done]]); [done|].
  pose proof (guarded_once w Hw) as Ho. unfold guarded in Ho.
  destruct (commit_once t w) as [w1 [[v|]|e|]].
  - destruct Ho as [Hg Hu]. injection Hl as <- <-. split; [by apply going_stopped|].
    intros ? [= <-]. by apply Hu.
  - destruct Ho as [Hg _]. destruct (_ <? _); [|by eapply IH].
    injection Hl as <- <-. split; [by apply going_stopped|done].
  - injection Hl as <- <-. split; [by apply going_stopped|done].
  - by injection Hl as <- <-.
Qed.
End commit.
End runs.

(** A process: the upload it is about to complete, and its result. *)
Lemma next_upload kind {UP : UriParser} {AV : Avro} {AL : AvroLaws} p path data :
  builtin (resolver_ (p_txn p)) → txn_ok (p_heap p) (p_txn p) (p_read p) (p_updates p) →
  next_call kind p = Some (CClose path data) →
  attempt (p_calls p) (p_txn p) (p_read p) (p_updates p) path data.
Proof.
  intros Hb Ht Hn. unfold next_call, run, Commit in Hn.
  destruct (negb _); [done|]. destruct (commit_loop _ _ _ _) as [[w r]|] eqn:Hl; [|done].
  eapply (loop_script kind (p_calls p)) in Hl as [Hs _]; [|done|done|].
  - by eapply Hs.
  - split; [|done]. by split; [exists []|].
Qed.

Lemma result_upload kind {UP : UriParser} {AV : Avro} {AL : AvroLaws} p v :
  builtin (resolver_ (p_txn p)) → txn_ok (p_heap p) (p_txn p) (p_read p) (p_updates p) →
  result kind p = Some (Ok v) → uploaded (p_calls p) (p_txn p) v.
Proof.
  intros Hb Ht Hn. unfold result, run, Commit in Hn.
  destruct (negb _); [done|]. destruct (commit_loop _ _ _ _) as [[w r]|] eqn:Hl; [|done].
  destruct (s_asks _); [done|]. injection Hn as ->.
  eapply (loop_script kind (p_calls p)) in Hl as [_ Hu]; [by apply Hu|done|done|].
  split; [|done]. by split; [exists []|].
Qed.

(** ** Runs do not depend on the calls ahead

    A run that ends makes the same calls, with the same outcome, when more
    answered calls are ahead; a run that stops at a call goes on from the
    answer to it, and uses up the answers. *)
Section coherent.
Context {St : Type} (scr : St → Script) (ext : St → list (Call * Answer) → St).

Definition quiet (s : St) : Prop := s_asks (scr s) = None ∧ s_diverged (scr s) = false.
Definition spent (s : St) : Prop := s_ahead (scr s) = [] ∧ s_diverged (scr s) = false.

Context (quiet_ext : ∀ s x, quiet s → quiet (ext s x)).

Record coherent {A} (m : M St Status A) : Prop := {
  co_live s s' r : quiet s → m s = (s', r) → r ≠ Ub → quiet s';
  co_end s s' r x : quiet s → m s = (s', r) → quiet s' → m (ext s x) = (ext s' x, r);
  co_stop s s' r c a : quiet s → m s = (s', r) → s_asks (scr s') = Some c →
    spent (m (ext s [(c, a)])).1;
  co_spent s s' r : quiet s → m s = (s', r) → s_ahead (scr s) = [] → spent s';
}.

Lemma coherent_bind {A B} (m : M St Status A) (f : A → M St Status B) :
  coherent m → (∀ a, coherent (f a)) → coherent (m ≫= f).
Proof.
  intros Hm Hf. split.
  - intros s s' r Hq Hb Hr.
    apply M_bind_inv in Hb as [(s1 & a & H1 & H2)|[(e & H1 & ->)|[H1 ->]]]; [| |done].
    + eapply (co_live _ (Hf a)); [|exact H2|done]. by eapply (co_live _ Hm).
    + by eapply (co_live _ Hm).
  - intros s s' r x Hq Hb Hq'. unfold mbind, M_bind.
    apply M_bind_inv in Hb as [(s1 & a & H1 & H2)|[(e & H1 & ->)|[H1 ->]]].
    + pose proof (co_live _ Hm _ _ _ Hq H1 ltac:(done)) as Hq1.
      rewrite (co_end _ Hm _ _ _ x Hq H1 Hq1). by apply (co_end _ (Hf a)).
    + by rewrite (co_end _ Hm _ _ _ x Hq H1 Hq').
    + by rewrite (co_end _ Hm _ _ _ x Hq H1 Hq').
  - intros s s' r c y Hq Hb Hc. unfold mbind, M_bind.
    apply M_bind_inv in Hb as [(s1 & a & H1 & H2)|[(e & H1 & ->)|[H1 ->]]].
    + pose proof (co_live _ Hm _ _ _ Hq H1 ltac:(done)) as Hq1.
      rewrite (co_end _ Hm _ _ _ _ Hq H1 Hq1). by eapply (co_stop _ (Hf a)).
    + destruct (co_live _ Hm _ _ _ Hq H1); [done|congruence].
    + pose proof (co_stop _ Hm _ _ _ c y Hq H1 Hc) as Hs.
      destruct (m (ext s [(c, y)])) as [s1 [a|e|]] eqn:H2; [|done..].
      pose proof (co_live _ Hm _ _ _ (quiet_ext _ _ Hq) H2 ltac:(done)) as Hq1.
      destruct (f a s1) as [s2 r2] eqn:H3. eapply (co_spent _ (Hf a)); [done|done|apply Hs].
  - intros s s' r Hq Hb Ha.
    apply M_bind_inv in Hb as [(s1 & a & H1 & H2)|[(e & H1 & ->)|[H1 ->]]].
    + pose proof (co_live _ Hm _ _ _ Hq H1 ltac:(done)) as Hq1.
      destruct (co_spent _ Hm _ _ _ Hq H1 Ha). by eapply (co_spent _ (Hf a)).
    + by eapply (co_spent _ Hm).
    + by eapply (co_spent _ Hm).
Qed.

Lemma coherent_catch {A} (m : M St Status A) : coherent m → coherent (catch m).
Proof.
  intros Hm. split.
  - intros s s' r Hq Hb Hr. apply catch_inv in Hb as [(a & H & ->)|[(e & H & ->)|[H ->]]];
      [| |done]; by eapply (co_live _ Hm).
  - intros s s' r x Hq Hb Hq'. unfold catch.
    apply catch_inv in Hb as [(a & H & ->)|[(e & H & ->)|[H ->]]];
      by rewrite (co_end _ Hm _ _ _ x Hq H Hq').
  - intros s s' r c y Hq Hb Hc. unfold catch.
    assert (spent (m (ext s [(c, y)])).1) as Hs.
    { apply catch_inv in Hb as [(a & H & ->)|[(e & H & ->)|[H ->]]]; by eapply (co_stop _ Hm). }
    by destruct (m _) as [s1 [a|e|]].
  - intros s s' r Hq Hb Ha. apply catch_inv in Hb as [(a & H & ->)|[(e & H & ->)|[H ->]]];
      by eapply (co_spent _ Hm).
Qed.

(** Code that does not touch the script. *)
Lemma coherent_silent {A} (m : M St Status A) :
  (∀ s s' r, m s = (s', r) → s_ahead (scr s') = s_ahead (scr s) ∧
     s_asks (scr s') = s_asks (scr s) ∧ s_diverged (scr s') = s_diverged (scr s) ∧
     ∀ x, m (ext s x) = (ext s' x, r)) → coherent m.
Proof.
  intros H. split.
  - intros s s' r [Hq1 Hq2] (_ & H1 & H2 & _)%H _. split; congruence.
  - intros s s' r x _ (_ & _ & _ & Hx)%H _. done.
  - intros s s' r c a [Hq _] (_ & H1 & _)%H Hc. congruence.
  - intros s s' r [_ Hq] (H0 & _ & H2 & _)%H Ha. split; congruence.
Qed.

Lemma coherent_lift {A} (o : outcome Status A) : coherent (λ s, (s, o)).
Proof. apply coherent_silent. by intros s s' r [= <- <-]. Qed.
End coherent.

Lemma coherent_proper {St A} (scr : St → Script) ext (m m' : M St Status A) :
  (∀ s, m s = m' s) → coherent scr ext m' → coherent scr ext m.
Proof.
  intros He Hm. split.
  - intros s s' r Hq. rewrite He. by apply (co_live _ _ _ Hm).
  - intros s s' r x Hq. rewrite !He. by apply (co_end _ _ _ Hm).
  - intros s s' r c a Hq. rewrite !He. by apply (co_stop _ _ _ Hm).
  - intros s s' r Hq. rewrite He. by apply (co_spent _ _ _ Hm).
Qed.

(** A return, a failure, or undefined behaviour. *)
Ltac co_lift := first [exact (coherent_lift _ _ (Ok _)) | exact (coherent_lift _ _ (Err _)) |
  exact (coherent_lift _ _ Ub)].

Section replay.
Context (kind : string) {UP : UriParser} {AV : Avro}.
#[local] Existing Instance script_fs.

Definition more_ahead (s : Script) (x : list (Call * Answer)) : Script :=
  mkScript (s_ahead s ++ x) (s_asks s) (s_diverged s) (s_streams s).
Definition world_ahead (w : World Script) (x : list (Call * Answer)) : World Script :=
  mkWorld (w_heap w) (w_cache w) (more_ahead (w_fs w) x).
#[local] Abbreviation coh := (coherent (λ s, s) more_ahead).
#[local] Abbreviation cow := (coherent w_fs world_ahead).

Lemma coh_bind {A B} (m : M Script Status A) (f : A → M Script Status B) :
  coh m → (∀ a, coh (f a)) → coh (m ≫= f).
Proof. by apply coherent_bind. Qed.

Lemma cow_bind {A B} (m : M (World Script) Status A) (f : A → M (World Script) Status B) :
  cow m → (∀ a, cow (f a)) → cow (m ≫= f).
Proof. by apply coherent_bind. Qed.

Lemma coh_ask c : coh (ask c).
Proof.
  split; unfold ask, quiet, spent.
  - intros s s' r [Hq1 Hq2]. destruct (s_ahead s) as [|[c' a] rest]; [by intros [= <- <-]|].
    case_decide; intros [= <- <-]; [done|congruence].
  - intros s s' r x [Hq1 Hq2]. unfold more_ahead at 1. cbn [s_ahead s_asks s_diverged s_streams].
    destruct (s_ahead s) as [|[c' a] rest]; cbn [app].
    + intros [= <- <-] [? ?]. done.
    + case_decide; intros [= <- <-] [? ?]; done.
  - intros s s' r c0 a [Hq1 Hq2]. unfold more_ahead. cbn [s_ahead s_asks s_diverged s_streams].
    destruct (s_ahead s) as [|[c' a'] rest]; cbn [app].
    + intros [= <- <-] [= <-]. by rewrite decide_True.
    + case_decide; intros [= <- <-]; simpl; congruence.
  - intros s s' r [Hq1 Hq2] Hb Ha. rewrite Ha in Hb. by injection Hb as <- <-.
Qed.

Lemma coh_returned {A} (r : A + Status) : coh (returned r).
Proof. destruct r; unfold returned; co_lift. Qed.

Lemma coh_done c : coh (ask_done c).
Proof. apply coh_bind; [apply coh_ask|]. intros [r|r|r]; [co_lift..|apply coh_returned]. Qed.

Lemma coh_info p : coh (GetFileInfo (FileSystem:=script_fs kind) p).
Proof. apply coh_bind; [apply coh_ask|]. intros [r|r|r]; [apply coh_returned|co_lift..]. Qed.

Lemma coh_latest base : coh (get_latest_version (FS:=script_fs kind) base).
Proof.
  apply coh_bind; [apply coh_info|]. intros info. case_bool_decide; [co_lift|].
  apply coh_bind; [|intros names; co_lift].
  apply coh_bind; [apply coh_ask|]. intros [r|r|r];
    [co_lift|apply coh_returned|co_lift].
Qed.

Lemma coh_new_stream p : coh (new_stream p).
Proof. apply coherent_silent. by intros s s' r [= <- <-]. Qed.

(** Code that depends on the streams. *)
Lemma coh_streams {A} (f : list (string * string) → M Script Status A) :
  (∀ l, coh (f l)) → coh (λ s, f (s_streams s) s).
Proof.
  intros Hf. split; intros s.
  - apply (co_live _ _ _ (Hf (s_streams s))).
  - apply (co_end _ _ _ (Hf (s_streams s))).
  - apply (co_stop _ _ _ (Hf (s_streams s))).
  - apply (co_spent _ _ _ (Hf (s_streams s))).
Qed.

Lemma coh_stream_op {A} (m : M Script Status A) (h : nat)
    (k : string → string → M Script Status A) :
  (∀ s, m s = match s_streams s !! h with None => (s, Ub) | Some (p, buf) => k p buf s end) →
  (∀ p buf, coh (k p buf)) → coh m.
Proof.
  intros Hm Hk. eapply coherent_proper;
    [|apply (coh_streams (λ l, match l !! h with
        None => undefined | Some (p, buf) => k p buf end))].
  - intros s. rewrite Hm. simpl. by destruct (s_streams s !! h) as [[p buf]|].
  - intros l. destruct (l !! h) as [[p buf]|]; [apply Hk|co_lift].
Qed.

Lemma coh_stream_write h d : coh (Write (FileSystem:=script_fs kind) h d).
Proof.
  eapply coh_stream_op; [done|]. intros p buf.
  apply coh_bind; [apply coh_done|]. intros _. apply coherent_silent. by intros s s' r [= <- <-].
Qed.

Lemma coh_stream_close h : coh (CloseOutput (FileSystem:=script_fs kind) h).
Proof. eapply coh_stream_op; [done|]. intros p buf. apply coh_done. Qed.

Lemma coh_write path data : coh (write_file (FS:=script_fs kind) path data).
Proof.
  assert (coh (write_fallback (FS:=script_fs kind) path data)) as Hfb.
  { apply coh_bind; [apply coh_info|]. intros info. destruct (negb _); [co_lift|].
    apply coh_bind; [co_lift|]. intros h. apply coh_bind; [apply coh_stream_write|].
    intros _. apply coh_stream_close. }
  apply coh_bind.
  { destruct IsLocalFileSystem; [|co_lift]. destruct (GetAbstractPathParent path) as [parent x].
    destruct (negb _); [apply coh_done|co_lift]. }
  intros _. change (@fs_conditional Script (script_fs kind)) with true. cbv iota.
  apply coh_bind.
  { apply coherent_catch, coh_bind; [apply coh_done|]. intros _. apply coh_new_stream. }
  intros [h|st].
  - apply coh_bind; [apply coh_stream_write|]. intros _.
    apply coh_bind; [apply coherent_catch, coh_stream_close|]. intros [u|st]; [co_lift|].
    destruct (IsConditionalWriteConflict st); co_lift.
  - destruct (IsConditionalWriteConflict st); [co_lift|]. destruct (negb _); [co_lift|done].
Qed.

Lemma cow_on_heap {A} (m : M Heap Status A) : cow (on_heap m).
Proof.
  apply coherent_silent. intros w w' r. unfold on_heap, world_ahead. simpl.
  destruct (m (w_heap w)) as [h o]. by intros [= <- <-].
Qed.

Lemma cow_on_fs {A} (m : M Script Status A) : coh m → cow (on_fs m).
Proof.
  intros Hm. split; unfold on_fs.
  - intros w w' r Hq. destruct (m (w_fs w)) as [s o] eqn:E. intros [= <- <-].
    by apply (co_live _ _ _ Hm _ _ _ Hq E).
  - intros w w' r x Hq. destruct (m (w_fs w)) as [s o] eqn:E. intros [= <- <-] Hq'.
    simpl. by rewrite (co_end _ _ _ Hm _ _ _ x Hq E Hq').
  - intros w w' r c a Hq. destruct (m (w_fs w)) as [s o] eqn:E. intros [= <- <-] Hc.
    pose proof (co_stop _ _ _ Hm _ _ _ c a Hq E Hc) as Hs. simpl.
    by destruct (m (more_ahead _ _)).
  - intros w w' r Hq. destruct (m (w_fs w)) as [s o] eqn:E. intros [= <- <-] Ha.
    by apply (co_spent _ _ _ Hm _ _ _ Hq E Ha).
Qed.

Lemma cow_once t : builtin (resolver_ t) → cow (commit_once (FS:=script_fs kind) t).
Proof.
  intros Hbr.
  assert (requireLatest (resolver_ t) = false) as Hrl by by destruct Hbr as [->| ->].
  apply cow_bind.
  { apply cow_bind; [apply cow_on_fs, coh_latest|]. intros v. rewrite Hrl.
    destruct (_ =? _); co_lift. }
  intros [v lm]. apply cow_bind; [apply cow_on_heap|]. intros m.
  apply cow_bind; [destruct (in_int64 _); co_lift|]. intros cv.
  apply cow_bind; [|intros [u|st]; [co_lift|]; case_bool_decide; co_lift].
  apply coherent_catch, cow_bind; [apply cow_on_heap|]. intros rm.
  apply cow_bind; [apply cow_on_heap|]. intros gs. apply cow_bind; [co_lift|].
  intros d. apply cow_on_fs, coh_write.
Qed.

(** The loop as one computation. *)
Fixpoint loop_run (fuel : nat) (rc : Z) (t : Transaction) : M (World Script) Status Z :=
  if rc <=? retry_limit_ t then
    match fuel with
    | O => undefined
    | S fuel' =>
        r ← commit_once (FS:=script_fs kind) t;
        match r with
        | Some v => mret v
        | None =>
            let rc := (rc + 1) mod 2 ^ 32 in
            if retry_limit_ t <? rc then fail (MakeExtendError TxnExhaustedRetry)
            else loop_run fuel' rc t
        end
    end
  else fail status_Invalid.

Lemma loop_run_eq t fuel : ∀ rc w x, commit_loop (FS:=script_fs kind) fuel rc t w = Some x →
  loop_run fuel rc t w = x.
Proof.
  induction fuel as [|fuel IH]; intros rc w x; cbn [commit_loop loop_run];
    (destruct (rc <=? retry_limit_ t); [|by intros [= <-]]); [done|].
  unfold mbind, M_bind. destruct (commit_once t w) as [w1 [[v|]|e|]]; [by intros [= <-]| |by intros [= <-]..].
  cbv zeta. destruct (_ <? _); [by intros [= <-]|]. apply IH.
Qed.

Lemma cow_loop t fuel : builtin (resolver_ t) → ∀ rc, cow (loop_run fuel rc t).
Proof.
  intros Hbr. induction fuel as [|fuel IH]; intros rc; cbn [loop_run];
    (destruct (rc <=? retry_limit_ t); [|co_lift]); [co_lift|].
  apply cow_bind; [by apply cow_once|]. intros [v|]; [co_lift|]. cbv zeta.
  destruct (_ <? _); [co_lift|apply IH].
Qed.

(** No call of the process differed from the one answered. *)
Definition settled (p : Proc) : Prop :=
  ∀ w r, run kind p = Some (w, r) → s_diverged (w_fs w) = false.

Lemma settled_new p : builtin (resolver_ (p_txn p)) → p_calls p = [] → settled p.
Proof.
  intros Hbr Hnil w r. unfold run, Commit. rewrite Hnil.
  destruct (negb _); [by intros [= <- _]|]. intros Hl%loop_run_eq.
  by apply (co_spent _ _ _ (cow_loop _ _ Hbr _)) in Hl as [_ ?].
Qed.

Lemma settled_answered p c a : builtin (resolver_ (p_txn p)) →
  next_call kind p = Some c → settled (answered p c a).
Proof.
  intros Hbr Hn w r. unfold run, Commit. cbn [answered p_txn p_heap p_cache p_calls].
  unfold next_call, run, Commit in Hn.
  destruct (negb _); [by intros [= <- _]|]. intros Hl%loop_run_eq.
  destruct (commit_loop _ _ _ _) as [[w0 r0]|] eqn:H0; [|done]. apply loop_run_eq in H0.
  apply (co_stop _ _ _ (cow_loop _ _ Hbr _) _ _ _ c a) in H0 as [_ Hs]; [|done..].
  change (world_ahead _ _) with
    (mkWorld (p_heap p) (p_cache p) (script (p_calls p ++ [(c, a)]))) in Hs.
  by rewrite Hl in Hs.
Qed.
End replay.

(** ** The invariant of the store *)

Section invariant.
Context (kind base : string) {UP : UriParser} {AV : Avro} {AL : AvroLaws}.
Context (serve : Call → gmap string string → Answer → gmap string string → Prop).
Context {SL : StoreLaws serve}.
#[local] Abbreviation dir := (get_manifest_path base).
#[local] Abbreviation path := (get_manifest_filepath base).

Definition in_manifest_dir (q : string) : Prop := starts_with (get_manifest_path base) q = true.

(** What holds of a process: it can be run, the manifest it read is still
    there, the versions listed to it exist, and the uploads it was told to have
    succeeded are its own. *)
Record proc_ok (f : gmap string string) (cr : gmap string nat) (n : Z) (i : nat) (p : Proc) :
    Prop := mkProcOk {
  po_wf : well_formed base p;
  po_snapshot : snapshot base f (read_version_ (p_txn p)) (p_read p);
  po_listed names : (CGetFileInfoSelector dir, ANames (inl names)) ∈ p_calls p →
    latest_of names ≤ n;
  po_uploaded v data : (CClose (path v) data, ADone (inl tt)) ∈ p_calls p →
    cr !! path v = Some i ∧ is_Some (f !! path v);
}.

(** What holds of version [v] of the store: process [i] created it, from its
    updates and the manifest it read. *)
Definition version_ok (f : gmap string string) (ps : gmap nat Proc) (v : Z) (i : nat) : Prop :=
  ∃ p mv', ps !! i = Some p ∧ apply_spec (p_read p) (p_updates p) = Ok mv' ∧
    file_denotes f (path v) (at_current_version mv') ∧
    (resolver_ (p_txn p) = FailResolver → v = read_version_ (p_txn p) + 1).

Record inv_at (n : Z) (s : Sys) : Prop := mkInv {
  inv_range : 0 ≤ n ≤ INT64_MAX;
  inv_files q : in_manifest_dir q →
    is_Some (files s !! q) ↔ ∃ v, 1 ≤ v ≤ n ∧ q = path v;
  inv_creator v : 1 ≤ v ≤ n →
    ∃ i, creator s !! path v = Some i ∧ version_ok (files s) (procs s) v i;
  inv_proc i p : procs s !! i = Some p → proc_ok (files s) (creator s) n i p;
}.

Lemma path_eq v : path v = dir +:+ get_manifest_filename v.
Proof. apply Layout.manifest_filepath_eq. Qed.

Lemma path_in_dir v : in_manifest_dir (path v).
Proof. unfold in_manifest_dir. rewrite path_eq. apply starts_with_app. Qed.

Lemma path_inj v w : 0 ≤ v ≤ INT64_MAX → 0 ≤ w ≤ INT64_MAX → path v = path w → v = w.
Proof.
  intros Hv Hw. rewrite !path_eq. intros He%app_str_inj_l.
  apply (f_equal parse_version) in He. rewrite !parse_version_filename in He by done. congruence.
Qed.

(** Files of the manifest directory keep their bytes. *)
Definition keeps (f f' : gmap string string) : Prop :=
  ∀ q d, in_manifest_dir q → f !! q = Some d → f' !! q = Some d.

Lemma denotes_keeps f f' v mv : keeps f f' → file_denotes f (path v) mv →
  file_denotes f' (path v) mv.
Proof.
  intros Hk (d & rel & Hd & Hr). exists d, rel. split; [|done].
  apply Hk; [apply path_in_dir|done].
Qed.

Lemma snapshot_keeps f f' v mv : keeps f f' → snapshot base f v mv → snapshot base f' v mv.
Proof. intros Hk [H0 H1]. split; [done|]. intros Hv. by eapply denotes_keeps, H1. Qed.

Lemma version_ok_keeps f f' ps v i : keeps f f' → version_ok f ps v i → version_ok f' ps v i.
Proof.
  intros Hk (p & mv' & Hp & Ha & Hd & Hr). exists p, mv'. split_and!; [done|done| |done].
  by eapply denotes_keeps.
Qed.

(** A process replaced by one with the same transaction, or a new one. *)
Definition same_txn (p p' : Proc) : Prop :=
  p_txn p' = p_txn p ∧ p_read p' = p_read p ∧ p_updates p' = p_updates p.

Lemma version_ok_insert f ps v j i p' : (∀ p, ps !! i = Some p → same_txn p p') →
  version_ok f ps v j → version_ok f (<[i := p']> ps) v j.
Proof.
  intros Hs (p & mv' & Hp & Ha & Hd & Hr). destruct (decide (i = j)) as [->|Hne].
  - destruct (Hs _ Hp) as (H1 & H2 & H3). exists p', mv'.
    by rewrite lookup_insert_eq, H1, H2, H3.
  - exists p, mv'. by rewrite lookup_insert_ne.
Qed.

Lemma inv_insert n f ps cr i p' : inv_at n (mkSys f ps cr) →
  (∀ p, ps !! i = Some p → same_txn p p') → proc_ok f cr n i p' →
  inv_at n (mkSys f (<[i := p']> ps) cr).
Proof.
  intros [Hn Hf Hc Hp] Hs Hok. split; simpl in *; [done|done| |].
  - intros v (j & Hj & Hv)%Hc. exists j. split; [done|]. by apply version_ok_insert.
  - intros j q. destruct (decide (i = j)) as [<-|Hne].
    + rewrite lookup_insert_eq. by intros [= <-].
    + rewrite lookup_insert_ne by done. apply Hp.
Qed.

(** A listing of the manifest directory names versions of the store only. *)
Lemma listing_bounded n f ps cr names f' : inv_at n (mkSys f ps cr) →
  serve (CGetFileInfoSelector dir) f (ANames (inl names)) f' → latest_of names ≤ n.
Proof.
  intros Hinv Hs. pose proof (inv_range _ _ Hinv) as Hn.
  destruct (latest_of_spec names) as (_ & _ & [->|(name & Hin & Hp)]); [lia|].
  assert (∃ v, 1 ≤ v ≤ n ∧ name = get_manifest_filename v) as (v & Hv & ->).
  { pose proof (serve_list _ _ _ _ _ Hs Hin) as [Hx|[q Hx]].
    - apply (inv_files _ _ Hinv) in Hx as (v & Hv & He); [|apply starts_with_app].
      exists v. split; [done|]. rewrite path_eq in He. by apply app_str_inj_l in He.
    - apply (inv_files _ _ Hinv) in Hx as (v & Hv & He); [|apply starts_with_app].
      rewrite path_eq in He. apply app_str_inj_l in He.
      pose proof (Layout.manifest_filename_sep v) as Hsep. rewrite <- He in Hsep.
      rewrite mem_char_app in Hsep. simpl in Hsep. by rewrite orb_true_r in Hsep. }
  rewrite parse_version_filename in Hp by lia. injection Hp as <-. lia.
Qed.

(** A call that changes nothing. *)
Lemma inv_unchanged n f ps cr i p c a : inv_at n (mkSys f ps cr) → ps !! i = Some p →
  serve c f a f → inv_at n (mkSys f (<[i := answered p c a]> ps) cr).
Proof.
  intros Hinv Hi Hs. apply inv_insert; [done| |].
  - intros q Hq. assert (q = p) as -> by congruence. by split_and!.
  - destruct (inv_proc _ _ Hinv i p Hi) as [Hwf Hsn Hl Hu]. split; [by destruct Hwf|done| |].
    + intros names [Hin|Hin]%elem_of_app; [by apply Hl|].
      apply list_elem_of_singleton in Hin as [= <- <-]. by eapply listing_bounded.
    + intros v data [Hin|Hin]%elem_of_app; [by eapply Hu|].
      apply list_elem_of_singleton in Hin as [= <- <-].
      apply serve_close_ok in Hs as [Hnone He]. rewrite He in Hnone.
      by rewrite lookup_insert_eq in Hnone.
Qed.

(** Other files change. *)
Lemma inv_other n f f' ps cr : inv_at n (mkSys f ps cr) →
  (∀ q, in_manifest_dir q → f' !! q = f !! q) → inv_at n (mkSys f' ps cr).
Proof.
  intros [Hn Hf Hc Hp] Heq. simpl in *.
  assert (keeps f f') as Hk by (intros q d Hq; by rewrite Heq).
  split; simpl; [done| | |].
  - intros q Hq. rewrite Heq by done. by apply Hf.
  - intros v (j & Hj & Hv)%Hc. exists j. split; [done|]. by eapply version_ok_keeps.
  - intros i p [H1 H2 H3 H4]%Hp. split; [done| |done|].
    + by eapply snapshot_keeps.
    + intros v data Hin%H4. by rewrite Heq by apply path_in_dir.
Qed.

(** The upload a process completes creates the next version. *)
Lemma created_version n f ps cr i p q data : inv_at n (mkSys f ps cr) → ps !! i = Some p →
  next_call kind p = Some (CClose q data) → f !! q = None →
  q = path (n + 1) ∧ n + 1 ≤ INT64_MAX ∧
  version_ok (<[q := data]> f) (<[i := p]> ps) (n + 1) i.
Proof.
  intros Hinv Hi Hn Hnone. pose proof (inv_range _ _ Hinv) as Hr.
  destruct (inv_proc _ _ Hinv i p Hi) as [[Hb Hbr Ht Hfit] _ Hl _].
  destruct (next_upload kind p q data Hbr Ht Hn) as (v & mv' & Hq & Ha & Hd & Hv & Hls & Hst).
  rewrite Hb in Hq, Hls.
  assert (v - 1 ≤ n) as Hle by (destruct Hls as [->|(names & Hin & ->)]; [lia|by apply Hl]).
  assert (¬ v ≤ n) as Hgt.
  { intros Hvn. assert (is_Some (f !! q)) as [? ?]; [|congruence].
    apply (inv_files _ _ Hinv); [rewrite Hq; apply path_in_dir|]. exists v. split; [lia|done]. }
  assert (v = n + 1) as -> by lia. split_and!; [done|lia|].
  destruct (Hfit mv' Ha) as [Hco Hpa].
  rewrite <- (Layout.base_path_for_manifest_eq base (n + 1)), <- Hq in Hpa.
  exists p, mv'. split_and!; [by rewrite lookup_insert_eq|done| |done]. rewrite <- Hq.
  eapply (written_denotes q mv' data _ Hco Hpa Hd). by rewrite lookup_insert_eq.
Qed.

Lemma inv_created n f ps cr i p q data a : inv_at n (mkSys f ps cr) → ps !! i = Some p →
  next_call kind p = Some (CClose q data) → f !! q = None →
  inv_at (n + 1)
    (mkSys (<[q := data]> f) (<[i := answered p (CClose q data) a]> ps) (<[q := i]> cr)).
Proof.
  intros Hinv Hi Hnx Hnone.
  destruct (created_version _ _ _ _ _ _ _ _ Hinv Hi Hnx Hnone) as (Hq & Hmax & Hver).
  assert (keeps f (<[q := data]> f)) as Hk.
  { intros q' d' _ Hd'. rewrite lookup_insert_ne; [done|]. intros ->. congruence. }
  pose proof Hinv as [Hr Hf Hc Hp]. simpl in *.
  assert (∀ v, 1 ≤ v ≤ n → path v ≠ q) as Hne.
  { intros v Hv He. rewrite Hq in He. apply path_inj in He; lia. }
  split; simpl; [lia| | |].
  - intros q' Hq'. rewrite lookup_insert_is_Some, (Hf q' Hq'). split.
    + intros [<-|[_ (v & Hv & ->)]]; [exists (n + 1)|exists v]; split; done || lia.
    + intros (v & Hv & ->). destruct (decide (v = n + 1)) as [->|]; [by left|]. right.
      split; [apply not_eq_sym, Hne; lia|]. exists v. split; [lia|done].
  - intros v Hv. destruct (decide (v = n + 1)) as [->|].
    + exists i. rewrite <- Hq, lookup_insert_eq. split; [done|].
      rewrite <- (insert_insert_eq ps i (answered p (CClose q data) a) p).
      apply version_ok_insert; [|done]. intros p0. rewrite lookup_insert_eq.
      intros [= <-]. by split_and!.
    + destruct (Hc v ltac:(lia)) as (j & Hj & Hvj). exists j.
      rewrite lookup_insert_ne by (apply not_eq_sym, Hne; lia). split; [done|].
      eapply version_ok_keeps; [done|]. apply version_ok_insert; [|done].
      intros p0 Hp0. assert (p0 = p) as -> by congruence. by split_and!.
  - assert (∀ j r, ps !! j = Some r → proc_ok (<[q := data]> f) (<[q := i]> cr) (n + 1) j r)
      as Hold.
    { intros j r Hj. destruct (Hp j r Hj) as [H1 H2 H3 H4].
      split; [done|by eapply snapshot_keeps|intros names Hin%H3; lia|].
      intros v d [Hcr Hf']%H4. assert (q ≠ path v) as Hqv.
      { intros He. rewrite <- He, Hnone in Hf'. by destruct Hf'. }
      by rewrite !lookup_insert_ne. }
    intros j r. destruct (decide (i = j)) as [<-|Hij].
    + rewrite lookup_insert_eq. intros [= <-]. destruct (Hold i p Hi) as [Hw Hs Hl Hu].
      split; [by destruct Hw|done| |].
      * intros names [Hin|Hin]%elem_of_app; [by apply Hl|]. by apply list_elem_of_singleton in Hin.
      * intros v d [Hin|Hin]%elem_of_app; [by eapply Hu|].
        apply list_elem_of_singleton in Hin as [= -> _ _]. by rewrite !lookup_insert_eq.
    + rewrite lookup_insert_ne by done. apply Hold.
Qed.

(** ** Every step keeps the invariant *)

Lemma inv_step n s s' : inv_at n s → step kind base serve s s' → ∃ n', inv_at n' s' ∧ n ≤ n'.
Proof.
  intros Hinv Hs. destruct Hs as [f ps cr i p Hi Hw Hsn Hnil|f ps cr i p c a f' Hi Hnx Hs|
    f ps cr f' Heq].
  - exists n. split; [|done]. apply inv_insert; [done|congruence|].
    split; [done|done|rewrite Hnil..]; by intros ? ?%elem_of_nil || by intros ? ? ?%elem_of_nil.
  - assert (∀ q data, c = CClose q data → f' ≠ f → f !! q = None ∧ f' = <[q := data]> f) as Hcl.
    { intros q data -> Hne. by destruct (serve_close _ _ _ _ _ Hs) as [?|?]. }
    destruct (decide (f' = f)) as [->|Hne].
    + exists n. split; [|done].
      assert (record_creator f f c i cr = cr) as -> by (destruct c; simpl; by rewrite ?decide_True).
      by apply inv_unchanged.
    + destruct c as [| | | | |q data]; try (by destruct Hne; eapply serve_keeps).
      destruct (Hcl q data eq_refl Hne) as [Hnone ->]. exists (n + 1). split; [|lia].
      simpl. rewrite decide_False by done. by apply inv_created.
  - exists n. split; [|done]. by eapply inv_other.
Qed.

Lemma inv_reachable s : reachable kind base serve s → ∃ n, inv_at n s.
Proof.
  intros (f & Hf & Hr).
  assert (inv_at 0 (mkSys f ∅ ∅)) as H0.
  { split; simpl; [done| |lia|done].
    intros q Hq. rewrite Hf by done. split; [by intros [? ?]|]. intros (v & ? & _). lia. }
  remember (mkSys f ∅ ∅) as s0. clear Heqs0 Hf f. revert H0. generalize 0.
  induction Hr as [|s1 s2 s3 Hs _ IH]; intros n Hinv; [by exists n|].
  destruct (inv_step _ _ _ Hinv Hs) as (n' & Hn' & _). by eapply IH.
Qed.

(** A process that returned a version created it. *)
Lemma result_creator n s i p v : inv_at n s → procs s !! i = Some p →
  result kind p = Some (Ok v) → creator s !! path v = Some i ∧ 1 ≤ v ≤ n.
Proof.
  intros Hinv Hi Hr. destruct (inv_proc _ _ Hinv i p Hi) as [[Hb Hbr Ht _] _ _ Hu].
  destruct (result_upload kind p v Hbr Ht Hr) as (Hv & data & Hin). rewrite Hb in Hin.
  destruct (Hu v data Hin) as [Hcr Hf]. split; [done|].
  apply (inv_files _ _ Hinv) in Hf as (w & Hw & He); [|apply path_in_dir].
  pose proof (inv_range _ _ Hinv). apply path_inj in He; lia.
Qed.

(** ** Serial execution *)

Lemma serial_snoc ps ids i p m : ps !! i = Some p → serial ps (ids ++ [i]) m =
  (m' ← serial ps ids m; m'' ← apply_spec m' (p_updates p); Ok (at_current_version m'')).
Proof.
  intros Hi. revert m. induction ids as [|j ids IH]; intros m; cbn [app serial].
  - by rewrite Hi, bind_Ok.
  - destruct (ps !! j) as [q|]; [|done].
    destruct (apply_spec m (p_updates q)) as [x|e|]; rewrite ?bind_Ok, ?bind_Err, ?bind_Ub; [|done..].
    apply IH.
Qed.

Lemma snapshot_fun f v m1 m2 : snapshot base f v m1 → snapshot base f v m2 → m1 = m2.
Proof.
  intros [H0 H1] [H0' H1']. destruct (Z.leb_spec v 0) as [Hv|Hv].
  - by rewrite H0, H0'.
  - by eapply file_denotes_fun; [apply H1|apply H1'].
Qed.

(** The creators of the first versions, in order, and what their updates give
    when they run one after the other. *)
Lemma creators_serial n s (k : nat) : inv_at n s →
  (∀ i p, procs s !! i = Some p → resolver_ (p_txn p) = FailResolver) → Z.of_nat k ≤ n →
  ∃ ids, length ids = k ∧
    (∀ j i, ids !! j = Some i → creator s !! path (Z.of_nat j + 1) = Some i ∧
       ∃ p, procs s !! i = Some p ∧ read_version_ (p_txn p) = Z.of_nat j) ∧
    ∀ j, (j ≤ k)%nat → ∃ m, serial (procs s) (take j ids) empty_manifest = Ok m ∧
      snapshot base (files s) (Z.of_nat j) m.
Proof.
  intros Hinv Hstrict. induction k as [|k IH]; intros Hk.
  - exists []. split_and!; [done|done|]. intros j Hj. assert (j = 0%nat) as -> by lia.
    exists empty_manifest. split; [done|]. split; [done|lia].
  - destruct IH as (ids & Hlen & Hids & Hser); [lia|].
    destruct (Hser k) as (m & Hm & Hsn); [lia|]. rewrite take_ge in Hm by lia.
    destruct (inv_creator _ _ Hinv (Z.of_nat k + 1)) as (i & Hcr & p & mv' & Hp & Ha & Hd & Hst); [lia|].
    specialize (Hst (Hstrict i p Hp)). assert (read_version_ (p_txn p) = Z.of_nat k) as Hrv by lia.
    pose proof (po_snapshot _ _ _ _ _ (inv_proc _ _ Hinv i p Hp)) as Hsn'. rewrite Hrv in Hsn'.
    rewrite (snapshot_fun _ _ _ _ Hsn' Hsn) in Ha.
    exists (ids ++ [i]). split_and!.
    + rewrite length_app, Hlen. simpl. lia.
    + intros j x. rewrite lookup_app_Some. intros [Hj|[Hj Hx]]; [by apply Hids|].
      apply list_lookup_singleton_Some in Hx as [Hj0 <-].
      assert (j = k) as -> by lia. eauto.
    + intros j Hj. destruct (decide (j = S k)) as [->|Hne].
      * exists (at_current_version mv'). rewrite take_ge by (rewrite length_app; simpl; lia).
        rewrite (serial_snoc _ _ _ _ _ Hp), Hm, bind_Ok, Ha. split; [done|].
        split; [lia|]. intros _. by replace (Z.of_nat (S k)) with (Z.of_nat k + 1) by lia.
      * rewrite take_app_le by lia. apply Hser. lia.
Qed.
End invariant.

(** ** Properties *)

Section properties.
Context (kind base : string) {UP : UriParser} {AV : Avro} {AL : AvroLaws}.
Context (serve : Call → gmap string string → Answer → gmap string string → Prop).
Context {SL : StoreLaws serve}.

(** What [Open] returns can begin to commit on the store it left. *)
Theorem open_gives_snapshot {S} {FS : FileSystem S} {FL : FsLaws S} (base_path : string)
    (version : Z) (res : Resolver) (limit : Z) (w w' : World S) (t : Transaction) :
  cache_ok w → Open base_path version res limit w = (w', Ok t) →
  ∃ m mv, read_manifest_ t = Some m ∧ manifest_view (w_heap w') m mv ∧
    snapshot (base_path_ t) (fs_files (w_fs w')) (read_version_ t) mv.
Proof.
  intros Hok Ho.
  destruct (open_reads_snapshot _ _ _ _ _ _ _ Hok Ho) as (_ & _ & _ & _ & _ & (m & mv & H1 & H2 & H3 & H4) & _).
  by exists m, mv.
Qed.

(** C10: the versions of a table are a log.  Let any number of transactions
    with built-in resolvers run [Commit] on one table of a store with
    conditional writes, interleaved at every call they make, where every call
    may fail and an upload may fail although the file came into being.  Then
    the files of the manifest directory are always exactly those of the
    versions 1 to n, without gaps; each was created by exactly one transaction
    and holds that transaction's updates applied to the manifest it had read;
    and a transaction whose [Commit] returned a version is the one that created
    it.  (A transaction whose [Commit] returned an error may have created a
    version too.) *)
Theorem versions_form_a_log (s : Sys) :
  reachable kind base serve s →
  (∃ n, 0 ≤ n ≤ INT64_MAX ∧ ∀ q, starts_with (get_manifest_path base) q = true →
     is_Some (files s !! q) ↔ ∃ v, 1 ≤ v ≤ n ∧ q = get_manifest_filepath base v) ∧
  (∀ v, 0 < v ≤ INT64_MAX → is_Some (files s !! get_manifest_filepath base v) →
     ∃ i p mv', creator s !! get_manifest_filepath base v = Some i ∧ procs s !! i = Some p ∧
       snapshot base (files s) (read_version_ (p_txn p)) (p_read p) ∧
       apply_spec (p_read p) (p_updates p) = Ok mv' ∧
       file_denotes (files s) (get_manifest_filepath base v) (at_current_version mv')) ∧
  (∀ i p v, procs s !! i = Some p → result kind p = Some (Ok v) →
     creator s !! get_manifest_filepath base v = Some i).
Proof.
  intros [n Hinv]%(inv_reachable kind base serve). pose proof Hinv as [Hn Hf Hc Hp]. split_and!.
  - by exists n.
  - intros v Hv Hx. apply Hf in Hx as (w & Hw & He); [|apply path_in_dir].
    apply path_inj in He as ->; [|lia..].
    destruct (Hc w Hw) as (i & Hi & p & mv' & Hpi & Ha & Hd & _).
    exists i, p, mv'. by destruct (Hp i p Hpi).
  - intros i p v Hi Hr. by eapply result_creator.
Qed.

(** what a version file holds never changes: no step of any transaction
    removes or rewrites the file of a version. *)
Theorem versions_immutable (s s' : Sys) (v : Z) (data : string) :
  reachable kind base serve s → rtc (step kind base serve) s s' →
  files s !! get_manifest_filepath base v = Some data →
  files s' !! get_manifest_filepath base v = Some data.
Proof.
  intros _ Hr. induction Hr as [|s1 s2 s3 Hs _ IH]; [done|]. intros Hv. apply IH.
  destruct Hs as [| f ps cr i p c a f' Hi Hn Hsv|f ps cr f' Heq]; simpl in *; [done| |].
  - destruct (decide (f' = f)) as [->|Hne]; [done|].
    destruct c as [| | | | |q d]; try (by destruct Hne; eapply serve_keeps).
    destruct (serve_close _ _ _ _ _ Hsv) as [?|[Hnone ->]]; [done|].
    rewrite lookup_insert_ne; [done|]. intros ->. congruence.
  - rewrite Heq; [done|]. apply path_in_dir.
Qed.

(** The calls a process is resumed with are the calls its [Commit] makes: in no
    reachable state has a run asked for another call than the one answered. *)
Theorem replay_never_diverges (s : Sys) (i : nat) (p : Proc) (w : World Script) (r : Result Z) :
  reachable kind base serve s → procs s !! i = Some p → run kind p = Some (w, r) →
  s_diverged (w_fs w) = false.
Proof.
  intros (f & _ & Hr) Hi. revert w r.
  enough (∀ i p, procs s !! i = Some p → builtin (resolver_ (p_txn p)) ∧ settled kind p) as H
    by by eapply H.
  clear i p Hi. remember (mkSys f ∅ ∅) as s0.
  assert (∀ i p, procs s0 !! i = Some p → builtin (resolver_ (p_txn p)) ∧ settled kind p) as H0
    by by subst.
  clear Heqs0. induction Hr as [|s1 s2 s3 Hs _ IH]; [done|]. apply IH.
  destruct Hs as [f0 ps cr j q Hj [_ Hbr _ _] _ Hnil|f0 ps cr j q c a f' Hj Hn _|]; [| |done];
    intros i p; cbn [procs] in *; (destruct (decide (j = i)) as [->|Hne];
      [rewrite lookup_insert_eq; intros [= <-]|rewrite lookup_insert_ne by done; apply H0]).
  - split; [done|by apply settled_new].
  - destruct (H0 i q Hj) as [Hbr _]. split; [done|by apply settled_answered].
Qed.

(** C1: strict transactions are serializable.  Let any number of transactions
    with the strict resolver run [Commit] on one table of a store with
    conditional writes, interleaved at every call they make, where every call
    may fail and an upload may fail although the file came into being.  Then
    there is always a sequence of distinct transactions, the creators of the
    versions 1, 2, ... of the store in this order, such that the updates of its
    first [k], executed one after the other from the empty manifest, succeed
    and give the manifest that the file of version [k] stands for, for every
    version [k] of the store; and a transaction whose [Commit] returned [v] is
    the [v]-th of the sequence: no update that was reported as committed is
    lost.  (A transaction of the sequence may have returned an error, or may be
    still at work.)  The transactions' updates are such that applying them
    changes no object in memory ([txn_ok]), and the resulting manifests fit
    their encoding ([fits]). *)
Theorem strict_transactions_serializable (s : Sys) :
  reachable kind base serve s →
  (∀ i p, procs s !! i = Some p → resolver_ (p_txn p) = FailResolver) →
  ∃ ids, NoDup ids ∧
    (∀ q, starts_with (get_manifest_path base) q = true → is_Some (files s !! q) ↔
       ∃ k, (1 ≤ k ≤ length ids)%nat ∧ q = get_manifest_filepath base (Z.of_nat k)) ∧
    (∀ j i, ids !! j = Some i →
       creator s !! get_manifest_filepath base (Z.of_nat j + 1) = Some i) ∧
    (∀ i p v, procs s !! i = Some p → result kind p = Some (Ok v) →
       ∃ j, v = Z.of_nat j + 1 ∧ ids !! j = Some i) ∧
    (∀ k, (k ≤ length ids)%nat → ∃ m, serial (procs s) (take k ids) empty_manifest = Ok m ∧
       snapshot base (files s) (Z.of_nat k) m).
Proof.
  intros [n Hinv]%(inv_reachable kind base serve) Hstrict. pose proof (inv_range _ _ _ Hinv) as Hn.
  destruct (creators_serial base n s (Z.to_nat n) Hinv Hstrict) as (ids & Hlen & Hids & Hser); [lia|].
  exists ids. rewrite Hlen. split_and!.
  - apply NoDup_alt. intros i j x Hi Hj. apply Hids in Hi as (_ & p & Hp & Hi).
    apply Hids in Hj as (_ & p' & Hp' & Hj). assert (p' = p) as -> by congruence. lia.
  - intros q Hq. rewrite (inv_files _ _ _ Hinv q Hq). split.
    + intros (v & Hv & ->). exists (Z.to_nat v). split; [lia|]. by rewrite Z2Nat.id by lia.
    + intros (k & Hk & ->). exists (Z.of_nat k). split; [lia|done].
  - intros j i Hj. by apply Hids.
  - intros i p v Hi Hr. destruct (result_creator _ _ _ _ _ _ _ Hinv Hi Hr) as [Hcr Hv].
    exists (Z.to_nat (v - 1)). split; [lia|].
    destruct (lookup_lt_is_Some_2 ids (Z.to_nat (v - 1))) as [x Hx]; [lia|].
    rewrite Hx. apply Hids in Hx as [Hx _]. rewrite Z2Nat.id in Hx by lia.
    replace (v - 1 + 1) with v in Hx by lia. congruence.
  - done.
Qed.
End properties.

(** ** A store in memory

    Every answer the laws allow can be given: [applied] says whether a
    completion of an upload that is answered with an error took effect. *)
Module MemStore.

Definition create (p d : string) (f : gmap string string) : option (gmap string string) :=
  match f !! p with Some _ => None | None => Some (<[p := d]> f) end.

Definition apply (c : Call) (a : Answer) (applied : bool) (f : gmap string string) :
    option (gmap string string) :=
  match c, a with
  | CGetFileInfo p, AFileInfo (inl NotFound) =>
      if decide (MemFs.list_dir p f = []) then Some f else None
  | CGetFileInfo _, AFileInfo _ => Some f
  | CGetFileInfoSelector d, ANames (inl names) =>
      if decide (names = MemFs.list_dir d f) then Some f else None
  | CGetFileInfoSelector _, ANames (inr _) => Some f
  | COpenConditional _, ADone (inr st) =>
      if decide (st_code st = NotImplemented) then None else Some f
  | CClose p d, ADone (inl _) => create p d f
  | CClose p d, ADone (inr _) => if applied then create p d f else Some f
  | COpenConditional _, ADone _ | CCreateDir _, ADone _ | CWrite _ _, ADone _ => Some f
  | _, _ => None
  end.

Definition serve (c : Call) (f : gmap string string) (a : Answer) (f' : gmap string string) :
    Prop := ∃ applied, apply c a applied f = Some f'.

Lemma create_Some p d f f' : create p d f = Some f' → f !! p = None ∧ f' = <[p := d]> f.
Proof. unfold create. destruct (f !! p); [done|]. by intros [= <-]. Qed.

#[export] Instance laws : StoreLaws serve.
Proof.
  split.
  - intros c f a f' [b Hb] Hc. unfold apply in Hb. destruct c; try (by edestruct Hc); revert Hb;
      repeat (case_match; simpl); congruence.
  - intros p d f a f' [b Hb]. simpl in Hb. destruct a as [r|r|[u|st]]; [done..| |].
    + right. by apply create_Some.
    + destruct b; [right; by apply create_Some|]. left. congruence.
  - intros p d f f' [b Hb]. by apply create_Some.
  - intros dir f names f' name [b Hb] Hin. simpl in Hb. destruct (decide _) as [->|]; [|done].
    left. by apply MemFs.elem_of_list_dir.
  - intros p f st f' [b Hb]. simpl in Hb. by destruct (decide _).
Defined.

(** Driving the system: process [i] makes its next call and gets an answer. *)
Definition drive1 (kind : string) {UP : UriParser} {AV : Avro} (i : nat) (a : Answer)
    (applied : bool) (s : Sys) : option Sys :=
  p ← procs s !! i; c ← next_call kind p; f' ← apply c a applied (files s);
  Some (mkSys f' (<[i := answered p c a]> (procs s)) (record_creator (files s) f' c i (creator s))).

Fixpoint drive (kind : string) {UP : UriParser} {AV : Avro} (l : list (nat * Answer * bool))
    (s : Sys) : option Sys :=
  match l with
  | [] => Some s
  | (i, a, b) :: rest => s' ← drive1 kind i a b s; drive kind rest s'
  end.

Lemma drive_steps kind base {UP : UriParser} {AV : Avro} {AL : AvroLaws} l : ∀ s s',
  drive kind l s = Some s' → rtc (step kind base serve) s s'.
Proof.
  induction l as [|[[i a] b] l IH]; intros s s' Hd; [by injection Hd as ->|].
  cbn [drive] in Hd. destruct (drive1 kind i a b s) as [s1|] eqn:H1; [|done].
  eapply rtc_l; [|by apply IH]. unfold drive1 in H1. destruct s as [f ps cr]. simpl in H1.
  destruct (ps !! i) as [p|] eqn:Hp; [|done]. simpl in H1.
  destruct (next_call kind p) as [c|] eqn:Hc; [|done]. simpl in H1.
  destruct (apply c a b f) as [f'|] eqn:Ha; [|done]. injection H1 as <-.
  eapply step_call; [done..|]. by exists b.
Qed.

Lemma drive_txns kind {UP : UriParser} {AV : Avro} (P : Transaction → Prop) l : ∀ s s',
  drive kind l s = Some s' → (∀ i p, procs s !! i = Some p → P (p_txn p)) →
  ∀ i p, procs s' !! i = Some p → P (p_txn p).
Proof.
  induction l as [|[[j a] b] l IH]; intros s s' Hd HP; [by injection Hd as <-|].
  cbn [drive] in Hd. destruct (drive1 kind j a b s) as [s1|] eqn:H1; [|done].
  eapply IH; [exact Hd|]. unfold drive1 in H1.
  destruct (procs s !! j) as [q|] eqn:Hq; [|done]. simpl in H1.
  destruct (next_call kind q) as [c|]; [|done]. simpl in H1.
  destruct (apply c a b (files s)); [|done]. injection H1 as <-. simpl. intros i p.
  destruct (decide (j = i)) as [->|Hne].
  - rewrite lookup_insert_eq. intros [= <-]. by apply (HP i q).
  - rewrite lookup_insert_ne by done. apply HP.
Qed.
End MemStore.

(** ** Witnesses *)

Module ConcSample.
#[local] Existing Instance MemStore.laws.
#[local] Existing Instance ToyAvro.avro.
#[local] Existing Instance ToyAvro.avro_laws.
#[local] Existing Instance ToyUri.parser.

(** A transaction that adds one delta log. *)
Definition proc (rv : Z) (m : Mf) (resolver : Resolver) (name : string) : Proc :=
  mkProc (txn_AddDeltaLog (mkDelta ("seg/_delta/" +:+ name) PRIMARY_KEY 1)
            (mkTxn rv (Some (with_groups m [])) "seg" no_updates resolver 1))
    [] getCache m (AddDeltaLog (mkDelta ("seg/_delta/" +:+ name) PRIMARY_KEY 1) no_updates) [].
Definition after (names : list string) : Mf :=
  mkManifest 6 [] ((λ n, mkDelta ("seg/_delta/" +:+ n) PRIMARY_KEY 1) <$> names) ∅ [] [].

Definition timeout_error : Status := status_IOError.
Definition ok : Answer := ADone (inl tt).
Definition info_none : Answer := AFileInfo (inl NotFound).
Definition info_dir : Answer := AFileInfo (inl Directory).
Definition conflict : Answer := ADone (inr MemFs.conflict).

(** Two transactions race for version 1.  The upload of the first one takes
    effect, but its answer is an error; the second one meets the conflict,
    lists again and gives up. *)
Definition s0 : Sys := mkSys ∅
  (<[1%nat := proc 0 empty_manifest FailResolver "b"]>
    (<[0%nat := proc 0 empty_manifest FailResolver "a"]> ∅)) ∅.
Definition race : list (nat * Answer * bool) :=
  [(0%nat, info_none, false); (1%nat, info_none, false); (1%nat, ok, false); (0%nat, ok, false);
   (0%nat, ok, false); (1%nat, ok, false); (0%nat, ADone (inr timeout_error), true);
   (1%nat, conflict, false); (1%nat, info_dir, false);
   (1%nat, ANames (inl ["manifest-1.avro"]), false)].
Definition s1 : Sys := default s0 (MemStore.drive "s3" race s0).

(** A third transaction, opened at version 1, commits version 2. *)
Definition s2 : Sys :=
  mkSys (files s1) (<[2%nat := proc 1 (after ["a"]) FailResolver "c"]> (procs s1)) (creator s1).
Definition third : list (nat * Answer * bool) :=
  [(2%nat, info_dir, false); (2%nat, ANames (inl ["manifest-1.avro"]), false); (2%nat, ok, false);
   (2%nat, ok, false); (2%nat, ok, false)].
Definition s3 : Sys := default s2 (MemStore.drive "s3" third s2).

Lemma driven l s s' : bool_decide (is_Some (MemStore.drive "s3" l s)) = true →
  s' = default s (MemStore.drive "s3" l s) → MemStore.drive "s3" l s = Some s'.
Proof. by intros [x ->]%bool_decide_eq_true ->. Defined.
Lemma race_run : MemStore.drive "s3" race s0 = Some s1.
Proof. apply driven; [vm_compute|]; reflexivity. Defined.
Lemma third_run : MemStore.drive "s3" third s2 = Some s3.
Proof. apply driven; [vm_compute|]; reflexivity. Defined.

Lemma race_results :
  (p ← procs s3 !! 0%nat; result "s3" p) = Some (Err status_IOError) ∧
  (p ← procs s3 !! 1%nat; result "s3" p) = Some (Err (MakeExtendError TxnResolutionFailed)) ∧
  (p ← procs s3 !! 2%nat; result "s3" p) = Some (Ok 2).
Proof. vm_compute. auto. Defined.

Lemma proc_wf rv names resolver name : builtin resolver →
  Forall (λ n, stored_path_ok "seg" kDeltaPath ("seg/_delta/" +:+ n)) (names ++ [name]) →
  well_formed "seg" (proc rv (after names) resolver name).
Proof.
  intros Hb Hn. split; [reflexivity|exact Hb| |].
  - exists (with_groups (after names) []). split; [reflexivity|].
    split; [exists []; split; [constructor|reflexivity]|].
    split; [repeat split; repeat constructor|]. split; [|right; vm_compute; lia]. split.
    + apply (bool_decide_unpack _); vm_compute; exact I.
    + intros p Hp. apply elem_of_nil in Hp. destruct Hp.
  - intros mv' [= <-]. split.
    + repeat split; try (intros ? ? _; exact I); repeat constructor.
      apply Forall_app. split; [|by repeat constructor]. apply Forall_fmap, Forall_true. intros n.
      by repeat constructor.
    + change (Layout.base_dir "seg") with "seg".
      split_and!; [apply Forall_nil_2| |exact (map_Forall_empty _)|apply Forall_nil_2|apply Forall_nil_2].
      apply Forall_app in Hn as [H1 H2]. apply Forall_app. split; [by apply Forall_fmap|].
      apply Forall_singleton. exact (Forall_inv H2).
Defined.

Lemma delta_stored (n : string) : Path.is_absolute n = false →
  bool_decide (Path.comps n ≠ []) = true →
  bool_decide (Forall Path.plain_name (Path.comps n)) = true →
  bool_decide (n = join_with kSep (Path.comps n)) = true → has_scheme n = false →
  stored_path_ok "seg" kDeltaPath ("seg/_delta/" +:+ n).
Proof. intros. by apply (IoSample.stored _ _ n). Defined.

Lemma after_denotes : file_denotes (files s1) (get_manifest_filepath "seg" 1) (after ["a"]).
Proof.
  destruct (files s1 !! get_manifest_filepath "seg" 1) as [data|] eqn:Hd; [|by vm_compute in Hd].
  assert (∃ rel, deserialize data = Ok rel ∧ after ["a"] =
    map_paths (λ p dir, ToAbsolute p (base_path_for_manifest (get_manifest_filepath "seg" 1)) dir) rel)
    as (rel & H1 & H2); [|exists data, rel; split_and!; [exact Hd|exact H1|exact H2]].
  vm_compute in Hd. injection Hd as <-. eexists. split; vm_compute; reflexivity.
Defined.

Lemma reachable_s1 : reachable "s3" "seg" MemStore.serve s1.
Proof.
  exists ∅. split; [done|].
  eapply rtc_l. { apply (step_begin _ _ _ _ _ _ 0%nat (proc 0 (after []) FailResolver "a"));
    [done| |by split|done].
    apply proc_wf; [by left|]. apply Forall_singleton. by apply delta_stored. }
  eapply rtc_l. { apply (step_begin _ _ _ _ _ _ 1%nat (proc 0 (after []) FailResolver "b"));
    [done| |by split|done].
    apply proc_wf; [by left|]. apply Forall_singleton. by apply delta_stored. }
  exact (MemStore.drive_steps _ _ _ _ _ race_run).
Defined.

Lemma third_steps : rtc (step "s3" "seg" MemStore.serve) s1 s3.
Proof.
  eapply rtc_l; [|exact (MemStore.drive_steps _ _ _ _ _ third_run)].
  unfold s2. rewrite <- (sys_eta s1) at 1. apply step_begin.
  - vm_compute. reflexivity.
  - apply proc_wf; [by left|]. repeat apply Forall_cons_2; [by apply delta_stored..|apply Forall_nil_2].
  - split; [done|]. intros _. apply after_denotes.
  - reflexivity.
Defined.

Lemma reachable_s3 : reachable "s3" "seg" MemStore.serve s3.
Proof. exact (reachable_steps _ _ _ _ _ reachable_s1 third_steps). Defined.

Definition txn2 : Proc := default (proc 0 (after []) FailResolver "") (procs s3 !! 2%nat).

Lemma txn2_at : procs s3 !! 2%nat = Some txn2.
Proof. vm_cast_no_check (eq_refl (procs s3 !! 2%nat)). Defined.

Lemma txn2_result : result "s3" txn2 = Some (Ok 2).
Proof. vm_compute. reflexivity. Defined.

Lemma all_strict i p : procs s3 !! i = Some p → resolver_ (p_txn p) = FailResolver.
Proof.
  revert i p. apply (MemStore.drive_txns _ (λ t, resolver_ t = FailResolver) _ _ _ third_run).
  unfold s2. intros i p. cbn [procs]. destruct (decide (2%nat = i)) as [<-|Hne].
  { rewrite lookup_insert_eq. by intros [= <-]. }
  rewrite lookup_insert_ne by done.
  apply (MemStore.drive_txns _ (λ t, resolver_ t = FailResolver) _ _ _ race_run).
  unfold s0. cbn [procs]. clear. intros i p.
  rewrite !lookup_insert_Some, lookup_empty. naive_solver.
Defined.

(** The history of the three transactions: version 1 is the first one's, which
    returned an error, and version 2 the third one's. *)
Lemma strict_transactions_serializable_witness :
  ∃ ids, length ids = 2%nat ∧ ids !! 1%nat = Some 2%nat ∧
    serial (procs s3) ids empty_manifest = Ok (after ["a"; "c"]).
Proof.
  destruct (strict_transactions_serializable "s3" "seg" MemStore.serve s3 reachable_s3 all_strict)
    as (ids & _ & Hf & Hc & Hr & Hs).
  destruct (Hr 2%nat txn2 2 txn2_at txn2_result) as (j & Hj & Hi).
  assert (j = 1%nat) as -> by lia.
  assert (length ids = 2%nat) as Hlen.
  { pose proof (lookup_lt_Some _ _ _ Hi) as Hlt.
    destruct (decide (length ids = 2%nat)) as [|Hne]; [done|].
    assert (is_Some (files s3 !! get_manifest_filepath "seg" 3)) as [x Hx].
    { apply Hf; [vm_compute; reflexivity|]. exists 3%nat. split; [lia|reflexivity]. }
    by vm_compute in Hx. }
  exists ids. split; [exact Hlen|]. split; [exact Hi|].
  destruct ids as [|i0 [|i1 [|]]]; try (simpl in Hlen; lia). injection Hi as ->.
  pose proof (Hc 0%nat i0 eq_refl) as H0. vm_compute in H0. injection H0 as <-.
  vm_compute. reflexivity.
Defined.

Lemma versions_form_a_log_witness :
  reachable "s3" "seg" MemStore.serve s3 ∧
  creator s3 !! get_manifest_filepath "seg" 2 = Some 2%nat ∧
  ∃ i p mv', creator s3 !! get_manifest_filepath "seg" 1 = Some i ∧ procs s3 !! i = Some p ∧
    apply_spec (p_read p) (p_updates p) = Ok mv'.
Proof.
  destruct (versions_form_a_log "s3" "seg" MemStore.serve s3 reachable_s3) as (_ & H1 & H2).
  split; [exact reachable_s3|]. split; [exact (H2 2%nat txn2 2 txn2_at txn2_result)|].
  destruct (H1 1) as (i & p & mv' & Hi & Hp & _ & Ha & _).
  - split; [reflexivity|discriminate].
  - apply (bool_decide_unpack _). vm_compute. exact I.
  - exists i, p, mv'. auto.
Defined.

(** With the overwriting resolver a transaction opened on the empty table
    commits version 3 without the updates of versions 1 and 2. *)
Definition s4 : Sys :=
  mkSys (files s3) (<[3%nat := proc 0 (after []) OverwriteResolver "d"]> (procs s3)) (creator s3).
Definition overwriting : list (nat * Answer * bool) :=
  [(3%nat, info_dir, false); (3%nat, ANames (inl ["manifest-1.avro"; "manifest-2.avro"]), false);
   (3%nat, ok, false); (3%nat, ok, false); (3%nat, ok, false)].

Lemma overwriting_run :
  (s ← MemStore.drive "s3" overwriting s4; p ← procs s !! 3%nat; result "s3" p) = Some (Ok 3) ∧
  (s ← MemStore.drive "s3" overwriting s4;
   data ← files s !! get_manifest_filepath "seg" 3;
   match deserialize data with Ok m => Some (length (delta_logs_ m)) | _ => None end) = Some 1%nat.
Proof. split; vm_compute; reflexivity. Defined.

Lemma versions_immutable_witness :
  ∃ data, files s1 !! get_manifest_filepath "seg" 1 = Some data ∧
    files s3 !! get_manifest_filepath "seg" 1 = Some data.
Proof.
  assert (is_Some (files s1 !! get_manifest_filepath "seg" 1)) as [data Hd].
  { apply (bool_decide_unpack _). vm_compute. exact I. }
  exists data. split; [exact Hd|].
  exact (versions_immutable _ _ _ _ _ _ _ reachable_s1 third_steps Hd).
Defined.
End ConcSample.
