(* ===== verification/ArrowData.v ===== *)
(** * Arrow data: memory sizes and record batches

    The memory accounting of [common/arrow_util.cpp], and the interface of
    [arrow::RecordBatch] that the writers call.  Arrow itself is a parameter:
    [RecordBatches] holds the operations, [BatchLaws] their documented effect
    on the rows of a batch. *)

From S2P Require Import Prelude Status.

(** ** Memory of array data *)

(** What the accounting reads of [arrow::Buffer]: [data()] (null or an
    address) and [size()]. *)
Record Buffer := mkBuffer {
  buf_data : option Z;
  buf_size : Z;
}.

(** [arrow::ArrayData]: shared pointers to buffers and children, any of them
    possibly null. *)
Inductive ArrayData :=
  | mkArrayData (buffers : list (option Buffer)) (child_data : list (option ArrayData)).

Section memory.

(** The loop over the buffers: a buffer counts when its address is new. *)
Definition add_buffer (acc : Z * gset Z) (buffer : option Buffer) : Z * gset Z :=
  let '(size, seen) := acc in
  match buffer with
  | Some b =>
      match buf_data b with
      | Some addr =>
          if decide (addr ∈ seen) then (size, seen)
          else (wrap_u64 (size + buf_size b), {[addr]} ∪ seen)
      | None => (size, seen)
      end
  | None => (size, seen)
  end.

Fixpoint CalculateArrayDataMemorySize (array_data : ArrayData) (seen : gset Z) : Z * gset Z :=
  match array_data with
  | mkArrayData buffers child_data =>
      (fix children (l : list (option ArrayData)) (acc : Z * gset Z) : Z * gset Z :=
         match l with
         | [] => acc
         | child :: l' =>
             let '(s, seen') :=
               match child with
               | Some d => CalculateArrayDataMemorySize d acc.2
               | None => (0, acc.2)
               end in
             children l' (wrap_u64 (acc.1 + s), seen')
         end) child_data (foldl add_buffer (0, seen) buffers)
  end.

(** An array is its data; the pointer to it may be null. *)
Definition CalculateArrayMemorySize (array : option ArrayData) (seen : gset Z) : Z * gset Z :=
  match array with
  | Some d => CalculateArrayDataMemorySize d seen
  | None => (0, seen)
  end.

Definition GetArrowArrayMemorySize (array : option ArrayData) : Z :=
  (CalculateArrayMemorySize array ∅).1.

(** The loop over the arrays of a batch or a table: one set of seen buffers. *)
Definition add_array (acc : Z * gset Z) (array : option ArrayData) : Z * gset Z :=
  let '(s, seen) := CalculateArrayMemorySize array acc.2 in (wrap_u64 (acc.1 + s), seen).

Definition columns_memory_size (cols : list (option ArrayData)) : Z :=
  (foldl add_array (0, ∅) cols).1.

(** A table is its chunked columns. *)
Definition GetTableMemorySize (columns : list (list (option ArrayData))) : Z :=
  columns_memory_size (mjoin columns).
End memory.

(** ** Record batches *)

Class RecordBatches := {
  RecordBatch : Type;
  num_rows : RecordBatch → Z;
  batch_columns : RecordBatch → list (option ArrayData);   (* column(i)->data() *)
  batch_Slice : RecordBatch → Z → Z → RecordBatch;
  SelectColumns : RecordBatch → list Z → outcome Status RecordBatch;
}.

Definition num_columns `{RecordBatches} (b : RecordBatch) : Z :=
  Z.of_nat (length (batch_columns b)).

Definition GetRecordBatchMemorySize `{RecordBatches} (b : RecordBatch) : Z :=
  columns_memory_size (batch_columns b).

(** The rows of a batch, and what the operations do to them. *)
Class BatchLaws `{RecordBatches} := {
  row : Type;
  project : list Z → row → row;
  rows : RecordBatch → list row;
  rows_num b : num_rows b = Z.of_nat (length (rows b));
  slice_rows b o l : 0 ≤ o → 0 ≤ l → o + l ≤ num_rows b →
    rows (batch_Slice b o l) = take (Z.to_nat l) (drop (Z.to_nat o) (rows b));
  select_ok b idx : Forall (λ i, 0 ≤ i < num_columns b) idx →
    ∃ b', SelectColumns b idx = Ok b';
  select_rows b idx b' : SelectColumns b idx = Ok b' → rows b' = project idx <$> rows b;
}.

Lemma slice_num_rows `{BatchLaws} b o l :
  0 ≤ o → 0 ≤ l → o + l ≤ num_rows b → num_rows (batch_Slice b o l) = l.
Proof.
  intros Ho Hl Hs. rewrite rows_num, slice_rows by done. rewrite rows_num in Hs.
  rewrite length_take, length_drop. lia.
Qed.

(** ** Each buffer is counted once *)

Section counting.

(** The buffers an accounting visits, in order: address and size. *)
Definition buffer_entry (b : option Buffer) : list (Z * Z) :=
  match b with
  | Some b => match buf_data b with Some a => [(a, buf_size b)] | None => [] end
  | None => []
  end.

Fixpoint buffers_of (d : ArrayData) : list (Z * Z) :=
  match d with
  | mkArrayData bs cs =>
      mjoin (buffer_entry <$> bs) ++
      (fix children (l : list (option ArrayData)) : list (Z * Z) :=
         match l with
         | [] => []
         | c :: l' => match c with Some d => buffers_of d | None => [] end ++ children l'
         end) cs
  end.

Definition array_buffers (a : option ArrayData) : list (Z * Z) :=
  match a with Some d => buffers_of d | None => [] end.

(** The first occurrences of addresses that are not in [seen]. *)
Fixpoint fresh_buffers (seen : gset Z) (l : list (Z * Z)) : list (Z * Z) :=
  match l with
  | [] => []
  | (a, s) :: l' =>
      if decide (a ∈ seen) then fresh_buffers seen l'
      else (a, s) :: fresh_buffers ({[a]} ∪ seen) l'
  end.

Definition seen_after (seen : gset Z) (l : list (Z * Z)) : gset Z := list_to_set l.*1 ∪ seen.

(** Total size and set of seen buffers after visiting [l]. *)
Definition count_buffers (seen : gset Z) (l : list (Z * Z)) : Z * gset Z :=
  (wrap_u64 (sum_Z (fresh_buffers seen l).*2), seen_after seen l).

Lemma fresh_app seen l1 l2 :
  fresh_buffers seen (l1 ++ l2) = fresh_buffers seen l1 ++ fresh_buffers (seen_after seen l1) l2.
Proof.
  revert seen; induction l1 as [|[a s] l1 IH]; intros seen; simpl.
  - unfold seen_after; simpl. by rewrite (left_id_L ∅ (∪)).
  - destruct (decide (a ∈ seen)) as [Hin|Hin]; rewrite IH; simpl.
    + replace (seen_after seen ((a, s) :: l1)) with (seen_after seen l1); [done|].
      unfold seen_after; simpl. set_solver.
    + replace (seen_after seen ((a, s) :: l1)) with (seen_after ({[a]} ∪ seen) l1); [done|].
      unfold seen_after; simpl. set_solver.
Qed.

Lemma seen_after_app seen l1 l2 :
  seen_after seen (l1 ++ l2) = seen_after (seen_after seen l1) l2.
Proof. unfold seen_after. rewrite fmap_app, list_to_set_app_L. set_solver. Qed.

Lemma count_app seen l1 l2 :
  count_buffers seen (l1 ++ l2) =
  (wrap_u64 ((count_buffers seen l1).1 + (count_buffers (seen_after seen l1) l2).1),
   (count_buffers (seen_after seen l1) l2).2).
Proof.
  unfold count_buffers; simpl. rewrite fresh_app, seen_after_app, fmap_app, sum_Z_app.
  f_equal. unfold wrap_u64. by rewrite <- Zplus_mod.
Qed.

Lemma add_buffer_spec seen l b :
  add_buffer (count_buffers seen l) b = count_buffers seen (l ++ buffer_entry b).
Proof.
  destruct b as [[[a|] s]|]; simpl; rewrite ?app_nil_r; try done.
  rewrite count_app. unfold count_buffers; simpl. destruct (decide _) as [Hin|Hin]; simpl.
  - rewrite Z.add_0_r. unfold wrap_u64. rewrite Zmod_mod. f_equal.
    unfold seen_after in *; simpl. set_solver.
  - unfold wrap_u64. rewrite Z.add_0_r, <- Zplus_mod_idemp_r. f_equal.
    unfold seen_after; simpl. set_solver.
Qed.

#[local] Arguments count_buffers : simpl never.
#[local] Arguments add_buffer : simpl never.
#[local] Arguments add_array : simpl never.

Lemma fold_buffers_spec seen l bs :
  foldl add_buffer (count_buffers seen l) bs = count_buffers seen (l ++ mjoin (buffer_entry <$> bs)).
Proof.
  revert l; induction bs as [|b bs IH]; intros l; simpl.
  - by rewrite app_nil_r.
  - rewrite add_buffer_spec, IH. by rewrite <- app_assoc.
Qed.

Lemma seen_after_nil seen : seen_after seen [] = seen.
Proof. unfold seen_after; simpl. by rewrite (left_id_L ∅ (∪)). Qed.

Lemma count_nil seen : count_buffers seen [] = (0, seen).
Proof. unfold count_buffers. by rewrite seen_after_nil. Qed.

(** The accounting of one array counts the buffers it visits. *)
Lemma array_data_count d : ∀ seen,
  CalculateArrayDataMemorySize d seen = count_buffers seen (buffers_of d).
Proof.
  revert d. fix IH 1. intros [bs cs] seen. simpl.
  rewrite <- (count_nil seen), fold_buffers_spec, app_nil_l.
  generalize (mjoin (buffer_entry <$> bs)) as l. induction cs as [|c cs IHc]; intros l; simpl.
  - by rewrite app_nil_r.
  - rewrite app_assoc, <- IHc, count_app. destruct c as [d|]; simpl.
    + by rewrite IH.
    + by rewrite seen_after_nil.
Qed.

Lemma array_count a seen :
  CalculateArrayMemorySize a seen = count_buffers seen (array_buffers a).
Proof. destruct a; simpl; [apply array_data_count|by rewrite count_nil]. Qed.

Lemma columns_count cols l :
  foldl add_array (count_buffers ∅ l) cols
  = count_buffers ∅ (l ++ mjoin (array_buffers <$> cols)).
Proof.
  revert l; induction cols as [|c cols IH]; intros l; simpl.
  - by rewrite app_nil_r.
  - unfold add_array at 2. rewrite array_count, app_assoc, <- IH, count_app.
    by rewrite (surjective_pairing (count_buffers (count_buffers ∅ l).2 _)).
Qed.

Lemma fresh_NoDup seen l :
  NoDup (fresh_buffers seen l).*1 ∧ ∀ a, a ∈ (fresh_buffers seen l).*1 → a ∉ seen.
Proof.
  revert seen; induction l as [|[a s] l IH]; intros seen; simpl.
  - split; [constructor|set_solver].
  - destruct (decide (a ∈ seen)) as [|Hin]; [apply IH|]. destruct (IH ({[a]} ∪ seen)) as [Hnd Hfr].
    simpl. split; [constructor; [|done]|]; set_solver.
Qed.

Lemma fresh_elem seen l a :
  a ∈ l.*1 → a ∉ seen → a ∈ (fresh_buffers seen l).*1.
Proof.
  revert seen; induction l as [|[a' s] l IH]; intros seen; simpl; [set_solver|].
  intros Ha Hs. destruct (decide (a' ∈ seen)); [apply IH; set_solver|]. simpl.
  destruct (decide (a = a')); [set_solver|]. right. apply IH; set_solver.
Qed.

Lemma fresh_sub seen l : fresh_buffers seen l ⊆ l.
Proof.
  revert seen; induction l as [|[a s] l IH]; intros seen; simpl; [done|].
  destruct (decide _); set_solver.
Qed.

Lemma columns_memory_range cols : 0 ≤ columns_memory_size cols < UINT64_MOD.
Proof.
  unfold columns_memory_size. rewrite <- (count_nil ∅), columns_count. apply wrap_u64_range.
Qed.
End counting.

(** The memory of a batch is the total size of the distinct buffers its
    columns reach, children included, modulo 2^64: a buffer that several
    columns share is counted once and none is missed. *)
Theorem memory_counts_buffers_once cols :
  ∃ distinct : list (Z * Z),
    columns_memory_size cols = wrap_u64 (sum_Z distinct.*2) ∧
    NoDup distinct.*1 ∧ distinct ⊆ mjoin (array_buffers <$> cols) ∧
    (∀ a, a ∈ (mjoin (array_buffers <$> cols)).*1 → a ∈ distinct.*1).
Proof.
  exists (fresh_buffers ∅ (mjoin (array_buffers <$> cols))). split_and!.
  - unfold columns_memory_size. rewrite <- (count_nil ∅), columns_count. done.
  - apply fresh_NoDup.
  - apply fresh_sub.
  - intros a Ha. apply fresh_elem; [done|set_solver].
Qed.

(** ** Batches of rows, and an example *)

(** A concrete batch: rows of cells, one 8-byte buffer per cell and column
    whose size a slice keeps. *)
Module RowBatch.
Record t := mkBatch {
  cells : list (list Z);
  width : nat;
  bytes : Z;          (* of each column *)
  base : Z;           (* address of the first column *)
}.

Definition column_data (b : t) (i : nat) : option ArrayData :=
  Some (mkArrayData [None; Some (mkBuffer (Some (base b + Z.of_nat i)) (bytes b))] []).

Definition pick (idx : list Z) (r : list Z) : list Z :=
  omap (λ i, if i <? 0 then None else r !! Z.to_nat i) idx.

#[export] Instance row_batches : RecordBatches := {
  RecordBatch := t;
  num_rows b := Z.of_nat (length (cells b));
  batch_columns b := column_data b <$> seq 0 (width b);
  batch_Slice b o l :=
    mkBatch (take (Z.to_nat l) (drop (Z.to_nat o) (cells b))) (width b) (bytes b) (base b);
  SelectColumns b idx :=
    if forallb (λ i, (0 <=? i) && (i <? Z.of_nat (width b))) idx
    then Ok (mkBatch (pick idx <$> cells b) (length idx) (bytes b)
               (base b + default 0 (head idx)))
    else Err status_Invalid;
}.

#[export] Instance row_batch_laws : BatchLaws.
Proof.
  refine {| row := list Z; project := pick; rows := (cells : RecordBatch → list (list Z)) |}.
  - done.
  - done.
  - intros b idx Hidx. simpl. unfold num_columns in Hidx. simpl in Hidx.
    rewrite length_fmap, length_seq in Hidx.
    assert (forallb (λ i, (0 <=? i) && (i <? Z.of_nat (width b))) idx = true) as ->; [|eauto].
    apply forallb_forall. intros i Hi%list_elem_of_In.
    rewrite Forall_forall in Hidx. specialize (Hidx i Hi). lia.
  - intros b idx b'. simpl. destruct (forallb _ _); intros; by simplify_eq.
Defined.

(** Two columns that share a buffer are counted once. *)
Example shared_buffer :
  columns_memory_size [Some (mkArrayData [Some (mkBuffer (Some 7) 64)] []);
                       Some (mkArrayData [None; Some (mkBuffer (Some 7) 64)]
                               [Some (mkArrayData [Some (mkBuffer (Some 8) 10)] []); None]);
                       None] = 74.
Proof. reflexivity. Qed.
End RowBatch.
