(* ===== verification/Double.v ===== *)
(** * Double precision numbers

    The conversions and operations on non-negative [double]s that the parquet
    writer uses to estimate row sizes: integers to [double], division,
    multiplication, and truncation to a 64-bit integer.  A finite [double] is
    the rational it denotes and every operation rounds the exact result to the
    nearest rational with a 53-bit significand, ties to even, as IEEE 754
    prescribes for results in the normal range; operands here are integers
    below 2^64 and quotients and products of two of them, far inside that
    range. *)

From S2P Require Import Prelude.
From Stdlib Require Import QArith Qround Lqa.
#[local] Open Scope Z_scope.

(** ** Rounding *)

(** The integer nearest to [a / b], ties to even, for [b > 0]. *)
Definition round_half_even (a b : Z) : Z :=
  let q := a / b in
  let r := a mod b in
  if 2 * r <? b then q
  else if b <? 2 * r then q + 1
  else if Z.even q then q else q + 1.

Definition pow2 (e : Z) : Q :=
  if 0 <=? e then inject_Z (2 ^ e) else 1 # Z.to_pos (2 ^ (- e)).

(** [n / d / 2^e] as a fraction. *)
Definition scale_down (n d e : Z) : Z * Z :=
  if 0 <=? e then (n, d * 2 ^ e) else (n * 2 ^ (- e), d).

(** The exponent that makes the significand of [n / d] a 53-bit integer. *)
Definition exponent (n d : Z) : Z :=
  let e0 := Z.log2 n - Z.log2 d - 53 in
  let '(a, b) := scale_down n d e0 in
  if 2 ^ 53 * b <=? a then e0 + 1 else e0.

(** Round to nearest, ties to even. *)
Definition rnd (x : Q) : Q :=
  if Qnum x <=? 0 then 0%Q
  else
    let n := Qnum x in
    let d := Zpos (Qden x) in
    let e := exponent n d in
    let '(a, b) := scale_down n d e in
    Qred (inject_Z (round_half_even a b) * pow2 e).

(** ** Doubles *)

Inductive f64 :=
  | Fin (x : Q)
  | NotFinite.         (* an infinity or NaN *)

Definition f64_of_int (z : Z) : f64 := Fin (rnd (inject_Z z)).

Definition f64_div (x y : f64) : f64 :=
  match x, y with
  | Fin a, Fin b => if Qeq_bool b 0 then NotFinite else Fin (rnd (a / b))
  | _, _ => NotFinite
  end.

Definition f64_mul (x y : f64) : f64 :=
  match x, y with
  | Fin a, Fin b => Fin (rnd (a * b))
  | _, _ => NotFinite
  end.

(** [static_cast] to an integer type: truncation, undefined (none) unless the
    truncated value fits. *)
Definition f64_trunc (bound : Z) (x : f64) : option Z :=
  match x with
  | Fin a => if Qfloor a <? bound then Some (Qfloor a) else None
  | NotFinite => None
  end.

Definition f64_to_int64 : f64 → option Z := f64_trunc (2 ^ 63).
Definition f64_to_uint64 : f64 → option Z := f64_trunc (2 ^ 64).

(** ** Accuracy of rounding *)

Lemma round_half_even_spec a b :
  0 < b → 2 * a - b ≤ 2 * b * round_half_even a b ≤ 2 * a + b.
Proof.
  intros Hb. unfold round_half_even. pose proof (Z.div_mod a b ltac:(lia)).
  pose proof (Z.mod_pos_bound a b Hb). remember (a / b) as q. remember (a mod b) as r.
  destruct (Z.ltb_spec (2 * r) b); [nia|]. destruct (Z.ltb_spec b (2 * r)); [nia|].
  destruct (Z.even q); nia.
Qed.

Lemma pow2_pos e : (0 < pow2 e)%Q.
Proof.
  unfold pow2. destruct (Z.leb_spec 0 e); [|done].
  change 0%Q with (inject_Z 0). rewrite <- Zlt_Qlt. by apply Z.pow_pos_nonneg.
Qed.

Lemma scale_down_pos n d e : 0 < n → 0 < d → 0 < (scale_down n d e).1 ∧ 0 < (scale_down n d e).2.
Proof.
  intros. unfold scale_down. destruct (Z.leb_spec 0 e); simpl; split; try done;
    apply Z.mul_pos_pos; try done; apply Z.pow_pos_nonneg; lia.
Qed.

(** [a / b = n / d / 2^e], multiplied out. *)
Lemma scale_down_spec n d e :
  0 < d → (inject_Z n * inject_Z (scale_down n d e).2
           == inject_Z (scale_down n d e).1 * inject_Z d * pow2 e)%Q.
Proof.
  intros Hd. unfold scale_down, pow2. destruct (Z.leb_spec 0 e); simpl.
  - rewrite inject_Z_mult. ring.
  - assert (0 < 2 ^ (- e)) by (apply Z.pow_pos_nonneg; lia).
    unfold Qeq; simpl. rewrite !Pos.mul_1_l, Z2Pos.id by done. ring.
Qed.

(** The significand has at least 53 bits. *)
Lemma exponent_large n d :
  0 < n → 0 < d → 2 ^ 52 * (scale_down n d (exponent n d)).2 ≤ (scale_down n d (exponent n d)).1.
Proof.
  intros Hn Hd. unfold exponent.
  destruct (Z.log2_spec n Hn) as [Hn1 _]. destruct (Z.log2_spec d Hd) as [_ Hd2].
  pose proof (Z.log2_nonneg n). pose proof (Z.log2_nonneg d).
  set (e0 := Z.log2 n - Z.log2 d - 53).
  assert (2 ^ 52 * (scale_down n d e0).2 ≤ (scale_down n d e0).1) as Hbase.
  { unfold scale_down. destruct (Z.leb_spec 0 e0); simpl.
    - assert (2 ^ 52 * (d * 2 ^ e0) ≤ 2 ^ Z.log2 n); [|lia].
      replace (Z.log2 n) with (52 + (Z.succ (Z.log2 d) + e0)) by lia.
      rewrite !Z.pow_add_r by lia. nia.
    - assert (2 ^ 52 * d ≤ 2 ^ Z.log2 n * 2 ^ (- e0)); [|nia].
      rewrite <- Z.pow_add_r by lia.
      replace (Z.log2 n + - e0) with (52 + Z.succ (Z.log2 d)) by lia.
      rewrite Z.pow_add_r by lia. nia. }
  destruct (scale_down n d e0) as [a b] eqn:Hs. simpl in Hbase.
  destruct (Z.leb_spec (2 ^ 53 * b) a) as [Hge|]; [|by rewrite Hs].
  (* one more halving of a significand of 54 bits *)
  unfold scale_down in Hs |- *.
  destruct (Z.leb_spec 0 e0), (Z.leb_spec 0 (e0 + 1)); simplify_eq; simpl.
  - rewrite Z.pow_add_r by lia. lia.
  - lia.
  - replace e0 with (-1) in * by lia. simpl. change (2 ^ 53) with (2 ^ 52 * 2) in Hge. nia.
  - replace (- e0) with (1 + - (e0 + 1)) in Hge by lia.
    rewrite Z.pow_add_r in Hge by lia. change (2 ^ 53) with (2 ^ 52 * 2) in Hge. nia.
Qed.

(** The relative error of rounding is at most 2^-53. *)
Definition ulp : Q := (1 # 9007199254740992).

Lemma significand_error (x a b m p : Q) :
  (0 < b → 0 < p → x * b == a * p → 4503599627370496 * b <= a →
   2 * a - b <= 2 * b * m → 2 * b * m <= 2 * a + b →
   x * (1 - ulp) <= m * p /\ m * p <= x * (1 + ulp))%Q.
Proof.
  intros Hb Hp Hx Hbig Hlo Hhi. unfold ulp.
  split; apply (Qmult_le_r _ _ (2 * b)); try lra.
  - assert (x * (1 - (1 # 9007199254740992)) * (2 * b)
            == (1 - (1 # 9007199254740992)) * 2 * a * p)%Q
      as -> by (rewrite <- (Qmult_assoc _ a p), <- Hx; ring).
    assert (m * p * (2 * b) == 2 * b * m * p)%Q as -> by ring.
    apply Qmult_le_compat_r; lra.
  - assert (x * (1 + (1 # 9007199254740992)) * (2 * b)
            == (1 + (1 # 9007199254740992)) * 2 * a * p)%Q
      as -> by (rewrite <- (Qmult_assoc _ a p), <- Hx; ring).
    assert (m * p * (2 * b) == 2 * b * m * p)%Q as -> by ring.
    apply Qmult_le_compat_r; lra.
Qed.

Lemma inject_Z_lt0 z : 0 < z → (0 < inject_Z z)%Q.
Proof. intros. change 0%Q with (inject_Z 0). by rewrite <- Zlt_Qlt. Qed.

Lemma rnd_error x :
  (0 < x → x * (1 - ulp) <= rnd x /\ rnd x <= x * (1 + ulp))%Q.
Proof.
  intros Hx. assert (0 < Qnum x) as Hn.
  { unfold Qlt in Hx. simpl in Hx. lia. }
  unfold rnd. destruct (Z.leb_spec (Qnum x) 0) as [|_]; [lia|].
  assert (x == inject_Z (Qnum x) / inject_Z (Zpos (Qden x)))%Q as Hxq.
  { destruct x as [xn xd]. apply Qmake_Qdiv. }
  set (n := Qnum x) in *. set (d := Zpos (Qden x)) in *. set (e := exponent n d).
  pose proof (exponent_large n d Hn ltac:(done)) as Hbig. fold e in Hbig.
  pose proof (scale_down_spec n d e ltac:(done)) as Hsc.
  destruct (scale_down_pos n d e Hn ltac:(done)) as [Ha Hb].
  destruct (scale_down n d e) as [a b]. simpl in *.
  pose proof (round_half_even_spec a b Hb) as [Hlo Hhi].
  pose proof (inject_Z_lt0 d ltac:(done)). pose proof (inject_Z_lt0 b Hb).
  rewrite Qred_correct. apply (significand_error x (inject_Z a) (inject_Z b)).
  - done.
  - apply pow2_pos.
  - rewrite Hxq. apply (Qmult_inj_r _ _ (inject_Z d)); [lra|].
    transitivity (inject_Z n * inject_Z b)%Q; [field; lra|]. rewrite Hsc. ring.
  - rewrite Zle_Qle, inject_Z_mult in Hbig. exact Hbig.
  - rewrite Zle_Qle in Hlo. unfold Z.sub in Hlo.
    rewrite inject_Z_plus, inject_Z_opp, !inject_Z_mult in Hlo. exact Hlo.
  - rewrite Zle_Qle in Hhi. rewrite inject_Z_plus, !inject_Z_mult in Hhi. exact Hhi.
Qed.

(** Rounding to the nearest integer does not cross an integer. *)
Lemma round_half_even_ge a b k : 0 < b → k * b ≤ a → k ≤ round_half_even a b.
Proof.
  intros Hb Hk. assert (k ≤ a / b) by (apply Z.div_le_lower_bound; lia).
  unfold round_half_even. repeat case_match; lia.
Qed.

Lemma round_half_even_le a b k : 0 < b → a ≤ k * b → round_half_even a b ≤ k.
Proof.
  intros Hb Hk. pose proof (Z.div_mod a b ltac:(lia)) as Hdm.
  pose proof (Z.mod_pos_bound a b Hb) as Hm. unfold round_half_even.
  assert (a / b ≤ k) by (apply Z.div_le_upper_bound; lia).
  destruct (decide (a / b = k)) as [Hek|]; [|repeat case_match; lia].
  assert (a mod b = 0) as -> by nia. destruct (Z.ltb_spec (2 * 0) b); lia.
Qed.

(** An integer of at most 53 bits times a power of two. *)
Lemma pow2_opp e : e ≤ 0 → (inject_Z (2 ^ (- e)) * pow2 e == 1)%Q.
Proof.
  intros He. unfold pow2. destruct (Z.leb_spec 0 e) as [H0|Hneg].
  - by replace e with 0 by lia.
  - assert (0 < 2 ^ (- e)) by (apply Z.pow_pos_nonneg; lia).
    unfold Qeq; simpl. rewrite ?Pos.mul_1_l, Z2Pos.id by done. ring.
Qed.

Lemma pow2_ge2 e : 0 < e → (2 <= pow2 e)%Q.
Proof.
  intros He. unfold pow2. destruct (Z.leb_spec 0 e); [|lia]. change 2%Q with (inject_Z 2).
  rewrite <- Zle_Qle. change 2 with (2 ^ 1) at 1. apply Z.pow_le_mono_r; lia.
Qed.

(** Nor does rounding cross an integer that is a double. *)
Lemma rnd_ge_int x k : 0 ≤ k ≤ 2 ^ 53 → (inject_Z k <= x)%Q → (inject_Z k <= rnd x)%Q.
Proof.
  intros [Hk0 Hk] Hx. unfold rnd. assert (k * Zpos (Qden x) ≤ Qnum x) as Hkn.
  { unfold Qle in Hx. simpl in Hx. lia. }
  destruct (Z.leb_spec (Qnum x) 0) as [|Hn].
  { assert (k = 0) as -> by nia. done. }
  set (n := Qnum x) in *. set (d := Zpos (Qden x)) in *.
  pose proof (exponent_large n d Hn ltac:(done)) as Hbig.
  destruct (scale_down_pos n d (exponent n d) Hn ltac:(done)) as [Ha Hb].
  pose proof (pow2_pos (exponent n d)) as Hp.
  set (e := exponent n d) in *. rewrite (surjective_pairing (scale_down n d e)).
  rewrite Qred_correct. destruct (Z.le_gt_cases e 0) as [He|He].
  - assert (k * 2 ^ (- e) ≤ round_half_even (scale_down n d e).1 (scale_down n d e).2) as Hr.
    { apply round_half_even_ge; [done|]. unfold scale_down.
      destruct (Z.leb_spec 0 e); simpl; [replace e with 0 by lia; simpl; lia|]. nia. }
    rewrite Zle_Qle, inject_Z_mult in Hr. pose proof (pow2_opp e He) as H1.
    set (p := pow2 e) in *.
    assert (inject_Z k == inject_Z k * inject_Z (2 ^ (- e)) * p)%Q as ->.
    { rewrite <- Qmult_assoc, H1. ring. }
    apply Qmult_le_compat_r; [done|lra].
  - assert (2 ^ 52 ≤ round_half_even (scale_down n d e).1 (scale_down n d e).2) as Hr
      by by apply round_half_even_ge.
    pose proof (pow2_ge2 e He) as Hp2. rewrite Zle_Qle in Hr, Hk. change (inject_Z (2 ^ 52)) with 4503599627370496%Q in Hr.
    change (inject_Z (2 ^ 53)) with 9007199254740992%Q in Hk. nra.
Qed.

Lemma rnd_le_int x k : (0 < x)%Q → k < 2 ^ 53 → (x <= inject_Z k)%Q → (rnd x <= inject_Z k)%Q.
Proof.
  intros Hx0 Hk Hx. assert (0 < Qnum x) as Hn by (unfold Qlt in Hx0; simpl in Hx0; lia).
  assert (Qnum x ≤ k * Zpos (Qden x)) as Hkn by (unfold Qle in Hx; simpl in Hx; lia).
  unfold rnd. destruct (Z.leb_spec (Qnum x) 0) as [|_]; [lia|].
  set (n := Qnum x) in *. set (d := Zpos (Qden x)) in *.
  pose proof (exponent_large n d Hn ltac:(done)) as Hbig.
  destruct (scale_down_pos n d (exponent n d) Hn ltac:(done)) as [Ha Hb].
  pose proof (pow2_pos (exponent n d)) as Hp.
  set (e := exponent n d) in *. destruct (Z.le_gt_cases e 0) as [He|He].
  - rewrite (surjective_pairing (scale_down n d e)), Qred_correct.
    assert (round_half_even (scale_down n d e).1 (scale_down n d e).2 ≤ k * 2 ^ (- e)) as Hr.
    { apply round_half_even_le; [done|]. unfold scale_down.
      destruct (Z.leb_spec 0 e); simpl; [replace e with 0 by lia; simpl; lia|].
      assert (0 < 2 ^ (- e)) by (apply Z.pow_pos_nonneg; lia). nia. }
    rewrite Zle_Qle, inject_Z_mult in Hr. pose proof (pow2_opp e He) as H1.
    set (p := pow2 e) in *.
    assert (inject_Z k == inject_Z k * inject_Z (2 ^ (- e)) * p)%Q as ->.
    { rewrite <- Qmult_assoc, H1. ring. }
    apply Qmult_le_compat_r; [done|lra].
  - exfalso. unfold scale_down in Hbig, Hb. destruct (Z.leb_spec 0 e); [simpl in *|lia].
    assert (2 ≤ 2 ^ e) as HE by (change 2 with (2 ^ 1) at 1; apply Z.pow_le_mono_r; lia).
    assert (0 < d) as Hd by done. change (2 ^ 53) with (2 ^ 52 * 2) in Hk.
    assert (0 < 2 ^ 52) as HK by lia. remember (2 ^ 52) as K. remember (2 ^ e) as E.
    clear - Hkn Hbig Hk HE Hd HK.
    assert (k * d < K * 2 * d) by nia. assert (2 * d ≤ d * E) by nia. nia.
Qed.

(** ** Row sizes

    The three expressions of [ParquetFileWriter::Flush]. *)

(** [static_cast<double>(batch_size) / total_rows]. *)
Definition avg_row_size (batch_size total_rows : Z) : f64 :=
  f64_div (f64_of_int batch_size) (f64_of_int total_rows).

(** [static_cast<int64_t>(remain_size / avg_row_size)]. *)
Definition rows_that_fit (remain_size : Z) (avg : f64) : option Z :=
  f64_to_int64 (f64_div (f64_of_int remain_size) avg).

(** [size_t slice_size = avg_row_size * slice_len]. *)
Definition slice_bytes (avg : f64) (slice_len : Z) : option Z :=
  f64_to_uint64 (f64_mul avg (f64_of_int slice_len)).

Lemma f64_trunc_spec bound x :
  (x < inject_Z bound → f64_trunc bound (Fin x) = Some (Qfloor x))%Q.
Proof.
  intros Hx. unfold f64_trunc. destruct (Z.ltb_spec (Qfloor x) bound) as [|Hge]; [done|].
  exfalso. pose proof (Qfloor_le x). rewrite Zle_Qle in Hge. lra.
Qed.

Lemma f64_div_fin a b : (0 < b)%Q → f64_div (Fin a) (Fin b) = Fin (rnd (a / b)).
Proof.
  intros Hb. unfold f64_div. destruct (Qeq_bool b 0) eqn:E; [|done].
  apply Qeq_bool_iff in E. lra.
Qed.

Lemma rnd_exact k : 0 < k < 2 ^ 53 → (rnd (inject_Z k) == inject_Z k)%Q.
Proof.
  intros [Hk Hk2]. apply Qle_antisym.
  - apply rnd_le_int; [by apply inject_Z_lt0|done|lra].
  - apply rnd_ge_int; [lia|lra].
Qed.

(** Sizes of at most [ROW_MAX] bytes per row. *)
Definition ROW_MAX : Z := 2 ^ 22.

Lemma floor_ge_int k x : (inject_Z k <= x)%Q → k ≤ Qfloor x.
Proof. intros Hk. rewrite <- (Qfloor_Z k). by apply Qfloor_resp_le. Qed.

Lemma floor_le_int k x : (x <= inject_Z k)%Q → Qfloor x ≤ k.
Proof. intros Hk. rewrite <- (Qfloor_Z k). by apply Qfloor_resp_le. Qed.

(** An average between one byte and [K] bytes per row. *)
Lemma avg_row_size_spec K bs tr :
  K ≤ ROW_MAX → 0 < tr ≤ 2 ^ 30 → tr ≤ bs ≤ K * tr →
  ∃ a, avg_row_size bs tr = Fin a ∧ (1 <= a)%Q ∧ (a <= inject_Z K)%Q.
Proof.
  intros HK [Ht Ht2] [Hb1 Hb2]. unfold ROW_MAX in *. unfold avg_row_size, f64_of_int.
  pose proof (rnd_exact tr ltac:(lia)) as Et. pose proof (rnd_exact bs ltac:(nia)) as Eb.
  apply inject_Z_lt0 in Ht as Htq. rewrite Zle_Qle in Hb1, Hb2. rewrite inject_Z_mult in Hb2.
  rewrite f64_div_fin by lra. eexists; split; [done|].
  assert (1 <= rnd (inject_Z bs) / rnd (inject_Z tr))%Q as H1
    by (rewrite Et, Eb; apply Qle_shift_div_l; lra).
  split.
  - change 1%Q with (inject_Z 1) in *. by apply rnd_ge_int.
  - apply rnd_le_int; [lra|lia|]. rewrite Et, Eb. apply Qle_shift_div_r; lra.
Qed.

(** The number of rows that fit is defined, and that many rows take at most
    the remaining size, up to rounding. *)
Lemma rows_that_fit_spec remain a :
  0 < remain ≤ 2 ^ 20 → (1 <= a)%Q →
  ∃ k, rows_that_fit remain (Fin a) = Some k ∧ 0 ≤ k ∧
       (inject_Z k * a <= inject_Z remain * (1 + ulp))%Q.
Proof.
  intros [Hr Hr2] Ha. pose proof (rnd_exact remain ltac:(lia)) as Er.
  apply inject_Z_lt0 in Hr as Hrq. unfold rows_that_fit, f64_of_int.
  set (r := rnd (inject_Z remain)) in *. rewrite f64_div_fin by lra.
  assert (r / a * a == r)%Q as Hra by (field; lra).
  assert (0 < r / a)%Q as Hq by (apply Qlt_shift_div_l; lra).
  destruct (rnd_error _ Hq) as [_ Q2].
  assert (rnd (r / a) <= inject_Z remain)%Q as Hle.
  { apply rnd_le_int; [done|lia|]. apply Qle_shift_div_r; nra. }
  pose proof (rnd_ge_int (r / a) 0 ltac:(lia) ltac:(by apply Qlt_le_weak)) as Hge.
  set (q := rnd (r / a)) in *. exists (Qfloor q). unfold f64_to_int64. rewrite f64_trunc_spec.
  - split_and!; [done|by apply floor_ge_int|]. pose proof (Qfloor_le q) as Hfl.
    apply (Qle_trans _ (r / a * (1 + ulp) * a)%Q).
    + apply Qmult_le_compat_r; lra.
    + assert (r / a * (1 + ulp) * a == r / a * a * (1 + ulp))%Q as -> by ring.
      rewrite Hra, Er. apply Qle_refl.
  - eapply Qle_lt_trans; [exact Hle|]. rewrite <- Zlt_Qlt. lia.
Qed.

(** The size of a slice is defined, between one and [K] bytes per row,
    and close to the product. *)
Lemma slice_bytes_spec K a len :
  K ≤ ROW_MAX → 0 < len ≤ 2 ^ 30 → (1 <= a)%Q → (a <= inject_Z K)%Q →
  ∃ k, slice_bytes (Fin a) len = Some k ∧ len ≤ k ≤ K * len ∧
       (inject_Z k <= inject_Z len * a * (1 + ulp))%Q.
Proof.
  intros HK [Hl Hl2] Ha Ha2. unfold ROW_MAX in HK. pose proof (rnd_exact len ltac:(lia)) as El.
  apply inject_Z_lt0 in Hl as Hlq. unfold slice_bytes, f64_of_int, f64_mul.
  set (l := rnd (inject_Z len)) in *.
  assert (0 < a * l)%Q as Hp by (apply Qmult_lt_0_compat; lra).
  destruct (rnd_error _ Hp) as [_ P2].
  assert (inject_Z len <= rnd (a * l))%Q as Hge by (apply rnd_ge_int; [lia|rewrite El; nra]).
  assert (rnd (a * l) <= inject_Z (K * len))%Q as Hle.
  { apply rnd_le_int; [done|nia|]. rewrite El, inject_Z_mult.
    apply Qmult_le_compat_r; lra. }
  set (p := rnd (a * l)) in *. exists (Qfloor p). unfold f64_to_uint64. rewrite f64_trunc_spec.
  - split_and!; [done|by apply floor_ge_int|by apply floor_le_int|].
    pose proof (Qfloor_le p). rewrite El in P2.
    assert (inject_Z len * a * (1 + ulp) == a * inject_Z len * (1 + ulp))%Q as -> by ring. lra.
  - eapply Qle_lt_trans; [exact Hle|]. rewrite <- Zlt_Qlt. nia.
Qed.

(** Rows that fit take at most the remaining size after all roundings. *)
Lemma fitting_slice_bytes remain k len (a : Q) bytes :
  0 < remain ≤ 2 ^ 20 → 0 < len ≤ k → (1 <= a)%Q →
  (inject_Z k * a <= inject_Z remain * (1 + ulp))%Q →
  (inject_Z bytes <= inject_Z len * a * (1 + ulp))%Q → bytes ≤ remain.
Proof.
  intros [Hr Hr2] [Hl Hlk] Ha Hk Hb. apply inject_Z_lt0 in Hr.
  rewrite Zle_Qle in Hr2, Hlk. change (inject_Z (2 ^ 20)) with 1048576%Q in Hr2.
  assert (inject_Z len * a <= inject_Z k * a)%Q by (apply Qmult_le_compat_r; lra).
  assert (inject_Z bytes < inject_Z remain + 1)%Q as Hlt by (unfold ulp in *; lra).
  change 1%Q with (inject_Z 1) in Hlt. rewrite <- inject_Z_plus, <- Zlt_Qlt in Hlt. lia.
Qed.

(** ** One step of the slicing loop *)

Definition avg_ok (K : Z) (avg : f64) : Prop :=
  ∃ a, avg = Fin a ∧ (1 <= a)%Q ∧ (a <= inject_Z K)%Q.

Lemma avg_row_size_ok K bs tr :
  K ≤ ROW_MAX → 0 < tr ≤ 2 ^ 30 → tr ≤ bs ≤ K * tr → avg_ok K (avg_row_size bs tr).
Proof.
  intros HK Ht Hb. destruct (avg_row_size_spec K bs tr HK Ht Hb) as (a & Ha).
  exists a. apply Ha.
Qed.

(** With [remain] bytes and [todo] rows left, the slice is non-empty, its size
    is defined, and it exceeds the remaining bytes only when it is one row. *)
Lemma slice_arith K avg remain todo :
  1 ≤ K ≤ ROW_MAX → avg_ok K avg → 0 < remain ≤ 2 ^ 20 → 0 < todo ≤ 2 ^ 30 →
  ∃ k bytes, rows_that_fit remain avg = Some k ∧
    let len := Z.min (if k <=? 0 then 1 else k) todo in
    slice_bytes avg len = Some bytes ∧ 0 < len ≤ todo ∧ len ≤ bytes ≤ K * len ∧
    (bytes ≤ remain ∨ bytes ≤ K).
Proof.
  intros HK (a & -> & Ha & HaK) Hr Ht.
  destruct (rows_that_fit_spec remain a Hr Ha) as (k & Hk & Hk0 & Hka).
  set (len := Z.min (if k <=? 0 then 1 else k) todo).
  assert (0 < len ≤ todo) as Hlen by (unfold len; destruct (Z.leb_spec k 0); lia).
  destruct (slice_bytes_spec K a len) as (bytes & Hbytes & Hb & Hba); [lia|lia|done|done|].
  exists k, bytes. split; [done|]. split_and!; try done; try lia.
  unfold len in *. clear len. destruct (Z.leb_spec k 0) as [Hz|Hpos].
  - right. nia.
  - left. apply (fitting_slice_bytes remain k (Z.min k todo) a); try done. lia.
Qed.
