(* ===== verification/FsProducers.v ===== *)
(** * Making filesystems

    [CreateArrowFileSystem] of [filesystem/fs.cpp] and the producers it chooses:
    [filesystem/s3/s3_filesystem_producer.cpp], [filesystem/gcp/*],
    [filesystem/azure/azure_fs_producer.cpp] and the producer of
    [filesystem/local_fs_producer.cpp], with the process-wide initialisation of
    the AWS SDK ([filesystem/s3/s3_global.cpp]) and the registry of Google
    credentials.

    A filesystem is what its client is configured with and the base path of its
    proxy.  Parameters: the environment, Arrow's and boost's functions on paths,
    the disk, the URI class of the AWS SDK, and whether the constructors of the
    clients succeed.

    The theorems: configurations with the same cache key make the same
    filesystem, except where a role is set for Azure or Google; a request to a
    registered bucket finds its credentials; the SDK is initialised once, and a
    second kind of producer is refused. *)

From S2P Require Import Prelude CppString Status Config Double StorageUri ColumnGroups Properties FsConfig.
From Stdlib Require Import Ascii.

(** ** Options of the clients *)

Inductive S3LogLevel := Off | Fatal | Error | Warn | Info | Debug | Trace.

Definition LogLevel_Map : list (string * S3LogLevel) :=
  [("off", Off); ("fatal", Fatal); ("error", Error); ("warn", Warn); ("info", Info); ("debug", Debug);
   ("trace", Trace)].

(** [LogLevel_Map[s]]: a missing entry is value-initialised, to [Off]. *)
Definition log_level_of (s : string) : S3LogLevel :=
  match List.find (λ e, bool_decide (e.1 = s)) LogLevel_Map with Some e => e.2 | None => Off end.

(** The HTTP client factories, with their minimal TLS version. *)
Inductive HttpFactory :=
  | TlsHttpClientFactory (tls_min_version : string)
  | GoogleHttpClientFactory (tls_min_version : string).

(** The options that the producers set; [http_options] counts only when it
    overrides the default. *)
Record S3GlobalOptions := mkGlobalOptions {
  go_log_level : S3LogLevel;
  go_http : option HttpFactory;
}.

Inductive S3CredentialsKind := CkAnonymous | CkDefault | CkExplicit | CkRole | CkWebIdentity.

(** The credentials providers, by class and constructor arguments. *)
Inductive CredentialsProvider :=
  | SimpleAWSCredentialsProvider (access_key secret_key session_token : string)
  | AnonymousAWSCredentialsProvider
  | DefaultAWSCredentialsProviderChain
  | STSAssumeRoleCredentialsProvider (role_arn session_name external_id : string) (load_frequency : Z)
  | AliyunRAMCredentialsProvider (role_arn session_name external_id : string)
  | AliyunOIDCAssumeRoleChainProvider (role_arn session_name external_id : string)
  | AliyunSTSAssumeRoleWebIdentityCredentialsProvider
  | TencentCloudSTSAssumeRoleWebIdentityCredentialsProvider
  | HuaweiCloudSTSAssumeRoleWebIdentityCredentialsProvider.

(** The fields of [S3Options] that the producers set. *)
Record S3Options := mkS3Options {
  so_region : string;
  so_request_timeout : f64;
  so_endpoint_override : string;
  so_scheme : string;
  so_credentials_provider : option CredentialsProvider;
  so_credentials_kind : S3CredentialsKind;
  so_force_virtual_addressing : bool;
  so_background_writes : bool;
  so_max_connections : Z;
  so_multi_part_upload_size : Z;
  so_cloud_provider : string;
  so_use_crc32c_checksum : bool;
  so_use_crt_async_reads : bool;
}.

Record AzureSasBrokerConfig := mkBroker {
  br_endpoint : string;
  br_region : string;
  br_bucket : string;
  br_client_id : string;
  br_tenant_id : string;
  br_account_name : string;
  br_duration_seconds : Z;
  br_request_timeout_ms : Z;
}.

(** [credential_kind_] with the member it goes with. *)
Inductive AzureCredential :=
  | kDefault
  | kStorageSharedKey (account_name account_key : string)
  | kDynamicSASToken (policy : AzureSasBrokerConfig)
  | kManagedIdentity (client_id : string)
  | kWorkloadIdentity.

Record AzureOptions := mkAzureOptions {
  ao_account_name : string;
  ao_blob_storage_authority : string;
  ao_dfs_storage_authority : string;
  ao_blob_storage_scheme : string;
  ao_dfs_storage_scheme : string;
  ao_background_writes : bool;
  ao_credential : AzureCredential;
}.

(** A client behind a [FileSystemProxy]. *)
Inductive FsClient :=
  | S3Client (options : S3Options)
  | AzureClient (options : AzureOptions)
  | LocalClient (options : string).

Record FsInstance := mkFs {
  fs_base_path : string;
  fs_client : FsClient;
}.

(** ** Google credentials *)

Inductive GcpCredentialProvider :=
  | IamImpersonateProvider (target_service_account : string) (token_lifetime_seconds : Z)
  | IamVmProvider
  | HmacProvider (access_key secret_key : string).

Definition kMaxImpersonationTokenLifetime : Z := 3600.
Definition kMinImpersonationTokenLifetime : Z := 900.

Definition BuildGcpProviderFromConfig (c : ArrowFileSystemConfig) : Result GcpCredentialProvider :=
  if fc_use_iam c && negb (is_empty (fc_gcp_target_service_account c)) then
    if (fc_load_frequency c <? kMinImpersonationTokenLifetime) ||
       (kMaxImpersonationTokenLifetime <? fc_load_frequency c)
    then Err status_Invalid
    else Ok (IamImpersonateProvider (fc_gcp_target_service_account c) (fc_load_frequency c))
  else if fc_use_iam c then Ok IamVmProvider
  else if negb (is_empty (fc_access_key_id c)) && negb (is_empty (fc_access_key_value c))
  then Ok (HmacProvider (fc_access_key_id c) (fc_access_key_value c))
  else Err status_Invalid.

(** What the accessors of [Aws::Http::URI] return. *)
Record AwsUri := mkAwsUri {
  aws_scheme : string;
  aws_port : Z;
  aws_authority : string;
  aws_path : string;
}.

Class AwsUriParser := aws_uri : string → AwsUri.

Record GcpEndpointKey := mkEndpointKey {
  ek_scheme : string;
  ek_port : Z;
  ek_host : string;
}.

Record GcpBucketKey := mkBucketKey {
  bk_endpoint : GcpEndpointKey;
  bk_bucket_name : string;
}.

#[global] Instance GcpEndpointKey_eq_dec : EqDecision GcpEndpointKey.
Proof. solve_decision. Defined.
#[global] Instance GcpBucketKey_eq_dec : EqDecision GcpBucketKey.
Proof. solve_decision. Defined.
#[global] Instance GcpBucketKey_countable : Countable GcpBucketKey.
Proof.
  apply (inj_countable'
    (λ k, (ek_scheme (bk_endpoint k), ek_port (bk_endpoint k), ek_host (bk_endpoint k), bk_bucket_name k))
    (λ '(s, p, h, b), mkBucketKey (mkEndpointKey s p h) b)).
  by intros [[]].
Defined.

Definition FirstPathSegment (path : string) : string :=
  let rest := if starts_with "/" path then drop_str 1 path else path in
  match split1 "/" rest with Some (seg, _) => seg | None => rest end.

Definition ToLower (s : string) : string := tolower_str s.

Definition EndpointFromUri (u : AwsUri) : GcpEndpointKey :=
  mkEndpointKey (aws_scheme u) (aws_port u) (ToLower (aws_authority u)).

Definition NormalizeGcpEndpoint `{AwsUriParser} (address : string) (use_ssl : bool) : GcpEndpointKey :=
  let endpoint :=
    if negb (starts_with "http://" address) && negb (starts_with "https://" address)
    then (if use_ssl then "https://" else "http://") +:+ address else address in
  EndpointFromUri (aws_uri endpoint).

Abbreviation Registry := (gmap GcpBucketKey GcpCredentialProvider).

Definition Register (key : GcpBucketKey) (provider : GcpCredentialProvider) (r : Registry) : Registry :=
  let e := bk_endpoint key in
  <[mkBucketKey (mkEndpointKey (ek_scheme e) (ek_port e) (ToLower (ek_host e))) (bk_bucket_name key) := provider]> r.

Definition Lookup (uri : AwsUri) (r : Registry) : option GcpCredentialProvider :=
  let endpoint := EndpointFromUri uri in
  let seg := FirstPathSegment (aws_path uri) in
  let path_style := if negb (is_empty seg) then r !! mkBucketKey endpoint seg else None in
  match path_style with
  | Some p => Some p
  | None =>
      match split1 "." (ek_host endpoint) with
      | Some (subdomain, rest) =>
          if negb (is_empty subdomain)
          then r !! mkBucketKey (mkEndpointKey (ek_scheme endpoint) (ek_port endpoint) rest) subdomain
          else None
      | None => None
      end
  end.

(** ** The AWS SDK *)

(** [AwsInstance]; [initialize_flag_] is a [std::once_flag]. *)
Record AwsInstance := mkAws {
  aws_is_initialized : bool;
  aws_is_finalized : bool;
  aws_initialize_flag : bool;
  aws_options : option S3GlobalOptions;
}.

Definition aws_new : AwsInstance := mkAws false false false None.

(** [DoInitialize]: the log level and, when overridden, the HTTP factory go into
    the options of the SDK, which is then initialised. *)
Definition DoInitialize (options : S3GlobalOptions) (a : AwsInstance) : AwsInstance :=
  mkAws (aws_is_initialized a) (aws_is_finalized a) (aws_initialize_flag a) (Some options).

Definition EnsureInitialized (options : S3GlobalOptions) : M AwsInstance Status bool :=
  a ← get_st;
  if aws_is_finalized a then fail status_Invalid
  else if aws_initialize_flag a then mret false
  else if aws_is_initialized a then undefined           (* [DCHECK(!was_initialized)] *)
  else
    modify (DoInitialize options);;
    modify (λ a, mkAws true (aws_is_finalized a) true (aws_options a));;
    mret true.

Definition InitializeS3 (options : S3GlobalOptions) : M AwsInstance Status unit :=
  successfully_initialized ← EnsureInitialized options;
  if successfully_initialized : bool then mret tt else fail status_Invalid.

Definition IsS3Initialized (a : AwsInstance) : bool := negb (aws_is_finalized a) && aws_is_initialized a.

(** [Finalize]: closing the clients and shutting the SDK down is left out. *)
Definition Finalize (a : AwsInstance) : AwsInstance :=
  if aws_is_finalized a then a else mkAws false true (aws_initialize_flag a) (aws_options a).

(** ** The process *)

(** The disk, for the root directory of the local filesystem. *)
Class LocalDisk (D : Type) := {
  disk_exists : string → D → bool;
  disk_is_directory : string → D → bool;
  disk_create_directories : string → D → D;
}.

Record Process (D : Type) := mkProcess {
  pr_aws : AwsInstance;
  pr_s3_init : option (option Status);     (* the once flag and [init_status] of [InitS3] *)
  pr_gcp_init : option (option Status);    (* of [InitS3Compat] *)
  pr_registry : Registry;
  pr_disk : D;
}.
Arguments mkProcess {D} _ _ _ _ _.
Arguments pr_aws {D} _.
Arguments pr_s3_init {D} _.
Arguments pr_gcp_init {D} _.
Arguments pr_registry {D} _.
Arguments pr_disk {D} _.

Definition process_new {D} (disk : D) : Process D := mkProcess aws_new None None ∅ disk.

(** What the producers call. *)
Class CloudEnv := {
  env_get : string → option string;                            (* [getenv] *)
  arrow_fs_initialize : string → Result unit;                  (* [arrow::fs::Initialize] *)
  aws_credentials : CredentialsProvider → string * string * string;   (* [GetAWSCredentials] *)
  s3_make : S3Options → Result unit;                           (* [S3FileSystem::Make] *)
  azure_make : AzureOptions → Result unit;                     (* [AzureFileSystem::Make] *)
  path_absolute : string → string;      (* [boost::filesystem::absolute] of a relative path *)
  local_root : string → Result (string * string);
    (* [Uri::FromString] and [LocalFileSystemOptions::FromUri]: the options and [out_path] *)
}.

(** [common/constants.h]. *)
Definition DEFAULT_ARROW_FILESYSTEM_S3_REQUEST_TIMEOUT_SEC : Z := 10.

Section producers.
Context {D : Type} `{LocalDisk D} `{CloudEnv} `{AwsUriParser}.

#[local] Abbreviation P := (M (Process D) Status).

Definition set_aws (a : AwsInstance) (s : Process D) : Process D :=
  mkProcess a (pr_s3_init s) (pr_gcp_init s) (pr_registry s) (pr_disk s).
Definition set_s3_init (i : option (option Status)) (s : Process D) : Process D :=
  mkProcess (pr_aws s) i (pr_gcp_init s) (pr_registry s) (pr_disk s).
Definition set_gcp_init (i : option (option Status)) (s : Process D) : Process D :=
  mkProcess (pr_aws s) (pr_s3_init s) i (pr_registry s) (pr_disk s).
Definition set_registry (r : Registry) (s : Process D) : Process D :=
  mkProcess (pr_aws s) (pr_s3_init s) (pr_gcp_init s) r (pr_disk s).
Definition set_disk (d : D) (s : Process D) : Process D :=
  mkProcess (pr_aws s) (pr_s3_init s) (pr_gcp_init s) (pr_registry s) d.

(** A step of the SDK instance. *)
Definition on_aws {A} (m : M AwsInstance Status A) : P A := λ s,
  let '(a, r) := m (pr_aws s) in (set_aws a s, r).

(** [return init_status]. *)
Definition return_init (i : option (option Status)) : P unit :=
  match i with Some (Some e) => fail e | _ => mret tt end.

(** ** S3 *)

(** The TLS floor counts only with SSL. *)
Definition tls_floor (c : ArrowFileSystemConfig) : string :=
  if fc_use_ssl c && negb (is_empty (fc_tls_min_version c)) then fc_tls_min_version c else "".

Definition InitS3 (c : ArrowFileSystemConfig) : P unit :=
  s ← get_st;
  match pr_s3_init s with
  | Some _ => mret tt
  | None =>
      let tls_min_ver := tls_floor c in
      let http := if negb (is_empty tls_min_ver) then Some (TlsHttpClientFactory tls_min_ver) else None in
      r ← catch (on_aws (InitializeS3 (mkGlobalOptions (log_level_of (fc_log_level c)) http)));
      modify (set_s3_init (Some (match r with inl _ => None | inr _ => Some status_Invalid end)))
  end;;
  s ← get_st; return_init (pr_s3_init s).

(** [S3Options options;] checks that the SDK is initialised. *)
Definition new_S3Options : P unit :=
  s ← get_st; if IsS3Initialized (pr_aws s) then mret tt else undefined.

Definition request_timeout_of (c : ArrowFileSystemConfig) : f64 :=
  f64_of_int (if fc_request_timeout_ms c <=? 0 then DEFAULT_ARROW_FILESYSTEM_S3_REQUEST_TIMEOUT_SEC
              else Z.quot (fc_request_timeout_ms c) 1000).

Definition set_ca_file (c : ArrowFileSystemConfig) : Result unit :=
  if fc_use_ssl c && negb (is_empty (fc_ssl_ca_cert c)) then arrow_fs_initialize (fc_ssl_ca_cert c) else Ok tt.

(** [CreateCredentialsProvider]; a null pointer is [None]. *)
Definition CreateCredentialsProvider (c : ArrowFileSystemConfig) : option CredentialsProvider :=
  if bool_decide (fc_cloud_provider c = kCloudProviderAWS) then Some DefaultAWSCredentialsProviderChain
  else if bool_decide (fc_cloud_provider c = kCloudProviderAliyun)
  then Some AliyunSTSAssumeRoleWebIdentityCredentialsProvider
  else if bool_decide (fc_cloud_provider c = kCloudProviderTencent)
  then Some TencentCloudSTSAssumeRoleWebIdentityCredentialsProvider
  else if bool_decide (fc_cloud_provider c = kCloudProviderHuawei)
  then Some HuaweiCloudSTSAssumeRoleWebIdentityCredentialsProvider
  else None.

(** [Aws::Environment::GetEnv]: a missing variable reads as empty. *)
Definition aws_env (name : string) : string := default "" (env_get name).

(** The credentials: a role, the identity of the machine, or an access key.
    With a machine identity the kind keeps its default. *)
Definition s3_credentials (c : ArrowFileSystemConfig) : Result (CredentialsProvider * S3CredentialsKind) :=
  if negb (is_empty (fc_role_arn c)) then
    if bool_decide (fc_cloud_provider c = kCloudProviderAWS) then
      Ok (STSAssumeRoleCredentialsProvider (fc_role_arn c) (fc_session_name c) (fc_external_id c)
            (fc_load_frequency c), CkRole)
    else if bool_decide (fc_cloud_provider c = kCloudProviderAliyun) then
      if bool_decide (aws_env "ALIYUN_ROLE_ARN_AUTH_MODE" = "ram") then
        Ok (AliyunRAMCredentialsProvider (fc_role_arn c) (fc_session_name c) (fc_external_id c), CkRole)
      else if is_empty (aws_env "ALIBABA_CLOUD_OIDC_TOKEN_FILE") ||
              is_empty (aws_env "ALIBABA_CLOUD_OIDC_PROVIDER_ARN") || is_empty (aws_env "ALIBABA_CLOUD_ROLE_ARN")
      then Err status_Invalid
      else Ok (AliyunOIDCAssumeRoleChainProvider (fc_role_arn c) (fc_session_name c) (fc_external_id c),
               CkWebIdentity)
    else Err status_Invalid
  else if fc_use_iam c then
    match CreateCredentialsProvider c with
    | None => Err status_Invalid
    | Some provider =>
        let '(key_id, secret, token) := aws_credentials provider in
        if is_empty key_id || is_empty secret || is_empty token then Ub    (* the three assertions *)
        else Ok (provider, CkDefault)
    end
  else Ok (SimpleAWSCredentialsProvider (fc_access_key_id c) (fc_access_key_value c) "", CkExplicit).

Definition S3_CreateS3Options (c : ArrowFileSystemConfig) : P S3Options :=
  new_S3Options;;
  lift (set_ca_file c);;
  credentials ← lift (s3_credentials c);
  mret {| so_region := fc_region c;
          so_request_timeout := request_timeout_of c;
          so_endpoint_override := fc_address c;
          so_scheme := if fc_use_ssl c then "https" else "http";
          so_credentials_provider := Some credentials.1;
          so_credentials_kind := credentials.2;
          so_force_virtual_addressing := fc_use_virtual_host c ||
            bool_decide (fc_cloud_provider c ∈ [kCloudProviderAliyun; kCloudProviderTencent; kCloudProviderHuawei]);
          so_background_writes := fc_background_writes c;
          so_max_connections := fc_max_connections c;
          so_multi_part_upload_size := fc_multi_part_upload_size c;
          so_cloud_provider := fc_cloud_provider c;
          so_use_crc32c_checksum := fc_use_crc32c_checksum c;
          so_use_crt_async_reads := fc_s3_crt_async_read c |}.

Definition S3FileSystemProducer_Make (c : ArrowFileSystemConfig) : P FsInstance :=
  InitS3 c;;
  s3_options ← S3_CreateS3Options c;
  lift (s3_make s3_options);;
  mret (mkFs (fc_bucket_name c) (S3Client s3_options)).

(** ** Google *)

Definition InitS3Compat (c : ArrowFileSystemConfig) : P unit :=
  s ← get_st;
  match pr_gcp_init s with
  | Some _ => mret tt
  | None =>
      let options := mkGlobalOptions (log_level_of (fc_log_level c)) (Some (GoogleHttpClientFactory (tls_floor c))) in
      r ← catch (on_aws (InitializeS3 options));
      modify (set_gcp_init (Some (match r with inl _ => None | inr e => Some e end)))
  end;;
  s ← get_st; return_init (pr_gcp_init s).

Definition RegisterIdentity (c : ArrowFileSystemConfig) : P unit :=
  provider ← lift (BuildGcpProviderFromConfig c);
  let key := mkBucketKey (NormalizeGcpEndpoint (fc_address c) (fc_use_ssl c)) (fc_bucket_name c) in
  modify (λ s, set_registry (Register key provider (pr_registry s)) s).

(** A role is refused; the CRT reader keeps its default. *)
Definition Gcp_CreateS3Options (c : ArrowFileSystemConfig) : P S3Options :=
  new_S3Options;;
  lift (set_ca_file c);;
  if negb (is_empty (fc_role_arn c)) then fail status_Invalid
  else mret
    {| so_region := fc_region c;
       so_request_timeout := request_timeout_of c;
       so_endpoint_override := fc_address c;
       so_scheme := if fc_use_ssl c then "https" else "http";
       so_credentials_provider := Some (if fc_use_iam c then AnonymousAWSCredentialsProvider
         else SimpleAWSCredentialsProvider (fc_access_key_id c) (fc_access_key_value c) "");
       so_credentials_kind := if fc_use_iam c then CkAnonymous else CkExplicit;
       so_force_virtual_addressing := fc_use_virtual_host c;
       so_background_writes := fc_background_writes c;
       so_max_connections := fc_max_connections c;
       so_multi_part_upload_size := fc_multi_part_upload_size c;
       so_cloud_provider := fc_cloud_provider c;
       so_use_crc32c_checksum := fc_use_crc32c_checksum c;
       so_use_crt_async_reads := true |}.

Definition GcpFileSystemProducer_Make (c : ArrowFileSystemConfig) : P FsInstance :=
  InitS3Compat c;;
  RegisterIdentity c;;
  s3_options ← Gcp_CreateS3Options c;
  lift (s3_make s3_options);;
  mret (mkFs (fc_bucket_name c) (S3Client s3_options)).

(** ** Azure *)

Definition azure_authority (kind : string) (c : ArrowFileSystemConfig) : string :=
  if is_empty (fc_address c) then "." +:+ kind +:+ ".core.windows.net"
  else if bool_decide (env_get "USE_AZURITE" = Some "true") then fc_address c
  else "." +:+ kind +:+ "." +:+ fc_address c.

(** The credential; [Configure*] refuse an empty account name, which the
    assertion before has excluded. *)
Definition azure_credential (c : ArrowFileSystemConfig) : Result AzureCredential :=
  if IsAzureCredentialBrokerEnabled c then
    Ok (kDynamicSASToken
      {| br_endpoint := fc_azure_credential_endpoint c; br_region := fc_region c; br_bucket := fc_bucket_name c;
         br_client_id := fc_azure_client_id c; br_tenant_id := fc_azure_tenant_id c;
         br_account_name := fc_access_key_id c; br_duration_seconds := fc_load_frequency c;
         br_request_timeout_ms := fc_request_timeout_ms c |})
  else if fc_use_iam c then
    if negb (is_empty (default "" (env_get "AZURE_FEDERATED_TOKEN_FILE"))) then
      if bool_decide (env_get "AZURE_CLIENT_ID" = None) then Err status_Invalid
      else if bool_decide (env_get "AZURE_TENANT_ID" = None) then Err status_Invalid
      else Ok kWorkloadIdentity
    else match env_get "AZURE_CLIENT_ID" with
         | None => Err status_Invalid
         | Some client_id => Ok (kManagedIdentity client_id)
         end
  else if is_empty (fc_access_key_value c) then Ub        (* the assertion *)
  else Ok (kStorageSharedKey (fc_access_key_id c) (fc_access_key_value c)).

Definition AzureFileSystemProducer_Make (c : ArrowFileSystemConfig) : P FsInstance :=
  if is_empty (fc_access_key_id c) then undefined         (* the assertion *)
  else
    credential ← lift (azure_credential c);
    let transport := if fc_use_ssl c then "https" else "http" in
    let options :=
      {| ao_account_name := fc_access_key_id c;
         ao_blob_storage_authority := azure_authority "blob" c;
         ao_dfs_storage_authority := azure_authority "dfs" c;
         ao_blob_storage_scheme := transport; ao_dfs_storage_scheme := transport;
         ao_background_writes := fc_background_writes c; ao_credential := credential |} in
    lift (azure_make options);;
    mret (mkFs (fc_bucket_name c) (AzureClient options)).

(** ** Local *)

Definition local_uri_scheme : string := "file://".

(** A path is relative unless it starts with a slash. *)
Definition LocalFileSystemProducer_Make (c : ArrowFileSystemConfig) : P FsInstance :=
  let path := if starts_with "/" (fc_root_path c) then fc_root_path c else path_absolute (fc_root_path c) in
  o ← lift (local_root (local_uri_scheme +:+ path));
  let '(option, out_path) := o in
  s ← get_st;
  (if negb (disk_exists out_path (pr_disk s)) then
     modify (λ s, set_disk (disk_create_directories out_path (pr_disk s)) s)
   else if negb (disk_is_directory out_path (pr_disk s)) then fail status_Invalid
   else mret tt);;
  mret (mkFs out_path (LocalClient option)).

(** ** The choice of the producer *)

Inductive StorageType := StNone | StLocal | StRemote.
Inductive CloudProviderType := CpUnknown | CpAWS | CpGCP | CpAliyun | CpAzure | CpTencent | CpHuawei.

(** [StorageType_Map[s]] and [CloudProviderType_Map[s]]: a missing entry is
    value-initialised. *)
Definition StorageType_Map (s : string) : StorageType :=
  if bool_decide (s = "local") then StLocal else if bool_decide (s = "remote") then StRemote else StNone.

Definition CloudProviderType_Map (s : string) : CloudProviderType :=
  if bool_decide (s = kCloudProviderAWS) then CpAWS
  else if bool_decide (s = kCloudProviderGCP) then CpGCP
  else if bool_decide (s = kCloudProviderAliyun) then CpAliyun
  else if bool_decide (s = kCloudProviderAzure) then CpAzure
  else if bool_decide (s = kCloudProviderTencent) then CpTencent
  else if bool_decide (s = kCloudProviderHuawei) then CpHuawei
  else CpUnknown.

Definition CreateArrowFileSystem (c : ArrowFileSystemConfig) : P FsInstance :=
  match StorageType_Map (fc_storage_type c) with
  | StLocal => LocalFileSystemProducer_Make c
  | StRemote =>
      match CloudProviderType_Map (fc_cloud_provider c) with
      | CpAzure => AzureFileSystemProducer_Make c
      | CpGCP => GcpFileSystemProducer_Make c
      | CpAWS | CpAliyun | CpTencent | CpHuawei => S3FileSystemProducer_Make c
      | CpUnknown => fail status_Invalid
      end
  | StNone => fail status_Invalid
  end.

(** ** Configurations with one cache key *)

(** Configurations whose role is set although their producer does not use it:
    the cache key of Azure then leaves the account out, and that of Google leaves
    the role out. *)
Definition role_ignored (c : ArrowFileSystemConfig) : Prop :=
  fc_role_arn c ≠ "" ∧
  (fc_cloud_provider c = kCloudProviderGCP ∨
   (fc_cloud_provider c = kCloudProviderAzure ∧ IsAzureCredentialBrokerEnabled c = false)).

Lemma broker_azure c : IsAzureCredentialBrokerEnabled c = true → fc_cloud_provider c = kCloudProviderAzure.
Proof. unfold IsAzureCredentialBrokerEnabled. intros [H2 _]%andb_true_iff. by apply bool_decide_eq_true in H2. Qed.

(** The fields that equal keys have in common, by the part of the key. *)
Lemma same_key_common c1 c2 :
  cache_key_parts c1 = cache_key_parts c2 →
  fc_storage_type c1 = fc_storage_type c2 ∧
  if bool_decide (fc_storage_type c1 = "local") then fc_root_path c1 = fc_root_path c2
  else
    (fc_cloud_provider c1 = fc_cloud_provider c2 ∧ fc_address c1 = fc_address c2 ∧
     fc_bucket_name c1 = fc_bucket_name c2 ∧ fc_region c1 = fc_region c2 ∧ fc_use_ssl c1 = fc_use_ssl c2 ∧
     fc_ssl_ca_cert c1 = fc_ssl_ca_cert c2 ∧ fc_use_virtual_host c1 = fc_use_virtual_host c2 ∧
     fc_request_timeout_ms c1 = fc_request_timeout_ms c2 ∧ fc_max_connections c1 = fc_max_connections c2 ∧
     fc_multi_part_upload_size c1 = fc_multi_part_upload_size c2 ∧
     fc_tls_min_version c1 = fc_tls_min_version c2 ∧ fc_background_writes c1 = fc_background_writes c2 ∧
     fc_use_crc32c_checksum c1 = fc_use_crc32c_checksum c2 ∧
     fc_s3_crt_async_read c1 = fc_s3_crt_async_read c2 ∧ fc_load_frequency c1 = fc_load_frequency c2) ∧
    credential_parts c1 = credential_parts c2.
Proof.
  unfold cache_key_parts. intros [= Hst Hrest]. split; [done|]. rewrite <- Hst in Hrest.
  case_bool_decide; [by injection Hrest|]. cbn [app] in Hrest. by simplify_eq.
Qed.

(** Processes that differ at most in the options of the SDK, which hold the log
    level of the first configuration. *)
Definition same_process (s1 s2 : Process D) : Prop :=
  pr_s3_init s1 = pr_s3_init s2 ∧ pr_gcp_init s1 = pr_gcp_init s2 ∧ pr_registry s1 = pr_registry s2 ∧
  pr_disk s1 = pr_disk s2 ∧ aws_is_initialized (pr_aws s1) = aws_is_initialized (pr_aws s2) ∧
  aws_is_finalized (pr_aws s1) = aws_is_finalized (pr_aws s2) ∧
  aws_initialize_flag (pr_aws s1) = aws_initialize_flag (pr_aws s2).

#[export] Instance same_process_equiv : Equivalence same_process.
Proof.
  unfold same_process. split.
  - done.
  - intros s1 s2 ?. split_and_all. by split_and!.
  - intros s1 s2 s3 ? ?. split_and_all. split_and!; congruence.
Qed.

(** Functions that do the same on such processes. *)
Definition same_run {A} (m1 m2 : P A) : Prop := ∀ s1 s2, same_process s1 s2 →
  same_process (m1 s1).1 (m2 s2).1 ∧ (m1 s1).2 = (m2 s2).2.

Lemma same_run_bind {A B} (m1 m2 : P A) (f1 f2 : A → P B) :
  same_run m1 m2 → (∀ a, same_run (f1 a) (f2 a)) → same_run (m1 ≫= f1) (m2 ≫= f2).
Proof.
  intros Hm Hf s1 s2 Hs. specialize (Hm s1 s2 Hs) as [Hs' Hr]. unfold mbind, M_bind.
  destruct (m1 s1) as [s1' r1], (m2 s2) as [s2' r2]. simpl in *. subst r2. destruct r1; [by apply Hf|done..].
Qed.

Lemma same_run_pure {A} (o : outcome Status A) : same_run (lift o) (lift o).
Proof. by intros s1 s2 Hs. Qed.
Lemma same_run_ret {A} (a : A) : same_run (mret a) (mret a).
Proof. by intros s1 s2 Hs. Qed.
Lemma same_run_fail {A} (e : Status) : same_run (A := A) (fail e) (fail e).
Proof. by intros s1 s2 Hs. Qed.
Lemma same_run_undefined {A} : same_run (A := A) undefined undefined.
Proof. by intros s1 s2 Hs. Qed.
Hint Resolve same_run_pure same_run_ret same_run_fail same_run_undefined same_run_bind : milvus.

Lemma same_new_S3Options : same_run new_S3Options new_S3Options.
Proof.
  intros s1 s2 Hs. unfold new_S3Options, get_st, mbind, M_bind, IsS3Initialized.
  destruct (Hs) as (_ & _ & _ & _ & -> & -> & _). by destruct (_ && _).
Qed.

Lemma same_on_aws options1 options2 :
  same_run (on_aws (InitializeS3 options1)) (on_aws (InitializeS3 options2)).
Proof.
  intros s1 s2 Hs. destruct (Hs) as (E1 & E2 & E3 & E4 & E5 & E6 & E7).
  destruct s1 as [[i1 f1 g1 o1]], s2 as [[i2 f2 g2 o2]]. simpl in *. subst.
  unfold on_aws, InitializeS3, EnsureInitialized, get_st, mbind, M_bind. simpl. by destruct f2, g2, i2.
Qed.

Lemma same_catch {A} (m1 m2 : P A) : same_run m1 m2 → same_run (catch m1) (catch m2).
Proof.
  intros Hm s1 s2 Hs. specialize (Hm s1 s2 Hs) as [Hs' Hr]. unfold catch.
  destruct (m1 s1) as [s1' r1], (m2 s2) as [s2' r2]. simpl in *. subst r2. by destruct r1.
Qed.

Lemma same_get {A} (f1 f2 : Process D → P A) :
  (∀ s1 s2, same_process s1 s2 → same_run (f1 s1) (f2 s2)) → same_run (get_st ≫= f1) (get_st ≫= f2).
Proof. intros Hf s1 s2 Hs. by apply Hf. Qed.

Lemma same_modify (f1 f2 : Process D → Process D) :
  (∀ s1 s2, same_process s1 s2 → same_process (f1 s1) (f2 s2)) → same_run (modify f1) (modify f2).
Proof. intros Hf s1 s2 Hs. split; [by apply Hf|done]. Qed.
Hint Resolve same_new_S3Options same_on_aws same_catch : milvus.

Lemma same_return_init i : same_run (return_init i) (return_init i).
Proof. destruct i as [[]|]; simpl; auto with milvus. Qed.

Lemma same_InitS3 c1 c2 : same_run (InitS3 c1) (InitS3 c2).
Proof.
  unfold InitS3. apply same_get. intros s1 s2 Hs. apply same_run_bind.
  - destruct Hs as (-> & _). destruct (pr_s3_init s2); [auto with milvus|]. cbv zeta.
    apply same_run_bind; [auto with milvus|]. intros r. apply same_modify. intros s1' s2' Hs'.
    unfold same_process in *. split_and_all. by split_and!.
  - intros _. apply same_get. intros s1' s2' (-> & _). apply same_return_init.
Qed.

Lemma same_InitS3Compat c1 c2 : same_run (InitS3Compat c1) (InitS3Compat c2).
Proof.
  unfold InitS3Compat. apply same_get. intros s1 s2 Hs. apply same_run_bind.
  - destruct Hs as (_ & -> & _). destruct (pr_gcp_init s2); [auto with milvus|]. cbv zeta.
    apply same_run_bind; [auto with milvus|]. intros r. apply same_modify. intros s1' s2' Hs'.
    unfold same_process in *. split_and_all. by split_and!.
  - intros _. apply same_get. intros s1' s2' (_ & -> & _). apply same_return_init.
Qed.

(** The key determines what each producer reads of a configuration. *)
Lemma same_credentials c1 c2 :
  fc_cloud_provider c1 = fc_cloud_provider c2 → credential_parts c1 = credential_parts c2 →
  ¬ role_ignored c1 → ¬ role_ignored c2 →
  if IsAzureCredentialBrokerEnabled c1 then
    IsAzureCredentialBrokerEnabled c2 = true ∧ fc_access_key_id c1 = fc_access_key_id c2 ∧
    fc_azure_client_id c1 = fc_azure_client_id c2 ∧ fc_azure_tenant_id c1 = fc_azure_tenant_id c2 ∧
    fc_azure_credential_endpoint c1 = fc_azure_credential_endpoint c2
  else IsAzureCredentialBrokerEnabled c2 = false ∧
    if negb (is_empty (fc_role_arn c1)) then
      fc_role_arn c1 = fc_role_arn c2 ∧ fc_session_name c1 = fc_session_name c2 ∧
      fc_external_id c1 = fc_external_id c2
    else is_empty (fc_role_arn c2) = true ∧ fc_use_iam c1 = fc_use_iam c2 ∧
      (fc_cloud_provider c1 = kCloudProviderGCP → fc_use_iam c1 = true →
        fc_gcp_target_service_account c1 = fc_gcp_target_service_account c2) ∧
      (fc_use_iam c1 = false ∨ fc_cloud_provider c1 = kCloudProviderAzure →
        fc_access_key_id c1 = fc_access_key_id c2 ∧ fc_access_key_value c1 = fc_access_key_value c2).
Proof.
  intros Hp Hc Hn1 Hn2. unfold credential_parts in Hc. rewrite <- Hp in Hc.
  assert (∀ c, ¬ role_ignored c → fc_cloud_provider c = kCloudProviderGCP → is_empty (fc_role_arn c) = true) as Hgcp.
  { intros c Hn Hg. destruct (is_empty (fc_role_arn c)) eqn:He; [done|]. destruct Hn. split; [by intros Hr; rewrite Hr in He|by left]. }
  destruct (IsAzureCredentialBrokerEnabled c1) eqn:Hb1, (IsAzureCredentialBrokerEnabled c2) eqn:Hb2.
  - by simplify_eq.
  - case_bool_decide; [by destruct (fc_use_iam c2)|]. by destruct (negb _).
  - case_bool_decide; [by destruct (fc_use_iam c1)|]. by destruct (negb _).
  - split; [done|]. case_bool_decide as Hg.
    + rewrite (Hgcp c1 Hn1 Hg), (Hgcp c2 Hn2) by congruence. simpl. injection Hc as Hi Hc. rewrite <- Hi in Hc.
      destruct (fc_use_iam c1) eqn:?; simplify_eq; split_and!; try done. rewrite Hg. by intros [?|?].
    + destruct (is_empty (fc_role_arn c1)), (is_empty (fc_role_arn c2)); simpl in *; try done; [|by simplify_eq].
      injection Hc as Hi Hc. rewrite <- Hi in Hc. split_and!; [done..|].
      intros Ho. assert (negb (fc_use_iam c1) || bool_decide (fc_cloud_provider c1 = kCloudProviderAzure) = true) as He.
      { destruct Ho as [->| ->]; [done|]. by rewrite bool_decide_true, orb_true_r. }
      rewrite He in Hc. by simplify_eq.
Qed.

Lemma same_S3_make c1 c2 :
  cache_key_parts c1 = cache_key_parts c2 → fc_storage_type c1 ≠ "local" →
  fc_cloud_provider c1 ≠ kCloudProviderGCP → fc_cloud_provider c1 ≠ kCloudProviderAzure →
  same_run (S3FileSystemProducer_Make c1) (S3FileSystemProducer_Make c2).
Proof.
  intros Hk Hst Hg Ha. destruct (same_key_common _ _ Hk) as [_ Hc]. rewrite bool_decide_false in Hc by done.
  destruct Hc as ((Hp & E1 & E2 & E3 & E4 & E5 & E6 & E7 & E8 & E9 & E10 & E11 & E12 & E13 & E14) & Hcr).
  assert (∀ c, fc_cloud_provider c = fc_cloud_provider c1 → ¬ role_ignored c) as Hn.
  { intros c Heq [_ [?|[? _]]]; congruence. }
  pose proof (same_credentials c1 c2 Hp Hcr (Hn c1 eq_refl) (Hn c2 (eq_sym Hp))) as Hcred.
  destruct (IsAzureCredentialBrokerEnabled c1) eqn:Hb; [by apply broker_azure in Hb|]. destruct Hcred as [_ Hcred].
  assert (s3_credentials c1 = s3_credentials c2) as Hs3.
  { unfold s3_credentials, CreateCredentialsProvider. rewrite <- Hp, <- E14.
    destruct (is_empty (fc_role_arn c1)) eqn:He; simpl in Hcred.
    - destruct Hcred as (-> & Hi & _ & Hak). rewrite <- Hi. simpl. destruct (fc_use_iam c1); [done|].
      by destruct (Hak (or_introl eq_refl)) as [-> ->].
    - destruct Hcred as (Hr & -> & ->). by rewrite <- Hr, He. }
  unfold S3FileSystemProducer_Make, S3_CreateS3Options, set_ca_file, request_timeout_of.
  rewrite <- Hs3, <- Hp, <- E1, <- E2, <- E3, <- E4, <- E5, <- E6, <- E7, <- E8, <- E9, <- E11, <- E12, <- E13.
  repeat (apply same_run_bind; [auto using same_InitS3 with milvus|intros ?]). auto with milvus.
Qed.

Lemma same_RegisterIdentity c1 c2 :
  BuildGcpProviderFromConfig c1 = BuildGcpProviderFromConfig c2 → fc_address c1 = fc_address c2 →
  fc_use_ssl c1 = fc_use_ssl c2 → fc_bucket_name c1 = fc_bucket_name c2 →
  same_run (RegisterIdentity c1) (RegisterIdentity c2).
Proof.
  intros Hb Ha Hs Hk. unfold RegisterIdentity. rewrite <- Hb, <- Ha, <- Hs, <- Hk.
  apply same_run_bind; [auto with milvus|]. intros provider. cbv zeta. apply same_modify.
  intros s1 s2 Hsp. unfold same_process in *. split_and_all. split_and!; simpl; congruence.
Qed.

Lemma same_Gcp_make c1 c2 :
  cache_key_parts c1 = cache_key_parts c2 → fc_storage_type c1 ≠ "local" →
  fc_cloud_provider c1 = kCloudProviderGCP → ¬ role_ignored c1 → ¬ role_ignored c2 →
  same_run (GcpFileSystemProducer_Make c1) (GcpFileSystemProducer_Make c2).
Proof.
  intros Hk Hst Hg Hn1 Hn2. destruct (same_key_common _ _ Hk) as [_ Hc]. rewrite bool_decide_false in Hc by done.
  destruct Hc as ((Hp & E1 & E2 & E3 & E4 & E5 & E6 & E7 & E8 & E9 & E10 & E11 & E12 & E13 & E14) & Hcr).
  pose proof (same_credentials c1 c2 Hp Hcr Hn1 Hn2) as Hcred.
  destruct (IsAzureCredentialBrokerEnabled c1) eqn:Hb; [apply broker_azure in Hb; by rewrite Hg in Hb|].
  destruct Hcred as [_ Hcred].
  destruct (is_empty (fc_role_arn c1)) eqn:He1; simpl in Hcred.
  2:{ destruct Hn1. split; [by intros Hr; rewrite Hr in He1|by left]. }
  destruct Hcred as (He2 & Hi & Hsa & Hak).
  unfold GcpFileSystemProducer_Make, Gcp_CreateS3Options, set_ca_file, request_timeout_of.
  rewrite He1, He2. rewrite <- Hp, <- E1, <- E2, <- E3, <- E4, <- E5, <- E6, <- E7, <- E8, <- E9, <- E11, <- E12, <- Hi.
  apply same_run_bind; [apply same_InitS3Compat|intros _].
  apply same_run_bind.
  { apply same_RegisterIdentity; [|done..]. unfold BuildGcpProviderFromConfig. rewrite <- Hi, <- E14.
    destruct (fc_use_iam c1); [by rewrite (Hsa Hg eq_refl)|]. by destruct (Hak (or_introl eq_refl)) as [-> ->]. }
  intros _. repeat (apply same_run_bind; [auto with milvus|intros ?]); [|auto with milvus..].
  simpl. destruct (fc_use_iam c1); [auto with milvus|]. destruct (Hak (or_introl eq_refl)) as [-> ->]. auto with milvus.
Qed.

Lemma same_Azure_make c1 c2 :
  cache_key_parts c1 = cache_key_parts c2 → fc_storage_type c1 ≠ "local" →
  fc_cloud_provider c1 = kCloudProviderAzure → ¬ role_ignored c1 → ¬ role_ignored c2 →
  same_run (AzureFileSystemProducer_Make c1) (AzureFileSystemProducer_Make c2).
Proof.
  intros Hk Hst Hz Hn1 Hn2. destruct (same_key_common _ _ Hk) as [_ Hc]. rewrite bool_decide_false in Hc by done.
  destruct Hc as ((Hp & E1 & E2 & E3 & E4 & E5 & E6 & E7 & E8 & E9 & E10 & E11 & E12 & E13 & E14) & Hcr).
  pose proof (same_credentials c1 c2 Hp Hcr Hn1 Hn2) as Hcred.
  assert (fc_access_key_id c1 = fc_access_key_id c2 ∧ azure_credential c1 = azure_credential c2) as [Hid Hcd].
  { unfold azure_credential. destruct (IsAzureCredentialBrokerEnabled c1) eqn:Hb.
    - destruct Hcred as (-> & Hid & -> & -> & ->). split; [done|]. congruence.
    - destruct Hcred as [-> Hcred]. destruct (is_empty (fc_role_arn c1)) eqn:He1; simpl in Hcred.
      2:{ destruct Hn1. split; [by intros Hr; rewrite Hr in He1|by right]. }
      destruct Hcred as (_ & Hi & _ & Hak). destruct (Hak (or_intror Hz)) as [-> ->]. by rewrite Hi. }
  unfold AzureFileSystemProducer_Make, azure_authority. rewrite <- Hid, <- Hcd, <- E1, <- E2, <- E4, <- E11.
  destruct (is_empty (fc_access_key_id c1)); [auto with milvus|].
  repeat (apply same_run_bind; [auto with milvus|intros ?]). auto with milvus.
Qed.

Lemma same_Local_make c1 c2 :
  fc_root_path c1 = fc_root_path c2 → same_run (LocalFileSystemProducer_Make c1) (LocalFileSystemProducer_Make c2).
Proof.
  intros Hr. unfold LocalFileSystemProducer_Make. rewrite <- Hr. apply same_run_bind; [auto with milvus|].
  intros [opts out_path]. apply same_get. intros s1 s2 Hs. apply same_run_bind; [|auto with milvus].
  destruct (Hs) as (_ & _ & _ & -> & _).
  destruct (disk_exists out_path (pr_disk s2)); simpl.
  - destruct (disk_is_directory out_path (pr_disk s2)); simpl; auto with milvus.
  - apply same_modify. intros s1' s2' Hs'. unfold same_process in *. split_and_all. split_and!; simpl; congruence.
Qed.

Lemma same_create c1 c2 :
  cache_key_parts c1 = cache_key_parts c2 → ¬ role_ignored c1 → ¬ role_ignored c2 →
  same_run (CreateArrowFileSystem c1) (CreateArrowFileSystem c2).
Proof.
  intros Hk Hn1 Hn2. destruct (same_key_common _ _ Hk) as [Hst Hc]. unfold CreateArrowFileSystem. rewrite <- Hst.
  unfold StorageType_Map. case_bool_decide as Hl; [by apply same_Local_make|]. destruct Hc as [[Hp _] _].
  case_bool_decide; [|auto with milvus]. rewrite <- Hp. unfold CloudProviderType_Map.
  repeat case_bool_decide; try (by auto with milvus).
  all: first [by apply same_Gcp_make|by apply same_Azure_make|apply same_S3_make; try done].
  all: match goal with Hc : fc_cloud_provider ?c = _ |- fc_cloud_provider ?c ≠ _ => by rewrite Hc end.
Qed.

(** C27: A cached filesystem is the one its user would have made.  Two
    configurations with the same parts of the cache key make the same filesystem
    -- the same client options, credentials and base path, or the same error --
    and leave the process in the same state but for the log level of the SDK,
    which the first configuration fixes; unless a role is set for Google, or for
    Azure without its credential broker. *)
Theorem cache_key_identifies_filesystem c1 c2 :
  cache_key_parts c1 = cache_key_parts c2 → ¬ role_ignored c1 → ¬ role_ignored c2 →
  same_run (CreateArrowFileSystem c1) (CreateArrowFileSystem c2).
Proof. apply same_create. Qed.

(** ** Requests find their credentials *)

Lemma tolower_idemp a : tolower (tolower a) = tolower a.
Proof. destruct a as [[] [] [] [] [] [] [] []]; reflexivity. Qed.
Lemma ToLower_idemp s : ToLower (ToLower s) = ToLower s.
Proof. unfold ToLower. induction s as [|a s IH]; simpl; [done|]. by rewrite tolower_idemp, IH. Qed.
Lemma ToLower_app s t : ToLower (s +:+ t) = ToLower s +:+ ToLower t.
Proof. unfold ToLower. induction s as [|a s IH]; simpl; [done|]. by rewrite app_str_cons, IH. Qed.

Lemma FirstPathSegment_bucket b k : mem_char "/" b = false → FirstPathSegment ("/" +:+ b +:+ "/" +:+ k) = b.
Proof.
  intros Hb. unfold FirstPathSegment. change (starts_with "/" _) with true. cbv iota zeta.
  change (drop_str 1 _) with (b +:+ String "/" k). by rewrite (split1_app "/" b k Hb).
Qed.

(** The entry that [RegisterIdentity] makes. *)
Definition identity_key (c : ArrowFileSystemConfig) : GcpBucketKey :=
  mkBucketKey (NormalizeGcpEndpoint (fc_address c) (fc_use_ssl c)) (fc_bucket_name c).

Lemma RegisterIdentity_Ok c s s' :
  RegisterIdentity c s = (s', Ok tt) →
  ∃ provider, BuildGcpProviderFromConfig c = Ok provider ∧
    pr_registry s' = <[identity_key c := provider]> (pr_registry s).
Proof.
  unfold RegisterIdentity, lift, mbind, M_bind. destruct (BuildGcpProviderFromConfig c) as [p|e|]; [|done..].
  intros [= <-]. exists p. split; [done|]. simpl. unfold Register, identity_key. simpl.
  f_equal. f_equal. unfold NormalizeGcpEndpoint, EndpointFromUri. simpl. by rewrite ToLower_idemp.
Qed.

Lemma registered_others c provider others s s' :
  for_each RegisterIdentity others s = (s', Ok tt) →
  Forall (λ c', identity_key c' ≠ identity_key c) others →
  pr_registry s !! identity_key c = Some provider → pr_registry s' !! identity_key c = Some provider.
Proof.
  revert s. induction others as [|c' others IH]; intros s; [by intros [= <-]|]. cbn [for_each].
  intros (s1 & [] & Hr & Hrest)%M_bind_Ok_inv [Hne Hall]%Forall_cons Hk. eapply IH; [exact Hrest|done|].
  apply RegisterIdentity_Ok in Hr as (p & _ & ->). by rewrite lookup_insert_ne.
Qed.

(** C30: A request to a bucket is made with the credentials that were registered
    for it.  After identities were registered, of which the last for the address
    and bucket of [c] is that of [c], a request to the same scheme, port and host
    whose path starts with the bucket finds it, however the host is capitalised;
    so does a request whose host is the bucket followed by the registered host,
    for a bucket in lower case whose name has no period, unless its path begins
    with a registered bucket of that longer host.  (The host is split at its
    first period, so that a bucket with a period in its name is never found by
    host: [SampleCloud.dotted_bucket_missed].) *)
Theorem requests_find_credentials c provider s s1 s2 (others : list ArrowFileSystemConfig) (u : AwsUri) :
  RegisterIdentity c s = (s1, Ok tt) → BuildGcpProviderFromConfig c = Ok provider →
  for_each RegisterIdentity others s1 = (s2, Ok tt) →
  Forall (λ c', identity_key c' ≠ identity_key c) others →
  let e := NormalizeGcpEndpoint (fc_address c) (fc_use_ssl c) in
  let b := fc_bucket_name c in
  aws_scheme u = ek_scheme e → aws_port u = ek_port e → is_empty b = false →
  (∀ object, ToLower (aws_authority u) = ek_host e → aws_path u = "/" +:+ b +:+ "/" +:+ object →
    mem_char "/" b = false → Lookup u (pr_registry s2) = Some provider) ∧
  (ToLower (aws_authority u) = b +:+ "." +:+ ek_host e → mem_char "." b = false →
    pr_registry s2 !! mkBucketKey (EndpointFromUri u) (FirstPathSegment (aws_path u)) = None →
    Lookup u (pr_registry s2) = Some provider).
Proof.
  intros Hr Hp Hothers Hall e b Hs Hpt Hb.
  assert (pr_registry s2 !! identity_key c = Some provider) as Hk.
  { apply (registered_others _ _ _ _ _ Hothers Hall). apply RegisterIdentity_Ok in Hr as (p & Hp' & ->).
    rewrite Hp in Hp'. injection Hp' as <-. apply lookup_insert_eq. }
  assert (∀ h, mkEndpointKey (ek_scheme e) (ek_port e) h = mkEndpointKey (aws_scheme u) (aws_port u) h) as Heq
    by (intros h; by rewrite Hs, Hpt).
  assert (identity_key c = mkBucketKey (mkEndpointKey (aws_scheme u) (aws_port u) (ek_host e)) b) as Hid.
  { unfold identity_key. fold e b. rewrite <- Heq. by destruct e. }
  unfold Lookup, EndpointFromUri. split.
  - intros object Ha Hpath Hsl. rewrite Hpath, FirstPathSegment_bucket, Hb, Ha by done. cbn [negb].
    by rewrite <- Hid, Hk.
  - intros Ha Hd Hnone. change ("." +:+ ek_host e) with (String "." (ek_host e)) in Ha.
    destruct (negb _) eqn:?; [rewrite Hnone|]; cbn [ek_host].
    all: rewrite Ha, (split1_app "." b _ Hd), Hb; cbn [negb ek_scheme ek_port]; by rewrite <- Hid.
Qed.

(** ** The SDK is initialised once *)

(** Making filesystems, one after the other. *)
Inductive process_step : Process D → Process D → Prop :=
  | step_make c s : process_step s (CreateArrowFileSystem c s).1.

Definition reachable (disk : D) (s : Process D) : Prop := rtc process_step (process_new disk) s.

(** At most one of the two initialisations succeeded; the other one, if it was
    tried, failed as invalid. *)
Record init_ok (s : Process D) : Prop := {
  io_live : aws_is_finalized (pr_aws s) = false;
  io_flag : aws_is_initialized (pr_aws s) = aws_initialize_flag (pr_aws s);
  io_owner :
    match pr_s3_init s, pr_gcp_init s with
    | None, None => aws_initialize_flag (pr_aws s) = false
    | Some None, None | None, Some None => aws_initialize_flag (pr_aws s) = true
    | Some None, Some (Some e) | Some (Some e), Some None =>
        aws_initialize_flag (pr_aws s) = true ∧ e = status_Invalid
    | _, _ => False
    end;
}.

(** A function keeps the invariant, and the SDK once it is initialised. *)
Definition keeps {A} (m : P A) : Prop := ∀ s, init_ok s →
  init_ok (m s).1 ∧ (aws_initialize_flag (pr_aws s) = true → pr_aws (m s).1 = pr_aws s).

Lemma keeps_bind {A B} (m : P A) (f : A → P B) : keeps m → (∀ a, keeps (f a)) → keeps (m ≫= f).
Proof.
  intros Hm Hf s Hs. destruct (Hm s Hs) as [H1' H2']. unfold mbind, M_bind.
  destruct (m s) as [s1 [a|e|]]; [|done..]. simpl in *. destruct (Hf a s1 H1') as [H3 H4]. split; [done|].
  intros Hfl. rewrite H4; [by apply H2'|]. by rewrite (H2' Hfl).
Qed.

Lemma keeps_pure {A} (m : P A) : (∀ s, (m s).1 = s) → keeps m.
Proof. intros Hm s Hs. by rewrite Hm. Qed.

Lemma keeps_modify f : (∀ s, init_ok s → init_ok (f s)) → (∀ s, pr_aws (f s) = pr_aws s) → keeps (modify f).
Proof. intros H1' H2' s Hs. split; [by apply H1'|]. intros _. apply H2'. Qed.

Lemma keeps_get {A} (f : Process D → P A) : (∀ s, keeps (f s)) → keeps (get_st ≫= f).
Proof. intros Hf s Hs. by apply Hf. Qed.

(** The two initialisations. *)
Lemma InitS3_spec c s :
  init_ok s →
  init_ok (InitS3 c s).1 ∧ (aws_initialize_flag (pr_aws s) = true → pr_aws (InitS3 c s).1 = pr_aws s) ∧
  match pr_gcp_init s with
  | Some None => (InitS3 c s).2 = Err status_Invalid
  | _ => (InitS3 c s).2 = Ok tt ∧ pr_s3_init (InitS3 c s).1 = Some None
  end.
Proof.
  intros [Hl Hf Ho]. destruct s as [[i f g o] [[e1|]|] [[e2|]|] r d]; simpl in *; try done; split_and_all; subst.
  all: unfold InitS3, on_aws, catch, InitializeS3, EnsureInitialized, get_st, modify, mbind, M_bind; simpl.
  all: split_and!; try done; by split.
Qed.

Lemma InitS3Compat_spec c s :
  init_ok s →
  init_ok (InitS3Compat c s).1 ∧
  (aws_initialize_flag (pr_aws s) = true → pr_aws (InitS3Compat c s).1 = pr_aws s) ∧
  match pr_s3_init s with
  | Some None => (InitS3Compat c s).2 = Err status_Invalid
  | _ => (InitS3Compat c s).2 = Ok tt ∧ pr_gcp_init (InitS3Compat c s).1 = Some None
  end.
Proof.
  intros [Hl Hf Ho]. destruct s as [[i f g o] [[e1|]|] [[e2|]|] r d]; simpl in *; try done; split_and_all; subst.
  all: unfold InitS3Compat, on_aws, catch, InitializeS3, EnsureInitialized, get_st, modify, mbind, M_bind; simpl.
  all: split_and!; try done; by split.
Qed.

Lemma keeps_InitS3 c : keeps (InitS3 c).
Proof. intros s Hs. destruct (InitS3_spec c s Hs) as (? & ? & _). by split. Qed.
Lemma keeps_InitS3Compat c : keeps (InitS3Compat c).
Proof. intros s Hs. destruct (InitS3Compat_spec c s Hs) as (? & ? & _). by split. Qed.

(** Syntax-directed proofs that a function keeps the invariant. *)
Ltac solve_keeps :=
  repeat lazymatch goal with
  | |- keeps (mbind _ get_st) => apply keeps_get; intros ?
  | |- keeps (mbind _ _) => apply keeps_bind; [|intros ?]
  | |- keeps (modify _) => apply keeps_modify; [intros ? []; by split|done]
  | |- keeps (if ?b then _ else _) => destruct b
  | |- keeps (let '(_, _) := ?p in _) => destruct p
  | |- keeps (InitS3 _) => apply keeps_InitS3
  | |- keeps (InitS3Compat _) => apply keeps_InitS3Compat
  | |- keeps _ => apply keeps_pure; reflexivity
  end.

Lemma keeps_create c : keeps (CreateArrowFileSystem c).
Proof.
  assert (keeps (LocalFileSystemProducer_Make c)).
  { unfold LocalFileSystemProducer_Make. cbv zeta. solve_keeps. }
  assert (keeps (S3FileSystemProducer_Make c)).
  { unfold S3FileSystemProducer_Make, S3_CreateS3Options, new_S3Options. solve_keeps. }
  assert (keeps (GcpFileSystemProducer_Make c)).
  { unfold GcpFileSystemProducer_Make, Gcp_CreateS3Options, RegisterIdentity, new_S3Options. cbv zeta. solve_keeps. }
  assert (keeps (AzureFileSystemProducer_Make c)).
  { unfold AzureFileSystemProducer_Make. cbv zeta. solve_keeps. }
  unfold CreateArrowFileSystem.
  destruct (StorageType_Map (fc_storage_type c)), (CloudProviderType_Map (fc_cloud_provider c)); solve [assumption|solve_keeps].
Qed.

Lemma reachable_init_ok disk s : reachable disk s → init_ok s.
Proof.
  revert s. apply rtc_ind_r; [by split|]. intros s s' _ [c ?]. by apply keeps_create.
Qed.

(** One kind of S3 client per process.  From the start of the process, the
    first remote filesystem that is made initialises the AWS SDK with its HTTP
    client factory, and nothing that is made later changes it.  From then on the
    other kind of producer, Google after S3 or S3 after Google, refuses every
    configuration as invalid, while the first kind still initialises. *)
Theorem one_cloud_per_process (disk : D) s c :
  reachable disk s →
  (aws_initialize_flag (pr_aws s) = true → pr_aws (CreateArrowFileSystem c s).1 = pr_aws s) ∧
  (pr_s3_init s = Some None →
    (InitS3 c s).2 = Ok tt ∧ (GcpFileSystemProducer_Make c s).2 = Err status_Invalid) ∧
  (pr_gcp_init s = Some None →
    (InitS3Compat c s).2 = Ok tt ∧ (S3FileSystemProducer_Make c s).2 = Err status_Invalid).
Proof.
  intros Hs%reachable_init_ok. split_and!.
  - by apply keeps_create.
  - intros Hi. destruct (InitS3_spec c s Hs) as (_ & _ & H3). destruct (InitS3Compat_spec c s Hs) as (_ & _ & H4).
    pose proof (io_owner s Hs) as Ho. rewrite Hi in *. split.
    + destruct (pr_gcp_init s) as [[e|]|]; [apply H3|done|apply H3].
    + unfold GcpFileSystemProducer_Make, mbind, M_bind. by destruct (InitS3Compat c s) as [s1 r]; simpl in *; subst r.
  - intros Hi. destruct (InitS3_spec c s Hs) as (_ & _ & H3). destruct (InitS3Compat_spec c s Hs) as (_ & _ & H4).
    pose proof (io_owner s Hs) as Ho. rewrite Hi in *. split.
    + destruct (pr_s3_init s) as [[e|]|]; [apply H4|done|apply H4].
    + unfold S3FileSystemProducer_Make, mbind, M_bind. by destruct (InitS3 c s) as [s1 r]; simpl in *; subst r.
Qed.

End producers.

(** ** Evaluation *)

Module SampleCloud.

#[export] Instance disk : LocalDisk (gset string) := {|
  disk_exists p d := bool_decide (p ∈ d); disk_is_directory p d := bool_decide (p ∈ d);
  disk_create_directories p d := {[p]} ∪ d |}.

#[export] Instance env : CloudEnv := {|
  env_get _ := None; arrow_fs_initialize _ := Ok tt; aws_credentials _ := ("id", "secret", "token");
  s3_make _ := Ok tt; azure_make _ := Ok tt; path_absolute p := "/work/" +:+ p;
  local_root u := Ok ("local", drop_str 7 u) |}.

(** [scheme://host/path] on the default port. *)
#[export] Instance toy_uri : AwsUriParser := λ s,
  match split_scheme s with
  | Some (sch, rest) =>
      let '(host, path) := match split1 "/" rest with Some (h, p) => (h, String "/" p) | None => (rest, "/") end in
      mkAwsUri sch (if bool_decide (sch = "https") then 443 else 80) host path
  | None => mkAwsUri "http" 80 s "/"
  end.

(** A remote configuration, by provider, bucket, key, and role. *)
Definition remote (provider bucket key_id role log_level : string) : ArrowFileSystemConfig := {|
  fc_address := "Storage.Example.com"; fc_bucket_name := bucket; fc_access_key_id := key_id;
  fc_access_key_value := "secret"; fc_root_path := ""; fc_storage_type := "remote"; fc_cloud_provider := provider;
  fc_iam_endpoint := ""; fc_log_level := log_level; fc_region := "eu"; fc_use_ssl := true; fc_ssl_ca_cert := "";
  fc_use_iam := false; fc_use_virtual_host := false; fc_request_timeout_ms := 3000;
  fc_gcp_native_without_auth := false; fc_gcp_credential_json := ""; fc_use_custom_part_upload := true;
  fc_max_connections := 100; fc_multi_part_upload_size := DEFAULT_MULTIPART_UPLOAD_PART_SIZE;
  fc_role_arn := role; fc_session_name := ""; fc_external_id := ""; fc_gcp_target_service_account := "";
  fc_azure_client_id := ""; fc_azure_tenant_id := ""; fc_azure_credential_endpoint := "";
  fc_load_frequency := 900; fc_tls_min_version := "1.2"; fc_background_writes := true;
  fc_use_crc32c_checksum := false; fc_s3_crt_async_read := true; fc_lance_io_parallelism := 64;
  fc_iops_initial_rate := 2000; fc_iops_max_rate := 5000; fc_alias := "" |}.

Definition aws : ArrowFileSystemConfig := remote kCloudProviderAWS "bucket" "key" "" "warn".
Definition aws_logged : ArrowFileSystemConfig := set_alias "prod" (remote kCloudProviderAWS "bucket" "key" "" "debug").
Definition gcp (bucket : string) : ArrowFileSystemConfig := remote kCloudProviderGCP bucket "key" "" "warn".

Lemma cache_key_identifies_filesystem_witness :
  cache_key_parts aws = cache_key_parts aws_logged ∧
  (CreateArrowFileSystem aws (process_new ∅)).2 = (CreateArrowFileSystem aws_logged (process_new ∅)).2.
Proof.
  assert (cache_key_parts aws = cache_key_parts aws_logged) as Hk by reflexivity.
  assert (¬ role_ignored aws) as H1 by by intros [? _].
  assert (¬ role_ignored aws_logged) as H2 by by intros [? _].
  split; [exact Hk|].
  refine (proj2 (cache_key_identifies_filesystem aws aws_logged Hk H1 H2 (process_new ∅) (process_new ∅) _)).
  by repeat split.
Defined.

(** Two Azure accounts behind one cache key: when a role is set, which Azure does
    not use, the key leaves the account name out, and a filesystem of the first
    account is returned for the second one. *)
Definition account1 : ArrowFileSystemConfig := remote kCloudProviderAzure "bucket" "account1" "role" "warn".
Definition account2 : ArrowFileSystemConfig := remote kCloudProviderAzure "bucket" "account2" "role" "warn".

Theorem azure_role_mixes_accounts `{StdHash} :
  GetCacheKey account1 = GetCacheKey account2 ∧
  ∃ o1 o2, (CreateArrowFileSystem account1 (process_new ∅)).2 = Ok (mkFs "bucket" (AzureClient o1)) ∧
    (CreateArrowFileSystem account2 (process_new ∅)).2 = Ok (mkFs "bucket" (AzureClient o2)) ∧
    ao_account_name o1 ≠ ao_account_name o2.
Proof. split; [reflexivity|]. do 2 eexists. split; [reflexivity|]. split; [reflexivity|]. done. Qed.

(** Two Google buckets and a request to the first. *)
Definition gcp_process : Process (gset string) := (RegisterIdentity (gcp "data") (process_new ∅)).1.
Definition gcp_process2 : Process (gset string) := (RegisterIdentity (gcp "logs") gcp_process).1.
Definition request : AwsUri := mkAwsUri "https" 443 "storage.EXAMPLE.com" "/data/a/b.parquet".

Lemma requests_find_credentials_witness :
  RegisterIdentity (gcp "data") (process_new ∅) = (gcp_process, Ok tt) ∧
  for_each RegisterIdentity [gcp "logs"] gcp_process = (gcp_process2, Ok tt) ∧
  Lookup request (pr_registry gcp_process2) = Some (HmacProvider "key" "secret").
Proof.
  split; [vm_compute; reflexivity|]. split; [vm_compute; reflexivity|].
  refine (proj1 (requests_find_credentials (gcp "data") (HmacProvider "key" "secret") (process_new ∅) gcp_process
    gcp_process2 [gcp "logs"] request _ _ _ _ _ _ _) "a/b.parquet" _ _ _).
  all: try (vm_compute; reflexivity).
  apply Forall_cons. split; [by vm_compute|by apply Forall_nil].
Defined.

(** A bucket with a period in its name, and requests to it by path and by host:
    the second one finds no credentials. *)
Definition dotted_process : Process (gset string) :=
  (RegisterIdentity (gcp "logs.example") (process_new ∅)).1.
Definition dotted : Registry := pr_registry dotted_process.

Example dotted_bucket_missed :
  Lookup (mkAwsUri "https" 443 "storage.example.com" "/logs.example/a/b.parquet") dotted =
    Some (HmacProvider "key" "secret") ∧
  Lookup (mkAwsUri "https" 443 "logs.example.storage.example.com" "/a/b.parquet") dotted = None.
Proof. split; vm_compute; reflexivity. Qed.

(** A Google filesystem after an S3 filesystem. *)
Definition after_aws : Process (gset string) := (CreateArrowFileSystem aws (process_new ∅)).1.

Lemma one_cloud_per_process_witness :
  reachable ∅ after_aws ∧ pr_s3_init after_aws = Some None ∧
  (GcpFileSystemProducer_Make (gcp "data") after_aws).2 = Err status_Invalid.
Proof.
  assert (reachable ∅ after_aws) as Hr by (apply rtc_once; constructor).
  assert (pr_s3_init after_aws = Some None) as Hi by (vm_compute; reflexivity).
  split; [exact Hr|]. split; [exact Hi|].
  exact (proj2 (proj1 (proj2 (one_cloud_per_process ∅ after_aws (gcp "data") Hr)) Hi)).
Defined.

End SampleCloud.
