(* ===== verification/FsCache.v ===== *)
(** * The filesystem cache

    [FilesystemCache] of [filesystem/fs.cpp]: filesystems are shared between all
    users of the process, by the hash of their configuration.  A filesystem is a
    [shared_ptr], modelled by its location in a heap, so that sharing is visible.
    [get] holds one lock from the lookup to the insertion, and the other members
    those of the LRU cache, so that calls are atomic steps; a state is reachable
    by any sequence of them.

    The theorem: a user gets the filesystem that its configuration makes, unless
    hashes collide; a second call gets the same one; failures are not cached. *)

From S2P Require Import Prelude CppString Status Config LruCache StorageUri ColumnGroups Properties FsConfig FsProducers.

(** [LRUCache<std::string, ArrowFileSystemPtr>]. *)
Abbreviation FsLRU := (@LRUCache string nat _ _).

Record FsState (D : Type) := mkFsState {
  fss_cache : FsLRU;                         (* [cache_] *)
  fss_heap : list FsInstance;                (* the filesystems that were made *)
  fss_process : Process D;
}.
Arguments mkFsState {D} _ _ _.
Arguments fss_cache {D} _.
Arguments fss_heap {D} _.
Arguments fss_process {D} _.

Section cache.
Context {D : Type} `{LocalDisk D} `{CloudEnv} `{AwsUriParser}.
Context (trim_copy : string → string) `{UriParser} `{HashOrder} `{StdHash}.

#[local] Abbreviation F := (M (FsState D) Status).

Definition set_fs_cache (c : FsLRU) (s : FsState D) : FsState D := mkFsState c (fss_heap s) (fss_process s).
Definition set_fs_process (p : Process D) (s : FsState D) : FsState D := mkFsState (fss_cache s) (fss_heap s) p.

(** [FilesystemCache::getInstance]. *)
Definition FilesystemCache_new (disk : D) : FsState D := mkFsState (LRU_new 16) [] (process_new disk).

Definition on_process {A} (m : M (Process D) Status A) : F A := λ s,
  let '(p, r) := m (fss_process s) in (set_fs_process p s, r).

(** [std::make_shared]. *)
Definition new_fs (fs : FsInstance) : F nat := λ s,
  (mkFsState (fss_cache s) (fss_heap s ++ [fs]) (fss_process s), Ok (length (fss_heap s))).

(** [cache_.get] and [cache_.put]; the latter is defined, as is proved. *)
Definition cache_get (key : string) : F (option nat) := λ s,
  let '(c, r) := LruCache.get key (fss_cache s) in (set_fs_cache c s, Ok r).
Definition cache_put (key : string) (l : nat) : F unit := λ s,
  match LruCache.put key l (fss_cache s) with
  | Some c => (set_fs_cache c s, Ok tt)
  | None => (s, Ub)
  end.

Definition FilesystemCache_get (p : Properties) (path : string) : F nat :=
  config ← lift (resolve_config trim_copy p path);
  let cache_key := GetCacheKey config in
  cached_fs ← cache_get cache_key;
  match cached_fs with
  | Some fs => mret fs
  | None =>
      instance ← on_process (CreateArrowFileSystem config);
      fs ← new_fs instance;
      cache_put cache_key fs;;
      mret fs
  end.

Definition FilesystemCache_size (s : FsState D) : nat := lru_size (fss_cache s).
Definition FilesystemCache_remove (key : string) (s : FsState D) : FsState D :=
  set_fs_cache (LruCache.remove key (fss_cache s)) s.
Definition FilesystemCache_clean (s : FsState D) : FsState D := set_fs_cache (LruCache.clean (fss_cache s)) s.
Definition FilesystemCache_set_capacity (capacity : nat) : F unit := λ s,
  match LruCache.set_capacity capacity (fss_cache s) with
  | Some c => (set_fs_cache c s, Ok tt)
  | None => (s, Ub)
  end.

(** ** Sequences of calls *)

(** The states that calls lead to, with the configurations that were asked
    for. *)
Inductive reached (disk : D) : list ArrowFileSystemConfig → FsState D → Prop :=
  | reached_new : reached disk [] (FilesystemCache_new disk)
  | reached_get cs s p path c :
      reached disk cs s → resolve_config trim_copy p path = Ok c →
      reached disk (c :: cs) (FilesystemCache_get p path s).1
  | reached_refused cs s p path :
      reached disk cs s → (∀ c, resolve_config trim_copy p path ≠ Ok c) →
      reached disk cs (FilesystemCache_get p path s).1
  | reached_remove cs s key : reached disk cs s → reached disk cs (FilesystemCache_remove key s)
  | reached_clean cs s : reached disk cs s → reached disk cs (FilesystemCache_clean s)
  | reached_set_capacity cs s n : reached disk cs s → reached disk cs (FilesystemCache_set_capacity n s).1.

(** A filesystem that the configuration makes. *)
Definition makes (c : ArrowFileSystemConfig) (fs : FsInstance) : Prop :=
  ∃ s : Process D, (CreateArrowFileSystem c s).2 = Ok fs.

Lemma makes_same_key c c' fs :
  cache_key_parts c' = cache_key_parts c → ¬ role_ignored c' → ¬ role_ignored c → makes c' fs → makes c fs.
Proof.
  intros Hk Hn' Hn [s Hs]. exists s.
  by rewrite <- Hs, (proj2 (same_create c' c Hk Hn' Hn s s ltac:(reflexivity))).
Qed.

(** Every cached filesystem was made for a configuration with its key. *)
Record cache_ok (cs : list ArrowFileSystemConfig) (s : FsState D) : Prop := {
  co_lru : lru_ok (fss_cache s);
  co_made k l : cache_ (fss_cache s) !! k = Some l →
    ∃ c fs, c ∈ cs ∧ GetCacheKey c = k ∧ fss_heap s !! l = Some fs ∧ makes c fs;
}.

Lemma cache_get_spec key s :
  lru_ok (fss_cache s) →
  ∃ c, cache_get key s = (set_fs_cache c s, Ok (cache_ (fss_cache s) !! key)) ∧ lru_ok c ∧
    cache_ c = cache_ (fss_cache s) ∧ capacity_ c = capacity_ (fss_cache s).
Proof.
  intros Hok. destruct (get_ok key _ Hok) as (H1' & H2' & H3'). unfold cache_get.
  assert (capacity_ (LruCache.get key (fss_cache s)).1 = capacity_ (fss_cache s)) as Hcap.
  { unfold LruCache.get. by destruct (cache_ (fss_cache s) !! key). }
  destruct (LruCache.get key (fss_cache s)) as [c r]. simpl in *. subst r. by exists c.
Qed.

(** What [get] does once the configuration is resolved. *)
Lemma get_spec cs s p path c :
  cache_ok cs s → resolve_config trim_copy p path = Ok c →
  let k := GetCacheKey c in
  ∃ c1, lru_ok c1 ∧ cache_ c1 = cache_ (fss_cache s) ∧ capacity_ c1 = capacity_ (fss_cache s) ∧
  match cache_ (fss_cache s) !! k with
  | Some l => FilesystemCache_get p path s = (set_fs_cache c1 s, Ok l)
  | None =>
      let '(p', r) := CreateArrowFileSystem c (fss_process s) in
      match r with
      | Ok fs => ∃ c2, lru_ok c2 ∧ cache_ c2 ⊆ <[k := length (fss_heap s)]> (cache_ (fss_cache s)) ∧
          ((0 < capacity_ (fss_cache s))%nat → cache_ c2 !! k = Some (length (fss_heap s))) ∧
          FilesystemCache_get p path s = (mkFsState c2 (fss_heap s ++ [fs]) p', Ok (length (fss_heap s)))
      | Err e => FilesystemCache_get p path s = (set_fs_process p' (set_fs_cache c1 s), Err e)
      | Ub => FilesystemCache_get p path s = (set_fs_process p' (set_fs_cache c1 s), Ub)
      end
  end.
Proof.
  intros Hok Hc k. destruct (cache_get_spec k s (co_lru _ _ Hok)) as (c1 & Hg & Hok1 & Hcc & Hcap).
  exists c1. split_and!; [done..|]. unfold FilesystemCache_get, lift, mbind, M_bind. rewrite Hc. cbv zeta.
  change (GetCacheKey c) with k. rewrite Hg.
  destruct (cache_ (fss_cache s) !! k) as [l|] eqn:Hk; [reflexivity|]. unfold on_process. simpl.
  destruct (CreateArrowFileSystem c (fss_process s)) as [p' [fs|e|]]; [|reflexivity..].
  unfold new_fs, cache_put. simpl.
  destruct (put_ok k (length (fss_heap s)) c1 Hok1) as (c2 & Hp & Hok2 & Hsub). rewrite Hp. simpl.
  exists c2. split_and!; [done|by rewrite <- Hcc| |done].
  intros Hpos. destruct (put_found k (length (fss_heap s)) c1 Hok1) as (c2' & Hp' & Hf); [lia|].
  rewrite Hp in Hp'. by injection Hp' as ->.
Qed.

Lemma get_refused p path s :
  (∀ c, resolve_config trim_copy p path ≠ Ok c) → (FilesystemCache_get p path s).1 = s.
Proof.
  intros Hno. unfold FilesystemCache_get, lift, mbind, M_bind.
  destruct (resolve_config trim_copy p path) as [c|e|]; [by destruct (Hno c)|done..].
Qed.

Lemma cache_ok_shrink cs cs' s s' :
  cache_ok cs s → lru_ok (fss_cache s') → cache_ (fss_cache s') ⊆ cache_ (fss_cache s) →
  fss_heap s' = fss_heap s → cs ⊆ cs' → cache_ok cs' s'.
Proof.
  intros Hok Hl Hsub Hh Hcs. split; [done|]. intros k l Hk. eapply lookup_weaken in Hk; [|exact Hsub].
  destruct (co_made _ _ Hok k l Hk) as (c & fs & Hin & ? & ? & ?). exists c, fs. rewrite Hh. by split_and!; [apply Hcs|..].
Qed.

Lemma get_keeps_ok cs s p path c :
  cache_ok cs s → resolve_config trim_copy p path = Ok c → cache_ok (c :: cs) (FilesystemCache_get p path s).1.
Proof.
  intros Hok Hc. destruct (get_spec cs s p path c Hok Hc) as (c1 & Hok1 & Hcc & _ & Hg).
  assert (cs ⊆ c :: cs) as Hcs by set_solver.
  destruct (cache_ (fss_cache s) !! GetCacheKey c) as [l|] eqn:Hk.
  { rewrite Hg. eapply cache_ok_shrink; [exact Hok|done|simpl; by rewrite Hcc|done|done]. }
  destruct (CreateArrowFileSystem c (fss_process s)) as [p' [fs|e|]] eqn:Hcr.
  - destruct Hg as (c2 & Hok2 & Hsub & _ & ->). split; [done|]. simpl. intros k l Hl.
    eapply lookup_weaken in Hl; [|exact Hsub]. apply lookup_insert_Some in Hl as [[<- <-]|[Hne Hl]].
    + exists c, fs. split_and!; [set_solver|done|apply list_lookup_middle; lia|]. exists (fss_process s). by rewrite Hcr.
    + destruct (co_made _ _ Hok k l Hl) as (c' & fs' & Hin & ? & Hh & ?). exists c', fs'.
      split_and!; [set_solver|done|by apply lookup_app_l_Some|done].
  - rewrite Hg. eapply cache_ok_shrink; [exact Hok|done|simpl; by rewrite Hcc|done|done].
  - rewrite Hg. eapply cache_ok_shrink; [exact Hok|done|simpl; by rewrite Hcc|done|done].
Qed.

Lemma reached_ok disk cs s : reached disk cs s → cache_ok cs s.
Proof.
  induction 1 as [|cs s p path c _ IH Hc|cs s p path _ IH Hno|cs s key _ IH|cs s _ IH|cs s n _ IH].
  - split; [apply LRU_new_ok|]. intros k l Hl. simpl in Hl. by apply lookup_empty_Some in Hl.
  - by apply get_keeps_ok.
  - by rewrite get_refused.
  - destruct (remove_ok key _ (co_lru _ _ IH)) as [Hl Hsub]. by eapply cache_ok_shrink.
  - split; [apply (LRU_clean_ok (fss_cache s))|]. intros k l Hl. simpl in Hl. by apply lookup_empty_Some in Hl.
  - destruct (set_capacity_ok n _ (co_lru _ _ IH)) as (c & Hc & Hl & Hsub).
    unfold FilesystemCache_set_capacity. rewrite Hc. by eapply cache_ok_shrink.
Qed.

(** C26: The filesystem cache serves each user its own filesystem.  In every
    state that calls lead to, the cache holds at most as many filesystems as its
    capacity.  When a location resolves to a configuration and [get] returns, the
    filesystem returned is the one that this configuration makes, provided no
    configuration asked for before collides with it under the hash and none sets
    a role that its cloud ignores.  The next call for the location returns the
    same filesystem and makes no new one, unless the capacity is zero.  If making
    the filesystem fails, the error is returned and nothing is cached. *)
Theorem filesystem_cache_serves disk cs s p path c :
  reached disk cs s → resolve_config trim_copy p path = Ok c →
  (FilesystemCache_size s ≤ capacity_ (fss_cache s))%nat ∧
  match FilesystemCache_get p path s with
  | (s', Ok l) =>
      (∃ fs, fss_heap s' !! l = Some fs ∧
        ((∀ c', c' ∈ c :: cs → ¬ role_ignored c' ∧
          (GetCacheKey c' = GetCacheKey c → cache_key_parts c' = cache_key_parts c)) → makes c fs)) ∧
      ((0 < capacity_ (fss_cache s))%nat →
        (FilesystemCache_get p path s').2 = Ok l ∧ fss_heap (FilesystemCache_get p path s').1 = fss_heap s')
  | (s', Err e) => (CreateArrowFileSystem c (fss_process s)).2 = Err e ∧
      cache_ (fss_cache s') = cache_ (fss_cache s) ∧ fss_heap s' = fss_heap s
  | (_, Ub) => (CreateArrowFileSystem c (fss_process s)).2 = Ub
  end.
Proof.
  intros Hr Hc. pose proof (reached_ok _ _ _ Hr) as Hok. split.
  { destruct (co_lru _ _ Hok) as [Hnd Hdom Hb]. unfold FilesystemCache_size, lru_size. rewrite lru_wf_size; [done|by split]. }
  pose proof (get_keeps_ok cs s p path c Hok Hc) as Hok'.
  destruct (get_spec cs s p path c Hok Hc) as (c1 & Hok1 & Hcc & Hcap & Hg).
  (* a cached location is returned again *)
  assert (∀ s' l, cache_ok (c :: cs) s' → cache_ (fss_cache s') !! GetCacheKey c = Some l →
    (∃ fs, fss_heap s' !! l = Some fs ∧
        ((∀ c', c' ∈ c :: cs → ¬ role_ignored c' ∧
          (GetCacheKey c' = GetCacheKey c → cache_key_parts c' = cache_key_parts c)) → makes c fs)) ∧
    (FilesystemCache_get p path s').2 = Ok l ∧ fss_heap (FilesystemCache_get p path s').1 = fss_heap s') as Hhit.
  { intros s' l Hs' Hl. split.
    - destruct (co_made _ _ Hs' _ l Hl) as (c' & fs & Hin & Hk & Hh & Hm). exists fs. split; [done|].
      intros Hall. destruct (Hall c' Hin) as [Hn' Hp]. destruct (Hall c ltac:(set_solver)) as [Hn _].
      by eapply makes_same_key; [apply Hp| | |].
    - destruct (get_spec _ s' p path c Hs' Hc) as (c2 & _ & _ & _ & Hg2). rewrite Hl in Hg2. by rewrite Hg2. }
  destruct (cache_ (fss_cache s) !! GetCacheKey c) as [l|] eqn:Hk.
  { rewrite Hg in Hok' |- *. destruct (Hhit _ l Hok') as [Hfs Hag]; [simpl; by rewrite Hcc|]. by split. }
  destruct (CreateArrowFileSystem c (fss_process s)) as [p' [fs|e|]] eqn:Hcr; [|by rewrite Hg..].
  destruct Hg as (c2 & Hok2 & Hsub & Hfound & Hg). rewrite Hg in Hok' |- *. split.
  - exists fs. split; [simpl; apply list_lookup_middle; lia|]. intros _. exists (fss_process s). by rewrite Hcr.
  - intros Hpos. by apply Hhit; [|apply Hfound].
Qed.

End cache.

(** ** Evaluation *)

Module SampleFsCache.
Import SampleConfig SampleCloud.

Fixpoint text_hash (s : string) (h : Z) : Z :=
  match s with EmptyString => h | String a s' => text_hash s' (wrap_u64 (h * 31 + Z.of_N (Ascii.N_of_ascii a))) end.

#[export] Instance hash : StdHash := λ v,
  match v with
  | HString s => text_hash s 7
  | HBool b => if b then 1 else 0
  | HInt64 z | HUint32 z | HInt32 z => wrap_u64 z
  end.

#[export] Existing Instance ToyUri.parser.

Definition properties : Properties := set_texts texts.

(** The configurations of the default filesystem and of the alias [prod]. *)
Definition config_of (path : string) : ArrowFileSystemConfig :=
  match resolve_config id properties path with Ok c => c | _ => default_config end.

Lemma resolved path :
  (if resolve_config id properties path is Ok _ then true else false) = true →
  resolve_config id properties path = Ok (config_of path).
Proof. unfold config_of. by destruct (resolve_config id properties path). Qed.

Definition call (path : string) (s : FsState (gset string)) : FsState (gset string) :=
  (FilesystemCache_get id properties path s).1.

Definition state : FsState (gset string) := call "" (FilesystemCache_new ∅).

Lemma filesystem_cache_serves_witness :
  reached id ∅ [config_of ""] state ∧
  ∃ l fs, (FilesystemCache_get id properties location_text state).2 = Ok l ∧
    fss_heap (call location_text state) !! l = Some fs ∧
    makes (D := gset string) (config_of location_text) fs ∧
    (FilesystemCache_get id properties location_text (call location_text state)).2 = Ok l.
Proof.
  assert (resolve_config id properties "" = Ok (config_of "")) as H1 by (apply resolved; vm_compute; reflexivity).
  assert (resolve_config id properties location_text = Ok (config_of location_text)) as H2
    by (apply resolved; vm_compute; reflexivity).
  assert (reached id ∅ [config_of ""] state) as Hr by (apply reached_get; [constructor|exact H1]).
  split; [exact Hr|].
  destruct (filesystem_cache_serves id ∅ [config_of ""] state properties location_text (config_of location_text) Hr H2)
    as [_ Hs].
  unfold call. destruct (FilesystemCache_get id properties location_text state) as [s' r] eqn:Hg.
  assert (r = Ok 1%nat) as ->.
  { transitivity (FilesystemCache_get id properties location_text state).2; [by rewrite Hg|vm_compute; reflexivity]. }
  destruct Hs as [(fs & Hh & Hm) Ha]. exists 1%nat, fs. split; [reflexivity|]. split; [exact Hh|]. split.
  - apply Hm. intros c' Hc'.
    assert (Forall (λ c', fc_role_arn c' = "" ∧ (GetCacheKey c' = GetCacheKey (config_of location_text) →
      cache_key_parts c' = cache_key_parts (config_of location_text))) [config_of location_text; config_of ""]) as Hall.
    { repeat constructor; vm_compute; congruence. }
    rewrite Forall_forall in Hall. destruct (Hall c' Hc') as [Hrole Hk]. split; [|exact Hk].
    intros [Hne _]. by apply Hne.
  - apply Ha. vm_compute. lia.
Defined.

End SampleFsCache.
