(* ===== verification/PackedMetadata.v ===== *)
(** * Metadata of packed files

    [common/metadata.h/.cpp] and [common/constants.h]: the field ids of a
    schema and of the column groups of a packed file, the row groups of one
    parquet file, the text both are stored as in the key-value metadata of the
    parquet footer, and [PackedFileMetadata::Make], which reads it back.

    These functions report some errors as a returned [arrow::Status] and leave
    others as C++ exceptions ([std::out_of_range] of a bounds check,
    [std::stoll] on bad text, [std::runtime_error]); callers tell the two
    apart, so the error type does.  [arrow::KeyValueMetadata] is a parameter. *)

From Stdlib Require Import Ascii.
From S2P Require Import Prelude CppString Status.

(** How a call failed: a returned status, or an exception. *)
Inductive raised :=
  | Returned (st : Status)
  | Thrown.

#[global] Instance raised_eq_dec : EqDecision raised.
Proof. solve_decision. Defined.

(** ** Constants *)

Definition ARROW_FIELD_ID_KEY : string := "PARQUET:field_id".
Definition GROUP_DELIMITER : ascii := ";".
Definition COLUMN_DELIMITER : ascii := ",".
Definition GROUP_FIELD_ID_LIST_META_KEY : string := "group_field_id_list".
Definition STORAGE_VERSION_KEY : string := "storage_version".
Definition ROW_GROUP_META_KEY : string := "row_group_metadata".

(** ** [arrow::KeyValueMetadata] and [arrow::Schema] *)

(** The operations the code calls. *)
Class KeyValueMetadata := {
  kv : Type;
  kv_empty : kv;
  kv_Append : kv → string → string → kv;
  kv_Contains : kv → string → bool;
  kv_Get : kv → string → outcome Status string;
}.

(** The documented behaviour: keys may repeat, [Get] returns the first value
    of a key and an error status when there is none. *)
Class KvLaws `{KeyValueMetadata} := {
  kv_get_empty k : ∃ st, kv_Get kv_empty k = Err st;
  kv_get_first m k k' v v' : kv_Get m k' = Ok v' → kv_Get (kv_Append m k v) k' = Ok v';
  kv_get_new m k v st : kv_Get m k = Err st → kv_Get (kv_Append m k v) k = Ok v;
  kv_get_other m k k' v st : k ≠ k' → kv_Get m k' = Err st →
    ∃ st', kv_Get (kv_Append m k v) k' = Err st';
  kv_contains m k : kv_Contains m k = true ↔ ∃ v, kv_Get m k = Ok v;
}.

(** The accessors of [arrow::Field]; a type is named by its text. *)
Record Field `{KeyValueMetadata} := mkField {
  fd_name : string;
  fd_type : string;
  fd_nullable : bool;
  fd_metadata : option kv;
}.

Arguments mkField {_} _ _ _ _.

Definition Schema `{KeyValueMetadata} : Type := list Field.

(** ** [FieldIDList] *)

Abbreviation FieldID := Z.
Abbreviation FieldIDList := (list FieldID).

Definition FieldIDList_Add (l : FieldIDList) (field_id : FieldID) : FieldIDList :=
  l ++ [field_id].

(** [vector] access behind a bounds check; the index is a [size_t]. *)
Definition checked_get {A} (l : list A) (index : Z) : outcome raised A :=
  if Z.of_nat (length l) <=? index then Err Thrown
  else match l !! Z.to_nat index with Some a => Ok a | None => Err Thrown end.

Definition FieldIDList_Get (l : FieldIDList) (index : Z) : outcome raised FieldID :=
  checked_get l index.

Definition FieldIDList_ToString (l : FieldIDList) : string :=
  join_with "," (to_string <$> l).

Section field_ids.
Context `{KeyValueMetadata}.

Definition schema_field_id (f : Field) : outcome Status FieldID :=
  match fd_metadata f with
  | None => Err status_Invalid
  | Some metadata =>
      if negb (kv_Contains metadata ARROW_FIELD_ID_KEY) then Err status_Invalid
      else match kv_Get metadata ARROW_FIELD_ID_KEY with
           | Ok field => match stoll field with Some id => Ok id | None => Err status_Invalid end
           | Err _ | Ub => Ub          (* ValueOrDie *)
           end
  end.

(** [FieldIDList::Make]. *)
Definition FieldIDList_Make (schema : Schema) : outcome Status FieldIDList :=
  fold_out (λ ids f, id ← schema_field_id f; Ok (FieldIDList_Add ids id)) schema [].
End field_ids.

(** ** [GroupFieldIDList] *)

Abbreviation GroupFieldIDList := (list FieldIDList).

(** The three constructors; the first throws on a negative size. *)
Definition GroupFieldIDList_of_size (size : Z) : outcome raised GroupFieldIDList :=
  if size <? 0 then Err Thrown else Ok (replicate (Z.to_nat size) []).

Definition GroupFieldIDList_of_ints (l : list (list Z)) : GroupFieldIDList :=
  (λ group, foldl FieldIDList_Add [] group) <$> l.

Definition AddFieldIDList (l : GroupFieldIDList) (field_ids : FieldIDList) : GroupFieldIDList :=
  l ++ [field_ids].

(** [GroupFieldIDList::Make]: column indices to field ids; an [int] index is
    converted to [size_t] before the bounds check. *)
Definition GroupFieldIDList_Make (column_groups : list (list Z)) (field_id_list : FieldIDList) :
    outcome raised GroupFieldIDList :=
  fold_out (λ l group_index,
    field_ids ← fold_out (λ ids i,
      id ← FieldIDList_Get field_id_list (wrap_u64 i); Ok (FieldIDList_Add ids id))
      group_index [];
    Ok (AddFieldIDList l field_ids)) column_groups [].

Definition GetFieldIDList (l : GroupFieldIDList) (index : Z) : outcome raised FieldIDList :=
  checked_get l index.

Definition num_groups (l : GroupFieldIDList) : Z := Z.of_nat (length l).

Definition GroupFieldIDList_Serialize (l : GroupFieldIDList) : string :=
  join_with GROUP_DELIMITER ((λ g, join_with COLUMN_DELIMITER (to_string <$> g)) <$> l).

(** The inner loop of [Deserialize]: the ids between the column delimiters,
    empty ones skipped. *)
Definition parse_group (group : string) : outcome raised FieldIDList :=
  fold_out (λ ids field_id,
    if is_empty field_id then Ok ids
    else match stoll field_id with
         | Some id => Ok (FieldIDList_Add ids id)
         | None => Err Thrown
         end) (split_on COLUMN_DELIMITER group) [].

(** [GroupFieldIDList::Deserialize]: groups without an id are dropped. *)
Definition GroupFieldIDList_Deserialize (input : string) : outcome raised GroupFieldIDList :=
  fold_out (λ l group,
    field_id_list ← parse_group group;
    Ok (if bool_decide (field_id_list = []) then l else AddFieldIDList l field_id_list))
    (split_on GROUP_DELIMITER input) [].

(** ** [RowGroupMetadata] and [RowGroupMetadataVector] *)

Record RowGroupMetadata := mkRowGroup {
  rg_memory_size : Z;   (* size_t *)
  rg_row_num : Z;       (* int64_t *)
  rg_row_offset : Z;    (* int64_t *)
}.

#[global] Instance RowGroupMetadata_eq_dec : EqDecision RowGroupMetadata.
Proof. solve_decision. Defined.

Definition RowGroupMetadata_ToString (m : RowGroupMetadata) : string :=
  "memory_size=" +:+ to_string (rg_memory_size m) +:+ "," +:+
  "row_num=" +:+ to_string (rg_row_num m) +:+ "," +:+
  "row_offset=" +:+ to_string (rg_row_offset m).

Definition RowGroupMetadata_Serialize (m : RowGroupMetadata) : string :=
  join_with "|" [to_string (rg_memory_size m); to_string (rg_row_num m);
                 to_string (rg_row_offset m)].

Definition RowGroupMetadata_Deserialize (input : string) : outcome raised RowGroupMetadata :=
  match getline_all "|" input with
  | [t0; t1; t2] =>
      match stoull t0, stoll t1, stoll t2 with
      | Some ms, Some rn, Some ro => Ok (mkRowGroup ms rn ro)
      | _, _, _ => Err Thrown
      end
  | _ => Err Thrown
  end.

Abbreviation RowGroupMetadataVector := (list RowGroupMetadata).

Definition RowGroups_Add (v : RowGroupMetadataVector) (m : RowGroupMetadata) :
    RowGroupMetadataVector := v ++ [m].

Definition RowGroups_Get (v : RowGroupMetadataVector) (index : Z) :
    outcome raised RowGroupMetadata := checked_get v index.

Definition RowGroups_size (v : RowGroupMetadataVector) : Z := Z.of_nat (length v).

(** Both totals are [size_t] sums; a row count is converted to [size_t]. *)
Definition RowGroups_row_num (v : RowGroupMetadataVector) : Z :=
  foldl (λ size m, wrap_u64 (size + wrap_u64 (rg_row_num m))) 0 v.

Definition RowGroups_memory_size (v : RowGroupMetadataVector) : Z :=
  foldl (λ size m, wrap_u64 (size + rg_memory_size m)) 0 v.

Definition RowGroups_ToString (v : RowGroupMetadataVector) : string :=
  join_with "," (RowGroupMetadata_ToString <$> v).

Definition RowGroups_Serialize (v : RowGroupMetadataVector) : string :=
  join_with GROUP_DELIMITER (RowGroupMetadata_Serialize <$> v).

Definition RowGroups_Deserialize (input : string) : outcome raised RowGroupMetadataVector :=
  fold_out (λ v token,
    if is_empty token then Ok v
    else m ← RowGroupMetadata_Deserialize token; Ok (RowGroups_Add v m))
    (getline_all GROUP_DELIMITER input) [].

(** ** [PackedFileMetadata] *)

Record ColumnOffset := mkColumnOffset {
  path_index : Z;    (* int *)
  col_index : Z;     (* int *)
}.

#[global] Instance ColumnOffset_eq_dec : EqDecision ColumnOffset.
Proof. solve_decision. Defined.

Definition ColumnOffset_ToString (o : ColumnOffset) : string :=
  "path_index: " +:+ to_string (path_index o) +:+ ", col_index: " +:+ to_string (col_index o).

(** What the code reads of [parquet::FileMetaData]. *)
Record FileMetaData `{KeyValueMetadata} := mkFileMetaData {
  key_value_metadata : option kv;
  fm_num_row_groups : Z;
}.

Arguments mkFileMetaData {_} _ _.

Record PackedFileMetadata `{KeyValueMetadata} := mkPackedFileMetadata {
  parquet_metadata_ : FileMetaData;
  row_group_metadata_ : RowGroupMetadataVector;
  field_id_mapping_ : gmap FieldID ColumnOffset;
  group_field_id_list_ : GroupFieldIDList;
  storage_version_ : string;
}.

Arguments mkPackedFileMetadata {_} _ _ _ _ _.

(** The double loop that fills [field_id_mapping]: a later occurrence of a
    field id replaces an earlier one. *)
Definition map_group (path : nat) (field_ids : FieldIDList) (m : gmap FieldID ColumnOffset) :
    gmap FieldID ColumnOffset :=
  foldl (λ m '(col, id),
    <[id := mkColumnOffset (wrap_i32 (Z.of_nat path)) (wrap_i32 (Z.of_nat col))]> m) m
    (imap pair field_ids).

Definition make_field_id_mapping (group_fields : GroupFieldIDList) : gmap FieldID ColumnOffset :=
  foldl (λ m '(path, field_ids), map_group path field_ids m) ∅ (imap pair group_fields).

Section file_metadata.
Context `{KeyValueMetadata}.

(** A key that must be there: its absence is an [Invalid] status. *)
Definition require_key (m : kv) (key : string) : outcome raised string :=
  match kv_Get m key with
  | Ok v => Ok v
  | Err _ => Err (Returned status_Invalid)
  | Ub => Ub
  end.

Definition PackedFileMetadata_Make (metadata : FileMetaData) : outcome raised PackedFileMetadata :=
  match key_value_metadata metadata with
  | None => Err (Returned status_Invalid)
  | Some m =>
      row_group_meta ← require_key m ROW_GROUP_META_KEY;
      row_group_metadata ← RowGroups_Deserialize row_group_meta;
      storage_version ← require_key m STORAGE_VERSION_KEY;
      group_field_id_list_meta ← require_key m GROUP_FIELD_ID_LIST_META_KEY;
      group_fields ← GroupFieldIDList_Deserialize group_field_id_list_meta;
      Ok (mkPackedFileMetadata metadata row_group_metadata (make_field_id_mapping group_fields)
            group_fields storage_version)
  end.

Definition GetRowGroupMetadata (p : PackedFileMetadata) (index : Z) :
    outcome raised RowGroupMetadata :=
  RowGroups_Get (row_group_metadata_ p) (wrap_u64 index).

Definition num_row_groups (p : PackedFileMetadata) : Z :=
  wrap_i32 (RowGroups_size (row_group_metadata_ p)).

Definition total_memory_size (p : PackedFileMetadata) : Z :=
  RowGroups_memory_size (row_group_metadata_ p).
End file_metadata.

(** ** Lemmas: field ids *)

(** A field id that the text format can hold. *)
Definition field_id_ok (id : FieldID) : bool := in_int64 id.

Lemma delimiters_not_digits :
  is_digit GROUP_DELIMITER = false ∧ is_digit COLUMN_DELIMITER = false ∧ is_digit "|" = false.
Proof. done. Qed.

Lemma is_empty_spec s : is_empty s = false → s ≠ EmptyString.
Proof. by destruct s. Qed.

Lemma fold_ids ids acc :
  Forall (λ id, field_id_ok id = true) ids →
  fold_out (λ ids field_id,
    if is_empty field_id then Ok ids
    else match stoll field_id with
         | Some id => Ok (FieldIDList_Add ids id)
         | None => @Err raised _ Thrown
         end) (to_string <$> ids) acc = Ok (acc ++ ids).
Proof.
  intros Hids. revert acc. induction Hids as [|id ids Hid _ IH]; intros acc; simpl.
  - by rewrite app_nil_r.
  - rewrite to_string_nonempty, stoll_to_string by by apply in_int64_spec.
    rewrite bind_Ok, IH. unfold FieldIDList_Add. by rewrite <- app_assoc.
Qed.

Lemma parse_group_printed ids :
  Forall (λ id, field_id_ok id = true) ids →
  parse_group (join_with COLUMN_DELIMITER (to_string <$> ids)) = Ok ids.
Proof.
  intros Hids. unfold parse_group. destruct ids as [|id ids]; [done|].
  rewrite split_join; [by rewrite fold_ids|done|].
  apply Forall_fmap, Forall_true. intros z. by apply to_string_mem_char.
Qed.

(** Printed ids and column delimiters contain no group delimiter. *)
Lemma join_mem_char c d (l : list string) :
  c ≠ d → Forall (λ w, mem_char c w = false) l → mem_char c (join_with d l) = false.
Proof.
  intros Hcd. induction 1 as [|w l Hw _ IH]; [done|].
  destruct l as [|w' l]; [done|]. change (mem_char c (w +:+ String d (join_with d (w' :: l))) = false).
  rewrite mem_char_app, Hw.
  change (Ascii.eqb d c || mem_char c (join_with d (w' :: l)) = false).
  rewrite IH, orb_false_r. apply Ascii.eqb_neq. congruence.
Qed.

Lemma printed_group_free g :
  mem_char GROUP_DELIMITER (join_with COLUMN_DELIMITER (to_string <$> g)) = false.
Proof.
  apply join_mem_char; [done|]. apply Forall_fmap, Forall_true. intros z.
  by apply to_string_mem_char.
Qed.

Lemma fold_groups (gs acc : GroupFieldIDList) :
  Forall (Forall (λ id, field_id_ok id = true)) gs →
  fold_out (λ l group,
    field_id_list ← parse_group group;
    Ok (if bool_decide (field_id_list = []) then l else AddFieldIDList l field_id_list))
    ((λ g, join_with COLUMN_DELIMITER (to_string <$> g)) <$> gs) acc
  = Ok (acc ++ remove_if (λ g, bool_decide (g = [])) gs).
Proof.
  intros Hgs. revert acc. induction Hgs as [|g gs Hg _ IH]; intros acc; simpl.
  - by rewrite app_nil_r.
  - rewrite parse_group_printed by done. rewrite !bind_Ok, IH. unfold remove_if; simpl.
    destruct (bool_decide (g = [])); simpl; [done|]. unfold AddFieldIDList.
    by rewrite <- app_assoc.
Qed.

(** Reading back what was printed keeps the groups that have an id, in order. *)
Lemma group_ids_deserialize gs :
  Forall (Forall (λ id, field_id_ok id = true)) gs →
  GroupFieldIDList_Deserialize (GroupFieldIDList_Serialize gs)
  = Ok (remove_if (λ g, bool_decide (g = [])) gs).
Proof.
  intros Hgs. unfold GroupFieldIDList_Deserialize, GroupFieldIDList_Serialize.
  destruct gs as [|g gs]; [done|]. rewrite split_join; [by rewrite fold_groups|done|].
  apply Forall_fmap, Forall_true. intros. apply printed_group_free.
Qed.

(** Column indices in range are turned into their field ids. *)
Definition ids_of (l : FieldIDList) (idx : list Z) (ids : FieldIDList) : Prop :=
  Forall2 (λ c id, l !! Z.to_nat c = Some id) idx ids.

Lemma checked_get_Some {A} (l : list A) i a :
  0 ≤ i → l !! Z.to_nat i = Some a → checked_get l i = Ok a.
Proof.
  intros Hi Ha. unfold checked_get. apply lookup_lt_Some in Ha as Hlt.
  destruct (Z.leb_spec (Z.of_nat (length l)) i); [lia|]. by rewrite Ha.
Qed.

Lemma make_ids_spec l idx acc :
  Z.of_nat (length l) < UINT64_MOD → Forall (λ c, 0 ≤ c < Z.of_nat (length l)) idx →
  ∃ ids, fold_out (λ ids i, id ← FieldIDList_Get l (wrap_u64 i); Ok (FieldIDList_Add ids id)) idx acc
         = Ok (acc ++ ids) ∧ ids_of l idx ids.
Proof.
  intros Hlen Hidx. revert acc. induction Hidx as [|c idx Hc _ IH]; intros acc; cbn [fold_out].
  - exists []. rewrite app_nil_r. by split; [|constructor].
  - destruct (lookup_lt_is_Some_2 l (Z.to_nat c)) as [id Hid]; [lia|].
    rewrite wrap_u64_small by lia.
    assert (FieldIDList_Get l c = Ok id) as -> by (apply checked_get_Some; [lia|done]).
    rewrite !bind_Ok.
    destruct (IH (FieldIDList_Add acc id)) as (ids & -> & Hids). exists (id :: ids).
    unfold FieldIDList_Add. rewrite <- app_assoc. split; [done|]. by constructor.
Qed.

Lemma make_groups_spec l groups acc :
  Z.of_nat (length l) < UINT64_MOD →
  Forall (Forall (λ c, 0 ≤ c < Z.of_nat (length l))) groups →
  ∃ g, fold_out (λ gl group_index,
         field_ids ← fold_out (λ ids i,
           id ← FieldIDList_Get l (wrap_u64 i); Ok (FieldIDList_Add ids id)) group_index [];
         Ok (AddFieldIDList gl field_ids)) groups acc = Ok (acc ++ g) ∧
       Forall2 (ids_of l) groups g.
Proof.
  intros Hlen Hg. revert acc. induction Hg as [|idx groups Hidx _ IH]; intros acc; cbn [fold_out].
  - exists []. rewrite app_nil_r. by split; [|constructor].
  - destruct (make_ids_spec l idx [] Hlen Hidx) as (ids & -> & Hids). rewrite !bind_Ok, app_nil_l.
    destruct (IH (AddFieldIDList acc ids)) as (g & -> & Hg). exists (ids :: g).
    unfold AddFieldIDList. rewrite <- app_assoc. split; [done|]. by constructor.
Qed.

Lemma schema_ids_length `{KeyValueMetadata} (schema : Schema) acc l :
  fold_out (λ ids f, id ← schema_field_id f; Ok (FieldIDList_Add ids id)) schema acc = Ok l →
  length l = (length acc + length schema)%nat.
Proof.
  revert acc. induction schema as [|f schema IH]; intros acc; simpl.
  - intros [= ->]. lia.
  - intros (acc' & Hf & Hl)%bind_Ok_inv. apply bind_Ok_inv in Hf as (id & _ & [= <-]).
    rewrite (IH _ Hl). unfold FieldIDList_Add. rewrite length_app. simpl. lia.
Qed.

(** ** Lemmas: row groups *)

Definition row_group_ok (m : RowGroupMetadata) : bool :=
  in_uint64 (rg_memory_size m) && in_int64 (rg_row_num m) && in_int64 (rg_row_offset m).

Lemma row_group_deserialize m :
  row_group_ok m = true → RowGroupMetadata_Deserialize (RowGroupMetadata_Serialize m) = Ok m.
Proof.
  unfold row_group_ok. rewrite !andb_true_iff. intros [[Hm Hn] Ho].
  unfold RowGroupMetadata_Deserialize, RowGroupMetadata_Serialize. rewrite getline_join.
  - rewrite stoull_to_string by (unfold in_uint64 in Hm; lia).
    rewrite !stoll_to_string by by apply in_int64_spec. by destruct m.
  - repeat constructor; try (by apply to_string_mem_char);
      apply is_empty_spec, to_string_nonempty.
Qed.

Lemma row_group_text m :
  mem_char GROUP_DELIMITER (RowGroupMetadata_Serialize m) = false ∧
  is_empty (RowGroupMetadata_Serialize m) = false.
Proof.
  split.
  - apply join_mem_char; [done|]. repeat constructor; by apply to_string_mem_char.
  - unfold RowGroupMetadata_Serialize. simpl.
    pose proof (to_string_nonempty (rg_memory_size m)). by destruct (to_string _).
Qed.

Lemma fold_row_groups v acc :
  Forall (λ m, row_group_ok m = true) v →
  fold_out (λ v token,
    if is_empty token then Ok v
    else m ← RowGroupMetadata_Deserialize token; Ok (RowGroups_Add v m))
    (RowGroupMetadata_Serialize <$> v) acc = Ok (acc ++ v).
Proof.
  intros Hv. revert acc. induction Hv as [|m v Hm _ IH]; intros acc; simpl.
  - by rewrite app_nil_r.
  - rewrite (proj2 (row_group_text m)), row_group_deserialize by done.
    rewrite !bind_Ok, IH. unfold RowGroups_Add. by rewrite <- app_assoc.
Qed.

Lemma row_groups_deserialize v :
  Forall (λ m, row_group_ok m = true) v →
  RowGroups_Deserialize (RowGroups_Serialize v) = Ok v.
Proof.
  intros Hv. unfold RowGroups_Deserialize, RowGroups_Serialize.
  rewrite getline_join; [by rewrite fold_row_groups|].
  apply Forall_fmap, Forall_true. intros m; simpl. destruct (row_group_text m).
  split; [done|]. by apply is_empty_spec.
Qed.

(** ** Lemmas: the mapping of field ids *)

(** The mapping after a group keeps the entries of other ids and holds the
    position of each id of the group. *)
Lemma map_group_other path ids m id :
  id ∉ ids → map_group path ids m !! id = m !! id.
Proof.
  unfold map_group. induction ids as [|id' ids IH] using rev_ind; intros Hid; [done|].
  rewrite imap_app, foldl_app. simpl. rewrite lookup_insert_ne by set_solver.
  apply IH. set_solver.
Qed.

Lemma map_group_at path ids m col id :
  NoDup ids → ids !! col = Some id →
  map_group path ids m !! id
  = Some (mkColumnOffset (wrap_i32 (Z.of_nat path)) (wrap_i32 (Z.of_nat col))).
Proof.
  unfold map_group. induction ids as [|id' ids IH] using rev_ind; intros Hnd Hcol; [done|].
  apply NoDup_app in Hnd as (Hnd & Hdis & _).
  rewrite imap_app, foldl_app; simpl.
  apply lookup_app_Some in Hcol as [Hcol|[Hge Hcol]].
  - rewrite lookup_insert_ne; [by apply IH|].
    intros <-. apply list_elem_of_lookup_2 in Hcol. set_solver.
  - apply list_lookup_singleton_Some in Hcol as [Hz <-]. rewrite lookup_insert_eq.
    do 3 f_equal. lia.
Qed.

Lemma mapping_snoc gs ids :
  make_field_id_mapping (gs ++ [ids]) = map_group (length gs) ids (make_field_id_mapping gs).
Proof.
  unfold make_field_id_mapping. rewrite imap_app, foldl_app. simpl.
  by rewrite Nat.add_0_r.
Qed.

Lemma mapping_at gs path ids col id :
  NoDup (mjoin gs) → gs !! path = Some ids → ids !! col = Some id →
  make_field_id_mapping gs !! id
  = Some (mkColumnOffset (wrap_i32 (Z.of_nat path)) (wrap_i32 (Z.of_nat col))).
Proof.
  induction gs as [|g gs IH] using rev_ind; intros Hnd Hp Hc; [done|].
  rewrite mapping_snoc. rewrite join_app in Hnd.
  apply NoDup_app in Hnd as (Hnd & Hdis & Hg). simpl in Hg. rewrite app_nil_r in Hg.
  apply lookup_app_Some in Hp as [Hp|[Hge Hp]].
  - rewrite map_group_other; [by apply IH|]. intros Hin. apply (Hdis id).
    + apply list_elem_of_join. exists ids. split; eapply list_elem_of_lookup_2; eauto.
    + simpl. by rewrite app_nil_r.
  - apply list_lookup_singleton_Some in Hp as [Hz <-].
    rewrite (map_group_at _ _ _ col) by done. do 3 f_equal. lia.
Qed.

Lemma mapping_absent gs id : id ∉ mjoin gs → make_field_id_mapping gs !! id = None.
Proof.
  induction gs as [|g gs IH] using rev_ind; intros Hid; [done|].
  rewrite join_app in Hid. simpl in Hid. rewrite app_nil_r in Hid.
  rewrite mapping_snoc, map_group_other by set_solver. apply IH. set_solver.
Qed.

(** With no group empty, positions are bounded by the number of columns. *)
Lemma join_positions (gs : GroupFieldIDList) path ids col id :
  [] ∉ gs → gs !! path = Some ids → ids !! col = Some id →
  (path < length (mjoin gs) ∧ col < length (mjoin gs))%nat.
Proof.
  revert path; induction gs as [|g gs IH]; intros path Hne Hp Hc; [done|].
  change (mjoin (g :: gs)) with (g ++ mjoin gs). rewrite length_app.
  destruct path as [|path]; simpl in Hp.
  - simplify_eq. apply lookup_lt_Some in Hc. lia.
  - destruct g as [|x g]; [set_solver|]. simpl.
    destruct (IH path); [set_solver|done..|lia].
Qed.

(** ** Properties *)

(** Reading back the printed column groups gives the same groups exactly
    when every group has a column: a group without columns is dropped, which
    shifts the path index of every later group. *)
Theorem group_ids_roundtrip gs :
  Forall (Forall (λ id, field_id_ok id = true)) gs →
  GroupFieldIDList_Deserialize (GroupFieldIDList_Serialize gs) = Ok gs ↔ [] ∉ gs.
Proof.
  intros Hgs. rewrite group_ids_deserialize by done. split.
  - intros [= Heq] Hin. rewrite <- Heq in Hin. apply elem_of_remove_if in Hin as [_ Hb].
    by apply bool_decide_eq_false in Hb.
  - intros Hin. f_equal. apply remove_if_none. intros g Hg. apply bool_decide_eq_false.
    congruence.
Qed.

Section read_back.
Context `{KeyValueMetadata}.

(** A footer that holds printed row groups and printed groups is parsed. *)
Lemma packed_make_printed m n v gs version :
  kv_Get m ROW_GROUP_META_KEY = Ok (RowGroups_Serialize v) →
  kv_Get m STORAGE_VERSION_KEY = Ok version →
  kv_Get m GROUP_FIELD_ID_LIST_META_KEY = Ok (GroupFieldIDList_Serialize gs) →
  Forall (λ g, row_group_ok g = true) v →
  Forall (Forall (λ id, field_id_ok id = true)) gs → [] ∉ gs →
  PackedFileMetadata_Make (mkFileMetaData (Some m) n)
  = Ok (mkPackedFileMetadata (mkFileMetaData (Some m) n) v (make_field_id_mapping gs) gs version).
Proof.
  intros Hr Hs Hg Hv Hids Hne. unfold PackedFileMetadata_Make; simpl.
  unfold require_key. rewrite Hr, Hs, Hg, !bind_Ok, row_groups_deserialize, !bind_Ok by done.
  rewrite group_ids_deserialize by done. rewrite remove_if_none; [done|].
  intros g Hin. apply bool_decide_eq_false. congruence.
Qed.

(** Each id of the groups is mapped to its file and its column. *)
Lemma mapping_found gs path col ids id :
  [] ∉ gs → NoDup (mjoin gs) → Z.of_nat (length (mjoin gs)) ≤ INT32_MAX →
  gs !! path = Some ids → ids !! col = Some id →
  make_field_id_mapping gs !! id = Some (mkColumnOffset (Z.of_nat path) (Z.of_nat col)).
Proof.
  intros Hne Hnd Hlen Hp Hc. rewrite (mapping_at _ path ids col) by done.
  pose proof (join_positions gs path ids col id Hne Hp Hc).
  rewrite !wrap_i32_small; unfold INT32_MIN; try done; lia.
Qed.

(** A footer that holds the printed row groups and the printed column
    groups is read back: the row groups and the groups are those printed, a
    field id of the groups maps to its file and its column, and any other
    field id is absent. *)
Theorem packed_metadata_read_back m n v gs version :
  kv_Get m ROW_GROUP_META_KEY = Ok (RowGroups_Serialize v) →
  kv_Get m STORAGE_VERSION_KEY = Ok version →
  kv_Get m GROUP_FIELD_ID_LIST_META_KEY = Ok (GroupFieldIDList_Serialize gs) →
  Forall (λ g, row_group_ok g = true) v →
  Forall (Forall (λ id, field_id_ok id = true)) gs →
  [] ∉ gs → NoDup (mjoin gs) → Z.of_nat (length (mjoin gs)) ≤ INT32_MAX →
  ∃ p, PackedFileMetadata_Make (mkFileMetaData (Some m) n) = Ok p ∧
    row_group_metadata_ p = v ∧ group_field_id_list_ p = gs ∧ storage_version_ p = version ∧
    (∀ path col ids id, gs !! path = Some ids → ids !! col = Some id →
      field_id_mapping_ p !! id = Some (mkColumnOffset (Z.of_nat path) (Z.of_nat col))) ∧
    (∀ id, id ∉ mjoin gs → field_id_mapping_ p !! id = None).
Proof.
  intros Hr Hs Hg Hv Hids Hne Hnd Hlen. eexists.
  split; [by apply (packed_make_printed _ _ v gs version)|].
  split_and!; try done; simpl; [|apply mapping_absent]. intros. by eapply mapping_found.
Qed.
End read_back.

(** ** A concrete key-value store, and examples *)

Module KvList.
#[export] Instance kv_list : KeyValueMetadata := {
  kv := list (string * string);
  kv_empty := [];
  kv_Append m k v := m ++ [(k, v)];
  kv_Contains m k := existsb (λ e, bool_decide (e.1 = k)) m;
  kv_Get m k := match List.find (λ e, bool_decide (e.1 = k)) m with
                | Some e => Ok e.2
                | None => Err (mkStatus KeyError None)
                end;
}.

Lemma find_snoc {A} (p : A → bool) l x :
  List.find p (l ++ [x])
  = match List.find p l with Some a => Some a | None => if p x then Some x else None end.
Proof. induction l as [|y l IH]; simpl; [by destruct (p x)|]. by destruct (p y). Qed.

#[export] Instance kv_list_laws : KvLaws.
Proof.
  split.
  - by exists (mkStatus KeyError None).
  - intros m k k' v v'. simpl. rewrite find_snoc. by destruct (List.find _ m).
  - intros m k v st. simpl. rewrite find_snoc. destruct (List.find _ m); [done|].
    intros _. simpl. by rewrite bool_decide_eq_true_2.
  - intros m k k' v st Hk. simpl. rewrite find_snoc. destruct (List.find _ m); [done|].
    intros _. simpl. rewrite bool_decide_eq_false_2 by done. eauto.
  - intros m k. simpl. rewrite existsb_exists. split.
    + intros (e & Hin & He). destruct (List.find _ m) eqn:Hf; [eauto|].
      apply List.find_none with (x := e) in Hf; [congruence|done].
    + intros [v Hv]. destruct (List.find _ m) as [e|] eqn:Hf; [|done].
      apply List.find_some in Hf. eauto.
Qed.
End KvList.

Module MetadataSample.
Import KvList.

Definition groups : GroupFieldIDList := [[100; 102]; [101]].
Definition rgs : RowGroupMetadataVector := [mkRowGroup 1048576 100 0; mkRowGroup 77 5 100].
Definition footer : kv :=
  [(GROUP_FIELD_ID_LIST_META_KEY, GroupFieldIDList_Serialize groups);
   (ROW_GROUP_META_KEY, RowGroups_Serialize rgs); (STORAGE_VERSION_KEY, "1.0.0")].

Example footer_text :
  footer = [("group_field_id_list", "100,102;101");
            ("row_group_metadata", "1048576|100|0;77|5|100"); ("storage_version", "1.0.0")].
Proof. reflexivity. Qed.

Lemma group_ids_roundtrip_witness :
  GroupFieldIDList_Deserialize (GroupFieldIDList_Serialize groups) = Ok groups.
Proof.
  apply (group_ids_roundtrip groups); [repeat constructor|].
  apply (bool_decide_unpack _); vm_compute; exact I.
Defined.

(** The group without columns is lost and the next one takes its place. *)
Example empty_group_shifts :
  GroupFieldIDList_Deserialize (GroupFieldIDList_Serialize [[1]; []; [2]]) = Ok [[1]; [2]].
Proof. reflexivity. Qed.

Lemma packed_metadata_read_back_witness :
  ∃ p, PackedFileMetadata_Make (mkFileMetaData (Some footer) 2) = Ok p ∧
    row_group_metadata_ p = rgs ∧ field_id_mapping_ p !! 102 = Some (mkColumnOffset 0 1).
Proof.
  edestruct (packed_metadata_read_back footer 2 rgs groups "1.0.0")
    as (p & Hp & Hr & _ & _ & Hm & _);
    [reflexivity..|repeat constructor|repeat constructor| | | |].
  - apply (bool_decide_unpack _); vm_compute; exact I.
  - apply (bool_decide_unpack _); vm_compute; exact I.
  - vm_compute; discriminate.
  - exists p. split_and!; [done|done|]. by apply (Hm 0%nat 1%nat [100; 102]).
Defined.
End MetadataSample.
