(* ===== verification/ParquetWriter.v ===== *)
(** * The parquet file writer

    [format/parquet/parquet_writer.h/.cpp]: batches are cached, [Flush] cuts
    them into row groups of about [DEFAULT_MAX_ROW_GROUP_SIZE] bytes, keeps
    what does not fill one, and [Close] writes the rest and the footer
    metadata that [PackedMetadata] reads back.

    The parquet library and the output stream are parameters: [ParquetLib]
    holds the calls, [ParquetLaws] their documented effect on the row groups
    and the key-value metadata of the file being written.

    The theorems: no row is lost, duplicated or reordered; the row-group
    metadata tiles the rows; every row group of a flush is full and bounded;
    and the arithmetic on doubles is free of undefined behaviour when every
    row has at least one byte, while for smaller rows it is not. *)

From S2P Require Import Prelude CppString Status Config Paths ColumnGroups FileSystem ArrowData Double PackedMetadata.

(** ** The library *)

Class ParquetLib `{KeyValueMetadata} `{RecordBatches} (W : Type) := {
  NewBufferedRowGroup : M W Status unit;
  WriteRecordBatch : RecordBatch → M W Status unit;
  AddKeyValueMetadata : kv → M W Status unit;
  FileWriter_Close : M W Status unit;
  footer_bytes : M W Status Z;       (* metadata()->WriteTo a buffer, its size *)
  sink_Tell : M W Status Z;
  sink_Flush : M W Status unit;
  sink_Close : M W Status unit;
}.

(** The effect of the calls that succeed.  Row groups are not split by the
    library: the writer properties set no limit on their length. *)
Class ParquetLaws `{KeyValueMetadata} `{BatchLaws} (W : Type) `{!ParquetLib W} := {
  pq_groups : W → list (list row);
  pq_kv : W → option kv;
  new_group_spec w w' : NewBufferedRowGroup w = (w', Ok tt) →
    pq_groups w' = pq_groups w ++ [[]] ∧ pq_kv w' = pq_kv w;
  write_batch_spec b w w' gs g : WriteRecordBatch b w = (w', Ok tt) →
    pq_groups w = gs ++ [g] → pq_groups w' = gs ++ [g ++ rows b] ∧ pq_kv w' = pq_kv w;
  add_kv_spec m w w' : AddKeyValueMetadata m w = (w', Ok tt) → pq_kv w = None →
    pq_groups w' = pq_groups w ∧ pq_kv w' = Some m;
  close_spec w w' : FileWriter_Close w = (w', Ok tt) →
    pq_groups w' = pq_groups w ∧ pq_kv w' = pq_kv w;
  footer_spec w w' n : footer_bytes w = (w', Ok n) →
    pq_groups w' = pq_groups w ∧ pq_kv w' = pq_kv w;
  tell_spec w w' n : sink_Tell w = (w', Ok n) →
    pq_groups w' = pq_groups w ∧ pq_kv w' = pq_kv w;
  sink_flush_spec w w' : sink_Flush w = (w', Ok tt) →
    pq_groups w' = pq_groups w ∧ pq_kv w' = pq_kv w;
  sink_close_spec w w' : sink_Close w = (w', Ok tt) →
    pq_groups w' = pq_groups w ∧ pq_kv w' = pq_kv w;
  (* the library reports failures as statuses *)
  new_group_defined w w' : NewBufferedRowGroup w ≠ (w', Ub);
  write_batch_defined b w w' : WriteRecordBatch b w ≠ (w', Ub);
  add_kv_defined m w w' : AddKeyValueMetadata m w ≠ (w', Ub);
  close_defined w w' : FileWriter_Close w ≠ (w', Ub);
  footer_defined w w' : footer_bytes w ≠ (w', Ub);
  tell_defined w w' : sink_Tell w ≠ (w', Ub);
  sink_flush_defined w w' : sink_Flush w ≠ (w', Ub);
  sink_close_defined w w' : sink_Close w ≠ (w', Ub);
}.

(** ** Writer properties *)

(** [parquet::Compression::type], the members the code names. *)
Inductive Compression :=
  | UNCOMPRESSED | SNAPPY | GZIP | LZ4 | ZSTD | BROTLI | OtherCodec.

#[global] Instance Compression_eq_dec : EqDecision Compression.
Proof. solve_decision. Defined.

Definition convert_compression_type (compression : string) : Compression :=
  if bool_decide (compression = "uncompressed") then UNCOMPRESSED
  else if bool_decide (compression = "snappy") then SNAPPY
  else if bool_decide (compression = "gzip") then GZIP
  else if bool_decide (compression = "lz4") then LZ4
  else if bool_decide (compression = "zstd") then ZSTD
  else if bool_decide (compression = "brotli") then BROTLI
  else ZSTD.

(** The calls the code makes on [WriterProperties::Builder]. *)
Inductive BuilderCall :=
  | max_row_group_length (n : Z)
  | encryption_clone
  | compression (c : Compression)
  | compression_level (n : Z)
  | column_compression (name : string) (c : Compression)
  | column_default_level (name : string)
  | disable_statistics (name : string).

Class WriterProps := {
  WriterProperties : Type;
  has_encryption : WriterProperties → bool;          (* file_encryption_properties() *)
  default_compression : WriterProperties → Compression;
  builder_build : WriterProperties → list BuilderCall → WriterProperties;
}.

Section props.
Context `{KeyValueMetadata} `{WriterProps}.

(** The calls for one field of the schema, by its type. *)
Definition field_props (f : Field) : list BuilderCall :=
  if bool_decide (fd_type f = "fixed_size_binary") then
    [column_compression (fd_name f) UNCOMPRESSED; column_default_level (fd_name f);
     disable_statistics (fd_name f)]
  else if bool_decide (fd_type f = "binary") then [disable_statistics (fd_name f)]
  else [].

(** The body of the constructor of [ParquetFileWriter]. *)
Definition writer_props (schema : Schema) (props : WriterProperties) : WriterProperties :=
  builder_build props
    ([max_row_group_length INT64_MAX] ++
     (if has_encryption props then [encryption_clone] else []) ++
     (if bool_decide (default_compression props = UNCOMPRESSED)
      then [compression ZSTD; compression_level 3] else []) ++
     mjoin (field_props <$> schema)).
End props.

(** ** The state *)

Section writer.
Context `{KeyValueMetadata} `{RecordBatches} {W : Type} `{!ParquetLib W}.

(** [pw_writer] stands for [writer_] with its [sink_]. *)
Record ParquetFileWriter := mkPW {
  pw_file_path : string;
  pw_writer : option W;
  pw_kv_metadata : kv;
  pw_row_groups : RowGroupMetadataVector;
  pw_cached_batches : list RecordBatch;
  pw_cached_size : Z;
  pw_cached_batch_sizes : list Z;
  pw_closed : bool;
  pw_cached_tell : Z;
  pw_written_rows : Z;
}.

Definition PW (A : Type) : Type := M ParquetFileWriter Status A.

Definition set_writer (w : W) (s : ParquetFileWriter) : ParquetFileWriter :=
  mkPW (pw_file_path s) (Some w) (pw_kv_metadata s) (pw_row_groups s) (pw_cached_batches s)
    (pw_cached_size s) (pw_cached_batch_sizes s) (pw_closed s) (pw_cached_tell s)
    (pw_written_rows s).

Definition set_kv (m : kv) (s : ParquetFileWriter) : ParquetFileWriter :=
  mkPW (pw_file_path s) (pw_writer s) m (pw_row_groups s) (pw_cached_batches s)
    (pw_cached_size s) (pw_cached_batch_sizes s) (pw_closed s) (pw_cached_tell s)
    (pw_written_rows s).

Definition set_cache (bs : list RecordBatch) (size : Z) (sizes : list Z)
    (s : ParquetFileWriter) : ParquetFileWriter :=
  mkPW (pw_file_path s) (pw_writer s) (pw_kv_metadata s) (pw_row_groups s) bs size sizes
    (pw_closed s) (pw_cached_tell s) (pw_written_rows s).

Definition set_rows (v : RowGroupMetadataVector) (n : Z) (s : ParquetFileWriter) :
    ParquetFileWriter :=
  mkPW (pw_file_path s) (pw_writer s) (pw_kv_metadata s) v (pw_cached_batches s)
    (pw_cached_size s) (pw_cached_batch_sizes s) (pw_closed s) (pw_cached_tell s) n.

Definition set_closed (closed : bool) (tell : Z) (s : ParquetFileWriter) : ParquetFileWriter :=
  mkPW (pw_file_path s) (pw_writer s) (pw_kv_metadata s) (pw_row_groups s)
    (pw_cached_batches s) (pw_cached_size s) (pw_cached_batch_sizes s) closed tell
    (pw_written_rows s).

(** A call through [writer_] or [sink_]; a null pointer is undefined. *)
Definition on_writer {A} (m : M W Status A) : PW A := λ s,
  match pw_writer s with
  | Some w => let '(w', r) := m w in (set_writer w' s, r)
  | None => (s, Ub)
  end.

(** ** Write and Flush *)

Definition PW_Write (record : option RecordBatch) : PW unit :=
  match record with
  | None => mret tt
  | Some b =>
      modify (λ s,
        let batch_size := GetRecordBatchMemorySize b in
        set_cache (pw_cached_batches s ++ [b]) (wrap_u64 (pw_cached_size s + batch_size))
          (pw_cached_batch_sizes s ++ [batch_size]) s)
  end.

Fixpoint write_batches (batch : list RecordBatch) (n : Z) : PW Z :=
  match batch with
  | [] => mret n
  | b :: batch' =>
      on_writer (WriteRecordBatch b);;
      write_batches batch' (wrap_u64 (n + num_rows b))
  end.

Definition write_row_group (batch : list RecordBatch) (row_group_size : Z) : PW unit :=
  on_writer NewBufferedRowGroup;;
  n ← write_batches batch 0;
  modify (λ s,
    set_rows (RowGroups_Add (pw_row_groups s)
                (mkRowGroup row_group_size (wrap_i64 n) (pw_written_rows s)))
      (wrap_i64 (pw_written_rows s + n)) s).

(** The locals of [Flush]. *)
Record slicing := mkSlicing {
  sl_batches : list RecordBatch;   (* row_group_batches *)
  sl_sizes : list Z;               (* row_group_batch_sizes *)
  sl_size : Z;                     (* rg_size *)
}.

Definition no_slices : slicing := mkSlicing [] [] 0.

(** The row group is full: write it and start another. *)
Definition write_if_full (acc : slicing) : PW slicing :=
  if DEFAULT_MAX_ROW_GROUP_SIZE <=? sl_size acc then
    write_row_group (sl_batches acc) (sl_size acc);; mret no_slices
  else mret acc.

Definition remain_size (acc : slicing) : Z :=
  if sl_size acc <? DEFAULT_MAX_ROW_GROUP_SIZE
  then DEFAULT_MAX_ROW_GROUP_SIZE - sl_size acc else 0.

(** The [while (offset < total_rows)] loop on one batch.  Each iteration takes
    at least one row, so [total_rows] iterations are enough; a conversion of a
    [double] that does not fit is undefined. *)
Fixpoint slice_batch (fuel : nat) (batch : RecordBatch) (total_rows : Z) (avg : f64)
    (offset : Z) (acc : slicing) : PW slicing :=
  if offset <? total_rows then
    match fuel with
    | O => undefined
    | S fuel' =>
        acc ← write_if_full acc;
        match rows_that_fit (remain_size acc) avg with
        | None => undefined
        | Some max_rows =>
            let max_rows := if max_rows <=? 0 then 1 else max_rows in
            let slice_len := Z.min max_rows (total_rows - offset) in
            match slice_bytes avg slice_len with
            | None => undefined
            | Some slice_size =>
                slice_batch fuel' batch total_rows avg (offset + slice_len)
                  (mkSlicing (sl_batches acc ++ [batch_Slice batch offset slice_len])
                     (sl_sizes acc ++ [slice_size]) (wrap_u64 (sl_size acc + slice_size)))
            end
        end
    end
  else mret acc.

(** The loop over [cached_batches_] and [cached_batch_sizes_]. *)
Fixpoint slice_batches (batches : list RecordBatch) (sizes : list Z) (acc : slicing) :
    PW slicing :=
  match batches, sizes with
  | [], _ => mret acc
  | batch :: batches', batch_size :: sizes' =>
      acc ← slice_batch (Z.to_nat (num_rows batch)) batch (num_rows batch)
              (avg_row_size batch_size (num_rows batch)) 0 acc;
      slice_batches batches' sizes' acc
  | _ :: _, [] => undefined
  end.

Definition PW_Flush : PW unit :=
  s ← get_st;
  acc ← slice_batches (pw_cached_batches s) (pw_cached_batch_sizes s) no_slices;
  modify (set_cache (sl_batches acc) (sl_size acc) (sl_sizes acc)).

(** ** Metadata, Tell and Close *)

Definition PW_Tell : PW Z :=
  s ← get_st;
  if pw_closed s then mret (pw_cached_tell s)
  else pos ← on_writer sink_Tell; mret (wrap_u64 pos).

Definition PW_AppendKVMetadata (key value : string) : PW unit :=
  modify (λ s, set_kv (kv_Append (pw_kv_metadata s) key value) s).

Definition PW_AddUserMetadata (metadata : list (string * string)) : PW unit :=
  for_each (λ e, PW_AppendKVMetadata e.1 e.2) metadata.

(** The last row group: what the flush left over. *)
Definition write_rest : PW unit :=
  s ← get_st;
  match pw_cached_batches s with
  | [] => mret tt
  | bs => write_row_group bs (pw_cached_size s);; modify (set_cache [] 0 [])
  end.

Definition PW_Close : PW ColumnGroupFile :=
  s ← get_st;
  match pw_closed s, pw_writer s with
  | false, Some _ =>
      PW_Flush;;
      write_rest;;
      s ← get_st;
      PW_AppendKVMetadata ROW_GROUP_META_KEY (RowGroups_Serialize (pw_row_groups s));;
      PW_AppendKVMetadata STORAGE_VERSION_KEY "1.0.0";;
      s ← get_st;
      on_writer (AddKeyValueMetadata (pw_kv_metadata s));;
      on_writer FileWriter_Close;;
      pos ← on_writer sink_Tell;
      meta_size ← on_writer footer_bytes;
      modify (set_closed false (wrap_u64 pos));;
      on_writer sink_Flush;;
      file_size ← on_writer sink_Tell;
      on_writer sink_Close;;
      modify (set_closed true (wrap_u64 pos));;
      s ← get_st;
      mret (mkFile (pw_file_path s) 0 (pw_written_rows s)
        (<[kPropertyFileSize := to_string file_size]>
           {[kPropertyFooterSize := to_string (wrap_u64 (meta_size + 8))]}))
  | _, _ => fail status_Invalid
  end.
End writer.

Arguments ParquetFileWriter {_ _} W.
Arguments mkPW {_ _ W} _ _ _ _ _ _ _ _ _ _.

(** ** Opening a writer *)

(** [UploadSizable] (null for a filesystem without it) and
    [parquet::arrow::FileWriter::Open]. *)
Class WriterEnv `{KeyValueMetadata} `{WriterProps} (S : Type) `{FileSystem S} (W : Type) := {
  upload_sizable : bool;
  OpenOutputStreamWithUploadSize : string → Z → M S Status stream;
  FileWriter_Open : Schema → stream → WriterProperties → outcome Status W;
}.

Section opening.
Context `{KeyValueMetadata} `{RecordBatches} `{WriterProps} {S : Type} `{FileSystem S} {W : Type}
  `{!WriterEnv S W}.

(** Any failure of a call below becomes an [IOError] without detail. *)
Definition as_io_error {A} (m : M S Status A) : M S Status A := λ s,
  match m s with
  | (s', Err _) => (s', Err status_IOError)
  | r => r
  end.

(** The output stream, with the part size when the filesystem supports it. *)
Definition open_sink (file_path : string) (part_size : Z) : M S Status stream := λ s,
  if upload_sizable then
    match OpenOutputStreamWithUploadSize file_path part_size s with
    | (s', Err st) =>
        if decide (st_code st = NotImplemented) then OpenOutputStream file_path s'
        else (s', Err st)
    | r => r
    end
  else OpenOutputStream file_path s.

(** [ParquetFileWriter::Make] with [init]; the filesystem pointer is null when
    [has_fs] is false. *)
Definition PW_Make (has_fs : bool) (schema : Schema) (file_path : string) (part_size : Z)
    (props : WriterProperties) : M S Status (ParquetFileWriter W) :=
  if negb has_fs then fail status_Invalid
  else
    (if IsLocalFileSystem then as_io_error (CreateDir (Path.parent_path file_path)) else mret tt);;
    sink ← as_io_error (open_sink file_path part_size);
    w ← as_io_error (lift (FileWriter_Open schema sink (writer_props schema props)));
    mret (mkPW file_path (Some w) kv_empty [] [] 0 [] false 0 0).
End opening.

(** ** Correctness *)

Section correctness.
Context `{KeyValueMetadata} `{BatchLaws} {W : Type} `{!ParquetLib W} `{!ParquetLaws W}.

(** Bytes per row: at least one, at most [K]. *)
Variable K : Z.
Hypothesis HK : 1 ≤ K ≤ ROW_MAX.

Implicit Types (s : ParquetFileWriter W) (w : W) (acc : slicing).

(** Every call of the library succeeds. *)
Definition pq_works : Prop :=
  ∀ w : W,
    (∃ w', NewBufferedRowGroup w = (w', Ok tt)) ∧
    (∀ b, ∃ w', WriteRecordBatch b w = (w', Ok tt)) ∧
    (∀ m, ∃ w', AddKeyValueMetadata m w = (w', Ok tt)) ∧
    (∃ w', FileWriter_Close w = (w', Ok tt)) ∧
    (∃ w' n, footer_bytes w = (w', Ok n)) ∧ (∃ w' n, sink_Tell w = (w', Ok n)) ∧
    (∃ w', sink_Flush w = (w', Ok tt)) ∧ (∃ w', sink_Close w = (w', Ok tt)).

(** An error return means that some call of the library fails. *)
Definition lib_failed (_ : Status) (_ : ParquetFileWriter W) : Prop := ¬ pq_works.

(** The row-group metadata describes the row groups, which tile the rows from
    [off] on. *)
Fixpoint tiles (off : Z) (v : RowGroupMetadataVector) (gs : list (list row)) : Prop :=
  match v, gs with
  | [], [] => True
  | m :: v', g :: gs' =>
      rg_row_num m = Z.of_nat (length g) ∧ rg_row_offset m = off ∧
      tiles (off + Z.of_nat (length g)) v' gs'
  | _, _ => False
  end.

(** A row group that a flush writes. *)
Definition full_group (m : RowGroupMetadata) : Prop :=
  DEFAULT_MAX_ROW_GROUP_SIZE ≤ rg_memory_size m ≤ DEFAULT_MAX_ROW_GROUP_SIZE - 1 + K.

(** The part of the file that is written: the rows [done]. *)
Definition file_inv s (w : W) (done : list row) : Prop :=
  pw_writer s = Some w ∧ mjoin (pq_groups w) = done ∧
  pw_written_rows s = Z.of_nat (length done) ∧ tiles 0 (pw_row_groups s) (pq_groups w) ∧
  pq_kv w = None.

(** A batch whose accounted size gives between one and [K] bytes per row. *)
Definition slice_ok (b : RecordBatch) (size : Z) : Prop :=
  0 < num_rows b → num_rows b ≤ 2 ^ 30 ∧ num_rows b ≤ size ≤ K * num_rows b.

Definition batch_rows (bs : list RecordBatch) : list row := mjoin (rows <$> bs).

Definition acc_ok acc : Prop :=
  Forall2 slice_ok (sl_batches acc) (sl_sizes acc) ∧
  0 ≤ sl_size acc ≤ DEFAULT_MAX_ROW_GROUP_SIZE - 1 + K.

(** From [s0] the loop has reached [s] and [acc]: the rows written and the rows
    kept are together [all]. *)
Definition sliced (s0 : ParquetFileWriter W) (all : list row) acc s : Prop :=
  ∃ w v n done, s = set_rows v n (set_writer w s0) ∧ file_inv s w done ∧ acc_ok acc ∧
    done ++ batch_rows (sl_batches acc) = all ∧ Forall full_group v.

(** *** Lemmas *)

Lemma tiles_snoc off v gs m g :
  tiles off v gs → rg_row_num m = Z.of_nat (length g) →
  rg_row_offset m = off + Z.of_nat (length (mjoin gs)) → tiles off (v ++ [m]) (gs ++ [g]).
Proof.
  revert off gs; induction v as [|m' v IH]; intros off [|g' gs]; simpl; try done.
  - intros _ Hn Ho. split_and!; [done|lia|done].
  - intros (Hn' & Ho' & Ht) Hn Ho. split_and!; [done..|]. apply IH; [done..|].
    rewrite length_app in Ho. lia.
Qed.

Lemma batch_rows_app bs1 bs2 : batch_rows (bs1 ++ bs2) = batch_rows bs1 ++ batch_rows bs2.
Proof. unfold batch_rows. by rewrite fmap_app, join_app. Qed.

Lemma batch_rows_one b : batch_rows [b] = rows b.
Proof. unfold batch_rows; simpl. by rewrite app_nil_r. Qed.

Lemma wp_on_writer {A} (m : M W Status A) s w (Q : A → ParquetFileWriter W → Prop) R :
  pw_writer s = Some w → (∀ w', m w ≠ (w', Ub)) →
  (∀ w' a, m w = (w', Ok a) → Q a (set_writer w' s)) →
  (∀ w' e, m w = (w', Err e) → R e (set_writer w' s)) → wp (on_writer m) s Q R.
Proof.
  intros Hw Hub Hq Hr. unfold wp, on_writer. rewrite Hw.
  destruct (m w) as [w' [a|e|]]; eauto. by eapply Hub.
Qed.

Lemma wp_write_batches bs n s w gs g :
  pw_writer s = Some w → pq_groups w = gs ++ [g] →
  0 ≤ n → n + Z.of_nat (length (batch_rows bs)) < UINT64_MOD →
  wp (write_batches bs n) s
    (λ n' s', ∃ w', s' = set_writer w' s ∧ pq_groups w' = gs ++ [g ++ batch_rows bs] ∧
       pq_kv w' = pq_kv w ∧ n' = n + Z.of_nat (length (batch_rows bs))) lib_failed.
Proof.
  revert n s w g; induction bs as [|b bs IH]; intros n s w g Hw Hg Hn Hlim.
  - apply wp_ret. exists w. unfold batch_rows; simpl. rewrite app_nil_r.
    split_and!; [|done|done|lia]. destruct s; simpl in *. by subst.
  - change (b :: bs) with ([b] ++ bs) in Hlim. rewrite batch_rows_app, batch_rows_one, length_app in Hlim.
    cbn [write_batches]. apply wp_bind.
    apply (wp_on_writer _ _ w); [done|intros; apply write_batch_defined| |].
    2:{ intros w' e He Hworks. destruct (Hworks w) as (_ & Hwb & _). destruct (Hwb b). congruence. }
    intros w' [] Hb. destruct (write_batch_spec _ _ _ _ _ Hb Hg) as [Hg' Hkv].
    rewrite rows_num in *. rewrite wrap_u64_small by lia.
    eapply wp_mono; [apply (IH _ (set_writer w' s) w'); [done|exact Hg'|lia..]| |by intros].
    intros n' s' (w'' & -> & Hg'' & Hkv'' & ->). exists w''.
    change (b :: bs) with ([b] ++ bs). rewrite batch_rows_app, batch_rows_one, length_app.
    rewrite app_assoc. split_and!; [done|done|congruence|lia].
Qed.

Lemma wp_write_row_group bs size s w done :
  file_inv s w done → Z.of_nat (length done) + Z.of_nat (length (batch_rows bs)) ≤ INT64_MAX →
  wp (write_row_group bs size) s
    (λ _ s', ∃ w' n, let m := mkRowGroup size (Z.of_nat (length (batch_rows bs)))
                                (Z.of_nat (length done)) in
       s' = set_rows (pw_row_groups s ++ [m]) n (set_writer w' s) ∧
       file_inv s' w' (done ++ batch_rows bs)) lib_failed.
Proof.
  intros (Hw & Hd & Hn & Ht & Hkv) Hlim. unfold write_row_group. apply wp_bind.
  apply (wp_on_writer _ _ w); [done|intros; apply new_group_defined| |].
  2:{ intros w' e He Hworks. destruct (Hworks w) as [[? ?] _]. congruence. }
  intros w1 [] [Hg1 Hkv1]%new_group_spec. unfold INT64_MAX, UINT64_MOD in *.
  eapply wp_seq; [apply (wp_write_batches _ _ _ w1 (pq_groups w) []);
                    [done|done|lia|unfold UINT64_MOD; lia]|].
  intros n s' (w2 & -> & Hg2 & Hkv2 & ->). unfold wp, modify; simpl.
  rewrite Hn, !wrap_i64_small by (unfold INT64_MIN, INT64_MAX; lia).
  exists w2, (Z.of_nat (length done) + Z.of_nat (length (batch_rows bs))). split; [done|].
  split_and!; simpl; [done| |by rewrite length_app; lia| |congruence].
  - rewrite Hg2, join_app, Hd. simpl. by rewrite app_nil_r.
  - rewrite Hg2. apply tiles_snoc; [done..|]. simpl. by rewrite Hd.
Qed.

Lemma acc_ok_empty : acc_ok no_slices.
Proof. split; [constructor|]. simpl. unfold DEFAULT_MAX_ROW_GROUP_SIZE. lia. Qed.

Lemma wp_write_if_full s0 all acc s :
  sliced s0 all acc s → Z.of_nat (length all) ≤ INT64_MAX →
  wp (write_if_full acc) s
    (λ acc' s', sliced s0 all acc' s' ∧ sl_size acc' < DEFAULT_MAX_ROW_GROUP_SIZE) lib_failed.
Proof.
  intros (w & v & n & done & -> & Hf & Hacc & Hall & Hv) Hlim. unfold write_if_full.
  destruct (Z.leb_spec DEFAULT_MAX_ROW_GROUP_SIZE (sl_size acc)) as [Hfull|Hsmall].
  2:{ apply wp_ret. split; [|done]. exists w, v, n, done. done. }
  rewrite <- Hall, length_app in Hlim.
  eapply wp_seq; [apply (wp_write_row_group _ _ _ w done); [done|lia]|].
  intros _ s' (w' & n' & -> & Hf'). apply wp_ret.
  split; [|simpl; unfold DEFAULT_MAX_ROW_GROUP_SIZE; lia]. simpl.
  eexists w', _, n', _. split_and!; [reflexivity|exact Hf'|apply acc_ok_empty| |].
  - simpl. by rewrite app_nil_r.
  - simpl. apply Forall_app. split; [done|]. constructor; [|done]. split; simpl; [done|].
    apply Hacc.
Qed.

(** One slice keeps the accumulated size within bounds. *)
Lemma slice_step_ok acc b offset len bytes :
  acc_ok acc → sl_size acc < DEFAULT_MAX_ROW_GROUP_SIZE → 0 ≤ offset → 0 < len ≤ 2 ^ 30 →
  offset + len ≤ num_rows b → len ≤ bytes ≤ K * len →
  (bytes ≤ DEFAULT_MAX_ROW_GROUP_SIZE - sl_size acc ∨ bytes ≤ K) →
  acc_ok (mkSlicing (sl_batches acc ++ [batch_Slice b offset len]) (sl_sizes acc ++ [bytes])
            (wrap_u64 (sl_size acc + bytes))).
Proof.
  intros [Hf Hsz] Hsmall Ho Hl Hol Hb Hbytes.
  unfold DEFAULT_MAX_ROW_GROUP_SIZE, ROW_MAX in *. split; simpl.
  - apply Forall2_app; [done|]. constructor; [|done]. intros _.
    rewrite slice_num_rows by lia. lia.
  - rewrite wrap_u64_small by (unfold UINT64_MOD; lia). unfold DEFAULT_MAX_ROW_GROUP_SIZE. lia.
Qed.

Lemma drop_slice b offset len :
  0 ≤ offset → 0 ≤ len → offset + len ≤ num_rows b →
  drop (Z.to_nat offset) (rows b)
  = rows (batch_Slice b offset len) ++ drop (Z.to_nat (offset + len)) (rows b).
Proof.
  intros. rewrite slice_rows by done. rewrite Z2Nat.inj_add, <- drop_drop by done.
  symmetry. apply take_drop.
Qed.

Lemma wp_slice_batch fuel b avg s0 offset all acc s :
  sliced s0 all acc s → 0 ≤ offset ≤ num_rows b → num_rows b ≤ 2 ^ 30 → avg_ok K avg →
  (Z.to_nat (num_rows b - offset) ≤ fuel)%nat →
  Z.of_nat (length (all ++ drop (Z.to_nat offset) (rows b))) ≤ INT64_MAX →
  wp (slice_batch fuel b (num_rows b) avg offset acc) s
    (λ acc' s', sliced s0 (all ++ drop (Z.to_nat offset) (rows b)) acc' s') lib_failed.
Proof.
  revert offset all acc s.
  induction fuel as [|fuel IH]; intros offset all acc s Hs Ho Hb Havg Hfuel Hlim;
    cbn [slice_batch]; destruct (Z.ltb_spec offset (num_rows b)) as [Hlt|Hge]; try lia.
  all: try (apply wp_ret; rewrite drop_ge, app_nil_r by (rewrite rows_num in Hge; lia); done).
  eapply wp_seq; [apply (wp_write_if_full s0 all); [done|rewrite length_app in Hlim; lia]|].
  intros acc' s' [(w & v & n & done & Heq & Hf & Hacc & Hall & Hv) Hsmall].
  assert (remain_size acc' = DEFAULT_MAX_ROW_GROUP_SIZE - sl_size acc') as Hrem.
  { unfold remain_size. destruct (Z.ltb_spec (sl_size acc') DEFAULT_MAX_ROW_GROUP_SIZE); lia. }
  destruct (slice_arith K avg (remain_size acc') (num_rows b - offset))
    as (k & bytes & -> & Hbytes & Hlen & Hr & Hfit); [done|done| |lia|].
  { rewrite Hrem. destruct Hacc. unfold DEFAULT_MAX_ROW_GROUP_SIZE in *. lia. }
  cbv zeta. rewrite Hbytes. set (len := Z.min _ _) in *. rewrite Hrem in Hfit.
  rewrite (drop_slice b offset len) in Hlim |- * by lia. rewrite app_assoc in Hlim |- *.
  apply IH; [|lia|done|done|lia|done].
  exists w, v, n, done. split_and!; [done|done| | |done].
  - apply slice_step_ok; try done; lia.
  - simpl. by rewrite batch_rows_app, batch_rows_one, app_assoc, Hall.
Qed.

Lemma num_rows_nonneg b : 0 ≤ num_rows b.
Proof. rewrite rows_num. lia. Qed.

Lemma wp_slice_batches bs sizes s0 all acc s :
  sliced s0 all acc s → Forall2 slice_ok bs sizes →
  Z.of_nat (length (all ++ batch_rows bs)) ≤ INT64_MAX →
  wp (slice_batches bs sizes acc) s
    (λ acc' s', sliced s0 (all ++ batch_rows bs) acc' s') lib_failed.
Proof.
  intros Hs Hok. revert all acc s Hs.
  induction Hok as [|b size bs sizes Hb _ IH]; intros all acc s Hs Hlim; cbn [slice_batches].
  - apply wp_ret. unfold batch_rows; simpl. by rewrite app_nil_r.
  - change (b :: bs) with ([b] ++ bs) in Hlim |- *.
    rewrite batch_rows_app, batch_rows_one, app_assoc in Hlim |- *.
    eapply wp_seq; [|intros acc' s' Hs'; apply IH; [exact Hs'|exact Hlim]].
    pose proof (num_rows_nonneg b). destruct (decide (num_rows b = 0)) as [Hz|Hz].
    + rewrite Hz. simpl. apply wp_ret. rewrite rows_num in Hz.
      rewrite (nil_length_inv (rows b)), app_nil_r by lia. done.
    + rewrite !length_app in Hlim.
      apply (wp_slice_batch _ _ _ s0 0); [done|lia|apply Hb; lia| |lia|simpl; rewrite drop_0, length_app; lia].
      destruct Hb as [Hb1 Hb2]; [lia|]. apply avg_row_size_ok; lia.
Qed.

(** *** The invariant of an open writer

    The rows in the file followed by the rows in the cache are the rows that
    were given to [Write]. *)
Definition pw_inv s (input : list row) : Prop :=
  ∃ w done, file_inv s w done ∧ done ++ batch_rows (pw_cached_batches s) = input ∧
    Forall2 slice_ok (pw_cached_batches s) (pw_cached_batch_sizes s) ∧
    Forall full_group (pw_row_groups s) ∧ pw_closed s = false ∧
    Z.of_nat (length input) ≤ INT64_MAX.

Lemma pw_inv_init path w :
  pq_groups w = [] → pq_kv w = None → pw_inv (mkPW path (Some w) kv_empty [] [] 0 [] false 0 0) [].
Proof. intros Hg Hk. exists w, []. unfold file_inv; simpl. rewrite Hg. by split_and!. Qed.

Lemma wp_Write s input b :
  pw_inv s input → slice_ok b (GetRecordBatchMemorySize b) →
  Z.of_nat (length (input ++ rows b)) ≤ INT64_MAX →
  wp (PW_Write (Some b)) s (λ _ s', pw_inv s' (input ++ rows b)) lib_failed.
Proof.
  intros (w & done & Hf & Hall & Hok & Hv & Hc & _) Hb Hlim. exists w, done.
  split_and!; simpl; try done.
  - by rewrite batch_rows_app, batch_rows_one, app_assoc, Hall.
  - apply Forall2_app; [done|]. by constructor.
Qed.

Lemma wp_Flush s input :
  pw_inv s input →
  wp PW_Flush s
    (λ _ s', pw_inv s' input ∧ 0 ≤ pw_cached_size s' ≤ DEFAULT_MAX_ROW_GROUP_SIZE - 1 + K ∧
       pw_kv_metadata s' = pw_kv_metadata s ∧ pw_file_path s' = pw_file_path s) lib_failed.
Proof.
  intros (w & done & Hf & Hall & Hok & Hv & Hc & Hlim). unfold PW_Flush. apply wp_bind.
  unfold wp at 1, get_st. eapply wp_seq.
  - apply (wp_slice_batches _ _ s done); [|done|by rewrite Hall].
    exists w, (pw_row_groups s), (pw_written_rows s), done.
    split_and!; [|done|apply acc_ok_empty|simpl; by rewrite app_nil_r|done].
    destruct Hf as [Hw _]. destruct s; simpl in *. by subst.
  - intros acc s' (w' & v & n & done' & -> & Hf' & Hacc & Hall' & Hv'). unfold wp, modify; simpl.
    split_and!; [|by apply Hacc..|done|done]. exists w', done'. split_and!; simpl; try done.
    + by rewrite Hall', Hall.
    + apply Hacc.
Qed.

Lemma wp_AppendKV s input key value :
  pw_inv s input →
  wp (PW_AppendKVMetadata key value) s
    (λ _ s', pw_inv s' input ∧ pw_kv_metadata s' = kv_Append (pw_kv_metadata s) key value)
    lib_failed.
Proof. done. Qed.

(** Row groups of a closed file: all but the last are full, the last is
    bounded. *)
Definition closed_groups (v : RowGroupMetadataVector) : Prop :=
  Forall full_group v ∨ ∃ v' m, v = v' ++ [m] ∧ Forall full_group v' ∧
    0 ≤ rg_memory_size m ≤ DEFAULT_MAX_ROW_GROUP_SIZE - 1 + K.

(** A file that was written and closed: it holds [input] in row groups that
    [v] describes, and the footer holds [v] and the format version. *)
Definition closed_file s (f : ColumnGroupFile) (m0 : kv) (input : list row) : Prop :=
  ∃ w v, pw_writer s = Some w ∧ mjoin (pq_groups w) = input ∧ tiles 0 v (pq_groups w) ∧
    closed_groups v ∧ pw_closed s = true ∧
    pq_kv w = Some (kv_Append (kv_Append m0 ROW_GROUP_META_KEY (RowGroups_Serialize v))
                      STORAGE_VERSION_KEY "1.0.0") ∧
    cgf_path f = pw_file_path s ∧ start_index f = 0 ∧ end_index f = Z.of_nat (length input).

Lemma wp_write_rest s input :
  pw_inv s input → 0 ≤ pw_cached_size s ≤ DEFAULT_MAX_ROW_GROUP_SIZE - 1 + K →
  wp write_rest s
    (λ _ s', ∃ w, file_inv s' w input ∧ closed_groups (pw_row_groups s') ∧
       pw_closed s' = false ∧ pw_kv_metadata s' = pw_kv_metadata s ∧
       pw_file_path s' = pw_file_path s) lib_failed.
Proof.
  intros (w & done & Hf & Hall & Hok & Hv & Hc & Hlim) Hsz. unfold write_rest. apply wp_bind.
  unfold wp at 1, get_st. destruct (pw_cached_batches s) as [|b bs] eqn:Hcb.
  - apply wp_ret. exists w. unfold batch_rows in Hall; simpl in Hall. rewrite app_nil_r in Hall.
    subst. split_and!; try done. by left.
  - eapply wp_seq; [apply (wp_write_row_group (b :: bs) (pw_cached_size s) s w done); [done|]|].
    { rewrite <- Hall, length_app in Hlim. lia. }
    intros _ s' (w' & n & -> & Hf'). exists w'. rewrite Hall in Hf'. split_and!; simpl; try done.
    right. eexists _, _. split_and!; [reflexivity|done|simpl; lia..].
Qed.

(** A call that leaves the row groups and the metadata alone. *)
Lemma wp_quiet {A} (m : M W Status A) s w :
  pw_writer s = Some w → (∀ w', m w ≠ (w', Ub)) →
  (∀ w' a, m w = (w', Ok a) → pq_groups w' = pq_groups w ∧ pq_kv w' = pq_kv w) →
  (pq_works → ∃ w' a, m w = (w', Ok a)) →
  wp (on_writer m) s
    (λ _ s', ∃ w', s' = set_writer w' s ∧ pq_groups w' = pq_groups w ∧ pq_kv w' = pq_kv w)
    lib_failed.
Proof.
  intros Hw Hub Hq Hworks. apply (wp_on_writer _ _ w); [done|done| |].
  - intros w' a Hm. eexists. split; [done|]. by eapply Hq.
  - intros w' e Hm Hok. destruct (Hworks Hok) as (? & ? & ?). congruence.
Qed.

(** The calls of [Close] after the row groups are written. *)
Lemma wp_finish s w file (pos : Z) :
  pw_writer s = Some w →
  wp (on_writer sink_Flush;; file_size ← on_writer sink_Tell; on_writer sink_Close;;
      modify (set_closed true pos);; s ← get_st; mret (file s file_size)) s
    (λ f s', ∃ w' n, s' = set_closed true pos (set_writer w' s) ∧ pq_groups w' = pq_groups w ∧
       pq_kv w' = pq_kv w ∧ f = (file s' n : ColumnGroupFile)) lib_failed.
Proof.
  intros Hw. eapply wp_seq; [apply (wp_quiet _ _ w); [done|apply sink_flush_defined|..]|].
  { intros w' [] Hm. by apply sink_flush_spec. }
  { intros Hok. destruct (Hok w) as (_ & _ & _ & _ & _ & _ & [? ?] & _). eauto. }
  intros _ s' (w1 & -> & Hg1 & Hk1).
  eapply wp_seq; [apply (wp_quiet _ _ w1); [done|apply tell_defined|..]|].
  { intros w' n Hm. by eapply tell_spec. }
  { intros Hok. destruct (Hok w1) as (_ & _ & _ & _ & _ & (? & ? & ?) & _). eauto. }
  intros n s' (w2 & -> & Hg2 & Hk2).
  eapply wp_seq; [apply (wp_quiet _ _ w2); [done|apply sink_close_defined|..]|].
  { intros w' [] Hm. by apply sink_close_spec. }
  { intros Hok. destruct (Hok w2) as (_ & _ & _ & _ & _ & _ & _ & [? ?]). eauto. }
  intros _ s' (w3 & -> & Hg3 & Hk3). unfold wp; simpl. exists w3, n.
  split_and!; [done|congruence..|done].
Qed.

Lemma wp_Close s input :
  pw_inv s input →
  wp PW_Close s (λ f s', closed_file s' f (pw_kv_metadata s) input) lib_failed.
Proof.
  intros Hinv. pose proof Hinv as (w & done & (Hw & _) & _ & _ & _ & Hc & _). unfold PW_Close.
  apply wp_bind. unfold wp at 1, get_st. rewrite Hc, Hw.
  eapply wp_seq; [by apply wp_Flush|]. intros _ s1 (Hinv1 & Hsz1 & Hkv1 & Hp1).
  eapply wp_seq; [by apply (wp_write_rest _ input)|].
  intros _ s2 (w2 & (Hw2 & Hd2 & Hn2 & Ht2 & Hk2) & Hcl2 & Hc2 & Hkv2 & Hp2).
  apply wp_bind. unfold wp at 1. apply wp_bind. unfold wp at 1; simpl.
  apply wp_bind. unfold wp at 1; simpl. apply wp_bind. unfold wp at 1; simpl. apply wp_bind.
  apply (wp_on_writer _ _ w2); [done|intros; apply add_kv_defined| |].
  2:{ intros w' e He Hok. destruct (Hok w2) as (_ & _ & Ha & _).
      match type of He with AddKeyValueMetadata ?m _ = _ => destruct (Ha m) end. congruence. }
  intros w3 [] Hadd. destruct (add_kv_spec _ _ _ Hadd Hk2) as [Hg3 Hk3].
  eapply wp_seq; [apply (wp_quiet _ _ w3); [done|apply close_defined|..]|].
  { intros w' [] Hm. by apply close_spec. }
  { intros Hok. destruct (Hok w3) as (_ & _ & _ & [? ?] & _). eauto. }
  intros _ s4 (w4 & -> & Hg4 & Hk4).
  eapply wp_seq; [apply (wp_quiet _ _ w4); [done|apply tell_defined|..]|].
  { intros w' n Hm. by eapply tell_spec. }
  { intros Hok. destruct (Hok w4) as (_ & _ & _ & _ & _ & (? & ? & ?) & _). eauto. }
  intros pos s5 (w5 & -> & Hg5 & Hk5).
  eapply wp_seq; [apply (wp_quiet _ _ w5); [done|apply footer_defined|..]|].
  { intros w' n Hm. by eapply footer_spec. }
  { intros Hok. destruct (Hok w5) as (_ & _ & _ & _ & (? & ? & ?) & _). eauto. }
  intros ms s6 (w6 & -> & Hg6 & Hk6). apply wp_bind. unfold wp at 1; simpl.
  eapply wp_mono; [apply (wp_finish _ w6 (λ s file_size, mkFile (pw_file_path s) 0
      (pw_written_rows s) _)); done| |by intros].
  intros f s7 (w7 & n & -> & Hg7 & Hk7 & ->). exists w7, (pw_row_groups s2).
  assert (pq_groups w7 = pq_groups w2) as -> by congruence.
  split_and!; try done. simpl. congruence.
Qed.

(** *** The life of a writer *)

Inductive writer_op :=
  | OpWrite (record : option RecordBatch)
  | OpFlush
  | OpAppendKV (key value : string).

Definition run_op (o : writer_op) : M (ParquetFileWriter W) Status unit :=
  match o with
  | OpWrite r => PW_Write r
  | OpFlush => PW_Flush
  | OpAppendKV k v => PW_AppendKVMetadata k v
  end.

Definition op_rows (o : writer_op) : list row :=
  match o with OpWrite (Some b) => rows b | _ => [] end.

Definition op_kv (m : kv) (o : writer_op) : kv :=
  match o with OpAppendKV k v => kv_Append m k v | _ => m end.

Definition op_ok (o : writer_op) : Prop :=
  match o with OpWrite (Some b) => slice_ok b (GetRecordBatchMemorySize b) | _ => True end.

Lemma wp_run_op o s input :
  pw_inv s input → op_ok o → Z.of_nat (length (input ++ op_rows o)) ≤ INT64_MAX →
  wp (run_op o) s
    (λ _ s', pw_inv s' (input ++ op_rows o) ∧ pw_kv_metadata s' = op_kv (pw_kv_metadata s) o)
    lib_failed.
Proof.
  intros Hinv Hok Hlim. destruct o as [[b|]| |k v]; simpl in *; rewrite ?app_nil_r.
  - apply wp_and; [by apply wp_Write|done].
  - by split.
  - eapply wp_mono; [by apply wp_Flush|naive_solver|done].
  - by apply wp_AppendKV.
Qed.

Lemma wp_run_ops ops s input :
  pw_inv s input → Forall op_ok ops →
  Z.of_nat (length (input ++ mjoin (op_rows <$> ops))) ≤ INT64_MAX →
  wp (for_each run_op ops) s
    (λ _ s', pw_inv s' (input ++ mjoin (op_rows <$> ops)) ∧
             pw_kv_metadata s' = foldl op_kv (pw_kv_metadata s) ops) lib_failed.
Proof.
  intros Hinv Hok. revert s input Hinv.
  induction Hok as [|o ops Ho _ IH]; intros s input Hinv Hlim; cbn [for_each].
  - apply wp_ret. simpl. by rewrite app_nil_r.
  - rewrite fmap_cons in Hlim |- *.
    change (mjoin (op_rows o :: (op_rows <$> ops))) with (op_rows o ++ mjoin (op_rows <$> ops)) in *.
    rewrite app_assoc in Hlim |- *.
    eapply wp_seq; [apply wp_run_op; [done|done|rewrite length_app in Hlim; lia]|].
    intros _ s' [Hinv' Hkv]. eapply wp_mono; [by apply IH| |done].
    intros _ s'' [? ->]. by rewrite Hkv.
Qed.

(** C6: A parquet file is complete when its writer closes.  For any sequence
    of writes, flushes and metadata on a new writer, with between one and [K]
    bytes per row: nothing is undefined; closing returns an error only when a
    call of the library fails; and otherwise the row groups hold exactly the
    rows written, in order, the row-group metadata tiles them without gap or
    overlap, every row group but the last is full, none exceeds the limit by
    a row or more, and the footer and the returned file entry say so. *)
Theorem parquet_file_complete path w ops :
  pq_groups w = [] → pq_kv w = None → Forall op_ok ops →
  Z.of_nat (length (mjoin (op_rows <$> ops))) ≤ INT64_MAX →
  wp (for_each run_op ops;; PW_Close)
    (mkPW path (Some w) kv_empty [] [] 0 [] false 0 0)
    (λ f s', closed_file s' f (foldl op_kv kv_empty ops) (mjoin (op_rows <$> ops))) lib_failed.
Proof.
  intros Hg Hk Hok Hlim. eapply wp_seq.
  - apply (wp_run_ops ops _ []); [by apply pw_inv_init|done|done].
  - intros _ s' [Hinv Hkv]. simpl in Hkv. rewrite <- Hkv. by apply wp_Close.
Qed.
End correctness.

(** ** A writer in memory, and examples *)

Module MemParquet.
Import KvList RowBatch.

(** The row groups and the metadata of a file. *)
Definition file : Type := list (list (list Z)) * option (list (string * string)).

Definition extend (g : list (list Z)) (gs : list (list (list Z))) : list (list (list Z)) :=
  match last gs with
  | Some g0 => take (pred (length gs)) gs ++ [g0 ++ g]
  | None => gs
  end.

#[export] Instance mem_parquet : ParquetLib file := {
  NewBufferedRowGroup w := ((w.1 ++ [[]], w.2), Ok tt);
  WriteRecordBatch b w := ((extend (cells b) w.1, w.2), Ok tt);
  AddKeyValueMetadata m w := ((w.1, Some m), Ok tt);
  FileWriter_Close w := (w, Ok tt);
  footer_bytes w := (w, Ok 100);
  sink_Tell w := (w, Ok (Z.of_nat (length (mjoin w.1))));
  sink_Flush w := (w, Ok tt);
  sink_Close w := (w, Ok tt);
}.

Lemma extend_snoc g gs g0 : extend g (gs ++ [g0]) = gs ++ [g0 ++ g].
Proof.
  unfold extend. rewrite last_snoc, length_app, Nat.add_1_r. simpl.
  by rewrite take_app_length.
Qed.

#[export] Instance mem_parquet_laws : ParquetLaws file.
Proof.
  refine {| pq_groups := (fst : file → list (list row)); pq_kv := (snd : file → option kv) |};
    simpl; intros; simplify_eq; simpl; try done.
  match goal with H : _ = _ ++ [_] |- _ => rewrite H, extend_snoc end. done.
Defined.

Lemma mem_parquet_works : pq_works (W := file).
Proof. intros w. split_and!; eauto. Qed.

Definition fresh : ParquetFileWriter file :=
  mkPW "a.parquet" (Some ([], None)) kv_empty [] [] 0 [] false 0 0.

Definition batch1 : t := mkBatch [[1]; [2]; [3]] 1 24 0.
Definition batch2 : t := mkBatch [[4]; [5]] 1 16 10.
Definition ops : list writer_op :=
  [OpWrite (Some batch1); OpFlush; OpAppendKV "user" "x"; OpWrite None; OpWrite (Some batch2)].

Lemma parquet_file_complete_witness :
  ∃ s f, (for_each run_op ops;; PW_Close) fresh = (s, Ok f) ∧
    closed_file 8 s f (foldl op_kv kv_empty ops) [[1]; [2]; [3]; [4]; [5]].
Proof.
  pose proof (parquet_file_complete 8 ltac:(by unfold ROW_MAX) "a.parquet" ([], None) ops
    eq_refl eq_refl) as Hwp.
  eassert _ as Hok; [|specialize (Hwp Hok); clear Hok].
  { repeat constructor; simpl; vm_compute; discriminate. }
  specialize (Hwp ltac:(by vm_compute)).
  change (wp (for_each run_op ops;; PW_Close) fresh
    (λ f s', closed_file 8 s' f (foldl op_kv kv_empty ops) [[1]; [2]; [3]; [4]; [5]])
    lib_failed) in Hwp. unfold wp in Hwp.
  destruct ((for_each run_op ops;; PW_Close) fresh) as [s [f|e|]].
  - by exists s, f.
  - destruct Hwp. apply mem_parquet_works.
  - done.
Defined.

(** Rows of less than a byte make the second flush undefined: the slice
    that ends a row group is accounted with zero bytes, the next flush
    divides by that average and converts infinity to an integer (a defect of
    the code). *)
Theorem second_flush_undefined :
  let big := mkBatch [[1]] 1 1048575 0 in
  let bits := mkBatch [[0]; [1]; [0]; [1]; [0]; [1]; [0]; [1]; [0]] 1 2 10 in
  let s1 := ((PW_Write (Some big);; PW_Write (Some bits);; PW_Flush) fresh).1 in
  ((PW_Write (Some big);; PW_Write (Some bits);; PW_Flush) fresh).2 = Ok tt ∧
  pw_cached_batch_sizes s1 = [1048575; 0; 0; 0] ∧ (PW_Flush s1).2 = Ub.
Proof. vm_compute. done. Qed.
End MemParquet.
