(* ===== verification/PackedWriter.v ===== *)
(** * The packed writer

    [packed/column_group.h/.cpp], [packed/splitter/*.cpp] and
    [packed/writer.h/.cpp]: a record batch is split by column indices, each
    group is cached by its own [ParquetFileWriter], and a max-heap of the
    groups by memory chooses which to flush when the buffer is full.

    The theorems: after any sequence of writes each file holds the projection
    of every row, in order; the memory counter is the sum of the heap; the
    flush loop ends and leaves room; closing produces files whose footers
    [PackedMetadata] reads back to the positions of all columns. *)

From S2P Require Import Prelude CppString Status Config Paths ColumnGroups FileSystem ArrowData Double PackedMetadata ParquetWriter.

(** ** [packed::ColumnGroup] *)

Section column_group.
Context `{RecordBatches}.

Record PackedGroup := mkPackedGroup {
  group_id_ : Z;                        (* size_t *)
  batch_memory_usage_ : list Z;
  batches_ : list RecordBatch;
  memory_usage_ : Z;                    (* size_t *)
  origin_column_indices_ : list Z;
  total_rows_ : Z;                      (* int64_t *)
}.

Definition group_new (group_id : Z) (indices : list Z) : PackedGroup :=
  mkPackedGroup group_id [] [] 0 indices 0.

(** The accounting of one batch, shared by the constructor and
    [AddRecordBatch]. *)
Definition group_push (g : PackedGroup) (b : RecordBatch) : PackedGroup :=
  mkPackedGroup (group_id_ g) (batch_memory_usage_ g ++ [GetRecordBatchMemorySize b])
    (batches_ g ++ [b]) (wrap_u64 (memory_usage_ g + GetRecordBatchMemorySize b))
    (origin_column_indices_ g) (wrap_i64 (total_rows_ g + num_rows b)).

(** The constructor with a batch: a null batch gives an empty group. *)
Definition group_of_batch (group_id : Z) (indices : list Z) (batch : option RecordBatch) :
    PackedGroup :=
  match batch with
  | None => group_new group_id indices
  | Some b => group_push (group_new group_id indices) b
  end.

Definition AddRecordBatch (g : PackedGroup) (batch : option RecordBatch) :
    outcome Status PackedGroup :=
  match batch with
  | None => Err (MakeExtendError PackedInvalidArgs)
  | Some b => Ok (group_push g b)
  end.

(** [ColumnGroup::Merge]: a failed add is wrapped. *)
Definition Merge (g other : PackedGroup) : outcome Status PackedGroup :=
  fold_out (λ g b,
    match AddRecordBatch g (Some b) with
    | Err st => Err (WrapExtendError PackedUnexpected st)
    | r => r
    end) (batches_ other) g.

(** [batches_[index]]: out of range is undefined. *)
Definition GetRecordBatch (g : PackedGroup) (index : nat) : outcome Status RecordBatch :=
  deref (batches_ g !! index).

Definition GetRecordBatchNum (g : PackedGroup) : Z := wrap_i32 (Z.of_nat (length (batches_ g))).

Definition Clear (g : PackedGroup) : PackedGroup :=
  mkPackedGroup (group_id_ g) [] [] 0 (origin_column_indices_ g) 0.

(** ** Splitters *)

(** [IndicesBasedSplitter::Split]; [group_id] counts from [id]. *)
Fixpoint split_from (id : nat) (column_indices : list (list Z)) (record : RecordBatch) :
    outcome Status (list PackedGroup) :=
  match column_indices with
  | [] => Ok []
  | idx :: rest =>
      batch ← SelectColumns record idx;
      groups ← split_from (S id) rest record;
      Ok (group_of_batch (Z.of_nat id) idx (Some batch) :: groups)
  end.

Definition IndicesBasedSplitter_Split (column_indices : list (list Z)) (record : RecordBatch) :
    outcome Status (list PackedGroup) := split_from 0 column_indices record.

Definition SPLIT_THRESHOLD : Z := 1024.

(** Sizes and rows per column over all batches; a batch with more columns than
    the first one writes outside the vectors. *)
Definition column_totals (batches : list RecordBatch) (n : nat) : outcome Status (list (Z * Z)) :=
  fold_out (λ totals record,
    if decide (n < length (batch_columns record))%nat then Ub
    else Ok (imap (λ i t,
      match batch_columns record !! i with
      | Some column => (wrap_u64 (t.1 + GetArrowArrayMemorySize column),
                        wrap_i64 (t.2 + num_rows record))
      | None => t
      end) totals)) batches (replicate n (0, 0)).

(** The grouping loop: a column of large average size has a group of its own,
    the others are collected in groups of [max_group_size].  A column without
    rows divides by zero. *)
Fixpoint group_columns (i : nat) (totals : list (Z * Z)) (max_group_size : Z)
    (groups : list (list Z)) (small : list Z) : outcome Status (list (list Z)) :=
  match totals with
  | [] => Ok (groups ++ [small])
  | (size, nrows) :: rest =>
      if nrows =? 0 then Ub
      else
        let avg := size / wrap_u64 nrows in
        let '(groups, small) :=
          if max_group_size <=? Z.of_nat (length small) then (groups ++ [small], [])
          else (groups, small) in
        if SPLIT_THRESHOLD <=? avg then
          group_columns (S i) rest max_group_size (groups ++ [[Z.of_nat i]]) small
        else group_columns (S i) rest max_group_size groups (small ++ [Z.of_nat i])
  end.

(** One batch selected into the groups made so far. *)
Fixpoint add_to_groups (id : nat) (group_indices : list (list Z)) (record : RecordBatch)
    (column_groups : list PackedGroup) (n : nat) : outcome Status (list PackedGroup) :=
  match group_indices with
  | [] => Ok column_groups
  | idx :: rest =>
      batch ← SelectColumns record idx;
      column_groups ←
        (if decide (length column_groups < n)%nat then
           Ok (column_groups ++ [group_of_batch (Z.of_nat id) idx (Some batch)])
         else
           g ← deref (column_groups !! id);
           g' ← AddRecordBatch g (Some batch);
           Ok (<[id := g']> column_groups));
      add_to_groups (S id) rest record column_groups n
  end.

(** [SizeBasedSplitter::SplitRecordBatches]. *)
Definition SplitRecordBatches (max_group_size : Z) (batches : list RecordBatch) :
    outcome Status (list PackedGroup) :=
  match batches with
  | [] => Ok []
  | b0 :: _ =>
      totals ← column_totals batches (length (batch_columns b0));
      group_indices ← group_columns 0 totals max_group_size [] [];
      fold_out (λ groups record,
        add_to_groups 0 group_indices record groups (length group_indices)) batches []
  end.

Definition SizeBasedSplitter_Split (max_group_size : Z) (record : RecordBatch) :
    outcome Status (list PackedGroup) := SplitRecordBatches max_group_size [record].
End column_group.

(** ** The writer *)

Section packed_writer.
Context `{KeyValueMetadata} `{RecordBatches} {W : Type} `{!ParquetLib W}.

(** [std::pair<GroupId, size_t>] ordered by the second component. *)
Definition heap_entry : Type := Z * Z.
Definition heap_key (e : heap_entry) : Z := e.2.
Context `{!PriorityQueue heap_key}.

Record PackedWriter := mkPackedWriter {
  pk_group_field_ids : GroupFieldIDList;
  pk_buffer_size : Z;                   (* size_t *)
  pk_group_indices : list (list Z);
  pk_memory : Z;                        (* current_memory_usage_, size_t *)
  pk_closed : bool;
  pk_writers : list (ParquetFileWriter W);
  pk_heap : list heap_entry;            (* max_heap_ *)
  pk_user_metadata : list (string * string);
}.

Definition PKW (A : Type) : Type := M PackedWriter Status A.

Definition set_writers (ws : list (ParquetFileWriter W)) (s : PackedWriter) : PackedWriter :=
  mkPackedWriter (pk_group_field_ids s) (pk_buffer_size s) (pk_group_indices s) (pk_memory s)
    (pk_closed s) ws (pk_heap s) (pk_user_metadata s).

Definition set_heap (memory : Z) (heap : list heap_entry) (s : PackedWriter) : PackedWriter :=
  mkPackedWriter (pk_group_field_ids s) (pk_buffer_size s) (pk_group_indices s) memory
    (pk_closed s) (pk_writers s) heap (pk_user_metadata s).

(** A call on [group_writers_[i]]; an index out of range is undefined. *)
Definition on_group {A} (i : nat) (m : PW A) : PKW A := λ s,
  match pk_writers s !! i with
  | Some w => let '(w', r) := m w in (set_writers (<[i := w']> (pk_writers s)) s, r)
  | None => (s, Ub)
  end.

(** [WrapExtendError(PackedStorageIO, ..., status)] on failure. *)
Definition wrap_io {A} (m : PKW A) : PKW A := λ s,
  match m s with
  | (s', Err st) => (s', Err (WrapExtendError PackedStorageIO st))
  | r => r
  end.

(** [top], [pop], and the subtraction from the memory counter. *)
Definition pop_heap : PKW (option heap_entry) := λ s,
  match pop_top (pk_heap s) with
  | None => (s, Ok None)
  | Some (e, heap) => (set_heap (wrap_u64 (pk_memory s - e.2)) heap s, Ok (Some e))
  end.

(** [while (current_memory_usage_ + next_batch_size >= buffer_size_ &&
    !max_heap_.empty())]; an iteration removes an entry of the heap, so its
    length is enough fuel. *)
Fixpoint flush_for_room (fuel : nat) (next_batch_size : Z) : PKW unit :=
  s ← get_st;
  if (pk_buffer_size s <=? wrap_u64 (pk_memory s + next_batch_size)) &&
     negb (bool_decide (pk_heap s = [])) then
    match fuel with
    | O => undefined
    | S fuel' =>
        e ← pop_heap;
        match e with
        | Some max_group =>
            wrap_io (on_group (Z.to_nat max_group.1) PW_Flush);;
            flush_for_room fuel' next_batch_size
        | None => undefined
        end
    end
  else mret tt.

(** The loop over the new column groups. *)
Definition add_group (group : PackedGroup) : PKW unit :=
  modify (λ s, set_heap (wrap_u64 (pk_memory s + memory_usage_ group))
                 (pk_heap s ++ [(group_id_ group, memory_usage_ group)]) s);;
  b ← lift (GetRecordBatch group 0);
  wrap_io (on_group (Z.to_nat (group_id_ group)) (PW_Write (Some b))).

(** [balanceMaxHeap]: one entry per group, with the sum of its entries. *)
Definition merge_entry (m : gmap Z Z) (e : heap_entry) : gmap Z Z :=
  <[e.1 := wrap_u64 (default 0 (m !! e.1) + e.2)]> m.

Definition balanceMaxHeap : PKW unit :=
  modify (λ s, set_heap (pk_memory s) (map_to_list (foldl merge_entry ∅ (pk_heap s))) s).

Definition indices_in_range (group_indices : list (list Z)) (n : Z) : bool :=
  forallb (forallb (λ i, (0 <=? i) && (i <? n))) group_indices.

Definition PK_Write (record : option RecordBatch) : PKW unit :=
  match record with
  | None => mret tt
  | Some b =>
      s ← get_st;
      if negb (indices_in_range (pk_group_indices s) (num_columns b))
      then fail (MakeExtendError PackedInvalidArgs)
      else
        column_groups ← lift (IndicesBasedSplitter_Split (pk_group_indices s) b);
        s ← get_st;
        flush_for_room (length (pk_heap s)) (GetRecordBatchMemorySize b);;
        for_each add_group column_groups;;
        balanceMaxHeap
  end.

(** [while (!max_heap_.empty())] of [flushRemainingBuffer]. *)
Fixpoint flush_all (fuel : nat) : PKW unit :=
  e ← pop_heap;
  match e with
  | None => mret tt
  | Some max_group =>
      match fuel with
      | O => undefined
      | S fuel' => wrap_io (on_group (Z.to_nat max_group.1) PW_Flush);; flush_all fuel'
      end
  end.

(** The metadata and the closing of one file. *)
Definition close_group (i : nat) : PKW unit :=
  s ← get_st;
  wrap_io (on_group i (PW_AppendKVMetadata GROUP_FIELD_ID_LIST_META_KEY
    (GroupFieldIDList_Serialize (pk_group_field_ids s))));;
  wrap_io (on_group i (PW_AddUserMetadata (pk_user_metadata s)));;
  wrap_io (on_group i PW_Close);;
  mret tt.

Definition flushRemainingBuffer : PKW unit :=
  s ← get_st;
  if pk_closed s then mret tt
  else
    flush_all (length (pk_heap s));;
    for_each close_group (seq 0 (length (pk_writers s))).

Definition set_pk_closed (s : PackedWriter) : PackedWriter :=
  mkPackedWriter (pk_group_field_ids s) (pk_buffer_size s) (pk_group_indices s) (pk_memory s)
    true (pk_writers s) (pk_heap s) (pk_user_metadata s).

Definition PK_Close : PKW unit :=
  s ← get_st;
  if pk_closed s then mret tt
  else flushRemainingBuffer;; modify set_pk_closed.

(** [Tell]: the positions of the files, in order. *)
Fixpoint tell_from (i n : nat) : PKW (list Z) :=
  match n with
  | O => mret []
  | S n' =>
      pos ← wrap_io (on_group i PW_Tell);
      rest ← tell_from (S i) n';
      mret (pos :: rest)
  end.

Definition PK_Tell : PKW (list Z) :=
  s ← get_st; tell_from 0 (length (pk_writers s)).

Definition PK_AddUserMetadata (key value : string) : PKW unit :=
  modify (λ s, mkPackedWriter (pk_group_field_ids s) (pk_buffer_size s) (pk_group_indices s)
    (pk_memory s) (pk_closed s) (pk_writers s) (pk_heap s)
    (pk_user_metadata s ++ [(key, value)])).
End packed_writer.

Arguments PackedWriter {_ _} W.

(** ** Opening *)

Section opening.
Context `{KeyValueMetadata} `{RecordBatches} `{WriterProps} {S : Type} `{FileSystem S} {W : Type}
  `{!WriterEnv S W}.

(** A returned status, possibly translated, among the ways to fail. *)
Definition returning {A} (f : Status → Status) (m : M S Status A) : M S raised A := λ s,
  match m s with
  | (s', Ok a) => (s', Ok a)
  | (s', Err st) => (s', Err (Returned (f st)))
  | (s', Ub) => (s', Ub)
  end.

Definition invalid_args {A} : M S raised A :=
  fail (Returned (MakeExtendError PackedInvalidArgs)).

(** [schema->field(index)] for every index; out of range is undefined. *)
Definition getColumnGroupSchema (schema : Schema) (column_indices : list Z) :
    outcome Status Schema :=
  fold_out (λ fields index,
    f ← (if index <? 0 then Ub else deref (schema !! Z.to_nat index)); Ok (fields ++ [f]))
    column_indices [].

(** The loop that opens a writer per path. *)
Fixpoint open_writers (has_fs : bool) (paths : list string) (groups : list (list Z))
    (schema : Schema) (part_size : Z) (props : WriterProperties) :
    M S raised (list (ParquetFileWriter W)) :=
  match paths, groups with
  | path :: paths', idx :: groups' =>
      column_group_schema ← returning id (lift (getColumnGroupSchema schema idx));
      writer ← returning (WrapExtendError PackedStorageIO)
                 (PW_Make has_fs column_group_schema path part_size props);
      rest ← open_writers has_fs paths' groups' schema part_size props;
      mret (writer :: rest)
  | [], _ => mret []
  | _ :: _, [] => undefined
  end.

(** [PackedRecordBatchWriter::Make]: the constructor and [init]. *)
Definition PK_Make (has_fs : bool) (paths : list string) (schema : option Schema)
    (part_size : Z) (column_groups : list (list Z)) (buffer_size : Z) (props : WriterProperties) :
    M S raised (PackedWriter W) :=
  match schema with
  | None => invalid_args
  | Some schema =>
      if negb (bool_decide (length paths = length column_groups)) then invalid_args
      else if negb has_fs then invalid_args
      else
        field_id_list ← returning (λ _, MakeExtendError PackedInvalidArgs)
                          (lift (FieldIDList_Make schema));
        if negb (indices_in_range column_groups (Z.of_nat (length schema))) then invalid_args
        else
          group_field_ids ← lift (GroupFieldIDList_Make column_groups field_id_list);
          writers ← open_writers has_fs paths column_groups schema part_size props;
          mret (mkPackedWriter group_field_ids buffer_size column_groups 0 false writers [] [])
  end.
End opening.

(** ** Column groups and splitters are correct *)

Section splitting.
Context `{RecordBatches}.

(** The accounting invariant of a column group. *)
Definition group_inv (g : PackedGroup) : Prop :=
  batch_memory_usage_ g = GetRecordBatchMemorySize <$> batches_ g ∧
  memory_usage_ g = wrap_u64 (sum_Z (batch_memory_usage_ g)) ∧
  total_rows_ g = wrap_i64 (sum_Z (num_rows <$> batches_ g)).

Lemma group_push_inv g b : group_inv g → group_inv (group_push g b).
Proof.
  intros (Hb & Hm & Hr). split_and!; simpl.
  - by rewrite fmap_app, Hb.
  - rewrite Hm, sum_Z_app, wrap_u64_idemp_add. f_equal. unfold sum_Z; simpl. lia.
  - rewrite Hr, fmap_app, sum_Z_app. unfold wrap_i64. f_equal.
    replace (sum_Z (num_rows <$> [b])) with (num_rows b) by (unfold sum_Z; simpl; lia).
    set (x := sum_Z (num_rows <$> batches_ g)).
    replace ((x + 2 ^ 63) mod UINT64_MOD - 2 ^ 63 + num_rows b + 2 ^ 63)
      with ((x + 2 ^ 63) mod UINT64_MOD + num_rows b) by lia.
    rewrite Zplus_mod_idemp_l. f_equal. lia.
Qed.

(** Merging column groups never fails and keeps the accounting: the
    batches are those of both groups in order, the memory is the sum of the
    batches' memory and the row count the sum of their rows. *)
Theorem merge_accounts g other :
  group_inv g → ∃ g', Merge g other = Ok g' ∧ group_inv g' ∧
    batches_ g' = batches_ g ++ batches_ other ∧ group_id_ g' = group_id_ g.
Proof.
  unfold Merge. generalize (batches_ other) as bs. intros bs. revert g.
  induction bs as [|b bs IH]; intros g Hg; simpl.
  - exists g. by rewrite app_nil_r.
  - destruct (IH (group_push g b) (group_push_inv g b Hg)) as (g' & Hm & Hinv & Hbs & Hid).
    exists g'. split_and!; [done|done| |done]. rewrite Hbs. simpl. by rewrite <- app_assoc.
Qed.

Lemma group_columns_spec i totals max groups small :
  1 ≤ max → Forall (λ t, t.2 ≠ 0) totals →
  Forall (λ g, Z.of_nat (length g) ≤ max) (small :: groups) →
  ∃ gs, group_columns i totals max groups small = Ok gs ∧
    mjoin gs ≡ₚ mjoin groups ++ small ++ (Z.of_nat <$> seq i (length totals)) ∧
    Forall (λ g, Z.of_nat (length g) ≤ max) gs.
Proof.
  intros Hmax Ht. revert i groups small.
  induction Ht as [|[size nrows] totals Hn _ IH]; intros i groups small Hg;
    apply Forall_cons in Hg as [Hs Hg]; cbn [group_columns].
  - eexists. split; [done|]. rewrite join_app. simpl. rewrite !app_nil_r. split; [done|].
    apply Forall_app. by split; [|constructor].
  - simpl in Hn. destruct (Z.eqb_spec nrows 0) as [|_]; [done|].
    set (gs1 := if max <=? _ then (groups ++ [small], []) else (groups, small)).
    assert (mjoin gs1.1 ++ gs1.2 = mjoin groups ++ small ∧
            Z.of_nat (length gs1.2) < max ∧ Forall (λ g, Z.of_nat (length g) ≤ max) gs1.1)
      as (Hj & Hlt & Hf1).
    { unfold gs1. destruct (Z.leb_spec max (Z.of_nat (length small))); simpl.
      - rewrite join_app. simpl. rewrite !app_nil_r. split_and!; [done|lia|].
        apply Forall_app. by split; [|constructor].
      - by split_and!. }
    destruct gs1 as [gs2 sm2]. simpl in Hj, Hlt, Hf1.
    cbn [length seq]. rewrite fmap_cons.
    destruct (Z.leb_spec SPLIT_THRESHOLD (size / wrap_u64 nrows)).
    + destruct (IH (S i) (gs2 ++ [[Z.of_nat i]]) sm2) as (gs & -> & Hp & Hf).
      { constructor; [lia|]. apply Forall_app. split; [done|]. constructor; [simpl; lia|done]. }
      exists gs. split_and!; [done| |done]. rewrite Hp, join_app, (app_assoc (mjoin groups)), <- Hj. simpl.
      solve_Permutation.
    + destruct (IH (S i) gs2 (sm2 ++ [Z.of_nat i])) as (gs & -> & Hp & Hf).
      { constructor; [rewrite length_app; simpl; lia|done]. }
      exists gs. split_and!; [done| |done]. rewrite Hp, (app_assoc (mjoin groups)), <- Hj.
      solve_Permutation.
Qed.

(** Splitting by size is a partition: when every column has rows, the
    grouping is defined, every column is in exactly one group, and no group
    has more columns than the limit. *)
Theorem size_split_partitions totals max :
  1 ≤ max → Forall (λ t, t.2 ≠ 0) totals →
  ∃ gs, group_columns 0 totals max [] [] = Ok gs ∧
    mjoin gs ≡ₚ Z.of_nat <$> seq 0 (length totals) ∧
    Forall (λ g, Z.of_nat (length g) ≤ max) gs.
Proof.
  intros Hmax Ht. apply (group_columns_spec 0 totals max [] []); [done|done|].
  repeat constructor; simpl; lia.
Qed.
End splitting.

(** ** Correctness *)

Section correctness.
Context `{KeyValueMetadata} `{BatchLaws} {W : Type} `{!ParquetLib W} `{!ParquetLaws W}
  `{!PriorityQueue heap_key}.
Variable K : Z.
Hypothesis HK : 1 ≤ K ≤ ROW_MAX.

Implicit Types (s : PackedWriter W) (w : ParquetFileWriter W).

Definition pk_failed (_ : Status) (_ : PackedWriter W) : Prop := ¬ pq_works (W := W).

Definition heap_sum (heap : list heap_entry) : Z := sum_Z heap.*2.

(** The state of an open writer: file [i] holds the projection of the rows
    [inp i], the memory counter is the sum of the heap, and the heap refers to
    existing files. *)
Definition held s (inp : nat → list row) : Prop :=
  length (pk_writers s) = length (pk_group_indices s) ∧
  (∀ i w idx, pk_writers s !! i = Some w → pk_group_indices s !! i = Some idx →
     pw_inv K w (project idx <$> inp i) ∧ pw_kv_metadata w = kv_empty) ∧
  pk_memory s = wrap_u64 (heap_sum (pk_heap s)) ∧
  Forall (λ e, 0 ≤ e.1 < Z.of_nat (length (pk_writers s))) (pk_heap s) ∧
  pk_closed s = false.

(** What the operations never change. *)
Definition same_setup s s' : Prop :=
  pk_group_field_ids s' = pk_group_field_ids s ∧ pk_buffer_size s' = pk_buffer_size s ∧
  pk_group_indices s' = pk_group_indices s ∧ pk_user_metadata s' = pk_user_metadata s ∧
  length (pk_writers s') = length (pk_writers s).

Lemma same_setup_trans s1 s2 s3 : same_setup s1 s2 → same_setup s2 s3 → same_setup s1 s3.
Proof. intros (?&?&?&?&?) (?&?&?&?&?). split_and!; congruence. Qed.

Lemma wp_on_group {A} i (m : PW A) s w (Q : A → ParquetFileWriter W → Prop) :
  pk_writers s !! i = Some w → wp m w Q lib_failed →
  wp (wrap_io (on_group i m)) s
    (λ a s', ∃ w', s' = set_writers (<[i := w']> (pk_writers s)) s ∧ Q a w') pk_failed.
Proof.
  intros Hw Hm. unfold wp, wrap_io, on_group in *. rewrite Hw.
  destruct (m w) as [w' [a|e|]]; eauto.
Qed.

Lemma heap_pop heap e heap' :
  pop_top heap = Some (e, heap') →
  heap_sum heap = e.2 + heap_sum heap' ∧ heap ≡ₚ e :: heap'.
Proof.
  intros [Hp _]%pop_top_Some. split; [|done]. unfold heap_sum.
  rewrite (sum_Z_perm heap.*2 (e :: heap').*2); [done|]. by apply Permutation_map.
Qed.

(** Updating one file. *)
Lemma held_update s inp i w idx rws :
  held s inp → pk_group_indices s !! i = Some idx → (i < length (pk_writers s))%nat →
  pw_inv K w (project idx <$> rws) → pw_kv_metadata w = kv_empty →
  held (set_writers (<[i := w]> (pk_writers s)) s) (λ j, if decide (j = i) then rws else inp j).
Proof.
  intros (Hl & Hf & Hm & Hh & Hc) Hi Hlt Hw Hkv. split_and!; simpl; try done.
  - by rewrite length_insert.
  - intros j w' idx' Hj Hidx. destruct (decide (j = i)) as [->|Hne].
    + rewrite list_lookup_insert_eq in Hj by done. by simplify_eq.
    + rewrite list_lookup_insert_ne in Hj by done. eauto.
  - by rewrite length_insert.
Qed.

Lemma held_ext s inp inp' : (∀ i, inp i = inp' i) → held s inp → held s inp'.
Proof.
  intros He (Hl & Hf & Hr). split_and!; [done| |apply Hr..]. intros i w idx Hw Hi.
  rewrite <- He. eauto.
Qed.

(** Flushing one file changes nothing that is held. *)
Lemma wp_flush_group s inp i :
  held s inp → (i < length (pk_writers s))%nat →
  wp (wrap_io (on_group i PW_Flush)) s
    (λ _ s', held s' inp ∧ same_setup s s' ∧ pk_heap s' = pk_heap s ∧ pk_memory s' = pk_memory s)
    pk_failed.
Proof.
  intros Hheld Hi. pose proof Hheld as (Hl & Hf & _).
  destruct (lookup_lt_is_Some_2 _ _ Hi) as [w Hw].
  destruct (lookup_lt_is_Some_2 (pk_group_indices s) i) as [idx Hidx]; [lia|].
  destruct (Hf i w idx Hw Hidx) as [Hinv Hkv].
  eapply wp_mono; [apply (wp_on_group _ _ _ w); [done|apply (wp_run_op K HK OpFlush _ _ Hinv)]| |by intros].
  - done.
  - simpl. rewrite app_nil_r. by destruct Hinv as (? & ? & ? & ? & ? & ? & ? & ?).
  - intros _ s' (w' & -> & Hinv' & Hkv'). simpl in Hkv'. rewrite app_nil_r in Hinv'.
    split_and!; [|by split_and!; simpl; rewrite ?length_insert|done|done].
    eapply held_ext; [|by eapply (held_update s inp i w' idx (inp i)); eauto; congruence].
    intros j. simpl. by case_decide; subst.
Qed.

(** Taking an entry off the heap. *)
Lemma held_pop s inp e heap :
  held s inp → pop_top (pk_heap s) = Some (e, heap) →
  held (set_heap (wrap_u64 (pk_memory s - e.2)) heap s) inp ∧
  0 ≤ e.1 < Z.of_nat (length (pk_writers s)).
Proof.
  intros (Hl & Hf & Hm & Hh & Hc) Hpop. destruct (heap_pop _ _ _ Hpop) as [Hsum Hperm].
  rewrite Hperm, Forall_cons in Hh. destruct Hh as [He Hh]. split; [|done].
  split_and!; simpl; try done. rewrite Hm, Hsum. unfold wrap_u64.
  rewrite Zminus_mod_idemp_l. f_equal. lia.
Qed.

Lemma wp_flush_for_room fuel next s inp :
  held s inp → (length (pk_heap s) ≤ fuel)%nat →
  wp (flush_for_room fuel next) s
    (λ _ s', held s' inp ∧ same_setup s s' ∧
       (pk_heap s' = [] ∨ wrap_u64 (pk_memory s' + next) < pk_buffer_size s)) pk_failed.
Proof.
  revert s. induction fuel as [|fuel IH]; intros s Hheld Hfuel; cbn [flush_for_room];
    apply wp_bind; unfold wp at 1, get_st;
    destruct (Z.leb_spec (pk_buffer_size s) (wrap_u64 (pk_memory s + next))) as [Hge|Hlt];
    destruct (bool_decide_reflect (pk_heap s = [])) as [Hnil|Hne]; simpl negb; cbn [andb].
  all: try (apply wp_ret; split_and!; [done|by split_and!|tauto]).
  { destruct (pk_heap s); [done|simpl in Hfuel; lia]. }
  apply wp_bind. unfold wp at 1, pop_heap.
  destruct (pop_top (pk_heap s)) as [[e heap]|] eqn:Hpop.
  2:{ by apply pop_top_None in Hpop. }
  destruct (held_pop s inp e heap Hheld Hpop) as [Hheld' He].
  pose proof (pop_top_length _ _ _ Hpop) as Hlen.
  eapply wp_seq; [apply (wp_flush_group _ inp); [done|simpl; lia]|].
  intros _ s' (Hheld'' & Hsame & Hheap & Hmem). simpl in Hheap, Hmem.
  eapply wp_mono; [apply IH; [done|rewrite Hheap; lia]| |done].
  intros _ s'' (Hheld3 & Hsame3 & Hroom). pose proof Hsame as (_ & Hbuf & _). simpl in Hbuf.
  split_and!; [done|by eapply same_setup_trans|by rewrite <- Hbuf].
Qed.

(** The batches a record is split into. *)
Lemma split_from_spec id idxs b :
  Forall (Forall (λ i, 0 ≤ i < num_columns b)) idxs →
  ∃ groups, split_from id idxs b = Ok groups ∧
    Forall2 (λ idx g, ∃ b', SelectColumns b idx = Ok b' ∧ batches_ g = [b'] ∧
                memory_usage_ g = GetRecordBatchMemorySize b') idxs groups ∧
    ∀ j g, groups !! j = Some g → group_id_ g = Z.of_nat (id + j).
Proof.
  intros Hr. revert id. induction Hr as [|idx idxs Hidx _ IH]; intros id; simpl.
  - exists []. by split_and!.
  - destruct (select_ok b idx Hidx) as [b' Hb']. destruct (IH (S id)) as (gs & Hgs & Hf & Hid).
    rewrite Hb', bind_Ok, Hgs, bind_Ok. eexists. split_and!; [done| |].
    + constructor; [|done]. exists b'. split_and!; [done|done|]. simpl.
      apply wrap_u64_small. apply columns_memory_range.
    + intros [|j] g; simpl; intros Hj; simplify_eq.
      * simpl. by rewrite Nat.add_0_r.
      * rewrite (Hid j g Hj). lia.
Qed.

(** One record added to the files from [id] on. *)
Definition fed (b : RecordBatch) (input : list row) (n : nat) (i : nat) : list row :=
  if decide (i < n)%nat then input ++ rows b else input.

Lemma wp_add_group s b input id idx g b' :
  held s (fed b input id) → pk_group_indices s !! id = Some idx →
  SelectColumns b idx = Ok b' → batches_ g = [b'] → group_id_ g = Z.of_nat id →
  memory_usage_ g = GetRecordBatchMemorySize b' → slice_ok K b' (GetRecordBatchMemorySize b') →
  Z.of_nat (length (input ++ rows b)) ≤ INT64_MAX →
  wp (add_group g) s
    (λ _ s', held s' (fed b input (S id)) ∧ same_setup s s' ∧
       heap_sum (pk_heap s') = heap_sum (pk_heap s) + memory_usage_ g) pk_failed.
Proof.
  intros Hheld Hidx Hsel Hbs Hid Hmu Hok Hlim. unfold add_group. apply wp_bind.
  unfold wp at 1, modify. apply wp_bind. unfold wp at 1, lift, GetRecordBatch.
  rewrite Hbs; simpl. rewrite Hid, Nat2Z.id.
  pose proof Hheld as (Hl & Hf & Hm & Hh & Hc).
  assert (id < length (pk_writers s))%nat as Hlt by (rewrite Hl; by eapply lookup_lt_Some).
  destruct (lookup_lt_is_Some_2 _ _ Hlt) as [w Hw]. destruct (Hf id w idx Hw Hidx) as [Hinv Hkv].
  assert (fed b input id id = input) as Hfed by (unfold fed; by rewrite decide_False by lia).
  rewrite Hfed in Hinv.
  eapply wp_mono; [apply (wp_on_group _ _ _ w); [done|apply (wp_run_op K HK (OpWrite (Some b')) _ _ Hinv)]
                  | |by intros].
  - done.
  - simpl. rewrite (select_rows _ _ _ Hsel), <- fmap_app, length_fmap. done.
  - intros _ s' (w' & -> & Hinv' & Hkv'). simpl in Hinv', Hkv'.
    rewrite (select_rows _ _ _ Hsel), <- fmap_app in Hinv'. split_and!.
    + eapply held_ext; [|eapply (held_update _ (fed b input id) id w' idx (input ++ rows b));
        [|done|done|done|congruence]].
      * intros j. unfold fed. repeat case_decide; subst; try done; lia.
      * split_and!; simpl; try done.
        -- rewrite Hm. unfold heap_sum. rewrite fmap_app, sum_Z_app. simpl.
           rewrite wrap_u64_idemp_add. f_equal. unfold sum_Z; simpl. lia.
        -- apply Forall_app. split; [done|]. constructor; [simpl; lia|done].
    + split_and!; simpl; try done. by rewrite length_insert.
    + simpl. unfold heap_sum. rewrite fmap_app, sum_Z_app. simpl. unfold sum_Z; simpl. lia.
Qed.

Definition groups_memory (gs : list PackedGroup) : Z := sum_Z (memory_usage_ <$> gs).

Lemma wp_add_groups b input idxs gs id s :
  held s (fed b input id) →
  (∀ j idx, idxs !! j = Some idx → pk_group_indices s !! (id + j)%nat = Some idx) →
  Forall2 (λ idx g, ∃ b', SelectColumns b idx = Ok b' ∧ batches_ g = [b'] ∧
             memory_usage_ g = GetRecordBatchMemorySize b') idxs gs →
  (∀ j g, gs !! j = Some g → group_id_ g = Z.of_nat (id + j)) →
  Forall (λ idx, ∀ b', SelectColumns b idx = Ok b' →
            slice_ok K b' (GetRecordBatchMemorySize b')) idxs →
  Z.of_nat (length (input ++ rows b)) ≤ INT64_MAX →
  wp (for_each add_group gs) s
    (λ _ s', held s' (fed b input (id + length idxs)) ∧ same_setup s s' ∧
       heap_sum (pk_heap s') = heap_sum (pk_heap s) + groups_memory gs) pk_failed.
Proof.
  intros Hheld Hidx Hgs. revert id s Hheld Hidx.
  induction Hgs as [|idx g idxs gs Hg Hgs IH]; intros id s Hheld Hidx Hid Hok Hlim; cbn [for_each].
  - apply wp_ret. simpl. rewrite Nat.add_0_r. split_and!; [done|by split_and!|].
    unfold groups_memory; simpl. lia.
  - destruct Hg as (b' & Hsel & Hbs & Hmu). apply Forall_cons in Hok as [Hok1 Hok].
    eapply wp_seq; [apply (wp_add_group s b input id idx g b'); try done|].
    + specialize (Hidx 0%nat idx eq_refl). by rewrite Nat.add_0_r in Hidx.
    + rewrite (Hid 0%nat g eq_refl). by rewrite Nat.add_0_r.
    + by apply Hok1.
    + intros _ s1 (Hheld1 & Hsame1 & Hsum1). pose proof Hsame1 as (_ & _ & Hgi & _).
      eapply wp_mono; [apply (IH (S id)); [done| | |done|done]| |done].
      * intros j idx' Hj. rewrite Hgi. replace (S id + j)%nat with (id + S j)%nat by lia. by apply Hidx.
      * intros j g' Hj. rewrite (Hid (S j) g' Hj). lia.
      * intros _ s2 (Hheld2 & Hsame2 & Hsum2). simpl. rewrite Nat.add_succ_r.
        split_and!; [done|by eapply same_setup_trans|].
        rewrite Hsum2, Hsum1. unfold groups_memory, sum_Z. rewrite fmap_cons. simpl. lia.
Qed.

(** *** Balancing the heap *)

Definition map_sum (m : gmap Z Z) : Z := heap_sum (map_to_list m).

Lemma map_sum_insert m k v : map_sum (<[k := v]> m) = map_sum m - default 0 (m !! k) + v.
Proof.
  unfold map_sum, heap_sum. rewrite <- insert_delete_eq.
  rewrite (sum_Z_perm (map_to_list (<[k:=v]> (delete k m))).*2 (v :: (map_to_list (delete k m)).*2)).
  2:{ change (v :: (map_to_list (delete k m)).*2) with (((k, v) :: map_to_list (delete k m)).*2).
      apply Permutation_map, map_to_list_insert, lookup_delete_eq. }
  destruct (m !! k) as [v'|] eqn:Hk; simpl.
  - rewrite (sum_Z_perm (map_to_list m).*2 (v' :: (map_to_list (delete k m)).*2)).
    + unfold sum_Z; simpl. lia.
    + change (v' :: (map_to_list (delete k m)).*2) with (((k, v') :: map_to_list (delete k m)).*2).
      apply Permutation_map. symmetry. by apply map_to_list_delete.
  - rewrite (delete_id m k) by done. unfold sum_Z; simpl. lia.
Qed.

Lemma merge_sum heap m :
  wrap_u64 (map_sum (foldl merge_entry m heap)) = wrap_u64 (map_sum m + heap_sum heap).
Proof.
  revert m; induction heap as [|e heap IH]; intros m; cbn [foldl].
  - f_equal. unfold heap_sum; simpl. unfold sum_Z; simpl. lia.
  - rewrite IH. unfold merge_entry. rewrite map_sum_insert. unfold heap_sum, wrap_u64.
    cbn [fmap list_fmap]. unfold sum_Z at 2; cbn [foldr]. fold (sum_Z heap.*2).
    set (d := default 0 (m !! e.1)).
    replace (map_sum m - d + (d + e.2) mod UINT64_MOD + sum_Z heap.*2)
      with ((d + e.2) mod UINT64_MOD + (map_sum m - d + sum_Z heap.*2)) by lia.
    rewrite Zplus_mod_idemp_l. f_equal. simpl. lia.
Qed.

Lemma merge_keys heap m (P : Z → Prop) :
  Forall (λ e, P e.1) heap → map_Forall (λ k _, P k) m →
  map_Forall (λ k _, P k) (foldl merge_entry m heap).
Proof.
  intros Hh. revert m. induction Hh as [|e heap He _ IH]; intros m Hm; cbn [foldl]; [done|].
  apply IH. unfold merge_entry. by apply map_Forall_insert_2.
Qed.

Lemma wp_balance s inp :
  held s inp →
  wp balanceMaxHeap s
    (λ _ s', held s' inp ∧ same_setup s s' ∧ pk_memory s' = pk_memory s ∧ NoDup (pk_heap s').*1)
    pk_failed.
Proof.
  intros (Hl & Hf & Hm & Hh & Hc). unfold wp, balanceMaxHeap, modify; simpl.
  split_and!; [|by split_and!|done|apply NoDup_fst_map_to_list].
  split_and!; simpl; try done.
  - rewrite Hm. symmetry. change (wrap_u64 (map_sum (foldl merge_entry ∅ (pk_heap s)))
      = wrap_u64 (heap_sum (pk_heap s))). by rewrite merge_sum.
  - apply Forall_forall. intros [k v] Hkv%elem_of_map_to_list.
    assert (map_Forall (λ k _, 0 ≤ k < Z.of_nat (length (pk_writers s)))
              (foldl merge_entry ∅ (pk_heap s))) as Hall.
    { by apply (merge_keys _ _ (λ k, 0 ≤ k < _)). }
    exact (Hall k v Hkv).
Qed.

(** *** Write *)

(** A record whose columns cover the groups, each group with between one and
    [K] bytes per row. *)
Definition record_ok (group_indices : list (list Z)) (b : RecordBatch) : Prop :=
  indices_in_range group_indices (num_columns b) = true ∧
  Forall (λ idx, ∀ b', SelectColumns b idx = Ok b' →
            slice_ok K b' (GetRecordBatchMemorySize b')) group_indices.

Lemma indices_in_range_spec idxs n :
  indices_in_range idxs n = true → Forall (Forall (λ i, 0 ≤ i < n)) idxs.
Proof.
  unfold indices_in_range. rewrite forallb_forall. intros Hall. apply Forall_forall.
  intros idx Hin%list_elem_of_In. specialize (Hall idx Hin). rewrite forallb_forall in Hall.
  apply Forall_forall. intros i Hi%list_elem_of_In. specialize (Hall i Hi). lia.
Qed.

Lemma held_const s input b : held s (λ _, input) → held s (fed b input 0).
Proof. apply held_ext. intros i. unfold fed. by rewrite decide_False by lia. Qed.

Lemma wp_PK_Write s input b :
  held s (λ _, input) → record_ok (pk_group_indices s) b →
  Z.of_nat (length (input ++ rows b)) ≤ INT64_MAX →
  wp (PK_Write (Some b)) s
    (λ _ s', held s' (λ _, input ++ rows b) ∧ same_setup s s' ∧ NoDup (pk_heap s').*1 ∧
       ∃ kept gs, IndicesBasedSplitter_Split (pk_group_indices s) b = Ok gs ∧
         pk_memory s' = wrap_u64 (kept + groups_memory gs) ∧
         (kept = 0 ∨ wrap_u64 (kept + GetRecordBatchMemorySize b) < pk_buffer_size s)) pk_failed.
Proof.
  intros Hheld [Hr Hok] Hlim. unfold PK_Write. apply wp_bind. unfold wp at 1, get_st.
  rewrite Hr. simpl negb. cbn iota. apply wp_bind. unfold wp at 1, lift.
  destruct (split_from_spec 0 _ b (indices_in_range_spec _ _ Hr)) as (gs & Hgs & Hf2 & Hid).
  unfold IndicesBasedSplitter_Split. rewrite Hgs.
  apply wp_bind. unfold wp at 1, get_st.
  eapply wp_seq; [by apply (wp_flush_for_room _ _ _ (λ _, input))|].
  intros _ s1 (Hheld1 & Hsame1 & Hroom). pose proof Hsame1 as (_ & Hbuf & Hgi & _).
  eapply wp_seq; [apply (wp_add_groups b input (pk_group_indices s) gs 0)|];
    [by apply held_const|by intros; rewrite Hgi|done|done|done|done|].
  intros _ s2 (Hheld2 & Hsame2 & Hsum2).
  assert (held s2 (λ _, input ++ rows b)) as Hheld2'.
  { destruct Hheld2 as (Hl & Hf & Hrest). split_and!; [done| |apply Hrest..].
    intros i w idx Hw Hidx. destruct (Hf i w idx Hw Hidx) as [Hinv Hkv]. unfold fed in Hinv.
    pose proof Hsame2 as (_ & _ & Hgi2 & _). apply lookup_lt_Some in Hidx as Hlt.
    rewrite Hgi2, Hgi in Hlt. by rewrite decide_True in Hinv by lia. }
  eapply wp_mono; [by apply (wp_balance _ (λ _, input ++ rows b))| |done].
  intros _ s3 (Hheld3 & Hsame3 & Hmem3 & Hnd). split_and!; [done| |done|].
  - eapply same_setup_trans; [done|]. by eapply same_setup_trans.
  - exists (heap_sum (pk_heap s1)), gs. split_and!; [done| |].
    + destruct Hheld2 as (_ & _ & Hm2 & _). by rewrite Hmem3, Hm2, Hsum2.
    + destruct Hheld1 as (_ & _ & Hm1 & _). destruct Hroom as [->|Hroom]; [by left|right].
      by rewrite Hm1, wrap_u64_idemp_add in Hroom.
Qed.

(** *** Close *)

(** The metadata given to a file before it closes. *)
Definition file_kv s : kv :=
  foldl (λ m e, kv_Append m e.1 e.2)
    (kv_Append kv_empty GROUP_FIELD_ID_LIST_META_KEY
       (GroupFieldIDList_Serialize (pk_group_field_ids s)))
    (pk_user_metadata s).

Lemma wp_AddUserMetadata w rws md :
  pw_inv K w rws →
  wp (PW_AddUserMetadata md) w
    (λ _ w', pw_inv K w' rws ∧
       pw_kv_metadata w' = foldl (λ m e, kv_Append m e.1 e.2) (pw_kv_metadata w) md) lib_failed.
Proof.
  unfold PW_AddUserMetadata. revert w. induction md as [|e md IH]; intros w Hinv; cbn [for_each].
  - by apply wp_ret.
  - eapply wp_seq; [by apply (wp_AppendKV K)|]. intros _ w' [Hinv' Hkv].
    eapply wp_mono; [by apply IH| |done]. intros _ w'' [? ->]. by rewrite Hkv.
Qed.

(** After the first [n] files are closed. *)
Definition closed_upto s (input : list row) (m0 : kv) (n : nat) : Prop :=
  ∀ i w idx, pk_writers s !! i = Some w → pk_group_indices s !! i = Some idx →
    if decide (i < n)%nat then ∃ f, closed_file K w f m0 (project idx <$> input)
    else pw_inv K w (project idx <$> input) ∧ pw_kv_metadata w = kv_empty.

Lemma closed_upto_insert s input m0 n w idx s' :
  closed_upto s input m0 n → pk_group_indices s !! n = Some idx →
  pk_group_indices s' = pk_group_indices s →
  pk_writers s' = <[n := w]> (pk_writers s) → (n < length (pk_writers s))%nat →
  (∃ f, closed_file K w f m0 (project idx <$> input)) → closed_upto s' input m0 (S n).
Proof.
  intros Hup Hidx Hgi Hws Hlt Hcl i w' idx' Hw' Hidx'. rewrite Hws in Hw'. rewrite Hgi in Hidx'.
  destruct (decide (i = n)) as [->|Hne].
  - rewrite list_lookup_insert_eq in Hw' by done. simplify_eq. by rewrite decide_True by lia.
  - rewrite list_lookup_insert_ne in Hw' by done. specialize (Hup i w' idx' Hw' Hidx').
    by repeat case_decide; try done; try lia.
Qed.

Lemma wp_close_group s input n :
  closed_upto s input (file_kv s) n → length (pk_writers s) = length (pk_group_indices s) →
  (n < length (pk_writers s))%nat →
  wp (close_group n) s
    (λ _ s', closed_upto s' input (file_kv s) (S n) ∧ same_setup s s' ∧ pk_closed s' = pk_closed s)
    pk_failed.
Proof.
  intros Hup Hlen Hlt. unfold close_group. apply wp_bind. unfold wp at 1, get_st.
  destruct (lookup_lt_is_Some_2 _ _ Hlt) as [w Hw].
  destruct (lookup_lt_is_Some_2 (pk_group_indices s) n) as [idx Hidx]; [lia|].
  pose proof (Hup n w idx Hw Hidx) as Hn. rewrite decide_False in Hn by lia.
  destruct Hn as [Hinv Hkv].
  eapply wp_seq; [apply (wp_on_group _ _ _ w); [done|by apply (wp_AppendKV K)]|].
  intros _ s1 (w1 & -> & Hinv1 & Hkv1).
  eapply wp_seq; [apply (wp_on_group _ _ _ w1); [|by apply wp_AddUserMetadata]|].
  { simpl. by apply list_lookup_insert_eq. }
  intros _ s2 (w2 & -> & Hinv2 & Hkv2).
  eapply wp_seq; [apply (wp_on_group _ _ _ w2); [|by apply (wp_Close K HK)]|].
  { simpl. apply list_lookup_insert_eq. by rewrite length_insert. }
  intros f s3 (w3 & -> & Hcl). apply wp_ret. split_and!; [| |done].
  - eapply (closed_upto_insert s _ _ _ w3 idx); [done|done|done| |done|].
    + simpl. by rewrite !list_insert_insert_eq.
    + exists f. rewrite Hkv2, Hkv1, Hkv in Hcl. exact Hcl.
  - split_and!; simpl; try done. by rewrite !length_insert.
Qed.

Lemma wp_flush_all fuel s inp :
  held s inp → (length (pk_heap s) ≤ fuel)%nat →
  wp (flush_all fuel) s
    (λ _ s', held s' inp ∧ same_setup s s' ∧ pk_heap s' = [] ∧ pk_memory s' = 0) pk_failed.
Proof.
  revert s. induction fuel as [|fuel IH]; intros s Hheld Hfuel; cbn [flush_all];
    apply wp_bind; unfold wp at 1, pop_heap;
    destruct (pop_top (pk_heap s)) as [[e heap]|] eqn:Hpop.
  1: { apply pop_top_length in Hpop. lia. }
  1, 3: (apply pop_top_None in Hpop; apply wp_ret; pose proof Hheld as (_ & _ & Hm & _);
         rewrite Hpop in Hm; by split_and!).
  destruct (held_pop s inp e heap Hheld Hpop) as [Hheld' He].
  pose proof (pop_top_length _ _ _ Hpop) as Hlen.
  eapply wp_seq; [apply (wp_flush_group _ inp); [done|simpl; lia]|].
  intros _ s' (Hheld'' & Hsame & Hheap & Hmem). simpl in Hheap, Hmem.
  eapply wp_mono; [apply IH; [done|rewrite Hheap; lia]| |done].
  intros _ s'' (Hheld3 & Hsame3 & Hend). split_and!; [done|by eapply same_setup_trans|apply Hend..].
Qed.

Lemma file_kv_same s s' : same_setup s s' → file_kv s' = file_kv s.
Proof. intros (Hids & _ & _ & Hmd & _). unfold file_kv. by rewrite Hids, Hmd. Qed.

Lemma wp_close_groups k s input n :
  closed_upto s input (file_kv s) n → length (pk_writers s) = length (pk_group_indices s) →
  (n + k ≤ length (pk_writers s))%nat →
  wp (for_each close_group (seq n k)) s
    (λ _ s', closed_upto s' input (file_kv s) (n + k) ∧ same_setup s s' ∧ pk_closed s' = pk_closed s)
    pk_failed.
Proof.
  revert s n. induction k as [|k IH]; intros s n Hup Hlen Hk; cbn [seq for_each].
  - apply wp_ret. rewrite Nat.add_0_r. by split_and!.
  - eapply wp_seq; [apply (wp_close_group _ input); [done|done|lia]|].
    intros _ s1 (Hup1 & Hsame1 & Hc1). rewrite <- (file_kv_same _ _ Hsame1) in Hup1 |- *.
    pose proof Hsame1 as (_ & _ & Hgi & _ & Hlen1).
    eapply wp_mono; [apply (IH s1 (S n)); [done|congruence|lia]| |done].
    intros _ s2 (Hup2 & Hsame2 & Hc2). replace (n + S k)%nat with (S n + k)%nat by lia.
    split_and!; [done|by eapply same_setup_trans|congruence].
Qed.

(** Every file is closed and holds its projection of the rows. *)
Definition all_closed s (m0 : kv) (input : list row) : Prop :=
  pk_closed s = true ∧ length (pk_writers s) = length (pk_group_indices s) ∧
  ∀ i w idx, pk_writers s !! i = Some w → pk_group_indices s !! i = Some idx →
    ∃ f, closed_file K w f m0 (project idx <$> input).

Lemma wp_PK_Close s input :
  held s (λ _, input) →
  wp PK_Close s
    (λ _ s', all_closed s' (file_kv s) input ∧ same_setup s s') pk_failed.
Proof.
  intros Hheld. pose proof Hheld as (Hl & _ & _ & _ & Hc). unfold PK_Close.
  apply wp_bind. unfold wp at 1, get_st. rewrite Hc.
  apply (wp_seq _ _ _ (λ _ s', closed_upto s' input (file_kv s) (length (pk_writers s)) ∧
                               same_setup s s')).
  - unfold flushRemainingBuffer. apply wp_bind. unfold wp at 1, get_st. rewrite Hc.
    eapply wp_seq; [by apply (wp_flush_all _ _ (λ _, input))|].
    intros _ s1 (Hheld1 & Hsame1 & _). pose proof Hsame1 as (_ & _ & Hgi1 & _ & Hlen1).
    rewrite <- (file_kv_same _ _ Hsame1).
    eapply wp_mono; [apply (wp_close_groups _ _ input 0)| |done].
    + intros i w idx Hw Hidx. rewrite decide_False by lia.
      destruct Hheld1 as (_ & Hf1 & _). eauto.
    + congruence.
    + lia.
    + intros _ s2 (Hup & Hsame2 & _). split; [done|].
      by eapply same_setup_trans.
  - intros _ s2 [Hup Hsame2]. unfold wp, modify. split; [|done].
    pose proof Hsame2 as (_ & _ & Hgi & _ & Hlen). split_and!; [done|simpl; congruence|].
    intros i w idx Hw Hidx. simpl in Hw, Hidx. specialize (Hup i w idx Hw Hidx).
    apply lookup_lt_Some in Hw. rewrite decide_True in Hup by lia. exact Hup.
Qed.

(** *** The footer of a closed file *)

Definition user_kv (m : kv) (md : list (string * string)) : kv :=
  foldl (λ m e, kv_Append m e.1 e.2) m md.

Context `{!KvLaws}.

Lemma user_kv_first m md k v : kv_Get m k = Ok v → kv_Get (user_kv m md) k = Ok v.
Proof.
  unfold user_kv. revert m. induction md as [|e md IH]; intros m Hm; simpl; [done|].
  apply IH. by apply kv_get_first.
Qed.

Lemma user_kv_absent m md k st :
  k ∉ md.*1 → kv_Get m k = Err st → ∃ st', kv_Get (user_kv m md) k = Err st'.
Proof.
  unfold user_kv. revert m st. induction md as [|e md IH]; intros m st Hk Hm; simpl; [eauto|].
  destruct (kv_get_other m e.1 k e.2 st) as [st' Hst]; [set_solver|done|].
  eapply IH; [set_solver|done].
Qed.

(** The three keys of a closed file.  The column groups come first, so no user
    key hides them; the other two come last. *)
Lemma footer_keys gids md v :
  ROW_GROUP_META_KEY ∉ md.*1 → STORAGE_VERSION_KEY ∉ md.*1 →
  let m := kv_Append (kv_Append (user_kv (kv_Append kv_empty GROUP_FIELD_ID_LIST_META_KEY gids) md)
             ROW_GROUP_META_KEY v) STORAGE_VERSION_KEY "1.0.0" in
  kv_Get m ROW_GROUP_META_KEY = Ok v ∧ kv_Get m STORAGE_VERSION_KEY = Ok "1.0.0" ∧
  kv_Get m GROUP_FIELD_ID_LIST_META_KEY = Ok gids.
Proof.
  intros Hr Hs. set (m1 := kv_Append kv_empty GROUP_FIELD_ID_LIST_META_KEY gids).
  assert (∀ k, k ≠ GROUP_FIELD_ID_LIST_META_KEY → ∃ st, kv_Get m1 k = Err st) as Habs.
  { intros k Hk. destruct (kv_get_empty k) as [st Hst]. by eapply kv_get_other. }
  assert (kv_Get m1 GROUP_FIELD_ID_LIST_META_KEY = Ok gids) as Hgr.
  { destruct (kv_get_empty GROUP_FIELD_ID_LIST_META_KEY) as [st Hst]. by eapply kv_get_new. }
  destruct (Habs ROW_GROUP_META_KEY) as [st1 Hst1]; [done|].
  destruct (user_kv_absent m1 md _ _ Hr Hst1) as [st1' Hst1'].
  destruct (Habs STORAGE_VERSION_KEY) as [st2 Hst2]; [done|].
  destruct (user_kv_absent m1 md _ _ Hs Hst2) as [st2' Hst2'].
  split_and!.
  - apply kv_get_first. by eapply kv_get_new.
  - destruct (kv_get_other (user_kv m1 md) ROW_GROUP_META_KEY STORAGE_VERSION_KEY v st2')
      as [st Hst]; [done|done|]. by eapply kv_get_new.
  - apply kv_get_first, kv_get_first. by apply user_kv_first.
Qed.

(** The row-group metadata of a closed file can be printed. *)
Lemma tiles_in_range off v (gs : list (list row)) :
  tiles off v gs → 0 ≤ off → off + Z.of_nat (length (mjoin gs)) ≤ INT64_MAX →
  Forall (λ m, in_int64 (rg_row_num m) && in_int64 (rg_row_offset m) = true) v.
Proof.
  revert off gs. induction v as [|m v IH]; intros off [|g gs]; simpl; try done.
  intros (Hn & Ho & Ht) Hoff Hlim. change (mjoin (g :: gs)) with (g ++ mjoin gs) in Hlim.
  rewrite length_app in Hlim. constructor.
  - rewrite Hn, Ho. apply andb_true_iff. rewrite !in_int64_spec. unfold INT64_MIN in *. lia.
  - eapply IH; [exact Ht|lia|lia].
Qed.

Lemma closed_groups_in_range v :
  closed_groups K v → Forall (λ m, in_uint64 (rg_memory_size m) = true) v.
Proof.
  assert (∀ m, 0 ≤ rg_memory_size m ≤ DEFAULT_MAX_ROW_GROUP_SIZE - 1 + K →
               in_uint64 (rg_memory_size m) = true) as Hb.
  { intros m. unfold in_uint64, DEFAULT_MAX_ROW_GROUP_SIZE, ROW_MAX, UINT64_MOD in *. lia. }
  assert (∀ v, Forall (full_group K) v → Forall (λ m, in_uint64 (rg_memory_size m) = true) v) as Hf.
  { intros v' Hv'. eapply Forall_impl; [exact Hv'|]. intros m [Hm1 Hm2]. apply Hb.
    unfold DEFAULT_MAX_ROW_GROUP_SIZE in *. lia. }
  intros [Hv|(v' & m & -> & Hv & Hm)]; [by apply Hf|]. apply Forall_app. split; [by apply Hf|].
  constructor; [by apply Hb|done].
Qed.

Lemma closed_metadata_ok w f m0 input :
  closed_file K w f m0 input → Z.of_nat (length input) ≤ INT64_MAX →
  ∃ pqw v, pw_writer w = Some pqw ∧ mjoin (pq_groups pqw) = input ∧ tiles 0 v (pq_groups pqw) ∧
    Forall (λ m, row_group_ok m = true) v ∧
    pq_kv pqw = Some (kv_Append (kv_Append m0 ROW_GROUP_META_KEY (RowGroups_Serialize v))
                        STORAGE_VERSION_KEY "1.0.0").
Proof.
  intros (pqw & v & Hw & Hin & Ht & Hcg & _ & Hkv & _) Hlim. exists pqw, v. split_and!; try done.
  pose proof (tiles_in_range 0 v _ Ht ltac:(lia) ltac:(by rewrite Hin)) as Hr.
  pose proof (closed_groups_in_range v Hcg) as Hm. rewrite Forall_forall in Hr, Hm.
  apply Forall_forall. intros m Hin'. unfold row_group_ok.
  specialize (Hr m Hin'). specialize (Hm m Hin'). apply andb_true_iff in Hr as [-> ->].
  by rewrite Hm.
Qed.

(** *** The life of a packed writer *)

Inductive packed_op :=
  | PkWrite (record : option RecordBatch)
  | PkMetadata (key value : string).

Definition run_packed_op (o : packed_op) : M (PackedWriter W) Status unit :=
  match o with
  | PkWrite r => PK_Write r
  | PkMetadata k v => PK_AddUserMetadata k v
  end.

Definition packed_op_rows (o : packed_op) : list row :=
  match o with PkWrite (Some b) => rows b | _ => [] end.

Definition packed_op_md (o : packed_op) : list (string * string) :=
  match o with PkMetadata k v => [(k, v)] | _ => [] end.

Definition packed_op_ok (group_indices : list (list Z)) (o : packed_op) : Prop :=
  match o with PkWrite (Some b) => record_ok group_indices b | _ => True end.

(** Rows and metadata given so far, on top of the setup of [s0]. *)
Definition packed_after (s0 s : PackedWriter W) (input : list row) (md : list (string * string)) :
    Prop :=
  held s (λ _, input) ∧ pk_group_indices s = pk_group_indices s0 ∧
  pk_group_field_ids s = pk_group_field_ids s0 ∧ pk_user_metadata s = pk_user_metadata s0 ++ md.

Lemma wp_run_packed_op o s0 s input md :
  packed_after s0 s input md → packed_op_ok (pk_group_indices s0) o →
  Z.of_nat (length (input ++ packed_op_rows o)) ≤ INT64_MAX →
  wp (run_packed_op o) s
    (λ _ s', packed_after s0 s' (input ++ packed_op_rows o) (md ++ packed_op_md o)) pk_failed.
Proof.
  intros (Hheld & Hgi & Hids & Hmd) Hok Hlim.
  destruct o as [[b|]|k v]; simpl in *; rewrite ?app_nil_r.
  - eapply wp_mono; [apply (wp_PK_Write _ input); [done|by rewrite Hgi|done]| |done].
    intros _ s' (Hheld' & (Hids' & _ & Hgi' & Hmd' & _) & _). split_and!; [done|congruence..].
  - by apply wp_ret.
  - unfold wp, PK_AddUserMetadata, modify. split_and!; try done. simpl.
    by rewrite Hmd, app_assoc.
Qed.

Lemma wp_run_packed_ops ops s0 s input md :
  packed_after s0 s input md → Forall (packed_op_ok (pk_group_indices s0)) ops →
  Z.of_nat (length (input ++ mjoin (packed_op_rows <$> ops))) ≤ INT64_MAX →
  wp (for_each run_packed_op ops) s
    (λ _ s', packed_after s0 s' (input ++ mjoin (packed_op_rows <$> ops))
               (md ++ mjoin (packed_op_md <$> ops))) pk_failed.
Proof.
  intros Hafter Hok. revert s input md Hafter.
  induction Hok as [|o ops Ho _ IH]; intros s input md Hafter Hlim; cbn [for_each].
  - apply wp_ret. simpl. by rewrite !app_nil_r.
  - rewrite (fmap_cons packed_op_rows) in Hlim |- *. rewrite (fmap_cons packed_op_md).
    change (mjoin (packed_op_rows o :: (packed_op_rows <$> ops)))
      with (packed_op_rows o ++ mjoin (packed_op_rows <$> ops)) in *.
    change (mjoin (packed_op_md o :: (packed_op_md <$> ops)))
      with (packed_op_md o ++ mjoin (packed_op_md <$> ops)).
    rewrite app_assoc in Hlim.
    eapply wp_seq; [apply wp_run_packed_op; [done|done|rewrite length_app in Hlim; lia]|].
    intros [] s' Hafter'. eapply wp_mono; [by apply IH| |done].
    intros [] s'' Hdone. by rewrite !app_assoc.
Qed.

(** A new writer over new files. *)
Definition packed_fresh s : Prop :=
  length (pk_writers s) = length (pk_group_indices s) ∧ pk_memory s = 0 ∧ pk_heap s = [] ∧
  pk_closed s = false ∧ pk_user_metadata s = [] ∧
  Forall (λ w, ∃ path pqw, w = mkPW path (Some pqw) kv_empty [] [] 0 [] false 0 0 ∧
                           pq_groups pqw = [] ∧ pq_kv pqw = None) (pk_writers s).

Lemma packed_fresh_held s : packed_fresh s → packed_after s s [] [].
Proof.
  intros (Hl & Hm & Hh & Hc & Hmd & Hw). split_and!; try done; [|by rewrite app_nil_r].
  split_and!; try done; [|by rewrite Hm, Hh|by rewrite Hh]. intros i w idx Hi _.
  rewrite Forall_forall in Hw. apply list_elem_of_lookup_2, Hw in Hi as (path & pqw & -> & Hg & Hk).
  split; [|done]. by apply pw_inv_init.
Qed.

(** What a closed packed writer has produced. *)
Definition packed_result s0 s (all : list row) (md : list (string * string)) : Prop :=
  pk_group_indices s = pk_group_indices s0 ∧
  all_closed s (user_kv (kv_Append kv_empty GROUP_FIELD_ID_LIST_META_KEY
                   (GroupFieldIDList_Serialize (pk_group_field_ids s0))) md) all.

Lemma packed_lifecycle s0 ops :
  packed_fresh s0 → Forall (packed_op_ok (pk_group_indices s0)) ops →
  Z.of_nat (length (mjoin (packed_op_rows <$> ops))) ≤ INT64_MAX →
  wp (for_each run_packed_op ops;; PK_Close) s0
    (λ _ s, packed_result s0 s (mjoin (packed_op_rows <$> ops)) (mjoin (packed_op_md <$> ops)))
    pk_failed.
Proof.
  intros Hfresh Hok Hlim. pose proof Hfresh as (_ & _ & _ & _ & Hmd0 & _).
  eapply wp_seq; [apply (wp_run_packed_ops ops s0 _ [] []); [by apply packed_fresh_held|done|done]|].
  intros _ s (Hheld & Hgi & Hids & Hmd).
  eapply wp_mono; [by apply wp_PK_Close| |done].
  intros _ s' [Hall (_ & _ & Hgi' & _)]. split; [congruence|].
  unfold file_kv in Hall. rewrite Hids, Hmd, Hmd0 in Hall. exact Hall.
Qed.

(** C3: A packed writer loses nothing.  On a new writer, after any sequence of
    record batches whose groups have between one and [K] bytes per row, and
    after closing: nothing is undefined, an error means that a call of the
    parquet library failed, and otherwise every file is closed and holds, in
    order, the projection of every row to the columns of its group, so that
    all files have the same number of rows. *)
Theorem packed_files_hold_all_rows s0 ops :
  packed_fresh s0 → Forall (packed_op_ok (pk_group_indices s0)) ops →
  Z.of_nat (length (mjoin (packed_op_rows <$> ops))) ≤ INT64_MAX →
  wp (for_each run_packed_op ops;; PK_Close) s0
    (λ _ s, pk_closed s = true ∧ length (pk_writers s) = length (pk_group_indices s0) ∧
       ∀ i idx, pk_group_indices s0 !! i = Some idx →
         ∃ w pqw v, pk_writers s !! i = Some w ∧ pw_writer w = Some pqw ∧
           mjoin (pq_groups pqw) = project idx <$> mjoin (packed_op_rows <$> ops) ∧
           tiles 0 v (pq_groups pqw) ∧ closed_groups K v) pk_failed.
Proof.
  intros Hfresh Hok Hlim. eapply wp_mono; [by apply packed_lifecycle| |done].
  intros _ s [Hgi (Hc & Hl & Hall)]. split_and!; [done|congruence|].
  intros i idx Hidx. rewrite <- Hgi in Hidx. apply lookup_lt_Some in Hidx as Hlt.
  destruct (lookup_lt_is_Some_2 (pk_writers s) i) as [w Hw]; [lia|].
  destruct (Hall i w idx Hw Hidx) as (f & pqw & v & ? & ? & ? & ? & _). by exists w, pqw, v.
Qed.

(** A packed file says where every column is.  After closing, when no user
    key is one of the writer's, no column group is empty and the field ids of
    the groups are distinct 64-bit integers, the footer of every file parses,
    its row groups describe the file, and the field id of each column maps to
    the file and the position that hold it. *)
Theorem packed_footer_read_back s0 ops n :
  let gids := pk_group_field_ids s0 in
  let md := mjoin (packed_op_md <$> ops) in
  packed_fresh s0 → Forall (packed_op_ok (pk_group_indices s0)) ops →
  Z.of_nat (length (mjoin (packed_op_rows <$> ops))) ≤ INT64_MAX →
  ROW_GROUP_META_KEY ∉ md.*1 → STORAGE_VERSION_KEY ∉ md.*1 →
  Forall (Forall (λ id, field_id_ok id = true)) gids → [] ∉ gids → NoDup (mjoin gids) →
  Z.of_nat (length (mjoin gids)) ≤ INT32_MAX →
  wp (for_each run_packed_op ops;; PK_Close) s0
    (λ _ s, ∀ i idx, pk_group_indices s0 !! i = Some idx →
       ∃ w pqw m p, pk_writers s !! i = Some w ∧ pw_writer w = Some pqw ∧ pq_kv pqw = Some m ∧
         PackedFileMetadata_Make (mkFileMetaData (Some m) n) = Ok p ∧
         tiles 0 (row_group_metadata_ p) (pq_groups pqw) ∧ group_field_id_list_ p = gids ∧
         ∀ path col ids id, gids !! path = Some ids → ids !! col = Some id →
           field_id_mapping_ p !! id = Some (mkColumnOffset (Z.of_nat path) (Z.of_nat col)))
    pk_failed.
Proof.
  intros gids md Hfresh Hok Hlim Hr Hs Hids Hne Hnd Hcount.
  eapply wp_mono; [by apply packed_lifecycle| |done].
  intros _ s [Hgi (Hc & Hl & Hall)] i idx Hidx. rewrite <- Hgi in Hidx.
  apply lookup_lt_Some in Hidx as Hlt.
  destruct (lookup_lt_is_Some_2 (pk_writers s) i) as [w Hw]; [lia|].
  destruct (Hall i w idx Hw Hidx) as [f Hf].
  destruct (closed_metadata_ok _ _ _ _ Hf) as (pqw & v & Hpw & _ & Ht & Hv & Hkv).
  { by rewrite length_fmap. }
  destruct (footer_keys (GroupFieldIDList_Serialize gids) md (RowGroups_Serialize v) Hr Hs)
    as (K1 & K2 & K3).
  exists w, pqw. eexists _, _.
  split_and!; [done|done|exact Hkv|by apply packed_make_printed|done|done|].
  intros. by eapply mapping_found.
Qed.

(** Writing a record batch keeps the buffer accounted and bounded.  The
    flush loop ends; the rows reach every file; the memory counter is the sum
    over the heap, which afterwards has at most one entry per file; and it is
    the memory of the new groups, plus some amount only if that amount and
    the new record were below the buffer size. *)
Theorem packed_write_bounds_memory s input b :
  held s (λ _, input) → record_ok (pk_group_indices s) b →
  Z.of_nat (length (input ++ rows b)) ≤ INT64_MAX →
  wp (PK_Write (Some b)) s
    (λ _ s', held s' (λ _, input ++ rows b) ∧ NoDup (pk_heap s').*1 ∧
       pk_memory s' = wrap_u64 (heap_sum (pk_heap s')) ∧
       ∃ kept gs, IndicesBasedSplitter_Split (pk_group_indices s) b = Ok gs ∧
         pk_memory s' = wrap_u64 (kept + groups_memory gs) ∧
         (kept = 0 ∨ wrap_u64 (kept + GetRecordBatchMemorySize b) < pk_buffer_size s)) pk_failed.
Proof.
  intros Hheld Hok Hlim. eapply wp_mono; [by apply (wp_PK_Write s input b)| |done].
  intros _ s' (Hheld' & _ & Hnd & Hmem). split_and!; [done|done| |done].
  by destruct Hheld' as (_ & _ & Hm & _).
Qed.
End correctness.

(** ** Opening is correct *)

Section opening_correct.
Context `{KeyValueMetadata} `{BatchLaws} `{WriterProps} {S : Type} `{FileSystem S} {W : Type}
  `{!WriterEnv S W} `{!ParquetLib W} `{!ParquetLaws W}.

(** A file that was opened is empty. *)
Hypothesis open_empty : ∀ schema sink props w,
  FileWriter_Open schema sink props = Ok w → pq_groups w = [] ∧ pq_kv w = None.

Definition new_file (w : ParquetFileWriter W) : Prop :=
  ∃ path pqw, w = mkPW path (Some pqw) kv_empty [] [] 0 [] false 0 0 ∧
    pq_groups pqw = [] ∧ pq_kv pqw = None.

Lemma as_io_error_Ok {A} (m : M S Status A) fs fs' a :
  as_io_error m fs = (fs', Ok a) → m fs = (fs', Ok a).
Proof. unfold as_io_error. by destruct (m fs) as [? [?| |]]; intros; simplify_eq. Qed.

Lemma returning_Ok {A} f (m : M S Status A) fs fs' a :
  returning f m fs = (fs', Ok a) → m fs = (fs', Ok a).
Proof. unfold returning. by destruct (m fs) as [? [?| |]]; intros; simplify_eq. Qed.

Lemma PW_Make_new has_fs schema path part props fs fs' w :
  PW_Make has_fs schema path part props fs = (fs', Ok w) → new_file w.
Proof.
  unfold PW_Make. destruct has_fs; simpl; [|done].
  intros (fs1 & [] & _ & Hm)%M_bind_Ok_inv. apply M_bind_Ok_inv in Hm as (fs2 & sink & _ & Hm).
  apply M_bind_Ok_inv in Hm as (fs3 & pqw & Hopen & Hm).
  apply as_io_error_Ok in Hopen. unfold lift in Hopen. simplify_eq.
  injection Hm as <- <-. exists path, pqw. split; [done|]. by eapply open_empty.
Qed.

Lemma open_writers_new has_fs paths groups schema part props fs fs' ws :
  open_writers has_fs paths groups schema part props fs = (fs', Ok ws) →
  length ws = length paths ∧ Forall new_file ws.
Proof.
  revert groups fs ws. induction paths as [|path paths IH]; intros groups fs ws.
  - destruct groups; intros [= <- <-]; by split.
  - destruct groups as [|idx groups]; [done|]. cbn [open_writers].
    intros (fs1 & sch & _ & Hm)%M_bind_Ok_inv. apply M_bind_Ok_inv in Hm as (fs2 & w & Hw & Hm).
    apply M_bind_Ok_inv in Hm as (fs3 & rest & Hrest & Hm). injection Hm as <- <-.
    apply returning_Ok, PW_Make_new in Hw. destruct (IH _ _ _ Hrest) as [Hl Hf].
    split; [simpl; lia|by constructor].
Qed.

(** Opening a packed writer succeeds only on consistent arguments and then
    gives a new writer over empty files, with one file per column group, in
    whose group metadata each column stands by the field id of its schema
    field. *)
Theorem packed_make_fresh has_fs paths schema part groups buffer props fs fs' s :
  PK_Make has_fs paths schema part groups buffer props fs = (fs', Ok s) →
  packed_fresh s ∧ pk_group_indices s = groups ∧ length (pk_writers s) = length paths ∧
  pk_buffer_size s = buffer ∧
  ∃ sch l, schema = Some sch ∧ FieldIDList_Make sch = Ok l ∧ length l = length sch ∧
    Forall (Forall (λ c, 0 ≤ c < Z.of_nat (length sch))) groups ∧
    (Z.of_nat (length l) < UINT64_MOD → Forall2 (ids_of l) groups (pk_group_field_ids s)).
Proof.
  unfold PK_Make. destruct schema as [sch|]; [|done].
  destruct (bool_decide_reflect (length paths = length groups)) as [Hlen|]; [|done].
  destruct has_fs; [|done]. simpl negb. cbn iota.
  intros (fs1 & l & Hl & Hm)%M_bind_Ok_inv. apply returning_Ok in Hl. unfold lift in Hl.
  assert (fs1 = fs ∧ FieldIDList_Make sch = Ok l) as [-> Hids] by (simplify_eq; done). clear Hl.
  destruct (indices_in_range groups (Z.of_nat (length sch))) eqn:Hr; [|done].
  simpl negb in Hm. cbn iota in Hm. apply indices_in_range_spec in Hr.
  apply M_bind_Ok_inv in Hm as (fs2 & gids & Hg & Hm). unfold lift in Hg.
  apply M_bind_Ok_inv in Hm as (fs3 & ws & Hws & Hm). injection Hm as <- <-.
  apply open_writers_new in Hws as [Hwl Hwf]. pose proof (schema_ids_length sch [] l Hids) as Hll.
  split_and!; try done; simpl; [by split_and!; simpl; try congruence|].
  exists sch, l. split_and!; try done. intros Hlim. simpl in Hll.
  destruct (make_groups_spec l groups [] Hlim) as (g & Hmake & Hf2); [by rewrite Hll|].
  unfold GroupFieldIDList_Make in Hg. rewrite Hmake in Hg. by simplify_eq.
Qed.
End opening_correct.

(** ** Examples *)

Module PackedSample.
Import KvList RowBatch MemParquet MemFs.

#[export] Instance sample_queue : PriorityQueue heap_key := first_greatest heap_key.

Definition new_pw (path : string) : ParquetFileWriter file :=
  mkPW path (Some ([], None)) kv_empty [] [] 0 [] false 0 0.

Definition s0 : PackedWriter file :=
  mkPackedWriter [[100; 102]; [101]] 64 [[0; 2]; [1]] 0 false
    [new_pw "0.parquet"; new_pw "1.parquet"] [] [].

Definition rec1 : RecordBatch := mkBatch [[1; 2; 3]; [4; 5; 6]] 3 16 0.
Definition rec2 : RecordBatch := mkBatch [[7; 8; 9]] 3 8 10.
Definition packed_ops : list packed_op :=
  [PkWrite (Some rec1); PkMetadata "user" "x"; PkWrite None; PkWrite (Some rec2)].
Definition all_rows : list (list Z) := [[1; 2; 3]; [4; 5; 6]; [7; 8; 9]].

Lemma s0_fresh : packed_fresh s0.
Proof. split_and!; try done. repeat constructor; eexists _, _; done. Qed.

(** Closed facts about the sample records, by evaluation. *)
Ltac sample_ok :=
  repeat (split || constructor); simpl; try done;
  try match goal with
  | H : SelectColumns _ _ = Ok _ |- _ => vm_compute in H; injection H as <-; vm_compute; discriminate
  end.

Lemma ops_ok : Forall (packed_op_ok 16 (pk_group_indices s0)) packed_ops.
Proof. sample_ok. Qed.

Lemma packed_files_hold_all_rows_witness :
  ∃ s w pqw, (for_each run_packed_op packed_ops;; PK_Close) s0 = (s, Ok tt) ∧
    pk_writers s !! 0%nat = Some w ∧ pw_writer w = Some pqw ∧
    mjoin (pq_groups pqw) = [[1; 3]; [4; 6]; [7; 9]].
Proof.
  pose proof (packed_files_hold_all_rows 16 ltac:(by unfold ROW_MAX) s0 packed_ops s0_fresh ops_ok
    ltac:(by vm_compute)) as Hwp.
  unfold wp in Hwp. destruct ((for_each run_packed_op packed_ops;; PK_Close) s0) as [s [[]|e|]].
  - destruct Hwp as (_ & _ & Hall).
    destruct (Hall 0%nat [0; 2] eq_refl) as (w & pqw & v & Hw & Hpw & Hrows & _).
    by exists s, w, pqw.
  - destruct Hwp. apply mem_parquet_works.
  - done.
Defined.

Lemma packed_footer_read_back_witness :
  ∃ s w pqw m p, (for_each run_packed_op packed_ops;; PK_Close) s0 = (s, Ok tt) ∧
    pk_writers s !! 1%nat = Some w ∧ pw_writer w = Some pqw ∧ pq_kv pqw = Some m ∧
    PackedFileMetadata_Make (mkFileMetaData (Some m) 1) = Ok p ∧
    field_id_mapping_ p !! 102 = Some (mkColumnOffset 0 1).
Proof.
  pose proof (packed_footer_read_back 16 ltac:(by unfold ROW_MAX) s0 packed_ops 1 s0_fresh ops_ok
    ltac:(by vm_compute)) as Hwp.
  do 2 (specialize (Hwp ltac:(apply (bool_decide_unpack _); vm_compute; exact I))).
  specialize (Hwp ltac:(repeat constructor)).
  do 2 (specialize (Hwp ltac:(apply (bool_decide_unpack _); vm_compute; exact I))).
  specialize (Hwp ltac:(by vm_compute)).
  unfold wp in Hwp. destruct ((for_each run_packed_op packed_ops;; PK_Close) s0) as [s [[]|e|]].
  - destruct (Hwp 1%nat [1] eq_refl) as (w & pqw & m & p & Hw & Hpw & Hkv & Hmake & _ & _ & Hmap).
    exists s, w, pqw, m, p. split_and!; try done. by apply (Hmap 0%nat 1%nat [100; 102]).
  - destruct Hwp. apply mem_parquet_works.
  - done.
Defined.

Lemma packed_write_bounds_memory_witness :
  ∃ s, PK_Write (Some rec1) s0 = (s, Ok tt) ∧ pk_memory s = wrap_u64 (heap_sum (pk_heap s)).
Proof.
  pose proof (packed_write_bounds_memory 16 ltac:(by unfold ROW_MAX) s0 [] rec1) as Hwp.
  specialize (Hwp (proj1 (packed_fresh_held 16 s0 s0_fresh)) ltac:(sample_ok) ltac:(by vm_compute)).
  unfold wp in Hwp. destruct (PK_Write (Some rec1) s0) as [s [[]|e|]].
  - exists s. split; [done|]. apply Hwp.
  - destruct Hwp. apply mem_parquet_works.
  - done.
Defined.

Lemma merge_accounts_witness :
  ∃ g', Merge (group_of_batch 0 [0] (Some rec1)) (group_of_batch 0 [0] (Some rec2)) = Ok g' ∧
    group_inv g' ∧ memory_usage_ g' = 72 ∧ total_rows_ g' = 3.
Proof.
  edestruct (merge_accounts (group_of_batch 0 [0] (Some rec1)) (group_of_batch 0 [0] (Some rec2)))
    as (g' & Hm & Hinv & _); [by split_and!|].
  exists g'. split_and!; [done|apply Hinv..| |]; vm_compute in Hm; by injection Hm as <-.
Defined.

Lemma size_split_partitions_witness :
  ∃ gs, group_columns 0 [(10, 5); (10240, 5); (20, 5); (30, 5)] 2 [] [] = Ok gs ∧
    gs = [[1]; [0; 2]; [3]].
Proof.
  destruct (size_split_partitions [(10, 5); (10240, 5); (20, 5); (30, 5)] 2) as (gs & Hgs & _);
    [done|by repeat constructor|].
  exists gs. split; [done|]. vm_compute in Hgs. by injection Hgs as <-.
Defined.

(** A column without rows makes the average divide by zero, and a batch whose
    columns are all large still gets an empty last group. *)
Example size_split_no_rows : group_columns 0 [(0, 0)] 2 [] [] = Ub.
Proof. reflexivity. Qed.
Example size_split_empty_group : group_columns 0 [(10240, 5)] 2 [] [] = Ok [[0]; []].
Proof. reflexivity. Qed.

(** Opening on the filesystem in memory. *)
#[export] Instance sample_props : WriterProps := {
  WriterProperties := list BuilderCall;
  has_encryption _ := false;
  default_compression _ := UNCOMPRESSED;
  builder_build p calls := p ++ calls;
}.

#[export] Instance sample_env : WriterEnv MemFs.State file := {
  upload_sizable := false;
  OpenOutputStreamWithUploadSize p _ s := (s, Err (mkStatus NotImplemented None));
  FileWriter_Open _ _ _ := Ok ([], None);
}.

Definition no_props : WriterProperties := [].

Definition field_with (name id : string) : Field :=
  mkField name "int64" false (Some [(ARROW_FIELD_ID_KEY, id)]).
Definition schema3 : Schema := [field_with "a" "100"; field_with "b" "101"; field_with "c" "102"].

Lemma sample_open_empty schema sink props (w : file) :
  FileWriter_Open schema sink props = Ok w → pq_groups w = [] ∧ pq_kv w = None.
Proof. simpl. intros [= <-]. done. Qed.

Lemma packed_make_fresh_witness :
  ∃ fs s, PK_Make true ["0.parquet"; "1.parquet"] (Some schema3) 0 [[0; 2]; [1]] 64 no_props
            (MemFs.mkState ∅ []) = (fs, Ok s) ∧ packed_fresh s ∧
    pk_group_field_ids s = [[100; 102]; [101]].
Proof.
  destruct (PK_Make true ["0.parquet"; "1.parquet"] (Some schema3) 0 [[0; 2]; [1]] 64 no_props
    (MemFs.mkState ∅ [])) as [fs [s|e|]] eqn:E.
  - exists fs, s. split; [done|].
    destruct (packed_make_fresh sample_open_empty _ _ _ _ _ _ _ _ _ _ E)
      as [Hfresh _]. split; [done|]. vm_compute in E. by injection E as <- <-.
  - vm_compute in E. discriminate.
  - vm_compute in E. discriminate.
Defined.

(** A closed packed writer still accepts records: writing after [Close]
    returns success, and so does a second [Close], but the rows reach no file
    (a defect of the code). *)
Theorem write_after_close_loses_rows :
  let s1 := ((PK_Write (Some rec1);; PK_Close) s0).1 in
  ((PK_Write (Some rec1);; PK_Close) s0).2 = Ok tt ∧
  ((PK_Write (Some rec2);; PK_Close) s1).2 = Ok tt ∧
  (pw_writer <$> pk_writers ((PK_Write (Some rec2);; PK_Close) s1).1)
  = (pw_writer <$> pk_writers s1).
Proof. vm_compute. done. Qed.
End PackedSample.
