(* ===== verification/ChunkManager.v ===== *)
(** * The chunk manager

    [packed/chunk_manager.h/.cpp]: the packed reader holds, per file, a queue
    of tables; the chunk manager keeps one cursor per column and cuts the
    longest slice that is contiguous in every column, pops the tables that are
    used up, and returns the slices.

    Tables are lists of columns and columns lists of chunks; arrow's arrays
    are a parameter.  The theorem: when the cursors of the columns of a file
    stand at the same row, a cut returns for every column the next rows, all
    of the same number, and leaves the cursors at the row after them. *)

From S2P Require Import Prelude CppString Status Config PackedMetadata.

(** ** Arrow arrays *)

Class Arrays := {
  Array : Type;
  array_length : Array → Z;
  array_Slice : Array → Z → Z → Array;
}.

Class ArrayLaws `{Arrays} := {
  cell : Type;
  acells : Array → list cell;
  acells_length a : array_length a = Z.of_nat (length (acells a));
  slice_cells a o l : 0 ≤ o → 0 ≤ l → o + l ≤ array_length a →
    acells (array_Slice a o l) = take (Z.to_nat l) (drop (Z.to_nat o) (acells a));
}.

(** ** The state *)

Record ChunkState := mkChunkState {
  cs_chunk : Z;     (* int *)
  cs_offset : Z;    (* int64_t *)
}.

Definition cs_reset : ChunkState := mkChunkState 0 0.
Definition cs_incOffset (st : ChunkState) (delta : Z) : ChunkState :=
  mkChunkState (cs_chunk st) (cs_offset st + delta).
Definition cs_nextChunk (st : ChunkState) : ChunkState :=
  mkChunkState (cs_chunk st + 1) 0.     (* addChunk(1), resetOffset() *)

(** [arrow::Table]: columns, each a list of chunks. *)
Abbreviation Table := (list (list Array)).
(** A queue holds pointers to tables. *)
Abbreviation TableQueue := (list (option Table)).

Section manager.
Context `{Arrays}.

Record ChunkManager := mkChunkManager {
  column_offsets_ : list ColumnOffset;
  chunk_states_ : list ChunkState;
  chunksize_ : Z;
}.

Definition ChunkManager_new (column_offsets : list ColumnOffset) (chunksize : Z) : ChunkManager :=
  mkChunkManager column_offsets (replicate (length column_offsets) cs_reset) chunksize.

(** [vector] access without a check. *)
Definition vec_get {A} (l : list A) (i : Z) : outcome raised A :=
  if i <? 0 then Ub else deref (l !! Z.to_nat i).

(** The first loop, for one column: its current chunk and the number of chunks
    of the column.  The chunk size shrinks to what is left of the chunk. *)
Definition pick_chunk (tables : list TableQueue) (offset : ColumnOffset) (st : ChunkState) :
    M Z raised (Array * Z) :=
  queue ← lift (vec_get tables (path_index offset));
  match queue with
  | Some table :: _ =>
      if Z.of_nat (length table) <=? col_index offset then fail Thrown
      else
        column ← lift (vec_get table (col_index offset));
        chunk ← lift (vec_get column (cs_chunk st));
        modify (λ size, Z.min size (array_length chunk - cs_offset st));;
        mret (chunk, Z.of_nat (length column))
  | _ => fail Thrown
  end.

Fixpoint pick_chunks (tables : list TableQueue) (offsets : list ColumnOffset)
    (states : list ChunkState) : M Z raised (list (Array * Z)) :=
  match offsets, states with
  | offset :: offsets', st :: states' =>
      c ← pick_chunk tables offset st;
      rest ← pick_chunks tables offsets' states';
      mret (c :: rest)
  | [], _ => mret []
  | _ :: _, [] => undefined
  end.

(** The second loop, for one column: the slice, the new cursor, and whether
    the column has used up its table. *)
Definition advance_column (size : Z) (st : ChunkState) (chunk : Array) (num_chunks : Z) :
    Array * ChunkState * bool :=
  if array_length chunk - cs_offset st =? size then
    let slice := if 0 <? cs_offset st then array_Slice chunk (cs_offset st) size else chunk in
    let st' := cs_nextChunk st in
    if cs_chunk st' =? num_chunks then (slice, cs_reset, true) else (slice, st', false)
  else (array_Slice chunk (cs_offset st) size, cs_incOffset st size, false).

Fixpoint advance_columns (size : Z) (offsets : list ColumnOffset) (states : list ChunkState)
    (chunks : list (Array * Z)) : list Array * list ChunkState * list Z :=
  match offsets, states, chunks with
  | offset :: offsets', st :: states', (chunk, n) :: chunks' =>
      let '(slice, st', pop) := advance_column size st chunk n in
      let '(slices, sts, pops) := advance_columns size offsets' states' chunks' in
      (slice :: slices, st' :: sts, if pop then path_index offset :: pops else pops)
  | _, _, _ => ([], [], [])
  end.

(** The third loop, over the set of files whose table is used up. *)
Definition pop_tables (to_pop : list Z) (tables : list TableQueue) : list TableQueue :=
  foldl (λ ts i, alter tail (Z.to_nat i) ts) tables (remove_dups to_pop).

(** [SliceChunksByMaxContiguousSlice]. *)
Definition SliceChunksByMaxContiguousSlice (chunksize : Z) :
    M (ChunkManager * list TableQueue) raised (list Array) := λ '(cm, tables),
  match pick_chunks tables (column_offsets_ cm) (chunk_states_ cm)
          (Z.min chunksize DEFAULT_READ_BATCH_SIZE) with
  | (size, Ok chunks) =>
      let '(slices, states, to_pop) :=
        advance_columns size (column_offsets_ cm) (chunk_states_ cm) chunks in
      ((mkChunkManager (column_offsets_ cm) states size, pop_tables to_pop tables), Ok slices)
  | (size, Err e) =>
      ((mkChunkManager (column_offsets_ cm) (chunk_states_ cm) size, tables), Err e)
  | (size, Ub) =>
      ((mkChunkManager (column_offsets_ cm) (chunk_states_ cm) size, tables), Ub)
  end.

(** [ResetChunkState]: the cursors of the columns of one file. *)
Definition ResetChunkState (path : Z) (cm : ChunkManager) : ChunkManager :=
  mkChunkManager (column_offsets_ cm)
    (zip_with (λ offset st, if path_index offset =? path then cs_reset else st)
       (column_offsets_ cm) (chunk_states_ cm))
    (chunksize_ cm).
End manager.



(** ** Correctness *)

Section correctness.
Context `{ArrayLaws}.

Definition col_rows (column : list Array) : Z := sum_Z (array_length <$> column).
Definition col_cells (column : list Array) : list cell := mjoin (acells <$> column).

(** The cursor stands at row [pos] of the column, inside a chunk. *)
Definition cursor_at (column : list Array) (st : ChunkState) (pos : Z) : Prop :=
  ∃ pre chunk post, column = pre ++ chunk :: post ∧ cs_chunk st = Z.of_nat (length pre) ∧
    0 ≤ cs_offset st < array_length chunk ∧ pos = col_rows pre + cs_offset st.

(** A table of [n] rows without empty chunks. *)
Definition table_ok (n : Z) (t : Table) : Prop :=
  0 < n ∧ Forall (λ column, col_rows column = n ∧ Forall (λ c, 0 < array_length c) column) t.

Lemma col_rows_cells column : col_rows column = Z.of_nat (length (col_cells column)).
Proof.
  unfold col_rows, col_cells. induction column as [|c column IH]; [done|].
  rewrite !fmap_cons. change (mjoin (acells c :: (acells <$> column)))
    with (acells c ++ mjoin (acells <$> column)).
  unfold sum_Z in *; simpl. rewrite length_app, IH, acells_length. lia.
Qed.

Lemma col_cells_app c1 c2 : col_cells (c1 ++ c2) = col_cells c1 ++ col_cells c2.
Proof. unfold col_cells. by rewrite fmap_app, join_app. Qed.

Lemma col_rows_app c1 c2 : col_rows (c1 ++ c2) = col_rows c1 + col_rows c2.
Proof. unfold col_rows. by rewrite fmap_app, sum_Z_app. Qed.

Lemma col_cells_cons c column : col_cells (c :: column) = acells c ++ col_cells column.
Proof. done. Qed.

Lemma col_rows_cons c column : col_rows (c :: column) = array_length c + col_rows column.
Proof. done. Qed.

Lemma cursor_start column n :
  0 < n → col_rows column = n → Forall (λ c, 0 < array_length c) column →
  cursor_at column cs_reset 0.
Proof.
  intros Hn Hr Hpos. destruct column as [|c column]; [unfold col_rows, sum_Z in Hr; simpl in Hr; lia|].
  apply Forall_cons in Hpos as [Hc _]. exists [], c, column. by split_and!.
Qed.

(** What a cursor has in front of it in its column. *)
Lemma cursor_cells pre chunk post off :
  0 ≤ off ≤ array_length chunk →
  drop (Z.to_nat (col_rows pre + off)) (col_cells (pre ++ chunk :: post))
  = drop (Z.to_nat off) (acells chunk) ++ col_cells post.
Proof.
  intros Hoff. rewrite col_cells_app, col_cells_cons, col_rows_cells.
  rewrite Z2Nat.inj_add, Nat2Z.id, <- drop_drop by lia. rewrite drop_app_length.
  rewrite drop_app_le; [done|]. rewrite acells_length in Hoff. lia.
Qed.

(** One column: the slice is the next [size] cells; the cursor either moves on
    or the column is used up, exactly when the position reaches its end. *)
Lemma advance_column_spec column st pos chunk size :
  cursor_at column st pos → column !! Z.to_nat (cs_chunk st) = Some chunk →
  Forall (λ c, 0 < array_length c) column →
  0 < size ≤ array_length chunk - cs_offset st →
  let '(slice, st', pop) := advance_column size st chunk (Z.of_nat (length column)) in
  acells slice = take (Z.to_nat size) (drop (Z.to_nat pos) (col_cells column)) ∧
  Z.of_nat (length (acells slice)) = size ∧ pos + size ≤ col_rows column ∧
  if pop then pos + size = col_rows column ∧ st' = cs_reset
  else pos + size < col_rows column ∧ cursor_at column st' (pos + size).
Proof.
  intros (pre & c & post & -> & Hch & Hoff & ->) Hc Hpos Hsize.
  rewrite Hch, Nat2Z.id, list_lookup_middle in Hc by done. injection Hc as ->.
  assert (acells (array_Slice chunk (cs_offset st) size)
          = take (Z.to_nat size) (drop (Z.to_nat (cs_offset st)) (acells chunk))) as Hsl
    by (apply slice_cells; lia).
  assert (Z.of_nat (length (take (Z.to_nat size) (drop (Z.to_nat (cs_offset st)) (acells chunk))))
          = size) as Hlen.
  { rewrite length_take, length_drop. rewrite acells_length in Hsize. lia. }
  assert (take (Z.to_nat size) (drop (Z.to_nat (col_rows pre + cs_offset st))
            (col_cells (pre ++ chunk :: post)))
          = take (Z.to_nat size) (drop (Z.to_nat (cs_offset st)) (acells chunk))) as Htake.
  { rewrite cursor_cells by lia. rewrite take_app_le; [done|].
    rewrite length_drop. rewrite acells_length in Hsize. lia. }
  rewrite !col_rows_app, !col_rows_cons. unfold advance_column, cs_nextChunk.
  assert (0 ≤ col_rows post) by (rewrite col_rows_cells; lia).
  destruct (Z.eqb_spec (array_length chunk - cs_offset st) size) as [Heq|Hne].
  - assert (acells (if 0 <? cs_offset st then array_Slice chunk (cs_offset st) size else chunk)
            = take (Z.to_nat size) (drop (Z.to_nat (cs_offset st)) (acells chunk))) as Hsl'.
    { destruct (Z.ltb_spec 0 (cs_offset st)); [done|].
      assert (cs_offset st = 0) as Hz by lia. rewrite Hz, drop_0, take_ge; [done|].
      rewrite acells_length in Heq. lia. }
    cbn [cs_chunk]. rewrite length_app, Hch. cbn [length].
    destruct (Z.eqb_spec (Z.of_nat (length pre) + 1) (Z.of_nat (length pre + S (length post))))
      as [Hlast|Hmore]; rewrite Hsl', Htake; split_and!; try done; try lia.
    + assert (post = []) as -> by (destruct post; [done|simpl in *; lia]).
      unfold col_rows, sum_Z; simpl. lia.
    + apply Forall_app in Hpos as [_ [_ Hpost]%Forall_cons].
      destruct post as [|c2 post]; [simpl in *; lia|]. apply Forall_cons in Hpost as [Hc2 _].
      rewrite col_rows_cons in *.
      assert (0 ≤ col_rows post) by (rewrite col_rows_cells; lia). lia.
    + destruct post as [|c2 post]; [simpl in *; lia|].
      apply Forall_app in Hpos as [_ [_ [Hc2 _]%Forall_cons]%Forall_cons].
      exists (pre ++ [chunk]), c2, post. rewrite <- app_assoc. 
      rewrite length_app, col_rows_app. simpl. unfold col_rows at 3, sum_Z; simpl.
      split_and!; [done|lia|lia|lia|lia].
  - rewrite Hsl, Htake. split_and!; try done; try lia.
    exists pre, chunk, post. unfold cs_incOffset; simpl. split_and!; [done|done|lia|lia|lia].
Qed.

(** *** All columns *)

Definition front_column (queue : TableQueue) (col : Z) : option (list Array) :=
  match queue with Some tb :: _ => tb !! Z.to_nat col | _ => None end.

(** The number of rows of the first table. *)
Definition front_rows (queue : TableQueue) : Z :=
  match queue with Some (c :: _) :: _ => col_rows c | _ => 0 end.

Definition queue_ok (col : Z) (queue : TableQueue) : Prop :=
  Forall (λ t, ∃ tb n, t = Some tb ∧ table_ok n tb ∧ 0 ≤ col < Z.of_nat (length tb)) queue.

(** The cursor of a column at row [pos] of the first table of its queue. *)
Definition cursor_ok (queue : TableQueue) (col : Z) (st : ChunkState) (pos : Z) : Prop :=
  match queue with
  | [] => st = cs_reset ∧ pos = 0
  | _ => ∃ column, front_column queue col = Some column ∧ cursor_at column st pos
  end.

(** All cells of a column in the tables of a queue. *)
Definition cell_stream (queue : TableQueue) (col : Z) : list cell :=
  mjoin ((λ t, default [] (col_cells <$> (t ≫= λ tb : Table, tb !! Z.to_nat col))) <$> queue).

(** What is left to return of a column. *)
Definition remaining (tables : list TableQueue) (pos : Z → Z) (off : ColumnOffset) : list cell :=
  drop (Z.to_nat (pos (path_index off)))
    (cell_stream (default [] (tables !! Z.to_nat (path_index off))) (col_index off)).

(** The cursors of the columns of one file stand at the same row [pos]. *)
Definition aligned (pos : Z → Z) (tables : list TableQueue) (off : ColumnOffset)
    (st : ChunkState) : Prop :=
  0 ≤ path_index off ∧ ∃ queue, tables !! Z.to_nat (path_index off) = Some queue ∧
    queue_ok (col_index off) queue ∧ cursor_ok queue (col_index off) st (pos (path_index off)).

Definition cm_inv (pos : Z → Z) (cm : ChunkManager) (tables : list TableQueue) : Prop :=
  Forall2 (aligned pos tables) (column_offsets_ cm) (chunk_states_ cm).

Definition tables_ready (cm : ChunkManager) (tables : list TableQueue) : Prop :=
  Forall (λ off, tables !! Z.to_nat (path_index off) ≠ Some []) (column_offsets_ cm).

(** The chunk of an aligned column. *)
Definition picked (pos : Z → Z) (tables : list TableQueue) (size : Z) (off : ColumnOffset)
    (st : ChunkState) (c : Array * Z) : Prop :=
  ∃ queue column, 0 ≤ path_index off ∧ tables !! Z.to_nat (path_index off) = Some queue ∧
    queue_ok (col_index off) queue ∧ front_column queue (col_index off) = Some column ∧
    cursor_at column st (pos (path_index off)) ∧
    column !! Z.to_nat (cs_chunk st) = Some c.1 ∧ c.2 = Z.of_nat (length column) ∧
    size ≤ array_length c.1 - cs_offset st.

Lemma vec_get_Some {A} (l : list A) i a : 0 ≤ i → l !! Z.to_nat i = Some a → vec_get l i = Ok a.
Proof. intros Hi Ha. unfold vec_get. destruct (Z.ltb_spec i 0); [lia|]. by rewrite Ha. Qed.

Lemma pick_chunk_spec pos tables off st size0 :
  aligned pos tables off st → tables !! Z.to_nat (path_index off) ≠ Some [] → 0 < size0 →
  ∃ c size, pick_chunk tables off st size0 = (size, Ok c) ∧ 0 < size ≤ size0 ∧
    picked pos tables size off st c.
Proof.
  intros (Hp & queue & Hq & Hok & Hcur) Hne Hs. destruct queue as [|t queue]; [done|].
  pose proof Hok as [(tb & n & -> & Htb & Hcol) _]%Forall_cons.
  destruct Hcur as (column & Hcolumn & Hat). simpl in Hcolumn.
  pose proof Hat as (pre & chunk & post & -> & Hch & Hoff & _).
  assert ((pre ++ chunk :: post) !! Z.to_nat (cs_chunk st) = Some chunk) as Hlk.
  { rewrite Hch, Nat2Z.id. by apply list_lookup_middle. }
  unfold pick_chunk, lift, mbind, M_bind. rewrite (vec_get_Some _ _ _ Hp Hq).
  destruct (Z.leb_spec (Z.of_nat (length tb)) (col_index off)); [lia|].
  rewrite (vec_get_Some _ _ _ (proj1 Hcol) Hcolumn).
  rewrite (vec_get_Some _ (cs_chunk st) chunk) by (done || lia). simpl.
  eexists _, _. split; [done|]. split; [lia|].
  exists (Some tb :: queue), (pre ++ chunk :: post). split_and!; try done. simpl. lia.
Qed.

Lemma picked_mono pos tables size size' off st c :
  size' ≤ size → picked pos tables size off st c → picked pos tables size' off st c.
Proof.
  intros Hle (queue & column & H1 & H2 & H3 & H4 & H5 & H6 & H7 & H8).
  exists queue, column. split_and!; try done. lia.
Qed.

Lemma pick_chunks_spec pos tables offs sts size0 :
  Forall2 (aligned pos tables) offs sts →
  Forall (λ off, tables !! Z.to_nat (path_index off) ≠ Some []) offs → 0 < size0 →
  ∃ cs size, pick_chunks tables offs sts size0 = (size, Ok cs) ∧ 0 < size ≤ size0 ∧
    Forall3 (picked pos tables size) offs sts cs.
Proof.
  intros Hal. revert size0. induction Hal as [|off st offs sts Ha _ IH]; intros size0 Hne Hs.
  - exists [], size0. split_and!; [done|lia|lia|constructor].
  - apply Forall_cons in Hne as [Hne1 Hne].
    destruct (pick_chunk_spec pos tables off st size0 Ha Hne1 Hs) as (c & size1 & Hc & Hs1 & Hp).
    destruct (IH size1 Hne ltac:(lia)) as (cs & size & Hcs & Hs2 & Hps).
    exists (c :: cs), size. cbn [pick_chunks]. rewrite (M_bind_Ok _ _ _ _ _ Hc), (M_bind_Ok _ _ _ _ _ Hcs).
    split_and!; [done|lia|lia|]. constructor; [|done]. eapply picked_mono; [|done]. lia.
Qed.

(** One table has the same number of rows in every column. *)
Lemma front_rows_column queue col column :
  queue_ok col queue → front_column queue col = Some column →
  front_rows queue = col_rows column ∧ Forall (λ c, 0 < array_length c) column.
Proof.
  destruct queue as [|t queue]; [done|]. intros [(tb & n & -> & [_ Htb] & Hcol) _]%Forall_cons Hc.
  simpl in *. rewrite Forall_forall in Htb.
  destruct (Htb column) as [Hr Hpos]; [by eapply list_elem_of_lookup_2|]. split; [|done].
  destruct tb as [|c0 tb]; [simpl in Hcol; lia|]. destruct (Htb c0) as [-> _]; [by left|]. done.
Qed.

(** What the second loop makes of a picked column. *)
Definition advanced (pos : Z → Z) (tables : list TableQueue) (size : Z) (off : ColumnOffset)
    (slice : Array) (st' : ChunkState) : Prop :=
  ∃ queue column, 0 ≤ path_index off ∧ tables !! Z.to_nat (path_index off) = Some queue ∧
    queue_ok (col_index off) queue ∧ front_column queue (col_index off) = Some column ∧
    acells slice = take (Z.to_nat size) (drop (Z.to_nat (pos (path_index off))) (col_cells column)) ∧
    Z.of_nat (length (acells slice)) = size ∧ 0 ≤ pos (path_index off) ∧
    pos (path_index off) + size ≤ col_rows column ∧
    if decide (pos (path_index off) + size = front_rows queue) then st' = cs_reset
    else cursor_at column st' (pos (path_index off) + size).

(** The files that have used up their first table. *)
Definition drained (pos : Z → Z) (tables : list TableQueue) (size p : Z) : Prop :=
  ∃ queue, tables !! Z.to_nat p = Some queue ∧ pos p + size = front_rows queue.

Lemma cursor_pos_nonneg column st pos : cursor_at column st pos → 0 ≤ pos.
Proof.
  intros (pre & c & post & -> & _ & Ho & ->).
  assert (0 ≤ col_rows pre) by (rewrite col_rows_cells; lia). lia.
Qed.

Lemma advance_columns_spec pos tables size offs sts cs :
  0 < size → Forall3 (picked pos tables size) offs sts cs →
  let '(slices, sts', pops) := advance_columns size offs sts cs in
  Forall3 (advanced pos tables size) offs slices sts' ∧
  (∀ p, p ∈ pops ↔ (∃ off, off ∈ offs ∧ path_index off = p) ∧ drained pos tables size p).
Proof.
  intros Hs. induction 1 as [|off st [chunk n] offs sts cs Hp _ IH]; cbn [advance_columns].
  - split; [constructor|]. set_solver.
  - destruct Hp as (queue & column & Hp0 & Hq & Hok & Hcol & Hat & Hch & Hn & Hsz). simpl in *. subst n.
    destruct (front_rows_column queue (col_index off) column Hok Hcol) as [Hfr Hpos].
    pose proof (advance_column_spec column st _ chunk size Hat Hch Hpos ltac:(lia)) as Hadv.
    destruct (advance_column size st chunk (Z.of_nat (length column))) as [[slice st'] pop].
    destruct (advance_columns size offs sts cs) as [[slices sts'] pops].
    destruct IH as [IH1 IH2]. destruct Hadv as (Hsl & Hlen & Hle & Hend).
    pose proof (cursor_pos_nonneg _ _ _ Hat) as Hpos0.
    split.
    + constructor; [|done]. exists queue, column. split_and!; try done.
      destruct pop, Hend as [Hend1 Hend2]; case_decide; try done; lia.
    + assert (pop = true ↔ drained pos tables size (path_index off)) as Hpop.
      { unfold drained. rewrite Hq. split.
        - intros ->. destruct Hend. exists queue. split; [done|congruence].
        - intros (q & [= <-] & Heq). destruct pop; [done|]. destruct Hend. lia. }
      intros p. destruct pop.
      * rewrite elem_of_cons, IH2. set_solver.
      * rewrite IH2. split; [set_solver|]. intros [(o & Ho & <-) Hd].
        apply elem_of_cons in Ho as [->|Ho]; [by apply Hpop in Hd|]. eauto.
Qed.

Lemma pop_tables_lookup l (tables : list TableQueue) j :
  NoDup l → Forall (λ p, 0 ≤ p) l →
  foldl (λ ts i, alter tail (Z.to_nat i) ts) tables l !! j
  = (if decide (Z.of_nat j ∈ l) then tail else id) <$> tables !! j.
Proof.
  intros Hnd Hl. revert tables. induction Hnd as [|p l Hp Hnd IH]; intros tables; cbn [foldl].
  - rewrite decide_False by set_solver. by destruct (tables !! j).
  - apply Forall_cons in Hl as [Hp0 Hl]. rewrite (IH Hl).
    destruct (decide (Z.of_nat j = p)) as [<-|Hne].
    + rewrite Nat2Z.id, list_lookup_alter_eq. rewrite decide_False by done.
      rewrite decide_True by set_solver. apply option_fmap_id.
    + rewrite list_lookup_alter_ne by lia.
      destruct (decide (Z.of_nat j ∈ l)), (decide (Z.of_nat j ∈ p :: l)); set_solver.
Qed.

Definition pos_after (pos : Z → Z) (size : Z) (pops : list Z) (p : Z) : Z :=
  if decide (p ∈ pops) then 0 else pos p + size.

Lemma pop_lookup pops tables p queue :
  Forall (λ p, 0 ≤ p) pops → 0 ≤ p → tables !! Z.to_nat p = Some queue →
  pop_tables pops tables !! Z.to_nat p = Some (if decide (p ∈ pops) then tail queue else queue).
Proof.
  intros Hpops Hp Hq. unfold pop_tables. rewrite pop_tables_lookup, Hq.
  - rewrite Z2Nat.id by done. simpl.
    destruct (decide (p ∈ remove_dups pops)) as [Hin|Hin], (decide (p ∈ pops)) as [Hin'|Hin'];
      rewrite elem_of_remove_dups in Hin; done.
  - apply NoDup_remove_dups.
  - rewrite Forall_forall in Hpops. apply Forall_forall. intros x Hx.
    rewrite elem_of_remove_dups in Hx. exact (Hpops x Hx).
Qed.

(** After the cut a column is aligned again, and its slice followed by what is
    left is what was left before. *)
Lemma advanced_aligned pos tables size off slice st' pops :
  advanced pos tables size off slice st' → 0 < size → Forall (λ p, 0 ≤ p) pops →
  (path_index off ∈ pops ↔ drained pos tables size (path_index off)) →
  aligned (pos_after pos size pops) (pop_tables pops tables) off st' ∧
  acells slice ++ remaining (pop_tables pops tables) (pos_after pos size pops) off
  = remaining tables pos off.
Proof.
  intros (queue & column & Hp & Hq & Hok & Hcol & Hsl & Hlen & Hp0 & Hle & Hend) Hs Hpops Hin.
  destruct (front_rows_column queue (col_index off) column Hok Hcol) as [Hfr _].
  destruct queue as [|t queue]; [done|]. pose proof Hok as [(tb & n & -> & Htb & Hc) Hrest]%Forall_cons.
  simpl in Hcol.
  pose proof (pop_lookup pops tables _ _ Hpops Hp Hq) as Hq'.
  assert (cell_stream (Some tb :: queue) (col_index off)
          = col_cells column ++ cell_stream queue (col_index off)) as Hstream.
  { unfold cell_stream. rewrite fmap_cons. simpl. by rewrite Hcol. }
  assert (drop (Z.to_nat (pos (path_index off))) (col_cells column)
          = acells slice ++ drop (Z.to_nat (pos (path_index off) + size)) (col_cells column)) as Hdrop.
  { rewrite Hsl, Z2Nat.inj_add, <- drop_drop by lia. symmetry. apply take_drop. }
  rewrite col_rows_cells in Hle, Hfr. unfold drained in Hin. rewrite Hq in Hin.
  unfold aligned, remaining. rewrite Hq, Hq'. simpl default. unfold pos_after.
  destruct (decide (path_index off ∈ pops)) as [Hpop|Hpop].
  - apply Hin in Hpop as (q & [= <-] & Heq). rewrite decide_True in Hend by done.
    split; [split; [done|]; exists queue; split_and!; [done|done|]|].
    + destruct queue as [|t2 queue]; [done|]. simpl tail.
      apply Forall_cons in Hrest as [(tb2 & n2 & -> & [Hn2 Htb2] & Hc2) _].
      destruct (lookup_lt_is_Some_2 tb2 (Z.to_nat (col_index off))) as [col2 Hcol2]; [lia|].
      exists col2. split; [done|]. subst st'. rewrite Forall_forall in Htb2.
      destruct (Htb2 col2) as [Hr2 Hpos2]; [by eapply list_elem_of_lookup_2|]. by eapply cursor_start.
    + simpl tail. rewrite drop_0, Hstream, drop_app_le by lia. rewrite Hdrop.
      rewrite (drop_ge _ (Z.to_nat (pos (path_index off) + size))) by lia. by rewrite app_nil_r.
  - rewrite decide_False in Hend by (intros Heq; apply Hpop, Hin; eauto).
    split; [split; [done|]; exists (Some tb :: queue); split_and!; [done|done|by exists column]|].
    rewrite Hstream, !drop_app_le by lia. by rewrite Hdrop, app_assoc.
Qed.

Lemma Forall3_impl_elem {A B C} (P Q : A → B → C → Prop) l k k' :
  Forall3 P l k k' → (∀ x y z, x ∈ l → P x y z → Q x y z) → Forall3 Q l k k'.
Proof.
  induction 1 as [|x y z l k k' Hp _ IH]; intros Himp; constructor.
  - apply Himp; [by left|done].
  - apply IH. intros. apply Himp; [by right|done].
Qed.

Lemma Forall3_first_third {A B C} (P : A → B → C → Prop) (Q : A → C → Prop) l k k' :
  Forall3 P l k k' → (∀ x y z, P x y z → Q x z) → Forall2 Q l k'.
Proof. induction 1; intros; constructor; eauto. Qed.

Lemma Forall3_first_second {A B C} (P : A → B → C → Prop) (Q : A → B → Prop) l k k' :
  Forall3 P l k k' → (∀ x y z, P x y z → Q x y) → Forall2 Q l k.
Proof. induction 1; intros; constructor; eauto. Qed.

(** The cut, as the reader uses it. *)
Lemma slice_chunks_spec pos cm tables chunksize :
  cm_inv pos cm tables → tables_ready cm tables → 0 < chunksize →
  ∃ slices cm' tables' pos',
    SliceChunksByMaxContiguousSlice chunksize (cm, tables) = ((cm', tables'), Ok slices) ∧
    column_offsets_ cm' = column_offsets_ cm ∧ cm_inv pos' cm' tables' ∧
    0 < chunksize_ cm' ≤ Z.min chunksize DEFAULT_READ_BATCH_SIZE ∧
    Forall2 (λ off slice,
      Z.of_nat (length (acells slice)) = chunksize_ cm' ∧
      acells slice ++ remaining tables' pos' off = remaining tables pos off)
      (column_offsets_ cm) slices.
Proof.
  intros Hinv Hready Hsize. unfold SliceChunksByMaxContiguousSlice.
  destruct (pick_chunks_spec pos tables _ _ (Z.min chunksize DEFAULT_READ_BATCH_SIZE) Hinv Hready)
    as (cs & size & -> & Hs & Hpicked); [unfold DEFAULT_READ_BATCH_SIZE; lia|].
  pose proof (advance_columns_spec pos tables size _ _ _ ltac:(lia) Hpicked) as Hadv.
  destruct (advance_columns size (column_offsets_ cm) (chunk_states_ cm) cs) as [[slices sts] pops].
  destruct Hadv as [Hadv Hpops].
  assert (Forall (λ p, 0 ≤ p) pops) as Hnn.
  { apply Forall_forall. intros p [(off & Hoff & <-) _]%Hpops.
    apply list_elem_of_lookup in Hoff as [i Hi].
    destruct (Forall2_lookup_l _ _ _ _ _ Hinv Hi) as (st & _ & Hp & _). done. }
  assert (Forall3 (λ off slice st',
    aligned (pos_after pos size pops) (pop_tables pops tables) off st' ∧
    Z.of_nat (length (acells slice)) = size ∧
    acells slice ++ remaining (pop_tables pops tables) (pos_after pos size pops) off
    = remaining tables pos off) (column_offsets_ cm) slices sts) as Hall.
  { eapply Forall3_impl_elem; [exact Hadv|]. intros off slice st' Hoff Ha. split_and!.
    - eapply advanced_aligned; [done|lia|done|]. rewrite Hpops. naive_solver.
    - by destruct Ha as (? & ? & ? & ? & ? & ? & ? & ? & _).
    - eapply advanced_aligned; [done|lia|done|]. rewrite Hpops. naive_solver. }
  eexists slices, _, (pop_tables pops tables), (pos_after pos size pops).
  split_and!; [done|done| |simpl; lia|simpl; lia|]; simpl.
  - eapply Forall3_first_third; [exact Hall|]. naive_solver.
  - eapply Forall3_first_second; [exact Hall|]. naive_solver.
Qed.

(** C9: A cut returns the next rows of every column.  When the columns of each
    file are aligned, every needed file has a table, tables have no empty
    chunk and the requested size is positive, the cut is defined and does not
    throw; it returns one slice per column, all of the same positive length,
    at most the requested size and [DEFAULT_READ_BATCH_SIZE]; each slice
    followed by what is then left of its column is what was left before; and
    the columns of each file are aligned again. *)
Theorem slice_chunks_correct pos cm tables chunksize :
  cm_inv pos cm tables → tables_ready cm tables → 0 < chunksize →
  ∃ slices cm' tables' pos',
    SliceChunksByMaxContiguousSlice chunksize (cm, tables) = ((cm', tables'), Ok slices) ∧
    column_offsets_ cm' = column_offsets_ cm ∧ cm_inv pos' cm' tables' ∧
    0 < chunksize_ cm' ≤ Z.min chunksize DEFAULT_READ_BATCH_SIZE ∧
    Forall2 (λ off slice,
      Z.of_nat (length (acells slice)) = chunksize_ cm' ∧
      acells slice ++ remaining tables' pos' off = remaining tables pos off)
      (column_offsets_ cm) slices.
Proof. apply slice_chunks_spec. Qed.
End correctness.

(** ** Arrays of integers, and an example *)

Module ListArray.
#[export] Instance list_arrays : Arrays := {
  Array := list Z;
  array_length a := Z.of_nat (length a);
  array_Slice a o l := take (Z.to_nat l) (drop (Z.to_nat o) a);
}.

#[export] Instance list_array_laws : ArrayLaws.
Proof. by refine {| cell := Z; acells := (λ a, a) : Array → list Z |}. Defined.

(** Two files: the column of the first in two chunks, that of the second in
    one. *)
Definition sample_cm : ChunkManager := ChunkManager_new [mkColumnOffset 0 0; mkColumnOffset 1 0] 0.
Definition sample_tables : list (list (option (list (list Array)))) :=
  [[Some [[[1; 2]; [3]]]]; [Some [[[10; 20; 30]]]]].

Lemma slice_chunks_correct_witness :
  ∃ slices cm' tables',
    SliceChunksByMaxContiguousSlice 100 (sample_cm, sample_tables) = ((cm', tables'), Ok slices) ∧
    slices = [[1; 2]; [10; 20]] ∧ chunksize_ cm' = 2.
Proof.
  destruct (slice_chunks_correct (λ _, 0) sample_cm sample_tables 100)
    as (slices & cm' & tables' & pos' & Heq & _).
  - repeat constructor; simpl; try lia; eexists; split_and!; try done.
    + repeat constructor. eexists _, 3. split_and!; [done| |done|done].
      split; [done|]. repeat constructor.
    + eexists; split; [done|]. by exists [], [1; 2], [[3]].
    + repeat constructor. eexists _, 3. split_and!; [done| |done|done].
      split; [done|]. repeat constructor.
    + eexists; split; [done|]. by exists [], [10; 20; 30], [].
  - by repeat constructor.
  - done.
  - exists slices, cm', tables'. vm_compute in Heq. injection Heq as <- <- <-. done.
Defined.
End ListArray.
