(* ===== verification/PackedReader.v ===== *)
(** * The packed reader

    [packed/reader.h/.cpp] and [common/row_offset_heap.h]: the metadata of the
    first file says which file holds which field; [advanceBuffer] plans which
    row groups of which files to read within the memory limit, always
    advancing the file that is furthest behind; [ReadNext] cuts the next batch
    with the chunk manager and fills absent fields with nulls.

    Opening and reading parquet files are parameters.  The theorems of this
    file are two defects: paths that are not in lexicographic order, and a
    call after a failed one, give rows that do not belong together.
    [PackedReaderCorrect] proves the reader correct otherwise. *)

From S2P Require Import Prelude CppString Status PackedMetadata ChunkManager.

(** ** Strings in the order of [std::set] *)

Fixpoint str_ltb (s t : string) : bool :=
  match s, t with
  | EmptyString, EmptyString => false
  | EmptyString, String _ _ => true
  | String _ _, EmptyString => false
  | String a s', String b t' =>
      let x := Ascii.N_of_ascii a in
      let y := Ascii.N_of_ascii b in
      if (x <? y)%N then true else if (y <? x)%N then false else str_ltb s' t'
  end.

(** [std::set<std::string>::emplace]. *)
Fixpoint set_insert (x : string) (l : list string) : list string :=
  match l with
  | [] => [x]
  | y :: l' => if str_ltb x y then x :: l else if str_ltb y x then y :: set_insert x l' else l
  end.

(** ** The library *)

Class PackedFiles `{KeyValueMetadata} `{Arrays} := {
  FileReader : Type;
  MakeArrowFileReader : string → outcome Status FileReader;
  reader_metadata : FileReader → option FileMetaData;    (* parquet_reader()->metadata() *)
  ReadRowGroups : FileReader → list Z → outcome Status (list (list Array));
  MakeArrayOfNull : string → Z → outcome Status Array;
}.

(** ** The state *)

Record ColumnGroupState := mkColumnGroupState {
  row_offset : Z;          (* int64_t *)
  row_group_offset : Z;    (* int64_t *)
  memory_size : Z;         (* int64_t *)
  read_times : Z;          (* int *)
}.

(** [std::pair<int, int>], least second component first. *)
Definition offset_key (e : Z * Z) : Z := - e.2.

Section reader.
Context `{KeyValueMetadata} `{Arrays} `{!PackedFiles} `{!PriorityQueue offset_key}.

Record PackedReader := mkPackedReader {
  rd_schema : Schema;
  rd_field_id_list : FieldIDList;
  rd_field_id_mapping : gmap FieldID ColumnOffset;
  rd_memory_limit : Z;               (* size_t *)
  rd_memory_used : Z;                (* size_t *)
  rd_file_readers : list FileReader;
  rd_tables : list (list (option (list (list Array))));
  rd_states : list ColumnGroupState;
  rd_row_limit : Z;                  (* int64_t *)
  rd_chunk_manager : ChunkManager;
  rd_row_position : Z;               (* absolute_row_position_ *)
  rd_needed_paths : list string;
  rd_metadata_list : list PackedFileMetadata;
  rd_path_index : list Z;            (* file_reader_to_path_index_ *)
  rd_read_count : Z;
}.

(** ** Metadata and schema matching *)

(** [MakePackedMetadata]: any failure to parse, thrown or returned, is reported
    as corrupted metadata; a returned status that already has a detail keeps
    its own. *)
Definition MakePackedMetadata (metadata : option FileMetaData) :
    outcome Status PackedFileMetadata :=
  match metadata with
  | None => Err (MakeExtendError PackedMetadataCorrupted)
  | Some m =>
      match key_value_metadata m with
      | None => Err (MakeExtendError PackedMetadataCorrupted)
      | Some _ =>
          match PackedFileMetadata_Make m with
          | Ok p => Ok p
          | Err (Returned st) => Err (WrapExtendError PackedMetadataCorrupted st)
          | Err Thrown => Err (MakeExtendError PackedMetadataCorrupted)
          | Ub => Ub
          end
      end
  end.

Definition open_file (path : string) : outcome Status (FileReader * PackedFileMetadata) :=
  match MakeArrowFileReader path with
  | Ok file_reader =>
      file_metadata ← MakePackedMetadata (reader_metadata file_reader);
      Ok (file_reader, file_metadata)
  | Err st => Err (WrapExtendError PackedStorageIO st)
  | Ub => Ub
  end.

(** The locals of the matching loop that survive it. *)
Record matching := mkMatching {
  mt_fields : Schema;
  mt_offsets : list ColumnOffset;    (* needed_column_offsets_ *)
  mt_paths : list string;            (* needed_paths_ *)
}.

(** One field of the wanted schema, with its field id. *)
Definition match_field (mapping : gmap FieldID ColumnOffset) (paths : list string)
    (m : matching) (e : Field * FieldID) : outcome Status matching :=
  let '(f, field_id) := e in
  match mapping !! field_id with
  | Some column_offset =>
      if (path_index column_offset <? 0) ||
         (Z.of_nat (length paths) <=? path_index column_offset)
      then Err (MakeExtendError PackedMetadataCorrupted)
      else
        path ← deref (paths !! Z.to_nat (path_index column_offset));
        Ok (mkMatching (mt_fields m ++ [f]) (mt_offsets m ++ [column_offset])
              (set_insert path (mt_paths m)))
  | None =>
      Ok (mkMatching (mt_fields m ++ [mkField (fd_name f) (fd_type f) true (fd_metadata f)])
            (mt_offsets m) (mt_paths m))
  end.

(** [schemaMatching]: against the metadata of the first file. *)
Definition schemaMatching (schema : Schema) (paths : list string) :
    outcome Status (FieldIDList * gmap FieldID ColumnOffset * matching) :=
  path0 ← deref (head paths);
  first ← open_file path0;
  match FieldIDList_Make schema with
  | Err _ => Err (MakeExtendError PackedInvalidArgs)
  | Ub => Ub
  | Ok field_id_list =>
      let mapping := field_id_mapping_ first.2 in
      m ← fold_out (match_field mapping paths) (zip schema field_id_list) (mkMatching [] [] []);
      Ok (field_id_list, mapping, m)
  end.

(** The position of a path among the given paths. *)
Fixpoint index_of (path : string) (paths : list string) (i : Z) : list Z :=
  match paths with
  | [] => []
  | p :: paths' => if bool_decide (p = path) then [i] else index_of path paths' (i + 1)
  end.

(** The loop of [init] over the needed paths, in the order of the set. *)
Definition open_needed (paths needed : list string) :
    outcome Status (list FileReader * list PackedFileMetadata * list Z) :=
  fold_out (λ '(readers, metas, idx) path,
    f ← open_file path;
    Ok (readers ++ [f.1], metas ++ [f.2], idx ++ index_of path paths 0)) needed ([], [], []).

(** [Make] with [init]; null pointers are [None] or [has_fs = false]. *)
Definition PR_Make (has_fs : bool) (paths : list string) (schema : option Schema)
    (buffer_size : Z) : outcome Status PackedReader :=
  if negb has_fs then Err (MakeExtendError PackedInvalidArgs)
  else if bool_decide (paths = []) then Err (MakeExtendError PackedInvalidArgs)
  else match schema with
  | None => Err (MakeExtendError PackedInvalidArgs)
  | Some schema =>
      r ← schemaMatching schema paths;
      let '(field_id_list, mapping, m) := r in
      o ← open_needed paths (mt_paths m);
      let '(readers, metas, idx) := o in
      Ok (mkPackedReader (mt_fields m) field_id_list mapping
            (if buffer_size <=? 0 then INT64_MAX else buffer_size) 0 readers
            (replicate (length paths) []) (replicate (length readers) (mkColumnGroupState 0 (-1) 0 0))
            0 (ChunkManager_new (mt_offsets m) 0) 0 (mt_paths m) metas idx 0)
  end.

Definition file_metadata (s : PackedReader) (i : Z) : option PackedFileMetadata :=
  if (i <? 0) || (Z.of_nat (length (rd_metadata_list s)) <=? i) then None
  else rd_metadata_list s !! Z.to_nat i.

(** ** Filling the buffer *)

(** The members [advanceBuffer] changes while planning, with its locals
    [rgs_to_read] and [plan_buffer_size].  Row counts and memory sizes are
    [int64_t] sums that stay below 2^63. *)
Record plan := mkPlan {
  pl_states : list ColumnGroupState;
  pl_rgs : list (list Z);
  pl_size : Z;
}.

(** The row group after the last one planned for file [i]. *)
Definition next_row_group (metas : list PackedFileMetadata) (states : list ColumnGroupState)
    (i : nat) : outcome raised (option (Z * RowGroupMetadata)) :=
  st ← deref (states !! i);
  meta ← deref (metas !! i);
  let rg := wrap_i32 (row_group_offset st + 1) in
  if num_row_groups meta <=? rg then Ok None
  else g ← GetRowGroupMetadata meta rg; Ok (Some (rg, g)).

(** [get_next_row_group_size]. *)
Definition get_next_row_group_size (metas : list PackedFileMetadata)
    (states : list ColumnGroupState) (i : nat) : outcome raised Z :=
  r ← next_row_group metas states i;
  Ok (match r with Some (_, g) => wrap_i64 (rg_memory_size g) | None => -1 end).

(** The lambda [advance_row_group]. *)
Definition advance_row_group (metas : list PackedFileMetadata) (i : nat) (p : plan) :
    outcome raised (Z * plan) :=
  r ← next_row_group metas (pl_states p) i;
  match r with
  | None => Ok (-1, p)
  | Some (rg, g) =>
      st ← deref (pl_states p !! i);
      let rg_size := wrap_i64 (rg_memory_size g) in
      Ok (rg_size,
          mkPlan (<[i := mkColumnGroupState (row_offset st + rg_row_num g) rg
                           (memory_size st + rg_size) (read_times st)]> (pl_states p))
            (alter (λ rgs, rgs ++ [rg]) i (pl_rgs p))
            (wrap_u64 (pl_size p + rg_size)))
  end.

Definition set_state (i : nat) (f : ColumnGroupState → ColumnGroupState) (p : plan) : plan :=
  mkPlan (alter f i (pl_states p)) (pl_rgs p) (pl_size p).

(** The loop that fills files without rows: it stops at the first file that
    has no row group left.  [ResetChunkState] is called with the position of
    the file reader. *)
Fixpoint fill_drained (metas : list PackedFileMetadata) (row_limit : Z) (i n : nat) (p : plan)
    (used : Z) (cm : ChunkManager) : outcome raised (plan * Z * ChunkManager * option nat) :=
  match n with
  | O => Ok (p, used, cm, None)
  | S n' =>
      st ← deref (pl_states p !! i);
      if row_limit <? row_offset st then fill_drained metas row_limit (S i) n' p used cm
      else
        let used := wrap_u64 (used - wrap_u64 (memory_size st)) in
        let p := set_state i (λ st, mkColumnGroupState (row_offset st) (row_group_offset st) 0
                                      (read_times st)) p in
        r ← advance_row_group metas i p;
        let '(size, p) := r in
        if size <? 0 then Ok (p, used, cm, Some i)
        else fill_drained metas row_limit (S i) n' p used (ResetChunkState (Z.of_nat i) cm)
  end.

(** The files by row offset; the heap holds [int]s. *)
Definition offset_heap (states : list ColumnGroupState) : list (Z * Z) :=
  imap (λ i st, (Z.of_nat i, wrap_i32 (row_offset st))) states.

(** The prefetch loop: the file furthest behind reads its next row group while
    the plan stays within the memory limit. *)
Fixpoint prefetch (fuel : nat) (metas : list PackedFileMetadata) (limit used : Z)
    (heap : list (Z * Z)) (p : plan) : outcome raised (plan * list (Z * Z)) :=
  match pop_top heap with
  | None => Ok (p, heap)
  | Some (top, rest) =>
      if wrap_u64 (pl_size p + used) <? limit then
        let i := Z.to_nat top.1 in
        size ← get_next_row_group_size metas (pl_states p) i;
        if (size <? 0) || (limit <? wrap_u64 (pl_size p + used + size)) then Ok (p, heap)
        else
          match fuel with
          | O => Ub
          | S fuel' =>
              r ← advance_row_group metas i p;
              st ← deref (pl_states r.2 !! i);
              prefetch fuel' metas limit used (rest ++ [(top.1, wrap_i32 (row_offset st))]) r.2
          end
      else Ok (p, heap)
  end.

(** Row groups not yet planned: the iterations the prefetch loop can make. *)
Definition groups_left (metas : list PackedFileMetadata) (states : list ColumnGroupState) : nat :=
  sum_list (zip_with (λ m st, Z.to_nat (num_row_groups m - 1 - row_group_offset st)) metas states).

Definition RD (A : Type) : Type := M PackedReader raised A.

Definition set_plan (states : list ColumnGroupState) (used : Z) (cm : ChunkManager)
    (s : PackedReader) : PackedReader :=
  mkPackedReader (rd_schema s) (rd_field_id_list s) (rd_field_id_mapping s) (rd_memory_limit s)
    used (rd_file_readers s) (rd_tables s) states (rd_row_limit s) cm (rd_row_position s)
    (rd_needed_paths s) (rd_metadata_list s) (rd_path_index s) (rd_read_count s).

Definition set_tables (tables : list (list (option (list (list Array))))) (cm : ChunkManager)
    (s : PackedReader) : PackedReader :=
  mkPackedReader (rd_schema s) (rd_field_id_list s) (rd_field_id_mapping s) (rd_memory_limit s)
    (rd_memory_used s) (rd_file_readers s) tables (rd_states s) (rd_row_limit s) cm
    (rd_row_position s) (rd_needed_paths s) (rd_metadata_list s) (rd_path_index s)
    (rd_read_count s).

Definition set_rows (row_limit row_position : Z) (s : PackedReader) : PackedReader :=
  mkPackedReader (rd_schema s) (rd_field_id_list s) (rd_field_id_mapping s) (rd_memory_limit s)
    (rd_memory_used s) (rd_file_readers s) (rd_tables s) (rd_states s) row_limit
    (rd_chunk_manager s) row_position (rd_needed_paths s) (rd_metadata_list s) (rd_path_index s)
    (rd_read_count s).

Definition count_read (i : nat) (s : PackedReader) : PackedReader :=
  mkPackedReader (rd_schema s) (rd_field_id_list s) (rd_field_id_mapping s) (rd_memory_limit s)
    (rd_memory_used s) (rd_file_readers s) (rd_tables s)
    (alter (λ st, mkColumnGroupState (row_offset st) (row_group_offset st) (memory_size st)
                    (read_times st + 1)) i (rd_states s))
    (rd_row_limit s) (rd_chunk_manager s) (rd_row_position s) (rd_needed_paths s)
    (rd_metadata_list s) (rd_path_index s) (rd_read_count s + 1).

(** Reading the planned row groups of file [i] into the queue of its path. *)
Definition read_file (i : nat) (rgs : list Z) : RD unit :=
  match rgs with
  | [] => mret tt
  | _ =>
      modify (count_read i);;
      s ← get_st;
      reader ← lift (deref (rd_file_readers s !! i));
      match ReadRowGroups reader rgs with
      | Err st => fail (Returned (WrapExtendError PackedStorageIO st))
      | Ub => undefined
      | Ok table =>
          path ← lift (deref (rd_path_index s !! i));
          if (path <? 0) || (Z.of_nat (length (rd_tables s)) <=? path) then undefined
          else modify (set_tables (alter (λ q, q ++ [Some table]) (Z.to_nat path) (rd_tables s))
                         (rd_chunk_manager s))
      end
  end.

Fixpoint read_files (i : nat) (rgs : list (list Z)) : RD unit :=
  match rgs with
  | [] => mret tt
  | r :: rgs' => read_file i r;; read_files (S i) rgs'
  end.

Definition advanceBuffer : RD unit :=
  s ← get_st;
  let metas := rd_metadata_list s in
  let n := length (rd_file_readers s) in
  r ← lift (fill_drained metas (rd_row_limit s) 0 n (mkPlan (rd_states s) (replicate n []) 0)
              (rd_memory_used s) (rd_chunk_manager s));
  let '(p, used, cm, drained) := r in
  modify (set_plan (pl_states p) used cm);;
  match drained with
  | Some _ =>
      if pl_size p =? 0 then mret tt
      else fail (Returned (MakeExtendError PackedFileCorrupted))
  | None =>
      r ← lift (prefetch (groups_left metas (pl_states p)) metas (rd_memory_limit s) used
                  (offset_heap (pl_states p)) p);
      let '(p, heap) := r in
      modify (set_plan (pl_states p) used cm);;
      read_files 0 (pl_rgs p);;
      modify (λ s, set_plan (rd_states s) (wrap_u64 (rd_memory_used s + pl_size p))
                     (rd_chunk_manager s) s);;
      match pop_top heap with
      | Some (top, _) => modify (λ s, set_rows top.2 (rd_row_position s) s)
      | None => mret tt
      end
  end.

(** ** Reading *)

(** The columns of the result, in the order of the wanted schema: the slices
    for the fields the files have, nulls for the others. *)
Fixpoint fill_columns (mapping : gmap FieldID ColumnOffset) (n : Z)
    (fields : list (Field * FieldID)) (slices : list Array) : outcome raised (list Array) :=
  match fields with
  | [] => Ok []
  | (f, field_id) :: fields' =>
      match mapping !! field_id with
      | Some _ =>
          match slices with
          | a :: slices' => rest ← fill_columns mapping n fields' slices'; Ok (a :: rest)
          | [] => Ub
          end
      | None =>
          match MakeArrayOfNull (fd_type f) n with
          | Err st => Err (Returned (WrapExtendError PackedArrowError st))
          | Ub => Ub
          | Ok a => rest ← fill_columns mapping n fields' slices; Ok (a :: rest)
          end
      end
  end.

(** The second half of [ReadNext]: none at the end of the data, else the number
    of rows and the columns. *)
Definition return_rows : RD (option (Z * list Array)) :=
  s ← get_st;
  if rd_row_limit s <=? rd_row_position s then mret None
  else
    let '((cm, tables), r) :=
      SliceChunksByMaxContiguousSlice (rd_row_limit s - rd_row_position s)
        (rd_chunk_manager s, rd_tables s) in
    modify (set_tables tables cm);;
    match r with
    | Err _ => fail (Returned (MakeExtendError PackedFileCorrupted))
    | Ub => undefined
    | Ok slices =>
        let chunk_size := chunksize_ cm in
        modify (λ s, set_rows (rd_row_limit s) (rd_row_position s + chunk_size) s);;
        s ← get_st;
        columns ← lift (fill_columns (rd_field_id_mapping s) chunk_size
                          (zip (rd_schema s) (rd_field_id_list s)) slices);
        mret (Some (chunk_size, columns))
    end.

(** The body of [ReadNext]. *)
Definition read_next : RD (option (Z * list Array)) :=
  s ← get_st;
  (if rd_row_limit s <=? rd_row_position s then advanceBuffer else mret tt);;
  return_rows.

(** [ReadNext]: an exception becomes [PackedUnexpected]. *)
Definition PR_ReadNext (out : bool) : M PackedReader Status (option (Z * list Array)) := λ s,
  if negb out then (s, Err (MakeExtendError PackedInvalidArgs))
  else match read_next s with
  | (s', Ok r) => (s', Ok r)
  | (s', Err (Returned st)) => (s', Err st)
  | (s', Err Thrown) => (s', Err (MakeExtendError PackedUnexpected))
  | (s', Ub) => (s', Ub)
  end.

Definition PR_Close : M PackedReader Status unit :=
  modify (λ s, mkPackedReader (rd_schema s) (rd_field_id_list s) (rd_field_id_mapping s)
    (rd_memory_limit s) 0 [] [] [] (rd_row_limit s) (rd_chunk_manager s) (rd_row_position s)
    (rd_needed_paths s) [] (rd_path_index s) 0).
End reader.

Arguments PackedReader {_ _ _}.

(** ** Examples *)

Module ReaderSample.
Import KvList ListArray.

(** A file: its footer and its row groups, each with one column. *)
Record sample_file := mkSampleFile {
  sf_metadata : FileMetaData;
  sf_groups : list (list Z);
}.

Definition footer_of (groups : GroupFieldIDList) (rgs : RowGroupMetadataVector) : FileMetaData :=
  mkFileMetaData (Some (kv_Append (kv_Append (kv_Append kv_empty
      GROUP_FIELD_ID_LIST_META_KEY (GroupFieldIDList_Serialize groups))
      ROW_GROUP_META_KEY (RowGroups_Serialize rgs)) STORAGE_VERSION_KEY "1.0.0"))
    (Z.of_nat (length rgs)).

(** The first column group (field 100) is one row group of four rows, the
    second (field 101) two row groups of two rows. *)
Definition groups : GroupFieldIDList := [[100]; [101]].
Definition file0 : sample_file :=
  mkSampleFile (footer_of groups [mkRowGroup 100 4 0]) [[10; 20; 30; 40]].
Definition file1 : sample_file :=
  mkSampleFile (footer_of groups [mkRowGroup 60 2 0; mkRowGroup 60 2 2]) [[1; 2]; [3; 4]].

(** The same two files under names in either order. *)
#[export] Instance sample_files : PackedFiles := {
  FileReader := sample_file;
  MakeArrowFileReader path :=
    if bool_decide (path = "m") then Ok file0
    else if bool_decide (path = "a") || bool_decide (path = "z") then Ok file1
    else Err status_IOError;
  reader_metadata f := Some (sf_metadata f);
  ReadRowGroups f rgs := Ok [filter (λ c, c ≠ []) (omap (λ i, sf_groups f !! Z.to_nat i) rgs)];
  MakeArrayOfNull _ n := Ok (replicate (Z.to_nat n) 0);
}.

#[export] Instance sample_offsets : PriorityQueue offset_key := first_greatest offset_key.

Definition field_with (name id : string) : Field :=
  mkField name "int64" false (Some [(ARROW_FIELD_ID_KEY, id)]).
Definition wanted : Schema :=
  [field_with "x" "100"; field_with "y" "101"; field_with "new" "102"].

(** Two batches and the end of the data. *)
Definition read3 (paths : list string) : list (outcome Status (option (Z * list (list Z)))) :=
  match PR_Make true paths (Some wanted) 200 with
  | Ok s =>
      let '(s1, r1) := PR_ReadNext true s in
      let '(s2, r2) := PR_ReadNext true s1 in
      let '(s3, r3) := PR_ReadNext true s2 in [r1; r2; r3]
  | _ => []
  end.

(** With paths in lexicographic order the rows of the two files correspond. *)
Example sorted_paths_read :
  read3 ["m"; "z"] = [Ok (Some (2, [[10; 20]; [1; 2]; [0; 0]]));
                      Ok (Some (2, [[30; 40]; [3; 4]; [0; 0]])); Ok None].
Proof. vm_compute. reflexivity. Qed.

(** With the same files under paths that are not in lexicographic order
    the reader returns rows that do not belong together: the cursor of the
    first file is reset while its table is half read, because the position of
    a file reader is taken for a path index, and the second batch repeats the
    first two rows of one column next to the last two of the other (a defect
    of the code). *)
Theorem unsorted_paths_misalign_rows :
  read3 ["m"; "a"] = [Ok (Some (2, [[10; 20]; [1; 2]; [0; 0]]));
                      Ok (Some (2, [[10; 20]; [3; 4]; [0; 0]])); Ok None].
Proof. vm_compute. reflexivity. Qed.
End ReaderSample.

(** The same files, where reading the first row group of the second fails. *)
Module RetrySample.
Import KvList ListArray ReaderSample.

#[local] Instance failing_files : PackedFiles := {
  FileReader := sample_file;
  MakeArrowFileReader path :=
    if bool_decide (path = "m") then Ok file0
    else if bool_decide (path = "z") then Ok file1 else Err status_IOError;
  reader_metadata f := Some (sf_metadata f);
  ReadRowGroups f rgs :=
    if bool_decide (length (sf_groups f) = 2%nat) && bool_decide (rgs = [0]) then Err status_IOError
    else Ok [filter (λ c, c ≠ []) (omap (λ i, sf_groups f !! Z.to_nat i) rgs)];
  MakeArrayOfNull _ n := Ok (replicate (Z.to_nat n) 0);
}.

(** A call after a failed one returns rows that do not belong together: the
    failed call has already moved the files past the row groups it could not
    read, so that the next call returns the first rows of one file next to the
    third and fourth of the other (a defect of the code). *)
Theorem retry_after_failed_read_misaligns_rows :
  match PR_Make true ["m"; "z"] (Some wanted) 200 with
  | Ok s =>
      let '(s1, r1) := PR_ReadNext true s in
      let '(s2, r2) := PR_ReadNext true s1 in
      r1 = Err (WrapExtendError PackedStorageIO status_IOError) ∧
      r2 = Ok (Some (2, [[10; 20]; [3; 4]; [0; 0]]))
  | _ => False
  end.
Proof. vm_compute. done. Qed.
End RetrySample.
