(* ===== verification/PackedReaderCorrect.v ===== *)
(** * The packed reader returns every row

    Correctness of [PackedReader] over files whose metadata is accurate and
    which were opened in the order of their paths: every [ReadNext] is free of
    undefined behaviour and either fails because a call of the library failed,
    or reports the end exactly when all rows were returned, or returns the
    next rows of every column, the same rows of every file.  Reading to the
    end therefore terminates and returns every row once.

    The proof has the order of the code: what the files contain, planning
    ([advance_row_group], the filling and the prefetch loop), reading the plan
    into the queues, the invariant of a reader between calls, [ReadNext], and
    [Make], which establishes the invariant. *)

From S2P Require Import Prelude CppString Status PackedMetadata ChunkManager PackedReader.

(** ** What the reader relies on *)

(** The row groups of a file: per row group its columns, per column its cells. *)
Class PackedFilesLaws `{ArrayLaws} `{KeyValueMetadata} `{!PackedFiles} := {
  pf_groups : FileReader → list (list (list cell));
  pf_width : FileReader → nat;
  read_groups_spec f rgs t : ReadRowGroups f rgs = Ok t → rgs ≠ [] →
    Forall (λ g, 0 ≤ g < Z.of_nat (length (pf_groups f))) rgs →
    length t = pf_width f ∧
    ∀ col column, t !! col = Some column →
      Forall (λ c, 0 < array_length c) column ∧
      col_cells column
      = mjoin ((λ g, default [] (pf_groups f !! Z.to_nat g ≫= λ cs, cs !! col)) <$> rgs);
  read_groups_defined f rgs : ReadRowGroups f rgs ≠ Ub;
  null_defined t n : MakeArrayOfNull t n ≠ Ub;
}.

Section contents.
Context `{PackedFilesLaws}.

(** Column [col] of row group [g]. *)
Definition group_col (f : FileReader) (col : nat) (g : nat) : list cell :=
  default [] (pf_groups f !! g ≫= λ cs, cs !! col).

(** The first [k] row groups of a column, and their number of rows. *)
Definition cells_upto (f : FileReader) (col k : nat) : list cell :=
  mjoin (group_col f col <$> seq 0 k).

Definition rows_upto (f : FileReader) (k : nat) : Z := Z.of_nat (length (cells_upto f 0 k)).

Definition file_rows (f : FileReader) : Z := rows_upto f (length (pf_groups f)).
Definition file_col (f : FileReader) (col : nat) : list cell :=
  cells_upto f col (length (pf_groups f)).

(** Accurate metadata: every row group has the same positive number of rows in
    every column, and the footer gives it. *)
Definition file_ok (f : FileReader) (m : PackedFileMetadata) : Prop :=
  (0 < pf_width f)%nat ∧ Z.of_nat (length (pf_groups f)) ≤ INT32_MAX ∧
  length (row_group_metadata_ m) = length (pf_groups f) ∧
  ∀ k rg, row_group_metadata_ m !! k = Some rg →
    0 < rg_row_num rg ∧ 0 ≤ rg_memory_size rg ≤ INT64_MAX ∧
    ∀ col, (col < pf_width f)%nat → Z.of_nat (length (group_col f col k)) = rg_row_num rg.

Lemma cells_upto_S f col k : cells_upto f col (S k) = cells_upto f col k ++ group_col f col k.
Proof.
  unfold cells_upto. rewrite seq_S, fmap_app, join_app. simpl. by rewrite app_nil_r.
Qed.

Lemma file_ok_group f m k :
  file_ok f m → (k < length (pf_groups f))%nat →
  ∃ rg, row_group_metadata_ m !! k = Some rg ∧ 0 < rg_row_num rg ∧
    0 ≤ rg_memory_size rg ≤ INT64_MAX ∧
    (∀ col, (col < pf_width f)%nat → Z.of_nat (length (group_col f col k)) = rg_row_num rg) ∧
    rows_upto f (S k) = rows_upto f k + rg_row_num rg.
Proof.
  intros (Hw & _ & Hl & Hk) Hlt. destruct (lookup_lt_is_Some_2 (row_group_metadata_ m) k) as [rg Hrg]; [lia|].
  destruct (Hk k rg Hrg) as (Hn & Hm & Hc). exists rg. split_and!; try done; try lia.
  unfold rows_upto. rewrite cells_upto_S, length_app, Nat2Z.inj_add, (Hc 0%nat) by done. done.
Qed.

(** All columns of a file have the same rows. *)
Lemma cells_upto_length f m col k :
  file_ok f m → (col < pf_width f)%nat → (k ≤ length (pf_groups f))%nat →
  Z.of_nat (length (cells_upto f col k)) = rows_upto f k.
Proof.
  intros Hok Hcol. induction k as [|k IH]; intros Hk; [done|].
  destruct (file_ok_group f m k Hok) as (rg & _ & _ & _ & Hc & ->); [lia|].
  rewrite cells_upto_S, length_app, Nat2Z.inj_add, IH, Hc by (done || lia). done.
Qed.

Lemma rows_upto_lt f m k k' :
  file_ok f m → (k < k' ≤ length (pf_groups f))%nat → rows_upto f k < rows_upto f k'.
Proof.
  intros Hok [Hlt Hle]. induction k' as [|k' IH]; [lia|].
  destruct (file_ok_group f m k' Hok) as (rg & _ & Hn & _ & _ & ->); [lia|].
  destruct (decide (k = k')) as [->|]; [lia|]. specialize (IH ltac:(lia) ltac:(lia)). lia.
Qed.

Lemma rows_upto_le f m k k' :
  file_ok f m → (k ≤ k' ≤ length (pf_groups f))%nat → rows_upto f k ≤ rows_upto f k'.
Proof.
  intros Hok Hk. destruct (decide (k = k')) as [->|]; [done|].
  apply Z.lt_le_incl, (rows_upto_lt f m); [done|lia].
Qed.

(** A prefix of a column is its first row groups. *)
Lemma cells_upto_take f m col k k' :
  file_ok f m → (col < pf_width f)%nat → (k ≤ k' ≤ length (pf_groups f))%nat →
  take (Z.to_nat (rows_upto f k)) (cells_upto f col k') = cells_upto f col k ∧
  drop (Z.to_nat (rows_upto f k)) (cells_upto f col k')
  = mjoin (group_col f col <$> seq k (k' - k)).
Proof.
  intros Hok Hcol Hk.
  assert (cells_upto f col k' = cells_upto f col k ++ mjoin (group_col f col <$> seq k (k' - k))) as ->.
  { unfold cells_upto. replace k' with (k + (k' - k))%nat at 1 by lia.
    by rewrite seq_app, fmap_app, join_app. }
  pose proof (cells_upto_length f m col k Hok Hcol ltac:(lia)) as Hlen.
  rewrite <- Hlen, Nat2Z.id. by rewrite take_app_length, drop_app_length.
Qed.
End contents.

(** ** Lists *)

Lemma insert_perm {A} (l r : list A) i x y :
  l !! i = Some x → l ≡ₚ x :: r → <[i := y]> l ≡ₚ y :: r.
Proof.
  intros Hi Hp. apply lookup_lt_Some in Hi as Hlt.
  rewrite <- (take_drop_middle l i x Hi) in Hp. rewrite insert_take_drop by done.
  rewrite <- Permutation_middle in Hp |- *. apply Permutation_cons_inv in Hp. by rewrite Hp.
Qed.

Lemma imap_insert {A B} (f : nat → A → B) l i x :
  imap f (<[i := x]> l) = <[i := f i x]> (imap f l).
Proof.
  apply list_eq. intros j. rewrite list_lookup_imap.
  destruct (decide (i = j)) as [->|Hne].
  - destruct (decide (j < length l)%nat).
    + rewrite !list_lookup_insert_eq by (rewrite ?length_imap; done). done.
    + rewrite !lookup_ge_None_2 by (rewrite length_insert, ?length_imap; lia). done.
  - rewrite !list_lookup_insert_ne by done. by rewrite list_lookup_imap.
Qed.

Lemma sum_zip_insert {A B} (f : A → B → nat) l k i a b b' :
  l !! i = Some a → k !! i = Some b → f a b = S (f a b') →
  sum_list (zip_with f l k) = S (sum_list (zip_with f l (<[i := b']> k))).
Proof.
  revert l k. induction i as [|i IH]; intros [|x l] [|y k] Hl Hk Hf; simplify_eq/=; [lia|].
  rewrite (IH l k Hl Hk Hf). lia.
Qed.

Lemma alter_as_insert {A} (f : A → A) (l : list A) (i : nat) x : l !! i = Some x → alter f i l = <[i := f x]> l.
Proof.
  intros Hi. apply list_eq. intros j. apply lookup_lt_Some in Hi as Hlt.
  destruct (decide (i = j)) as [<-|Hne].
  - by rewrite list_lookup_alter_eq, Hi, list_lookup_insert_eq.
  - by rewrite list_lookup_alter_ne, list_lookup_insert_ne.
Qed.

(** ** Planning *)

Section planning.
Context `{PackedFilesLaws} `{!PriorityQueue offset_key}.
Variables (readers : list FileReader) (metas : list PackedFileMetadata).
Hypothesis Hfiles : Forall2 file_ok readers metas.

(** A file of which the row groups up to [row_group_offset] are planned. *)
Definition file_at (f : FileReader) (st : ColumnGroupState) : Prop :=
  -1 ≤ row_group_offset st < Z.of_nat (length (pf_groups f)) ∧
  row_offset st = rows_upto f (Z.to_nat (row_group_offset st + 1)).

Lemma next_row_group_spec states i f m st :
  metas !! i = Some m → states !! i = Some st → file_ok f m → file_at f st →
  (row_group_offset st + 1 = Z.of_nat (length (pf_groups f)) ∧
   next_row_group metas states i = Ok None) ∨
  (∃ rg, row_group_offset st + 1 < Z.of_nat (length (pf_groups f)) ∧
     row_group_metadata_ m !! Z.to_nat (row_group_offset st + 1) = Some rg ∧
     next_row_group metas states i = Ok (Some (row_group_offset st + 1, rg))).
Proof.
  intros Hm Hst Hok [Hg _]. pose proof Hok as (_ & Hmax & Hlen & _).
  unfold next_row_group. rewrite Hst, Hm. simpl. unfold num_row_groups, RowGroups_size.
  rewrite Hlen, !wrap_i32_small by (unfold INT32_MIN in *; lia).
  destruct (Z.leb_spec (Z.of_nat (length (pf_groups f))) (row_group_offset st + 1)).
  - left. split; [lia|done].
  - right. destruct (file_ok_group f m (Z.to_nat (row_group_offset st + 1)) Hok)
      as (rg & Hrg & _); [lia|]. exists rg. split_and!; [done|done|].
    unfold GetRowGroupMetadata, RowGroups_Get. rewrite wrap_u64_small by (unfold UINT64_MOD, INT32_MAX in *; lia).
    rewrite (checked_get_Some _ _ rg) by (done || lia). done.
Qed.

(** The plan made from the states [states0]. *)
Definition plan_inv (states0 : list ColumnGroupState) (p : plan) : Prop :=
  length (pl_states p) = length readers ∧ length (pl_rgs p) = length readers ∧
  ∀ i f st0, readers !! i = Some f → states0 !! i = Some st0 →
    ∃ st, pl_states p !! i = Some st ∧ file_at f st ∧
      row_group_offset st0 ≤ row_group_offset st ∧
      pl_rgs p !! i = Some (seqZ (row_group_offset st0 + 1)
                              (row_group_offset st - row_group_offset st0)).

(** Only file [i] moved, one row group forward. *)
Definition stepped (i : nat) (p p' : plan) : Prop :=
  ∃ st st', pl_states p !! i = Some st ∧ pl_states p' = <[i := st']> (pl_states p) ∧
    row_group_offset st' = row_group_offset st + 1 ∧ row_offset st < row_offset st'.

Lemma plan_set_state states0 p i :
  plan_inv states0 p →
  plan_inv states0 (set_state i (λ st, mkColumnGroupState (row_offset st) (row_group_offset st) 0
                                         (read_times st)) p).
Proof.
  intros (Hls & Hlr & Hp). split_and!; simpl; [by rewrite length_alter|done|].
  intros j f st0 Hf Hst0. destruct (Hp j f st0 Hf Hst0) as (st & Hst & Hat & Hle & Hrgs).
  destruct (decide (i = j)) as [->|Hne].
  - rewrite list_lookup_alter_eq, Hst. by eexists.
  - rewrite list_lookup_alter_ne by done. eauto.
Qed.

Lemma file_meta i f : readers !! i = Some f → ∃ m, metas !! i = Some m ∧ file_ok f m.
Proof. intros Hf. destruct (Forall2_lookup_l _ _ _ _ _ Hfiles Hf) as (m & ? & ?). eauto. Qed.

(** The next row group of file [i], or none when all are planned. *)
Lemma advance_row_group_spec states0 p i f :
  length states0 = length readers → plan_inv states0 p → readers !! i = Some f →
  ∃ st, pl_states p !! i = Some st ∧ file_at f st ∧
  ((row_offset st = file_rows f ∧ advance_row_group metas i p = Ok (-1, p) ∧
    get_next_row_group_size metas (pl_states p) i = Ok (-1)) ∨
   (∃ size p', row_offset st < file_rows f ∧ 0 ≤ size ∧
      get_next_row_group_size metas (pl_states p) i = Ok size ∧
      advance_row_group metas i p = Ok (size, p') ∧ plan_inv states0 p' ∧ stepped i p p' ∧
      pl_size p' = wrap_u64 (pl_size p + size))).
Proof.
  intros Hl0 Hinv Hf. pose proof Hinv as (Hls & Hlr & Hp).
  assert (i < length readers)%nat as Hlt by by eapply lookup_lt_Some.
  destruct (lookup_lt_is_Some_2 states0 i) as [st0 Hst0]; [lia|].
  destruct (Hp i f st0 Hf Hst0) as (st & Hst & Hat & Hle & Hrgs).
  destruct (file_meta i f Hf) as (m & Hm & Hok). exists st. split; [done|]. split; [done|].
  unfold advance_row_group, get_next_row_group_size.
  destruct (next_row_group_spec _ i f m st Hm Hst Hok Hat) as [[Heq ->]|(rg & Hlt' & Hrg & ->)].
  - left. destruct Hat as [_ Hro]. split_and!; [|done|done].
    rewrite Hro. unfold file_rows. f_equal. lia.
  - right. rewrite !bind_Ok, Hst. simpl.
    destruct Hat as [Hg Hro]. pose proof Hok as (_ & _ & _ & Hall).
    destruct (file_ok_group f m (Z.to_nat (row_group_offset st + 1)) Hok)
      as (rg' & Hrg' & Hn & Hsz & _ & Hrows); [lia|]. simplify_eq.
    rewrite wrap_i64_small by (unfold INT64_MIN; lia).
    exists (rg_memory_size rg). eexists. split_and!; [|lia|done|done| | |done].
    + rewrite Hro. apply (rows_upto_lt f m); [done|lia].
    + split_and!; simpl; [by rewrite length_insert|by rewrite length_alter|].
      intros j f' st0' Hf' Hst0'. destruct (decide (i = j)) as [<-|Hne].
      * simplify_eq. rewrite list_lookup_insert_eq by lia. eexists. split; [done|].
        rewrite list_lookup_alter_eq, Hrgs. simpl. split_and!; simpl; try lia.
        -- split; simpl; [lia|]. rewrite Hro. replace (Z.to_nat (row_group_offset st + 1 + 1))
             with (S (Z.to_nat (row_group_offset st + 1))) by lia. by rewrite Hrows.
        -- f_equal. replace (row_group_offset st + 1 - row_group_offset st0)
             with (row_group_offset st - row_group_offset st0 + 1) by lia.
           rewrite seqZ_app by lia. f_equal. simpl. rewrite seqZ_cons by lia.
           simpl. rewrite seqZ_nil by lia. f_equal. lia.
      * rewrite list_lookup_insert_ne, list_lookup_alter_ne by done. eauto.
    + exists st. eexists. split_and!; [done|done|done|]. simpl. lia.
Qed.

(** The same after the memory of the file was reset. *)
Lemma advance_reset states0 p i f st :
  length states0 = length readers → plan_inv states0 p → readers !! i = Some f →
  pl_states p !! i = Some st → row_offset st < file_rows f →
  let p1 := set_state i (λ st, mkColumnGroupState (row_offset st) (row_group_offset st) 0
                                 (read_times st)) p in
  ∃ size p' st', advance_row_group metas i p1 = Ok (size, p') ∧ 0 ≤ size ∧ plan_inv states0 p' ∧
    pl_states p' = <[i := st']> (pl_states p) ∧ row_offset st < row_offset st'.
Proof.
  intros Hl0 Hinv Hf Hst Hlt p1.
  destruct (advance_row_group_spec states0 p1 i f Hl0 (plan_set_state _ _ _ Hinv) Hf)
    as (st1 & Hst1 & _ & Hcase).
  assert (row_offset st1 = row_offset st) as Hro.
  { unfold p1 in Hst1. simpl in Hst1. rewrite list_lookup_alter_eq, Hst in Hst1. by simplify_eq/=. }
  destruct Hcase as [[Heq _]|(size & p' & _ & Hsz & _ & Hadv & Hinv' & Hstep & _)]; [lia|].
  destruct Hstep as (st2 & st' & Hst2 & Hp' & _ & Hlt'). simplify_eq.
  exists size, p', st'. split_and!; try done; [|lia].
  rewrite Hp'. unfold p1; simpl.
  apply list_eq. intros j. destruct (decide (i = j)) as [->|Hne].
  - rewrite !list_lookup_insert_eq; [done|by eapply lookup_lt_Some|].
    rewrite length_alter. by eapply lookup_lt_Some.
  - by rewrite !list_lookup_insert_ne, list_lookup_alter_ne by done.
Qed.

(** Rows left in every file: the filling loop gives every file rows beyond the
    limit and leaves the cursors alone. *)
Lemma fill_drained_spec states0 limit cm n i p used :
  length states0 = length readers → plan_inv states0 p → (i + n = length readers)%nat →
  (∀ j f, readers !! j = Some f → limit < file_rows f) →
  (∀ j st, (i ≤ j)%nat → pl_states p !! j = Some st → limit ≤ row_offset st) →
  (∀ j st, (i ≤ j)%nat → pl_states p !! j = Some st → row_offset st ≤ limit →
     ResetChunkState (Z.of_nat j) cm = cm) →
  (∀ j st, (j < i)%nat → pl_states p !! j = Some st → limit < row_offset st) →
  ∃ p' used', fill_drained metas limit i n p used cm = Ok (p', used', cm, None) ∧
    plan_inv states0 p' ∧ ∀ j st, pl_states p' !! j = Some st → limit < row_offset st.
Proof.
  intros Hl0. revert i p used. induction n as [|n IH]; intros i p used Hinv Hn Hrows Hge Hcm Hdone;
    cbn [fill_drained].
  - exists p, used. split_and!; [done|done|]. intros j st Hj. apply (Hdone j); [|done].
    apply lookup_lt_Some in Hj. destruct Hinv as [Hl _]. lia.
  - pose proof Hinv as (Hls & _ & _).
    destruct (lookup_lt_is_Some_2 (pl_states p) i) as [st Hst]; [lia|].
    destruct (lookup_lt_is_Some_2 readers i) as [f Hf]; [lia|].
    rewrite Hst. simpl deref. rewrite bind_Ok.
    destruct (Z.ltb_spec limit (row_offset st)) as [Hlt|Hle].
    + apply IH; try done; [lia| | |].
      * intros j st' Hj. apply Hge. lia.
      * intros j st' Hj. apply Hcm. lia.
      * intros j st' Hj Hst'. destruct (decide (j = i)) as [->|]; [by simplify_eq|].
        apply (Hdone j); [lia|done].
    + specialize (Hrows i f Hf) as Hri.
      destruct (advance_reset states0 p i f st Hl0 Hinv Hf Hst ltac:(lia))
        as (size & p' & st' & Hadv & Hsz & Hinv' & Hp' & Hst').
      cbv zeta. rewrite Hadv, bind_Ok. destruct (Z.ltb_spec size 0); [lia|].
      rewrite (Hcm i st) by done.
      assert (∀ j st1, j ≠ i → pl_states p' !! j = Some st1 → pl_states p !! j = Some st1) as Hsame.
      { intros j st1 Hne. rewrite Hp', list_lookup_insert_ne by done. done. }
      assert (limit ≤ row_offset st) by (by apply (Hge i)).
      apply IH; try done; [lia| | |].
      * intros j st1 Hj Hst1. apply (Hge j); [lia|]. apply Hsame; [lia|done].
      * intros j st1 Hj Hst1. apply (Hcm j); [lia|]. apply Hsame; [lia|done].
      * intros j st1 Hj Hst1. destruct (decide (j = i)) as [->|Hne].
        -- rewrite Hp', list_lookup_insert_eq in Hst1 by lia. simplify_eq. lia.
        -- apply (Hdone j); [lia|]. by apply Hsame.
Qed.

(** No rows left: the first file stops the loop with nothing planned. *)
Lemma fill_drained_end states0 limit cm p used f st :
  length states0 = length readers → plan_inv states0 p → readers !! 0%nat = Some f →
  pl_states p !! 0%nat = Some st → row_offset st = file_rows f → row_offset st ≤ limit →
  ∃ p' used', fill_drained metas limit 0 (length readers) p used cm = Ok (p', used', cm, Some 0%nat) ∧
    plan_inv states0 p' ∧ pl_size p' = pl_size p ∧
    ∀ j st', pl_states p' !! j = Some st' → ∃ st, pl_states p !! j = Some st ∧
      row_offset st' = row_offset st ∧ row_group_offset st' = row_group_offset st.
Proof.
  intros Hl0 Hinv Hf Hst Hro Hle. apply lookup_lt_Some in Hf as Hpos.
  assert (∃ n, length readers = S n) as [n Hn] by (exists (pred (length readers)); lia).
  rewrite Hn. cbn [fill_drained]. rewrite Hst. simpl deref. rewrite bind_Ok.
  destruct (Z.ltb_spec limit (row_offset st)); [lia|]. cbv zeta.
  set (p1 := set_state 0 _ p).
  assert (plan_inv states0 p1) as Hinv1 by by apply plan_set_state.
  destruct (advance_row_group_spec states0 p1 0 f) as (st1 & Hst1 & _ & Hcase); [congruence|done|done|].
  assert (row_offset st1 = row_offset st) as Hro1.
  { unfold p1 in Hst1. simpl in Hst1. rewrite list_lookup_alter_eq, Hst in Hst1. by simplify_eq/=. }
  destruct Hcase as [(_ & -> & _)|(size & p' & Hlt & _)]; [|lia]. rewrite bind_Ok. simpl.
  eexists p1, _. split_and!; [done|done|done|]. intros j st' Hj. unfold p1 in Hj; simpl in Hj.
  destruct (decide (j = 0%nat)) as [->|Hne].
  - rewrite list_lookup_alter_eq, Hst in Hj. simplify_eq/=. eauto.
  - rewrite list_lookup_alter_ne in Hj by done. eauto.
Qed.

(** Offsets only grow. *)
Definition grows (states states' : list ColumnGroupState) : Prop :=
  ∀ j st', states' !! j = Some st' →
    ∃ st, states !! j = Some st ∧ row_offset st ≤ row_offset st'.

Lemma grows_refl states : grows states states.
Proof. intros j st Hj. eauto with lia. Qed.

Lemma grows_trans s1 s2 s3 : grows s1 s2 → grows s2 s3 → grows s1 s3.
Proof.
  intros H12 H23 j st3 Hj3. destruct (H23 j st3 Hj3) as (st2 & Hj2 & Hle2).
  destruct (H12 j st2 Hj2) as (st1 & Hj1 & Hle1). exists st1. split; [done|lia].
Qed.

Lemma stepped_grows i p p' : stepped i p p' → grows (pl_states p) (pl_states p').
Proof.
  intros (st & st' & Hst & -> & _ & Hlt) j st1 Hj. apply lookup_lt_Some in Hst as Hl.
  destruct (decide (i = j)) as [<-|Hne].
  - rewrite list_lookup_insert_eq in Hj by done. simplify_eq. eauto with lia.
  - rewrite list_lookup_insert_ne in Hj by done. eauto with lia.
Qed.

Lemma stepped_heap i p p' st e rest st' :
  offset_heap (pl_states p) ≡ₚ e :: rest → e = (Z.of_nat i, wrap_i32 (row_offset st)) →
  pl_states p !! i = Some st → pl_states p' = <[i := st']> (pl_states p) →
  rest ++ [(Z.of_nat i, wrap_i32 (row_offset st'))] ≡ₚ offset_heap (pl_states p').
Proof.
  intros Hp -> Hst ->. unfold offset_heap in *. rewrite imap_insert.
  rewrite (insert_perm _ rest i (Z.of_nat i, wrap_i32 (row_offset st))); [|by rewrite list_lookup_imap, Hst|done].
  rewrite Permutation_app_comm. done.
Qed.

Lemma heap_entry_of heap states (top : Z * Z) rest :
  heap ≡ₚ offset_heap states → heap ≡ₚ top :: rest →
  ∃ i st, states !! i = Some st ∧ top = (Z.of_nat i, wrap_i32 (row_offset st)).
Proof.
  intros Hheap Hperm. assert (top ∈ offset_heap states) as Hin by (rewrite <- Hheap, Hperm; by left).
  unfold offset_heap in Hin. apply list_elem_of_lookup in Hin as [i Hi].
  rewrite list_lookup_imap in Hi. destruct (states !! i) as [st|] eqn:Hst; simplify_eq/=. eauto.
Qed.

Lemma stepped_groups_left states0 i p p' f st st' :
  length states0 = length readers → plan_inv states0 p' → readers !! i = Some f →
  pl_states p !! i = Some st → pl_states p' = <[i := st']> (pl_states p) →
  row_group_offset st' = row_group_offset st + 1 →
  groups_left metas (pl_states p) = S (groups_left metas (pl_states p')).
Proof.
  intros Hl0 (_ & _ & Hp2) Hf Hst Hp' Hg. destruct (file_meta i f Hf) as (m & Hm & Hok).
  apply lookup_lt_Some in Hst as Hlt. apply lookup_lt_Some in Hf as Hltf.
  destruct (lookup_lt_is_Some_2 states0 i) as [st0 Hst0]; [lia|].
  destruct (Hp2 i f st0 Hf Hst0) as (st3 & Hst3 & [Hg3 _] & _).
  rewrite Hp', list_lookup_insert_eq in Hst3 by done. simplify_eq.
  rewrite Hp'. unfold groups_left. eapply sum_zip_insert; [done|done|].
  pose proof Hok as (_ & Hmax & Hlen & _). unfold num_row_groups, RowGroups_size.
  rewrite Hlen, wrap_i32_small by (unfold INT32_MIN in *; lia). lia.
Qed.

(** One turn of the prefetch loop: it stops, or file [i] takes a row group. *)
Lemma prefetch_turn states0 limit used heap p :
  length states0 = length readers → plan_inv states0 p → heap ≡ₚ offset_heap (pl_states p) →
  (∀ fuel, prefetch fuel metas limit used heap p = Ok (p, heap)) ∨
  (∃ heap' p', (∀ fuel, prefetch (S fuel) metas limit used heap p
                        = prefetch fuel metas limit used heap' p') ∧
     plan_inv states0 p' ∧ heap' ≡ₚ offset_heap (pl_states p') ∧
     grows (pl_states p) (pl_states p') ∧ wrap_u64 (pl_size p' + used) ≤ limit ∧
     groups_left metas (pl_states p) = S (groups_left metas (pl_states p'))).
Proof.
  intros Hl0 Hinv Hheap. destruct (pop_top heap) as [[top rest]|] eqn:Hpop.
  2:{ left. intros [|fuel]; cbn [prefetch]; by rewrite Hpop. }
  destruct (Z.ltb_spec (wrap_u64 (pl_size p + used)) limit) as [Hroom|Hfull].
  2:{ left. intros [|fuel]; cbn [prefetch]; rewrite Hpop;
      destruct (Z.ltb_spec (wrap_u64 (pl_size p + used)) limit); done || lia. }
  pose proof (pop_top_Some _ _ _ Hpop) as [Hperm _].
  destruct (heap_entry_of heap (pl_states p) top rest Hheap Hperm) as (i & st & Hst & ->).
  pose proof Hinv as (Hls & _ & _). apply lookup_lt_Some in Hst as Hlt.
  destruct (lookup_lt_is_Some_2 readers i) as [f Hf]; [lia|].
  destruct (advance_row_group_spec states0 p i f Hl0 Hinv Hf) as (st1 & Hst1 & Hat & Hcase).
  simplify_eq. destruct Hcase as [(_ & _ & Hget)|(size & p' & _ & Hsz & Hget & Hadv & Hinv' & Hstep & Hps)].
  { left. intros [|fuel]; cbn [prefetch]; rewrite Hpop; cbn [fst]; rewrite Nat2Z.id, Hget;
      destruct (Z.ltb_spec (wrap_u64 (pl_size p + used)) limit); done || lia. }
  destruct (Z.ltb_spec limit (wrap_u64 (pl_size p + used + size))) as [Hbig|Hfit].
  { left. intros [|fuel]; cbn [prefetch]; rewrite Hpop; cbn [fst]; rewrite Nat2Z.id, Hget, bind_Ok;
      destruct (Z.ltb_spec (wrap_u64 (pl_size p + used)) limit); try lia;
      destruct (Z.ltb_spec limit (wrap_u64 (pl_size p + used + size))); try lia;
      by rewrite orb_true_r. }
  right. pose proof Hstep as (st2 & st' & Hst2 & Hp' & Hg & _). simplify_eq.
  exists (rest ++ [(Z.of_nat i, wrap_i32 (row_offset st'))]), p'. split_and!; [|done| | | |].
  - intros fuel. cbn [prefetch]. rewrite Hpop. cbn [fst]. rewrite Nat2Z.id, Hget, bind_Ok.
    destruct (Z.ltb_spec (wrap_u64 (pl_size p + used)) limit); [|lia].
    destruct (Z.ltb_spec size 0); [lia|].
    destruct (Z.ltb_spec limit (wrap_u64 (pl_size p + used + size))); [lia|]. cbn [orb].
    rewrite Hadv, bind_Ok. cbn [snd]. rewrite Hp', list_lookup_insert_eq by done. done.
  - eapply (stepped_heap i p); [|done|done|done]. by rewrite <- Hheap.
  - by eapply stepped_grows.
  - rewrite Hps, wrap_u64_idemp_add. replace (pl_size p + size + used) with (pl_size p + used + size) by lia.
    done.
  - by eapply (stepped_groups_left states0 i p p' f).
Qed.

(** The prefetch loop ends within [groups_left] iterations, and a plan that it
    extends stays within the memory limit. *)
Lemma prefetch_spec states0 limit used fuel heap p :
  length states0 = length readers → plan_inv states0 p →
  heap ≡ₚ offset_heap (pl_states p) → (groups_left metas (pl_states p) ≤ fuel)%nat →
  ∃ p' heap', prefetch fuel metas limit used heap p = Ok (p', heap') ∧ plan_inv states0 p' ∧
    heap' ≡ₚ offset_heap (pl_states p') ∧ grows (pl_states p) (pl_states p') ∧
    (p' = p ∨ wrap_u64 (pl_size p' + used) ≤ limit).
Proof.
  intros Hl0. revert heap p. induction fuel as [|fuel IH]; intros heap p Hinv Hheap Hfuel;
    (destruct (prefetch_turn states0 limit used heap p Hl0 Hinv Hheap)
      as [Hstop|(heap1 & p1 & Hturn & Hinv1 & Hheap1 & Hgrow1 & Hmem1 & Hleft1)];
     [exists p, heap; split_and!; [done|done|done|apply grows_refl|by left]|]); [lia|].
  destruct (IH heap1 p1 Hinv1 Hheap1 ltac:(lia)) as (p2 & heap2 & Hpre & Hinv2 & Hheap2 & Hgrow2 & Hmem2).
  exists p2, heap2. rewrite Hturn. split_and!; [done|done|done|by eapply grows_trans|].
  right. by destruct Hmem2 as [->|].
Qed.
End planning.

(** ** Reading planned row groups *)

Section reading.
Context `{PackedFilesLaws} `{!PriorityQueue offset_key}.

(** The cells of the row groups [a..b) of a column. *)
Lemma planned_cells f col a b :
  (a ≤ b)%nat →
  mjoin ((λ g, default [] (pf_groups f !! Z.to_nat g ≫= λ cs, cs !! col)) <$>
         seqZ (Z.of_nat a) (Z.of_nat b - Z.of_nat a))
  = mjoin (group_col f col <$> seq a (b - a)).
Proof.
  intros Hab. f_equal. replace (Z.of_nat b - Z.of_nat a) with (Z.of_nat (b - a)) by lia.
  unfold seqZ. rewrite Nat2Z.id. rewrite <- list_fmap_compose.
  replace (seq a (b - a)) with (Nat.add a <$> seq 0 (b - a))
    by (by rewrite fmap_add_seq, Nat.add_0_r).
  rewrite <- list_fmap_compose. apply list_fmap_ext. intros i x _. unfold compose, group_col.
  do 3 f_equal. lia.
Qed.

(** A table read from the row groups after [st0] up to [st]. *)
Lemma read_table f m st0 st t :
  file_ok f m → file_at f st0 → file_at f st → row_group_offset st0 < row_group_offset st →
  ReadRowGroups f (seqZ (row_group_offset st0 + 1) (row_group_offset st - row_group_offset st0)) = Ok t →
  ∀ col, 0 ≤ col < Z.of_nat (pf_width f) →
    queue_ok col [Some t] ∧
    cell_stream [Some t] col
    = drop (Z.to_nat (row_offset st0))
        (cells_upto f (Z.to_nat col) (Z.to_nat (row_group_offset st + 1))).
Proof.
  intros Hok [Hg0 Hro0] [Hg Hro] Hlt Hread.
  set (a := Z.to_nat (row_group_offset st0 + 1)) in *. set (b := Z.to_nat (row_group_offset st + 1)) in *.
  destruct (read_groups_spec f _ t Hread) as [Hlen Hcols].
  { rewrite seqZ_cons by lia. done. }
  { apply Forall_forall. intros g Hg'%elem_of_seqZ. lia. }
  replace (row_group_offset st0 + 1) with (Z.of_nat a) in Hcols by lia.
  replace (row_group_offset st - row_group_offset st0) with (Z.of_nat b - Z.of_nat a) in Hcols by lia.
  assert (∀ c column, t !! c = Some column →
    Forall (λ c, 0 < array_length c) column ∧
    col_cells column = drop (Z.to_nat (rows_upto f a)) (cells_upto f c b)) as Hcol.
  { intros c column Hc. destruct (Hcols c column Hc) as [Hpos Hcells]. split; [done|].
    apply lookup_lt_Some in Hc.
    rewrite Hcells, planned_cells by lia. symmetry. by apply (cells_upto_take f m); [|lia|lia]. }
  intros col Hc. rewrite Hro0. split.
  - constructor; [|done]. exists t, (rows_upto f b - rows_upto f a). split_and!; [done| |lia|lia].
    split; [pose proof (rows_upto_lt f m a b Hok ltac:(lia)); lia|].
    apply Forall_lookup. intros c column Hcl. destruct (Hcol c column Hcl) as [Hpos Hcells].
    split; [|done]. apply lookup_lt_Some in Hcl.
    pose proof (cells_upto_length f m c b Hok ltac:(lia) ltac:(lia)) as Hlb.
    rewrite col_rows_cells, Hcells, length_drop.
    pose proof (rows_upto_lt f m a b Hok ltac:(lia)). unfold rows_upto in *. lia.
  - unfold cell_stream. simpl. rewrite app_nil_r.
    destruct (lookup_lt_is_Some_2 t (Z.to_nat col)) as [column Hcl]; [lia|]. rewrite Hcl. simpl.
    by apply Hcol.
Qed.

Lemma cell_stream_app q1 q2 col : cell_stream (q1 ++ q2) col = cell_stream q1 col ++ cell_stream q2 col.
Proof. unfold cell_stream. by rewrite fmap_app, join_app. Qed.

Lemma cursor_within queue col st pos :
  queue_ok col queue → cursor_ok queue col st pos →
  0 ≤ pos ≤ Z.of_nat (length (cell_stream queue col)).
Proof.
  intros Hok Hcur. destruct queue as [|t queue]; [destruct Hcur as [_ ->]; simpl; lia|].
  destruct Hcur as (column & Hcol & Hat). pose proof (cursor_pos_nonneg _ _ _ Hat).
  apply Forall_cons in Hok as [(tb & n & -> & _) _]. simpl in Hcol.
  unfold cell_stream. simpl. rewrite Hcol. simpl.
  destruct Hat as (pre & c & post & -> & _ & Ho & ->).
  rewrite length_app, col_cells_app, col_cells_cons, !length_app.
  rewrite col_rows_cells, acells_length in *. lia.
Qed.

(** Pushing tables at the end of a queue appends to what is left. *)
Lemma aligned_append pos tables tables' off st queue extra :
  aligned pos tables off st → tables !! Z.to_nat (path_index off) = Some queue →
  tables' !! Z.to_nat (path_index off) = Some (queue ++ extra) →
  queue_ok (col_index off) extra →
  aligned pos tables' off st ∧
  remaining tables' pos off = remaining tables pos off ++ cell_stream extra (col_index off).
Proof.
  intros (Hp & q & Hq & Hok & Hcur) Hqueue Hq' Hextra.
  assert (q = queue) as -> by congruence. split.
  - split; [done|]. exists (queue ++ extra). split_and!; [done|by apply Forall_app|].
    destruct queue as [|t queue]; [|by destruct t; [|destruct Hcur as (? & ? & _)]].
    destruct Hcur as [-> Hz]. simpl. rewrite Hz. destruct extra as [|t extra]; [done|].
    apply Forall_cons in Hextra as [(tb & n & -> & [Hn Htb] & Hc) _].
    destruct (lookup_lt_is_Some_2 tb (Z.to_nat (col_index off))) as [column Hcol]; [lia|].
    exists column. split; [done|]. rewrite Forall_forall in Htb.
    destruct (Htb column) as [Hr Hpos]; [by eapply list_elem_of_lookup_2|]. by eapply cursor_start.
  - unfold remaining. rewrite Hq, Hq'. simpl. rewrite cell_stream_app.
    pose proof (cursor_within _ _ _ _ Hok Hcur). apply drop_app_le. lia.
Qed.

(** *** Reading into the queues *)

Implicit Types s : PackedReader.

(** What reading leaves alone. *)
Definition unchanged s s' : Prop :=
  rd_schema s' = rd_schema s ∧ rd_field_id_list s' = rd_field_id_list s ∧
  rd_field_id_mapping s' = rd_field_id_mapping s ∧ rd_file_readers s' = rd_file_readers s ∧
  rd_row_limit s' = rd_row_limit s ∧ rd_chunk_manager s' = rd_chunk_manager s ∧
  rd_row_position s' = rd_row_position s ∧ rd_metadata_list s' = rd_metadata_list s ∧
  rd_path_index s' = rd_path_index s.

Definition same_offsets (states states' : list ColumnGroupState) : Prop :=
  length states' = length states ∧
  ∀ j st', states' !! j = Some st' → ∃ st, states !! j = Some st ∧
    row_offset st' = row_offset st ∧ row_group_offset st' = row_group_offset st.

Lemma unchanged_trans s1 s2 s3 : unchanged s1 s2 → unchanged s2 s3 → unchanged s1 s3.
Proof. intros (?&?&?&?&?&?&?&?&?) (?&?&?&?&?&?&?&?&?). split_and!; congruence. Qed.

Lemma same_offsets_trans l1 l2 l3 : same_offsets l1 l2 → same_offsets l2 l3 → same_offsets l1 l3.
Proof.
  intros [Hl1 H12] [Hl2 H23]. split; [congruence|]. intros j st3 Hj3.
  destruct (H23 j st3 Hj3) as (st2 & Hj2 & ? & ?). destruct (H12 j st2 Hj2) as (st1 & ? & ? & ?).
  exists st1. split_and!; [done|congruence..].
Qed.

(** An error is a failed read, wrapped. *)
Definition io_failed (e : raised) (_ : PackedReader) : Prop :=
  ∃ f rgs st, ReadRowGroups f rgs = Err st ∧ e = Returned (WrapExtendError PackedStorageIO st).

(** The tables a read adds to the queue of a file. *)
Definition read_adds (f : FileReader) (rgs : list Z) (extra : list (option (list (list Array)))) :
    Prop :=
  (rgs = [] ∧ extra = []) ∨ (rgs ≠ [] ∧ ∃ t, extra = [Some t] ∧ ReadRowGroups f rgs = Ok t).

Definition queues_grow (s s' : PackedReader) (i : nat) (rgs : list (list Z)) : Prop :=
  length (rd_tables s') = length (rd_tables s) ∧
  (∀ j, (j < i)%nat → rd_tables s' !! j = rd_tables s !! j) ∧
  ∀ k f r queue, rgs !! k = Some r → rd_file_readers s !! (i + k)%nat = Some f →
    rd_tables s !! (i + k)%nat = Some queue →
    ∃ extra, rd_tables s' !! (i + k)%nat = Some (queue ++ extra) ∧ read_adds f r extra.

Lemma wp_read_file i r s f queue :
  rd_file_readers s !! i = Some f → rd_path_index s !! i = Some (Z.of_nat i) →
  rd_tables s !! i = Some queue →
  wp (read_file i r) s
    (λ _ s', unchanged s s' ∧ rd_memory_used s' = rd_memory_used s ∧
       same_offsets (rd_states s) (rd_states s') ∧
       ∃ extra, rd_tables s' = <[i := queue ++ extra]> (rd_tables s) ∧ read_adds f r extra) io_failed.
Proof.
  intros Hf Hidx Hq. unfold read_file. destruct r as [|g r].
  - apply wp_ret. split_and!; try done; [by split; eauto|]. exists []. split; [|by left].
    rewrite app_nil_r. symmetry. by apply list_insert_id.
  - apply wp_bind, wp_modify, wp_bind, wp_get, wp_bind, (wp_lift _ f).
    { cbn [rd_file_readers count_read]. by rewrite Hf. }
    destruct (ReadRowGroups f (g :: r)) as [t|st|] eqn:Hread.
    + apply wp_bind, (wp_lift _ (Z.of_nat i)).
      { cbn [rd_path_index count_read]. by rewrite Hidx. }
      cbn [rd_tables count_read]. apply lookup_lt_Some in Hq as Hlt.
      destruct (Z.ltb_spec (Z.of_nat i) 0); [lia|].
      destruct (Z.leb_spec (Z.of_nat (length (rd_tables s))) (Z.of_nat i)); [lia|].
      cbn [orb]. unfold wp, modify, set_tables, count_read; simpl. split_and!; try done.
      * split; [by rewrite length_alter|]. intros j st' Hj. destruct (decide (i = j)) as [<-|Hne].
        -- rewrite list_lookup_alter_eq in Hj. destruct (rd_states s !! i) eqn:E; simplify_eq/=. eauto.
        -- rewrite list_lookup_alter_ne in Hj by done. eauto.
      * exists [Some t]. rewrite Nat2Z.id. split; [|by right; eauto].
        by apply (alter_as_insert (λ q, q ++ [Some t])).
    + unfold wp, fail. by exists f, (g :: r), st.
    + by apply read_groups_defined in Hread.
Qed.

Lemma wp_read_files rgs i s :
  rd_path_index s = Z.of_nat <$> seq 0 (length (rd_file_readers s)) →
  (i + length rgs = length (rd_file_readers s))%nat →
  (length (rd_file_readers s) ≤ length (rd_tables s))%nat →
  wp (read_files i rgs) s
    (λ _ s', unchanged s s' ∧ rd_memory_used s' = rd_memory_used s ∧
       same_offsets (rd_states s) (rd_states s') ∧ queues_grow s s' i rgs) io_failed.
Proof.
  revert i s. induction rgs as [|r rgs IH]; intros i s Hidx Hlen Htl; cbn [read_files].
  - apply wp_ret. split_and!; try done. by split; eauto.
  - simpl in Hlen.
    destruct (lookup_lt_is_Some_2 (rd_file_readers s) i) as [f Hf]; [lia|].
    destruct (lookup_lt_is_Some_2 (rd_tables s) i) as [queue Hq]; [lia|].
    eapply wp_seq; [apply (wp_read_file i r s f queue Hf); [|done]|].
    { rewrite Hidx, list_lookup_fmap, lookup_seq_lt by lia. done. }
    intros _ s1 (Hun1 & Hmu1 & Hso1 & extra & Ht1 & Hadds).
    pose proof Hun1 as (_ & _ & _ & Hr1 & _ & _ & _ & _ & Hp1).
    eapply wp_mono; [apply (IH (S i)); [by rewrite Hp1, Hr1|by rewrite Hr1; lia|]| |done].
    { by rewrite Hr1, Ht1, length_insert. }
    intros _ s2 (Hun2 & Hmu2 & Hso2 & Hl2 & Hlow2 & Hq2).
    split_and!; [by eapply unchanged_trans|congruence|by eapply same_offsets_trans|].
    apply lookup_lt_Some in Hq as Hqlt. split_and!.
    + by rewrite Hl2, Ht1, length_insert.
    + intros j Hj. rewrite (Hlow2 j), Ht1, list_lookup_insert_ne by lia. done.
    + intros [|k] f' r' queue' Hr' Hf' Hq'; simpl in Hr'.
      * rewrite Nat.add_0_r in *. simplify_eq. exists extra. split; [|done].
        rewrite (Hlow2 i), Ht1 by lia. by apply list_lookup_insert_eq.
      * replace (i + S k)%nat with (S i + k)%nat in * by lia.
        apply (Hq2 k); [done|by rewrite Hr1|].
        rewrite Ht1, list_lookup_insert_ne by lia. done.
Qed.
End reading.

(** ** The invariant of a reader *)

Section invariant.
Context `{PackedFilesLaws} `{!PriorityQueue offset_key}.
Implicit Types s : PackedReader.

(** How a reader is set up: accurate files of [T] rows each, opened in the
    order of their paths, and the columns that the files have for the wanted
    fields.  The offsets of the heap are [int]s. *)
Record layout (T : Z) s : Prop := {
  ly_files : Forall2 file_ok (rd_file_readers s) (rd_metadata_list s);
  ly_some : rd_file_readers s ≠ [];
  ly_rows f : f ∈ rd_file_readers s → file_rows f = T;
  ly_max : T ≤ INT32_MAX;
  ly_index : rd_path_index s = Z.of_nat <$> seq 0 (length (rd_file_readers s));
  ly_queues : (length (rd_file_readers s) ≤ length (rd_tables s))%nat;
  ly_offsets : column_offsets_ (rd_chunk_manager s)
    = omap (λ e, rd_field_id_mapping s !! e.2) (zip (rd_schema s) (rd_field_id_list s));
  ly_columns off : off ∈ column_offsets_ (rd_chunk_manager s) →
    0 ≤ path_index off ∧ ∃ f, rd_file_readers s !! Z.to_nat (path_index off) = Some f ∧
      0 ≤ col_index off < Z.of_nat (pf_width f);
}.

Definition planned s : Prop :=
  length (rd_states s) = length (rd_file_readers s) ∧
  ∀ j f st, rd_file_readers s !! j = Some f → rd_states s !! j = Some st →
    file_at f st ∧ rd_row_limit s ≤ row_offset st.

(** The queues hold, from the current row on, the row groups read so far. *)
Definition buffered s : Prop :=
  ∃ pos, cm_inv pos (rd_chunk_manager s) (rd_tables s) ∧
  ∀ off f st, off ∈ column_offsets_ (rd_chunk_manager s) →
    rd_file_readers s !! Z.to_nat (path_index off) = Some f →
    rd_states s !! Z.to_nat (path_index off) = Some st →
    remaining (rd_tables s) pos off
    = drop (Z.to_nat (rd_row_position s))
        (cells_upto f (Z.to_nat (col_index off)) (Z.to_nat (row_group_offset st + 1))).

Definition rd_inv (T : Z) s : Prop :=
  layout T s ∧ planned s ∧ buffered s ∧ 0 ≤ rd_row_position s ≤ rd_row_limit s.

(** The parts of the state that reading never changes. *)
Definition static s s' : Prop :=
  rd_schema s' = rd_schema s ∧ rd_field_id_list s' = rd_field_id_list s ∧
  rd_field_id_mapping s' = rd_field_id_mapping s ∧ rd_file_readers s' = rd_file_readers s ∧
  rd_metadata_list s' = rd_metadata_list s ∧ rd_path_index s' = rd_path_index s ∧
  length (rd_tables s') = length (rd_tables s) ∧
  column_offsets_ (rd_chunk_manager s') = column_offsets_ (rd_chunk_manager s).

Lemma layout_static T s s' : layout T s → static s s' → layout T s'.
Proof.
  intros [] (E1 & E2 & E3 & E4 & E5 & E6 & E7 & E8).
  split; rewrite ?E1, ?E2, ?E3, ?E4, ?E5, ?E6, ?E7, ?E8; done.
Qed.

Lemma static_refl s : static s s.
Proof. done. Qed.

Lemma static_trans s1 s2 s3 : static s1 s2 → static s2 s3 → static s1 s3.
Proof. intros (?&?&?&?&?&?&?&?) (?&?&?&?&?&?&?&?). split_and!; congruence. Qed.

Lemma file_at_same f st st' :
  row_offset st' = row_offset st → row_group_offset st' = row_group_offset st →
  file_at f st → file_at f st'.
Proof. unfold file_at. by intros -> ->. Qed.

Lemma file_at_rows f m st : file_ok f m → file_at f st → 0 ≤ row_offset st ≤ file_rows f.
Proof.
  intros Hok [Hg ->]. split; [unfold rows_upto; lia|]. apply (rows_upto_le f m); [done|lia].
Qed.

Lemma layout_file T s j f :
  layout T s → rd_file_readers s !! j = Some f →
  file_rows f = T ∧ ∃ m, rd_metadata_list s !! j = Some m ∧ file_ok f m.
Proof.
  intros HL Hf. split; [by eapply ly_rows, list_elem_of_lookup_2|].
  eapply Forall2_lookup_l in Hf; [|by eapply ly_files]. naive_solver.
Qed.

(** A column of a file, up to what is planned of the file. *)
Lemma planned_length T s off f st :
  layout T s → off ∈ column_offsets_ (rd_chunk_manager s) →
  rd_file_readers s !! Z.to_nat (path_index off) = Some f → file_at f st →
  Z.of_nat (length (cells_upto f (Z.to_nat (col_index off)) (Z.to_nat (row_group_offset st + 1))))
  = row_offset st.
Proof.
  intros HL Hoff Hf [Hg ->]. destruct (ly_columns _ _ HL off Hoff) as (_ & f' & Hf' & Hc).
  simplify_eq. destruct (layout_file T s _ f HL Hf) as (_ & m & _ & Hok).
  apply (cells_upto_length f m); [done|lia|lia].
Qed.

(** A column with nothing left has an empty queue, so its cursor is reset. *)
Lemma aligned_empty pos tables off st :
  aligned pos tables off st → remaining tables pos off = [] → st = cs_reset.
Proof.
  intros (Hp & queue & Hq & Hok & Hcur) Hrem. destruct queue as [|t queue]; [by destruct Hcur|].
  exfalso. destruct Hcur as (column & Hcol & Hat). apply Forall_cons in Hok as [(tb & n & -> & _) _].
  simpl in Hcol. unfold remaining in Hrem. rewrite Hq in Hrem. unfold cell_stream in Hrem.
  simpl in Hrem. rewrite Hcol in Hrem. simpl in Hrem. apply (f_equal length) in Hrem.
  pose proof (cursor_pos_nonneg _ _ _ Hat).
  destruct Hat as (pre & c & post & -> & _ & Ho & Hpos).
  rewrite length_drop, length_app, col_cells_app, col_cells_cons, !length_app in Hrem. simpl in Hrem.
  rewrite col_rows_cells, acells_length in *. lia.
Qed.

Lemma reset_noop path cm :
  length (chunk_states_ cm) = length (column_offsets_ cm) →
  (∀ i off st, column_offsets_ cm !! i = Some off → chunk_states_ cm !! i = Some st →
     path_index off = path → st = cs_reset) →
  ResetChunkState path cm = cm.
Proof.
  destruct cm as [offs sts size]. unfold ResetChunkState; simpl. intros Hlen Hst. f_equal.
  revert sts Hlen Hst. induction offs as [|off offs IH]; intros [|st sts] Hlen Hst; simplify_eq/=; [done|].
  rewrite IH; [|done|intros i; apply (Hst (S i))]. f_equal.
  destruct (Z.eqb_spec (path_index off) path); [|done]. symmetry. by apply (Hst 0%nat off st).
Qed.

(** A file without rows: resetting its cursors changes nothing. *)
Lemma drained_reset T s j st :
  rd_inv T s → rd_states s !! j = Some st → row_offset st ≤ rd_row_position s →
  ResetChunkState (Z.of_nat j) (rd_chunk_manager s) = rd_chunk_manager s.
Proof.
  intros (HL & [Hls Hpl] & (pos & Hcm & Hrem) & Hpos) Hst Hle. apply reset_noop.
  { symmetry. by eapply Forall2_length. }
  intros i off cs Hoff Hcs Hpath.
  pose proof (Forall2_lookup_lr _ _ _ _ _ _ Hcm Hoff Hcs) as Hal.
  eapply aligned_empty; [done|].
  apply list_elem_of_lookup_2 in Hoff as Hin.
  assert (Z.to_nat (path_index off) = j) as Hj by lia.
  destruct (ly_columns _ _ HL off Hin) as (_ & f & Hf & _).
  rewrite (Hrem off f st Hin Hf) by (by rewrite Hj). apply drop_ge.
  pose proof (planned_length T s off f st HL Hin Hf) as Hlen.
  rewrite Hj in Hf. destruct (Hpl j f st Hf Hst) as [Hat _]. specialize (Hlen Hat). lia.
Qed.
(** *** Filling the buffer *)

Lemma plan_init T s :
  layout T s → planned s →
  plan_inv (rd_file_readers s) (rd_states s)
    (mkPlan (rd_states s) (replicate (length (rd_file_readers s)) []) 0).
Proof.
  intros HL [Hls Hpl]. split_and!; simpl; [done|by rewrite length_replicate|].
  intros i f st0 Hf Hst0. exists st0. apply lookup_lt_Some in Hf as Hlt.
  destruct (Hpl i f st0 Hf Hst0). split_and!; [done|done|done|].
  rewrite lookup_replicate_2, Z.sub_diag by done. done.
Qed.

(** One column of a file after the planned row groups of the file were read. *)
Lemma column_after T s pos off cs f st0 st queue extra tables' :
  layout T s → off ∈ column_offsets_ (rd_chunk_manager s) →
  rd_file_readers s !! Z.to_nat (path_index off) = Some f → file_at f st0 → file_at f st →
  row_group_offset st0 ≤ row_group_offset st → rd_row_position s ≤ row_offset st0 →
  aligned pos (rd_tables s) off cs →
  rd_tables s !! Z.to_nat (path_index off) = Some queue →
  tables' !! Z.to_nat (path_index off) = Some (queue ++ extra) →
  read_adds f (seqZ (row_group_offset st0 + 1) (row_group_offset st - row_group_offset st0)) extra →
  remaining (rd_tables s) pos off
  = drop (Z.to_nat (rd_row_position s))
      (cells_upto f (Z.to_nat (col_index off)) (Z.to_nat (row_group_offset st0 + 1))) →
  aligned pos tables' off cs ∧ remaining tables' pos off
  = drop (Z.to_nat (rd_row_position s))
      (cells_upto f (Z.to_nat (col_index off)) (Z.to_nat (row_group_offset st + 1))).
Proof.
  intros HL Hin Hf Hat0 Hat Hle Hlim Hal Hqueue Hq' Hadds Hrem.
  destruct (ly_columns _ _ HL off Hin) as (_ & f1 & Hf1 & Hcol). assert (f1 = f) as -> by congruence.
  destruct (layout_file T s _ f HL Hf) as (_ & m & _ & Hok).
  destruct (decide (row_group_offset st0 = row_group_offset st)) as [Heq|Hne].
  - rewrite Heq, Z.sub_diag in Hadds. destruct Hadds as [[_ ->]|[? _]]; [|done].
    destruct (aligned_append pos (rd_tables s) tables' off cs queue [] Hal Hqueue Hq')
      as [Hal' Hrem']; [constructor|].
    split; [done|]. by rewrite Hrem', app_nil_r, <- Heq.
  - destruct Hadds as [[Hnil _]|(_ & t & -> & Hread)].
    { rewrite seqZ_cons in Hnil by lia. done. }
    destruct (read_table f m st0 st t Hok Hat0 Hat ltac:(lia) Hread (col_index off) Hcol) as [Hqok Hcells].
    destruct (aligned_append pos (rd_tables s) tables' off cs queue [Some t] Hal Hqueue Hq' Hqok)
      as [Hal' Hrem'].
    split; [done|]. rewrite Hrem', Hcells, Hrem.
    pose proof (planned_length T s off f st0 HL Hin Hf Hat0) as Hl0.
    destruct Hat0 as [Hg0 Hro0], Hat as [Hg Hro].
    destruct (cells_upto_take f m (Z.to_nat (col_index off)) (Z.to_nat (row_group_offset st0 + 1))
      (Z.to_nat (row_group_offset st + 1)) Hok ltac:(lia) ltac:(lia)) as [Htake _].
    rewrite <- Hro0 in Htake.
    rewrite <- (take_drop (Z.to_nat (row_offset st0)) (cells_upto f (Z.to_nat (col_index off))
                  (Z.to_nat (row_group_offset st + 1)))) at 2.
    rewrite Htake, drop_app_le by lia. done.
Qed.

(** The buffer after the planned row groups were read. *)
Lemma buffered_after T s s' p :
  rd_inv T s → plan_inv (rd_file_readers s) (rd_states s) p → static s s' →
  chunk_states_ (rd_chunk_manager s') = chunk_states_ (rd_chunk_manager s) →
  rd_row_position s' = rd_row_position s → same_offsets (pl_states p) (rd_states s') →
  queues_grow s s' 0 (pl_rgs p) → buffered s'.
Proof.
  intros (HL & [Hls Hpl] & (pos & Hcm & Hrem) & Hpos) (_ & _ & Hp)
    (_ & _ & _ & Er & _ & _ & _ & Eo) Ec Ep [_ Hsame] (_ & _ & Hq).
  assert (∀ off cs, off ∈ column_offsets_ (rd_chunk_manager s) → aligned pos (rd_tables s) off cs →
    ∃ f st, rd_file_readers s !! Z.to_nat (path_index off) = Some f ∧
      pl_states p !! Z.to_nat (path_index off) = Some st ∧
      aligned pos (rd_tables s') off cs ∧ remaining (rd_tables s') pos off
      = drop (Z.to_nat (rd_row_position s))
          (cells_upto f (Z.to_nat (col_index off)) (Z.to_nat (row_group_offset st + 1)))) as Hcol.
  { intros off cs Hin Hal. destruct (ly_columns _ _ HL off Hin) as (Hpath & f & Hf & Hcol).
    apply lookup_lt_Some in Hf as Hlt.
    destruct (lookup_lt_is_Some_2 (rd_states s) (Z.to_nat (path_index off))) as [st0 Hst0]; [lia|].
    destruct (Hp _ f st0 Hf Hst0) as (st & Hst & Hat & Hle & Hrgs).
    destruct (Hpl _ f st0 Hf Hst0) as [Hat0 Hlim].
    pose proof Hal as (_ & queue & Hqueue & _).
    destruct (Hq _ f _ queue Hrgs Hf Hqueue) as (extra & Hq' & Hadds). simpl in Hq'.
    exists f, st. split; [done|]. split; [done|].
    eapply (column_after T s); eauto; lia. }
  exists pos. split.
  - unfold cm_inv. rewrite Eo, Ec. apply Forall2_same_length_lookup_2; [by eapply Forall2_length|].
    intros i off cs Hoff Hcs. pose proof (Forall2_lookup_lr _ _ _ _ _ _ Hcm Hoff Hcs) as Hal.
    apply list_elem_of_lookup_2 in Hoff. by destruct (Hcol off cs Hoff Hal) as (? & ? & ? & ? & ? & _).
  - rewrite Eo, Er, Ep. intros off f st' Hin Hf Hst'.
    destruct (Hsame _ _ Hst') as (st & Hst & _ & ->).
    apply list_elem_of_lookup_1 in Hin as Hi. destruct Hi as [i Hi].
    destruct (Forall2_lookup_l _ _ _ _ _ Hcm Hi) as (cs & _ & Hal).
    destruct (Hcol off cs Hin Hal) as (f1 & st1 & Hf1 & Hst1 & _ & Hrem'). by simplify_eq.
Qed.

(** The top of the heap is the least planned row offset. *)
Lemma heap_top_least states heap top rest T :
  heap ≡ₚ offset_heap states → pop_top heap = Some (top, rest) → T ≤ INT32_MAX →
  (∀ j st, states !! j = Some st → 0 ≤ row_offset st ≤ T) →
  (∃ j st, states !! j = Some st ∧ top.2 = row_offset st) ∧
  ∀ j st, states !! j = Some st → top.2 ≤ row_offset st.
Proof.
  intros Hheap Hpop HT Hrows. destruct (pop_top_Some _ _ _ Hpop) as [Hperm Hmax].
  assert (∀ j st, states !! j = Some st → wrap_i32 (row_offset st) = row_offset st) as Hw.
  { intros j st Hj. apply wrap_i32_small. specialize (Hrows j st Hj). unfold INT32_MIN. lia. }
  split.
  - destruct (heap_entry_of heap states top rest Hheap Hperm) as (i & st & Hst & ->).
    exists i, st. split; [done|]. by apply (Hw i).
  - intros j st Hj. rewrite Forall_forall in Hmax.
    specialize (Hmax (Z.of_nat j, wrap_i32 (row_offset st))).
    unfold offset_key in Hmax; simpl in Hmax. rewrite (Hw j st Hj) in Hmax.
    assert (- row_offset st ≤ - top.2); [|lia]. apply Hmax. rewrite Hheap.
    apply list_elem_of_lookup. exists j. unfold offset_heap. rewrite list_lookup_imap, Hj. simpl.
    by rewrite (Hw j st Hj).
Qed.
(** What filling the buffer promises: rows to return unless all were returned. *)
Definition filled (T : Z) s s' : Prop :=
  rd_inv T s' ∧ static s s' ∧ rd_row_position s' = rd_row_position s ∧
  (rd_row_position s < rd_row_limit s' ∨
   rd_row_position s = T ∧ rd_row_limit s' = rd_row_limit s).

(** All rows were returned: nothing is planned. *)
Lemma wp_advance_end T s :
  rd_inv T s → rd_row_limit s = rd_row_position s → rd_row_position s = T →
  wp advanceBuffer s (λ _ s', filled T s s') io_failed.
Proof.
  intros (HL & [Hls Hpl] & Hbuf & Hpos) Hlim HT.
  destruct (rd_file_readers s) as [|f0 fs] eqn:Hr; [by destruct (ly_some _ _ HL)|].
  assert (rd_file_readers s !! 0%nat = Some f0) as Hf0 by by rewrite Hr.
  destruct (lookup_lt_is_Some_2 (rd_states s) 0) as [st0 Hst0]; [rewrite Hls; simpl; lia|].
  destruct (Hpl 0%nat f0 st0 eq_refl Hst0) as [Hat0 Hge0].
  destruct (layout_file T s 0 f0 HL Hf0) as (Hrows & m & _ & Hok).
  pose proof (file_at_rows f0 m st0 Hok Hat0) as Hbound. rewrite <- Hr in Hls, Hpl.
  destruct (fill_drained_end (rd_file_readers s) (rd_metadata_list s) (ly_files _ _ HL)
    (rd_states s) (rd_row_limit s) (rd_chunk_manager s) _ (rd_memory_used s) f0 st0
    Hls (plan_init T s HL (conj Hls Hpl)) Hf0 Hst0 ltac:(lia) ltac:(lia))
    as (p & used & Hfill & (Hlp & _) & Hsz & Hsame).
  unfold advanceBuffer. apply wp_bind, wp_get, wp_bind. eapply wp_lift; [exact Hfill|].
  apply wp_bind, wp_modify. rewrite Hsz. simpl pl_size. rewrite Z.eqb_refl. apply wp_ret.
  assert (static s (set_plan (pl_states p) used (rd_chunk_manager s) s)) as Hstat by done.
  split; [split; [by eapply layout_static|split; [split; [done|]|split; [|simpl; lia]]]
         |split_and!; [done|done|by right]]; simpl.
  - intros j f st' Hf Hst'. destruct (Hsame j st' Hst') as (st & Hst & Ero & Erg).
    destruct (Hpl j f st Hf Hst) as [Hat Hle]. rewrite Ero. split; [by eapply file_at_same|done].
  - destruct Hbuf as (pos & Hcm & Hrem). exists pos. split; [done|]. simpl.
    intros off f st' Hin Hf Hst'. destruct (Hsame _ st' Hst') as (st & Hst & _ & ->). by apply Hrem.
Qed.
(** Rows are left: planning succeeds, and every file has rows beyond the limit. *)
Lemma plan_more T s :
  rd_inv T s → rd_row_limit s = rd_row_position s → rd_row_position s < T →
  let n := length (rd_file_readers s) in
  let metas := rd_metadata_list s in
  ∃ p used p' heap,
    fill_drained metas (rd_row_limit s) 0 n (mkPlan (rd_states s) (replicate n []) 0)
      (rd_memory_used s) (rd_chunk_manager s) = Ok (p, used, rd_chunk_manager s, None) ∧
    prefetch (groups_left metas (pl_states p)) metas (rd_memory_limit s) used
      (offset_heap (pl_states p)) p = Ok (p', heap) ∧
    plan_inv (rd_file_readers s) (rd_states s) p' ∧ heap ≡ₚ offset_heap (pl_states p') ∧
    (∀ j st, pl_states p' !! j = Some st → rd_row_limit s < row_offset st) ∧
    (p' = p ∨ wrap_u64 (pl_size p' + used) ≤ rd_memory_limit s).
Proof.
  intros Hinv Hlim HT n metas. pose proof Hinv as (HL & [Hls Hpl] & _ & Hpos).
  pose proof (plan_init T s HL (conj Hls Hpl)) as Hinit.
  assert (∀ j st, rd_states s !! j = Some st → rd_row_limit s ≤ row_offset st) as Hge.
  { intros j st Hst. apply lookup_lt_Some in Hst as Hlt.
    destruct (lookup_lt_is_Some_2 (rd_file_readers s) j) as [f Hf]; [lia|]. by apply (Hpl j f st). }
  destruct (fill_drained_spec _ _ (ly_files _ _ HL) (rd_states s) (rd_row_limit s) (rd_chunk_manager s)
    n 0 _ (rd_memory_used s) Hls Hinit) as (p & used & Hfill & Hp & Hbeyond); simpl; try lia.
  { intros j f Hf. destruct (layout_file T s j f HL Hf) as [-> _]. lia. }
  { intros j st _. apply Hge. }
  { intros j st _ Hst Hle. apply (drained_reset T s j st Hinv Hst). lia. }
  destruct (prefetch_spec _ _ (ly_files _ _ HL) (rd_states s) (rd_memory_limit s) used
    (groups_left metas (pl_states p)) (offset_heap (pl_states p)) p Hls Hp)
    as (p' & heap & Hpre & Hp' & Hheap & Hgrow & Hmem); [done|done|].
  exists p, used, p', heap. split_and!; try done.
  intros j st' Hst'. destruct (Hgrow j st' Hst') as (st & Hst & Hle).
  specialize (Hbeyond j st Hst). lia.
Qed.

Lemma plan_rows T s p j st :
  layout T s → length (rd_states s) = length (rd_file_readers s) →
  plan_inv (rd_file_readers s) (rd_states s) p → pl_states p !! j = Some st →
  ∃ f, rd_file_readers s !! j = Some f ∧ file_at f st ∧ 0 ≤ row_offset st ≤ T.
Proof.
  intros HL Hls (Hl & _ & Hp) Hst. apply lookup_lt_Some in Hst as Hlt.
  destruct (lookup_lt_is_Some_2 (rd_file_readers s) j) as [f Hf]; [lia|].
  destruct (lookup_lt_is_Some_2 (rd_states s) j) as [st0 Hst0]; [lia|].
  destruct (Hp j f st0 Hf Hst0) as (st1 & Hst1 & Hat & _). assert (st1 = st) as -> by congruence.
  destruct (layout_file T s j f HL Hf) as (<- & m & _ & Hok). exists f. split_and!; try done.
  all: pose proof (file_at_rows f m st Hok Hat); lia.
Qed.

Lemma wp_advance_more T s :
  rd_inv T s → rd_row_limit s = rd_row_position s → rd_row_position s < T →
  wp advanceBuffer s (λ _ s', filled T s s') io_failed.
Proof.
  intros Hinv Hlim HT. pose proof Hinv as (HL & [Hls Hpl] & _ & Hpos).
  destruct (plan_more T s Hinv Hlim HT)
    as (p & used & p' & heap & Hfill & Hpre & Hp' & Hheap & Hbeyond & _).
  pose proof Hp' as (Hlp & Hlr & _).
  unfold advanceBuffer. apply wp_bind, wp_get, wp_bind. eapply wp_lift; [exact Hfill|].
  apply wp_bind, wp_modify, wp_bind. eapply wp_lift; [exact Hpre|]. apply wp_bind, wp_modify.
  eapply wp_seq.
  { apply wp_read_files; simpl; [apply (ly_index _ _ HL)|by rewrite Hlr|apply (ly_queues _ _ HL)]. }
  intros _ s1 ((E1 & E2 & E3 & E4 & E5 & E6 & E7 & E8 & E9) & _ & Hsame & Hgrow). simpl in *.
  apply wp_bind, wp_modify.
  assert (0 < length (pl_states p'))%nat as Hne.
  { rewrite Hlp. destruct (rd_file_readers s) eqn:Hr; [by destruct (ly_some _ _ HL)|simpl; lia]. }
  destruct (pop_top heap) as [[top rest]|] eqn:Hpop.
  2:{ apply pop_top_None in Hpop as ->. apply Permutation_length in Hheap.
      unfold offset_heap in Hheap. rewrite length_imap in Hheap. simpl in Hheap. lia. }
  destruct (heap_top_least (pl_states p') heap top rest T Hheap Hpop (ly_max _ _ HL))
    as [(jt & stt & Hjt & Htop) Hleast].
  { intros j st Hst. by destruct (plan_rows T s p' j st HL Hls Hp' Hst) as (f & _ & _ & ?). }
  apply wp_modify. set (s2 := set_rows _ _ _).
  assert (static s s2) as Hstat by (split_and!; simpl; congruence || apply Hgrow).
  specialize (Hbeyond jt stt Hjt) as Htop'.
  split; [split; [by eapply layout_static|split; [|split]]|split_and!; [done|done|left; simpl; lia]].
  - destruct Hsame as [Hsl Hsame]. split; simpl; [congruence|]. rewrite E4.
    intros j f st' Hf Hst'. destruct (Hsame j st' Hst') as (st & Hst & Ero & Erg).
    destruct (plan_rows T s p' j st HL Hls Hp' Hst) as (f' & Hf' & Hat & _).
    assert (f' = f) as -> by congruence. split; [by eapply file_at_same|]. rewrite Ero. by apply (Hleast j).
  - apply (buffered_after T s s2 p' Hinv Hp' Hstat); simpl; [congruence|done|done|exact Hgrow].
  - simpl. lia.
Qed.

Lemma position_le T s : rd_inv T s → rd_row_position s ≤ T.
Proof.
  intros (HL & [Hls Hpl] & _ & Hpos).
  destruct (rd_file_readers s) as [|f fs] eqn:Hr; [by destruct (ly_some _ _ HL)|].
  assert (rd_file_readers s !! 0%nat = Some f) as Hf by by rewrite Hr.
  destruct (lookup_lt_is_Some_2 (rd_states s) 0) as [st Hst]; [rewrite Hls; simpl; lia|].
  destruct (Hpl 0%nat f st eq_refl Hst) as [Hat Hge].
  destruct (layout_file T s 0 f HL Hf) as (<- & m & _ & Hok).
  pose proof (file_at_rows f m st Hok Hat). lia.
Qed.

Lemma wp_advance T s :
  rd_inv T s → rd_row_limit s ≤ rd_row_position s →
  wp advanceBuffer s (λ _ s', filled T s s') io_failed.
Proof.
  intros Hinv Hle. pose proof (position_le T s Hinv). pose proof Hinv as (_ & _ & _ & Hpos).
  destruct (decide (rd_row_position s = T)); [apply wp_advance_end|apply wp_advance_more]; done || lia.
Qed.

(** *** Returning rows *)

(** The cells of [n] rows from row [position] on of a column. *)
Definition column_rows (readers : list FileReader) (position n : Z) (off : ColumnOffset)
    (a : Array) : Prop :=
  ∃ f, readers !! Z.to_nat (path_index off) = Some f ∧ array_length a = n ∧
    acells a = take (Z.to_nat n) (drop (Z.to_nat position) (file_col f (Z.to_nat (col_index off)))).

Lemma remaining_nonempty T s off pos :
  rd_inv T s → rd_row_position s < rd_row_limit s → off ∈ column_offsets_ (rd_chunk_manager s) →
  (∀ f st, rd_file_readers s !! Z.to_nat (path_index off) = Some f →
     rd_states s !! Z.to_nat (path_index off) = Some st →
     remaining (rd_tables s) pos off
     = drop (Z.to_nat (rd_row_position s))
         (cells_upto f (Z.to_nat (col_index off)) (Z.to_nat (row_group_offset st + 1)))) →
  ∃ f st, rd_file_readers s !! Z.to_nat (path_index off) = Some f ∧
    rd_states s !! Z.to_nat (path_index off) = Some st ∧ file_at f st ∧
    rd_row_position s + Z.of_nat (length (remaining (rd_tables s) pos off)) = row_offset st ∧
    rd_row_limit s ≤ row_offset st.
Proof.
  intros (HL & [Hls Hpl] & _ & Hpos) Hlt Hin Hrem.
  destruct (ly_columns _ _ HL off Hin) as (_ & f & Hf & _). apply lookup_lt_Some in Hf as Hltf.
  destruct (lookup_lt_is_Some_2 (rd_states s) (Z.to_nat (path_index off))) as [st Hst]; [lia|].
  destruct (Hpl _ f st Hf Hst) as [Hat Hge]. exists f, st. split_and!; try done.
  rewrite (Hrem f st Hf Hst), length_drop.
  pose proof (planned_length T s off f st HL Hin Hf Hat). lia.
Qed.

(** The next cells of what is left are the next rows of the file. *)
Lemma next_cells f m col k position n :
  file_ok f m → (col < pf_width f)%nat → (k ≤ length (pf_groups f))%nat →
  0 ≤ position → 0 ≤ n → position + n ≤ rows_upto f k →
  take (Z.to_nat n) (drop (Z.to_nat position) (cells_upto f col k))
  = take (Z.to_nat n) (drop (Z.to_nat position) (file_col f col)).
Proof.
  intros Hok Hcol Hk Hp Hn Hle. unfold file_col.
  destruct (cells_upto_take f m col k (length (pf_groups f)) Hok Hcol ltac:(lia)) as [Htake _].
  rewrite <- Htake.
  rewrite !skipn_firstn_comm, !take_take. f_equal. lia.
Qed.
Lemma Forall2_impl_elem {A B} (P Q : A → B → Prop) l k :
  Forall2 P l k → (∀ x y, x ∈ l → P x y → Q x y) → Forall2 Q l k.
Proof.
  induction 1 as [|x y l k Hp _ IH]; intros Himp; constructor.
  - apply Himp; [by left|done].
  - apply IH. intros. apply Himp; [by right|done].
Qed.

(** A cut keeps the number of queues. *)
Lemma slice_chunks_length cm tables chunksize :
  length (SliceChunksByMaxContiguousSlice chunksize (cm, tables)).1.2 = length tables.
Proof.
  assert (∀ l (ts : list TableQueue), length (foldl (λ ts i, alter tail (Z.to_nat i) ts) ts l)
    = length ts) as Hfold.
  { induction l as [|i l IH]; intros ts; simpl; [done|]. by rewrite IH, length_alter. }
  unfold SliceChunksByMaxContiguousSlice.
  destruct (pick_chunks _ _ _ _) as [size [chunks|e|]]; [|done|done].
  destruct (advance_columns _ _ _ _) as [[slices sts] pops]. apply Hfold.
Qed.

(** A cut of a reader that has rows returns the next rows of every column and
    keeps the invariant. *)
Lemma cut_spec T s :
  rd_inv T s → rd_row_position s < rd_row_limit s →
  ∃ slices cm tables,
    SliceChunksByMaxContiguousSlice (rd_row_limit s - rd_row_position s)
      (rd_chunk_manager s, rd_tables s) = ((cm, tables), Ok slices) ∧
    0 < chunksize_ cm ≤ rd_row_limit s - rd_row_position s ∧
    Forall2 (column_rows (rd_file_readers s) (rd_row_position s) (chunksize_ cm))
      (column_offsets_ (rd_chunk_manager s)) slices ∧
    let s' := set_rows (rd_row_limit s) (rd_row_position s + chunksize_ cm) (set_tables tables cm s) in
    static s s' ∧ rd_inv T s'.
Proof.
  intros Hinv Hlt. pose proof Hinv as (HL & Hpl & (pos & Hcm & Hrem) & Hpos).
  pose proof (λ off Hin, remaining_nonempty T s off pos Hinv Hlt Hin
    (λ f st, Hrem off f st Hin)) as Hcols.
  destruct (slice_chunks_spec pos (rd_chunk_manager s) (rd_tables s)
    (rd_row_limit s - rd_row_position s) Hcm) as (slices & cm & tables & pos' & Hcut & Eo & Hcm' & Hsz & Hsl);
    [|lia|].
  { apply Forall_forall. intros off Hin Hq. destruct (Hcols off Hin) as (f & st & _ & _ & _ & Hlen & Hge).
    unfold remaining in Hlen. rewrite Hq in Hlen. unfold cell_stream in Hlen. simpl in Hlen.
    rewrite drop_nil in Hlen. simpl in Hlen. lia. }
  pose proof (slice_chunks_length (rd_chunk_manager s) (rd_tables s)
    (rd_row_limit s - rd_row_position s)) as Htl. rewrite Hcut in Htl. simpl in Htl.
  exists slices, cm, tables. split; [done|]. split; [lia|]. split; [|split; [|split_and!]].
  - eapply Forall2_impl_elem; [exact Hsl|]. intros off slice Hin [Hn Happ].
    destruct (Hcols off Hin) as (f & st & Hf & Hst & Hat & Hlen & Hge). exists f.
    destruct (ly_columns _ _ HL off Hin) as (_ & f1 & Hf1 & Hc). assert (f1 = f) as -> by congruence.
    destruct (layout_file T s _ f HL Hf) as (_ & m & _ & Hok). pose proof Hat as [Hg Hro].
    split_and!; [done|by rewrite acells_length|].
    rewrite <- (next_cells f m _ (Z.to_nat (row_group_offset st + 1))) by (done || lia).
    rewrite <- (Hrem off f st Hin Hf Hst), <- Happ. rewrite take_app_le by lia.
    symmetry. apply take_ge. lia.
  - by split_and!.
  - by eapply layout_static; [exact HL|split_and!].
  - done.
  - exists pos'. split; [done|]. simpl. rewrite Eo. intros off f st Hin Hf Hst.
    apply list_elem_of_lookup_1 in Hin as Hi. destruct Hi as [i Hi].
    destruct (Forall2_lookup_l _ _ _ _ _ Hsl Hi) as (slice & _ & Hn & Happ).
    rewrite Z2Nat.inj_add, <- drop_drop, <- (Hrem off f st Hin Hf Hst), <- Happ by lia.
    rewrite drop_app_le by lia. rewrite drop_ge by lia. done.
  - simpl. lia.
  - simpl. lia.
Qed.
(** The columns of a batch: the next rows for the fields the files have, the
    library's nulls for the others. *)
Definition batch_columns s (position n : Z) (columns : list Array) : Prop :=
  Forall2 (λ e a,
    match rd_field_id_mapping s !! e.2 with
    | Some off => column_rows (rd_file_readers s) position n off a
    | None => MakeArrayOfNull (fd_type e.1) n = Ok a
    end) (zip (rd_schema s) (rd_field_id_list s)) columns.

Lemma fill_columns_spec (mapping : gmap FieldID ColumnOffset) n (P : ColumnOffset → Array → Prop)
    fields slices :
  Forall2 P (omap (λ e : Field * FieldID, mapping !! e.2) fields) slices →
  (∃ columns, fill_columns mapping n fields slices = Ok columns ∧
     Forall2 (λ e a, match mapping !! e.2 with
                     | Some off => P off a
                     | None => MakeArrayOfNull (fd_type e.1) n = Ok a
                     end) fields columns) ∨
  (∃ t st, MakeArrayOfNull t n = Err st ∧
     fill_columns mapping n fields slices = Err (Returned (WrapExtendError PackedArrowError st))).
Proof.
  revert slices. induction fields as [|[f id] fields IH]; intros slices Hs; cbn [fill_columns].
  - left. exists []. split; [done|constructor].
  - simpl in Hs. destruct (mapping !! id) as [off|] eqn:Hm.
    + apply Forall2_cons_inv_l in Hs as (a & slices' & Ha & Hs & ->).
      destruct (IH slices' Hs) as [(columns & -> & Hc)|(t & st & Ht & ->)]; [left|right; eauto].
      exists (a :: columns). split; [done|]. constructor; [by simpl; rewrite Hm|done].
    + destruct (MakeArrayOfNull (fd_type f) n) as [a|st|] eqn:Hnull; [|right; eauto|by apply null_defined in Hnull].
      destruct (IH slices Hs) as [(columns & -> & Hc)|(t & st & Ht & ->)]; [left|right; eauto].
      exists (a :: columns). split; [done|]. constructor; [by simpl; rewrite Hm|done].
Qed.

(** A failed call of the library, as [ReadNext] reports it. *)
Definition library_failed (st : Status) : Prop :=
  (∃ f rgs e, ReadRowGroups f rgs = Err e ∧ st = WrapExtendError PackedStorageIO e) ∨
  (∃ t n e, MakeArrayOfNull t n = Err e ∧ st = WrapExtendError PackedArrowError e).

(** What a call promises of the rows from [rd_row_position s] on. *)
Definition next_rows (T : Z) s (r : option (Z * list Array)) s' : Prop :=
  rd_inv T s' ∧ static s s' ∧
  match r with
  | None => rd_row_position s = T ∧ rd_row_position s' = T
  | Some (n, columns) =>
      0 < n ∧ rd_row_position s' = rd_row_position s + n ∧ rd_row_position s' ≤ T ∧
      batch_columns s (rd_row_position s) n columns
  end.

Lemma wp_return_rows T s s0 :
  rd_inv T s → static s0 s → rd_row_position s = rd_row_position s0 →
  rd_row_position s < rd_row_limit s ∨ rd_row_position s = T ∧ rd_row_limit s = rd_row_position s →
  wp return_rows s (next_rows T s0) (λ e _, ∃ st, e = Returned st ∧ library_failed st).
Proof.
  intros Hinv Hstat Hp0 Hcase. unfold return_rows. apply wp_bind, wp_get.
  destruct (Z.leb_spec (rd_row_limit s) (rd_row_position s)) as [Hle|Hlt].
  { apply wp_ret. split_and!; [done|done|lia|lia]. }
  destruct (cut_spec T s Hinv Hlt) as (slices & cm & tables & -> & Hsz & Hcols & Hstat' & Hinv').
  apply wp_bind, wp_modify, wp_bind, wp_modify, wp_bind, wp_get, wp_bind.
  pose proof Hinv as (HL & _). rewrite (ly_offsets _ _ HL) in Hcols.
  destruct (fill_columns_spec _ (chunksize_ cm) _ _ _ Hcols) as [(columns & Hfill & Hcolumns)|(t & st & Ht & Hfill)].
  - eapply wp_lift; [exact Hfill|]. apply wp_ret. pose proof Hstat as (E1 & E2 & E3 & E4 & _).
    split; [done|]. split; [by eapply static_trans|]. split; [lia|]. split; [simpl; lia|].
    split; [by apply (position_le T) in Hinv'|].
    unfold batch_columns. rewrite <- Hp0, <- E1, <- E2, <- E3, <- E4. done.
  - unfold wp, lift; simpl. simpl in Hfill. rewrite Hfill. eexists. split; [done|]. right. eauto.
Qed.
Lemma wp_read_next T s :
  rd_inv T s →
  wp read_next s (next_rows T s) (λ e _, ∃ st, e = Returned st ∧ library_failed st).
Proof.
  intros Hinv. unfold read_next. apply wp_bind, wp_get.
  destruct (Z.leb_spec (rd_row_limit s) (rd_row_position s)) as [Hle|Hlt].
  - eapply wp_seq.
    + eapply wp_mono; [by apply (wp_advance T)|by intros ? ? HQ; exact HQ|].
      intros e s' (f & rgs & st & Hread & ->). eexists. split; [done|]. left. eauto.
    + intros _ s' (Hinv' & Hstat & Hp & Hcase). pose proof Hinv as (_ & _ & _ & Hpos).
      apply wp_return_rows; [done|done|done|]. lia.
  - apply wp_bind, wp_ret. apply wp_return_rows; [done|done|done|]. by left.
Qed.

Lemma read_next_spec T s :
  rd_inv T s →
  match PR_ReadNext true s with
  | (s', Ok r) => next_rows T s r s'
  | (_, Err st) => library_failed st
  | (_, Ub) => False
  end.
Proof.
  intros Hinv. pose proof (wp_read_next T s Hinv) as Hwp. unfold wp in Hwp. unfold PR_ReadNext. simpl.
  destruct (read_next s) as [s' [r|[st|]|]]; [done| | |done];
    destruct Hwp as (st' & Heq & Hlib); by simplify_eq.
Qed.

(** C11: A call of [ReadNext] returns the next rows.  For a reader over accurate
    files of [T] rows, at most [INT32_MAX], opened in the order of their
    paths, the call has no undefined behaviour and raises no exception.  It
    reports the end exactly when all rows were returned; otherwise it returns
    a positive number of rows, the next ones of every column that the files
    have and nulls for the other fields.  It fails only when reading row
    groups or making nulls failed, with that status wrapped.  The reader is
    ready for the next call. *)
Theorem read_next_returns_next_rows T s :
  rd_inv T s →
  match PR_ReadNext true s with
  | (s', Ok None) => rd_row_position s = T ∧ rd_inv T s'
  | (s', Ok (Some (n, columns))) =>
      0 < n ∧ rd_row_position s + n ≤ T ∧ rd_row_position s' = rd_row_position s + n ∧
      batch_columns s (rd_row_position s) n columns ∧ rd_inv T s'
  | (_, Err st) => library_failed st
  | (_, Ub) => False
  end.
Proof.
  intros Hinv. pose proof (read_next_spec T s Hinv) as Hspec.
  destruct (PR_ReadNext true s) as [s' [[[n columns]|]|st|]]; try done.
  - destruct Hspec as (Hinv' & _ & Hn & Hp & Hle & Hc). split_and!; done || lia.
  - by destruct Hspec as (Hinv' & _ & Hp & _).
Qed.

(** Planning ends and keeps to the memory limit.  When the buffered rows
    were all returned and rows are left, filling the files without rows and
    the prefetch loop, with one iteration per row group that is left, both
    return; afterwards every file has rows beyond the old limit; and unless
    prefetching added nothing, the planned and the used memory together are
    within the limit. *)
Theorem buffer_plan_within_limit T s :
  rd_inv T s → rd_row_limit s = rd_row_position s → rd_row_position s < T →
  ∃ p used p' heap,
    fill_drained (rd_metadata_list s) (rd_row_limit s) 0 (length (rd_file_readers s))
      (mkPlan (rd_states s) (replicate (length (rd_file_readers s)) []) 0)
      (rd_memory_used s) (rd_chunk_manager s) = Ok (p, used, rd_chunk_manager s, None) ∧
    prefetch (groups_left (rd_metadata_list s) (pl_states p)) (rd_metadata_list s)
      (rd_memory_limit s) used (offset_heap (pl_states p)) p = Ok (p', heap) ∧
    (∀ j st, pl_states p' !! j = Some st → rd_row_limit s < row_offset st) ∧
    (p' = p ∨ wrap_u64 (pl_size p' + used) ≤ rd_memory_limit s).
Proof.
  intros Hinv Hlim HT. destruct (plan_more T s Hinv Hlim HT)
    as (p & used & p' & heap & Hfill & Hpre & _ & _ & Hbeyond & Hmem). by exists p, used, p', heap.
Qed.

(** ** Reading to the end *)

(** A client that calls [ReadNext] until the end; running out of fuel is [Ub]. *)
Fixpoint read_all (fuel : nat) s : outcome Status (list (Z * list Array)) :=
  match fuel with
  | O => Ub
  | S fuel' =>
      match PR_ReadNext true s with
      | (_, Ok None) => Ok []
      | (s', Ok (Some batch)) => rest ← read_all fuel' s'; Ok (batch :: rest)
      | (_, Err st) => Err st
      | (_, Ub) => Ub
      end
  end.

(** The cells of column [i] of the batches. *)
Definition batches_column (batches : list (Z * list Array)) (i : nat) : list cell :=
  mjoin ((λ b : Z * list Array, default [] (acells <$> b.2 !! i)) <$> batches).

(** Together the batches have the rows from [position] on. *)
Definition batches_hold (T position : Z) s (batches : list (Z * list Array)) : Prop :=
  sum_Z (batches.*1) = T - position ∧
  ∀ i e off f, zip (rd_schema s) (rd_field_id_list s) !! i = Some e →
    rd_field_id_mapping s !! e.2 = Some off →
    rd_file_readers s !! Z.to_nat (path_index off) = Some f →
    batches_column batches i = drop (Z.to_nat position) (file_col f (Z.to_nat (col_index off))).

Lemma batches_hold_cons T s s' n columns batches :
  0 ≤ rd_row_position s → 0 < n → rd_row_position s' = rd_row_position s + n →
  static s s' → batch_columns s (rd_row_position s) n columns →
  batches_hold T (rd_row_position s') s' batches →
  batches_hold T (rd_row_position s) s ((n, columns) :: batches).
Proof.
  intros Hp Hn Hp' (E1 & E2 & E3 & E4 & _) Hc [Hsum Hcols]. split.
  { change (n + sum_Z batches.*1 = T - rd_row_position s). lia. }
  rewrite E1, E2, E3, E4 in Hcols. intros i e off f He Hoff Hf.
  destruct (Forall2_lookup_l _ _ _ _ _ Hc He) as (a & Ha & Hcol). rewrite Hoff in Hcol.
  destruct Hcol as (f1 & Hf1 & Hlen & Hcells). assert (f1 = f) as -> by congruence.
  unfold batches_column in *. rewrite fmap_cons. simpl. rewrite Ha. simpl.
  rewrite (Hcols i e off f He Hoff Hf), Hcells, Hp', Z2Nat.inj_add, <- drop_drop by lia.
  apply take_drop.
Qed.

Lemma read_all_spec T fuel s :
  rd_inv T s → (Z.to_nat (T - rd_row_position s) < fuel)%nat →
  match read_all fuel s with
  | Ok batches => batches_hold T (rd_row_position s) s batches
  | Err st => library_failed st
  | Ub => False
  end.
Proof.
  revert s. induction fuel as [|fuel IH]; intros s Hinv Hfuel; [lia|]. cbn [read_all].
  pose proof (read_next_spec T s Hinv) as Hspec. pose proof Hinv as (HL & _ & _ & Hpos).
  destruct (PR_ReadNext true s) as [s' [[[n columns]|]|st|]]; [| |done|done].
  - destruct Hspec as (Hinv' & Hstat & Hn & Hp' & Hle & Hc). specialize (IH s' Hinv' ltac:(lia)).
    destruct (read_all fuel s') as [batches|st|]; [|done|done]. simpl.
    eapply (batches_hold_cons T s s'); done || lia.
  - destruct Hspec as (_ & _ & -> & _). split; [simpl; unfold sum_Z; simpl; lia|].
    intros i e off f He Hoff Hf. symmetry. apply drop_ge. unfold file_col.
    assert (off ∈ column_offsets_ (rd_chunk_manager s)) as Hin.
    { rewrite (ly_offsets _ _ HL). apply list_elem_of_omap. exists e. split; [|done].
      by eapply list_elem_of_lookup_2. }
    destruct (ly_columns _ _ HL off Hin) as (_ & f1 & Hf1 & Hc). assert (f1 = f) as -> by congruence.
    destruct (layout_file T s _ f HL Hf) as (<- & m & _ & Hok).
    pose proof (cells_upto_length f m (Z.to_nat (col_index off)) (length (pf_groups f)) Hok) as Hlen.
    unfold file_rows. specialize (Hlen ltac:(lia) ltac:(lia)). lia.
Qed.
End invariant.

(** ** Making a reader *)

Section making.
Context `{PackedFilesLaws} `{!PriorityQueue offset_key}.

Lemma index_of_middle path pre post i :
  path ∉ pre → index_of path (pre ++ path :: post) i = [i + Z.of_nat (length pre)].
Proof.
  revert i. induction pre as [|p pre IH]; intros i Hn; simpl.
  - rewrite bool_decide_true by done. f_equal. lia.
  - rewrite bool_decide_false by set_solver. rewrite IH by set_solver. f_equal. lia.
Qed.

Lemma index_of_all pre post :
  NoDup (pre ++ post) →
  mjoin ((λ p, index_of p (pre ++ post) 0) <$> post)
  = Z.of_nat <$> seq (length pre) (length post).
Proof.
  revert pre. induction post as [|p post IH]; intros pre Hnd; [done|].
  rewrite fmap_cons. simpl. rewrite index_of_middle.
  2:{ apply NoDup_app in Hnd as (_ & Hdis & _). intros Hp. apply (Hdis p Hp). by left. }
  simpl. f_equal. specialize (IH (pre ++ [p])). rewrite <- app_assoc in IH. simpl in IH.
  rewrite (IH Hnd), length_app, Nat.add_comm. done.
Qed.

(** Opening files keeps readers, metadata and path indices in step. *)
Lemma open_needed_spec paths l readers0 metas0 idx0 readers metas idx :
  fold_out (λ '(readers, metas, idx) path,
    f ← open_file path;
    Ok (readers ++ [f.1], metas ++ [f.2], idx ++ index_of path paths 0)) l (readers0, metas0, idx0)
  = Ok (readers, metas, idx) →
  ∃ rs ms, readers = readers0 ++ rs ∧ metas = metas0 ++ ms ∧
    idx = idx0 ++ mjoin ((λ p, index_of p paths 0) <$> l) ∧
    Forall3 (λ path f m, open_file path = Ok (f, m)) l rs ms.
Proof.
  revert readers0 metas0 idx0. induction l as [|path l IH]; intros readers0 metas0 idx0; cbn [fold_out].
  - intros [= <- <- <-]. exists [], []. simpl. rewrite !app_nil_r. split_and!; try done. constructor.
  - intros (acc & Hacc & Hrest)%bind_Ok_inv. apply bind_Ok_inv in Hacc as ([f m] & Hopen & [= <-]).
    destruct (IH _ _ _ Hrest) as (rs & ms & -> & -> & -> & Hall).
    exists (f :: rs), (m :: ms). simpl. rewrite <- !app_assoc. split_and!; try done. by constructor.
Qed.

(** Matching collects the columns of the fields the files have. *)
Lemma match_fields_spec mapping paths l m0 m :
  fold_out (match_field mapping paths) l m0 = Ok m →
  ∃ fs offs, mt_fields m = mt_fields m0 ++ fs ∧ length fs = length l ∧
    mt_offsets m = mt_offsets m0 ++ offs ∧ offs = omap (λ e, mapping !! e.2) l ∧
    Forall (λ off, 0 ≤ path_index off < Z.of_nat (length paths)) offs.
Proof.
  revert m0. induction l as [|[f id] l IH]; intros m0; cbn [fold_out].
  - intros [= <-]. exists [], []. by rewrite !app_nil_r.
  - intros (m1 & Hm1 & Hrest)%bind_Ok_inv. destruct (IH _ Hrest) as (fs & offs & Ef & Hl & Eo & Heq & Hp).
    unfold match_field in Hm1. simpl. destruct (mapping !! id) as [off|] eqn:Hid.
    + destruct (Z.ltb_spec (path_index off) 0); [done|].
      destruct (Z.leb_spec (Z.of_nat (length paths)) (path_index off)); [done|]. simpl in Hm1.
      apply bind_Ok_inv in Hm1 as (path & _ & [= <-]). simpl in *.
      exists (f :: fs), (off :: offs). rewrite Ef, Eo, <- !app_assoc. simpl.
      split_and!; try done; [by rewrite Hl|by rewrite Heq|]. constructor; [lia|done].
    + injection Hm1 as <-. simpl in *. eexists (_ :: fs), offs. rewrite Ef, Eo, <- !app_assoc. simpl.
      split_and!; try done. by rewrite Hl.
Qed.

Lemma omap_zip_same {A B C} (g : B → option C) (l l' : list A) (k : list B) :
  length l' = length (zip l k) →
  omap (λ e, g e.2) (zip l' k) = omap (λ e, g e.2) (zip l k).
Proof.
  revert l' k. induction l as [|x l IH]; intros [|x' l'] [|y k] Hlen; simplify_eq/=; try done.
  destruct (g y); [f_equal|]; by apply IH.
Qed.

Lemma Forall3_length_12 {A B C} (P : A → B → C → Prop) l k k' : Forall3 P l k k' → length k = length l.
Proof. induction 1; simpl; congruence. Qed.

Lemma Forall3_23 {A B C} (P : A → B → C → Prop) (Q : B → C → Prop) l k k' :
  Forall3 P l k k' → (∀ x y z, x ∈ l → P x y z → Q y z) → Forall2 Q k k'.
Proof.
  induction 1 as [|x y z l k k' Hp _ IH]; intros Himp; constructor.
  - apply (Himp x); [by left|done].
  - apply IH. intros x1 y1 z1 Hx. apply Himp. by right.
Qed.

Lemma Forall3_elem_2 {A B C} (P : A → B → C → Prop) l k k' y :
  Forall3 P l k k' → y ∈ k → ∃ x z, x ∈ l ∧ P x y z.
Proof.
  induction 1 as [|x1 y1 z1 l k k' Hp _ IH]; [by intros ?%elem_of_nil|].
  intros [->|Hy]%elem_of_cons; [exists x1, z1; split; [by left|done]|].
  destruct (IH Hy) as (x & z & Hx & Hxz). exists x, z. split; [by right|done].
Qed.
(** Every file that opens has [T] rows and accurate metadata. *)
Definition files_accurate (T : Z) (paths : list string) : Prop :=
  ∀ path f m, path ∈ paths → open_file path = Ok (f, m) → file_ok f m ∧ file_rows f = T.

(** The mapping of the first file points to columns the files have. *)
Definition columns_exist (s : PackedReader) : Prop :=
  ∀ id off f, rd_field_id_mapping s !! id = Some off →
    rd_file_readers s !! Z.to_nat (path_index off) = Some f →
    0 ≤ col_index off < Z.of_nat (pf_width f).

Lemma fresh_inv T s :
  layout T s → rd_states s = replicate (length (rd_file_readers s)) (mkColumnGroupState 0 (-1) 0 0) →
  rd_tables s = replicate (length (rd_tables s)) [] → rd_row_limit s = 0 → rd_row_position s = 0 →
  chunk_states_ (rd_chunk_manager s)
  = replicate (length (column_offsets_ (rd_chunk_manager s))) cs_reset → rd_inv T s.
Proof.
  intros HL Hst Ht Hl Hp Hcs.
  assert (∀ off, off ∈ column_offsets_ (rd_chunk_manager s) →
    rd_tables s !! Z.to_nat (path_index off) = Some []) as Hempty.
  { intros off Hin. destruct (ly_columns _ _ HL off Hin) as (_ & f & Hf & _). apply lookup_lt_Some in Hf.
    rewrite Ht. apply lookup_replicate_2. pose proof (ly_queues _ _ HL). lia. }
  split; [done|]. split; [split|split].
  - by rewrite Hst, length_replicate.
  - rewrite Hst, Hl. intros j f st Hf [-> _]%lookup_replicate. split; [|done].
    split; simpl; [lia|done].
  - exists (λ _, 0). split.
    + unfold cm_inv. rewrite Hcs. apply Forall2_same_length_lookup_2; [by rewrite length_replicate|].
      intros i off cs Hoff [-> _]%lookup_replicate. apply list_elem_of_lookup_2 in Hoff.
      destruct (ly_columns _ _ HL off Hoff) as (Hpath & _). split; [done|]. exists [].
      split_and!; [by apply Hempty|by apply Forall_nil|done].
    + rewrite Hst, Hp. intros off f st Hin Hf [-> _]%lookup_replicate. unfold remaining.
      by rewrite (Hempty off Hin).
  - lia.
Qed.

Lemma make_inv T paths schema buffer_size s :
  PR_Make true paths (Some schema) buffer_size = Ok s →
  rd_needed_paths s = paths → NoDup paths → files_accurate T paths → T ≤ INT32_MAX →
  columns_exist s → rd_inv T s ∧ rd_row_position s = 0.
Proof.
  unfold PR_Make. simpl. case_bool_decide as Hne; [done|].
  intros ([[ids mapping] m] & Hmatch & Hrest)%bind_Ok_inv.
  apply bind_Ok_inv in Hrest as ([[readers metas] idx] & Hopen & [= <-]). simpl.
  intros Hneeded Hnd Hacc HT Hcols. split; [|done].
  rewrite Hneeded in Hopen. unfold open_needed in Hopen.
  apply open_needed_spec in Hopen as (rs & ms & Er & Em & Ei & Hall). simpl in Er, Em, Ei. subst rs ms idx.
  pose proof (Forall3_length_12 _ _ _ _ Hall) as Hlen.
  unfold schemaMatching in Hmatch. apply bind_Ok_inv in Hmatch as (p0 & _ & Hmatch).
  apply bind_Ok_inv in Hmatch as (first & _ & Hmatch).
  destruct (FieldIDList_Make schema) as [ids'|e|]; [|done|done]. simpl in Hmatch.
  apply bind_Ok_inv in Hmatch as (m' & Hm & [= <- <- <-]).
  apply match_fields_spec in Hm as (fs & offs & Ef & Hfs & Eo & Hoffs & Hpaths). simpl in Ef, Eo.
  assert (∀ off, off ∈ mt_offsets m' → ∃ f, readers !! Z.to_nat (path_index off) = Some f) as Hreader.
  { rewrite Eo. intros off Hin. rewrite Forall_forall in Hpaths. specialize (Hpaths off Hin). simpl in Hpaths.
    destruct (lookup_lt_is_Some_2 readers (Z.to_nat (path_index off))) as [f Hf]; [lia|eauto]. }
  apply fresh_inv; simpl; try done; [split; simpl|by rewrite length_replicate].
  - eapply Forall3_23; [exact Hall|]. intros path f m Hp Ho. by apply (Hacc path f m).
  - intros ->. simpl in Hlen. by destruct paths.
  - intros f Hf. destruct (Forall3_elem_2 _ _ _ _ f Hall Hf) as (path & m & Hp & Ho).
    by apply (Hacc path f m).
  - done.
  - rewrite Hlen. by apply (index_of_all []).
  - rewrite length_replicate. lia.
  - rewrite Eo, Hoffs, Ef. symmetry.
    by apply (omap_zip_same (λ id, field_id_mapping_ first.2 !! id)).
  - intros off Hin. destruct (Hreader off Hin) as [f Hf]. split; [|exists f; split; [done|]].
    + rewrite Forall_forall in Hpaths. rewrite Eo in Hin. specialize (Hpaths off Hin). simpl in Hpaths. lia.
    + rewrite Eo, Hoffs in Hin. apply list_elem_of_omap in Hin as (e & _ & He). by apply (Hcols e.2 off f).
Qed.

(** C2: Reading to the end returns every row once and in order, for paths in
    lexicographic order.  When the paths are distinct, given in the order in
    which the reader opens them (lexicographic order, that of a [std::set]), every
    file is needed, has [T] rows and accurate metadata, and the columns of the
    mapping exist, then calling [ReadNext] until it reports the end ends after at most
    [T + 1] calls.  Unless a call of the library fails, the batches have [T]
    rows together and, for every wanted field that a file has, the cells of
    its column.  For paths in another order the reader can confuse the cursors
    of its files and return rows that do not belong together
    ([PackedReader.ReaderSample.unsorted_paths_misalign_rows]). *)
Theorem reader_returns_every_row T paths schema buffer_size s :
  PR_Make true paths (Some schema) buffer_size = Ok s →
  rd_needed_paths s = paths → NoDup paths → files_accurate T paths → T ≤ INT32_MAX →
  columns_exist s →
  match read_all (S (Z.to_nat T)) s with
  | Ok batches =>
      sum_Z (batches.*1) = T ∧
      ∀ i e off f, zip (rd_schema s) (rd_field_id_list s) !! i = Some e →
        rd_field_id_mapping s !! e.2 = Some off →
        rd_file_readers s !! Z.to_nat (path_index off) = Some f →
        batches_column batches i = file_col f (Z.to_nat (col_index off))
  | Err st => library_failed st
  | Ub => False
  end.
Proof.
  intros Hmake Hneeded Hnd Hacc HT Hcols.
  destruct (make_inv T paths schema buffer_size s Hmake Hneeded Hnd Hacc HT Hcols) as [Hinv Hp].
  pose proof (read_all_spec T (S (Z.to_nat T)) s Hinv ltac:(lia)) as Hall.
  destruct (read_all (S (Z.to_nat T)) s) as [batches|st|]; [|done|done].
  destruct Hall as [Hsum Hcells]. rewrite Hp in *. split; [lia|].
  intros i e off f He Hoff Hf. by rewrite (Hcells i e off f He Hoff Hf), drop_0.
Qed.
End making.

(** ** An example *)

Module ReaderCorrectSample.
Import KvList ListArray ReaderSample.

#[export] Instance sample_files_laws : PackedFilesLaws.
Proof.
  refine {| pf_groups := (λ f, (λ g, [g]) <$> sf_groups f) : FileReader → list (list (list Z));
            pf_width := λ _, 1%nat |}.
  - intros f rgs t Hread _ Hin. change (Ok [filter (λ c : list Z, c ≠ [])
      (omap (λ i, sf_groups f !! Z.to_nat i) rgs)] = Ok t :> outcome Status _) in Hread.
    injection Hread as <-. split; [done|]. intros [|col] column Hcol; [|done]. injection Hcol as <-. split.
    + apply Forall_forall. intros c [Hc _]%list_elem_of_filter. destruct c; [done|simpl; lia].
    + clear Hin. unfold col_cells. simpl. induction rgs as [|g rgs IH]; [done|]. simpl.
      rewrite list_lookup_fmap. destruct (sf_groups f !! Z.to_nat g) as [c|]; simpl; [|exact IH].
      destruct c as [|x c]; [exact IH|]. simpl. f_equal. f_equal. exact IH.
  - done.
  - done.
Defined.

Definition no_reader : PackedReader :=
  mkPackedReader [] [] ∅ 0 0 [] [] [] 0 (ChunkManager_new [] 0) 0 [] [] [] 0.

(** The two files under sorted paths, four rows each. *)
Definition sample_paths : list string := ["m"; "z"].
Definition sample_reader : PackedReader :=
  match PR_Make true sample_paths (Some wanted) 200 with Ok s => s | _ => no_reader end.

Lemma sample_accurate : files_accurate 4 sample_paths.
Proof.
  intros path f m Hp Ho. unfold sample_paths in Hp.
  apply elem_of_cons in Hp as [->|[->|[]%elem_of_nil]%elem_of_cons];
    vm_compute in Ho; injection Ho as <- <-; (split; [|reflexivity]);
    (split_and!; [simpl; lia|vm_compute; congruence|reflexivity|]);
    intros k rg Hk; repeat (destruct k as [|k]; simpl in Hk; simplify_eq; try done);
    simpl; split_and!; try lia; try (vm_compute; congruence);
    intros col Hcol; assert (col = 0%nat) as -> by lia; reflexivity.
Qed.

Lemma sample_columns : columns_exist sample_reader.
Proof.
  intros id off f Hoff _. apply elem_of_map_to_list in Hoff.
  assert (map_to_list (rd_field_id_mapping sample_reader)
          = [(101, mkColumnOffset 1 0); (100, mkColumnOffset 0 0)]) as Heq by (vm_compute; reflexivity).
  rewrite Heq in Hoff. apply elem_of_cons in Hoff as [[= -> ->]|[[= -> ->]|[]%elem_of_nil]%elem_of_cons];
    simpl; lia.
Qed.

Lemma sample_inv : rd_inv 4 sample_reader.
Proof.
  apply (make_inv 4 sample_paths wanted 200); [vm_compute; reflexivity|vm_compute; reflexivity| |
    exact sample_accurate|vm_compute; congruence|exact sample_columns].
  apply (bool_decide_unpack _). vm_compute. exact I.
Qed.

Lemma read_next_returns_next_rows_witness :
  ∃ s' columns, PR_ReadNext true sample_reader = (s', Ok (Some (2, columns))) ∧
    batch_columns sample_reader 0 2 columns ∧ rd_inv 4 s'.
Proof.
  pose proof (read_next_returns_next_rows 4 sample_reader sample_inv) as Hnext.
  destruct (PR_ReadNext true sample_reader) as [s' r] eqn:E.
  assert (r = Ok (Some (2, [[10; 20]; [1; 2]; [0; 0]]))) as ->.
  { apply (f_equal snd) in E. vm_compute in E. by rewrite <- E. }
  destruct Hnext as (_ & _ & _ & Hc & Hinv'). eauto.
Defined.

Lemma buffer_plan_within_limit_witness :
  ∃ p used p' heap,
    prefetch (groups_left (rd_metadata_list sample_reader) (pl_states p))
      (rd_metadata_list sample_reader) 200 used (offset_heap (pl_states p)) p = Ok (p', heap) ∧
    (p' = p ∨ wrap_u64 (pl_size p' + used) ≤ 200).
Proof.
  assert (rd_memory_limit sample_reader = 200) as <- by (vm_compute; reflexivity).
  destruct (buffer_plan_within_limit 4 sample_reader sample_inv) as (p & used & p' & heap & _ & Hpre & _ & Hmem);
    [vm_compute; reflexivity|vm_compute; reflexivity|].
  by exists p, used, p', heap.
Defined.

Lemma reader_returns_every_row_witness :
  ∃ batches, read_all 5 sample_reader = Ok batches ∧ sum_Z (batches.*1) = 4 ∧
    batches_column batches 0 = [10; 20; 30; 40] ∧ batches_column batches 1 = [1; 2; 3; 4].
Proof.
  pose proof (reader_returns_every_row 4 sample_paths wanted 200 sample_reader
    ltac:(vm_compute; reflexivity) ltac:(vm_compute; reflexivity)
    ltac:(apply (bool_decide_unpack _); vm_compute; exact I) sample_accurate
    ltac:(vm_compute; congruence) sample_columns) as Hall.
  change (S (Z.to_nat 4)) with 5%nat in Hall.
  assert (read_all 5 sample_reader
          = Ok [(2, [[10; 20]; [1; 2]; [0; 0]]); (2, [[30; 40]; [3; 4]; [0; 0]])]) as E
    by (vm_compute; reflexivity).
  revert Hall. rewrite E. generalize ([(2, [[10; 20]; [1; 2]; [0; 0]]); (2, [[30; 40]; [3; 4]; [0; 0]])])
    at 1 2 3. intros batches Hall.
  destruct Hall as [Hsum Hcols]. exists batches. split_and!; [done|done|..].
  - apply (Hcols 0%nat (field_with "x" "100", 100) (mkColumnOffset 0 0) file0);
      vm_compute; reflexivity.
  - apply (Hcols 1%nat (field_with "y" "101", 101) (mkColumnOffset 1 0) file1);
      vm_compute; reflexivity.
Defined.
End ReaderCorrectSample.
