(* ===== verification/ColumnGroupReader.v ===== *)
(** * Column group readers

    [format/column_group_reader.h/.cpp] and [DistributeMemorySizes] of
    [format/format_reader.cpp]: the files of a column group, of which a
    manifest may expose a part only, become one sequence of logical rows that
    is cut into chunks, one per overlapping row group.  [get_chunk] reads one
    chunk; [get_chunks] sorts the requested chunks, splits them into tasks,
    combines adjacent chunks of a file into ranges, and slices what was read
    back into chunks.

    The format readers are a parameter.  Futures run to completion, so that a
    task is its result. *)

From S2P Require Import Prelude CppString Status ColumnGroups ArrowData.

(** ** Data *)

Record RowGroupInfo := mkRowGroupInfo {
  start_offset : Z;            (* size_t *)
  end_offset : Z;              (* size_t *)
  rgi_memory_size : Z;         (* uint64_t *)
  rgi_memory_size_available : bool;
}.

Record ChunkInfo := mkChunkInfo {
  file_index : nat;            (* size_t *)
  row_offset_in_row_group : Z; (* size_t *)
  row_offset_in_file : Z;      (* size_t *)
  number_of_rows : Z;          (* size_t *)
  row_group_index_in_file : nat;
  global_row_end : Z;          (* size_t *)
  avg_memory_size : Z;         (* uint64_t *)
  memory_size_available : bool;
}.

(** ** Memory estimates *)

(** The check of the sum of the weights. *)
Definition add_weight (total_weight weight : Z) : outcome Status Z :=
  if UINT64_MOD - 1 - total_weight <? weight then Err status_Invalid
  else Ok (total_weight + weight).

(** The index of the last weight that is not zero, 0 if there is none. *)
Fixpoint remainder_index (weights : list Z) (i last : nat) : nat :=
  match weights with
  | [] => last
  | w :: weights' => remainder_index weights' (S i) (if w =? 0 then last else i)
  end.

(** The product is taken in 128 bits. *)
Definition DistributeMemorySizes (total_size : Z) (weights : list Z) : outcome Status (list Z) :=
  if bool_decide (weights = []) then Ok []
  else if total_size =? 0 then Ok (replicate (length weights) 0)
  else
    total_weight ← fold_out add_weight weights 0;
    if total_weight =? 0 then Err status_Invalid
    else
      let result := (λ w, wrap_u64 (total_size * w / total_weight)) <$> weights in
      let allocated := foldl u64_add 0 result in
      let remainder := u64_sub total_size allocated in
      Ok (alter (λ x, u64_add x remainder) (remainder_index weights 0 0) result).

(** ** Chunks of one file *)

(** A file of which only the rows [start_index..end_index) are visible. *)
Fixpoint range_chunks (file_idx : nat) (lo hi rows_in_all_files : Z) (j : nat)
    (rgs : list RowGroupInfo) (rows_in_file : Z) : list ChunkInfo * Z :=
  match rgs with
  | [] => ([], rows_in_file)
  | rg :: rgs' =>
      let overlap_start := Z.max lo (start_offset rg) in
      let overlap_end := Z.min hi (end_offset rg) in
      if overlap_start <? overlap_end then
        let overlap_rows := u64_sub overlap_end overlap_start in
        let row_group_rows := u64_sub (end_offset rg) (start_offset rg) in
        let chunk_memory_size :=
          if rgi_memory_size_available rg
          then wrap_u64 (rgi_memory_size rg * overlap_rows / row_group_rows) else 0 in
        let rows_in_file := u64_add rows_in_file overlap_rows in
        let '(chunks, rows) :=
          range_chunks file_idx lo hi rows_in_all_files (S j) rgs' rows_in_file in
        (mkChunkInfo file_idx (u64_sub overlap_start (start_offset rg)) overlap_start overlap_rows j
           (u64_add rows_in_all_files rows_in_file) chunk_memory_size
           (rgi_memory_size_available rg) :: chunks, rows)
      else range_chunks file_idx lo hi rows_in_all_files (S j) rgs' rows_in_file
  end.

(** A file that is visible as a whole; row groups without rows are skipped. *)
Fixpoint whole_chunks (file_idx : nat) (rows_in_all_files : Z) (j : nat)
    (rgs : list RowGroupInfo) (rows_in_file : Z) : list ChunkInfo * Z :=
  match rgs with
  | [] => ([], rows_in_file)
  | rg :: rgs' =>
      let row_group_rows := u64_sub (end_offset rg) (start_offset rg) in
      if row_group_rows =? 0 then whole_chunks file_idx rows_in_all_files (S j) rgs' rows_in_file
      else
        let rows_in_file := u64_add rows_in_file row_group_rows in
        let '(chunks, rows) := whole_chunks file_idx rows_in_all_files (S j) rgs' rows_in_file in
        (mkChunkInfo file_idx 0 (start_offset rg) row_group_rows j
           (u64_add rows_in_all_files rows_in_file) (rgi_memory_size rg)
           (rgi_memory_size_available rg) :: chunks, rows)
  end.

(** [append_file_metadata]: the chunks of a file and the number of rows so far.
    The comparison with [end_offset] is unsigned. *)
Definition file_chunks (file_idx : nat) (cg_file : ColumnGroupFile) (rgs : list RowGroupInfo)
    (rows_in_all_files : Z) : list ChunkInfo * Z :=
  match last rgs with
  | None => ([], rows_in_all_files)
  | Some back =>
      let '(chunks, rows_in_file) :=
        if negb (start_index cg_file =? 0) || negb (wrap_u64 (end_index cg_file) =? end_offset back)
        then range_chunks file_idx (wrap_u64 (start_index cg_file)) (wrap_u64 (end_index cg_file))
               rows_in_all_files 0 rgs 0
        else whole_chunks file_idx rows_in_all_files 0 rgs 0 in
      (chunks, u64_add rows_in_all_files rows_in_file)
  end.

(** ** Splitting chunk indices into tasks *)

(** The lambda [create_continuous_blocks], from the second index on. *)
Fixpoint continuous_blocks (max_block_size current_start current_count : Z) (l : list Z) :
    list (list Z) :=
  match l with
  | [] => if 0 <? current_count then [seqZ current_start current_count] else []
  | next_chunk :: l' =>
      if (next_chunk =? current_start + current_count) && (current_count <? max_block_size)
      then continuous_blocks max_block_size current_start (current_count + 1) l'
      else seqZ current_start current_count :: continuous_blocks max_block_size next_chunk 1 l'
  end.

Definition split_chunks (sorted_chunk_indices : list Z) (parallel_degree : Z) :
    outcome Status (list (list Z)) :=
  let n := Z.of_nat (length sorted_chunk_indices) in
  let degree := Z.min parallel_degree n in
  let degree := if degree =? 0 then 1 else degree in
  match sorted_chunk_indices with
  | [] => Ub     (* the element [0] is read *)
  | first :: rest =>
      if n <=? degree then Ok (continuous_blocks (UINT64_MOD - 1) first 1 rest)
      else Ok (continuous_blocks ((n + degree - 1) / degree) first 1 rest)
  end.

(** ** The reader *)

Class FormatReaders `{RecordBatches} := {
  FormatReader : Type;
  (* [FormatReader::create], or through the metadata cache, with predicate *)
  create_reader : ColumnGroup → ColumnGroupFile → outcome Status FormatReader;
  get_row_group_infos : FormatReader → outcome Status (list RowGroupInfo);
  fr_get_chunk : FormatReader → nat → outcome Status RecordBatch;
  read_with_range : FormatReader → Z → Z → outcome Status (list RecordBatch);
  fr_schema : FormatReader → list string;            (* the names of the fields *)
  get_rg_column_memsz : FormatReader → nat → outcome Status (list Z);
}.

Section reader.
Context `{FormatReaders}.

Record ColumnGroupReader := mkReader {
  cgr_group : ColumnGroup;
  cgr_predicate : string;
  cgr_chunk_infos : list ChunkInfo;
  cgr_row_group_infos : list (list RowGroupInfo);
  cgr_file_schema : option (list string);
  cgr_total_rows : Z;                       (* size_t *)
  cgr_format_readers : list (option FormatReader);
  cgr_opened : bool;
}.

Definition cgr_new (group : ColumnGroup) (predicate : string) : ColumnGroupReader :=
  mkReader group predicate [] [] None 0 [] false.

Definition CGR (A : Type) : Type := M ColumnGroupReader Status A.

Definition open_reader_for_file (group : ColumnGroup) (idx : nat) : outcome Status FormatReader :=
  match files group !! idx with
  | None => Err status_Invalid
  | Some file => create_reader group file
  end.

Definition bad_range (f : ColumnGroupFile) : bool :=
  (start_index f <? 0) || (end_index f <? 0) || (end_index f <=? start_index f).

(** The effect of [append_file_metadata] on the members. *)
Definition append_file_metadata (file_idx : nat) (cg_file : ColumnGroupFile)
    (rgs : list RowGroupInfo) (rows_in_all_files : Z) : CGR Z := λ s,
  let '(chunks, rows) := file_chunks file_idx cg_file rgs rows_in_all_files in
  (mkReader (cgr_group s) (cgr_predicate s) (cgr_chunk_infos s ++ chunks)
     (<[file_idx := rgs]> (cgr_row_group_infos s)) (cgr_file_schema s) (cgr_total_rows s)
     (cgr_format_readers s) (cgr_opened s), Ok rows).

(** A reader of a file becomes a member; its schema is kept if it is the first. *)
Definition set_reader (file_idx : nat) (r : FormatReader) (s : ColumnGroupReader) :
    ColumnGroupReader :=
  mkReader (cgr_group s) (cgr_predicate s) (cgr_chunk_infos s) (cgr_row_group_infos s)
    (match cgr_file_schema s with Some sc => Some sc | None => Some (fr_schema r) end)
    (cgr_total_rows s) (<[file_idx := Some r]> (cgr_format_readers s)) (cgr_opened s).

Definition clear_members (s : ColumnGroupReader) : ColumnGroupReader :=
  let n := length (files (cgr_group s)) in
  mkReader (cgr_group s) (cgr_predicate s) [] (replicate n []) None (cgr_total_rows s)
    (replicate n None) (cgr_opened s).

Definition set_opened (rows : Z) (s : ColumnGroupReader) : ColumnGroupReader :=
  mkReader (cgr_group s) (cgr_predicate s) (cgr_chunk_infos s) (cgr_row_group_infos s)
    (cgr_file_schema s) rows (cgr_format_readers s) true.

(** The loop of [open]. *)
Fixpoint open_files (file_idx : nat) (l : list ColumnGroupFile) (rows_in_all_files : Z) : CGR Z :=
  match l with
  | [] => mret rows_in_all_files
  | cg_file :: l' =>
      if bad_range cg_file then fail status_Invalid
      else
        s ← get_st;
        r ← lift (open_reader_for_file (cgr_group s) file_idx);
        modify (λ s, mkReader (cgr_group s) (cgr_predicate s) (cgr_chunk_infos s)
                       (cgr_row_group_infos s) (cgr_file_schema s) (cgr_total_rows s)
                       (<[file_idx := Some r]> (cgr_format_readers s)) (cgr_opened s));;
        rgs ← lift (get_row_group_infos r);
        modify (set_reader file_idx r);;
        rows ← append_file_metadata file_idx cg_file rgs rows_in_all_files;
        open_files (S file_idx) l' rows
  end.

Definition cgr_open : CGR unit :=
  modify clear_members;;
  s ← get_st;
  rows ← open_files 0 (files (cgr_group s)) 0;
  modify (set_opened rows).

(** [open_async]: all ranges are checked before any file is opened, and every
    file is opened before the results are collected in order. *)
Record OpenedFile := mkOpenedFile {
  of_index : nat;
  of_file : ColumnGroupFile;
  of_reader : FormatReader;
  of_row_groups : list RowGroupInfo;
}.

Definition open_one (group : ColumnGroup) (idx : nat) (f : ColumnGroupFile) :
    outcome Status OpenedFile :=
  r ← open_reader_for_file group idx;
  rgs ← get_row_group_infos r;
  Ok (mkOpenedFile idx f r rgs).

Fixpoint collect_opened (l : list (outcome Status OpenedFile)) (rows_in_all_files : Z) : CGR Z :=
  match l with
  | [] => mret rows_in_all_files
  | o :: l' =>
      f ← lift o;
      modify (set_reader (of_index f) (of_reader f));;
      rows ← append_file_metadata (of_index f) (of_file f) (of_row_groups f) rows_in_all_files;
      collect_opened l' rows
  end.

Definition cgr_open_async : CGR unit :=
  s ← get_st;
  let cg_files := files (cgr_group s) in
  if existsb bad_range cg_files then fail status_Invalid
  else
    let results := imap (open_one (cgr_group s)) cg_files in
    modify clear_members;;
    rows ← collect_opened results 0;
    modify (set_opened rows).

(** ** Rows to chunks *)

(** [std::upper_bound] on the chunks: the first chunk that ends after the row.
    The comparison converts the row to [size_t]. *)
Fixpoint upper_bound (row_index : Z) (chunks : list ChunkInfo) : nat :=
  match chunks with
  | [] => 0
  | c :: chunks' =>
      if wrap_u64 row_index <? global_row_end c then 0 else S (upper_bound row_index chunks')
  end.

Fixpoint chunk_indices_from (chunks : list ChunkInfo) (rows : list Z) (seen : list Z) :
    outcome Status (list Z) :=
  match rows with
  | [] => Ok seen
  | row_index :: rows' =>
      let chunk_index := upper_bound row_index chunks in
      if (length chunks <=? chunk_index)%nat then Err status_Invalid
      else if bool_decide (Z.of_nat chunk_index ∈ seen) then chunk_indices_from chunks rows' seen
      else chunk_indices_from chunks rows' (seen ++ [Z.of_nat chunk_index])
  end.

Definition get_chunk_indices (s : ColumnGroupReader) (row_indices : list Z) :
    outcome Status (list Z) :=
  chunk_indices_from (cgr_chunk_infos s) row_indices [].

(** The bounds check of every accessor. *)
Definition chunk_at (s : ColumnGroupReader) (chunk_index : Z) : outcome Status ChunkInfo :=
  if (chunk_index <? 0) || (Z.of_nat (length (cgr_chunk_infos s)) <=? chunk_index)
  then Err status_Invalid
  else deref (cgr_chunk_infos s !! Z.to_nat chunk_index).

(** ** Reading chunks *)

Definition predicate_applied (s : ColumnGroupReader) : bool :=
  negb (is_empty (cgr_predicate s)) && bool_decide (format (cgr_group s) = "vortex").

Definition get_chunk (chunk_index : Z) : CGR RecordBatch :=
  s ← get_st;
  chunk_info ← lift (chunk_at s chunk_index);
  slot ← lift (deref (cgr_format_readers s !! file_index chunk_info));
  reader ← match slot with
           | Some r => mret r
           | None =>
               r ← lift (open_reader_for_file (cgr_group s) (file_index chunk_info));
               modify (λ s, mkReader (cgr_group s) (cgr_predicate s) (cgr_chunk_infos s)
                              (cgr_row_group_infos s) (cgr_file_schema s) (cgr_total_rows s)
                              (<[file_index chunk_info := Some r]> (cgr_format_readers s))
                              (cgr_opened s));;
               mret r
           end;
  rb ← lift (fr_get_chunk reader (row_group_index_in_file chunk_info));
  mret (if negb (predicate_applied s) &&
           (negb (row_offset_in_row_group chunk_info =? 0) ||
            negb (number_of_rows chunk_info =? num_rows rb))
        then batch_Slice rb (row_offset_in_row_group chunk_info) (number_of_rows chunk_info)
        else rb).

(** The requested chunks of each file. *)
Definition group_by_file (s : ColumnGroupReader) (task_indices : list Z) :
    outcome Status (list (list (Z * ChunkInfo))) :=
  fold_out (λ groups chunk_index,
    chunk_info ← chunk_at s chunk_index;
    if (length groups <=? file_index chunk_info)%nat then Ub
    else Ok (alter (λ l, l ++ [(chunk_index, chunk_info)]) (file_index chunk_info) groups))
    task_indices (replicate (length (files (cgr_group s))) []).

Definition chunk_range (c : ChunkInfo) : Z * Z :=
  (row_offset_in_file c, u64_add (row_offset_in_file c) (number_of_rows c)).

(** Adjacent chunks become one range. *)
Fixpoint combine_ranges (last_range : Z * Z) (l : list ChunkInfo) : list (Z * Z) :=
  match l with
  | [] => [last_range]
  | c :: l' =>
      if row_offset_in_file c =? last_range.2
      then combine_ranges (last_range.1, (chunk_range c).2) l'
      else last_range :: combine_ranges (chunk_range c) l'
  end.

Definition ranges_in_file (l : list ChunkInfo) : list (Z * Z) :=
  match l with [] => [] | c :: l' => combine_ranges (chunk_range c) l' end.

(** The batches read are sliced into chunks; [rbs_idx] is the number of batches
    dropped from [rbs].  The current batch is accessed without a check. *)
Fixpoint slice_chunks (rbs : list RecordBatch) (rbs_offset : Z) (l : list (Z * ChunkInfo))
    (m : gmap Z RecordBatch) : outcome Status (gmap Z RecordBatch) :=
  match l with
  | [] => Ok m
  | (chunk_idx, chunk_info) :: l' =>
      rb ← deref (head rbs);
      if u64_sub (num_rows rb) rbs_offset <? number_of_rows chunk_info then Err status_Invalid
      else
        let m := <[chunk_idx := batch_Slice rb rbs_offset (number_of_rows chunk_info)]> m in
        let rbs_offset := u64_add rbs_offset (number_of_rows chunk_info) in
        if rbs_offset =? num_rows rb then slice_chunks (tail rbs) 0 l' m
        else slice_chunks rbs rbs_offset l' m
  end.

Definition read_ranges (reader : FormatReader) (ranges : list (Z * Z)) :
    outcome Status (list RecordBatch) :=
  fold_out (λ acc range, rbs ← read_with_range reader range.1 range.2; Ok (acc ++ rbs)) ranges [].

(** One file of a task. *)
Definition read_file_chunks (group : ColumnGroup) (file_idx : nat) (l : list (Z * ChunkInfo))
    (m : gmap Z RecordBatch) : outcome Status (gmap Z RecordBatch) :=
  match l with
  | [] => Ok m
  | _ =>
      reader ← open_reader_for_file group file_idx;
      rbs ← read_ranges reader (ranges_in_file l.*2);
      slice_chunks rbs 0 l m
  end.

Fixpoint read_groups (group : ColumnGroup) (file_idx : nat) (groups : list (list (Z * ChunkInfo)))
    (m : gmap Z RecordBatch) : outcome Status (gmap Z RecordBatch) :=
  match groups with
  | [] => Ok m
  | l :: groups' =>
      m ← read_file_chunks group file_idx l m;
      read_groups group (S file_idx) groups' m
  end.

Definition read_chunks_from_files (s : ColumnGroupReader) (task_indices : list Z) :
    outcome Status (gmap Z RecordBatch) :=
  groups ← group_by_file s task_indices;
  read_groups (cgr_group s) 0 groups ∅.

(** [std::sort] and [std::unique]. *)
Definition sort_unique (l : list Z) : list Z := remove_dups (merge_sort Z.le l).

(** The tasks run on the pool; their results are merged in order. *)
Definition merge_results (results : list (outcome Status (gmap Z RecordBatch))) :
    outcome Status (gmap Z RecordBatch) :=
  fold_out (λ m o, r ← o; Ok (m ∪ r)) results ∅.

(** [num_threads] is the size of the thread pool for [parallelism]. *)
Definition get_chunks (s : ColumnGroupReader) (chunk_indices : list Z) (parallelism num_threads : Z) :
    outcome Status (list RecordBatch) :=
  let unique_chunk_indices := sort_unique chunk_indices in
  if bool_decide (unique_chunk_indices = []) then Ok []
  else
    chunk_rb_map ←
      (if parallelism <=? 1 then read_chunks_from_files s unique_chunk_indices
       else
         splitted_chunks ← split_chunks unique_chunk_indices num_threads;
         merge_results (read_chunks_from_files s <$> splitted_chunks));
    fold_out (λ result chunk_idx, rb ← deref (chunk_rb_map !! chunk_idx); Ok (result ++ [rb]))
      chunk_indices [].

(** ** Estimates and accessors *)

Definition get_chunk_estimated_size (s : ColumnGroupReader) (chunk_index : Z) : outcome Status Z :=
  chunk_info ← chunk_at s chunk_index;
  if memory_size_available chunk_info then Ok (avg_memory_size chunk_info)
  else Err status_NotImplemented.

Definition get_chunk_rows (s : ColumnGroupReader) (chunk_index : Z) : outcome Status Z :=
  chunk_info ← chunk_at s chunk_index;
  Ok (number_of_rows chunk_info).

(** [Schema::GetFieldIndex]: the position of a name that occurs once. *)
Definition GetFieldIndex (names : list string) (name : string) : option nat :=
  match filter (λ e, e.2 = name) (imap pair names) with
  | [(i, _)] => Some i
  | _ => None
  end.

Definition get_chunk_column_estimated_sizes (s : ColumnGroupReader) (chunk_index : Z) :
    outcome Status (list Z) :=
  chunk_info ← chunk_at s chunk_index;
  if negb (memory_size_available chunk_info) then Err status_NotImplemented
  else
    slot ← deref (cgr_format_readers s !! file_index chunk_info);
    reader ← deref slot;
    sizes ← get_rg_column_memsz reader (row_group_index_in_file chunk_info);
    let names := fr_schema reader in
    if existsb (λ e, negb (bool_decide (GetFieldIndex names e.2 = Some e.1))) (imap pair names)
    then Err status_NotImplemented
    else
      physical_sizes ← DistributeMemorySizes (avg_memory_size chunk_info) sizes;
      fold_out (λ result column,
        match GetFieldIndex names column with
        | None => Ok (result ++ [0])
        | Some i => x ← deref (physical_sizes !! i); Ok (result ++ [x])
        end) (columns (cgr_group s)) [].
End reader.
