(* ===== verification/ColumnGroupReaderCorrect.v ===== *)
(** * Column group readers are correct

    The memory estimates add up; the chunks of an opened reader tile the rows
    that the manifest makes visible; rows are mapped to the chunks that hold
    them; splitting keeps every chunk; and reading many chunks at once, in
    parallel, with combined ranges, returns the rows that reading each chunk
    by itself returns. *)

From S2P Require Import Prelude CppString Status ColumnGroups ArrowData ColumnGroupReader.

(** ** Memory estimates *)

Section memory.

Lemma sum_Z_nonneg l : Forall (λ x, 0 ≤ x) l → 0 ≤ sum_Z l.
Proof. induction 1; unfold sum_Z in *; simpl; lia. Qed.

Lemma sum_Z_lookup_le l i x : Forall (λ x, 0 ≤ x) l → l !! i = Some x → x ≤ sum_Z l.
Proof.
  intros Hl. revert i. induction Hl as [|y l Hy Hl IH]; intros [|i] Hi; simplify_eq/=.
  - pose proof (sum_Z_nonneg l Hl). unfold sum_Z in *. simpl. lia.
  - specialize (IH i Hi). unfold sum_Z in *. simpl. lia.
Qed.

Lemma foldl_u64_add l a :
  Forall (λ x, 0 ≤ x) l → 0 ≤ a → a + sum_Z l < UINT64_MOD → foldl u64_add a l = a + sum_Z l.
Proof.
  intros Hl. revert a. induction Hl as [|x l Hx Hl IH]; intros a Ha Hs; simpl.
  - unfold sum_Z. simpl. lia.
  - pose proof (sum_Z_nonneg l Hl) as Hn. unfold sum_Z in *. simpl in *.
    rewrite u64_add_small by lia. rewrite IH by lia. lia.
Qed.

Lemma add_weights_spec weights a :
  0 ≤ a < UINT64_MOD → Forall (λ w, 0 ≤ w) weights →
  fold_out add_weight weights a
  = if a + sum_Z weights <? UINT64_MOD then Ok (a + sum_Z weights) else Err status_Invalid.
Proof.
  intros Ha Hw. revert a Ha. induction Hw as [|w weights Hw Hws IH]; intros a Ha; simpl.
  - unfold sum_Z. simpl. destruct (Z.ltb_spec (a + 0) UINT64_MOD); [|lia]. f_equal. lia.
  - pose proof (sum_Z_nonneg weights Hws) as Hn. unfold add_weight, sum_Z in *. simpl.
    destruct (Z.ltb_spec (UINT64_MOD - 1 - a) w); simpl.
    + destruct (Z.ltb_spec (a + (w + foldr Z.add 0 weights)) UINT64_MOD); [lia|done].
    + rewrite IH by lia. replace (a + (w + foldr Z.add 0 weights))
        with (a + w + foldr Z.add 0 weights) by lia. done.
Qed.

(** The shares, rounded down, stay below the total. *)
Lemma shares_sum_le total W weights :
  0 ≤ total → 0 < W → Forall (λ w, 0 ≤ w) weights →
  W * sum_Z ((λ w, total * w / W) <$> weights) ≤ total * sum_Z weights.
Proof.
  intros Ht HW. induction 1 as [|w weights Hw Hws IH]; unfold sum_Z in *; [simpl; lia|].
  rewrite fmap_cons. cbn [foldr]. pose proof (Z.mul_div_le (total * w) W HW). rewrite !Z.mul_add_distr_l. lia.
Qed.

Lemma remainder_index_spec weights i last :
  (∃ k, remainder_index weights i last = (i + k)%nat ∧ ∃ w, weights !! k = Some w ∧ w ≠ 0) ∨
  (remainder_index weights i last = last ∧ Forall (λ w, w = 0) weights).
Proof.
  revert i last. induction weights as [|w weights IH]; intros i last; simpl; [by right|].
  destruct (IH (S i) (if w =? 0 then last else i)) as [(k & -> & w' & Hk & Hw')|[-> Hz]].
  - left. exists (S k). split; [lia|]. eauto.
  - destruct (Z.eqb_spec w 0) as [->|Hw]; [right; split; [done|by constructor]|].
    left. exists 0%nat. split; [lia|]. by exists w.
Qed.

Lemma sum_zero l : Forall (λ w, w = 0) l → sum_Z l = 0.
Proof. induction 1; unfold sum_Z in *; simpl; lia. Qed.

Lemma sum_Z_alter (f : Z → Z) d l i x :
  l !! i = Some x → f x = x + d → sum_Z (alter f i l) = sum_Z l + d.
Proof.
  revert i. induction l as [|y l IH]; intros [|i] Hi Hf; simplify_eq/=; unfold sum_Z in *; simpl.
  - lia.
  - rewrite (IH i Hi Hf). lia.
Qed.

(** The estimates of the columns add up to the size of the chunk.  For a
    size and weights that are [uint64_t]s, distributing succeeds unless the
    weights are all zero or overflow; the parts then sum up to the size, none
    exceeds it, and a column without weight gets none of it. *)
Theorem memory_sizes_add_up total weights :
  0 < total < UINT64_MOD → weights ≠ [] → Forall (λ w, 0 ≤ w) weights →
  match DistributeMemorySizes total weights with
  | Ok sizes =>
      length sizes = length weights ∧ sum_Z sizes = total ∧ Forall (λ x, 0 ≤ x ≤ total) sizes ∧
      ∀ i, weights !! i = Some 0 → sizes !! i = Some 0
  | Err e => e = status_Invalid ∧ (sum_Z weights = 0 ∨ UINT64_MOD ≤ sum_Z weights)
  | Ub => False
  end.
Proof.
  intros Ht Hne Hw. unfold DistributeMemorySizes. rewrite bool_decide_false by done.
  destruct (Z.eqb_spec total 0); [lia|]. rewrite add_weights_spec by (done || lia).
  rewrite Z.add_0_l. destruct (Z.ltb_spec (sum_Z weights) UINT64_MOD); simpl; [|by auto].
  destruct (Z.eqb_spec (sum_Z weights) 0) as [|HW0]; [by auto|].
  pose proof (sum_Z_nonneg weights Hw) as HWn. set (W := sum_Z weights) in *.
  pose proof (shares_sum_le total W weights ltac:(lia) ltac:(lia) Hw) as Hle.
  fold W in Hle. rewrite (Z.mul_comm total), <- Z.mul_le_mono_pos_l in Hle by lia.
  set (shares := (λ w, total * w / W) <$> weights) in *.
  assert (Forall (λ x, 0 ≤ x) shares) as Hsn.
  { unfold shares. rewrite Forall_fmap. eapply Forall_impl; [exact Hw|]. intros w Hw'. simpl in *.
    apply Z.div_pos; nia. }
  assert ((λ w, wrap_u64 (total * w / W)) <$> weights = shares) as ->.
  { unfold shares. apply list_fmap_ext. intros i w Hi. apply wrap_u64_small.
    assert (shares !! i = Some (total * w / W)) as Hs by (unfold shares; by rewrite list_lookup_fmap, Hi).
    pose proof (sum_Z_lookup_le shares i _ Hsn Hs). rewrite Forall_lookup in Hsn.
    specialize (Hsn i _ Hs). simpl in Hsn. lia. }
  rewrite foldl_u64_add, Z.add_0_l, u64_sub_small by (done || pose proof (sum_Z_nonneg shares Hsn); lia).
  pose proof (sum_Z_nonneg shares Hsn) as Hs0.
  destruct (remainder_index_spec weights 0 0) as [(k & Hk & w & Hwk & Hw0)|[_ Hz]].
  2:{ apply sum_zero in Hz. by unfold W in HW0. }
  simpl in Hk. rewrite Hk.
  assert (shares !! k = Some (total * w / W)) as Hsk by (unfold shares; by rewrite list_lookup_fmap, Hwk).
  pose proof (sum_Z_lookup_le shares k _ Hsn Hsk) as Hqle.
  pose proof (proj1 (Forall_lookup _ _) Hsn k _ Hsk) as Hq0. simpl in Hq0.
  assert (sum_Z (alter (λ x, u64_add x (total - sum_Z shares)) k shares) = total) as Hsum.
  { rewrite (sum_Z_alter _ (total - sum_Z shares) shares k _ Hsk); [lia|].
    apply u64_add_small. lia. }
  assert (Forall (λ x, 0 ≤ x) (alter (λ x, u64_add x (total - sum_Z shares)) k shares)) as Hn.
  { apply Forall_alter; [done|]. intros x Hx Hx0. apply wrap_u64_range. }
  split_and!; [rewrite length_alter; apply length_fmap|done| |].
  - apply Forall_lookup. intros i x Hi. split; [by apply (proj1 (Forall_lookup _ _) Hn i)|].
    rewrite <- Hsum. by apply (sum_Z_lookup_le _ i).
  - intros i Hi. assert (i ≠ k) by congruence.
    rewrite list_lookup_alter_ne by done. unfold shares. rewrite list_lookup_fmap, Hi. simpl.
    by rewrite Z.mul_0_r, Z.div_0_l.
Qed.

Lemma memory_sizes_add_up_witness :
  ∃ sizes, DistributeMemorySizes 100 [3; 0; 4] = Ok sizes ∧ sum_Z sizes = 100 ∧ sizes = [42; 0; 58].
Proof.
  pose proof (memory_sizes_add_up 100 [3; 0; 4]) as Hall.
  assert (DistributeMemorySizes 100 [3; 0; 4] = Ok [42; 0; 58]) as E by (vm_compute; reflexivity).
  rewrite E in Hall. destruct Hall as (_ & Hsum & _); [by unfold UINT64_MOD|done|by repeat constructor|].
  exists [42; 0; 58]. done.
Defined.
End memory.

(** ** Chunks tile the visible rows *)

Section tiling.

(** Row groups that follow each other without a gap, from row [from] on. *)
Fixpoint tiled (from : Z) (rgs : list RowGroupInfo) : Prop :=
  match rgs with
  | [] => True
  | rg :: rgs' => start_offset rg = from ∧ from ≤ end_offset rg ∧ tiled (end_offset rg) rgs'
  end.

Fixpoint tile_end (from : Z) (rgs : list RowGroupInfo) : Z :=
  match rgs with [] => from | rg :: rgs' => tile_end (end_offset rg) rgs' end.

Lemma tile_end_last from rgs back : last rgs = Some back → tile_end from rgs = end_offset back.
Proof.
  revert from. induction rgs as [|rg rgs IH]; intros from Hl; [done|]. simpl.
  destruct rgs as [|rg2 rgs]; [by simplify_eq/=|]. by apply IH.
Qed.

Lemma tile_end_le from rgs : tiled from rgs → from ≤ tile_end from rgs.
Proof.
  revert from. induction rgs as [|rg rgs IH]; intros from; simpl; [lia|].
  intros (_ & Hle & Ht). specialize (IH _ Ht). lia.
Qed.

(** The rows of a chunk: the index of its file and rows of the file. *)
Definition chunk_rows (c : ChunkInfo) : list (nat * Z) :=
  pair (file_index c) <$> seg (row_offset_in_file c) (row_offset_in_file c + number_of_rows c).

Definition chunk_in (rgs : list RowGroupInfo) (c : ChunkInfo) : Prop :=
  ∃ rg, rgs !! row_group_index_in_file c = Some rg ∧ 0 < number_of_rows c ∧
    0 ≤ row_offset_in_row_group c ∧
    row_offset_in_file c = start_offset rg + row_offset_in_row_group c ∧
    row_offset_in_file c + number_of_rows c ≤ end_offset rg.

(** The ends of the chunks, counted from row [from]. *)
Fixpoint ends_at (from : Z) (cs : list ChunkInfo) : Prop :=
  match cs with
  | [] => True
  | c :: cs' => global_row_end c = from + number_of_rows c ∧ ends_at (global_row_end c) cs'
  end.

(** The chunks [cs] are those of the rows [a..b) of file [idx]. *)
Record covers (idx : nat) (rgs : list RowGroupInfo) (from a b : Z) (cs : list ChunkInfo) : Prop := {
  cv_rows : mjoin (chunk_rows <$> cs) = pair idx <$> seg a b;
  cv_in : Forall (λ c, file_index c = idx ∧ chunk_in rgs c) cs;
  cv_ends : ends_at from cs;
}.

Lemma covers_nil idx rgs from a b : b ≤ a → covers idx rgs from a b [].
Proof. intros. split; [by rewrite seg_nil|constructor|done]. Qed.

Lemma covers_cons idx rgs from a m b c cs :
  a < m ≤ b → file_index c = idx → row_offset_in_file c = a → number_of_rows c = m - a →
  global_row_end c = from + (m - a) → chunk_in rgs c →
  covers idx rgs (from + (m - a)) m b cs → covers idx rgs from a b (c :: cs).
Proof.
  intros Hm <- Ho Hn He Hin [Hr Hi Hends]. split.
  - rewrite fmap_cons. simpl. rewrite Hr. unfold chunk_rows. rewrite Ho, Hn.
    replace (a + (m - a)) with m by lia. rewrite <- fmap_app. by rewrite <- seg_app by lia.
  - by constructor.
  - split; [congruence|]. by rewrite He.
Qed.

(** The chunks of one row group and those of the following ones, both clipped
    to the visible rows [lo..hi). *)
Lemma covers_clip idx rgs from lo hi a m b c cs :
  a ≤ m ≤ b → Z.max lo a < Z.min hi m → file_index c = idx →
  row_offset_in_file c = Z.max lo a → number_of_rows c = Z.min hi m - Z.max lo a →
  global_row_end c = from + (Z.min hi m - Z.max lo a) → chunk_in rgs c →
  covers idx rgs (from + (Z.min hi m - Z.max lo a)) (Z.max lo m) (Z.min hi b) cs →
  covers idx rgs from (Z.max lo a) (Z.min hi b) (c :: cs).
Proof.
  intros Hm Hlt Hf Ho Hn He Hin Hcs. destruct (decide (hi ≤ m)) as [Hhi|Hhi].
  - assert (covers idx rgs (from + (Z.min hi m - Z.max lo a)) (Z.min hi m) (Z.min hi b) []) as Hnil
      by (apply covers_nil; lia).
    assert (cs = []) as ->.
    { destruct Hcs as [Hr Hi _]. rewrite seg_nil in Hr by lia. destruct cs as [|c2 cs]; [done|].
      exfalso. apply Forall_cons in Hi as [[_ (rg & _ & Hpos & _)] _].
      rewrite fmap_cons in Hr. simpl in Hr. apply app_eq_nil in Hr as [Hr _].
      unfold chunk_rows in Hr. apply (f_equal length) in Hr. rewrite length_fmap, length_seg in Hr.
      simpl in Hr. lia. }
    by eapply covers_cons; [| | | | | |exact Hnil]; try done; lia.
  - eapply (covers_cons _ _ _ _ (Z.min hi m)); try done; [lia|].
    replace (Z.max lo m) with (Z.min hi m) in Hcs by lia. done.
Qed.

Definition seg_rows (a b : Z) : Z := Z.max 0 (b - a).

Lemma range_chunks_spec idx lo hi all pre rgs from n :
  tiled from rgs → 0 ≤ from → 0 ≤ lo → 0 ≤ n → 0 ≤ all →
  all + n + (tile_end from rgs - from) < UINT64_MOD → tile_end from rgs < UINT64_MOD →
  let '(cs, n') := range_chunks idx lo hi all (length pre) rgs n in
  covers idx (pre ++ rgs) (all + n) (Z.max lo from) (Z.min hi (tile_end from rgs)) cs ∧
  n' = n + seg_rows (Z.max lo from) (Z.min hi (tile_end from rgs)).
Proof.
  revert pre from n. induction rgs as [|rg rgs IH]; intros pre from n Ht Hf Hlo Hn Hall Hb He; simpl.
  - split; [apply covers_nil; lia|unfold seg_rows; lia].
  - destruct Ht as (Hs & Hle & Ht). simpl in Hb, He. pose proof (tile_end_le _ _ Ht) as Hte. rewrite Hs.
    replace (pre ++ rg :: rgs) with ((pre ++ [rg]) ++ rgs) by (by rewrite <- app_assoc).
    replace (S (length pre)) with (length (pre ++ [rg])) by (rewrite length_app; simpl; lia).
    destruct (Z.ltb_spec (Z.max lo from) (Z.min hi (end_offset rg))) as [Hlt|Hge].
    + rewrite (u64_sub_small (Z.min hi _)), (u64_add_small n) by lia.
      specialize (IH (pre ++ [rg]) (end_offset rg) (n + (Z.min hi (end_offset rg) - Z.max lo from))
        Ht ltac:(lia) Hlo ltac:(lia) Hall ltac:(lia) He).
      destruct (range_chunks _ _ _ _ _ rgs _) as [cs n']. destruct IH as [Hcs ->].
      rewrite (u64_sub_small (Z.max lo from)), (u64_add_small all) by lia.
      split; [|unfold seg_rows; lia].
      eapply (covers_clip _ _ _ lo hi from (end_offset rg)); try done; simpl; try lia.
      * exists rg. rewrite <- app_assoc. simpl. rewrite list_lookup_middle by done.
        split_and!; try done; simpl; lia.
      * by replace (all + n + (Z.min hi (end_offset rg) - Z.max lo from))
          with (all + (n + (Z.min hi (end_offset rg) - Z.max lo from))) by lia.
    + specialize (IH (pre ++ [rg]) (end_offset rg) n Ht ltac:(lia) Hlo Hn Hall ltac:(lia) He).
      destruct (range_chunks _ _ _ _ _ rgs _) as [cs n']. destruct IH as [Hcs ->].
      split; [|unfold seg_rows; lia]. destruct Hcs as [Hr Hi Hends]. split; [|done|done].
      rewrite Hr. rewrite (seg_clip lo hi from (end_offset rg)) by lia.
      by rewrite (seg_nil (Z.max lo from)).
Qed.

Lemma whole_chunks_spec idx all pre rgs from n :
  tiled from rgs → 0 ≤ from → 0 ≤ n → 0 ≤ all →
  all + n + (tile_end from rgs - from) < UINT64_MOD → tile_end from rgs < UINT64_MOD →
  let '(cs, n') := whole_chunks idx all (length pre) rgs n in
  covers idx (pre ++ rgs) (all + n) from (tile_end from rgs) cs ∧
  n' = n + (tile_end from rgs - from).
Proof.
  revert pre from n. induction rgs as [|rg rgs IH]; intros pre from n Ht Hf Hn Hall Hb He; simpl.
  - split; [by apply covers_nil|lia].
  - destruct Ht as (Hs & Hle & Ht). simpl in Hb, He. pose proof (tile_end_le _ _ Ht) as Hte. rewrite Hs.
    replace (pre ++ rg :: rgs) with ((pre ++ [rg]) ++ rgs) by (by rewrite <- app_assoc).
    replace (S (length pre)) with (length (pre ++ [rg])) by (rewrite length_app; simpl; lia).
    rewrite u64_sub_small by lia. destruct (Z.eqb_spec (end_offset rg - from) 0) as [Hz|Hnz].
    + specialize (IH (pre ++ [rg]) (end_offset rg) n Ht ltac:(lia) Hn Hall ltac:(lia) He).
      replace from with (end_offset rg) in * by lia. done.
    + rewrite (u64_add_small n) by lia.
      specialize (IH (pre ++ [rg]) (end_offset rg) (n + (end_offset rg - from))
        Ht ltac:(lia) ltac:(lia) Hall ltac:(lia) He).
      destruct (whole_chunks _ _ _ rgs _) as [cs n']. destruct IH as [Hcs ->].
      rewrite (u64_add_small all) by lia. split; [|lia].
      eapply (covers_cons _ _ _ _ (end_offset rg)); try done; simpl; try lia.
      * exists rg. rewrite <- app_assoc. simpl. rewrite list_lookup_middle by done.
        split_and!; try done; simpl; lia.
      * by replace (all + n + (end_offset rg - from)) with (all + (n + (end_offset rg - from))) by lia.
Qed.

(** The rows of a file that the manifest makes visible. *)
Definition visible_end (f : ColumnGroupFile) (rgs : list RowGroupInfo) : Z :=
  Z.min (end_index f) (tile_end 0 rgs).
Definition visible_rows (f : ColumnGroupFile) (rgs : list RowGroupInfo) : Z :=
  seg_rows (start_index f) (visible_end f rgs).

Lemma file_chunks_spec idx f rgs all :
  bad_range f = false → tiled 0 rgs → end_index f < UINT64_MOD → 0 ≤ all →
  all + tile_end 0 rgs < UINT64_MOD →
  let '(cs, rows) := file_chunks idx f rgs all in
  covers idx rgs all (start_index f) (visible_end f rgs) cs ∧ rows = all + visible_rows f rgs.
Proof.
  unfold bad_range. intros Hbad Ht Hend Hall Hb. apply orb_false_iff in Hbad as [Hbad Hlt].
  apply orb_false_iff in Hbad as [Hs He]. apply Z.ltb_ge in Hs, He. apply Z.leb_gt in Hlt.
  pose proof (tile_end_le 0 rgs Ht) as Hte. unfold file_chunks, visible_rows, visible_end.
  destruct (last rgs) as [back|] eqn:Hlast.
  2:{ apply last_None in Hlast as ->. simpl. split; [apply covers_nil; lia|unfold seg_rows; lia]. }
  rewrite !wrap_u64_small by lia.
  destruct (negb (start_index f =? 0) || negb (end_index f =? end_offset back)) eqn:Hpart.
  - pose proof (range_chunks_spec idx (start_index f) (end_index f) all [] rgs 0 0 Ht
      ltac:(lia) ltac:(lia) ltac:(lia) Hall ltac:(lia) ltac:(lia)) as Hspec. simpl in Hspec.
    destruct (range_chunks _ _ _ _ _ _ _) as [cs n']. destruct Hspec as [Hcs ->].
    rewrite Z.max_l, Z.add_0_r in Hcs by lia. rewrite Z.max_l by lia. split; [done|].
    rewrite u64_add_small; [lia|]. unfold seg_rows. lia.
  - apply orb_false_iff in Hpart as [H1 H2]. apply negb_false_iff, Z.eqb_eq in H1, H2.
    pose proof (whole_chunks_spec idx all [] rgs 0 0 Ht
      ltac:(lia) ltac:(lia) Hall ltac:(lia) ltac:(lia)) as Hspec. simpl in Hspec.
    destruct (whole_chunks _ _ _ _ _) as [cs n']. destruct Hspec as [Hcs ->].
    rewrite <- (tile_end_last 0 rgs back Hlast) in H2. rewrite Z.add_0_r in Hcs.
    rewrite H1, H2, Z.min_id. split; [done|]. rewrite u64_add_small; unfold seg_rows; lia.
Qed.
End tiling.

(** ** Opening *)

Section opening.
Context `{FormatReaders}.

#[local] Ltac run := unfold lift, modify, get_st, fail, mret, M_ret, mbind, M_bind, outcome_bind; cbn.

(** The members after the files [ofs] were appended to them, in order. *)
Fixpoint install (ofs : list OpenedFile) (rows : Z) (s : ColumnGroupReader) : ColumnGroupReader * Z :=
  match ofs with
  | [] => (s, rows)
  | f :: ofs' =>
      let s1 := set_reader (of_index f) (of_reader f) s in
      let '(chunks, rows') := file_chunks (of_index f) (of_file f) (of_row_groups f) rows in
      install ofs' rows'
        (mkReader (cgr_group s1) (cgr_predicate s1) (cgr_chunk_infos s1 ++ chunks)
           (<[of_index f := of_row_groups f]> (cgr_row_group_infos s1)) (cgr_file_schema s1)
           (cgr_total_rows s1) (cgr_format_readers s1) (cgr_opened s1))
  end.

Lemma install_group ofs rows s : cgr_group (install ofs rows s).1 = cgr_group s.
Proof.
  revert rows s. induction ofs as [|f ofs IH]; intros rows s; [done|]. simpl.
  destruct (file_chunks _ _ _ _). by rewrite IH.
Qed.

Lemma collect_opened_ok ofs rows s :
  collect_opened (Ok <$> ofs) rows s = ((install ofs rows s).1, Ok (install ofs rows s).2).
Proof.
  revert rows s. induction ofs as [|f ofs IH]; intros rows s; [done|].
  rewrite fmap_cons. cbn [collect_opened install]. unfold append_file_metadata. run.
  destruct (file_chunks _ _ _ _) as [chunks rows']. apply IH.
Qed.

Lemma collect_opened_inv l rows s s' rows' :
  collect_opened l rows s = (s', Ok rows') → ∃ ofs, l = Ok <$> ofs.
Proof.
  revert rows s. induction l as [|o l IH]; intros rows s; [by exists []|].
  cbn [collect_opened]. unfold append_file_metadata. run. destruct o as [f| |]; cbn; try done.
  destruct (file_chunks _ _ _ _) as [chunks rows1]. intros Hc. destruct (IH _ _ Hc) as [ofs ->].
  by exists (f :: ofs).
Qed.

Lemma set_reader_twice i r s :
  set_reader i r (mkReader (cgr_group s) (cgr_predicate s) (cgr_chunk_infos s) (cgr_row_group_infos s)
    (cgr_file_schema s) (cgr_total_rows s) (<[i := Some r]> (cgr_format_readers s)) (cgr_opened s))
  = set_reader i r s.
Proof. unfold set_reader. simpl. by rewrite list_insert_insert_eq. Qed.

(** Opening the files one by one succeeds exactly when all ranges are valid and
    collecting the files opened beforehand does, with the same members. *)
Lemma open_files_collect i l rows s s' rows' :
  open_files i l rows s = (s', Ok rows') ↔
  existsb bad_range l = false ∧
  collect_opened (imap (λ k, open_one (cgr_group s) (i + k)) l) rows s = (s', Ok rows').
Proof.
  revert i rows s. induction l as [|f l IH]; intros i rows s; [naive_solver|].
  cbn [open_files existsb]. destruct (bad_range f); [run; naive_solver|].
  rewrite imap_cons, Nat.add_0_r. cbn [collect_opened orb].
  rewrite (imap_ext _ (λ k, open_one (cgr_group s) (S i + k))) by (intros k x _; simpl; f_equal; lia).
  set (opened := imap _ l). unfold open_one. run.
  destruct (open_reader_for_file _ i) as [r| |]; cbn; [|naive_solver..].
  destruct (get_row_group_infos r) as [rgs| |]; cbn; [|naive_solver..].
  unfold append_file_metadata. cbn [of_index of_file of_reader of_row_groups].
  rewrite set_reader_twice. destruct (file_chunks _ _ _ _) as [chunks rows1]. by rewrite IH.
Qed.

(** Opening a column group reader asynchronously, where every file is
    opened before the results are collected, and opening it file by file
    succeed in the same cases and leave the same members behind. *)
Theorem open_async_equivalent s s' : cgr_open_async s = (s', Ok tt) ↔ cgr_open s = (s', Ok tt).
Proof.
  unfold cgr_open_async, cgr_open. run.
  pose proof (λ t rows, open_files_collect 0 (files (cgr_group s)) 0 (clear_members s) t rows) as Hi.
  cbn in Hi. destruct (open_files 0 _ 0 _) as [t o] eqn:Ho.
  destruct (existsb bad_range _) eqn:Hb; cbn.
  - split; [done|]. destruct o as [rows| |]; cbn; [|done..].
    specialize (Hi t rows). naive_solver.
  - destruct (collect_opened _ 0 _) as [t2 o2] eqn:Hc.
    replace (collect_opened (imap (open_one (cgr_group s)) (files (cgr_group s))) 0 (clear_members s))
      with (t2, o2) by done. cbn.
    destruct o as [rows| |]; destruct o2 as [rows2| |]; cbn; try done.
    all: [> specialize (Hi t rows) | specialize (Hi t rows)..|specialize (Hi t2 rows2) | specialize (Hi t2 rows2)].
    all: naive_solver.
Qed.

(** *** The members of an opened reader *)

(** The visible rows of the files, in order. *)
Definition file_rows (idx : nat) (e : ColumnGroupFile * list RowGroupInfo) : list (nat * Z) :=
  pair idx <$> seg (start_index e.1) (visible_end e.1 e.2).

Definition logical_rows (i : nat) (l : list (ColumnGroupFile * list RowGroupInfo)) : list (nat * Z) :=
  mjoin (imap (λ k, file_rows (i + k)) l).

Definition rows_of (cs : list ChunkInfo) : list (nat * Z) := mjoin (chunk_rows <$> cs).

Lemma rows_of_app cs1 cs2 : rows_of (cs1 ++ cs2) = rows_of cs1 ++ rows_of cs2.
Proof. unfold rows_of. by rewrite fmap_app, join_app. Qed.

Lemma length_chunk_rows c : 0 ≤ number_of_rows c → Z.of_nat (length (chunk_rows c)) = number_of_rows c.
Proof. intros. unfold chunk_rows. rewrite length_fmap, length_seg. lia. Qed.

Lemma ends_at_app from cs1 cs2 :
  Forall (λ c, 0 < number_of_rows c) cs1 →
  ends_at from cs1 → ends_at (from + Z.of_nat (length (rows_of cs1))) cs2 → ends_at from (cs1 ++ cs2).
Proof.
  intros Hp. revert from. induction Hp as [|c cs1 Hc Hcs IH]; intros from H1 H2.
  - simpl in *. by rewrite Z.add_0_r in H2.
  - destruct H1 as [He H1]. split; [done|]. apply IH; [done|].
    change (rows_of (c :: cs1)) with (chunk_rows c ++ rows_of cs1) in H2.
    rewrite length_app, Nat2Z.inj_add, length_chunk_rows in H2 by lia.
    by rewrite He, <- Z.add_assoc.
Qed.

Lemma logical_rows_cons i e l : logical_rows i (e :: l) = file_rows i e ++ logical_rows (S i) l.
Proof.
  unfold logical_rows. rewrite imap_cons. simpl. rewrite Nat.add_0_r. do 2 f_equal.
  apply imap_ext. intros k x _. simpl. by rewrite Nat.add_succ_r.
Qed.

Definition of_entry (f : OpenedFile) : ColumnGroupFile * list RowGroupInfo :=
  (of_file f, of_row_groups f).

Definition total_rows_of (rgss : list (list RowGroupInfo)) : Z := sum_Z (tile_end 0 <$> rgss).

Definition file_sane (f : OpenedFile) : Prop :=
  bad_range (of_file f) = false ∧ end_index (of_file f) < UINT64_MOD ∧ tiled 0 (of_row_groups f).

Lemma total_rows_of_nonneg ofs :
  Forall file_sane ofs → 0 ≤ total_rows_of (of_row_groups <$> ofs).
Proof.
  intros Hf. unfold total_rows_of. apply sum_Z_nonneg. rewrite !Forall_fmap.
  eapply Forall_impl; [exact Hf|]. intros f (_ & _ & Ht). by apply tile_end_le in Ht.
Qed.

Lemma visible_rows_le f rgs :
  bad_range f = false → tiled 0 rgs → 0 ≤ visible_rows f rgs ≤ tile_end 0 rgs.
Proof.
  unfold bad_range. intros Hbad Ht. pose proof (tile_end_le _ _ Ht).
  apply orb_false_iff in Hbad as [Hbad _]. apply orb_false_iff in Hbad as [Hs _].
  apply Z.ltb_ge in Hs. unfold visible_rows, seg_rows, visible_end. lia.
Qed.

Lemma logical_rows_le i ofs :
  Forall file_sane ofs →
  Z.of_nat (length (logical_rows i (of_entry <$> ofs))) ≤ total_rows_of (of_row_groups <$> ofs).
Proof.
  intros Hofs. revert i. induction Hofs as [|f ofs (Hbad & _ & Ht) Hofs IH]; intros i; [done|].
  rewrite fmap_cons, logical_rows_cons, length_app. specialize (IH (S i)). unfold total_rows_of, sum_Z in *.
  rewrite !fmap_cons. simpl. unfold file_rows at 1. rewrite length_fmap, length_seg. simpl.
  pose proof (visible_rows_le _ _ Hbad Ht). unfold visible_rows, seg_rows in *. lia.
Qed.

(** What appending the files [ofs], numbered from [i] on, adds. *)
Record installed (i : nat) (ofs : list OpenedFile) (rows : Z) (s s' : ColumnGroupReader) (rows' : Z)
    (cs : list ChunkInfo) : Prop := {
  in_chunks : cgr_chunk_infos s' = cgr_chunk_infos s ++ cs;
  in_rows : rows_of cs = logical_rows i (of_entry <$> ofs);
  in_ends : ends_at rows cs;
  in_total : rows' = rows + Z.of_nat (length (rows_of cs));
  in_groups : Forall (λ c, ∃ k f, ofs !! k = Some f ∧ file_index c = (i + k)%nat ∧
                             chunk_in (of_row_groups f) c) cs;
}.

Lemma chunk_in_pos rgs c : chunk_in rgs c → 0 < number_of_rows c.
Proof. by intros (? & _ & ? & _). Qed.

(** Looking up after one insertion and after the remaining ones. *)
Lemma insert_lookup_shift {A B} (g : B → A) (ofs : list B) f (l : list A) i k :
  (if decide (S i ≤ k < S i + length ofs ∧ k < length (<[i := g f]> l))%nat
   then g <$> ofs !! (k - S i)%nat else <[i := g f]> l !! k)
  = if decide (i ≤ k < i + length (f :: ofs) ∧ k < length l)%nat
    then g <$> (f :: ofs) !! (k - i)%nat else l !! k.
Proof.
  rewrite length_insert. cbn [length]. destruct (decide (k = i)) as [->|Hne].
  - rewrite decide_False by lia. rewrite Nat.sub_diag. simpl. case_decide.
    + by rewrite list_lookup_insert_eq by lia.
    + by rewrite list_insert_ge by lia.
  - destruct (decide (S i ≤ k < S i + length ofs ∧ k < length l)%nat) as [Hd|Hd].
    + rewrite decide_True by lia. by replace (k - i)%nat with (S (k - S i)) by lia.
    + rewrite decide_False by lia. by rewrite list_lookup_insert_ne.
Qed.

Lemma install_lookup ofs i rows s :
  (∀ k f, ofs !! k = Some f → of_index f = (i + k)%nat) →
  (∀ k, cgr_row_group_infos (install ofs rows s).1 !! k =
    if decide (i ≤ k < i + length ofs ∧ k < length (cgr_row_group_infos s))%nat
    then of_row_groups <$> ofs !! (k - i)%nat else cgr_row_group_infos s !! k) ∧
  (∀ k, cgr_format_readers (install ofs rows s).1 !! k =
    if decide (i ≤ k < i + length ofs ∧ k < length (cgr_format_readers s))%nat
    then (Some ∘ of_reader) <$> ofs !! (k - i)%nat else cgr_format_readers s !! k).
Proof.
  revert i rows s. induction ofs as [|f ofs IH]; intros i rows s Hidx; cbn [install].
  - split; intros k; by rewrite decide_False by (simpl; lia).
  - destruct (file_chunks _ _ _ _) as [cs rows1].
    match goal with |- context [install ofs rows1 ?x] => set (s1 := x) end.
    destruct (IH (S i) rows1 s1) as [Hg Hr].
    { intros k f' Hk. rewrite (Hidx (S k) f') by done. lia. }
    assert (of_index f = i) as Hi by (rewrite (Hidx 0%nat f) by done; lia).
    split; intros k; [rewrite Hg|rewrite Hr]; subst s1; simpl; rewrite Hi;
      [apply insert_lookup_shift|apply (insert_lookup_shift (Some ∘ of_reader))].
Qed.

(** From empty slots, every slot is filled. *)
Lemma install_members ofs rows s :
  (∀ k f, ofs !! k = Some f → of_index f = k) → length ofs = length (files (cgr_group s)) →
  cgr_row_group_infos (install ofs rows (clear_members s)).1 = of_row_groups <$> ofs ∧
  cgr_format_readers (install ofs rows (clear_members s)).1 = Some ∘ of_reader <$> ofs.
Proof.
  intros Hidx Hlen. destruct (install_lookup ofs 0 rows (clear_members s) Hidx) as [Hg Hr].
  simpl in Hg, Hr. split; apply list_eq; intros k; [rewrite Hg|rewrite Hr];
    rewrite list_lookup_fmap, length_replicate, Nat.sub_0_r; case_decide; try done;
    rewrite (lookup_ge_None_2 ofs) by lia; apply lookup_ge_None; rewrite length_replicate; lia.
Qed.

Lemma install_spec ofs i rows s :
  Forall file_sane ofs → (∀ k f, ofs !! k = Some f → of_index f = (i + k)%nat) →
  0 ≤ rows → rows + total_rows_of (of_row_groups <$> ofs) < UINT64_MOD →
  ∃ cs, installed i ofs rows s (install ofs rows s).1 (install ofs rows s).2 cs.
Proof.
  intros Hf. revert i rows s. induction Hf as [|f ofs Hf Hofs IH]; intros i rows s Hidx Hr Hb.
  - exists []. split; simpl; try done; [by rewrite app_nil_r|lia].
  - rewrite fmap_cons in Hb. unfold total_rows_of, sum_Z in Hb. rewrite fmap_cons in Hb. simpl in Hb.
    change (foldr Z.add 0 (tile_end 0 <$> (of_row_groups <$> ofs)))
      with (total_rows_of (of_row_groups <$> ofs)) in Hb.
    pose proof (total_rows_of_nonneg ofs Hofs) as Hn.
    assert (of_index f = i) as Hi by (rewrite (Hidx 0%nat f) by done; lia).
    destruct Hf as (Hbad & Hend & Ht).
    pose proof (file_chunks_spec i (of_file f) (of_row_groups f) rows Hbad Ht Hend Hr ltac:(lia)) as Hc.
    cbn [install]. rewrite Hi. destruct (file_chunks _ _ _ _) as [cs1 rows1].
    destruct Hc as [[Hcr Hci Hce] Hrows].
    assert (rows1 = rows + Z.of_nat (length (rows_of cs1))) as Hrows1.
    { unfold rows_of. rewrite Hcr, Hrows, length_fmap, length_seg. unfold visible_rows, seg_rows. lia. }
    pose proof (visible_rows_le (of_file f) (of_row_groups f) Hbad Ht) as Hv.
    match goal with |- context [install ofs rows1 ?x] => set (s1 := x) end.
    destruct (IH (S i) rows1 s1) as [cs [Hch Hrs Hes Htot Hgs]]; [| lia | lia |].
    { intros k f' Hk. rewrite (Hidx (S k) f') by done. lia. }
    exists (cs1 ++ cs). split.
    + rewrite Hch. simpl. by rewrite app_assoc.
    + rewrite rows_of_app, Hrs, fmap_cons, logical_rows_cons. by f_equal.
    + apply ends_at_app; [|done|by rewrite <- Hrows1].
      eapply Forall_impl; [exact Hci|]. intros c [_ ?]. by eapply chunk_in_pos.
    + rewrite Htot, Hrows1, rows_of_app, length_app. lia.
    + apply Forall_app. split.
      * eapply Forall_impl; [exact Hci|]. intros c [??]. exists 0%nat, f.
        split_and!; [done|lia|done].
      * eapply Forall_impl; [exact Hgs|]. intros c (k & f' & Hk & -> & Hin). exists (S k), f'.
        split_and!; [done|lia|done].
Qed.

(** The invariant of an opened reader: its chunks are the visible rows of its
    files, in order, each inside one row group; ends and totals count them. *)
Record opened_reader (s : ColumnGroupReader) : Prop := {
  or_opened : cgr_opened s = true;
  or_lengths : length (cgr_row_group_infos s) = length (files (cgr_group s)) ∧
               length (cgr_format_readers s) = length (files (cgr_group s));
  or_rows : rows_of (cgr_chunk_infos s)
            = logical_rows 0 (zip (files (cgr_group s)) (cgr_row_group_infos s));
  or_in : Forall (λ c, ∃ rgs, cgr_row_group_infos s !! file_index c = Some rgs ∧ chunk_in rgs c)
            (cgr_chunk_infos s);
  or_ends : ends_at 0 (cgr_chunk_infos s);
  or_total : cgr_total_rows s = Z.of_nat (length (rows_of (cgr_chunk_infos s)));
  or_bound : cgr_total_rows s < UINT64_MOD;
  or_files k f : files (cgr_group s) !! k = Some f →
    ∃ r rgs, cgr_format_readers s !! k = Some (Some r) ∧ open_reader_for_file (cgr_group s) k = Ok r ∧
      get_row_group_infos r = Ok rgs ∧ cgr_row_group_infos s !! k = Some rgs;
}.

(** The row groups of every file follow each other from row 0 on. *)
Definition tiled_readers : Prop := ∀ group f r rgs,
  create_reader group f = Ok r → get_row_group_infos r = Ok rgs → tiled 0 rgs.

Definition sane_group (group : ColumnGroup) : Prop :=
  Forall (λ f, end_index f < UINT64_MOD) (files group).

Lemma open_one_inv group i f o :
  open_one group i f = Ok o → of_index o = i ∧ of_file o = f ∧
  open_reader_for_file group i = Ok (of_reader o) ∧
  get_row_group_infos (of_reader o) = Ok (of_row_groups o).
Proof.
  unfold open_one, mbind, outcome_bind. destruct (open_reader_for_file _ _) as [r| |] eqn:Hr; try done.
  destruct (get_row_group_infos r) as [rgs| |] eqn:Hg; try done. intros. by simplify_eq/=.
Qed.

(** A successful [open] installs one opened file per file of the group. *)
Lemma cgr_open_inv s s' :
  cgr_open s = (s', Ok tt) →
  ∃ ofs, imap (open_one (cgr_group s)) (files (cgr_group s)) = Ok <$> ofs ∧
    Forall (λ f, bad_range f = false) (files (cgr_group s)) ∧
    s' = set_opened (install ofs 0 (clear_members s)).2 (install ofs 0 (clear_members s)).1.
Proof.
  unfold cgr_open. run. destruct (open_files 0 _ 0 _) as [t [rows| |]] eqn:Ho; try done.
  intros [= <-]. apply open_files_collect in Ho as [Hb Hc]. cbn in Hc.
  destruct (collect_opened_inv _ _ _ _ _ Hc) as [ofs Hofs]. cbn in Hofs. exists ofs.
  rewrite Hofs, collect_opened_ok in Hc. simplify_eq. split_and!; [done| |done].
  apply Forall_forall. intros f Hf. apply not_true_iff_false. intros Hbad.
  apply not_true_iff_false in Hb. apply Hb, existsb_exists. exists f.
  split; [by apply list_elem_of_In|done].
Qed.

Lemma opened_files_sane s ofs :
  tiled_readers → sane_group (cgr_group s) →
  imap (open_one (cgr_group s)) (files (cgr_group s)) = Ok <$> ofs →
  Forall (λ f, bad_range f = false) (files (cgr_group s)) →
  Forall file_sane ofs ∧ of_file <$> ofs = files (cgr_group s) ∧
  ∀ k f, ofs !! k = Some f → open_one (cgr_group s) k (of_file f) = Ok f.
Proof.
  intros Htiled Hsane Himap Hbad.
  assert (∀ k f, ofs !! k = Some f →
    files (cgr_group s) !! k = Some (of_file f) ∧ open_one (cgr_group s) k (of_file f) = Ok f) as Hk.
  { intros k f Hk. assert ((Ok <$> ofs) !! k = Some (Ok (E := Status) f)) as Hl
      by by rewrite list_lookup_fmap, Hk.
    rewrite <- Himap, list_lookup_imap in Hl.
    destruct (files (cgr_group s) !! k) as [f'|] eqn:Hf; simpl in Hl; [|done]. injection Hl as Hl.
    by destruct (open_one_inv _ _ _ _ Hl) as (_ & -> & _). }
  assert (length ofs = length (files (cgr_group s))) as Hlen.
  { apply (f_equal length) in Himap. by rewrite length_imap, length_fmap in Himap. }
  split_and!.
  - apply Forall_lookup. intros k f Hf. destruct (Hk k f Hf) as [Hfile Hone].
    destruct (open_one_inv _ _ _ _ Hone) as (_ & _ & Hr & Hg). unfold open_reader_for_file in Hr.
    rewrite Hfile in Hr. split_and!; [by eapply Forall_lookup in Hbad|by eapply Forall_lookup in Hsane|].
    by eapply Htiled.
  - apply list_eq. intros k. rewrite list_lookup_fmap. destruct (ofs !! k) as [f|] eqn:Hf; simpl.
    + symmetry. apply Hk. done.
    + symmetry. apply lookup_ge_None. apply lookup_ge_None in Hf. lia.
  - intros k f Hf. by apply Hk.
Qed.

Lemma zip_entries ofs : zip (of_file <$> ofs) (of_row_groups <$> ofs) = of_entry <$> ofs.
Proof. induction ofs as [|f ofs IH]; [done|]. rewrite !fmap_cons. simpl. by rewrite IH. Qed.

Lemma open_establishes_spec s s' :
  tiled_readers → sane_group (cgr_group s) → cgr_open s = (s', Ok tt) →
  total_rows_of (cgr_row_group_infos s') < UINT64_MOD →
  cgr_group s' = cgr_group s ∧ opened_reader s'.
Proof.
  intros Htiled Hsane Hopen Hb. destruct (cgr_open_inv s s' Hopen) as (ofs & Himap & Hbad & ->).
  destruct (opened_files_sane s ofs Htiled Hsane Himap Hbad) as (Hofs & Hfiles & Hone).
  assert (length ofs = length (files (cgr_group s))) as Hlen by by rewrite <- Hfiles, length_fmap.
  assert (∀ k f, ofs !! k = Some f → of_index f = (0 + k)%nat) as Hidx.
  { intros k f Hf. by destruct (open_one_inv _ _ _ _ (Hone k f Hf)) as (-> & _). }
  destruct (install_members ofs 0 s Hidx Hlen) as [Hrg Hrd].
  cbn [set_opened cgr_row_group_infos cgr_group] in *. rewrite Hrg in Hb.
  destruct (install_spec ofs 0 0 (clear_members s) Hofs Hidx ltac:(lia) ltac:(lia)) as [cs Hin].
  destruct Hin as [Hch Hrs Hes Htot Hgs]. simpl in Hch. rewrite install_group. simpl.
  pose proof (logical_rows_le 0 ofs Hofs) as Hle. rewrite <- Hrs in Hle.
  split; [done|]. split; cbn [set_opened cgr_opened cgr_group cgr_chunk_infos cgr_row_group_infos
    cgr_format_readers cgr_total_rows]; rewrite ?install_group; simpl;
    rewrite ?Hch, ?Hrg, ?Hrd, ?length_fmap; try done.
  - rewrite Hrs. simpl. by rewrite <- Hfiles, zip_entries.
  - eapply Forall_impl; [exact Hgs|]. intros c (k & f & Hk & -> & Hci). exists (of_row_groups f).
    simpl. by rewrite list_lookup_fmap, Hk.
  - lia.
  - intros k f Hf. rewrite <- Hfiles, list_lookup_fmap in Hf.
    destruct (ofs !! k) as [o|] eqn:Ho; simplify_eq/=.
    destruct (open_one_inv _ _ _ _ (Hone k o Ho)) as (_ & _ & Hr & Hg).
    exists (of_reader o), (of_row_groups o). by rewrite !list_lookup_fmap, Ho.
Qed.
End opening.

(** ** Rows to chunks *)

Section row_to_chunk.

(** The number of rows before chunk [k]. *)
Definition first_row (k : nat) (cs : list ChunkInfo) : Z := Z.of_nat (length (rows_of (take k cs))).

(** Chunk [k] holds the logical row [r]. *)
Definition holds_row (cs : list ChunkInfo) (k : Z) (r : Z) : Prop :=
  0 ≤ k < Z.of_nat (length cs) ∧ first_row (Z.to_nat k) cs ≤ r < first_row (S (Z.to_nat k)) cs.

Lemma first_row_cons k c cs :
  0 ≤ number_of_rows c → first_row (S k) (c :: cs) = number_of_rows c + first_row k cs.
Proof.
  intros. unfold first_row. cbn [take]. change (rows_of (c :: take k cs)) with (chunk_rows c ++ rows_of (take k cs)).
  rewrite length_app. pose proof (length_chunk_rows c). lia.
Qed.

Lemma first_row_mono j k cs : (j ≤ k)%nat → first_row j cs ≤ first_row k cs.
Proof.
  intros Hjk. unfold first_row. replace (take k cs) with (take j cs ++ take (k - j) (drop j cs)).
  - rewrite rows_of_app, length_app. lia.
  - rewrite take_take_drop. f_equal. lia.
Qed.

Lemma holds_row_unique cs j k r : holds_row cs j r → holds_row cs k r → j = k.
Proof.
  intros [Hj Hjr] [Hk Hkr]. destruct (Z.lt_trichotomy j k) as [Hlt|[?|Hlt]]; [|done|].
  - pose proof (first_row_mono (S (Z.to_nat j)) (Z.to_nat k) cs). lia.
  - pose proof (first_row_mono (S (Z.to_nat k)) (Z.to_nat j) cs). lia.
Qed.

Lemma upper_bound_spec cs from r :
  Forall (λ c, 0 < number_of_rows c) cs → ends_at from cs → 0 ≤ from ≤ r → r < UINT64_MOD →
  if r <? from + Z.of_nat (length (rows_of cs))
  then (upper_bound r cs < length cs)%nat ∧
       from + first_row (upper_bound r cs) cs ≤ r < from + first_row (S (upper_bound r cs)) cs
  else upper_bound r cs = length cs.
Proof.
  intros Hp. revert from. induction Hp as [|c cs Hc Hcs IH]; intros from He Hr Hw.
  - change (rows_of []) with (@nil (nat * Z)). simpl. case_match eqn:Hc; [|done]. apply Z.ltb_lt in Hc. lia.
  - destruct He as [He Hes]. simpl. rewrite wrap_u64_small by lia. rewrite He in *.
    change (rows_of (c :: cs)) with (chunk_rows c ++ rows_of cs).
    rewrite length_app, Nat2Z.inj_add, length_chunk_rows, Z.add_assoc by lia.
    destruct (Z.ltb_spec r (from + number_of_rows c)) as [Hlt|Hge].
    + destruct (Z.ltb_spec r (from + number_of_rows c + Z.of_nat (length (rows_of cs)))); [|lia].
      split; [lia|]. rewrite first_row_cons by lia. change (first_row 0 (c :: cs)) with 0.
      change (first_row 0 cs) with 0. lia.
    + specialize (IH (from + number_of_rows c) Hes ltac:(lia) Hw). case_match.
      * rewrite !first_row_cons by lia. destruct IH. split; lia.
      * by rewrite IH.
Qed.

Lemma upper_bound_wrap r cs : upper_bound (wrap_u64 r) cs = upper_bound r cs.
Proof.
  induction cs as [|c cs IH]; [done|]. simpl. rewrite IH. unfold wrap_u64. by rewrite Z.mod_mod.
Qed.

(** Negative rows are converted to large ones, which no chunk holds. *)
Lemma upper_bound_row cs r :
  Forall (λ c, 0 < number_of_rows c) cs → ends_at 0 cs →
  Z.of_nat (length (rows_of cs)) ≤ INT64_MAX → INT64_MIN ≤ r ≤ INT64_MAX →
  (0 ≤ r < Z.of_nat (length (rows_of cs)) ∧ (upper_bound r cs < length cs)%nat ∧
   holds_row cs (Z.of_nat (upper_bound r cs)) r) ∨
  ((r < 0 ∨ Z.of_nat (length (rows_of cs)) ≤ r) ∧ upper_bound r cs = length cs).
Proof.
  intros Hp He Hmax Hr. pose proof (upper_bound_spec cs 0 (wrap_u64 r) Hp He) as Hu.
  rewrite upper_bound_wrap in Hu. destruct (wrap_u64_range r) as [Hw0 Hw1].
  specialize (Hu ltac:(lia) Hw1). rewrite !Z.add_0_l in Hu. unfold INT64_MIN, INT64_MAX in *.
  destruct (decide (0 ≤ r)).
  - rewrite wrap_u64_small in Hu by (unfold UINT64_MOD; lia).
    destruct (Z.ltb_spec r (Z.of_nat (length (rows_of cs)))); [left|right; split; [lia|done]].
    destruct Hu. split_and!; [lia|done|done|]. split; [lia|]. by rewrite Nat2Z.id.
  - replace (wrap_u64 r) with (r + UINT64_MOD) in Hu.
    + right. split; [lia|]. destruct (Z.ltb_spec (r + UINT64_MOD) (Z.of_nat (length (rows_of cs)))); [|done].
      unfold UINT64_MOD in *. lia.
    + unfold wrap_u64. rewrite <- (Z.mod_small (r + UINT64_MOD) UINT64_MOD) by (unfold UINT64_MOD; lia).
      rewrite <- Zplus_mod_idemp_r, Z.mod_same, Z.add_0_r by (unfold UINT64_MOD; lia). done.
Qed.

Lemma chunk_indices_from_spec cs rows seen :
  Forall (λ c, 0 < number_of_rows c) cs → ends_at 0 cs →
  Z.of_nat (length (rows_of cs)) ≤ INT64_MAX → Forall (λ r, INT64_MIN ≤ r ≤ INT64_MAX) rows →
  NoDup seen →
  match chunk_indices_from cs rows seen with
  | Ok ks => NoDup ks ∧ Forall (λ r, 0 ≤ r < Z.of_nat (length (rows_of cs))) rows ∧
      ∀ k, k ∈ ks ↔ k ∈ seen ∨ ∃ r, r ∈ rows ∧ holds_row cs k r
  | Err e => e = status_Invalid ∧ Exists (λ r, r < 0 ∨ Z.of_nat (length (rows_of cs)) ≤ r) rows
  | Ub => False
  end.
Proof.
  intros Hp He Hmax Hrows. revert seen. induction Hrows as [|r rows Hr Hrows IH]; intros seen Hs; simpl.
  - split_and!; [done|constructor|]. set_solver.
  - destruct (upper_bound_row cs r Hp He Hmax Hr) as [(Hin & Hlt & Hh)|[Hout ->]].
    2:{ rewrite Nat.leb_refl. split; [done|]. by left. }
    rewrite (proj2 (Nat.leb_gt _ _) Hlt).
    assert (∀ k, holds_row cs k r ↔ k = Z.of_nat (upper_bound r cs)) as Hiff.
    { intros k. split; [intros Hk; by apply (holds_row_unique cs k _ r)|by intros ->]. }
    case_bool_decide as Hseen.
    + specialize (IH seen Hs). destruct (chunk_indices_from cs rows seen) as [ks| |]; [|naive_solver..].
      destruct IH as (Hnd & Hall & Hks). split_and!; [done|by constructor|].
      intros k. rewrite Hks. set_solver.
    + specialize (IH (seen ++ [Z.of_nat (upper_bound r cs)])).
      assert (NoDup (seen ++ [Z.of_nat (upper_bound r cs)])) as Hs'.
      { apply NoDup_app. split_and!; [done|set_solver|apply NoDup_singleton]. }
      specialize (IH Hs'). destruct (chunk_indices_from cs rows _) as [ks| |]; [|naive_solver..].
      destruct IH as (Hnd & Hall & Hks). split_and!; [done|by constructor|].
      intros k. rewrite Hks. set_solver.
Qed.

Context `{FormatReaders}.

(** The chunks of rows.  On an opened reader, [get_chunk_indices] returns
    every chunk that holds one of the requested rows, no other and none twice;
    it fails exactly when a requested row is negative or past the last row. *)
Theorem chunk_indices_of_rows s row_indices :
  opened_reader s → cgr_total_rows s ≤ INT64_MAX →
  Forall (λ r, INT64_MIN ≤ r ≤ INT64_MAX) row_indices →
  match get_chunk_indices s row_indices with
  | Ok ks => Forall (λ r, 0 ≤ r < cgr_total_rows s) row_indices ∧ NoDup ks ∧
      ∀ k, k ∈ ks ↔ ∃ r, r ∈ row_indices ∧ holds_row (cgr_chunk_infos s) k r
  | Err e => e = status_Invalid ∧ Exists (λ r, r < 0 ∨ cgr_total_rows s ≤ r) row_indices
  | Ub => False
  end.
Proof.
  intros Ho Hmax Hrows. unfold get_chunk_indices. rewrite (or_total s Ho) in *.
  assert (Forall (λ c, 0 < number_of_rows c) (cgr_chunk_infos s)) as Hp.
  { eapply Forall_impl; [exact (or_in s Ho)|]. intros c (rgs & _ & Hc). by eapply chunk_in_pos. }
  pose proof (chunk_indices_from_spec _ row_indices [] Hp (or_ends s Ho) Hmax Hrows (NoDup_nil_2)) as Hs.
  destruct (chunk_indices_from _ _ _) as [ks| |]; [|done..]. destruct Hs as (Hnd & Hall & Hks).
  split_and!; [done|done|]. intros k. rewrite Hks. set_solver.
Qed.
End row_to_chunk.
