(* ===== verification/ColumnGroupChunks.v ===== *)
(** * Reading many chunks is reading each of them

    [get_chunks] of [format/column_group_reader.cpp] sorts the requested chunks,
    splits them into tasks, combines adjacent chunks into ranges and cuts what
    the format readers return back into chunks.  The file states what it relies
    on ([FormatReaderLaws]) and shows that every returned batch holds the rows
    of its chunk, the same that [get_chunk] returns. *)

From S2P Require Import Prelude CppString Status ColumnGroups ArrowData ColumnGroupReader ColumnGroupReaderCorrect.

(** ** Order *)

Section order.

(** [StronglySorted] as a statement about every pair of positions. *)
Lemma StronglySorted_filter {A} (R : relation A) (P : A → Prop) `{∀ x, Decision (P x)} l :
  StronglySorted R l → StronglySorted R (filter P l).
Proof.
  induction 1 as [|x l Hl IH Hx]; [by rewrite filter_nil; constructor|].
  rewrite filter_cons. case_decide; [|done]. constructor; [done|].
  apply Forall_forall. intros y [_ Hy]%list_elem_of_filter. by eapply Forall_forall in Hx.
Qed.

Lemma Forall_join_inv {A} (P : A → Prop) (ls : list (list A)) : Forall P (mjoin ls) → Forall (Forall P) ls.
Proof.
  induction ls as [|l ls IH]; intros Hs; [constructor|]. apply Forall_app in Hs as [? ?]. constructor; auto.
Qed.

Lemma StronglySorted_join_inv {A} (R : relation A) (ls : list (list A)) :
  StronglySorted R (mjoin ls) → Forall (StronglySorted R) ls.
Proof.
  induction ls as [|l ls IH]; intros Hs; [constructor|]. simpl in Hs.
  apply StronglySorted_app in Hs as (_ & Hl & Hls). constructor; auto.
Qed.

Lemma StronglySorted_pairs {A} (R : relation A) l i j x y :
  StronglySorted R l → l !! i = Some x → l !! j = Some y → (i < j)%nat → R x y.
Proof.
  intros Hl. revert i j. induction Hl as [|z l Hl IH Hz]; intros i j Hi Hj Hij; [done|].
  destruct j as [|j]; [lia|]. destruct i as [|i]; simplify_eq/=.
  - eapply Forall_lookup in Hz; eauto.
  - apply (IH i j); [done|done|lia].
Qed.

(** [std::sort] with [std::unique]. *)
Lemma elem_of_sort_unique k l : k ∈ sort_unique l ↔ k ∈ l.
Proof. unfold sort_unique. by rewrite elem_of_remove_dups, merge_sort_Permutation. Qed.

Lemma remove_dups_sorted (l : list Z) : StronglySorted Z.le l → StronglySorted Z.lt (remove_dups l).
Proof.
  induction 1 as [|x l Hl IH Hx]; [constructor|]. simpl. case_decide as Hin; [done|].
  constructor; [done|]. apply Forall_forall. intros y Hy. rewrite elem_of_remove_dups in Hy.
  eapply Forall_forall in Hx; [|done]. assert (x ≠ y) by by intros ->. lia.
Qed.

Lemma length_sort_unique l : (length (sort_unique l) ≤ length l)%nat.
Proof.
  unfold sort_unique. rewrite <- (merge_sort_Permutation Z.le l) at 2.
  induction (merge_sort Z.le l) as [|x l' IH]; [done|]. simpl. case_decide; simpl; lia.
Qed.

Lemma sort_unique_sorted l : StronglySorted Z.lt (sort_unique l).
Proof.
  apply remove_dups_sorted, StronglySorted_merge_sort; [intros ????; lia|intros ??; lia].
Qed.

(** ** Splitting into tasks *)

Lemma seqZ_snoc a n : 0 ≤ n → seqZ a (n + 1) = seqZ a n ++ [a + n].
Proof. intros. rewrite (seqZ_app a n 1) by lia. by rewrite (seqZ_cons (a + n) 1) by lia. Qed.

Lemma continuous_blocks_spec max start count l :
  0 < count ≤ max →
  mjoin (continuous_blocks max start count l) = seqZ start count ++ l ∧
  Forall (λ b, ∃ a n, b = seqZ a n ∧ 0 < n ≤ max) (continuous_blocks max start count l).
Proof.
  revert start count. induction l as [|k l IH]; intros start count Hc; simpl.
  - destruct (Z.ltb_spec 0 count); [|lia]. split; [done|]. repeat constructor. by exists start, count.
  - destruct ((k =? start + count) && (count <? max)) eqn:Hk.
    + apply andb_true_iff in Hk as [->%Z.eqb_eq Hlt%Z.ltb_lt].
      destruct (IH start (count + 1) ltac:(lia)) as [-> Hall]. split; [|done].
      rewrite seqZ_snoc by lia. by rewrite <- app_assoc.
    + destruct (IH k 1 ltac:(lia)) as [Hj Hall]. split.
      * simpl. by rewrite Hj, seqZ_cons by lia.
      * constructor; [by exists start, count|done].
Qed.

(** The tasks keep every chunk, in order; each is a run of adjacent chunks. *)
Lemma split_chunks_spec l degree :
  0 ≤ degree → l ≠ [] → Z.of_nat (length l) < UINT64_MOD →
  ∃ blocks, split_chunks l degree = Ok blocks ∧ mjoin blocks = l ∧
    Forall (λ b, ∃ a n, b = seqZ a n ∧ 0 < n) blocks ∧
    (degree < Z.of_nat (length l) → 0 < degree →
     Forall (λ b, Z.of_nat (length b) ≤ (Z.of_nat (length l) + degree - 1) / degree) blocks).
Proof.
  intros Hd Hne Hlen. destruct l as [|k l]; [done|]. unfold split_chunks.
  set (n := Z.of_nat (length (k :: l))) in *. assert (0 < n) as Hn by (unfold n; simpl; lia).
  set (d := if Z.min degree n =? 0 then 1 else Z.min degree n).
  assert (0 < d ≤ n ∧ (0 < degree → d = Z.min degree n)) as [Hdn Hdd].
  { unfold d. destruct (Z.eqb_spec (Z.min degree n) 0); lia. }
  set (mx := if n <=? d then UINT64_MOD - 1 else (n + d - 1) / d).
  assert (1 ≤ mx) as Hmx.
  { unfold mx. destruct (Z.leb_spec n d); [done|]. apply Z.div_le_lower_bound; lia. }
  destruct (continuous_blocks_spec mx k 1 l ltac:(lia)) as [Hj Hall].
  exists (continuous_blocks mx k 1 l). split_and!.
  - unfold mx. by destruct (n <=? d).
  - rewrite Hj. by rewrite seqZ_cons by lia.
  - eapply Forall_impl; [exact Hall|]. intros b (a & c & -> & ?). exists a, c. split; [done|lia].
  - intros Hlt Hpos. assert (mx = (n + degree - 1) / degree) as <-.
    { unfold mx. rewrite Hdd, Z.min_l by lia. by destruct (Z.leb_spec n degree); [lia|]. }
    eapply Forall_impl; [exact Hall|]. intros b (a & c & -> & ?). rewrite length_seqZ. lia.
Qed.
End order.

(** ** The order of the chunks of an opened reader *)

Section chunk_order.

(** Rows in the order of the files. *)
Definition row_before (x y : nat * Z) : Prop := (x.1 < y.1)%nat ∨ x.1 = y.1 ∧ x.2 < y.2.

Lemma seg_sorted a b : StronglySorted Z.lt (seg a b).
Proof.
  unfold seg. remember (Z.to_nat (b - a)) as n eqn:Hn. revert a Hn.
  induction n as [|n IH]; intros a Hn; [rewrite seqZ_nil by lia; constructor|].
  rewrite seqZ_cons by lia. constructor.
  - replace (Z.pred (b - a)) with (b - Z.succ a) by lia. apply IH. lia.
  - apply Forall_forall. intros x Hx%elem_of_seqZ. lia.
Qed.

Lemma logical_rows_sorted i l :
  StronglySorted row_before (logical_rows i l) ∧ Forall (λ x, (i ≤ x.1)%nat) (logical_rows i l).
Proof.
  revert i. induction l as [|e l IH]; intros i; [by repeat constructor|].
  rewrite logical_rows_cons. destruct (IH (S i)) as [Hs Hge]. split.
  - apply StronglySorted_app_2; [| |done].
    + intros x y (r & -> & _)%list_elem_of_fmap Hy. eapply Forall_forall in Hge; [|done].
      left. simpl in *. lia.
    + unfold file_rows. eapply (StronglySorted_fmap _ Z.lt); [|apply seg_sorted].
      intros x y Hxy. by right.
  - apply Forall_app. split; [|eapply Forall_impl; [exact Hge|]; simpl; lia].
    apply Forall_forall. intros x (r & -> & _)%list_elem_of_fmap. simpl. lia.
Qed.

(** Chunks of one file do not overlap and follow each other. *)
Definition chunk_before (c d : ChunkInfo) : Prop :=
  file_index c = file_index d → row_offset_in_file c + number_of_rows c ≤ row_offset_in_file d.

Lemma elem_of_chunk_rows c x :
  x ∈ chunk_rows c ↔
  x.1 = file_index c ∧ row_offset_in_file c ≤ x.2 < row_offset_in_file c + number_of_rows c.
Proof.
  unfold chunk_rows. rewrite list_elem_of_fmap. split.
  - intros (r & -> & Hr). by rewrite elem_of_seg in Hr.
  - intros [Hf Hr]. exists x.2. destruct x. simpl in *. subst. by rewrite elem_of_seg.
Qed.

Lemma chunks_sorted cs :
  Forall (λ c, 0 < number_of_rows c) cs → StronglySorted row_before (rows_of cs) →
  StronglySorted chunk_before cs.
Proof.
  induction 1 as [|c cs Hc Hcs IH]; intros Hs; [constructor|].
  change (rows_of (c :: cs)) with (chunk_rows c ++ rows_of cs) in Hs.
  apply StronglySorted_app in Hs as (Hb & _ & Hs). constructor; [by apply IH|].
  apply Forall_forall. intros d Hd Hf.
  assert (0 < number_of_rows d) as Hpd by (by eapply Forall_forall in Hcs).
  specialize (Hb (file_index c, row_offset_in_file c + number_of_rows c - 1)
    (file_index d, row_offset_in_file d)).
  destruct Hb as [Hb|[_ Hb]]; simpl in *; [| |lia|lia].
  - apply elem_of_chunk_rows. simpl. lia.
  - apply list_elem_of_join. exists (chunk_rows d). split; [apply elem_of_chunk_rows; simpl; lia|].
    by apply list_elem_of_fmap_2.
Qed.
End chunk_order.

(** ** Format readers *)

Definition slice_of {A} (a b : Z) (l : list A) : list A :=
  take (Z.to_nat (b - a)) (drop (Z.to_nat a) l).

(** The batches [bs] are the rows [a..b) of a file, not split in the middle of
    a row group. *)
Definition range_batches `{BatchLaws} (rgs : list RowGroupInfo) (data : list row) (a b : Z)
    (bs : list RecordBatch) : Prop :=
  mjoin (rows <$> bs) = slice_of a b data ∧ Forall (λ x, 0 < num_rows x) bs ∧
  ∀ k, (0 < k < length bs)%nat →
    ∃ rg, rg ∈ rgs ∧ start_offset rg = a + Z.of_nat (length (mjoin (rows <$> take k bs))).

(** What a format reader promises: its row groups tile its rows, a chunk is a
    row group, and a range comes in batches that are not split in the middle of
    a row group.  Reading may fail. *)
Class FormatReaderLaws `{RB : RecordBatches} `{BL : !BatchLaws} `{FR : !FormatReaders} := {
  file_data : FormatReader → list row;
  file_data_bound r : Z.of_nat (length (file_data r)) < UINT64_MOD;
  create_reader_defined group f : create_reader group f ≠ Ub;
  row_groups_tile r rgs : get_row_group_infos r = Ok rgs →
    tiled 0 rgs ∧ tile_end 0 rgs = Z.of_nat (length (file_data r));
  get_chunk_rows_law r rgs i rg b : get_row_group_infos r = Ok rgs → rgs !! i = Some rg →
    fr_get_chunk r i = Ok b → rows b = slice_of (start_offset rg) (end_offset rg) (file_data r);
  get_chunk_defined r i : fr_get_chunk r i ≠ Ub;
  read_with_range_defined r a b : 0 ≤ a < b → read_with_range r a b ≠ Ub;
  read_with_range_rows r rgs a b bs : get_row_group_infos r = Ok rgs →
    0 ≤ a < b → b ≤ tile_end 0 rgs → read_with_range r a b = Ok bs →
    range_batches rgs (file_data r) a b bs;
}.

Section slicing.
Context `{FormatReaderLaws}.

Lemma length_slice_of {A} a b (l : list A) :
  0 ≤ a ≤ b → b ≤ Z.of_nat (length l) → Z.of_nat (length (slice_of a b l)) = b - a.
Proof. intros. unfold slice_of. rewrite length_take, length_drop. lia. Qed.

Lemma slice_of_slice_of {A} a b o n (l : list A) :
  0 ≤ a ≤ b → 0 ≤ o → 0 ≤ n → o + n ≤ b - a →
  take (Z.to_nat n) (drop (Z.to_nat o) (slice_of a b l)) = slice_of (a + o) (a + o + n) l.
Proof.
  intros. unfold slice_of. rewrite skipn_firstn_comm, take_take, drop_drop.
  f_equal; [lia|f_equal; lia].
Qed.

(** Batches with the row of the file they start at; they follow each other
    from [a] to [b], and inner boundaries are boundaries of row groups. *)
Fixpoint placed (rgs : list RowGroupInfo) (data : list row) (a b : Z) (bs : list RecordBatch) : Prop :=
  match bs with
  | [] => a = b
  | x :: bs' =>
      0 < num_rows x ∧ rows x = slice_of a (a + num_rows x) data ∧ a + num_rows x ≤ b ∧
      (a + num_rows x = b ∨ ∃ rg, rg ∈ rgs ∧ start_offset rg = a + num_rows x) ∧
      placed rgs data (a + num_rows x) b bs'
  end.

Lemma placed_intro rgs data a b bs :
  0 ≤ a ≤ b → b ≤ Z.of_nat (length data) → mjoin (rows <$> bs) = slice_of a b data →
  Forall (λ x, 0 < num_rows x) bs →
  (∀ k, (0 < k < length bs)%nat →
     ∃ rg, rg ∈ rgs ∧ start_offset rg = a + Z.of_nat (length (mjoin (rows <$> take k bs)))) →
  placed rgs data a b bs.
Proof.
  intros Ha Hb Hj Hp. revert a Ha Hj. induction Hp as [|x bs Hx Hbs IH]; intros a Ha Hj Hcut.
  - simpl. apply (f_equal (λ l, Z.of_nat (length l))) in Hj. rewrite length_slice_of in Hj by lia.
    simpl in Hj. lia.
  - rewrite fmap_cons in Hj. simpl in Hj. pose proof (rows_num x) as Hnum.
    assert (a + num_rows x ≤ b) as Hle.
    { apply (f_equal (λ l, Z.of_nat (length l))) in Hj.
      rewrite length_slice_of, length_app in Hj by lia. lia. }
    assert (rows x = slice_of a (a + num_rows x) data) as Hrx.
    { apply (f_equal (take (length (rows x)))) in Hj. rewrite take_app_length in Hj. rewrite Hj.
      unfold slice_of. rewrite take_take. f_equal. lia. }
    split_and!; try done.
    + destruct bs as [|y bs]; [left|right].
      * apply (f_equal (λ l, Z.of_nat (length l))) in Hj. simpl in Hj.
        rewrite app_nil_r, length_slice_of in Hj by lia. lia.
      * destruct (Hcut 1%nat) as (rg & Hrg & Hs); [simpl; lia|]. exists rg. split; [done|].
        rewrite Hs. simpl. rewrite app_nil_r. lia.
    + apply IH; [lia| |].
      * apply (f_equal (drop (length (rows x)))) in Hj. rewrite drop_app_length in Hj. rewrite Hj.
        unfold slice_of. rewrite skipn_firstn_comm, drop_drop. f_equal; [lia|f_equal; lia].
      * intros k Hk. destruct (Hcut (S k)) as (rg & Hrg & Hs); [simpl; lia|]. exists rg.
        split; [done|]. rewrite Hs. cbn [take]. rewrite fmap_cons. simpl. rewrite length_app. lia.
Qed.

(** The chunks [cs] follow each other from row [a] to row [b] of their file. *)
Fixpoint run (a b : Z) (cs : list ChunkInfo) : Prop :=
  match cs with
  | [] => a = b
  | c :: cs' => row_offset_in_file c = a ∧ run (a + number_of_rows c) b cs'
  end.

(** Slicing the chunks off the batches, from offset [o] of the first one. *)
Fixpoint feeds (data : list row) (bs : list RecordBatch) (o : Z) (cs : list ChunkInfo) : Prop :=
  match cs with
  | [] => True
  | c :: cs' =>
      ∃ x bs', bs = x :: bs' ∧ 0 ≤ o ∧ o + number_of_rows c ≤ num_rows x ∧
        (∃ a0, rows x = slice_of a0 (a0 + num_rows x) data ∧ row_offset_in_file c = a0 + o ∧ 0 ≤ a0 ∧
           a0 + num_rows x ≤ Z.of_nat (length data)) ∧
        if o + number_of_rows c =? num_rows x then feeds data bs' 0 cs'
        else feeds data bs (o + number_of_rows c) cs'
  end.

Lemma tiled_start_inside from rgs rg rg' :
  tiled from rgs → rg ∈ rgs → rg' ∈ rgs →
  start_offset rg' ≤ start_offset rg ∨ end_offset rg ≤ start_offset rg'.
Proof.
  assert (∀ l from g, tiled from l → g ∈ l → from ≤ start_offset g ≤ end_offset g) as Hge.
  { intros l. induction l as [|h l IH]; intros f g Ht Hg; [by apply not_elem_of_nil in Hg|].
    destruct Ht as (Hs & Hle & Ht). apply elem_of_cons in Hg as [->|Hg]; [lia|].
    specialize (IH _ g Ht Hg). lia. }
  revert from. induction rgs as [|h rgs IH]; intros from Ht Hrg Hrg'; [by apply not_elem_of_nil in Hrg|].
  destruct Ht as (Hs & Hle & Ht).
  apply elem_of_cons in Hrg as [->|Hrg]; apply elem_of_cons in Hrg' as [->|Hrg'].
  - lia.
  - specialize (Hge _ _ _ Ht Hrg'). lia.
  - specialize (Hge _ _ _ Ht Hrg). lia.
  - by eapply IH.
Qed.

Lemma run_le rgs a b cs : Forall (chunk_in rgs) cs → run a b cs → a ≤ b.
Proof.
  intros Hcs. revert a. induction Hcs as [|c cs Hc Hcs IH]; simpl; [lia|].
  intros a [Ha Hr]. specialize (IH _ Hr). apply chunk_in_pos in Hc. lia.
Qed.

(** A run of chunks that are parts of row groups is fed by the batches of its
    range. *)
Lemma run_fed rgs data a e b x bs o cs bs2 cs2 :
  tiled 0 rgs → Forall (chunk_in rgs) cs → 0 ≤ a → b ≤ Z.of_nat (length data) →
  placed rgs data a b (x :: bs) → 0 ≤ o < num_rows x → e = a + o → run e b cs → cs ≠ [] →
  feeds data bs2 0 cs2 → feeds data (x :: bs ++ bs2) o (cs ++ cs2).
Proof.
  intros Ht Hcs Ha Hb Hp Ho He Hr Hne Hf2. revert a e x bs o Ha Hp Ho He Hr.
  induction Hcs as [|c cs Hc Hcs IH]; intros a e x bs o Ha Hp Ho He Hr; [done|]. clear Hne.
  destruct Hr as [Hoff Hr]. destruct Hc as (rg & Hrg & Hpos & Hro & Hstart & Hend).
  destruct Hp as (Hx & Hrows & Hle & Hcut & Hp).
  assert (e + number_of_rows c ≤ b) as Hcb.
  { by eapply run_le. }
  assert (o + number_of_rows c ≤ num_rows x) as Hin.
  { destruct Hcut as [?|(rg' & Hrg' & Hs')]; [lia|].
    destruct (tiled_start_inside 0 rgs rg rg' Ht); [by eapply list_elem_of_lookup_2|done|lia..]. }
  cbn [app feeds]. exists x, (bs ++ bs2). split_and!; [done|lia|done|..].
  { exists a. split_and!; [done|lia|done|lia]. }
  destruct (Z.eqb_spec (o + number_of_rows c) (num_rows x)) as [Heq|Hneq].
  - destruct cs as [|d cs].
    + simpl in Hr. destruct bs as [|y bs]; [done|]. destruct Hp as (Hy & _ & Hyb & _). lia.
    + destruct bs as [|y bs].
      * simpl in Hp. destruct Hr as [Hd Hr]. exfalso.
        apply Forall_cons in Hcs as [Hdin Hcs]. apply chunk_in_pos in Hdin.
        pose proof (run_le _ _ _ _ Hcs Hr). lia.
      * apply (IH ltac:(done) (a + num_rows x) (e + number_of_rows c) y bs 0); [lia|done| |lia|done].
        destruct Hp as (? & _). lia.
  - destruct cs as [|d cs]; [simpl in Hr; lia|].
    apply (IH ltac:(done) a (e + number_of_rows c) x bs); [done|done|lia|lia|done].
Qed.

(** The batches of a range feed the run of chunks that makes it up, and then
    whatever follows. *)
Lemma range_fed rgs data a b bs cs bs2 cs2 :
  tiled 0 rgs → 0 ≤ a < b → b ≤ Z.of_nat (length data) → range_batches rgs data a b bs →
  run a b cs → cs ≠ [] → Forall (chunk_in rgs) cs → feeds data bs2 0 cs2 →
  feeds data (bs ++ bs2) 0 (cs ++ cs2).
Proof.
  intros Ht Hab Hb (Hj & Hp & Hcut) Hrun Hne Hin Hf2.
  assert (placed rgs data a b bs) as Hpl by (apply placed_intro; done || lia).
  destruct bs as [|x bs]; [simpl in Hpl; lia|].
  eapply (run_fed rgs data a a b x bs 0); try done; try lia. destruct Hpl as [? _]. lia.
Qed.

Lemma run_range rgs a b cs :
  Forall (λ c, chunk_in rgs c ∧ 0 ≤ row_offset_in_file c ∧
            row_offset_in_file c + number_of_rows c ≤ tile_end 0 rgs) cs →
  run a b cs → cs ≠ [] → 0 ≤ a < b ∧ b ≤ tile_end 0 rgs.
Proof.
  intros Hcs Hrun Hne. revert a Hrun. induction Hcs as [|c cs (Hc & Ho & Hend) Hcs IH]; [done|].
  intros a [Ha Hr]. apply chunk_in_pos in Hc. destruct cs as [|d cs]; [simpl in Hr; lia|].
  specialize (IH ltac:(done) _ Hr). lia.
Qed.

(** Ranges are the maximal runs of the chunks. *)
Lemma combine_ranges_runs lo hi cs done :
  run lo hi done → done ≠ [] → Forall (λ c, 0 ≤ row_offset_in_file c ∧ 0 < number_of_rows c ∧
    row_offset_in_file c + number_of_rows c < UINT64_MOD) cs →
  ∃ runs, done ++ cs = mjoin runs ∧
    Forall2 (λ rg cs, run rg.1 rg.2 cs ∧ cs ≠ []) (combine_ranges (lo, hi) cs) runs.
Proof.
  intros Hr Hne Hcs. revert lo hi done Hr Hne.
  induction Hcs as [|c cs (Ho & Hp & Hb) Hcs IH]; intros lo hi done Hr Hne.
  - exists [done]. split; [simpl; by rewrite !app_nil_r|]. by constructor.
  - assert (chunk_range c = (row_offset_in_file c, row_offset_in_file c + number_of_rows c)) as Hcr
      by (unfold chunk_range; by rewrite u64_add_small by lia).
    cbn [combine_ranges fst snd]. rewrite Hcr. cbn [fst snd].
    destruct (Z.eqb_spec (row_offset_in_file c) hi) as [Heq|_].
    + destruct (IH lo (row_offset_in_file c + number_of_rows c) (done ++ [c])) as (runs & Hj & Hf).
      * clear -Hr Heq. revert lo Hr. induction done as [|d done IH]; intros lo Hr; simpl in *.
        -- subst. split; lia.
        -- destruct Hr as [? Hr]. split; [done|]. by apply IH.
      * by destruct done.
      * exists runs. split; [|done]. by rewrite <- Hj, <- app_assoc.
    + destruct (IH (row_offset_in_file c) (row_offset_in_file c + number_of_rows c) [c])
        as (runs & Hj & Hf); [by split|done|].
      exists (done :: runs). split; [by simpl; rewrite <- Hj|]. by constructor.
Qed.

Definition chunk_fits (c : ChunkInfo) : Prop :=
  0 ≤ row_offset_in_file c ∧ 0 < number_of_rows c ∧
  row_offset_in_file c + number_of_rows c < UINT64_MOD.

Lemma ranges_in_file_runs cs :
  Forall chunk_fits cs →
  ∃ runs, cs = mjoin runs ∧ Forall2 (λ rg cs, run rg.1 rg.2 cs ∧ cs ≠ []) (ranges_in_file cs) runs.
Proof.
  destruct 1 as [|c cs (Ho & Hp & Hb) Hcs]; [by exists []|]. unfold ranges_in_file, chunk_range.
  rewrite u64_add_small by lia.
  destruct (combine_ranges_runs (row_offset_in_file c) (row_offset_in_file c + number_of_rows c) cs [c])
    as (runs & Hj & Hf); [by split|done|done|]. by exists runs.
Qed.

(** An error of [get_chunks] that a format reader returned. *)
Definition reader_failed (e : Status) : Prop :=
  (∃ group f, create_reader group f = Err e) ∨ (∃ r a b, read_with_range r a b = Err e).

Definition chunk_in_file (rgs : list RowGroupInfo) (c : ChunkInfo) : Prop :=
  chunk_in rgs c ∧ 0 ≤ row_offset_in_file c ∧ row_offset_in_file c + number_of_rows c ≤ tile_end 0 rgs.

Lemma read_ranges_fed r rgs ranges runs acc :
  get_row_group_infos r = Ok rgs →
  Forall2 (λ rg cs, run rg.1 rg.2 cs ∧ cs ≠ []) ranges runs →
  Forall (Forall (chunk_in_file rgs)) runs →
  match fold_out (λ acc range, rbs ← read_with_range r range.1 range.2; Ok (acc ++ rbs)) ranges acc with
  | Ok bs => ∃ bs', bs = acc ++ bs' ∧ feeds (file_data r) bs' 0 (mjoin runs)
  | Err e => reader_failed e
  | Ub => False
  end.
Proof.
  intros Hrgs Hf. destruct (row_groups_tile r rgs Hrgs) as [Ht Hte]. revert acc.
  induction Hf as [|[a b] cs ranges runs [Hrun Hne] Hf IH]; intros acc Hall; simpl.
  - exists []. by rewrite app_nil_r.
  - apply Forall_cons in Hall as [Hcs Hall]. simpl in Hrun.
    assert (Forall (chunk_in rgs) cs) as Hin by (eapply Forall_impl; [exact Hcs|]; by intros c [? _]).
    destruct (run_range rgs a b cs Hcs Hrun Hne) as [Hab Hb].
    unfold mbind, outcome_bind. destruct (read_with_range r a b) as [bs|e|] eqn:Hread.
    + specialize (IH (acc ++ bs) Hall).
      destruct (fold_out _ ranges (acc ++ bs)) as [all| |]; [|done..].
      destruct IH as (bs' & -> & Hfeed). exists (bs ++ bs'). split; [by rewrite app_assoc|].
      apply (range_fed rgs (file_data r) a b); try done; [lia|].
      by eapply read_with_range_rows.
    + right. by exists r, a, b.
    + by eapply read_with_range_defined.
Qed.
End slicing.

(** ** Reading the chunks of a task *)

Section tasks.
Context `{FormatReaderLaws}.
Context (s : ColumnGroupReader) (Hopened : opened_reader s).

(** The batch holds the rows of chunk [k]. *)
Definition holds_chunk (k : Z) (b : RecordBatch) : Prop :=
  ∃ c r, chunk_at s k = Ok c ∧ open_reader_for_file (cgr_group s) (file_index c) = Ok r ∧
    rows b = slice_of (row_offset_in_file c) (row_offset_in_file c + number_of_rows c) (file_data r).

(** The map holds the batches of exactly the chunks [ks]. *)
Definition reads (m : gmap Z RecordBatch) (ks : list Z) : Prop :=
  ∀ k, match m !! k with Some b => k ∈ ks ∧ holds_chunk k b | None => k ∉ ks end.

Lemma reads_empty : reads ∅ [].
Proof. intros k. rewrite lookup_empty. apply not_elem_of_nil. Qed.

Lemma reads_insert m ks k b : holds_chunk k b → reads m ks → reads (<[k := b]> m) (k :: ks).
Proof.
  intros Hb Hm j. destruct (decide (j = k)) as [->|Hne].
  - rewrite lookup_insert_eq. split; [by left|done].
  - rewrite lookup_insert_ne by done. specialize (Hm j). destruct (m !! j); set_solver.
Qed.

Lemma reads_union m1 m2 ks1 ks2 : reads m1 ks1 → reads m2 ks2 → reads (m1 ∪ m2) (ks1 ++ ks2).
Proof.
  intros H1 H2 k. specialize (H1 k). specialize (H2 k). rewrite lookup_union.
  destruct (m1 !! k), (m2 !! k); simpl; set_solver.
Qed.

Lemma reads_ext m ks ks' : (∀ k, k ∈ ks ↔ k ∈ ks') → reads m ks → reads m ks'.
Proof. intros Hk Hm k. specialize (Hm k). destruct (m !! k); naive_solver. Qed.

Definition in_file (i : nat) (e : Z * ChunkInfo) : Prop := chunk_at s e.1 = Ok e.2 ∧ file_index e.2 = i.

Lemma slice_chunks_reads i r rbs o l m ks :
  open_reader_for_file (cgr_group s) i = Ok r → Forall (in_file i) l →
  Forall (λ e, 0 < number_of_rows e.2) l →
  feeds (file_data r) rbs o l.*2 → reads m ks →
  ∃ m', slice_chunks rbs o l m = Ok m' ∧ reads m' (l.*1 ++ ks).
Proof.
  intros Hr Hl. revert rbs o m ks. induction Hl as [|[k c] l [Hk Hi] Hl IH]; intros rbs o m ks Hpos Hf Hm.
  - by exists m.
  - apply Forall_cons in Hpos as [Hc Hpos]. simpl in Hk, Hi, Hc.
    destruct Hf as (x & bs & -> & Ho & Hle & (a & Hx & Hoff & Ha & Hlen) & Hf).
    pose proof (file_data_bound r) as Hb. cbn [fst snd] in *. simpl. rewrite u64_sub_small by lia.
    destruct (Z.ltb_spec (num_rows x - o) (number_of_rows c)); [lia|].
    rewrite u64_add_small by lia.
    assert (holds_chunk k (batch_Slice x o (number_of_rows c))) as Hh.
    { exists c, r. split_and!; [done|by rewrite Hi|]. rewrite slice_rows by lia.
      rewrite Hx, Hoff. by rewrite slice_of_slice_of by lia. }
    assert (∀ m', reads m' (l.*1 ++ k :: ks) → reads m' (k :: l.*1 ++ ks)) as Hperm.
    { intros m'. apply reads_ext. set_solver. }
    destruct (Z.eqb_spec (o + number_of_rows c) (num_rows x)) as [Heq|Hneq];
      [destruct (IH bs 0 _ (k :: ks) Hpos Hf (reads_insert m ks k _ Hh Hm)) as (m' & Hs & Hm')
      |destruct (IH (x :: bs) _ _ (k :: ks) Hpos Hf (reads_insert m ks k _ Hh Hm)) as (m' & Hs & Hm')];
      exists m'; auto.
Qed.

Lemma chunk_at_spec k :
  match chunk_at s k with
  | Ok c => 0 ≤ k < Z.of_nat (length (cgr_chunk_infos s)) ∧ cgr_chunk_infos s !! Z.to_nat k = Some c
  | Err e => e = status_Invalid ∧ (k < 0 ∨ Z.of_nat (length (cgr_chunk_infos s)) ≤ k)
  | Ub => False
  end.
Proof.
  unfold chunk_at. destruct (Z.ltb_spec k 0); simpl; [by auto|].
  destruct (Z.leb_spec (Z.of_nat (length (cgr_chunk_infos s))) k); simpl; [by auto|].
  destruct (cgr_chunk_infos s !! Z.to_nat k) as [c|] eqn:Hc; simpl; [by auto|].
  apply lookup_ge_None in Hc. lia.
Qed.

Lemma row_group_within z rgs j rg :
  tiled z rgs → rgs !! j = Some rg → z ≤ start_offset rg ≤ end_offset rg ∧ end_offset rg ≤ tile_end z rgs.
Proof.
  revert z j. induction rgs as [|g rgs IH]; intros z j Ht Hj; [done|]. destruct Ht as (Hs & Hle & Ht).
  pose proof (tile_end_le _ _ Ht). destruct j as [|j]; simplify_eq/=; [lia|].
  specialize (IH _ j Ht Hj). lia.
Qed.

Lemma chunk_file k c :
  chunk_at s k = Ok c →
  ∃ f r rgs, files (cgr_group s) !! file_index c = Some f ∧
    open_reader_for_file (cgr_group s) (file_index c) = Ok r ∧ get_row_group_infos r = Ok rgs ∧
    chunk_in_file rgs c.
Proof.
  intros Hk. pose proof (chunk_at_spec k) as Hs. rewrite Hk in Hs. destruct Hs as [_ Hc].
  pose proof (proj1 (Forall_lookup _ _) (or_in s Hopened) _ _ Hc) as (rgs & Hrgs & Hin).
  destruct (or_lengths s Hopened) as [Hl _]. apply lookup_lt_Some in Hrgs as Hlt. rewrite Hl in Hlt.
  apply lookup_lt_is_Some in Hlt as [f Hf].
  destruct (or_files s Hopened _ f Hf) as (r & rgs' & _ & Hr & Hg & Hrgs').
  rewrite Hrgs in Hrgs'. simplify_eq. exists f, r, rgs'. split_and!; [done|done|done|].
  destruct (row_groups_tile r rgs' Hg) as [Ht _]. split; [done|].
  destruct Hin as (rg & Hrg & Hpos & Hro & Hstart & Hend).
  destruct (row_group_within _ _ _ _ Ht Hrg). lia.
Qed.

(** The requested chunks of each file, in the requested order. *)
Definition of_file_index (pairs : list (Z * ChunkInfo)) (i : nat) : list (Z * ChunkInfo) :=
  filter (λ e, file_index e.2 = i) pairs.

Lemma group_by_file_fold ks groups :
  length groups = length (files (cgr_group s)) →
  match fold_out (λ groups chunk_index,
    chunk_info ← chunk_at s chunk_index;
    if (length groups <=? file_index chunk_info)%nat then Ub
    else Ok (alter (λ l, l ++ [(chunk_index, chunk_info)]) (file_index chunk_info) groups)) ks groups with
  | Ok groups' => ∃ pairs, pairs.*1 = ks ∧ Forall (λ e, chunk_at s e.1 = Ok e.2) pairs ∧
      groups' = imap (λ i l, l ++ of_file_index pairs i) groups
  | Err e => e = status_Invalid ∧ Exists (λ k, k < 0 ∨ Z.of_nat (length (cgr_chunk_infos s)) ≤ k) ks
  | Ub => False
  end.
Proof.
  revert groups. induction ks as [|k ks IH]; intros groups Hlen; simpl.
  - exists []. split_and!; [done|constructor|]. apply list_eq. intros i. rewrite list_lookup_imap.
    destruct (groups !! i); [|done]. simpl. by rewrite app_nil_r.
  - pose proof (chunk_at_spec k) as Hk. unfold mbind, outcome_bind in *.
    destruct (chunk_at s k) as [c|e|] eqn:Hc; [|destruct Hk; split; [done|by left]|done].
    destruct (chunk_file k c Hc) as (f & r & rgs & Hf & _). apply lookup_lt_Some in Hf.
    destruct (Nat.leb_spec (length groups) (file_index c)) as [Hle|_]; [lia|].
    specialize (IH (alter (λ l, l ++ [(k, c)]) (file_index c) groups)). rewrite length_alter in IH.
    specialize (IH Hlen). destruct (fold_out _ ks _) as [groups'|e|]; [|naive_solver|done].
    destruct IH as (pairs & <- & Hall & ->). exists ((k, c) :: pairs). split_and!; [done|by constructor|].
    apply list_eq. intros i. rewrite !list_lookup_imap. unfold of_file_index. rewrite filter_cons.
    case_decide as Hi; simpl in Hi.
    + subst. rewrite list_lookup_alter_eq. destruct (groups !! _); [|done]. simpl. by rewrite <- app_assoc.
    + by rewrite list_lookup_alter_ne by done.
Qed.

Lemma group_by_file_spec ks :
  match group_by_file s ks with
  | Ok groups => ∃ pairs, pairs.*1 = ks ∧ Forall (λ e, chunk_at s e.1 = Ok e.2) pairs ∧
      length groups = length (files (cgr_group s)) ∧
      ∀ i l, groups !! i = Some l → l = of_file_index pairs i
  | Err e => e = status_Invalid ∧ Exists (λ k, k < 0 ∨ Z.of_nat (length (cgr_chunk_infos s)) ≤ k) ks
  | Ub => False
  end.
Proof.
  pose proof (group_by_file_fold ks (replicate (length (files (cgr_group s))) [])
    (length_replicate _ _)) as Hf. unfold group_by_file.
  destruct (fold_out _ ks _) as [groups| |]; [|done..]. destruct Hf as (pairs & Hk & Hall & ->).
  exists pairs. split_and!; [done|done|by rewrite length_imap, length_replicate|].
  intros i l. rewrite list_lookup_imap. destruct (replicate _ _ !! i) as [x|] eqn:Hx; [|done].
  apply lookup_replicate in Hx as [-> _]. by intros [= <-].
Qed.

(** One file of a task. *)
Lemma read_file_chunks_reads i l m ks :
  Forall (in_file i) l → reads m ks →
  match read_file_chunks (cgr_group s) i l m with
  | Ok m' => reads m' (l.*1 ++ ks)
  | Err e => reader_failed e
  | Ub => False
  end.
Proof.
  intros Hl Hm. unfold read_file_chunks. destruct l as [|[k c] l]; [done|].
  set (l' := (k, c) :: l) in *. pose proof (proj1 (Forall_cons _ _ _) Hl) as [[Hk Hi] _].
  destruct (chunk_file k c Hk) as (f & r & rgs & _ & Hr & Hg & _). simpl in Hi. rewrite Hi in Hr.
  rewrite Hr. unfold mbind, outcome_bind.
  assert (Forall (chunk_in_file rgs) l'.*2) as Hin.
  { rewrite Forall_fmap. eapply Forall_impl; [exact Hl|]. intros [k' c'] [Hk' Hi'].
    destruct (chunk_file k' c' Hk') as (? & r' & rgs' & _ & Hr' & Hg' & Hc').
    simpl in *. assert (r' = r) as -> by congruence. by assert (rgs' = rgs) as -> by congruence. }
  destruct (row_groups_tile r rgs Hg) as [_ Hte]. pose proof (file_data_bound r) as Hb.
  destruct (ranges_in_file_runs l'.*2) as (runs & Hj & Hruns).
  { eapply Forall_impl; [exact Hin|]. intros c' ([? [_ [? _]]] & ? & ?). split_and!; [done|done|lia]. }
  rewrite Hj in Hin. pose proof (read_ranges_fed r rgs _ runs [] Hg Hruns (Forall_join_inv _ _ Hin)) as Hread.
  unfold read_ranges. destruct (fold_out _ (ranges_in_file l'.*2) []) as [bs|e|]; [|done..].
  destruct Hread as (bs' & -> & Hfeed). rewrite <- Hj in Hfeed.
  destruct (slice_chunks_reads i r bs' 0 l' m ks Hr Hl) as (m' & Hs & Hm'); [|done|done|].
  { rewrite <- Hj, Forall_fmap in Hin. eapply Forall_impl; [exact Hin|].
    intros e [Hc _]. by eapply chunk_in_pos. }
  change ([] ++ bs') with bs'. by rewrite Hs.
Qed.

Lemma read_groups_reads i groups m ks :
  (∀ j l, groups !! j = Some l → Forall (in_file (i + j)) l) → reads m ks →
  match read_groups (cgr_group s) i groups m with
  | Ok m' => reads m' ((mjoin groups).*1 ++ ks)
  | Err e => reader_failed e
  | Ub => False
  end.
Proof.
  revert i m ks. induction groups as [|l groups IH]; intros i m ks Hg Hm; simpl; [done|].
  assert (Forall (in_file i) l) as Hl by (specialize (Hg 0%nat l eq_refl); by rewrite Nat.add_0_r in Hg).
  pose proof (read_file_chunks_reads i l m ks Hl Hm) as Hf. unfold mbind, outcome_bind.
  destruct (read_file_chunks _ i l m) as [m1| |]; [|done..].
  assert (∀ j l', groups !! j = Some l' → Forall (in_file (S i + j)) l') as Hg'.
  { intros j l' Hj. specialize (Hg (S j) l' Hj). by rewrite Nat.add_succ_r in Hg. }
  specialize (IH (S i) m1 (l.*1 ++ ks) Hg' Hf).
  destruct (read_groups _ (S i) groups m1) as [m2| |]; [|done..].
  eapply reads_ext; [|exact IH]. intros k. rewrite fmap_app. set_solver.
Qed.

Definition bad_index (ks : list Z) : Prop :=
  Exists (λ k, k < 0 ∨ Z.of_nat (length (cgr_chunk_infos s)) ≤ k) ks.

Lemma read_chunks_from_files_reads ks :
  match read_chunks_from_files s ks with
  | Ok m => reads m ks
  | Err e => e = status_Invalid ∧ bad_index ks ∨ reader_failed e
  | Ub => False
  end.
Proof.
  unfold read_chunks_from_files, mbind, outcome_bind. pose proof (group_by_file_spec ks) as Hg.
  destruct (group_by_file s ks) as [groups|e|]; [|by left|done].
  destruct Hg as (pairs & <- & Hall & Hlen & Hgroups).
  assert (∀ j l, groups !! j = Some l → Forall (in_file (0 + j)) l) as Hin.
  { intros j l Hj. rewrite (Hgroups j l Hj). apply Forall_forall.
    intros e [He Hin]%list_elem_of_filter. split; [by eapply Forall_forall in Hall|done]. }
  pose proof (read_groups_reads 0 groups ∅ [] Hin reads_empty) as Hr.
  destruct (read_groups _ 0 groups ∅) as [m|e|]; [|by right|done].
  eapply reads_ext; [|exact Hr]. intros k. rewrite app_nil_r, !list_elem_of_fmap.
  split; intros (e & -> & He); exists e; (split; [done|]).
  - apply list_elem_of_join in He as (l & He & [j Hj]%list_elem_of_lookup_1).
    rewrite (Hgroups j l Hj) in He. by apply list_elem_of_filter in He as [_ ?].
  - assert (file_index e.2 < length groups)%nat as Hlt.
    { rewrite Hlen. eapply Forall_forall in Hall; [|done]. simpl in Hall.
      destruct (chunk_file _ _ Hall) as (f & ? & ? & Hf & _). by apply lookup_lt_Some in Hf. }
    apply lookup_lt_is_Some in Hlt as [l Hl]. apply list_elem_of_join. exists l.
    split; [|by eapply list_elem_of_lookup_2]. rewrite (Hgroups _ _ Hl). by apply list_elem_of_filter.
Qed.

(** Merging the maps of the tasks. *)
Lemma merge_results_reads blocks m ks :
  reads m ks →
  match fold_out (λ m o, r ← o; Ok (m ∪ r)) (read_chunks_from_files s <$> blocks) m with
  | Ok m' => reads m' (ks ++ mjoin blocks)
  | Err e => e = status_Invalid ∧ bad_index (mjoin blocks) ∨ reader_failed e
  | Ub => False
  end.
Proof.
  revert m ks. induction blocks as [|b blocks IH]; intros m ks Hm.
  - simpl. by rewrite app_nil_r.
  - rewrite fmap_cons. cbn [fold_out]. unfold mbind, outcome_bind.
    pose proof (read_chunks_from_files_reads b) as Hb.
    destruct (read_chunks_from_files s b) as [m1|e|]; [| |done].
    + specialize (IH (m ∪ m1) (ks ++ b) (reads_union _ _ _ _ Hm Hb)).
      destruct (fold_out _ _ (m ∪ m1)) as [m2|e|]; [by rewrite <- app_assoc in IH| |done].
      destruct IH as [[? Hbad]|?]; [left; split; [done|]|by right]. apply Exists_app. by right.
    + destruct Hb as [[? Hbad]|?]; [left; split; [done|]|by right]. apply Exists_app. by left.
Qed.

(** The last loop of the readers: one batch of the map per index. *)
Lemma collect_chunks m ks chunk_indices (step : list RecordBatch → Z → outcome Status (list RecordBatch)) acc :
  (∀ acc k b, m !! k = Some b → step acc k = Ok (acc ++ [b])) →
  reads m ks → Forall (λ k, k ∈ ks) chunk_indices →
  ∃ bs, fold_out step chunk_indices acc = Ok (acc ++ bs) ∧ Forall2 holds_chunk chunk_indices bs.
Proof.
  intros Hstep Hm Hks. revert acc. induction Hks as [|k l Hk Hl IH]; intros acc.
  - exists []. rewrite app_nil_r. by split; [|constructor].
  - cbn [fold_out]. specialize (Hm k). destruct (m !! k) as [b|] eqn:Hmk; [|done].
    destruct Hm as [_ Hb]. destruct (IH (acc ++ [b])) as (bs & Hf & Hbs). exists (b :: bs).
    split; [|by constructor]. by rewrite (Hstep _ _ _ Hmk), bind_Ok, Hf, <- app_assoc.
Qed.

Lemma bad_index_sort_unique l : bad_index (sort_unique l) → bad_index l.
Proof.
  unfold bad_index. rewrite !Exists_exists. intros (k & Hk & Hbad). exists k.
  by rewrite elem_of_sort_unique in Hk.
Qed.

(** [get_chunk] returns the rows of its chunk, unless its reader fails. *)
Lemma get_chunk_spec k c :
  predicate_applied s = false → chunk_at s k = Ok c →
  match get_chunk k s with
  | (s', Ok b) => s' = s ∧ holds_chunk k b
  | (_, Err e) => ∃ r i, fr_get_chunk r i = Err e
  | (_, Ub) => False
  end.
Proof.
  intros Hpred Hk. destruct (chunk_file k c Hk) as (f & r & rgs & Hf & Hr & Hg & Hin & Hoff & Hend).
  destruct (or_files s Hopened _ f Hf) as (r' & rgs' & Hslot & Hr' & _).
  assert (r' = r) as -> by congruence.
  unfold get_chunk, mbind, M_bind, get_st, lift. rewrite Hk. simpl. rewrite Hslot. simpl.
  destruct (fr_get_chunk r (row_group_index_in_file c)) as [b|e|] eqn:Hb; simpl.
  2:{ by exists r, (row_group_index_in_file c). }
  2:{ by apply (get_chunk_defined r (row_group_index_in_file c)). }
  split; [done|]. exists c, r. split_and!; [done|done|].
  destruct Hin as (rg & Hrg & Hpos & Hro & Hstart & Hend').
  pose proof (get_chunk_rows_law r rgs _ rg b Hg Hrg Hb) as Hrows.
  destruct (row_groups_tile r rgs Hg) as [Ht Hte]. rewrite Hpred. cbn [negb andb].
  destruct (row_group_within _ _ _ _ Ht Hrg) as [Hs0 He0].
  assert (num_rows b = end_offset rg - start_offset rg) as Hnum.
  { rewrite rows_num, Hrows. apply length_slice_of; lia. }
  destruct (negb (row_offset_in_row_group c =? 0) || negb (number_of_rows c =? num_rows b)) eqn:Hpart.
  - rewrite slice_rows by lia. rewrite Hrows, slice_of_slice_of by lia. by rewrite Hstart.
  - apply orb_false_iff in Hpart as [H1 H2]. apply negb_false_iff, Z.eqb_eq in H1, H2.
    rewrite Hrows. f_equal; lia.
Qed.

Lemma get_chunks_spec chunk_indices parallelism num_threads :
  0 ≤ num_threads → Z.of_nat (length chunk_indices) < UINT64_MOD →
  match get_chunks s chunk_indices parallelism num_threads with
  | Ok bs => Forall2 holds_chunk chunk_indices bs
  | Err e => e = status_Invalid ∧ bad_index chunk_indices ∨ reader_failed e
  | Ub => False
  end.
Proof.
  intros Hthreads Hlen. unfold get_chunks. set (u := sort_unique chunk_indices).
  case_bool_decide as Hu.
  { destruct chunk_indices as [|k l]; [constructor|]. exfalso.
    assert (k ∈ u) as Hk by (apply elem_of_sort_unique; left). rewrite Hu in Hk. by apply not_elem_of_nil in Hk. }
  set (o := if parallelism <=? 1 then _ else _).
  assert (match o with
    | Ok m => reads m u
    | Err e => e = status_Invalid ∧ bad_index u ∨ reader_failed e
    | Ub => False end) as Ho.
  { unfold o. destruct (parallelism <=? 1); [apply read_chunks_from_files_reads|].
    destruct (split_chunks_spec u num_threads) as (blocks & Hb & Hj & _); [done|done| |].
    - eapply Z.le_lt_trans; [|exact Hlen]. apply Nat2Z.inj_le, length_sort_unique.
    - rewrite Hb. unfold mbind, outcome_bind, merge_results. rewrite <- Hj.
      apply (merge_results_reads blocks ∅ [] reads_empty). }
  destruct o as [m|e|]; [| |done].
  - rewrite bind_Ok. edestruct (collect_chunks m u chunk_indices) as (bs & Hf & Hbs); [|done| |].
    3:{ rewrite Hf. exact Hbs. }
    + intros acc k b Hk. cbn beta. by rewrite Hk.
    + apply Forall_forall. intros k Hk. by apply elem_of_sort_unique.
  - destruct Ho as [[? Hbad%bad_index_sort_unique]|?]; [by left|by right].
Qed.
End tasks.

(** ** Reading many chunks is reading each of them *)

Section equivalence.
Context `{FormatReaderLaws}.

(** C14: [get_chunks] is equivalent to [get_chunk] on each index.  On an opened
    reader without a pushed-down predicate, for any parallelism, the batches
    come in the order of the request, duplicates included, and each holds the
    rows that [get_chunk] returns for that index (unless that call itself fails
    to read).  An error is an index out of range or the error of a format
    reader; the unchecked accesses to the batches stay in range. *)
Theorem get_chunks_equivalent s chunk_indices parallelism num_threads :
  opened_reader s → predicate_applied s = false → 0 ≤ num_threads →
  Z.of_nat (length chunk_indices) < UINT64_MOD →
  match get_chunks s chunk_indices parallelism num_threads with
  | Ok bs => length bs = length chunk_indices ∧
      ∀ i k b, chunk_indices !! i = Some k → bs !! i = Some b →
        match get_chunk k s with
        | (s', Ok b') => s' = s ∧ rows b' = rows b
        | (_, Err e) => ∃ r j, fr_get_chunk r j = Err e
        | (_, Ub) => False
        end
  | Err e => e = status_Invalid ∧ bad_index s chunk_indices ∨ reader_failed e
  | Ub => False
  end.
Proof.
  intros Hopened Hpred Hthreads Hlen.
  pose proof (get_chunks_spec s Hopened chunk_indices parallelism num_threads Hthreads Hlen) as Hs.
  destruct (get_chunks _ _ _ _) as [bs|e|]; [|done..]. split; [by symmetry; eapply Forall2_length|].
  intros i k b Hi Hb. pose proof (Forall2_lookup_lr _ _ _ _ _ _ Hs Hi Hb) as (c & r & Hk & Hr & Hrows).
  pose proof (get_chunk_spec s Hopened k c Hpred Hk) as Hg.
  destruct (get_chunk k s) as [s' [b'|e|]]; [|done..]. destruct Hg as [-> (c' & r' & Hk' & Hr' & Hrows')].
  split; [done|]. assert (c' = c) as -> by congruence. assert (r' = r) as -> by congruence. congruence.
Qed.

(** C36: Opening establishes the invariant of a column group reader.  When the
    row groups of each file follow each other and the files are smaller than
    [2^64] rows, a successful [open] leaves chunks that list, file by file, every
    row the manifest makes visible, once and in order, each inside one row
    group; the ends of the chunks and the total count exactly these rows. *)
Theorem open_tiles_visible_rows s s' :
  tiled_readers → sane_group (cgr_group s) → cgr_open s = (s', Ok tt) →
  total_rows_of (cgr_row_group_infos s') < UINT64_MOD →
  cgr_group s' = cgr_group s ∧ opened_reader s'.
Proof. apply open_establishes_spec. Qed.
End equivalence.

(** ** An example *)

Module SampleFiles.
Import RowBatch.

Inductive file_id := file_a | file_b.

Definition data_of (f : file_id) : list (list Z) :=
  match f with
  | file_a => (λ x, [x]) <$> [10; 11; 12; 13; 14; 15; 16; 17]
  | file_b => (λ x, [x]) <$> [20; 21; 22; 23; 24]
  end.

Definition groups_of (f : file_id) : list RowGroupInfo :=
  match f with
  | file_a => [mkRowGroupInfo 0 3 24 true; mkRowGroupInfo 3 6 24 true; mkRowGroupInfo 6 8 16 true]
  | file_b => [mkRowGroupInfo 0 2 16 true; mkRowGroupInfo 2 5 24 false]
  end.

Definition batch_of (f : file_id) (a b : Z) : RowBatch.t := mkBatch (slice_of a b (data_of f)) 1 8 0.

#[export] Instance sample_readers : FormatReaders := {
  FormatReader := file_id;
  create_reader _ f := if bool_decide (cgf_path f = "a") then Ok file_a else
                       if bool_decide (cgf_path f = "b") then Ok file_b else Err status_IOError;
  get_row_group_infos f := Ok (groups_of f);
  fr_get_chunk f i :=
    match groups_of f !! i with
    | Some rg => Ok (batch_of f (start_offset rg) (end_offset rg))
    | None => Err status_Invalid
    end;
  read_with_range f a b :=
    if (0 <=? a) && (a <? b) && (b <=? Z.of_nat (length (data_of f))) then Ok [batch_of f a b]
    else Err status_Invalid;
  fr_schema _ := ["v"];
  get_rg_column_memsz _ _ := Ok [8];
}.

#[export] Instance sample_reader_laws : FormatReaderLaws.
Proof.
  refine {| file_data := (data_of : FormatReader → list row) |}.
  - by intros [].
  - intros g f. simpl. by repeat case_bool_decide.
  - intros f rgs [= <-]. by destruct f.
  - intros f rgs i rg b [= <-] Hi. simpl. rewrite Hi. by intros [= <-].
  - intros f i. simpl. by destruct (groups_of f !! i).
  - intros f a b Hab. simpl. by case_match.
  - intros f rgs a b bs [= <-] Hab Hb. simpl. case_match eqn:Hc; [|done]. intros [= <-].
    apply andb_true_iff in Hc as [Hc Hlen]. apply Z.leb_le in Hlen. split_and!.
    + simpl. by rewrite app_nil_r.
    + repeat constructor. simpl. rewrite length_slice_of by lia. lia.
    + simpl. lia.
Defined.

(** Rows 1..7 of the first file and the whole second file. *)
Definition group : ColumnGroup :=
  mkGroup ["v"] "parquet" [mkFile "a" 1 7 ∅; mkFile "b" 0 5 ∅].

Definition opened : ColumnGroupReader := (cgr_open (cgr_new group "")).1.

Lemma sample_tiled : tiled_readers.
Proof. intros g f r rgs _ [= <-]. by destruct r. Qed.

Lemma sample_opened : opened_reader opened.
Proof.
  destruct (open_establishes_spec (cgr_new group "") opened) as [_ Ho]; try done.
  - apply sample_tiled.
  - repeat constructor.
Qed.

Lemma open_tiles_visible_rows_witness :
  opened_reader opened ∧ number_of_rows <$> cgr_chunk_infos opened = [2; 3; 1; 2; 3] ∧
  cgr_total_rows opened = 11.
Proof.
  split; [|by vm_compute].
  apply (open_tiles_visible_rows (cgr_new group "") opened); [apply sample_tiled|repeat constructor|done|done].
Defined.

Lemma chunk_indices_of_rows_witness :
  get_chunk_indices opened [10; 1; 4; 0] = Ok [4; 0; 1] ∧ NoDup [4; 0; 1].
Proof.
  pose proof (chunk_indices_of_rows opened [10; 1; 4; 0]) as Hall.
  assert (get_chunk_indices opened [10; 1; 4; 0] = Ok [4; 0; 1]) as E by (vm_compute; reflexivity).
  rewrite E in Hall. destruct Hall as (_ & Hnd & _).
  - exact sample_opened.
  - by vm_compute.
  - repeat (apply Forall_cons; split; [by vm_compute|]). apply Forall_nil. done.
  - done.
Defined.

Lemma get_chunks_equivalent_witness :
  ∃ bs, get_chunks opened [4; 0; 1; 0] 4 2 = Ok bs ∧ length bs = 4%nat ∧
    cells <$> bs = [[[22]; [23]; [24]]; [[11]; [12]]; [[13]; [14]; [15]]; [[11]; [12]]].
Proof.
  pose proof (get_chunks_equivalent opened [4; 0; 1; 0] 4 2 sample_opened) as Hall.
  destruct (get_chunks opened [4; 0; 1; 0] 4 2) as [bs| |] eqn:E; [|by vm_compute in E..].
  destruct Hall as [Hlen _]; [by vm_compute|done|done|].
  exists bs. split_and!; [done|done|]. vm_compute in E. injection E as <-. by vm_compute.
Defined.
End SampleFiles.
