(* ===== verification/FormatReaderCache.v ===== *)
(** * The format reader metadata cache

    [FormatReaderMetadataCache] of [format/format_reader_cache.h/.cpp]: one
    load per key is in flight, shared by the callers that arrive while it runs.
    The first caller of a key is its leader; synchronous callers sleep behind a
    synchronous leader, and load on their own behind an asynchronous one;
    asynchronous callers subscribe to the leader's promise.

    Calls are interleaved: a step is a critical section of the mutex, the
    loader, which runs outside of it with any result, the wake-up of the
    sleepers, or the fulfilment of the promise.  The theorems: callers of a key
    agree, failures are not cached, a promise is fulfilled once, and no
    interleaving blocks, so that all calls return. *)

From S2P Require Import Prelude CppString Status.
From stdpp Require Import relations.

Section cache.
Context {Meta : Type}.

(** ** State *)

(** [MetadataPtr] may be null; [MetadataResult]. *)
Abbreviation MetadataPtr := (option Meta).
Abbreviation MetadataResult := (MetadataPtr + Status)%type.

Inductive LeaderType := kAsync | kSync.

Record InFlightLoad := mkFlight {
  fl_done : bool;
  fl_status : option Status;                     (* None: OK *)
  fl_leader : LeaderType;
  fl_metadata : MetadataPtr;
  fl_async_result : option MetadataResult;       (* the shared promise *)
}.

(** The flights are shared pointers: a store, where the index is the address. *)
Record Cache := mkCache {
  entries : gmap string MetadataPtr;
  in_flight_loads : gmap string nat;
  flights : list InFlightLoad;
}.

Definition new_flight (leader : LeaderType) : InFlightLoad := mkFlight false None leader None None.

Definition cache_Make : Cache := mkCache ∅ ∅ [].

Definition cache_get (key : string) (c : Cache) : option MetadataPtr := entries c !! key.

Definition cache_add (key : string) (metadata : MetadataPtr) (c : Cache) : Cache * outcome Status unit :=
  match metadata with
  | None => (c, Err status_Invalid)
  | Some _ => (mkCache (<[key := metadata]> (entries c)) (in_flight_loads c) (flights c), Ok tt)
  end.

(** ** One call *)

(** Where a call is. *)
Inductive Pc :=
  | Start
  | Waiting (f : nat) (notified : bool)          (* in cv.wait *)
  | Subscribed (f : nat)                         (* the future of the promise *)
  | Loading (own : option nat)                   (* in the loader; the flight it leads *)
  | Completing (f : nat) (r : MetadataResult)    (* in complete_load *)
  | Storing (metadata : MetadataPtr)             (* after an independent load *)
  | Notifying (f : nat) (r : MetadataResult)
  | Fulfilling (f : nat) (r : MetadataResult)
  | Returned (r : MetadataResult)
  | Undefined.                                   (* a dangling flight, or a promise fulfilled twice *)

Record Call := mkCall {
  call_mode : LeaderType;       (* get_or_open or get_or_open_async *)
  call_key : string;
  call_pc : Pc;
}.

(** What a loader does: it returns metadata, possibly null, or a status, or it
    throws. *)
Inductive LoadResult := LoadOk (metadata : MetadataPtr) | LoadError (e : Status) | LoadThrew.

Definition status_UnknownError : Status := mkStatus UnknownError None.

(** What a flight tells the ones who waited for it. *)
Definition flight_result (fl : InFlightLoad) : MetadataResult :=
  match fl_status fl with Some e => inr e | None => inl (fl_metadata fl) end.

(** The leader's marker is inserted. *)
Definition lead (mode : LeaderType) (key : string) (c : Cache) : Cache * Pc :=
  let f := length (flights c) in
  (mkCache (entries c) (<[key := f]> (in_flight_loads c)) (flights c ++ [new_flight mode]),
   Loading (Some f)).

(** The first critical section of [get_or_open]. *)
Definition begin_sync (key : string) (c : Cache) : Cache * Pc :=
  match entries c !! key with
  | Some m => (c, Returned (inl m))
  | None =>
      match in_flight_loads c !! key with
      | None => lead kSync key c
      | Some f =>
          match flights c !! f with
          | None => (c, Undefined)
          | Some fl =>
              match fl_leader fl with
              | kSync => (c, if fl_done fl then Returned (flight_result fl) else Waiting f false)
              | kAsync => (c, Loading None)
              end
          end
      end
  end.

(** The critical section of [get_or_open_async]. *)
Definition begin_async (key : string) (c : Cache) : Cache * Pc :=
  match entries c !! key with
  | Some m => (c, Returned (inl m))
  | None =>
      match in_flight_loads c !! key with
      | None => lead kAsync key c
      | Some f => (c, Subscribed f)
      end
  end.

(** The end of the loader in [get_or_open]. *)
Definition sync_loaded (own : option nat) (lr : LoadResult) : Pc :=
  let '(status, metadata) :=
    match lr with
    | LoadOk (Some m) => (None, Some m)
    | LoadOk None => (Some status_Invalid, None)
    | LoadError e => (Some e, None)
    | LoadThrew => (Some status_UnknownError, None)
    end in
  match own with
  | Some f => Completing f (match status with Some e => inr e | None => inl metadata end)
  | None => match status with Some e => Returned (inr e) | None => Storing metadata end
  end.

(** The continuation of the loader, or its exception, in [get_or_open_async]. *)
Definition async_loaded (own : option nat) (lr : LoadResult) : Pc :=
  match own with
  | Some f =>
      Completing f (match lr with
                    | LoadOk m => inl m
                    | LoadError e => inr e
                    | LoadThrew => inr status_UnknownError
                    end)
  | None => Undefined
  end.

(** [complete_load]: normalization and the critical section. *)
Definition complete_load (key : string) (f : nat) (load_result : MetadataResult) (c : Cache) : Cache * Pc :=
  let '(status, metadata) :=
    match load_result with
    | inl (Some m) => (None, Some m)
    | inl None => (Some status_Invalid, None)
    | inr e => (Some e, None)
    end in
  let '(entries', metadata) :=
    match status with
    | None => match entries c !! key with
              | Some m => (entries c, m)
              | None => (<[key := metadata]> (entries c), metadata)
              end
    | Some _ => (entries c, metadata)
    end in
  match flights c !! f with
  | None => (c, Undefined)
  | Some fl =>
      let fl := mkFlight true status (fl_leader fl) metadata (fl_async_result fl) in
      (mkCache entries'
         (if decide (in_flight_loads c !! key = Some f) then delete key (in_flight_loads c)
          else in_flight_loads c)
         (<[f := fl]> (flights c)),
       Notifying f (flight_result fl))
  end.

(** [SharedPromise::setValue]. *)
Definition fulfil (f : nat) (r : MetadataResult) (c : Cache) : Cache * Pc :=
  match flights c !! f with
  | Some fl =>
      match fl_async_result fl with
      | None => (mkCache (entries c) (in_flight_loads c)
                   (<[f := mkFlight (fl_done fl) (fl_status fl) (fl_leader fl) (fl_metadata fl) (Some r)]> (flights c)),
                 Returned r)
      | Some _ => (c, Undefined)
      end
  | None => (c, Undefined)
  end.

(** The last critical section of [get_or_open]. *)
Definition store_independent (key : string) (metadata : MetadataPtr) (c : Cache) : Cache * Pc :=
  match entries c !! key with
  | Some m => (c, Returned (inl m))
  | None => (mkCache (<[key := metadata]> (entries c)) (in_flight_loads c) (flights c), Returned (inl metadata))
  end.

(** ** Interleaved calls *)

Record Sys := mkSys {
  sys_cache : Cache;
  sys_calls : list Call;
}.

Definition set_pc (pc : Pc) (t : Call) : Call := mkCall (call_mode t) (call_key t) pc.

(** [notify_all]: the sleepers of the flight. *)
Definition notify (f : nat) (t : Call) : Call :=
  match call_pc t with
  | Waiting f' _ => if decide (f' = f) then set_pc (Waiting f' true) t else t
  | _ => t
  end.

Definition move (i : nat) (t : Call) (next : Cache * Pc) (calls : list Call) : Sys :=
  mkSys next.1 (<[i := set_pc next.2 t]> calls).

(** The next step of call [i].  A sleeper returns when the flight is done and
    it was notified, or wakes up spuriously.  None: it is blocked, or over. *)
Definition call_step (lr : LoadResult) (spurious : bool) (i : nat) (s : Sys) : option Sys :=
  let c := sys_cache s in
  t ← sys_calls s !! i;
  let key := call_key t in
  match call_pc t with
  | Start =>
      Some (move i t (match call_mode t with kSync => begin_sync key c | kAsync => begin_async key c end)
              (sys_calls s))
  | Waiting f notified =>
      match flights c !! f with
      | None => Some (move i t (c, Undefined) (sys_calls s))
      | Some fl => if fl_done fl && (notified || spurious)
                   then Some (move i t (c, Returned (flight_result fl)) (sys_calls s)) else None
      end
  | Subscribed f =>
      match flights c !! f with
      | None => Some (move i t (c, Undefined) (sys_calls s))
      | Some fl => match fl_async_result fl with
                   | Some r => Some (move i t (c, Returned r) (sys_calls s))
                   | None => None
                   end
      end
  | Loading own =>
      Some (move i t (c, match call_mode t with kSync => sync_loaded own lr | kAsync => async_loaded own lr end)
              (sys_calls s))
  | Completing f r => Some (move i t (complete_load key f r c) (sys_calls s))
  | Storing m => Some (move i t (store_independent key m c) (sys_calls s))
  | Notifying f r => Some (move i t (c, Fulfilling f r) (notify f <$> sys_calls s))
  | Fulfilling f r => Some (move i t (fulfil f r c) (sys_calls s))
  | Returned _ | Undefined => None
  end.

(** What the loaders of a key may do, and the interleavings. *)
Context (loads : string → LoadResult → Prop).

Inductive step : Sys → Sys → Prop :=
  | step_call lr spurious i s s' :
      (∀ t, sys_calls s !! i = Some t → loads (call_key t) lr) →
      call_step lr spurious i s = Some s' → step s s'.

(** Calls that have not begun, on a cache without loads in flight. *)
Definition initial (e0 : gmap string MetadataPtr) (s : Sys) : Prop :=
  sys_cache s = mkCache e0 ∅ [] ∧
  map_Forall (λ _ m, m ≠ None) e0 ∧
  Forall (λ t, call_pc t = Start) (sys_calls s).

Definition reachable (e0 : gmap string MetadataPtr) (s : Sys) : Prop :=
  ∃ s0, initial e0 s0 ∧ rtc step s0 s.

(** ** The invariant *)

Section invariant.
Context (e0 : gmap string MetadataPtr).

(** The metadata and the errors that calls of a key may see. *)
Definition loaded (k : string) (v : Meta) : Prop :=
  e0 !! k = Some (Some v) ∨ loads k (LoadOk (Some v)).

Definition load_error (k : string) (e : Status) : Prop :=
  loads k (LoadError e) ∨
  (loads k (LoadOk None) ∧ e = status_Invalid) ∨
  (loads k LoadThrew ∧ e = status_UnknownError).

Definition result_ok (c : Cache) (k : string) (r : MetadataResult) : Prop :=
  match r with
  | inl m => entries c !! k = Some m
  | inr e => load_error k e
  end.

(** What [complete_load] is given. *)
Definition raw_ok (k : string) (r : MetadataResult) : Prop :=
  match r with
  | inl (Some v) => loaded k v
  | inl None => load_error k status_Invalid
  | inr e => load_error k e
  end.

(** A flight and the call that leads it. *)
Definition flight_ok (c : Cache) (f : nat) (fl : InFlightLoad) (t : Call) : Prop :=
  call_mode t = fl_leader fl ∧
  match call_pc t with
  | Loading (Some f') | Completing f' _ =>
      f' = f ∧ fl_done fl = false ∧ fl_async_result fl = None ∧ in_flight_loads c !! call_key t = Some f
  | Notifying f' r | Fulfilling f' r =>
      f' = f ∧ fl_done fl = true ∧ fl_async_result fl = None ∧ r = flight_result fl ∧
      result_ok c (call_key t) r
  | Returned r =>
      fl_done fl = true ∧ fl_async_result fl = Some r ∧ r = flight_result fl ∧ result_ok c (call_key t) r
  | _ => False
  end.

(** The load is going on. *)
Definition leading (t : Call) : bool :=
  match call_pc t with Loading (Some _) | Completing _ _ => true | _ => false end.

(** The leader has woken the sleepers. *)
Definition announced (t : Call) : bool :=
  match call_pc t with Fulfilling _ _ | Returned _ => true | _ => false end.

(** Call [t], the [i]-th one; [own] maps the flights to their leaders. *)
Definition call_ok (own : list nat) (s : Sys) (i : nat) (t : Call) : Prop :=
  match call_pc t with
  | Start => True
  | Waiting f notified => call_mode t = kSync ∧
      ∃ o to, own !! f = Some o ∧ sys_calls s !! o = Some to ∧ call_key to = call_key t ∧
        announced to = notified
  | Subscribed f =>
      ∃ o to, own !! f = Some o ∧ sys_calls s !! o = Some to ∧ call_key to = call_key t
  | Loading None => call_mode t = kSync
  | Loading (Some f) => own !! f = Some i
  | Completing f r => own !! f = Some i ∧ raw_ok (call_key t) r
  | Notifying f _ | Fulfilling f _ => own !! f = Some i
  | Storing m => ∃ v, m = Some v ∧ loaded (call_key t) v
  | Returned r => result_ok (sys_cache s) (call_key t) r
  | Undefined => False
  end.

Definition entries_ok (e : gmap string MetadataPtr) : Prop :=
  map_Forall (λ k m, ∃ v, m = Some v ∧ loaded k v) e.

Record sys_ok (own : list nat) (s : Sys) : Prop := {
  ok_entries : entries_ok (entries (sys_cache s));
  ok_own : length own = length (flights (sys_cache s));
  ok_flights f fl : flights (sys_cache s) !! f = Some fl →
    ∃ i t, own !! f = Some i ∧ sys_calls s !! i = Some t ∧ flight_ok (sys_cache s) f fl t;
  ok_in_flight k f : in_flight_loads (sys_cache s) !! k = Some f →
    ∃ i t, own !! f = Some i ∧ sys_calls s !! i = Some t ∧ call_key t = k ∧ leading t = true;
  ok_calls i t : sys_calls s !! i = Some t → call_ok own s i t;
}.

(** ** Preservation *)

Lemma result_ok_mono c c' k r :
  entries c ⊆ entries c' → result_ok c k r → result_ok c' k r.
Proof. intros Hsub. destruct r as [m|e]; simpl; [|done]. intros Hm. by eapply lookup_weaken. Qed.

(** A call that leads nothing moves; the cache may gain entries. *)
Lemma move_follower own s i t c' pc :
  sys_ok own s → sys_calls s !! i = Some t → (∀ f, own !! f ≠ Some i) →
  entries (sys_cache s) ⊆ entries c' → entries_ok (entries c') →
  flights c' = flights (sys_cache s) → in_flight_loads c' = in_flight_loads (sys_cache s) →
  (let s' := move i t (c', pc) (sys_calls s) in call_ok own s' i (set_pc pc t)) →
  sys_ok own (move i t (c', pc) (sys_calls s)).
Proof.
  intros [He Ho Hf Hi Hc] Ht Hno Hsub He' Hfl Hin Hok. split; simpl; [done|by rewrite Hfl|..].
  - rewrite Hfl. intros f fl Hl. destruct (Hf f fl Hl) as (o & to & Hoo & Hto & Hm & Hfok). exists o, to.
    assert (o ≠ i) by (intros ->; by eapply Hno). split_and!; [done|by rewrite list_lookup_insert_ne by done|].
    split; [done|]. destruct (call_pc to) as [| | |[]| | | | | |]; try done; simpl in *; rewrite ?Hin; try done;
      destruct_and!; split_and!; eauto using result_ok_mono.
  - rewrite Hin. intros k f Hk. destruct (Hi k f Hk) as (o & to & Hoo & Hto & Hrest). exists o, to.
    assert (o ≠ i) by (intros ->; by eapply Hno). by rewrite list_lookup_insert_ne by done.
  - intros j tj Hj. destruct (decide (j = i)) as [->|Hne].
    { rewrite list_lookup_insert_eq in Hj by (by eapply lookup_lt_Some). by simplify_eq. }
    rewrite list_lookup_insert_ne in Hj by done. specialize (Hc j tj Hj). unfold call_ok in *.
    destruct (call_pc tj) as [| | |[]| | | | | |]; try done; simpl.
    + destruct Hc as (Hm & o & to & Hoo & Hto & Hk & Ha). split; [done|]. exists o, to.
      assert (o ≠ i) by (intros ->; by eapply Hno). by rewrite list_lookup_insert_ne by done.
    + destruct Hc as (o & to & Hoo & Hto & Hk). exists o, to.
      assert (o ≠ i) by (intros ->; by eapply Hno). by rewrite list_lookup_insert_ne by done.
    + by eapply result_ok_mono.
Qed.

(** A call begins to lead. *)
Lemma move_lead own s i t :
  sys_ok own s → sys_calls s !! i = Some t → call_pc t = Start →
  in_flight_loads (sys_cache s) !! call_key t = None →
  sys_ok (own ++ [i]) (move i t (lead (call_mode t) (call_key t) (sys_cache s)) (sys_calls s)).
Proof.
  intros [He Ho Hf Hi Hc] Ht Hpc Hnone. set (n := length (flights (sys_cache s))) in *.
  assert (∀ f o, own !! f = Some o → (own ++ [i]) !! f = Some o) as Hown by eauto using lookup_app_l_Some.
  assert ((own ++ [i]) !! n = Some i) as Hni.
  { rewrite lookup_app_r by lia. by replace (n - length own)%nat with 0%nat by lia. }
  assert (∀ o to, sys_calls s !! o = Some to → call_pc to ≠ Start → o ≠ i) as Hne by congruence.
  assert (∀ f o to, own !! f = Some o → sys_calls s !! o = Some to → o ≠ i) as Hoi.
  { intros f o to Hoo Hto. destruct (lookup_lt_is_Some_2 (flights (sys_cache s)) f) as [fl Hfl].
    { pose proof (lookup_lt_Some _ _ _ Hoo). unfold n in Ho. lia. }
    destruct (Hf f fl Hfl) as (o' & to' & Hoo' & Hto' & _ & Hok). simplify_eq.
    apply (Hne o to Hto). intros Hs. by rewrite Hs in Hok. }
  split; simpl.
  - done.
  - rewrite !length_app. simpl. lia.
  - intros f fl Hl. apply lookup_app_Some in Hl as [Hl|[Hge Hl]].
    + destruct (Hf f fl Hl) as (o & to & Hoo & Hto & Hm & Hfok). exists o, to.
      split_and!; [auto|rewrite list_lookup_insert_ne; [done|by apply not_eq_sym; eauto]|]. split; [done|].
      assert (in_flight_loads (sys_cache s) !! call_key to = Some f →
        <[call_key t:=n]> (in_flight_loads (sys_cache s)) !! call_key to = Some f) as Hin.
      { intros Hk. rewrite lookup_insert_ne; [done|congruence]. }
      destruct (call_pc to) as [| | |[]| | | | | |]; naive_solver.
    + apply list_lookup_singleton_Some in Hl as [Hz <-]. assert (f = n) as -> by (unfold n; lia).
      exists i, (set_pc (Loading (Some n)) t). split_and!.
      * exact Hni.
      * apply list_lookup_insert_eq. by eapply lookup_lt_Some.
      * split; [done|]. simpl. by rewrite lookup_insert_eq.
  - intros k f Hk. destruct (decide (k = call_key t)) as [->|Hkne].
    + rewrite lookup_insert_eq in Hk. injection Hk as Hk. subst f. exists i, (set_pc (Loading (Some n)) t). split_and!; [|..|done|done].
      * exact Hni.
      * apply list_lookup_insert_eq. by eapply lookup_lt_Some.
    + rewrite lookup_insert_ne in Hk by done. destruct (Hi k f Hk) as (o & to & Hoo & Hto & Hrest). exists o, to.
      split_and!; [auto|rewrite list_lookup_insert_ne; [done|by apply not_eq_sym; eauto]|tauto..].
  - intros j tj Hj. destruct (decide (j = i)) as [->|Hji].
    + rewrite list_lookup_insert_eq in Hj by (by eapply lookup_lt_Some). simplify_eq. exact Hni.
    + rewrite list_lookup_insert_ne in Hj by done. specialize (Hc j tj Hj). unfold call_ok in *.
      destruct (call_pc tj) as [| | |[]| | | | | |]; try done; simpl;
        try (solve [auto|destruct Hc; auto]).
      * destruct Hc as (Hm & o & to & Hoo & Hto & Hrest). split; [done|]. exists o, to.
        split_and!; [auto|rewrite list_lookup_insert_ne; [done|by apply not_eq_sym; eauto]|tauto..].
      * destruct Hc as (o & to & Hoo & Hto & Hrest). exists o, to.
        split_and!; [auto|rewrite list_lookup_insert_ne; [done|by apply not_eq_sym; eauto]|tauto..].
Qed.

Definition wake (b : bool) (f : nat) (t : Call) : Call := if b then notify f t else t.

Lemma wake_key b f t : call_key (wake b f t) = call_key t.
Proof. destruct b, t as [m k []]; simpl; try done. unfold notify; simpl. by case_decide. Qed.

Lemma wake_leader b f t c f' fl : flight_ok c f' fl t → wake b f t = t.
Proof. intros [_ Hok]. destruct b; [|done]. unfold wake, notify. by destruct (call_pc t). Qed.

(** The leader of [f] moves, and wakes the sleepers if [b]. *)
Lemma move_leader own s i t f fl c' fl' pc b :
  sys_ok own s → sys_calls s !! i = Some t → own !! f = Some i →
  (∀ f', own !! f' = Some i → f' = f) → flights (sys_cache s) !! f = Some fl →
  entries (sys_cache s) ⊆ entries c' → entries_ok (entries c') →
  flights c' = <[f := fl']> (flights (sys_cache s)) →
  (∀ k f', f' ≠ f → in_flight_loads (sys_cache s) !! k = Some f' → in_flight_loads c' !! k = Some f') →
  (∀ k f', in_flight_loads c' !! k = Some f' → in_flight_loads (sys_cache s) !! k = Some f') →
  (∀ k, in_flight_loads c' !! k = Some f → leading (set_pc pc t) = true) →
  announced (set_pc pc t) = b || announced t →
  flight_ok c' f fl' (set_pc pc t) →
  (let s' := move i t (c', pc) (wake b f <$> sys_calls s) in call_ok own s' i (set_pc pc t)) →
  sys_ok own (move i t (c', pc) (wake b f <$> sys_calls s)).
Proof.
  intros [He Ho Hf Hi Hc] Ht Hoi Huniq Hfl Hsub He' Hfl' Hin1 Hin2 Hlead Hann Hfok Hcok.
  set (s' := move i t (c', pc) (wake b f <$> sys_calls s)) in *.
  assert (sys_calls s' !! i = Some (set_pc pc t)) as Hi'.
  { simpl. apply list_lookup_insert_eq. rewrite length_fmap. by eapply lookup_lt_Some. }
  assert (∀ j, j ≠ i → sys_calls s' !! j = wake b f <$> sys_calls s !! j) as Hj'.
  { intros j Hj. simpl. rewrite list_lookup_insert_ne by done. by rewrite list_lookup_fmap. }
  assert (∀ f' o to, f' ≠ f → own !! f' = Some o → sys_calls s !! o = Some to →
    o ≠ i ∧ sys_calls s' !! o = Some to) as Hother.
  { intros f' o to Hne Hoo Hto. assert (o ≠ i) as Hnei by (intros ->; by apply Hne, Huniq). split; [done|].
    destruct (lookup_lt_is_Some_2 (flights (sys_cache s)) f') as [fl0 Hfl0].
    { rewrite <- Ho. by eapply lookup_lt_Some. }
    destruct (Hf f' fl0 Hfl0) as (o' & to' & Hoo' & Hto' & Hok). simplify_eq.
    rewrite Hj' by done. rewrite Hto. simpl. by erewrite wake_leader. }
  split; simpl; [done|by rewrite Hfl', length_insert|..].
  - rewrite Hfl'. intros f' fl0 Hl. destruct (decide (f' = f)) as [->|Hne].
    + rewrite list_lookup_insert_eq in Hl by (by eapply lookup_lt_Some). simplify_eq. by exists i, (set_pc pc t).
    + rewrite list_lookup_insert_ne in Hl by done. destruct (Hf f' fl0 Hl) as (o & to & Hoo & Hto & Hm & Hok).
      destruct (Hother f' o to Hne Hoo Hto) as [Hnei Hto']. exists o, to. split_and!; [done|done|]. split; [done|].
      destruct (call_pc to) as [| | |[]| | | | | |]; try done; simpl in *; destruct_and!; split_and!;
        eauto using result_ok_mono.
  - intros k f' Hk. destruct (decide (f' = f)) as [->|Hne].
    + apply Hlead in Hk as Hl. destruct (Hi k f (Hin2 k f Hk)) as (o & to & Hoo & Hto & Hkey & _). simplify_eq.
      by exists i, (set_pc pc t).
    + destruct (Hi k f' (Hin2 k f' Hk)) as (o & to & Hoo & Hto & Hrest).
      destruct (Hother f' o to Hne Hoo Hto) as [_ Hto']. by exists o, to.
  - intros j tj Hj. change (sys_calls s' !! j = Some tj) in Hj.
    destruct (decide (j = i)) as [->|Hne]; [by simplify_eq|].
    rewrite Hj' in Hj by done. destruct (sys_calls s !! j) as [t0|] eqn:Ht0; simplify_eq/=.
    specialize (Hc j t0 Ht0). unfold call_ok in Hc |- *. rewrite wake_key.
    assert (∀ f', (∃ o to, own !! f' = Some o ∧ sys_calls s !! o = Some to ∧ call_key to = call_key t0) →
      ∃ o to, own !! f' = Some o ∧ sys_calls s' !! o = Some to ∧ call_key to = call_key t0) as Hsub'.
    { intros f' (o & to & Hoo & Hto & Hk). destruct (decide (f' = f)) as [->|Hnef].
      - simplify_eq. by exists i, (set_pc pc t).
      - exists o, to. by destruct (Hother f' o to Hnef Hoo Hto). }
    destruct (call_pc t0) as [|f' n|f'|[]| | | | | |] eqn:Hpc; unfold wake, notify; destruct b; rewrite ?Hpc; simpl;
      try done; try (by eapply result_ok_mono); auto.
    + destruct Hc as (Hm & o & to & Hoo & Hto & Hk & Ha). case_decide as Hd.
      * subst f'. assert (o = i) as -> by congruence. assert (to = t) as -> by congruence. simpl.
        split; [done|]. by exists i, (set_pc pc t).
      * rewrite Hpc. split; [done|]. exists o, to. by destruct (Hother f' o to ltac:(done) Hoo Hto).
    + destruct Hc as (Hm & o & to & Hoo & Hto & Hk & Ha). split; [done|]. destruct (decide (f' = f)) as [->|Hnef].
      * assert (o = i) as -> by congruence. assert (to = t) as -> by congruence. exists i, (set_pc pc t).
        by rewrite Hann.
      * exists o, to. by destruct (Hother f' o to Hnef Hoo Hto).
Qed.

Lemma owner_flight own s f i t :
  sys_ok own s → own !! f = Some i → sys_calls s !! i = Some t →
  ∃ fl, flights (sys_cache s) !! f = Some fl ∧ flight_ok (sys_cache s) f fl t.
Proof.
  intros Hs Ho Ht. destruct (lookup_lt_is_Some_2 (flights (sys_cache s)) f) as [fl Hfl].
  { rewrite <- (ok_own _ _ Hs). by eapply lookup_lt_Some. }
  destruct (ok_flights _ _ Hs f fl Hfl) as (i' & t' & Ho' & Ht' & Hok). simplify_eq. by exists fl.
Qed.

(** [get_or_open] and [get_or_open_async] up to the loader. *)
Lemma step_begin own s i t :
  sys_ok own s → sys_calls s !! i = Some t → call_pc t = Start →
  ∃ own', sys_ok own' (move i t (match call_mode t with
    | kSync => begin_sync (call_key t) (sys_cache s) | kAsync => begin_async (call_key t) (sys_cache s) end) (sys_calls s)).
Proof.
  intros Hs Ht Hpc. assert (∀ f, own !! f ≠ Some i) as Hno.
  { intros f Ho. destruct (owner_flight _ _ _ _ _ Hs Ho Ht) as (fl & _ & _ & Hok). by rewrite Hpc in Hok. }
  assert (∀ pc, call_ok own (move i t (sys_cache s, pc) (sys_calls s)) i (set_pc pc t) →
    ∃ own', sys_ok own' (move i t (sys_cache s, pc) (sys_calls s))) as Hplain.
  { intros pc Hok. exists own. apply move_follower; try done. apply (ok_entries _ _ Hs). }
  assert (∀ o to pc, sys_calls s !! o = Some to → call_pc to ≠ Start →
    sys_calls (move i t (sys_cache s, pc) (sys_calls s)) !! o = Some to) as Hstay.
  { intros o to pc Hto Hne. simpl. rewrite list_lookup_insert_ne; [done|congruence]. }
  unfold begin_sync, begin_async. destruct (entries (sys_cache s) !! call_key t) as [m|] eqn:Hm.
  { destruct (call_mode t); by apply Hplain. }
  destruct (in_flight_loads (sys_cache s) !! call_key t) as [f|] eqn:Hin.
  2:{ destruct (call_mode t) eqn:Hmode; rewrite <- Hmode; exists (own ++ [i]); by apply move_lead. }
  destruct (ok_in_flight _ _ Hs _ _ Hin) as (o & to & Ho & Hto & Hk & Hlead).
  destruct (owner_flight _ _ _ _ _ Hs Ho Hto) as (fl & Hfl & Hfok).
  assert (call_pc to ≠ Start) as Hns by (intros Heq; unfold leading in Hlead; by rewrite Heq in Hlead).
  destruct (call_mode t) eqn:Hmode.
  - apply Hplain. exists o, to. eauto.
  - rewrite Hfl. destruct (fl_leader fl); [by apply Hplain|].
    assert (fl_done fl = false ∧ announced to = false) as [-> Ha].
    { destruct Hfok as [_ Hfok]. unfold leading, announced in *. destruct (call_pc to) as [| | |[]| | | | | |]; naive_solver. }
    apply Hplain. split; [done|]. exists o, to. eauto.
Qed.

(** A sleeper or a subscriber gets the result of its flight. *)
Lemma step_follow own s i t r f o to :
  sys_ok own s → sys_calls s !! i = Some t →
  (∃ n, call_pc t = Waiting f n) ∨ call_pc t = Subscribed f →
  own !! f = Some o → sys_calls s !! o = Some to → call_key to = call_key t →
  result_ok (sys_cache s) (call_key to) r →
  sys_ok own (move i t (sys_cache s, Returned r) (sys_calls s)).
Proof.
  intros Hs Ht Hpc Ho Hto Hk Hr. apply move_follower; try done; [|apply (ok_entries _ _ Hs)|].
  - intros f' Ho'. destruct (owner_flight _ _ _ _ _ Hs Ho' Ht) as (fl & _ & _ & Hok).
    by destruct Hpc as [[n Hpc]|Hpc]; rewrite Hpc in Hok.
  - unfold call_ok. simpl. by rewrite <- Hk.
Qed.

Lemma landed_result c f fl t :
  flight_ok c f fl t → fl_done fl = true → result_ok c (call_key t) (flight_result fl).
Proof.
  intros [_ Hok] Hd. destruct (call_pc t) as [| | |[]| | | | | |]; try done; destruct_and!; congruence.
Qed.

Lemma leads_one own s i t f :
  sys_ok own s → sys_calls s !! i = Some t → own !! f = Some i → announced t = false ∨ (∃ r, call_pc t = Fulfilling f r) →
  ∀ f', own !! f' = Some i → f' = f.
Proof.
  intros Hs Ht Ho Ha f' Ho'. destruct (owner_flight _ _ _ _ _ Hs Ho Ht) as (fl & _ & _ & Hok).
  destruct (owner_flight _ _ _ _ _ Hs Ho' Ht) as (fl' & _ & _ & Hok'). unfold announced in Ha.
  destruct (call_pc t) as [| | |[]| | | | | |]; naive_solver.
Qed.

Lemma raw_sync k lr : loads k lr →
  match sync_loaded None lr with
  | Storing m => ∃ v, m = Some v ∧ loaded k v
  | Returned (inr e) => load_error k e
  | _ => False
  end ∧
  ∀ f, ∃ r, sync_loaded (Some f) lr = Completing f r ∧ raw_ok k r.
Proof.
  intros Hl. unfold sync_loaded, raw_ok, loaded, load_error.
  destruct lr as [[v|]|e|]; (split; [|intros f; eexists; split; [done|]]); simpl; eauto 6.
Qed.

Lemma step_loaded own s i t o lr :
  sys_ok own s → sys_calls s !! i = Some t → call_pc t = Loading o → loads (call_key t) lr →
  sys_ok own (move i t (sys_cache s, match call_mode t with
    | kSync => sync_loaded o lr | kAsync => async_loaded o lr end) (sys_calls s)).
Proof.
  intros Hs Ht Hpc Hl. pose proof (ok_calls _ _ Hs i t Ht) as Hc. unfold call_ok in Hc. rewrite Hpc in Hc.
  destruct (raw_sync _ _ Hl) as [Hnone Hsome]. destruct o as [f|].
  - assert (∃ r, match call_mode t with kSync => sync_loaded (Some f) lr | kAsync => async_loaded (Some f) lr end
      = Completing f r ∧ raw_ok (call_key t) r) as (r & -> & Hr).
    { destruct (call_mode t); [|apply Hsome]. simpl. eexists. split; [done|]. unfold raw_ok, loaded, load_error.
      destruct lr as [[v|]|e|]; eauto 6. }
    destruct (owner_flight _ _ _ _ _ Hs Hc Ht) as (fl & Hfl & Hfok).
    replace (sys_calls s) with (wake false f <$> sys_calls s) by (apply list_fmap_id).
    apply (move_leader own s i t f fl (sys_cache s) fl (Completing f r) false); try done.
    + eapply leads_one; [done..|]. left. unfold announced. by rewrite Hpc.
    + apply (ok_entries _ _ Hs).
    + by rewrite list_insert_id.
    + unfold announced. by rewrite Hpc.
    + destruct Hfok as [Hm Hok]. rewrite Hpc in Hok. split; [done|]. naive_solver.
  - rewrite Hc. apply move_follower; try done; [|apply (ok_entries _ _ Hs)|].
    + intros f' Ho'. destruct (owner_flight _ _ _ _ _ Hs Ho' Ht) as (fl & _ & _ & Hok). by rewrite Hpc in Hok.
    + unfold call_ok. simpl. by destruct (sync_loaded None lr) as [| | | | | | | |[]|].
Qed.

Lemma step_independent_store own s i t m :
  sys_ok own s → sys_calls s !! i = Some t → call_pc t = Storing m →
  sys_ok own (move i t (store_independent (call_key t) m (sys_cache s)) (sys_calls s)).
Proof.
  intros Hs Ht Hpc. pose proof (ok_calls _ _ Hs i t Ht) as Hc. unfold call_ok in Hc. rewrite Hpc in Hc.
  pose proof (ok_entries _ _ Hs) as He. assert (∀ f, own !! f ≠ Some i) as Hno.
  { intros f Ho. destruct (owner_flight _ _ _ _ _ Hs Ho Ht) as (fl & _ & _ & Hok). by rewrite Hpc in Hok. }
  unfold store_independent. destruct (entries (sys_cache s) !! call_key t) as [m'|] eqn:Hm; [by apply move_follower|].
  apply move_follower; try done; simpl.
  - by apply insert_subseteq.
  - by apply map_Forall_insert_2.
  - apply lookup_insert_eq.
Qed.

(** What [complete_load] publishes, for a flight of the store. *)
Lemma complete_load_spec k f r c fl :
  entries_ok (entries c) → flights c !! f = Some fl → raw_ok k r →
  ∃ c' fl', complete_load k f r c = (c', Notifying f (flight_result fl')) ∧
    entries c ⊆ entries c' ∧ entries_ok (entries c') ∧ flights c' = <[f := fl']> (flights c) ∧
    in_flight_loads c' = (if decide (in_flight_loads c !! k = Some f) then delete k (in_flight_loads c)
                          else in_flight_loads c) ∧
    fl_done fl' = true ∧ fl_leader fl' = fl_leader fl ∧ fl_async_result fl' = fl_async_result fl ∧
    result_ok c' k (flight_result fl').
Proof.
  intros He Hfl Hr. unfold complete_load. rewrite Hfl.
  destruct r as [[v|]|e]; simpl in Hr; [|by eexists _, _..].
  destruct (entries c !! k) as [m|] eqn:Hm.
  - by eexists _, _.
  - eexists _, _. split_and!; simpl; try done.
    + by apply insert_subseteq.
    + apply map_Forall_insert_2; [by exists v|done].
    + unfold flight_result. simpl. by rewrite lookup_insert_eq.
Qed.

Lemma step_complete own s i t f r :
  sys_ok own s → sys_calls s !! i = Some t → call_pc t = Completing f r →
  sys_ok own (move i t (complete_load (call_key t) f r (sys_cache s)) (sys_calls s)).
Proof.
  intros Hs Ht Hpc. pose proof (ok_calls _ _ Hs i t Ht) as Hc. unfold call_ok in Hc. rewrite Hpc in Hc.
  destruct Hc as [Ho Hr]. destruct (owner_flight _ _ _ _ _ Hs Ho Ht) as (fl & Hfl & Hm & Hfok). rewrite Hpc in Hfok.
  destruct Hfok as (_ & Hd & Ha & Hin).
  destruct (complete_load_spec (call_key t) f r (sys_cache s) fl (ok_entries _ _ Hs) Hfl Hr)
    as (c' & fl' & -> & Hsub & He' & Hfl' & Hin' & Hd' & Hl' & Ha' & Hr').
  rewrite decide_True in Hin' by done.
  replace (sys_calls s) with (wake false f <$> sys_calls s) by (apply list_fmap_id).
  apply (move_leader own s i t f fl c' fl' _ false); try done.
  - eapply leads_one; [done..|]. left. unfold announced. by rewrite Hpc.
  - intros k f' Hne Hk. rewrite Hin', lookup_delete_ne; [done|congruence].
  - intros k f' Hk. rewrite Hin' in Hk. by apply lookup_delete_Some in Hk as [_ Hk].
  - intros k Hk. rewrite Hin' in Hk. apply lookup_delete_Some in Hk as [Hne Hk].
    destruct (ok_in_flight _ _ Hs k f Hk) as (o & to & Hoo & Hto & Hkey & _). congruence.
  - unfold announced. by rewrite Hpc.
  - split; [simpl; congruence|]. simpl. split_and!; [done..|congruence|done|done].
Qed.

Lemma step_notify own s i t f r :
  sys_ok own s → sys_calls s !! i = Some t → call_pc t = Notifying f r →
  sys_ok own (move i t (sys_cache s, Fulfilling f r) (notify f <$> sys_calls s)).
Proof.
  intros Hs Ht Hpc. pose proof (ok_calls _ _ Hs i t Ht) as Ho. unfold call_ok in Ho. rewrite Hpc in Ho.
  destruct (owner_flight _ _ _ _ _ Hs Ho Ht) as (fl & Hfl & Hm & Hfok). rewrite Hpc in Hfok.
  apply (move_leader own s i t f fl (sys_cache s) fl (Fulfilling f r) true); try done.
  - eapply leads_one; [done..|]. left. unfold announced. by rewrite Hpc.
  - apply (ok_entries _ _ Hs).
  - by rewrite list_insert_id.
  - intros k Hk. destruct (ok_in_flight _ _ Hs k f Hk) as (o & to & Hoo & Hto & _ & Hl). simplify_eq.
    unfold leading in Hl. by rewrite Hpc in Hl.
Qed.

Lemma step_fulfil own s i t f r :
  sys_ok own s → sys_calls s !! i = Some t → call_pc t = Fulfilling f r →
  sys_ok own (move i t (fulfil f r (sys_cache s)) (sys_calls s)).
Proof.
  intros Hs Ht Hpc. pose proof (ok_calls _ _ Hs i t Ht) as Ho. unfold call_ok in Ho. rewrite Hpc in Ho.
  destruct (owner_flight _ _ _ _ _ Hs Ho Ht) as (fl & Hfl & Hm & Hfok). rewrite Hpc in Hfok.
  destruct Hfok as (_ & Hd & Ha & Hr & Hrok). unfold fulfil. rewrite Hfl, Ha.
  replace (sys_calls s) with (wake false f <$> sys_calls s) by (apply list_fmap_id).
  eapply (move_leader own s i t f fl _ _ (Returned r) false); try done.
  - eapply leads_one; [done..|]. right. by exists r.
  - apply (ok_entries _ _ Hs).
  - intros k Hk. destruct (ok_in_flight _ _ Hs k f Hk) as (o & to & Hoo & Hto & _ & Hl). simplify_eq.
    unfold leading in Hl. by rewrite Hpc in Hl.
  - unfold announced. by rewrite Hpc.
Qed.

Lemma step_preserves own s s' : sys_ok own s → step s s' → ∃ own', sys_ok own' s'.
Proof.
  intros Hs Hst. revert Hs. destruct Hst as [lr sp i s s' Hl Hstep]. intros Hs. unfold call_step in Hstep.
  destruct (sys_calls s !! i) as [t|] eqn:Ht; [|done]. cbn [mbind option_bind] in Hstep.
  specialize (Hl t eq_refl). pose proof (ok_calls _ _ Hs i t Ht) as Hc. unfold call_ok in Hc.
  destruct (call_pc t) as [|f n|f|o|f r|m|f r|f r|r|] eqn:Hpc; simplify_eq.
  - by apply step_begin with own.
  - destruct Hc as (Hm & o & to & Ho & Hto & Hk & Ha).
    destruct (owner_flight _ _ _ _ _ Hs Ho Hto) as (fl & Hfl & Hfok). rewrite Hfl in Hstep.
    destruct (fl_done fl) eqn:Hd; [|done]. destruct (n || sp); simplify_eq/=. exists own.
    eapply step_follow; eauto using landed_result.
  - destruct Hc as (o & to & Ho & Hto & Hk). destruct (owner_flight _ _ _ _ _ Hs Ho Hto) as (fl & Hfl & Hfok).
    rewrite Hfl in Hstep. destruct (fl_async_result fl) as [r|] eqn:Har; simplify_eq. exists own.
    eapply step_follow; eauto. destruct Hfok as [_ Hok].
    destruct (call_pc to) as [| | |[]| | | | | |]; try done; destruct_and!; congruence.
  - exists own. by apply step_loaded.
  - exists own. by apply step_complete.
  - exists own. by apply step_independent_store.
  - exists own. by apply step_notify.
  - exists own. by apply step_fulfil.
Qed.

Lemma reachable_ok s : reachable e0 s → ∃ own, sys_ok own s.
Proof.
  intros (s0 & (Hc & He & Hst) & Hrun).
  assert (∃ own, sys_ok own s0) as Hok.
  { exists []. destruct s0 as [c calls]. simpl in *. subst c. split; simpl; try done.
    - intros k m Hk. specialize (He k m Hk). destruct m as [v|]; [|done]. exists v. split; [done|]. by left.
    - intros i t Ht. eapply Forall_lookup in Hst; [|done]. unfold call_ok. by rewrite Hst. }
  clear Hc Hst. induction Hrun as [|s s1 s2 Hstep _ IH]; [done|]. destruct Hok as [own Hok].
  apply IH. by eapply step_preserves.
Qed.

(** ** Independent loads need an asynchronous leader *)

Definition has_async (s : Sys) (k : string) : Prop :=
  ∃ j t, sys_calls s !! j = Some t ∧ call_key t = k ∧ call_mode t = kAsync.

Definition independent (t : Call) : Prop :=
  call_pc t = Loading None.

Lemma move_calls s i t next b f j t' :
  sys_calls s !! i = Some t → sys_calls (move i t next (wake b f <$> sys_calls s)) !! j = Some t' →
  ∃ t0, sys_calls s !! j = Some t0 ∧ call_key t' = call_key t0 ∧ call_mode t' = call_mode t0 ∧
    (independent t' → i = j ∧ next.2 = Loading None ∨ independent t0).
Proof.
  intros Ht Hj. simpl in Hj. destruct (decide (j = i)) as [->|Hne].
  - rewrite list_lookup_insert_eq in Hj by (rewrite length_fmap; by eapply lookup_lt_Some).
    simplify_eq. exists t. split_and!; [done..|]. unfold independent. simpl. tauto.
  - rewrite list_lookup_insert_ne, list_lookup_fmap in Hj by done.
    destruct (sys_calls s !! j) as [t0|] eqn:Ht0; simplify_eq/=. exists t0. split_and!; [done|by rewrite wake_key| |].
    + destruct b, t0 as [m k []]; simpl; try done. unfold notify; simpl. by case_decide.
    + unfold independent. destruct b, t0 as [m k []]; simpl; try tauto. unfold notify; simpl. by case_decide.
Qed.

(** A caller behind an asynchronous leader. *)
Definition behind_async (c : Cache) (k : string) : Prop :=
  ∃ f fl, in_flight_loads c !! k = Some f ∧ flights c !! f = Some fl ∧ fl_leader fl = kAsync.

(** Every step is such a move. *)
Lemma call_step_move lr sp i s s' :
  call_step lr sp i s = Some s' →
  ∃ t next b f, sys_calls s !! i = Some t ∧ s' = move i t next (wake b f <$> sys_calls s) ∧
    (next.2 = Loading None → behind_async (sys_cache s) (call_key t)).
Proof.
  assert (∀ f, (wake false f <$> sys_calls s) = sys_calls s) as Hid by (intros f; apply list_fmap_id).
  unfold call_step. destruct (sys_calls s !! i) as [t|] eqn:Ht; [|done]. cbn [mbind option_bind].
  assert (∀ next, (next.2 = Loading None → behind_async (sys_cache s) (call_key t)) → Some (move i t next (sys_calls s)) = Some s' →
    ∃ t0 next b f, Some t = Some t0 ∧ s' = move i t0 next (wake b f <$> sys_calls s) ∧
    (next.2 = Loading None → behind_async (sys_cache s) (call_key t0))) as Hplain.
  { intros next Hn [= <-]. exists t, next, false, 0%nat. by rewrite Hid. }
  destruct (call_pc t) as [|f n|f|o|f r|m|f r|f r|r|] eqn:Hpc; try done.
  - intros Hmv%Hplain; [done|]. unfold begin_sync, begin_async, behind_async. repeat case_match; simplify_eq/=; try done; eauto.
  - destruct (flights _ !! f) as [fl|]; [destruct (fl_done fl && (n || sp)); [|done]|]; by intros Hmv%Hplain.
  - destruct (flights _ !! f) as [fl|]; [destruct (fl_async_result fl); [|done]|]; by intros Hmv%Hplain.
  - intros Hmv%Hplain; [done|]. destruct (call_mode t), o, lr as [[]| |]; done.
  - intros Hmv%Hplain; [done|]. unfold complete_load. repeat case_match; simplify_eq/=; done.
  - intros Hmv%Hplain; [done|]. unfold store_independent. by repeat case_match.
  - intros [= <-]. by exists t, (sys_cache s, Fulfilling f r), true, f.
  - intros Hmv%Hplain; [done|]. unfold fulfil. by repeat case_match.
Qed.

Lemma step_independent own s s' :
  sys_ok own s → step s s' →
  (∀ i t, sys_calls s !! i = Some t → independent t → has_async s (call_key t)) →
  ∀ i t, sys_calls s' !! i = Some t → independent t → has_async s' (call_key t).
Proof.
  intros Hs Hst. revert Hs. destruct Hst as [lr sp i s s' Hl Hstep]. intros Hs IH j tj Hj Hind.
  destruct (call_step_move _ _ _ _ _ Hstep) as (t & next & b & f & Ht & -> & Hpc).
  assert (∀ k, has_async s k → has_async (move i t next (wake b f <$> sys_calls s)) k) as Hkeep.
  { intros k (o & to & Hto & Hk & Hm).
    destruct (sys_calls (move i t next (wake b f <$> sys_calls s)) !! o) as [to'|] eqn:Hto'.
    - exists o, to'. destruct (move_calls _ _ _ _ _ _ _ _ Ht Hto') as (t0 & Ht0 & Hk0 & Hm0 & _). simplify_eq.
      split_and!; congruence.
    - apply lookup_ge_None in Hto'. simpl in Hto'. rewrite length_insert, length_fmap in Hto'.
      apply lookup_lt_Some in Hto. lia. }
  destruct (move_calls _ _ _ _ _ _ _ _ Ht Hj) as (t0 & Ht0 & Hk0 & _ & Hi). rewrite Hk0. apply Hkeep.
  destruct (Hi Hind) as [[<- Hload]|]; [|by eapply IH]. assert (t0 = t) as -> by congruence.
  destruct (Hpc Hload) as (f' & fl & Hin & Hfl & Hlead).
  destruct (ok_in_flight _ _ Hs _ _ Hin) as (o & to & Ho & Hto & Hk & _).
  destruct (owner_flight _ _ _ _ _ Hs Ho Hto) as (fl' & Hfl' & Hm & _). exists o, to. split_and!; congruence.
Qed.

Lemma reachable_independent s i t :
  reachable e0 s → sys_calls s !! i = Some t → independent t → has_async s (call_key t).
Proof.
  intros (s0 & Hinit & Hrun). revert i t.
  assert (∀ i t, sys_calls s0 !! i = Some t → independent t → has_async s0 (call_key t)) as Hind.
  { intros i t Ht Hi. destruct Hinit as (_ & _ & Hst). eapply Forall_lookup in Hst; [|done].
    unfold independent in Hi. by rewrite Hst in Hi. }
  assert (reachable e0 s0) as Hr by (by exists s0). clear Hinit.
  induction Hrun as [|s0 s1 s Hstep _ IH]; [done|]. apply IH.
  - destruct (reachable_ok s0 Hr) as [own Hs]. by eapply step_independent.
  - destruct Hr as (s00 & Hi & Hrun). exists s00. split; [done|]. eapply rtc_r; eauto.
Qed.

(** ** Work and progress *)

(** The steps a call can still make. *)
Definition pc_work (t : Call) : nat :=
  match call_pc t with
  | Start => 5
  | Loading _ => 4
  | Completing _ _ => 3
  | Notifying _ _ => 2
  | Fulfilling _ _ | Waiting _ _ | Subscribed _ | Storing _ => 1
  | Returned _ | Undefined => 0
  end.

Definition work (s : Sys) : nat := sum_list (pc_work <$> sys_calls s).

Lemma sum_list_insert_lt l i x y :
  l !! i = Some x → (y < x)%nat → (sum_list (<[i := y]> l) < sum_list l)%nat.
Proof.
  revert i. induction l as [|z l IH]; intros [|i] Hi Hlt; simplify_eq/=; [lia|].
  specialize (IH i Hi Hlt). lia.
Qed.

Lemma call_step_work lr sp i s s' : call_step lr sp i s = Some s' → (work s' < work s)%nat.
Proof.
  assert (∀ f t, pc_work (notify f t) = pc_work t) as Hnt.
  { intros f [m k []]; unfold notify; simpl; try done. by case_decide. }
  unfold call_step. destruct (sys_calls s !! i) as [t|] eqn:Ht; [|done]. cbn [mbind option_bind].
  assert (∀ next, (pc_work (set_pc next.2 t) < pc_work t)%nat → Some (move i t next (sys_calls s)) = Some s' →
    (work s' < work s)%nat) as Hplain.
  { intros next Hlt [= <-]. unfold work. simpl. rewrite list_fmap_insert. eapply sum_list_insert_lt; [|done].
    by rewrite list_lookup_fmap, Ht. }
  destruct (call_pc t) as [|f n|f|o|f r|m|f r|f r|r|] eqn:Hpc; try done;
    try (intros Hmv%Hplain; [done|]); unfold pc_work; simpl; rewrite ?Hpc.
  - unfold begin_sync, begin_async, lead. repeat case_match; simplify_eq/=; lia.
  - repeat case_match; try done; intros Hmv%Hplain; (done || (unfold pc_work; simpl; rewrite ?Hpc; lia)).
  - repeat case_match; try done; intros Hmv%Hplain; (done || (unfold pc_work; simpl; rewrite ?Hpc; lia)).
  - unfold sync_loaded, async_loaded. repeat case_match; simplify_eq/=; lia.
  - unfold complete_load. repeat case_match; simplify_eq/=; lia.
  - unfold store_independent. repeat case_match; simplify_eq/=; lia.
  - intros [= <-]. unfold work. simpl. rewrite list_fmap_insert, <- list_fmap_compose.
    rewrite (list_fmap_ext (pc_work ∘ notify f) pc_work (sys_calls s)) by (intros; apply Hnt).
    eapply sum_list_insert_lt; [by rewrite list_lookup_fmap, Ht|]. unfold pc_work. simpl. rewrite Hpc. lia.
  - unfold fulfil. repeat case_match; simplify_eq/=; lia.
Qed.

Lemma call_step_any lr lr' b i s s' : call_step lr b i s = Some s' → is_Some (call_step lr' b i s).
Proof.
  unfold call_step. destruct (sys_calls s !! i) as [t|]; [|done]. cbn [mbind option_bind].
  destruct (call_pc t); try done; intros H; eauto; by rewrite H.
Qed.

(** A call is over, or some call moves without a spurious wake-up. *)
Lemma some_call_moves own s i t lr :
  sys_ok own s → sys_calls s !! i = Some t →
  (∃ r, call_pc t = Returned r) ∨ ∃ j s', call_step lr false j s = Some s'.
Proof.
  intros Hs Ht. pose proof (ok_calls _ _ Hs i t Ht) as Hc. unfold call_ok in Hc.
  assert (∀ j tj, sys_calls s !! j = Some tj →
    match call_pc tj with Start | Loading _ | Completing _ _ | Storing _ | Notifying _ _ | Fulfilling _ _ => True
    | _ => False end → call_step lr false j s ≠ None) as Hrun.
  { intros j tj Htj Hpc. unfold call_step. rewrite Htj. cbn [mbind option_bind]. by destruct (call_pc tj). }
  assert (∀ j, call_step lr false j s ≠ None → ∃ j s', call_step lr false j s = Some s') as Hsome.
  { intros j Hj. destruct (call_step lr false j s) as [s'|] eqn:Heq; [|done]. by exists j, s'. }
  destruct (call_pc t) as [|f n|f|o|f r|m|f r|f r|r|] eqn:Hpc; [right..|by left; exists r|done].
  all: try (by apply (Hsome i), (Hrun i t Ht); rewrite Hpc).
  - destruct Hc as (_ & o & to & Ho & Hto & _ & Ha).
    destruct (owner_flight _ _ _ _ _ Hs Ho Hto) as (fl & Hfl & _ & Hfok).
    destruct (call_pc to) as [| | |[]| | | | | |] eqn:Hto_pc; try done;
      try (by apply (Hsome o), (Hrun o to Hto); rewrite Hto_pc).
    apply (Hsome i). unfold call_step. rewrite Ht. cbn [mbind option_bind]. rewrite Hpc, Hfl.
    unfold announced in Ha. rewrite Hto_pc in Ha. subst n. destruct Hfok as (-> & _). done.
  - destruct Hc as (o & to & Ho & Hto & _).
    destruct (owner_flight _ _ _ _ _ Hs Ho Hto) as (fl & Hfl & _ & Hfok).
    destruct (call_pc to) as [| | |[]| | | | | |] eqn:Hto_pc; try done;
      try (by apply (Hsome o), (Hrun o to Hto); rewrite Hto_pc).
    apply (Hsome i). unfold call_step. rewrite Ht. cbn [mbind option_bind]. rewrite Hpc, Hfl.
    by destruct Hfok as (_ & -> & _).
Qed.
End invariant.

(** ** What callers observe *)

(** C23: Callers of a cache that loads metadata once per key agree, under every
    interleaving and every behaviour of the loaders.  A call that succeeded has
    non-null metadata, which is what the cache holds for the key and came from
    a load of that key or was there before; so all successful calls of a key
    return the same metadata.  A call that failed has an error of a loader of
    its key, and failures are never cached.  No call finds a flight destroyed or
    a promise fulfilled before.  A key has at most one leader, and if all its
    callers are synchronous, at most one of them is loading. *)
Theorem cache_callers_agree e0 s :
  reachable e0 s →
  map_Forall (λ k m, ∃ v, m = Some v ∧ loaded e0 k v) (entries (sys_cache s)) ∧
  (∀ i t, sys_calls s !! i = Some t → call_pc t ≠ Undefined) ∧
  (∀ i t r, sys_calls s !! i = Some t → call_pc t = Returned r →
    match r with
    | inl m => m ≠ None ∧ cache_get (call_key t) (sys_cache s) = Some m
    | inr e => load_error (call_key t) e
    end) ∧
  (∀ i j ti tj, sys_calls s !! i = Some ti → sys_calls s !! j = Some tj →
    call_key ti = call_key tj → leading ti = true → leading tj = true → i = j) ∧
  (∀ i j ti tj, sys_calls s !! i = Some ti → sys_calls s !! j = Some tj → call_key ti = call_key tj →
    ¬ has_async s (call_key ti) → (∃ f, call_pc ti = Loading f) → (∃ f, call_pc tj = Loading f) → i = j).
Proof.
  intros Hr. destruct (reachable_ok e0 s Hr) as [own Hs].
  assert (∀ i j ti tj, sys_calls s !! i = Some ti → sys_calls s !! j = Some tj →
    call_key ti = call_key tj → leading ti = true → leading tj = true → i = j) as Hlead.
  { assert (∀ i t, sys_calls s !! i = Some t → leading t = true →
      ∃ f, own !! f = Some i ∧ in_flight_loads (sys_cache s) !! call_key t = Some f) as Hfly.
    { intros i t Ht Hl. pose proof (ok_calls _ _ _ Hs i t Ht) as Hc. unfold call_ok, leading in *.
      assert (∃ f, own !! f = Some i) as [f Ho] by (destruct (call_pc t) as [| | |[]| | | | | |]; naive_solver).
      exists f. split; [done|]. destruct (owner_flight _ _ _ _ _ _ Hs Ho Ht) as (fl & _ & _ & Hok).
      destruct (call_pc t) as [| | |[]| | | | | |]; naive_solver. }
    intros i j ti tj Hi Hj Hk Hli Hlj. destruct (Hfly i ti Hi Hli) as (f & Hof & Hinf).
    destruct (Hfly j tj Hj Hlj) as (f' & Hof' & Hinf'). congruence. }
  split_and!; [apply (ok_entries _ _ _ Hs)|..|done|].
  - intros i t Ht Hu. pose proof (ok_calls _ _ _ Hs i t Ht) as Hc. unfold call_ok in Hc. by rewrite Hu in Hc.
  - intros i t r Ht Hret. pose proof (ok_calls _ _ _ Hs i t Ht) as Hc. unfold call_ok in Hc. rewrite Hret in Hc.
    destruct r as [m|e]; [|done]. split; [|done].
    destruct (ok_entries _ _ _ Hs _ _ Hc) as (v & -> & _). done.
  - intros i j ti tj Hi Hj Hk Hna [f Hf] [f' Hf']. apply (Hlead i j ti tj); try done; unfold leading.
    + rewrite Hf. destruct f; [done|]. by destruct Hna; eapply reachable_independent.
    + rewrite Hf'. destruct f'; [done|]. destruct Hna. rewrite Hk. by eapply reachable_independent.
Qed.

(** C24: No call of the cache waits forever.  If every loader comes to an end,
    an execution from a reachable state has a bounded number of steps, and when
    no call can move, without counting on spurious wake-ups, every call has
    returned and no load is in flight: no notification is lost, and synchronous
    callers never block behind an asynchronous load. *)
Theorem cache_calls_return e0 s :
  (∀ k, ∃ lr, loads k lr) → reachable e0 s →
  (∀ n s', nsteps step n s s' → (n ≤ work s)%nat) ∧
  (∀ s', rtc step s s' →
    (∀ lr i t, sys_calls s' !! i = Some t → loads (call_key t) lr → call_step lr false i s' = None) →
    Forall (λ t, ∃ r, call_pc t = Returned r) (sys_calls s') ∧ in_flight_loads (sys_cache s') = ∅).
Proof.
  intros Hloads Hr. split.
  - intros n. clear Hr. revert s. induction n as [|n IH]; intros s s' Hn; [lia|].
    inversion Hn as [|? ? s1 ? Hst Hrest]; subst. apply IH in Hrest.
    destruct Hst as [lr sp i s s1 _ Hst%call_step_work]. lia.
  - intros s' Hrun Hstuck. assert (reachable e0 s') as Hr'.
    { destruct Hr as (s0 & Hi & Hrun0). exists s0. split; [done|]. by etrans. }
    destruct (reachable_ok e0 s' Hr') as [own Hs].
    assert (∀ i t, sys_calls s' !! i = Some t → ∃ r, call_pc t = Returned r) as Hret.
    { intros i t Ht. destruct (some_call_moves e0 own s' i t LoadThrew Hs Ht) as [|(j & s'' & Hj)]; [done|].
      destruct (sys_calls s' !! j) as [tj|] eqn:Htj; [|unfold call_step in Hj; by rewrite Htj in Hj].
      destruct (Hloads (call_key tj)) as [lr Hl]. apply (call_step_any _ lr) in Hj as [? Hj].
      by rewrite (Hstuck lr j tj Htj Hl) in Hj. }
    split; [apply Forall_lookup; eauto|]. apply map_empty. intros k.
    destruct (in_flight_loads (sys_cache s') !! k) as [f|] eqn:Hk; [|done].
    destruct (ok_in_flight _ _ _ Hs k f Hk) as (o & to & _ & Hto & _ & Hl).
    destruct (Hret o to Hto) as [r Hpc]. unfold leading in Hl. by rewrite Hpc in Hl.
Qed.
End cache.

(** ** One call on its own *)

Section alone.
Context {Meta : Type}.

(** A call that meets no other one, on the entries of the cache. *)
Definition get_or_open (key : string) (lr : @LoadResult Meta) : M (gmap string (option Meta)) Status (option Meta) := λ e,
  match e !! key with
  | Some m => (e, Ok m)
  | None =>
      match lr with
      | LoadOk (Some v) => (<[key := Some v]> e, Ok (Some v))
      | LoadOk None => (e, Err status_Invalid)
      | LoadError e' => (e, Err e')
      | LoadThrew => (e, Err status_UnknownError)
      end
  end.

(** The calls in turn, each until it is over. *)
Fixpoint run_call (fuel : nat) (lr : @LoadResult Meta) (i : nat) (s : Sys) : Sys :=
  match fuel with
  | O => s
  | S fuel' => match call_step lr false i s with Some s' => run_call fuel' lr i s' | None => s end
  end.

Definition to_result (o : outcome Status (option Meta)) : option Meta + Status :=
  match o with Ok m => inl m | Err e => inr e | Ub => inl None end.

(** Five steps take a lone call, of either kind, to the result and the entries
    of [get_or_open]. *)
Lemma run_alone mode key lr e :
  ∃ fls, run_call 5 lr 0 (mkSys (mkCache e ∅ []) [mkCall mode key Start]) =
    mkSys (mkCache (get_or_open key lr e).1 ∅ fls)
      [mkCall mode key (Returned (to_result (get_or_open key lr e).2))].
Proof.
  unfold get_or_open. destruct (e !! key) as [m|] eqn:He.
  - exists []. destruct mode; simpl; unfold begin_sync, begin_async; simpl; by rewrite He.
  - destruct mode, lr as [[v|]|e'|]; eexists; simpl; unfold begin_sync, begin_async; simpl;
      rewrite He, lookup_empty; simpl; unfold complete_load; simpl; rewrite ?He; simpl;
      rewrite decide_True by (apply lookup_insert_eq); rewrite delete_insert_eq, delete_empty; done.
Qed.
End alone.

(** ** Examples *)

Module SampleCache.

(** Loaders that may do anything. *)
Definition any_load (_ : string) (_ : @LoadResult nat) : Prop := True.

(** A schedule: what a loader would return, spurious wake-ups, and the call. *)
Fixpoint run_schedule (l : list (@LoadResult nat * bool * nat)) (s : @Sys nat) : option (@Sys nat) :=
  match l with
  | [] => Some s
  | (lr, sp, i) :: l' => s' ← call_step lr sp i s; run_schedule l' s'
  end.

Lemma run_schedule_rtc l s s' : run_schedule l s = Some s' → rtc (step any_load) s s'.
Proof.
  revert s. induction l as [|[[lr sp] i] l IH]; intros s Hrun; simplify_eq/=; [done|].
  destruct (call_step lr sp i s) as [s1|] eqn:Hs1; [|done]. eapply rtc_l; [|by apply IH].
  by econstructor.
Qed.

Definition start : @Sys nat :=
  mkSys cache_Make [mkCall kAsync "a" Start; mkCall kSync "a" Start; mkCall kAsync "a" Start; mkCall kSync "b" Start].

(** The asynchronous leader of "a" is overtaken by a synchronous call, which
    loads on its own: both, and the subscriber, get what was cached first. *)
Definition overtaking : list (@LoadResult nat * bool * nat) :=
  [(LoadThrew, false, 0%nat); (LoadThrew, false, 1%nat); (LoadThrew, false, 2%nat);
   (LoadOk (Some 7%nat), false, 1%nat); (LoadOk (Some 8%nat), false, 0%nat); (LoadThrew, false, 1%nat);
   (LoadThrew, false, 0%nat); (LoadThrew, false, 0%nat); (LoadThrew, false, 0%nat); (LoadThrew, false, 2%nat);
   (LoadThrew, false, 3%nat); (LoadOk None, false, 3%nat); (LoadThrew, false, 3%nat);
   (LoadThrew, false, 3%nat); (LoadThrew, false, 3%nat)].

Example overtaking_run :
  (λ s, (call_pc <$> sys_calls s, cache_get "a" (sys_cache s), cache_get "b" (sys_cache s)))
    <$> run_schedule overtaking start =
  Some ([Returned (inl (Some 7%nat)); Returned (inl (Some 7%nat)); Returned (inl (Some 7%nat));
         Returned (inr status_Invalid)], Some (Some 7%nat), None).
Proof. vm_compute. reflexivity. Qed.

Lemma start_initial : initial ∅ start.
Proof. split; [done|]. split; [apply map_Forall_empty|by repeat constructor]. Qed.

Lemma start_reachable : reachable any_load ∅ start.
Proof. exists start. split; [apply start_initial|done]. Qed.

Lemma cache_callers_agree_witness :
  ∃ s, run_schedule overtaking start = Some s ∧ cache_get "a" (sys_cache s) = Some (Some 7%nat) ∧
    call_pc <$> sys_calls s !! 2%nat = Some (Returned (inl (Some 7%nat))).
Proof.
  destruct (run_schedule overtaking start) as [s|] eqn:Hs; [|by vm_compute in Hs]. exists s.
  destruct (cache_callers_agree any_load ∅ s) as (_ & _ & Hret & _).
  { exists start. split; [apply start_initial|]. by apply (run_schedule_rtc overtaking). }
  assert (call_pc <$> sys_calls s !! 2%nat = Some (Returned (inl (Some 7%nat)))) as Hpc.
  { vm_compute in Hs. injection Hs as <-. reflexivity. }
  split; [done|]. split; [|done].
  destruct (sys_calls s !! 2%nat) as [t|] eqn:Ht; [|done]. injection Hpc as Hpc.
  destruct (Hret 2%nat t _ Ht Hpc) as [_ Hget]. rewrite <- Hget. f_equal.
  clear Hret Hget Hpc. vm_compute in Hs. injection Hs as <-. injection Ht as <-. reflexivity.
Defined.

Lemma cache_calls_return_witness :
  ∃ s, run_schedule overtaking start = Some s ∧ in_flight_loads (sys_cache s) = ∅ ∧
    Forall (λ t, ∃ r, call_pc t = Returned r) (sys_calls s).
Proof.
  destruct (run_schedule overtaking start) as [s|] eqn:Hs; [|by vm_compute in Hs]. exists s.
  destruct (cache_calls_return any_load ∅ start) as [_ Hend].
  { intros k. by exists LoadThrew. }
  { apply start_reachable. }
  destruct (Hend s) as [Hret Hin]; [by apply (run_schedule_rtc overtaking)| |by split_and!].
  intros lr i t Ht _. clear Hend. vm_compute in Hs. injection Hs as <-.
  by do 4 (destruct i as [|i]; [reflexivity|]).
Defined.
End SampleCache.
