(* ===== verification/AsyncTasks.v ===== *)
(** * Asynchronous read tasks

    [format/async_tasks.h/.cpp]: the chunks or rows of a request become tasks,
    one per file and contiguous range, which are bisected until there are enough
    of them.  [ColumnGroupReaderImpl::get_chunks_async] runs one chunk task and
    [ChunkReaderImpl::get_chunks_async] of [reader.cpp] plans, runs and collects
    them.  A task that is created is its result: completion order does not
    matter to the fan-in, which goes through the tasks in order. *)

From S2P Require Import Prelude CppString Status ColumnGroups ArrowData ColumnGroupReader ColumnGroupReaderCorrect ColumnGroupChunks.

(** ** Tasks *)

Record ChunkTask := mkChunkTask {
  ct_file_index : nat;         (* size_t *)
  ct_chunk_indices : list Z;   (* int64_t *)
  ct_range_start : Z;          (* uint64_t *)
  ct_range_end : Z;            (* uint64_t *)
}.

Record TakeTask := mkTakeTask {
  tt_reader_index : nat;
  tt_file_index : nat;
  tt_row_indices : list Z;
  tt_original_positions : list nat;
}.

(** The concept [AsyncTaskSplitTraits]. *)
Class SplitTraits (Task : Type) := {
  task_size : Task → nat;
  can_split : Task → bool;
  split_task : Task → outcome Status (Task * Task);   (* left, right *)
}.

(** [ChunkTask::SplitTraits], for a lookup of chunks. *)
Definition chunk_task_split (get_chunk_info : Z → outcome Status ChunkInfo) (left : ChunkTask) :
    outcome Status (ChunkTask * ChunkTask) :=
  let mid := (length (ct_chunk_indices left) / 2)%nat in
  k ← deref (ct_chunk_indices left !! mid);
  mid_info ← get_chunk_info k;
  Ok (mkChunkTask (ct_file_index left) (take mid (ct_chunk_indices left)) (ct_range_start left)
        (row_offset_in_file mid_info),
      mkChunkTask (ct_file_index left) (drop mid (ct_chunk_indices left)) (row_offset_in_file mid_info)
        (ct_range_end left)).

Definition chunk_traits (get_chunk_info : Z → outcome Status ChunkInfo) : SplitTraits ChunkTask := {|
  task_size t := length (ct_chunk_indices t);
  can_split t := (1 <? length (ct_chunk_indices t))%nat;
  split_task := chunk_task_split get_chunk_info;
|}.

Definition take_task_split (left : TakeTask) : outcome Status (TakeTask * TakeTask) :=
  let mid := (length (tt_row_indices left) / 2)%nat in
  if (length (tt_original_positions left) <? mid)%nat then Ub   (* the iterator is past the end *)
  else Ok (mkTakeTask (tt_reader_index left) (tt_file_index left) (take mid (tt_row_indices left))
             (take mid (tt_original_positions left)),
           mkTakeTask (tt_reader_index left) (tt_file_index left) (drop mid (tt_row_indices left))
             (drop mid (tt_original_positions left))).

#[export] Instance take_traits : SplitTraits TakeTask := {|
  task_size t := length (tt_row_indices t);
  can_split t := (1 <? length (tt_row_indices t))%nat;
  split_task := take_task_split;
|}.

(** ** Natural tasks *)

(** [m[k].push_back(x)] on a [std::map], as its entries in order. *)
Fixpoint map_push {A} (k : nat) (x : A) (m : list (nat * list A)) : list (nat * list A) :=
  match m with
  | [] => [(k, [x])]
  | (k', l) :: m' =>
      if (k <? k')%nat then (k, [x]) :: m
      else if (k =? k')%nat then (k', l ++ [x]) :: m'
      else (k', l) :: map_push k x m'
  end.

Section build.
Context (get_chunk_info : Z → outcome Status ChunkInfo).

Definition group_chunks (chunk_indices : list Z) : outcome Status (list (nat * list Z)) :=
  fold_out (λ groups idx, info ← get_chunk_info idx; Ok (map_push (file_index info) idx groups))
    chunk_indices [].

(** The loop over the chunks of a file, from the second one on. *)
Fixpoint extend_tasks (current : ChunkTask) (prev : ChunkInfo) (chunks : list Z) :
    outcome Status (list ChunkTask) :=
  match chunks with
  | [] => Ok [current]
  | k :: chunks' =>
      curr ← get_chunk_info k;
      let curr_end := u64_add (row_offset_in_file curr) (number_of_rows curr) in
      if row_offset_in_file curr =? u64_add (row_offset_in_file prev) (number_of_rows prev)
      then extend_tasks (mkChunkTask (ct_file_index current) (ct_chunk_indices current ++ [k])
                           (ct_range_start current) curr_end) curr chunks'
      else
        rest ← extend_tasks (mkChunkTask (ct_file_index current) [k] (row_offset_in_file curr) curr_end)
                 curr chunks';
        Ok (current :: rest)
  end.

Definition file_tasks (file_idx : nat) (chunks : list Z) : outcome Status (list ChunkTask) :=
  match chunks with
  | [] => Ok []
  | k :: chunks' =>
      first_info ← get_chunk_info k;
      extend_tasks (mkChunkTask file_idx [k] (row_offset_in_file first_info)
                      (u64_add (row_offset_in_file first_info) (number_of_rows first_info)))
        first_info chunks'
  end.

Definition ChunkTask_Build (chunk_indices : list Z) : outcome Status (list ChunkTask) :=
  file_groups ← group_chunks chunk_indices;
  fold_out (λ tasks e, ts ← file_tasks e.1 e.2; Ok (tasks ++ ts)) file_groups [].
End build.

(** The check of [TakeTask::Build]: rows are sorted, unique and not negative. *)
Fixpoint check_rows (prev : option Z) (row_indices : list Z) : outcome Status unit :=
  match row_indices with
  | [] => Ok tt
  | r :: row_indices' =>
      if r <? 0 then Err status_Invalid
      else if match prev with Some p => r <=? p | None => false end then Err status_Invalid
      else check_rows (Some r) row_indices'
  end.

(** The file that holds a logical row. *)
Fixpoint find_file (row_index_remain : Z) (file_index : nat) (files : list ColumnGroupFile) :
    outcome Status nat :=
  match files with
  | [] => Err status_Invalid
  | f :: files' =>
      if (start_index f <? 0) || (end_index f <? 0) then Err status_Invalid
      else
        let num_of_rows_in_file := end_index f - start_index f in
        if row_index_remain <? num_of_rows_in_file then Ok file_index
        else if row_index_remain - num_of_rows_in_file <=? INT64_MAX
        then find_file (row_index_remain - num_of_rows_in_file) (S file_index) files'
        else Ub     (* signed overflow *)
  end.

(** The rows of each file with their positions in the request. *)
Definition group_rows (row_indices : list Z) (files : list ColumnGroupFile) :
    outcome Status (list (nat * list (Z * nat))) :=
  fold_out (λ groups e, file_index ← find_file e.2 0 files; Ok (map_push file_index (e.2, e.1) groups))
    (imap pair row_indices) [].

Definition take_task (reader_index : nat) (e : nat * list (Z * nat)) : TakeTask :=
  mkTakeTask reader_index e.1 e.2.*1 e.2.*2.

Definition take_tasks_of_group (row_indices : list Z) (reader_index : nat) (group : ColumnGroup) :
    outcome Status (list TakeTask) :=
  file_groups ← group_rows row_indices (files group);
  Ok (take_task reader_index <$> (file_groups : list _)).

Definition TakeTask_Build (column_groups : list (option ColumnGroup)) (row_indices : list Z) :
    outcome Status (list TakeTask) :=
  check_rows None row_indices;;
  fold_out (λ all_tasks e,
    match e.2 with
    | None => Err status_Invalid
    | Some group => ts ← take_tasks_of_group row_indices e.1 group; Ok (all_tasks ++ ts)
    end) (imap pair column_groups) [].

(** ** Splitting *)

Section splitting.
Context {Task : Type} (traits : SplitTraits Task).

(** [SplittableTaskMaxHeap]: the candidates are (size, index). *)
Definition CompareCandidate (lhs rhs : nat * nat) : bool :=
  if negb (lhs.1 =? rhs.1)%nat then (lhs.1 <? rhs.1)%nat else (rhs.2 <? lhs.2)%nat.

Definition push_if_splittable (tasks : list Task) (index : nat) (heap : list (nat * nat)) :
    list (nat * nat) :=
  match tasks !! index with
  | Some t => if can_split t then (task_size t, index) :: heap else heap
  | None => heap
  end.

Definition make_heap (tasks : list Task) : list (nat * nat) :=
  foldl (λ heap index, push_if_splittable tasks index heap) [] (seq 0 (length tasks)).

(** [top] and [pop]: the greatest candidate; no two are equivalent. *)
Fixpoint pop_largest (heap : list (nat * nat)) : option ((nat * nat) * list (nat * nat)) :=
  match heap with
  | [] => None
  | c :: heap' =>
      match pop_largest heap' with
      | None => Some (c, [])
      | Some (d, rest) => if CompareCandidate c d then Some (d, c :: rest) else Some (c, d :: rest)
      end
  end.

Definition split_largest (tasks : list Task) (heap : list (nat * nat)) :
    outcome Status (option (list Task * list (nat * nat))) :=
  match pop_largest heap with
  | None => Ok None
  | Some ((_, index), heap) =>
      t ← deref (tasks !! index);
      halves ← split_task t;
      let right_index := length tasks in
      let tasks := <[index := halves.1]> tasks ++ [halves.2] in
      Ok (Some (tasks, push_if_splittable tasks right_index (push_if_splittable tasks index heap)))
  end.

(** The loops of the policies, with fuel. *)
Fixpoint split_while (cond : nat → bool) (fuel : nat) (tasks : list Task) (heap : list (nat * nat)) :
    outcome Status (list Task) :=
  match fuel with
  | O => Ub
  | S fuel' =>
      if cond (length tasks) then
        next ← split_largest tasks heap;
        match next with
        | None => Ok tasks
        | Some (tasks, heap) => split_while cond fuel' tasks heap
        end
      else Ok tasks
  end.

Definition total_size (tasks : list Task) : nat := sum_list (task_size <$> tasks).

Definition SplitToParallelism (tasks : list Task) (target_count : Z) : outcome Status (list Task) :=
  if target_count <=? Z.of_nat (length tasks) then Ok tasks
  else split_while (λ n, Z.of_nat n <? target_count) (S (total_size tasks)) tasks (make_heap tasks).

Definition SplitAll (tasks : list Task) : outcome Status (list Task) :=
  split_while (λ _, true) (S (total_size tasks)) tasks (make_heap tasks).
End splitting.

Inductive AsyncTaskSplitStrategy := kNoSplit | kSplitToParallelism | kSplitAll.

Definition SplitAsyncTasks {Task} (traits : SplitTraits Task) (tasks : list Task) (target_count : Z)
    (strategy : AsyncTaskSplitStrategy) : outcome Status (list Task) :=
  match strategy with
  | kNoSplit => Ok tasks
  | kSplitToParallelism => SplitToParallelism traits tasks target_count
  | kSplitAll => SplitAll traits tasks
  end.

(** For the value of the property. *)
Definition GetAsyncTaskSplitStrategy (strategy : string) : AsyncTaskSplitStrategy :=
  if bool_decide (strategy = "none") then kNoSplit
  else if bool_decide (strategy = "all") then kSplitAll
  else kSplitToParallelism.

(** ** Splitting keeps what is read *)

(** What the traits promise: a task is a nonempty list of items, and splitting
    one of at least two items cuts the list in two nonempty parts. *)
Class SplitLaws {Task : Type} (traits : SplitTraits Task) (Item : Type) := {
  items : Task → list Item;
  task_ok : Task → Prop;
  items_nonempty t : task_ok t → items t ≠ [];
  size_items t : task_ok t → task_size t = length (items t);
  can_split_items t : task_ok t → can_split t = (1 <? length (items t))%nat;
  split_items t : task_ok t → can_split t = true →
    ∃ l r, split_task t = Ok (l, r) ∧ task_ok l ∧ task_ok r ∧ items l ++ items r = items t;
}.

Section split_laws.
Context {Task Item : Type} {traits : SplitTraits Task} `{!SplitLaws traits Item}.

Definition all_items (tasks : list Task) : list Item := mjoin (items <$> tasks).

Lemma all_items_app ts1 ts2 : all_items (ts1 ++ ts2) = all_items ts1 ++ all_items ts2.
Proof. unfold all_items. by rewrite fmap_app, join_app. Qed.

Lemma total_size_items tasks :
  Forall task_ok tasks → total_size traits tasks = length (all_items tasks).
Proof.
  induction 1 as [|t tasks Ht Htasks IH]; [done|]. unfold total_size, all_items in *. rewrite !fmap_cons.
  simpl. by rewrite IH, size_items, length_app by done.
Qed.

Lemma length_tasks_le tasks : Forall task_ok tasks → (length tasks ≤ length (all_items tasks))%nat.
Proof.
  induction 1 as [|t tasks Ht Htasks IH]; [done|]. unfold all_items in *. rewrite fmap_cons. simpl.
  rewrite length_app. pose proof (items_nonempty t Ht). destruct (items t); [done|]. simpl. lia.
Qed.

Lemma all_single tasks :
  Forall task_ok tasks → Forall (λ t, can_split t = false) tasks →
  length tasks = length (all_items tasks).
Proof.
  induction 1 as [|t tasks Ht Htasks IH]; intros Hs; [done|]. apply Forall_cons in Hs as [Hc Hs].
  unfold all_items in *. rewrite fmap_cons. simpl. rewrite length_app, <- IH by done.
  rewrite can_split_items in Hc by done. apply Nat.ltb_ge in Hc. pose proof (items_nonempty t Ht).
  destruct (items t) as [|x [|y l]]; simpl in *; [done|done|lia].
Qed.

(** The heap holds the indices, among those that satisfy [P], of exactly the
    tasks that can be split. *)
Definition heap_for (P : nat → Prop) (tasks : list Task) (heap : list (nat * nat)) : Prop :=
  NoDup heap.*2 ∧ ∀ i, i ∈ heap.*2 ↔ P i ∧ ∃ t, tasks !! i = Some t ∧ can_split t = true.

Lemma heap_for_ext P Q tasks heap :
  (∀ i, (i < length tasks)%nat → P i ↔ Q i) → heap_for P tasks heap → heap_for Q tasks heap.
Proof.
  intros HPQ [Hnd Hh]. split; [done|]. intros i. rewrite Hh. split; intros (Hi & t & Ht & Hc);
    (split; [apply lookup_lt_Some in Ht as Hlt; specialize (HPQ i Hlt); tauto|eauto]).
Qed.

Lemma push_heap_for P tasks heap i :
  heap_for P tasks heap → ¬ P i → heap_for (λ j, P j ∨ j = i) tasks (push_if_splittable traits tasks i heap).
Proof.
  intros [Hnd Hh] Hi. unfold push_if_splittable. destruct (tasks !! i) as [t|] eqn:Ht.
  2:{ split; [done|]. intros j. rewrite Hh. split; [tauto|].
      intros [[?| ->] (t' & ? & ?)]; [by eauto|congruence]. }
  destruct (can_split t) eqn:Hc.
  - split.
    + rewrite fmap_cons. constructor; [|done]. rewrite Hh. tauto.
    + intros j. rewrite fmap_cons, elem_of_cons, Hh. simpl.
      split; [intros [->|[??]]|intros [[?| ->] ?]]; eauto 6.
  - split; [done|]. intros j. rewrite Hh. split; [tauto|].
    intros [[?| ->] (t' & ? & ?)]; [by eauto|congruence].
Qed.

Lemma make_heap_for tasks : heap_for (λ _, True) tasks (make_heap traits tasks).
Proof.
  assert (∀ n, heap_for (λ j, (j < n)%nat) tasks
    (foldl (λ heap index, push_if_splittable traits tasks index heap) [] (seq 0 n))) as Hn.
  { intros n. induction n as [|n IH].
    - split; [constructor|]. intros i. split; [intros Hi; by apply not_elem_of_nil in Hi|lia].
    - rewrite seq_S, foldl_app. simpl. eapply heap_for_ext; [|by apply push_heap_for; [apply IH|simpl; lia]].
      intros i _. simpl. lia. }
  eapply heap_for_ext; [|apply Hn]. intros i Hi. simpl. tauto.
Qed.

Lemma pop_largest_perm heap :
  match pop_largest heap with
  | None => heap = []
  | Some (c, rest) => heap ≡ₚ c :: rest
  end.
Proof.
  induction heap as [|c heap IH]; [done|]. simpl. destruct (pop_largest heap) as [[d rest]|]; [|by subst].
  destruct (CompareCandidate c d); rewrite IH; [apply Permutation_swap|done].
Qed.

Lemma all_items_insert tasks i t l r :
  tasks !! i = Some t → items l ++ items r = items t →
  all_items (<[i := l]> tasks ++ [r]) ≡ₚ all_items tasks.
Proof.
  intros Hi Hlr. apply list_elem_of_split_length in Hi as (ts1 & ts2 & -> & ->).
  rewrite insert_app_r_alt, Nat.sub_diag by done. simpl.
  rewrite !all_items_app. unfold all_items. rewrite !fmap_cons. simpl. rewrite <- Hlr. simpl.
  rewrite app_nil_r, <- !app_assoc. apply Permutation_app_head, Permutation_app_head, Permutation_app_comm.
Qed.

(** One split. *)
Lemma split_largest_spec tasks heap :
  Forall task_ok tasks → heap_for (λ _, True) tasks heap →
  (split_largest traits tasks heap = Ok None ∧ Forall (λ t, can_split t = false) tasks) ∨
  ∃ tasks' heap', split_largest traits tasks heap = Ok (Some (tasks', heap')) ∧
    length tasks' = S (length tasks) ∧ Forall task_ok tasks' ∧ all_items tasks' ≡ₚ all_items tasks ∧
    heap_for (λ _, True) tasks' heap'.
Proof.
  intros Hok [Hnd Hh]. unfold split_largest. pose proof (pop_largest_perm heap) as Hp.
  destruct (pop_largest heap) as [[[sz i] rest]|].
  2:{ left. subst. split; [done|]. apply Forall_lookup. intros i t Ht.
      destruct (can_split t) eqn:Hc; [|done]. specialize (Hh i). set_solver. }
  right. assert (heap.*2 ≡ₚ i :: rest.*2) as Hp2 by (rewrite Hp; done).
  rewrite Hp2 in Hnd. apply NoDup_cons in Hnd as [Hi Hnd].
  destruct (proj1 (Hh i)) as (_ & t & Ht & Hc); [rewrite Hp2; by left|].
  rewrite Ht. destruct (split_items t) as (l & r & Hs & Hl & Hr & Hlr); [by eapply Forall_lookup|done|].
  unfold mbind, outcome_bind. simpl. rewrite Hs. simpl.
  set (tasks' := <[i := l]> tasks ++ [r]). eexists _, _. split; [done|].
  apply lookup_lt_Some in Ht as Hlt. split_and!.
  - unfold tasks'. rewrite length_app, length_insert. simpl. lia.
  - unfold tasks'. apply Forall_app. split; [by apply Forall_insert|by constructor].
  - by eapply all_items_insert.
  - eapply heap_for_ext; [|apply push_heap_for; [apply (push_heap_for (λ j, j ≠ i ∧ j < length tasks)%nat)|]].
    + intros j Hj. unfold tasks' in Hj. rewrite length_app, length_insert in Hj. simpl in *. lia.
    + split; [done|]. intros j. assert (j ∈ rest.*2 ↔ j ≠ i ∧ j ∈ heap.*2) as ->.
      { rewrite Hp2, elem_of_cons. split; [|tauto]. intros Hj. split; [by intros ->|by right]. }
      rewrite Hh. split.
      * intros (Hne & _ & t' & Ht' & Hc'). apply lookup_lt_Some in Ht' as Hlt'. split; [done|].
        exists t'. split; [|done]. unfold tasks'.
        rewrite lookup_app_l by (by rewrite length_insert). by rewrite list_lookup_insert_ne.
      * intros ([Hne Hj] & t' & Ht' & Hc'). split_and!; [done|done|]. exists t'. split; [|done].
        unfold tasks' in Ht'. rewrite lookup_app_l in Ht' by (by rewrite length_insert).
        by rewrite list_lookup_insert_ne in Ht'.
    + lia.
    + simpl; lia.
Qed.

(** The loop ends with fuel for every item, with the tasks it should have. *)
Lemma split_while_spec cond fuel tasks heap :
  Forall task_ok tasks → heap_for (λ _, True) tasks heap →
  (length (all_items tasks) < fuel + length tasks)%nat →
  ∃ tasks', split_while traits cond fuel tasks heap = Ok tasks' ∧ Forall task_ok tasks' ∧
    all_items tasks' ≡ₚ all_items tasks ∧ (length tasks ≤ length tasks')%nat ∧
    (∀ n, (length tasks ≤ n < length tasks')%nat → cond n = true) ∧
    (cond (length tasks') = false ∨ length tasks' = length (all_items tasks)).
Proof.
  revert tasks heap. induction fuel as [|fuel IH]; intros tasks heap Hok Hh Hf.
  { pose proof (length_tasks_le tasks Hok). lia. }
  simpl. destruct (cond (length tasks)) eqn:Hc.
  2:{ exists tasks. split_and!; [done|done|done|lia|intros; lia|by left]. }
  destruct (split_largest_spec tasks heap Hok Hh) as [[-> Hs]|(ts & hp & -> & Hlen & Hok' & Hp & Hh')].
  - exists tasks. split_and!; [done|done|done|lia|intros; lia|right; by apply all_single].
  - destruct (IH ts hp Hok' Hh') as (tasks' & Hsw & Hok2 & Hp2 & Hle & Hcond & Hend).
    { rewrite Hp, Hlen. lia. }
    exists tasks'. split_and!; [done|done|by rewrite Hp2|lia| |by rewrite <- Hp].
    intros n Hn. destruct (decide (n = length tasks)) as [->|]; [done|]. apply Hcond. lia.
Qed.

(** The number of tasks that a strategy aims at. *)
Definition target_tasks (strategy : AsyncTaskSplitStrategy) (target_count : Z) (tasks : list Task) : Z :=
  let n := Z.of_nat (length tasks) in
  let total := Z.of_nat (length (all_items tasks)) in
  match strategy with
  | kNoSplit => n
  | kSplitToParallelism => Z.max n (Z.min target_count total)
  | kSplitAll => total
  end.

Lemma split_tasks_spec tasks target_count strategy :
  Forall task_ok tasks →
  ∃ tasks', SplitAsyncTasks traits tasks target_count strategy = Ok tasks' ∧ Forall task_ok tasks' ∧
    all_items tasks' ≡ₚ all_items tasks ∧
    Z.of_nat (length tasks') = target_tasks strategy target_count tasks.
Proof.
  intros Hok. pose proof (length_tasks_le tasks Hok) as Hle. unfold target_tasks, SplitAsyncTasks.
  assert (∀ cond, ∃ tasks', split_while traits cond (S (total_size traits tasks)) tasks (make_heap traits tasks) = Ok tasks' ∧
    Forall task_ok tasks' ∧ all_items tasks' ≡ₚ all_items tasks ∧ (length tasks ≤ length tasks')%nat ∧
    (∀ n, (length tasks ≤ n < length tasks')%nat → cond n = true) ∧
    (cond (length tasks') = false ∨ length tasks' = length (all_items tasks))) as Hw.
  { intros cond. apply split_while_spec; [done|apply make_heap_for|]. rewrite total_size_items by done. lia. }
  destruct strategy.
  - by exists tasks.
  - unfold SplitToParallelism. destruct (Z.leb_spec target_count (Z.of_nat (length tasks))).
    { exists tasks. split_and!; [done|done|done|lia]. }
    destruct (Hw (λ n, Z.of_nat n <? target_count)) as (ts & Hs & Hok' & Hp & Hlen & Hc & Hend).
    exists ts. split_and!; [done|done|done|].
    pose proof (length_tasks_le ts Hok') as Hle'. rewrite Hp in Hle'.
    destruct (decide (length ts = length tasks)) as [Heq|Hne].
    + destruct Hend as [Hend%Z.ltb_ge|?]; lia.
    + specialize (Hc (length ts - 1)%nat ltac:(lia)). apply Z.ltb_lt in Hc.
      destruct Hend as [Hend%Z.ltb_ge|?]; lia.
  - destruct (Hw (λ _, true)) as (ts & Hs & Hok' & Hp & Hlen & _ & [Hend|Hend]); [done|].
    exists ts. split_and!; [done|done|done|lia].
Qed.
End split_laws.

(** ** Take tasks *)

Definition take_items (t : TakeTask) : list (nat * nat * (Z * nat)) :=
  pair (tt_reader_index t, tt_file_index t) <$> zip (tt_row_indices t) (tt_original_positions t).

Definition take_task_ok (t : TakeTask) : Prop :=
  length (tt_row_indices t) = length (tt_original_positions t) ∧ tt_row_indices t ≠ [].

#[export] Instance take_split_laws : SplitLaws take_traits (nat * nat * (Z * nat)).
Proof.
  assert (∀ t, take_task_ok t → length (take_items t) = length (tt_row_indices t)) as Hl.
  { intros t [Hl _]. unfold take_items. rewrite length_fmap, length_zip_with. lia. }
  refine {| items := take_items; task_ok := take_task_ok |}.
  - intros t Ht Hn. specialize (Hl t Ht). rewrite Hn in Hl. destruct Ht as [_ Ht].
    by destruct (tt_row_indices t).
  - intros t Ht. by rewrite Hl.
  - intros t Ht. by rewrite Hl.
  - intros [ri fi rws pos] [Hlen Hne] Hc. simpl in Hlen, Hne, Hc. apply Nat.ltb_lt in Hc.
    cbn [split_task take_traits]. unfold take_task_split. cbn [tt_row_indices tt_original_positions].
    set (mid := (length rws / 2)%nat).
    assert (0 < mid < length rws)%nat as Hmid.
    { unfold mid. pose proof (Nat.div_lt (length rws) 2). pose proof (Nat.div_str_pos (length rws) 2). lia. }
    rewrite (proj2 (Nat.ltb_ge (length pos) mid)) by lia. eexists _, _. split; [done|]. unfold take_task_ok, take_items.
    simpl. rewrite !length_take, !length_drop, <- fmap_app. split_and!; [lia| |lia| |].
    + intros Hn%(f_equal length). rewrite length_take in Hn. simpl in Hn. lia.
    + intros Hn%(f_equal length). rewrite length_drop in Hn. simpl in Hn. lia.
    + rewrite <- zip_with_app by (rewrite !length_take; lia). by rewrite !take_drop.
Defined.

(** ** Chunk tasks of an opened reader *)

(** Without a check, other than a debug assertion. *)
Definition get_chunk_info `{FormatReaders} (s : ColumnGroupReader) (chunk_index : Z) :
    outcome Status ChunkInfo :=
  if chunk_index <? 0 then Ub else deref (cgr_chunk_infos s !! Z.to_nat chunk_index).

Section chunk_tasks.
Context `{FormatReaderLaws} (s : ColumnGroupReader) (Hopened : opened_reader s).

Lemma get_chunk_info_ok k c : chunk_at s k = Ok c → get_chunk_info s k = Ok c.
Proof.
  intros Hk. pose proof (chunk_at_spec s k) as Hs. rewrite Hk in Hs. destruct Hs as [Hr Hc].
  unfold get_chunk_info. destruct (Z.ltb_spec k 0); [lia|]. by rewrite Hc.
Qed.

(** The chunks of a task are consecutive rows of its file. *)
Definition chunk_task_ok (t : ChunkTask) : Prop :=
  ct_chunk_indices t ≠ [] ∧
  ∃ cs, Forall2 (λ k c, chunk_at s k = Ok c ∧ file_index c = ct_file_index t) (ct_chunk_indices t) cs ∧
    run (ct_range_start t) (ct_range_end t) cs.

Lemma run_app a b cs1 c cs2 :
  run a b (cs1 ++ c :: cs2) ↔ run a (row_offset_in_file c) cs1 ∧ run (row_offset_in_file c) b (c :: cs2).
Proof.
  revert a. induction cs1 as [|d cs1 IH]; intros a; simpl.
  - naive_solver.
  - rewrite IH. simpl. naive_solver.
Qed.

Lemma run_snoc a b cs c :
  run a b (cs ++ [c]) ↔ run a (row_offset_in_file c) cs ∧ b = row_offset_in_file c + number_of_rows c.
Proof. rewrite run_app. simpl. naive_solver. Qed.

#[local] Instance chunk_split_laws : SplitLaws (chunk_traits (get_chunk_info s)) Z.
Proof.
  refine {| items := ct_chunk_indices; task_ok := chunk_task_ok |}.
  - by intros t [? _].
  - done.
  - done.
  - intros [fi ks a b] [_ (cs & Hcs & Hrun)] Hc. simpl in Hcs, Hrun, Hc. apply Nat.ltb_lt in Hc.
    cbn [split_task chunk_traits]. unfold chunk_task_split. cbn [ct_chunk_indices]. set (mid := (length ks / 2)%nat).
    assert (0 < mid < length ks)%nat as Hmid.
    { unfold mid. pose proof (Nat.div_lt (length ks) 2). pose proof (Nat.div_str_pos (length ks) 2). lia. }
    destruct (lookup_lt_is_Some_2 ks mid ltac:(lia)) as [k Hk]. rewrite Hk.
    destruct (Forall2_lookup_l _ _ _ _ _ Hcs Hk) as (c & Hcmid & Hck & Hcf).
    unfold mbind, outcome_bind. cbn [deref]. rewrite (get_chunk_info_ok k c Hck). eexists _, _. split; [done|].
    unfold chunk_task_ok. simpl.
    pose proof (take_drop_middle cs mid c Hcmid) as Hsplit. rewrite <- Hsplit in Hrun.
    apply run_app in Hrun as [Hr1 Hr2].
    assert (drop mid cs = c :: drop (S mid) cs) as Hd by (by apply drop_S).
    split_and!.
    + intros Hn%(f_equal length). rewrite length_take in Hn. simpl in Hn. lia.
    + exists (take mid cs). split; [by apply Forall2_take|done].
    + intros Hn%(f_equal length). rewrite length_drop in Hn. simpl in Hn. lia.
    + exists (drop mid cs). split; [by apply Forall2_drop|by rewrite Hd].
    + apply take_drop.
Defined.

(** *** Natural tasks *)

Definition valid_chunk (k : Z) : Prop := 0 ≤ k < Z.of_nat (length (cgr_chunk_infos s)).

Lemma valid_chunk_at k : valid_chunk k → ∃ c, chunk_at s k = Ok c.
Proof.
  intros Hk. pose proof (chunk_at_spec s k) as Hs. unfold valid_chunk in Hk.
  destruct (chunk_at s k) as [c|e|]; [by exists c|lia|done].
Qed.

Lemma chunk_bounds k c :
  chunk_at s k = Ok c → 0 ≤ row_offset_in_file c ∧ 0 < number_of_rows c ∧
  row_offset_in_file c + number_of_rows c < UINT64_MOD.
Proof.
  intros Hk. destruct (chunk_file s Hopened k c Hk) as (f & r & rgs & _ & _ & Hg & Hc & Ho & He).
  destruct (row_groups_tile r rgs Hg) as [_ Hte]. pose proof (file_data_bound r).
  apply chunk_in_pos in Hc. lia.
Qed.

Lemma map_push_groups {A} (P : nat → A → Prop) k x m :
  Forall (λ e, e.2 ≠ [] ∧ Forall (P e.1) e.2) m → P k x →
  Forall (λ e, e.2 ≠ [] ∧ Forall (P e.1) e.2) (map_push k x m) ∧
  mjoin (map_push k x m).*2 ≡ₚ mjoin m.*2 ++ [x].
Proof.
  intros Hm Hx. induction Hm as [|[k' l] m [Hne Hl] Hm IH]; simpl.
  - split; [|done]. by repeat constructor.
  - destruct (Nat.ltb_spec k k'); [|destruct (Nat.eqb_spec k k') as [->|]].
    + split.
      * constructor; [split; [done|by repeat constructor]|]. by constructor.
      * rewrite !fmap_cons. simpl. apply Permutation_cons_append.
    + split.
      * constructor; [|done]. split; [by destruct l|]. simpl in *. apply Forall_app. by repeat constructor.
      * rewrite !fmap_cons. simpl. rewrite <- !app_assoc. by rewrite (Permutation_app_comm [x]).
    + destruct IH as [IH1 IH2]. split; [by constructor|]. rewrite !fmap_cons. simpl.
      by rewrite IH2, app_assoc.
Qed.

Lemma group_chunks_spec ks groups :
  Forall valid_chunk ks →
  Forall (λ e, e.2 ≠ [] ∧ Forall (λ k, ∃ c, chunk_at s k = Ok c ∧ file_index c = e.1) e.2) groups →
  ∃ groups', fold_out (λ groups idx, info ← get_chunk_info s idx; Ok (map_push (file_index info) idx groups))
      ks groups = Ok groups' ∧
    Forall (λ e, e.2 ≠ [] ∧ Forall (λ k, ∃ c, chunk_at s k = Ok c ∧ file_index c = e.1) e.2) groups' ∧
    mjoin groups'.*2 ≡ₚ mjoin groups.*2 ++ ks.
Proof.
  intros Hks. revert groups. induction Hks as [|k ks Hk Hks IH]; intros groups Hg.
  - exists groups. by rewrite app_nil_r.
  - destruct (valid_chunk_at k Hk) as [c Hc]. cbn [fold_out].
    rewrite (get_chunk_info_ok k c Hc), !bind_Ok.
    destruct (map_push_groups (λ f k, ∃ c, chunk_at s k = Ok c ∧ file_index c = f)
      (file_index c) k groups Hg) as [Hg' Hp]; [by exists c|].
    destruct (IH _ Hg') as (groups' & Hf & Hall & Hp'). exists groups'. split_and!; [done|done|].
    rewrite Hp', Hp, <- app_assoc. done.
Qed.

Lemma extend_tasks_spec current prev cs ks :
  chunk_task_ok current →
  Forall2 (λ k c, chunk_at s k = Ok c ∧ file_index c = ct_file_index current) (ct_chunk_indices current) (cs ++ [prev]) →
  run (ct_range_start current) (ct_range_end current) (cs ++ [prev]) →
  Forall (λ k, ∃ c, chunk_at s k = Ok c ∧ file_index c = ct_file_index current) ks →
  ∃ ts, extend_tasks (get_chunk_info s) current prev ks = Ok ts ∧ Forall chunk_task_ok ts ∧
    mjoin (ct_chunk_indices <$> ts) = ct_chunk_indices current ++ ks.
Proof.
  intros Hok Hcs Hrun Hks. revert current prev cs Hok Hcs Hrun Hks.
  induction ks as [|k ks IH]; intros current prev cs Hok Hcs Hrun Hks.
  - exists [current]. split_and!; [done|by constructor|by simpl].
  - apply Forall_cons in Hks as [(c & Hc & Hcf) Hks]. cbn [extend_tasks].
    rewrite (get_chunk_info_ok k c Hc), bind_Ok. cbv zeta. destruct (chunk_bounds k c Hc) as (Ho & Hn & Hb).
    assert (0 ≤ row_offset_in_file prev ∧ 0 < number_of_rows prev ∧
      row_offset_in_file prev + number_of_rows prev < UINT64_MOD) as (Hpo & Hpn & Hpb).
    { apply Forall2_app_inv_r in Hcs as (ks1 & ks2 & _ & Hlast & _).
      apply Forall2_cons_inv_r in Hlast as (k' & ? & [Hk' _] & _). by apply chunk_bounds in Hk'. }
    rewrite !u64_add_small by lia. apply run_snoc in Hrun as Hend. destruct Hend as [_ Hend].
    destruct (Z.eqb_spec (row_offset_in_file c) (row_offset_in_file prev + number_of_rows prev)) as [Heq|Hne].
    + set (t := mkChunkTask _ _ _ _).
      assert (Forall2 (λ k c, chunk_at s k = Ok c ∧ file_index c = ct_file_index t) (ct_chunk_indices t)
        ((cs ++ [prev]) ++ [c])) as Hf2 by (apply Forall2_app; [done|by repeat constructor]).
      assert (run (ct_range_start t) (ct_range_end t) ((cs ++ [prev]) ++ [c])) as Hr2.
      { apply run_snoc. split; [|done]. simpl. rewrite Heq, <- Hend. done. }
      destruct (IH t c (cs ++ [prev])) as (ts & He & Hts & Hj); try done.
      * split; [by destruct (ct_chunk_indices current)|]. by exists ((cs ++ [prev]) ++ [c]).
      * exists ts. split_and!; [done|done|]. rewrite Hj. simpl. by rewrite <- app_assoc.
    + set (t := mkChunkTask _ _ _ _).
      assert (Forall2 (λ k c, chunk_at s k = Ok c ∧ file_index c = ct_file_index t) (ct_chunk_indices t)
        ([] ++ [c])) as Hf2 by (by repeat constructor).
      assert (run (ct_range_start t) (ct_range_end t) ([] ++ [c])) as Hr2 by by split.
      destruct (IH t c []) as (ts & He & Hts & Hj); try done.
      * split; [done|]. by exists [c].
      * exists (current :: ts). rewrite He, bind_Ok. split_and!; [done|by constructor|]. rewrite fmap_cons. simpl. by rewrite Hj.
Qed.

Lemma file_tasks_spec f ks :
  Forall (λ k, ∃ c, chunk_at s k = Ok c ∧ file_index c = f) ks →
  ∃ ts, file_tasks (get_chunk_info s) f ks = Ok ts ∧ Forall chunk_task_ok ts ∧
    mjoin (ct_chunk_indices <$> ts) = ks.
Proof.
  destruct 1 as [|k ks (c & Hc & Hcf) Hks]; [by exists []|]. cbn [file_tasks].
  rewrite (get_chunk_info_ok k c Hc), bind_Ok.
  destruct (chunk_bounds k c Hc) as (Ho & Hn & Hb). rewrite u64_add_small by lia.
  set (t := mkChunkTask _ _ _ _).
  assert (Forall2 (λ k c, chunk_at s k = Ok c ∧ file_index c = ct_file_index t) (ct_chunk_indices t)
    ([] ++ [c])) as Hf2 by (by repeat constructor).
  assert (run (ct_range_start t) (ct_range_end t) ([] ++ [c])) as Hr2 by by split.
  destruct (extend_tasks_spec t c [] ks) as (ts & He & Hts & Hj); try done.
  - split; [done|]. by exists [c].
  - by exists ts.
Qed.

(** Valid chunks become well-formed tasks with exactly these chunks. *)
Lemma chunk_task_build_spec ks :
  Forall valid_chunk ks →
  ∃ ts, ChunkTask_Build (get_chunk_info s) ks = Ok ts ∧ Forall chunk_task_ok ts ∧
    mjoin (ct_chunk_indices <$> ts) ≡ₚ ks.
Proof.
  intros Hks. unfold ChunkTask_Build, group_chunks.
  destruct (group_chunks_spec ks [] Hks (Forall_nil_2 _)) as (groups & Hf & Hall & Hp).
  rewrite Hf, bind_Ok. simpl in Hp.
  assert (∀ acc, ∃ ts, fold_out (λ tasks e, ts ← file_tasks (get_chunk_info s) e.1 e.2; Ok (tasks ++ ts)) groups acc
    = Ok (acc ++ ts) ∧ Forall chunk_task_ok ts ∧ mjoin (ct_chunk_indices <$> ts) = mjoin groups.*2) as Hg.
  { clear Hf Hp. induction Hall as [|[f l] groups [_ Hl] Hall IH]; intros acc.
    - exists []. rewrite app_nil_r. by split_and!; [|constructor|].
    - destruct (file_tasks_spec f l Hl) as (ts1 & Hts1 & Hok1 & Hj1).
      destruct (IH (acc ++ ts1)) as (ts & Hfold & Hok & Hj). exists (ts1 ++ ts). split_and!.
      + cbn [fold_out fst snd]. by rewrite Hts1, !bind_Ok, app_assoc.
      + by apply Forall_app.
      + rewrite fmap_app, join_app, Hj1, Hj. done. }
  destruct (Hg []) as (ts & Hfold & Hok & Hj). exists ts. split_and!; [done|done|]. by rewrite Hj.
Qed.
End chunk_tasks.

(** ** Rows to take tasks *)

Section take_rows.

(** The file of every logical row of a column group. *)
Fixpoint file_ids (i : nat) (fs : list ColumnGroupFile) : list nat :=
  match fs with
  | [] => []
  | f :: fs' => replicate (Z.to_nat (end_index f - start_index f)) i ++ file_ids (S i) fs'
  end.

Definition file_of (g : ColumnGroup) (r : Z) : nat := default 0%nat (file_ids 0 (files g) !! Z.to_nat r).

Lemma bad_range_false f :
  bad_range f = false → 0 ≤ start_index f ∧ 0 ≤ end_index f ∧ start_index f < end_index f.
Proof.
  unfold bad_range. intros Hb. apply orb_false_iff in Hb as [Hb H3]. apply orb_false_iff in Hb as [H1 H2].
  apply Z.ltb_ge in H1, H2. apply Z.leb_gt in H3. lia.
Qed.

Lemma find_file_spec r i fs :
  Forall (λ f, bad_range f = false) fs → 0 ≤ r ≤ INT64_MAX →
  match find_file r i fs with
  | Ok j => file_ids i fs !! Z.to_nat r = Some j
  | Err e => e = status_Invalid ∧ Z.of_nat (length (file_ids i fs)) ≤ r
  | Ub => False
  end.
Proof.
  intros Hfs. revert r i. induction Hfs as [|f fs Hf Hfs IH]; intros r i Hr; simpl; [split; [done|lia]|].
  apply bad_range_false in Hf as (H1 & H2 & H3).
  rewrite (proj2 (Z.ltb_ge _ _) H1), (proj2 (Z.ltb_ge _ _) H2). simpl.
  destruct (Z.ltb_spec r (end_index f - start_index f)) as [Hlt|Hge].
  - rewrite lookup_app_l by (rewrite length_replicate; lia). apply lookup_replicate. lia.
  - destruct (Z.leb_spec (r - (end_index f - start_index f)) INT64_MAX); [|lia].
    specialize (IH (r - (end_index f - start_index f)) (S i) ltac:(lia)).
    destruct (find_file _ _ _); [|rewrite length_app, length_replicate; naive_solver lia|done].
    rewrite lookup_app_r by (rewrite length_replicate; lia). rewrite length_replicate, <- IH. f_equal. lia.
Qed.

Lemma check_rows_spec prev rws :
  StronglySorted Z.lt rws → Forall (λ r, 0 ≤ r) rws →
  (match prev with Some p => Forall (λ r, p < r) rws | None => True end) → check_rows prev rws = Ok tt.
Proof.
  intros Hs. revert prev. induction Hs as [|r rws Hs IH Hr]; intros prev Hp Hprev; [done|].
  apply Forall_cons in Hp as [H0 Hp]. simpl. rewrite (proj2 (Z.ltb_ge _ _) H0).
  destruct prev as [p|].
  - apply Forall_cons in Hprev as [Hpr _]. rewrite (proj2 (Z.leb_gt _ _) Hpr). by apply IH.
  - by apply IH.
Qed.

(** The requests of a column group. *)
Definition group_items (rws : list Z) (ri : nat) (g : ColumnGroup) : list (nat * nat * (Z * nat)) :=
  imap (λ pos r, ((ri, file_of g r), (r, pos))) rws.

Lemma group_rows_spec (g : ColumnGroup) (l : list (nat * Z)) (groups : list (nat * list (Z * nat))) :
  Forall (λ f, bad_range f = false) (files g) →
  Forall (λ e, 0 ≤ e.2 ≤ INT64_MAX ∧ e.2 < Z.of_nat (length (file_ids 0 (files g)))) l →
  Forall (λ e, e.2 ≠ [] ∧ Forall (λ x, file_of g x.1 = e.1) e.2) groups →
  ∃ groups', fold_out (λ groups e, file_index ← find_file e.2 0 (files g); Ok (map_push file_index (e.2, e.1) groups))
      l groups = Ok (E := Status) groups' ∧
    Forall (λ e, e.2 ≠ [] ∧ Forall (λ x, file_of g x.1 = e.1) e.2) groups' ∧
    mjoin groups'.*2 ≡ₚ mjoin groups.*2 ++ ((λ e, (e.2, e.1)) <$> l).
Proof.
  intros Hfs Hl. revert groups. induction Hl as [|[pos r] l [Hr Hlt] Hl IH]; intros groups Hg.
  - exists groups. by rewrite app_nil_r.
  - simpl in Hr, Hlt. cbn [fold_out fst snd]. pose proof (find_file_spec r 0 (files g) Hfs Hr) as Hf.
    destruct (find_file r 0 (files g)) as [j| |]; [|lia|done]. rewrite !bind_Ok.
    destruct (map_push_groups (λ f x, file_of g x.1 = f) j (r, pos) groups Hg) as [Hg' Hp].
    { unfold file_of. simpl. by rewrite Hf. }
    destruct (IH _ Hg') as (groups' & Hfold & Hall & Hp'). exists groups'. split_and!; [done|done|].
    by rewrite Hp', Hp, fmap_cons, <- app_assoc.
Qed.

Lemma take_tasks_of_group_spec rws ri g :
  Forall (λ f, bad_range f = false) (files g) →
  Forall (λ r, 0 ≤ r ≤ INT64_MAX ∧ r < Z.of_nat (length (file_ids 0 (files g)))) rws →
  ∃ ts, take_tasks_of_group rws ri g = Ok ts ∧ Forall take_task_ok ts ∧
    mjoin (take_items <$> ts) ≡ₚ group_items rws ri g.
Proof.
  intros Hfs Hr. unfold take_tasks_of_group, group_rows.
  destruct (group_rows_spec g (imap pair rws) [] Hfs) as (groups & -> & Hall & Hp).
  { apply Forall_lookup. intros i [pos r] Hi. rewrite list_lookup_imap in Hi.
    destruct (rws !! i) eqn:Hri; simplify_eq/=. by eapply Forall_lookup in Hr. }
  { apply Forall_nil_2. }
  rewrite bind_Ok. eexists. split; [done|]. split.
  - rewrite Forall_fmap. eapply Forall_impl; [exact Hall|]. intros [f l] [Hne _]. unfold take_task_ok. simpl in *.
    rewrite !length_fmap. by destruct l.
  - simpl in Hp. assert (mjoin (take_items <$> (take_task ri <$> groups))
      = (λ x, ((ri, file_of g x.1), x)) <$> mjoin groups.*2) as ->.
    { clear Hp. induction Hall as [|[f l] groups [_ Hl] Hall IH]; [done|]. rewrite !fmap_cons. simpl.
      rewrite fmap_app, IH. f_equal. unfold take_items. simpl.
      rewrite zip_fst_snd.
      apply list_fmap_ext. intros i x Hx. eapply Forall_lookup in Hl; [|done]. simpl in *. by rewrite Hl. }
    rewrite Hp. unfold group_items. apply reflexive_eq, list_eq. intros i.
    rewrite !list_lookup_fmap, !list_lookup_imap. by destruct (rws !! i).
Qed.

Lemma take_task_build_spec gs rws :
  StronglySorted Z.lt rws → Forall (λ r, 0 ≤ r ≤ INT64_MAX) rws →
  Forall (λ g, Forall (λ f, bad_range f = false) (files g) ∧
            Forall (λ r, r < Z.of_nat (length (file_ids 0 (files g)))) rws) gs →
  ∃ ts, TakeTask_Build (Some <$> gs) rws = Ok ts ∧ Forall take_task_ok ts ∧
    mjoin (take_items <$> ts) ≡ₚ mjoin (imap (group_items rws) gs).
Proof.
  intros Hs Hr Hgs. unfold TakeTask_Build. rewrite (check_rows_spec None rws Hs); [|
    eapply Forall_impl; [exact Hr|]; simpl; lia|done]. rewrite bind_Ok.
  assert (∀ gs' i acc, Forall (λ g, Forall (λ f, bad_range f = false) (files g) ∧
            Forall (λ r, r < Z.of_nat (length (file_ids 0 (files g)))) rws) gs' →
    ∃ ts, fold_out (λ all_tasks e, match e.2 with
        | None => Err status_Invalid
        | Some group => ts ← take_tasks_of_group rws e.1 group; Ok (all_tasks ++ ts)
        end) (imap (λ k, pair (i + k)%nat) (Some <$> gs')) acc = Ok (acc ++ ts) ∧ Forall take_task_ok ts ∧
      mjoin (take_items <$> ts) ≡ₚ mjoin (imap (λ k, group_items rws (i + k)) gs')) as Hgen.
  { clear gs Hgs. intros gs. induction gs as [|g gs IH]; intros i acc Hgs.
    - exists []. by rewrite app_nil_r; split_and!; [|constructor|].
    - apply Forall_cons in Hgs as [[Hfs Hlt] Hgs]. rewrite fmap_cons, !imap_cons. cbn [fold_out fst snd].
      destruct (take_tasks_of_group_spec rws (i + 0) g Hfs) as (ts1 & -> & Hok1 & Hp1).
      { apply Forall_forall. intros r Hin. eapply Forall_forall in Hr; [|done]. by eapply Forall_forall in Hlt. }
      rewrite !bind_Ok. destruct (IH (S i) (acc ++ ts1) Hgs) as (ts & Hf & Hok & Hp).
      exists (ts1 ++ ts). split_and!.
      + rewrite app_assoc, <- Hf. f_equal. apply imap_ext. intros k x _. simpl. f_equal. lia.
      + by apply Forall_app.
      + rewrite fmap_app, join_app, Hp1, Hp. cbn [mjoin list_join]. f_equiv. apply reflexive_eq. f_equal.
        apply imap_ext. intros k x _. simpl. f_equal. lia. }
  destruct (Hgen gs 0%nat [] Hgs) as (ts & Hf & Hok & Hp). by exists ts.
Qed.

(** A take request is planned without losing or repeating work.  For rows
    that are sorted, unique and in range, the tasks of every strategy, taken
    together, hold each requested row of each column group exactly once, under
    the file that stores it and with its position in the request; each task has
    a position per row, and there are as many tasks as the strategy asks for. *)
Theorem take_tasks_cover gs rws target_count strategy :
  StronglySorted Z.lt rws → Forall (λ r, 0 ≤ r ≤ INT64_MAX) rws →
  Forall (λ g, Forall (λ f, bad_range f = false) (files g) ∧
            Forall (λ r, r < Z.of_nat (length (file_ids 0 (files g)))) rws) gs →
  ∃ tasks tasks', TakeTask_Build (Some <$> gs) rws = Ok tasks ∧
    SplitAsyncTasks take_traits tasks target_count strategy = Ok tasks' ∧
    Forall take_task_ok tasks' ∧
    mjoin (take_items <$> tasks') ≡ₚ mjoin (imap (group_items rws) gs) ∧
    Z.of_nat (length tasks') = target_tasks strategy target_count tasks.
Proof.
  intros Hs Hr Hgs. destruct (take_task_build_spec gs rws Hs Hr Hgs) as (ts & Hb & Hok & Hp).
  destruct (split_tasks_spec (SplitLaws0 := take_split_laws) ts target_count strategy Hok) as (ts' & Hsp & Hok' & Hp' & Hlen).
  exists ts, ts'. split_and!; [done|done|done| |done]. unfold all_items in Hp'. simpl in Hp'. by rewrite Hp'.
Qed.

Lemma take_tasks_cover_witness :
  let g := mkGroup ["v"] "parquet" [mkFile "a" 1 7 ∅; mkFile "b" 0 5 ∅] in
  ∃ tasks tasks', TakeTask_Build [Some g] [1; 4; 5; 6; 10] = Ok tasks ∧
    SplitAsyncTasks take_traits tasks 3 kSplitToParallelism = Ok tasks' ∧
    length tasks' = 3%nat ∧ length tasks = 2%nat.
Proof.
  intros g. destruct (take_tasks_cover [g] [1; 4; 5; 6; 10] 3 kSplitToParallelism)
    as (ts & ts' & Hb & Hs & _ & _ & Hlen).
  - repeat constructor.
  - repeat constructor; by vm_compute.
  - repeat constructor; by vm_compute.
  - exists ts, ts'. vm_compute in Hb. injection Hb as <-. replace (target_tasks _ _ _) with 3 in Hlen by (vm_compute; reflexivity). split_and!; [done|done|lia|done].
Defined.
End take_rows.
