(* ===== verification/ChunkReader.v ===== *)
(** * Chunk readers

    [ColumnGroupReader::create] and [get_chunks_async] of
    [format/column_group_reader.cpp] and [ChunkReaderImpl] of [reader.cpp]: the
    reader that a client uses for one column group.  Chunks are read
    synchronously or as asynchronous tasks; both return the same rows. *)

From S2P Require Import Prelude CppString Status ColumnGroups ArrowData ColumnGroupReader ColumnGroupReaderCorrect ColumnGroupChunks AsyncTasks.

(** The asynchronous range read, whose default is [read_with_range]. *)
Class AsyncReaders `{FormatReaders} := {
  read_with_range_async : FormatReader → Z → Z → outcome Status (list RecordBatch);
}.

Section chunk_reader.
Context `{AsyncReaders}.

(** ** Creation *)

Definition filter_columns (column_group : ColumnGroup) (needed_columns : list string) : list string :=
  filter (λ c, c ∈ columns column_group) needed_columns.

(** [ColumnGroupReader::create]: the schema, if there is one, as its names. *)
Definition cgr_create (schema : option (list string)) (column_group : option ColumnGroup)
    (needed_columns : list string) (predicate : string) : outcome Status ColumnGroupReader :=
  match column_group with
  | None => Err status_Invalid
  | Some group =>
      match schema with
      | Some names =>
          check_all (λ c, if bool_decide (c ∈ names) then Ok tt else Err status_Invalid)
            (filter_columns group needed_columns)
      | None => Ok tt
      end;;
      match cgr_open (cgr_new group predicate) with
      | (reader, Ok _) => Ok reader
      | (_, Err e) => Err e
      | (_, Ub) => Ub
      end
  end.

Definition validate_needed_columns (column_group : ColumnGroup) (needed_columns : list string) :
    outcome Status unit :=
  if existsb (λ c, bool_decide (c ∈ columns column_group)) needed_columns then Ok tt
  else Err status_Invalid.

(** [ChunkReaderImpl::open]. *)
Definition chunk_reader_open (schema : option (list string)) (column_group : ColumnGroup)
    (needed_columns : list string) : outcome Status ColumnGroupReader :=
  validate_needed_columns column_group needed_columns;;
  cgr_create schema (Some column_group) needed_columns "".

(** ** Synchronous reads *)

(** The loop that slices results which do not match the request. *)
Fixpoint slice_results (s : ColumnGroupReader) (results : list RecordBatch) (curr_rb_offset : Z)
    (chunk_indices : list Z) : outcome Status (list RecordBatch) :=
  match chunk_indices with
  | [] => Ok []
  | k :: chunk_indices' =>
      target_number_of_rows ← get_chunk_rows s k;
      match results with
      | [] => Err status_Invalid
      | rb :: results' =>
          if num_rows rb <? u64_add curr_rb_offset target_number_of_rows then Err status_Invalid
          else
            let out := if (curr_rb_offset =? 0) && (target_number_of_rows =? num_rows rb) then rb
                       else batch_Slice rb curr_rb_offset target_number_of_rows in
            let curr_rb_offset := u64_add curr_rb_offset target_number_of_rows in
            rest ← (if curr_rb_offset =? num_rows rb then slice_results s results' 0 chunk_indices'
                    else slice_results s results curr_rb_offset chunk_indices');
            Ok (out :: rest)
      end
  end.

Definition get_chunks_sync (s : ColumnGroupReader) (chunk_indices : list Z)
    (parallelism num_threads : Z) : outcome Status (list RecordBatch) :=
  results ← get_chunks s chunk_indices parallelism num_threads;
  if (length results =? length chunk_indices)%nat then Ok results
  else slice_results s results 0 chunk_indices.

(** ** Asynchronous reads *)

(** The metadata of the chunks of a task. *)
Fixpoint task_chunks (s : ColumnGroupReader) (file_idx : nat) (chunk_indices : list Z) :
    outcome Status (list ChunkInfo) :=
  match chunk_indices with
  | [] => Ok []
  | k :: chunk_indices' =>
      chunk_info ← chunk_at s k;
      if negb (file_index chunk_info =? file_idx)%nat then Err status_Invalid
      else rest ← task_chunks s file_idx chunk_indices'; Ok (chunk_info :: rest)
  end.

(** One batch per chunk; the current batch is checked. *)
Fixpoint slice_task (rbs : list RecordBatch) (rbs_offset : Z) (chunk_infos : list ChunkInfo) :
    outcome Status (list RecordBatch) :=
  match chunk_infos with
  | [] => Ok []
  | c :: chunk_infos' =>
      match rbs with
      | [] => Err status_Invalid
      | rb :: rbs' =>
          if u64_sub (num_rows rb) rbs_offset <? number_of_rows c then Err status_Invalid
          else
            let out := batch_Slice rb rbs_offset (number_of_rows c) in
            let rbs_offset := u64_add rbs_offset (number_of_rows c) in
            rest ← (if rbs_offset =? num_rows rb then slice_task rbs' 0 chunk_infos'
                    else slice_task rbs rbs_offset chunk_infos');
            Ok (out :: rest)
      end
  end.

(** [ColumnGroupReaderImpl::get_chunks_async]. *)
Definition run_chunk_task (s : ColumnGroupReader) (task : ChunkTask) : outcome Status (list RecordBatch) :=
  chunk_infos ← task_chunks s (ct_file_index task) (ct_chunk_indices task);
  reader ← open_reader_for_file (cgr_group s) (ct_file_index task);
  rbs ← read_with_range_async reader (ct_range_start task) (ct_range_end task);
  slice_task rbs 0 chunk_infos.

(** The fan-in: the batches of each task under its chunk indices. *)
Fixpoint collect_tasks (results : list (list Z * outcome Status (list RecordBatch)))
    (all_rbs : gmap Z RecordBatch) : outcome Status (gmap Z RecordBatch) :=
  match results with
  | [] => Ok all_rbs
  | (chunk_list, o) :: results' =>
      rbs ← o;
      if negb (length rbs =? length chunk_list)%nat then Err status_Invalid
      else collect_tasks results' (foldl (λ m e, <[e.1 := e.2]> m) all_rbs (zip chunk_list rbs))
  end.

Definition get_chunks_async (s : ColumnGroupReader) (chunk_indices : list Z) (parallelism : Z)
    (strategy : AsyncTaskSplitStrategy) : outcome Status (list RecordBatch) :=
  let unique_chunk_indices := sort_unique chunk_indices in
  match head unique_chunk_indices, last unique_chunk_indices with
  | Some front, Some back =>
      if front <? 0 then Err status_Invalid
      else if Z.of_nat (length (cgr_chunk_infos s)) <=? wrap_u64 back then Err status_Invalid
      else
        tasks ← ChunkTask_Build (get_chunk_info s) unique_chunk_indices;
        all_tasks ← SplitAsyncTasks (chunk_traits (get_chunk_info s)) tasks (Z.max parallelism 1) strategy;
        all_rbs ← collect_tasks ((λ t, (ct_chunk_indices t, run_chunk_task s t)) <$> (all_tasks : list _)) ∅;
        fold_out (λ result idx,
          match all_rbs !! idx with Some rb => Ok (result ++ [rb]) | None => Err status_Invalid end)
          chunk_indices []
  | _, _ => Ok []
  end.

(** ** Estimates of all chunks *)

Definition all_chunks {A} (s : ColumnGroupReader) (f : Z → outcome Status A) : outcome Status (list A) :=
  fold_out (λ result i, x ← f i; Ok (result ++ [x])) (seqZ 0 (Z.of_nat (length (cgr_chunk_infos s)))) [].

Definition all_estimated_sizes (s : ColumnGroupReader) : outcome Status (list Z) :=
  all_chunks s (get_chunk_estimated_size s).

Definition all_chunk_rows (s : ColumnGroupReader) : outcome Status (list Z) :=
  all_chunks s (get_chunk_rows s).

(** The sizes by column and chunk. *)
Definition all_column_estimated_sizes (s : ColumnGroupReader) : outcome Status (list (list Z)) :=
  by_chunk ← all_chunks s (get_chunk_column_estimated_sizes s);
  if existsb (λ sizes, (length sizes <? length (columns (cgr_group s)))%nat) by_chunk then Ub
  else Ok (imap (λ col_idx _, (λ sizes, default 0 (sizes !! col_idx)) <$> (by_chunk : list _))
             (columns (cgr_group s))).
End chunk_reader.

(** ** Asynchronous and synchronous reads agree *)

Class AsyncReaderLaws `{FRL : FormatReaderLaws} `{AR : !AsyncReaders} := {
  read_with_range_async_defined r a b : 0 ≤ a < b → read_with_range_async r a b ≠ Ub;
  read_with_range_async_rows r rgs a b bs : get_row_group_infos r = Ok rgs →
    0 ≤ a < b → b ≤ tile_end 0 rgs → read_with_range_async r a b = Ok bs →
    range_batches rgs (file_data r) a b bs;
}.

Section agree.
Context `{AsyncReaderLaws} (s : ColumnGroupReader) (Hopened : opened_reader s).

Lemma Forall2_compose {A B C} (P : A → B → Prop) (Q : B → C → Prop) (R : A → C → Prop) l1 l2 l3 :
  (∀ x y z, P x y → Q y z → R x z) → Forall2 P l1 l2 → Forall2 Q l2 l3 → Forall2 R l1 l3.
Proof.
  intros HR H1. revert l3. induction H1; intros l3 H2; inversion H2; subst; constructor; eauto.
Qed.

(** An error of an asynchronous read that a format reader returned. *)
Definition async_failed (e : Status) : Prop :=
  (∃ group f, create_reader group f = Err e) ∨ (∃ r a b, read_with_range_async r a b = Err e).

Lemma task_chunks_ok f ks cs :
  Forall2 (λ k c, chunk_at s k = Ok c ∧ file_index c = f) ks cs → task_chunks s f ks = Ok cs.
Proof.
  induction 1 as [|k c ks cs [Hk Hf] Hks IH]; [done|]. simpl. rewrite Hk, bind_Ok.
  by rewrite Hf, Nat.eqb_refl, IH.
Qed.

Lemma slice_task_rows r rbs o cs :
  feeds (file_data r) rbs o cs → Forall (λ c, 0 < number_of_rows c) cs →
  ∃ bs, slice_task rbs o cs = Ok bs ∧
    Forall2 (λ c b, rows b = slice_of (row_offset_in_file c) (row_offset_in_file c + number_of_rows c)
                              (file_data r)) cs bs.
Proof.
  intros Hf Hpos. revert rbs o Hf. induction Hpos as [|c cs Hc Hcs IH]; intros rbs o Hf.
  - exists []. by split; [|constructor].
  - destruct Hf as (x & bs & -> & Ho & Hle & (a & Hx & Hoff & Ha & Hlen) & Hf).
    pose proof (file_data_bound r) as Hb. simpl. rewrite u64_sub_small by lia.
    destruct (Z.ltb_spec (num_rows x - o) (number_of_rows c)); [lia|]. rewrite u64_add_small by lia.
    assert (∃ bs', (if o + number_of_rows c =? num_rows x then slice_task bs 0 cs
      else slice_task (x :: bs) (o + number_of_rows c) cs) = Ok bs' ∧
      Forall2 (λ c b, rows b = slice_of (row_offset_in_file c) (row_offset_in_file c + number_of_rows c)
                                (file_data r)) cs bs') as (bs' & -> & Hbs').
    { destruct (o + number_of_rows c =? num_rows x); by apply IH. }
    eexists. split; [done|]. constructor; [|done].
    rewrite slice_rows by lia. rewrite Hx, Hoff. by rewrite slice_of_slice_of by lia.
Qed.

(** A well-formed task returns the rows of its chunks. *)
Lemma run_chunk_task_spec t :
  chunk_task_ok s t →
  match run_chunk_task s t with
  | Ok bs => Forall2 (holds_chunk s) (ct_chunk_indices t) bs
  | Err e => async_failed e
  | Ub => False
  end.
Proof.
  intros (Hne & cs & Hcs & Hrun). unfold run_chunk_task. rewrite (task_chunks_ok _ _ _ Hcs), bind_Ok.
  destruct t as [f ks a b]. simpl in *. destruct Hcs as [|k c ks cs [Hk Hf] Hcs]; [done|].
  destruct (chunk_file s Hopened k c Hk) as (fl & r & rgs & _ & Hr & Hg & Hc). rewrite Hf in Hr.
  assert (Forall (chunk_in_file rgs) (c :: cs)) as Hin.
  { constructor; [done|]. apply Forall_lookup. intros i c' Hc'.
    destruct (Forall2_lookup_r _ _ _ _ _ Hcs Hc') as (k' & _ & Hk' & Hf').
    destruct (chunk_file s Hopened k' c' Hk') as (? & r' & rgs' & _ & Hr' & Hg' & Hc2).
    assert (r' = r) as -> by congruence. by assert (rgs' = rgs) as -> by congruence. }
  destruct (run_range rgs a b (c :: cs) Hin Hrun ltac:(done)) as [Hab Hb].
  destruct (row_groups_tile r rgs Hg) as [Ht Hte]. rewrite Hr, bind_Ok.
  destruct (read_with_range_async r a b) as [bs|e|] eqn:Hread.
  2:{ right. by exists r, a, b. }
  2:{ by apply (read_with_range_async_defined r a b). }
  rewrite bind_Ok. assert (Forall (chunk_in rgs) (c :: cs)) as Hin'
    by (eapply Forall_impl; [exact Hin|]; by intros ? [? _]).
  destruct (slice_task_rows r bs 0 (c :: cs)) as (out & -> & Hout).
  { rewrite <- (app_nil_r bs), <- (app_nil_r (c :: cs)).
    apply (range_fed rgs (file_data r) a b); try done; [lia|]. by eapply read_with_range_async_rows. }
  { eapply Forall_impl; [exact Hin'|]. intros. by eapply chunk_in_pos. }
  eapply Forall2_compose; [|constructor; [|exact Hcs]; by split|exact Hout].
  intros k1 c1 b1 [Hk1 Hf1] Hrows. exists c1, r. by rewrite Hf1.
Qed.

(** Collecting the tasks. *)
Lemma insert_batches_reads m acc ks bs :
  reads s m acc → Forall2 (holds_chunk s) ks bs →
  reads s (foldl (λ m e, <[e.1 := e.2]> m) m (zip ks bs)) (ks ++ acc).
Proof.
  intros Hm Hb. revert m acc Hm. induction Hb as [|k b ks bs Hk Hks IH]; intros m acc Hm; [done|].
  simpl. eapply reads_ext; [|apply (IH _ (k :: acc)); by apply reads_insert]. set_solver.
Qed.

Lemma collect_tasks_reads ts m acc :
  Forall (chunk_task_ok s) ts → reads s m acc →
  match collect_tasks ((λ t, (ct_chunk_indices t, run_chunk_task s t)) <$> ts) m with
  | Ok m' => reads s m' (mjoin (ct_chunk_indices <$> ts) ++ acc)
  | Err e => async_failed e
  | Ub => False
  end.
Proof.
  intros Hts. revert m acc. induction Hts as [|t ts Ht Hts IH]; intros m acc Hm; [done|].
  rewrite !fmap_cons. cbn [collect_tasks]. pose proof (run_chunk_task_spec t Ht) as Hr.
  destruct (run_chunk_task s t) as [bs|e|]; [|done..]. rewrite bind_Ok.
  rewrite (Forall2_length _ _ _ Hr), Nat.eqb_refl. simpl.
  specialize (IH _ _ (insert_batches_reads m acc _ bs Hm Hr)).
  destruct (collect_tasks _ _) as [m'| |]; [|done..]. eapply reads_ext; [|exact IH]. set_solver.
Qed.

Lemma sorted_bounds (l : list Z) front back k :
  StronglySorted Z.lt l → head l = Some front → last l = Some back → k ∈ l → front ≤ k ≤ back.
Proof.
  intros Hs Hf Hl Hk. apply list_elem_of_lookup in Hk as [i Hi]. split.
  - destruct l as [|x l]; simplify_eq/=. destruct i as [|i]; simplify_eq/=; [lia|].
    apply StronglySorted_cons in Hs as [Hx _]. eapply Forall_lookup in Hx; [|done]. simpl in Hx. lia.
  - apply last_Some in Hl as [l' ->]. rewrite lookup_app in Hi.
    destruct (l' !! i) eqn:Hi'; simplify_eq.
    + apply StronglySorted_app in Hs as [Hs _].
      specialize (Hs k back (list_elem_of_lookup_2 _ _ _ Hi') ltac:(set_solver)). lia.
    + destruct (i - length l')%nat; simplify_eq/=. lia.
Qed.

Lemma get_chunks_async_spec chunk_indices parallelism strategy :
  Z.of_nat (length (cgr_chunk_infos s)) ≤ INT64_MAX →
  Forall (λ k, INT64_MIN ≤ k ≤ INT64_MAX) chunk_indices →
  match get_chunks_async s chunk_indices parallelism strategy with
  | Ok bs => Forall2 (holds_chunk s) chunk_indices bs
  | Err e => e = status_Invalid ∧ bad_index s chunk_indices ∨ async_failed e
  | Ub => False
  end.
Proof.
  intros Hmax Hks. unfold get_chunks_async. set (u := sort_unique chunk_indices).
  assert (∀ k, k ∈ u ↔ k ∈ chunk_indices) as Hu by (intros k; apply elem_of_sort_unique).
  assert (StronglySorted Z.lt u) as Hsorted by apply sort_unique_sorted.
  destruct (head u) as [front|] eqn:Hfront.
  2:{ destruct u as [|x u']; [|done]. destruct chunk_indices as [|k l]; [constructor|]. exfalso.
      assert (k ∈ []) as Hk by (apply Hu; left). by apply not_elem_of_nil in Hk. }
  destruct (last u) as [back|] eqn:Hback; [|by apply last_None in Hback; rewrite Hback in Hfront].
  pose proof (sorted_bounds u front back) as Hbounds.
  assert (front ∈ u) as Hfin by (destruct u; simplify_eq/=; left).
  assert (back ∈ u) as Hbin by (apply last_Some in Hback as [? ->]; set_solver).
  assert (∀ k, k ∈ u → INT64_MIN ≤ k ≤ INT64_MAX) as H64.
  { intros k Hk%Hu. by eapply Forall_forall in Hks. }
  destruct (Z.ltb_spec front 0) as [Hneg|Hnn].
  { left. split; [done|]. apply Exists_exists. exists front. split; [by apply Hu|by left]. }
  pose proof (Hbounds back Hsorted Hfront Hback Hbin) as Hbb. pose proof (H64 back Hbin).
  rewrite wrap_u64_small by (unfold INT64_MAX, UINT64_MOD in *; lia).
  destruct (Z.leb_spec (Z.of_nat (length (cgr_chunk_infos s))) back) as [Hbig|Hlt].
  { left. split; [done|]. apply Exists_exists. exists back. split; [by apply Hu|by right]. }
  destruct (chunk_task_build_spec s Hopened u) as (ts & Hbuild & Hok & Hp).
  { apply Forall_forall. intros k Hk. specialize (Hbounds k Hsorted Hfront Hback Hk). split; lia. }
  rewrite Hbuild, bind_Ok.
  destruct (split_tasks_spec (traits := chunk_traits (get_chunk_info s)) (SplitLaws0 := chunk_split_laws s)
    ts (Z.max parallelism 1) strategy Hok) as (ts' & Hsplit & Hok' & Hp' & _).
  rewrite Hsplit, bind_Ok. pose proof (collect_tasks_reads ts' ∅ [] Hok' (reads_empty s)) as Hc.
  destruct (collect_tasks _ ∅) as [m|e|]; [|by right|done]. rewrite bind_Ok.
  assert (reads s m u) as Hm.
  { eapply reads_ext; [|exact Hc]. intros k. rewrite app_nil_r. rewrite <- Hp. unfold all_items in Hp'.
    simpl in Hp'. by rewrite Hp'. }
  edestruct (collect_chunks s m u chunk_indices) as (bs & Hf & Hbs); [|exact Hm| |].
  3:{ rewrite Hf. exact Hbs. }
  - intros acc k b Hk. cbn beta. by rewrite Hk.
  - apply Forall_forall. intros k Hk. by apply Hu.
Qed.

Lemma get_chunks_sync_get_chunks chunk_indices parallelism num_threads :
  0 ≤ num_threads → Z.of_nat (length chunk_indices) < UINT64_MOD →
  get_chunks_sync s chunk_indices parallelism num_threads = get_chunks s chunk_indices parallelism num_threads.
Proof.
  intros Ht Hl. pose proof (get_chunks_spec s Hopened chunk_indices parallelism num_threads Ht Hl) as Hs.
  unfold get_chunks_sync. destruct (get_chunks _ _ _ _) as [bs| |]; [|done..].
  rewrite bind_Ok. by rewrite (Forall2_length _ _ _ Hs), Nat.eqb_refl.
Qed.

Lemma holds_chunk_rows ks bs bs' :
  Forall2 (holds_chunk s) ks bs → Forall2 (holds_chunk s) ks bs' → rows <$> bs' = rows <$> bs.
Proof.
  intros H1. revert bs'. induction H1 as [|k b ks bs (c & r & Hk & Hr & Hb) H1 IH]; intros bs' H2.
  - by inversion H2.
  - inversion H2 as [|? b' ? bs2 (c' & r' & Hk' & Hr' & Hb') H2' E1 E2]; subst.
    rewrite !fmap_cons, (IH bs2 H2'). f_equal. congruence.
Qed.
End agree.

(** C38: Asynchronous and synchronous reads of chunks are equivalent.  On an
    opened reader, for any task split strategy and degrees of parallelism, both
    return the same rows in the same order, duplicates included, when both
    succeed; the asynchronous read fails only for an index out of range or with
    the error of a format reader, and its tasks never run out of bounds; the
    slicing fallback of the synchronous read is never entered. *)
Theorem async_chunks_equivalent `{AsyncReaderLaws} s chunk_indices parallelism num_threads strategy :
  opened_reader s → 0 ≤ num_threads → Z.of_nat (length chunk_indices) < UINT64_MOD →
  Z.of_nat (length (cgr_chunk_infos s)) ≤ INT64_MAX →
  Forall (λ k, INT64_MIN ≤ k ≤ INT64_MAX) chunk_indices →
  get_chunks_sync s chunk_indices parallelism num_threads = get_chunks s chunk_indices parallelism num_threads ∧
  match get_chunks_async s chunk_indices parallelism strategy with
  | Ok bs' => length bs' = length chunk_indices ∧
      ∀ bs, get_chunks_sync s chunk_indices parallelism num_threads = Ok bs → rows <$> bs' = rows <$> bs
  | Err e => e = status_Invalid ∧ bad_index s chunk_indices ∨ async_failed e
  | Ub => False
  end.
Proof.
  intros Ho Ht Hl Hmax H64. pose proof (get_chunks_sync_get_chunks s Ho chunk_indices parallelism num_threads Ht Hl) as Hsync.
  split; [done|]. rewrite Hsync. pose proof (get_chunks_async_spec s Ho chunk_indices parallelism strategy Hmax H64) as Ha.
  pose proof (get_chunks_spec s Ho chunk_indices parallelism num_threads Ht Hl) as Hs.
  destruct (get_chunks_async _ _ _ _) as [bs'| |]; [|done..]. split; [by symmetry; eapply Forall2_length|].
  intros bs Hbs. rewrite Hbs in Hs. by eapply holds_chunk_rows.
Qed.

Module SampleAsync.
Import RowBatch SampleFiles.

#[export] Instance sample_async : AsyncReaders := {
  read_with_range_async := read_with_range;
}.

#[export] Instance sample_async_laws : AsyncReaderLaws.
Proof. split; [apply read_with_range_defined|apply read_with_range_rows]. Defined.

Lemma async_chunks_equivalent_witness :
  ∃ bs, get_chunks_async opened [4; 0; 1; 0] 2 kSplitToParallelism = Ok bs ∧ length bs = 4%nat ∧
    cells <$> bs = [[[22]; [23]; [24]]; [[11]; [12]]; [[13]; [14]; [15]]; [[11]; [12]]].
Proof.
  pose proof (async_chunks_equivalent opened [4; 0; 1; 0] 2 2 kSplitToParallelism sample_opened) as Hall.
  destruct (get_chunks_async opened [4; 0; 1; 0] 2 kSplitToParallelism) as [bs| |] eqn:E; [|by vm_compute in E..].
  destruct Hall as [_ [Hlen _]]; [done|done|by vm_compute|repeat constructor; by vm_compute|].
  exists bs. split_and!; [done|done|]. vm_compute in E. injection E as <-. by vm_compute.
Defined.
End SampleAsync.
