(* ===== verification/ScanReader.v ===== *)
(** * Scanning all column groups

    [PackedRecordBatchReader] of [reader.cpp], the stream behind
    [Reader::get_record_batch_reader]: chunks of every column group are loaded
    up to a memory limit, the group furthest behind first, and each call of
    [ReadNext] cuts the rows that the front batches of all groups share.

    The column group readers are an interface ([ChunkSource], with
    [ChunkSourceLaws]), which the reader of [ColumnGroupReader.v] implements.
    The vectors that have an entry per column group are one list of records. *)

From S2P Require Import Prelude CppString Status ColumnGroups ArrowData ChunkManager.

(** ** Interfaces *)

(** An opened [ColumnGroupReader], for the parallelism of the scan. *)
Class ChunkSource `{RecordBatches} := {
  Source : Type;
  src_create : option (list string) → ColumnGroup → list string → string → outcome Status Source;
  total_number_of_chunks : Source → Z;
  src_total_rows : Source → Z;
  src_schema : Source → option (list string);
  src_estimated_size : Source → Z → outcome Status Z;
  src_chunk_rows : Source → Z → outcome Status Z;
  src_get_chunk : Source → Z → outcome Status RecordBatch;
  src_get_chunks : Source → list Z → outcome Status (list RecordBatch);
}.

(** The columns of a batch as arrays, and arrays of nulls. *)
Class BatchArrays `{RecordBatches} `{Arrays} := {
  batch_column : RecordBatch → nat → Array;
  MakeArrayOfNull : string → Z → outcome Status Array;   (* the field and the length *)
}.

(** The least row offset is on top. *)
Definition scan_key (e : nat * Z) : Z := - e.2.

Section scan.
Context `{ChunkSource} `{!Arrays} `{!BatchArrays} `{!PriorityQueue scan_key}.

(** ** State *)

(** The entries of one column group. *)
Record CgState := mkCg {
  cg_source : Source;                  (* chunk_readers_[i] *)
  cg_chunks : Z;                       (* number_of_chunks_per_cg_[i] *)
  cg_rbs : list RecordBatch;           (* current_rbs_[i], front first *)
  cg_offset : Z;                       (* current_cg_offsets_[i] *)
  cg_chunk_index : Z;                  (* current_cg_chunk_indices_[i] *)
  cg_loaded : list Z;                  (* loaded_chunk_indices_[i] *)
}.

Record Scan := mkScan {
  sc_needed_columns : list string;
  sc_out_field_map : list (option (nat * nat));   (* None: (-1, -1) *)
  sc_predicate : string;
  sc_end_of_offset : Z;
  sc_row_limit : Z;                    (* number_of_row_limit_ *)
  sc_memory_limit : Z;                 (* memory_usage_limit_ *)
  sc_memory_used : Z;                  (* int64_t *)
  sc_current_offset : Z;               (* int64_t *)
  sc_cgs : list CgState;
}.

Definition SC (A : Type) : Type := M Scan Status A.

Definition set_cgs (cgs : list CgState) (s : Scan) : Scan :=
  mkScan (sc_needed_columns s) (sc_out_field_map s) (sc_predicate s) (sc_end_of_offset s) (sc_row_limit s)
    (sc_memory_limit s) (sc_memory_used s) (sc_current_offset s) cgs.

(** ** Opening *)

(** The columns of a group, in the order of the needed columns. *)
Definition columns_after_projection (needed_columns : list string) (cg : ColumnGroup) : list string :=
  filter (λ c, c ∈ columns cg) needed_columns.

(** [columnMap]: later groups override earlier ones, as do later positions. *)
Definition column_map (projected : list (list string)) : gmap string (nat * nat) :=
  foldl (λ m e, foldl (λ m f, <[f.2 := (e.1, f.1)]> m) m (imap pair e.2)) ∅ (imap pair projected).

Definition open_source (schema : option (list string)) (needed_columns : list string)
    (predicate : string) (acc : option Z * list CgState) (cg : ColumnGroup) :
    outcome Status (option Z * list CgState) :=
  src ← src_create schema cg needed_columns predicate;
  let n := total_number_of_chunks src in
  if n =? 0 then Err status_Invalid
  else
    let state := mkCg src n [] 0 0 [] in
    match acc.1 with
    | None => Ok (Some (src_total_rows src), acc.2 ++ [state])
    | Some rows => if negb (src_total_rows src =? rows) then Err status_Invalid
                   else Ok (Some rows, acc.2 ++ [state])
    end.

(** A column without a field in the schema, or in any group's schema. *)
Definition check_field (schema : option (list string)) (sources : list CgState) (c : string) :
    outcome Status unit :=
  match schema with
  | Some names => if bool_decide (c ∈ names) then Ok tt else Ub   (* field(-1) *)
  | None =>
      if existsb (λ g, match src_schema (cg_source g) with
                       | Some names => bool_decide (c ∈ names) | None => false end) sources
      then Ok tt else Err status_Invalid
  end.

Definition scan_open (schema : option (list string)) (column_groups : list ColumnGroup)
    (needed_columns : list string) (predicate : string) (row_limit memory_limit : Z) :
    outcome Status Scan :=
  let predicate := if negb (is_empty predicate) && (1 <? length column_groups)%nat then EmptyString
                   else predicate in
  opened ← fold_out (open_source schema needed_columns predicate) column_groups (None, []);
  match opened.1 with
  | None => Ub      (* no column group: the number of rows is not set *)
  | Some rows =>
      let m := column_map (columns_after_projection needed_columns <$> column_groups) in
      check_all (check_field schema opened.2) needed_columns;;
      Ok (mkScan needed_columns ((λ c, m !! c) <$> needed_columns) predicate rows row_limit memory_limit
            0 0 opened.2)
  end.

(** ** Loading *)

Definition has_more_chunks (g : CgState) : bool := cg_chunk_index g <? cg_chunks g.

(** [preload_column_group]: memory, whether it is unknown, and the group. *)
Definition preload_column_group (memory_used : Z) (unavailable : bool) (g : CgState) :
    outcome Status (Z * bool * CgState) :=
  let index := cg_chunk_index g in
  mem ← match src_estimated_size (cg_source g) index with
        | Ok v => Ok (wrap_i64 (memory_used + v), unavailable)
        | Err e => if bool_decide (st_code e = NotImplemented) then Ok (memory_used, true) else Err e
        | Ub => Ub
        end;
  rows ← src_chunk_rows (cg_source g) index;
  Ok (mem.1, mem.2,
      mkCg (cg_source g) (cg_chunks g) (cg_rbs g) (u64_add (cg_offset g) rows) (index + 1)
        (cg_loaded g ++ [index])).

Definition all_cgs_have_data (cgs : list CgState) : bool :=
  negb (existsb (λ g, bool_decide (cg_rbs g = []) && bool_decide (cg_loaded g = []) && has_more_chunks g) cgs).

Definition heap_entry (i : nat) (g : CgState) : list (nat * Z) :=
  if has_more_chunks g then [(i, wrap_i32 (cg_offset g))] else [].

Definition sorted_offsets (cgs : list CgState) : list (nat * Z) := mjoin (imap heap_entry cgs).

(** The chunks that are not loaded: the iterations the loop can make. *)
Definition chunks_left (cgs : list CgState) : nat :=
  sum_list ((λ g, Z.to_nat (cg_chunks g - cg_chunk_index g)) <$> cgs).

(** The loop that picks the chunks to load.  Errors leave the groups changed so
    far. *)
Fixpoint pick_chunks_to_load (fuel : nat) (memory_limit memory_used : Z) (unavailable : bool)
    (heap : list (nat * Z)) (cgs : list CgState) : (Z * list CgState) * outcome Status unit :=
  match pop_top heap with
  | None => ((memory_used, cgs), Ok tt)
  | Some ((i, _), heap) =>
      if (negb unavailable && (memory_used <? memory_limit)) || negb (all_cgs_have_data cgs) then
        match fuel, cgs !! i with
        | O, _ | _, None => ((memory_used, cgs), Ub)
        | S fuel', Some g =>
            if negb (has_more_chunks g)
            then pick_chunks_to_load fuel' memory_limit memory_used unavailable heap cgs
            else
              match preload_column_group memory_used unavailable g with
              | Ok (memory_used, unavailable, g) =>
                  pick_chunks_to_load fuel' memory_limit memory_used unavailable
                    (heap_entry i g ++ heap) (<[i := g]> cgs)
              | Err e => ((memory_used, cgs), Err e)
              | Ub => ((memory_used, cgs), Ub)
              end
        end
      else ((memory_used, cgs), Ok tt)
  end.

(** The chunks of a group are read one by one when there is a predicate. *)
Definition read_loaded (predicate : string) (g : CgState) : outcome Status (list RecordBatch) :=
  if negb (is_empty predicate) then
    fold_out (λ rbs k, rb ← src_get_chunk (cg_source g) k;
                       Ok (if 0 <? num_rows rb then rbs ++ [rb] else rbs)) (cg_loaded g) []
  else src_get_chunks (cg_source g) (cg_loaded g).

(** The I/O of the groups in order.  A failure leaves the remaining ones. *)
Fixpoint execute_io (predicate : string) (cgs : list CgState) : list CgState * outcome Status unit :=
  match cgs with
  | [] => ([], Ok tt)
  | g :: cgs' =>
      match (if bool_decide (cg_loaded g = []) then Ok [] else read_loaded predicate g) with
      | Ok rbs =>
          let '(cgs', o) := execute_io predicate cgs' in
          (mkCg (cg_source g) (cg_chunks g) (cg_rbs g ++ rbs) (cg_offset g) (cg_chunk_index g) [] :: cgs', o)
      | Err e => (cgs, Err e)
      | Ub => (cgs, Ub)
      end
  end.

Definition load_internal : SC unit := λ s,
  if negb (existsb (λ g, bool_decide (cg_rbs g = []) && has_more_chunks g) (sc_cgs s)) then (s, Ok tt)
  else
    let '((memory_used, cgs), o) :=
      pick_chunks_to_load (S (chunks_left (sc_cgs s))) (sc_memory_limit s) 0 false
        (sorted_offsets (sc_cgs s)) (sc_cgs s) in
    let s := mkScan (sc_needed_columns s) (sc_out_field_map s) (sc_predicate s) (sc_end_of_offset s)
               (sc_row_limit s) (sc_memory_limit s) memory_used (sc_current_offset s) cgs in
    match o with
    | Ok _ => let '(cgs, o) := execute_io (sc_predicate s) cgs in (set_cgs cgs s, o)
    | Err e => (s, Err e)
    | Ub => (s, Ub)
    end.

(** ** Reading *)

Record OutBatch := mkOut {
  ob_rows : Z;
  ob_columns : list Array;
}.

(** The loop of [ReadNext] until there are rows ([true]) or none are left. *)
Fixpoint load_rows (fuel : nat) : SC bool :=
  match fuel with
  | O => undefined
  | S fuel' =>
      load_internal;;
      s ← get_st;
      if is_empty (sc_predicate s) && (sc_current_offset s =? sc_end_of_offset s) then mret false
      else if existsb (λ g, negb (bool_decide (cg_rbs g = []))) (sc_cgs s) then mret true
      else if existsb has_more_chunks (sc_cgs s) then load_rows fuel'
      else mret false
  end.

(** The rows that the front batches share. *)
Definition min_front_rows (row_limit : Z) (cgs : list CgState) : outcome Status Z :=
  fold_out (λ m g, rb ← deref (head (cg_rbs g)); Ok (Z.min m (num_rows rb))) cgs (wrap_u64 row_limit).

Definition out_array (cgs : list CgState) (min_rows : Z) (e : string * option (nat * nat)) :
    outcome Status Array :=
  match e.2 with
  | None => MakeArrayOfNull e.1 min_rows
  | Some (cg, idx) =>
      g ← deref (cgs !! cg);
      rb ← deref (head (cg_rbs g));
      if num_columns rb <=? Z.of_nat idx then Err status_Invalid
      else if num_rows rb =? min_rows then Ok (batch_column rb idx)
      else Ok (array_Slice (batch_column rb idx) 0 min_rows)
  end.

Definition out_arrays (s : Scan) (min_rows : Z) : outcome Status (list Array) :=
  fold_out (λ acc e, a ← out_array (sc_cgs s) min_rows e; Ok (acc ++ [a]))
    (zip (sc_needed_columns s) (sc_out_field_map s)) [].

(** The front batch is popped, or what is left of it stays in front. *)
Definition advance_front (min_rows : Z) (g : CgState) : outcome Status CgState :=
  match cg_rbs g with
  | [] => Ub
  | rb :: rbs =>
      let rbs := if num_rows rb =? min_rows then rbs
                 else batch_Slice rb min_rows (num_rows rb - min_rows) :: rbs in
      Ok (mkCg (cg_source g) (cg_chunks g) rbs (cg_offset g) (cg_chunk_index g) (cg_loaded g))
  end.

Definition advance_all (min_rows : Z) (cgs : list CgState) : outcome Status (list CgState) :=
  fold_out (λ acc g, g ← advance_front min_rows g; Ok (acc ++ [g])) cgs [].

Definition ReadNext : SC (option OutBatch) :=
  s ← get_st;
  more ← load_rows (S (chunks_left (sc_cgs s)));
  if negb more then mret None
  else
    s ← get_st;
    min_rows ← lift (min_front_rows (sc_row_limit s) (sc_cgs s));
    arrays ← lift (out_arrays s min_rows);
    cgs ← lift (advance_all min_rows (sc_cgs s));
    modify (λ s, mkScan (sc_needed_columns s) (sc_out_field_map s) (sc_predicate s) (sc_end_of_offset s)
                   (sc_row_limit s) (sc_memory_limit s) (sc_memory_used s)
                   (wrap_i64 (sc_current_offset s + min_rows)) cgs);;
    mret (Some (mkOut min_rows arrays)).

(** A client that reads to the end. *)
Fixpoint read_all (fuel : nat) : SC (list OutBatch) :=
  match fuel with
  | O => undefined
  | S fuel' =>
      b ← ReadNext;
      match b with
      | None => mret []
      | Some b => bs ← read_all fuel'; mret (b :: bs)
      end
  end.
End scan.
