(* ===== verification/ScanReaderCorrect.v ===== *)
(** * A scan returns every row of every needed column, aligned

    The stream of [ScanReader.v], without a pushed-down predicate: whatever the
    memory limit and the sizes of the chunks, each call returns a non-empty batch
    within the row limit, the batches together hold every needed column in order,
    a column that no group has is null, and the stream ends. *)

From S2P Require Import Prelude CppString Status ColumnGroups ArrowData ChunkManager ScanReader.

(** ** What the scan relies on *)

(** The chunks of an opened column group reader, as lists of rows. *)
Class ChunkSourceLaws `{BL : BatchLaws} `{CS : !ChunkSource} := {
  src_ok : Source → Prop;
  src_data : Source → list (list row);
  src_chunks_law s : src_ok s → total_number_of_chunks s = Z.of_nat (length (src_data s));
  src_nonempty s : src_ok s → Forall (λ l, l ≠ []) (src_data s);
  src_total_law s : src_ok s → src_total_rows s = Z.of_nat (length (mjoin (src_data s)));
  src_bound s : src_ok s → Z.of_nat (length (mjoin (src_data s))) ≤ INT64_MAX;
  src_estimate_defined s k : src_ok s → 0 ≤ k < total_number_of_chunks s →
    src_estimated_size s k ≠ Ub;
  src_chunk_rows_law s k l : src_ok s → src_data s !! k = Some l →
    src_chunk_rows s (Z.of_nat k) = Ok (Z.of_nat (length l));
  src_get_chunks_law s ks : src_ok s → Forall (λ k, 0 ≤ k < total_number_of_chunks s) ks →
    Z.of_nat (length ks) ≤ total_number_of_chunks s →
    match src_get_chunks s ks with
    | Ok bs => Forall2 (λ k b, src_data s !! Z.to_nat k = Some (rows b)) ks bs
    | Err _ => True
    | Ub => False
    end;
}.

(** Columns of batches: cells of their rows. *)
Class BatchArrayLaws `{BL : BatchLaws} `{AL : ArrayLaws} `{BA : !BatchArrays} := {
  row_cell : nat → row → cell;
  row_width : row → nat;
  null_cell : cell;
  width_law b r : r ∈ rows b → num_columns b = Z.of_nat (row_width r);
  column_cells b j : Z.of_nat j < num_columns b → acells (batch_column b j) = row_cell j <$> rows b;
  null_defined name n : MakeArrayOfNull name n ≠ Ub;
  null_cells name n a : MakeArrayOfNull name n = Ok a → acells a = replicate (Z.to_nat n) null_cell;
}.

Section correct.
Context `{CSL : ChunkSourceLaws} `{AL : ArrayLaws} `{!BatchArrays} `{!BatchArrayLaws} `{!PriorityQueue scan_key}.

(** An error of a scan comes from a column group reader or from arrow. *)
Definition scan_failed (e : Status) : Prop :=
  (∃ s k, src_estimated_size s k = Err e) ∨ (∃ s ks, src_get_chunks s ks = Err e) ∨
  (∃ name n, MakeArrayOfNull name n = Err e).

(** ** Invariants *)

(** The queue of a group holds the rows from [off] to the end of the chunks that
    were read. *)
Record cg_inv (off : Z) (g : CgState) : Prop := {
  ci_ok : src_ok (cg_source g);
  ci_chunks : cg_chunks g = Z.of_nat (length (src_data (cg_source g)));
  ci_index : 0 ≤ cg_chunk_index g ≤ cg_chunks g;
  ci_loaded : cg_loaded g = [];
  ci_rows : mjoin (rows <$> cg_rbs g)
    = drop (Z.to_nat off) (mjoin (take (Z.to_nat (cg_chunk_index g)) (src_data (cg_source g))));
  ci_off : off ≤ Z.of_nat (length (mjoin (take (Z.to_nat (cg_chunk_index g)) (src_data (cg_source g)))));
  ci_pos : Forall (λ b, rows b ≠ []) (cg_rbs g);
}.

(** A group from which chunks were picked. *)
Record cg_loading (g0 g : CgState) : Prop := {
  cl_source : cg_source g = cg_source g0;
  cl_chunks : cg_chunks g = cg_chunks g0;
  cl_rbs : cg_rbs g = cg_rbs g0;
  cl_index : cg_chunk_index g0 ≤ cg_chunk_index g ≤ cg_chunks g0;
  cl_loaded : cg_loaded g = seqZ (cg_chunk_index g0) (cg_chunk_index g - cg_chunk_index g0);
}.

Definition cg_ready (g : CgState) : Prop := cg_rbs g ≠ [] ∨ cg_chunk_index g = cg_chunks g.

Record scan_inv (s : Scan) : Prop := {
  sv_predicate : sc_predicate s = EmptyString;
  sv_cgs : Forall (cg_inv (sc_current_offset s)) (sc_cgs s);
  sv_total : Forall (λ g, src_total_rows (cg_source g) = sc_end_of_offset s) (sc_cgs s);
  sv_nonempty : sc_cgs s ≠ [];
  sv_offset : 0 ≤ sc_current_offset s ≤ sc_end_of_offset s;
  sv_limit : 0 < sc_row_limit s ≤ INT64_MAX;
}.

(** ** Picking chunks *)

Lemma seqZ_snoc' a n : 0 ≤ n → seqZ a (n + 1) = seqZ a n ++ [a + n].
Proof. intros. rewrite (seqZ_app a n 1) by lia. by rewrite (seqZ_cons (a + n) 1) by lia. Qed.

Lemma preload_spec g0 g mem un :
  src_ok (cg_source g0) → cg_chunks g0 = Z.of_nat (length (src_data (cg_source g0))) →
  0 ≤ cg_chunk_index g0 → cg_loading g0 g → has_more_chunks g = true →
  match preload_column_group mem un g with
  | Ok (_, _, g') => cg_loading g0 g' ∧ cg_chunk_index g' = cg_chunk_index g + 1
  | Err e => ∃ s k, src_estimated_size s k = Err e
  | Ub => False
  end.
Proof.
  intros Hok Hn Hi0 [Hs Hc Hr Hi Hl] Hmore. apply Z.ltb_lt in Hmore.
  assert (0 ≤ cg_chunk_index g < total_number_of_chunks (cg_source g)) as Hk.
  { rewrite Hs, (src_chunks_law _ Hok). lia. }
  destruct (lookup_lt_is_Some_2 (src_data (cg_source g)) (Z.to_nat (cg_chunk_index g))) as [l Hd].
  { rewrite Hs. lia. }
  assert (src_chunk_rows (cg_source g) (cg_chunk_index g) = Ok (Z.of_nat (length l))) as Hrows.
  { rewrite <- (Z2Nat.id (cg_chunk_index g)) by lia. apply src_chunk_rows_law; [by rewrite Hs|done]. }
  assert (src_estimated_size (cg_source g) (cg_chunk_index g) ≠ Ub) as Hdef
    by (apply src_estimate_defined; [by rewrite Hs|done]).
  assert (let g' := mkCg (cg_source g) (cg_chunks g) (cg_rbs g)
      (u64_add (cg_offset g) (Z.of_nat (length l))) (cg_chunk_index g + 1) (cg_loaded g ++ [cg_chunk_index g]) in
    cg_loading g0 g' ∧ cg_chunk_index g' = cg_chunk_index g + 1) as Hnext.
  { split; [|done]. split; simpl; try done; [lia|]. rewrite Hl.
    replace (cg_chunk_index g + 1 - cg_chunk_index g0) with (cg_chunk_index g - cg_chunk_index g0 + 1) by lia.
    rewrite seqZ_snoc' by lia. do 2 f_equal. lia. }
  unfold preload_column_group.
  destruct (src_estimated_size (cg_source g) (cg_chunk_index g)) as [v|e|] eqn:He; [| |done].
  - rewrite bind_Ok, Hrows, bind_Ok. by apply Hnext.
  - case_bool_decide; [|by exists (cg_source g), (cg_chunk_index g)].
    rewrite bind_Ok, Hrows, bind_Ok. by apply Hnext.
Qed.

(** The heap holds each group that has chunks left, once. *)
Definition heap_inv (cgs : list CgState) (heap : list (nat * Z)) : Prop :=
  NoDup heap.*1 ∧ ∀ i, i ∈ heap.*1 ↔ ∃ g, cgs !! i = Some g ∧ has_more_chunks g = true.

Lemma sorted_offsets_inv cgs : heap_inv cgs (sorted_offsets cgs).
Proof.
  unfold sorted_offsets. assert (∀ n, NoDup (mjoin (imap (λ i, heap_entry (n + i)) cgs)).*1 ∧
    ∀ i, i ∈ (mjoin (imap (λ i, heap_entry (n + i)) cgs)).*1 ↔ ∃ k g, i = (n + k)%nat ∧ cgs !! k = Some g ∧ has_more_chunks g = true) as Hgen.
  { induction cgs as [|g cgs IH]; intros n.
    - split; [constructor|]. intros i. split; [intros Hi; by apply not_elem_of_nil in Hi|by intros (? & ? & _ & ? & _)].
    - assert ((mjoin (imap (λ i, heap_entry (n + i)) (g :: cgs))).*1 = (if has_more_chunks g then [n] else []) ++
        (mjoin (imap (λ i, heap_entry (S n + i)) cgs)).*1) as ->.
      { rewrite imap_cons. simpl. rewrite fmap_app, Nat.add_0_r. f_equal; [unfold heap_entry; by destruct (has_more_chunks g)|].
        do 2 f_equal. apply imap_ext. intros i x _. simpl. by rewrite Nat.add_succ_r. }
      destruct (IH (S n)) as [Hnd Hin]. split.
      + destruct (has_more_chunks g); [|done]. simpl. constructor; [|done].
        rewrite Hin. intros (k & ? & ? & _). lia.
      + intros i. rewrite elem_of_app, Hin. split.
        * intros [Hi|(k & g' & -> & Hk)]; [|exists (S k), g'; split; [lia|done]].
          destruct (has_more_chunks g) eqn:Hg; [|by apply not_elem_of_nil in Hi].
          apply list_elem_of_singleton in Hi as ->. exists 0%nat, g. split; [lia|done].
        * intros (k & g' & -> & Hk & Hg'). destruct k as [|k]; simplify_eq/=.
          -- left. rewrite Hg', Nat.add_0_r. by apply list_elem_of_singleton.
          -- right. exists k, g'. split; [lia|done]. }
  destruct (Hgen 0%nat) as [Hnd Hin]. split; [done|]. intros i. rewrite Hin. naive_solver.
Qed.

Lemma chunks_left_insert cgs i g g' :
  cgs !! i = Some g → cg_chunks g' = cg_chunks g → cg_chunk_index g' = cg_chunk_index g + 1 →
  has_more_chunks g = true → chunks_left cgs = S (chunks_left (<[i := g']> cgs)).
Proof.
  intros Hi Hc Hx Hmore%Z.ltb_lt. revert i Hi. unfold chunks_left.
  induction cgs as [|h cgs IH]; intros [|i] Hi; simplify_eq/=.
  - rewrite Hc, Hx. lia.
  - rewrite (IH i Hi). lia.
Qed.

(** Popping a group and pushing it back, with a chunk fewer, keeps the heap. *)
Lemma heap_inv_step cgs heap c heap' g g' :
  heap_inv cgs heap → heap ≡ₚ c :: heap' → cgs !! c.1 = Some g →
  heap_inv (<[c.1 := g']> cgs) (heap_entry c.1 g' ++ heap').
Proof.
  intros [Hnd Hin] Hp Hg. assert (heap.*1 ≡ₚ c.1 :: heap'.*1) as Hp1 by (rewrite Hp; done).
  rewrite Hp1 in Hnd. apply NoDup_cons in Hnd as [Hc Hnd]. apply lookup_lt_Some in Hg as Hlt.
  assert ((heap_entry c.1 g' ++ heap').*1 = (if has_more_chunks g' then [c.1] else []) ++ heap'.*1) as E.
  { rewrite fmap_app. unfold heap_entry. by destruct (has_more_chunks g'). }
  unfold heap_inv. rewrite E. split.
  - destruct (has_more_chunks g'); [by constructor|done].
  - intros i. rewrite elem_of_app. assert (i ∈ heap'.*1 ↔ i ≠ c.1 ∧ i ∈ heap.*1) as ->.
    { rewrite Hp1, elem_of_cons. split; [|tauto]. intros Hi. split; [by intros ->|by right]. }
    rewrite Hin. destruct (decide (i = c.1)) as [->|Hne].
    + rewrite list_lookup_insert_eq by done. destruct (has_more_chunks g') eqn:Hm.
      * split; [by eauto|]. intros _. left. by apply list_elem_of_singleton.
      * split; [intros [Hi|[? _]]; [by apply not_elem_of_nil in Hi|done]|]. intros (? & ? & ?). congruence.
    + rewrite list_lookup_insert_ne by done. split; [|tauto]. intros [Hi|[_ ?]]; [|done].
      destruct (has_more_chunks g'); [by apply list_elem_of_singleton in Hi|by apply not_elem_of_nil in Hi].
Qed.

Lemma pick_loads_spec fuel limit mem un heap cgs0 cgs :
  Forall (λ g, src_ok (cg_source g) ∧ cg_chunks g = Z.of_nat (length (src_data (cg_source g))) ∧
    0 ≤ cg_chunk_index g) cgs0 →
  Forall2 cg_loading cgs0 cgs → heap_inv cgs heap → (chunks_left cgs < fuel)%nat →
  match pick_chunks_to_load fuel limit mem un heap cgs with
  | (_, cgs', Ok _) => Forall2 cg_loading cgs0 cgs' ∧ all_cgs_have_data cgs' = true
  | (_, _, Err e) => scan_failed e
  | (_, _, Ub) => False
  end.
Proof.
  intros Hok. revert mem un heap cgs. induction fuel as [|fuel IH]; intros mem un heap cgs Hl Hh Hf; [lia|].
  simpl. destruct (pop_top heap) as [[[i o] heap']|] eqn:Hp.
  2:{ apply pop_top_None in Hp as ->. split; [done|]. unfold all_cgs_have_data. apply negb_true_iff.
      apply not_true_iff_false. rewrite existsb_exists. intros (g & Hg & Hb).
      apply andb_true_iff in Hb as [_ Hm]. apply list_elem_of_In, list_elem_of_lookup in Hg as [j Hj].
      destruct Hh as [_ Hin]. assert (j ∈ ([] : list (nat * Z)).*1) as Hbad by (apply Hin; eauto).
      by apply not_elem_of_nil in Hbad. }
  apply pop_top_Some in Hp as [Hp _].
  destruct ((negb un && (mem <? limit)) || negb (all_cgs_have_data cgs)) eqn:Hcond.
  2:{ split; [done|]. apply orb_false_iff in Hcond as [_ Hall]. by apply negb_false_iff in Hall. }
  destruct (proj1 (proj2 Hh i)) as (g & Hg & Hm).
  { rewrite Hp, fmap_cons. by left. }
  rewrite Hg, Hm. simpl. destruct (Forall2_lookup_r _ _ _ _ _ Hl Hg) as (g0 & Hg0 & Hlg).
  pose proof (proj1 (Forall_lookup _ _) Hok i g0 Hg0) as (Ho & Hc & Hi).
  pose proof (preload_spec g0 g mem un Ho Hc Hi Hlg Hm) as Hpre.
  destruct (preload_column_group mem un g) as [[[mem' un'] g']|e|]; [|by left|done].
  destruct Hpre as [Hlg' Hidx]. apply (IH mem' un').
  - rewrite <- (list_insert_id cgs0 i g0 Hg0). by apply Forall2_insert.
  - apply (heap_inv_step cgs heap (i, o) heap' g g' Hh Hp Hg).
  - assert (chunks_left cgs = S (chunks_left (<[i := g']> cgs))); [|lia].
    eapply chunks_left_insert; try done. by rewrite (cl_chunks _ _ Hlg'), (cl_chunks _ _ Hlg).
Qed.

(** ** Reading the picked chunks *)

Lemma chunk_rows_of_seq D n m bs :
  0 ≤ n → 0 ≤ m →
  Forall2 (λ k b, D !! Z.to_nat k = Some (rows b)) (seqZ n m) bs →
  rows <$> bs = take (Z.to_nat m) (drop (Z.to_nat n) D).
Proof.
  intros Hn Hm Hf. pose proof (Forall2_length _ _ _ Hf) as Hlen. rewrite length_seqZ in Hlen.
  apply list_eq. intros i. rewrite list_lookup_fmap. destruct (decide (i < Z.to_nat m)%nat) as [Hi|Hi].
  - destruct (lookup_lt_is_Some_2 bs i ltac:(lia)) as [b Hb]. rewrite Hb.
    destruct (Forall2_lookup_r _ _ _ _ _ Hf Hb) as (k & Hk & Hd). apply lookup_seqZ in Hk as [-> _].
    rewrite lookup_take_lt, lookup_drop by done. simpl. rewrite <- Hd. f_equal. lia.
  - rewrite (lookup_ge_None_2 bs) by lia. rewrite lookup_take_ge by lia. done.
Qed.

Lemma execute_io_spec off cgs0 cgs :
  0 ≤ off → Forall (cg_inv off) cgs0 → Forall2 cg_loading cgs0 cgs → all_cgs_have_data cgs = true →
  match execute_io EmptyString cgs with
  | (cgs', Ok _) => Forall2 (λ g0 g', cg_inv off g' ∧ cg_source g' = cg_source g0 ∧ cg_ready g') cgs0 cgs'
  | (_, Err e) => scan_failed e
  | (_, Ub) => False
  end.
Proof.
  intros Hoff Hinv Hl. induction Hl as [|g0 g cgs0 cgs Hg Hl IH]; intros Hall; [constructor|].
  apply Forall_cons in Hinv as [[Hok Hc Hi Hlo Hr Ho Hpos] Hinv].
  unfold all_cgs_have_data in Hall. apply negb_true_iff in Hall. simpl in Hall.
  apply orb_false_iff in Hall as [Hd Hall]. specialize (IH Hinv ltac:(by apply negb_true_iff)).
  destruct Hg as [Hs Hcc Hrb Hix Hld]. set (n := cg_chunk_index g - cg_chunk_index g0) in *.
  assert (Forall (λ k, 0 ≤ k < total_number_of_chunks (cg_source g)) (cg_loaded g)) as Hvalid.
  { apply Forall_forall. intros k Hk. rewrite Hld, elem_of_seqZ in Hk.
    rewrite Hs, (src_chunks_law _ Hok). unfold n in Hk. lia. }
  assert (match (if bool_decide (cg_loaded g = []) then Ok [] else read_loaded "" g) with
    | Ok bs => Forall2 (λ k b, src_data (cg_source g) !! Z.to_nat k = Some (rows b)) (cg_loaded g) bs
    | Err e => scan_failed e
    | Ub => False end) as Hread.
  { destruct (decide (cg_loaded g = [])) as [Hn|Hn].
    { rewrite bool_decide_true by done. rewrite Hn. constructor. }
    rewrite bool_decide_false by done. unfold read_loaded. simpl.
    assert (Z.of_nat (length (cg_loaded g)) ≤ total_number_of_chunks (cg_source g)) as Hlen.
    { rewrite Hld, length_seqZ, Hs, (src_chunks_law _ Hok). unfold n. lia. }
    pose proof (src_get_chunks_law (cg_source g) (cg_loaded g) ltac:(by rewrite Hs) Hvalid Hlen) as Hlaw.
    destruct (src_get_chunks _ _) as [bs|e|] eqn:E; [done| |done]. right. left. eauto. }
  cbn [execute_io]. destruct (if bool_decide (cg_loaded g = []) then _ else _) as [bs|e|]; [|done..].
  destruct (execute_io EmptyString cgs) as [cgs' [[]|e|]]; [|done..]. constructor; [|done].
  set (D := src_data (cg_source g0)) in *. rewrite Hs in Hread. fold D in Hread. rewrite Hld in Hread.
  pose proof (chunk_rows_of_seq D _ n bs (proj1 Hi) ltac:(unfold n; lia) Hread) as Hbs.
  set (c0 := Z.to_nat (cg_chunk_index g0)) in *.
  assert (take (Z.to_nat (cg_chunk_index g)) D = take c0 D ++ take (Z.to_nat n) (drop c0 D)) as Htake.
  { rewrite take_take_drop. f_equal. unfold n, c0. lia. }
  split_and!; [split; simpl| done |]; rewrite ?Hs, ?Hcc, ?Hrb; fold D; try done.
  - lia.
  - rewrite fmap_app, join_app, Hbs, Hr, Htake, join_app. rewrite drop_app_le by lia. done.
  - rewrite Htake, join_app, length_app. lia.
  - apply Forall_app. split; [done|]. apply Forall_lookup. intros i b Hb.
    destruct (Forall2_lookup_r _ _ _ _ _ Hread Hb) as (k & _ & Hk).
    pose proof (proj1 (Forall_lookup _ _) (src_nonempty _ Hok) _ _ Hk) as Hne. done.
  - unfold cg_ready. simpl. apply andb_false_iff in Hd as [Hd|Hd].
    + left. apply andb_false_iff in Hd as [Hd|Hd]; apply bool_decide_eq_false in Hd.
      * rewrite <- Hrb. by destruct (cg_rbs g).
      * pose proof (Forall2_length _ _ _ Hread) as Hlen. rewrite <- Hld in Hlen.
        destruct (cg_loaded g); [done|]. intros Hnil. apply app_eq_nil in Hnil as [_ ->]. done.
    + right. unfold has_more_chunks in Hd. apply Z.ltb_ge in Hd. lia.
Qed.

(** ** One call *)

(** What a call may change. *)
Record same_scan (s s' : Scan) : Prop := {
  ss_needed : sc_needed_columns s' = sc_needed_columns s;
  ss_map : sc_out_field_map s' = sc_out_field_map s;
  ss_end : sc_end_of_offset s' = sc_end_of_offset s;
  ss_limit : sc_row_limit s' = sc_row_limit s;
  ss_sources : cg_source <$> sc_cgs s' = cg_source <$> sc_cgs s;
}.

#[local] Instance same_scan_preorder : PreOrder same_scan.
Proof.
  split; [by intros s|]. intros s1 s2 s3 [] []. split; congruence.
Qed.

Lemma sources_total (cgs cgs' : list CgState) (P : Source → Prop) :
  cg_source <$> cgs' = cg_source <$> cgs → Forall (λ g, P (cg_source g)) cgs → Forall (λ g, P (cg_source g)) cgs'.
Proof.
  intros Hs HP. apply (Forall_fmap cg_source P) in HP. apply (Forall_fmap cg_source P). by rewrite Hs.
Qed.

Lemma load_internal_spec s :
  scan_inv s →
  match load_internal s with
  | (s', Ok _) => scan_inv s' ∧ same_scan s s' ∧ sc_current_offset s' = sc_current_offset s ∧
      Forall cg_ready (sc_cgs s')
  | (_, Err e) => scan_failed e
  | (_, Ub) => False
  end.
Proof.
  intros Hinv. pose proof Hinv as [Hp Hc Ht Hne Ho Hl]. unfold load_internal.
  destruct (existsb _ (sc_cgs s)) eqn:Hneed; cbn [negb].
  2:{ split_and!; [done|by split|done|]. apply Forall_forall. intros g Hg.
      destruct (bool_decide (cg_rbs g = []) && has_more_chunks g) eqn:Hb.
      - exfalso. apply not_true_iff_false in Hneed. apply Hneed, existsb_exists. exists g.
        split; [by apply list_elem_of_In|done].
      - apply andb_false_iff in Hb as [Hb%bool_decide_eq_false|Hb%Z.ltb_ge]; [by left|right].
        eapply Forall_forall in Hc; [|done]. destruct Hc. lia. }
  assert (match pick_chunks_to_load (S (chunks_left (sc_cgs s))) (sc_memory_limit s) 0 false
      (sorted_offsets (sc_cgs s)) (sc_cgs s) with
    | (_, cgs', Ok _) => Forall2 cg_loading (sc_cgs s) cgs' ∧ all_cgs_have_data cgs' = true
    | (_, _, Err e) => scan_failed e
    | (_, _, Ub) => False
    end) as Hpick.
  { apply pick_loads_spec; [| |apply sorted_offsets_inv|lia].
    - eapply Forall_impl; [exact Hc|]. intros g []. split_and!; [done|done|lia].
    - apply Forall_Forall2_diag. eapply Forall_impl; [exact Hc|]. intros g [].
      split; try done; [lia|]. by rewrite Z.sub_diag. }
  destruct (pick_chunks_to_load _ _ _ _ _ _) as [[mem cgs] [[]|e|]]; [|done..].
  destruct Hpick as [Hload Hall]. rewrite Hp.
  pose proof (execute_io_spec (sc_current_offset s) (sc_cgs s) cgs ltac:(lia) Hc Hload Hall) as Hio.
  simpl. destruct (execute_io "" cgs) as [cgs' [[]|e|]]; [|done..].
  assert (cg_source <$> cgs' = cg_source <$> sc_cgs s) as Hs.
  { clear -Hio. induction Hio as [|g0 g' ? ? (_ & Hs & _) ? IH]; [done|]. rewrite !fmap_cons. congruence. }
  split_and!; [split; simpl; try done|by split|done|].
  - clear -Hio. induction Hio as [|? ? ? ? (? & _) ? ?]; by constructor.
  - by eapply (sources_total _ _ (λ x, src_total_rows x = sc_end_of_offset s)).
  - intros ->. by destruct (sc_cgs s).
  - clear -Hio. induction Hio as [|? ? ? ? (_ & _ & ?) ? ?]; by constructor.
Qed.

(** Before the end, every group has rows to return. *)
Lemma ready_nonempty s :
  scan_inv s → Forall cg_ready (sc_cgs s) → sc_current_offset s < sc_end_of_offset s →
  Forall (λ g, cg_rbs g ≠ []) (sc_cgs s).
Proof.
  intros [Hp Hc Ht Hne Ho Hl] Hr Hlt. apply Forall_lookup. intros i g Hi.
  pose proof (proj1 (Forall_lookup _ _) Hc i g Hi) as [Hok Hcc Hix Hlo Hrows Hoff Hpos].
  pose proof (proj1 (Forall_lookup _ _) Ht i g Hi) as Htot. simpl in Htot.
  pose proof (proj1 (Forall_lookup _ _) Hr i g Hi) as [?|Hend]; [done|]. intros Hnil.
  rewrite Hnil, Hend, Hcc, Nat2Z.id, firstn_all in Hrows. simpl in Hrows.
  rewrite (src_total_law _ Hok) in Htot. apply (f_equal length) in Hrows. rewrite length_drop in Hrows.
  simpl in Hrows. lia.
Qed.

Lemma load_rows_spec fuel s :
  scan_inv s →
  match load_rows (S fuel) s with
  | (s', Ok more) => scan_inv s' ∧ same_scan s s' ∧ sc_current_offset s' = sc_current_offset s ∧
      if more : bool then sc_current_offset s < sc_end_of_offset s ∧ Forall (λ g, cg_rbs g ≠ []) (sc_cgs s')
      else sc_current_offset s = sc_end_of_offset s
  | (_, Err e) => scan_failed e
  | (_, Ub) => False
  end.
Proof.
  intros Hinv. cbn [load_rows]. unfold mbind at 1, M_bind. pose proof (load_internal_spec s Hinv) as Hload.
  destruct (load_internal s) as [s' [[]|e|]]; [|done..]. destruct Hload as (Hinv' & Hsame & Hoff & Hready).
  unfold mbind at 1, M_bind, get_st. rewrite (sv_predicate s' Hinv'). simpl.
  pose proof (sv_offset s' Hinv') as Hb. destruct (Z.eqb_spec (sc_current_offset s') (sc_end_of_offset s')) as [Heq|Hneq].
  - rewrite (ss_end s s' Hsame) in Heq. simpl. split_and!; [done|done|done|congruence].
  - pose proof (ready_nonempty s' Hinv' Hready ltac:(lia)) as Hall.
    assert (existsb (λ g, negb (bool_decide (cg_rbs g = []))) (sc_cgs s') = true) as ->.
    { pose proof (sv_nonempty s' Hinv') as Hne. destruct Hall as [|g cgs Hg Hall]; [done|].
      simpl. by rewrite bool_decide_false. }
    simpl. split_and!; [done|done|done| |done]. rewrite (ss_end s s' Hsame) in Hb, Hneq. lia.
Qed.

Lemma min_front_rows_spec limit cgs :
  0 < limit ≤ INT64_MAX → Forall (λ g, cg_rbs g ≠ [] ∧ Forall (λ b, rows b ≠ []) (cg_rbs g)) cgs →
  ∃ m, min_front_rows limit cgs = Ok m ∧ 0 < m ≤ limit ∧
    Forall (λ g, ∃ b bs, cg_rbs g = b :: bs ∧ m ≤ num_rows b) cgs.
Proof.
  intros [Hl Hmax] Hc. unfold min_front_rows.
  rewrite wrap_u64_small by (unfold INT64_MAX, UINT64_MOD in *; lia). clear Hmax. revert limit Hl.
  induction Hc as [|g cgs [Hne Hb] Hc IH]; intros m Hm.
  - exists m. split_and!; [done|lia|lia|constructor].
  - destruct (cg_rbs g) as [|b bs] eqn:Hg; [done|]. apply Forall_cons in Hb as [Hb _].
    cbn [fold_out]. rewrite Hg. cbn [head deref]. rewrite !bind_Ok.
    assert (0 < num_rows b) as Hpos.
    { rewrite rows_num. destruct (rows b); [done|]. simpl. lia. }
    destruct (IH (Z.min m (num_rows b)) ltac:(lia)) as (m' & Hf & Hm' & Hall).
    exists m'. split_and!; [done|lia|lia|]. constructor; [|done]. exists b, bs. split; [done|lia].
Qed.

(** The cells of one output column of a batch of [m] rows, from row [off] on. *)
Definition expected (sources : list Source) (off m : Z) (e : option (nat * nat)) : list cell :=
  match e with
  | None => replicate (Z.to_nat m) null_cell
  | Some (cg, j) =>
      match sources !! cg with
      | Some src => row_cell j <$> take (Z.to_nat m) (drop (Z.to_nat off) (mjoin (src_data src)))
      | None => []
      end
  end.

(** The output fields refer to columns that the groups have. *)
Definition fields_ok (sources : list Source) (map : list (option (nat * nat))) : Prop :=
  Forall (λ e, match e with
    | None => True
    | Some (cg, j) => ∃ src, sources !! cg = Some src ∧ Forall (λ r, (j < row_width r)%nat) (mjoin (src_data src))
    end) map.

(** The rows in front of a queue are the next rows of the group. *)
Lemma front_rows off g b bs m :
  cg_inv off g → cg_rbs g = b :: bs → 0 ≤ off → 0 ≤ m ≤ num_rows b →
  take (Z.to_nat m) (rows b) = take (Z.to_nat m) (drop (Z.to_nat off) (mjoin (src_data (cg_source g)))).
Proof.
  intros [Hok Hc Hi Hl Hr Ho Hp] Hb Hoff Hm. rewrite Hb, fmap_cons in Hr. simpl in Hr.
  rewrite rows_num in Hm. set (D := src_data (cg_source g)) in *. set (k := Z.to_nat (cg_chunk_index g)) in *.
  rewrite <- (take_drop k D), join_app, drop_app_le by lia. rewrite <- Hr, <- app_assoc.
  by rewrite take_app_le by lia.
Qed.

Lemma out_array_spec s m name e :
  scan_inv s → Forall (λ g, ∃ b bs, cg_rbs g = b :: bs ∧ m ≤ num_rows b) (sc_cgs s) → 0 < m →
  (match e with
    | None => True
    | Some (cg, j) => ∃ src, (cg_source <$> sc_cgs s) !! cg = Some src ∧
        Forall (λ r, (j < row_width r)%nat) (mjoin (src_data src))
    end) →
  match out_array (sc_cgs s) m (name, e) with
  | Ok a => acells a = expected (cg_source <$> sc_cgs s) (sc_current_offset s) m e
  | Err err => scan_failed err
  | Ub => False
  end.
Proof.
  intros Hinv Hfront Hm He. unfold out_array. simpl. destruct e as [[cg j]|].
  - destruct He as (src & Hsrc & Hw). simpl. rewrite Hsrc. rewrite list_lookup_fmap in Hsrc.
    destruct (sc_cgs s !! cg) as [g|] eqn:Hg; simplify_eq/=.
    pose proof (proj1 (Forall_lookup _ _) Hfront cg g Hg) as (b & bs & Hb & Hmb).
    pose proof (proj1 (Forall_lookup _ _) (sv_cgs s Hinv) cg g Hg) as Hgi.
    pose proof (sv_offset s Hinv) as [Ho _].
    pose proof (front_rows _ g b bs m Hgi Hb Ho ltac:(lia)) as Hrows.
    rewrite Hb. cbn [head deref]. rewrite bind_Ok.
    assert (Z.of_nat j < num_columns b) as Hj.
    { destruct (rows b) as [|r rs] eqn:Hr; [rewrite rows_num, Hr in Hmb; simpl in Hmb; lia|].
      rewrite (width_law b r) by (rewrite Hr; left). apply Nat2Z.inj_lt.
      assert (r ∈ mjoin (src_data (cg_source g))) as Hin; [|by eapply Forall_forall in Hw].
      apply (subseteq_drop (Z.to_nat (sc_current_offset s))), (subseteq_take (Z.to_nat m)).
      rewrite <- Hrows. replace (Z.to_nat m) with (S (Z.to_nat (m - 1))) by lia. left. }
    destruct (Z.leb_spec (num_columns b) (Z.of_nat j)); [lia|].
    destruct (Z.eqb_spec (num_rows b) m) as [Heq|Hneq].
    + rewrite column_cells by done. rewrite <- Hrows, take_ge; [done|]. rewrite rows_num in Heq. lia.
    + rewrite slice_cells; [|lia|lia|rewrite acells_length, column_cells, length_fmap, <- rows_num by done; lia].
      rewrite column_cells by done. change (drop (Z.to_nat 0) ?l) with l. by rewrite <- fmap_take, Hrows.
  - destruct (MakeArrayOfNull name m) as [a|err|] eqn:Hn.
    + by apply null_cells in Hn.
    + right. right. eauto.
    + by apply null_defined in Hn.
Qed.

Lemma out_arrays_spec s m :
  scan_inv s → Forall (λ g, ∃ b bs, cg_rbs g = b :: bs ∧ m ≤ num_rows b) (sc_cgs s) → 0 < m →
  length (sc_needed_columns s) = length (sc_out_field_map s) →
  fields_ok (cg_source <$> sc_cgs s) (sc_out_field_map s) →
  match out_arrays s m with
  | Ok l => Forall2 (λ e a, acells a = expected (cg_source <$> sc_cgs s) (sc_current_offset s) m e)
              (sc_out_field_map s) l
  | Err err => scan_failed err
  | Ub => False
  end.
Proof.
  intros Hinv Hfront Hm Hlen Hf. unfold out_arrays.
  assert (∀ map names acc, length names = length map → fields_ok (cg_source <$> sc_cgs s) map →
    match fold_out (λ acc e, a ← out_array (sc_cgs s) m e; Ok (acc ++ [a])) (zip names map) acc with
    | Ok l => ∃ l', l = acc ++ l' ∧
        Forall2 (λ e a, acells a = expected (cg_source <$> sc_cgs s) (sc_current_offset s) m e) map l'
    | Err err => scan_failed err
    | Ub => False
    end) as Hgen.
  { intros map. induction map as [|e map IH]; intros names acc Hl Hok.
    - destruct names; [|done]. exists []. by rewrite app_nil_r.
    - destruct names as [|name names]; [done|]. apply Forall_cons in Hok as [He Hok]. cbn [zip zip_with fold_out].
      pose proof (out_array_spec s m name e Hinv Hfront Hm He) as Ha.
      destruct (out_array (sc_cgs s) m (name, e)) as [a|err|]; [|done..]. rewrite !bind_Ok.
      specialize (IH names (acc ++ [a]) ltac:(by injection Hl) Hok).
      change (zip_with pair names map) with (zip names map).
      destruct (fold_out _ (zip names map) _) as [l|err|]; [|done..].
      destruct IH as (l' & -> & Hl'). exists (a :: l'). split; [by rewrite <- app_assoc|by constructor]. }
  specialize (Hgen (sc_out_field_map s) (sc_needed_columns s) [] Hlen Hf).
  destruct (fold_out _ _ []) as [l|err|]; [|done..]. by destruct Hgen as (l' & -> & Hl').
Qed.

(** The rows left in a queue after [m] were returned. *)
Lemma advance_front_spec off g b bs m :
  cg_inv off g → cg_rbs g = b :: bs → 0 < m ≤ num_rows b → 0 ≤ off →
  ∃ g', advance_front m g = Ok g' ∧ cg_inv (off + m) g' ∧ cg_source g' = cg_source g.
Proof.
  intros [Hok Hc Hi Hl Hr Ho Hp] Hb Hm Hoff. unfold advance_front. rewrite Hb. eexists. split; [done|].
  split; [|done]. rewrite Hb, fmap_cons in Hr. simpl in Hr. rewrite Hb in Hp. apply Forall_cons in Hp as [Hpb Hp].
  pose proof (rows_num b) as Hnum. assert (off + m ≤ Z.of_nat (length (mjoin (take (Z.to_nat (cg_chunk_index g))
    (src_data (cg_source g)))))) as Hle.
  { apply (f_equal length) in Hr. rewrite length_app, length_drop in Hr. lia. }
  split; simpl; try done.
  - replace (Z.to_nat (off + m)) with (Z.to_nat off + Z.to_nat m)%nat by lia.
    rewrite <- drop_drop, <- Hr. destruct (Z.eqb_spec (num_rows b) m) as [Heq|Hneq].
    + replace (Z.to_nat m) with (length (rows b)) by lia. by rewrite drop_app_length.
    + rewrite fmap_cons. simpl. rewrite slice_rows by lia. rewrite drop_app_le by lia.
      rewrite take_ge; [done|]. rewrite length_drop. lia.
  - destruct (Z.eqb_spec (num_rows b) m); [done|]. constructor; [|done]. rewrite slice_rows by lia.
    intros Hnil%(f_equal length). rewrite length_take, length_drop in Hnil. simpl in Hnil. lia.
Qed.

Lemma advance_all_spec off cgs m :
  Forall (cg_inv off) cgs → Forall (λ g, ∃ b bs, cg_rbs g = b :: bs ∧ m ≤ num_rows b) cgs →
  0 < m → 0 ≤ off →
  ∃ cgs', advance_all m cgs = Ok cgs' ∧ Forall (cg_inv (off + m)) cgs' ∧
    cg_source <$> cgs' = cg_source <$> cgs.
Proof.
  intros Hc Hf Hm Hoff. unfold advance_all.
  assert (∀ acc, ∃ cgs', fold_out (λ acc g, g ← advance_front m g; Ok (acc ++ [g])) cgs acc = Ok (acc ++ cgs') ∧
    Forall (cg_inv (off + m)) cgs' ∧ cg_source <$> cgs' = cg_source <$> cgs) as Hgen; [|apply (Hgen [])].
  induction Hc as [|g cgs Hg Hc IH]; intros acc.
  - exists []. rewrite app_nil_r. by split_and!; [|constructor|].
  - apply Forall_cons in Hf as [(b & bs & Hb & Hmb) Hf].
    destruct (advance_front_spec off g b bs m Hg Hb ltac:(lia) Hoff) as (g' & Ha & Hg' & Hs).
    destruct (IH Hf (acc ++ [g'])) as (cgs' & Hfold & Hok & Hsrc). exists (g' :: cgs').
    cbn [fold_out]. rewrite Ha, !bind_Ok, Hfold, <- app_assoc. split_and!; [done|by constructor|].
    rewrite !fmap_cons. congruence.
Qed.

(** One call returns the next rows of every column, or the end. *)
Lemma ReadNext_spec s :
  scan_inv s → length (sc_needed_columns s) = length (sc_out_field_map s) →
  fields_ok (cg_source <$> sc_cgs s) (sc_out_field_map s) →
  match ReadNext s with
  | (s', Ok None) => sc_current_offset s = sc_end_of_offset s
  | (s', Ok (Some b)) => scan_inv s' ∧ same_scan s s' ∧
      sc_current_offset s' = sc_current_offset s + ob_rows b ∧ 0 < ob_rows b ≤ sc_row_limit s ∧
      Forall2 (λ e a, acells a = expected (cg_source <$> sc_cgs s) (sc_current_offset s) (ob_rows b) e)
        (sc_out_field_map s) (ob_columns b)
  | (_, Err e) => scan_failed e
  | (_, Ub) => False
  end.
Proof.
  intros Hinv Hlen Hf. unfold ReadNext. unfold mbind at 1, M_bind, get_st.
  pose proof (load_rows_spec (chunks_left (sc_cgs s)) s Hinv) as Hload. unfold mbind at 1, M_bind.
  destruct (load_rows _ s) as [s1 [more|e|]]; [|done..]. destruct Hload as (Hinv1 & Hsame & Hoff & Hmore).
  destruct more; cbn [negb]; [|done]. destruct Hmore as [Hlt Hne].
  pose proof (sv_cgs s1 Hinv1) as Hcgs. destruct Hsame as [Hn Hmap Hend Hlim Hsrc].
  destruct (min_front_rows_spec (sc_row_limit s1) (sc_cgs s1) (sv_limit s1 Hinv1)) as (m & Hm & Hmr & Hfront).
  { apply Forall_lookup. intros i g Hi. split; [by eapply Forall_lookup in Hne|].
    eapply Forall_lookup in Hcgs; [|done]. apply Hcgs. }
  pose proof (out_arrays_spec s1 m Hinv1 Hfront (proj1 Hmr) ltac:(congruence) ltac:(by rewrite Hsrc, Hmap)) as Hout.
  destruct (advance_all_spec _ (sc_cgs s1) m Hcgs Hfront (proj1 Hmr) (proj1 (sv_offset s1 Hinv1)))
    as (cgs' & Hadv & Hcgs' & Hsrc').
  unfold mbind at 1, M_bind, get_st. unfold mbind at 1, M_bind, lift. rewrite Hm.
  unfold mbind at 1, M_bind. destruct (out_arrays s1 m) as [l|e|]; [|done..].
  unfold mbind at 1, M_bind. rewrite Hadv. unfold mbind at 1, M_bind, modify. simpl.
  assert (sc_current_offset s1 + m ≤ sc_end_of_offset s1) as Hle.
  { pose proof (sv_nonempty s1 Hinv1). destruct cgs' as [|g' cgs']; [by destruct (sc_cgs s1)|].
    apply Forall_cons in Hcgs' as [[Hok _ _ _ _ Ho _] _]. destruct (sc_cgs s1) as [|g cgs] eqn:Hg; [done|].
    rewrite !fmap_cons in Hsrc'. injection Hsrc' as Hs _.
    pose proof (sv_total s1 Hinv1) as Ht. rewrite Hg in Ht. apply Forall_cons in Ht as [Ht _].
    rewrite <- Ht, <- Hs, (src_total_law _ Hok). etrans; [exact Ho|]. apply Nat2Z.inj_le.
    rewrite <- (take_drop (Z.to_nat (cg_chunk_index g')) (src_data (cg_source g'))) at 2.
    rewrite join_app, length_app. lia. }
  assert (sc_end_of_offset s1 ≤ INT64_MAX) as Hbnd.
  { pose proof (sv_nonempty s1 Hinv1). destruct (sc_cgs s1) as [|g cgs] eqn:Hg; [done|].
    pose proof (sv_total s1 Hinv1) as Ht. rewrite Hg in Ht. apply Forall_cons in Ht as [Ht _]. rewrite <- Ht.
    apply Forall_cons in Hcgs as [[Hok _ _ _ _ _ _] _]. rewrite (src_total_law _ Hok). by apply src_bound. }
  pose proof (sv_offset s1 Hinv1). rewrite wrap_i64_small by (unfold INT64_MIN, INT64_MAX in *; lia).
  split_and!; simpl; try done.
  - split; simpl; try apply Hinv1; [done| | |lia].
    + eapply (sources_total _ _ (λ x, src_total_rows x = sc_end_of_offset s1)); [done|apply Hinv1].
    + intros ->. pose proof (sv_nonempty s1 Hinv1). by destruct (sc_cgs s1).
  - split; simpl; congruence.
  - lia.
  - lia.
  - lia.
  - by rewrite <- Hsrc, <- Hmap, <- Hoff.
Qed.

(** ** The whole stream *)

(** The cells of output column [p], over all batches. *)
Definition stream_column (p : nat) (bs : list OutBatch) : list cell :=
  mjoin ((λ b, from_option acells [] (ob_columns b !! p)) <$> bs).

Lemma expected_app sources off m1 m2 e :
  0 ≤ off → 0 ≤ m1 → 0 ≤ m2 →
  expected sources off (m1 + m2) e = expected sources off m1 e ++ expected sources (off + m1) m2 e.
Proof.
  intros Ho H1' H2'. destruct e as [[cg j]|]; simpl.
  - destruct (sources !! cg) as [src|]; [|done]. rewrite <- fmap_app. f_equal.
    replace (Z.to_nat (off + m1)) with (Z.to_nat off + Z.to_nat m1)%nat by lia.
    rewrite <- drop_drop, take_take_drop. f_equal. lia.
  - rewrite <- replicate_add. f_equal. lia.
Qed.

Lemma scan_all_spec fuel s :
  scan_inv s → length (sc_needed_columns s) = length (sc_out_field_map s) →
  fields_ok (cg_source <$> sc_cgs s) (sc_out_field_map s) →
  sc_end_of_offset s - sc_current_offset s < Z.of_nat fuel →
  match read_all fuel s with
  | (_, Ok bs) => Forall (λ b, 0 < ob_rows b ≤ sc_row_limit s) bs ∧
      ∀ p e, sc_out_field_map s !! p = Some e →
        stream_column p bs = expected (cg_source <$> sc_cgs s) (sc_current_offset s)
                               (sc_end_of_offset s - sc_current_offset s) e
  | (_, Err e) => scan_failed e
  | (_, Ub) => False
  end.
Proof.
  revert s. induction fuel as [|fuel IH]; intros s Hinv Hlen Hf Hfuel.
  { pose proof (sv_offset s Hinv). lia. }
  cbn [read_all]. unfold mbind at 1, M_bind. pose proof (ReadNext_spec s Hinv Hlen Hf) as Hnext.
  destruct (ReadNext s) as [s1 [[b|]|e|]]; [| |done..].
  - destruct Hnext as (Hinv1 & [Hn Hmap Hend Hlim Hsrc] & Hoff & Hb & Hcols).
    unfold mbind at 1, M_bind. pose proof (IH s1 Hinv1 ltac:(congruence) ltac:(by rewrite Hsrc, Hmap) ltac:(lia)) as Hrest.
    destruct (read_all fuel s1) as [s2 [bs|e|]]; [|done..]. simpl. destruct Hrest as [Hbs Hall]. split.
    + constructor; [done|]. by rewrite Hlim in Hbs.
    + intros p e He. unfold stream_column. rewrite fmap_cons. simpl.
      destruct (Forall2_lookup_l _ _ _ _ _ Hcols He) as (a & Ha & Hcells). rewrite Ha. simpl. rewrite Hcells.
      fold (stream_column p bs). rewrite (Hall p e) by congruence. rewrite Hsrc, Hoff, Hend.
      pose proof (sv_offset s Hinv). pose proof (sv_offset s1 Hinv1). rewrite Hoff, Hend in *.
      rewrite <- expected_app by lia. f_equal. lia.
  - simpl. split; [constructor|]. intros p e He. rewrite Hnext, Z.sub_diag. unfold stream_column. simpl.
    destruct e as [[cg j]|]; simpl; [|done]. by destruct (_ !! cg).
Qed.

(** *** The columns of the groups *)

(** The columns with their positions. *)
Definition column_entries (projected : list (list string)) : list (string * (nat * nat)) :=
  mjoin (imap (λ i l, imap (λ j c, (c, (i, j))) l) projected).

Lemma foldl_insert_spec (l : list (string * (nat * nat))) (m : gmap string (nat * nat)) c :
  match foldl (λ m e, <[e.1 := e.2]> m) m l !! c with
  | Some v => (c, v) ∈ l ∨ m !! c = Some v
  | None => c ∉ l.*1 ∧ m !! c = None
  end.
Proof.
  revert m. induction l as [|[x w] l IH]; intros m; simpl.
  - destruct (m !! c); [by right|]. by split; [apply not_elem_of_nil|].
  - specialize (IH (<[x := w]> m)). destruct (foldl _ _ l !! c) as [v|].
    + destruct IH as [?|Hv]; [left; by right|]. destruct (decide (c = x)) as [->|].
      * rewrite lookup_insert_eq in Hv. simplify_eq. left. by left.
      * rewrite lookup_insert_ne in Hv by done. by right.
    + destruct IH as [Hn Hv]. destruct (decide (c = x)) as [->|]; [by rewrite lookup_insert_eq in Hv|].
      rewrite lookup_insert_ne in Hv by done. set_solver.
Qed.

Lemma column_map_entries projected :
  column_map projected = foldl (λ m e, <[e.1 := e.2]> m) ∅ (column_entries projected).
Proof.
  unfold column_map, column_entries. generalize (∅ : gmap string (nat * nat)).
  assert (∀ i (l : list string) j (m : gmap string (nat * nat)),
    foldl (λ m f, <[f.2 := (i, f.1)]> m) m (imap (λ k, pair (j + k)%nat) l)
    = foldl (λ m e, <[e.1 := e.2]> m) m (imap (λ k c, (c, (i, (j + k)%nat))) l)) as Hin.
  { intros i l. induction l as [|x l IH]; intros j m; [done|]. rewrite !imap_cons. simpl.
    rewrite (imap_ext _ (λ k, pair (S j + k)%nat)) by (intros; simpl; f_equal; lia). rewrite IH. f_equal.
    apply imap_ext. intros. simpl. do 2 f_equal. lia. }
  assert (∀ i (m : gmap string (nat * nat)), foldl (λ m e, foldl (λ m f, <[f.2 := (e.1, f.1)]> m) m (imap pair e.2)) m
      (imap (λ k, pair (i + k)%nat) projected)
    = foldl (λ m e, <[e.1 := e.2]> m) m (mjoin (imap (λ k l, imap (λ j c, (c, ((i + k)%nat, j))) l) projected)))
    as Hout; [|apply (Hout 0%nat)].
  induction projected as [|l projected IH]; intros i m; [done|]. rewrite !imap_cons. simpl.
  rewrite foldl_app, Nat.add_0_r. replace (foldl _ m (imap pair l))
    with (foldl (λ m e, <[e.1 := e.2]> m) m (imap (λ k c, (c, (i, k))) l)) by (symmetry; exact (Hin i l 0%nat m)).
  rewrite (imap_ext _ (λ k, pair (S i + k)%nat)) by (intros; simpl; f_equal; lia). rewrite IH. do 2 f_equal.
  apply imap_ext. intros k x _. simpl. apply imap_ext. intros. do 2 f_equal. lia.
Qed.

Lemma elem_of_column_entries projected c i j :
  (c, (i, j)) ∈ column_entries projected ↔ ∃ l, projected !! i = Some l ∧ l !! j = Some c.
Proof.
  unfold column_entries. rewrite list_elem_of_join. split.
  - intros (x & Hc & [i' Hi]%list_elem_of_lookup). rewrite list_lookup_imap in Hi.
    destruct (projected !! i') as [l|] eqn:Hl; simplify_eq/=.
    apply list_elem_of_lookup in Hc as [j' Hj]. rewrite list_lookup_imap in Hj.
    destruct (l !! j') eqn:Hx; simplify_eq/=. eauto.
  - intros (l & Hl & Hc). exists (imap (λ j c, (c, (i, j))) l). split.
    + apply list_elem_of_lookup. exists j. by rewrite list_lookup_imap, Hc.
    + apply list_elem_of_lookup. exists i. by rewrite list_lookup_imap, Hl.
Qed.

Lemma column_map_spec projected c :
  match column_map projected !! c with
  | Some (i, j) => ∃ l, projected !! i = Some l ∧ l !! j = Some c
  | None => ∀ l, l ∈ projected → c ∉ l
  end.
Proof.
  rewrite column_map_entries. pose proof (foldl_insert_spec (column_entries projected) ∅ c) as Hs.
  destruct (foldl _ _ _ !! c) as [[i j]|].
  - destruct Hs as [Hs|Hs]; [by apply elem_of_column_entries|by rewrite lookup_empty in Hs].
  - intros l [i Hi]%list_elem_of_lookup [j Hj]%list_elem_of_lookup. destruct Hs as [Hs _]. apply Hs.
    apply list_elem_of_fmap. exists (c, (i, j)). split; [done|]. apply elem_of_column_entries. eauto.
Qed.

(** *** From opening to the end *)

(** What the readers of the groups promise for these columns. *)
Definition sources_promised (schema : option (list string)) (needed : list string) (gs : list ColumnGroup) :
    Prop :=
  ∀ g src, g ∈ gs → src_create schema g needed EmptyString = Ok src →
    src_ok src ∧ Forall (λ r, row_width r = length (columns_after_projection needed g)) (mjoin (src_data src)).

Lemma open_sources_spec schema needed gs acc res :
  fold_out (open_source schema needed EmptyString) gs acc = Ok res →
  ∃ srcs, res.2 = acc.2 ++ ((λ src, mkCg src (total_number_of_chunks src) [] 0 0 []) <$> srcs) ∧
    Forall2 (λ g src, src_create schema g needed EmptyString = Ok src) gs srcs ∧
    (match acc.1 with Some n => res.1 = Some n | None => True end) ∧
    (gs ≠ [] → ∃ n, res.1 = Some n) ∧
    ∀ n, res.1 = Some n → Forall (λ src, src_total_rows src = n) srcs.
Proof.
  revert acc. induction gs as [|g gs IH]; intros acc Hf; simpl in Hf.
  - simplify_eq. exists []. rewrite app_nil_r. split_and!; try done; by destruct res.1.
  - apply bind_Ok_inv in Hf as (acc1 & Ho & Hf). unfold open_source in Ho.
    apply bind_Ok_inv in Ho as (src & Hsrc & Ho). destruct (total_number_of_chunks src =? 0); [done|].
    destruct (IH acc1 Hf) as (srcs & Hres & Hall & Hkeep & _ & Htot).
    exists (src :: srcs). destruct acc as [[n|] l]; simpl in Ho.
    + destruct (Z.eqb_spec (src_total_rows src) n) as [Heq|]; simpl in Ho; [|done]. simplify_eq/=.
      rewrite Hres, <- app_assoc. split_and!; try done; [by constructor|by eauto|].
      intros n' Hn'. constructor; [congruence|by apply Htot].
    + simplify_eq/=. rewrite Hres, <- app_assoc. split_and!; try done; [by constructor|by eauto|].
      intros n' Hn'. constructor; [congruence|by apply Htot].
Qed.

Lemma scan_open_inv schema gs needed row_limit memory_limit s :
  sources_promised schema needed gs → gs ≠ [] → 0 < row_limit ≤ INT64_MAX →
  scan_open schema gs needed EmptyString row_limit memory_limit = Ok s →
  scan_inv s ∧ sc_current_offset s = 0 ∧ sc_row_limit s = row_limit ∧ sc_needed_columns s = needed ∧
  sc_out_field_map s = (λ c, column_map (columns_after_projection needed <$> gs) !! c) <$> needed ∧
  Forall2 (λ g src, src_create schema g needed EmptyString = Ok src) gs (cg_source <$> sc_cgs s).
Proof.
  intros Hp Hne Hl. unfold scan_open. simpl. intros Ho.
  apply bind_Ok_inv in Ho as (res & Hf & Ho).
  destruct (open_sources_spec schema needed gs (None, []) res Hf) as (srcs & Hres & Hall & _ & Hsome & Htot).
  destruct (Hsome Hne) as [n Hn]. rewrite Hn in Ho. apply bind_Ok_inv in Ho as ([] & _ & Ho). simplify_eq/=.
  rewrite Hres. simpl.
  assert (cg_source <$> ((λ src, mkCg src (total_number_of_chunks src) [] 0 0 []) <$> srcs) = srcs) as Hsrc.
  { clear. induction srcs as [|x srcs IH]; [done|]. rewrite !fmap_cons. simpl. by rewrite IH. }
  assert (Forall src_ok srcs) as Hok.
  { apply Forall_lookup. intros i src Hi. destruct (Forall2_lookup_r _ _ _ _ _ Hall Hi) as (g & Hg & Hc).
    apply (Hp g); [by eapply list_elem_of_lookup_2|done]. }
  split_and!; try done; [|by rewrite Hsrc]. specialize (Htot n Hn). split; simpl; try done.
  - rewrite Forall_fmap. eapply Forall_impl; [exact Hok|]. intros src Hs. split; simpl; try done.
    + by apply src_chunks_law.
    + rewrite (src_chunks_law _ Hs). lia.
  - by rewrite Forall_fmap.
  - destruct Hall; [done|]. by rewrite fmap_cons.
  - destruct Hall as [|g src gs srcs]; [done|]. apply Forall_cons in Htot as [<- _].
    apply Forall_cons in Hok as [Hs _]. rewrite (src_total_law _ Hs). lia.
Qed.

Lemma opened_fields_ok schema gs needed srcs :
  sources_promised schema needed gs →
  Forall2 (λ g src, src_create schema g needed EmptyString = Ok src) gs srcs →
  fields_ok srcs ((λ c, column_map (columns_after_projection needed <$> gs) !! c) <$> needed).
Proof.
  intros Hp Hall. unfold fields_ok. rewrite Forall_fmap. apply Forall_forall. intros c _. simpl.
  pose proof (column_map_spec (columns_after_projection needed <$> gs) c) as Hc.
  destruct (column_map _ !! c) as [[i j]|]; [|done]. destruct Hc as (l & Hl & Hj).
  rewrite list_lookup_fmap in Hl. destruct (gs !! i) as [g|] eqn:Hg; simplify_eq/=.
  destruct (Forall2_lookup_l _ _ _ _ _ Hall Hg) as (src & Hsrc & Hcreate). exists src. split; [done|].
  destruct (Hp g src (list_elem_of_lookup_2 _ _ _ Hg) Hcreate) as [_ Hw]. eapply Forall_impl; [exact Hw|]. intros r Hr. simpl in Hr. rewrite Hr.
  by apply lookup_lt_Some in Hj.
Qed.

(** C13: A scan returns everything, aligned, and ends.  When opening the groups
    succeeds, reading until the stream ends takes at most one call more than
    there are rows and never leaves the buffers' bounds, whatever the memory
    limit; every batch is non-empty and within the row limit; and each needed
    column is, over all batches, that column of a group that has it, with all its
    rows in order, or null for every row when no group has it.  An error comes
    from a column group reader or from arrow. *)
Theorem scan_returns_everything schema gs needed row_limit memory_limit s fuel :
  sources_promised schema needed gs → gs ≠ [] → 0 < row_limit ≤ INT64_MAX →
  scan_open schema gs needed EmptyString row_limit memory_limit = Ok s →
  sc_end_of_offset s < Z.of_nat fuel →
  match read_all fuel s with
  | (_, Ok bs) => Forall (λ b, 0 < ob_rows b ≤ row_limit) bs ∧
      ∀ p c, needed !! p = Some c →
        (∃ i g src j, gs !! i = Some g ∧ src_create schema g needed EmptyString = Ok src ∧
           columns_after_projection needed g !! j = Some c ∧
           stream_column p bs = row_cell j <$> mjoin (src_data src)) ∨
        ((∀ g, g ∈ gs → c ∉ columns g) ∧
         stream_column p bs = replicate (Z.to_nat (sc_end_of_offset s)) null_cell)
  | (_, Err e) => scan_failed e
  | (_, Ub) => False
  end.
Proof.
  intros Hp Hne Hl Hopen Hfuel.
  destruct (scan_open_inv _ _ _ _ _ _ Hp Hne Hl Hopen) as (Hinv & Ho & Hlim & Hn & Hmap & Hsrc).
  pose proof (opened_fields_ok _ _ _ _ Hp Hsrc) as Hf. rewrite <- Hmap in Hf.
  pose proof (scan_all_spec fuel s Hinv ltac:(by rewrite Hn, Hmap, length_fmap) Hf ltac:(lia)) as Hall.
  destruct (read_all fuel s) as [s' [bs|e|]]; [|done..]. destruct Hall as [Hb Hcols]. rewrite Hlim in Hb.
  split; [done|]. intros p c Hpc. rewrite Ho, Z.sub_0_r in Hcols.
  specialize (Hcols p (column_map (columns_after_projection needed <$> gs) !! c)).
  rewrite Hmap, list_lookup_fmap, Hpc in Hcols. specialize (Hcols eq_refl). rewrite Hcols.
  pose proof (column_map_spec (columns_after_projection needed <$> gs) c) as Hc.
  destruct (column_map _ !! c) as [[i j]|].
  - left. destruct Hc as (l & Hl' & Hj). rewrite list_lookup_fmap in Hl'.
    destruct (gs !! i) as [g|] eqn:Hg; simplify_eq/=.
    destruct (Forall2_lookup_l _ _ _ _ _ Hsrc Hg) as (src & Hs & Hcreate). exists i, g, src, j.
    split_and!; try done. rewrite Hs. f_equal. change (drop (Z.to_nat 0) ?x) with x. rewrite take_ge; [done|].
    destruct (Hp g src (list_elem_of_lookup_2 _ _ _ Hg) Hcreate) as [Hok _].
    rewrite list_lookup_fmap in Hs. destruct (sc_cgs s !! i) as [cg|] eqn:Hcg; simplify_eq/=.
    pose proof (proj1 (Forall_lookup _ _) (sv_total s Hinv) i cg Hcg) as Ht. simpl in Ht.
    rewrite (src_total_law _ Hok) in Ht. lia.
  - right. split; [|done]. intros g Hg Hin. apply (Hc (columns_after_projection needed g)).
    + by apply list_elem_of_fmap_2.
    + apply list_elem_of_filter. split; [done|]. by eapply list_elem_of_lookup_2.
Qed.
End correct.
