(* ===== verification/ScanSource.v ===== *)
(** * Column group readers as sources of a scan

    The reader of [ColumnGroupReader.v] implements the interface that the scan
    of [ScanReader.v] is proved against, so that what the scan returns is, in
    the end, the visible rows of the files.  An example runs both together. *)

From S2P Require Import Prelude CppString Status ColumnGroups ArrowData ChunkManager ColumnGroupReader ColumnGroupReaderCorrect ColumnGroupChunks AsyncTasks ChunkReader ScanReader ScanReaderCorrect.

Section source.
Context `{FRL : FormatReaderLaws} (parallelism num_threads : Z) (Hthreads : 0 ≤ num_threads).

(** A scan reads with the parallelism of the thread pool. *)
Definition cgr_source : ChunkSource := {|
  Source := ColumnGroupReader;
  src_create schema group needed predicate := cgr_create schema (Some group) needed predicate;
  total_number_of_chunks s := Z.of_nat (length (cgr_chunk_infos s));
  src_total_rows := cgr_total_rows;
  src_schema := cgr_file_schema;
  src_estimated_size := get_chunk_estimated_size;
  src_chunk_rows := get_chunk_rows;
  src_get_chunk s k := (get_chunk k s).2;
  src_get_chunks s ks := get_chunks s ks parallelism num_threads;
|}.

(** The rows of a chunk. *)
Definition chunk_data (s : ColumnGroupReader) (c : ChunkInfo) : list row :=
  match open_reader_for_file (cgr_group s) (file_index c) with
  | Ok r => slice_of (row_offset_in_file c) (row_offset_in_file c + number_of_rows c) (file_data r)
  | _ => []
  end.

Definition source_ok (s : ColumnGroupReader) : Prop :=
  opened_reader s ∧ cgr_total_rows s ≤ INT64_MAX ∧ Z.of_nat (length (cgr_chunk_infos s)) < UINT64_MOD.

Lemma chunk_data_length s c :
  opened_reader s → c ∈ cgr_chunk_infos s →
  0 < number_of_rows c ∧ Z.of_nat (length (chunk_data s c)) = number_of_rows c.
Proof.
  intros Ho [i Hi]%list_elem_of_lookup. assert (chunk_at s (Z.of_nat i) = Ok c) as Hk.
  { pose proof (chunk_at_spec s (Z.of_nat i)) as Hs. apply lookup_lt_Some in Hi as Hlt. rewrite Nat2Z.id in Hs.
    destruct (chunk_at s (Z.of_nat i)) as [c'| |]; [|lia|done]. destruct Hs. congruence. }
  destruct (chunk_file s Ho _ c Hk) as (f & r & rgs & _ & Hr & Hg & Hin & H0 & Hend).
  apply chunk_in_pos in Hin. split; [done|]. unfold chunk_data. rewrite Hr.
  destruct (row_groups_tile r rgs Hg) as [_ Hte]. rewrite length_slice_of by lia. lia.
Qed.

Lemma source_total s : opened_reader s →
  cgr_total_rows s = Z.of_nat (length (mjoin (chunk_data s <$> cgr_chunk_infos s))).
Proof.
  intros Ho. rewrite (or_total s Ho). f_equal. unfold rows_of.
  assert (∀ cs, cs ⊆ cgr_chunk_infos s →
    length (mjoin (chunk_rows <$> cs)) = length (mjoin (chunk_data s <$> cs))) as Hgen; [|by apply Hgen].
  intros cs. induction cs as [|c cs IH]; intros Hsub; [done|]. rewrite !fmap_cons. simpl.
  rewrite !length_app, IH by set_solver. f_equal.
  destruct (chunk_data_length s c Ho ltac:(set_solver)). pose proof (length_chunk_rows c). lia.
Qed.

Lemma cgr_source_laws : ChunkSourceLaws (CS := cgr_source).
Proof.
  refine {| src_ok := (source_ok : @Source _ cgr_source → Prop);
            src_data := ((λ s, chunk_data s <$> cgr_chunk_infos s) : @Source _ cgr_source → list (list row)) |}.
  - intros s _. simpl. by rewrite length_fmap.
  - intros s [Ho _]. rewrite Forall_fmap. apply Forall_forall. intros c Hc. simpl.
    destruct (chunk_data_length s c Ho Hc) as [Hpos Hlen]. intros Hn. rewrite Hn in Hlen. simpl in Hlen. lia.
  - intros s [Ho _]. by apply source_total.
  - intros s (Ho & Hmax & _). by rewrite <- source_total.
  - intros s k _ Hk. simpl in *. unfold get_chunk_estimated_size. pose proof (chunk_at_spec s k) as Hs.
    destruct (chunk_at s k) as [c| |]; [|done..]. rewrite bind_Ok. by destruct (memory_size_available c).
  - intros s k l [Ho _] Hl. simpl in *. rewrite list_lookup_fmap in Hl.
    destruct (cgr_chunk_infos s !! k) as [c|] eqn:Hc; simplify_eq/=. unfold get_chunk_rows.
    pose proof (chunk_at_spec s (Z.of_nat k)) as Hs. apply lookup_lt_Some in Hc as Hlt. rewrite Nat2Z.id in Hs.
    destruct (chunk_at s (Z.of_nat k)) as [c'| |]; [|lia|done]. destruct Hs as [_ Hc']. rewrite bind_Ok.
    assert (c' = c) as -> by congruence.
    destruct (chunk_data_length s c Ho) as [_ <-]; [by eapply list_elem_of_lookup_2|done].
  - intros s ks (Ho & Hmax & Hn) Hks Hlen. simpl in *.
    pose proof (get_chunks_spec s Ho ks parallelism num_threads Hthreads ltac:(lia)) as Hs.
    destruct (get_chunks s ks parallelism num_threads) as [bs| |]; [|done..].
    eapply Forall2_impl; [exact Hs|]. intros k b (c & r & Hk & Hr & Hrows).
    pose proof (chunk_at_spec s k) as Hc. rewrite Hk in Hc. destruct Hc as [_ Hc].
    rewrite list_lookup_fmap, Hc. simpl. unfold chunk_data. by rewrite Hr, Hrows.
Defined.
End source.

(** ** An example: two column groups in two files each *)

Module SampleScan.

(** Batches of one column. *)
#[export] Instance one_column : RecordBatches := {
  RecordBatch := list Z;
  num_rows b := Z.of_nat (length b);
  batch_columns b := [None];
  batch_Slice b o l := take (Z.to_nat l) (drop (Z.to_nat o) b);
  SelectColumns b idx := if forallb (λ i, (0 <=? i) && (i <? 1)) idx then Ok b else Err status_Invalid;
}.

#[export] Instance one_column_laws : BatchLaws.
Proof.
  refine {| row := Z; project _ r := r; rows := ((λ b, b) : RecordBatch → list Z) |}.
  - done.
  - done.
  - intros b idx Hidx. simpl. assert (forallb (λ i, (0 <=? i) && (i <? 1)) idx = true) as ->; [|by eauto].
    apply forallb_forall. intros i Hi%list_elem_of_In. eapply Forall_forall in Hidx; [|done].
    unfold num_columns in Hidx. simpl in Hidx. lia.
  - intros b idx b'. simpl. destruct (forallb _ _); intros; simplify_eq. by rewrite list_fmap_id.
Defined.

#[export] Instance list_arrays : Arrays := {
  Array := list Z;
  array_length a := Z.of_nat (length a);
  array_Slice a o l := take (Z.to_nat l) (drop (Z.to_nat o) a);
}.
#[export] Instance list_array_laws : ArrayLaws.
Proof. by refine {| cell := Z; acells := ((λ a, a) : Array → list Z) |}. Defined.

#[export] Instance one_batch_arrays : BatchArrays := {
  batch_column b j := b;
  MakeArrayOfNull name n := Ok (replicate (Z.to_nat n) (-1));
}.
#[export] Instance one_batch_array_laws : BatchArrayLaws.
Proof.
  refine {| row_cell (_ : nat) (r : @row _ one_column_laws) := (r : @cell _ list_array_laws);
            row_width _ := 1%nat; null_cell := (-1 : @cell _ list_array_laws) |}.
  - done.
  - intros b j _. simpl. by rewrite list_fmap_id.
  - done.
  - intros name n a. simpl. by intros [= <-].
Defined.

#[export] Instance sample_scan_queue : PriorityQueue scan_key := first_greatest scan_key.

Inductive file_id := file_a | file_b.

Definition data_of (f : file_id) : list Z :=
  match f with file_a => [10; 11; 12; 13; 14; 15; 16; 17] | file_b => [20; 21; 22; 23; 24] end.

Definition groups_of (f : file_id) : list RowGroupInfo :=
  match f with
  | file_a => [mkRowGroupInfo 0 3 24 true; mkRowGroupInfo 3 6 24 true; mkRowGroupInfo 6 8 16 true]
  | file_b => [mkRowGroupInfo 0 2 16 true; mkRowGroupInfo 2 5 24 false]
  end.

#[export] Instance scan_readers : FormatReaders := {
  FormatReader := file_id;
  create_reader _ f := if bool_decide (cgf_path f = "a") then Ok file_a else
                       if bool_decide (cgf_path f = "b") then Ok file_b else Err status_IOError;
  get_row_group_infos f := Ok (groups_of f);
  fr_get_chunk f i :=
    match groups_of f !! i with
    | Some rg => Ok (slice_of (start_offset rg) (end_offset rg) (data_of f))
    | None => Err status_Invalid
    end;
  read_with_range f a b :=
    if (0 <=? a) && (a <? b) && (b <=? Z.of_nat (length (data_of f))) then Ok [slice_of a b (data_of f)]
    else Err status_Invalid;
  fr_schema _ := ["v"];
  get_rg_column_memsz _ _ := Ok [8];
}.

#[export] Instance scan_reader_laws : FormatReaderLaws.
Proof.
  refine {| file_data := (data_of : FormatReader → list row) |}.
  - by intros [].
  - intros g f. simpl. by repeat case_bool_decide.
  - intros f rgs [= <-]. by destruct f.
  - intros f rgs i rg b [= <-] Hi. simpl. rewrite Hi. by intros [= <-].
  - intros f i. simpl. by destruct (groups_of f !! i).
  - intros f a b Hab. simpl. by case_match.
  - intros f rgs a b bs [= <-] Hab Hb. simpl. case_match eqn:Hc; [|done]. intros [= <-].
    apply andb_true_iff in Hc as [Hc Hlen]. apply Z.leb_le in Hlen. split_and!.
    + simpl. by rewrite app_nil_r.
    + repeat constructor. simpl. rewrite length_slice_of by lia. lia.
    + simpl. lia.
Defined.

#[export] Instance scan_source : ChunkSource := cgr_source 4 2.
#[export] Instance scan_source_laws : ChunkSourceLaws := cgr_source_laws 4 2 ltac:(done).

Definition group_v : ColumnGroup := mkGroup ["v"] "parquet" [mkFile "a" 1 7 ∅; mkFile "b" 0 5 ∅].
Definition group_w : ColumnGroup := mkGroup ["w"] "parquet" [mkFile "b" 0 5 ∅; mkFile "a" 2 8 ∅].

Definition schema : option (list string) := Some ["v"; "w"; "x"].
Definition needed : list string := ["w"; "x"; "v"].

Lemma scan_files_tiled : tiled_readers.
Proof. intros g f r rgs _ [= <-]. by destruct r. Qed.

Lemma group_opened g s :
  g ∈ [group_v; group_w] → cgr_open (cgr_new g EmptyString) = (s, Ok tt) → source_ok s.
Proof.
  intros Hg Hs. destruct (open_establishes_spec (cgr_new g EmptyString) s) as [_ Ho].
  - apply scan_files_tiled.
  - repeat (apply elem_of_cons in Hg as [->|Hg]; [repeat constructor|]). by apply not_elem_of_nil in Hg.
  - done.
  - repeat (apply elem_of_cons in Hg as [->|Hg]; [vm_compute in Hs; by injection Hs as <-|]).
    by apply not_elem_of_nil in Hg.
  - split; [done|]. repeat (apply elem_of_cons in Hg as [->|Hg]; [vm_compute in Hs; by injection Hs as <-|]).
    by apply not_elem_of_nil in Hg.
Qed.

Lemma sample_promised : sources_promised schema needed [group_v; group_w].
Proof.
  intros g src Hg Hc. assert (cgr_open (cgr_new g EmptyString) = (src, Ok tt)) as Ho.
  { simpl in Hc. apply bind_Ok_inv in Hc as ([] & _ & Hc). destruct (cgr_open _) as [s [[]| |]]; by simplify_eq. }
  split; [by eapply group_opened|]. apply Forall_forall. intros r _.
  repeat (apply elem_of_cons in Hg as [->|Hg]; [done|]). by apply not_elem_of_nil in Hg.
Qed.

Lemma scan_runs :
  (s ← scan_open schema [group_v; group_w] needed EmptyString 4 16;
   bs ← (read_all 12 s).2;
   Ok (sc_end_of_offset s, ob_rows <$> (bs : list _), stream_column 0 bs, stream_column 1 bs, stream_column 2 bs))
  = Ok (11, [2; 3; 1; 2; 1; 2], [20; 21; 22; 23; 24; 12; 13; 14; 15; 16; 17], replicate 11 (-1),
        [11; 12; 13; 14; 15; 16; 20; 21; 22; 23; 24]).
Proof. vm_compute. reflexivity. Qed.

Lemma scan_returns_everything_witness :
  ∃ s bs, scan_open schema [group_v; group_w] needed EmptyString 4 16 = Ok s ∧
    (read_all 12 s).2 = Ok bs ∧ Forall (λ b, 0 < ob_rows b ≤ 4) bs ∧ ob_rows <$> bs = [2; 3; 1; 2; 1; 2] ∧
    stream_column 0 bs = [20; 21; 22; 23; 24; 12; 13; 14; 15; 16; 17] ∧
    stream_column 1 bs = replicate 11 (-1) ∧
    stream_column 2 bs = [11; 12; 13; 14; 15; 16; 20; 21; 22; 23; 24].
Proof.
  pose proof scan_runs as Hrun. apply bind_Ok_inv in Hrun as (s & Es & Hrun).
  apply bind_Ok_inv in Hrun as (bs & Er & Hrun). injection Hrun as Hend H1 H2 H3 H4.
  pose proof (scan_returns_everything schema [group_v; group_w] needed 4 16 s 12 sample_promised ltac:(done)
    ltac:(done) Es) as Hall. rewrite Hend in Hall. specialize (Hall ltac:(done)).
  exists s, bs. split_and!; [done|done| |done..].
  destruct (read_all 12 s) as [s' o]. simpl in Er. subst o. by destruct Hall.
Defined.
End SampleScan.
