(* ===== verification/ArrowTables.v ===== *)
(** * Arrow tables and the selection of rows

    The tables that random access ([Reader::take]) works on, with the
    operations of Arrow that it calls as an interface, and [CopySelectedRows]
    of [common/arrow_util.cpp], which copies the selected rows of every column
    run by run.  The theorem: the copy is the selection, row by row. *)

From S2P Require Import Prelude CppString Status ChunkManager.

(** ** Tables *)

Class DataTypes `{Arrays} := {
  DataType : Type;
  array_type : Array → DataType;
}.

Section data.
Context `{DataTypes}.

Record Field := mkField {
  fd_name : string;
  fd_type : DataType;
}.

Record ChunkedArray := mkChunked {
  ca_type : DataType;
  ca_chunks : list Array;
}.

Record ArrowTable := mkTable {
  tb_schema : list Field;
  tb_columns : list ChunkedArray;
  tb_num_rows : Z;
}.

(** [Schema::GetFieldByName] and [GetFieldIndex] of a name without duplicates;
    a name that occurs twice has no field. *)
Definition GetFieldByName (schema : list Field) (name : string) : option Field :=
  match filter (λ f, fd_name f = name) schema with [f] => Some f | _ => None end.
End data.

(** What is called of arrow's builders, tables and chunk resolver. *)
Class TableOps `{DataTypes} := {
  ArrayBuilder : Type;
  MakeBuilderExactIndex : DataType → outcome Status ArrayBuilder;
  Reserve : ArrayBuilder → Z → outcome Status ArrayBuilder;
  AppendArraySlice : ArrayBuilder → Array → Z → Z → outcome Status ArrayBuilder;
  Finish : ArrayBuilder → outcome Status Array;
  Resolve : list Array → Z → nat * Z;              (* chunk_index, index_in_chunk *)
  Validate : ArrowTable → outcome Status unit;
  ConcatenateTables : list ArrowTable → outcome Status ArrowTable;
  MakeNullArray : DataType → Z → outcome Status Array;
  MakeEmptyTable : list Field → outcome Status ArrowTable;
}.

(** ** Selecting rows *)

Section copy.
Context `{TableOps}.

(** The indices after the first one that continue its run in the chunk. *)
Fixpoint run_length (input_index index_in_chunk chunk_length run : Z) (rest : list Z) : Z :=
  match rest with
  | [] => run
  | x :: rest' =>
      if (index_in_chunk + run <? chunk_length) && (x =? input_index + run)
      then run_length input_index index_in_chunk chunk_length (run + 1) rest'
      else run
  end.

(** The loop over the output of a column; every round copies a row at least. *)
Fixpoint copy_runs (fuel : nat) (chunks : list Array) (indices : list Z) (builder : ArrayBuilder) :
    outcome Status ArrayBuilder :=
  match indices with
  | [] => Ok builder
  | input_index :: rest =>
      match fuel with
      | O => Ub
      | S fuel' =>
          let '(chunk_index, index_in_chunk) := Resolve chunks input_index in
          chunk ← deref (chunks !! chunk_index);
          let run := run_length input_index index_in_chunk (array_length chunk) 1 rest in
          builder ← AppendArraySlice builder chunk index_in_chunk run;
          copy_runs fuel' chunks (drop (Z.to_nat run) indices) builder
      end
  end.

Definition copy_column (indices : list Z) (column : ChunkedArray) : outcome Status ChunkedArray :=
  builder ← MakeBuilderExactIndex (ca_type column);
  builder ← Reserve builder (Z.of_nat (length indices));
  builder ← copy_runs (length indices) (ca_chunks column) indices builder;
  array ← Finish builder;
  Ok (mkChunked (array_type array) [array]).

Definition CopySelectedRows (table : ArrowTable) (indices : list Z) : outcome Status ArrowTable :=
  check_all (λ index, if (index <? 0) || (tb_num_rows table <=? index) then Err status_IndexError else Ok tt) indices;;
  new_columns ← fold_out (λ cols c, c ← copy_column indices c; Ok (cols ++ [c])) (tb_columns table) [];
  let result := mkTable (tb_schema table) new_columns (Z.of_nat (length indices)) in
  Validate result;;
  Ok result.
End copy.

(** ** What the operations promise *)

Section cells.
Context `{ArrayLaws} `{!DataTypes}.

Definition column_cells (c : ChunkedArray) : list cell := mjoin (acells <$> ca_chunks c).

Record table_ok (t : ArrowTable) : Prop := {
  to_types : Forall2 (λ fd c, ca_type c = fd_type fd) (tb_schema t) (tb_columns t);
  to_rows : 0 ≤ tb_num_rows t;
  to_columns : Forall (λ c, Z.of_nat (length (column_cells c)) = tb_num_rows t) (tb_columns t);
}.

(** The cells of the columns. *)
Definition table_cells (t : ArrowTable) : list (list cell) := column_cells <$> tb_columns t.

(** The position of a row of a column: its chunk, and the row there. *)
Definition resolved (chunks : list Array) (i : Z) (loc : nat * Z) : Prop :=
  ∃ before chunk after, chunks = before ++ chunk :: after ∧ loc.1 = length before ∧
    0 ≤ loc.2 < array_length chunk ∧
    i = Z.of_nat (length (mjoin (acells <$> before))) + loc.2.
End cells.

Class TableLaws `{AL : ArrayLaws} `{DT : !DataTypes} `{TO : !TableOps} := {
  null_cell : cell;
  buildable : DataType → Prop;               (* not an extension type *)
  bcells : ArrayBuilder → list cell;
  btype : ArrayBuilder → DataType;
  make_builder ty : buildable ty →
    ∃ b, MakeBuilderExactIndex ty = Ok b ∧ bcells b = [] ∧ btype b = ty;
  reserve_ok b n : 0 ≤ n → ∃ b', Reserve b n = Ok b' ∧ bcells b' = bcells b ∧ btype b' = btype b;
  append_ok b a o l : 0 ≤ o → 0 ≤ l → o + l ≤ array_length a →
    ∃ b', AppendArraySlice b a o l = Ok b' ∧ btype b' = btype b ∧
      bcells b' = bcells b ++ take (Z.to_nat l) (drop (Z.to_nat o) (acells a));
  finish_ok b : ∃ a, Finish b = Ok a ∧ acells a = bcells b ∧ array_type a = btype b;
  resolve_ok chunks i : 0 ≤ i < Z.of_nat (length (mjoin (acells <$> chunks))) →
    resolved chunks i (Resolve chunks i);
  validate_ok t : table_ok t → Validate t = Ok tt;
  (* tables of one schema are concatenated column by column *)
  concatenate_ok t ts : Forall table_ok (t :: ts) → Forall (λ t', tb_schema t' = tb_schema t) ts →
    ∃ t', ConcatenateTables (t :: ts) = Ok t' ∧ table_ok t' ∧ tb_schema t' = tb_schema t ∧
      tb_num_rows t' = sum_Z (tb_num_rows <$> t :: ts) ∧
      (∀ j, table_cells t' !! j = (λ _, mjoin (default [] ∘ (λ u, table_cells u !! j) <$> (t :: ts))) <$> tb_schema t !! j);
  null_array_ok ty n : 0 ≤ n → ∃ a, MakeNullArray ty n = Ok a ∧ acells a = replicate (Z.to_nat n) null_cell;
  empty_table_ok fs : ∃ t, MakeEmptyTable fs = Ok t ∧ table_ok t ∧ tb_schema t = fs ∧ tb_num_rows t = 0;
}.

(** ** The copy is the selection *)

Section selection.
Context `{TL : TableLaws}.

(** [out] holds the rows [indices] of [data], in this order. *)
Definition selected (indices : list Z) (data out : list cell) : Prop :=
  Some <$> out = (λ i, data !! Z.to_nat i) <$> indices.

Lemma selected_length indices data out : selected indices data out → length out = length indices.
Proof. intros Hs. apply (f_equal length) in Hs. by rewrite !length_fmap in Hs. Qed.

Lemma selected_app i1 i2 data o1 o2 :
  selected i1 data o1 → selected i2 data o2 → selected (i1 ++ i2) data (o1 ++ o2).
Proof. unfold selected. intros H1 H2. by rewrite !fmap_app, H1, H2. Qed.

Lemma run_length_spec input ic len run rest :
  1 ≤ run → ic + run ≤ len →
  let k := run_length input ic len run rest in
  run ≤ k ≤ run + Z.of_nat (length rest) ∧ ic + k ≤ len ∧
  take (Z.to_nat (k - run)) rest = seqZ (input + run) (k - run).
Proof.
  revert run. induction rest as [|x rest IH]; intros run Hrun Hlen; simpl.
  { rewrite Z.sub_diag. split_and!; [lia..|done]. }
  destruct ((ic + run <? len) && (x =? input + run)) eqn:Hc.
  - apply andb_true_iff in Hc as [Hlt%Z.ltb_lt Heq%Z.eqb_eq].
    destruct (IH (run + 1) ltac:(lia) ltac:(lia)) as (Hk & Hl & Ht). split_and!; [lia..|].
    set (k := run_length _ _ _ _ _) in *. replace (Z.to_nat (k - run)) with (S (Z.to_nat (k - (run + 1)))) by lia.
    simpl. rewrite Ht, (seqZ_cons (input + run)) by lia. rewrite Heq. f_equal. f_equal; lia.
  - rewrite Z.sub_diag. split_and!; [lia..|done].
Qed.

(** A run is a slice of its chunk. *)
Lemma run_selected chunks i loc chunk k :
  resolved chunks i loc → chunks !! loc.1 = Some chunk → 0 ≤ k → loc.2 + k ≤ array_length chunk →
  selected (seqZ i k) (mjoin (acells <$> chunks)) (take (Z.to_nat k) (drop (Z.to_nat loc.2) (acells chunk))).
Proof.
  intros (before & chunk' & after & -> & Hloc & Hrange & ->) Hc Hk Hlen.
  rewrite Hloc, lookup_app_r, Nat.sub_diag in Hc by done. simplify_eq/=. rewrite acells_length in Hlen.
  unfold selected. apply list_eq. intros j. rewrite !list_lookup_fmap.
  destruct (decide (j < Z.to_nat k)%nat) as [Hj|Hj].
  - rewrite lookup_take_lt by lia. rewrite lookup_drop, (proj2 (lookup_seqZ _ _ j _)) by (split; [reflexivity|lia]). simpl.
    rewrite fmap_app, join_app, fmap_cons. simpl. rewrite lookup_app_r by lia. rewrite lookup_app_l by lia.
    replace (Z.to_nat _ - length (mjoin (acells <$> before)))%nat with (Z.to_nat loc.2 + j)%nat by lia.
    destruct (lookup_lt_is_Some_2 (acells chunk) (Z.to_nat loc.2 + j)) as [c Hcell]; [lia|]. by rewrite Hcell.
  - rewrite lookup_take_ge by lia. rewrite lookup_seqZ_ge by lia. done.
Qed.

Lemma copy_runs_spec fuel chunks indices b :
  (length indices ≤ fuel)%nat →
  Forall (λ i, 0 ≤ i < Z.of_nat (length (mjoin (acells <$> chunks)))) indices →
  ∃ b' out, copy_runs fuel chunks indices b = Ok b' ∧ btype b' = btype b ∧ bcells b' = bcells b ++ out ∧
    selected indices (mjoin (acells <$> chunks)) out.
Proof.
  revert indices b. induction fuel as [|fuel IH]; intros indices b Hf Hr.
  { destruct indices; [|simpl in Hf; lia]. exists b, []. by rewrite app_nil_r. }
  destruct indices as [|i rest]; [exists b, []; by rewrite app_nil_r|].
  apply Forall_cons in Hr as Hr'. destruct Hr' as [Hi Hrest]. cbn [copy_runs].
  pose proof (resolve_ok chunks i Hi) as Hres. destruct (Resolve chunks i) as [ci ic].
  assert (∃ chunk, chunks !! ci = Some chunk ∧ 0 ≤ ic < array_length chunk) as (chunk & Hc & Hic).
  { destruct Hres as (bf & c & af & -> & Hl & Hrange & _). simpl in *. subst ci. exists c.
    by rewrite lookup_app_r, Nat.sub_diag. }
  rewrite Hc. cbn [deref]. rewrite bind_Ok.
  destruct (run_length_spec i ic (array_length chunk) 1 rest ltac:(lia) ltac:(lia)) as (Hk & Hlen & Ht).
  set (k := run_length i ic (array_length chunk) 1 rest) in *.
  destruct (append_ok b chunk ic k) as (b1 & -> & Hty & Hb1); [lia..|]. rewrite bind_Ok.
  assert (take (Z.to_nat k) (i :: rest) = seqZ i k) as Htake.
  { replace (Z.to_nat k) with (S (Z.to_nat (k - 1))) by lia. simpl. rewrite Ht, (seqZ_cons i) by lia.
    f_equal. }
  destruct (IH (drop (Z.to_nat k) (i :: rest)) b1) as (b' & out & Hcp & Hty' & Hb' & Hs).
  { rewrite length_drop. simpl in *. lia. }
  { by apply Forall_drop. }
  exists b', (take (Z.to_nat k) (drop (Z.to_nat ic) (acells chunk)) ++ out). split_and!; [done|congruence| |].
  - by rewrite Hb', Hb1, app_assoc.
  - rewrite <- (take_drop (Z.to_nat k) (i :: rest)). apply selected_app; [|done]. rewrite Htake.
    apply (run_selected chunks i (ci, ic)); simpl; [done|done|lia|lia].
Qed.

Lemma copy_column_spec c indices :
  buildable (ca_type c) → Forall (λ i, 0 ≤ i < Z.of_nat (length (column_cells c))) indices →
  ∃ c', copy_column indices c = Ok c' ∧ ca_type c' = ca_type c ∧ selected indices (column_cells c) (column_cells c').
Proof.
  intros Hb Hr. unfold copy_column. destruct (make_builder _ Hb) as (b & -> & Hb0 & Hty). rewrite bind_Ok.
  destruct (reserve_ok b (Z.of_nat (length indices))) as (b1 & -> & Hb1 & Hty1); [lia|]. rewrite bind_Ok.
  destruct (copy_runs_spec (length indices) (ca_chunks c) indices b1) as (b2 & out & -> & Hty2 & Hb2 & Hs); [done..|].
  rewrite bind_Ok. destruct (finish_ok b2) as (a & -> & Ha & Hta). rewrite bind_Ok. eexists. split; [done|].
  unfold column_cells. simpl. rewrite app_nil_r, Ha, Hb2, Hb1, Hb0. simpl. split; [congruence|done].
Qed.

Lemma copy_columns_spec cols indices acc :
  Forall (λ c, buildable (ca_type c) ∧ Forall (λ i, 0 ≤ i < Z.of_nat (length (column_cells c))) indices) cols →
  ∃ cols', fold_out (λ cols c, c ← copy_column indices c; Ok (cols ++ [c])) cols acc = Ok (acc ++ cols') ∧
    Forall2 (λ c c', ca_type c' = ca_type c ∧ selected indices (column_cells c) (column_cells c')) cols cols'.
Proof.
  intros Hc. revert acc. induction Hc as [|c cols [Hb Hr] Hc IH]; intros acc; cbn [fold_out].
  { exists []. by rewrite app_nil_r. }
  destruct (copy_column_spec c indices Hb Hr) as (c' & -> & Hty & Hs). rewrite !bind_Ok.
  destruct (IH (acc ++ [c'])) as (cols' & -> & Hf). exists (c' :: cols'). rewrite <- app_assoc. split; [done|].
  by constructor.
Qed.

Definition in_table (t : ArrowTable) (indices : list Z) : Prop := Forall (λ i, 0 ≤ i < tb_num_rows t) indices.

Definition check_index (t : ArrowTable) (index : Z) : outcome Status unit :=
  if (index <? 0) || (tb_num_rows t <=? index) then Err status_IndexError else Ok tt.

Lemma check_index_spec t i :
  0 ≤ i < tb_num_rows t ∧ check_index t i = Ok tt ∨ ¬ (0 ≤ i < tb_num_rows t) ∧ check_index t i = Err status_IndexError.
Proof.
  unfold check_index. destruct (Z.ltb_spec i 0), (Z.leb_spec (tb_num_rows t) i); simpl;
    [right; split; [lia|done]..|left; split; [lia|done]].
Qed.

Lemma copy_selected_ok t indices :
  table_ok t → Forall (λ fd, buildable (fd_type fd)) (tb_schema t) → in_table t indices →
  ∃ t', CopySelectedRows t indices = Ok t' ∧ table_ok t' ∧ tb_schema t' = tb_schema t ∧
    tb_num_rows t' = Z.of_nat (length indices) ∧
    Forall2 (selected indices) (table_cells t) (table_cells t').
Proof.
  intros [Hw Hn Hcols] Hbuild Hr. unfold CopySelectedRows. change (λ index : Z, _) with (check_index t) at 1.
  rewrite (proj2 (check_all_Ok (check_index t) indices)), bind_Ok.
  2:{ eapply Forall_impl; [exact Hr|]. intros i Hi. by destruct (check_index_spec t i) as [[_ ?]|[? _]]. }
  destruct (copy_columns_spec (tb_columns t) indices []) as (cols' & -> & Hf).
  { apply Forall_lookup. intros j c Hc. eapply Forall_lookup in Hcols; [|done].
    destruct (Forall2_lookup_r _ _ _ _ _ Hw Hc) as (fd & Hfd & ->). eapply Forall_lookup in Hbuild; [|done].
    by rewrite Hcols. }
  rewrite bind_Ok. simpl.
  assert (table_ok (mkTable (tb_schema t) cols' (Z.of_nat (length indices)))) as Hok.
  { split; simpl; [|lia|].
    - apply Forall2_same_length_lookup_2; [by rewrite (Forall2_length _ _ _ Hw), (Forall2_length _ _ _ Hf)|].
      intros j fd c' Hfd Hc'. destruct (Forall2_lookup_r _ _ _ _ _ Hf Hc') as (c & Hc & -> & _).
      by eapply (Forall2_lookup_lr _ _ _ _ _ _ Hw).
    - apply Forall_lookup. intros j c' Hj. destruct (Forall2_lookup_r _ _ _ _ _ Hf Hj) as (c & _ & _ & Hs).
      by rewrite (selected_length _ _ _ Hs). }
  rewrite (validate_ok _ Hok), bind_Ok. eexists. split_and!; [done|done|done|done|].
  apply Forall2_fmap. eapply Forall2_impl; [exact Hf|]. by intros c c' [_ ?].
Qed.

(** [CopySelectedRows] copies run by run what a selection row by row gives.
    For indices inside the table, in any order and with repetitions, the result
    is a well-formed table of the same schema whose columns hold, row for row,
    the requested rows; an index outside of it is an index error and nothing is
    copied. *)
Theorem copy_selected_rows t indices :
  table_ok t → Forall (λ fd, buildable (fd_type fd)) (tb_schema t) →
  (in_table t indices →
    ∃ t', CopySelectedRows t indices = Ok t' ∧ table_ok t' ∧ tb_schema t' = tb_schema t ∧
      tb_num_rows t' = Z.of_nat (length indices) ∧
      Forall2 (selected indices) (table_cells t) (table_cells t')) ∧
  (¬ in_table t indices → CopySelectedRows t indices = Err status_IndexError).
Proof.
  intros Hok Hbuild. split; [by apply copy_selected_ok|]. intros Hr. unfold CopySelectedRows.
  change (λ index : Z, _) with (check_index t) at 1.
  assert (check_all (check_index t) indices = Err status_IndexError) as ->; [|done].
  induction indices as [|i indices IH]; [destruct Hr; apply Forall_nil_2|]. simpl.
  destruct (check_index_spec t i) as [[Hi ->]|[_ ->]]; [|done]. rewrite bind_Ok. apply IH.
  intros Hall. apply Hr. by constructor.
Qed.
End selection.
