(* ===== verification/LazyReader.v ===== *)
(** * Lazy column group readers

    [format/column_group_lazy_reader.h/.cpp]: random access to the rows of one
    column group.  A request of sorted, unique rows is checked, cut into one
    part per thread, and each part into the rows of every file, for which a
    reader is opened, if possible from metadata in the cache of
    [FormatReaderCache.v]; the tables of the files are concatenated.

    The format readers are a parameter, for the properties and the key retriever
    of the reader.  Tasks of a thread pool and futures run one after another. *)

From S2P Require Import Prelude CppString Status Config ColumnGroups ChunkManager ArrowTables FormatReaderCache AsyncTasks.

(** ** Format readers *)

Class TakeReaders `{DataTypes} := {
  TakeReader : Type;
  TakeMeta : Type;
  (* [FormatReader::create], with the cast to the reader of the format *)
  reader_create : option (list Field) → string → ColumnGroupFile → list string → outcome Status TakeReader;
  reader_create_async : option (list Field) → string → ColumnGroupFile → list string → outcome Status TakeReader;
  (* the [MetaTrait] of the reader of a format *)
  FormatReaderWithAsyncMetadata : string → bool;
  cache_key : string → ColumnGroupFile → string;
  load_metadata : string → ColumnGroupFile → @LoadResult TakeMeta;
  load_metadata_async : string → ColumnGroupFile → @LoadResult TakeMeta;
  create_from_metadata : string → option TakeMeta → ColumnGroupFile → option (list Field) → list string →
    outcome Status TakeReader;
  create_from_metadata_async : string → option TakeMeta → ColumnGroupFile → option (list Field) → list string →
    outcome Status TakeReader;
  reader_take : TakeReader → list Z → outcome Status ArrowTable;
  reader_take_async : TakeReader → list Z → outcome Status ArrowTable;
}.

(** ** Rows *)

(** The file of a row and the row in the file. *)
Fixpoint locate_row (row_index_remain : Z) (i : nat) (files : list ColumnGroupFile) : outcome Status (nat * Z) :=
  match files with
  | [] => Err status_Invalid
  | f :: files' =>
      if (start_index f <? 0) || (end_index f <? 0) then Err status_Invalid
      else
        let num_of_rows_in_file := end_index f - start_index f in
        if row_index_remain <? num_of_rows_in_file then Ok (i, row_index_remain + start_index f)
        else if row_index_remain - num_of_rows_in_file <=? INT64_MAX
        then locate_row (row_index_remain - num_of_rows_in_file) (S i) files'
        else Ub     (* signed overflow *)
  end.

Definition get_index_and_offset_of_file (files : list ColumnGroupFile) (global_row_index : Z) :
    outcome Status (nat * Z) :=
  locate_row global_row_index 0 files.

Fixpoint validate_sorted_unique_row_indices (row_indices : list Z) : outcome Status unit :=
  match row_indices with
  | a :: ((b :: _) as rest) => if b <=? a then Err status_Invalid else validate_sorted_unique_row_indices rest
  | _ => Ok tt
  end.

Definition split_row_indices (row_indices : list Z) (parallel_degree : nat) : list (list Z) :=
  let n := length row_indices in
  if (parallel_degree =? 0)%nat || (n <? parallel_degree)%nat then [row_indices]
  else
    let avg_rows := (n / parallel_degree)%nat in
    (λ i, let start := (i * avg_rows)%nat in
          let end_ := if (i =? parallel_degree - 1)%nat then n else ((i + 1) * avg_rows)%nat in
          take (end_ - start) (drop start row_indices)) <$> seq 0 parallel_degree.

(** ** The reader *)

Section reader.
Context `{TO : TableOps} `{!TakeReaders}.

(** Per format, the entries of its metadata cache. *)
Abbreviation Caches := (gmap string (gmap string (option TakeMeta))).

Record LazyReader := mkLazy {
  lz_schema : option (list Field);
  lz_group : ColumnGroup;
  lz_needed : list string;
  lz_cached : bool;                (* cache_.enabled() *)
}.

Definition LZ (A : Type) : Type := M Caches Status A.

(** [cache_.get<ReaderT>()->get_or_open(key, loader)]. *)
Definition cached_metadata (fmt key : string) (lr : @LoadResult TakeMeta) : LZ (option TakeMeta) := λ cs,
  let '(es, o) := get_or_open key lr (default ∅ (cs !! fmt)) in (<[fmt := es]> cs, o).

Definition validate_row_indices (r : LazyReader) (row_indices : list Z) : outcome Status unit :=
  check_all (λ row_index,
    if row_index <? 0 then Err status_Invalid
    else get_index_and_offset_of_file (files (lz_group r)) row_index;; Ok tt) row_indices.

Definition lazy_open_reader (r : LazyReader) (file_index : nat) : LZ TakeReader :=
  match files (lz_group r) !! file_index with
  | None => fail status_Invalid
  | Some file =>
      let fmt := format (lz_group r) in
      if negb (lz_cached r) then lift (reader_create (lz_schema r) fmt file (lz_needed r))
      else
        metadata ← cached_metadata fmt (cache_key fmt file) (load_metadata fmt file);
        lift (create_from_metadata fmt metadata file (lz_schema r) (lz_needed r))
  end.

Definition lazy_open_reader_async (r : LazyReader) (file_index : nat) : LZ TakeReader :=
  match files (lz_group r) !! file_index with
  | None => fail status_Invalid
  | Some file =>
      let fmt := format (lz_group r) in
      if negb (lz_cached r) then lift (reader_create_async (lz_schema r) fmt file (lz_needed r))
      else if FormatReaderWithAsyncMetadata fmt then
        metadata ← cached_metadata fmt (cache_key fmt file) (load_metadata_async fmt file);
        lift (create_from_metadata_async fmt metadata file (lz_schema r) (lz_needed r))
      else lazy_open_reader r file_index
  end.

(** [indices_in_files]: the rows of every file. *)
Definition indices_in_files (files : list ColumnGroupFile) (row_indices : list Z) :
    outcome Status (list (list Z)) :=
  fold_out (λ acc row_index,
    loc ← get_index_and_offset_of_file files row_index;
    if (length acc <=? loc.1)%nat then Ub
    else Ok (alter (λ l, l ++ [loc.2]) loc.1 acc)) row_indices (replicate (length files) []).

(** The loop over the files; those without rows are not opened. *)
Fixpoint take_from_files (r : LazyReader) (file_index : nat) (indices : list (list Z)) : LZ (list ArrowTable) :=
  match indices with
  | [] => mret []
  | idx :: indices' =>
      if bool_decide (idx = []) then take_from_files r (S file_index) indices'
      else
        reader ← lazy_open_reader r file_index;
        table ← lift (reader_take reader idx);
        tables ← take_from_files r (S file_index) indices';
        mret (table :: tables)
  end.

Definition take_rows_from_files (r : LazyReader) (row_indices : list Z) : LZ ArrowTable :=
  indices ← lift (indices_in_files (files (lz_group r)) row_indices);
  tables ← take_from_files r 0 indices;
  lift (ConcatenateTables tables).

(** All tasks run before the first error is returned. *)
Fixpoint run_tasks (r : LazyReader) (tasks : list (list Z)) : LZ (list (ArrowTable + Status)) :=
  match tasks with
  | [] => mret []
  | rows :: tasks' =>
      result ← catch (take_rows_from_files r rows);
      results ← run_tasks r tasks';
      mret (result :: results)
  end.

Definition first_error {A} (results : list (A + Status)) : outcome Status (list A) :=
  fold_out (λ acc res, match res with inl a => Ok (acc ++ [a]) | inr e => Err e end) results [].

(** [num_threads]: the size of the thread pool. *)
Definition lazy_take (r : LazyReader) (row_indices : list Z) (parallelism : Z) (num_threads : nat) : LZ ArrowTable :=
  lift (validate_sorted_unique_row_indices row_indices);;
  lift (validate_row_indices r row_indices);;
  if parallelism <=? 1 then take_rows_from_files r row_indices
  else
    results ← run_tasks r (split_row_indices row_indices num_threads);
    tables ← lift (first_error results);
    lift (ConcatenateTables tables).

Definition lazy_take_async (r : LazyReader) (task : TakeTask) : LZ ArrowTable :=
  rows_in_file ← lift (fold_out (λ acc global_row,
    loc ← get_index_and_offset_of_file (files (lz_group r)) global_row;
    if negb (loc.1 =? tt_file_index task)%nat then Err status_Invalid
    else Ok (acc ++ [loc.2])) (tt_row_indices task) []);
  reader ← lazy_open_reader_async r (tt_file_index task);
  lift (reader_take_async reader rows_in_file).

(** [ColumnGroupLazyReader::create].  The metadata cache is used when it is
    enabled, and also by the property; formats without a reader are refused. *)
Definition known_format (fmt : string) : bool :=
  bool_decide (fmt ∈ [LOON_FORMAT_PARQUET; LOON_FORMAT_VORTEX; LOON_FORMAT_LANCE_TABLE;
                      LOON_FORMAT_ICEBERG_TABLE; LOON_FORMAT_PAIMON_TABLE]).

(** The fields of the columns; one that is not in the schema is a null pointer. *)
Fixpoint fields_of (schema : list Field) (cols : list string) : outcome Status (list Field) :=
  match cols with
  | [] => Ok []
  | c :: cols' => f ← deref (GetFieldByName schema c); fs ← fields_of schema cols'; Ok (f :: fs)
  end.

Definition lazy_create (schema : option (list Field)) (column_group : option ColumnGroup)
    (needed_columns : list string) (cache_enabled property_enabled : bool) : outcome Status LazyReader :=
  match column_group with
  | None => Err status_Invalid
  | Some group =>
      let filtered_columns := filter (λ c, c ∈ columns group) needed_columns in
      out_schema ← match schema with
                   | Some s => fs ← fields_of s filtered_columns; Ok (Some fs)
                   | None => Ok None
                   end;
      if known_format (format group)
      then Ok (mkLazy out_schema group filtered_columns (cache_enabled && property_enabled))
      else Err status_Invalid
  end.
End reader.
