(* ===== verification/LazyReaderCorrect.v ===== *)
(** * Random access to a column group

    What the format readers promise to the lazy reader of [LazyReader.v], and
    the proof that a request returns the requested rows of the group, however
    it is distributed over threads and files, and whatever the metadata cache
    holds. *)

From S2P Require Import Prelude CppString Status ColumnGroups ChunkManager ArrowTables FormatReaderCache ColumnGroupReader ColumnGroupChunks AsyncTasks LazyReader.

Lemma wp_lift_bind {S E A B} (o : outcome E A) a (f : A → M S E B) s Q R :
  o = Ok a → wp (f a) s Q R → wp (lift o ≫= f) s Q R.
Proof. by intros ->. Qed.

(** ** Positions of rows *)

(** The file and the row in the file of every visible row. *)
Fixpoint row_positions (i : nat) (fs : list ColumnGroupFile) : list (nat * Z) :=
  match fs with
  | [] => []
  | f :: fs' => (pair i <$> seg (start_index f) (end_index f)) ++ row_positions (S i) fs'
  end.

Definition ranges_ok (fs : list ColumnGroupFile) : Prop := Forall (λ f, bad_range f = false) fs.

Lemma locate_row_spec r i fs :
  ranges_ok fs → 0 ≤ r ≤ INT64_MAX →
  match locate_row r i fs with
  | Ok p => row_positions i fs !! Z.to_nat r = Some p
  | Err e => e = status_Invalid ∧ Z.of_nat (length (row_positions i fs)) ≤ r
  | Ub => False
  end.
Proof.
  intros Hfs. revert r i. induction Hfs as [|f fs Hf Hfs IH]; intros r i Hr; simpl; [split; [done|lia]|].
  apply bad_range_false in Hf as (H1 & H2 & H3).
  rewrite (proj2 (Z.ltb_ge _ _) H1), (proj2 (Z.ltb_ge _ _) H2). simpl.
  destruct (Z.ltb_spec r (end_index f - start_index f)) as [Hlt|Hge].
  - rewrite lookup_app_l by (rewrite length_fmap, length_seg; lia). rewrite list_lookup_fmap.
    rewrite (proj2 (lookup_seg _ _ _ (r + start_index f))) by lia. done.
  - destruct (Z.leb_spec (r - (end_index f - start_index f)) INT64_MAX); [|lia].
    specialize (IH (r - (end_index f - start_index f)) (S i) ltac:(lia)).
    destruct (locate_row _ _ _); [|rewrite length_app, length_fmap, length_seg; naive_solver lia|done].
    rewrite lookup_app_r by (rewrite length_fmap, length_seg; lia). rewrite length_fmap, length_seg, <- IH. f_equal. lia.
Qed.

Lemma length_positions i fs : length (row_positions i fs) = length (file_ids i fs).
Proof.
  revert i. induction fs as [|f fs IH]; intros i; simpl; [done|].
  by rewrite !length_app, length_fmap, length_seg, length_replicate, IH.
Qed.

(** Positions grow with the rows, in the file first. *)
Lemma positions_mono i fs r1 r2 j1 j2 o1 o2 :
  ranges_ok fs → row_positions i fs !! r1 = Some (j1, o1) → row_positions i fs !! r2 = Some (j2, o2) →
  (r1 < r2)%nat → (i ≤ j1)%nat ∧ ((j1 < j2)%nat ∨ j1 = j2 ∧ o1 < o2).
Proof.
  intros Hfs. revert i r1 r2. induction Hfs as [|f fs Hf Hfs IH]; intros i r1 r2 H1 H2 Hlt; [done|]. simpl in *.
  apply lookup_app_Some in H1 as [H1|[Hge1 H1]].
  - apply list_lookup_fmap_Some in H1 as (x1 & [= -> ->] & [-> Hx1]%lookup_seg). split; [lia|].
    apply lookup_app_Some in H2 as [H2|[Hge2 H2]].
    + apply list_lookup_fmap_Some in H2 as (x2 & [= -> ->] & [-> Hx2]%lookup_seg). right. split; [done|lia].
    + left. clear -H2. revert H2. generalize (r2 - length (pair i <$> seg (start_index f) (end_index f)))%nat.
      assert (∀ k r, row_positions k fs !! r = Some (j2, o2) → (k ≤ j2)%nat) as Hk.
      { induction fs as [|g fs IH]; intros k r Hr; [done|]. simpl in Hr. apply lookup_app_Some in Hr as [Hr|[_ Hr]].
        - apply list_lookup_fmap_Some in Hr as (x & [= -> ->] & _). lia.
        - apply IH in Hr. lia. }
      intros n Hn. apply Hk in Hn. lia.
  - apply lookup_app_Some in H2 as [H2|[Hge2 H2]].
    + apply lookup_lt_Some in H2. lia.
    + destruct (IH _ _ _ H1 H2 ltac:(lia)). split; [lia|done].
Qed.

Section data.
Context {cell' : Type} (D : ColumnGroupFile → list cell').

(** The visible rows of a column, from what its files hold. *)
Definition visible_data (fs : list ColumnGroupFile) : list cell' :=
  mjoin ((λ f, slice_of (start_index f) (end_index f) (D f)) <$> fs).

Lemma position_data i fs r j o :
  ranges_ok fs → Forall (λ f, end_index f ≤ Z.of_nat (length (D f))) fs →
  row_positions i fs !! r = Some (j, o) →
  ∃ f, fs !! (j - i)%nat = Some f ∧ (i ≤ j)%nat ∧ start_index f ≤ o < end_index f ∧
    visible_data fs !! r = D f !! Z.to_nat o.
Proof.
  intros Hfs. revert i r. induction Hfs as [|f fs Hf Hfs IH]; intros i r Hlen Hr; [done|].
  apply Forall_cons in Hlen as [Hl Hlen]. apply bad_range_false in Hf as (H1 & H2 & H3). simpl in Hr.
  unfold visible_data. rewrite fmap_cons. simpl.
  assert (length (slice_of (start_index f) (end_index f) (D f)) = Z.to_nat (end_index f - start_index f)) as Hsl.
  { unfold slice_of. rewrite length_take, length_drop. lia. }
  apply lookup_app_Some in Hr as [Hr|[Hge Hr]].
  - apply list_lookup_fmap_Some in Hr as (x & [= -> ->] & [-> Hx]%lookup_seg). exists f.
    rewrite Nat.sub_diag. split_and!; [done|lia..|]. rewrite lookup_app_l by lia. unfold slice_of.
    rewrite lookup_take_lt by lia. rewrite lookup_drop. f_equal. lia.
  - rewrite length_fmap, length_seg in Hge, Hr. destruct (IH _ _ Hlen Hr) as (g & Hg & Hij & Ho & Hd). exists g.
    replace (j - i)%nat with (S (j - S i)) by lia. split_and!; [done|lia|lia|lia|].
    rewrite lookup_app_r by lia. by rewrite Hsl.
Qed.
End data.

(** ** Sorted rows by file *)

Lemma group_sorted {A} (key : A → nat) l a n :
  Forall (λ x, (a ≤ key x < a + n)%nat) l → StronglySorted (λ x y, (key x ≤ key y)%nat) l →
  mjoin ((λ i, filter (λ x, key x = i) l) <$> seq a n) = l.
Proof.
  intros Hr Hs. induction Hs as [|x l Hs IH Hx].
  { clear Hr. generalize a. induction n as [|n IH]; intros b; [done|]. simpl. by rewrite IH. }
  apply Forall_cons in Hr as [Hk Hr]. specialize (IH Hr).
  assert (∀ b k, (b + k ≤ key x)%nat → mjoin ((λ i, filter (λ y, key y = i) l) <$> seq b k) = []) as Hnone.
  { intros b k. revert b. induction k as [|k IHk]; intros b Hb; [done|]. simpl. rewrite IHk by lia.
    rewrite app_nil_r. apply filter_none. eapply Forall_impl; [exact Hx|]. intros y Hy. simpl in *. lia. }
  assert (seq a n = seq a (key x - a) ++ key x :: seq (S (key x)) (a + n - S (key x))) as Hseq.
  { replace n with ((key x - a) + S (a + n - S (key x)))%nat at 1 by lia. rewrite seq_app. simpl.
    by replace (a + (key x - a))%nat with (key x) by lia. }
  rewrite Hseq in IH |- *. rewrite !fmap_app, !join_app, !fmap_cons in IH |- *. simpl in *.
  rewrite Hnone in IH by lia. simpl in IH.
  assert (∀ b k, (key x < b ∨ b + k ≤ key x)%nat →
    (λ i, filter (λ y, key y = i) (x :: l)) <$> seq b k = (λ i, filter (λ y, key y = i) l) <$> seq b k) as Hskip.
  { intros b k Hb. apply list_fmap_ext. intros j i Hi. apply lookup_seq in Hi as [-> Hi].
    rewrite filter_cons_False; [done|lia]. }
  rewrite !Hskip by lia. rewrite Hnone by lia. rewrite filter_cons_True by done. simpl. by f_equal.
Qed.

(** ** What the format readers promise *)

Section taken.
Context `{TL : TableLaws}.

(** The table holds the rows [rows] of the columns [d], with the fields [flds]. *)
Record taken (flds : list Field) (d : string → list cell) (rows : list Z) (t : ArrowTable) : Prop := {
  tk_ok : table_ok t;
  tk_schema : tb_schema t = flds;
  tk_rows : tb_num_rows t = Z.of_nat (length rows);
  tk_cells : Forall2 (λ fd out, selected rows (d (fd_name fd)) out) flds (table_cells t);
}.

Lemma taken_mono flds d d' rows rows' t :
  length rows' = length rows →
  (∀ fd, fd ∈ flds → (λ r, d (fd_name fd) !! Z.to_nat r) <$> rows = (λ r, d' (fd_name fd) !! Z.to_nat r) <$> rows') →
  taken flds d rows t → taken flds d' rows' t.
Proof.
  intros Hl Hd [Hok Hs Hr Hc]. split; [done|done|by rewrite Hl|].
  apply Forall2_same_length_lookup_2; [by eapply Forall2_length|]. intros j fd out Hfd Hout.
  unfold selected. rewrite <- Hd by (by eapply list_elem_of_lookup_2).
  by eapply (Forall2_lookup_lr _ _ _ _ _ _ Hc).
Qed.

(** Tables of one group are concatenated to the table of all their rows. *)
Lemma concatenate_taken flds d rowss ts :
  rowss ≠ [] → Forall2 (taken flds d) rowss ts →
  ∃ t, ConcatenateTables ts = Ok t ∧ taken flds d (mjoin rowss) t.
Proof.
  intros Hne Hf. destruct Hf as [|rows t rowss ts Ht Hts]; [done|]. clear Hne.
  assert (Forall2 (taken flds d) (rows :: rowss) (t :: ts)) as Hall by by constructor.
  destruct (concatenate_ok t ts) as (t' & -> & Hok & Hs & Hn & Hc).
  { apply Forall_lookup. intros i t0 Hi. destruct (Forall2_lookup_r _ _ _ _ _ Hall Hi) as (rows0 & _ & Ht0). apply Ht0. }
  { apply Forall_lookup. intros i t0 Hi. destruct (Forall2_lookup_r _ _ _ _ _ Hts Hi) as (rows0 & _ & Ht0).
    by rewrite (tk_schema _ _ _ _ Ht0), (tk_schema _ _ _ _ Ht). }
  exists t'. split; [done|]. rewrite (tk_schema _ _ _ _ Ht) in Hs, Hc. split; [done|done|..].
  - rewrite Hn. clear -Hall. induction Hall as [|r0 t0 rs ts0 H0 _ IH]; [done|].
    rewrite fmap_cons. simpl in *. rewrite length_app, Nat2Z.inj_add, <- IH. f_equal. apply H0.
  - apply Forall2_same_length_lookup_2.
    { unfold table_cells. by rewrite length_fmap, <- (Forall2_length _ _ _ (to_types _ Hok)), Hs. }
    intros j fd out Hfd Hout. rewrite Hc, Hfd in Hout. apply (inj Some) in Hout. subst out.
    clear -Hall Hfd. induction Hall as [|r0 t0 rs ts0 H0 _ IH]; [done|]. rewrite fmap_cons.
    apply (selected_app r0 (mjoin rs)); [|exact IH]. simpl. destruct (Forall2_lookup_l _ _ _ _ _ (tk_cells _ _ _ _ H0) Hfd) as (out & Hout & Hsel).
    by rewrite Hout.
Qed.
End taken.

Class TakeLaws `{TL : TableLaws} `{TR : !TakeReaders} := {
  (* what a file holds, by format, file and column *)
  file_column : string → ColumnGroupFile → string → list cell;
  file_length : string → ColumnGroupFile → Z;
  (* the files that can be read; a reader for a projection; cached metadata by format and key *)
  readable : ColumnGroup → ColumnGroupFile → Prop;
  serves : TakeReader → option (list Field) → ColumnGroup → ColumnGroupFile → list string → Prop;
  meta_ok : string → string → TakeMeta → Prop;
  take_fields : option (list Field) → ColumnGroup → list string → list Field;
  column_length g f c : readable g f → c ∈ columns g →
    Z.of_nat (length (file_column (format g) f c)) = file_length (format g) f;
  take_fields_ok schema g cols : cols ⊆ columns g →
    NoDup (fd_name <$> take_fields schema g cols) ∧
    cols ⊆ fd_name <$> take_fields schema g cols ∧ fd_name <$> take_fields schema g cols ⊆ columns g ∧
    Forall (λ fd, buildable (fd_type fd)) (take_fields schema g cols);
  create_ok schema g f cols : readable g f → cols ⊆ columns g →
    (∃ r, reader_create schema (format g) f cols = Ok r ∧ serves r schema g f cols) ∧
    (∃ r, reader_create_async schema (format g) f cols = Ok r ∧ serves r schema g f cols);
  load_ok g f : readable g f →
    (∃ m, load_metadata (format g) f = LoadOk (Some m) ∧ meta_ok (format g) (cache_key (format g) f) m) ∧
    (∃ m, load_metadata_async (format g) f = LoadOk (Some m) ∧ meta_ok (format g) (cache_key (format g) f) m);
  from_metadata_ok schema g f cols m : readable g f → cols ⊆ columns g →
    meta_ok (format g) (cache_key (format g) f) m →
    (∃ r, create_from_metadata (format g) (Some m) f schema cols = Ok r ∧ serves r schema g f cols) ∧
    (∃ r, create_from_metadata_async (format g) (Some m) f schema cols = Ok r ∧ serves r schema g f cols);
  (* sorted and unique rows of the file *)
  take_ok r schema g f cols idx : serves r schema g f cols → idx ≠ [] → StronglySorted Z.lt idx →
    Forall (λ i, 0 ≤ i < file_length (format g) f) idx →
    (∃ t, reader_take r idx = Ok t ∧ taken (take_fields schema g cols) (file_column (format g) f) idx t) ∧
    (∃ t, reader_take_async r idx = Ok t ∧ taken (take_fields schema g cols) (file_column (format g) f) idx t);
}.

(** ** A request of one group *)

Section lazy.
Context `{TKL : TakeLaws}.

(** A group whose files can be read, and show rows that they have. *)
Record group_ok (g : ColumnGroup) : Prop := {
  go_ranges : ranges_ok (files g);
  go_files : Forall (λ f, readable g f ∧ end_index f ≤ file_length (format g) f) (files g);
}.

Definition group_rows_number (g : ColumnGroup) : Z := Z.of_nat (length (row_positions 0 (files g))).

(** The logical rows of a column of the group. *)
Definition group_column (g : ColumnGroup) (c : string) : list cell :=
  visible_data (λ f, file_column (format g) f c) (files g).

Definition caches_ok (cs : gmap string (gmap string (option TakeMeta))) : Prop :=
  ∀ fmt es key m, cs !! fmt = Some es → es !! key = Some m → ∃ v, m = Some v ∧ meta_ok fmt key v.

Lemma cached_metadata_spec fmt key lr m0 cs :
  caches_ok cs → lr = LoadOk (Some m0) → meta_ok fmt key m0 →
  wp (cached_metadata fmt key lr) cs (λ m cs', caches_ok cs' ∧ ∃ v, m = Some v ∧ meta_ok fmt key v) (λ _ _, False).
Proof.
  intros Hcs -> Hm0. unfold wp, cached_metadata, get_or_open.
  assert (∀ k m, default ∅ (cs !! fmt) !! k = Some m → ∃ v, m = Some v ∧ meta_ok fmt k v) as Hes.
  { intros k m Hm. destruct (cs !! fmt) as [es|] eqn:Hfmt; simpl in Hm; [by eapply Hcs|by rewrite lookup_empty in Hm]. }
  destruct (default ∅ (cs !! fmt) !! key) as [m|] eqn:Hk; (split; [|eauto]).
  - intros fmt' es k m' Hf Hm'. apply lookup_insert_Some in Hf as [[<- <-]|[_ Hf]]; eauto.
  - intros fmt' es k m' Hf Hm'. apply lookup_insert_Some in Hf as [[<- <-]|[_ Hf]]; [|by eauto].
    apply lookup_insert_Some in Hm' as [[<- <-]|[_ Hm']]; eauto.
Qed.

Section one_group.
Context (r : LazyReader) (Hg : group_ok (lz_group r)) (Hcols : lz_needed r ⊆ columns (lz_group r)).

Notation g := (lz_group r).
Notation fields := (take_fields (lz_schema r) g (lz_needed r)).

(** Readers are opened with or without cached metadata. *)
Lemma lazy_open_spec i f cs :
  files g !! i = Some f → caches_ok cs →
  wp (lazy_open_reader r i) cs (λ rd cs', caches_ok cs' ∧ serves rd (lz_schema r) g f (lz_needed r)) (λ _ _, False) ∧
  wp (lazy_open_reader_async r i) cs (λ rd cs', caches_ok cs' ∧ serves rd (lz_schema r) g f (lz_needed r)) (λ _ _, False).
Proof.
  intros Hf Hcs. pose proof (Forall_lookup_1 _ _ _ _ (go_files _ Hg) Hf) as [Hread _].
  destruct (create_ok (lz_schema r) g f (lz_needed r) Hread Hcols) as [(r1 & Hr1 & Hs1) (r2 & Hr2 & Hs2)].
  destruct (load_ok g f Hread) as [(m1 & Hm1 & Hok1) (m2 & Hm2 & Hok2)].
  assert (wp (lazy_open_reader r i) cs (λ rd cs', caches_ok cs' ∧ serves rd (lz_schema r) g f (lz_needed r)) (λ _ _, False)) as Hsync.
  { unfold lazy_open_reader. rewrite Hf. destruct (lz_cached r); simpl; [|eapply wp_lift; eauto].
    eapply wp_seq; [by eapply cached_metadata_spec|]. intros m cs' (Hcs' & v & -> & Hv).
    destruct (from_metadata_ok (lz_schema r) g f (lz_needed r) v Hread Hcols Hv) as [(rd & -> & Hs) _].
    eapply wp_lift; eauto. }
  split; [done|]. unfold lazy_open_reader_async. rewrite Hf. destruct (lz_cached r) eqn:Hc; simpl; [|eapply wp_lift; eauto].
  destruct (FormatReaderWithAsyncMetadata (format g)); [|done].
  eapply wp_seq; [by eapply cached_metadata_spec|]. intros m cs' (Hcs' & v & -> & Hv).
  destruct (from_metadata_ok (lz_schema r) g f (lz_needed r) v Hread Hcols Hv) as [_ (rd & -> & Hs)].
  eapply wp_lift; eauto.
Qed.

(** ** Rows and files *)

Definition row_loc (row : Z) : nat * Z := default (0%nat, 0) (row_positions 0 (files g) !! Z.to_nat row).

Definition in_group (row : Z) : Prop := 0 ≤ row ≤ INT64_MAX ∧ row < group_rows_number g.

Lemma in_group_position row : in_group row → row_positions 0 (files g) !! Z.to_nat row = Some (row_loc row).
Proof.
  intros [H1 H2]. unfold row_loc, group_rows_number in *.
  destruct (lookup_lt_is_Some_2 (row_positions 0 (files g)) (Z.to_nat row)) as [p ->]; [lia|done].
Qed.

Lemma in_group_located row : in_group row → get_index_and_offset_of_file (files g) row = Ok (row_loc row).
Proof.
  intros Hr. pose proof (in_group_position row Hr) as Hp. destruct Hr as [H1 H2].
  pose proof (locate_row_spec row 0 (files g) (go_ranges _ Hg) H1) as Hl. unfold get_index_and_offset_of_file.
  destruct (locate_row row 0 (files g)) as [p| |]; [congruence| |done]. unfold group_rows_number in *. lia.
Qed.

Lemma loc_file row : in_group row →
  ∃ f, files g !! (row_loc row).1 = Some f ∧ 0 ≤ (row_loc row).2 < file_length (format g) f ∧
    ∀ c, c ∈ columns g → group_column g c !! Z.to_nat row = file_column (format g) f c !! Z.to_nat (row_loc row).2.
Proof.
  intros Hr. pose proof (in_group_position row Hr) as Hp. destruct (row_loc row) as [j o].
  destruct (position_data (λ f, replicate (Z.to_nat (file_length (format g) f)) tt) 0 (files g) (Z.to_nat row) j o)
    as (f & Hf & _ & Ho & _); [apply (go_ranges _ Hg)| |done|].
  { eapply Forall_impl; [apply (go_files _ Hg)|]. intros f [_ He]. simpl. rewrite length_replicate. lia. }
  rewrite Nat.sub_0_r in Hf. exists f. simpl. pose proof (Forall_lookup_1 _ _ _ _ (go_files _ Hg) Hf) as [Hread He].
  pose proof (Forall_lookup_1 _ _ _ _ (go_ranges _ Hg) Hf) as Hb%bad_range_false. split_and!; [done|lia|lia|].
  intros c Hc. destruct (position_data (λ f, file_column (format g) f c) 0 (files g) (Z.to_nat row) j o)
    as (f' & Hf' & _ & _ & Hd); [apply (go_ranges _ Hg)| |done|].
  { eapply Forall_impl; [apply (go_files _ Hg)|]. intros f' [Hr' He']. simpl. by rewrite column_length. }
  rewrite Nat.sub_0_r in Hf'. simplify_eq. done.
Qed.

Definition rows_of (rows : list Z) (j : nat) : list Z := filter (λ row, (row_loc row).1 = j) rows.

Lemma indices_in_files_spec rows :
  Forall in_group rows →
  indices_in_files (files g) rows = Ok ((λ j, (λ row, (row_loc row).2) <$> rows_of rows j) <$> seq 0 (length (files g))).
Proof.
  unfold indices_in_files. induction rows as [|row rows IH] using rev_ind; intros Hr.
  { simpl. f_equal. generalize 0%nat. induction (length (files g)) as [|n IHn]; intros k; [done|]. simpl. by rewrite <- IHn. }
  apply Forall_app in Hr as [Hr Hrow]. apply Forall_cons in Hrow as [Hrow _]. rewrite fold_out_app, IH by done. rewrite bind_Ok.
  cbn [fold_out]. rewrite (in_group_located row Hrow), !bind_Ok.
  destruct (loc_file row Hrow) as (f & Hf & _). apply lookup_lt_Some in Hf. rewrite length_fmap, length_seq.
  rewrite (proj2 (Nat.leb_gt _ _) Hf). rewrite bind_Ok. f_equal. apply list_eq. intros j.
  destruct (decide (j < length (files g))%nat) as [Hj|Hj].
  - destruct (decide (j = (row_loc row).1)) as [->|Hne].
    + rewrite list_lookup_alter_eq, !list_lookup_fmap, (proj2 (lookup_seq 0 (length (files g)) _ _) (conj eq_refl Hj)). simpl.
      f_equal. unfold rows_of. rewrite filter_app, filter_cons_True, filter_nil, fmap_app by done. done.
    + rewrite list_lookup_alter_ne, !list_lookup_fmap, (proj2 (lookup_seq 0 (length (files g)) _ _) (conj eq_refl Hj)) by done. simpl.
      f_equal. unfold rows_of. rewrite filter_app, filter_cons_False, filter_nil, app_nil_r by (simpl; congruence). done.
  - rewrite !lookup_ge_None_2; [done|rewrite length_fmap, length_seq; lia|rewrite length_alter, length_fmap, length_seq; lia].
Qed.

(** Sorted rows of one file are sorted in the file. *)
Lemma rows_sorted_in_file rows j :
  StronglySorted Z.lt rows → Forall in_group rows → Forall (λ row, (row_loc row).1 = j) rows →
  StronglySorted Z.lt ((λ row, (row_loc row).2) <$> rows).
Proof.
  induction 1 as [|row rows Hs IH Hrow]; intros Hin Hj; [constructor|]. rewrite fmap_cons.
  apply Forall_cons in Hin as [Hin1 Hin], Hj as [Hj1 Hj]. constructor; [by apply IH|]. rewrite Forall_fmap.
  apply Forall_forall. intros row' Hr'. eapply Forall_forall in Hrow, Hin, Hj; [|done..]. simpl in *.
  pose proof (in_group_position row Hin1) as H1. pose proof (in_group_position row' Hin) as H2.
  destruct (row_loc row) as [j1 o1], (row_loc row') as [j2 o2]. simpl in *. subst j1 j2.
  destruct (positions_mono 0 (files g) _ _ _ _ _ _ (go_ranges _ Hg) H1 H2) as [_ [?|[_ ?]]]; [|lia|done].
  destruct Hin1, Hin. lia.
Qed.

Lemma rows_by_file rows :
  StronglySorted Z.lt rows → Forall in_group rows →
  mjoin (rows_of rows <$> seq 0 (length (files g))) = rows.
Proof.
  intros Hs Hin. apply group_sorted.
  - eapply Forall_impl; [exact Hin|]. intros row Hr. destruct (loc_file row Hr) as (f & Hf & _).
    apply lookup_lt_Some in Hf. simpl. lia.
  - clear -Hs Hin Hg. induction Hs as [|row rows Hs IH Hrow]; [constructor|]. apply Forall_cons in Hin as [Hin1 Hin].
    constructor; [by apply IH|]. apply Forall_forall. intros row' Hr'. eapply Forall_forall in Hrow, Hin; [|done..].
    pose proof (in_group_position row Hin1) as H1. pose proof (in_group_position row' Hin) as H2.
    destruct (row_loc row) as [j1 o1], (row_loc row') as [j2 o2]. simpl.
    destruct (positions_mono 0 (files g) _ _ _ _ _ _ (go_ranges _ Hg) H1 H2) as [_ [?|[-> _]]]; [|lia..].
    destruct Hin1, Hin. lia.
Qed.

(** What a reader of a file returns are rows of the group. *)
Lemma taken_in_group rows j f t :
  Forall in_group rows → Forall (λ row, (row_loc row).1 = j) rows → files g !! j = Some f →
  taken fields (file_column (format g) f) ((λ row, (row_loc row).2) <$> rows) t →
  taken fields (group_column g) rows t.
Proof.
  intros Hin Hj Hf. apply taken_mono; [by rewrite length_fmap|]. intros fd Hfd.
  destruct (take_fields_ok (lz_schema r) g (lz_needed r) Hcols) as (_ & _ & Hsub & _).
  rewrite <- list_fmap_compose. apply list_fmap_ext. intros i row Hi.
  pose proof (Forall_lookup_1 _ _ _ _ Hin Hi) as Hr. pose proof (Forall_lookup_1 _ _ _ _ Hj Hi) as Hjr. simpl in Hjr.
  destruct (loc_file row Hr) as (f' & Hf' & _ & Hd). rewrite Hjr in Hf'. simplify_eq. simpl.
  rewrite Hd; [done|]. apply Hsub. by apply list_elem_of_fmap_2.
Qed.

Lemma file_request rows j f :
  StronglySorted Z.lt rows → Forall in_group rows → Forall (λ row, (row_loc row).1 = j) rows →
  files g !! j = Some f →
  StronglySorted Z.lt ((λ row, (row_loc row).2) <$> rows) ∧
  Forall (λ i, 0 ≤ i < file_length (format g) f) ((λ row, (row_loc row).2) <$> rows).
Proof.
  intros Hs Hin Hj Hf. split; [by eapply rows_sorted_in_file|]. rewrite Forall_fmap. apply Forall_lookup.
  intros i row Hi. pose proof (Forall_lookup_1 _ _ _ _ Hin Hi) as Hr. pose proof (Forall_lookup_1 _ _ _ _ Hj Hi) as Hjr.
  destruct (loc_file row Hr) as (f' & Hf' & Hb & _). simpl in Hjr. rewrite Hjr in Hf'. by simplify_eq.
Qed.

Lemma take_from_files_spec rows k n cs :
  StronglySorted Z.lt rows → Forall in_group rows → (k + n = length (files g))%nat → caches_ok cs →
  wp (take_from_files r k ((λ j, (λ row, (row_loc row).2) <$> rows_of rows j) <$> seq k n)) cs
    (λ ts cs', caches_ok cs' ∧
      Forall2 (taken fields (group_column g)) (filter (λ l, l ≠ []) (rows_of rows <$> seq k n)) ts) (λ _ _, False).
Proof.
  intros Hs Hin. revert k cs. induction n as [|n IH]; intros k cs Hkn Hcs; [by split|].
  cbn [seq]. rewrite !fmap_cons. cbn [take_from_files].
  assert (rows_of rows k = [] ↔ (λ row, (row_loc row).2) <$> rows_of rows k = []) as Hnil by (by destruct (rows_of rows k)).
  case_bool_decide as Hb.
  { rewrite filter_cons_False by tauto. by apply IH; [lia|]. }
  rewrite filter_cons_True by tauto. destruct (lookup_lt_is_Some_2 (files g) k) as [f Hf]; [lia|].
  assert (StronglySorted Z.lt (rows_of rows k)) as Hsk by (by apply StronglySorted_filter).
  assert (Forall in_group (rows_of rows k)) as Hink.
  { apply Forall_forall. intros row [_ Hrow]%list_elem_of_filter. by eapply Forall_forall in Hin. }
  assert (Forall (λ row, (row_loc row).1 = k) (rows_of rows k)) as Hk.
  { apply Forall_forall. by intros row [Hrow _]%list_elem_of_filter. }
  destruct (file_request _ _ _ Hsk Hink Hk Hf) as [Hsf Hbf].
  eapply wp_seq; [apply (lazy_open_spec k f cs Hf Hcs)|]. intros rd cs1 [Hcs1 Hserves].
  destruct (take_ok _ _ _ _ _ _ Hserves Hb Hsf Hbf) as [(t & Ht & Htk) _].
  eapply wp_lift_bind; [exact Ht|]. eapply wp_seq; [by apply IH; [lia|]|]. intros ts cs3 [Hcs3 Hts].
  apply wp_ret. split; [done|]. constructor; [|done]. by eapply taken_in_group.
Qed.

Lemma mjoin_filter_nonempty {A} (ls : list (list A)) : mjoin (filter (λ l, l ≠ []) ls) = mjoin ls.
Proof.
  induction ls as [|l ls IH]; [done|]. destruct l as [|x l].
  - by rewrite filter_cons_False by tauto.
  - rewrite filter_cons_True by done. simpl. by rewrite IH.
Qed.

Lemma take_rows_from_files_spec rows cs :
  rows ≠ [] → StronglySorted Z.lt rows → Forall in_group rows → caches_ok cs →
  wp (take_rows_from_files r rows) cs (λ t cs', caches_ok cs' ∧ taken fields (group_column g) rows t) (λ _ _, False).
Proof.
  intros Hne Hs Hin Hcs. unfold take_rows_from_files.
  eapply wp_lift_bind; [by apply indices_in_files_spec|]. eapply wp_seq; [by apply take_from_files_spec|]. intros ts cs2 [Hcs2 Hts].
  assert (mjoin (filter (λ l, l ≠ []) (rows_of rows <$> seq 0 (length (files g)))) = rows) as Hjoin.
  { rewrite mjoin_filter_nonempty. by apply rows_by_file. }
  destruct (concatenate_taken _ _ _ _ ltac:(intros Heq; rewrite Heq in Hjoin; by apply Hne) Hts) as (t & Ht & Htk).
  rewrite Hjoin in Htk. by eapply wp_lift.
Qed.

Lemma split_rows_join rows n : mjoin (split_row_indices rows n) = rows.
Proof.
  unfold split_row_indices. destruct ((n =? 0)%nat || (length rows <? n)%nat) eqn:Hc; [by simpl; rewrite app_nil_r|].
  apply orb_false_iff in Hc as [Hn%Nat.eqb_neq Hlen%Nat.ltb_ge]. set (avg := (length rows / n)%nat).
  assert (n * avg ≤ length rows)%nat as Havg by (apply Nat.Div0.mul_div_le).
  assert (∀ m, (m < n)%nat → mjoin ((λ i, take ((if (i =? n - 1)%nat then length rows else (i + 1) * avg) - i * avg)
    (drop (i * avg) rows)) <$> seq 0 m) = take (m * avg) rows) as Hpre.
  { induction m as [|m IH]; intros Hm; [done|]. rewrite seq_S, fmap_app, join_app, IH by lia. simpl.
    rewrite (proj2 (Nat.eqb_neq m (n - 1))) by lia. rewrite app_nil_r.
    replace ((m + 1) * avg - m * avg)%nat with avg by lia. rewrite take_take_drop. f_equal. lia. }
  replace (seq 0 n) with (seq 0 (S (n - 1))) by (f_equal; lia). rewrite seq_S, Nat.add_0_l.
  rewrite fmap_app, join_app, Hpre by lia. simpl.
  rewrite Nat.eqb_refl, app_nil_r. rewrite <- (take_drop ((n - 1) * avg) rows) at 4. f_equal.
  apply take_ge. rewrite length_drop. lia.
Qed.

Lemma split_rows_nonempty rows n : rows ≠ [] → Forall (λ l, l ≠ []) (split_row_indices rows n).
Proof.
  intros Hne. unfold split_row_indices. destruct ((n =? 0)%nat || (length rows <? n)%nat) eqn:Hc; [by repeat constructor|].
  apply orb_false_iff in Hc as [Hn%Nat.eqb_neq Hlen%Nat.ltb_ge]. rewrite Forall_fmap. apply Forall_forall.
  intros i Hi%elem_of_seq. simpl. set (avg := (length rows / n)%nat).
  assert (n * avg ≤ length rows)%nat as Havg by (apply Nat.Div0.mul_div_le).
  assert (1 ≤ avg)%nat as H1 by (apply Nat.div_le_lower_bound; lia).
  intros Hnil. apply (f_equal length) in Hnil. rewrite length_take, length_drop in Hnil. simpl in Hnil.
  assert ((i + 1) * avg ≤ length rows)%nat by nia. destruct (i =? n - 1)%nat; nia.
Qed.

Lemma sorted_pieces rows (pieces : list (list Z)) :
  StronglySorted Z.lt rows → mjoin pieces = rows → Forall (StronglySorted Z.lt) pieces.
Proof.
  revert rows. induction pieces as [|l pieces IH]; intros rows Hs Heq; [constructor|]. simpl in Heq. subst rows.
  constructor; [by eapply StronglySorted_app_1_l|]. eapply IH; [|done]. by eapply StronglySorted_app_1_r.
Qed.

Lemma run_tasks_spec pieces cs :
  Forall (λ l, l ≠ [] ∧ StronglySorted Z.lt l ∧ Forall in_group l) pieces → caches_ok cs →
  wp (run_tasks r pieces) cs (λ results cs', caches_ok cs' ∧
    ∃ ts, results = inl <$> ts ∧ Forall2 (taken fields (group_column g)) pieces ts) (λ _ _, False).
Proof.
  intros Hp. revert cs. induction Hp as [|rows pieces (Hne & Hs & Hin) Hp IH]; intros cs Hcs; cbn [run_tasks].
  { apply wp_ret. split; [done|]. by exists []. }
  pose proof (take_rows_from_files_spec rows cs Hne Hs Hin Hcs) as Ht.
  eapply wp_seq with (Q0 := λ res cs', caches_ok cs' ∧ ∃ t, res = inl t ∧ taken fields (group_column g) rows t).
  { unfold wp, catch in *. destruct (take_rows_from_files r rows cs) as [cs' [t| |]]; [|done..]. naive_solver. }
  intros res cs1 (Hcs1 & t & -> & Htk). eapply wp_seq; [by apply IH|]. intros results cs2 (Hcs2 & ts & -> & Hts).
  apply wp_ret. split; [done|]. exists (t :: ts). split; [done|by constructor].
Qed.

Lemma first_error_ok {A} (l : list A) : first_error (inl <$> l) = Ok l.
Proof.
  unfold first_error. assert (∀ acc, fold_out (E := Status) (λ acc (res : A + Status), match res with inl a => Ok (acc ++ [a]) | inr e => Err e end)
    (inl <$> l) acc = Ok (acc ++ l)) as Hgen; [|by rewrite Hgen].
  induction l as [|a l IH]; intros acc; [by rewrite app_nil_r|]. rewrite fmap_cons. cbn [fold_out].
  by rewrite bind_Ok, IH, <- app_assoc.
Qed.

Lemma validate_sorted_ok rows : StronglySorted Z.lt rows → validate_sorted_unique_row_indices rows = Ok tt.
Proof.
  induction 1 as [|a rows Hs IH Ha]; [done|]. destruct rows as [|b rows]; [done|]. cbn [validate_sorted_unique_row_indices].
  apply Forall_cons in Ha as [Ha _]. by rewrite (proj2 (Z.leb_gt _ _) Ha).
Qed.

Lemma validate_rows_ok rows : Forall in_group rows → validate_row_indices r rows = Ok tt.
Proof.
  unfold validate_row_indices. induction 1 as [|row rows Hr Hrows IH]; [done|]. simpl.
  rewrite (in_group_located row Hr). destruct Hr as [[H0 _] _]. by rewrite (proj2 (Z.ltb_ge _ _) H0), !bind_Ok.
Qed.

(** A synchronous request, with any number of threads. *)
Lemma lazy_take_spec rows parallelism num_threads cs :
  rows ≠ [] → StronglySorted Z.lt rows → Forall in_group rows → caches_ok cs →
  wp (lazy_take r rows parallelism num_threads) cs
    (λ t cs', caches_ok cs' ∧ taken fields (group_column g) rows t) (λ _ _, False).
Proof.
  intros Hne Hs Hin Hcs. unfold lazy_take.
  eapply wp_lift_bind; [by apply validate_sorted_ok|]. eapply wp_lift_bind; [by apply validate_rows_ok|].
  destruct (parallelism <=? 1); [by apply take_rows_from_files_spec|].
  pose proof (split_rows_join rows num_threads) as Hj. pose proof (split_rows_nonempty rows num_threads Hne) as Hn.
  pose proof (sorted_pieces rows _ Hs Hj) as Hsp.
  eapply wp_seq; [apply run_tasks_spec; [|done]|].
  { apply Forall_forall. intros l Hl. split_and!; [by eapply Forall_forall in Hn|by eapply Forall_forall in Hsp|].
    apply Forall_forall. intros row Hrow. eapply Forall_forall in Hin; [done|]. rewrite <- Hj.
    apply list_elem_of_join. by exists l. }
  intros results cs1 (Hcs1 & ts & -> & Hts). eapply wp_lift_bind; [apply first_error_ok|].
  destruct (concatenate_taken _ _ _ _ ltac:(intros Heq; rewrite Heq in Hj; by apply Hne) Hts) as (t & Ht & Htk).
  rewrite Hj in Htk. by eapply wp_lift.
Qed.

(** One asynchronous task: rows of one file. *)
Lemma lazy_take_async_spec task cs :
  tt_row_indices task ≠ [] → StronglySorted Z.lt (tt_row_indices task) → Forall in_group (tt_row_indices task) →
  Forall (λ row, (row_loc row).1 = tt_file_index task) (tt_row_indices task) → caches_ok cs →
  wp (lazy_take_async r task) cs
    (λ t cs', caches_ok cs' ∧ taken fields (group_column g) (tt_row_indices task) t) (λ _ _, False).
Proof.
  intros Hne Hs Hin Hfile Hcs. unfold lazy_take_async. set (rows := tt_row_indices task) in *.
  assert (∀ l acc, Forall in_group l → Forall (λ row, (row_loc row).1 = tt_file_index task) l →
    fold_out (λ acc global_row, loc ← get_index_and_offset_of_file (files g) global_row;
      if negb (loc.1 =? tt_file_index task)%nat then Err status_Invalid else Ok (acc ++ [loc.2])) l acc
    = Ok (acc ++ ((λ row, (row_loc row).2) <$> l))) as Hfold.
  { induction l as [|row l IH]; intros acc Hl Hlf; [by rewrite app_nil_r|]. apply Forall_cons in Hl as [Hr Hl].
    apply Forall_cons in Hlf as [Hrf Hlf]. cbn [fold_out]. rewrite (in_group_located row Hr), bind_Ok.
    rewrite (proj2 (Nat.eqb_eq _ _) Hrf). cbn [negb]. by rewrite bind_Ok, IH, fmap_cons, <- app_assoc. }
  eapply wp_lift_bind; [by apply Hfold|]. simpl.
  assert (∃ f, files g !! tt_file_index task = Some f) as [f Hf].
  { destruct rows as [|row rows']; [done|]. apply Forall_cons in Hin as [Hr _]. apply Forall_cons in Hfile as [<- _].
    destruct (loc_file row Hr) as (f & Hf & _). by exists f. }
  destruct (file_request _ _ _ Hs Hin Hfile Hf) as [Hsf Hbf].
  eapply wp_seq; [apply (lazy_open_spec (tt_file_index task) f cs Hf Hcs)|]. intros rd cs1 [Hcs1 Hserves].
  assert ((λ row, (row_loc row).2) <$> rows ≠ []) as Hne' by (by destruct rows).
  destruct (take_ok _ _ _ _ _ _ Hserves Hne' Hsf Hbf) as [_ (t & Ht & Htk)].
  eapply wp_lift; [done|]. split; [done|]. by eapply taken_in_group.
Qed.
End one_group.
End lazy.
