(* ===== verification/Reader.v ===== *)
(** * The top-level reader

    [ReaderImpl] of [reader.cpp]: the columns of a request are resolved against
    the schema and the column groups, and the groups that hold them are scanned,
    opened chunk by chunk, or asked for rows.  [take] asks the lazy readers of
    the groups one after another; [take_async] plans tasks over all groups and
    files, runs them, and brings what they return into the order of the request.

    Futures run to completion in the order they were created. *)

From S2P Require Import Prelude CppString Status ColumnGroups ArrowData ChunkManager ArrowTables FormatReaderCache ColumnGroupReader AsyncTasks ChunkReader ScanReader LazyReader.

Section projection.
Context `{DataTypes}.

(** The members that do not change. *)
Record ReaderConfig := mkReaderConfig {
  rd_cgs : list (option ColumnGroup);
  rd_schema : option (list Field);
  rd_needed : option (list string);          (* None: a null pointer *)
  rd_cache_enabled : bool;                   (* metadata_cache_enabled(properties) *)
}.

Definition effective_needed_columns (rd : ReaderConfig) (per_call : option (list string)) : option (list string) :=
  match per_call with
  | Some (_ :: _) => per_call
  | _ => rd_needed rd
  end.

(** The check for duplicates. *)
Fixpoint check_distinct (seen : gset string) (names : list string) : outcome Status unit :=
  match names with
  | [] => Ok tt
  | name :: names' =>
      if decide (name ∈ seen) then Err status_Invalid else check_distinct ({[name]} ∪ seen) names'
  end.

(** All columns of the groups, each at its first occurrence. *)
Definition group_columns (cgs : list (option ColumnGroup)) : list string :=
  foldl (λ resolved cg,
    match cg with
    | None => resolved
    | Some g => foldl (λ resolved c, if decide (c ∈ resolved) then resolved else resolved ++ [c]) resolved (columns g)
    end) [] cgs.

Definition resolve_needed_columns (rd : ReaderConfig) (needed_columns : option (list string)) :
    outcome Status (list string) :=
  match needed_columns with
  | Some names => check_distinct ∅ names
  | None => Ok tt
  end;;
  let resolved :=
    match needed_columns, rd_schema rd with
    | Some ((_ :: _) as names), _ => names
    | _, Some schema => fd_name <$> (schema : list Field)
    | _, None => group_columns (rd_cgs rd)
    end in
  match rd_schema rd with
  | Some schema =>
      check_all (λ c, match GetFieldByName schema c with Some _ => Ok tt | None => Err status_Invalid end) resolved
  | None => Ok tt
  end;;
  Ok resolved.

(** The first group that has the column. *)
Fixpoint find_group (c : string) (i : nat) (cgs : list (option ColumnGroup)) : option nat :=
  match cgs with
  | [] => None
  | cg :: cgs' =>
      match cg with
      | Some g => if decide (c ∈ columns g) then Some i else find_group c (S i) cgs'
      | None => find_group c (S i) cgs'
      end
  end.

Definition collect_required_column_group_indices (rd : ReaderConfig) (needed_columns : list string) : list nat :=
  let indices :=
    foldl (λ indices c,
      match find_group c 0 (rd_cgs rd) with
      | Some i => if decide (i ∈ indices) then indices else indices ++ [i]
      | None => indices
      end) [] needed_columns in
  if bool_decide (indices = []) && (0 <? length (rd_cgs rd))%nat then [0%nat] else indices.

Definition column_groups_from_indices (rd : ReaderConfig) (indices : list nat) : outcome Status (list ColumnGroup) :=
  fold_out (λ groups i,
    if (length (rd_cgs rd) <=? i)%nat then Err status_Invalid
    else cg ← deref (rd_cgs rd !! i);
         match cg with
         | Some g => Ok (groups ++ [g])
         | None => Err status_Invalid
         end) indices [].
End projection.

(** ** Scans and chunk readers *)

Section streams.
Context `{DT : DataTypes} `{CS : ChunkSource} `{FR : !FormatReaders}.

(** What [get_record_batch_reader] returns: batches of an empty table, or a scan. *)
Inductive Stream := EmptyStream (schema : list Field) | ScanStream (scan : @Scan _ CS).

(** [row_limit] and [memory_limit] are properties. *)
Definition get_record_batch_reader (rd : ReaderConfig) (predicate : string) (row_limit memory_limit : Z) :
    outcome Status Stream :=
  if bool_decide (rd_cgs rd = []) then
    match rd_schema rd with
    | Some schema => Ok (EmptyStream schema)
    | None => Err status_Invalid
    end
  else
    resolved_columns ← resolve_needed_columns rd (rd_needed rd);
    groups ← column_groups_from_indices rd (collect_required_column_group_indices rd resolved_columns);
    let projected_schema :=
      (λ schema, fd_name <$> omap (GetFieldByName schema) resolved_columns) <$> rd_schema rd in
    scan ← scan_open projected_schema groups resolved_columns predicate row_limit memory_limit;
    Ok (ScanStream scan).

Definition get_chunk_reader (rd : ReaderConfig) (column_group_index : Z) (needed_columns : option (list string)) :
    outcome Status ColumnGroupReader :=
  if (column_group_index <? 0) || (Z.of_nat (length (rd_cgs rd)) <=? column_group_index) then Err status_Invalid
  else
    cg ← deref (rd_cgs rd !! Z.to_nat column_group_index);
    match cg with
    | None => Err status_Invalid
    | Some group =>
        resolved_columns ← resolve_needed_columns rd (effective_needed_columns rd needed_columns);
        chunk_reader_open ((λ schema, fd_name <$> (schema : list Field)) <$> rd_schema rd) group resolved_columns
    end.
End streams.

(** ** Taking rows *)

Section take.
Context `{TO : TableOps} `{!TakeReaders}.

(** The caller's projection of an empty result. *)
Definition build_empty_projected_schema (schema : list Field) (resolved_columns : list string) :
    outcome Status (list Field) :=
  fields_of schema resolved_columns.

Definition create_lazy_readers (rd : ReaderConfig) (groups : list ColumnGroup) (resolved_columns : list string) :
    outcome Status (list LazyReader) :=
  fold_out (λ readers g,
    r ← lazy_create (rd_schema rd) (Some g) resolved_columns (rd_cache_enabled rd) (rd_cache_enabled rd);
    Ok (readers ++ [r])) groups [].

(** The columns of the tables, which have the same number of rows. *)
Definition flatten_tables (tables : list ArrowTable) : outcome Status (list (Field * ChunkedArray)) :=
  res ← fold_out (λ acc table,
    let '(last_row_counts, cols) := acc in
    match last_row_counts with
    | Some n => if tb_num_rows table =? n then Ok (Some n, cols ++ zip (tb_schema table) (tb_columns table))
                else Err status_Invalid
    | None => Ok (Some (tb_num_rows table), cols ++ zip (tb_schema table) (tb_columns table))
    end) tables (None, []);
  Ok res.2.

(** [colname_to_index]: the last column of a name. *)
Definition colname_to_index (cols : list (Field * ChunkedArray)) : gmap string nat :=
  foldl (λ m e, <[fd_name e.2.1 := e.1]> m) ∅ (imap pair cols).

(** A column of the result, found or synthesized. *)
Definition out_column (schema : option (list Field)) (cols : list (Field * ChunkedArray)) (num_rows : Z)
    (colname : string) : outcome Status (Field * ChunkedArray) :=
  match colname_to_index cols !! colname with
  | Some i => deref (cols !! i)
  | None =>
      match schema with
      | None => Err status_Invalid
      | Some s =>
          missing_field ← deref (GetFieldByName s colname);
          null_array ← MakeNullArray (fd_type missing_field) num_rows;
          Ok (missing_field, mkChunked (fd_type missing_field) [null_array])
      end
  end.

Definition build_take_table (tables : list ArrowTable) (row_indices : list Z) (resolved_columns : list string)
    (schema : option (list Field)) : outcome Status ArrowTable :=
  let num_rows := Z.of_nat (length row_indices) in
  cols ← flatten_tables tables;
  out ← fold_out (λ acc c, col ← out_column schema cols num_rows c; Ok (acc ++ [col])) resolved_columns [];
  Ok (mkTable out.*1 out.*2 num_rows).

Definition take_tables_sync (row_indices : list Z) (parallelism : Z) (num_threads : nat) :
    list LazyReader → LZ (list ArrowTable) :=
  fix go readers :=
    match readers with
    | [] => mret []
    | r :: readers' =>
        table ← lazy_take r row_indices parallelism num_threads;
        tables ← go readers';
        mret (table :: tables)
    end.

(** The futures of the tasks. *)
Fixpoint submit_tasks (readers : list LazyReader) (tasks : list TakeTask) : LZ (list (ArrowTable + Status)) :=
  match tasks with
  | [] => mret []
  | task :: tasks' =>
      r ← lift (deref (readers !! tt_reader_index task));
      result ← catch (lazy_take_async r task);
      results ← submit_tasks readers tasks';
      mret (result :: results)
  end.

(** The tables and the positions of every group, in the order of the tasks. *)
Definition collect_results (n : nat) (tasks : list TakeTask) (results : list (ArrowTable + Status)) :
    outcome Status (list (list ArrowTable * list nat)) :=
  fold_out (λ acc e,
    match e.2 with
    | inr err => Err err
    | inl table =>
        if (n <=? tt_reader_index e.1)%nat then Ub
        else Ok (alter (λ p, (p.1 ++ [table], p.2 ++ tt_original_positions e.1)) (tt_reader_index e.1) acc)
    end) (zip tasks results) (replicate n ([], [])).

(** [reorder[positions[i]] = i]. *)
Definition inverse_positions (n : nat) (positions : list nat) : outcome Status (list Z) :=
  fold_out (λ reorder e,
    if (n <=? e.2)%nat then Ub else Ok (<[e.2 := Z.of_nat e.1]> reorder)) (imap pair positions) (replicate n 0).

(** The table of one group, in the order of the request. *)
Definition reorder_group (row_indices : list Z) (p : list ArrowTable * list nat) : outcome Status ArrowTable :=
  concatenated ← ConcatenateTables p.1;
  if negb (length p.2 =? length row_indices)%nat then Err status_Invalid
  else
    reorder ← inverse_positions (length row_indices) p.2;
    CopySelectedRows concatenated reorder.

Definition take_tables_async (row_indices : list Z) (groups : list ColumnGroup) (readers : list LazyReader)
    (parallelism : Z) (strategy : AsyncTaskSplitStrategy) : LZ (list ArrowTable) :=
  all_tasks ← lift (TakeTask_Build (Some <$> groups) row_indices);
  all_tasks ← lift (SplitAsyncTasks take_traits all_tasks (Z.max parallelism 1) strategy);
  results ← submit_tasks readers all_tasks;
  per_cg ← lift (collect_results (length readers) all_tasks results);
  lift (fold_out (λ tables p,
    if bool_decide (p.1 = []) then Ok tables
    else table ← reorder_group row_indices p; Ok (tables ++ [table])) per_cg []).

(** The empty request. *)
Definition take_nothing (rd : ReaderConfig) (needed_columns : option (list string)) : outcome Status ArrowTable :=
  match rd_schema rd with
  | None => Err status_Invalid
  | Some schema =>
      resolved_columns ← resolve_needed_columns rd (effective_needed_columns rd needed_columns);
      fields ← build_empty_projected_schema schema resolved_columns;
      MakeEmptyTable fields
  end.

Definition reader_take_rows (rd : ReaderConfig) (row_indices : list Z) (parallelism : Z) (num_threads : nat)
    (needed_columns : option (list string)) : LZ ArrowTable :=
  if bool_decide (row_indices = []) then lift (take_nothing rd needed_columns)
  else if bool_decide (rd_cgs rd = []) then fail status_Invalid
  else
    resolved_columns ← lift (resolve_needed_columns rd (effective_needed_columns rd needed_columns));
    groups ← lift (column_groups_from_indices rd (collect_required_column_group_indices rd resolved_columns));
    readers ← lift (create_lazy_readers rd groups resolved_columns);
    tables ← take_tables_sync row_indices parallelism num_threads readers;
    lift (build_take_table tables row_indices resolved_columns (rd_schema rd)).

Definition reader_take_rows_async (rd : ReaderConfig) (row_indices : list Z) (parallelism : Z)
    (strategy : AsyncTaskSplitStrategy) (needed_columns : option (list string)) : LZ ArrowTable :=
  if bool_decide (row_indices = []) then lift (take_nothing rd needed_columns)
  else if bool_decide (rd_cgs rd = []) then fail status_Invalid
  else
    resolved_columns ← lift (resolve_needed_columns rd (effective_needed_columns rd needed_columns));
    groups ← lift (column_groups_from_indices rd (collect_required_column_group_indices rd resolved_columns));
    readers ← lift (create_lazy_readers rd groups resolved_columns);
    tables ← take_tables_async row_indices groups readers parallelism strategy;
    lift (build_take_table tables row_indices resolved_columns (rd_schema rd)).

(** A new key retriever starts with a new metadata cache. *)
Definition set_keyretriever : LZ unit := put_st ∅.
End take.
