(* ===== verification/ReaderCorrect.v ===== *)
(** * Taking rows from all column groups

    [take] and [take_async] of [Reader.v] against the promises of the format
    readers: both return, for every column of the request, its rows in the order
    of the request, whatever the parallelism, the number of threads, the way
    tasks are split, and the contents of the metadata cache. *)

From S2P Require Import Prelude CppString Status ColumnGroups ChunkManager ArrowTables FormatReaderCache ColumnGroupReader ColumnGroupChunks AsyncTasks LazyReader LazyReaderCorrect Reader.

Section reader.
Context `{TKL : TakeLaws}.

(** A column [c] of the result: the rows of a group that has it, or nulls. *)
Definition take_column (gs : list ColumnGroup) (rows : list Z) (c : string) (out : list cell) : Prop :=
  (∃ g, g ∈ gs ∧ c ∈ columns g ∧ selected rows (group_column g c) out) ∨
  ((∀ g, g ∈ gs → c ∉ columns g) ∧ out = replicate (length rows) null_cell).

Record take_result (gs : list ColumnGroup) (cols : list string) (rows : list Z) (t : ArrowTable) : Prop := {
  tr_rows : tb_num_rows t = Z.of_nat (length rows);
  tr_names : fd_name <$> tb_schema t = cols;
  tr_cells : Forall2 (take_column gs rows) cols (table_cells t);
}.

(** ** The groups of a request *)

Lemma find_group_spec c i (gs : list ColumnGroup) :
  match find_group c i (Some <$> gs) with
  | Some j => ∃ g, (i ≤ j)%nat ∧ gs !! (j - i)%nat = Some g ∧ c ∈ columns g
  | None => ∀ g, g ∈ gs → c ∉ columns g
  end.
Proof.
  revert i. induction gs as [|g gs IH]; intros i; simpl; [intros g Hg; by apply not_elem_of_nil in Hg|].
  destruct (decide (c ∈ columns g)) as [Hc|Hc].
  { exists g. by rewrite Nat.sub_diag. }
  specialize (IH (S i)). destruct (find_group c (S i) _) as [j|].
  - destruct IH as (g' & Hij & Hg' & Hc'). exists g'. replace (j - i)%nat with (S (j - S i)) by lia. split_and!; [lia|done|done].
  - intros g' [->|Hg']%elem_of_cons; [done|by apply IH].
Qed.

Definition group_index (rd : ReaderConfig) (indices : list nat) (c : string) : list nat :=
  match find_group c 0 (rd_cgs rd) with
  | Some i => if decide (i ∈ indices) then indices else indices ++ [i]
  | None => indices
  end.

Lemma collect_indices_spec rd gs cols indices :
  rd_cgs rd = Some <$> gs → Forall (λ i, (i < length gs)%nat) indices →
  let res := foldl (group_index rd) indices cols in
  Forall (λ i, (i < length gs)%nat) res ∧ indices ⊆ res ∧
  ∀ c i, c ∈ cols → find_group c 0 (rd_cgs rd) = Some i → i ∈ res.
Proof.
  intros Hcgs. revert indices. induction cols as [|c cols IH]; intros indices Hi.
  { split_and!; [done|done|]. intros c i Hc. by apply not_elem_of_nil in Hc. }
  cbn [foldl]. assert (Forall (λ i, (i < length gs)%nat) (group_index rd indices c) ∧ indices ⊆ group_index rd indices c ∧
    ∀ i, find_group c 0 (rd_cgs rd) = Some i → i ∈ group_index rd indices c) as (H1 & H2 & H3).
  { unfold group_index. rewrite Hcgs. pose proof (find_group_spec c 0 gs) as Hf.
    destruct (find_group c 0 (Some <$> gs)) as [i|]; [|done]. destruct Hf as (g & _ & Hg & _).
    rewrite Nat.sub_0_r in Hg. apply lookup_lt_Some in Hg. case_decide.
    - split_and!; [done|done|]. congruence.
    - split_and!; [apply Forall_app_2; [done|by constructor]|set_solver|]. intros j [= <-]. set_solver. }
  destruct (IH _ H1) as (H4 & H5 & H6). split_and!; [done|set_solver|].
  intros c' i [->|Hc']%elem_of_cons Hf; [|by eapply H6]. apply H5. by apply H3.
Qed.

Lemma groups_from_indices_spec rd gs indices acc :
  rd_cgs rd = Some <$> gs → Forall (λ i, (i < length gs)%nat) indices →
  ∃ req, fold_out (λ groups i,
      if (length (rd_cgs rd) <=? i)%nat then Err status_Invalid
      else cg ← deref (rd_cgs rd !! i);
           match cg with Some g => Ok (groups ++ [g]) | None => Err status_Invalid end) indices acc = Ok (acc ++ req) ∧
    Forall2 (λ i g, gs !! i = Some g) indices req.
Proof.
  intros Hcgs Hi. revert acc. induction Hi as [|i indices Hlt Hi IH]; intros acc; cbn [fold_out].
  { exists []. by rewrite app_nil_r. }
  destruct (lookup_lt_is_Some_2 gs i Hlt) as [g Hg].
  assert (rd_cgs rd !! i = Some (Some g)) as -> by (by rewrite Hcgs, list_lookup_fmap, Hg).
  assert ((length (rd_cgs rd) <=? i)%nat = false) as -> by (rewrite Hcgs, length_fmap; by apply Nat.leb_gt).
  cbn [deref]. rewrite !bind_Ok.
  destruct (IH (acc ++ [g])) as (req & Hreq & Hf). exists (g :: req). rewrite <- app_assoc in Hreq. split; [done|by constructor].
Qed.

(** The groups that are asked: some of the groups, at least one, and among them
    one for every column that some group has. *)
Lemma required_groups rd gs cols :
  rd_cgs rd = Some <$> gs → gs ≠ [] →
  ∃ req, column_groups_from_indices rd (collect_required_column_group_indices rd cols) = Ok req ∧
    req ≠ [] ∧ req ⊆ gs ∧
    ∀ c g, c ∈ cols → g ∈ gs → c ∈ columns g → ∃ g', g' ∈ req ∧ c ∈ columns g'.
Proof.
  intros Hcgs Hne. unfold collect_required_column_group_indices.
  change (foldl _ [] cols) with (foldl (group_index rd) [] cols).
  destruct (collect_indices_spec rd gs cols [] Hcgs (Forall_nil_2 _)) as (Hlt & _ & Hall).
  set (idx := foldl (group_index rd) [] cols) in *.
  set (indices := if bool_decide (idx = []) && (0 <? length (rd_cgs rd))%nat then [0%nat] else idx).
  assert (Forall (λ i, (i < length gs)%nat) indices ∧ indices ≠ [] ∧ idx ⊆ indices) as (Hi & Hine & Hsub).
  { unfold indices. rewrite Hcgs, length_fmap. destruct gs as [|g0 gs0]; [done|]. simpl. case_bool_decide as Hb; simpl.
    - split_and!; [apply Forall_cons; split; [lia|apply Forall_nil_2]|done|]. rewrite Hb. set_solver.
    - by split_and!. }
  destruct (groups_from_indices_spec rd gs indices [] Hcgs Hi) as (req & Hreq & Hf). exists req. split_and!; [done|..].
  - intros ->. by apply Forall2_nil_inv_r in Hf.
  - intros g [k Hk]%list_elem_of_lookup. destruct (Forall2_lookup_r _ _ _ _ _ Hf Hk) as (i & _ & Hg).
    by eapply list_elem_of_lookup_2.
  - intros c g Hc Hg Hcg. pose proof (find_group_spec c 0 gs) as Hfind.
    destruct (find_group c 0 (Some <$> gs)) as [i|] eqn:Hi0; [|by destruct (Hfind g Hg)].
    destruct Hfind as (g' & _ & Hg' & Hc'). rewrite Nat.sub_0_r in Hg'. exists g'. split; [|done].
    assert (i ∈ indices) as Hin by (apply Hsub, (Hall c i Hc); by rewrite Hcgs).
    apply list_elem_of_lookup in Hin as [k Hk]. destruct (Forall2_lookup_l _ _ _ _ _ Hf Hk) as (g'' & Hk' & Hg'').
    simplify_eq. by eapply list_elem_of_lookup_2.
Qed.

(** ** The lazy readers *)

Definition schema_has (schema : option (list Field)) (cols : list string) : Prop :=
  ∀ s, schema = Some s → Forall (λ c, is_Some (GetFieldByName s c)) cols.

Lemma fields_of_ok s cols :
  Forall (λ c, is_Some (GetFieldByName s c)) cols →
  ∃ fs, fields_of s cols = Ok fs ∧ Forall2 (λ c f, GetFieldByName s c = Some f) cols fs.
Proof.
  induction 1 as [|c cols [f Hf] Hcols IH]; [by exists []|]. simpl. rewrite Hf. simpl.
  destruct IH as (fs & -> & Hfs). exists (f :: fs). split; [done|by constructor].
Qed.

Record reads_group (cols : list string) (g : ColumnGroup) (r : LazyReader) : Prop := {
  rg_group : lz_group r = g;
  rg_needed : lz_needed r = filter (λ c, c ∈ columns g) cols;
}.

Lemma lazy_create_ok schema g cols b1 b2 :
  schema_has schema cols → known_format (format g) = true →
  ∃ r, lazy_create schema (Some g) cols b1 b2 = Ok r ∧ reads_group cols g r.
Proof.
  intros Hs Hg. unfold lazy_create. rewrite Hg.
  assert (∃ out, match schema with
    | Some s => fs ← fields_of s (filter (λ c, c ∈ columns g) cols); Ok (Some fs) | None => Ok None end = Ok out) as [out ->].
  { destruct schema as [s|] eqn:Hsch; [|by eexists].
    destruct (fields_of_ok s (filter (λ c, c ∈ columns g) cols)) as (fs & -> & _); [|by eexists].
    apply Forall_forall. intros c [_ Hc]%list_elem_of_filter. specialize (Hs s eq_refl). by eapply Forall_forall in Hs. }
  rewrite bind_Ok. eexists. split; [done|by split].
Qed.

Lemma create_lazy_readers_spec rd cols req acc :
  schema_has (rd_schema rd) cols → Forall (λ g, known_format (format g) = true) req →
  ∃ readers, fold_out (λ readers g,
      r ← lazy_create (rd_schema rd) (Some g) cols (rd_cache_enabled rd) (rd_cache_enabled rd);
      Ok (readers ++ [r])) req acc = Ok (acc ++ readers) ∧ Forall2 (reads_group cols) req readers.
Proof.
  intros Hs Hk. revert acc. induction Hk as [|g req Hg Hk IH]; intros acc; cbn [fold_out].
  { exists []. by rewrite app_nil_r. }
  destruct (lazy_create_ok (rd_schema rd) g cols (rd_cache_enabled rd) (rd_cache_enabled rd) Hs Hg) as (r & -> & Hr).
  rewrite !bind_Ok. destruct (IH (acc ++ [r])) as (readers & Hrs & Hf). rewrite <- app_assoc in Hrs.
  eexists. split; [exact Hrs|]. by constructor.
Qed.

Lemma reads_group_sub cols g r : reads_group cols g r → lz_needed r ⊆ columns (lz_group r).
Proof. intros [-> ->] c. by intros [? _]%list_elem_of_filter. Qed.

(** ** The tables of the groups *)

Definition reader_fields (r : LazyReader) : list Field := take_fields (lz_schema r) (lz_group r) (lz_needed r).
Definition reader_took (rows : list Z) (r : LazyReader) (t : ArrowTable) : Prop :=
  taken (reader_fields r) (group_column (lz_group r)) rows t.

(** Rows that every one of the groups has. *)
Definition rows_in (g : ColumnGroup) (rows : list Z) : Prop :=
  Forall (λ row, 0 ≤ row ≤ INT64_MAX ∧ row < group_rows_number g) rows.

Lemma take_tables_sync_spec cols rows parallelism num_threads req readers cs :
  rows ≠ [] → StronglySorted Z.lt rows → Forall (λ g, group_ok g ∧ rows_in g rows) req →
  Forall2 (reads_group cols) req readers → caches_ok cs →
  wp (take_tables_sync rows parallelism num_threads readers) cs
    (λ ts cs', caches_ok cs' ∧ Forall2 (reader_took rows) readers ts) (λ _ _, False).
Proof.
  intros Hne Hs Hreq Hf. revert cs. induction Hf as [|g r req readers Hr Hf IH]; intros cs Hcs; cbn [take_tables_sync].
  { by apply wp_ret. }
  apply Forall_cons in Hreq as [[Hg Hin] Hreq]. pose proof (reads_group_sub _ _ _ Hr) as Hsub.
  destruct Hr as [Hgr _]. subst g.
  eapply wp_seq; [by apply lazy_take_spec|]. intros t cs1 [Hcs1 Ht]. eapply wp_seq; [by apply IH|].
  intros ts cs2 [Hcs2 Hts]. apply wp_ret. split; [done|by constructor].
Qed.

(** ** The table of the request *)

Lemma flatten_tables_spec rows readers ts :
  Forall2 (reader_took rows) readers ts →
  flatten_tables ts = Ok (mjoin ((λ t, zip (tb_schema t) (tb_columns t)) <$> ts)).
Proof.
  intros Hf. unfold flatten_tables.
  set (F := λ (acc : option Z * list (Field * ChunkedArray)) (table : ArrowTable), _).
  assert (∀ n acc, n = None ∨ n = Some (Z.of_nat (length rows)) → ∃ n', fold_out F ts (n, acc) =
    Ok (n', acc ++ mjoin ((λ t, zip (tb_schema t) (tb_columns t)) <$> ts))) as Hgen.
  { induction Hf as [|r t readers ts Ht Hf IH]; intros n acc Hn; cbn [fold_out].
    - exists n. by rewrite app_nil_r.
    - assert (F (n, acc) t = Ok (Some (Z.of_nat (length rows)), acc ++ zip (tb_schema t) (tb_columns t))) as ->.
      { unfold F. rewrite (tk_rows _ _ _ _ Ht). destruct Hn as [->| ->]; [done|]. by rewrite Z.eqb_refl. }
      rewrite bind_Ok. destruct (IH (Some (Z.of_nat (length rows))) (acc ++ zip (tb_schema t) (tb_columns t))) as [n' ->]; [by right|].
      exists n'. by rewrite <- app_assoc. }
  destruct (Hgen None []) as [n' ->]; [by left|]. done.
Qed.

Lemma colname_to_index_spec (cols : list (Field * ChunkedArray)) c :
  match colname_to_index cols !! c with
  | Some i => ∃ e, cols !! i = Some e ∧ fd_name e.1 = c
  | None => ∀ e, e ∈ cols → fd_name e.1 ≠ c
  end.
Proof.
  unfold colname_to_index. induction cols as [|e cols IH] using rev_ind.
  { simpl. rewrite lookup_empty. intros e He. by apply not_elem_of_nil in He. }
  rewrite imap_app, foldl_app. simpl. rewrite Nat.add_0_r. destruct (decide (fd_name e.1 = c)) as [<-|Hne].
  - rewrite lookup_insert_eq. exists e. rewrite lookup_app_r by lia. by rewrite Nat.sub_diag.
  - rewrite lookup_insert_ne by done. destruct (foldl _ ∅ (imap pair cols) !! c) as [i|].
    + destruct IH as (e' & He' & Hc). exists e'. split; [by apply lookup_app_l_Some|done].
    + intros e' [He'|He']%elem_of_app; [by apply IH|]. apply list_elem_of_singleton in He'. by subst.
Qed.

Lemma GetFieldByName_name s c f : GetFieldByName s c = Some f → fd_name f = c.
Proof.
  unfold GetFieldByName. destruct (filter _ s) as [|x [|y l]] eqn:Hf; try done. intros [= <-].
  assert (x ∈ filter (λ f, fd_name f = c) s) as [Hx _]%list_elem_of_filter by (rewrite Hf; set_solver). done.
Qed.

(** The columns of the tables are columns of the groups, *)
Lemma table_column_sound cols rows r t g e :
  reads_group cols g r → reader_took rows r t → e ∈ zip (tb_schema t) (tb_columns t) →
  fd_name e.1 ∈ columns g ∧ selected rows (group_column g (fd_name e.1)) (column_cells e.2).
Proof.
  intros Hr Ht [j Hj]%list_elem_of_lookup. destruct e as [fd col].
  apply lookup_zip_with_Some in Hj as (fd' & col' & [= <- <-] & Hfd & Hcol). simpl.
  rewrite (tk_schema _ _ _ _ Ht) in Hfd.
  destruct (take_fields_ok (lz_schema r) (lz_group r) (lz_needed r) (reads_group_sub _ _ _ Hr)) as (_ & _ & Hsub & _).
  destruct Hr as [<- _]. split.
  - apply Hsub, list_elem_of_fmap_2. by eapply list_elem_of_lookup_2.
  - apply (Forall2_lookup_lr _ _ _ _ _ _ (tk_cells _ _ _ _ Ht) Hfd). unfold table_cells. by rewrite list_lookup_fmap, Hcol.
Qed.

(** and include the requested ones. *)
Lemma table_column_complete cols rows r t g c :
  reads_group cols g r → reader_took rows r t → c ∈ cols → c ∈ columns g →
  ∃ e, e ∈ zip (tb_schema t) (tb_columns t) ∧ fd_name e.1 = c.
Proof.
  intros Hr Ht Hc Hcg.
  destruct (take_fields_ok (lz_schema r) (lz_group r) (lz_needed r) (reads_group_sub _ _ _ Hr)) as (_ & Hsup & _ & _).
  assert (c ∈ lz_needed r) as Hn%Hsup by (rewrite (rg_needed _ _ _ Hr); by apply list_elem_of_filter).
  apply list_elem_of_fmap in Hn as (fd & -> & [j Hj]%list_elem_of_lookup).
  fold (reader_fields r) in Hj. rewrite <- (tk_schema _ _ _ _ Ht) in Hj.
  destruct (Forall2_lookup_l _ _ _ _ _ (to_types _ (tk_ok _ _ _ _ Ht)) Hj) as (col & Hcol & _).
  exists (fd, col). split; [|done]. apply list_elem_of_lookup. exists j. apply lookup_zip_with_Some. eauto.
Qed.

Lemma build_take_table_spec gs cols rows req readers ts schema :
  Forall2 (reads_group cols) req readers → Forall2 (reader_took rows) readers ts →
  req ⊆ gs → (∀ c g, c ∈ cols → g ∈ gs → c ∈ columns g → ∃ g', g' ∈ req ∧ c ∈ columns g') →
  schema_has schema cols → (schema = None → ∀ c, c ∈ cols → ∃ g, g ∈ gs ∧ c ∈ columns g) →
  ∃ t, build_take_table ts rows cols schema = Ok t ∧ take_result gs cols rows t.
Proof.
  intros Hreads Htook Hsub Hreq Hsch Hnone. unfold build_take_table. rewrite (flatten_tables_spec _ _ _ Htook), bind_Ok.
  set (all := mjoin ((λ t, zip (tb_schema t) (tb_columns t)) <$> ts)).
  assert (∀ c, c ∈ cols → ∃ fd col, out_column schema all (Z.of_nat (length rows)) c = Ok (fd, col) ∧
    fd_name fd = c ∧ take_column gs rows c (column_cells col)) as Hout.
  { intros c Hc. unfold out_column. pose proof (colname_to_index_spec all c) as Hidx.
    destruct (colname_to_index all !! c) as [i|].
    - destruct Hidx as ([fd col] & Hi & Hname). simpl in Hname. rewrite Hi. exists fd, col. split_and!; [done|done|].
      left. apply list_elem_of_lookup_2 in Hi. unfold all in Hi. apply list_elem_of_join in Hi as (l & Hi & Hl).
      apply list_elem_of_fmap in Hl as (t & -> & [k Hk]%list_elem_of_lookup).
      destruct (Forall2_lookup_r _ _ _ _ _ Htook Hk) as (r & Hr & Ht).
      destruct (Forall2_lookup_r _ _ _ _ _ Hreads Hr) as (g & Hg & Hgr).
      destruct (table_column_sound _ _ _ _ _ _ Hgr Ht Hi) as [H1 H2]. simpl in *. rewrite Hname in H1, H2.
      exists g. split_and!; [|done|done]. apply Hsub. by eapply list_elem_of_lookup_2.
    - assert (∀ g, g ∈ gs → c ∉ columns g) as Hno.
      { intros g Hg Hcg. destruct (Hreq c g Hc Hg Hcg) as (g' & [k Hk]%list_elem_of_lookup & Hc').
        destruct (Forall2_lookup_l _ _ _ _ _ Hreads Hk) as (r & Hr & Hgr).
        destruct (Forall2_lookup_l _ _ _ _ _ Htook Hr) as (t & Hkt & Ht).
        destruct (table_column_complete _ _ _ _ _ _ Hgr Ht Hc Hc') as (e & He & Hname).
        apply (Hidx e); [|done]. unfold all. apply list_elem_of_join. eexists. split; [exact He|].
        apply list_elem_of_fmap. exists t. split; [done|]. by eapply list_elem_of_lookup_2. }
      destruct schema as [s|]; [|destruct (Hnone eq_refl c Hc) as (g & Hg & Hcg); by destruct (Hno g Hg)].
      specialize (Hsch s eq_refl). eapply Forall_forall in Hsch; [|done]. destruct Hsch as [f Hf]. rewrite Hf. cbn [deref].
      rewrite bind_Ok. destruct (null_array_ok (fd_type f) (Z.of_nat (length rows))) as (a & -> & Ha); [lia|].
      rewrite bind_Ok. eexists _, _. split_and!; [done|by eapply GetFieldByName_name|]. right. split; [done|].
      unfold column_cells. simpl. by rewrite app_nil_r, Ha, Nat2Z.id. }
  assert (∀ cs acc, (∀ c, c ∈ cs → c ∈ cols) → ∃ out, fold_out (λ acc c, col ← out_column schema all (Z.of_nat (length rows)) c; Ok (acc ++ [col])) cs acc
    = Ok (acc ++ out) ∧ Forall2 (λ c e, fd_name e.1 = c ∧ take_column gs rows c (column_cells e.2)) cs out) as Hfold.
  { induction cs as [|c cs IH]; intros acc Hcs; cbn [fold_out]; [exists []; by rewrite app_nil_r|].
    destruct (Hout c) as (fd & col & -> & Hn & Hcol); [apply Hcs; set_solver|]. rewrite !bind_Ok.
    destruct (IH (acc ++ [(fd, col)])) as (out & -> & Hf); [set_solver|]. exists ((fd, col) :: out).
    rewrite <- app_assoc. split; [done|by constructor]. }
  destruct (Hfold cols [] ltac:(done)) as (out & -> & Hf). rewrite bind_Ok. eexists. split; [done|]. split; simpl; [done|..].
  - clear -Hf. induction Hf as [|c e cols out [Hn _] Hf IH]; [done|]. rewrite !fmap_cons. by rewrite IH, Hn.
  - unfold table_cells. simpl. rewrite <- list_fmap_compose. apply Forall2_fmap_r. eapply Forall2_impl; [exact Hf|].
    by intros c e [_ ?].
Qed.
End reader.
