(* ===== verification/TakeAsync.v ===== *)
(** * Asynchronous requests of rows

    The fan-out of [take_async]: the tasks that [TakeTask::Build] plans keep the
    rows of a file in order, splitting cuts them in two, and the positions that
    travel with the rows bring the tables of every group back into the order of
    the request.  The theorems on [take] and [take_async] are here. *)

From S2P Require Import Prelude CppString Status ColumnGroups ChunkManager ArrowTables FormatReaderCache ColumnGroupReader ColumnGroupChunks AsyncTasks LazyReader LazyReaderCorrect Reader ReaderCorrect.

(** ** Tasks of sorted rows *)

Definition sorted_task (t : TakeTask) : Prop :=
  take_task_ok t ∧ StronglySorted Z.lt (tt_row_indices t).

Lemma items_rows t : take_task_ok t → (λ x, x.2.1) <$> take_items t = tt_row_indices t.
Proof.
  intros [Hl _]. unfold take_items. rewrite <- list_fmap_compose.
  change ((λ x, x.2.1) ∘ pair (tt_reader_index t, tt_file_index t)) with (@fst Z nat). by rewrite fst_zip by lia.
Qed.

Lemma items_positions t : take_task_ok t → (λ x, x.2.2) <$> take_items t = tt_original_positions t.
Proof.
  intros [Hl _]. unfold take_items. rewrite <- list_fmap_compose.
  change ((λ x, x.2.2) ∘ pair (tt_reader_index t, tt_file_index t)) with (@snd Z nat). by rewrite snd_zip by lia.
Qed.

(** Splitting keeps the rows of a task sorted. *)
Definition sorted_split_laws : SplitLaws take_traits (nat * nat * (Z * nat)).
Proof.
  refine {| items := take_items; task_ok := sorted_task |}.
  - intros t [Ht _]. by apply (items_nonempty (SplitLaws := take_split_laws)).
  - intros t [Ht _]. by apply (size_items (SplitLaws := take_split_laws)).
  - intros t [Ht _]. by apply (can_split_items (SplitLaws := take_split_laws)).
  - intros t [Ht Hs] Hc. destruct (split_items (SplitLaws := take_split_laws) t Ht Hc) as (l & r & Hsp & Hl & Hr & Hi).
    exists l, r. simpl in Hi. rewrite <- (items_rows t Ht), <- Hi, fmap_app, !items_rows in Hs by done.
    split_and!; [done|..|done]; (split; [done|]).
    + by eapply StronglySorted_app_1_l.
    + by eapply StronglySorted_app_1_r.
Defined.

Lemma map_push_Forall {A} (P R : list A → Prop) k x m :
  R [x] → (∀ l, P l → R (l ++ [x])) → (∀ l, P l → R l) →
  Forall (λ e, P e.2) m → Forall (λ e, R e.2) (map_push k x m).
Proof.
  intros H1 Hs Hk Hm. induction Hm as [|[k' l] m Hl Hm IH]; simpl; [by constructor|].
  assert (Forall (λ e, R e.2) m) by (eapply Forall_impl; [exact Hm|]; auto).
  destruct (k <? k')%nat; [|destruct (k =? k')%nat]; repeat (apply Forall_cons; split); simpl in *; auto.
Qed.

(** Rows that are pushed in order stay in order. *)
Lemma group_rows_sorted fs (l : list (nat * Z)) groups groups' :
  StronglySorted Z.lt l.*2 →
  Forall (λ e : nat * list (Z * nat), StronglySorted Z.lt e.2.*1 ∧ Forall (λ x, Forall (Z.lt x) l.*2) e.2.*1) groups →
  fold_out (λ groups e, file_index ← find_file e.2 0 fs; Ok (map_push file_index (e.2, e.1) groups)) l groups = Ok (E := Status) groups' →
  Forall (λ e, StronglySorted Z.lt e.2.*1) groups'.
Proof.
  revert groups. induction l as [|[pos row] l IH]; intros groups Hs Hg Hf; cbn [fold_out] in Hf.
  { injection Hf as <-. eapply Forall_impl; [exact Hg|]. by intros e [? _]. }
  apply bind_Ok_inv in Hf as (groups1 & H1 & Hf). apply bind_Ok_inv in H1 as (fi & _ & [= <-]). simpl in Hs.
  apply StronglySorted_inv in Hs as [Hs Hrow]. eapply IH; [done| |exact Hf].
  apply (map_push_Forall (λ q, StronglySorted Z.lt q.*1 ∧ Forall (λ x, Forall (Z.lt x) ((pos, row) :: l).*2) q.*1)
    (λ q, StronglySorted Z.lt q.*1 ∧ Forall (λ x, Forall (Z.lt x) l.*2) q.*1)); [..|exact Hg]; simpl.
  - split; [repeat constructor|by constructor].
  - intros q [Hq Hx]. rewrite fmap_app. simpl. split.
    + apply StronglySorted_app_2; [|done|repeat constructor]. intros x1 x2 H1 ->%list_elem_of_singleton.
      eapply Forall_forall in Hx; [|done]. by apply Forall_cons in Hx as [? _].
    + apply Forall_app. split; [|by constructor]. eapply Forall_impl; [exact Hx|]. intros x Hx'. by apply Forall_cons in Hx' as [_ ?].
  - intros q [Hq Hx]. split; [done|]. eapply Forall_impl; [exact Hx|]. intros x Hx'. by apply Forall_cons in Hx' as [_ ?].
Qed.

Lemma imap_pair_snd {A} (l : list A) : (imap pair l).*2 = l.
Proof. apply list_eq. intros i. rewrite list_lookup_fmap, list_lookup_imap. by destruct (l !! i). Qed.

Lemma build_sorted gs rows ts :
  StronglySorted Z.lt rows → TakeTask_Build gs rows = Ok ts →
  Forall (λ t, StronglySorted Z.lt (tt_row_indices t)) ts.
Proof.
  intros Hs Hb. unfold TakeTask_Build in Hb. apply bind_Ok_inv in Hb as (? & _ & Hb).
  eapply (fold_out_invariant (Forall (λ t, StronglySorted Z.lt (tt_row_indices t)))); [apply Forall_nil_2| |exact Hb].
  intros [ri [g|]] ts1 ts2 _ Hts1 Hf; simpl in Hf; [|done]. apply bind_Ok_inv in Hf as (ts3 & H3 & [= <-]).
  apply Forall_app. split; [done|]. unfold take_tasks_of_group in H3. apply bind_Ok_inv in H3 as (groups & Hgr & [= <-]).
  rewrite Forall_fmap. eapply Forall_impl; [eapply (group_rows_sorted (files g) (imap pair rows) []); [by rewrite imap_pair_snd|apply Forall_nil_2|exact Hgr]|].
  by intros e.
Qed.

(** ** Inverting the positions *)

Lemma inverse_positions_spec n positions :
  NoDup positions → Forall (λ p, (p < n)%nat) positions →
  ∃ reorder, inverse_positions n positions = Ok reorder ∧ length reorder = n ∧
    ∀ i p, positions !! i = Some p → reorder !! p = Some (Z.of_nat i).
Proof.
  unfold inverse_positions. induction positions as [|p positions IH] using rev_ind; intros Hnd Hlt.
  { exists (replicate n 0). split_and!; [done|apply length_replicate|done]. }
  apply NoDup_app in Hnd as (Hnd & Hni & _). apply Forall_app in Hlt as [Hlt Hp]. apply Forall_cons in Hp as [Hp _].
  destruct (IH Hnd Hlt) as (reorder & Hr & Hlen & Hinv).
  rewrite imap_app, fold_out_app, Hr, bind_Ok. simpl. rewrite Nat.add_0_r, (proj2 (Nat.leb_gt _ _) Hp). simpl.
  exists (<[p := Z.of_nat (length positions)]> reorder). split_and!; [done|by rewrite length_insert|].
  intros i q Hi. apply lookup_app_Some in Hi as [Hi|[Hge Hi]].
  - rewrite list_lookup_insert_ne; [by apply Hinv|]. intros ->. apply (Hni q); [by eapply list_elem_of_lookup_2|set_solver].
  - apply list_lookup_singleton_Some in Hi as [Hz <-]. rewrite list_lookup_insert_eq by lia. do 2 f_equal. lia.
Qed.

(** Rows with their positions, in any order, say where each row of the request
    is. *)
Lemma positions_inverse (rows R : list Z) (P : list nat) :
  length R = length P → zip R P ≡ₚ imap (λ pos row, (row, pos)) rows →
  length P = length rows ∧ NoDup P ∧ Forall (λ p, (p < length rows)%nat) P ∧
  ∀ p row, rows !! p = Some row → ∃ i, P !! i = Some p ∧ R !! i = Some row.
Proof.
  intros Hl Hp. assert (P ≡ₚ seq 0 (length rows)) as HP.
  { apply (fmap_Permutation snd) in Hp. rewrite snd_zip in Hp by lia. rewrite Hp. apply reflexive_eq, list_eq. intros i.
    rewrite list_lookup_fmap, list_lookup_imap. destruct (rows !! i) as [row|] eqn:Hi.
    - simpl. symmetry. apply lookup_seq. split; [done|by eapply lookup_lt_Some].
    - simpl. symmetry. apply lookup_seq_ge. by apply lookup_ge_None_1. }
  split_and!.
  - by rewrite HP, length_seq.
  - rewrite HP. apply NoDup_seq.
  - rewrite HP. apply Forall_forall. intros p Hin%elem_of_seq. lia.
  - intros p row Hrow. assert ((row, p) ∈ zip R P) as [i Hi]%list_elem_of_lookup.
    { rewrite Hp. apply list_elem_of_lookup. exists p. by rewrite list_lookup_imap, Hrow. }
    apply lookup_zip_with_Some in Hi as (x & y & [= <- <-] & HR & HPi). eauto.
Qed.

Section async.
Context `{TKL : TakeLaws}.

(** ** Running the tasks *)

(** A task that asks a reader for rows of one of its files. *)
Definition task_for (readers : list LazyReader) (rows : list Z) (t : TakeTask) : Prop :=
  sorted_task t ∧ ∃ r, readers !! tt_reader_index t = Some r ∧ rows_in (lz_group r) (tt_row_indices t) ∧
    Forall (λ row, file_of (lz_group r) row = tt_file_index t) (tt_row_indices t).

Lemma file_ids_positions i fs : file_ids i fs = (row_positions i fs).*1.
Proof.
  revert i. induction fs as [|f fs IH]; intros i; simpl; [done|]. rewrite fmap_app, <- IH. f_equal.
  rewrite <- list_fmap_compose. apply list_eq. intros j. rewrite list_lookup_fmap.
  destruct (decide (j < Z.to_nat (end_index f - start_index f))%nat) as [Hj|Hj].
  - rewrite lookup_replicate_2 by done. destruct (lookup_lt_is_Some_2 (seg (start_index f) (end_index f)) j) as [x ->]; [|done].
    by rewrite length_seg.
  - rewrite !lookup_ge_None_2; [done|rewrite length_seg; lia|rewrite length_replicate; lia].
Qed.

Lemma file_of_loc r row : file_of (lz_group r) row = (row_loc r row).1.
Proof.
  unfold file_of, row_loc. rewrite file_ids_positions, list_lookup_fmap.
  by destruct (row_positions 0 (files (lz_group r)) !! Z.to_nat row).
Qed.

Lemma submit_tasks_spec readers rows tasks cs :
  Forall (λ r, group_ok (lz_group r) ∧ lz_needed r ⊆ columns (lz_group r)) readers →
  Forall (task_for readers rows) tasks → caches_ok cs →
  wp (submit_tasks readers tasks) cs (λ results cs', caches_ok cs' ∧
    ∃ ts, results = inl <$> ts ∧
      Forall2 (λ task t, ∃ r, readers !! tt_reader_index task = Some r ∧ reader_took (tt_row_indices task) r t) tasks ts)
    (λ _ _, False).
Proof.
  intros Hr Ht. revert cs. induction Ht as [|task tasks (Hs & r & Hri & Hin & Hfile) Ht IH]; intros cs Hcs; cbn [submit_tasks].
  { apply wp_ret. split; [done|]. by exists []. }
  eapply wp_lift_bind; [by rewrite Hri|]. pose proof (Forall_lookup_1 _ _ _ _ Hr Hri) as [Hg Hsub].
  assert (wp (lazy_take_async r task) cs (λ t cs', caches_ok cs' ∧ reader_took (tt_row_indices task) r t) (λ _ _, False)) as Htake.
  { destruct Hs as [[_ Hne] Hs]. apply lazy_take_async_spec; try done.
    eapply Forall_impl; [exact Hfile|]. intros row Hrow. by rewrite <- file_of_loc. }
  eapply wp_seq with (Q0 := λ res cs', caches_ok cs' ∧ ∃ t, res = inl t ∧ reader_took (tt_row_indices task) r t).
  { unfold wp, catch in *. destruct (lazy_take_async r task cs) as [cs' [t| |]]; [|done..]. naive_solver. }
  intros res cs1 (Hcs1 & t & -> & Htk). eapply wp_seq; [by apply IH|]. intros results cs2 (Hcs2 & ts & -> & Hts).
  apply wp_ret. split; [done|]. exists (t :: ts). split; [done|]. constructor; [by exists r|done].
Qed.

(** ** Collecting the results *)

Definition of_group (k : nat) (l : list (TakeTask * ArrowTable)) : list (TakeTask * ArrowTable) :=
  filter (λ e, tt_reader_index e.1 = k) l.

Definition group_parts (l : list (TakeTask * ArrowTable)) (k : nat) : list ArrowTable * list nat :=
  ((of_group k l).*2, mjoin (tt_original_positions <$> (of_group k l).*1)).

Lemma collect_results_spec n tasks ts :
  length tasks = length ts → Forall (λ t, (tt_reader_index t < n)%nat) tasks →
  collect_results n tasks (inl <$> ts) = Ok (group_parts (zip tasks ts) <$> seq 0 n).
Proof.
  intros Hlen Hri. unfold collect_results.
  assert (zip tasks (inl <$> ts) = (λ e, (e.1, inl e.2)) <$> zip tasks ts :> list (TakeTask * (ArrowTable + Status))) as ->.
  { clear Hri. revert ts Hlen. induction tasks as [|t tasks IH]; intros [|x ts] Hlen; simplify_eq/=; [done|]. by rewrite IH. }
  assert (Forall (λ e : TakeTask * ArrowTable, (tt_reader_index e.1 < n)%nat) (zip tasks ts)) as Hl.
  { apply Forall_lookup. intros i [t x] Hi. apply lookup_zip_with_Some in Hi as (? & ? & [= <- <-] & Ht & _).
    by eapply Forall_lookup in Hri. }
  clear Hlen Hri. induction (zip tasks ts) as [|[t x] l IH] using rev_ind.
  { simpl. f_equal. generalize 0%nat. induction n as [|n IHn]; intros k; [done|]. simpl. by rewrite <- IHn. }
  apply Forall_app in Hl as [Hl Ht]. apply Forall_cons in Ht as [Ht _]. simpl in Ht.
  rewrite fmap_app, fold_out_app, IH by done. rewrite bind_Ok. cbn [fold_out fmap list_fmap fst snd].
  rewrite (proj2 (Nat.leb_gt _ _) Ht), bind_Ok. f_equal. apply list_eq. intros k.
  destruct (decide (k < n)%nat) as [Hk|Hk].
  2:{ rewrite !lookup_ge_None_2; [done|rewrite length_fmap, length_seq; lia|rewrite length_alter, length_fmap, length_seq; lia]. }
  assert (∀ F : nat → list ArrowTable * list nat, (F <$> seq 0 n) !! k = Some (F k)) as Hseq.
  { intros F. by rewrite list_lookup_fmap, (proj2 (lookup_seq 0 n k k) (conj eq_refl Hk)). }
  destruct (decide (k = tt_reader_index t)) as [->|Hne].
  - rewrite list_lookup_alter_eq, !Hseq. simpl. f_equal. unfold group_parts, of_group.
    rewrite filter_app, filter_cons_True, filter_nil, !fmap_app, join_app by done. simpl. by rewrite app_nil_r.
  - rewrite list_lookup_alter_ne, !Hseq by done. f_equal. unfold group_parts, of_group.
    rewrite filter_app, filter_cons_False, filter_nil, app_nil_r by (simpl; congruence). done.
Qed.

(** ** Bringing the rows of a group in order *)

Lemma taken_reordered flds d rows R P t reorder t' :
  taken flds d R t → length R = length P → zip R P ≡ₚ imap (λ pos row, (row, pos)) rows →
  length reorder = length rows → (∀ i p, P !! i = Some p → reorder !! p = Some (Z.of_nat i)) →
  table_ok t' → tb_schema t' = tb_schema t → tb_num_rows t' = Z.of_nat (length reorder) →
  Forall2 (selected reorder) (table_cells t) (table_cells t') → taken flds d rows t'.
Proof.
  intros [Hok Hs Hr Hc] Hl Hp Hlr Hinv Hok' Hs' Hr' Hc'. destruct (positions_inverse rows R P Hl Hp) as (HlP & _ & _ & Hpos).
  split; [done|congruence|congruence|]. apply Forall2_same_length_lookup_2.
  { by rewrite <- (Forall2_length _ _ _ Hc'), (Forall2_length _ _ _ Hc). }
  intros j fd out' Hfd Hout'. destruct (Forall2_lookup_l _ _ _ _ _ Hc Hfd) as (out & Hout & Hsel).
  pose proof (Forall2_lookup_lr _ _ _ _ _ _ Hc' Hout Hout') as Hsel'.
  unfold selected in *. apply list_eq. intros p. rewrite !list_lookup_fmap.
  apply (f_equal (.!! p)) in Hsel'. rewrite !list_lookup_fmap in Hsel'. rewrite Hsel'.
  destruct (rows !! p) as [row|] eqn:Hrow.
  - destruct (Hpos p row Hrow) as (i & HPi & HRi). rewrite (Hinv i p HPi). simpl. rewrite Nat2Z.id.
    apply (f_equal (.!! i)) in Hsel. rewrite !list_lookup_fmap, HRi in Hsel. simpl in Hsel.
    destruct (out !! i) as [c|]; simpl in Hsel; [|done]. injection Hsel as <-. done.
  - apply lookup_ge_None in Hrow. rewrite lookup_ge_None_2 by lia. done.
Qed.

Lemma reorder_group_spec r rows parts :
  Forall (λ fd, buildable (fd_type fd)) (reader_fields r) → rows ≠ [] →
  Forall (λ e, take_task_ok e.1 ∧ reader_took (tt_row_indices e.1) r e.2) parts →
  mjoin ((λ e, zip (tt_row_indices e.1) (tt_original_positions e.1)) <$> parts) ≡ₚ imap (λ pos row, (row, pos)) rows →
  parts ≠ [] ∧
  ∃ t, reorder_group rows (parts.*2, mjoin (tt_original_positions <$> parts.*1)) = Ok t ∧ reader_took rows r t.
Proof.
  intros Hb Hne Hparts Hp. assert (parts ≠ []) as Hpn.
  { intros ->. apply Permutation_length in Hp. rewrite length_imap in Hp. by destruct rows. }
  split; [done|]. set (R := mjoin ((λ e, tt_row_indices e.1) <$> parts)).
  set (P := mjoin (tt_original_positions <$> parts.*1)).
  assert (length R = length P ∧ zip R P = mjoin ((λ e, zip (tt_row_indices e.1) (tt_original_positions e.1)) <$> parts)) as [Hl Hzip].
  { unfold R, P. clear -Hparts. induction Hparts as [|[t x] parts [[Hl _] _] Hparts IH]; [done|]. rewrite !fmap_cons. simpl in *.
    destruct IH as [IH1 IH2]. split; [rewrite !length_app; lia|]. by rewrite zip_with_app, IH2. }
  rewrite <- Hzip in Hp. destruct (positions_inverse rows R P Hl Hp) as (HlP & Hnd & Hlt & _).
  destruct (inverse_positions_spec (length rows) P Hnd Hlt) as (reorder & Hro & Hlr & Hinv).
  destruct (concatenate_taken (reader_fields r) (group_column (lz_group r)) ((λ e, tt_row_indices e.1) <$> parts) parts.*2)
    as (t & Ht & Htk); [by destruct parts|apply Forall2_fmap, Forall_Forall2_diag; eapply Forall_impl; [exact Hparts|]; by intros e [_ ?]|].
  fold R in Htk. unfold reorder_group. cbn [fst snd]. rewrite Ht, bind_Ok, HlP, Nat.eqb_refl. cbn [negb]. rewrite Hro, bind_Ok.
  destruct (copy_selected_ok t reorder) as (t' & -> & Hok' & Hs' & Hr' & Hc').
  - apply Htk.
  - by rewrite (tk_schema _ _ _ _ Htk).
  - unfold in_table. rewrite (tk_rows _ _ _ _ Htk), Hl, HlP. apply Forall_lookup. intros p i Hi.
    assert (p < length rows)%nat as Hplt by (apply lookup_lt_Some in Hi; lia).
    destruct (lookup_lt_is_Some_2 rows p Hplt) as [row Hrow].
    destruct (positions_inverse rows R P Hl Hp) as (_ & _ & _ & Hpos). destruct (Hpos p row Hrow) as (k & HPk & _).
    rewrite (Hinv k p HPk) in Hi. simplify_eq. apply lookup_lt_Some in HPk. lia.
  - exists t'. split; [done|]. by eapply taken_reordered.
Qed.

(** ** The items of one group *)

Lemma filter_mjoin {A} (P : A → Prop) `{∀ x, Decision (P x)} (ls : list (list A)) :
  filter P (mjoin ls) = mjoin (filter P <$> ls).
Proof. induction ls as [|l ls IH]; [done|]. simpl. by rewrite filter_app, IH. Qed.

Lemma filter_all {A} (P : A → Prop) `{∀ x, Decision (P x)} l : Forall P l → filter P l = l.
Proof. induction 1; [done|]. rewrite filter_cons_True by done. by f_equal. Qed.

Lemma group_items_of rows (gs : list ColumnGroup) k0 k g :
  gs !! k = Some g →
  filter (λ x, x.1.1 = (k0 + k)%nat) (mjoin (imap (λ j, group_items rows (k0 + j)) gs)) = group_items rows (k0 + k) g.
Proof.
  assert (∀ j g', Forall (λ x, x.1.1 = j) (group_items rows j g')) as Hidx.
  { intros j g'. apply Forall_lookup. intros i x. unfold group_items. rewrite list_lookup_imap.
    destruct (rows !! i); simpl; [|done]. by intros [= <-]. }
  intros Hk. rewrite filter_mjoin. revert k0 k Hk. induction gs as [|g0 gs IH]; intros k0 k Hk; [done|].
  rewrite imap_cons, fmap_cons.
  assert (∀ (l : list (nat * nat * (Z * nat))) ls, mjoin (l :: ls) = l ++ mjoin ls) as Hcons by done. rewrite Hcons.
  assert (imap ((λ j, group_items rows (k0 + j)) ∘ S) gs = imap (λ j, group_items rows (S k0 + j)) gs) as ->.
  { apply imap_ext. intros i x _. simpl. f_equal. lia. }
  destruct k as [|k]; [injection Hk as ->|change (gs !! k = Some g) in Hk].
  - rewrite (filter_all _ (group_items rows (k0 + 0) g)) by apply Hidx.
    assert (mjoin (filter (λ x : nat * nat * (Z * nat), x.1.1 = (k0 + 0)%nat) <$> imap (λ j, group_items rows (S k0 + j)) gs) = []) as Hnil.
    { rewrite <- filter_mjoin. apply filter_none, Forall_forall. intros x [l [Hx Hl]]%list_elem_of_join.
      apply elem_of_lookup_imap in Hl as (j & g1 & -> & _). pose proof (Hidx (S k0 + j)%nat g1) as Hf.
      eapply Forall_forall in Hf; [|done]. simpl in *. lia. }
    by rewrite Hnil, app_nil_r.
  - rewrite (filter_none _ (group_items rows (k0 + 0) g0)).
    2:{ eapply Forall_impl; [apply Hidx|]. intros x Hx. simpl in *. lia. }
    rewrite app_nil_l. replace (k0 + S k)%nat with (S k0 + k)%nat by lia. by apply IH.
Qed.

(** The parts of a group, from the items of all tasks. *)
Lemma group_parts_items rows (gs : list ColumnGroup) tasks (ts : list ArrowTable) k g :
  length tasks = length ts → Forall take_task_ok tasks → gs !! k = Some g →
  mjoin (take_items <$> tasks) ≡ₚ mjoin (imap (group_items rows) gs) →
  mjoin ((λ e, zip (tt_row_indices e.1) (tt_original_positions e.1)) <$> of_group k (zip tasks ts))
    ≡ₚ imap (λ pos row, (row, pos)) rows.
Proof.
  intros Hlen Hok Hk Hp. pose proof (group_items_of rows gs 0 k g Hk) as Hg. simpl in Hg.
  apply (filter_Permutation (λ x, x.1.1 = k)) in Hp. change (imap (λ j, group_items rows j) gs) with (imap (group_items rows) gs) in Hg.
  rewrite Hg in Hp. apply (fmap_Permutation snd) in Hp.
  assert (snd <$> group_items rows k g = imap (λ pos row, (row, pos)) rows) as Hr.
  { apply list_eq. intros i. unfold group_items. rewrite list_lookup_fmap, !list_lookup_imap. by destruct (rows !! i). }
  rewrite Hr in Hp. rewrite <- Hp. apply reflexive_eq. clear -Hlen. revert ts Hlen.
  induction tasks as [|t tasks IH]; intros [|x ts] Hlen; simplify_eq/=; [done|].
  unfold of_group. rewrite filter_app, fmap_app.
  assert (∀ P : Prop, Decision P → P ∨ ¬ P) as Hdec by (intros P [|]; auto).
  assert (Forall (λ y, y.1.1 = tt_reader_index t) (take_items t)) as Hidx.
  { unfold take_items. rewrite Forall_fmap. apply Forall_true. done. }
  destruct (decide (tt_reader_index t = k)) as [Heq|Hne].
  - rewrite filter_cons_True by done. rewrite fmap_cons. cbn [fst].
    rewrite (filter_all _ (take_items t)) by (rewrite <- Heq; exact Hidx). unfold take_items at 1. rewrite <- list_fmap_compose.
    change (snd ∘ pair (tt_reader_index t, tt_file_index t)) with (λ x : Z * nat, x). rewrite list_fmap_id.
    cbn [mjoin list_join]. f_equal. by apply IH.
  - rewrite filter_cons_False by done. rewrite (filter_none _ (take_items t)); [by apply IH|].
    eapply Forall_impl; [exact Hidx|]. intros y Hy. simpl in *. congruence.
Qed.

Lemma tasks_for_readers cols rows (req : list ColumnGroup) readers tasks :
  Forall (λ g, rows_in g rows) req → Forall2 (reads_group cols) req readers → Forall sorted_task tasks →
  mjoin (take_items <$> tasks) ≡ₚ mjoin (imap (group_items rows) req) →
  Forall (task_for readers rows) tasks.
Proof.
  intros Hin Hf Hs Hp. apply Forall_forall. intros t Ht. eapply Forall_forall in Hs as Hst; [|done]. destruct Hst as [Hok Hsort].
  assert (∀ row, row ∈ tt_row_indices t → ∃ r, readers !! tt_reader_index t = Some r ∧
    (0 ≤ row ≤ INT64_MAX ∧ row < group_rows_number (lz_group r)) ∧ file_of (lz_group r) row = tt_file_index t) as Hrow.
  { intros row Hrow. rewrite <- (items_rows t Hok) in Hrow. apply list_elem_of_fmap in Hrow as ([[ri fi] [row' pos]] & -> & Hi). simpl.
    assert ((ri, fi, (row', pos)) ∈ mjoin (imap (group_items rows) req)) as Hitem.
    { rewrite <- Hp. apply list_elem_of_join. exists (take_items t). split; [done|]. by apply list_elem_of_fmap_2. }
    assert (ri = tt_reader_index t ∧ fi = tt_file_index t) as [-> ->].
    { unfold take_items in Hi. apply list_elem_of_fmap in Hi as (y & Hy & _). by simplify_eq. }
    apply list_elem_of_join in Hitem as (l & Hil & Hl). apply elem_of_lookup_imap in Hl as (k & g & -> & Hg).
    unfold group_items in Hil. apply elem_of_lookup_imap in Hil as (p & row2 & [= -> -> -> ->] & Hr).
    destruct (Forall2_lookup_l _ _ _ _ _ Hf Hg) as (r & Hkr & [<- _]). exists r.
    pose proof (Forall_lookup_1 _ _ _ _ Hin Hg) as Hing. by pose proof (Forall_lookup_1 _ _ _ _ Hing Hr). }
  split; [done|]. destruct Hok as [_ Hne]. destruct (tt_row_indices t) as [|row0 rest] eqn:Heq; [done|].
  destruct (Hrow row0) as (r & Hr & _); [set_solver|]. exists r. split; [done|]. split; apply Forall_forall; intros row Hrw.
  - destruct (Hrow row Hrw) as (r' & Hr' & Hb & _). by simplify_eq.
  - destruct (Hrow row Hrw) as (r' & Hr' & _ & Hb). by simplify_eq.
Qed.

(** The tables of the groups, in the order of the request. *)
Lemma collect_groups rows readers tasks ts :
  rows ≠ [] → length tasks = length ts → Forall take_task_ok tasks →
  Forall (λ r, Forall (λ fd, buildable (fd_type fd)) (reader_fields r)) readers →
  Forall2 (λ task t, ∃ r, readers !! tt_reader_index task = Some r ∧ reader_took (tt_row_indices task) r t) tasks ts →
  (∀ k r, readers !! k = Some r →
    mjoin ((λ e, zip (tt_row_indices e.1) (tt_original_positions e.1)) <$> of_group k (zip tasks ts))
      ≡ₚ imap (λ pos row, (row, pos)) rows) →
  ∃ tables, fold_out (λ tables p,
      if bool_decide (p.1 = []) then Ok tables
      else table ← reorder_group rows p; Ok (tables ++ [table])) (group_parts (zip tasks ts) <$> seq 0 (length readers)) []
    = Ok tables ∧ Forall2 (reader_took rows) readers tables.
Proof.
  intros Hne Hlen Hok Hb Hts Hperm.
  assert (∀ k r, readers !! k = Some r → (of_group k (zip tasks ts)).*2 ≠ [] ∧
    ∃ t, reorder_group rows (group_parts (zip tasks ts) k) = Ok t ∧ reader_took rows r t) as Hgroup.
  { intros k r Hr. destruct (reorder_group_spec r rows (of_group k (zip tasks ts))) as [Hpn Ht]; [by eapply Forall_lookup in Hb|done| |by apply (Hperm k r)|].
    - apply Forall_forall. intros [t x] [Hk [i Hi]%list_elem_of_lookup]%list_elem_of_filter. simpl in Hk.
      apply lookup_zip_with_Some in Hi as (? & ? & [= <- <-] & Hti & Hxi).
      split; [by eapply Forall_lookup in Hok|]. destruct (Forall2_lookup_lr _ _ _ _ _ _ Hts Hti Hxi) as (r' & Hr' & Htk).
      simpl. rewrite Hk in Hr'. by simplify_eq.
    - split; [by intros ?%fmap_nil_inv|done]. }
  assert (∀ rs k0 acc, (∀ k r, rs !! k = Some r → readers !! (k0 + k)%nat = Some r) →
    ∃ tables, fold_out (λ tables p, if bool_decide (p.1 = []) then Ok tables
      else table ← reorder_group rows p; Ok (tables ++ [table])) (group_parts (zip tasks ts) <$> seq k0 (length rs)) acc
    = Ok (acc ++ tables) ∧ Forall2 (reader_took rows) rs tables) as Hgen.
  { induction rs as [|r rs IH]; intros k0 acc Hrs; [exists []; by rewrite app_nil_r|].
    cbn [length seq]. rewrite fmap_cons. cbn [fold_out].
    destruct (Hgroup k0 r) as (Hnn & t & Ht & Htk); [rewrite <- (Nat.add_0_r k0); by apply Hrs|].
    rewrite bool_decide_false by done. rewrite Ht, !bind_Ok.
    destruct (IH (S k0) (acc ++ [t])) as (tables & -> & Hf).
    { intros k r' Hk. replace (S k0 + k)%nat with (k0 + S k)%nat by lia. by apply Hrs. }
    exists (t :: tables). rewrite <- app_assoc. split; [done|by constructor]. }
  destruct (Hgen readers 0%nat []) as (tables & Hf & H2); [by intros|]. by exists tables.
Qed.

Lemma take_tables_async_spec cols rows req readers parallelism strategy cs :
  rows ≠ [] → StronglySorted Z.lt rows → Forall (λ g, group_ok g ∧ rows_in g rows) req → req ≠ [] →
  Forall2 (reads_group cols) req readers → caches_ok cs →
  wp (take_tables_async rows req readers parallelism strategy) cs
    (λ ts cs', caches_ok cs' ∧ Forall2 (reader_took rows) readers ts) (λ _ _, False).
Proof.
  intros Hne Hs Hreq Hrne Hf Hcs. unfold take_tables_async.
  assert (Forall (λ r, group_ok (lz_group r) ∧ lz_needed r ⊆ columns (lz_group r)) readers) as Hrs.
  { apply Forall_lookup. intros k r Hr. destruct (Forall2_lookup_r _ _ _ _ _ Hf Hr) as (g & Hg & Hgr).
    split; [|by eapply reads_group_sub]. rewrite (rg_group _ _ _ Hgr).
    by pose proof (Forall_lookup_1 _ _ _ _ Hreq Hg) as [? _]. }
  destruct (take_task_build_spec req rows Hs) as (tasks & Hbuild & Hok & Hperm).
  { destruct req as [|g req']; [done|]. apply Forall_cons in Hreq as [[_ Hin] _]. eapply Forall_impl; [exact Hin|]. by intros row [? _]. }
  { eapply Forall_impl; [exact Hreq|]. intros g [Hg Hin]. split; [apply (go_ranges _ Hg)|].
    eapply Forall_impl; [exact Hin|]. intros row [_ Hlt]. unfold group_rows_number in Hlt. by rewrite length_positions in Hlt. }
  pose proof (build_sorted _ _ _ Hs Hbuild) as Hsorted.
  assert (Forall sorted_task tasks) as Hst.
  { apply Forall_forall. intros t Ht. split; [by eapply Forall_forall in Hok|by eapply Forall_forall in Hsorted]. }
  destruct (split_tasks_spec (SplitLaws0 := sorted_split_laws) tasks (Z.max parallelism 1) strategy Hst)
    as (tasks' & Hsplit & Hst' & Hperm' & _).
  change (Forall sorted_task tasks') in Hst'. unfold all_items in Hperm'. simpl in Hperm'. rewrite Hperm in Hperm'.
  eapply wp_lift_bind; [exact Hbuild|]. eapply wp_lift_bind; [exact Hsplit|].
  assert (Forall (λ g, rows_in g rows) req) as Hin by (eapply Forall_impl; [exact Hreq|]; by intros g [_ ?]).
  pose proof (tasks_for_readers cols rows req readers tasks' Hin Hf Hst' Hperm') as Hfor.
  assert (Forall take_task_ok tasks') as Hok' by (eapply Forall_impl; [exact Hst'|]; by intros t [? _]).
  eapply wp_seq; [by apply (submit_tasks_spec readers rows)|]. intros results cs1 (Hcs1 & ts & -> & Hts).
  pose proof (Forall2_length _ _ _ Hts) as Hlen.
  eapply wp_lift_bind; [apply collect_results_spec; [done|]|].
  { eapply Forall_impl; [exact Hfor|]. intros t (_ & r & Hr & _). by eapply lookup_lt_Some. }
  destruct (collect_groups rows readers tasks' ts) as (tables & Htb & Htk); try done.
  - apply Forall_forall. intros r Hr. eapply Forall_forall in Hrs as [_ Hsub]; [|done].
    apply (take_fields_ok (lz_schema r) (lz_group r) (lz_needed r) Hsub).
  - intros k r Hr. destruct (Forall2_lookup_r _ _ _ _ _ Hf Hr) as (g & Hg & _). by eapply group_parts_items.
  - by eapply wp_lift.
Qed.

(** ** Requests *)

(** A reader of groups that can be read. *)
Record reader_ok (rd : ReaderConfig) (gs : list ColumnGroup) : Prop := {
  ro_groups : rd_cgs rd = Some <$> gs;
  ro_nonempty : gs ≠ [];
  ro_ok : Forall (λ g, group_ok g ∧ known_format (format g) = true) gs;
}.

Lemma resolved_in_schema rd needed cols :
  resolve_needed_columns rd needed = Ok cols → schema_has (rd_schema rd) cols.
Proof.
  unfold resolve_needed_columns. intros Hr s Hs. apply bind_Ok_inv in Hr as (? & _ & Hr).
  rewrite Hs in Hr. apply bind_Ok_inv in Hr as ([] & Hc & Hr). injection Hr as <-.
  apply check_all_Ok in Hc. eapply Forall_impl; [exact Hc|]. intros c. simpl. by destruct (GetFieldByName s c).
Qed.

(** The readers of a request. *)
Lemma request_readers rd gs cols :
  reader_ok rd gs → schema_has (rd_schema rd) cols →
  ∃ req readers,
    column_groups_from_indices rd (collect_required_column_group_indices rd cols) = Ok req ∧
    create_lazy_readers rd req cols = Ok readers ∧
    req ≠ [] ∧ req ⊆ gs ∧ Forall2 (reads_group cols) req readers ∧
    (∀ c g, c ∈ cols → g ∈ gs → c ∈ columns g → ∃ g', g' ∈ req ∧ c ∈ columns g').
Proof.
  intros [Hcgs Hne Hok] Hs. destruct (required_groups rd gs cols Hcgs Hne) as (req & Hreq & Hrne & Hsub & Hall).
  destruct (create_lazy_readers_spec rd cols req [] Hs) as (readers & Hrd & Hf).
  { apply Forall_forall. intros g Hg%Hsub. by eapply Forall_forall in Hok as [_ ?]. }
  exists req, readers. by split_and!.
Qed.

Lemma wp_returns {S E A} (m : M S E A) s Q :
  wp m s Q (λ _ _, False) → ∃ a s', m s = (s', Ok a) ∧ Q a s'.
Proof. unfold wp. destruct (m s) as [s' [a| |]]; intros HQ; [by exists a, s'|done..]. Qed.

(** C22: Taking rows returns exactly the requested rows, synchronously and
    asynchronously.  For sorted and unique rows that the column groups have,
    columns that resolve, and files that can be read, both [take] and
    [take_async] return a table with the requested columns in the requested
    order, whose rows are the requested rows in the requested order: those of a
    group that has the column, or nulls when no group has it.  This holds for
    every parallelism, number of threads and way of splitting tasks, and from
    every consistent state of the metadata cache, which stays consistent. *)
Theorem take_returns_rows rd gs needed cols rows parallelism num_threads strategy cs :
  reader_ok rd gs →
  resolve_needed_columns rd (effective_needed_columns rd needed) = Ok cols →
  (rd_schema rd = None → ∀ c, c ∈ cols → ∃ g, g ∈ gs ∧ c ∈ columns g) →
  rows ≠ [] → StronglySorted Z.lt rows → Forall (λ g, rows_in g rows) gs → caches_ok cs →
  (∃ t cs', reader_take_rows rd rows parallelism num_threads needed cs = (cs', Ok t) ∧
    caches_ok cs' ∧ take_result gs cols rows t) ∧
  (∃ t cs', reader_take_rows_async rd rows parallelism strategy needed cs = (cs', Ok t) ∧
    caches_ok cs' ∧ take_result gs cols rows t).
Proof.
  intros Hrd Hres Hnone Hne Hs Hin Hcs. pose proof (resolved_in_schema _ _ _ Hres) as Hsch.
  destruct (request_readers rd gs cols Hrd Hsch) as (req & readers & Hreq & Hcr & Hrne & Hsub & Hf & Hall).
  assert (rd_cgs rd ≠ []) as Hcne by (rewrite (ro_groups _ _ Hrd); intros ?%fmap_nil_inv; by apply (ro_nonempty _ _ Hrd)).
  assert (Forall (λ g, group_ok g ∧ rows_in g rows) req) as Hrok.
  { apply Forall_forall. intros g Hg%Hsub. pose proof (ro_ok _ _ Hrd) as Hok. eapply Forall_forall in Hok as [? _]; [|done].
    split; [done|]. by eapply Forall_forall in Hin. }
  assert (∀ ts cs', caches_ok cs' → Forall2 (reader_took rows) readers ts →
    wp (lift (build_take_table ts rows cols (rd_schema rd))) cs' (λ t cs', caches_ok cs' ∧ take_result gs cols rows t) (λ _ _, False)) as Hbuild.
  { intros ts cs' Hcs' Hts. destruct (build_take_table_spec gs cols rows req readers ts (rd_schema rd)) as (t & Ht & Htr); try done.
    by eapply wp_lift. }
  split.
  - destruct (wp_returns (reader_take_rows rd rows parallelism num_threads needed) cs
      (λ t cs', caches_ok cs' ∧ take_result gs cols rows t)) as (t & cs' & ? & ? & ?); [|by eauto 6].
    unfold reader_take_rows. rewrite !bool_decide_false by done.
    eapply wp_lift_bind; [exact Hres|]. eapply wp_lift_bind; [exact Hreq|]. eapply wp_lift_bind; [exact Hcr|].
    eapply wp_seq; [by eapply take_tables_sync_spec|]. intros ts cs1 [Hcs1 Hts]. by apply Hbuild.
  - destruct (wp_returns (reader_take_rows_async rd rows parallelism strategy needed) cs
      (λ t cs', caches_ok cs' ∧ take_result gs cols rows t)) as (t & cs' & ? & ? & ?); [|by eauto 6].
    unfold reader_take_rows_async. rewrite !bool_decide_false by done.
    eapply wp_lift_bind; [exact Hres|]. eapply wp_lift_bind; [exact Hreq|]. eapply wp_lift_bind; [exact Hcr|].
    eapply wp_seq; [by eapply take_tables_async_spec|]. intros ts cs1 [Hcs1 Hts]. by apply Hbuild.
Qed.

(** ** Requests that are refused *)

Lemma validate_sorted_cases rows :
  validate_sorted_unique_row_indices rows = Ok tt ∧ StronglySorted Z.lt rows ∨
  validate_sorted_unique_row_indices rows = Err status_Invalid ∧ ¬ StronglySorted Z.lt rows.
Proof.
  induction rows as [|a rows IH]; [left; split; [done|constructor]|]. destruct rows as [|b rows].
  { left. split; [done|repeat constructor]. }
  change (validate_sorted_unique_row_indices (a :: b :: rows)) with
    (if b <=? a then Err status_Invalid else validate_sorted_unique_row_indices (b :: rows)).
  destruct (Z.leb_spec b a) as [Hle|Hlt].
  { right. split; [done|]. intros [_ Ha]%StronglySorted_inv. apply Forall_cons in Ha as [? _]. lia. }
  destruct IH as [[-> Hs]|[-> Hs]]; [left|right]; (split; [done|]).
  - constructor; [done|]. apply StronglySorted_inv in Hs as [_ Hb]. constructor; [done|].
    eapply Forall_impl; [exact Hb|]. simpl. lia.
  - by intros [? _]%StronglySorted_inv.
Qed.

Lemma check_rows_cases prev rows :
  check_rows prev rows = Ok tt ∧ Forall (λ row, 0 ≤ row) rows ∧ StronglySorted Z.lt rows ∧
    (∀ p, prev = Some p → Forall (Z.lt p) rows) ∨
  check_rows prev rows = Err status_Invalid.
Proof.
  revert prev. induction rows as [|row rows IH]; intros prev; cbn [check_rows].
  { left. split_and!; [done|constructor|constructor|]. constructor. }
  destruct (Z.ltb_spec row 0); [by right|]. destruct (IH (Some row)) as [(Hc & Hn & Hs & Hp)|Hc].
  2:{ right. destruct prev as [p|]; [|done]. by destruct (row <=? p). }
  specialize (Hp row eq_refl). destruct prev as [p|].
  - destruct (Z.leb_spec row p); [by right|]. left. split_and!; [done|by constructor|by constructor|].
    intros p' [= <-]. constructor; [done|]. eapply Forall_impl; [exact Hp|]. simpl. lia.
  - left. split_and!; [done|by constructor|by constructor|done].
Qed.

Lemma validate_rows_cases r rows :
  group_ok (lz_group r) → Forall (λ row, row ≤ INT64_MAX) rows →
  validate_row_indices r rows = Ok tt ∧ rows_in (lz_group r) rows ∨ validate_row_indices r rows = Err status_Invalid.
Proof.
  intros Hg Hmax. unfold validate_row_indices. induction Hmax as [|row rows Hrow Hmax IH]; [left; split; [done|constructor]|].
  simpl. destruct (Z.ltb_spec row 0); [by right|].
  change (get_index_and_offset_of_file (files (lz_group r)) row) with (locate_row row 0 (files (lz_group r))).
  pose proof (locate_row_spec row 0 (files (lz_group r)) (go_ranges _ Hg) ltac:(lia)) as Hl.
  destruct (locate_row row 0 (files (lz_group r))) as [p|e|]; [|destruct Hl as [-> _]; right; by rewrite !bind_Err|done].
  rewrite !bind_Ok. destruct IH as [[-> Hin]| ->]; [left|by right]. split; [done|]. constructor; [|done].
  unfold group_rows_number. apply lookup_lt_Some in Hl. lia.
Qed.

Lemma group_rows_refused fs (l : list (nat * Z)) groups :
  ranges_ok fs → Forall (λ e, 0 ≤ e.2 ≤ INT64_MAX) l →
  ¬ Forall (λ e, e.2 < Z.of_nat (length (row_positions 0 fs))) l →
  fold_out (λ groups e, file_index ← find_file e.2 0 fs; Ok (map_push file_index (e.2, e.1) groups)) l groups
    = Err status_Invalid.
Proof.
  intros Hfs Hl. revert groups. induction Hl as [|[pos row] l Hr Hl IH]; intros groups Hbad; [by destruct Hbad|].
  cbn [fold_out fst snd]. simpl in Hr. pose proof (find_file_spec row 0 fs Hfs Hr) as Hf.
  destruct (find_file row 0 fs) as [j|e|]; [|destruct Hf as [-> _]; done|done]. rewrite !bind_Ok. apply IH.
  intros Hall. apply Hbad. constructor; [|done]. simpl. apply lookup_lt_Some in Hf. rewrite length_positions. lia.
Qed.

Lemma build_refused g gs rows :
  group_ok g → Forall (λ row, row ≤ INT64_MAX) rows → ¬ (StronglySorted Z.lt rows ∧ rows_in g rows) →
  TakeTask_Build (Some <$> (g :: gs)) rows = Err status_Invalid.
Proof.
  intros Hg Hmax Hbad. unfold TakeTask_Build. destruct (check_rows_cases None rows) as [(Hc & Hn & Hs & _)|Hc]; rewrite Hc; [|done].
  rewrite bind_Ok, fmap_cons, imap_cons. cbn [fold_out fst snd]. unfold take_tasks_of_group, group_rows.
  assert (Forall (λ row, 0 ≤ row ≤ INT64_MAX) rows) as Hrange.
  { apply Forall_forall. intros row Hrow. eapply Forall_forall in Hmax, Hn; [|done..]. done. }
  rewrite (group_rows_refused (files g) (imap pair rows) []); [done|apply (go_ranges _ Hg)|..].
  - rewrite <- (imap_pair_snd rows), Forall_fmap in Hrange. done.
  - intros Hall. apply Hbad. split; [done|]. unfold rows_in, group_rows_number.
    rewrite <- (Forall_fmap snd (λ row, row < Z.of_nat (length (row_positions 0 (files g))))), imap_pair_snd in Hall.
    apply Forall_forall. intros row Hrow. eapply Forall_forall in Hrange, Hall; [|done..]. done.
Qed.

(** C25: Requests of rows that are not sorted, not unique, negative or beyond
    the rows of the column groups are refused with an invalid status by both
    [take] and [take_async], before any file is opened: the metadata cache is
    left as it was. *)
Theorem take_refuses_bad_rows rd gs n needed cols rows parallelism num_threads strategy cs :
  reader_ok rd gs →
  resolve_needed_columns rd (effective_needed_columns rd needed) = Ok cols →
  Forall (λ g, group_rows_number g = n) gs → rows ≠ [] → Forall (λ row, row ≤ INT64_MAX) rows →
  ¬ (StronglySorted Z.lt rows ∧ Forall (λ row, 0 ≤ row < n) rows) →
  reader_take_rows rd rows parallelism num_threads needed cs = (cs, Err status_Invalid) ∧
  reader_take_rows_async rd rows parallelism strategy needed cs = (cs, Err status_Invalid).
Proof.
  intros Hrd Hres Hn Hne Hmax Hbad. pose proof (resolved_in_schema _ _ _ Hres) as Hsch.
  destruct (request_readers rd gs cols Hrd Hsch) as (req & readers & Hreq & Hcr & Hrne & Hsub & Hf & _).
  assert (rd_cgs rd ≠ []) as Hcne by (rewrite (ro_groups _ _ Hrd); intros ?%fmap_nil_inv; by apply (ro_nonempty _ _ Hrd)).
  destruct Hf as [|g r req readers Hgr Hf]; [done|].
  assert (g ∈ gs) as Hgs by set_solver. pose proof (ro_ok _ _ Hrd) as Hok. eapply Forall_forall in Hok as [Hg _]; [|exact Hgs].
  eapply Forall_forall in Hn; [|exact Hgs].
  assert (¬ (StronglySorted Z.lt rows ∧ rows_in g rows)) as Hbad'.
  { intros [Hs Hin]. apply Hbad. split; [done|]. eapply Forall_impl; [exact Hin|]. intros row. rewrite Hn. simpl. lia. }
  unfold reader_take_rows, reader_take_rows_async. rewrite !bool_decide_false by done. rewrite Hres.
  unfold mbind, M_bind, lift. rewrite Hreq, Hcr. split.
  - cbn [take_tables_sync]. unfold mbind, M_bind, lazy_take, lift.
    destruct (validate_sorted_cases rows) as [[-> Hs]|[-> _]]; [|done].
    destruct (validate_rows_cases r rows) as [[_ Hin]| ->]; [by rewrite (rg_group _ _ _ Hgr)|done| |done].
    rewrite (rg_group _ _ _ Hgr) in Hin. by destruct Hbad'.
  - unfold take_tables_async, mbind, M_bind, lift. by rewrite (build_refused g req rows Hg Hmax Hbad').
Qed.

(** An empty request has the columns of a request that is not empty. *)
Lemma take_empty_request rd needed cols schema parallelism num_threads strategy cs :
  rd_schema rd = Some schema → resolve_needed_columns rd (effective_needed_columns rd needed) = Ok cols →
  ∃ t, reader_take_rows rd [] parallelism num_threads needed cs = (cs, Ok t) ∧
    reader_take_rows_async rd [] parallelism strategy needed cs = (cs, Ok t) ∧
    tb_num_rows t = 0 ∧ fd_name <$> tb_schema t = cols.
Proof.
  intros Hs Hres. pose proof (resolved_in_schema _ _ _ Hres schema Hs) as Hsch.
  destruct (fields_of_ok schema cols Hsch) as (fs & Hfs & Hnames). destruct (empty_table_ok fs) as (t & Ht & _ & Hts & Htn).
  exists t. unfold reader_take_rows, reader_take_rows_async, take_nothing, build_empty_projected_schema. simpl.
  rewrite Hs, Hres, bind_Ok, Hfs, bind_Ok, Ht. split_and!; [done..|]. rewrite Hts. clear -Hnames.
  induction Hnames as [|c f cols fs Hc Hnames IH]; [done|]. rewrite fmap_cons, IH. by rewrite (GetFieldByName_name _ _ _ Hc).
Qed.
End async.
