(* ===== verification/TakeSample.v ===== *)
(** * Random access on sample data

    Arrays of integers with builders, a chunk resolver and tables, and format
    readers of two files, which satisfy the promises that [take] is proved
    against; requests evaluated on them, synchronous and asynchronous. *)

From S2P Require Import Prelude CppString Status Config ColumnGroups ChunkManager ArrowTables FormatReaderCache ColumnGroupReader ColumnGroupChunks AsyncTasks LazyReader LazyReaderCorrect Reader ReaderCorrect TakeAsync.

Module SampleTake.

(** ** Arrays of integers *)

#[export] Instance int_arrays : Arrays := {
  Array := list Z;
  array_length a := Z.of_nat (length a);
  array_Slice a o l := take (Z.to_nat l) (drop (Z.to_nat o) a);
}.
#[export] Instance int_array_laws : ArrayLaws.
Proof. by refine {| cell := Z; acells := ((λ a, a) : Array → list Z) |}. Defined.

#[export] Instance one_type : DataTypes := {
  DataType := unit;
  array_type _ := tt;
}.

(** The chunk of a row; a row beyond the end is past the last chunk. *)
Fixpoint resolve_from (i : nat) (chunks : list (list Z)) (row : Z) : nat * Z :=
  match chunks with
  | [] => (i, row)
  | c :: chunks' => if row <? Z.of_nat (length c) then (i, row)
                    else resolve_from (S i) chunks' (row - Z.of_nat (length c))
  end.

Definition same_names (t u : ArrowTable) : bool :=
  bool_decide (fd_name <$> tb_schema u = fd_name <$> tb_schema t).

Definition concat_columns (ts : list ArrowTable) (j : nat) (_ : Field) : ChunkedArray :=
  mkChunked tt (mjoin ((λ u, default [] (ca_chunks <$> tb_columns u !! j)) <$> ts)).

#[export] Instance int_tables : TableOps := {
  ArrayBuilder := list Z;
  MakeBuilderExactIndex _ := Ok [];
  Reserve b _ := Ok b;
  AppendArraySlice b a o l := Ok (b ++ take (Z.to_nat l) (drop (Z.to_nat o) a));
  Finish b := Ok b;
  Resolve := resolve_from 0;
  Validate t := if forallb (λ c, length (mjoin (ca_chunks c)) =? Z.to_nat (tb_num_rows t))%nat (tb_columns t)
                then Ok tt else Err status_Invalid;
  ConcatenateTables ts :=
    match ts with
    | [] => Err status_Invalid
    | t :: ts' =>
        if forallb (same_names t) ts'
        then Ok (mkTable (tb_schema t) (imap (concat_columns ts) (tb_schema t)) (sum_Z (tb_num_rows <$> ts)))
        else Err status_Invalid
    end;
  MakeNullArray _ n := Ok (replicate (Z.to_nat n) (-1));
  MakeEmptyTable fs := Ok (mkTable fs ((λ _, mkChunked tt []) <$> fs) 0);
}.

Lemma column_cells_id (c : ChunkedArray) : column_cells c = mjoin (ca_chunks c).
Proof. unfold column_cells. by rewrite list_fmap_id. Qed.

Lemma resolve_from_ok i chunks row :
  0 ≤ row < Z.of_nat (length (mjoin chunks)) →
  ∃ before c after, chunks = before ++ c :: after ∧ (resolve_from i chunks row).1 = (i + length before)%nat ∧
    0 ≤ (resolve_from i chunks row).2 < Z.of_nat (length c) ∧
    row = Z.of_nat (length (mjoin before)) + (resolve_from i chunks row).2.
Proof.
  revert i row. induction chunks as [|c chunks IH]; intros i row Hr; [simpl in Hr; lia|]. simpl in Hr |- *.
  rewrite length_app in Hr. destruct (Z.ltb_spec row (Z.of_nat (length c))).
  - exists [], c, chunks. simpl. split_and!; [done|lia..].
  - destruct (IH (S i) (row - Z.of_nat (length c)) ltac:(lia)) as (bf & c' & af & -> & H1 & H2 & H3).
    exists (c :: bf), c', af. simpl. rewrite length_app. split_and!; [done|lia..].
Qed.

Lemma concat_column_cells (t : ArrowTable) ts j fd :
  Forall table_ok (t :: ts) → Forall (λ u, tb_schema u = tb_schema t) ts → tb_schema t !! j = Some fd →
  column_cells (concat_columns (t :: ts) j fd) = mjoin (default [] ∘ (λ u, table_cells u !! j) <$> t :: ts) ∧
  Z.of_nat (length (column_cells (concat_columns (t :: ts) j fd))) = sum_Z (tb_num_rows <$> t :: ts).
Proof.
  intros Hok Hs Hj. assert (Forall (λ u, tb_schema u = tb_schema t) (t :: ts)) as Hs' by by constructor.
  rewrite column_cells_id. unfold concat_columns. cbn [ca_chunks].
  generalize dependent (t :: ts). intros us Hok Hs'. clear Hs. induction Hs' as [|u us Hu Hus IH]; [done|].
  apply Forall_cons in Hok as [Hou Hok]. destruct (IH Hok) as [IH1 IH2]. rewrite !fmap_cons.
  rewrite <- Hu in Hj. destruct (Forall2_lookup_l _ _ _ _ _ (to_types _ Hou) Hj) as (c & Hc & _).
  assert (∀ (l : list (list Z)) ls, mjoin (mjoin (l :: ls)) = mjoin l ++ mjoin (mjoin ls)) as Hjj.
  { intros l ls. simpl. by rewrite join_app. }
  split.
  - rewrite Hjj. refine (f_equal2 app _ IH1). simpl. unfold table_cells. rewrite list_lookup_fmap, Hc. simpl. by rewrite column_cells_id.
  - rewrite Hjj, length_app, Nat2Z.inj_add. refine (f_equal2 Z.add _ IH2). rewrite Hc. simpl.
    pose proof (Forall_lookup_1 _ _ _ _ (to_columns _ Hou) Hc) as Hl. cbv beta in Hl. by rewrite column_cells_id in Hl.
Qed.

#[export] Instance int_table_laws : TableLaws.
Proof.
  refine {| null_cell := (-1 : cell); buildable _ := True; bcells := ((λ b, b) : ArrayBuilder → list cell);
            btype _ := tt |}.
  - intros []. by exists [].
  - intros b n _. by exists b.
  - intros b a o l _ _ _. eexists. by split_and!.
  - intros b. by exists b.
  - intros chunks i Hi. rewrite list_fmap_id in Hi.
    destruct (resolve_from_ok 0 chunks i Hi) as (bf & c & af & H1 & H2 & H3 & H4). exists bf, c, af. simpl.
    rewrite list_fmap_id. split_and!; [done|done|apply H3|apply H3|done].
  - intros t Hok. simpl. assert (forallb (λ c, length (mjoin (ca_chunks c)) =? Z.to_nat (tb_num_rows t))%nat (tb_columns t) = true) as ->; [|done].
    apply forallb_forall. intros c Hc%list_elem_of_In. pose proof (to_columns _ Hok) as Hcols.
    eapply Forall_forall in Hcols; [|done]. cbv beta in Hcols. rewrite column_cells_id in Hcols.
    apply Nat.eqb_eq. rewrite <- Hcols. by rewrite Nat2Z.id.
  - intros t ts Hok Hs. simpl.
    assert (forallb (same_names t) ts = true) as ->.
    { apply forallb_forall. intros u Hu%list_elem_of_In. eapply Forall_forall in Hs; [|done]. apply bool_decide_eq_true. by rewrite Hs. }
    eexists. split; [done|]. split_and!; [|done|done|].
    + split; simpl.
      * apply Forall2_same_length_lookup_2; [by rewrite length_imap|]. intros j fd c _ _. by destruct (ca_type c), (fd_type fd).
      * assert (∀ us : list ArrowTable, Forall table_ok us → 0 ≤ sum_Z (tb_num_rows <$> us)) as Hpos; [|by apply (Hpos (t :: ts))].
        induction 1 as [|u us Hu Hus IH]; [done|]. rewrite fmap_cons. simpl. pose proof (to_rows _ Hu). lia.
      * apply Forall_lookup. intros j c Hc. rewrite list_lookup_imap in Hc.
        destruct (tb_schema t !! j) as [fd|] eqn:Hj; simplify_eq/=. by apply (concat_column_cells t ts j fd).
    + intros j. unfold table_cells at 1. simpl. rewrite list_lookup_fmap, list_lookup_imap.
      destruct (tb_schema t !! j) as [fd|] eqn:Hj; [|done]. simpl. f_equal. by apply (concat_column_cells t ts j fd).
  - intros ty n _. by eexists.
  - intros fs. eexists. split; [done|]. split_and!; [|done|done]. split; simpl; [|done|].
    + apply Forall2_fmap_r, Forall_Forall2_diag. apply Forall_true. by intros [n []].
    + rewrite Forall_fmap. apply Forall_true. done.
Defined.

(** ** Format readers of two files *)

Definition path_data (p : string) : list Z :=
  if bool_decide (p = "a") then [10; 11; 12; 13; 14; 15; 16; 17]
  else if bool_decide (p = "b") then [20; 21; 22; 23; 24] else [].

Definition known_path (p : string) : bool := bool_decide (p = "a") || bool_decide (p = "b").

(** Column "w" is 100 more than column "v". *)
Definition column_of (p c : string) : list Z :=
  (λ x, if bool_decide (c = "w") then x + 100 else x) <$> path_data p.

Definition sample_fields (cols : list string) : list Field := (λ c, mkField c tt) <$> remove_dups cols.

Lemma sample_field_names cols : fd_name <$> sample_fields cols = remove_dups cols.
Proof. unfold sample_fields. rewrite <- list_fmap_compose. by apply list_fmap_id. Qed.

Definition sample_take (r : string * list string) (idx : list Z) : outcome Status ArrowTable :=
  Ok (mkTable (sample_fields r.2)
        ((λ c, mkChunked tt [omap (λ i, column_of r.1 c !! Z.to_nat i) idx]) <$> remove_dups r.2)
        (Z.of_nat (length idx))).

Definition sample_open (p : string) (cols : list string) : outcome Status (string * list string) :=
  if known_path p then Ok (p, cols) else Err status_IOError.

#[export] Instance sample_readers : TakeReaders := {
  TakeReader := string * list string;
  TakeMeta := string;
  reader_create _ _ f cols := sample_open (cgf_path f) cols;
  reader_create_async _ _ f cols := sample_open (cgf_path f) cols;
  FormatReaderWithAsyncMetadata fmt := bool_decide (fmt = LOON_FORMAT_VORTEX);
  cache_key _ f := cgf_path f;
  load_metadata _ f := LoadOk (Some (cgf_path f));
  load_metadata_async _ f := LoadOk (Some (cgf_path f));
  create_from_metadata _ m f _ cols := p ← deref m; sample_open p cols;
  create_from_metadata_async _ m f _ cols := p ← deref m; sample_open p cols;
  reader_take := sample_take;
  reader_take_async := sample_take;
}.

Lemma sample_selected (data : list Z) idx :
  Forall (λ i, 0 ≤ i < Z.of_nat (length data)) idx → selected idx data (omap (λ i, data !! Z.to_nat i) idx).
Proof.
  unfold selected. induction 1 as [|i idx Hi Hidx IH]; [done|].
  destruct (lookup_lt_is_Some_2 data (Z.to_nat i)) as [x Hx]; [lia|]. simpl. rewrite Hx. exact (f_equal (cons (Some x)) IH).
Qed.

#[export] Instance sample_take_laws : TakeLaws.
Proof.
  refine {| file_column (_ : string) f c := (column_of (cgf_path f) c : list cell);
            file_length _ f := Z.of_nat (length (path_data (cgf_path f)));
            readable _ f := known_path (cgf_path f) = true;
            serves (r : TakeReader) _ _ f cols := r = (cgf_path f, cols);
            meta_ok _ key (m : TakeMeta) := m = key;
            take_fields _ _ cols := sample_fields cols |}.
  - intros g f c _ _. unfold column_of. by rewrite length_fmap.
  - intros schema g cols Hsub. rewrite sample_field_names. split_and!.
    + apply NoDup_remove_dups.
    + intros c Hc. by apply elem_of_remove_dups.
    + intros c Hc. rewrite elem_of_remove_dups in Hc. exact (Hsub c Hc).
    + by apply Forall_true.
  - intros schema g f cols Hr _. simpl. unfold sample_open. rewrite Hr. by split; eexists.
  - intros g f _. simpl. by split; eexists.
  - intros schema g f cols m Hr _ ->. simpl. unfold sample_open. rewrite Hr. by split; eexists.
  - intros r schema g f cols idx -> _ _ Hidx.
    assert (∃ t, sample_take (cgf_path f, cols) idx = Ok t ∧ taken (sample_fields cols) (column_of (cgf_path f)) idx t) as Ht; [|done].
    eexists. split; [done|].
    assert (∀ c, selected idx (column_of (cgf_path f) c) (omap (λ i, column_of (cgf_path f) c !! Z.to_nat i) idx)) as Hsel.
    { intros c. apply sample_selected. eapply Forall_impl; [exact Hidx|]. intros i Hi. unfold column_of. by rewrite length_fmap. }
    split; simpl; [|done|done|].
    + split; simpl; [|lia|].
      * unfold sample_fields. apply Forall2_fmap, Forall_Forall2_diag. by apply Forall_true.
      * rewrite Forall_fmap. apply Forall_true. intros c. simpl. rewrite column_cells_id. simpl. rewrite app_nil_r.
        exact (f_equal Z.of_nat (selected_length _ _ _ (Hsel c))).
    + unfold table_cells, sample_fields. simpl. rewrite <- list_fmap_compose. apply Forall2_fmap, Forall_Forall2_diag.
      apply Forall_true. intros c. simpl. rewrite column_cells_id. simpl. rewrite app_nil_r. apply Hsel.
Defined.

(** ** Requests *)

(** Two groups of 11 rows: "v" in rows 1..7 of "a" and "b", "w" in "b" and
    rows 0..6 of "a"; no group has "x". *)
Definition group_v : ColumnGroup := mkGroup ["v"] "parquet" [mkFile "a" 1 7 ∅; mkFile "b" 0 5 ∅].
Definition group_w : ColumnGroup := mkGroup ["w"] "vortex" [mkFile "b" 0 5 ∅; mkFile "a" 0 6 ∅].

Definition sample_schema : list Field := [mkField "x" tt; mkField "w" tt; mkField "v" tt].

Definition sample_reader (cached : bool) : ReaderConfig :=
  mkReaderConfig [Some group_v; Some group_w] (Some sample_schema) None cached.

Lemma sample_reader_ok cached : reader_ok (sample_reader cached) [group_v; group_w].
Proof.
  split; [done|done|]. repeat (apply Forall_cons; split); [..|apply Forall_nil_2];
    (split; [|by vm_compute]); split; repeat (apply Forall_cons; split); try apply Forall_nil_2; by vm_compute.
Qed.

Lemma sample_resolved cached : resolve_needed_columns (sample_reader cached) None = Ok ["x"; "w"; "v"].
Proof. by destruct cached; vm_compute. Qed.

Lemma no_caches : caches_ok (∅ : gmap string (gmap string (option TakeMeta))).
Proof. intros fmt es key m Hf. by rewrite lookup_empty in Hf. Qed.

(** The columns of both kinds of request, with the formats that have cached
    metadata after it. *)
Definition observed (res : gmap string (gmap string (option TakeMeta)) * outcome Status ArrowTable) :
    list string * option (list (string * list Z)) :=
  ((map_to_list res.1).*1,
   match res.2 with
   | Ok t => Some (zip (fd_name <$> tb_schema t) (table_cells t))
   | _ => None
   end).

Example take_evaluated :
  observed (reader_take_rows (sample_reader true) [1; 4; 5; 6; 10] 4 3 None ∅) =
    (["vortex"; "parquet"],
     Some [("x", [-1; -1; -1; -1; -1]); ("w", [121; 124; 110; 111; 115]); ("v", [12; 15; 16; 20; 24])]) ∧
  observed (reader_take_rows_async (sample_reader false) [1; 4; 5; 6; 10] 4 kSplitAll (Some ["v"; "w"]) ∅) =
    ([], Some [("v", [12; 15; 16; 20; 24]); ("w", [121; 124; 110; 111; 115])]).
Proof. split; vm_compute; reflexivity. Qed.

Lemma copy_selected_rows_witness :
  let t := mkTable [mkField "v" tt] [mkChunked tt [[10; 11]; []; [12; 13; 14]]] 5 in
  ∃ t', CopySelectedRows t [1; 2; 3; 0; 0] = Ok t' ∧ table_cells t' = [[11; 12; 13; 10; 10]] ∧
    CopySelectedRows t [5] = Err status_IndexError.
Proof.
  intros t. assert (table_ok t) as Hok by (split; [by repeat constructor|done|by repeat constructor]).
  assert (Forall (λ fd, buildable (fd_type fd)) (tb_schema t)) as Hb by by repeat constructor.
  destruct (copy_selected_rows t [1; 2; 3; 0; 0] Hok Hb) as [Hcopy _].
  destruct (copy_selected_rows t [5] Hok Hb) as [_ Herr].
  destruct Hcopy as (t' & Ht & _ & _ & _ & Hsel).
  { unfold in_table. simpl. repeat (apply Forall_cons; split); [lia..|apply Forall_nil_2]. }
  exists t'. split_and!; [done| |].
  - apply Forall2_cons_inv_l in Hsel as (out & rest & Hout & Hrest & ->). apply Forall2_nil_inv_l in Hrest as ->.
    f_equal. apply (inj (fmap Some)). exact Hout.
  - apply Herr. intros Hin. apply Forall_cons in Hin as [Hin _]. simpl in Hin. lia.
Defined.

Lemma take_returns_rows_witness :
  ∃ t cs', reader_take_rows_async (sample_reader true) [1; 4; 5; 6; 10] 4 kSplitToParallelism None ∅ = (cs', Ok t) ∧
    fd_name <$> tb_schema t = ["x"; "w"; "v"] ∧ tb_num_rows t = 5.
Proof.
  destruct (take_returns_rows (sample_reader true) [group_v; group_w] None ["x"; "w"; "v"] [1; 4; 5; 6; 10] 4 3
    kSplitToParallelism ∅) as [_ (t & cs' & Ht & _ & Hres)].
  - apply sample_reader_ok.
  - apply sample_resolved.
  - done.
  - done.
  - repeat constructor.
  - repeat (apply Forall_cons; split); try apply Forall_nil_2; by vm_compute.
  - apply no_caches.
  - exists t, cs'. split_and!; [done|apply (tr_names _ _ _ _ Hres)|apply (tr_rows _ _ _ _ Hres)].
Defined.

Lemma take_refuses_bad_rows_witness :
  reader_take_rows (sample_reader true) [4; 11] 4 3 None ∅ = (∅, Err status_Invalid) ∧
  reader_take_rows_async (sample_reader true) [4; 11] 4 kSplitAll None ∅ = (∅, Err status_Invalid).
Proof.
  apply (take_refuses_bad_rows (sample_reader true) [group_v; group_w] 11 None ["x"; "w"; "v"]).
  - apply sample_reader_ok.
  - apply sample_resolved.
  - by repeat constructor.
  - done.
  - repeat (apply Forall_cons; split); try apply Forall_nil_2; by vm_compute.
  - intros [_ Hr]. apply Forall_cons in Hr as [_ Hr]. apply Forall_cons in Hr as [[_ Hr] _]. lia.
Defined.
End SampleTake.
