(* ===== verification/VortexPlanner.v ===== *)
(** * The vortex planner

    [format/vortex/vortex_planner.h/.cpp] with the types of [vortex_types.h] and
    [vortex_field_layout_internal.h]: the physical units of a field, or of all
    fields of a column group, become cells that tile the rows of the file; a
    request for a range of rows, or for single rows, becomes the cells to load
    and the row ranges to read.  The footer reader is an interface. *)

From S2P Require Import Prelude CppString Status.

(** ** Types *)

Record ByteRange := mkByteRange {
  br_offset : Z;
  br_length : Z;
}.

Record RowRange := mkRowRange {
  rr_start : Z;
  rr_end : Z;
}.

Inductive VortexPhysicalGranularity := kUnknown | kFlat | kRowGroup.

#[global] Instance VortexPhysicalGranularity_eq_dec : EqDecision VortexPhysicalGranularity.
Proof. solve_decision. Defined.

Record VortexCellMeta := mkCell {
  cell_id : Z;                          (* uint64_t, as all numbers here *)
  vc_granularity : VortexPhysicalGranularity;
  physical_unit_index : Z;
  vc_row_offset : Z;
  vc_row_count : Z;
  flat_segment_ids : list Z;
  flat_segment_ranges : list ByteRange;
  memory_bytes : Z;
  storage_bytes : Z;
}.

Record VortexFlatSegmentRange := mkSegment {
  seg_flat_id : Z;
  seg_byte_range : ByteRange;
}.

(** [VortexFlatUnit] and [VortexRowGroupUnit], with the index that
    [PhysicalUnitIndex] returns for either. *)
Record VortexUnit := mkUnit {
  PhysicalUnitIndex : Z;
  vu_row_offset : Z;
  vu_row_count : Z;
  vu_flat_segments : list VortexFlatSegmentRange;
}.

Record VortexFieldLayout := mkLayout {
  vl_granularity : VortexPhysicalGranularity;
  vl_flats : list VortexUnit;
  vl_row_groups : list VortexUnit;
}.

(** [VortexFooterReader]. *)
Class VortexFooter := {
  Footer : Type;
  footer_rows : Footer → Z;
  GetFieldLayout : Footer → string → outcome Status VortexFieldLayout;
  PruneRowGroups : Footer → string → list Z → outcome Status (list Z);
}.

(** ** Sizes *)

Definition CheckedAdd (total value : Z) : outcome Status Z :=
  if UINT64_MOD - 1 - value <? total then Err status_Invalid else Ok (total + value).

Definition SumByteRanges (ranges : list ByteRange) : outcome Status Z :=
  fold_out (λ bytes r, CheckedAdd bytes (br_length r)) ranges 0.

Definition SumFlatSegmentBytes (ranges : list VortexFlatSegmentRange) : outcome Status Z :=
  fold_out (λ bytes r, CheckedAdd bytes (br_length (seg_byte_range r))) ranges 0.

Definition SumCellBytes (metas : list VortexCellMeta) : outcome Status Z :=
  fold_out (λ bytes m, CheckedAdd bytes (Z.max (memory_bytes m) (storage_bytes m))) metas 0.

(** ** Validation *)

(** A flat segment belongs to one cell. *)
Definition add_unseen (seen : gset Z) (flat_segment_id : Z) : outcome Status (gset Z) :=
  if bool_decide (flat_segment_id ∈ seen) then Err status_Invalid else Ok ({[flat_segment_id]} ∪ seen).

(** The checks on the segments of a cell. *)
Definition check_segments (total_rows : Z) (seen : gset Z) (meta : VortexCellMeta) :
    outcome Status (gset Z) :=
  if negb (length (flat_segment_ids meta) =? length (flat_segment_ranges meta))%nat then Err status_Invalid
  else if bool_decide (flat_segment_ids meta = []) && negb ((total_rows =? 0) && (vc_row_count meta =? 0))
  then Err status_Invalid
  else fold_out add_unseen (flat_segment_ids meta) seen.

(** The checks on the rows of cell [i]: the row after them. *)
Definition check_rows_of_cell (total_rows next_row_offset : Z) (meta : VortexCellMeta) : outcome Status Z :=
  if (vc_row_count meta =? 0) && negb (total_rows =? 0) then Err status_Invalid
  else if negb (vc_row_offset meta =? next_row_offset) then Err status_Invalid
  else if UINT64_MOD - 1 - next_row_offset <? vc_row_count meta then Err status_Invalid
  else Ok (next_row_offset + vc_row_count meta).

Definition set_cell_id (i : Z) (m : VortexCellMeta) : VortexCellMeta :=
  mkCell i (vc_granularity m) (physical_unit_index m) (vc_row_offset m) (vc_row_count m)
    (flat_segment_ids m) (flat_segment_ranges m) (memory_bytes m) (storage_bytes m).

(** The loop over the sorted cells. *)
Fixpoint number_cells (total_rows i next_row_offset : Z) (metas : list VortexCellMeta) :
    outcome Status (list VortexCellMeta) :=
  match metas with
  | [] => if next_row_offset =? total_rows then Ok [] else Err status_Invalid
  | meta :: metas' =>
      next_row_offset ← check_rows_of_cell total_rows next_row_offset meta;
      rest ← number_cells total_rows (i + 1) next_row_offset metas';
      Ok (set_cell_id i meta :: rest)
  end.

Definition before (m1 m2 : VortexCellMeta) : Prop := vc_row_offset m1 ≤ vc_row_offset m2.

#[global] Instance before_dec m1 m2 : Decision (before m1 m2).
Proof. unfold before. apply _. Defined.

(** The cells sorted by row and numbered.  Only cells without rows can share a
    row offset. *)
Definition ValidateCellMetas (metas : list VortexCellMeta) (total_rows : Z) :
    outcome Status (list VortexCellMeta) :=
  match metas with
  | [] => if total_rows =? 0 then Ok [] else Err status_Invalid
  | _ =>
      fold_out (check_segments total_rows) metas ∅;;
      number_cells total_rows 0 0 (merge_sort before metas)
  end.

Definition check_ready (total_rows : Z) (acc : Z * Z * gset Z) (meta : VortexCellMeta) :
    outcome Status (Z * Z * gset Z) :=
  let '(i, next_row_offset, seen) := acc in
  if negb (cell_id meta =? i) then Err status_Invalid
  else
    next ← check_rows_of_cell total_rows next_row_offset meta;
    seen ← check_segments total_rows seen meta;
    Ok (i + 1, next, seen).

Definition ValidateCellMetasReady (metas : option (list VortexCellMeta)) (total_rows : Z) :
    outcome Status unit :=
  match metas with
  | None => Err status_Invalid
  | Some [] => if total_rows =? 0 then Ok tt else Err status_Invalid
  | Some metas =>
      r ← fold_out (check_ready total_rows) metas (0, 0, ∅);
      if r.1.2 =? total_rows then Ok tt else Err status_Invalid
  end.

(** ** Cells of a field *)

Definition unit_cell (granularity : VortexPhysicalGranularity) (u : VortexUnit) :
    outcome Status VortexCellMeta :=
  bytes ← SumFlatSegmentBytes (vu_flat_segments u);
  Ok (mkCell 0 granularity (PhysicalUnitIndex u) (vu_row_offset u) (vu_row_count u)
        (seg_flat_id <$> vu_flat_segments u) (seg_byte_range <$> vu_flat_segments u) bytes bytes).

(** [BuildCellMetasFromFlats] and [BuildCellMetasFromRowGroups]. *)
Definition BuildCellMetasFromUnits (granularity : VortexPhysicalGranularity) (units : list VortexUnit)
    (total_rows : Z) : outcome Status (list VortexCellMeta) :=
  metas ← fold_out (λ metas u, meta ← unit_cell granularity u; Ok (metas ++ [meta])) units [];
  ValidateCellMetas metas total_rows.

(** ** Cells of a column group *)

(** [AppendUniqueFlatSegments]: the cell and the segments seen in it. *)
Definition append_segment (acc : VortexCellMeta * gset Z) (s : VortexFlatSegmentRange) :
    VortexCellMeta * gset Z :=
  let '(m, seen) := acc in
  if bool_decide (seg_flat_id s ∈ seen) then (m, seen)
  else (mkCell (cell_id m) (vc_granularity m) (physical_unit_index m) (vc_row_offset m) (vc_row_count m)
          (flat_segment_ids m ++ [seg_flat_id s]) (flat_segment_ranges m ++ [seg_byte_range s])
          (memory_bytes m) (storage_bytes m), {[seg_flat_id s]} ∪ seen).

Definition AppendUniqueFlatSegments (acc : VortexCellMeta * gset Z)
    (flat_segments : list VortexFlatSegmentRange) : VortexCellMeta * gset Z :=
  foldl append_segment acc flat_segments.

Definition init_meta (granularity : VortexPhysicalGranularity) (u : VortexUnit) : VortexCellMeta * gset Z :=
  AppendUniqueFlatSegments
    (mkCell 0 granularity (PhysicalUnitIndex u) (vu_row_offset u) (vu_row_count u) [] [] 0 0, ∅)
    (vu_flat_segments u).

Definition units_of (layout : VortexFieldLayout) : outcome Status (list VortexUnit) :=
  match vl_granularity layout with
  | kFlat => Ok (vl_flats layout)
  | kRowGroup => Ok (vl_row_groups layout)
  | kUnknown => Err status_Invalid
  end.

Definition merge_unit (granularity : VortexPhysicalGranularity) (acc : VortexCellMeta * gset Z)
    (u : VortexUnit) : outcome Status (VortexCellMeta * gset Z) :=
  let meta := acc.1 in
  if negb (vu_row_offset u =? vc_row_offset meta) || negb (vu_row_count u =? vc_row_count meta)
  then Err status_Invalid
  else if bool_decide (granularity = kRowGroup) && negb (PhysicalUnitIndex u =? physical_unit_index meta)
  then Err status_Invalid
  else Ok (AppendUniqueFlatSegments acc (vu_flat_segments u)).

Fixpoint merge_all (granularity : VortexPhysicalGranularity) (metas : list (VortexCellMeta * gset Z))
    (units : list VortexUnit) : outcome Status (list (VortexCellMeta * gset Z)) :=
  match metas, units with
  | m :: metas', u :: units' =>
      m ← merge_unit granularity m u;
      rest ← merge_all granularity metas' units';
      Ok (m :: rest)
  | _, _ => Ok []
  end.

Definition merge_units (granularity : VortexPhysicalGranularity)
    (metas : list (VortexCellMeta * gset Z)) (layout : VortexFieldLayout) :
    outcome Status (list (VortexCellMeta * gset Z)) :=
  if negb (bool_decide (vl_granularity layout = granularity)) then Err status_Invalid
  else
    units ← units_of layout;
    if negb (length units =? length metas)%nat then Err status_Invalid
    else merge_all granularity metas units.

Definition set_bytes (m : VortexCellMeta) : outcome Status VortexCellMeta :=
  bytes ← SumByteRanges (flat_segment_ranges m);
  Ok (mkCell (cell_id m) (vc_granularity m) (physical_unit_index m) (vc_row_offset m) (vc_row_count m)
        (flat_segment_ids m) (flat_segment_ranges m) bytes bytes).

Definition BuildGroupCellMetas (layouts : list VortexFieldLayout) (field_names : list string) :
    outcome Status (list VortexCellMeta) :=
  if bool_decide (field_names = []) then Err status_Invalid
  else if negb (length layouts =? length field_names)%nat then Err status_Invalid
  else
    match layouts with
    | [] => Err status_Invalid
    | first_layout :: others =>
        let granularity := vl_granularity first_layout in
        units ← units_of first_layout;
        metas ← fold_out (merge_units granularity) others (init_meta granularity <$> (units : list _));
        fold_out (λ acc m, m ← set_bytes m.1; Ok (acc ++ [m])) metas []
    end.

Section planner.
Context `{VortexFooter}.

Definition BuildVortexCellMetas (footer_reader : option Footer) (field_name : string) :
    outcome Status (list VortexCellMeta) :=
  match footer_reader with
  | None => Err status_Invalid
  | Some f =>
      layout ← GetFieldLayout f field_name;
      units ← units_of layout;
      BuildCellMetasFromUnits (vl_granularity layout) units (footer_rows f)
  end.

Definition BuildVortexGroupCellMetas (footer_reader : option Footer) (field_names : list string) :
    outcome Status (list VortexCellMeta) :=
  match footer_reader with
  | None => Err status_Invalid
  | Some f =>
      if bool_decide (field_names = []) then Err status_Invalid
      else
        layouts ← fold_out (λ acc name, l ← GetFieldLayout f name; Ok (acc ++ [l])) field_names [];
        metas ← BuildGroupCellMetas layouts field_names;
        ValidateCellMetas metas (footer_rows f)
  end.

(** ** Plans *)

Record VortexPlanner := mkPlanner {
  vp_footer_reader : Footer;
  vp_field_name : string;
  vp_rows : Z;
  vp_cell_metas : list VortexCellMeta;
  vp_memory_bytes : Z;
}.

(** [Make]; [MakeGroup] is [Make] with the name of a column group. *)
Definition Make (footer_reader : option Footer) (field_name : string)
    (cell_metas : option (list VortexCellMeta)) : outcome Status VortexPlanner :=
  match footer_reader with
  | None => Err status_Invalid
  | Some f =>
      ValidateCellMetasReady cell_metas (footer_rows f);;
      metas ← deref cell_metas;
      bytes ← SumCellBytes metas;
      Ok (mkPlanner f field_name (footer_rows f) metas bytes)
  end.

Definition MakeGroup (footer_reader : option Footer) (cell_metas : option (list VortexCellMeta)) :
    outcome Status VortexPlanner := Make footer_reader "<column_group>" cell_metas.

(** [std::upper_bound] on the row offsets. *)
Fixpoint cells_upper_bound (row : Z) (metas : list VortexCellMeta) : nat :=
  match metas with
  | [] => 0
  | m :: metas' => if row <? vc_row_offset m then 0 else S (cells_upper_bound row metas')
  end.

Definition FindCellIndexForRow (metas : list VortexCellMeta) (row : Z) : nat :=
  (cells_upper_bound row metas - 1)%nat.

Definition cell_end (m : VortexCellMeta) : Z := u64_add (vc_row_offset m) (vc_row_count m).

(** The loop over the cells, from the one that may hold the first row. *)
Fixpoint cells_in_range (row_start row_end : Z) (metas : list VortexCellMeta) : list Z :=
  match metas with
  | [] => []
  | m :: metas' =>
      if row_end <=? vc_row_offset m then []
      else if (vc_row_offset m <? row_end) && (row_start <? cell_end m)
      then cell_id m :: cells_in_range row_start row_end metas'
      else cells_in_range row_start row_end metas'
  end.

Definition SelectCellIdsForRowRange (p : VortexPlanner) (row_start row_end : Z) :
    outcome Status (list Z) :=
  if (row_end <? row_start) || (vp_rows p <? row_end) then Err status_Invalid
  else if row_start =? row_end then Ok []
  else
    let metas := vp_cell_metas p in
    match cells_in_range row_start row_end (drop (FindCellIndexForRow metas row_start) metas) with
    | [] => Err status_Invalid
    | cell_ids => Ok cell_ids
    end.

Definition read_range (metas : list VortexCellMeta) (row_start row_end : Z) (acc : list RowRange)
    (cell_id : Z) : outcome Status (list RowRange) :=
  if Z.of_nat (length metas) <=? cell_id then Err status_Invalid
  else
    meta ← deref (metas !! Z.to_nat cell_id);
    let start := Z.max (vc_row_offset meta) row_start in
    let end' := Z.min (cell_end meta) row_end in
    Ok (if end' <=? start then acc else acc ++ [mkRowRange start end']).

Definition BuildReadRangesForCells (p : VortexPlanner) (cell_ids : list Z) (row_start row_end : Z) :
    outcome Status (list RowRange) :=
  if (row_end <? row_start) || (vp_rows p <? row_end) then Err status_Invalid
  else fold_out (read_range (vp_cell_metas p) row_start row_end) cell_ids [].

(** The row groups of the cells; [None] when a cell is not a row group. *)
Fixpoint candidate_row_groups (metas : list VortexCellMeta) (cell_ids : list Z) :
    outcome Status (option (list Z)) :=
  match cell_ids with
  | [] => Ok (Some [])
  | k :: cell_ids' =>
      if Z.of_nat (length metas) <=? k then Err status_Invalid
      else
        meta ← deref (metas !! Z.to_nat k);
        if negb (bool_decide (vc_granularity meta = kRowGroup)) then Ok None
        else
          rest ← candidate_row_groups metas cell_ids';
          Ok (option_map (cons (physical_unit_index meta)) rest)
  end.

Definition PruneCellsByPredicate (p : VortexPlanner) (cell_ids : list Z) (predicate : string) :
    outcome Status (list Z) :=
  if is_empty predicate || bool_decide (cell_ids = []) then Ok cell_ids
  else
    candidates ← candidate_row_groups (vp_cell_metas p) cell_ids;
    match candidates with
    | None => Ok cell_ids
    | Some ids =>
        kept ← PruneRowGroups (vp_footer_reader p) predicate ids;
        fold_out (λ acc k,
          meta ← deref (vp_cell_metas p !! Z.to_nat k);
          Ok (if bool_decide (physical_unit_index meta ∈ (kept : list Z)) then acc ++ [k] else acc))
          cell_ids []
    end.

Inductive VortexReadOp :=
  | RangeScan (ranges : list RowRange)
  | Take (row_indices : list Z) (ranges : list RowRange).

Record VortexPlan := mkPlan {
  plan_cell_ids : list Z;
  plan_op : VortexReadOp;
  plan_predicate : string;
  plan_apply_predicate : bool;
}.

Definition PlanForRowRange (p : VortexPlanner) (row_start row_end : Z) (predicate : string) :
    outcome Status VortexPlan :=
  candidate_cell_ids ← SelectCellIdsForRowRange p row_start row_end;
  cell_ids ← PruneCellsByPredicate p candidate_cell_ids predicate;
  read_ranges ← BuildReadRangesForCells p cell_ids row_start row_end;
  Ok (mkPlan cell_ids (RangeScan read_ranges) predicate true).

Fixpoint ValidateSortedUniqueOffsets (prev : option Z) (offsets : list Z) (total_rows : Z) :
    outcome Status unit :=
  match offsets with
  | [] => Ok tt
  | o :: offsets' =>
      if (o <? 0) || (total_rows <=? wrap_u64 o) then Err status_Invalid
      else if match prev with Some q => o <=? q | None => false end then Err status_Invalid
      else ValidateSortedUniqueOffsets (Some o) offsets' total_rows
  end.

(** The inner loop: the cells from the first that ends after the row. *)
Fixpoint skip_cells (row : Z) (metas : list VortexCellMeta) : list VortexCellMeta :=
  match metas with
  | [] => []
  | m :: metas' => if cell_end m <=? row then skip_cells row metas' else metas
  end.

Fixpoint cells_for_offsets (metas : list VortexCellMeta) (offsets : list Z) (cell_ids : list Z) :
    outcome Status (list Z) :=
  match offsets with
  | [] => Ok cell_ids
  | row :: offsets' =>
      match skip_cells row metas with
      | [] => Err status_Invalid
      | m :: metas' =>
          if negb ((vc_row_offset m <=? row) && (row <? cell_end m)) then Err status_Invalid
          else
            cells_for_offsets (m :: metas') offsets'
              (if bool_decide (last cell_ids = Some (cell_id m)) then cell_ids
               else cell_ids ++ [cell_id m])
      end
  end.

Definition SelectCellIdsForOffsets (p : VortexPlanner) (offsets : list Z) : outcome Status (list Z) :=
  match offsets with
  | [] => Ok []
  | _ =>
      ValidateSortedUniqueOffsets None offsets (vp_rows p);;
      cells_for_offsets (vp_cell_metas p) offsets []
  end.

Definition PlanForOffsets (p : VortexPlanner) (offsets : list Z) : outcome Status VortexPlan :=
  cell_ids ← SelectCellIdsForOffsets p offsets;
  read_ranges ← BuildReadRangesForCells p cell_ids 0 (vp_rows p);
  Ok (mkPlan cell_ids (Take offsets read_ranges) EmptyString false).
End planner.
