(* ===== verification/VortexPlannerCorrect.v ===== *)
(** * Vortex plans cover what was asked for

    Cells that pass validation tile the rows of the file; what the builders
    return, the planner accepts; a plan for a range reads exactly its rows, out
    of exactly the cells that overlap it, except for row groups that the footer
    prunes; a plan for single rows loads exactly the cells that hold them. *)

From S2P Require Import Prelude CppString Status VortexPlanner.

(** ** Validated cells *)

Section cells.

(** Cells that follow each other from row [a] to row [b]. *)
Fixpoint tiles (a b : Z) (metas : list VortexCellMeta) : Prop :=
  match metas with
  | [] => a = b
  | m :: metas' => vc_row_offset m = a ∧ 0 ≤ vc_row_count m ∧ tiles (a + vc_row_count m) b metas'
  end.

Definition segments_ok (total_rows : Z) (m : VortexCellMeta) : Prop :=
  length (flat_segment_ids m) = length (flat_segment_ranges m) ∧
  (flat_segment_ids m = [] → total_rows = 0 ∧ vc_row_count m = 0).

Definition all_segments (metas : list VortexCellMeta) : list Z := mjoin (flat_segment_ids <$> metas).

Definition counts_ok (metas : list VortexCellMeta) : Prop := Forall (λ m, 0 ≤ vc_row_count m) metas.

Record cells_ok (total_rows : Z) (metas : list VortexCellMeta) : Prop := {
  co_tiles : tiles 0 total_rows metas;
  co_ids : ∀ i m, metas !! i = Some m → cell_id m = Z.of_nat i;
  co_pos : total_rows ≠ 0 → Forall (λ m, 0 < vc_row_count m) metas;
  co_segments : Forall (segments_ok total_rows) metas;
  co_unique : NoDup (all_segments metas);
  co_bound : 0 ≤ total_rows < UINT64_MOD;
}.

Lemma add_unseen_spec ids seen seen' :
  fold_out add_unseen ids seen = Ok seen' ↔
  NoDup ids ∧ (∀ x, x ∈ ids → x ∉ seen) ∧ seen' = list_to_set ids ∪ seen.
Proof.
  revert seen. induction ids as [|x ids IH]; intros seen; simpl.
  - split; [intros [= <-]; split_and!; [constructor|set_solver|set_solver]|].
    intros (_ & _ & ->). f_equal. set_solver.
  - assert (add_unseen seen x = if decide (x ∈ seen) then Err status_Invalid else Ok ({[x]} ∪ seen)) as ->.
    { unfold add_unseen. case_decide; [by rewrite bool_decide_true|by rewrite bool_decide_false]. }
    case_decide as Hx.
    + split; [done|]. intros (_ & Hn & _). exfalso. by apply (Hn x); [left|].
    + rewrite bind_Ok, IH, NoDup_cons. split.
      * intros (Hnd & Hd & ->). split_and!; [set_solver|done|set_solver|set_solver].
      * intros ((Hxi & Hnd) & Hd & ->). split_and!; [done|set_solver|set_solver].
Qed.

Lemma check_segments_spec total_rows seen m seen' :
  check_segments total_rows seen m = Ok seen' ↔
  segments_ok total_rows m ∧ NoDup (flat_segment_ids m) ∧ (∀ x, x ∈ flat_segment_ids m → x ∉ seen) ∧
  seen' = list_to_set (flat_segment_ids m) ∪ seen.
Proof.
  unfold check_segments, segments_ok.
  destruct (Nat.eqb_spec (length (flat_segment_ids m)) (length (flat_segment_ranges m))) as [Hl|Hl]; simpl.
  2:{ naive_solver. }
  destruct (bool_decide (flat_segment_ids m = []) && negb ((total_rows =? 0) && (vc_row_count m =? 0))) eqn:Hc.
  - split; [done|]. intros ((_ & Hz) & _). apply andb_true_iff in Hc as [Hn%bool_decide_eq_true Hc].
    destruct (Hz Hn) as [Ht Hr]. by rewrite Ht, Hr in Hc.
  - rewrite add_unseen_spec. split; [|tauto]. intros (Hnd & Hd & ->). split; [split; [done|]|done].
    intros Hn. rewrite bool_decide_true in Hc by done. simpl in Hc.
    apply negb_false_iff, andb_true_iff in Hc as [H1 H2]. by apply Z.eqb_eq in H1, H2.
Qed.

Lemma all_segments_spec total_rows metas seen seen' :
  fold_out (check_segments total_rows) metas seen = Ok seen' ↔
  Forall (segments_ok total_rows) metas ∧ NoDup (all_segments metas) ∧
  (∀ x, x ∈ all_segments metas → x ∉ seen) ∧ seen' = list_to_set (all_segments metas) ∪ seen.
Proof.
  unfold all_segments. revert seen. induction metas as [|m metas IH]; intros seen.
  - simpl. split; [intros [= <-]; split_and!; [constructor|constructor|set_solver|set_solver]|].
    intros (_ & _ & _ & ->). f_equal. set_solver.
  - cbn [fold_out]. rewrite fmap_cons. simpl. rewrite NoDup_app, Forall_cons. split.
    + intros Hb. apply bind_Ok_inv in Hb as (seen1 & Hm & Hr). apply check_segments_spec in Hm as (Ho & Hnd & Hd & ->).
      apply IH in Hr as (Hall & Hnd2 & Hd2 & ->). split_and!; try done; [set_solver|set_solver|].
      rewrite list_to_set_app_L. set_solver.
    + intros ((Ho & Hall) & (Hnd & Hdis & Hnd2) & Hd & ->).
      assert (check_segments total_rows seen m = Ok (list_to_set (flat_segment_ids m) ∪ seen)) as ->
        by (apply check_segments_spec; split_and!; [done|done|set_solver|done]).
      rewrite bind_Ok. apply IH. split_and!; [done|done| |rewrite list_to_set_app_L; set_solver].
      intros x Hx. rewrite elem_of_union, elem_of_list_to_set. intros [Hx'|Hx']; [by apply (Hdis x)|].
      apply (Hd x); [apply elem_of_app; by right|done].
Qed.

Lemma check_rows_of_cell_spec total_rows a m b :
  0 ≤ vc_row_count m →
  check_rows_of_cell total_rows a m = Ok b ↔
  (total_rows ≠ 0 → 0 < vc_row_count m) ∧ vc_row_offset m = a ∧ b = a + vc_row_count m ∧ b < UINT64_MOD.
Proof.
  intros Hc. unfold check_rows_of_cell.
  destruct ((vc_row_count m =? 0) && negb (total_rows =? 0)) eqn:Hz.
  { apply andb_true_iff in Hz as [H1%Z.eqb_eq H2%negb_true_iff%Z.eqb_neq]. split; [done|].
    intros (Hp & _). specialize (Hp H2). lia. }
  destruct (Z.eqb_spec (vc_row_offset m) a); simpl; [|split; [done|by intros (_ & ? & _)]].
  destruct (Z.ltb_spec (UINT64_MOD - 1 - a) (vc_row_count m)); [split; [done|intros (_ & _ & ? & ?); lia]|].
  split; [|by intros (_ & _ & -> & _)]. intros [= <-]. split_and!; [|done|done|lia].
  intros Ht. apply andb_false_iff in Hz as [H1%Z.eqb_neq|H2%negb_false_iff%Z.eqb_eq]; lia.
Qed.

(** What [ValidateCellMetasReady] accepts. *)
Lemma check_ready_fold total_rows metas i a seen i' b seen' :
  counts_ok metas → 0 ≤ a < UINT64_MOD →
  fold_out (check_ready total_rows) metas (i, a, seen) = Ok (i', b, seen') ↔
  i' = i + Z.of_nat (length metas) ∧ tiles a b metas ∧ b < UINT64_MOD ∧
  (∀ j m, metas !! j = Some m → cell_id m = i + Z.of_nat j) ∧
  (total_rows ≠ 0 → Forall (λ m, 0 < vc_row_count m) metas) ∧
  fold_out (check_segments total_rows) metas seen = Ok seen'.
Proof.
  intros Hc. revert i a seen. induction Hc as [|m metas Hm Hc IH]; intros i a seen Ha.
  - simpl. split; [intros [= <- <- <-]; split_and!; try done; lia|].
    intros (-> & -> & _ & _ & _ & Hs). injection Hs as <-. do 3 f_equal. lia.
  - cbn [fold_out]. split.
    + intros Hb. apply bind_Ok_inv in Hb as ([[i1 a1] s1] & Hm1 & Hr). unfold check_ready in Hm1.
      destruct (Z.eqb_spec (cell_id m) i) as [Hid|]; simpl in Hm1; [|done].
      apply bind_Ok_inv in Hm1 as (a2 & Hrow & Hm1). apply bind_Ok_inv in Hm1 as (s2 & Hseg & Hm1). simplify_eq.
      apply check_rows_of_cell_spec in Hrow as (Hp & Ho & -> & Hlt); [|done].
      apply IH in Hr as (-> & Ht & Hb & Hids & Hpos & Hsegs); [|lia]. split_and!; try done; [simpl; lia| | |].
      * intros [|j] m' Hj; simplify_eq/=; [lia|]. rewrite (Hids j m' Hj). lia.
      * intros Hn. constructor; auto.
      * by rewrite Hseg, bind_Ok.
    + intros (-> & (Ho & _ & Ht) & Hb & Hids & Hpos & Hsegs). apply bind_Ok_inv in Hsegs as (s1 & Hseg & Hsegs).
      assert (b < UINT64_MOD ∧ a + vc_row_count m ≤ b) as [_ Hle].
      { split; [done|]. clear -Ht Hc. revert Ht. generalize (a + vc_row_count m).
        induction Hc as [|x metas Hx Hc IH]; simpl; [lia|]. intros z (_ & ? & Ht). specialize (IH _ Ht). lia. }
      assert (check_ready total_rows (i, a, seen) m = Ok (i + 1, a + vc_row_count m, s1)) as ->.
      { unfold check_ready. rewrite (Hids 0%nat m) by done. rewrite Z.add_0_r, Z.eqb_refl. simpl.
        assert (check_rows_of_cell total_rows a m = Ok (a + vc_row_count m)) as ->.
        { apply check_rows_of_cell_spec; [done|]. split_and!; [|done|done|lia].
          intros Hn. specialize (Hpos Hn). by apply Forall_cons in Hpos as [? _]. }
        by rewrite bind_Ok, Hseg, bind_Ok. }
      rewrite bind_Ok. apply IH; [lia|]. split_and!; try done; [simpl; lia| |].
      * intros j m' Hj. rewrite (Hids (S j) m') by done. lia.
      * intros Hn. specialize (Hpos Hn). by apply Forall_cons in Hpos as [_ ?].
Qed.

Lemma tiles_le a b metas : counts_ok metas → tiles a b metas → a ≤ b.
Proof.
  intros Hc. revert a. induction Hc as [|m metas Hm Hc IH]; intros a; simpl; [lia|].
  intros (_ & _ & Ht). specialize (IH _ Ht). lia.
Qed.

Lemma ready_spec metas total_rows :
  counts_ok metas → 0 ≤ total_rows < UINT64_MOD →
  ValidateCellMetasReady (Some metas) total_rows = Ok tt ↔ cells_ok total_rows metas.
Proof.
  intros Hc Ht. unfold ValidateCellMetasReady. destruct metas as [|m metas].
  - destruct (Z.eqb_spec total_rows 0) as [->|Hne].
    + split; [intros _; split; try done; try constructor|done].
    + split; [done|]. intros [Hti _ _ _ _ _]. simpl in Hti. lia.
  - set (l := m :: metas) in *. split.
    + intros Hb. apply bind_Ok_inv in Hb as ([[i b] seen] & Hf & Hb). simpl in Hb.
      destruct (Z.eqb_spec b total_rows) as [->|]; [|done].
      apply check_ready_fold in Hf as (_ & Hti & Hlt & Hids & Hpos & Hseg); [|done|done].
      apply all_segments_spec in Hseg as (Hall & Hnd & _ & _). split; try done.
    + intros [Hti Hids Hpos Hall Hnd Hbnd].
      assert (fold_out (check_ready total_rows) l (0, 0, ∅) =
        Ok (0 + Z.of_nat (length l), total_rows, list_to_set (all_segments l) ∪ ∅)) as ->.
      { apply check_ready_fold; [done|done|]. split_and!; try done; [lia|].
        apply all_segments_spec. split_and!; try done. }
      rewrite bind_Ok. simpl. by rewrite Z.eqb_refl.
Qed.

(** ** Built cells are ready *)

Lemma number_cells_spec total_rows i a metas out :
  counts_ok metas → 0 ≤ a < UINT64_MOD → number_cells total_rows i a metas = Ok out →
  tiles a total_rows out ∧ total_rows < UINT64_MOD ∧
  (∀ j m, out !! j = Some m → cell_id m = i + Z.of_nat j) ∧
  (total_rows ≠ 0 → Forall (λ m, 0 < vc_row_count m) out) ∧ counts_ok out ∧
  Forall2 (λ m m', flat_segment_ids m' = flat_segment_ids m ∧
             (segments_ok total_rows m → segments_ok total_rows m')) metas out.
Proof.
  intros Hc. revert i a out. induction Hc as [|m metas Hm Hc IH]; intros i a out Ha Hn.
  - simpl in Hn. destruct (Z.eqb_spec a total_rows); simplify_eq. split_and!; try done; [lia|by intros..|].
    constructor.
  - cbn [number_cells] in Hn. apply bind_Ok_inv in Hn as (b & Hrow & Hn).
    apply bind_Ok_inv in Hn as (rest & Hr & Hn). simplify_eq.
    apply check_rows_of_cell_spec in Hrow as (Hp & Ho & -> & Hlt); [|done].
    destruct (IH (i + 1) (a + vc_row_count m) rest ltac:(lia) Hr) as (Ht & Hb & Hids & Hpos & Hcnt & Hseg). split_and!; try done.
    + intros [|j] m' Hj; simplify_eq/=; [lia|]. rewrite (Hids j m' Hj). lia.
    + intros Hne. constructor; auto.
    + by constructor.
    + by constructor.
Qed.

Lemma validated_ready metas total_rows out :
  counts_ok metas → 0 ≤ total_rows < UINT64_MOD →
  ValidateCellMetas metas total_rows = Ok out → cells_ok total_rows out ∧ counts_ok out.
Proof.
  intros Hc Ht Hv. unfold ValidateCellMetas in Hv. destruct metas as [|m metas].
  { destruct (Z.eqb_spec total_rows 0) as [->|]; simplify_eq.
    split; [split; try done; try constructor|constructor]. }
  set (l := m :: metas) in *. apply bind_Ok_inv in Hv as (seen & Hseg & Hn).
  apply all_segments_spec in Hseg as (Hall & Hnd & _ & _).
  pose proof (merge_sort_Permutation before l) as Hperm.
  apply number_cells_spec in Hn as (Hti & _ & Hids & Hpos & Hcnt & Hf2); [|unfold counts_ok; by rewrite Hperm|done].
  split; [|done]. split; try done.
  - assert (Forall (segments_ok total_rows) (merge_sort before l)) as Hall' by by rewrite Hperm.
    clear -Hf2 Hall'. induction Hf2 as [|x y ? ? [_ Hs] ? IH]; [constructor|].
    apply Forall_cons in Hall' as [Hx Hall']. constructor; auto.
  - assert (all_segments out = all_segments (merge_sort before l)) as ->.
    { clear -Hf2. unfold all_segments. induction Hf2 as [|x y ? ? [Hs _] ? IH]; [done|].
      rewrite !fmap_cons. simpl. by rewrite Hs, IH. }
    unfold all_segments in *. by rewrite Hperm.
Qed.

Definition unit_ok (u : VortexUnit) : Prop := 0 ≤ vu_row_count u.
Definition layout_ok (l : VortexFieldLayout) : Prop :=
  Forall unit_ok (vl_flats l) ∧ Forall unit_ok (vl_row_groups l).

Lemma units_ok layout units : layout_ok layout → units_of layout = Ok units → Forall unit_ok units.
Proof. intros [H1 H2]. unfold units_of. destruct (vl_granularity layout); intros; by simplify_eq. Qed.

Lemma unit_cells_counts g units acc out :
  Forall unit_ok units → counts_ok acc →
  fold_out (λ metas u, meta ← unit_cell g u; Ok (metas ++ [meta])) units acc = Ok out → counts_ok out.
Proof.
  intros Hu. revert acc. induction Hu as [|u units Hu Hus IH]; intros acc Hacc Hf; simpl in Hf; [by simplify_eq|].
  apply bind_Ok_inv in Hf as (acc1 & Hm & Hf). apply bind_Ok_inv in Hm as (m & Hm & Hacc1). simplify_eq.
  apply (IH (acc ++ [m])); [|done]. apply Forall_app. split; [done|]. constructor; [|constructor].
  unfold unit_cell in Hm. apply bind_Ok_inv in Hm as (bytes & _ & Hm). by simplify_eq.
Qed.

Lemma append_segments_count acc l : vc_row_count (AppendUniqueFlatSegments acc l).1 = vc_row_count acc.1.
Proof.
  unfold AppendUniqueFlatSegments. revert acc. induction l as [|x l IH]; intros [m seen]; [done|].
  cbn [foldl]. rewrite IH. unfold append_segment. by destruct (bool_decide _).
Qed.

Definition metas_ok (l : list (VortexCellMeta * gset Z)) : Prop := Forall (λ x, 0 ≤ vc_row_count x.1) l.

Lemma merge_all_counts g metas units out :
  metas_ok metas → merge_all g metas units = Ok out → metas_ok out.
Proof.
  intros Hm. revert units out. induction Hm as [|m metas Hm Hms IH]; intros units out Hf; simpl in Hf.
  { by simplify_eq; constructor. }
  destruct units as [|u units]; [simplify_eq; constructor|].
  apply bind_Ok_inv in Hf as (m1 & Hm1 & Hf). apply bind_Ok_inv in Hf as (rest & Hr & Hf). simplify_eq.
  constructor; [|by eapply IH]. unfold merge_unit in Hm1. repeat case_match; simplify_eq.
  by rewrite append_segments_count.
Qed.

Lemma set_bytes_counts metas acc out :
  metas_ok metas → counts_ok acc →
  fold_out (λ acc m, m ← set_bytes m.1; Ok (acc ++ [m])) metas acc = Ok out → counts_ok out.
Proof.
  intros Hm. revert acc. induction Hm as [|m metas Hm Hms IH]; intros acc Hacc Hf; simpl in Hf; [by simplify_eq|].
  apply bind_Ok_inv in Hf as (acc1 & Hs & Hf). apply bind_Ok_inv in Hs as (m1 & Hs & Ha). simplify_eq.
  apply (IH (acc ++ [m1])); [|done]. apply Forall_app. split; [done|]. constructor; [|constructor].
  unfold set_bytes in Hs. apply bind_Ok_inv in Hs as (bytes & _ & Hs). by simplify_eq.
Qed.

Lemma group_cells_counts layouts names out :
  Forall layout_ok layouts → BuildGroupCellMetas layouts names = Ok out → counts_ok out.
Proof.
  intros Hl Hb. unfold BuildGroupCellMetas in Hb. case_bool_decide; [done|]. case_match; [done|].
  destruct Hl as [|layout layouts Hl Hls]; [done|]. apply bind_Ok_inv in Hb as (units & Hu & Hb).
  apply bind_Ok_inv in Hb as (metas & Hm & Hb). pose proof (units_ok layout units Hl Hu) as Huok.
  assert (metas_ok metas) as Hmok.
  { assert (metas_ok (init_meta (vl_granularity layout) <$> units)) as Hinit.
    { unfold metas_ok. rewrite Forall_fmap. eapply Forall_impl; [exact Huok|]. intros u Hu'. simpl.
      unfold init_meta. by rewrite append_segments_count. }
    revert Hm Hinit. generalize (init_meta (vl_granularity layout) <$> units). clear.
    induction layouts as [|l layouts IH]; intros acc Hf Hacc; simpl in Hf; [by simplify_eq|].
    apply bind_Ok_inv in Hf as (acc1 & Hm & Hf). apply (IH acc1 Hf). unfold merge_units in Hm.
    case_match; [done|]. apply bind_Ok_inv in Hm as (us & _ & Hm). case_match; [done|].
    by eapply merge_all_counts. }
  by eapply set_bytes_counts; [| |exact Hb]; [|constructor].
Qed.
End cells.

(** ** Plans for a range of rows *)

Section plans.
Context `{VortexFooter}.

Record planner_ok (p : VortexPlanner) : Prop := {
  po_cells : cells_ok (vp_rows p) (vp_cell_metas p);
  po_counts : counts_ok (vp_cell_metas p);
}.

Lemma Make_ok f name metas p :
  0 ≤ footer_rows f < UINT64_MOD → counts_ok metas → Make (Some f) name (Some metas) = Ok p →
  planner_ok p ∧ vp_rows p = footer_rows f ∧ vp_cell_metas p = metas ∧ vp_footer_reader p = f.
Proof.
  intros Hr Hc Hm. unfold Make in Hm. apply bind_Ok_inv in Hm as ([] & Hv & Hm).
  cbn [deref] in Hm. rewrite bind_Ok in Hm. apply bind_Ok_inv in Hm as (bytes & _ & Hm). simplify_eq/=.
  split_and!; [|done|done|done]. split; [|done]. by apply ready_spec.
Qed.

Definition cell_rows (m : VortexCellMeta) : list Z := seg (vc_row_offset m) (vc_row_offset m + vc_row_count m).
Definition range_rows (r : RowRange) : list Z := seg (rr_start r) (rr_end r).
Definition rows_of_ranges (ranges : list RowRange) : list Z := mjoin (range_rows <$> ranges).

(** The rows of a cell within [lo..hi). *)
Definition clip (lo hi : Z) (m : VortexCellMeta) : list Z :=
  seg (Z.max lo (vc_row_offset m)) (Z.min hi (vc_row_offset m + vc_row_count m)).

Definition overlaps (lo hi : Z) (m : VortexCellMeta) : Prop :=
  vc_row_offset m < hi ∧ lo < vc_row_offset m + vc_row_count m.

#[global] Instance overlaps_dec lo hi m : Decision (overlaps lo hi m).
Proof. unfold overlaps. apply _. Defined.

Lemma clip_tiles lo hi a b metas :
  counts_ok metas → tiles a b metas → mjoin (clip lo hi <$> metas) = seg (Z.max lo a) (Z.min hi b) .
Proof.
  intros Hc. revert a. induction Hc as [|m metas Hm Hc IH]; intros a Ht; simpl in Ht.
  - subst. symmetry. apply seg_nil. lia.
  - destruct Ht as (Ho & _ & Ht). rewrite fmap_cons. simpl. rewrite (IH _ Ht). unfold clip. rewrite Ho.
    symmetry. apply seg_clip. pose proof (tiles_le _ _ _ Hc Ht). lia.
Qed.

(** Cells that do not overlap a range contribute nothing to it. *)
Lemma clip_filter lo hi metas (P : VortexCellMeta → Prop) `{∀ m, Decision (P m)} :
  (∀ m, m ∈ metas → ¬ P m → clip lo hi m = []) →
  mjoin (clip lo hi <$> filter P metas) = mjoin (clip lo hi <$> metas).
Proof.
  intros Hn. induction metas as [|m metas IH]; [done|]. rewrite filter_cons, fmap_cons. simpl.
  assert (∀ m, m ∈ metas → ¬ P m → clip lo hi m = []) as Hn' by (intros m' Hm'; apply Hn; by right).
  case_decide as HP.
  - rewrite fmap_cons. simpl. by rewrite IH.
  - rewrite (Hn m) by (done || by left). by rewrite IH.
Qed.

Lemma clip_not_overlaps lo hi m : ¬ overlaps lo hi m → clip lo hi m = [].
Proof. unfold overlaps, clip. intros Hn. apply seg_nil. lia. Qed.

(** Within a tiling, ends do not wrap and offsets grow. *)
Lemma tiles_bounds a b metas m :
  counts_ok metas → tiles a b metas → m ∈ metas → a ≤ vc_row_offset m ∧ vc_row_offset m + vc_row_count m ≤ b.
Proof.
  intros Hc. revert a. induction Hc as [|x metas Hx Hc IH]; intros a Ht Hm; [by apply not_elem_of_nil in Hm|].
  destruct Ht as (Ho & _ & Ht). apply elem_of_cons in Hm as [->|Hm].
  - pose proof (tiles_le _ _ _ Hc Ht). lia.
  - specialize (IH _ Ht Hm). lia.
Qed.

Lemma cell_end_small a b metas m :
  counts_ok metas → tiles a b metas → 0 ≤ a → b < UINT64_MOD → m ∈ metas →
  cell_end m = vc_row_offset m + vc_row_count m.
Proof.
  intros Hc Ht Ha Hb Hm. pose proof (tiles_bounds a b metas m Hc Ht Hm).
  eapply Forall_forall in Hc; [|done]. simpl in Hc. apply u64_add_small. lia.
Qed.

Lemma cells_in_range_spec lo hi a b metas :
  counts_ok metas → tiles a b metas → 0 ≤ a → b < UINT64_MOD →
  cells_in_range lo hi metas = cell_id <$> filter (overlaps lo hi) metas.
Proof.
  intros Hc. revert a. induction Hc as [|m metas Hm Hc IH]; intros a Ht Ha Hb; [done|].
  assert (counts_ok (m :: metas)) as Hcm by by constructor.
  pose proof (cell_end_small a b (m :: metas) m Hcm Ht Ha Hb ltac:(by left)) as He.
  destruct Ht as (Ho & _ & Ht). cbn [cells_in_range]. rewrite He, filter_cons.
  assert (∀ x, x ∈ metas → vc_row_offset m + vc_row_count m ≤ vc_row_offset x) as Hlater.
  { intros x Hx. pose proof (tiles_bounds _ _ _ x Hc Ht Hx). lia. }
  destruct (Z.leb_spec hi (vc_row_offset m)) as [Hle|Hlt].
  - rewrite decide_False by (unfold overlaps; lia). symmetry.
    assert (filter (overlaps lo hi) metas = []) as ->; [|done].
    apply elem_of_nil_inv. intros x [[Hx1 _] Hx]%list_elem_of_filter. specialize (Hlater x Hx). lia.
  - rewrite (IH _ Ht) by lia. unfold overlaps at 1.
    destruct (Z.ltb_spec (vc_row_offset m) hi); [|lia]. simpl.
    destruct (Z.ltb_spec lo (vc_row_offset m + vc_row_count m)).
    + rewrite decide_True by (unfold overlaps; lia). done.
    + rewrite decide_False by (unfold overlaps; lia). done.
Qed.

(** The cells before the one that holds the first row do not overlap. *)
Lemma find_cell_drop lo hi a b metas :
  counts_ok metas → tiles a b metas → a ≤ lo →
  filter (overlaps lo hi) metas = filter (overlaps lo hi) (drop (FindCellIndexForRow metas lo) metas) ∧
  ∃ a', a ≤ a' ∧ tiles a' b (drop (FindCellIndexForRow metas lo) metas).
Proof.
  unfold FindCellIndexForRow. intros Hc. revert a. induction Hc as [|m metas Hm Hc IH]; intros a Ht Ha.
  - split; [done|]. exists a. split; [lia|done].
  - destruct Ht as (Ho & Hm0 & Ht). cbn [cells_upper_bound]. destruct (Z.ltb_spec lo (vc_row_offset m)); [lia|].
    destruct metas as [|m2 metas].
    { simpl. split; [done|]. exists a. split; [lia|done]. }
    simpl in Ht. destruct Ht as (Ho2 & Hm2 & Ht). cbn [cells_upper_bound] in *.
    destruct (Z.ltb_spec lo (vc_row_offset m2)) as [Hlt|Hge].
    + simpl. split; [done|]. exists a. split; [lia|]. done.
    + destruct (IH (a + vc_row_count m)) as [Hf (a' & Ha' & Ht')]; [done|lia|].
      replace (S (S (cells_upper_bound lo metas)) - 1)%nat with (S (S (cells_upper_bound lo metas) - 1)) by lia.
      cbn [drop]. split; [|exists a'; split; [lia|done]]. rewrite filter_cons_False; [exact Hf|].
      unfold overlaps. lia.
Qed.

Lemma filter_drop_sub (P : VortexCellMeta → Prop) `{∀ m, Decision (P m)} n metas m :
  m ∈ filter P (drop n metas) → m ∈ metas.
Proof. intros [_ Hm]%list_elem_of_filter. by eapply subseteq_drop. Qed.

Lemma select_spec p lo hi :
  planner_ok p → 0 ≤ lo →
  SelectCellIdsForRowRange p lo hi =
    if (hi <? lo) || (vp_rows p <? hi) then Err status_Invalid
    else Ok (if lo =? hi then [] else cell_id <$> filter (overlaps lo hi) (vp_cell_metas p)).
Proof.
  intros [[Ht Hids Hpos Hseg Hnd Hb] Hc] Hlo. unfold SelectCellIdsForRowRange.
  destruct ((hi <? lo) || (vp_rows p <? hi)) eqn:Hout; [done|].
  apply orb_false_iff in Hout as [H1%Z.ltb_ge H2%Z.ltb_ge].
  destruct (Z.eqb_spec lo hi) as [|Hne]; [done|].
  destruct (find_cell_drop lo hi 0 (vp_rows p) (vp_cell_metas p) Hc Ht Hlo) as [Hf (a' & Ha' & Ht')].
  set (n := FindCellIndexForRow (vp_cell_metas p) lo) in *.
  assert (counts_ok (drop n (vp_cell_metas p))) as Hcd by (by apply Forall_drop).
  rewrite (cells_in_range_spec lo hi a' (vp_rows p)) by (done || lia). rewrite <- Hf.
  destruct (filter (overlaps lo hi) (vp_cell_metas p)) as [|m l] eqn:Hm; [|done]. exfalso.
  assert (mjoin (clip lo hi <$> filter (overlaps lo hi) (vp_cell_metas p)) = seg lo hi) as Hrows.
  { rewrite clip_filter by (intros m _; apply clip_not_overlaps). rewrite (clip_tiles lo hi 0 (vp_rows p)) by done.
    f_equal; lia. }
  rewrite Hm in Hrows. apply (f_equal length) in Hrows. rewrite length_seg in Hrows. simpl in Hrows. lia.
Qed.

(** The range that a cell contributes. *)
Definition clip_range (lo hi : Z) (m : VortexCellMeta) : option RowRange :=
  let a := Z.max (vc_row_offset m) lo in
  let b := Z.min (vc_row_offset m + vc_row_count m) hi in
  if b <=? a then None else Some (mkRowRange a b).

Lemma clip_range_rows lo hi ms :
  rows_of_ranges (omap (clip_range lo hi) ms) = mjoin (clip lo hi <$> ms).
Proof.
  unfold rows_of_ranges. induction ms as [|m ms IH]; [done|]. rewrite fmap_cons. simpl. rewrite <- IH.
  unfold clip. rewrite (Z.max_comm lo), (Z.min_comm hi). unfold clip_range at 1.
  destruct (Z.leb_spec (Z.min (vc_row_offset m + vc_row_count m) hi) (Z.max (vc_row_offset m) lo)); [|done].
  by rewrite (seg_nil (Z.max _ _)).
Qed.

Lemma read_ranges_spec p lo hi ms acc :
  planner_ok p → Forall (λ m, m ∈ vp_cell_metas p) ms →
  fold_out (read_range (vp_cell_metas p) lo hi) (cell_id <$> ms) acc = Ok (acc ++ omap (clip_range lo hi) ms).
Proof.
  intros [[Ht Hids Hpos Hseg Hnd Hb] Hc] Hms. revert acc. induction Hms as [|m ms Hm Hms IH]; intros acc.
  - by rewrite app_nil_r.
  - rewrite fmap_cons. cbn [fold_out]. pose proof Hm as Hm'. apply list_elem_of_lookup in Hm' as [i Hi].
    assert (read_range (vp_cell_metas p) lo hi acc (cell_id m)
      = Ok (acc ++ match clip_range lo hi m with Some r => [r] | None => [] end)) as ->.
    { apply lookup_lt_Some in Hi as Hlt. unfold read_range, clip_range. rewrite (Hids i m Hi), Nat2Z.id, Hi.
      destruct (Z.leb_spec (Z.of_nat (length (vp_cell_metas p))) (Z.of_nat i)); [lia|]. cbn [deref].
      rewrite bind_Ok, (cell_end_small 0 (vp_rows p) (vp_cell_metas p)) by (done || lia).
      cbv zeta. case_match; [by rewrite app_nil_r|done]. }
    rewrite bind_Ok, IH. simpl. destruct (clip_range lo hi m); by rewrite <- app_assoc.
Qed.

(** Which of the cells [ms] a predicate keeps. *)
Inductive pruned (p : VortexPlanner) (predicate : string) (ms : list VortexCellMeta) :
    list VortexCellMeta → Prop :=
  | pruned_all : pruned p predicate ms ms
  | pruned_by (kept : list Z) :
      predicate ≠ EmptyString → Forall (λ m, vc_granularity m = kRowGroup) ms →
      PruneRowGroups (vp_footer_reader p) predicate (physical_unit_index <$> ms) = Ok kept →
      pruned p predicate ms (filter (λ m, physical_unit_index m ∈ kept) ms).

Lemma candidate_row_groups_spec p ms :
  planner_ok p → Forall (λ m, m ∈ vp_cell_metas p) ms →
  candidate_row_groups (vp_cell_metas p) (cell_id <$> ms) = Ok None ∨
  Forall (λ m, vc_granularity m = kRowGroup) ms ∧
  candidate_row_groups (vp_cell_metas p) (cell_id <$> ms) = Ok (Some (physical_unit_index <$> ms)).
Proof.
  intros [[Ht Hids Hpos Hseg Hnd Hb] Hc]. induction 1 as [|m ms Hm Hms IH]; [by right; split; [constructor|]|].
  rewrite !fmap_cons. cbn [candidate_row_groups]. apply list_elem_of_lookup in Hm as [i Hi].
  apply lookup_lt_Some in Hi as Hlt. rewrite (Hids i m Hi), Nat2Z.id, Hi.
  destruct (Z.leb_spec (Z.of_nat (length (vp_cell_metas p))) (Z.of_nat i)); [lia|]. cbn [deref]. rewrite bind_Ok.
  case_bool_decide as Hg; simpl; [|by left]. destruct IH as [->|[Hall ->]]; rewrite bind_Ok; [by left|right].
  split; [by constructor|done].
Qed.

Lemma prune_spec p predicate ms :
  planner_ok p → Forall (λ m, m ∈ vp_cell_metas p) ms →
  match PruneCellsByPredicate p (cell_id <$> ms) predicate with
  | Ok ids => ∃ kept, ids = cell_id <$> kept ∧ pruned p predicate ms kept
  | Err e => ∃ f q ids, PruneRowGroups f q ids = Err e
  | Ub => ∃ f q ids, PruneRowGroups f q ids = Ub
  end.
Proof.
  intros Hp Hms. unfold PruneCellsByPredicate.
  destruct (is_empty predicate || _) eqn:Hempty; [exists ms; split; [done|constructor]|].
  assert (predicate ≠ EmptyString) as Hne by (intros ->; discriminate Hempty).
  destruct (candidate_row_groups_spec p ms Hp Hms) as [->|[Hall ->]]; rewrite bind_Ok.
  { exists ms. split; [done|constructor]. }
  destruct (PruneRowGroups _ _ _) as [kept|e|] eqn:Hprune; [|rewrite bind_Err; by eauto|rewrite bind_Ub; by eauto].
  rewrite bind_Ok.
  assert (∀ acc, fold_out (λ acc k, meta ← deref (vp_cell_metas p !! Z.to_nat k);
      Ok (if bool_decide (physical_unit_index meta ∈ kept) then acc ++ [k] else acc)) (cell_id <$> ms) acc
    = Ok (E := Status) (acc ++ (cell_id <$> filter (λ m, physical_unit_index m ∈ kept) ms))) as ->.
  { clear Hall Hprune Hempty. destruct Hp as [[Ht Hids Hpos Hseg Hnd Hb] Hc]. induction Hms as [|m ms Hm Hms IH]; intros acc.
    - by rewrite app_nil_r.
    - rewrite fmap_cons. cbn [fold_out]. apply list_elem_of_lookup in Hm as [i Hi].
      rewrite (Hids i m Hi), Nat2Z.id, Hi. cbn [deref]. rewrite !bind_Ok, IH, filter_cons.
      case_decide; [rewrite bool_decide_true by done|by rewrite bool_decide_false by done].
      rewrite fmap_cons, <- app_assoc. simpl. by rewrite (Hids i m Hi). }
  eexists. split; [done|]. by econstructor.
Qed.

Definition selected (p : VortexPlanner) (lo hi : Z) : list VortexCellMeta :=
  if lo =? hi then [] else filter (overlaps lo hi) (vp_cell_metas p).

Lemma selected_in p lo hi : Forall (λ m, m ∈ vp_cell_metas p) (selected p lo hi).
Proof.
  unfold selected. destruct (lo =? hi); [constructor|]. apply Forall_forall.
  by intros m [_ ?]%list_elem_of_filter.
Qed.

Lemma selected_rows p lo hi :
  planner_ok p → 0 ≤ lo ≤ hi → hi ≤ vp_rows p → mjoin (clip lo hi <$> selected p lo hi) = seg lo hi.
Proof.
  intros [[Ht _ _ _ _ _] Hc] Hlo Hhi. unfold selected. destruct (Z.eqb_spec lo hi) as [->|].
  - by rewrite seg_nil by lia.
  - rewrite clip_filter by (intros m _; apply clip_not_overlaps).
    rewrite (clip_tiles lo hi 0 (vp_rows p)) by done. f_equal; lia.
Qed.

Lemma elem_of_clip lo hi m row : row ∈ clip lo hi m ↔ lo ≤ row < hi ∧ row ∈ cell_rows m.
Proof. unfold clip, cell_rows. rewrite !elem_of_seg. lia. Qed.

Lemma join_clip_sublist lo hi ms ms' :
  ms' `sublist_of` ms → mjoin (clip lo hi <$> ms') `sublist_of` mjoin (clip lo hi <$> ms).
Proof.
  induction 1 as [|m ms' ms Hs IH|m ms' ms Hs IH]; [done| |]; rewrite ?fmap_cons; simpl.
  - by apply sublist_app.
  - by apply sublist_inserts_l.
Qed.

Lemma pruned_sublist p predicate ms kept : pruned p predicate ms kept → kept `sublist_of` ms.
Proof. destruct 1; [done|]. apply sublist_filter. Qed.

Lemma pruned_in p predicate ms kept m : pruned p predicate ms kept → m ∈ kept → m ∈ ms.
Proof. destruct 1; [done|]. by intros [_ ?]%list_elem_of_filter. Qed.

Lemma range_plan_spec p lo hi predicate :
  planner_ok p → 0 ≤ lo → (∀ f q ids, PruneRowGroups f q ids ≠ Ub) →
  match PlanForRowRange p lo hi predicate with
  | Ok plan => lo ≤ hi ≤ vp_rows p ∧ ∃ kept, pruned p predicate (selected p lo hi) kept ∧
      plan_cell_ids plan = cell_id <$> kept ∧
      plan_op plan = RangeScan (omap (clip_range lo hi) kept)
  | Err e => e = status_Invalid ∧ (hi < lo ∨ vp_rows p < hi) ∨ ∃ f q ids, PruneRowGroups f q ids = Err e
  | Ub => False
  end.
Proof.
  intros Hp Hlo Hdef. unfold PlanForRowRange. rewrite (select_spec p lo hi Hp Hlo).
  destruct ((hi <? lo) || (vp_rows p <? hi)) eqn:Hout.
  { rewrite bind_Err. left. split; [done|]. apply orb_true_iff in Hout as [?%Z.ltb_lt|?%Z.ltb_lt]; lia. }
  rewrite bind_Ok. replace (if lo =? hi then [] else cell_id <$> filter (overlaps lo hi) (vp_cell_metas p))
    with (cell_id <$> selected p lo hi) by (unfold selected; by destruct (lo =? hi)).
  pose proof (prune_spec p predicate (selected p lo hi) Hp (selected_in p lo hi)) as Hprune.
  destruct (PruneCellsByPredicate _ _ _) as [ids|e|].
  - destruct Hprune as (kept & -> & Hk). rewrite bind_Ok. unfold BuildReadRangesForCells. rewrite Hout.
    rewrite (read_ranges_spec p lo hi kept [] Hp), bind_Ok.
    + apply orb_false_iff in Hout as [?%Z.ltb_ge ?%Z.ltb_ge]. split; [lia|]. by exists kept.
    + apply Forall_forall. intros m Hm. pose proof (selected_in p lo hi) as Hin.
      eapply Forall_forall in Hin; [exact Hin|]. by eapply pruned_in.
  - rewrite bind_Err. by right.
  - destruct Hprune as (f & q & ids & Hu). by apply Hdef in Hu.
Qed.

Lemma cell_positive p m : planner_ok p → vp_rows p ≠ 0 → m ∈ vp_cell_metas p → 0 < vc_row_count m.
Proof.
  intros [[_ _ Hpos _ _ _] _] Hr Hm. specialize (Hpos Hr). by eapply Forall_forall in Hpos.
Qed.

(** C40: A plan for a range of rows reads exactly these rows.  For a range
    within the file, the cells are those that overlap it and the read ranges are
    its rows, each once and in order; with a predicate, a row is left out only
    when the footer pruned the row group that holds it, and the cells whose row
    groups were pruned are not loaded.  A plan fails only for a range outside the
    file or when the footer fails to prune. *)
Theorem range_plan_exact p lo hi predicate :
  planner_ok p → 0 ≤ lo → (∀ f q ids, PruneRowGroups f q ids ≠ Ub) →
  match PlanForRowRange p lo hi predicate with
  | Ok plan => lo ≤ hi ≤ vp_rows p ∧ ∃ ranges, plan_op plan = RangeScan ranges ∧
      rows_of_ranges ranges `sublist_of` seg lo hi ∧
      (predicate = EmptyString → rows_of_ranges ranges = seg lo hi) ∧
      (∀ k, k ∈ plan_cell_ids plan → ∃ m row, m ∈ vp_cell_metas p ∧ cell_id m = k ∧
         row ∈ cell_rows m ∧ row ∈ rows_of_ranges ranges) ∧
      (∀ row, lo ≤ row < hi → row ∉ rows_of_ranges ranges →
         ∃ m kept ids, m ∈ vp_cell_metas p ∧ row ∈ cell_rows m ∧ vc_granularity m = kRowGroup ∧
           PruneRowGroups (vp_footer_reader p) predicate ids = Ok kept ∧ physical_unit_index m ∈ ids ∧
           physical_unit_index m ∉ kept)
  | Err e => e = status_Invalid ∧ (hi < lo ∨ vp_rows p < hi) ∨ ∃ f q ids, PruneRowGroups f q ids = Err e
  | Ub => False
  end.
Proof.
  intros Hp Hlo Hdef. pose proof (range_plan_spec p lo hi predicate Hp Hlo Hdef) as Hs.
  destruct (PlanForRowRange p lo hi predicate) as [plan|e|] eqn:Hplan; [|done..].
  destruct Hs as (Hhi & kept & Hk & Hids & Hop). split; [done|]. eexists. split; [exact Hop|].
  pose proof (selected_rows p lo hi Hp ltac:(lia) ltac:(lia)) as Hall. rewrite clip_range_rows.
  split_and!.
  - rewrite <- Hall. by apply join_clip_sublist, (pruned_sublist p predicate).
  - intros ->. destruct Hk; [done|congruence].
  - rewrite Hids. intros k (m & -> & Hm)%list_elem_of_fmap.
    pose proof (pruned_in _ _ _ _ m Hk Hm) as Hsel.
    pose proof (proj1 (Forall_forall _ _) (selected_in p lo hi) m Hsel) as Hin. simpl in Hin.
    unfold selected in Hsel. destruct (Z.eqb_spec lo hi); [by apply not_elem_of_nil in Hsel|].
    apply list_elem_of_filter in Hsel as [[Ho1 Ho2] _].
    pose proof (cell_positive p m Hp ltac:(lia) Hin) as Hpos.
    exists m, (Z.max lo (vc_row_offset m)). split_and!; [done|done|unfold cell_rows; rewrite elem_of_seg; lia|].
    apply list_elem_of_join. exists (clip lo hi m). split; [unfold clip; rewrite elem_of_seg; lia|].
    by apply list_elem_of_fmap_2.
  - intros row Hrow Hout. assert (row ∈ seg lo hi) as Hin by by apply elem_of_seg.
    rewrite <- Hall in Hin. apply list_elem_of_join in Hin as (l & Hr & (m & -> & Hm)%list_elem_of_fmap).
    destruct Hk as [|kept Hne Hg Hprune].
    + exfalso. apply Hout, list_elem_of_join. exists (clip lo hi m). split; [done|by apply list_elem_of_fmap_2].
    + exists m, kept, (physical_unit_index <$> selected p lo hi).
      apply elem_of_clip in Hr as [_ Hr]. split_and!; [|done|by eapply Forall_forall in Hg|done|by apply list_elem_of_fmap_2|].
      * by eapply Forall_forall in Hm; [|apply selected_in].
      * intros Hkm. apply Hout, list_elem_of_join. exists (clip lo hi m). split; [by apply elem_of_clip|].
        apply list_elem_of_fmap_2, list_elem_of_filter. done.
Qed.
(** ** Plans for single rows *)

Definition offsets_ok (rows : Z) (offsets : list Z) : Prop :=
  StronglySorted Z.lt offsets ∧ Forall (λ o, 0 ≤ o < rows) offsets.

(** The cell holds one of the rows. *)
Definition holds_one (offsets : list Z) (m : VortexCellMeta) : Prop :=
  Exists (λ o, vc_row_offset m ≤ o < vc_row_offset m + vc_row_count m) offsets.

#[global] Instance holds_one_dec offsets m : Decision (holds_one offsets m).
Proof. unfold holds_one. apply _. Defined.

Lemma validate_offsets_spec prev offsets rows :
  rows < UINT64_MOD → Forall (λ o, o < UINT64_MOD) offsets →
  ValidateSortedUniqueOffsets prev offsets rows = Ok tt ∧ offsets_ok rows offsets ∧
    (∀ q, prev = Some q → Forall (Z.lt q) offsets) ∨
  ValidateSortedUniqueOffsets prev offsets rows = Err status_Invalid ∧
    ¬ (offsets_ok rows offsets ∧ ∀ q, prev = Some q → Forall (Z.lt q) offsets).
Proof.
  intros Hr Hi. revert prev. induction Hi as [|o offsets Hi His IH]; intros prev; cbn [ValidateSortedUniqueOffsets].
  { left. split_and!; [done|split; constructor|constructor]. }
  unfold offsets_ok in *. destruct ((o <? 0) || (rows <=? wrap_u64 o)) eqn:Hout.
  { right. split; [done|]. intros [[_ Hall] _]. apply Forall_cons in Hall as [Ho _].
    rewrite wrap_u64_small in Hout by lia. apply orb_true_iff in Hout as [?%Z.ltb_lt|?%Z.leb_le]; lia. }
  apply orb_false_iff in Hout as [H1%Z.ltb_ge H2%Z.leb_gt].
  assert (0 ≤ o < rows) as Ho.
  { rewrite wrap_u64_small in H2 by lia. lia. }
  destruct (match prev with Some q => o <=? q | None => false end) eqn:Hprev.
  - right. split; [done|]. intros [_ Hq]. destruct prev as [q|]; [|done]. specialize (Hq q eq_refl).
    apply Forall_cons in Hq as [Hq _]. apply Z.leb_le in Hprev. lia.
  - destruct (IH (Some o)) as [(-> & [Hs Hall] & Hq)|[-> Hn]].
    + specialize (Hq o eq_refl). left. split_and!; [done|constructor; done|constructor; done|].
      intros q ->. apply Z.leb_gt in Hprev. constructor; [done|].
      eapply Forall_impl; [exact Hq|]. simpl. lia.
    + right. split; [done|]. intros [[Hs Hall] _]. apply Hn. apply StronglySorted_inv in Hs as [Hs Hlt].
      apply Forall_cons in Hall as [_ Hall]. split; [done|]. by intros q [= <-].
Qed.

Lemma skip_cells_spec row a b ms :
  counts_ok ms → tiles a b ms → 0 ≤ a ≤ row → row < b → b < UINT64_MOD →
  ∃ pre m post, ms = pre ++ m :: post ∧ skip_cells row ms = m :: post ∧ cell_end m = vc_row_offset m + vc_row_count m ∧
    vc_row_offset m ≤ row < vc_row_offset m + vc_row_count m ∧
    Forall (λ x, vc_row_offset x + vc_row_count x ≤ row) pre ∧ 0 ≤ vc_row_offset m ∧
    tiles (vc_row_offset m) b (m :: post).
Proof.
  intros Hc. revert a. induction Hc as [|m ms Hm Hc IH]; intros a Ht Ha Hrow Hb; [simpl in Ht; lia|].
  pose proof (cell_end_small a b (m :: ms) m ltac:(by constructor) Ht ltac:(lia) Hb ltac:(by left)) as He.
  cbn [skip_cells]. rewrite He. pose proof Ht as (Ho & _ & Ht'). destruct (Z.leb_spec (vc_row_offset m + vc_row_count m) row).
  - destruct (IH (a + vc_row_count m)) as (pre & x & post & -> & Hs & Hx); [done|lia..|].
    exists (m :: pre), x, post. destruct Hx as (? & ? & Hpre & ?). split_and!; try tauto. by constructor.
  - exists [], m, ms. rewrite <- Ho in Ht. split_and!; first [done|lia|by constructor].
Qed.

Lemma filter_same (P Q : VortexCellMeta → Prop) `{∀ m, Decision (P m)} `{∀ m, Decision (Q m)} ms :
  Forall (λ m, P m ↔ Q m) ms → filter P ms = filter Q ms.
Proof.
  induction 1 as [|m ms Hm Hms IH]; [done|]. rewrite !filter_cons, IH.
  destruct (decide (P m)), (decide (Q m)); tauto.
Qed.

(** The loop over the rows: cells from the current one on, which was either not
    selected yet or is the last one selected. *)
Lemma cells_for_offsets_spec b offsets ms a acc :
  StronglySorted Z.lt offsets → Forall (λ o, a ≤ o < b) offsets → 0 ≤ a → b < UINT64_MOD →
  counts_ok ms → tiles a b ms → NoDup (cell_id <$> ms) →
  ((∀ m, m ∈ ms → last acc ≠ Some (cell_id m)) →
    cells_for_offsets ms offsets acc = Ok (acc ++ (cell_id <$> filter (holds_one offsets) ms))) ∧
  (∀ m, head ms = Some m → last acc = Some (cell_id m) →
    cells_for_offsets ms offsets acc = Ok (acc ++ (cell_id <$> filter (holds_one offsets) (tail ms)))).
Proof.
  intros Hs. revert ms a acc. induction Hs as [|row offsets Hs IH Hlt]; intros ms a acc Hall Ha Hb Hc Ht Hnd.
  { assert (∀ l, filter (holds_one []) l = []) as Hnil.
    { intros l. apply filter_none, Forall_forall. intros m _ Hx. by apply Exists_nil in Hx. }
    cbn [cells_for_offsets]. split; intros; by rewrite Hnil, app_nil_r. }
  apply Forall_cons in Hall as [Hrow Hall]. cbn [cells_for_offsets].
  destruct (skip_cells_spec row a b ms Hc Ht ltac:(lia) ltac:(lia) Hb)
    as (pre & m & post & -> & -> & He & Hm & Hpre & Hm0 & Htm). rewrite He.
  destruct (Z.leb_spec (vc_row_offset m) row); [|lia].
  destruct (Z.ltb_spec row (vc_row_offset m + vc_row_count m)); [|lia]. cbn [andb negb].
  apply Forall_app in Hc as [Hcpre Hcm]. rewrite fmap_app in Hnd. apply NoDup_app in Hnd as (_ & Hdis & Hndm).
  assert (Forall (λ o, vc_row_offset m ≤ o < b) offsets) as Hall'.
  { eapply Forall_impl; [apply Forall_and; split; [exact Hlt|exact Hall]|]. simpl. lia. }
  assert (∀ acc, last acc = Some (cell_id m) →
    cells_for_offsets (m :: post) offsets acc = Ok (acc ++ (cell_id <$> filter (holds_one (row :: offsets)) post))) as Htaken.
  { intros acc' Hl. destruct (IH (m :: post) (vc_row_offset m) acc' Hall' Hm0 Hb Hcm Htm Hndm) as [_ Hi].
    rewrite (Hi m eq_refl Hl). simpl. do 3 f_equal. apply filter_same, Forall_forall. intros x Hx.
    unfold holds_one. rewrite Exists_cons. split; [by right|]. intros [Hr|]; [|done]. exfalso.
    destruct Htm as (_ & _ & Htp). apply Forall_cons in Hcm as [_ Hcp].
    pose proof (tiles_bounds _ _ _ x Hcp Htp Hx). lia. }
  assert (∀ l, Forall (λ x, vc_row_offset x + vc_row_count x ≤ row) l → filter (holds_one (row :: offsets)) l = []) as Hnone.
  { intros l Hl. apply filter_none. eapply Forall_impl; [exact Hl|]. intros x Hx [o (Ho & Hin)]%Exists_exists.
    cbn beta in Hx, Hin. apply elem_of_cons in Ho as [->|Ho]; [lia|]. eapply Forall_forall in Hlt; [|exact Ho]. lia. }
  assert (filter (holds_one (row :: offsets)) (m :: post) = m :: filter (holds_one (row :: offsets)) post) as Hfm.
  { apply filter_cons_True. left. lia. }
  assert (last acc ≠ Some (cell_id m) → ∀ l, Forall (λ x, vc_row_offset x + vc_row_count x ≤ row) l →
    cells_for_offsets (m :: post) offsets (if bool_decide (last acc = Some (cell_id m)) then acc else acc ++ [cell_id m])
    = Ok (acc ++ (cell_id <$> filter (holds_one (row :: offsets)) (l ++ m :: post)))) as Hnew.
  { intros Hl l Hpl. rewrite bool_decide_false by done. rewrite Htaken by apply last_snoc.
    rewrite filter_app, (Hnone l Hpl), Hfm, app_nil_l, fmap_cons, <- app_assoc. done. }
  split.
  - intros Hfresh. apply Hnew; [|done]. apply Hfresh. apply elem_of_app. right. by left.
  - intros x Hx Hl. destruct pre as [|y pre]; simpl in Hx; simplify_eq.
    + rewrite bool_decide_true by done. rewrite Htaken by done. done.
    + apply Forall_cons in Hpre as [_ Hpre]. simpl. apply Hnew; [|done].
      rewrite Hl. intros [= Heq]. apply (Hdis (cell_id x)); [by left|]. rewrite Heq. by left.
Qed.

Lemma cell_ids_NoDup p : planner_ok p → NoDup (cell_id <$> vp_cell_metas p).
Proof.
  intros [[_ Hids _ _ _ _] _]. apply NoDup_alt. intros i j x Hi Hj.
  apply list_lookup_fmap_Some in Hi as (m1 & -> & Hi). apply list_lookup_fmap_Some in Hj as (m2 & He & Hj).
  apply Hids in Hi, Hj. lia.
Qed.

Lemma offsets_plan_spec p offsets :
  planner_ok p → offsets_ok (vp_rows p) offsets →
  SelectCellIdsForOffsets p offsets = Ok (cell_id <$> filter (holds_one offsets) (vp_cell_metas p)).
Proof.
  intros Hp [Hs Hall]. pose proof (cell_ids_NoDup p Hp) as Hnd. destruct Hp as [[Ht Hids Hpos Hseg Hu Hb] Hc].
  unfold SelectCellIdsForOffsets. destruct offsets as [|o offsets].
  { rewrite filter_none; [done|]. apply Forall_forall. intros m _ Hx. by apply Exists_nil in Hx. }
  set (l := o :: offsets) in *.
  destruct (validate_offsets_spec None l (vp_rows p) ltac:(lia)) as [(-> & _ & _)|[_ Hn]].
  - eapply Forall_impl; [exact Hall|]. simpl. lia.
  - rewrite bind_Ok. apply (cells_for_offsets_spec (vp_rows p) l (vp_cell_metas p) 0 []); (done || lia).
  - exfalso. by apply Hn.
Qed.

(** A plan for single rows loads exactly the cells that hold one of them.
    The request is refused exactly when the rows are not strictly ascending or
    not all in the file; otherwise the plan keeps the requested rows as they are,
    its cells are those that hold at least one of them, each once and in order,
    and its ranges are the rows of these cells, so that every requested row lies
    in one of them. *)
Theorem offsets_plan_exact p offsets :
  planner_ok p → Forall (λ o, INT64_MIN ≤ o ≤ INT64_MAX) offsets →
  match PlanForOffsets p offsets with
  | Ok plan => offsets_ok (vp_rows p) offsets ∧ ∃ ranges, plan_op plan = Take offsets ranges ∧
      plan_cell_ids plan = cell_id <$> filter (holds_one offsets) (vp_cell_metas p) ∧
      rows_of_ranges ranges = mjoin (cell_rows <$> filter (holds_one offsets) (vp_cell_metas p)) ∧
      (∀ o, o ∈ offsets → o ∈ rows_of_ranges ranges)
  | Err e => e = status_Invalid ∧ ¬ offsets_ok (vp_rows p) offsets
  | Ub => False
  end.
Proof.
  intros Hp Hi. pose proof Hp as [[Ht Hids Hpos Hseg Hu Hb] Hc].
  assert (Forall (λ o, o < UINT64_MOD) offsets) as Hi'.
  { eapply Forall_impl; [exact Hi|]. simpl. unfold INT64_MAX, UINT64_MOD. lia. }
  unfold PlanForOffsets.
  destruct (validate_offsets_spec None offsets (vp_rows p) ltac:(lia) Hi') as [(_ & Hok & _)|[He Hn]].
  - rewrite (offsets_plan_spec p offsets Hp Hok), bind_Ok. unfold BuildReadRangesForCells.
    destruct (Z.ltb_spec (vp_rows p) 0); [lia|]. destruct (Z.ltb_spec (vp_rows p) (vp_rows p)); [lia|]. simpl.
    rewrite (read_ranges_spec p) by (done || apply Forall_forall; by intros m [_ ?]%list_elem_of_filter).
    rewrite bind_Ok. split; [done|]. eexists. split; [done|]. split; [done|].
    rewrite app_nil_l, clip_range_rows.
    assert (clip 0 (vp_rows p) <$> filter (holds_one offsets) (vp_cell_metas p)
      = cell_rows <$> filter (holds_one offsets) (vp_cell_metas p)) as ->.
    { apply list_fmap_ext. intros i m Hm. apply list_elem_of_lookup_2, list_elem_of_filter in Hm as [_ Hm].
      pose proof (tiles_bounds _ _ _ m Hc Ht Hm). unfold clip, cell_rows. f_equal; lia. }
    split; [done|]. intros o Ho. destruct Hok as [_ Hall]. eapply Forall_forall in Hall; [|exact Ho].
    pose proof (clip_tiles 0 (vp_rows p) 0 (vp_rows p) _ Hc Ht) as Hrows.
    assert (o ∈ mjoin (clip 0 (vp_rows p) <$> vp_cell_metas p)) as Hin by (rewrite Hrows, elem_of_seg; simpl in Hall; lia).
    apply list_elem_of_join in Hin as (l & Hl & (m & -> & Hm)%list_elem_of_fmap).
    apply elem_of_clip in Hl as [_ Hl]. apply list_elem_of_join. exists (cell_rows m). split; [done|].
    apply list_elem_of_fmap_2, list_elem_of_filter. split; [|done]. apply Exists_exists. exists o.
    unfold cell_rows in Hl. by rewrite elem_of_seg in Hl.
  - unfold SelectCellIdsForOffsets. destruct offsets as [|o offsets].
    + exfalso. apply Hn. split; [split; constructor|done].
    + rewrite He, !bind_Err. split; [done|]. intros Hok. by apply Hn.
Qed.

(** ** What the builders return *)

Lemma cell_metas_built f names acc layouts :
  (∀ name l, GetFieldLayout f name = Ok l → layout_ok l) → Forall layout_ok acc →
  fold_out (λ acc name, l ← GetFieldLayout f name; Ok (acc ++ [l])) names acc = Ok layouts → Forall layout_ok layouts.
Proof.
  intros Hf. revert acc. induction names as [|name names IH]; intros acc Hacc Ho; simpl in Ho; [by simplify_eq|].
  apply bind_Ok_inv in Ho as (acc1 & Ho & Hr). apply bind_Ok_inv in Ho as (l & Hl & Ho). simplify_eq.
  apply (IH (acc ++ [l])); [|done]. apply Forall_app. split; [done|]. constructor; [by eapply Hf|constructor].
Qed.

Lemma field_cells_ok f name metas :
  0 ≤ footer_rows f < UINT64_MOD → (∀ name l, GetFieldLayout f name = Ok l → layout_ok l) →
  BuildVortexCellMetas (Some f) name = Ok metas → cells_ok (footer_rows f) metas ∧ counts_ok metas.
Proof.
  intros Hr Hf Hb. apply bind_Ok_inv in Hb as (layout & Hl & Hb). apply bind_Ok_inv in Hb as (units & Hu & Hb).
  apply bind_Ok_inv in Hb as (ms & Hm & Hb). apply validated_ready in Hb; [done| |done].
  apply unit_cells_counts in Hm; [done| |constructor]. eapply units_ok; [|exact Hu]. by eapply Hf.
Qed.

Lemma group_cells_ok f names metas :
  0 ≤ footer_rows f < UINT64_MOD → (∀ name l, GetFieldLayout f name = Ok l → layout_ok l) →
  BuildVortexGroupCellMetas (Some f) names = Ok metas → cells_ok (footer_rows f) metas ∧ counts_ok metas.
Proof.
  intros Hr Hf Hb. unfold BuildVortexGroupCellMetas in Hb. case_bool_decide; [done|].
  apply bind_Ok_inv in Hb as (layouts & Hl & Hb). apply bind_Ok_inv in Hb as (ms & Hm & Hb).
  apply validated_ready in Hb; [done| |done]. apply group_cells_counts in Hm; [done|].
  eapply cell_metas_built; [done| |exact Hl]. constructor.
Qed.

(** The planner takes what the builders make.  Whatever cells
    [BuildVortexCellMetas] or [BuildVortexGroupCellMetas] return for a footer
    tile its rows without gap or overlap, are numbered by their position, share
    no flat segment and have no empty cell unless the file is empty; the planner's
    own validation accepts them, and a planner made of them, which only an
    overflow of the byte count can prevent, satisfies the planner invariant. *)
Theorem built_cells_accepted f name names metas field :
  0 ≤ footer_rows f < UINT64_MOD → (∀ n l, GetFieldLayout f n = Ok l → layout_ok l) →
  BuildVortexCellMetas (Some f) name = Ok metas ∨ BuildVortexGroupCellMetas (Some f) names = Ok metas →
  cells_ok (footer_rows f) metas ∧ ValidateCellMetasReady (Some metas) (footer_rows f) = Ok tt ∧
  match Make (Some f) field (Some metas) with
  | Ok p => planner_ok p ∧ vp_cell_metas p = metas
  | r => (∃ e, r = Err e) ∧ ∃ e, SumCellBytes metas = Err e
  end.
Proof.
  intros Hr Hf Hb. assert (cells_ok (footer_rows f) metas ∧ counts_ok metas) as [Hok Hc].
  { destruct Hb as [Hb|Hb]; [by eapply field_cells_ok|by eapply group_cells_ok]. }
  split; [done|]. assert (ValidateCellMetasReady (Some metas) (footer_rows f) = Ok tt) as Hv by by apply ready_spec.
  split; [done|]. destruct (Make (Some f) field (Some metas)) as [p|e|] eqn:Hm.
  - apply Make_ok in Hm as (? & _ & ? & _); [done|done|done].
  - unfold Make in Hm. rewrite Hv, bind_Ok in Hm. cbn [deref] in Hm. rewrite bind_Ok in Hm.
    destruct (SumCellBytes metas) as [|e'|]; [done| |done]. split; by eexists.
  - unfold Make in Hm. rewrite Hv, bind_Ok in Hm. cbn [deref] in Hm. rewrite bind_Ok in Hm.
    destruct (SumCellBytes metas) as [|e'|] eqn:Hs; [done|done|]. exfalso. clear -Hs.
    unfold SumCellBytes in Hs. revert Hs. generalize 0.
    induction metas as [|m metas IH]; intros z; cbn [fold_out]; [done|].
    destruct (CheckedAdd z _) as [s| |] eqn:Ha; [rewrite bind_Ok; apply IH|by rewrite bind_Err|].
    unfold CheckedAdd in Ha. by case_match.
Qed.
End plans.

(** ** A file of three row groups *)

Module SampleVortex.
Definition sample_unit (i : Z) : VortexUnit :=
  mkUnit i (2 * i) 2 [mkSegment (10 + i) (mkByteRange (100 * i) 100)].

(** Two columns of the same shape; the predicate never matches row group 0. *)
#[local] Instance sample_footer : VortexFooter := {
  Footer := unit;
  footer_rows _ := 6;
  GetFieldLayout _ name :=
    if bool_decide (name = "v"%string) then Ok (mkLayout kRowGroup [] (sample_unit <$> [0; 1; 2]))
    else if bool_decide (name = "w"%string)
    then Ok (mkLayout kRowGroup [] ((λ i, mkUnit i (2 * i) 2 [mkSegment (20 + i) (mkByteRange (300 + 50 * i) 50)]) <$> [0; 1; 2]))
    else Err status_Invalid;
  PruneRowGroups _ _ ids := Ok (filter (λ i, i ≠ 0) ids);
}.

Definition sample_cells : list VortexCellMeta :=
  (λ i, mkCell i kRowGroup i (2 * i) 2 [10 + i; 20 + i]
          [mkByteRange (100 * i) 100; mkByteRange (300 + 50 * i) 50] 150 150) <$> [0; 1; 2].

Definition the_footer : @Footer sample_footer := tt.

Definition sample_planner : VortexPlanner := mkPlanner the_footer "<column_group>" 6 sample_cells 450.

Lemma sample_cells_built : BuildVortexGroupCellMetas (Some the_footer) ["v"; "w"]%string = Ok sample_cells.
Proof. vm_compute. reflexivity. Qed.

Lemma sample_layouts name l : GetFieldLayout the_footer name = Ok l → layout_ok l.
Proof.
  simpl. repeat case_bool_decide; intros; simplify_eq; split; repeat constructor; done.
Qed.

Lemma sample_planner_ok : planner_ok sample_planner.
Proof.
  destruct (group_cells_ok the_footer ["v"; "w"]%string sample_cells) as [Hok Hc].
  - done.
  - apply sample_layouts.
  - apply sample_cells_built.
  - by split.
Qed.

Lemma built_cells_accepted_witness :
  cells_ok 6 sample_cells ∧ MakeGroup (Some the_footer) (Some sample_cells) = Ok sample_planner.
Proof.
  pose proof (built_cells_accepted the_footer "v" ["v"; "w"]%string sample_cells "<column_group>"
    ltac:(done) sample_layouts (or_intror sample_cells_built)) as (Hok & _ & _).
  split; [exact Hok|vm_compute; reflexivity].
Defined.

Lemma range_plan_exact_witness :
  PlanForRowRange sample_planner 1 5 "v > 7" =
    Ok (mkPlan [1; 2] (RangeScan [mkRowRange 2 4; mkRowRange 4 5]) "v > 7" true) ∧
  rows_of_ranges [mkRowRange 2 4; mkRowRange 4 5] `sublist_of` seg 1 5.
Proof.
  assert (PlanForRowRange sample_planner 1 5 "v > 7" =
    Ok (mkPlan [1; 2] (RangeScan [mkRowRange 2 4; mkRowRange 4 5]) "v > 7" true)) as Hp by (vm_compute; reflexivity).
  pose proof (range_plan_exact sample_planner 1 5 "v > 7" sample_planner_ok ltac:(lia) ltac:(done)) as Hw.
  split; [exact Hp|]. rewrite Hp in Hw. destruct Hw as (_ & ranges & Hr & Hsub & _). simpl in Hr.
  injection Hr as <-. exact Hsub.
Defined.

Lemma offsets_plan_exact_witness :
  PlanForOffsets sample_planner [0; 1; 5] =
    Ok (mkPlan [0; 2] (Take [0; 1; 5] [mkRowRange 0 2; mkRowRange 4 6]) "" false) ∧
  ¬ offsets_ok 6 [1; 1].
Proof.
  split; [vm_compute; reflexivity|].
  pose proof (offsets_plan_exact sample_planner [1; 1] sample_planner_ok ltac:(by repeat constructor)) as Hw.
  assert (PlanForOffsets sample_planner [1; 1] = Err status_Invalid) as Hp by (vm_compute; reflexivity).
  rewrite Hp in Hw. apply Hw.
Defined.
End SampleVortex.
