(* ===== verification/LobColumn.v ===== *)
(** * LOB columns

    [lob_column/lob_reference.h/.cpp], [lob_column_writer.cpp],
    [lob_column_reader.cpp] and [lob_column_manager.cpp]: a value below the
    inline threshold is stored in its encoded reference; a larger one goes to a
    vortex file and its reference names the file and the row.  Files are rolled
    when they reach a size; the reader resolves references one by one or by file.

    The vortex files, the filesystem, arrow's [BinaryBuilder] and boost's uuids
    are the class [LobFiles]. *)

From S2P Require Import Prelude CppString Status Paths.

(** A value or an encoded reference: its bytes. *)
Definition value := list Z.

Definition size (v : value) : Z := Z.of_nat (length v).

(** ** References *)

Definition FLAG_INLINE_DATA : Z := 0.
Definition FLAG_LOB_REFERENCE : Z := 1.
Definition UUID_BINARY_SIZE : nat := 16.
Definition LOB_REFERENCE_SIZE : nat := 24.

Definition EncodeInlineData (payload : value) : value := FLAG_INLINE_DATA :: payload.

(** The payload, [None] for a null pointer. *)
Definition DecodeInlineData (data : value) : option value :=
  if (length data <=? 1)%nat then None else Some (tail data).

(** The bytes of an [int32_t] in memory, little endian, and back. *)
Definition int32_bytes (z : Z) : value :=
  (λ i, Z.land (Z.shiftr z (8 * i)) 255) <$> [0; 1; 2; 3].

Definition int32_of_bytes (l : value) : Z :=
  wrap_i32 (foldr (λ b acc, b + 256 * acc) 0 l).

Definition EncodeLOBReference (file_id : value) (row_offset : Z) : value :=
  [FLAG_LOB_REFERENCE; 0; 0; 0] ++ take UUID_BINARY_SIZE file_id ++ int32_bytes row_offset.

(** [data[0]], which does not exist for an empty array. *)
Definition IsInlineData (data : value) : outcome Status bool :=
  flag ← deref (head data); Ok (flag =? FLAG_INLINE_DATA).

Definition IsLOBReference (data : value) : outcome Status bool :=
  flag ← deref (head data); Ok (flag =? FLAG_LOB_REFERENCE).

Definition BuildLOBFilePath (lob_base_path file_id_str : string) : string :=
  Path.append (Path.append lob_base_path "_data") (file_id_str +:+ ".vx").

(** ** Configuration *)

Inductive LobDataType := kText | kBinary.

#[global] Instance LobDataType_eq_dec : EqDecision LobDataType.
Proof. solve_decision. Defined.

Record LobColumnConfig := mkLobConfig {
  data_type : LobDataType;
  lob_base_path : string;
  field_id : Z;
  inline_threshold : Z;          (* size_t, as the two below *)
  max_lob_file_bytes : Z;
  flush_threshold_bytes : Z;
  rewrite_mode : bool;
}.

(** [LobColumnManager::Create]: the configuration of the manager. *)
Definition LobColumnManager_Create (has_fs : bool) (config : LobColumnConfig) :
    outcome Status LobColumnConfig :=
  if negb has_fs then Err status_Invalid
  else if is_empty (lob_base_path config) then Err status_Invalid
  else if inline_threshold config =? 0 then Err status_Invalid
  else if max_lob_file_bytes config =? 0 then Err status_Invalid
  else if flush_threshold_bytes config =? 0 then Err status_Invalid
  else if max_lob_file_bytes config <? flush_threshold_bytes config then Err status_Invalid
  else Ok config.

Definition FieldName (config : LobColumnConfig) : string :=
  match data_type config with kText => "text_data" | kBinary => "binary_data" end.

(** ** The environment *)

Class LobFiles := {
  Store : Type;                          (* the filesystem with the writers open on it *)
  VortexFileWriter : Type;
  VortexFormatReader : Type;
  IsLocalFileSystem : Store → bool;
  CreateDir : string → M Store Status unit;
  DeleteFile : string → M Store Status unit;
  (* VortexFileWriter, on a schema of one field *)
  Writer_Open : string → LobDataType → string → M Store Status VortexFileWriter;
  Writer_Write : VortexFileWriter → list value → M Store Status unit;
  Writer_Flush : VortexFileWriter → M Store Status unit;
  Writer_Close : VortexFileWriter → M Store Status unit;
  Writer_reset : VortexFileWriter → Store → Store;          (* destroyed without a close *)
  (* VortexFormatReader; the chunks of the one column of the table *)
  Reader_open : string → LobDataType → string → M Store Status VortexFormatReader;
  Reader_take : VortexFormatReader → list Z → outcome Status (list (list value));
  (* arrow::BinaryBuilder: of values, and of values with nulls *)
  builder_Append : list value → value → Z → outcome Status (list value);
  builder_Finish : list value → outcome Status (list value);
  array_Append : list (option value) → option value → outcome Status (list (option value));
  array_Finish : list (option value) → outcome Status (list (option value));
  (* boost::uuids: the n-th uuid the writer generates, and its text *)
  GenerateUUIDBinary : nat → value;
  UUIDToString : value → string;
}.

Section writer.
Context `{LobFiles}.

(** ** The writer *)

Record LobFileResult := mkLobFile {
  lf_path : string;
  lf_total_rows : Z;
  lf_valid_rows : Z;
  lf_file_size_bytes : Z;
}.

Record LobColumnWriterStats := mkLobStats {
  total_entries : Z;
  inline_entries : Z;
  lob_entries : Z;
  total_bytes : Z;
  lob_files_created : Z;
}.

Record LobColumnWriter := mkLobWriter {
  lw_fs : Store;
  lw_config : LobColumnConfig;
  lw_closed : bool;
  lw_written_rows : Z;
  lw_uuid : nat;                         (* [current_file_id_] is uuid [lw_uuid] *)
  lw_current_file_rows : Z;
  lw_current_file_bytes : Z;
  lw_vortex_writer : option VortexFileWriter;
  lw_pending : list value;               (* [pending_builder_] *)
  lw_pending_bytes : Z;
  lw_created_files : list LobFileResult;
  lw_stats : LobColumnWriterStats;
}.

Definition LW (A : Type) : Type := M LobColumnWriter Status A.

Definition CreateLobColumnWriter (fs : Store) (config : LobColumnConfig) : LobColumnWriter :=
  mkLobWriter fs config false 0 0 0 0 None [] 0 [] (mkLobStats 0 0 0 0 0).

Definition set_fs (fs : Store) (s : LobColumnWriter) : LobColumnWriter :=
  mkLobWriter fs (lw_config s) (lw_closed s) (lw_written_rows s) (lw_uuid s) (lw_current_file_rows s)
    (lw_current_file_bytes s) (lw_vortex_writer s) (lw_pending s) (lw_pending_bytes s)
    (lw_created_files s) (lw_stats s).

Definition set_closed (s : LobColumnWriter) : LobColumnWriter :=
  mkLobWriter (lw_fs s) (lw_config s) true (lw_written_rows s) (lw_uuid s) (lw_current_file_rows s)
    (lw_current_file_bytes s) (lw_vortex_writer s) (lw_pending s) (lw_pending_bytes s)
    (lw_created_files s) (lw_stats s).

Definition set_vortex_writer (w : option VortexFileWriter) (files : list LobFileResult)
    (s : LobColumnWriter) : LobColumnWriter :=
  mkLobWriter (lw_fs s) (lw_config s) (lw_closed s) (lw_written_rows s) (lw_uuid s) (lw_current_file_rows s)
    (lw_current_file_bytes s) w (lw_pending s) (lw_pending_bytes s) files (lw_stats s).

Definition set_pending (pending : list value) (bytes : Z) (s : LobColumnWriter) : LobColumnWriter :=
  mkLobWriter (lw_fs s) (lw_config s) (lw_closed s) (lw_written_rows s) (lw_uuid s) (lw_current_file_rows s)
    (lw_current_file_bytes s) (lw_vortex_writer s) pending bytes (lw_created_files s) (lw_stats s).

(** The file written to: its uuid, rows and bytes. *)
Definition set_file (uuid : nat) (rows bytes : Z) (s : LobColumnWriter) : LobColumnWriter :=
  mkLobWriter (lw_fs s) (lw_config s) (lw_closed s) (lw_written_rows s) uuid rows bytes
    (lw_vortex_writer s) (lw_pending s) (lw_pending_bytes s) (lw_created_files s) (lw_stats s).

(** Counters: rows written, then what is added to each statistic. *)
Definition count (rows entries inline lob bytes created : Z) (s : LobColumnWriter) : LobColumnWriter :=
  let st := lw_stats s in
  mkLobWriter (lw_fs s) (lw_config s) (lw_closed s) (lw_written_rows s + rows) (lw_uuid s)
    (lw_current_file_rows s) (lw_current_file_bytes s) (lw_vortex_writer s) (lw_pending s)
    (lw_pending_bytes s) (lw_created_files s)
    (mkLobStats (total_entries st + entries) (inline_entries st + inline) (lob_entries st + lob)
       (total_bytes st + bytes) (lob_files_created st + created)).

Definition on_store {A} (m : M Store Status A) : LW A := λ s,
  let '(fs, r) := m (lw_fs s) in (set_fs fs s, r).

Definition current_path (s : LobColumnWriter) : string :=
  BuildLOBFilePath (lob_base_path (lw_config s)) (UUIDToString (GenerateUUIDBinary (lw_uuid s))).

(** [file_path.substr(0, file_path.rfind('/'))]. *)
Definition parent_dir (file_path : string) : string :=
  match rsplit1 kSep file_path with Some (dir, _) => dir | None => file_path end.

Definition EnsureVortexWriter : LW unit :=
  s ← get_st;
  match lw_vortex_writer s with
  | Some _ => mret tt
  | None =>
      let file_path := current_path s in
      (if IsLocalFileSystem (lw_fs s) then on_store (CreateDir (parent_dir file_path)) else mret tt);;
      w ← on_store (Writer_Open (FieldName (lw_config s)) (data_type (lw_config s)) file_path);
      modify (set_vortex_writer (Some w) (lw_created_files s ++ [mkLobFile file_path 0 0 0]));;
      modify (count 0 0 0 0 0 1)
  end.

(** The builder is empty once [Finish] has returned the array. *)
Definition FlushPending : LW unit :=
  s ← get_st;
  match lw_pending s with
  | [] => mret tt
  | pending =>
      array ← lift (builder_Finish pending);
      modify (set_pending [] (lw_pending_bytes s));;
      w ← lift (deref (lw_vortex_writer s));
      on_store (Writer_Write w array);;
      on_store (Writer_Flush w);;
      modify (set_file (lw_uuid s) (lw_current_file_rows s)
                (u64_add (lw_current_file_bytes s) (lw_pending_bytes s)));;
      modify (set_pending [] 0)
  end.

(** [created_files_.back()] with its numbers. *)
Definition finalize_last (rows bytes : Z) (files : list LobFileResult) : list LobFileResult :=
  match reverse files with
  | [] => files
  | last_file :: others => reverse (mkLobFile (lf_path last_file) rows rows bytes :: others)
  end.

Definition CloseCurrentFile : LW unit :=
  s ← get_st;
  match lw_vortex_writer s with
  | None => mret tt
  | Some w =>
      on_store (Writer_Close w);;
      modify (set_vortex_writer None
        (finalize_last (lw_current_file_rows s) (wrap_i64 (lw_current_file_bytes s)) (lw_created_files s)))
  end.

Definition MaybeRollFile : LW unit :=
  s ← get_st;
  if lw_current_file_bytes s <? max_lob_file_bytes (lw_config s) then mret tt
  else
    CloseCurrentFile;;
    modify (set_file (S (lw_uuid s)) 0 0).

(** Append to the builder: the reference of the value. *)
Definition append_lob (data : value) : LW value :=
  EnsureVortexWriter;;
  s ← get_st;
  let row_offset := wrap_i32 (lw_current_file_rows s) in
  pending ← lift (builder_Append (lw_pending s) data (wrap_i32 (size data)));
  modify (set_pending pending (u64_add (lw_pending_bytes s) (size data)));;
  modify (set_file (lw_uuid s) (lw_current_file_rows s + 1) (lw_current_file_bytes s));;
  mret (EncodeLOBReference (GenerateUUIDBinary (lw_uuid s)) row_offset).

Definition flush_if_full : LW unit :=
  s ← get_st;
  if flush_threshold_bytes (lw_config s) <=? lw_pending_bytes s
  then FlushPending;; MaybeRollFile
  else mret tt.

Definition check_open : LW unit :=
  s ← get_st; if lw_closed s then fail status_Invalid else mret tt.

Definition WriteData (data : value) : LW value :=
  check_open;;
  s ← get_st;
  if size data <? inline_threshold (lw_config s) then
    modify (count 1 1 1 0 (size data) 0);;
    mret (EncodeInlineData data)
  else
    ref ← append_lob data;
    modify (count 1 1 0 1 (size data) 0);;
    flush_if_full;;
    mret ref.

(** One round of the loop of [WriteBatchData]. *)
Definition write_item (data : value) : LW value :=
  s ← get_st;
  ref ← (if size data <? inline_threshold (lw_config s) then
           modify (count 0 0 1 0 0 0);;
           mret (EncodeInlineData data)
         else
           ref ← append_lob data;
           modify (count 0 0 0 1 0 0);;
           flush_if_full;;
           mret ref);
  modify (count 0 1 0 0 (size data) 0);;
  mret ref.

Fixpoint write_items (items : list value) : LW (list value) :=
  match items with
  | [] => mret []
  | data :: items' =>
      ref ← write_item data;
      refs ← write_items items';
      mret (ref :: refs)
  end.

Definition WriteBatchData (items : list value) : LW (list value) :=
  check_open;;
  results ← write_items items;
  modify (count (Z.of_nat (length items)) 0 0 0 0 0);;
  mret results.

(** The loop of [WriteArrowArray] with the builder of the references. *)
Fixpoint write_array (data_array : list (option value)) (builder : list (option value)) :
    LW (list (option value)) :=
  match data_array with
  | [] => mret builder
  | None :: rest =>
      builder ← lift (array_Append builder None);
      modify (count 1 1 0 0 0 0);;
      write_array rest builder
  | Some data :: rest =>
      ref ← WriteData data;
      builder ← lift (array_Append builder (Some ref));
      write_array rest builder
  end.

Definition WriteArrowArray (data_array : list (option value)) : LW (list (option value)) :=
  check_open;;
  builder ← write_array data_array [];
  lift (array_Finish builder).

Definition Flush : LW unit :=
  check_open;; FlushPending;; MaybeRollFile.

Definition Close : LW (list LobFileResult) :=
  check_open;;
  FlushPending;;
  CloseCurrentFile;;
  modify set_closed;;
  s ← get_st;
  mret (lw_created_files s).

(** The statuses of the deletions are dropped. *)
Definition Abort : LW unit :=
  s ← get_st;
  if lw_closed s then mret tt
  else
    modify (set_pending [] (lw_pending_bytes s));;
    match lw_vortex_writer s with
    | Some w =>
        modify (λ s, set_fs (Writer_reset w (lw_fs s)) s);;
        modify (set_vortex_writer None (lw_created_files s))
    | None => mret tt
    end;;
    for_each (λ f, _ ← catch (on_store (DeleteFile (lf_path f))); mret tt) (lw_created_files s);;
    modify (set_vortex_writer None []);;
    modify set_closed.
End writer.

(** ** The reader *)

Section reader.
Context `{LobFiles}.

Record LOBReference := mkLobRef {
  ref_file_id : string;
  ref_row_offset : Z;
}.

Definition DecodeLOBReference (data : value) : LOBReference :=
  mkLobRef (UUIDToString (take UUID_BINARY_SIZE (drop 4 data))) (int32_of_bytes (take 4 (drop 20 data))).

Record LobColumnReader := mkLobReader {
  lr_fs : Store;
  lr_config : LobColumnConfig;
  lr_closed : bool;
  reader_cache : gmap string VortexFormatReader;
}.

Definition LR (A : Type) : Type := M LobColumnReader Status A.

Definition CreateLobColumnReader (fs : Store) (config : LobColumnConfig) : LobColumnReader :=
  mkLobReader fs config false ∅.

Definition set_store (fs : Store) (s : LobColumnReader) : LobColumnReader :=
  mkLobReader fs (lr_config s) (lr_closed s) (reader_cache s).

Definition set_cache (closed : bool) (cache : gmap string VortexFormatReader) (s : LobColumnReader) :
    LobColumnReader := mkLobReader (lr_fs s) (lr_config s) closed cache.

Definition GetOrOpenReader (file_id_str : string) : LR VortexFormatReader :=
  s ← get_st;
  match reader_cache s !! file_id_str with
  | Some reader => mret reader
  | None =>
      let file_path := BuildLOBFilePath (lob_base_path (lr_config s)) file_id_str in
      reader ← (λ s', let '(fs, r) := Reader_open (FieldName (lr_config s)) (data_type (lr_config s)) file_path (lr_fs s')
                      in (set_store fs s', r));
      modify (λ s', set_cache (lr_closed s') (<[file_id_str := reader]> (reader_cache s')) s');;
      mret reader
  end.

Definition reader_open_check : LR unit :=
  s ← get_st; if lr_closed s then fail status_Invalid else mret tt.

(** The first value of a table of one row. *)
Definition first_value (chunks : list (list value)) : outcome Status value :=
  match mjoin chunks with
  | [] => Err status_IndexError
  | _ =>
      match chunks with
      | (v :: _) :: _ => Ok v
      | _ => Err status_IndexError
      end
  end.

(** A null pointer is [None]. *)
Definition ReadData (encoded_ref : option value) : LR value :=
  reader_open_check;;
  match encoded_ref with
  | None | Some [] => fail status_Invalid
  | Some ref =>
      inline ← lift (IsInlineData ref);
      if (inline : bool) then mret (default [] (DecodeInlineData ref))
      else if negb (length ref =? LOB_REFERENCE_SIZE)%nat then fail status_Invalid
      else
        let '(mkLobRef file_id_str row_offset) := DecodeLOBReference ref in
        reader ← GetOrOpenReader file_id_str;
        table ← lift (Reader_take reader [row_offset]);
        lift (first_value table)
  end.

(** [m[k].emplace_back(x)] on a [std::map] of strings, as its entries in order. *)
Fixpoint group_push {A} (k : string) (x : A) (m : list (string * list A)) : list (string * list A) :=
  match m with
  | [] => [(k, [x])]
  | (k', l) :: m' =>
      match String.compare k k' with
      | Lt => (k, [x]) :: m
      | Eq => (k', l ++ [x]) :: m'
      | Gt => (k', l) :: group_push k x m'
      end
  end.

(** The values so far and the references of each file. *)
Definition Groups : Type := list (string * list (nat * Z)).

Definition place_ref (i : nat) (ref : value) (acc : list value * Groups) :
    outcome Status (list value * Groups) :=
  inline ← IsInlineData ref;
  if (inline : bool) then Ok (<[i := default [] (DecodeInlineData ref)]> acc.1, acc.2)
  else if negb (length ref =? LOB_REFERENCE_SIZE)%nat then Err status_Invalid
  else
    let '(mkLobRef file_id_str row_offset) := DecodeLOBReference ref in
    Ok (acc.1, group_push file_id_str (i, row_offset) acc.2).

(** The first loop of [ReadBatchData]: null pointers and empty references are
    left as empty values. *)
Fixpoint place_refs (i : nat) (refs : list (option value)) (acc : list value * Groups) :
    outcome Status (list value * Groups) :=
  match refs with
  | [] => Ok acc
  | (None | Some []) :: refs' => place_refs (S i) refs' acc
  | Some ref :: refs' => acc ← place_ref i ref acc; place_refs (S i) refs' acc
  end.

(** The first loop of [ReadArrowArray]: only nulls are skipped. *)
Fixpoint place_array (i : nat) (refs : list (option value)) (acc : list value * Groups) :
    outcome Status (list value * Groups) :=
  match refs with
  | [] => Ok acc
  | None :: refs' => place_array (S i) refs' acc
  | Some ref :: refs' => acc ← place_ref i ref acc; place_array (S i) refs' acc
  end.

(** Pairs in the order of [std::sort]. *)
Definition pair_le (x y : Z * nat) : Prop := x.1 < y.1 ∨ x.1 = y.1 ∧ (x.2 ≤ y.2)%nat.

#[global] Instance pair_le_dec x y : Decision (pair_le x y).
Proof. unfold pair_le. apply _. Defined.

Definition sorted_offsets (idx_offsets : list (nat * Z)) : list (Z * nat) :=
  merge_sort pair_le (imap (λ j e, (e.2, j)) idx_offsets).

(** The values of the table go back to where their references were. *)
Fixpoint scatter (idx_offsets : list (nat * Z)) (sorted : list (Z * nat)) (data : list value)
    (results : list value) : outcome Status (list value) :=
  match sorted, data with
  | (_, group_idx) :: sorted', v :: data' =>
      e ← deref (idx_offsets !! group_idx);
      scatter idx_offsets sorted' data' (<[e.1 := v]> results)
  | _, _ => Ok results
  end.

Definition read_group (g : string * list (nat * Z)) (results : list value) : LR (list value) :=
  reader ← GetOrOpenReader g.1;
  let sorted := sorted_offsets g.2 in
  table ← lift (Reader_take reader sorted.*1);
  lift (scatter g.2 sorted (mjoin (table : list (list value))) results).

Fixpoint read_groups (gs : Groups) (results : list value) : LR (list value) :=
  match gs with
  | [] => mret results
  | g :: gs' => results ← read_group g results; read_groups gs' results
  end.

Definition ReadBatchData (encoded_refs : list (option value)) : LR (list value) :=
  reader_open_check;;
  acc ← lift (place_refs 0 encoded_refs (replicate (length encoded_refs) [], []));
  read_groups acc.2 acc.1.

(** The last loop of [ReadArrowArray]. *)
Fixpoint build_array (refs : list (option value)) (views : list value) (builder : list (option value)) :
    outcome Status (list (option value)) :=
  match refs, views with
  | None :: refs', _ :: views' =>
      builder ← array_Append builder None; build_array refs' views' builder
  | Some _ :: refs', v :: views' =>
      builder ← array_Append builder (Some v); build_array refs' views' builder
  | _, _ => Ok builder
  end.

Definition ReadArrowArray (encoded_refs : list (option value)) : LR (list (option value)) :=
  reader_open_check;;
  acc ← lift (place_array 0 encoded_refs (replicate (length encoded_refs) [], []));
  views ← read_groups acc.2 acc.1;
  builder ← lift (build_array encoded_refs views []);
  lift (array_Finish builder).

Definition TakeData (file_id_str : string) (row_offsets : list Z) : LR (list value) :=
  reader_open_check;;
  reader ← GetOrOpenReader file_id_str;
  table ← lift (Reader_take reader row_offsets);
  mret (mjoin (table : list (list value))).

Definition Reader_Close : LR unit :=
  s ← get_st;
  if lr_closed s then mret tt else modify (set_cache true ∅).

Definition ClearCache : LR unit := modify (λ s, set_cache (lr_closed s) ∅ s).
End reader.
