(* ===== verification/LobColumnCorrect.v ===== *)
(** * LOB values are read back

    Whatever sequence of writes and flushes a writer goes through, with or
    without failures, once [Close] succeeds every reference that it handed out
    resolves to the value it was given for.  Reading references by file gives
    what reading them one by one gives, as long as no reference occurs twice. *)

From S2P Require Import Prelude CppString Status Paths LobColumn.

(** ** Encoded references *)

Section codec.

Lemma int32_bytes_length z : length (int32_bytes z) = 4%nat.
Proof. done. Qed.

Lemma byte_at z i : 0 ≤ i → Z.land (Z.shiftr z i) 255 = (z / 2 ^ i) mod 256.
Proof. intros Hi. change 255 with (Z.ones 8). rewrite Z.land_ones, Z.shiftr_div_pow2 by lia. done. Qed.

Lemma int32_roundtrip z : INT32_MIN ≤ z ≤ INT32_MAX → int32_of_bytes (int32_bytes z) = z.
Proof.
  intros Hz. unfold int32_of_bytes, int32_bytes. rewrite !fmap_cons. cbn [foldr fmap list_fmap].
  rewrite !byte_at by lia. change (2 ^ (8 * 0)) with 1. change (2 ^ (8 * 1)) with 256.
  change (2 ^ (8 * 2)) with (256 * 256). change (2 ^ (8 * 3)) with (256 * 256 * 256).
  rewrite Z.div_1_r, <- !Z.div_div by lia.
  set (a := z / 256). set (b := a / 256). set (d := b / 256).
  pose proof (Z.div_mod z 256 ltac:(lia)) as H0. pose proof (Z.div_mod a 256 ltac:(lia)) as H1.
  pose proof (Z.div_mod b 256 ltac:(lia)) as H2. pose proof (Z.div_mod d 256 ltac:(lia)) as H3.
  fold a in H0. fold b in H1. fold d in H2.
  replace (z mod 256 + 256 * (a mod 256 + 256 * (b mod 256 + 256 * (d mod 256 + 256 * 0))))
    with (z + (- (d / 256)) * 2 ^ 32) by lia.
  unfold wrap_i32. replace (z + - (d / 256) * 2 ^ 32 + 2 ^ 31) with (z + 2 ^ 31 + - (d / 256) * 2 ^ 32) by lia.
  rewrite Z.mod_add by lia. unfold INT32_MIN, INT32_MAX in Hz. rewrite Z.mod_small by lia. lia.
Qed.

Lemma ref_length id off : length id = UUID_BINARY_SIZE → length (EncodeLOBReference id off) = LOB_REFERENCE_SIZE.
Proof.
  intros Hid. unfold EncodeLOBReference. rewrite !length_app, length_take, Hid, int32_bytes_length. done.
Qed.

Lemma ref_uuid id off : length id = UUID_BINARY_SIZE →
  take UUID_BINARY_SIZE (drop 4 (EncodeLOBReference id off)) = id.
Proof.
  intros Hid. unfold EncodeLOBReference. rewrite (drop_app_length' [_; _; _; _]) by done.
  rewrite (take_ge id) by lia. by rewrite take_app_length'.
Qed.

Lemma ref_offset id off : length id = UUID_BINARY_SIZE → INT32_MIN ≤ off ≤ INT32_MAX →
  int32_of_bytes (take 4 (drop 20 (EncodeLOBReference id off))) = off.
Proof.
  intros Hid Hoff. unfold EncodeLOBReference. rewrite (take_ge id) by lia. rewrite app_assoc.
  rewrite drop_app_length' by (rewrite length_app, Hid; done).
  rewrite take_ge by done. by apply int32_roundtrip.
Qed.

Lemma app_str_inj_r a b p : a +:+ p = b +:+ p → a = b.
Proof.
  revert b. induction a as [|c a IH]; intros [|d b] He; [done|..].
  - apply (f_equal String.length) in He. rewrite !length_app_str in He. simpl in He. lia.
  - apply (f_equal String.length) in He. rewrite !length_app_str in He. simpl in He. lia.
  - injection He as -> He. f_equal. by apply IH.
Qed.

Lemma lob_path_inj base a b :
  Path.is_absolute (a +:+ ".vx") = false → Path.is_absolute (b +:+ ".vx") = false →
  BuildLOBFilePath base a = BuildLOBFilePath base b → a = b.
Proof.
  intros Ha Hb. unfold BuildLOBFilePath. set (p := Path.append base "_data"). unfold Path.append at 1 2.
  rewrite Ha, Hb. intros Hp.
  assert (a +:+ ".vx" = b +:+ ".vx") as He.
  { destruct (is_empty p || Path.ends_with_sep p); [by apply app_str_inj_l in Hp|].
    apply app_str_inj_l in Hp. by injection Hp. }
  by apply app_str_inj_r in He.
Qed.
End codec.

(** ** What the environment promises

    [rows_of] is what a writer that is open and has not failed was given; after
    a failure every call of the writer fails.  The files are those that a reader
    can open.  [take] wants its rows sorted and unique. *)

Definition BINARY_LIMIT : Z := INT32_MAX - 1.    (* arrow::kBinaryMemoryLimit *)

Definition total_size (l : list value) : Z := sum_Z (size <$> l).

Class LobLaws `{LF : LobFiles} := {
  file_of : Store → string → option (list value);
  rows_of : Store → VortexFileWriter → option (list value);
  path_of : VortexFileWriter → string;
  content : VortexFormatReader → list value;
  (* every call leaves the files of other paths alone *)
  create_dir_frame p fs fs' r q : CreateDir p fs = (fs', r) → file_of fs' q = file_of fs q;
  delete_frame p fs fs' r q : DeleteFile p fs = (fs', r) → q ≠ p → file_of fs' q = file_of fs q;
  open_frame n t p fs fs' r q : Writer_Open n t p fs = (fs', r) → q ≠ p → file_of fs' q = file_of fs q;
  write_frame w l fs fs' r q : Writer_Write w l fs = (fs', r) → q ≠ path_of w → file_of fs' q = file_of fs q;
  flush_frame w fs fs' r q : Writer_Flush w fs = (fs', r) → q ≠ path_of w → file_of fs' q = file_of fs q;
  close_frame w fs fs' r q : Writer_Close w fs = (fs', r) → q ≠ path_of w → file_of fs' q = file_of fs q;
  reset_frame w fs q : q ≠ path_of w → file_of (Writer_reset w fs) q = file_of fs q;
  read_open_frame n t p fs fs' r q : Reader_open n t p fs = (fs', r) → file_of fs' q = file_of fs q;
  (* calls that succeed *)
  delete_ok p fs fs' : DeleteFile p fs = (fs', Ok tt) → file_of fs' p = None;
  open_ok n t p fs fs' w : Writer_Open n t p fs = (fs', Ok w) → rows_of fs' w = Some [] ∧ path_of w = p;
  write_ok w l fs fs' : Writer_Write w l fs = (fs', Ok tt) →
    ∃ rows, rows_of fs w = Some rows ∧ rows_of fs' w = Some (rows ++ l);
  flush_ok w fs fs' : Writer_Flush w fs = (fs', Ok tt) →
    ∃ rows, rows_of fs w = Some rows ∧ rows_of fs' w = Some rows;
  close_ok w fs fs' : Writer_Close w fs = (fs', Ok tt) →
    ∃ rows, rows_of fs w = Some rows ∧ file_of fs' (path_of w) = Some rows;
  read_open_ok n t p fs fs' r : Reader_open n t p fs = (fs', Ok r) → file_of fs p = Some (content r);
  take_ok r idx chunks : Reader_take r idx = Ok chunks → StronglySorted Z.lt idx →
    Forall2 (λ i v, content r !! Z.to_nat i = Some v) idx (mjoin chunks);
  take_in_range r idx chunks : Reader_take r idx = Ok chunks → Forall (Z.le 0) idx;
  (* a writer that failed stays failed *)
  write_err w l fs fs' e : Writer_Write w l fs = (fs', Err e) → rows_of fs' w = None;
  flush_err w fs fs' e : Writer_Flush w fs = (fs', Err e) → rows_of fs' w = None;
  close_err w fs fs' e : Writer_Close w fs = (fs', Err e) → rows_of fs' w = None;
  (* failures are statuses *)
  create_dir_defined p fs fs' : CreateDir p fs ≠ (fs', Ub);
  delete_defined p fs fs' : DeleteFile p fs ≠ (fs', Ub);
  open_defined n t p fs fs' : Writer_Open n t p fs ≠ (fs', Ub);
  write_defined w l fs fs' : Writer_Write w l fs ≠ (fs', Ub);
  flush_defined w fs fs' : Writer_Flush w fs ≠ (fs', Ub);
  close_defined w fs fs' : Writer_Close w fs ≠ (fs', Ub);
  read_open_defined n t p fs fs' : Reader_open n t p fs ≠ (fs', Ub);
  take_defined r idx : Reader_take r idx ≠ Ub;
  (* builders: only their size limits them *)
  append_ok b v : total_size b + size v ≤ BINARY_LIMIT → builder_Append b v (size v) = Ok (b ++ [v]);
  append_defined b v n : 0 ≤ n → builder_Append b v n ≠ Ub;
  finish_ok b : builder_Finish b = Ok b;
  array_append_ok b x b' : array_Append b x = Ok b' → b' = b ++ [x];
  array_append_defined b x : array_Append b x ≠ Ub;
  array_finish_ok b b' : array_Finish b = Ok b' → b' = b;
  array_finish_defined b : array_Finish b ≠ Ub;
  (* uuids have 16 bytes and do not repeat; their text is made of hex digits and hyphens *)
  uuid_length n : length (GenerateUUIDBinary n) = UUID_BINARY_SIZE;
  uuid_unique m n : UUIDToString (GenerateUUIDBinary m) = UUIDToString (GenerateUUIDBinary n) → m = n;
  uuid_text_relative a : Path.is_absolute (UUIDToString a +:+ ".vx") = false;
}.

(** ** The writer's invariant *)

Section writer.
Context `{LL : LobLaws} (c : LobColumnConfig).

Definition path_at (k : nat) : string :=
  BuildLOBFilePath (lob_base_path c) (UUIDToString (GenerateUUIDBinary k)).

Lemma path_at_inj k k' : path_at k = path_at k' → k = k'.
Proof.
  intros Hp. apply uuid_unique. eapply lob_path_inj; [apply uuid_text_relative..|exact Hp].
Qed.

(** A value with the reference that was handed out for it. *)
Definition entry : Type := value * value.

Definition lob_ref (e : entry) (k off : nat) : Prop :=
  e.2 = EncodeLOBReference (GenerateUUIDBinary k) (Z.of_nat off) ∧ Z.of_nat off ≤ INT32_MAX.

Definition inline_ref (e : entry) : Prop := e.2 = EncodeInlineData e.1.

(** The reference resolves to its value in the files before uuid [K]. *)
Definition stored (K : nat) (fs : Store) (files : list LobFileResult) (e : entry) : Prop :=
  inline_ref e ∨
  ∃ k off l, lob_ref e k off ∧ (k < K)%nat ∧ path_at k ∈ lf_path <$> files ∧
    file_of fs (path_at k) = Some l ∧ l !! off = Some e.1.

(** What is recorded of a finished file. *)
Definition finished (K : nat) (fs : Store) (f : LobFileResult) : Prop :=
  ∃ k l, (k < K)%nat ∧ lf_path f = path_at k ∧ file_of fs (path_at k) = Some l ∧
    lf_total_rows f = Z.of_nat (length l) ∧ lf_valid_rows f = Z.of_nat (length l).

(** The value is in the file being written, flushed or pending. *)
Definition in_current (s : LobColumnWriter) (rows : list value) (e : entry) : Prop :=
  ∃ off, lob_ref e (lw_uuid s) off ∧ (rows ++ lw_pending s) !! off = Some e.1.

(** The row that a LOB reference names; inline references name none. *)
Definition lob_row (ref : value) : option (string * Z) :=
  match ref with
  | [] => None
  | b :: _ => if b =? FLAG_INLINE_DATA then None
              else Some (ref_file_id (DecodeLOBReference ref), ref_row_offset (DecodeLOBReference ref))
  end.

(** No row was handed out twice. *)
Definition distinct (hist : list entry) : Prop := NoDup (omap lob_row hist.*2).

(** The state of a writer none of whose calls to the vortex writer failed; [n]
    bounds the rows of a file, [hist] is what was handed out. *)
Record healthy (n : Z) (hist : list entry) (s : LobColumnWriter) : Prop := {
  he_config : lw_config s = c;
  he_closed : lw_closed s = false;
  he_pending : lw_pending_bytes s = total_size (lw_pending s);
  he_rows : 0 ≤ lw_current_file_rows s ≤ n;
  he_distinct : distinct hist;
  he_file : match lw_vortex_writer s with
    | None => lw_current_file_rows s = 0 ∧ lw_pending s = [] ∧
        Forall (finished (lw_uuid s) (lw_fs s)) (lw_created_files s) ∧
        Forall (stored (lw_uuid s) (lw_fs s) (lw_created_files s)) hist
    | Some w => path_of w = path_at (lw_uuid s) ∧ ∃ rows before,
        rows_of (lw_fs s) w = Some rows ∧
        lw_current_file_rows s = Z.of_nat (length (rows ++ lw_pending s)) ∧
        lw_created_files s = before ++ [mkLobFile (path_at (lw_uuid s)) 0 0 0] ∧
        Forall (finished (lw_uuid s) (lw_fs s)) before ∧
        Forall (λ e, stored (lw_uuid s) (lw_fs s) before e ∨ in_current s rows e) hist
    end;
}.

(** A call to the vortex writer failed: [Close] cannot succeed any more. *)
Record broken (s : LobColumnWriter) : Prop := {
  br_config : lw_config s = c;
  br_closed : lw_closed s = false;
  br_writer : ∃ w, lw_vortex_writer s = Some w ∧ rows_of (lw_fs s) w = None;
}.

(** The files of earlier uuids are as they were. *)
Definition same_before (K : nat) (fs fs' : Store) : Prop :=
  ∀ k, (k < K)%nat → file_of fs' (path_at k) = file_of fs (path_at k).

Lemma stored_frame K fs fs' files e : same_before K fs fs' → stored K fs files e → stored K fs' files e.
Proof.
  intros Hf [Hi|(k & off & l & Hr & Hk & Hp & Hl & Hv)]; [by left|right].
  exists k, off, l. rewrite Hf by done. done.
Qed.

Lemma finished_frame K fs fs' f : same_before K fs fs' → finished K fs f → finished K fs' f.
Proof. intros Hf (k & l & Hk & Hp & Hl & ?). exists k, l. by rewrite Hf. Qed.

Lemma stored_mono K K' fs files files' e :
  (K ≤ K')%nat → (∀ p, p ∈ lf_path <$> files → p ∈ lf_path <$> files') →
  stored K fs files e → stored K' fs files' e.
Proof.
  intros HK Hsub [Hi|(k & off & l & Hr & Hk & Hp & Hl & Hv)]; [by left|right].
  exists k, off, l. split_and!; [done|lia|auto|done|done].
Qed.

Lemma finished_mono K K' fs f : (K ≤ K')%nat → finished K fs f → finished K' fs f.
Proof. intros HK (k & l & Hk & ?). exists k, l. split; [lia|done]. Qed.

Lemma path_before k K : (k < K)%nat → path_at k ≠ path_at K.
Proof. intros Hk Hp. apply path_at_inj in Hp. lia. Qed.

Lemma lob_row_ref e k off : lob_ref e k off → lob_row e.2 = Some (UUIDToString (GenerateUUIDBinary k), Z.of_nat off).
Proof.
  intros [-> Hmax]. unfold lob_row. pose proof (uuid_length k) as Hu.
  change (EncodeLOBReference (GenerateUUIDBinary k) (Z.of_nat off)) with
    (FLAG_LOB_REFERENCE :: tail (EncodeLOBReference (GenerateUUIDBinary k) (Z.of_nat off))) at 1.
  cbn [Z.eqb FLAG_LOB_REFERENCE FLAG_INLINE_DATA]. unfold DecodeLOBReference. cbn [ref_file_id ref_row_offset].
  by rewrite ref_uuid, ref_offset by (done || unfold INT32_MIN; lia).
Qed.

(** The row after all others has not been handed out. *)
Lemma distinct_snoc s rows before fs hist v ref :
  distinct hist → lob_ref (v, ref) (lw_uuid s) (length (rows ++ lw_pending s)) →
  Forall (λ e, stored (lw_uuid s) fs before e ∨ in_current s rows e) hist → distinct (hist ++ [(v, ref)]).
Proof.
  intros Hd Hr Hst. unfold distinct. rewrite fmap_app, omap_app. apply NoDup_app. split_and!; [done| |].
  2:{ simpl. destruct (lob_row ref); [apply NoDup_singleton|constructor]. }
  intros x (r & (e & -> & He)%list_elem_of_fmap & Hx)%list_elem_of_omap Hx'. apply lob_row_ref in Hr. simpl in Hr, Hx'.
  rewrite Hr in Hx'. apply list_elem_of_singleton in Hx' as ->.
  eapply Forall_forall in Hst; [|exact He].
  assert (∀ k off, lob_ref e k off → k = lw_uuid s ∧ off = length (rows ++ lw_pending s)) as Hsame.
  { intros k off Hl. apply lob_row_ref in Hl. rewrite Hl in Hx. injection Hx as Hk Ho. split; [by apply uuid_unique|lia]. }
  destruct Hst as [[Hi|(k & off & l & Hl & Hk & _)]|(off & Hl & Hv)].
  - unfold inline_ref in Hi. rewrite Hi in Hx. done.
  - apply Hsame in Hl as [-> _]. lia.
  - apply Hsame in Hl as [_ ->]. apply lookup_lt_Some in Hv. lia.
Qed.

(** A call on the store that leaves the other files alone. *)
Lemma wp_on_store {A} (m : M Store Status A) s (Q : A → LobColumnWriter → Prop) R :
  (∀ fs a, m (lw_fs s) = (fs, Ok a) → Q a (set_fs fs s)) →
  (∀ fs e, m (lw_fs s) = (fs, Err e) → R e (set_fs fs s)) →
  (∀ fs, m (lw_fs s) ≠ (fs, Ub)) → wp (on_store m) s Q R.
Proof.
  intros HQ HR HU. unfold wp, on_store. destruct (m (lw_fs s)) as [fs [a|e|]]; [by apply HQ|by apply HR|].
  by eapply HU.
Qed.

Lemma healthy_closed_frame n hist s fs :
  lw_vortex_writer s = None → same_before (lw_uuid s) (lw_fs s) fs →
  healthy n hist s → healthy n hist (set_fs fs s).
Proof.
  intros Hw Hf [Hc Hcl Hp Hr Hdi Hfile]. split; try done. simpl. rewrite Hw in *. simpl in *.
  destruct Hfile as (? & ? & Hfin & Hst). split_and!; try done.
  - eapply Forall_impl; [exact Hfin|]. intros f. by apply finished_frame.
  - eapply Forall_impl; [exact Hst|]. intros f. by apply stored_frame.
Qed.

Lemma ensure_spec n hist s :
  healthy n hist s →
  wp EnsureVortexWriter s
    (λ _ s', healthy n hist s' ∧ is_Some (lw_vortex_writer s') ∧ lw_uuid s' = lw_uuid s ∧
       lw_pending s' = lw_pending s ∧ lw_pending_bytes s' = lw_pending_bytes s)
    (λ _ s', healthy n hist s' ∧ lw_pending_bytes s' = lw_pending_bytes s).
Proof.
  intros Hh. unfold EnsureVortexWriter. apply wp_bind, wp_get.
  destruct (lw_vortex_writer s) as [w|] eqn:Hw; [apply wp_ret; split_and!; try done; by rewrite Hw|].
  assert (∀ fs, same_before (lw_uuid s) (lw_fs s) fs → healthy n hist (set_fs fs s)) as Hframe.
  { intros fs Hf. by apply healthy_closed_frame. }
  eapply (wp_seq _ _ _ (λ _ s', ∃ fs, s' = set_fs fs s ∧ same_before (lw_uuid s) (lw_fs s) fs)).
  { destruct (IsLocalFileSystem (lw_fs s)).
    - apply wp_on_store.
      + intros fs [] Hd. exists fs. split; [done|]. intros k _. by eapply create_dir_frame.
      + intros fs e Hd. split; [|done]. apply Hframe. intros k _. by eapply create_dir_frame.
      + intros fs. apply create_dir_defined.
    - apply wp_ret. exists (lw_fs s). split; [by destruct s|done]. }
  intros _ s1 (fs1 & -> & Hf1). apply wp_bind. unfold current_path.
  assert (lw_config s = c) as Hcfg by apply Hh. rewrite Hcfg. fold (path_at (lw_uuid s)).
  assert (∀ fs r, Writer_Open (FieldName c) (data_type c) (path_at (lw_uuid s)) (lw_fs (set_fs fs1 s)) = (fs, r) →
    same_before (lw_uuid s) (lw_fs s) fs) as Hf2.
  { intros fs r Ho k Hk. rewrite <- Hf1 by done. eapply open_frame; [exact Ho|by apply path_before]. }
  apply wp_on_store.
  - intros fs w Ho. apply wp_bind, wp_modify, wp_modify. simpl. pose proof (open_ok _ _ _ _ _ _ Ho) as [Hrows Hpath].
    specialize (Hf2 _ _ Ho). specialize (Hframe fs Hf2). destruct Hframe as [? ? ? ? ? Hfile]. simpl in Hfile.
    rewrite Hw in Hfile. destruct Hfile as (H0 & Hpe & Hfin & Hst). split_and!; [|by eexists|done..].
    split; try done. simpl. split; [done|]. exists [], (lw_created_files s). split_and!; try done.
    + rewrite Hpe. done.
    + eapply Forall_impl; [exact Hst|]. intros e He. by left.
  - intros fs e Ho. split; [|done]. apply Hframe. by eapply Hf2.
  - intros fs. apply open_defined.
Qed.

Lemma size_nonneg v : 0 ≤ size v.
Proof. unfold size. lia. Qed.

Lemma total_size_nonneg l : 0 ≤ total_size l.
Proof.
  unfold total_size. induction l as [|v l IH]; [done|]. rewrite fmap_cons. simpl. pose proof (size_nonneg v). lia.
Qed.

Lemma total_size_snoc l v : total_size (l ++ [v]) = total_size l + size v.
Proof. unfold total_size. rewrite fmap_app, sum_Z_app. simpl. lia. Qed.

Definition fits (s : LobColumnWriter) (v : value) : Prop := total_size (lw_pending s) + size v ≤ BINARY_LIMIT.

Lemma append_spec n hist s v :
  healthy n hist s → fits s v → n < INT32_MAX →
  wp (append_lob v) s (λ ref s', healthy (n + 1) (hist ++ [(v, ref)]) s')
    (λ _ s', healthy n hist s' ∧ lw_pending_bytes s' = lw_pending_bytes s).
Proof.
  intros Hh Hv Hn. unfold append_lob. eapply wp_seq; [by apply ensure_spec|].
  intros _ s1 (Hh1 & [w Hw] & Hu & Hp & Hpb). apply wp_bind, wp_get, wp_bind.
  destruct Hh1 as [Hc Hcl Hpe Hr Hdi Hfile]. rewrite Hw in Hfile.
  destruct Hfile as (Hpath & rows & before & Hrows & Hcnt & Hcr & Hfin & Hst).
  unfold fits in Hv. rewrite <- Hp in Hv. pose proof (total_size_nonneg (lw_pending s1)). pose proof (size_nonneg v).
  unfold BINARY_LIMIT, INT32_MAX in *.
  rewrite !wrap_i32_small by (unfold INT32_MIN, INT32_MAX; lia).
  rewrite append_ok by (unfold BINARY_LIMIT, INT32_MAX; lia). eapply wp_lift; [done|].
  apply wp_bind, wp_modify, wp_bind, wp_modify, wp_ret. split; try done; simpl.
  - rewrite u64_add_small by (unfold UINT64_MOD; lia). rewrite total_size_snoc. lia.
  - lia.
  - eapply distinct_snoc; [done| |exact Hst]. split; [by rewrite Hcnt|]. unfold INT32_MAX. lia.
  - rewrite Hw. split; [done|]. exists rows, before. split_and!; try done.
    + rewrite Hcnt, app_assoc, (length_app _ [v]). simpl. lia.
    + apply Forall_app. split.
      * eapply Forall_impl; [exact Hst|]. intros e [He|(off & Ho & He)]; [by left|right].
        exists off. split; [done|]. simpl. rewrite app_assoc. by apply lookup_app_l_Some.
      * constructor; [|constructor]. right. exists (length (rows ++ lw_pending s1)). split.
        -- split; simpl; [by rewrite Hcnt|]. unfold INT32_MAX. lia.
        -- simpl. by rewrite app_assoc, list_lookup_middle.
Qed.

(** Rows that were pending are in the file now. *)
Lemma flush_pending_spec n hist s :
  healthy n hist s →
  wp FlushPending s (λ _ s', healthy n hist s' ∧ lw_pending s' = []) (λ _ s', broken s').
Proof.
  intros Hh. unfold FlushPending. apply wp_bind, wp_get.
  destruct (lw_pending s) as [|x l] eqn:Hpend; [by apply wp_ret|].
  apply wp_bind. eapply wp_lift; [apply finish_ok|]. apply wp_bind, wp_modify, wp_bind.
  destruct Hh as [Hc Hcl Hpe Hr Hdi Hfile]. destruct (lw_vortex_writer s) as [w|] eqn:Hw.
  2:{ destruct Hfile as (_ & Hp & _). congruence. }
  destruct Hfile as (Hpath & rows & before & Hrows & Hcnt & Hcr & Hfin & Hst).
  eapply wp_lift; [done|]. simpl.
  assert (∀ fs, rows_of fs w = None → broken (set_fs fs (set_pending [] (lw_pending_bytes s) s))) as Hbr.
  { intros fs Hnone. split; try done. simpl. by exists w. }
  apply wp_bind, wp_on_store; simpl.
  - intros fs [] Hwr. apply wp_bind, wp_on_store; simpl.
    + intros fs' [] Hfl. apply wp_bind, wp_modify, wp_modify. split; [|done]. simpl.
      apply write_ok in Hwr as Hwo. destruct Hwo as (rows0 & Hr0 & Hr1). simplify_eq.
      apply flush_ok in Hfl as Hfo. destruct Hfo as (rows1 & Hr2 & Hr3). simplify_eq.
      assert (same_before (lw_uuid s) (lw_fs s) fs') as Hsame.
      { intros k Hk. assert (path_at k ≠ path_of w) as Hne by (rewrite Hpath; by apply path_before).
        rewrite (flush_frame _ _ _ _ _ Hfl Hne). by apply (write_frame _ _ _ _ _ _ Hwr). }
      split; simpl; try done. rewrite Hw. split; [done|]. exists (rows ++ x :: l), before. rewrite app_nil_r.
      split_and!; try done; [by rewrite Hcnt, Hpend| |].
      * eapply Forall_impl; [exact Hfin|]. intros f. by apply finished_frame.
      * eapply Forall_impl; [exact Hst|]. intros e [He|(off & Ho & He)]; [left; by eapply stored_frame|right].
        exists off. split; [done|]. simpl. rewrite app_nil_r. by rewrite Hpend in He.
    + intros fs' e Hfl. apply (Hbr fs'). by eapply flush_err.
    + intros fs'. apply flush_defined.
  - intros fs e Hwr. apply Hbr. by eapply write_err.
  - intros fs. apply write_defined.
Qed.

(** After a close, everything handed out is stored. *)
Definition sealed (K : nat) (hist : list entry) (s : LobColumnWriter) : Prop :=
  lw_config s = c ∧ lw_closed s = false ∧ lw_vortex_writer s = None ∧ lw_pending s = [] ∧ distinct hist ∧
  Forall (finished K (lw_fs s)) (lw_created_files s) ∧
  Forall (stored K (lw_fs s) (lw_created_files s)) hist.

Lemma finalize_last_snoc rows bytes before f :
  finalize_last rows bytes (before ++ [f]) = before ++ [mkLobFile (lf_path f) rows rows bytes].
Proof. unfold finalize_last. rewrite reverse_snoc. simpl. by rewrite reverse_cons, reverse_involutive. Qed.

Lemma close_current_spec n hist s :
  healthy n hist s → lw_pending s = [] →
  wp CloseCurrentFile s
    (λ _ s', sealed (S (lw_uuid s)) hist s' ∧ lw_pending_bytes s' = lw_pending_bytes s ∧ lw_uuid s' = lw_uuid s)
    (λ _ s', broken s').
Proof.
  intros [Hc Hcl Hpe Hr Hdi Hfile] Hpend. unfold CloseCurrentFile. apply wp_bind, wp_get.
  destruct (lw_vortex_writer s) as [w|] eqn:Hw.
  - destruct Hfile as (Hpath & rows & before & Hrows & Hcnt & Hcr & Hfin & Hst). apply wp_bind, wp_on_store.
    + intros fs [] Hcw. apply wp_modify. apply close_ok in Hcw as Hco. destruct Hco as (rows' & Hr0 & Hfo). simplify_eq.
      rewrite Hpath in Hfo. rewrite Hpend, app_nil_r in Hcnt.
      assert (same_before (lw_uuid s) (lw_fs s) fs) as Hsame.
      { intros k Hk. apply (close_frame _ _ _ _ _ Hcw). rewrite Hpath. by apply path_before. }
      split; [|done]. unfold sealed. simpl. rewrite Hcr, finalize_last_snoc. split_and!; try done.
      * apply Forall_app. split.
        -- eapply Forall_impl; [exact Hfin|]. intros f Hf. eapply finished_mono; [|by eapply finished_frame]. lia.
        -- constructor; [|constructor]. exists (lw_uuid s), rows. simpl. split_and!; try done. lia.
      * eapply Forall_impl; [exact Hst|]. intros e [He|(off & Ho & He)].
        -- eapply stored_mono; [| |by eapply stored_frame]; [lia|]. intros p Hp. rewrite fmap_app. apply elem_of_app. by left.
        -- right. exists (lw_uuid s), off, rows. rewrite Hpend, app_nil_r in He. split_and!; try done; [lia|].
           rewrite fmap_app. apply elem_of_app. right. by left.
    + intros fs e Hcw. split; try done. simpl. exists w. split; [done|]. by eapply close_err.
    + intros fs. apply close_defined.
  - apply wp_ret. destruct Hfile as (_ & _ & Hfin & Hst). split; [|done]. split_and!; try done.
    + eapply Forall_impl; [exact Hfin|]. intros f. apply finished_mono. lia.
    + eapply Forall_impl; [exact Hst|]. intros e. apply stored_mono; [lia|done].
Qed.

Lemma maybe_roll_spec n hist s :
  healthy n hist s → lw_pending s = [] →
  wp MaybeRollFile s (λ _ s', healthy n hist s' ∧ lw_pending s' = []) (λ _ s', broken s').
Proof.
  intros Hh Hpend. unfold MaybeRollFile. apply wp_bind, wp_get.
  destruct (_ <? _); [by apply wp_ret|]. eapply wp_seq; [by eapply close_current_spec|].
  intros _ s1 ((Hc & Hcl & Hw & Hp & Hdi & Hfin & Hst) & Hpb & Hu). apply wp_modify. split; [|done].
  destruct Hh as [_ _ Hpe Hr _ _]. split; simpl; try done; [by rewrite Hpb, Hp, Hpe, Hpend|lia|].
  rewrite Hw. done.
Qed.

(** ** A failed writer stays failed *)

Lemma broken_flush s : broken s → wp FlushPending s (λ _ s', broken s') (λ _ s', broken s').
Proof.
  intros Hb. pose proof Hb as [Hc Hcl (w & Hw & Hdead)]. unfold FlushPending. apply wp_bind, wp_get.
  destruct (lw_pending s) as [|x l]; [by apply wp_ret|].
  apply wp_bind. eapply wp_lift; [apply finish_ok|]. apply wp_bind, wp_modify, wp_bind. rewrite Hw.
  eapply wp_lift; [done|]. apply wp_bind, wp_on_store; simpl.
  - intros fs [] Hwr. apply write_ok in Hwr as (rows & Hr & _). congruence.
  - intros fs e Hwr. split; try done. simpl. exists w. split; [done|]. by eapply write_err.
  - intros fs. apply write_defined.
Qed.

Lemma broken_close_current s : broken s → wp CloseCurrentFile s (λ _ _, False) (λ _ s', broken s').
Proof.
  intros Hb. pose proof Hb as [Hc Hcl (w & Hw & Hdead)]. unfold CloseCurrentFile. apply wp_bind, wp_get. rewrite Hw.
  apply wp_bind, wp_on_store; simpl.
  - intros fs [] Hcw. apply close_ok in Hcw as (rows & Hr & _). congruence.
  - intros fs e Hcw. split; try done. simpl. exists w. split; [done|]. by eapply close_err.
  - intros fs. apply close_defined.
Qed.

Lemma broken_roll s : broken s → wp MaybeRollFile s (λ _ s', broken s') (λ _ s', broken s').
Proof.
  intros Hb. unfold MaybeRollFile. apply wp_bind, wp_get. destruct (_ <? _); [by apply wp_ret|].
  eapply wp_seq; [by apply broken_close_current|]. done.
Qed.

Lemma broken_append s v : broken s → size v ≤ INT32_MAX →
  wp (append_lob v) s (λ _ s', broken s') (λ _ s', broken s').
Proof.
  intros Hb Hv. pose proof Hb as [Hc Hcl (w & Hw & Hdead)]. unfold append_lob, EnsureVortexWriter.
  apply wp_bind, wp_bind, wp_get. rewrite Hw. apply wp_ret, wp_bind, wp_get, wp_bind.
  pose proof (size_nonneg v). rewrite (wrap_i32_small (size v)) by (unfold INT32_MIN; lia).
  pose proof (append_defined (lw_pending s) v (size v) ltac:(lia)) as Hd. unfold wp, lift at 1.
  destruct (builder_Append (lw_pending s) v (size v)) as [b|e|]; [|done|done].
  apply wp_bind, wp_modify, wp_bind, wp_modify, wp_ret. split; try done. by exists w.
Qed.

(** ** Every operation keeps the writer good *)

Definition ready (n : Z) (hist : list entry) (s : LobColumnWriter) : Prop :=
  healthy n hist s ∧ lw_pending_bytes s < flush_threshold_bytes c.

Definition good (n : Z) (hist : list entry) (s : LobColumnWriter) : Prop := ready n hist s ∨ broken s.

Lemma healthy_mono n n' hist s : n ≤ n' → healthy n hist s → healthy n' hist s.
Proof. intros Hn [? ? ? ? ? ?]. split; try done. lia. Qed.

Lemma good_mono n n' hist s : n ≤ n' → good n hist s → good n' hist s.
Proof. intros Hn [[Hh ?]|Hb]; [left|by right]. split; [|done]. by eapply healthy_mono. Qed.

Lemma good_hist n hist new s : good n (hist ++ new) s → good n hist s.
Proof.
  intros [[[? ? ? ? Hdi Hf] ?]|Hb]; [left|by right]. split; [|done]. split; try done.
  { unfold distinct in *. rewrite fmap_app, omap_app in Hdi. by apply NoDup_app in Hdi as [? _]. }
  destruct (lw_vortex_writer s).
  - destruct Hf as (? & rows & before & ? & ? & ? & ? & [Hst _]%Forall_app). split; [done|]. by exists rows, before.
  - destruct Hf as (? & ? & ? & [Hst _]%Forall_app). done.
Qed.

Lemma healthy_inline n hist s v : healthy n hist s → healthy n (hist ++ [(v, EncodeInlineData v)]) s.
Proof.
  intros [? ? ? ? Hdi Hf]. split; try done.
  { unfold distinct in *. by rewrite fmap_app, omap_app, app_nil_r. }
  destruct (lw_vortex_writer s).
  - destruct Hf as (? & rows & before & ? & ? & ? & ? & Hst). split; [done|]. exists rows, before. split_and!; try done.
    apply Forall_app. split; [done|]. constructor; [|constructor]. left. by left.
  - destruct Hf as (? & ? & ? & Hst). split_and!; try done. apply Forall_app. split; [done|].
    constructor; [|constructor]. by left.
Qed.

Lemma good_count n hist s a b d e f g : good n hist s → good n hist (count a b d e f g s).
Proof.
  intros [[[? ? ? ? ? ?] ?]|[? ? ?]]; [left|right]; [|done]. split; [|done]. done.
Qed.

Lemma healthy_count n hist s a b d e f g : healthy n hist s → healthy n hist (count a b d e f g s).
Proof. by intros [? ? ? ? ? ?]. Qed.

Definition value_ok (v : value) : Prop := flush_threshold_bytes c + size v ≤ BINARY_LIMIT.

Lemma ready_fits n hist s v : ready n hist s → value_ok v → fits s v.
Proof. intros [[? ? Hp ? ? ?] Hb] Hv. unfold fits, value_ok in *. lia. Qed.

Context (Hthreshold : 0 < flush_threshold_bytes c).

Lemma value_ok_int32 v : value_ok v → size v ≤ INT32_MAX.
Proof. unfold value_ok, BINARY_LIMIT. lia. Qed.

Lemma flush_roll_good n hist s :
  healthy n hist s ∨ broken s →
  wp (FlushPending;; MaybeRollFile) s (λ _ s', good n hist s') (λ _ s', broken s').
Proof.
  intros [Hh|Hb].
  - eapply wp_seq; [by apply flush_pending_spec|]. intros _ s1 [Hh1 Hp1].
    eapply wp_mono; [by eapply maybe_roll_spec| |done]. intros _ s2 [Hh2 Hp2]. left. split; [done|].
    destruct Hh2 as [_ _ -> _ _ _]. by rewrite Hp2.
  - eapply wp_seq; [by apply broken_flush|]. intros u s1 Hb1.
    eapply wp_mono; [by apply broken_roll| |done]. by right.
Qed.

Lemma flush_if_full_good n hist s :
  healthy n hist s ∨ broken s → wp flush_if_full s (λ _ s', good n hist s') (λ _ s', broken s').
Proof.
  intros Hs. assert (lw_config s = c) as Hc by (destruct Hs as [[? ? ? ? ? ?]|[? ? ?]]; done).
  unfold flush_if_full. apply wp_bind, wp_get. rewrite Hc. destruct (Z.leb_spec (flush_threshold_bytes c) (lw_pending_bytes s)).
  - by apply flush_roll_good.
  - apply wp_ret. destruct Hs; [left; by split|by right].
Qed.

(** A large value in a good state: appended and, when due, flushed. *)
Lemma append_flush_good n hist s v a b d e f g :
  good n hist s → value_ok v → n < INT32_MAX →
  wp (ref ← append_lob v; modify (count a b d e f g);; flush_if_full;; mret ref) s
    (λ ref s', good (n + 1) (hist ++ [(v, ref)]) s') (λ _ s', good (n + 1) hist s').
Proof.
  intros Hg Hv Hn. eapply (wp_seq _ _ _ (λ ref s', healthy (n + 1) (hist ++ [(v, ref)]) s' ∨ broken s')).
  - destruct Hg as [Hr|Hb].
    + eapply wp_mono; [eapply append_spec; [apply Hr|by eapply ready_fits|done]|by left|].
      intros e' s' [Hh Hp]. left. split; [eapply healthy_mono; [|done]; lia|]. rewrite Hp. apply Hr.
    + eapply wp_mono; [apply broken_append; [done|by apply value_ok_int32]|by right|by right].
  - intros ref s1 Hs1. apply wp_bind, wp_modify. eapply wp_seq.
    + eapply wp_mono; [apply (flush_if_full_good (n + 1) (hist ++ [(v, ref)]))| |].
      * destruct Hs1 as [Hh|[? ? ?]]; [left; by apply healthy_count|right; done].
      * intros a' s' Hs'. exact Hs'.
      * intros e' s' Hb. by right.
    + intros u s2 Hs2. by apply wp_ret.
Qed.

Lemma good_open n hist s : good n hist s → lw_closed s = false ∧ lw_config s = c.
Proof. by intros [[[? ? ? ? ? ?] ?]|[? ? ?]]. Qed.

Lemma check_open_good n hist s Q R :
  good n hist s → Q tt s → wp check_open s Q R.
Proof. intros [Hc _]%good_open HQ. unfold check_open. apply wp_bind, wp_get. rewrite Hc. by apply wp_ret. Qed.

Lemma good_inline n hist s v : good n hist s → good (n + 1) (hist ++ [(v, EncodeInlineData v)]) s.
Proof.
  intros [[Hh Hp]|Hb]; [left|by right]. split; [|done].
  eapply healthy_mono; [|by apply healthy_inline]. lia.
Qed.

Lemma write_data_good n hist s v :
  good n hist s → value_ok v → n < INT32_MAX →
  wp (WriteData v) s (λ ref s', good (n + 1) (hist ++ [(v, ref)]) s') (λ _ s', good (n + 1) hist s').
Proof.
  intros Hg Hv Hn. unfold WriteData. apply wp_bind. eapply check_open_good; [done|]. apply wp_bind, wp_get.
  destruct (_ <? _); [|by apply append_flush_good].
  apply wp_bind, wp_modify, wp_ret. by apply good_count, good_inline.
Qed.

Lemma write_item_good n hist s v :
  good n hist s → value_ok v → n < INT32_MAX →
  wp (write_item v) s (λ ref s', good (n + 1) (hist ++ [(v, ref)]) s') (λ _ s', good (n + 1) hist s').
Proof.
  intros Hg Hv Hn. unfold write_item. apply wp_bind, wp_get.
  eapply (wp_seq _ _ _ (λ ref s', good (n + 1) (hist ++ [(v, ref)]) s')).
  - destruct (_ <? _); [|by apply append_flush_good].
    apply wp_bind, wp_modify, wp_ret. by apply good_count, good_inline.
  - intros ref s1 Hs1. apply wp_bind, wp_modify, wp_ret. by apply good_count.
Qed.

Definition count_of {A} (l : list A) : Z := Z.of_nat (length l).

Lemma write_items_good n hist s items :
  good n hist s → Forall value_ok items → n + count_of items ≤ INT32_MAX →
  wp (write_items items) s
    (λ refs s', length refs = length items ∧ good (n + count_of items) (hist ++ zip items refs) s')
    (λ _ s', good (n + count_of items) hist s').
Proof.
  intros Hg Hv. unfold count_of. revert n hist s Hg. induction Hv as [|v items Hv Hvs IH]; intros n hist s Hg Hn.
  - apply wp_ret. simpl. by rewrite Z.add_0_r, app_nil_r.
  - cbn [write_items length] in *. replace (n + Z.of_nat (S (length items))) with (n + 1 + Z.of_nat (length items)) in * by lia.
    apply wp_bind. eapply wp_mono; [apply write_item_good; [done|done|lia]| |].
    + intros ref s1 Hs1. apply wp_bind. eapply wp_mono; [by apply (IH (n + 1) (hist ++ [(v, ref)]))| |].
      * intros refs s2 [Hl Hs2]. apply wp_ret. split; [simpl; lia|]. by rewrite <- app_assoc in Hs2.
      * intros e s2 Hs2. exact (good_hist _ _ _ _ Hs2).
    + intros e s1 Hs1. eapply good_mono; [|exact Hs1]. lia.
Qed.

(** The references of the values of an array that are not null. *)
Definition given (data refs : list (option value)) : list entry :=
  mjoin (zip_with (λ d r, match d, r with Some v, Some ref => [(v, ref)] | _, _ => [] end) data refs).

Lemma write_array_good n hist s data builder :
  good n hist s → Forall (λ d, ∀ v, d = Some v → value_ok v) data → n + count_of data ≤ INT32_MAX →
  wp (write_array data builder) s
    (λ builder' s', ∃ refs, builder' = builder ++ refs ∧ length refs = length data ∧
       good (n + count_of data) (hist ++ given data refs) s')
    (λ _ s', good (n + count_of data) hist s').
Proof.
  intros Hg Hv. unfold count_of. revert n hist s builder Hg.
  induction Hv as [|d data Hd Hv IH]; intros n hist s builder Hg Hn.
  { apply wp_ret. exists []. unfold given. simpl. by rewrite Z.add_0_r, !app_nil_r. }
  cbn [write_array length] in *. replace (n + Z.of_nat (S (length data))) with (n + 1 + Z.of_nat (length data)) in * by lia.
  assert (∀ ref s1 hist', array_Append builder ref ≠ Ub →
    good (n + 1) hist' s1 → (∀ refs, hist' ++ given data refs = hist ++ given (d :: data) (ref :: refs)) →
    (∀ x s', good x hist' s' → good x hist s') →
    wp (builder' ← lift (array_Append builder ref);
        (if ref then write_array data builder' else modify (count 1 1 0 0 0 0);; write_array data builder')) s1
      (λ builder' s', ∃ refs, builder' = builder ++ refs ∧ length refs = length (d :: data) ∧
         good (n + 1 + Z.of_nat (length data)) (hist ++ given (d :: data) refs) s')
      (λ _ s', good (n + 1 + Z.of_nat (length data)) hist s')) as Hstep.
  { intros ref s1 hist' Hdef Hg1 Hh Hweak. apply wp_bind. unfold wp at 1, lift.
    destruct (array_Append builder ref) as [b|e|] eqn:Ha; [|apply Hweak; eapply good_mono; [|exact Hg1]; lia|done].
    apply array_append_ok in Ha as ->.
    assert (∀ s2, good (n + 1) hist' s2 → wp (write_array data (builder ++ [ref])) s2
      (λ builder' s', ∃ refs, builder' = builder ++ refs ∧ length refs = length (d :: data) ∧
         good (n + 1 + Z.of_nat (length data)) (hist ++ given (d :: data) refs) s')
      (λ _ s', good (n + 1 + Z.of_nat (length data)) hist s')) as Hrest.
    { intros s2 Hs2. eapply wp_mono; [apply (IH (n + 1) hist'); [done|lia]| |].
      - intros b s3 (refs & -> & Hl & Hs3). exists (ref :: refs). rewrite <- app_assoc. split_and!; [done|simpl; lia|].
        by rewrite <- Hh.
      - intros e s3. apply Hweak. }
    destruct ref; [by apply Hrest|]. apply wp_bind, wp_modify. by apply Hrest, good_count. }
  destruct d as [v|].
  - apply wp_bind. eapply wp_mono; [apply write_data_good; [done|by apply Hd|lia]| |].
    + intros ref s1 Hs1. apply (Hstep (Some ref) s1 (hist ++ [(v, ref)])); [apply array_append_defined|done| |].
      * intros refs. unfold given. simpl. by rewrite <- app_assoc.
      * intros x s'. apply good_hist.
    + intros e s1 Hs1. eapply good_mono; [|exact Hs1]. lia.
  - apply (Hstep None s hist); [apply array_append_defined|eapply good_mono; [|exact Hg]; lia|done|done].
Qed.

(** ** Runs of a writer *)

Inductive LobOp :=
  | WriteOne (v : value)
  | WriteMany (vs : list value)
  | WriteArray (a : list (option value))
  | FlushOp.

Definition op_values (op : LobOp) : list value :=
  match op with
  | WriteOne v => [v]
  | WriteMany vs => vs
  | WriteArray a => default [] <$> a
  | FlushOp => []
  end.

(** An operation, with the values and the references it hands out. *)
Definition op_run (op : LobOp) : LW (list entry) :=
  match op with
  | WriteOne v => ref ← WriteData v; mret [(v, ref)]
  | WriteMany vs => refs ← WriteBatchData vs; mret (zip vs refs)
  | WriteArray a => refs ← WriteArrowArray a; mret (given a refs)
  | FlushOp => Flush;; mret []
  end.

(** Operations in sequence; one that fails hands out nothing. *)
Fixpoint run_ops (ops : list LobOp) : LW (list entry) :=
  match ops with
  | [] => mret []
  | op :: ops' =>
      r ← catch (op_run op);
      rest ← run_ops ops';
      mret (match r with inl es => es | inr _ => [] end ++ rest)
  end.

Lemma wp_catch {S A} (m : M S Status A) s Q R :
  wp m s Q R → wp (catch m) s (λ r s', match r with inl a => Q a s' | inr e => R e s' end) (λ _ _, False).
Proof. unfold wp, catch. by destruct (m s) as [s' [a|e|]]. Qed.

Lemma op_good n hist s op :
  good n hist s → Forall value_ok (op_values op) → n + count_of (op_values op) ≤ INT32_MAX →
  wp (op_run op) s (λ es s', good (n + count_of (op_values op)) (hist ++ es) s')
    (λ _ s', good (n + count_of (op_values op)) hist s').
Proof.
  intros Hg Hv Hn. destruct op as [v|vs|a|]; simpl in *.
  - apply Forall_cons in Hv as [Hv _]. eapply wp_seq; [apply write_data_good; [done|done|unfold count_of in Hn; simpl in Hn; lia]|].
    intros ref s1 Hs1. by apply wp_ret.
  - apply wp_bind. unfold WriteBatchData. apply wp_bind. eapply check_open_good; [done|].
    eapply wp_seq; [by apply write_items_good|]. intros refs s1 [Hl Hs1].
    apply wp_bind, wp_modify, wp_ret, wp_ret. by apply good_count.
  - unfold count_of in *. rewrite length_fmap in *. apply wp_bind. unfold WriteArrowArray. apply wp_bind.
    eapply check_open_good; [done|]. eapply wp_seq.
    { apply (write_array_good n hist s a []); [done| |done]. apply Forall_forall. intros d Hd v ->.
      eapply Forall_forall in Hv; [exact Hv|]. change v with (default [] (Some v)). by apply list_elem_of_fmap_2. }
    intros b s1 (refs & -> & Hl & Hs1). rewrite app_nil_l. unfold wp, lift.
    destruct (array_Finish refs) as [r|e|] eqn:Hf; [|exact (good_hist _ _ _ _ Hs1)|by apply array_finish_defined in Hf].
    apply array_finish_ok in Hf as ->. done.
  - unfold count_of. simpl. rewrite Z.add_0_r. unfold Flush. apply wp_bind, wp_bind. eapply check_open_good; [done|].
    eapply wp_mono; [apply (flush_roll_good n hist); destruct Hg as [[? ?]|?]; [by left|by right]| |].
    + intros u s1 Hs1. apply wp_ret. by rewrite app_nil_r.
    + intros e s1 Hb. by right.
Qed.

Lemma run_ops_good n hist s ops :
  good n hist s → Forall value_ok (mjoin (op_values <$> ops)) → n + count_of (mjoin (op_values <$> ops)) ≤ INT32_MAX →
  wp (run_ops ops) s (λ es s', good (n + count_of (mjoin (op_values <$> ops))) (hist ++ es) s') (λ _ _, False).
Proof.
  unfold count_of. revert n hist s. induction ops as [|op ops IH]; intros n hist s Hg Hv Hn.
  { apply wp_ret. simpl. by rewrite Z.add_0_r, app_nil_r. }
  change (mjoin (op_values <$> op :: ops)) with (op_values op ++ mjoin (op_values <$> ops)) in *.
  cbn [run_ops]. rewrite length_app in *. apply Forall_app in Hv as [Hv Hvs].
  apply wp_bind. eapply wp_mono; [eapply wp_catch, op_good; [done|done|unfold count_of; lia]| |done]. unfold count_of.
  intros r s1 Hr.
  assert (good (n + Z.of_nat (length (op_values op))) (hist ++ match r with inl es => es | inr _ => [] end) s1) as Hs1.
  { destruct r; [done|]. by rewrite app_nil_r. }
  apply wp_bind. eapply wp_mono; [apply (IH _ _ _ Hs1 Hvs); lia| |done].
  intros es s2 Hs2. apply wp_ret. cbn beta in Hs2. rewrite <- app_assoc in Hs2.
  by replace (n + Z.of_nat (length (op_values op) + length (mjoin (op_values <$> ops))))
    with (n + Z.of_nat (length (op_values op)) + Z.of_nat (length (mjoin (op_values <$> ops)))) by lia.
Qed.

Lemma close_good n hist s :
  good n hist s →
  wp Close s (λ results s', ∃ K, distinct hist ∧ Forall (finished K (lw_fs s')) results ∧
                Forall (stored K (lw_fs s') results) hist) (λ _ _, True).
Proof.
  intros Hg. unfold Close. apply wp_bind. eapply check_open_good; [done|]. destruct Hg as [[Hh _]|Hb].
  - apply wp_bind. eapply wp_mono; [by apply flush_pending_spec| |done]. intros _ s1 [Hh1 Hp1].
    apply wp_bind. eapply wp_mono; [by eapply close_current_spec| |done].
    intros _ s2 ((_ & _ & _ & _ & Hdi & Hfin & Hst) & _ & _). apply wp_bind, wp_modify, wp_bind, wp_get, wp_ret.
    by exists (S (lw_uuid s1)).
  - apply wp_bind. eapply wp_mono; [by apply broken_flush| |done]. intros u s1 Hb1.
    apply wp_bind. eapply wp_mono; [by apply broken_close_current|done|done].
Qed.

Lemma new_writer_good fs : good 0 [] (CreateLobColumnWriter fs c).
Proof. left. split; [|done]. split; try done. constructor. Qed.
End writer.

(** ** Aborting *)

Section abort.
Context `{LL : LobLaws}.

(** Only the store differs. *)
Definition store_only (s s' : LobColumnWriter) : Prop := s' = set_fs (lw_fs s') s.

Lemma delete_all_spec (files : list LobFileResult) s :
  wp (for_each (λ f, _ ← catch (on_store (DeleteFile (lf_path f))); mret tt) files) s
    (λ _ s', store_only s s' ∧
       (∀ f, f ∈ files → file_of (lw_fs s') (lf_path f) = None ∨
          ∃ fs fs' e, DeleteFile (lf_path f) fs = (fs', Err e)) ∧
       (∀ q, q ∉ lf_path <$> files → file_of (lw_fs s') q = file_of (lw_fs s) q))
    (λ _ _, False).
Proof.
  revert s. induction files as [|f files IH]; intros s.
  { apply wp_ret. split_and!; [by destruct s|by intros f ?%not_elem_of_nil|done]. }
  cbn [for_each]. apply wp_bind, wp_bind. unfold wp at 1, catch, on_store.
  destruct (DeleteFile (lf_path f) (lw_fs s)) as [fs1 r] eqn:Hd.
  assert (wp (for_each (λ f, _ ← catch (on_store (DeleteFile (lf_path f))); mret tt) files) (set_fs fs1 s)
    (λ _ s', store_only s s' ∧
       (∀ f0, f0 ∈ f :: files → file_of (lw_fs s') (lf_path f0) = None ∨
          ∃ fs fs' e, DeleteFile (lf_path f0) fs = (fs', Err e)) ∧
       (∀ q, q ∉ lf_path <$> f :: files → file_of (lw_fs s') q = file_of (lw_fs s) q)) (λ _ _, False)) as Hrest.
  { eapply wp_mono; [apply (IH (set_fs fs1 s))| |done]. intros u s' (Hs & Hdel & Hoth). split_and!.
    - unfold store_only in *. rewrite Hs at 1. by destruct s.
    - intros g [->|Hg]%elem_of_cons; [|by apply Hdel].
      destruct r as [[]|e|]; [|right; by repeat eexists|by apply delete_defined in Hd].
      destruct (decide (lf_path f ∈ lf_path <$> files)) as [(g & Hg & Hin)%list_elem_of_fmap|Hn].
      + rewrite Hg. by apply Hdel.
      + left. rewrite Hoth by done. by eapply delete_ok.
    - intros q. rewrite fmap_cons, not_elem_of_cons. intros [Hq Hqs]. rewrite Hoth by done. simpl.
      by eapply delete_frame. }
  destruct r as [[]|e|]; [exact Hrest|exact Hrest|by apply delete_defined in Hd].
Qed.

(** Aborting discards the LOB files and ends the writer.  [Abort] never
    fails: afterwards every file the writer had created is gone, unless its own
    deletion failed, no other file has changed except possibly the one that was
    open, and the writer refuses every write, flush and close with [Invalid]
    without touching anything, while a second [Abort] is a no-op. *)
Theorem abort_discards_and_closes (s : LobColumnWriter) :
  lw_closed s = false →
  wp Abort s
    (λ _ s',
       (∀ f, f ∈ lw_created_files s → file_of (lw_fs s') (lf_path f) = None ∨
          ∃ fs fs' e, DeleteFile (lf_path f) fs = (fs', Err e)) ∧
       (∀ q, q ∉ lf_path <$> lw_created_files s → (∀ w, lw_vortex_writer s = Some w → q ≠ path_of w) →
          file_of (lw_fs s') q = file_of (lw_fs s) q) ∧
       (∀ op, op_run op s' = (s', Err status_Invalid)) ∧
       Close s' = (s', Err status_Invalid) ∧ Abort s' = (s', Ok tt))
    (λ _ _, False).
Proof.
  intros Hc. unfold Abort at 1. apply wp_bind, wp_get. rewrite Hc. apply wp_bind, wp_modify, wp_bind.
  assert (∀ s1, lw_created_files s1 = lw_created_files s →
    (∀ q, (∀ w, lw_vortex_writer s = Some w → q ≠ path_of w) → file_of (lw_fs s1) q = file_of (lw_fs s) q) →
    wp (for_each (λ f, _ ← catch (on_store (DeleteFile (lf_path f))); mret tt) (lw_created_files s);;
        modify (set_vortex_writer None []);; modify set_closed) s1
      (λ _ s',
       (∀ f, f ∈ lw_created_files s → file_of (lw_fs s') (lf_path f) = None ∨
          ∃ fs fs' e, DeleteFile (lf_path f) fs = (fs', Err e)) ∧
       (∀ q, q ∉ lf_path <$> lw_created_files s → (∀ w, lw_vortex_writer s = Some w → q ≠ path_of w) →
          file_of (lw_fs s') q = file_of (lw_fs s) q) ∧
       (∀ op, op_run op s' = (s', Err status_Invalid)) ∧
       Close s' = (s', Err status_Invalid) ∧ Abort s' = (s', Ok tt))
      (λ _ _, False)) as Hrest.
  { intros s1 _ Hf. apply wp_bind. eapply wp_mono; [apply delete_all_spec| |done].
    intros u s2 (_ & Hdel & Hoth). apply wp_bind, wp_modify, wp_modify. split_and!; try done.
    - intros q Hq Hw. simpl. rewrite Hoth by done. by apply Hf.
    - by intros []. }
  destruct (lw_vortex_writer s) as [w|] eqn:Hw.
  - apply wp_bind, wp_modify, wp_modify. apply Hrest; [done|]. intros q Hq. simpl. apply reset_frame. by apply Hq.
  - apply wp_ret. by apply Hrest.
Qed.
End abort.

(** ** The reader *)

Section reader.
Context `{LL : LobLaws} (c : LobColumnConfig).

(** What a reference stands for in a store. *)
Definition resolves (fs : Store) (ref v : value) : Prop :=
  if bool_decide (head ref = Some FLAG_INLINE_DATA) then v = default [] (DecodeInlineData ref)
  else length ref = LOB_REFERENCE_SIZE ∧ ∃ l,
    file_of fs (BuildLOBFilePath (lob_base_path c) (ref_file_id (DecodeLOBReference ref))) = Some l ∧
    0 ≤ ref_row_offset (DecodeLOBReference ref) ∧
    l !! Z.to_nat (ref_row_offset (DecodeLOBReference ref)) = Some v.

Lemma resolves_fun fs ref v v' : resolves fs ref v → resolves fs ref v' → v = v'.
Proof.
  unfold resolves. case_bool_decide; [by intros -> ->|].
  intros (_ & l & Hl & _ & Hv) (_ & l' & Hl' & _ & Hv'). by simplify_eq.
Qed.

(** An error that comes from the files, not from the reader. *)
Definition read_failed (e : Status) : Prop :=
  (∃ n t p fs fs', Reader_open n t p fs = (fs', Err e)) ∨ (∃ r idx, Reader_take r idx = Err e) ∨
  (e = status_IndexError ∧ ∃ r idx chunks, Reader_take r idx = Ok ([] :: chunks)).

(** A reference that is neither inline nor of the size of a LOB reference. *)
Definition bad_ref (ref : value) : Prop :=
  head ref ≠ Some FLAG_INLINE_DATA ∧ length ref ≠ LOB_REFERENCE_SIZE.

Record reader_ok (fs : Store) (s : LobColumnReader) : Prop := {
  ro_config : lr_config s = c;
  ro_open : lr_closed s = false;
  ro_files : ∀ q, file_of (lr_fs s) q = file_of fs q;
  ro_cache : ∀ id r, reader_cache s !! id = Some r →
    file_of fs (BuildLOBFilePath (lob_base_path c) id) = Some (content r);
}.

Lemma new_reader_ok fs : reader_ok fs (CreateLobColumnReader fs c).
Proof. by split. Qed.

Lemma get_or_open_spec fs s id :
  reader_ok fs s →
  wp (GetOrOpenReader id) s
    (λ r s', reader_ok fs s' ∧ file_of fs (BuildLOBFilePath (lob_base_path c) id) = Some (content r))
    (λ e s', reader_ok fs s' ∧ read_failed e).
Proof.
  intros Hs. pose proof Hs as [Hc Ho Hf Hcache]. unfold GetOrOpenReader. apply wp_bind, wp_get.
  destruct (reader_cache s !! id) as [r|] eqn:Hr; [apply wp_ret; split; [done|by apply Hcache]|].
  rewrite Hc. apply wp_bind. unfold wp at 1.
  destruct (Reader_open _ _ _ (lr_fs s)) as [fs' [r|e|]] eqn:Hop.
  - assert (file_of fs (BuildLOBFilePath (lob_base_path c) id) = Some (content r)) as Hfile.
    { rewrite <- Hf. by eapply read_open_ok. }
    apply wp_bind, wp_modify, wp_ret. split; [|done]. split; try done; simpl.
    + intros q. by rewrite (read_open_frame _ _ _ _ _ _ q Hop).
    + intros id' r' [[<- <-]|[_ Hr']]%lookup_insert_Some; [done|by apply Hcache].
  - split; [|left; by repeat eexists]. split; try done. intros q. simpl. by rewrite (read_open_frame _ _ _ _ _ _ q Hop).
  - by apply read_open_defined in Hop.
Qed.

Lemma wp_lift_case {S E A} (o : outcome E A) (s : S) (Q : A → S → Prop) R :
  match o with Ok a => Q a s | Err e => R e s | Ub => False end → wp (lift o) s Q R.
Proof. done. Qed.

Lemma first_value_spec r off chunks :
  Reader_take r [off] = Ok chunks →
  match first_value chunks with
  | Ok v => 0 ≤ off ∧ content r !! Z.to_nat off = Some v
  | Err e => read_failed e
  | Ub => False
  end.
Proof.
  intros Ht. pose proof (take_ok _ _ _ Ht ltac:(by repeat constructor)) as Hf2.
  pose proof (take_in_range _ _ _ Ht) as Hr. apply Forall_cons in Hr as [Hr _].
  destruct chunks as [|[|v ch] chunks].
  - apply Forall2_length in Hf2. done.
  - assert (first_value ([] :: chunks) = Err status_IndexError) as ->
      by (unfold first_value; by destruct (mjoin ([] :: chunks))).
    right. right. split; [done|]. by repeat eexists.
  - simpl. simpl in Hf2. inversion Hf2; subst. done.
Qed.

Lemma read_data_spec fs s ref :
  reader_ok fs s → ref ≠ [] →
  wp (ReadData (Some ref)) s (λ v s', reader_ok fs s' ∧ resolves fs ref v)
    (λ e s', reader_ok fs s' ∧ (read_failed e ∨ bad_ref ref ∧ e = status_Invalid)).
Proof.
  intros Hs Hne. pose proof Hs as [Hc Ho Hf Hcache]. unfold ReadData. apply wp_bind.
  unfold reader_open_check. apply wp_bind, wp_get. rewrite Ho. apply wp_ret.
  destruct ref as [|b ref0]; [done|]. set (ref := b :: ref0). apply wp_bind. eapply wp_lift; [done|].
  unfold resolves, bad_ref. simpl head. destruct (Z.eqb_spec b FLAG_INLINE_DATA) as [->|Hb].
  { apply wp_ret. by rewrite bool_decide_true. }
  assert (head ref ≠ Some FLAG_INLINE_DATA) as Hhd by (unfold ref; simpl; congruence).
  rewrite bool_decide_false by done. destruct (Nat.eqb_spec (length ref) LOB_REFERENCE_SIZE) as [Hl|Hl]; cbn [negb].
  2:{ unfold wp, fail. split; [done|]. right. by split. }
  destruct (DecodeLOBReference ref) as [id off]. cbn [ref_file_id ref_row_offset].
  eapply wp_bind, wp_mono; [by apply get_or_open_spec| |].
  - intros r s1 [Hs1 Hfile]. apply wp_bind, wp_lift_case. destruct (Reader_take r [off]) as [ch|e|] eqn:Ht.
    + pose proof (first_value_spec _ _ _ Ht) as Hv. apply wp_lift_case. destruct (first_value ch) as [v|e|]; [|split; [done|by left]|done].
      split; [done|]. split; [done|]. exists (content r). destruct Hv. done.
    + split; [done|]. left. right. left. by repeat eexists.
    + by apply take_defined in Ht.
  - intros e s1 [Hs1 He]. split; [done|by left].
Qed.

(** What was stored resolves to its value. *)
Lemma stored_resolves K fs files e :
  stored c K fs files e → e.2 ≠ [] ∧ resolves fs e.2 e.1 ∧ ¬ bad_ref e.2.
Proof.
  unfold resolves, bad_ref. intros [Hi|(k & off & l & (Hr & Hmax) & Hk & Hp & Hl & Hv)].
  - rewrite Hi. split; [done|]. rewrite bool_decide_true by done. split; [|by intros [? _]].
    unfold DecodeInlineData, EncodeInlineData. destruct (length _ <=? 1)%nat eqn:Hlen; [|done].
    apply Nat.leb_le in Hlen. simpl in *. by destruct e.1; simpl in *; [|lia].
  - rewrite Hr. split; [done|]. rewrite bool_decide_false by done.
    pose proof (uuid_length k) as Hu. pose proof (ref_length _ (Z.of_nat off) Hu) as Hlen.
    split; [|by intros [_ ?]]. split; [done|]. unfold DecodeLOBReference. cbn [ref_file_id ref_row_offset].
    rewrite ref_uuid, ref_offset by (done || unfold INT32_MIN; lia). exists l. rewrite Nat2Z.id. split_and!; [done|lia|done].
Qed.

(** C37: LOB values survive.  Any sequence of single, batch and array writes and
    flushes, any of which may fail, runs without undefined behaviour on a new
    writer; if [Close] then succeeds, every reference that was handed out reads
    back as the value it was given for, unless opening or reading a file fails,
    and each file that [Close] reports exists with the reported number of rows.
    Values have to fit an arrow binary array on top of a flush's worth of pending
    bytes, and their number an [int32_t]. *)
Theorem lob_values_read_back fs ops :
  LobColumnManager_Create true c = Ok c → 0 ≤ flush_threshold_bytes c →
  Forall (value_ok c) (mjoin (op_values <$> ops)) → count_of (mjoin (op_values <$> ops)) ≤ INT32_MAX →
  ∃ s handed_out, run_ops ops (CreateLobColumnWriter fs c) = (s, Ok handed_out) ∧
    match Close s with
    | (s', Ok results) =>
        (∀ v ref, (v, ref) ∈ handed_out →
           wp (ReadData (Some ref)) (CreateLobColumnReader (lw_fs s') c) (λ v' _, v' = v) (λ e _, read_failed e)) ∧
        (∀ f, f ∈ results → ∃ l, file_of (lw_fs s') (lf_path f) = Some l ∧
           lf_total_rows f = Z.of_nat (length l) ∧ lf_valid_rows f = Z.of_nat (length l))
    | (_, Err _) => True
    | (_, Ub) => False
    end.
Proof.
  intros Hm H0 Hv Hn. assert (0 < flush_threshold_bytes c) as Ht.
  { unfold LobColumnManager_Create in Hm. simpl in Hm. repeat (case_match; [done|]). lia. }
  pose proof (run_ops_good c Ht 0 [] (CreateLobColumnWriter fs c) ops (new_writer_good c Ht fs) Hv ltac:(lia)) as Hrun.
  unfold wp in Hrun. destruct (run_ops ops (CreateLobColumnWriter fs c)) as [s [es|e|]]; [|done|done].
  exists s, es. split; [done|]. pose proof (close_good c _ _ _ Hrun) as Hclose. unfold wp in Hclose at 1.
  destruct (Close s) as [s' [results|e|]]; [|done|done]. destruct Hclose as (K & _ & Hfin & Hst). split.
  - intros v ref Hin. eapply Forall_forall in Hst; [|exact Hin].
    apply stored_resolves in Hst as (Hne & Hres & Hok). simpl in *.
    eapply wp_mono; [apply read_data_spec; [apply new_reader_ok|done]| |].
    + intros v' s1 [_ Hv']. by eapply resolves_fun.
    + intros e s1 [_ [He|[Hb _]]]; [done|]. by apply Hok in Hb.
  - intros f Hf. eapply Forall_forall in Hfin; [|exact Hf]. destruct Hfin as (k & l & _ & Hp & Hl & ?).
    exists l. by rewrite Hp.
Qed.
End reader.
