(* ===== verification/LobShared.v ===== *)
(** * LOB writers that share a filesystem

    Writers of different columns write to different directories of one store.  A
    writer changes no file and no open writer outside its directory, its errors
    come from the store, and what it relies on survives the calls of the
    others. *)

From S2P Require Import Prelude CppString Status Paths LobColumn LobColumnCorrect.

(** Calls on one path leave the writers open on other paths alone. *)
Class SharedLobLaws `{LL : LobLaws} := {
  create_dir_rows p fs fs' r w : CreateDir p fs = (fs', r) → rows_of fs' w = rows_of fs w;
  delete_rows p fs fs' r w : DeleteFile p fs = (fs', r) → path_of w ≠ p → rows_of fs' w = rows_of fs w;
  open_rows n t p fs fs' r w : Writer_Open n t p fs = (fs', r) → path_of w ≠ p → rows_of fs' w = rows_of fs w;
  write_rows w l fs fs' r w' : Writer_Write w l fs = (fs', r) → path_of w' ≠ path_of w → rows_of fs' w' = rows_of fs w';
  flush_rows w fs fs' r w' : Writer_Flush w fs = (fs', r) → path_of w' ≠ path_of w → rows_of fs' w' = rows_of fs w';
  close_rows w fs fs' r w' : Writer_Close w fs = (fs', r) → path_of w' ≠ path_of w → rows_of fs' w' = rows_of fs w';
  reset_rows w fs w' : path_of w' ≠ path_of w → rows_of (Writer_reset w fs) w' = rows_of fs w';
  read_open_rows n t p fs fs' r w : Reader_open n t p fs = (fs', r) → rows_of fs' w = rows_of fs w;
}.

Section shared.
Context `{SL : SharedLobLaws} (c : LobColumnConfig).

(** The paths of a writer. *)
Definition mine (q : string) : Prop := ∃ k, q = path_at c k.

(** Nothing outside these paths has changed; nothing inside has. *)
Definition untouched (fs fs' : Store) : Prop :=
  (∀ q, ¬ mine q → file_of fs' q = file_of fs q) ∧ (∀ w, ¬ mine (path_of w) → rows_of fs' w = rows_of fs w).

Definition unchanged (fs fs' : Store) : Prop :=
  (∀ q, mine q → file_of fs' q = file_of fs q) ∧ (∀ w, mine (path_of w) → rows_of fs' w = rows_of fs w).

Lemma untouched_refl fs : untouched fs fs.
Proof. done. Qed.

Lemma untouched_trans fs1 fs2 fs3 : untouched fs1 fs2 → untouched fs2 fs3 → untouched fs1 fs3.
Proof. intros [Hf1 Hr1] [Hf2 Hr2]. split; intros; [rewrite Hf2, Hf1|rewrite Hr2, Hr1]; done. Qed.

(** An open writer, on a path of its own. *)
Definition own (s : LobColumnWriter) : Prop :=
  lw_config s = c ∧ lw_closed s = false ∧ ∀ w, lw_vortex_writer s = Some w → mine (path_of w).

(** An error that comes from the store or from a builder that is full. *)
Definition write_failed (e : Status) : Prop :=
  (∃ p fs fs', CreateDir p fs = (fs', Err e)) ∨ (∃ n t p fs fs', Writer_Open n t p fs = (fs', Err e)) ∨
  (∃ w l fs fs', Writer_Write w l fs = (fs', Err e)) ∨ (∃ w fs fs', Writer_Flush w fs = (fs', Err e)) ∨
  (∃ w fs fs', Writer_Close w fs = (fs', Err e)) ∨ (∃ b v n, builder_Append b v n = Err e) ∨
  (∃ b x, array_Append b x = Err e) ∨ ∃ b, array_Finish b = Err e.

(** A call of an open writer that only touches what is its own. *)
Definition tidy {A} (m : LW A) (s : LobColumnWriter) : Prop :=
  own s → own (m s).1 ∧ untouched (lw_fs s) (lw_fs (m s).1) ∧ ∀ e, (m s).2 = Err e → write_failed e.

Lemma tidy_bind {A B} (m : LW A) (f : A → LW B) s :
  tidy m s → (∀ a, (m s).2 = Ok a → tidy (f a) (m s).1) → tidy (m ≫= f) s.
Proof.
  intros Hm Hf Ho. destruct (Hm Ho) as (Ho1 & Hu1 & He1). unfold mbind, M_bind.
  destruct (m s) as [s1 [a|e|]]; simpl in *.
  2,3: split; [done|]; split; [done|]; intros e' [= <-]; by apply He1.
  destruct (Hf a eq_refl Ho1) as (Ho2 & Hu2 & He2). split; [done|]. split; [by eapply untouched_trans|done].
Qed.

Lemma tidy_ret {A} (a : A) s : tidy (mret a) s.
Proof. intros Ho. split; [done|]. by split. Qed.

Lemma tidy_get s : tidy get_st s.
Proof. intros Ho. split; [done|]. by split. Qed.

Lemma tidy_modify f s : (own s → own (f s)) → lw_fs (f s) = lw_fs s → tidy (modify f) s.
Proof. intros Hf Hfs Ho. split; [by apply Hf|]. split; [|done]. simpl. by rewrite Hfs. Qed.

Lemma tidy_lift {A} (o : outcome Status A) s : (∀ e, o = Err e → write_failed e) → tidy (lift o) s.
Proof. intros He Ho. split; [done|]. by split. Qed.

Lemma tidy_deref {A} (o : option A) s : tidy (lift (deref o)) s.
Proof. apply tidy_lift. by destruct o. Qed.

Lemma tidy_store {A} (m : M Store Status A) s :
  (∀ fs r, m (lw_fs s) = (fs, r) → own s → untouched (lw_fs s) fs ∧ ∀ e, r = Err e → write_failed e) →
  tidy (on_store m) s.
Proof.
  intros Hm Ho. unfold on_store. destruct (m (lw_fs s)) as [fs r] eqn:Hr. specialize (Hm _ _ eq_refl Ho). done.
Qed.

Lemma tidy_if {A} (b : bool) (m m' : LW A) s : tidy m s → tidy m' s → tidy (if b then m else m') s.
Proof. by destruct b. Qed.

Lemma tidy_check_open s : tidy check_open s.
Proof.
  apply tidy_bind; [apply tidy_get|]. intros a [= <-] Ho. pose proof Ho as (_ & Hcl & _). simpl in Hcl. rewrite Hcl. by apply tidy_ret.
Qed.

(** Calls on a writer that is the current one. *)
Lemma tidy_write w l s : lw_vortex_writer s = Some w → tidy (on_store (Writer_Write w l)) s.
Proof.
  intros Hw. apply tidy_store. intros fs r Hr (_ & _ & Hmine). specialize (Hmine _ Hw). split.
  - split; intros; [eapply write_frame|eapply write_rows]; try done; congruence.
  - intros e ->. right. right. left. by repeat eexists.
Qed.

Lemma tidy_flush w s : lw_vortex_writer s = Some w → tidy (on_store (Writer_Flush w)) s.
Proof.
  intros Hw. apply tidy_store. intros fs r Hr (_ & _ & Hmine). specialize (Hmine _ Hw). split.
  - split; intros; [eapply flush_frame|eapply flush_rows]; try done; congruence.
  - intros e ->. do 3 right. left. by repeat eexists.
Qed.

Lemma tidy_close w s : lw_vortex_writer s = Some w → tidy (on_store (Writer_Close w)) s.
Proof.
  intros Hw. apply tidy_store. intros fs r Hr (_ & _ & Hmine). specialize (Hmine _ Hw). split.
  - split; intros; [eapply close_frame|eapply close_rows]; try done; congruence.
  - intros e ->. do 4 right. left. by repeat eexists.
Qed.

Lemma on_store_members {A} (m : M Store Status A) s : (on_store m s).1 = set_fs (m (lw_fs s)).1 s.
Proof. unfold on_store. by destruct (m (lw_fs s)). Qed.

Lemma on_store_writer {A} (m : M Store Status A) s : lw_vortex_writer (on_store m s).1 = lw_vortex_writer s.
Proof. by rewrite on_store_members. Qed.

Lemma tidy_ensure s : tidy EnsureVortexWriter s.
Proof.
  intros Ho. pose proof Ho as (Hc & _). revert Ho. change (tidy EnsureVortexWriter s). unfold EnsureVortexWriter.
  apply tidy_bind; [apply tidy_get|]. intros ? [= <-]. destruct (lw_vortex_writer s) as [w|] eqn:Hw; [apply tidy_ret|].
  apply tidy_bind.
  { apply tidy_if; [|apply tidy_ret]. apply tidy_store. intros fs r Hr _. split.
    - split; intros; [by eapply create_dir_frame|by eapply create_dir_rows].
    - intros e ->. left. by repeat eexists. }
  intros ? _. set (s1 := (_ : LobColumnWriter * _).1). unfold current_path. rewrite Hc. fold (path_at c (lw_uuid s)).
  apply tidy_bind.
  { apply tidy_store. intros fs r Hr _. split.
    - split; intros ? Hn; [eapply open_frame|eapply open_rows]; try done; intros Heq; apply Hn; by exists (lw_uuid s).
    - intros e ->. right. left. by repeat eexists. }
  intros w Hr. apply tidy_bind; [|intros ? _; apply tidy_modify; [|done]; by intros (? & ? & ?)].
  apply tidy_modify; [|done]. intros (Hc' & Hcl' & _). split_and!; [done|done|]. simpl. intros ? [= <-].
  unfold on_store in Hr. destruct (Writer_Open _ _ _ _) as [fs [w'|e|]] eqn:Hopen; simplify_eq/=.
  apply open_ok in Hopen as [_ Hp]. by eexists.
Qed.

Lemma tidy_flush_pending s : tidy FlushPending s.
Proof.
  unfold FlushPending. apply tidy_bind; [apply tidy_get|]. intros ? [= <-]. destruct (lw_pending s) as [|x l]; [apply tidy_ret|].
  apply tidy_bind; [apply tidy_lift; intros e; by rewrite finish_ok|]. intros array _. cbn [fst lift].
  apply tidy_bind; [by apply tidy_modify|]. intros ? _. cbn [fst modify].
  apply tidy_bind; [apply tidy_deref|]. intros w Hw. cbn [fst lift snd] in *.
  destruct (lw_vortex_writer s) as [w'|] eqn:Hs; [|done]. injection Hw as ->.
  apply tidy_bind; [by apply tidy_write|]. intros ? _. apply tidy_bind; [apply tidy_flush; by rewrite on_store_writer|].
  intros ? _. apply tidy_bind; [by apply tidy_modify|]. intros ? _. by apply tidy_modify.
Qed.

Lemma tidy_close_current s : tidy CloseCurrentFile s.
Proof.
  unfold CloseCurrentFile. apply tidy_bind; [apply tidy_get|]. intros ? [= <-].
  destruct (lw_vortex_writer s) as [w|] eqn:Hw; [|apply tidy_ret].
  apply tidy_bind; [by apply tidy_close|]. intros ? _. apply tidy_modify; [|done]. by intros (? & ? & _).
Qed.

Lemma tidy_roll s : tidy MaybeRollFile s.
Proof.
  unfold MaybeRollFile. apply tidy_bind; [apply tidy_get|]. intros ? [= <-]. apply tidy_if; [apply tidy_ret|].
  apply tidy_bind; [apply tidy_close_current|]. intros ? _. by apply tidy_modify.
Qed.

Lemma tidy_write_data v s : tidy (WriteData v) s.
Proof.
  unfold WriteData. apply tidy_bind; [apply tidy_check_open|]. intros ? _. apply tidy_bind; [apply tidy_get|].
  intros ? _. apply tidy_if.
  { apply tidy_bind; [by apply tidy_modify|]. intros ? _. apply tidy_ret. }
  apply tidy_bind.
  { apply tidy_bind; [apply tidy_ensure|]. intros ? _. apply tidy_bind; [apply tidy_get|]. intros ? _.
    apply tidy_bind; [apply tidy_lift; intros e He; do 5 right; left; by repeat eexists|]. intros ? _.
    apply tidy_bind; [by apply tidy_modify|]. intros ? _. apply tidy_bind; [by apply tidy_modify|]. intros ? _. apply tidy_ret. }
  intros ref _. apply tidy_bind; [by apply tidy_modify|]. intros ? _. apply tidy_bind; [|intros ? _; apply tidy_ret].
  apply tidy_bind; [apply tidy_get|]. intros ? _. apply tidy_if; [|apply tidy_ret].
  apply tidy_bind; [apply tidy_flush_pending|]. intros ? _. apply tidy_roll.
Qed.

Lemma tidy_write_array data b s : tidy (write_array data b) s.
Proof.
  assert (∀ b x s, tidy (lift (array_Append b x)) s) as Happ.
  { intros. apply tidy_lift. intros e He. do 6 right. left. by repeat eexists. }
  revert b s. induction data as [|[v|] data IH]; intros b s; cbn [write_array].
  - apply tidy_ret.
  - apply tidy_bind; [apply tidy_write_data|]. intros ref _. apply tidy_bind; [apply Happ|]. intros b' _. apply IH.
  - apply tidy_bind; [apply Happ|]. intros b' _. apply tidy_bind; [by apply tidy_modify|]. intros ? _. apply IH.
Qed.

Lemma tidy_write_arrow_array data s : tidy (WriteArrowArray data) s.
Proof.
  unfold WriteArrowArray. apply tidy_bind; [apply tidy_check_open|]. intros ? _.
  apply tidy_bind; [apply tidy_write_array|]. intros b _. apply tidy_lift. intros e He. do 7 right. by eexists.
Qed.

Lemma tidy_lob_flush s : tidy Flush s.
Proof.
  unfold Flush. apply tidy_bind; [apply tidy_check_open|]. intros ? _.
  apply tidy_bind; [apply tidy_flush_pending|]. intros ? _. apply tidy_roll.
Qed.

(** Closing touches only what is its own, too; the writer is closed after it. *)
Lemma lob_close_tidy s :
  own s → untouched (lw_fs s) (lw_fs (Close s).1) ∧ ∀ e, (Close s).2 = Err e → write_failed e.
Proof.
  intros Ho. assert (tidy (check_open;; FlushPending;; CloseCurrentFile) s) as Ht.
  { apply tidy_bind; [apply tidy_check_open|]. intros ? _. apply tidy_bind; [apply tidy_flush_pending|].
    intros ? _. apply tidy_close_current. }
  destruct (Ht Ho) as (_ & Hu & He). unfold Close. revert Hu He. unfold mbind, M_bind.
  destruct (check_open s) as [s1 [[]|e|]]; [destruct (FlushPending s1) as [s2 [[]|e|]]; [destruct (CloseCurrentFile s2) as [s3 [[]|e|]]|..]|..];
    simpl; intros Hu He; (split; [done|]); intros e' [= <-]; by apply He.
Qed.

(** What a writer relies on survives changes elsewhere. *)
Lemma good_elsewhere n hist s fs' :
  own s → unchanged (lw_fs s) fs' → good c n hist s → good c n hist (set_fs fs' s).
Proof.
  intros (Hcfg & Hcl & Hmine) [Hf Hr].
  assert (∀ K, same_before c K (lw_fs s) fs') as Hsame by (intros K k _; apply Hf; by eexists).
  intros [[[? ? ? ? ? Hfile] Hp]|[? ? (w & Hw & Hdead)]]; [left|right].
  - split; [|done]. split; try done. simpl. destruct (lw_vortex_writer s) as [w|].
    + destruct Hfile as (Hpath & rows & before & Hrows & Hcnt & Hcr & Hfin & Hst). split; [done|].
      exists rows, before. split_and!; try done.
      * rewrite Hr; [done|]. by eexists.
      * eapply Forall_impl; [exact Hfin|]. intros f. by apply finished_frame.
      * eapply Forall_impl; [exact Hst|]. intros e [He|He]; [left; by eapply stored_frame|by right].
    + destruct Hfile as (? & ? & Hfin & Hst). split_and!; try done.
      * eapply Forall_impl; [exact Hfin|]. intros f. by apply finished_frame.
      * eapply Forall_impl; [exact Hst|]. intros e. by apply stored_frame.
  - split; try done. exists w. split; [done|]. simpl. rewrite Hr; [done|]. by apply Hmine.
Qed.
End shared.

(** Two columns whose files have different paths. *)
Definition separate `{LobFiles} (c c' : LobColumnConfig) : Prop := ∀ k k', path_at c k ≠ path_at c' k'.

Lemma untouched_unchanged `{SL : SharedLobLaws} c c' fs fs' :
  separate c c' → untouched c fs fs' → unchanged c' fs fs'.
Proof.
  intros Hsep [Hf Hr].
  assert (∀ q, mine c' q → ¬ mine c q) as Hno by (intros q [k' ->] [k Hk]; by eapply Hsep).
  split; intros; [apply Hf|apply Hr]; by apply Hno.
Qed.
