(* ===== verification/LobBatchRead.v ===== *)
(** * Reading LOB references by file

    [ReadBatchData] and [ReadArrowArray] group references by file and take the
    rows of each file in one call.  When no two references name the same row the
    result is what [ReadData] gives for each reference; when two do, the rows
    that are passed to [take] are not unique, which its contract asks for. *)

From S2P Require Import Prelude CppString Status Paths LobColumn LobColumnCorrect.

(** ** Grouping *)

Section groups.

(** The references of the groups: position, file, row. *)
Definition group_entries (g : string * list (nat * Z)) : list (nat * string * Z) :=
  (λ e, (e.1, g.1, e.2)) <$> g.2.

Definition all_entries (gs : Groups) : list (nat * string * Z) := mjoin (group_entries <$> gs).

Lemma group_push_entries k x (gs : Groups) :
  all_entries (group_push k x gs) ≡ₚ all_entries gs ++ [(x.1, k, x.2)].
Proof.
  unfold all_entries. induction gs as [|[k' l] gs IH]; [done|]. cbn [group_push].
  destruct (String.compare k k') eqn:Hc; rewrite ?fmap_cons; cbn [mjoin list_join].
  - apply String.compare_eq_iff in Hc as ->. unfold group_entries at 1. cbn [fst snd]. rewrite fmap_app.
    change (group_entries (k', l)) with ((λ e : nat * Z, (e.1, k', e.2)) <$> l). rewrite <- !app_assoc.
    apply Permutation_app_head, Permutation_app_comm.
  - change (group_entries (k, [x])) with [(x.1, k, x.2)]. apply Permutation_app_comm.
  - fold (mjoin (M := list) (A := nat * string * Z)). etrans; [apply Permutation_app_head, IH|]. by rewrite app_assoc.
Qed.

(** Each file has one group. *)
Lemma group_push_keys k x (gs : Groups) k0 : k0 ∈ (group_push k x gs).*1 ↔ k0 = k ∨ k0 ∈ gs.*1.
Proof.
  induction gs as [|[k' l] gs IH]; cbn [group_push].
  - rewrite fmap_cons. rewrite elem_of_cons. done.
  - destruct (String.compare k k') eqn:Hc; rewrite ?fmap_cons, ?elem_of_cons; cbn [fst].
    + apply String.compare_eq_iff in Hc as ->. tauto.
    + tauto.
    + rewrite IH. tauto.
Qed.
End groups.

(** ** Scattering *)

Section scatter.

Definition put_all (kvs : list (nat * value)) (l : list value) : list value :=
  foldl (λ l kv, <[kv.1 := kv.2]> l) l kvs.

Lemma put_all_length kvs l : length (put_all kvs l) = length l.
Proof. unfold put_all. revert l. induction kvs as [|kv kvs IH]; intros l; [done|]. simpl. by rewrite IH, length_insert. Qed.

Lemma put_all_other kvs l j : j ∉ kvs.*1 → put_all kvs l !! j = l !! j.
Proof.
  unfold put_all. revert l. induction kvs as [|[k v] kvs IH]; intros l Hj; [done|].
  rewrite fmap_cons, not_elem_of_cons in Hj. destruct Hj as [Hne Hj]. simpl. rewrite IH by done.
  apply list_lookup_insert_ne. simpl in Hne. congruence.
Qed.

Lemma put_all_at kvs l j v :
  NoDup kvs.*1 → (j, v) ∈ kvs → (j < length l)%nat → put_all kvs l !! j = Some v.
Proof.
  unfold put_all. revert l. induction kvs as [|[k w] kvs IH]; intros l Hnd Hin Hj; [by apply not_elem_of_nil in Hin|].
  rewrite fmap_cons, NoDup_cons in Hnd. destruct Hnd as [Hk Hnd]. simpl in *.
  apply elem_of_cons in Hin as [Heq|Hin].
  - simplify_eq. fold (put_all kvs (<[k := w]> l)). rewrite put_all_other by done. by apply list_lookup_insert_eq.
  - apply IH; [done|done|]. by rewrite length_insert.
Qed.

Lemma scatter_spec (idx : list (nat * Z)) sorted data l :
  length sorted = length data → Forall (λ x, (x.2 < length idx)%nat) sorted →
  ∃ targets, Forall2 (λ x t, fst <$> idx !! x.2 = Some t) sorted targets ∧
    scatter idx sorted data l = Ok (put_all (zip targets data) l).
Proof.
  revert data l. induction sorted as [|[o gi] sorted IH]; intros data l Hl Hall.
  - exists []. split; [constructor|]. by destruct data.
  - destruct data as [|v data]; [done|]. apply Forall_cons in Hall as [Hg Hall]. simpl in Hg.
    destruct (idx !! gi) as [[t off]|] eqn:Hi; [|apply lookup_ge_None in Hi; lia].
    destruct (IH data (<[t := v]> l) ltac:(simpl in Hl; lia) Hall) as (ts & Hts & Hs).
    exists (t :: ts). split; [constructor; [simpl; by rewrite Hi|done]|].
    cbn [scatter]. rewrite Hi. cbn [deref]. rewrite bind_Ok. exact Hs.
Qed.

#[local] Instance pair_le_total : Total pair_le.
Proof. intros [a i] [b j]. unfold pair_le. simpl. lia. Qed.

#[local] Instance pair_le_trans : Transitive pair_le.
Proof. intros [a i] [b j] [d k]. unfold pair_le. simpl. lia. Qed.

(** The rows of a group in the order they are taken. *)
Lemma sorted_offsets_spec (idx : list (nat * Z)) :
  NoDup idx.*2 →
  StronglySorted Z.lt (sorted_offsets idx).*1 ∧
  (∀ o gi, (o, gi) ∈ sorted_offsets idx ↔ ∃ j, idx !! gi = Some (j, o)) ∧
  NoDup (sorted_offsets idx).*2 ∧ length (sorted_offsets idx) = length idx.
Proof.
  intros Hnd. unfold sorted_offsets. set (l := imap (λ j e, (e.2, j)) idx).
  pose proof (merge_sort_Permutation pair_le l) as Hp.
  assert (∀ o gi, (o, gi) ∈ l ↔ ∃ j, idx !! gi = Some (j, o)) as Hin.
  { intros o gi. rewrite list_elem_of_lookup. unfold l. split.
    - intros (i & Hi). rewrite list_lookup_imap in Hi. destruct (idx !! i) as [[j o']|] eqn:He; simplify_eq/=. by exists j.
    - intros (j & Hj). exists gi. by rewrite list_lookup_imap, Hj. }
  assert (l.*1 = idx.*2) as Hl1.
  { unfold l. apply list_eq. intros i. rewrite !list_lookup_fmap, list_lookup_imap. by destruct (idx !! i). }
  assert (l.*2 = seq 0 (length idx)) as Hl2.
  { unfold l. apply list_eq. intros i. rewrite list_lookup_fmap, list_lookup_imap.
    destruct (decide (i < length idx)%nat) as [Hi|Hi].
    - rewrite lookup_seq_lt by done. by destruct (lookup_lt_is_Some_2 idx i Hi) as [x ->].
    - rewrite lookup_seq_ge by lia. by rewrite lookup_ge_None_2 by lia. }
  split_and!.
  - assert (NoDup (merge_sort pair_le l).*1) as Hnd1 by (rewrite Hp, Hl1; done).
    pose proof (StronglySorted_merge_sort pair_le l) as Hs.
    revert Hnd1 Hs. generalize (merge_sort pair_le l). clear. intros l. induction l as [|x l IH]; intros Hnd Hs; [constructor|].
    rewrite fmap_cons in *. apply NoDup_cons in Hnd as [Hx Hnd]. apply StronglySorted_inv in Hs as [Hs Hall].
    constructor; [by apply IH|]. apply Forall_forall. intros o (y & -> & Hy)%list_elem_of_fmap.
    eapply Forall_forall in Hall; [|exact Hy]. destruct Hall as [?|[He _]]; [done|].
    exfalso. apply Hx. rewrite He. by apply list_elem_of_fmap_2.
  - intros o gi. rewrite Hp. apply Hin.
  - rewrite Hp, Hl2. apply NoDup_seq.
  - rewrite Hp. unfold l. apply length_imap.
Qed.
End scatter.

(** ** Reading the groups *)

Section read.
Context `{LL : LobLaws} (c : LobColumnConfig).

(** The result has the row that the reference names. *)
Definition reads_at (fs : Store) (results : list value) (e : nat * string * Z) : Prop :=
  ∃ l v, file_of fs (BuildLOBFilePath (lob_base_path c) e.1.2) = Some l ∧ 0 ≤ e.2 ∧
    l !! Z.to_nat e.2 = Some v ∧ results !! e.1.1 = Some v.

Lemma scatter_group (idx : list (nat * Z)) (cont data results : list value) :
  NoDup idx.*1 → NoDup idx.*2 → Forall (λ e, (e.1 < length results)%nat) idx →
  Forall2 (λ i v, cont !! Z.to_nat i = Some v) (sorted_offsets idx).*1 data →
  ∃ results', scatter idx (sorted_offsets idx) data results = Ok results' ∧ length results' = length results ∧
    (∀ j off, (j, off) ∈ idx → ∃ v, cont !! Z.to_nat off = Some v ∧ results' !! j = Some v) ∧
    (∀ j, j ∉ idx.*1 → results' !! j = results !! j).
Proof.
  intros Hnd1 Hnd2 Hj Hf2. destruct (sorted_offsets_spec idx Hnd2) as (Hs & Hin & Hndg & Hlen).
  set (sorted := sorted_offsets idx) in *. pose proof (Forall2_length _ _ _ Hf2) as Hl. rewrite length_fmap in Hl.
  destruct (scatter_spec idx sorted data results Hl) as (ts & Hts & ->).
  { apply Forall_forall. intros [o gi] (j & Hg)%Hin. by apply lookup_lt_Some in Hg. }
  pose proof (Forall2_length _ _ _ Hts) as Hlt.
  assert (NoDup ts) as Hndt.
  { apply NoDup_alt. intros a b t Ha Hb.
    destruct (Forall2_lookup_r _ _ _ _ _ Hts Ha) as ([oa ga] & Hsa & Hta).
    destruct (Forall2_lookup_r _ _ _ _ _ Hts Hb) as ([ob gb] & Hsb & Htb). simpl in *.
    assert (ga = gb) as <-.
    { eapply NoDup_lookup; [exact Hnd1|rewrite list_lookup_fmap; exact Hta|rewrite list_lookup_fmap; exact Htb]. }
    eapply NoDup_lookup; [exact Hndg|rewrite list_lookup_fmap, Hsa; done|rewrite list_lookup_fmap, Hsb; done]. }
  assert ((zip ts data).*1 = ts) as Hzip by (apply fst_zip; lia).
  assert (∀ t, t ∈ ts → t ∈ idx.*1) as Hsub.
  { intros t (a & Ha)%list_elem_of_lookup. destruct (Forall2_lookup_r _ _ _ _ _ Hts Ha) as ([o g] & _ & Ht).
    apply list_elem_of_lookup. exists g. by rewrite list_lookup_fmap. }
  eexists. split; [done|]. split; [apply put_all_length|]. split.
  - intros j off Hjo. pose proof Hjo as Hjo'. apply list_elem_of_lookup in Hjo as [gi Hgi].
    assert ((off, gi) ∈ sorted) as Hso by (apply Hin; by exists j). apply list_elem_of_lookup in Hso as [p Hp].
    destruct (Forall2_lookup_l _ _ _ _ _ Hts Hp) as (t & Htp & Ht). simpl in Ht. rewrite Hgi in Ht. simplify_eq/=.
    assert (sorted.*1 !! p = Some off) as Hp1 by (rewrite list_lookup_fmap, Hp; done).
    destruct (Forall2_lookup_l _ _ _ _ _ Hf2 Hp1) as (v & Hv & Hc). exists v. split; [done|].
    apply put_all_at; [by rewrite Hzip| |by eapply Forall_forall in Hj; [|exact Hjo']].
    apply list_elem_of_lookup. exists p. by rewrite lookup_zip_with, Htp, Hv.
  - intros j Hnj. apply put_all_other. rewrite Hzip. naive_solver.
Qed.

Lemma read_group_spec fs s g results :
  reader_ok c fs s → NoDup g.2.*1 → NoDup g.2.*2 → Forall (λ e, (e.1 < length results)%nat) g.2 →
  wp (read_group g results) s
    (λ results' s', reader_ok c fs s' ∧ length results' = length results ∧
       Forall (reads_at fs results') (group_entries g) ∧
       (∀ j, j ∉ g.2.*1 → results' !! j = results !! j))
    (λ e _, read_failed e).
Proof.
  intros Hs Hnd1 Hnd2 Hj. unfold read_group. apply wp_bind.
  eapply wp_mono; [by apply get_or_open_spec| |by intros e s1 [_ ?]].
  intros r s1 [Hs1 Hfile]. apply wp_bind, wp_lift_case.
  destruct (Reader_take r (sorted_offsets g.2).*1) as [table|e|] eqn:Ht.
  - destruct (sorted_offsets_spec g.2 Hnd2) as (Hsort & Hin & _ & _).
    pose proof (take_ok _ _ _ Ht Hsort) as Hf2. pose proof (take_in_range _ _ _ Ht) as Hr.
    destruct (scatter_group g.2 (content r) (mjoin table) results Hnd1 Hnd2 Hj Hf2) as (res & -> & Hl & Hat & Hoth).
    apply wp_lift_case. split_and!; try done. apply Forall_forall.
    intros e ([j off] & -> & He)%list_elem_of_fmap. destruct (Hat j off He) as (v & Hv & Hres).
    exists (content r), v. split_and!; try done. simpl. apply list_elem_of_lookup in He as [gi Hgi].
    assert ((off, gi) ∈ sorted_offsets g.2) as Ho by (apply Hin; by exists j).
    eapply Forall_forall in Hr; [exact Hr|]. change off with ((off, gi).1). by apply list_elem_of_fmap_2.
  - right. left. by repeat eexists.
  - by apply take_defined in Ht.
Qed.

Definition positions (es : list (nat * string * Z)) : list nat := (λ e, e.1.1) <$> es.
Definition rows_named (es : list (nat * string * Z)) : list (string * Z) := (λ e, (e.1.2, e.2)) <$> es.

Lemma positions_app es es' : positions (es ++ es') = positions es ++ positions es'.
Proof. apply fmap_app. Qed.

Lemma rows_named_app es es' : rows_named (es ++ es') = rows_named es ++ rows_named es'.
Proof. apply fmap_app. Qed.

Lemma group_positions g : positions (group_entries g) = g.2.*1.
Proof. unfold positions, group_entries. rewrite <- list_fmap_compose. done. Qed.

Lemma group_rows_NoDup g : NoDup (rows_named (group_entries g)) → NoDup g.2.*2.
Proof.
  unfold rows_named, group_entries. rewrite <- list_fmap_compose. intros Hnd.
  assert ((λ e : nat * Z, (g.1, e.2)) <$> g.2 = (pair g.1) <$> g.2.*2) as He by (rewrite <- list_fmap_compose; done).
  change (((λ e : nat * string * Z, (e.1.2, e.2)) ∘ (λ e : nat * Z, (e.1, g.1, e.2))) <$> g.2)
    with ((λ e : nat * Z, (g.1, e.2)) <$> g.2) in Hnd.
  rewrite He in Hnd. by apply NoDup_fmap_1 in Hnd.
Qed.

Lemma read_groups_spec fs s gs results :
  reader_ok c fs s → NoDup (positions (all_entries gs)) → NoDup (rows_named (all_entries gs)) →
  Forall (λ e, (e.1.1 < length results)%nat) (all_entries gs) →
  wp (read_groups gs results) s
    (λ results' s', reader_ok c fs s' ∧ length results' = length results ∧
       Forall (reads_at fs results') (all_entries gs) ∧
       (∀ j, j ∉ positions (all_entries gs) → results' !! j = results !! j))
    (λ e _, read_failed e).
Proof.
  revert s results. induction gs as [|g gs IH]; intros s results Hs Hnd1 Hnd2 Hj.
  { apply wp_ret. split_and!; try done. }
  change (all_entries (g :: gs)) with (group_entries g ++ all_entries gs) in *.
  rewrite positions_app in Hnd1. rewrite rows_named_app in Hnd2.
  apply NoDup_app in Hnd1 as (Hg1 & Hdis & Hgs1). apply NoDup_app in Hnd2 as (Hg2 & _ & Hgs2).
  apply Forall_app in Hj as [Hjg Hjs]. rewrite group_positions in *. cbn [read_groups]. apply wp_bind.
  eapply wp_mono; [apply read_group_spec; [done|done|by apply group_rows_NoDup|]| |done].
  { apply Forall_forall. intros e He. apply (proj1 (Forall_forall _ _) Hjg (e.1, g.1, e.2)).
    by apply (list_elem_of_fmap_2 (λ e, (e.1, g.1, e.2))). }
  intros res1 s1 (Hs1 & Hl1 & Hat1 & Hoth1). cbn beta.
  eapply wp_mono; [apply (IH s1 res1); [done|done|done|by rewrite Hl1]| |done].
  intros res2 s2 (Hs2 & Hl2 & Hat2 & Hoth2). split_and!; [done|lia| |].
  - apply Forall_app. split; [|done]. apply Forall_forall. intros e He. pose proof He as He'.
    eapply Forall_forall in Hat1; [|exact He]. destruct Hat1 as (l & v & Hl & H0 & Hv & Hr). exists l, v.
    split_and!; try done. rewrite Hoth2; [done|]. apply Hdis. rewrite <- group_positions.
    by apply (list_elem_of_fmap_2 (λ e : nat * string * Z, e.1.1)).
  - intros j. rewrite positions_app, not_elem_of_app, group_positions. intros [Hjg' Hjs']. by rewrite Hoth2, Hoth1.
Qed.

(** ** The references of a request *)

(** Neither null nor empty nor inline. *)
Definition is_lob (r : option value) : bool :=
  match r with Some (b :: _) => negb (b =? FLAG_INLINE_DATA) | _ => false end.

Definition is_inline (r : option value) : bool :=
  match r with Some (b :: _) => b =? FLAG_INLINE_DATA | _ => false end.

(** Position, file and row of each LOB reference. *)
Fixpoint lob_entries (i : nat) (refs : list (option value)) : list (nat * string * Z) :=
  match refs with
  | [] => []
  | r :: refs' =>
      (if is_lob r then
         let d := DecodeLOBReference (default [] r) in [(i, ref_file_id d, ref_row_offset d)]
       else []) ++ lob_entries (S i) refs'
  end.

Lemma lob_entries_positions i refs j :
  j ∈ positions (lob_entries i refs) ↔ ∃ k r, refs !! k = Some r ∧ is_lob r = true ∧ j = (i + k)%nat.
Proof.
  revert i. induction refs as [|r refs IH]; intros i; cbn [lob_entries].
  - split; [by intros ?%not_elem_of_nil|intros (k & r & Hk & _); by rewrite lookup_nil in Hk].
  - rewrite positions_app, elem_of_app, IH. split.
    + intros [Hj|(k & r' & Hk & Hr & ->)]; [|exists (S k), r'; split_and!; [done|done|lia]].
      destruct (is_lob r) eqn:Hr; [|by apply not_elem_of_nil in Hj]. apply list_elem_of_singleton in Hj as ->.
      exists 0%nat, r. split_and!; [done|done|simpl; lia].
    + intros ([|k] & r' & Hk & Hr & ->); simplify_eq/=.
      * left. rewrite Hr. apply list_elem_of_singleton. simpl. lia.
      * right. exists k, r'. split_and!; [done|done|lia].
Qed.

Lemma lob_entries_NoDup i refs : NoDup (positions (lob_entries i refs)).
Proof.
  revert i. induction refs as [|r refs IH]; intros i; [constructor|]. cbn [lob_entries]. rewrite positions_app.
  apply NoDup_app. split_and!; [|intros j Hj|apply IH].
  - destruct (is_lob r); [apply NoDup_singleton|constructor].
  - rewrite lob_entries_positions. intros (k & r' & _ & _ & ->). destruct (is_lob r); [|by apply not_elem_of_nil in Hj].
    apply list_elem_of_singleton in Hj. simpl in Hj. lia.
Qed.

Lemma lob_entry_at i refs k r :
  refs !! k = Some r → is_lob r = true →
  ((i + k)%nat, ref_file_id (DecodeLOBReference (default [] r)), ref_row_offset (DecodeLOBReference (default [] r)))
    ∈ lob_entries i refs.
Proof.
  revert i k. induction refs as [|r' refs IH]; intros i k Hk Hr; [by rewrite lookup_nil in Hk|].
  cbn [lob_entries]. apply elem_of_app. destruct k as [|k]; simplify_eq/=.
  - left. rewrite Hr, Nat.add_0_r. by left.
  - right. replace (i + S k)%nat with (S i + k)%nat by lia. by apply IH.
Qed.

Definition bad_request (refs : list (option value)) : Prop :=
  ∃ ref, Some ref ∈ refs ∧ is_lob (Some ref) = true ∧ length ref ≠ LOB_REFERENCE_SIZE.

Definition payload (r : option value) : value := default [] (DecodeInlineData (default [] r)).

Record placed (i : nat) (refs : list (option value)) (res res' : list value) (gs gs' : Groups) : Prop := {
  pl_length : length res' = length res;
  pl_entries : all_entries gs' ≡ₚ all_entries gs ++ lob_entries i refs;
  pl_inline : ∀ k r, refs !! k = Some r → is_inline r = true → res' !! (i + k)%nat = Some (payload r);
  pl_other : ∀ j, (∀ k r, refs !! k = Some r → is_inline r = true → j ≠ (i + k)%nat) → res' !! j = res !! j;
  pl_sizes : ∀ k r, refs !! k = Some r → is_lob r = true → length (default [] r) = LOB_REFERENCE_SIZE;
}.

Lemma place_ref_spec i b ref0 res gs :
  let ref := b :: ref0 in
  place_ref i ref (res, gs) =
    if b =? FLAG_INLINE_DATA then Ok (<[i := payload (Some ref)]> res, gs)
    else if negb (length ref =? LOB_REFERENCE_SIZE)%nat then Err status_Invalid
    else Ok (res, group_push (ref_file_id (DecodeLOBReference ref)) (i, ref_row_offset (DecodeLOBReference ref)) gs).
Proof.
  intros ref. unfold place_ref. change (IsInlineData ref) with (Ok (E := Status) (b =? FLAG_INLINE_DATA)). rewrite bind_Ok.
  destruct (b =? FLAG_INLINE_DATA); [done|]. destruct (negb _); [done|]. by destruct (DecodeLOBReference ref).
Qed.

Lemma place_refs_spec i refs res gs :
  (i + length refs ≤ length res)%nat →
  match place_refs i refs (res, gs) with
  | Ok acc => placed i refs res acc.1 gs acc.2
  | Err e => e = status_Invalid ∧ bad_request refs
  | Ub => False
  end.
Proof.
  revert i res gs. induction refs as [|r refs IH]; intros i res gs Hl.
  { simpl. split; try done. by rewrite app_nil_r. }
  assert (∀ res1 gs1, length res1 = length res → (∀ j, j ≠ i → res1 !! j = res !! j) →
    (is_inline r = true → res1 !! i = Some (payload r)) → (is_inline r = false → res1 !! i = res !! i) →
    all_entries gs1 ≡ₚ all_entries gs ++
      (if is_lob r then [(i, ref_file_id (DecodeLOBReference (default [] r)), ref_row_offset (DecodeLOBReference (default [] r)))]
       else []) → (is_lob r = true → length (default [] r) = LOB_REFERENCE_SIZE) →
    match place_refs (S i) refs (res1, gs1) with
    | Ok acc => placed i (r :: refs) res acc.1 gs acc.2
    | Err e => e = status_Invalid ∧ bad_request (r :: refs)
    | Ub => False
    end) as Hrest.
  { intros res1 gs1 Hl1 Hoth Hin Hnin Hgs Hsz. specialize (IH (S i) res1 gs1 ltac:(simpl in Hl; lia)).
    destruct (place_refs (S i) refs (res1, gs1)) as [[res2 gs2]|e|]; [|destruct IH as [-> (ref & ? & ?)]; split; [done|]|done].
    - destruct IH as [Hl2 He2 Hin2 Hoth2 Hsz2]. simpl in *. split; simpl; [lia| | | |].
      + rewrite He2, Hgs. cbn [lob_entries]. by rewrite <- app_assoc.
      + intros [|k] r' Hk Hr'; simplify_eq/=.
        * rewrite Nat.add_0_r, Hoth2; [by apply Hin|]. intros k r0 _ _. lia.
        * rewrite <- (Hin2 k r' Hk Hr'). f_equal. lia.
      + intros j Hj. rewrite Hoth2.
        * destruct (decide (j = i)) as [->|]; [|by apply Hoth]. destruct (is_inline r) eqn:Hi; [|by apply Hnin].
          specialize (Hj 0%nat r eq_refl Hi). lia.
        * intros k r' Hk Hr'. specialize (Hj (S k) r' Hk Hr'). lia.
      + intros [|k] r' Hk Hr'; simplify_eq/=; [auto|by eapply Hsz2].
    - exists ref. split; [by right|done]. }
  destruct r as [[|b ref0]|].
  - cbn [place_refs]. apply Hrest; try done. by rewrite app_nil_r.
  - cbn [place_refs]. rewrite place_ref_spec. simpl in Hrest. destruct (Z.eqb_spec b FLAG_INLINE_DATA) as [->|Hb].
    + rewrite bind_Ok. apply Hrest; try done.
      * apply length_insert.
      * intros j Hj. by apply list_lookup_insert_ne.
      * intros _. apply list_lookup_insert_eq. simpl in Hl. lia.
      * simpl. by rewrite app_nil_r.
    + destruct (Nat.eqb_spec (length (b :: ref0)) LOB_REFERENCE_SIZE) as [Hsz|Hsz]; cbn [negb].
      * rewrite bind_Ok. apply Hrest; try done. apply group_push_entries.
      * rewrite bind_Err. split; [done|]. exists (b :: ref0). split_and!; [by left| |done].
        simpl. by apply negb_true_iff, Z.eqb_neq.
  - cbn [place_refs]. apply Hrest; try done. by rewrite app_nil_r.
Qed.

(** The value that a reference of a request gets. *)
Definition answer (fs : Store) (r : option value) (v : value) : Prop :=
  match r with
  | None | Some [] => v = []
  | Some ref => resolves c fs ref v ∧ ¬ bad_ref ref
  end.

Lemma read_refs_spec fs s refs :
  reader_ok c fs s → NoDup (rows_named (lob_entries 0 refs)) →
  wp (acc ← lift (place_refs 0 refs (replicate (length refs) [], [])); read_groups acc.2 acc.1) s
    (λ results s', reader_ok c fs s' ∧ length results = length refs ∧
       ∀ i r, refs !! i = Some r → ∃ v, results !! i = Some v ∧ answer fs r v)
    (λ e _, read_failed e ∨ e = status_Invalid ∧ bad_request refs).
Proof.
  intros Hs Hnd. apply wp_bind, wp_lift_case.
  pose proof (place_refs_spec 0 refs (replicate (length refs) []) [] ltac:(by rewrite length_replicate)) as Hp.
  destruct (place_refs 0 refs _) as [[res gs]|e|]; [|by right|done].
  destruct Hp as [Hl He Hin Hoth Hsz]. simpl in *. rewrite length_replicate in Hl.
  eapply wp_mono; [apply (read_groups_spec fs s gs res); [done| | |]| |by left].
  - unfold positions. rewrite He. apply lob_entries_NoDup.
  - unfold rows_named. by rewrite He.
  - rewrite He. apply Forall_forall. intros e Hen.
    assert (e.1.1 ∈ positions (lob_entries 0 refs)) as Hpos by (by apply (list_elem_of_fmap_2 (λ e : nat * string * Z, e.1.1))).
    apply lob_entries_positions in Hpos as (k & r & Hk & _ & Hek). apply lookup_lt_Some in Hk. lia.
  - intros results s' (Hs' & Hlen & Hat & Hrest). split; [done|]. split; [lia|]. intros i r Hi.
    assert (is_lob r = false → results !! i = res !! i) as Hsame.
    { intros Hr. apply Hrest. unfold positions. rewrite He. fold (positions (lob_entries 0 refs)).
      rewrite lob_entries_positions. intros (k & r' & Hk & Hr' & Hik). simpl in Hik. subst. congruence. }
    destruct (is_lob r) eqn:Hlob.
    + pose proof (lob_entry_at 0 refs i r Hi Hlob) as Hentry. rewrite <- He in Hentry.
      eapply Forall_forall in Hat; [|exact Hentry]. destruct Hat as (l & v & Hfile & H0 & Hv & Hr). simpl in *.
      exists v. split; [done|]. destruct r as [[|b ref0]|]; [done| |done]. simpl in Hlob.
      apply negb_true_iff, Z.eqb_neq in Hlob. specialize (Hsz i (Some (b :: ref0)) Hi). cbn [default is_lob] in Hsz.
      assert (length (b :: ref0) = LOB_REFERENCE_SIZE) as Hlen24 by (apply Hsz; by apply negb_true_iff, Z.eqb_neq).
      unfold answer. split; [|by intros [_ ?]]. unfold resolves. rewrite bool_decide_false by (simpl; congruence).
      split; [done|]. by exists l.
    + specialize (Hsame eq_refl). rewrite Hsame. destruct (is_inline r) eqn:Hinl.
      * exists (payload r). split; [by apply (Hin i r)|]. destruct r as [[|b ref0]|]; [done| |done].
        simpl in Hinl. apply Z.eqb_eq in Hinl as ->. unfold answer, resolves. rewrite bool_decide_true by done.
        split; [done|]. by intros [? _].
      * exists []. split; [|destruct r as [[|b ref0]|]; simpl in *; [done|by rewrite Hinl in Hlob|done]].
        rewrite Hoth; [apply lookup_replicate_2; by apply lookup_lt_Some in Hi|].
        intros k r' Hk Hr' ->. simpl in Hi. congruence.
Qed.

(** Two reads of the same reference agree. *)
Lemma answer_read fs ref v :
  ref ≠ [] → answer fs (Some ref) v →
  wp (ReadData (Some ref)) (CreateLobColumnReader fs c) (λ v' _, v' = v) (λ e _, read_failed e).
Proof.
  intros Hne Ha. destruct ref as [|b ref0]; [done|]. destruct Ha as [Hres Hok].
  eapply wp_mono; [apply read_data_spec; [apply new_reader_ok|done]| |].
  - intros v' s1 [_ Hv']. by eapply resolves_fun.
  - intros e s1 [_ [He|[Hb _]]]; [done|]. by apply Hok in Hb.
Qed.

(** Reading references in a batch is reading them one by one.  If no two
    references of the request name the same row, [ReadBatchData] returns one
    value per reference: nothing for a null or empty reference, and for every
    other one exactly the value that [ReadData] returns for it.  It fails only
    when a file does, or for a reference of the wrong size. *)
Theorem batch_read_equivalent fs refs :
  NoDup (rows_named (lob_entries 0 refs)) →
  wp (ReadBatchData refs) (CreateLobColumnReader fs c)
    (λ results _, length results = length refs ∧ ∀ i r, refs !! i = Some r →
       ∃ v, results !! i = Some v ∧
         match r with
         | None | Some [] => v = []
         | Some ref => wp (ReadData (Some ref)) (CreateLobColumnReader fs c) (λ v' _, v' = v) (λ e _, read_failed e)
         end)
    (λ e _, read_failed e ∨ e = status_Invalid ∧ bad_request refs).
Proof.
  intros Hnd. unfold ReadBatchData. apply wp_bind. unfold reader_open_check. apply wp_bind, wp_get, wp_ret.
  eapply wp_mono; [apply (read_refs_spec fs); [apply new_reader_ok|done]| |done].
  intros results s' (_ & Hl & Hall). split; [done|]. intros i r Hi. destruct (Hall i r Hi) as (v & Hv & Ha).
  exists v. split; [done|]. destruct r as [[|b ref0]|]; [done| |done]. by apply answer_read.
Qed.

Lemma place_array_eq i refs acc : Forall (λ r, r ≠ Some []) refs → place_array i refs acc = place_refs i refs acc.
Proof.
  intros Hr. revert i acc. induction Hr as [|r refs Hr Hrs IH]; intros i acc; [done|].
  destruct r as [[|b ref0]|]; [done| |apply IH]. cbn [place_array place_refs].
  destruct (place_ref i (b :: ref0) acc) as [acc'|e|]; [rewrite !bind_Ok; apply IH|done|done].
Qed.

(** The array with the nulls of the request. *)
Definition with_nulls (refs : list (option value)) (views : list value) : list (option value) :=
  zip_with (λ r v, match r with Some _ => Some v | None => None end) refs views.

Lemma build_array_spec refs views b :
  match build_array refs views b with
  | Ok b' => b' = b ++ with_nulls refs views
  | Err e => ∃ b x, array_Append b x = Err e
  | Ub => False
  end.
Proof.
  revert views b. induction refs as [|r refs IH]; intros [|v views] b; cbn [build_array];
    [by rewrite app_nil_r|by rewrite app_nil_r|destruct r; by rewrite app_nil_r|].
  assert (∀ x, x = (match r with Some _ => Some v | None => None end) →
    match (builder ← array_Append b x; build_array refs views builder) with
    | Ok b' => b' = b ++ with_nulls (r :: refs) (v :: views)
    | Err e => ∃ b x, array_Append b x = Err e
    | Ub => False
    end) as Hstep.
  { intros x ->. destruct (array_Append b _) as [b1|e|] eqn:Ha; [|rewrite bind_Err; by eauto|by apply array_append_defined in Ha].
    rewrite bind_Ok. apply array_append_ok in Ha as ->. specialize (IH views (b ++ [match r with Some _ => Some v | None => None end])).
    destruct (build_array refs views _); [|done|done]. rewrite IH, <- app_assoc. done. }
  destruct r; by apply Hstep.
Qed.

(** Reading an array with a reader that is in order, of references that name
    different rows. *)
Lemma read_array_spec fs s refs :
  reader_ok c fs s → Forall (λ r, r ≠ Some []) refs → NoDup (rows_named (lob_entries 0 refs)) →
  wp (ReadArrowArray refs) s
    (λ results s', reader_ok c fs s' ∧ length results = length refs ∧ ∀ i r, refs !! i = Some r →
       match r with
       | None => results !! i = Some None
       | Some ref => ∃ v, results !! i = Some (Some v) ∧ answer fs (Some ref) v
       end)
    (λ e _, read_failed e ∨ e = status_Invalid ∧ bad_request refs ∨
       (∃ b x, array_Append b x = Err e) ∨ ∃ b, array_Finish b = Err e).
Proof.
  intros Hs Hne Hnd. unfold ReadArrowArray. apply wp_bind. unfold reader_open_check. apply wp_bind, wp_get.
  assert (lr_closed s = false) as -> by apply Hs. apply wp_ret.
  rewrite place_array_eq by done. apply wp_bind.
  pose proof (read_refs_spec fs _ refs Hs Hnd) as Hread. unfold wp in Hread at 1.
  apply wp_lift_case. unfold lift, mbind, M_bind in Hread.
  destruct (place_refs 0 refs _) as [acc|e|]; [|tauto|done]. apply wp_bind. unfold wp at 1.
  destruct (read_groups acc.2 acc.1 _) as [s1 [views|e|]]; [|tauto|done]. destruct Hread as (Hs1 & Hl & Hall).
  apply wp_bind, wp_lift_case. pose proof (build_array_spec refs views []) as Hb.
  destruct (build_array refs views []) as [b|e|]; [|by eauto|done]. apply wp_lift_case. rewrite app_nil_l in Hb. subst b.
  destruct (array_Finish _) as [b|e|] eqn:Hfin; [|by eauto|by apply array_finish_defined in Hfin].
  apply array_finish_ok in Hfin as ->. unfold with_nulls. split; [done|]. split; [rewrite length_zip_with, Hl; apply Nat.min_id|].
  intros i r Hi. destruct (Hall i r Hi) as (v & Hv & Ha).
  destruct r as [ref|]; [|apply lookup_zip_with_Some; by exists None, v].
  exists v. split; [apply lookup_zip_with_Some; by exists (Some ref), v|done].
Qed.

(** An array of references is resolved element by element.  For references
    of which none is empty and no two name the same row, [ReadArrowArray] keeps
    the nulls and puts at every other position what [ReadData] returns for the
    reference there; together with the writer's theorem this makes writing an
    array and reading it back the identity. *)
Theorem array_read_elementwise fs refs :
  Forall (λ r, r ≠ Some []) refs → NoDup (rows_named (lob_entries 0 refs)) →
  wp (ReadArrowArray refs) (CreateLobColumnReader fs c)
    (λ results _, length results = length refs ∧ ∀ i r, refs !! i = Some r →
       match r with
       | None => results !! i = Some None
       | Some ref => ∃ v, results !! i = Some (Some v) ∧
           wp (ReadData (Some ref)) (CreateLobColumnReader fs c) (λ v' _, v' = v) (λ e _, read_failed e)
       end)
    (λ e _, read_failed e ∨ e = status_Invalid ∧ bad_request refs ∨
       (∃ b x, array_Append b x = Err e) ∨ ∃ b, array_Finish b = Err e).
Proof.
  intros Hne Hnd. eapply wp_mono; [by apply read_array_spec; [apply new_reader_ok|..]| |done].
  intros results s' (_ & Hl & Hall). split; [done|]. intros i r Hi. specialize (Hall i r Hi).
  destruct r as [ref|]; [|done]. destruct Hall as (v & Hv & Ha). exists v. split; [done|]. apply answer_read; [|done].
  intros ->. eapply Forall_forall in Hne; [|by eapply list_elem_of_lookup_2]. done.
Qed.
End read.
