(* ===== verification/LobSample.v ===== *)
(** * LOB columns over files in memory

    A concrete environment that satisfies [LobLaws]: the theorems of
    [LobColumnCorrect] and [LobBatchRead] at concrete inputs, and what a batch
    with the same reference twice reads. *)

From S2P Require Import Prelude CppString Status Paths LobColumn LobColumnCorrect LobShared LobBatchRead.

Module SampleLob.

(** Finished files, the rows of open writers, and the number of writers opened. *)
Record Mem := mkMem {
  m_files : gmap string (list value);
  m_open : gmap (nat * string) (list value);
  m_next : nat;
}.

(** Rows by index; as the contract of [take] wants them unique, a row that is
    named twice is returned once. *)
Definition take_rows (content : list value) (idx : list Z) : outcome Status (list (list value)) :=
  if decide (Forall (λ i, 0 ≤ i < Z.of_nat (length content)) idx)
  then Ok [omap (λ i, content !! Z.to_nat i) (remove_dups idx)]
  else Err status_Invalid.

#[export] Instance mem_lob : LobFiles := {
  Store := Mem;
  VortexFileWriter := nat * string;
  VortexFormatReader := list value;
  IsLocalFileSystem _ := true;
  CreateDir _ m := (m, Ok tt);
  DeleteFile p m := (mkMem (delete p (m_files m)) (m_open m) (m_next m), Ok tt);
  Writer_Open _ _ p m := (mkMem (m_files m) (<[(m_next m, p) := []]> (m_open m)) (S (m_next m)), Ok (m_next m, p));
  Writer_Write w rows m :=
    match m_open m !! w with
    | Some l => (mkMem (m_files m) (<[w := l ++ rows]> (m_open m)) (m_next m), Ok tt)
    | None => (m, Err status_Invalid)
    end;
  Writer_Flush w m := (m, match m_open m !! w with Some _ => Ok tt | None => Err status_Invalid end);
  Writer_Close w m :=
    match m_open m !! w with
    | Some l => (mkMem (<[w.2 := l]> (m_files m)) (delete w (m_open m)) (m_next m), Ok tt)
    | None => (m, Err status_Invalid)
    end;
  Writer_reset w m := mkMem (m_files m) (delete w (m_open m)) (m_next m);
  Reader_open _ _ p m := (m, match m_files m !! p with Some l => Ok l | None => Err status_IOError end);
  Reader_take := take_rows;
  builder_Append b v n :=
    if n <? 0 then Ub
    else if total_size b + n <=? BINARY_LIMIT then Ok (b ++ [take (Z.to_nat n) v]) else Err status_Invalid;
  builder_Finish b := Ok b;
  array_Append b x := Ok (b ++ [x]);
  array_Finish b := Ok b;
  GenerateUUIDBinary n := Z.of_nat n :: replicate 15 0;
  UUIDToString u := "u" +:+ pretty (Z.to_N (default 0 (head u)));
}.

Lemma take_rows_unique (rows : list value) idx :
  NoDup idx → Forall (λ i, 0 ≤ i < Z.of_nat (length rows)) idx →
  Forall2 (λ i v, rows !! Z.to_nat i = Some v) idx (omap (λ i, rows !! Z.to_nat i) (remove_dups idx)).
Proof.
  intros Hnd Hall. assert (remove_dups idx = idx) as ->.
  { clear Hall. induction Hnd as [|i idx Hi Hnd IH]; [done|]. simpl. case_decide; [done|]. by rewrite IH. }
  clear Hnd. induction Hall as [|i idx Hi Hall IH]; [constructor|]. simpl.
  destruct (lookup_lt_is_Some_2 rows (Z.to_nat i) ltac:(lia)) as [v Hv]. rewrite Hv. by constructor.
Qed.

Lemma sorted_NoDup idx : StronglySorted Z.lt idx → NoDup idx.
Proof.
  induction 1 as [|i idx Hs IH Hall]; constructor; [|done]. intros Hi.
  eapply Forall_forall in Hall; [|exact Hi]. lia.
Qed.

#[export, refine] Instance mem_laws : LobLaws (LF := mem_lob) := {
  file_of m p := m_files m !! p;
  rows_of m w := m_open m !! w;
  path_of w := w.2;
  content r := r;
}.
Proof.
  - by intros ????? [= <- <-].
  - intros ????? [= <- <-] ?. simpl. by rewrite lookup_delete_ne.
  - by intros ??????? [= <- <-].
  - intros w l fs fs' r q Hw Hq. simpl in *. destruct (m_open fs !! w); by simplify_eq.
  - by intros ????? [= <- <-].
  - intros w fs fs' r q Hw Hq. simpl in *. destruct (m_open fs !! w); simplify_eq; [|done].
    simpl. by rewrite lookup_insert_ne.
  - done.
  - by intros ??????? [= <- <-].
  - intros ??? [= <-]. simpl. apply lookup_delete_eq.
  - intros ?????? [= <- <-]. simpl. split; [apply lookup_insert_eq|done].
  - intros w l fs fs' Hw. simpl in *. destruct (m_open fs !! w) as [rows|]; simplify_eq. exists rows.
    split; [done|]. simpl. apply lookup_insert_eq.
  - intros w fs fs' Hw. simpl in *. destruct (m_open fs !! w) as [rows|] eqn:Ho; simplify_eq. by exists rows.
  - intros w fs fs' Hw. simpl in *. destruct (m_open fs !! w) as [rows|]; simplify_eq. exists rows.
    split; [done|]. simpl. apply lookup_insert_eq.
  - intros ?????? Ho. simpl in *. by destruct (_ !! _); simplify_eq.
  - intros r idx chunks Ht Hs. simpl in *. unfold take_rows in Ht. case_decide; simplify_eq. simpl. rewrite app_nil_r.
    by apply take_rows_unique; [apply sorted_NoDup|].
  - intros r idx chunks Ht. simpl in *. unfold take_rows in Ht. case_decide as Hd; simplify_eq.
    eapply Forall_impl; [exact Hd|]. simpl. lia.
  - intros w l fs fs' e Hw. simpl in *. by destruct (m_open fs !! w) eqn:?; simplify_eq.
  - intros w fs fs' e Hw. simpl in *. by destruct (m_open fs !! w) eqn:?; simplify_eq.
  - intros w fs fs' e Hw. simpl in *. by destruct (m_open fs !! w) eqn:?; simplify_eq.
  - done.
  - done.
  - done.
  - intros w l fs fs'. simpl. by case_match.
  - intros w fs fs'. simpl. by case_match.
  - intros w fs fs'. simpl. by case_match.
  - intros ?????. simpl. by destruct (_ !! _).
  - intros r idx. simpl. unfold take_rows. by case_decide.
  - intros b v Hv. simpl. destruct (Z.ltb_spec (size v) 0); [unfold size in *; lia|].
    destruct (Z.leb_spec (total_size b + size v) BINARY_LIMIT); [|lia].
    unfold size. by rewrite Nat2Z.id, firstn_all.
  - intros b v n Hn. simpl. destruct (Z.ltb_spec n 0); [lia|]. by case_match.
  - done.
  - by intros ??? [= <-].
  - done.
  - by intros ?? [= <-].
  - done.
  - done.
  - intros m n. simpl. intros Hp. apply app_str_inj_l in Hp. apply pretty_N_inj in Hp. lia.
  - done.
Defined.

#[export] Instance mem_shared : SharedLobLaws.
Proof.
  split; cbn.
  - intros ????? Hm. by simplify_eq.
  - intros ????? Hm. by simplify_eq.
  - intros n t p fs fs' r w Hm Hp. simplify_eq. simpl in *. rewrite lookup_insert_ne; [done|]. intros <-. by apply Hp.
  - intros w l fs fs' r w' Hw Hp. destruct (m_open fs !! w); simplify_eq; [|done].
    simpl. rewrite lookup_insert_ne; [done|]. congruence.
  - intros ????? Hm. by simplify_eq.
  - intros w fs fs' r w' Hw Hp. destruct (m_open fs !! w); simplify_eq; [|done].
    simpl. rewrite lookup_delete_ne; [done|]. congruence.
  - intros w fs w' Hp. rewrite lookup_delete_ne; [done|]. congruence.
  - intros ??????? Hm. by simplify_eq.
Qed.

Definition config : LobColumnConfig := mkLobConfig kBinary "lobs/7" 7 3 6 4 false.

Definition no_files : @Store mem_lob := mkMem ∅ ∅ 0.

(** Two inline values and four large ones, in two files. *)
Definition ops : list LobOp :=
  [WriteOne [7; 7]; WriteMany [[1; 2; 3; 4]; [9]]; WriteArray [Some [5; 5; 5; 5; 5]; None]; FlushOp;
   WriteOne [8; 8; 8]].

Definition after_ops : LobColumnWriter := (run_ops ops (CreateLobColumnWriter no_files config)).1.

Definition files : @Store mem_lob := lw_fs (Close after_ops).1.

(** The reference of row [off] of file [k]. *)
Definition ref_to (k : nat) (off : Z) : value := EncodeLOBReference (GenerateUUIDBinary k) off.

Lemma values_ok : Forall (value_ok config) (mjoin (op_values <$> ops)).
Proof. repeat constructor; unfold value_ok; vm_compute; discriminate. Qed.

Lemma lob_values_read_back_witness :
  (run_ops ops (CreateLobColumnWriter no_files config)).2 =
    Ok [([7; 7], [0; 7; 7]); ([1; 2; 3; 4], ref_to 0 0); ([9], [0; 9]); ([5; 5; 5; 5; 5], ref_to 0 1);
        ([8; 8; 8], ref_to 1 0)] ∧
  m_files files !! "lobs/7/_data/u0.vx" = Some [[1; 2; 3; 4]; [5; 5; 5; 5; 5]] ∧
  ∃ s handed_out, run_ops ops (CreateLobColumnWriter no_files config) = (s, Ok handed_out) ∧ (Close s).2 ≠ Ub.
Proof.
  split; [vm_compute; reflexivity|]. split; [vm_compute; reflexivity|].
  destruct (lob_values_read_back config no_files ops) as (s & es & Hr & Hc).
  - reflexivity.
  - vm_compute. discriminate.
  - apply values_ok.
  - vm_compute. discriminate.
  - exists s, es. split; [exact Hr|]. destruct (Close s) as [s' [r|e|]]; [discriminate|discriminate|contradiction].
Defined.

Definition request : list (option value) := [Some (ref_to 0 1); None; Some [0; 9]; Some (ref_to 1 0); Some (ref_to 0 0)].

Lemma request_unique : NoDup (rows_named (lob_entries 0 request)).
Proof. vm_compute. repeat (apply NoDup_cons_2; [by rewrite ?elem_of_cons, ?elem_of_nil; naive_solver|]). constructor. Qed.

Lemma batch_read_equivalent_witness :
  (ReadBatchData request (CreateLobColumnReader files config)).2 =
    Ok [[5; 5; 5; 5; 5]; []; [9]; [8; 8; 8]; [1; 2; 3; 4]] ∧
  (ReadData (Some (ref_to 0 1)) (CreateLobColumnReader files config)).2 = Ok [5; 5; 5; 5; 5].
Proof.
  pose proof (batch_read_equivalent config files request request_unique) as Hw.
  assert ((ReadBatchData request (CreateLobColumnReader files config)).2 =
     Ok [[5; 5; 5; 5; 5]; []; [9]; [8; 8; 8]; [1; 2; 3; 4]]) as Hb by (vm_compute; reflexivity).
  unfold wp in Hw at 1. destruct (ReadBatchData request _) as [s' r]. simpl in Hb. subst r.
  destruct Hw as [_ Hw]. split; [reflexivity|].
  destruct (Hw 0%nat (Some (ref_to 0 1)) eq_refl) as (v & Hv & Hr). simpl in Hv. injection Hv as <-.
  vm_compute. reflexivity.
Defined.

Lemma array_read_elementwise_witness :
  ∃ results, (ReadArrowArray request (CreateLobColumnReader files config)).2 = Ok results ∧
    length results = length request ∧
    results = [Some [5; 5; 5; 5; 5]; None; Some [9]; Some [8; 8; 8]; Some [1; 2; 3; 4]].
Proof.
  pose proof (array_read_elementwise config files request ltac:(by repeat constructor) request_unique) as Hw.
  assert ((ReadArrowArray request (CreateLobColumnReader files config)).2 =
    Ok [Some [5; 5; 5; 5; 5]; None; Some [9]; Some [8; 8; 8]; Some [1; 2; 3; 4]]) as Hb by (vm_compute; reflexivity).
  unfold wp in Hw at 1. destruct (ReadArrowArray request _) as [s' r]. simpl in Hb. subst r.
  destruct Hw as [Hlen _]. eexists. split; [reflexivity|]. split; [exact Hlen|reflexivity].
Defined.

(** A writer that has finished one file. *)
Definition one_file : LobFileResult := mkLobFile "lobs/7/_data/u0.vx" 1 1 3.

Definition rolled : LobColumnWriter :=
  mkLobWriter (mkMem {["lobs/7/_data/u0.vx" := [[1; 2; 3]]]} ∅ 1 : @Store mem_lob) config false 1 1 0 0 None [] 0
    [one_file] (mkLobStats 1 0 1 3 1).

Lemma abort_discards_and_closes_witness :
  lw_closed rolled = false ∧ is_Some (file_of (lw_fs rolled) "lobs/7/_data/u0.vx") ∧
  file_of (lw_fs (Abort rolled).1) "lobs/7/_data/u0.vx" = None.
Proof.
  pose proof (abort_discards_and_closes rolled eq_refl) as Hw. unfold wp in Hw.
  split; [reflexivity|]. split; [eexists; vm_compute; reflexivity|].
  destruct (Abort rolled) as [s' [u|e|]]; [|contradiction|contradiction]. destruct Hw as (Hdel & _).
  destruct (Hdel one_file) as [Hn|(fs & fs' & e & Hd)].
  - apply elem_of_cons. left. reflexivity.
  - exact Hn.
  - discriminate Hd.
Defined.

(** The same reference twice: the rows passed to [take] are not unique, and the
    second position stays empty although the reference resolves. *)
Lemma duplicate_reference_loses_value :
  (ReadData (Some (ref_to 0 1)) (CreateLobColumnReader files config)).2 = Ok [5; 5; 5; 5; 5] ∧
  (ReadBatchData [Some (ref_to 0 1); Some (ref_to 0 1)] (CreateLobColumnReader files config)).2 =
    Ok [[5; 5; 5; 5; 5]; []].
Proof. split; vm_compute; reflexivity. Qed.
End SampleLob.
