(* ===== verification/ColumnGroupPolicy.v ===== *)
(** * Column group policies

    The policies of [writer.cpp] that divide the columns of a schema into column
    groups: a single group, groups by patterns on the column names, and groups by
    the average size of the columns in a sample batch.

    [std::regex_match] is an argument of the definitions; the theorems hold for
    every matcher.  The theorems: each policy puts every column into exactly one
    group; the pattern policy refines first match wins; the size policy keeps the
    order of the columns and its limits, and the first of its groups may be
    empty. *)

From S2P Require Import Prelude CppString Status Config ColumnGroups Properties ArrowData PackedMetadata.

(** ** Schemas *)

(** [Schema::GetFieldIndex]: -1 unless the name occurs exactly once. *)
Definition field_positions `{KeyValueMetadata} (schema : Schema) (name : string) : list nat :=
  (imap pair schema ≫= λ e : nat * Field, if bool_decide (fd_name e.2 = name) then [e.1] else []).

Definition Schema_GetFieldIndex `{KeyValueMetadata} (schema : Schema) (name : string) : Z :=
  match field_positions schema name with [i] => Z.of_nat i | _ => -1 end.

(** [Schema::GetFieldByName]: null unless the name occurs exactly once. *)
Definition Schema_GetFieldByName `{KeyValueMetadata} (schema : Schema) (name : string) : option Field :=
  match field_positions schema name with [i] => schema !! i | _ => None end.

Definition names `{KeyValueMetadata} (schema : Schema) : list string := fd_name <$> schema.

(** ** The policies *)

Inductive policy_kind :=
  | Single
  | SchemaBased (column_name_patterns column_name_formats : list string)
  | SizeBased (max_avg_column_size max_columns_in_group : Z) (column_sizes : list Z).

Section policies.
Context `{KeyValueMetadata} `{RecordBatches}.

(** [std::regex_match(name, std::regex(pattern))]; [None] when the pattern is
    invalid, where the constructor of [std::regex] throws. *)
Context (regex_match : string → string → option bool).
(** [boost::trim_copy]. *)
Context (trim_copy : string → string).

Record ColumnGroupPolicy := mkPolicy {
  cgp_schema : Schema;
  cgp_default_format : string;
  cgp_kind : policy_kind;
}.

Definition create_column_group_policy (properties_map : Properties) (schema : Schema) :
    outcome Status ColumnGroupPolicy :=
  policy_name ← GetValue (T := string) trim_copy properties_map PROPERTY_WRITER_POLICY;
  fallback_format ← GetValue (T := string) trim_copy properties_map PROPERTY_WRITER_FORMAT;
  if bool_decide (policy_name = LOON_COLUMN_GROUP_POLICY_SINGLE) then
    Ok (mkPolicy schema fallback_format Single)
  else if bool_decide (policy_name = LOON_COLUMN_GROUP_POLICY_SCHEMA_BASED) then
    patterns ← GetValue (T := list string) trim_copy properties_map PROPERTY_WRITER_SCHEMA_BASE_PATTERNS;
    formats ← GetValue (T := list string) trim_copy properties_map PROPERTY_WRITER_SCHEMA_BASE_FORMATS;
    if negb (bool_decide (formats = [])) && negb (bool_decide (length formats = length patterns)) then
      Err status_Invalid
    else Ok (mkPolicy schema fallback_format (SchemaBased patterns formats))
  else if bool_decide (policy_name = LOON_COLUMN_GROUP_POLICY_SIZE_BASED) then
    max_avg_column_size ← GetValue (T := int64_t) trim_copy properties_map PROPERTY_WRITER_SIZE_BASE_MACS;
    max_columns_in_group ← GetValue (T := int64_t) trim_copy properties_map PROPERTY_WRITER_SIZE_BASE_MCIG;
    Ok (mkPolicy schema fallback_format (SizeBased (i64 max_avg_column_size) (i64 max_columns_in_group) []))
  else Err status_Invalid.

Definition requires_sample (p : ColumnGroupPolicy) : bool :=
  match cgp_kind p with SizeBased _ _ _ => true | _ => false end.

(** The average size of a column, from its position on; a column that the batch
    does not have is undefined. *)
Fixpoint average_sizes (schema : Schema) (i : nat) (batch : RecordBatch) : outcome Status (list Z) :=
  match schema with
  | [] => Ok []
  | _ :: schema' =>
      column ← deref (batch_columns batch !! i);
      let column_size := wrap_i64 (GetArrowArrayMemorySize column) in
      let avg_size := if 0 <? num_rows batch then Z.quot column_size (num_rows batch) else 0 in
      rest ← average_sizes schema' (S i) batch;
      Ok (avg_size :: rest)
  end.

Definition sample (batch : option RecordBatch) (p : ColumnGroupPolicy) : outcome Status ColumnGroupPolicy :=
  match cgp_kind p with
  | SizeBased macs mcig _ =>
      match batch with
      | None => Err status_Invalid
      | Some b =>
          if num_rows b =? 0 then Err status_Invalid
          else
            sizes ← average_sizes (cgp_schema p) 0 b;
            Ok (mkPolicy (cgp_schema p) (cgp_default_format p) (SizeBased macs mcig sizes))
      end
  | _ => Ok p
  end.

(** The first pattern that matches, from position [j] on; their number when none
    does. *)
Fixpoint match_pattern (field_name : string) (patterns : list string) (j : nat) : outcome Status nat :=
  match patterns with
  | [] => Ok j
  | pattern :: patterns' =>
      m ← deref (regex_match field_name pattern);
      if m : bool then Ok j else match_pattern field_name patterns' (S j)
  end.

(** A new group for position [j], or the one that is there, with the column. *)
Definition add_column (default_format : string) (formats : list string) (last : nat) (j : nat)
    (field_name : string) (groups : list (option ColumnGroup)) : outcome Status (list (option ColumnGroup)) :=
  slot ← deref (groups !! j);
  g ← match slot with
      | Some g => Ok g
      | None =>
          format ← (if bool_decide (j = last) || bool_decide (formats = []) then Ok default_format
                    else deref (formats !! j));
          Ok (mkGroup [] format [])
      end;
  Ok (<[j := Some (mkGroup (columns g ++ [field_name]) (format g) (files g))]> groups).

Fixpoint place_fields (default_format : string) (patterns formats : list string) (fields : list string)
    (groups : list (option ColumnGroup)) : outcome Status (list (option ColumnGroup)) :=
  match fields with
  | [] => Ok groups
  | field_name :: fields' =>
      j ← match_pattern field_name patterns 0;
      groups ← add_column default_format formats (length patterns) j field_name groups;
      place_fields default_format patterns formats fields' groups
  end.

(** The loop of [SizeBasedColumnGroupPolicy::get_column_groups], from column [i]
    on; a negative limit on the columns is converted to an unsigned one. *)
Fixpoint size_groups (default_format : string) (macs mcig : Z) (sizes : list Z) (fields : list string) (i : nat)
    (current : list string) : outcome Status (list ColumnGroup) :=
  match fields with
  | [] => Ok (if bool_decide (current = []) then [] else [mkGroup current default_format []])
  | field_name :: fields' =>
      size ← deref (sizes !! i);
      if (size <? macs) && (Z.of_nat (length current) <? wrap_u64 mcig) then
        size_groups default_format macs mcig sizes fields' (S i) (current ++ [field_name])
      else
        groups ← size_groups default_format macs mcig sizes fields' (S i) [field_name];
        Ok (mkGroup current default_format [] :: groups)
  end.

Definition get_column_groups (p : ColumnGroupPolicy) : outcome Status (list ColumnGroup) :=
  let fields := names (cgp_schema p) in
  match cgp_kind p with
  | Single => Ok [mkGroup fields (cgp_default_format p) []]
  | SchemaBased patterns formats =>
      groups ← place_fields (cgp_default_format p) patterns formats fields
                 (replicate (S (length patterns)) None);
      Ok (omap id (groups : list (option ColumnGroup)))
  | SizeBased macs mcig sizes => size_groups (cgp_default_format p) macs mcig sizes fields 0 []
  end.
End policies.

(** ** The pattern policy *)

Section schema_based.
Context (regex_match : string → string → option bool).

Implicit Types (n : string) (patterns : list string).

(** The pattern at [j] is the first that matches; their number when none does. *)
Definition first_match n patterns (j : nat) : Prop :=
  (∀ i pattern, (i < j)%nat → patterns !! i = Some pattern → regex_match n pattern = Some false) ∧
  match patterns !! j with
  | Some pattern => regex_match n pattern = Some true
  | None => j = length patterns
  end.

(** Every pattern is a valid one. *)
Definition valid_patterns patterns : Prop :=
  ∀ n pattern, pattern ∈ patterns → is_Some (regex_match n pattern).

Definition chosen n patterns : nat :=
  match match_pattern regex_match n patterns 0 with Ok j => j | _ => 0%nat end.

Lemma match_pattern_ok n patterns j :
  valid_patterns patterns →
  ∃ k, match_pattern regex_match n patterns j = Ok (j + k)%nat ∧ first_match n patterns k.
Proof.
  revert j. induction patterns as [|p ps IH]; intros j Hv; cbn [match_pattern].
  - exists 0%nat. split; [f_equal; lia|]. split; [intros i q Hi; lia|done].
  - destruct (Hv n p) as [[] Hm]; [left|..]; rewrite Hm; cbn [deref]; rewrite bind_Ok.
    + exists 0%nat. split; [f_equal; lia|]. split; [intros i q Hi; lia|done].
    + destruct (IH (S j)) as (k & -> & Hf & Hk); [intros ???; apply Hv; by right|].
      exists (S k). split; [f_equal; lia|]. split; [|simpl; by destruct (ps !! k); auto].
      intros [|i] q Hi Hq; simpl in Hq; [congruence|]. apply (Hf i); [lia|done].
Qed.

Lemma chosen_spec n patterns :
  valid_patterns patterns →
  match_pattern regex_match n patterns 0 = Ok (chosen n patterns) ∧ first_match n patterns (chosen n patterns).
Proof.
  intros Hv. unfold chosen. destruct (match_pattern_ok n patterns 0 Hv) as (k & -> & Hk). done.
Qed.

Lemma chosen_le n patterns : valid_patterns patterns → (chosen n patterns ≤ length patterns)%nat.
Proof.
  intros Hv. destruct (chosen_spec n patterns Hv) as [_ [_ Hc]].
  destruct (patterns !! chosen n patterns) eqn:Hl; [apply lookup_lt_Some in Hl; lia|lia].
Qed.

(** The group of a position: the columns whose first match it is. *)
Definition format_at (default_format : string) (formats : list string) (last j : nat) : string :=
  if bool_decide (j = last) then default_format
  else match formats with [] => default_format | _ => default default_format (formats !! j) end.

Definition group_at (default_format : string) patterns (formats : list string) (fields : list string) (j : nat) :
    option ColumnGroup :=
  match filter (λ n, chosen n patterns = j) fields with
  | [] => None
  | cols => Some (mkGroup cols (format_at default_format formats (length patterns) j) [])
  end.

Lemma group_at_snoc df patterns formats fields n j :
  group_at df patterns formats (fields ++ [n]) j =
  if decide (chosen n patterns = j) then
    Some (mkGroup (filter (λ m, chosen m patterns = j) fields ++ [n]) (format_at df formats (length patterns) j) [])
  else group_at df patterns formats fields j.
Proof.
  unfold group_at. rewrite filter_app, filter_cons, filter_nil.
  destruct (decide (chosen n patterns = j)); [|by rewrite app_nil_r].
  by destruct (filter _ fields).
Qed.

Lemma placed_insert df patterns formats placed n k :
  <[chosen n patterns := group_at df patterns formats (placed ++ [n]) (chosen n patterns)]>
    (group_at df patterns formats placed <$> seq 0 k) =
  group_at df patterns formats (placed ++ [n]) <$> seq 0 k.
Proof.
  apply list_eq. intros i. destruct (decide (i < k)%nat) as [Hi|Hi].
  - destruct (decide (i = chosen n patterns)) as [->|Hne].
    + rewrite list_lookup_insert_eq by (by rewrite length_fmap, length_seq).
      by rewrite list_lookup_fmap, lookup_seq_lt.
    + rewrite list_lookup_insert_ne, !list_lookup_fmap, lookup_seq_lt by done. simpl. f_equal.
      rewrite group_at_snoc. by rewrite decide_False by (simpl; congruence).
  - rewrite !lookup_ge_None_2; [done|..]; rewrite ?length_insert, length_fmap, length_seq; lia.
Qed.

Lemma place_fields_spec df patterns formats placed fields :
  valid_patterns patterns → formats = [] ∨ length formats = length patterns →
  place_fields regex_match df patterns formats fields
    (group_at df patterns formats placed <$> seq 0 (S (length patterns))) =
  Ok (group_at df patterns formats (placed ++ fields) <$> seq 0 (S (length patterns))).
Proof.
  intros Hv Hf. revert placed. induction fields as [|n fields IH]; intros placed; cbn [place_fields].
  - by rewrite app_nil_r.
  - destruct (chosen_spec n patterns Hv) as [-> _]. rewrite bind_Ok.
    pose proof (chosen_le n patterns Hv) as Hle. rewrite cons_middle, app_assoc, <- IH.
    replace (add_column _ _ _ _ _ _) with (Ok (E := Status)
      (group_at df patterns formats (placed ++ [n]) <$> seq 0 (S (length patterns)))); [done|].
    rewrite <- placed_insert, group_at_snoc, decide_True by done. unfold add_column.
    rewrite list_lookup_fmap, lookup_seq_lt by lia. cbn [fmap option_fmap option_map deref Nat.add].
    rewrite bind_Ok. unfold group_at at 3.
    destruct (filter _ placed) as [|c cols] eqn:Hc; [|rewrite bind_Ok; reflexivity].
    unfold format_at. destruct (bool_decide_reflect (chosen n patterns = length patterns)) as [He|Hne].
    + simpl. reflexivity.
    + destruct Hf as [->|Hlen]; [simpl; reflexivity|].
      destruct (lookup_lt_is_Some_2 formats (chosen n patterns)) as [fm Hfm]; [lia|].
      rewrite Hfm. destruct formats; [done|]. simpl. reflexivity.
Qed.

Lemma filter_by_value (f : string → nat) l k :
  mjoin ((λ j, filter (λ n, f n = j) l) <$> seq 0 k) ≡ₚ filter (λ n, (f n < k)%nat) l.
Proof.
  induction k as [|k IH].
  - simpl. induction l as [|n l IH]; [done|]. by rewrite filter_cons_False by lia.
  - rewrite seq_S, fmap_app, join_app, IH. simpl. rewrite app_nil_r. clear IH.
    induction l as [|n l IH]; [done|]. rewrite !filter_cons.
    destruct (decide (f n < k)%nat), (decide (f n = k)), (decide (f n < S k)%nat); try lia; simpl.
    + by rewrite IH.
    + by rewrite <- Permutation_middle, IH.
    + done.
Qed.

Lemma omap_id_fmap {A B} (f : A → option B) (l : list A) : omap id (f <$> l) = omap f l.
Proof. induction l as [|x l IH]; [done|]. csimpl. destruct (f x); by f_equal. Qed.

Lemma group_columns df patterns formats fields js :
  mjoin (columns <$> omap (group_at df patterns formats fields) js) =
  mjoin ((λ j, filter (λ n, chosen n patterns = j) fields) <$> js).
Proof.
  induction js as [|j js IH]; [done|]. csimpl.
  unfold group_at at 1. destruct (filter _ fields) as [|c cols] eqn:Hc; [by rewrite IH|].
  csimpl. by rewrite IH.
Qed.

(** C39: The pattern policy.  With valid patterns and a format for each or for
    none, the groups are, by position and without the empty ones, the columns whose
    first matching pattern is at that position, in the order of the schema and with
    the format of the position; the columns that no pattern matches form the last
    group, of the default format; and every column is in exactly one group. *)
Theorem schema_policy_first_match `{KeyValueMetadata} (schema : Schema) df patterns formats :
  valid_patterns patterns → formats = [] ∨ length formats = length patterns →
  get_column_groups regex_match (mkPolicy schema df (SchemaBased patterns formats)) =
    Ok (omap (group_at df patterns formats (names schema)) (seq 0 (S (length patterns)))) ∧
  (∀ n, n ∈ names schema → first_match n patterns (chosen n patterns)) ∧
  mjoin (columns <$> omap (group_at df patterns formats (names schema)) (seq 0 (S (length patterns)))) ≡ₚ names schema.
Proof.
  intros Hv Hf. split_and!.
  - unfold get_column_groups. cbn [cgp_kind cgp_default_format cgp_schema].
    assert (replicate (S (length patterns)) None = group_at df patterns formats [] <$> seq 0 (S (length patterns))) as ->.
    { symmetry. rewrite (const_fmap _ _ None); [by rewrite length_seq|done]. }
    rewrite place_fields_spec by done. rewrite bind_Ok. f_equal. apply omap_id_fmap.
  - intros n _. by apply chosen_spec.
  - rewrite group_columns, filter_by_value. induction (names schema) as [|n l IH]; [done|].
    rewrite filter_cons_True by (pose proof (chosen_le n patterns Hv); lia). by rewrite IH.
Qed.
End schema_based.

(** ** The size policy *)

Section size_based.
Context (df : string) (macs mcig : Z).

Implicit Types (sizes : list Z) (fields : list string) (current : list (string * Z)).

(** The columns with their average sizes. *)
Definition small (e : string * Z) : Prop := e.2 < macs.

(** Consecutive parts of [l]: in each, but for its first column, the columns are
    small; a part has at most as many columns as allowed, one at least; and it
    ends only before a column that is not small or when it is full. *)
Inductive greedy_parts : list (string * Z) → list (string * Z) → list (list (string * Z)) → Prop :=
  | parts_end current : greedy_parts current [] (if bool_decide (current = []) then [] else [current])
  | parts_add current e l parts :
      small e → Z.of_nat (length current) < wrap_u64 mcig →
      greedy_parts (current ++ [e]) l parts → greedy_parts current (e :: l) parts
  | parts_cut current e l parts :
      ¬ small e ∨ wrap_u64 mcig ≤ Z.of_nat (length current) →
      greedy_parts [e] l parts → greedy_parts current (e :: l) (current :: parts).

Lemma size_groups_parts sizes fields i current :
  (i + length fields = length sizes)%nat →
  ∃ parts, greedy_parts current (zip fields (drop i sizes)) parts ∧
    size_groups df macs mcig sizes fields i current.*1 = Ok ((λ p, mkGroup p.*1 df []) <$> parts).
Proof.
  revert i current. induction fields as [|n fields IH]; intros i current Hlen; cbn [size_groups].
  - eexists. split; [apply parts_end|]. by destruct current.
  - simpl in Hlen. destruct (lookup_lt_is_Some_2 sizes i) as [size Hs]; [lia|].
    rewrite Hs. cbn [deref]. rewrite bind_Ok. rewrite (drop_S _ _ _ Hs). cbn [zip zip_with].
    destruct ((size <? macs) && (Z.of_nat (length current.*1) <? wrap_u64 mcig)) eqn:Hc; rewrite length_fmap in Hc.
    + apply andb_true_iff in Hc as [H1%Z.ltb_lt H2%Z.ltb_lt].
      destruct (IH (S i) (current ++ [(n, size)])) as (parts & Hp & Hg); [lia|].
      exists parts. split; [by apply parts_add|]. rewrite fmap_app in Hg. exact Hg.
    + destruct (IH (S i) [(n, size)]) as (parts & Hp & Hg); [lia|].
      exists (current :: parts). split; [|change [n] with [(n, size)].*1; by rewrite Hg].
      apply parts_cut; [|done]. unfold small; simpl. apply andb_false_iff in Hc as [H1%Z.ltb_ge|H2%Z.ltb_ge]; lia.
Qed.

Lemma parts_concat current l parts : greedy_parts current l parts → mjoin parts = current ++ l.
Proof.
  induction 1 as [current|current e l parts _ _ _ IH|current e l parts _ _ IH].
  - rewrite app_nil_r. case_bool_decide; [by subst|]. simpl. by rewrite app_nil_r.
  - by rewrite IH, <- app_assoc.
  - simpl. by rewrite IH.
Qed.

(** A group under construction. *)
Definition part_ok (p : list (string * Z)) : Prop :=
  Forall small (tail p) ∧ (length p ≤ 1)%nat ∨ Forall small (tail p) ∧ Z.of_nat (length p) ≤ wrap_u64 mcig.

Lemma parts_ok current l parts :
  greedy_parts current l parts → part_ok current → Forall part_ok parts.
Proof.
  induction 1 as [current|current e l parts Hs Hlen _ IH|current e l parts _ _ IH]; intros Hc.
  - case_bool_decide; [constructor|by constructor].
  - apply IH. right. rewrite length_app. simpl. split; [|lia].
    destruct current as [|c current]; [constructor|]. simpl. apply Forall_app. split; [|by constructor].
    by destruct Hc as [[Hc _]|[Hc _]].
  - constructor; [done|]. apply IH. left. split; [constructor|simpl; lia].
Qed.

Lemma parts_nonempty current l parts :
  greedy_parts current l parts → current ≠ [] → Forall (λ p, p ≠ []) parts.
Proof.
  induction 1 as [current|current e l parts Hs Hlen _ IH|current e l parts _ _ IH]; intros Hc.
  - rewrite bool_decide_false by done. by constructor.
  - apply IH. by destruct current.
  - constructor; [done|]. by apply IH.
Qed.
End size_based.

(** The size policy.  With the sizes of all columns sampled, the groups are
    consecutive runs of the columns of the schema, all of them in order; a group has
    one column or at most [max_columns_in_group]; every column of a group but its
    first is smaller on average than [max_avg_column_size]; only the first group may
    be empty, and it is exactly when the first column is too large or no column is
    allowed in a group. *)
Theorem size_policy_groups `{KeyValueMetadata} regex (schema : Schema) df macs mcig sizes :
  length sizes = length schema → schema ≠ [] →
  ∃ parts, get_column_groups regex (mkPolicy schema df (SizeBased macs mcig sizes)) =
      Ok ((λ p : list (string * Z), mkGroup p.*1 df []) <$> parts) ∧
    mjoin parts = zip (names schema) sizes ∧
    Forall (λ p, Forall (small macs) (tail p) ∧ ((length p ≤ 1)%nat ∨ Z.of_nat (length p) ≤ wrap_u64 mcig)) parts ∧
    Forall (λ p, p ≠ []) (tail parts) ∧
    (head parts = Some [] ↔ (∃ size, head sizes = Some size ∧ macs ≤ size) ∨ wrap_u64 mcig = 0).
Proof.
  intros Hlen Hne. destruct (size_groups_parts df macs mcig sizes (names schema) 0 []) as (parts & Hp & Hg).
  { unfold names. rewrite length_fmap. lia. }
  exists parts. split; [done|]. rewrite drop_0 in Hp. split; [by apply parts_concat in Hp|].
  split. { eapply Forall_impl; [eapply parts_ok; [done|left; split; [constructor|simpl; lia]]|].
    intros p [[? ?]|[? ?]]; auto. }
  destruct schema as [|f schema]; [done|]. destruct sizes as [|size sizes]; [done|]. simpl in Hp.
  inversion Hp as [|c e l ps Hs Hm Hr|c e l ps Hs Hr]; subst.
  - apply parts_nonempty in Hr; [|done]. simpl in *. split; [by destruct Hr|]. unfold small in Hs. simpl in Hs.
    split; [|intros [(z & [= <-] & Hz)|Hz]; lia]. intros Hh. destruct Hr; simplify_eq/=.
  - apply parts_nonempty in Hr; [|done]. simpl in *. split; [done|]. split; [intros _|done].
    destruct Hs as [Hs|Hs]; [left|right].
    + exists size. split; [done|]. unfold small in Hs. simpl in Hs. lia.
    + pose proof (wrap_u64_range mcig). lia.
Qed.

(** ** Examples *)

Module SamplePolicy.
Import KvList.

Definition field (n : string) : Field := mkField n "int64" true None.
Definition schema : Schema := [field "id"; field "vec"; field "text"; field "vec2"].
(** Patterns that match one name. *)
Definition equal_names (n pattern : string) : option bool := Some (bool_decide (n = pattern)).

Lemma schema_policy_first_match_witness :
  valid_patterns equal_names ["vec"; "none"; "id"] ∧
  get_column_groups equal_names (mkPolicy schema "parquet" (SchemaBased ["vec"; "none"; "id"] ["vortex"; "parquet"; "parquet"])) =
    Ok [mkGroup ["vec"] "vortex" []; mkGroup ["id"] "parquet" []; mkGroup ["text"; "vec2"] "parquet" []].
Proof.
  assert (valid_patterns equal_names ["vec"; "none"; "id"]) as Hv by (intros n p _; by eexists).
  split; [exact Hv|].
  destruct (schema_policy_first_match equal_names schema "parquet" _ ["vortex"; "parquet"; "parquet"] Hv
    (or_intror eq_refl)) as [Hg _].
  rewrite Hg. vm_compute. reflexivity.
Defined.

Lemma size_policy_groups_witness :
  ∃ parts, get_column_groups equal_names (mkPolicy schema "parquet" (SizeBased 100 2 [8; 8; 30; 4096])) =
    Ok ((λ p : list (string * Z), mkGroup p.*1 "parquet" []) <$> parts) ∧
    mjoin parts = zip (names schema) [8; 8; 30; 4096].
Proof.
  destruct (size_policy_groups equal_names schema "parquet" 100 2 [8; 8; 30; 4096]) as (parts & Hg & Hj & _);
    [reflexivity|discriminate|].
  exists parts. exact (conj Hg Hj).
Defined.

(** With the defaults of the properties no column is allowed in a group, and the
    policy starts with a group without columns. *)
Lemma size_policy_defaults_empty_group :
  create_column_group_policy id {[PROPERTY_WRITER_POLICY := PStr "size_based"]} schema =
    Ok (mkPolicy schema "parquet" (SizeBased 0 0 [])) ∧
  get_column_groups equal_names (mkPolicy schema "parquet" (SizeBased 0 0 [8; 8; 30; 4096])) =
    Ok [mkGroup [] "parquet" []; mkGroup ["id"] "parquet" []; mkGroup ["vec"] "parquet" [];
        mkGroup ["text"] "parquet" []; mkGroup ["vec2"] "parquet" []].
Proof. split; vm_compute; reflexivity. Qed.

End SamplePolicy.
