(* ===== verification/ColumnGroupWriter.v ===== *)
(** * The column group writer

    [format/column_group_writer.cpp]: a writer of one column group that starts a
    new file once a flush finds enough bytes in the current one, and returns the
    files at the end.

    The class [FormatWriters] holds what the writer calls: the format writers of
    [format/format_writer.h] on the filesystem of the properties, and the random
    uuids of file names. *)

From S2P Require Import Prelude CppString Status Config Paths ColumnGroups Properties ArrowData PackedMetadata ColumnGroupPolicy.

(** The formats of [Format::get]. *)
Inductive Format := ParquetFormat | VortexFormat | LanceFormat | IcebergFormat | PaimonFormat.

Definition Format_get (format : string) : outcome Status Format :=
  if bool_decide (format = LOON_FORMAT_PARQUET) then Ok ParquetFormat
  else if bool_decide (format = LOON_FORMAT_VORTEX) then Ok VortexFormat
  else if bool_decide (format = LOON_FORMAT_LANCE_TABLE) then Ok LanceFormat
  else if bool_decide (format = LOON_FORMAT_ICEBERG_TABLE) then Ok IcebergFormat
  else if bool_decide (format = LOON_FORMAT_PAIMON_TABLE) then Ok PaimonFormat
  else Err status_Invalid.

Class FormatWriters `{KeyValueMetadata} `{RecordBatches} := {
  Store : Type;                                             (* the filesystems, with the writers open on them *)
  Fs : Type;
  FormatWriter : Type;
  FilesystemCache_get : Properties → string → M Store Status Fs;
  Fs_is_local : Fs → bool;
  Fs_CreateDir : Fs → string → M Store Status unit;
  random_gen : Store → Store * string;
  create_writer : Format → Fs → Schema → string → string → Properties → M Store Status FormatWriter;
  FW_Write : FormatWriter → RecordBatch → M Store Status unit;
  FW_Flush : FormatWriter → M Store Status unit;
  FW_Close : FormatWriter → M Store Status ColumnGroupFile;
}.

Section writer.
Context `{KVM : KeyValueMetadata} `{RB : RecordBatches} `{FWS : !FormatWriters}.
(** [boost::trim_copy]. *)
Context (trim_copy : string → string).

Record ColumnGroupWriter := mkCGW {
  cgw_base_path : string;
  cgw_column_group_id : Z;
  cgw_column_group : ColumnGroup;
  cgw_schema : Schema;
  cgw_properties : Properties;
  cgw_format_writer : option FormatWriter;
  cgw_max_bytes_limit : Z;
  cgw_written_bytes : Z;
  cgw_written_files : list ColumnGroupFile;
}.

(** A method: the store and the members. *)
Definition CGW (A : Type) : Type := M (Store * ColumnGroupWriter) Status A.

Definition set_format_writer (fw : FormatWriter) (s : ColumnGroupWriter) : ColumnGroupWriter :=
  mkCGW (cgw_base_path s) (cgw_column_group_id s) (cgw_column_group s) (cgw_schema s) (cgw_properties s)
    (Some fw) (cgw_max_bytes_limit s) (cgw_written_bytes s) (cgw_written_files s).
Definition set_max_bytes_limit (n : Z) (s : ColumnGroupWriter) : ColumnGroupWriter :=
  mkCGW (cgw_base_path s) (cgw_column_group_id s) (cgw_column_group s) (cgw_schema s) (cgw_properties s)
    (cgw_format_writer s) n (cgw_written_bytes s) (cgw_written_files s).
Definition set_written_bytes (n : Z) (s : ColumnGroupWriter) : ColumnGroupWriter :=
  mkCGW (cgw_base_path s) (cgw_column_group_id s) (cgw_column_group s) (cgw_schema s) (cgw_properties s)
    (cgw_format_writer s) (cgw_max_bytes_limit s) n (cgw_written_files s).
Definition add_written_file (f : ColumnGroupFile) (s : ColumnGroupWriter) : ColumnGroupWriter :=
  mkCGW (cgw_base_path s) (cgw_column_group_id s) (cgw_column_group s) (cgw_schema s) (cgw_properties s)
    (cgw_format_writer s) (cgw_max_bytes_limit s) (cgw_written_bytes s) (cgw_written_files s ++ [f]).

(** A call that changes the store, and one that changes the members. *)
Definition on_store {X A} (m : M Store Status A) : M (Store * X) Status A := λ s,
  let '(st, r) := m s.1 in ((st, s.2), r).
Definition on_members {X} (f : X → X) : M (Store * X) Status unit := λ s, ((s.1, f s.2), Ok tt).

(** A call on [format_writer_]; a null pointer is undefined. *)
Definition on_format_writer {A} (m : FormatWriter → M Store Status A) : CGW A := λ s,
  match cgw_format_writer s.2 with
  | Some fw => on_store (m fw) s
  | None => (s, Ub)
  end.

(** The fields of the columns, all of which the schema must have. *)
Fixpoint find_fields (schema : Schema) (cols : list string) : outcome Status (list Field) :=
  match cols with
  | [] => Ok []
  | column_name :: cols' =>
      match Schema_GetFieldByName schema column_name with
      | None => Err status_Invalid
      | Some field => fields ← find_fields schema cols'; Ok (field :: fields)
      end
  end.

(** The writer is created with the schema of the column group writer; the schema
    that the code builds from the columns is not used. *)
Definition create_format_writer (base_path : string) (column_group_id : Z) (column_group : ColumnGroup)
    (schema : Schema) (properties : Properties) : M Store Status FormatWriter :=
  fields ← lift (find_fields schema (columns column_group));
  file_system ← FilesystemCache_get properties base_path;
  (if Fs_is_local file_system then Fs_CreateDir file_system (get_data_path base_path) else mret tt);;
  fmt ← lift (Format_get (format column_group));
  uuid ← (λ st, let '(st', u) := random_gen st in (st', Ok u));
  create_writer fmt file_system schema
    (get_data_filepath_for uuid base_path column_group_id (format column_group)) base_path properties.

Definition cgw_Write (record : RecordBatch) : CGW unit :=
  on_members (λ s, set_written_bytes (wrap_u64 (cgw_written_bytes s + GetRecordBatchMemorySize record)) s);;
  on_format_writer (λ fw, FW_Write fw record).

Definition cgw_Flush : CGW unit :=
  on_format_writer FW_Flush;;
  s ← get_st;
  if (cgw_written_bytes s.2 =? 0) || (cgw_written_bytes s.2 <? cgw_max_bytes_limit s.2) then mret tt
  else
    column_group_file ← on_format_writer FW_Close;
    on_members (add_written_file column_group_file);;
    on_members (set_written_bytes 0);;
    s ← get_st;
    fw ← on_store (create_format_writer (cgw_base_path s.2) (cgw_column_group_id s.2) (cgw_column_group s.2)
                     (cgw_schema s.2) (cgw_properties s.2));
    on_members (set_format_writer fw).

Definition cgw_Close : CGW (list ColumnGroupFile) :=
  column_group_file ← on_format_writer FW_Close;
  s ← get_st;
  (if negb (cgw_written_bytes s.2 =? 0) then on_members (add_written_file column_group_file) else mret tt);;
  s ← get_st;
  mret (cgw_written_files s.2).

(** [assert(!format_writer_)] at the start. *)
Definition cgw_Open : CGW unit :=
  s ← get_st;
  match cgw_format_writer s.2 with
  | Some _ => undefined
  | None =>
      fw ← on_store (create_format_writer (cgw_base_path s.2) (cgw_column_group_id s.2) (cgw_column_group s.2)
                       (cgw_schema s.2) (cgw_properties s.2));
      on_members (set_format_writer fw);;
      limit ← lift (GetValue (T := uint64_t) trim_copy (cgw_properties s.2) PROPERTY_WRITER_FILE_ROLLING_SIZE);
      on_members (set_max_bytes_limit (u64 limit))
  end.

(** [ColumnGroupWriter::create]; when opening fails the writer is destroyed. *)
Definition cgw_create (base_path : string) (column_group_id : Z) (column_group : ColumnGroup) (schema : Schema)
    (properties : Properties) : M Store Status ColumnGroupWriter := λ st,
  match cgw_Open (st, mkCGW base_path column_group_id column_group schema properties None 0 0 []) with
  | ((st', s), Ok _) => (st', Ok s)
  | ((st', _), Err e) => (st', Err e)
  | ((st', _), Ub) => (st', Ub)
  end.
End writer.
