(* ===== verification/ColumnGroupWriterCorrect.v ===== *)
(** * Correctness of the column group writer

    What the writer relies on: the classes [FormatWriterModel] and
    [FormatWriterLaws] say what a format writer does to the rows of its file, that
    it leaves other writers and files alone, and that uuids are unique.  The lemmas:
    the files of a column group writer, followed by the file that is open, hold
    exactly the rows written, and the writer touches no file but its own. *)

From S2P Require Import Prelude CppString Status Config Paths ColumnGroups Properties ArrowData PackedMetadata ColumnGroupPolicy ColumnGroupWriter.
From Stdlib Require Import Ascii.

(** ** Paths of data files *)

Lemma cut_inj c a b x y :
  mem_char c a = false → mem_char c b = false → a +:+ String c x = b +:+ String c y → a = b ∧ x = y.
Proof.
  revert b. induction a as [|k a IH]; intros [|l b] Ha Hb; rewrite ?app_str_nil_l, ?app_str_cons; intros Heq;
    simpl in *; simplify_eq; try done.
  - by rewrite Ascii.eqb_refl in Hb.
  - by rewrite Ascii.eqb_refl in Ha.
  - apply orb_false_iff in Ha as [_ Ha], Hb as [_ Hb]. destruct (IH b) as [-> ->]; done.
Qed.

(** The text of a uuid: hexadecimal digits and dashes. *)
Definition uuid_text (u : string) : Prop := mem_char kSep u = false ∧ mem_char "."%char u = false.

Lemma data_dir_ok : Layout.layout_dir kDataPath.
Proof. split_and!; [done|done|]. exists [], "_data". by split. Qed.

Lemma data_filename_ok u id fmt :
  uuid_text u → mem_char kSep fmt = false → Layout.file_name (get_data_filename u id fmt).
Proof.
  intros [Hu _] Hf. assert (mem_char "_"%char (get_data_filename u id fmt) = true) as Hm.
  { unfold get_data_filename. rewrite !mem_char_app. simpl. by rewrite orb_true_r. }
  apply Layout.plain_file_name; [|intros He; by rewrite He in Hm..].
  unfold get_data_filename. rewrite !mem_char_app, to_string_mem_char, Hu, Hf by done. done.
Qed.

Lemma data_path_inj base u id fmt u' id' fmt' :
  uuid_text u → uuid_text u' → mem_char kSep fmt = false → mem_char kSep fmt' = false →
  get_data_filepath_for u base id fmt = get_data_filepath_for u' base id' fmt' → u = u'.
Proof.
  intros Hu Hu' Hf Hf'. unfold get_data_filepath_for, get_data_path.
  rewrite !Layout.in_layout_dir by (try apply data_dir_ok; by apply data_filename_ok).
  intros Heq%app_str_inj_l. unfold get_data_filename in Heq.
  change ("_" +:+ u +:+ "." +:+ fmt) with (String "_" (u +:+ String "." fmt)) in Heq.
  change ("_" +:+ u' +:+ "." +:+ fmt') with (String "_" (u' +:+ String "." fmt')) in Heq.
  apply cut_inj in Heq as [_ Heq]; [|by apply to_string_mem_char..].
  by apply cut_inj in Heq as [-> _]; [|apply Hu|apply Hu'].
Qed.

(** ** What the writer relies on *)

Class FormatWriterModel `{FWS : FormatWriters} `{BL : !BatchLaws} := {
  written : Store → FormatWriter → option (list row);     (* the rows of a writer that is open and has not failed *)
  path_of : FormatWriter → string;
  file_rows : Store → string → option (list row);
  used : Store → gset string;                             (* the uuids generated so far *)
  accepts : RecordBatch → Prop;
}.

Section frames.
Context `{FormatWriterModel}.

(** Only the writers in [mine] and the files in [paths] change. *)
Definition frame (mine : FormatWriter → Prop) (paths : string → Prop) (st st' : Store) : Prop :=
  (∀ w, ¬ mine w → written st' w = written st w) ∧ (∀ q, ¬ paths q → file_rows st' q = file_rows st q) ∧
  used st' = used st.
End frames.

Class FormatWriterLaws `{FWM : FormatWriterModel} := {
  get_frame props p st st' r : FilesystemCache_get props p st = (st', r) → frame (λ _, False) (λ _, False) st st';
  mkdir_frame fs p st st' r : Fs_CreateDir fs p st = (st', r) → frame (λ _, False) (λ _, False) st st';
  create_frame fmt fs schema p base props st st' r : create_writer fmt fs schema p base props st = (st', r) →
    frame (λ w, r = Ok w) (eq p) st st';
  write_frame w b st st' r : FW_Write w b st = (st', r) → frame (eq w) (eq (path_of w)) st st';
  flush_frame w st st' r : FW_Flush w st = (st', r) → frame (eq w) (eq (path_of w)) st st';
  close_frame w st st' r : FW_Close w st = (st', r) → frame (eq w) (eq (path_of w)) st st';
  (* uuids are unique *)
  uuid_unique st st' u : random_gen st = (st', u) →
    uuid_text u ∧ u ∉ used st ∧ used st' = {[u]} ∪ used st ∧
    (∀ w, written st' w = written st w) ∧ (∀ q, file_rows st' q = file_rows st q);
  (* calls that succeed *)
  create_ok fmt fs schema p base props st st' w : create_writer fmt fs schema p base props st = (st', Ok w) →
    written st w = None ∧ written st' w = Some [] ∧ path_of w = p;
  write_ok w b st st' l : FW_Write w b st = (st', Ok tt) → accepts b → written st w = Some l →
    Z.of_nat (length (l ++ rows b)) ≤ INT64_MAX → written st' w = Some (l ++ rows b);
  flush_ok w st st' l : FW_Flush w st = (st', Ok tt) → written st w = Some l → written st' w = Some l;
  close_ok w st st' f l : FW_Close w st = (st', Ok f) → written st w = Some l →
    file_rows st' (path_of w) = Some l ∧ cgf_path f = path_of w ∧ start_index f = 0 ∧
    end_index f = Z.of_nat (length l);
  (* failures are statuses *)
  get_defined props p st st' : FilesystemCache_get props p st ≠ (st', Ub);
  mkdir_defined fs p st st' : Fs_CreateDir fs p st ≠ (st', Ub);
  create_defined fmt fs schema p base props st st' : create_writer fmt fs schema p base props st ≠ (st', Ub);
  write_defined w b st st' l : accepts b → written st w = Some l → FW_Write w b st ≠ (st', Ub);
  flush_defined w st st' l : written st w = Some l → FW_Flush w st ≠ (st', Ub);
  close_defined w st st' l : written st w = Some l → FW_Close w st ≠ (st', Ub);
}.

(** Every call on a filesystem and on an open writer succeeds. *)
Definition fw_works `{FormatWriterModel} : Prop :=
  (∀ props p st, ∃ st' fs, FilesystemCache_get props p st = (st', Ok fs)) ∧
  (∀ fs p st, ∃ st', Fs_CreateDir fs p st = (st', Ok tt)) ∧
  (∀ fmt fs schema p base props st, ∃ st' w, create_writer fmt fs schema p base props st = (st', Ok w)) ∧
  (∀ w b st l, accepts b → written st w = Some l → ∃ st', FW_Write w b st = (st', Ok tt)) ∧
  (∀ w st l, written st w = Some l → ∃ st', FW_Flush w st = (st', Ok tt)) ∧
  (∀ w st l, written st w = Some l → ∃ st' f, FW_Close w st = (st', Ok f)).

(** ** The lemmas *)

Section correct.
Context `{FWL : FormatWriterLaws} (base : string).

Implicit Types (st : Store) (s : ColumnGroupWriter) (w : FormatWriter).

Definition failed {X} (_ : Status) (_ : X) : Prop := ¬ fw_works.

(** A path that was generated before. *)
Definition owned st (p : string) : Prop :=
  ∃ u id fmt, u ∈ used st ∧ uuid_text u ∧ mem_char kSep fmt = false ∧ p = get_data_filepath_for u base id fmt.

(** Of what existed before, only the writers and files of the paths [mine] may
    have changed. *)
Definition evolves (mine : list string) st st' : Prop :=
  used st ⊆ used st' ∧
  (∀ w, is_Some (written st w) → owned st (path_of w) → path_of w ∉ mine → written st' w = written st w) ∧
  (∀ q, owned st q → q ∉ mine → file_rows st' q = file_rows st q).

Lemma owned_mono st st' p : used st ⊆ used st' → owned st p → owned st' p.
Proof. intros Hu (u & id & fmt & Hin & Ht). exists u, id, fmt. split; [set_solver|done]. Qed.

Lemma evolves_trans mine mine1 st st1 st2 :
  evolves mine st st1 → evolves mine1 st1 st2 → (∀ p, p ∈ mine1 → p ∈ mine ∨ ¬ owned st p) →
  evolves mine st st2.
Proof.
  intros (Hu & Hw & Hf) (Hu1 & Hw1 & Hf1) Hm. split; [set_solver|]. split.
  - intros w [l Hl] Ho Hn. specialize (Hw w (mk_is_Some _ _ Hl) Ho Hn).
    rewrite Hw1; [done|by rewrite Hw, Hl|by eapply owned_mono|]. intros [?|?]%Hm; done.
  - intros q Ho Hn. rewrite Hf1; [by apply Hf|by eapply owned_mono|]. intros [?|?]%Hm; done.
Qed.

Lemma evolves_refl mine st : evolves mine st st.
Proof. done. Qed.

Lemma frame_evolves w st st' : frame (eq w) (eq (path_of w)) st st' → evolves [path_of w] st st'.
Proof.
  intros (Hw & Hf & Hu). split; [by rewrite Hu|]. split.
  - intros w' _ _ Hn. apply Hw. intros ->. apply Hn. by left.
  - intros q _ Hn. apply Hf. intros <-. apply Hn. by left.
Qed.

Lemma frame_none st st' : frame (λ _, False) (λ _, False) st st' → evolves [] st st'.
Proof. intros (Hw & Hf & Hu). split; [by rewrite Hu|]. split; intros; [apply Hw|apply Hf]; tauto. Qed.

Lemma evolves_more mine mine' st st' : evolves mine st st' → mine ⊆ mine' → evolves mine' st st'.
Proof.
  intros (Hu & Hw & Hf) Hs. split; [done|]. split; intros; [apply Hw|apply Hf]; auto.
Qed.

(** *** Calls *)

Lemma wp_store_call {X A} (m : M Store Status A) (x : Store * X) Q R :
  wp m x.1 (λ a st, Q a (st, x.2)) (λ e st, R e (st, x.2)) → wp (on_store m) x Q R.
Proof. unfold wp, on_store. by destruct (m x.1) as [st []]. Qed.

Lemma wp_on_members {X} (f : X → X) (x : Store * X) Q R : Q tt (x.1, f x.2) → wp (on_members f) x Q R.
Proof. done. Qed.

Lemma wp_on_format_writer {A} (m : FormatWriter → M Store Status A) x w Q R :
  cgw_format_writer x.2 = Some w →
  wp (m w) x.1 (λ a st, Q a (st, x.2)) (λ e st, R e (st, x.2)) → wp (on_format_writer m) x Q R.
Proof. intros Hw Hm. unfold wp, on_format_writer. rewrite Hw. by apply wp_store_call. Qed.

(** A call of the environment, by its laws. *)
Lemma wp_call {A} (m : M Store Status A) st Q :
  (∀ st', m st ≠ (st', Ub)) → (fw_works → ∃ st' a, m st = (st', Ok a)) →
  (∀ st' a, m st = (st', Ok a) → Q a st') → wp m st Q failed.
Proof.
  intros Hub Hok Hq. unfold wp. destruct (m st) as [st' [a|e|]] eqn:Hm; [by apply Hq| |by eapply Hub].
  intros Hworks. destruct (Hok Hworks) as (? & ? & ?). done.
Qed.

Lemma Format_get_plain f fmt : Format_get f = Ok fmt → mem_char kSep f = false.
Proof. unfold Format_get. intros Hf. by repeat case_bool_decide; simplify_eq. Qed.

Lemma wp_create_format_writer id g schema props st fields fmt :
  find_fields schema (columns g) = Ok fields → Format_get (format g) = Ok fmt →
  wp (create_format_writer base id g schema props) st
    (λ w st', written st' w = Some [] ∧ ¬ owned st (path_of w) ∧ owned st' (path_of w) ∧ evolves [] st st') failed.
Proof.
  intros Hfields Hfmt. unfold create_format_writer. rewrite Hfields, Hfmt.
  apply wp_bind, (wp_lift _ fields); [done|].
  eapply wp_seq; [apply (wp_call _ _ (λ _ st1, evolves [] st st1))|].
  { intros st'. apply get_defined. }
  { intros (Hg & _). apply Hg. }
  { intros st1 fs Hm. by eapply frame_none, get_frame. }
  intros fs st1 He1. apply (wp_seq _ _ _ (λ _ st2, evolves [] st st2)).
  { destruct (Fs_is_local fs); [|by apply wp_ret]. apply wp_call.
    - intros st'. apply mkdir_defined.
    - intros (_ & Hd & _). destruct (Hd fs (get_data_path base) st1) as [st' Hst']. by exists st', tt.
    - intros st2 r Hm. eapply evolves_trans; [exact He1|by eapply frame_none, mkdir_frame|set_solver]. }
  intros _ st2 He2. apply wp_bind, (wp_lift _ fmt); [done|]. apply wp_bind. unfold wp at 1.
  destruct (random_gen st2) as [st3 u] eqn:Hu. apply uuid_unique in Hu as (Ht & Hnew & Hused & Hw & Hf).
  assert (mem_char kSep (format g) = false) as Hplain by by eapply Format_get_plain.
  set (p := get_data_filepath_for u base id (format g)).
  assert (¬ owned st2 p) as Hno.
  { intros (u' & id' & fmt' & Hin & Ht' & Hp' & Heq). apply Hnew.
    apply data_path_inj in Heq; [|done..]. by subst. }
  apply wp_call.
  - intros st'. apply create_defined.
  - intros (_ & _ & Hc & _). apply Hc.
  - intros st4 w Hm. pose proof (create_frame _ _ _ _ _ _ _ _ _ Hm) as (Hw4 & Hf4 & Hu4).
    apply create_ok in Hm as (Hfresh & Hl & Hp). rewrite Hp. destruct He2 as (Hu2 & Hw2 & Hf2).
    split_and!; [done| | |].
    + intros Ho. apply Hno. by eapply owned_mono.
    + exists u, id, (format g). split_and!; [|done..]. rewrite Hu4, Hused. set_solver.
    + split; [rewrite Hu4, Hused; set_solver|]. split.
      * intros w' Hs Ho Hn. rewrite <- (Hw2 w' Hs Ho Hn), <- Hw. apply Hw4. intros [= <-].
        pose proof (Hw2 _ Hs Ho Hn) as He. rewrite <- Hw, Hfresh in He. rewrite <- He in Hs. by destruct Hs.
      * intros q Ho Hn. rewrite <- (Hf2 q Ho Hn), <- Hf. apply Hf4. intros <-. apply Hno.
        by eapply owned_mono.
Qed.

(** *** The invariant *)

Definition current_path s : list string :=
  match cgw_format_writer s with Some w => [path_of w] | None => [] end.
Definition cgw_paths s : list string := (cgf_path <$> cgw_written_files s) ++ current_path s.

(** The file of an entry holds these rows, all of them in the range of the entry. *)
Definition holds st (f : ColumnGroupFile) (part : list row) : Prop :=
  file_rows st (cgf_path f) = Some part ∧ start_index f = 0 ∧ end_index f = Z.of_nat (length part).

(** What the writer was created with. *)
Definition cgw_setup s : Prop :=
  cgw_base_path s = base ∧ (∃ fields, find_fields (cgw_schema s) (columns (cgw_column_group s)) = Ok fields) ∧
  ∃ fmt, Format_get (format (cgw_column_group s)) = Ok fmt.

(** The closed files and then the open one hold [input]; [total] bounds the bytes
    written since the last file was closed. *)
Definition cgw_inv st s (input : list row) (total : Z) : Prop :=
  cgw_setup s ∧ NoDup (cgw_paths s) ∧ Forall (owned st) (cgw_paths s) ∧ Z.of_nat (length input) ≤ INT64_MAX ∧
  0 ≤ cgw_written_bytes s ≤ total ∧ total < UINT64_MOD ∧
  ∃ w cur parts, cgw_format_writer s = Some w ∧ written st w = Some cur ∧
    Forall2 (holds st) (cgw_written_files s) parts ∧ mjoin parts ++ cur = input ∧
    (cgw_written_bytes s = 0 → cur = []).

(** A call touches its own files and the ones it creates, which are new. *)
Definition cgw_step st s st' s' : Prop :=
  evolves (cgw_paths s) st st' ∧ (∀ p, p ∈ cgw_paths s' → p ∈ cgw_paths s ∨ ¬ owned st p) ∧
  cgw_setup s'.

Lemma holds_evolves mine st st' fs parts :
  evolves mine st st' → Forall (owned st) (cgf_path <$> fs) → (∀ f, f ∈ fs → cgf_path f ∉ mine) →
  Forall2 (holds st) fs parts → Forall2 (holds st') fs parts.
Proof.
  intros (_ & _ & Hf) Ho Hn Hh. rewrite Forall_fmap in Ho.
  induction Hh as [|f part fs parts Hh _ IH]; [constructor|]. apply Forall_cons in Ho as [Ho1 Ho].
  constructor; [|apply IH; [done|]; intros f' Hf'; apply Hn; by right]. destruct Hh as [Hh1 Hh2].
  split; [|done]. rewrite Hf; [done..|]. apply Hn. by left.
Qed.

Lemma cgw_inv_other mine st st' s input total :
  cgw_inv st s input total → evolves mine st st' → (∀ p, p ∈ cgw_paths s → p ∉ mine) →
  cgw_inv st' s input total.
Proof.
  intros (Hset & Hnd & Ho & Hlen & Hb & Ht & w & cur & parts & Hw & Hl & Hh & Hin & Hz) He Hn.
  pose proof He as (Hu & Hwr & _). split_and!; try (done || lia).
  { eapply Forall_impl; [exact Ho|]. intros p. by apply owned_mono. }
  exists w, cur, parts. unfold cgw_paths, current_path in *. rewrite Hw in *. split_and!; try done.
  - rewrite Hwr; [done|by rewrite Hl|..].
    + rewrite Forall_app in Ho. by destruct Ho as [_ ?%Forall_inv].
    + apply Hn, elem_of_app. right. by left.
  - apply Forall_app in Ho as [Ho _]. eapply holds_evolves; [done..| |done].
    intros f Hf. apply Hn, elem_of_app. left. apply list_elem_of_fmap. by exists f.
Qed.

(** The open writer has its path to itself. *)
Lemma own_path s w f :
  NoDup (cgw_paths s) → cgw_format_writer s = Some w → f ∈ cgw_written_files s → cgf_path f ∉ [path_of w].
Proof.
  unfold cgw_paths, current_path. intros Hnd Hw Hf. rewrite Hw in Hnd. apply NoDup_app in Hnd as (_ & Hd & _).
  apply Hd. apply list_elem_of_fmap. by exists f.
Qed.

(** A call on the open writer that leaves it open: what is to be shown of its
    rows. *)
Lemma cgw_inv_call st st' s w input total input' cur' total' bytes' :
  cgw_inv st s input total → cgw_format_writer s = Some w → frame (eq w) (eq (path_of w)) st st' →
  (∀ cur, written st w = Some cur → written st' w = Some (cur ++ cur') ∧ (bytes' = 0 → cur ++ cur' = [])) →
  input' = input ++ cur' → Z.of_nat (length input') ≤ INT64_MAX → 0 ≤ bytes' ≤ total' → total' < UINT64_MOD →
  cgw_inv st' (set_written_bytes bytes' s) input' total' ∧ cgw_step st s st' (set_written_bytes bytes' s).
Proof.
  intros (Hset & Hnd & Ho & Hlen & Hb & Ht & w' & cur & parts & Hw & Hl & Hh & Hin & Hz) Hw' Hfr Hcur -> Hlen' Hb' Ht'.
  rewrite Hw in Hw'. injection Hw' as ->. pose proof (frame_evolves _ _ _ Hfr) as He.
  pose proof He as (Hu & _). destruct (Hcur cur Hl) as [Hl' Hz'].
  split; [|split; [|split]].
  - split_and!; simpl; try (done || lia); [by eapply Forall_impl; [exact Ho|intros p; apply owned_mono]|].
    exists w, (cur ++ cur'), parts. split_and!; try done.
    + eapply holds_evolves; [exact He| | |done].
      * unfold cgw_paths in Ho. by apply Forall_app in Ho as [? _].
      * intros f Hf. by apply (own_path s).
    + by rewrite app_assoc, Hin.
  - eapply evolves_more; [exact He|]. intros p ->%list_elem_of_singleton. unfold cgw_paths, current_path.
    rewrite Hw. apply elem_of_app. right. by left.
  - intros p Hp. by left.
  - done.
Qed.

Lemma wp_cgw_Write b st s input total :
  cgw_inv st s input total → accepts b → Z.of_nat (length (input ++ rows b)) ≤ INT64_MAX →
  (rows b ≠ [] → 0 < GetRecordBatchMemorySize b) → 0 ≤ GetRecordBatchMemorySize b →
  total + GetRecordBatchMemorySize b < UINT64_MOD →
  wp (cgw_Write b) (st, s)
    (λ _ x, cgw_inv x.1 x.2 (input ++ rows b) (total + GetRecordBatchMemorySize b) ∧ cgw_step st s x.1 x.2) failed.
Proof.
  intros Hinv Ha Hlen Hpos Hmem Ht.
  pose proof Hinv as (_ & _ & _ & Hlen0 & Hb & _ & w & cur & parts & Hw & Hl & _ & Hin & Hz).
  apply wp_bind, wp_on_members. simpl. apply (wp_on_format_writer _ _ w); [done|]. simpl. apply wp_call.
  - intros st'. by eapply write_defined.
  - intros (_ & _ & _ & Hwr & _). destruct (Hwr w b st cur Ha Hl) as [st' Hst']. by exists st', tt.
  - intros st' [] Hm. rewrite wrap_u64_small by lia.
    eapply cgw_inv_call; [exact Hinv|exact Hw|by eapply write_frame| |done|done|lia|done].
    intros cur' Hl'. rewrite Hl in Hl'. injection Hl' as <-. split.
    + eapply write_ok; [done..|]. rewrite <- Hin in Hlen. rewrite !length_app in *. lia.
    + intros Hz0. assert (cgw_written_bytes s = 0) as Hs0 by lia. rewrite (Hz Hs0). simpl.
      destruct (rows b); [done|]. specialize (Hpos ltac:(done)). lia.
Qed.

(** Closing the open writer: its rows are in its file. *)
Lemma wp_close_current st s input total :
  cgw_inv st s input total →
  wp (on_format_writer FW_Close) (st, s)
    (λ f x, x.2 = s ∧ evolves (cgw_paths s) st x.1 ∧ ∃ w cur parts, cgw_format_writer s = Some w ∧
       Forall2 (holds x.1) (cgw_written_files s ++ [f]) (parts ++ [cur]) ∧ cgf_path f = path_of w ∧
       mjoin parts ++ cur = input ∧ (cgw_written_bytes s = 0 → cur = [])) failed.
Proof.
  intros (Hset & Hnd & Ho & Hlen & Hb & Ht & w & cur & parts & Hw & Hl & Hh & Hin & Hz).
  apply (wp_on_format_writer _ _ w); [done|]. simpl. apply wp_call.
  - intros st'. by eapply close_defined.
  - intros (_ & _ & _ & _ & _ & Hc). by eapply Hc.
  - intros st' f Hm. pose proof (frame_evolves _ _ _ (close_frame _ _ _ _ Hm)) as He.
    destruct (close_ok _ _ _ _ _ Hm Hl) as (Hr & Hp & Hs & Hend). split; [done|]. split.
    { eapply evolves_more; [exact He|]. intros p ->%list_elem_of_singleton. unfold cgw_paths, current_path.
      rewrite Hw. apply elem_of_app. right. by left. }
    exists w, cur, parts. split_and!; try done. apply Forall2_app.
    + eapply holds_evolves; [exact He| | |done].
      * unfold cgw_paths in Ho. by apply Forall_app in Ho as [? _].
      * intros g Hg. by apply (own_path s).
    + constructor; [|constructor]. split; [by rewrite Hp|done].
Qed.

(** The file that was full is closed and another writer is open. *)
Lemma rolled_over st st1 st2 st3 s f w3 w2 input total parts2 cur2 :
  cgw_inv st1 s input total → cgw_step st s st1 s → cgw_setup s → evolves (cgw_paths s) st1 st2 →
  cgw_format_writer s = Some w2 → Forall2 (holds st2) (cgw_written_files s ++ [f]) (parts2 ++ [cur2]) →
  cgf_path f = path_of w2 → mjoin parts2 ++ cur2 = input →
  written st3 w3 = Some [] → ¬ owned st2 (path_of w3) → owned st3 (path_of w3) → evolves [] st2 st3 →
  cgw_inv st3 (set_format_writer w3 (set_written_bytes 0 (add_written_file f s))) input total ∧
  cgw_step st s st3 (set_format_writer w3 (set_written_bytes 0 (add_written_file f s))).
Proof.
  intros (_ & Hnd & Ho1 & Hlen & Hb & Ht & _) (He1 & _) Hset He2 Hw2 Hh2 Hp2 Hin2 Hl3 Hno3 Ho3 He3.
  set (s' := set_format_writer w3 (set_written_bytes 0 (add_written_file f s))).
  assert (cgw_paths s' = cgw_paths s ++ [path_of w3]) as Hps.
  { unfold cgw_paths, current_path. rewrite Hw2. simpl. by rewrite fmap_app, <- Hp2. }
  pose proof He1 as (Hu1 & _). pose proof He2 as (Hu2 & _). pose proof He3 as (Hu3 & _).
  assert (Forall (owned st2) (cgw_paths s)) as Ho2.
  { eapply Forall_impl; [exact Ho1|]. intros p. by apply owned_mono. }
  assert (cgf_path <$> (cgw_written_files s ++ [f]) = cgw_paths s) as Hfs.
  { unfold cgw_paths, current_path. by rewrite Hw2, fmap_app, <- Hp2. }
  split; [|split; [|split]].
  - split_and!; simpl; try (done || lia).
    + rewrite Hps. apply NoDup_app. split_and!; [done| |apply NoDup_singleton].
      intros p Hp ->%list_elem_of_singleton. apply Hno3. by eapply Forall_forall in Ho2.
    + rewrite Hps. apply Forall_app. split; [|by apply Forall_singleton].
      eapply Forall_impl; [exact Ho2|]. intros p. by apply owned_mono.
    + exists w3, [], (parts2 ++ [cur2]). split_and!; try done.
      * eapply holds_evolves; [exact He3|by rewrite Hfs|set_solver|done].
      * rewrite join_app. simpl. by rewrite !app_nil_r.
  - eapply evolves_trans; [eapply evolves_trans; [exact He1|exact He2|by left]|exact He3|set_solver].
  - rewrite Hps. intros p Hp. apply elem_of_app in Hp as [Hp|Hp]; [by left|right]. apply list_elem_of_singleton in Hp as ->.
    intros Ho. apply Hno3. eapply owned_mono; [|exact Ho]. set_solver.
  - done.
Qed.

Lemma wp_cgw_Flush st s input total :
  cgw_inv st s input total →
  wp cgw_Flush (st, s) (λ _ x, cgw_inv x.1 x.2 input total ∧ cgw_step st s x.1 x.2) failed.
Proof.
  intros Hinv. pose proof Hinv as (Hset & _ & _ & Hlen & Hb & Ht & w & cur & parts & Hw & Hl & _ & _ & Hz).
  unfold cgw_Flush.
  apply (wp_seq _ _ _ (λ _ x, x.2 = s ∧ cgw_inv x.1 s input total ∧ cgw_step st s x.1 s)).
  { apply (wp_on_format_writer _ _ w); [done|]. simpl. apply wp_call.
    - intros st'. by eapply flush_defined.
    - intros (_ & _ & _ & _ & Hf & _). destruct (Hf w st cur Hl) as [st' Hst']. by exists st', tt.
    - intros st' [] Hm. split; [done|].
      destruct (cgw_inv_call st st' s w input total input [] total (cgw_written_bytes s) Hinv Hw) as [H1 H2];
        [by eapply flush_frame| |by rewrite app_nil_r|done..|by destruct s].
      intros cur' Hl'. rewrite app_nil_r. rewrite Hl in Hl'. injection Hl' as <-. split; [by eapply flush_ok|done]. }
  intros _ [st1 s1] (Hs1 & Hinv1 & Hstep1). simpl in *. subst s1. apply wp_bind, wp_get. simpl.
  destruct (_ || _) eqn:Hroll; [by apply wp_ret|].
  eapply wp_seq; [by eapply wp_close_current|].
  intros f [st2 s2] (Hs2 & He2 & w2 & cur2 & parts2 & Hw2 & Hh2 & Hp2 & Hin2 & _). simpl in *. subst s2.
  apply wp_bind, wp_on_members. simpl. apply wp_bind, wp_on_members. simpl. apply wp_bind, wp_get. simpl.
  destruct Hset as (Hbase & (fields & Hfields) & (fmt & Hfmt)). rewrite Hbase.
  apply wp_bind, wp_store_call. simpl. eapply wp_mono; [by eapply wp_create_format_writer| |intros e x Hf; exact Hf].
  intros w3 st3 (Hl3 & Hno3 & Ho3 & He3). apply wp_on_members. simpl.
  apply (rolled_over st st1 st2 st3 s f w3 w2 input total parts2 cur2); try done.
  by split_and!; eauto.
Qed.

Lemma wp_cgw_Close st s input total :
  cgw_inv st s input total →
  wp cgw_Close (st, s)
    (λ fs x, (∃ parts, Forall2 (holds x.1) fs parts ∧ mjoin parts = input) ∧ fs = cgw_written_files x.2 ∧
       evolves (cgw_paths s) st x.1 ∧ Forall (owned x.1) (cgf_path <$> fs) ∧ (cgf_path <$> fs) ⊆ cgw_paths s) failed.
Proof.
  intros Hinv. pose proof Hinv as (Hset & Hnd & Ho & _). unfold cgw_Close.
  eapply wp_seq; [by eapply wp_close_current|].
  intros f [st1 s1] (Hs1 & He & w & cur & parts & Hw & Hh & Hp & Hin & Hz). simpl in *. subst s1.
  pose proof He as (Hu & _). assert (Forall (owned st1) (cgw_paths s)) as Ho1.
  { eapply Forall_impl; [exact Ho|]. intros p. by apply owned_mono. }
  unfold cgw_paths, current_path in *. rewrite Hw in *.
  apply wp_bind, wp_get. simpl. destruct (Z.eqb_spec (cgw_written_bytes s) 0) as [Hz0|Hn0]; simpl.
  - apply wp_bind, wp_ret, wp_bind, wp_get, wp_ret. simpl. rewrite (Hz Hz0), app_nil_r in Hin.
    apply Forall2_app_inv in Hh as [Hh _]; [|apply Forall2_length in Hh; rewrite !length_app in Hh; simpl in Hh; lia].
    apply Forall_app in Ho1 as [Ho1 _]. split_and!; try done; [by exists parts|]. intros p Hp'. apply elem_of_app. by left.
  - apply wp_bind, wp_on_members, wp_bind, wp_get, wp_ret. simpl. split_and!; try done.
    + exists (parts ++ [cur]). split; [done|]. rewrite join_app. simpl. by rewrite app_nil_r.
    + rewrite fmap_app. simpl. by rewrite Hp.
    + rewrite fmap_app. simpl. by rewrite Hp.
Qed.

Lemma wp_cgw_create (trim_copy : string → string) id g schema props st fields fmt limit :
  find_fields schema (columns g) = Ok fields → Format_get (format g) = Ok fmt →
  GetValue (T := uint64_t) trim_copy props PROPERTY_WRITER_FILE_ROLLING_SIZE = Ok limit →
  wp (cgw_create trim_copy base id g schema props) st
    (λ s st', cgw_inv st' s [] 0 ∧ evolves [] st st' ∧ (∀ p, p ∈ cgw_paths s → ¬ owned st p)) failed.
Proof.
  intros Hfields Hfmt Hlim.
  assert (wp (cgw_Open trim_copy) (st, mkCGW base id g schema props None 0 0 [])
    (λ _ x, cgw_inv x.1 x.2 [] 0 ∧ evolves [] st x.1 ∧ (∀ p, p ∈ cgw_paths x.2 → ¬ owned st p)) failed) as Hopen.
  { unfold cgw_Open. apply wp_bind, wp_get. simpl. apply wp_bind, wp_store_call. simpl.
    eapply wp_mono; [by eapply wp_create_format_writer| |intros e x Hf; exact Hf]. intros w st' (Hl & Hno & Ho & He).
    apply wp_bind, wp_on_members. simpl. apply wp_bind, (wp_lift _ limit); [done|]. apply wp_on_members. simpl.
    split_and!; [|done|by intros p ->%list_elem_of_singleton].
    split_and!; simpl; try done; [by split_and!; eauto|apply NoDup_singleton|by apply Forall_singleton|].
    by exists w, [], []. }
  unfold wp, cgw_create in *. by destruct (cgw_Open _ _) as [[st' s] [[]|e|]].
Qed.
End correct.
