(* ===== verification/Writer.v ===== *)
(** * The top-level writer

    [writer.cpp], [WriterImpl]: the first batch makes the column groups and one
    column group writer for each; every batch is split by column group and
    written, after flushing groups until there is room for it; closing closes the
    writers and returns the groups with their files.

    The groups are shared objects ([shared_ptr]): they live in [wr_objects], and
    [column_groups_] and [cgs_] are lists of references to them. *)

From S2P Require Import Prelude CppString Status Config Paths ColumnGroups Properties ArrowData PackedMetadata ParquetWriter PackedWriter ColumnGroupPolicy ColumnGroupWriter.

(** [arrow::RecordBatch::column] and [RecordBatch::Make]. *)
Class BatchMake `{KeyValueMetadata} `{RecordBatches} := {
  Array : Type;
  batch_arrays : RecordBatch → list Array;
  Batch_Make : list Field → Z → list Array → RecordBatch;
}.

(** [std::priority_queue<std::pair<size_t, size_t>>]: pairs compare by the first
    component, then the second. *)
Definition pair_key (e : Z * Z) : Z := e.1 * UINT64_MOD + e.2.

Section writer.
Context `{KVM : KeyValueMetadata} `{RB : RecordBatches} `{BM : !BatchMake} `{FWS : !FormatWriters}.
Context (regex_match : string → string → option bool) (trim_copy : string → string).

Record Writer := mkWriter {
  wr_closed : bool;
  wr_initialized : bool;
  wr_base_path : string;
  wr_schema : Schema;
  wr_policy : ColumnGroupPolicy;
  wr_properties : Properties;
  wr_objects : list ColumnGroup;          (* the column groups made so far *)
  wr_cgs : list nat;                      (* cgs_ *)
  wr_column_groups : list nat;            (* column_groups_ *)
  wr_writers : list ColumnGroupWriter;    (* column_group_writers_ *)
  wr_memory : Z;                          (* current_memory_usage_ *)
  wr_buffer_size : Z;
  wr_heap : list (Z * Z);                 (* memory_heap_ *)
}.

Definition WR (A : Type) : Type := M (Store * Writer) Status A.

Definition set_wr_closed (w : Writer) : Writer :=
  mkWriter true (wr_initialized w) (wr_base_path w) (wr_schema w) (wr_policy w) (wr_properties w) (wr_objects w)
    (wr_cgs w) (wr_column_groups w) (wr_writers w) (wr_memory w) (wr_buffer_size w) (wr_heap w).
Definition set_wr_initialized (w : Writer) : Writer :=
  mkWriter (wr_closed w) true (wr_base_path w) (wr_schema w) (wr_policy w) (wr_properties w) (wr_objects w)
    (wr_cgs w) (wr_column_groups w) (wr_writers w) (wr_memory w) (wr_buffer_size w) (wr_heap w).
Definition set_wr_policy (p : ColumnGroupPolicy) (w : Writer) : Writer :=
  mkWriter (wr_closed w) (wr_initialized w) (wr_base_path w) (wr_schema w) p (wr_properties w) (wr_objects w)
    (wr_cgs w) (wr_column_groups w) (wr_writers w) (wr_memory w) (wr_buffer_size w) (wr_heap w).
Definition set_wr_objects (objects : list ColumnGroup) (w : Writer) : Writer :=
  mkWriter (wr_closed w) (wr_initialized w) (wr_base_path w) (wr_schema w) (wr_policy w) (wr_properties w) objects
    (wr_cgs w) (wr_column_groups w) (wr_writers w) (wr_memory w) (wr_buffer_size w) (wr_heap w).
Definition set_wr_cgs (cgs : list nat) (w : Writer) : Writer :=
  mkWriter (wr_closed w) (wr_initialized w) (wr_base_path w) (wr_schema w) (wr_policy w) (wr_properties w)
    (wr_objects w) cgs (wr_column_groups w) (wr_writers w) (wr_memory w) (wr_buffer_size w) (wr_heap w).
Definition set_wr_groups (groups : list nat) (w : Writer) : Writer :=
  mkWriter (wr_closed w) (wr_initialized w) (wr_base_path w) (wr_schema w) (wr_policy w) (wr_properties w)
    (wr_objects w) (wr_cgs w) groups (wr_writers w) (wr_memory w) (wr_buffer_size w) (wr_heap w).
Definition set_wr_writers (writers : list ColumnGroupWriter) (w : Writer) : Writer :=
  mkWriter (wr_closed w) (wr_initialized w) (wr_base_path w) (wr_schema w) (wr_policy w) (wr_properties w)
    (wr_objects w) (wr_cgs w) (wr_column_groups w) writers (wr_memory w) (wr_buffer_size w) (wr_heap w).
Definition set_wr_heap (memory : Z) (heap : list (Z * Z)) (w : Writer) : Writer :=
  mkWriter (wr_closed w) (wr_initialized w) (wr_base_path w) (wr_schema w) (wr_policy w) (wr_properties w)
    (wr_objects w) (wr_cgs w) (wr_column_groups w) (wr_writers w) memory (wr_buffer_size w) heap.

(** [Writer::create]; the buffer size is an [int32_t] that becomes a [size_t]. *)
Definition Writer_create (base_path : string) (schema : Schema) (policy : ColumnGroupPolicy)
    (properties : Properties) : outcome unit Writer :=
  buffer_size ← GetValueNoError (T := int32_t) trim_copy properties PROPERTY_WRITER_BUFFER_SIZE;
  Ok (mkWriter false false base_path schema policy properties [] [] [] [] 0 (wrap_u64 (i32 buffer_size)) []).

(** A call on [column_group_writers_[i]]; an index out of range is undefined. *)
Definition on_group_writer {A} (i : nat) (m : CGW A) : WR A := λ s,
  match wr_writers s.2 !! i with
  | None => (s, Ub)
  | Some cgw =>
      let '((st, cgw'), r) := m (s.1, cgw) in
      ((st, set_wr_writers (<[i := cgw']> (wr_writers s.2)) s.2), r)
  end.

(** The object that [column_groups_[i]] refers to. *)
Definition group_ref (w : Writer) (i : nat) : outcome Status ColumnGroup :=
  a ← deref (wr_column_groups w !! i); deref (wr_objects w !! a).

(** ** Initialisation *)

(** The loop that creates the writers, for the groups from position [i] on. *)
Fixpoint create_writers (groups : list nat) (i : nat) : WR unit :=
  match groups with
  | [] => mret tt
  | a :: groups' =>
      s ← get_st;
      column_group ← lift (deref (wr_objects s.2 !! a));
      column_group_schema ← lift (find_fields (wr_schema s.2) (columns column_group));
      writer ← on_store (cgw_create trim_copy (wr_base_path s.2) (Z.of_nat i) column_group column_group_schema
                           (wr_properties s.2));
      on_members (λ w, set_wr_writers (wr_writers w ++ [writer]) w);;
      create_writers groups' (S i)
  end.

(** The new groups are fresh objects; the assertion at the end compares the
    numbers of writers and of groups. *)
Definition initialize_column_group_writers (batch : RecordBatch) : WR unit :=
  s ← get_st;
  (if requires_sample (wr_policy s.2) then
     p ← lift (sample (Some batch) (wr_policy s.2)); on_members (set_wr_policy p)
   else mret tt);;
  s ← get_st;
  groups ← lift (get_column_groups regex_match (wr_policy s.2));
  let refs := seq (length (wr_objects s.2)) (length groups) in
  on_members (λ w, set_wr_groups refs (set_wr_objects (wr_objects w ++ groups) w));;
  if bool_decide (groups = []) then fail status_Invalid
  else
    create_writers refs 0;;
    s ← get_st;
    if bool_decide (length (wr_writers s.2) = length (wr_column_groups s.2)) then mret tt else undefined.

(** ** Writing *)

(** [top], [pop], and the subtraction from the memory counter. *)
Definition pop_group : WR (option (Z * Z)) := λ s,
  match pop_first pair_key (wr_heap s.2) with
  | None => (s, Ok None)
  | Some (e, heap) => ((s.1, set_wr_heap (wrap_u64 (wr_memory s.2 - e.2)) heap s.2), Ok (Some e))
  end.

(** The loop that makes room; an iteration removes an entry of the heap, so its
    length is enough fuel. *)
Fixpoint make_room (fuel : nat) (next_batch_size : Z) : WR unit :=
  s ← get_st;
  if (wr_buffer_size s.2 <=? wrap_u64 (wr_memory s.2 + next_batch_size)) && negb (bool_decide (wr_heap s.2 = [])) then
    match fuel with
    | O => undefined
    | S fuel' =>
        e ← pop_group;
        match e with
        | Some max_group =>
            on_group_writer (Z.to_nat max_group.1) cgw_Flush;;
            make_room fuel' next_batch_size
        | None => undefined
        end
    end
  else mret tt.

(** The arrays and fields of the columns of a group that the batch has. *)
Fixpoint pick_columns (schema : Schema) (batch : RecordBatch) (cols : list string) :
    outcome Status (list (Array * Field)) :=
  match cols with
  | [] => Ok []
  | column_name :: cols' =>
      let field_index := Schema_GetFieldIndex schema column_name in
      if (0 <=? field_index) && (field_index <? num_columns batch) then
        a ← deref (batch_arrays batch !! Z.to_nat field_index);
        f ← deref (schema !! Z.to_nat field_index);
        rest ← pick_columns schema batch cols';
        Ok ((a, f) :: rest)
      else pick_columns schema batch cols'
  end.

(** The body of the loop over the column groups. *)
Definition write_group (batch : RecordBatch) (i : nat) : WR unit :=
  s ← get_st;
  column_group ← lift (group_ref s.2 i);
  picked ← lift (pick_columns (wr_schema s.2) batch (columns column_group));
  match picked with
  | [] => mret tt
  | _ =>
      let group_batch := Batch_Make picked.*2 (num_rows batch) picked.*1 in
      let group_memory := GetRecordBatchMemorySize group_batch in
      on_members (λ w, set_wr_heap (wrap_u64 (wr_memory w + group_memory))
                         (wr_heap w ++ [(Z.of_nat i, group_memory)]) w);;
      if bool_decide (length (wr_writers s.2) ≤ i)%nat then fail status_Invalid
      else on_group_writer i (cgw_Write group_batch)
  end.

(** One entry for each group, with the sum of its entries. *)
Definition balanceMemoryHeap : WR unit :=
  on_members (λ w, set_wr_heap (wr_memory w) (map_to_list (foldl merge_entry ∅ (wr_heap w))) w).

Definition distribute_batch (batch : RecordBatch) : WR unit :=
  s ← get_st;
  if bool_decide (wr_column_groups s.2 = []) then fail status_Invalid
  else
    make_room (length (wr_heap s.2)) (GetRecordBatchMemorySize batch);;
    for_each (write_group batch) (seq 0 (length (wr_column_groups s.2)));;
    balanceMemoryHeap.

Definition W_write (batch : option RecordBatch) : WR unit :=
  s ← get_st;
  if wr_closed s.2 then fail status_Invalid
  else
    match batch with
    | None => mret tt
    | Some b =>
        (if wr_initialized s.2 then mret tt
         else initialize_column_group_writers b;; on_members set_wr_initialized);;
        distribute_batch b
    end.

Definition W_flush : WR unit :=
  s ← get_st;
  if wr_closed s.2 then fail status_Invalid
  else
    for_each (λ i, on_group_writer i cgw_Flush) (seq 0 (length (wr_writers s.2)));;
    on_members (set_wr_heap 0 []).

(** ** Closing *)

(** The body of the loop over the writers: the files of the group are replaced,
    and the group is added to [cgs_]. *)
Definition close_writer (i : nat) : WR unit :=
  column_group_files ← on_group_writer i cgw_Close;
  s ← get_st;
  a ← lift (deref (wr_column_groups s.2 !! i));
  g ← lift (deref (wr_objects s.2 !! a));
  on_members (λ w, set_wr_cgs (wr_cgs w ++ [a])
                     (set_wr_objects (<[a := mkGroup (columns g) (format g) column_group_files]> (wr_objects w)) w)).

Definition cgs_value (w : Writer) : outcome Status (list ColumnGroup) :=
  deref (mapM (λ a, wr_objects w !! a) (wr_cgs w)).

(** [config_keys] and [config_values] are only compared in number. *)
Definition W_close (config_keys config_values : list string) : WR (list ColumnGroup) :=
  s ← get_st;
  if wr_closed s.2 then fail status_Invalid
  else if negb (bool_decide (length config_keys = length config_values)) then undefined
  else if bool_decide (length (wr_column_groups s.2) < length (wr_writers s.2))%nat then fail status_Invalid
  else
    for_each close_writer (seq 0 (length (wr_writers s.2)));;
    on_members set_wr_closed;;
    (if bool_decide (length (wr_writers s.2) < length (wr_column_groups s.2))%nat
     then on_members (set_wr_cgs []) else mret tt);;
    s ← get_st;
    lift (cgs_value s.2).
End writer.
