(* ===== verification/WriterCorrect.v ===== *)
(** * Correctness of the top-level writer

    Every row of every batch ends up, projected to the columns of a group, in the
    files that the group lists: after any sequence of writes and flushes, closing
    returns the groups of the policy, and the files of each, one after the other,
    hold its columns of all rows in order. *)

From S2P Require Import Prelude CppString Status Config Paths ColumnGroups Properties ArrowData PackedMetadata ParquetWriter PackedWriter ColumnGroupPolicy ColumnGroupWriter ColumnGroupWriterCorrect Writer.

(** What the writer relies on of [arrow::RecordBatch]. *)
Class BatchMakeLaws `{KVM : KeyValueMetadata} `{BL : BatchLaws} `{BM : !BatchMake} := {
  arrays_length b : length (batch_arrays b) = length (batch_columns b);
  make_rows b fields idx arrs :
    Forall2 (λ i a, 0 ≤ i ∧ batch_arrays b !! Z.to_nat i = Some a) idx arrs → arrs ≠ [] →
    rows (Batch_Make fields (num_rows b) arrs) = project idx <$> rows b;
}.

(** ** Fields of a schema *)

Section fields.
Context `{KeyValueMetadata}.
Implicit Types (schema : Schema).

Lemma field_positions_absent schema name k :
  name ∉ names schema →
  (imap (λ i f, (k + i, f)%nat) schema ≫= λ e : nat * Field, if bool_decide (fd_name e.2 = name) then [e.1] else []) = [].
Proof.
  revert k. induction schema as [|f schema IH]; intros k Hn; [done|]. unfold names in *. rewrite fmap_cons in Hn.
  apply not_elem_of_cons in Hn as [Hne Hn]. cbn [imap mbind list_bind].
  rewrite bool_decide_false by (simpl; congruence). simpl.
  etransitivity; [|apply (IH (S k) Hn)]. f_equal. apply imap_ext. intros i x _. simpl. f_equal. lia.
Qed.

Lemma field_positions_unique schema name :
  NoDup (names schema) → name ∈ names schema →
  ∃ i f, field_positions schema name = [i] ∧ schema !! i = Some f ∧ fd_name f = name.
Proof.
  unfold field_positions. intros Hnd Hin.
  enough (∀ k, ∃ i f, (imap (λ i f, (k + i, f)%nat) schema ≫= λ e : nat * Field,
    if bool_decide (fd_name e.2 = name) then [e.1] else []) = [(k + i)%nat] ∧
    schema !! i = Some f ∧ fd_name f = name) as Hk by exact (Hk 0%nat).
  induction schema as [|f schema IH]; intros k; [by apply not_elem_of_nil in Hin|].
  unfold names in *. rewrite fmap_cons in *. apply NoDup_cons in Hnd as [Hf Hnd]. cbn [imap mbind list_bind].
  assert (imap ((λ i x, ((k + i)%nat, x)) ∘ S) schema = imap (λ i x, ((S k + i)%nat, x)) schema) as Hshift.
  { apply imap_ext. intros i x _. simpl. f_equal. lia. }
  destruct (decide (fd_name f = name)) as [<-|Hne].
  - exists 0%nat, f. split_and!; [|done|done]. rewrite bool_decide_true by done. simpl. f_equal.
    pose proof (field_positions_absent schema (fd_name f) (S k) Hf) as Ha. rewrite <- Hshift in Ha. exact Ha.
  - apply elem_of_cons in Hin as [->|Hin]; [done|]. destruct (IH Hnd Hin (S k)) as (i & g & Hp & Hg & Hn).
    exists (S i), g. split_and!; [|done|done]. rewrite bool_decide_false by done. simpl.
    rewrite <- Hshift in Hp. etransitivity; [exact Hp|]. f_equal. lia.
Qed.

Lemma field_found schema name :
  NoDup (names schema) → name ∈ names schema →
  ∃ i f, Schema_GetFieldIndex schema name = Z.of_nat i ∧ Schema_GetFieldByName schema name = Some f ∧
    schema !! i = Some f ∧ fd_name f = name.
Proof.
  intros Hnd Hin. destruct (field_positions_unique schema name Hnd Hin) as (i & f & Hp & Hf & Hn).
  exists i, f. unfold Schema_GetFieldIndex, Schema_GetFieldByName. by rewrite Hp.
Qed.

Lemma find_fields_ok schema cols :
  NoDup (names schema) → cols ⊆ names schema → ∃ fields, find_fields schema cols = Ok fields ∧ names fields = cols.
Proof.
  intros Hnd. induction cols as [|c cols IH]; intros Hsub; cbn [find_fields]; [by exists []|].
  destruct (field_found schema c Hnd) as (i & f & _ & -> & _ & Hn); [apply Hsub; by left|].
  destruct IH as (fields & -> & Hns); [intros x Hx; apply Hsub; by right|]. rewrite bind_Ok.
  exists (f :: fields). split; [done|]. unfold names in *. rewrite fmap_cons. by f_equal.
Qed.
End fields.

(** ** The groups and their rows *)

Section correct.
Context `{FWL : FormatWriterLaws} `{BM : !BatchMake} `{BML : !BatchMakeLaws}.
Context (regex_match : string → string → option bool) (trim_copy : string → string).
(** The base path, the schema, and the groups that the policy makes. *)
Context (base : string) (schema : Schema) (gs : list ColumnGroup).

Implicit Types (st : Store) (wr : Writer) (b : RecordBatch) (g : ColumnGroup).

Definition group_ok g : Prop :=
  NoDup (columns g) ∧ columns g ⊆ names schema ∧ ∃ fmt, Format_get (format g) = Ok fmt.

Hypothesis Hnames : NoDup (names schema).
Hypothesis Hgroups : Forall group_ok gs.

(** The part of a batch that belongs to a group. *)
Definition group_batch b g : RecordBatch :=
  match pick_columns schema b (columns g) with
  | Ok picked => Batch_Make picked.*2 (num_rows b) picked.*1
  | _ => b
  end.

Definition group_bytes g b : Z := if bool_decide (columns g = []) then 0 else GetRecordBatchMemorySize (group_batch b g).

(** The rows and bytes of a group in a list of batches. *)
Definition group_rows g (bs : list RecordBatch) : list row :=
  if bool_decide (columns g = []) then []
  else project (Schema_GetFieldIndex schema <$> columns g) <$> mjoin (rows <$> bs).
Definition total_bytes g (bs : list RecordBatch) : Z := sum_Z (group_bytes g <$> bs).

(** A batch with all columns, whose parts the formats accept and whose rows take
    at least a byte in each group. *)
Definition batch_ok b : Prop :=
  num_columns b = Z.of_nat (length schema) ∧
  Forall (λ g, columns g ≠ [] → accepts (group_batch b g) ∧ (rows b ≠ [] → 0 < GetRecordBatchMemorySize (group_batch b g))) gs.

(** No counter overflows. *)
Definition within (bs : list RecordBatch) : Prop :=
  Forall (λ g, total_bytes g bs < UINT64_MOD) gs ∧ Z.of_nat (length (mjoin (rows <$> bs))) ≤ INT64_MAX.

Lemma group_bytes_nonneg g b : 0 ≤ group_bytes g b.
Proof. unfold group_bytes. case_bool_decide; [done|]. apply columns_memory_range. Qed.

Lemma total_bytes_app g bs bs' : total_bytes g (bs ++ bs') = total_bytes g bs + total_bytes g bs'.
Proof. unfold total_bytes. by rewrite fmap_app, sum_Z_app. Qed.

Lemma total_bytes_nonneg g bs : 0 ≤ total_bytes g bs.
Proof.
  induction bs as [|b bs IH]; [done|]. change (b :: bs) with ([b] ++ bs). rewrite total_bytes_app.
  unfold total_bytes at 1. simpl. unfold sum_Z; simpl. pose proof (group_bytes_nonneg g b). lia.
Qed.

Lemma within_prefix bs bs' : within (bs ++ bs') → within bs.
Proof.
  intros [Hb Hr]. split.
  - eapply Forall_impl; [exact Hb|]. intros g Hg. simpl in *. rewrite total_bytes_app in Hg.
    pose proof (total_bytes_nonneg g bs'). lia.
  - rewrite fmap_app, join_app, length_app in Hr. lia.
Qed.

Lemma group_rows_app g bs bs' : group_rows g (bs ++ bs') = group_rows g bs ++ group_rows g bs'.
Proof. unfold group_rows. case_bool_decide; [done|]. by rewrite fmap_app, join_app, fmap_app. Qed.

Lemma group_rows_length g bs : (length (group_rows g bs) ≤ length (mjoin (rows <$> bs)))%nat.
Proof. unfold group_rows. case_bool_decide; simpl; [lia|]. by rewrite length_fmap. Qed.

(** *** Splitting a batch *)

Lemma pick_columns_ok b cols :
  num_columns b = Z.of_nat (length schema) → cols ⊆ names schema →
  ∃ picked, pick_columns schema b cols = Ok picked ∧ length picked = length cols ∧
    Forall2 (λ i a, 0 ≤ i ∧ batch_arrays b !! Z.to_nat i = Some a) (Schema_GetFieldIndex schema <$> cols) picked.*1.
Proof.
  intros Hnc. induction cols as [|c cols IH]; intros Hsub; cbn [pick_columns]; [by exists []|].
  destruct (field_found schema c Hnames) as (i & f & Hi & _ & Hf & _); [apply Hsub; by left|].
  destruct IH as (picked & Hp & Hlen & Hall); [intros x Hx; apply Hsub; by right|].
  pose proof (lookup_lt_Some _ _ _ Hf) as Hlt.
  destruct (lookup_lt_is_Some_2 (batch_arrays b) i) as [a Ha].
  { rewrite arrays_length. unfold num_columns in Hnc. lia. }
  rewrite Hi, Hnc, Nat2Z.id, Ha, Hf, Hp.
  assert ((0 <=? Z.of_nat i) && (Z.of_nat i <? Z.of_nat (length schema)) = true) as -> by lia.
  exists ((a, f) :: picked). split_and!; [done|simpl; lia|]. rewrite !fmap_cons. constructor; [|done].
  split; [lia|]. by rewrite Hi, Nat2Z.id.
Qed.

Lemma group_batch_spec b g :
  group_ok g → num_columns b = Z.of_nat (length schema) → columns g ≠ [] →
  ∃ p picked, pick_columns schema b (columns g) = Ok (p :: picked) ∧
    group_batch b g = Batch_Make (p :: picked).*2 (num_rows b) (p :: picked).*1 ∧
    rows (group_batch b g) = group_rows g [b].
Proof.
  intros (_ & Hsub & _) Hnc Hne. destruct (pick_columns_ok b (columns g) Hnc Hsub) as (picked & Hp & Hlen & Hall).
  destruct picked as [|p picked]; [by destruct (columns g)|]. exists p, picked. unfold group_batch. rewrite Hp.
  split_and!; [done..|]. rewrite (make_rows _ _ _ _ Hall) by done. unfold group_rows.
  rewrite bool_decide_false by done. simpl. by rewrite app_nil_r.
Qed.

Lemma pick_none b g : columns g = [] → pick_columns schema b (columns g) = Ok [].
Proof. by intros ->. Qed.

(** ** The invariant *)

Definition all_disjoint (ws : list ColumnGroupWriter) : Prop :=
  ∀ i j s t p, i ≠ j → ws !! i = Some s → ws !! j = Some t → p ∈ cgw_paths s → p ∉ cgw_paths t.

(** The first [k] groups have writers, and the writer of group [i] has been given
    the batches [B i]. *)
Definition wr_inv (k : nat) st wr (B : nat → list RecordBatch) : Prop :=
  wr_closed wr = false ∧ wr_base_path wr = base ∧ wr_schema wr = schema ∧
  wr_objects wr = gs ∧ wr_column_groups wr = seq 0 (length gs) ∧ wr_cgs wr = [] ∧
  length (wr_writers wr) = k ∧ (k ≤ length gs)%nat ∧
  (∀ i s g, wr_writers wr !! i = Some s → gs !! i = Some g →
     cgw_inv base st s (group_rows g (B i)) (total_bytes g (B i))) ∧
  all_disjoint (wr_writers wr) ∧
  Forall (λ e, 0 ≤ e.1 < Z.of_nat k) (wr_heap wr) ∧ wr_memory wr = wrap_u64 (heap_sum (wr_heap wr)).

Lemma wr_inv_ext k st wr B B' : (∀ i, B i = B' i) → wr_inv k st wr B → wr_inv k st wr B'.
Proof.
  intros He (H1 & H2 & H3 & H4 & H5 & H6 & H7 & H8 & H9 & H10). split_and!; try done; try lia; try apply H10.
  intros i s g Hs Hg. rewrite <- He. by apply H9.
Qed.

(** A call on one of the writers. *)
Lemma wp_on_group_writer {A} (m : CGW A) k st wr B i s g bs (P : A → Prop) :
  wr_inv k st wr B → wr_writers wr !! i = Some s → gs !! i = Some g →
  wp m (st, s) (λ a x, (cgw_inv base x.1 x.2 (group_rows g bs) (total_bytes g bs) ∧
                        cgw_step base st s x.1 x.2) ∧ P a) failed →
  wp (on_group_writer i m) (st, wr)
    (λ a x, P a ∧ (∃ ws, x.2 = set_wr_writers ws wr) ∧
       wr_inv k x.1 x.2 (λ j, if decide (j = i) then bs else B j)) failed.
Proof.
  intros (H1 & H2 & H3 & H4 & H5 & H6 & H7 & H8 & Hws & Hdis & H10 & H11) Hs Hg Hm.
  unfold wp, on_group_writer in *. simpl. rewrite Hs.
  destruct (m (st, s)) as [[st' s'] [a|e|]]; simpl in *; [|done..].
  destruct Hm as ((Hinv & Hev & Hnew & _) & HP). split; [done|]. split; [by eexists|].
  assert (∀ j t, j ≠ i → wr_writers wr !! j = Some t → ∀ p, p ∈ cgw_paths t → p ∉ cgw_paths s ∧ p ∉ cgw_paths s') as Hother.
  { intros j t Hj Ht p Hp. split; [by eapply (Hdis j i)|]. intros Hp'. destruct (Hnew p Hp') as [Hin|Hno].
    - by eapply (Hdis j i).
    - destruct (lookup_lt_is_Some_2 gs j) as [gj Hgj]; [apply lookup_lt_Some in Ht; lia|].
      destruct (Hws j t gj Ht Hgj) as (_ & _ & Ho & _). apply Hno. by eapply Forall_forall in Ho. }
  pose proof (lookup_lt_Some _ _ _ Hs) as Hlt.
  split_and!; simpl; try done; [by rewrite length_insert| |].
  - intros j t gj Ht Hgj. destruct (decide (j = i)) as [->|Hj].
    + rewrite list_lookup_insert_eq in Ht by done. by simplify_eq.
    + rewrite list_lookup_insert_ne in Ht by done. eapply cgw_inv_other; [exact (Hws j t gj Ht Hgj)|exact Hev|].
      intros p Hp. by apply (Hother j t).
  - intros j1 j2 t1 t2 p Hj Ht1 Ht2 Hp.
    destruct (decide (j1 = i)) as [->|Hj1]; [|destruct (decide (j2 = i)) as [->|Hj2]].
    + rewrite list_lookup_insert_eq in Ht1 by done. rewrite list_lookup_insert_ne in Ht2 by done. simplify_eq.
      intros Hp2. by eapply (Hother j2 t2).
    + rewrite list_lookup_insert_eq in Ht2 by done. rewrite list_lookup_insert_ne in Ht1 by done. simplify_eq.
      by eapply (Hother j1 t1).
    + rewrite list_lookup_insert_ne in Ht1, Ht2 by done. by eapply (Hdis j1 j2).
Qed.

Lemma writer_at k st wr B i :
  wr_inv k st wr B → (i < k)%nat → ∃ s g, wr_writers wr !! i = Some s ∧ gs !! i = Some g ∧ group_ok g ∧
    cgw_inv base st s (group_rows g (B i)) (total_bytes g (B i)).
Proof.
  intros (_ & _ & _ & _ & _ & _ & Hk & Hle & Hws & _) Hi.
  destruct (lookup_lt_is_Some_2 (wr_writers wr) i) as [s Hs]; [lia|].
  destruct (lookup_lt_is_Some_2 gs i) as [g Hg]; [lia|]. exists s, g. split_and!; try done.
  - by eapply Forall_lookup in Hgroups.
  - by apply Hws.
Qed.

(** The setup that no operation changes. *)
Definition same_wr wr wr' : Prop :=
  wr_initialized wr' = wr_initialized wr ∧ wr_properties wr' = wr_properties wr ∧
  wr_buffer_size wr' = wr_buffer_size wr.

Lemma wp_flush_one k st wr B i :
  wr_inv k st wr B → (i < k)%nat →
  wp (on_group_writer i cgw_Flush) (st, wr)
    (λ _ x, wr_inv k x.1 x.2 B ∧ same_wr wr x.2 ∧ wr_heap x.2 = wr_heap wr) failed.
Proof.
  intros Hinv Hi. destruct (writer_at k st wr B i Hinv Hi) as (s & g & Hs & Hg & _ & Hc).
  eapply wp_mono; [eapply (wp_on_group_writer _ k st wr B i s g (B i) (λ _, True)); [done..|]| |done].
  { eapply wp_mono; [by apply wp_cgw_Flush|by intros|done]. }
  intros _ [st' wr'] (_ & [ws Hws] & Hinv'). simpl in *. split; [|by subst].
  eapply wr_inv_ext; [|exact Hinv']. intros j. simpl. by destruct (decide (j = i)) as [->|].
Qed.

(** Changing the memory accounting. *)
Lemma wr_inv_heap k st wr B mem heap :
  wr_inv k st wr B → Forall (λ e, 0 ≤ e.1 < Z.of_nat k) heap → mem = wrap_u64 (heap_sum heap) →
  wr_inv k st (set_wr_heap mem heap wr) B.
Proof. intros (H1 & H2 & H3 & H4 & H5 & H6 & H7 & H8 & H9 & H10 & _) Hh Hm. by split_and!. Qed.

Lemma wp_make_room k fuel n st wr B :
  wr_inv k st wr B → (length (wr_heap wr) ≤ fuel)%nat →
  wp (make_room fuel n) (st, wr)
    (λ _ x, wr_inv k x.1 x.2 B ∧ same_wr wr x.2 ∧
       (wr_heap x.2 = [] ∨ wrap_u64 (wr_memory x.2 + n) < wr_buffer_size x.2)) failed.
Proof.
  revert st wr. induction fuel as [|fuel IH]; intros st wr Hinv Hf; cbn [make_room];
    apply wp_bind, wp_get; simpl;
    destruct (Z.leb_spec (wr_buffer_size wr) (wrap_u64 (wr_memory wr + n))), (bool_decide_reflect (wr_heap wr = []));
    simpl; try (apply wp_ret; by split_and!; auto).
  { destruct (wr_heap wr); [done|simpl in Hf; lia]. }
  apply wp_bind. unfold wp at 1, pop_group. simpl.
  destruct (pop_first pair_key (wr_heap wr)) as [[e heap]|] eqn:Hpop.
  2:{ by apply pop_first_None in Hpop. }
  pose proof (pop_first_spec _ _ _ _ Hpop) as [Hperm _].
  pose proof Hinv as (_ & _ & _ & _ & _ & _ & _ & _ & _ & _ & Hh & Hm).
  rewrite Hperm in Hh. apply Forall_cons in Hh as [He Hh].
  assert (wr_inv k st (set_wr_heap (wrap_u64 (wr_memory wr - e.2)) heap wr) B) as Hinv1.
  { apply wr_inv_heap; [done..|]. rewrite Hm. unfold heap_sum. rewrite (sum_Z_perm _ (e.2 :: heap.*2)).
    - unfold wrap_u64. rewrite Zminus_mod_idemp_l. f_equal. unfold sum_Z; simpl. lia.
    - change (e.2 :: heap.*2) with ((e :: heap).*2). by rewrite Hperm. }
  eapply wp_seq; [apply (wp_flush_one k _ _ B); [exact Hinv1|lia]|].
  intros _ [st2 wr2] (Hinv2 & Hsame2 & Hheap2). simpl in *.
  eapply wp_mono; [apply IH; [done|]| |done].
  - rewrite Hheap2. apply Permutation_length in Hperm. simpl in Hperm. lia.
  - intros _ x (Hinv3 & Hsame3 & Hroom). split_and!; [done| |done].
    destruct Hsame2 as (? & ? & ?), Hsame3 as (? & ? & ?). simpl in *. split_and!; congruence.
Qed.

(** The batches that the groups have, when those before [k] have the new one. *)
Definition fed b (bs : list RecordBatch) (k i : nat) : list RecordBatch :=
  if decide (i < k)%nat then bs ++ [b] else bs.

Lemma wp_write_group b bs st wr i :
  wr_inv (length gs) st wr (fed b bs i) → (i < length gs)%nat → batch_ok b → within (bs ++ [b]) →
  wp (write_group b i) (st, wr)
    (λ _ x, wr_inv (length gs) x.1 x.2 (fed b bs (S i)) ∧ same_wr wr x.2) failed.
Proof.
  intros Hinv Hi (Hnc & Hb) [Hw Hlen]. destruct (writer_at _ _ _ _ i Hinv Hi) as (s & g & Hs & Hg & Hok & Hc).
  pose proof Hinv as (_ & _ & Hsch & Hobj & Hcg & _ & Hk & _ & _ & _ & Hh & Hm).
  unfold fed in Hc. rewrite decide_False in Hc by lia.
  assert (Hext : ∀ j, fed b bs (S i) j = (if decide (j = i) then bs ++ [b] else fed b bs i j)).
  { intros j. unfold fed. repeat case_decide; try done; lia. }
  apply wp_bind, wp_get. simpl. apply wp_bind, (wp_lift _ g).
  { unfold group_ref. rewrite Hcg, lookup_seq_lt by done. cbn [deref]. rewrite bind_Ok. simpl. by rewrite Hobj, Hg. }
  rewrite Hsch. pose proof (proj1 (Forall_lookup _ _) Hb i g Hg) as Hgb. pose proof (proj1 (Forall_lookup _ _) Hw i g Hg) as Hgw.
  simpl in Hgb, Hgw. destruct (decide (columns g = [])) as [Hnil|Hne].
  - apply wp_bind, (wp_lift _ []); [by apply pick_none|]. apply wp_ret. simpl. split; [|done].
    destruct Hinv as (H1 & H2 & H3 & H4 & H5 & H6 & H7 & H8 & H9 & H10). split_and!; try done; try apply H10.
    intros j t gj Ht Hgj. rewrite Hext. destruct (decide (j = i)) as [->|]; [|by apply H9].
    assert (gj = g) as -> by congruence. assert (t = s) as -> by congruence.
    rewrite group_rows_app, total_bytes_app. unfold group_rows at 2, total_bytes at 2. simpl. unfold group_bytes.
    rewrite !bool_decide_true by done. unfold sum_Z; simpl. by rewrite app_nil_r, Z.add_0_r.
  - destruct (group_batch_spec b g Hok Hnc Hne) as (p & picked & Hp & Hgb' & Hrows).
    apply wp_bind, (wp_lift _ (p :: picked)); [done|]. rewrite <- Hgb'.
    apply wp_bind, wp_on_members. simpl. rewrite bool_decide_false by lia.
    set (mem := GetRecordBatchMemorySize (group_batch b g)). destruct (Hgb Hne) as [Hacc Hpos].
    assert (0 ≤ mem) as Hmem by apply columns_memory_range.
    assert (total_bytes g (bs ++ [b]) = total_bytes g bs + mem) as Htot.
    { rewrite total_bytes_app. f_equal. unfold total_bytes, sum_Z, group_bytes; simpl.
      rewrite bool_decide_false by done. fold mem. lia. }
    set (wr1 := set_wr_heap _ _ wr).
    assert (wr_inv (length gs) st wr1 (fed b bs i)) as Hinv1.
    { apply wr_inv_heap; [done|apply Forall_app; split; [done|apply Forall_singleton; simpl; lia]|].
      rewrite Hm, wrap_u64_idemp_add. unfold heap_sum. rewrite fmap_app, sum_Z_app. f_equal. f_equal.
      unfold sum_Z; simpl. fold mem. lia. }
    eapply wp_mono; [apply (wp_on_group_writer _ (length gs) st wr1 (fed b bs i) i s g (bs ++ [b]) (λ _, True)); [done..|]| |done].
    + rewrite group_rows_app, Htot, <- Hrows. eapply wp_mono; [apply wp_cgw_Write; try done| |done]; [..|by intros].
      * rewrite Hrows, <- group_rows_app. pose proof (group_rows_length g (bs ++ [b])). lia.
      * intros Hne'. apply Hpos. intros Hnil. apply Hne'. rewrite Hrows. unfold group_rows.
        rewrite bool_decide_false by done. simpl. by rewrite Hnil.
      * fold mem. lia.
    + intros _ [st' wr'] (_ & [ws ->] & Hinv'). simpl. split; [|done].
      eapply wr_inv_ext; [|exact Hinv']. intros j. by rewrite Hext.
Qed.

Lemma same_wr_trans wr1 wr2 wr3 : same_wr wr1 wr2 → same_wr wr2 wr3 → same_wr wr1 wr3.
Proof. intros (? & ? & ?) (? & ? & ?). split_and!; congruence. Qed.

Lemma wp_write_groups b bs n i st wr :
  wr_inv (length gs) st wr (fed b bs i) → (i + n = length gs)%nat → batch_ok b → within (bs ++ [b]) →
  wp (for_each (write_group b) (seq i n)) (st, wr)
    (λ _ x, wr_inv (length gs) x.1 x.2 (λ _, bs ++ [b]) ∧ same_wr wr x.2) failed.
Proof.
  revert i st wr. induction n as [|n IH]; intros i st wr Hinv Hn Hb Hw; cbn [seq for_each].
  - apply wp_ret. simpl. split; [|done]. pose proof Hinv as (_ & _ & _ & _ & _ & _ & Hk & _).
    destruct Hinv as (H1 & H2 & H3 & H4 & H5 & H6 & H7 & H8 & H9 & H10). split_and!; try done; try apply H10.
    intros j s g Hs Hg. pose proof (lookup_lt_Some _ _ _ Hs). specialize (H9 j s g Hs Hg). unfold fed in H9.
    by rewrite decide_True in H9 by lia.
  - eapply wp_seq; [apply (wp_write_group b bs); try done; lia|]. intros _ [st' wr'] [Hinv' Hsame]. simpl in *.
    eapply wp_mono; [apply (IH (S i)); try done; lia| |done]. intros _ x [Hx Hsx]. split; [done|].
    by eapply same_wr_trans.
Qed.

Lemma wp_balanceMemoryHeap k st wr B :
  wr_inv k st wr B →
  wp balanceMemoryHeap (st, wr) (λ _ x, wr_inv k x.1 x.2 B ∧ same_wr wr x.2 ∧ NoDup (wr_heap x.2).*1) failed.
Proof.
  intros Hinv. pose proof Hinv as (_ & _ & _ & _ & _ & _ & _ & _ & _ & _ & Hh & Hm).
  apply wp_on_members. simpl. split_and!; [|done..|apply NoDup_fst_map_to_list]. apply wr_inv_heap; [done|..].
  - apply Forall_forall. intros [i v] Hiv%elem_of_map_to_list.
    assert (map_Forall (λ i _, 0 ≤ i < Z.of_nat k) (foldl merge_entry ∅ (wr_heap wr))) as Hall.
    { by apply (merge_keys _ _ (λ i, 0 ≤ i < Z.of_nat k)). }
    exact (Hall i v Hiv).
  - rewrite Hm. symmetry. change (wrap_u64 (map_sum (foldl merge_entry ∅ (wr_heap wr))) = wrap_u64 (heap_sum (wr_heap wr))).
    by rewrite merge_sum.
Qed.

Lemma wp_distribute b bs st wr :
  gs ≠ [] → wr_inv (length gs) st wr (λ _, bs) → batch_ok b → within (bs ++ [b]) →
  wp (distribute_batch b) (st, wr)
    (λ _ x, wr_inv (length gs) x.1 x.2 (λ _, bs ++ [b]) ∧ same_wr wr x.2 ∧ NoDup (wr_heap x.2).*1) failed.
Proof.
  intros Hne Hinv Hb Hw. pose proof Hinv as (_ & _ & _ & _ & Hcg & _). unfold distribute_batch.
  apply wp_bind, wp_get. simpl. rewrite Hcg. rewrite bool_decide_false by (by destruct gs).
  eapply wp_seq; [by apply (wp_make_room (length gs) _ _ st wr (λ _, bs))|].
  intros _ [st1 wr1] (Hinv1 & Hsame1 & _). simpl in *. rewrite length_seq.
  eapply wp_seq; [by apply (wp_write_groups b bs)|].
  intros _ [st2 wr2] [Hinv2 Hsame2]. simpl in *.
  eapply wp_mono; [by apply (wp_balanceMemoryHeap (length gs) _ _ (λ _, bs ++ [b]))| |done].
  intros _ x (Hinv3 & Hsame3 & Hnd). split_and!; try done. by eapply same_wr_trans; [|eapply same_wr_trans].
Qed.

Lemma wp_flush_writers k st wr B n i :
  wr_inv k st wr B → (i + n = k)%nat →
  wp (for_each (λ i, on_group_writer i cgw_Flush) (seq i n)) (st, wr)
    (λ _ x, wr_inv k x.1 x.2 B ∧ same_wr wr x.2) failed.
Proof.
  revert i st wr. induction n as [|n IH]; intros i st wr Hinv Hn; cbn [seq for_each]; [by apply wp_ret|].
  eapply wp_seq; [apply (wp_flush_one k _ _ B); [done|lia]|]. intros _ [st' wr'] (Hinv' & Hsame & _). simpl in *.
  eapply wp_mono; [apply (IH (S i)); [done|lia]| |done]. intros _ x [Hx Hsx]. split; [done|]. by eapply same_wr_trans.
Qed.

Lemma wp_W_flush k st wr B :
  wr_inv k st wr B →
  wp W_flush (st, wr) (λ _ x, wr_inv k x.1 x.2 B ∧ same_wr wr x.2) failed.
Proof.
  intros Hinv. pose proof Hinv as (Hc & _ & _ & _ & _ & _ & Hk & _). unfold W_flush. apply wp_bind, wp_get. simpl.
  rewrite Hc. eapply wp_seq; [by apply (wp_flush_writers k st wr B)|]. intros _ [st' wr'] [Hinv' Hsame]. simpl in *.
  apply wp_on_members. simpl. split; [|done]. by apply wr_inv_heap.
Qed.

(** ** Initialisation *)

Lemma wr_inv_new_writer k st st' wr s g :
  wr_inv k st wr (λ _, []) → gs !! k = Some g → cgw_inv base st' s [] 0 → evolves base [] st st' →
  (∀ p, p ∈ cgw_paths s → ¬ owned base st p) →
  wr_inv (S k) st' (set_wr_writers (wr_writers wr ++ [s]) wr) (λ _, []).
Proof.
  intros (H1 & H2 & H3 & H4 & H5 & H6 & Hk & Hle & Hws & Hdis & Hh & Hm) Hg Hs He Hnew.
  pose proof (lookup_lt_Some _ _ _ Hg) as Hlt.
  assert (∀ i t, wr_writers wr !! i = Some t → cgw_inv base st t [] 0) as Hold.
  { intros i t Ht. destruct (lookup_lt_is_Some_2 gs i) as [gi Hgi]; [apply lookup_lt_Some in Ht; lia|].
    specialize (Hws i t gi Ht Hgi). unfold group_rows in Hws. by case_bool_decide. }
  assert (∀ i t p, wr_writers wr !! i = Some t → p ∈ cgw_paths t → p ∉ cgw_paths s) as Hd.
  { intros i t p Ht Hp Hp'. apply (Hnew p Hp'). destruct (Hold i t Ht) as (_ & _ & Ho & _).
    by eapply Forall_forall in Ho. }
  split_and!; simpl; try done; [rewrite length_app; simpl; lia| | |].
  - intros i t gi Ht Hgi. assert (group_rows gi [] = []) as -> by (unfold group_rows; by case_bool_decide).
    apply lookup_snoc_Some in Ht as [[Hi Ht]|[Hi ->]]; [|done].
    eapply cgw_inv_other; [by eapply Hold|exact He|set_solver].
  - intros i j t1 t2 p Hij Ht1 Ht2 Hp.
    apply lookup_snoc_Some in Ht1 as [[Hi1 Ht1]|[Hi1 ->]], Ht2 as [[Hi2 Ht2]|[Hi2 ->]]; [..|lia].
    + by eapply (Hdis i j).
    + by eapply Hd.
    + intros Hp2. by eapply Hd.
  - eapply Forall_impl; [exact Hh|]. intros e ?. simpl in *. lia.
Qed.

Lemma wp_create_writers limit n i st wr :
  wr_inv i st wr (λ _, []) → (i + n = length gs)%nat →
  GetValue (T := uint64_t) trim_copy (wr_properties wr) PROPERTY_WRITER_FILE_ROLLING_SIZE = Ok limit →
  wp (create_writers trim_copy (seq i n) i) (st, wr)
    (λ _ x, wr_inv (length gs) x.1 x.2 (λ _, []) ∧ same_wr wr x.2) failed.
Proof.
  revert i st wr. induction n as [|n IH]; intros i st wr Hinv Hn Hlim; cbn [seq create_writers].
  - apply wp_ret. simpl. replace (length gs) with i by lia. done.
  - pose proof Hinv as (_ & Hbase & Hsch & Hobj & _).
    destruct (lookup_lt_is_Some_2 gs i) as [g Hg]; [lia|].
    destruct (proj1 (Forall_lookup _ _) Hgroups i g Hg) as (Hnd & Hsub & fmt & Hfmt).
    destruct (find_fields_ok schema (columns g) Hnames Hsub) as (fields & Hff & Hns).
    destruct (find_fields_ok fields (columns g)) as (fields' & Hff' & _); [by rewrite Hns|by rewrite Hns|].
    apply wp_bind, wp_get. simpl. apply wp_bind, (wp_lift _ g); [by rewrite Hobj, Hg|].
    rewrite Hsch, Hbase. apply wp_bind, (wp_lift _ fields); [done|]. apply wp_bind, wp_store_call. simpl.
    eapply wp_mono; [by eapply wp_cgw_create| |intros e x Hf; exact Hf]. intros s st' (Hs & He & Hnew).
    apply wp_bind, wp_on_members. simpl.
    eapply wp_mono; [apply (IH (S i)); [by eapply wr_inv_new_writer|lia|done]| |done].
    intros _ x [Hx Hsame]. split; [done|]. eapply same_wr_trans; [|exact Hsame]. done.
Qed.

(** The groups that the policy makes from a first batch. *)
Definition policy_groups (p : ColumnGroupPolicy) b : outcome Status (list ColumnGroup) :=
  p' ← (if requires_sample p then sample (Some b) p else Ok p);
  get_column_groups regex_match p'.

(** A writer that has not seen a batch. *)
Definition wr_fresh wr : Prop :=
  wr_closed wr = false ∧ wr_base_path wr = base ∧ wr_schema wr = schema ∧ wr_objects wr = [] ∧
  wr_column_groups wr = [] ∧ wr_cgs wr = [] ∧ wr_writers wr = [] ∧ wr_heap wr = [] ∧ wr_memory wr = 0.

Lemma wp_initialize limit b st wr :
  wr_fresh wr → gs ≠ [] → policy_groups (wr_policy wr) b = Ok gs →
  GetValue (T := uint64_t) trim_copy (wr_properties wr) PROPERTY_WRITER_FILE_ROLLING_SIZE = Ok limit →
  wp (initialize_column_group_writers regex_match trim_copy b) (st, wr)
    (λ _ x, wr_inv (length gs) x.1 x.2 (λ _, []) ∧ same_wr wr x.2) failed.
Proof.
  intros (H1 & H2 & H3 & H4 & H5 & H6 & H7 & H8 & H9) Hne Hp Hlim. unfold initialize_column_group_writers.
  apply bind_Ok_inv in Hp as (p & Hsample & Hget). apply wp_bind, wp_get. simpl.
  apply (wp_seq _ _ _ (λ _ x, x = (st, set_wr_policy p wr))).
  { destruct (requires_sample (wr_policy wr)).
    - apply wp_bind, (wp_lift _ p); [done|]. by apply wp_on_members.
    - injection Hsample as <-. apply wp_ret. by destruct wr. }
  intros _ [st' wr'] [= -> ->]. apply wp_bind, wp_get. simpl. apply wp_bind, (wp_lift _ gs); [done|].
  rewrite H4. apply wp_bind, wp_on_members. simpl. rewrite bool_decide_false by done.
  eapply wp_seq; [apply (wp_create_writers limit); [|lia|done]|].
  { split_and!; simpl; try done; [by rewrite H4|by rewrite H7|lia|..]; rewrite ?H7, ?H8, ?H9; [..|done|done].
    - intros i s g Hi. by rewrite lookup_nil in Hi.
    - intros i j s t q _ Hi. by rewrite lookup_nil in Hi. }
  intros _ [st' wr'] [Hinv Hsame]. simpl in *. apply wp_bind, wp_get. simpl.
  pose proof Hinv as (_ & _ & _ & _ & Hcg & _ & Hk & _). rewrite Hk, Hcg, length_seq, bool_decide_true by done.
  by apply wp_ret.
Qed.

(** ** The life of a writer *)

Inductive wr_op := OpWrite (batch : option RecordBatch) | OpFlush.

Definition run_op (o : wr_op) : M (Store * Writer) Status unit :=
  match o with OpWrite b => W_write regex_match trim_copy b | OpFlush => W_flush end.

Definition op_batches (ops : list wr_op) : list RecordBatch :=
  omap (λ o, match o with OpWrite b => b | OpFlush => None end) ops.

(** The state of the writer after the batches [bs]. *)
Definition wr_state p props st wr (bs : list RecordBatch) : Prop :=
  wr_properties wr = props ∧
  match bs with
  | [] => wr_initialized wr = false ∧ wr_policy wr = p ∧ wr_fresh wr
  | _ => wr_initialized wr = true ∧ wr_inv (length gs) st wr (λ _, bs)
  end.

Lemma wp_wr_op p props limit o st wr bs :
  wr_state p props st wr bs → gs ≠ [] → (∀ b, head (bs ++ op_batches [o]) = Some b → policy_groups p b = Ok gs) →
  GetValue (T := uint64_t) trim_copy props PROPERTY_WRITER_FILE_ROLLING_SIZE = Ok limit →
  Forall batch_ok (op_batches [o]) → within (bs ++ op_batches [o]) →
  wp (run_op o) (st, wr) (λ _ x, wr_state p props x.1 x.2 (bs ++ op_batches [o])) failed.
Proof.
  intros [Hprops Hst] Hne Hp Hlim Hok Hw. destruct o as [[b|]|]; cbn [op_batches omap list_omap run_op] in *.
  - apply Forall_inv in Hok. unfold W_write. apply wp_bind, wp_get. simpl.
    assert (wr_closed wr = false) as -> by (destruct bs; [apply Hst|apply Hst]).
    apply (wp_seq _ _ _ (λ _ x, wr_initialized x.2 = true ∧ wr_properties x.2 = props ∧
      wr_inv (length gs) x.1 x.2 (λ _, bs))).
    { destruct bs as [|b0 bs].
      - destruct Hst as (-> & <- & Hfresh). rewrite <- Hprops in Hlim.
        eapply wp_seq; [apply (wp_initialize limit); [done|done|by apply Hp|done]|].
        intros _ [st1 wr1] [Hinv1 (Hi & Hpr & _)]. simpl in *. apply wp_on_members. simpl.
        split_and!; [done|congruence|done].
      - destruct Hst as [Hi0 Hinv]. rewrite Hi0. by apply wp_ret. }
    intros _ [st1 wr1] (Hi & Hpr & Hinv). simpl in *.
    eapply wp_mono; [by apply (wp_distribute b bs)| |done]. intros _ [st2 wr2] (Hinv2 & (Hi2 & Hpr2 & _) & _). simpl in *.
    split; [congruence|]. destruct (bs ++ [b]) eqn:He; [by destruct bs|]. split; [congruence|done].
  - unfold W_write. apply wp_bind, wp_get. simpl. rewrite app_nil_r.
    assert (wr_closed wr = false) as -> by (destruct bs; apply Hst). by apply wp_ret.
  - rewrite app_nil_r. destruct bs as [|b bs].
    + destruct Hst as (Hi & Hpol & Hf). pose proof Hf as (Hc & _ & _ & _ & _ & _ & Hws & _). unfold W_flush.
      apply wp_bind, wp_get. simpl. rewrite Hc, Hws. simpl. apply wp_bind, wp_ret, wp_on_members. simpl.
      split; [done|]. split_and!; try done. unfold wr_fresh in *. simpl. naive_solver.
    + destruct Hst as [Hi Hinv]. eapply wp_mono; [by apply (wp_W_flush (length gs) _ _ (λ _, b :: bs))| |done].
      intros _ [st' wr'] [Hinv' (Hi' & Hpr' & _)]. simpl in *. split; [congruence|]. split; [congruence|done].
Qed.

Lemma op_batches_app ops1 ops2 : op_batches (ops1 ++ ops2) = op_batches ops1 ++ op_batches ops2.
Proof. apply omap_app. Qed.

Lemma wp_wr_ops p props limit ops st wr bs :
  wr_state p props st wr bs → gs ≠ [] → (∀ b, head (bs ++ op_batches ops) = Some b → policy_groups p b = Ok gs) →
  GetValue (T := uint64_t) trim_copy props PROPERTY_WRITER_FILE_ROLLING_SIZE = Ok limit →
  Forall batch_ok (op_batches ops) → within (bs ++ op_batches ops) →
  wp (for_each run_op ops) (st, wr) (λ _ x, wr_state p props x.1 x.2 (bs ++ op_batches ops)) failed.
Proof.
  revert st wr bs. induction ops as [|o ops IH]; intros st wr bs Hst Hne Hp Hlim Hok Hw; cbn [for_each].
  - apply wp_ret. by rewrite app_nil_r.
  - change (o :: ops) with ([o] ++ ops) in *. rewrite op_batches_app in *. rewrite app_assoc in Hp, Hw |- *.
    apply Forall_app in Hok as [Hok1 Hok2].
    eapply wp_seq; [apply (wp_wr_op p props limit); try done|].
    + intros b Hb. apply Hp. by destruct (bs ++ op_batches [o]).
    + by apply within_prefix in Hw.
    + intros _ [st1 wr1] Hst1. simpl in *. by apply IH.
Qed.

(** ** Closing *)

(** Group [j] is closed: its files hold its rows. *)
Definition group_closed st (bs : list RecordBatch) g (cg : ColumnGroup) : Prop :=
  columns cg = columns g ∧ format cg = format g ∧
  ∃ parts, Forall2 (holds st) (files cg) parts ∧ mjoin parts = group_rows g bs.

(** The first [i] groups are closed, and the writers of the others are open. *)
Definition closing (i : nat) st wr (bs : list RecordBatch) : Prop :=
  wr_column_groups wr = seq 0 (length gs) ∧ length (wr_objects wr) = length gs ∧
  length (wr_writers wr) = length gs ∧ wr_cgs wr = seq 0 i ∧
  (∀ j g, gs !! j = Some g → (j < i)%nat → ∃ cg, wr_objects wr !! j = Some cg ∧ group_closed st bs g cg ∧
     Forall (owned base st) (cgf_path <$> files cg) ∧
     ∀ k t p, (i ≤ k)%nat → wr_writers wr !! k = Some t → p ∈ cgf_path <$> files cg → p ∉ cgw_paths t) ∧
  (∀ j s g, (i ≤ j)%nat → wr_writers wr !! j = Some s → gs !! j = Some g →
     wr_objects wr !! j = Some g ∧ cgw_inv base st s (group_rows g bs) (total_bytes g bs)) ∧
  (∀ j k s t p, (i ≤ j)%nat → (i ≤ k)%nat → j ≠ k → wr_writers wr !! j = Some s → wr_writers wr !! k = Some t →
     p ∈ cgw_paths s → p ∉ cgw_paths t).

Lemma closing_start st wr bs : wr_inv (length gs) st wr (λ _, bs) → closing 0 st wr bs.
Proof.
  intros (H1 & H2 & H3 & H4 & H5 & H6 & Hk & Hle & Hws & Hdis & Hh & Hm). split_and!; try done.
  - by rewrite H4.
  - intros j g _ Hj. lia.
  - intros j s g _ Hs Hg. split; [by rewrite H4|by apply (Hws j)].
  - intros j k s t p _ _ Hjk Hj Hk'. by apply (Hdis j k s t p).
Qed.

Lemma group_closed_evolves mine st st' bs g cg :
  evolves base mine st st' → group_closed st bs g cg → Forall (owned base st) (cgf_path <$> files cg) →
  (∀ p, p ∈ cgf_path <$> files cg → p ∉ mine) → group_closed st' bs g cg.
Proof.
  intros He (Hc & Hf & parts & Hh & Hj) Ho Hn. split_and!; try done. exists parts. split; [|done].
  eapply holds_evolves; [exact He|done| |done]. intros f Hf'. apply Hn. apply list_elem_of_fmap. by exists f.
Qed.

Lemma wp_close_writer i st wr bs :
  closing i st wr bs → (i < length gs)%nat →
  wp (close_writer i) (st, wr) (λ _ x, closing (S i) x.1 x.2 bs) failed.
Proof.
  intros (Hcg & Hlo & Hlw & Hcgs & Hdone & Hopen & Hdis) Hi.
  destruct (lookup_lt_is_Some_2 (wr_writers wr) i) as [s Hs]; [lia|].
  destruct (lookup_lt_is_Some_2 gs i) as [g Hg]; [done|].
  destruct (Hopen i s g) as [Hobj Hinv]; [lia|done..|].
  apply (wp_seq _ _ _ (λ fs x, (∃ s', x.2 = set_wr_writers (<[i := s']> (wr_writers wr)) wr) ∧
    (∃ parts, Forall2 (holds x.1) fs parts ∧ mjoin parts = group_rows g bs) ∧
    evolves base (cgw_paths s) st x.1 ∧ Forall (owned base x.1) (cgf_path <$> fs) ∧ (cgf_path <$> fs) ⊆ cgw_paths s)).
  { pose proof (wp_cgw_Close base st s _ _ Hinv) as Hc. unfold wp, on_group_writer in *. simpl. rewrite Hs.
    destruct (cgw_Close (st, s)) as [[st' s'] [fs|e|]]; simpl in *; [|done..].
    destruct Hc as (H1 & _ & H2 & H3 & H4). split_and!; try done. by exists s'. }
  intros fs [st' wr'] ([s' Hs'] & (parts & Hh & Hj) & He & Ho & Hsub). simpl in *. subst wr'.
  apply wp_bind, wp_get. simpl. rewrite Hcg.
  apply wp_bind, (wp_lift _ i); [by rewrite lookup_seq_lt|]. apply wp_bind, (wp_lift _ g); [by rewrite Hobj|].
  apply wp_on_members. simpl. pose proof He as (Hu & _).
  split_and!; simpl; try done; [by rewrite length_insert..|rewrite Hcgs; symmetry; apply (seq_S i 0)| | |].
  - intros j gj Hgj Hj'. destruct (decide (j = i)) as [->|Hne].
    + rewrite list_lookup_insert_eq by lia. assert (gj = g) as -> by congruence. eexists. split; [done|]. simpl.
      split_and!; [by split_and!; eauto|done|]. intros k t p Hk Ht Hp. rewrite list_lookup_insert_ne in Ht by lia.
      eapply (Hdis i k); [lia..|done|done|by apply Hsub].
    + rewrite list_lookup_insert_ne by done. destruct (Hdone j gj Hgj) as (cg & Hcg' & Hc & Hoj & Hn); [lia|].
      exists cg. split_and!; [done|..].
      * eapply group_closed_evolves; [exact He|done..|]. intros p Hp. by eapply (Hn i).
      * eapply Forall_impl; [exact Hoj|]. intros p. by apply owned_mono.
      * intros k t p Hk Ht Hp. rewrite list_lookup_insert_ne in Ht by lia. eapply (Hn k); [lia|done..].
  - intros j t gj Hj' Ht Hgj. rewrite list_lookup_insert_ne in Ht by lia.
    destruct (Hopen j t gj) as [Ho' Hinv']; [lia|done..|]. split; [by rewrite list_lookup_insert_ne by lia|].
    eapply cgw_inv_other; [exact Hinv'|exact He|]. intros p Hp. by eapply (Hdis j i); [lia..| | |].
  - intros j k t1 t2 p Hj1 Hk1 Hjk Ht1 Ht2. rewrite list_lookup_insert_ne in Ht1, Ht2 by lia.
    by eapply (Hdis j k); [lia..| |].
Qed.

Lemma wp_close_writers n i st wr bs :
  closing i st wr bs → (i + n = length gs)%nat →
  wp (for_each close_writer (seq i n)) (st, wr) (λ _ x, closing (length gs) x.1 x.2 bs) failed.
Proof.
  revert i st wr. induction n as [|n IH]; intros i st wr Hc Hn; cbn [seq for_each].
  - apply wp_ret. simpl. by replace (length gs) with i by lia.
  - eapply wp_seq; [apply wp_close_writer; [done|lia]|]. intros _ [st' wr'] Hc'. simpl in *. apply IH; [done|lia].
Qed.

Lemma mapM_lookup {A} (l : list A) : mapM (λ a, l !! a) (seq 0 (length l)) = Some l.
Proof.
  apply mapM_Some. apply Forall2_same_length_lookup_2; [by rewrite length_seq|].
  intros i a x Ha Hx. apply lookup_seq in Ha as [-> _]. done.
Qed.

Lemma wp_W_close st wr bs :
  wr_inv (length gs) st wr (λ _, bs) →
  wp (W_close [] []) (st, wr) (λ cgs x, Forall2 (group_closed x.1 bs) gs cgs ∧ wr_closed x.2 = true) failed.
Proof.
  intros Hinv. pose proof Hinv as (Hcl & _ & _ & _ & Hcg & _ & Hk & _). unfold W_close.
  apply wp_bind, wp_get. simpl. rewrite Hcl, Hcg, Hk, length_seq, !bool_decide_false by lia.
  eapply wp_seq; [apply (wp_close_writers _ _ _ _ bs); [by apply closing_start|done]|].
  intros _ [st' wr'] (_ & Hlo & _ & Hcgs & Hdone & _). simpl in *.
  apply wp_bind, wp_on_members, wp_bind, wp_ret, wp_bind, wp_get. simpl.
  apply (wp_lift _ (wr_objects wr')).
  { unfold cgs_value. simpl. by rewrite Hcgs, <- Hlo, mapM_lookup. }
  simpl. split; [|done]. apply Forall2_same_length_lookup_2; [done|].
  intros i g cg Hg Hcg'. destruct (Hdone i g Hg) as (cg' & Hl & Hc & _); [by apply lookup_lt_Some in Hg|]. congruence.
Qed.

(** Closing a writer in any state between calls. *)
Lemma wp_W_close_state p props st wr bs :
  wr_state p props st wr bs →
  wp (W_close [] []) (st, wr)
    (λ cgs x, wr_closed x.2 = true ∧ match bs with [] => cgs = [] | _ => Forall2 (group_closed x.1 bs) gs cgs end) failed.
Proof.
  intros [_ Hst]. destruct bs as [|b bs].
  - destruct Hst as (_ & _ & Hc & _ & _ & Hobj & Hcg & Hcgs & Hws & _). unfold W_close. apply wp_bind, wp_get. simpl.
    rewrite Hc, Hcg, Hws. simpl. apply wp_bind, wp_ret, wp_bind, wp_on_members, wp_bind, wp_ret, wp_bind, wp_get. simpl.
    apply (wp_lift _ []); [|done]. unfold cgs_value. simpl. by rewrite Hcgs.
  - destruct Hst as [_ Hinv]. eapply wp_mono; [by apply (wp_W_close _ _ (b :: bs))| |done]. intros cgs x [H1 H2]. done.
Qed.

Lemma rolling_size_set props :
  properties_ok trim_copy props →
  ∃ limit, GetValue (T := uint64_t) trim_copy props PROPERTY_WRITER_FILE_ROLLING_SIZE = Ok limit.
Proof.
  intros Hp. assert ((λ i, pi_type (pi_head i)) <$> find_info trim_copy PROPERTY_WRITER_FILE_ROLLING_SIZE = Some UINT64)
    as Hf by (vm_compute; reflexivity).
  apply fmap_Some in Hf as (info & Hf & Ht).
  pose proof (laws_value_u64 trim_copy) as Hl.
  destruct (@read_typed trim_copy uint64_t _ _ Hl props _ info Hp Hf (eq_sym Ht)) as (x & Hx & _). by exists x.
Qed.

Lemma buffer_size_read props :
  properties_ok trim_copy props →
  ∃ size, GetValueNoError (T := int32_t) trim_copy props PROPERTY_WRITER_BUFFER_SIZE = Ok size.
Proof.
  intros Hp. assert ((λ i, pi_type (pi_head i)) <$> find_info trim_copy PROPERTY_WRITER_BUFFER_SIZE = Some INT32)
    as Hf by (vm_compute; reflexivity).
  apply fmap_Some in Hf as (info & Hf & Ht).
  pose proof (laws_value_i32 trim_copy) as Hl.
  destruct (@read_typed trim_copy int32_t _ _ Hl props _ info Hp Hf (eq_sym Ht)) as (x & _ & Hx & _). by exists x.
Qed.

(** C12: A written dataset is complete.  For any well-formed properties, any policy
    whose groups are columns of the schema in known formats, and any sequence of
    writes and flushes on a new writer: nothing is undefined, an error means that a
    call on a filesystem or a format writer failed, and otherwise closing returns
    the groups of the policy, each with files that hold, one after the other, its
    columns of all rows in order; a writer that saw no batch returns no group. *)
Theorem written_groups_complete p props ops st :
  properties_ok trim_copy props → gs ≠ [] → (∀ b, head (op_batches ops) = Some b → policy_groups p b = Ok gs) →
  Forall batch_ok (op_batches ops) → within (op_batches ops) →
  ∃ wr, Writer_create trim_copy base schema p props = Ok wr ∧
    wp (for_each run_op ops;; W_close [] []) (st, wr)
      (λ cgs x, wr_closed x.2 = true ∧
         match op_batches ops with [] => cgs = [] | bs => Forall2 (group_closed x.1 bs) gs cgs end) failed.
Proof.
  intros Hprops Hne Hp Hok Hw. destruct (rolling_size_set props Hprops) as [limit Hlim].
  destruct (buffer_size_read props Hprops) as [size Hsize]. unfold Writer_create. rewrite Hsize, bind_Ok.
  eexists. split; [done|]. eapply wp_seq; [apply (wp_wr_ops p props limit ops st _ []); try done|].
  intros _ [st' wr'] Hst. simpl in *. apply wp_W_close_state in Hst. by destruct (op_batches ops).
Qed.
End correct.
