(* ===== verification/WriterSample.v ===== *)
(** * Format writers in memory, and a run of the top-level writer

    An instance of the interface of the column group writer: files are lists of
    rows, uuids are numbers.  The creation of writers can be made to fail, to run
    the writer's behaviour on errors. *)

From S2P Require Import Prelude CppString Status Config Paths ColumnGroups Properties ArrowData PackedMetadata ParquetWriter PackedWriter ColumnGroupPolicy ColumnGroupWriter ColumnGroupWriterCorrect Writer WriterCorrect.

Module MemFormats.
Import RowBatch KvList.

(** ** Columns of row batches *)

Record array := mkArray {
  ar_cells : list (option Z);
  ar_bytes : Z;
  ar_addr : Z;
}.

Definition column_of (b : t) (i : nat) : array :=
  mkArray ((λ r, r !! i) <$> cells b) (bytes b) (RowBatch.base b + Z.of_nat i).

#[export] Instance row_make : BatchMake := {
  Array := array;
  batch_arrays b := column_of b <$> seq 0 (width b);
  Batch_Make _ n arrs :=
    mkBatch ((λ k, omap (λ a, ar_cells a !! k ≫= id) arrs) <$> seq 0 (Z.to_nat n)) (length arrs)
      (default 0 (ar_bytes <$> head arrs)) (default 0 (ar_addr <$> head arrs));
}.

#[export] Instance row_make_laws : BatchMakeLaws.
Proof.
  split.
  - intros b. simpl. by rewrite !length_fmap.
  - intros b fields idx arrs Hall _. simpl. rewrite Nat2Z.id. apply list_eq. intros k.
    rewrite !list_lookup_fmap. destruct (decide (k < length (cells b))%nat) as [Hk|Hk].
    + rewrite lookup_seq_lt by done. destruct (lookup_lt_is_Some_2 (cells b) k Hk) as [r Hr]. rewrite Hr. simpl. f_equal.
      induction Hall as [|i a idx arrs [Hi Ha] _ IH]; [done|].
      change (batch_arrays b) with (column_of b <$> seq 0 (width b)) in Ha.
      rewrite list_lookup_fmap in Ha. apply fmap_Some in Ha as (j & Hj & ->). apply lookup_seq in Hj as [-> _].
      unfold pick in *. cbn [omap list_omap]. cbn [omap list_omap] in IH. rewrite (proj2 (Z.ltb_ge i 0) Hi).
      cbn [column_of ar_cells]. rewrite list_lookup_fmap, Hr. simpl. by destruct (r !! Z.to_nat i); [f_equal|].
    + rewrite lookup_seq_ge by lia. by rewrite (lookup_ge_None_2 (cells b)) by lia.
Qed.

(** ** Writers *)

Section formats.
Context `{KVM : KeyValueMetadata} `{BL : BatchLaws}.
(** The creations that fail. *)
Context (broken : nat → bool).

Record store := mkStore {
  st_files : gmap string (list row);
  st_open : list (string * option (list row));
  st_uuids : nat;
}.

Definition handle : Type := nat * string.

Definition open_rows (s : store) (w : handle) : option (list row) :=
  match st_open s !! w.1 with Some (p, r) => if bool_decide (p = w.2) then r else None | None => None end.

Definition uuid_at (n : nat) : string := to_string (Z.of_nat n).

Definition set_rows (w : handle) (r : option (list row)) (s : store) : store :=
  mkStore (st_files s) (<[w.1 := (w.2, r)]> (st_open s)) (st_uuids s).

#[local] Instance mem_formats : FormatWriters := {
  Store := store;
  Fs := unit;
  FormatWriter := handle;
  FilesystemCache_get _ _ s := (s, Ok tt);
  Fs_is_local _ := true;
  Fs_CreateDir _ _ s := (s, Ok tt);
  random_gen s := (mkStore (st_files s) (st_open s) (S (st_uuids s)), uuid_at (st_uuids s));
  create_writer _ _ _ p _ _ s :=
    if broken (length (st_open s)) then (mkStore (st_files s) (st_open s ++ [(p, None)]) (st_uuids s), Err status_IOError)
    else (mkStore (st_files s) (st_open s ++ [(p, Some [])]) (st_uuids s), Ok (length (st_open s), p));
  FW_Write w b s :=
    match open_rows s w with
    | Some l => (set_rows w (Some (l ++ rows b)) s, Ok tt)
    | None => (s, Err status_Invalid)
    end;
  FW_Flush w s := (s, if open_rows s w then Ok tt else Err status_Invalid);
  FW_Close w s :=
    match open_rows s w with
    | Some l =>
        (mkStore (<[w.2 := l]> (st_files s)) (st_open (set_rows w None s)) (st_uuids s),
         Ok (mkFile w.2 0 (Z.of_nat (length l)) ∅))
    | None => (s, Err status_Invalid)
    end;
}.

#[local] Instance mem_model : FormatWriterModel := {
  written := open_rows;
  path_of w := w.2;
  file_rows s p := st_files s !! p;
  used s := list_to_set (uuid_at <$> seq 0 (st_uuids s));
  accepts _ := True;
}.

Lemma open_rows_lt s w l : open_rows s w = Some l → (w.1 < length (st_open s))%nat.
Proof. unfold open_rows. destruct (st_open s !! w.1) eqn:Hl; [|done]. intros _. by eapply lookup_lt_Some. Qed.

Lemma open_rows_set s w w' r :
  is_Some (open_rows s w) → open_rows (set_rows w r s) w' = if decide (w' = w) then r else open_rows s w'.
Proof.
  intros [l Hl]. pose proof (open_rows_lt s w l Hl) as Hlt. unfold open_rows, set_rows in *. simpl.
  destruct w as [h p], w' as [h' p']. simpl in *. destruct (decide (h' = h)) as [->|Hh].
  - rewrite list_lookup_insert_eq by done. destruct (decide (p' = p)) as [->|Hp].
    + rewrite bool_decide_true, decide_True by done. done.
    + rewrite bool_decide_false, decide_False by congruence.
      destruct (st_open s !! h) as [[q r']|]; [|done]. case_bool_decide; [|done]. subst. by rewrite bool_decide_false.
  - rewrite list_lookup_insert_ne by done. by rewrite decide_False by congruence.
Qed.

Lemma open_rows_snoc fs us ws w p r us' :
  open_rows (mkStore fs (ws ++ [(p, r)]) us') w =
  if decide (w = (length ws, p)) then r else open_rows (mkStore fs ws us) w.
Proof.
  unfold open_rows. simpl. destruct w as [h q]. simpl. destruct (decide (h = length ws)) as [->|Hne].
  - rewrite lookup_app_r, Nat.sub_diag by lia. simpl. rewrite (lookup_ge_None_2 ws) by lia.
    destruct (decide (q = p)) as [->|]; [by rewrite bool_decide_true, decide_True|].
    by rewrite bool_decide_false, decide_False by congruence.
  - rewrite decide_False by congruence. destruct (decide (h < length ws)%nat).
    + by rewrite lookup_app_l by lia.
    + rewrite !lookup_ge_None_2; [done|lia|rewrite length_app; simpl; lia].
Qed.

Lemma uuid_used n k : uuid_at n ∈ (list_to_set (uuid_at <$> seq 0 k) : gset string) ↔ (n < k)%nat.
Proof.
  rewrite elem_of_list_to_set, list_elem_of_fmap. split.
  - intros (m & Hm & Hin%elem_of_seq). apply to_string_inj in Hm. lia.
  - intros Hn. exists n. split; [done|]. apply elem_of_seq. lia.
Qed.

Lemma set_rows_frame (w : handle) r (s : store) (fs : gmap string (list row)) :
  is_Some (open_rows s w) → (∀ q, q ≠ w.2 → fs !! q = st_files s !! q) →
  frame (H1 := mem_model) (eq w) (eq w.2) s (mkStore fs (st_open (set_rows w r s)) (st_uuids s)).
Proof.
  intros Hs Hf. split; [|split; [|done]].
  - intros w' Hne. etransitivity; [apply (open_rows_set s w w' r Hs)|]. by rewrite decide_False by congruence.
  - intros q Hne. apply Hf. congruence.
Qed.

#[local] Instance mem_laws : FormatWriterLaws.
Proof.
  split.
  - intros props p st st' r Hm. cbn in Hm. by simplify_eq.
  - intros fs p st st' r Hm. cbn in Hm. by simplify_eq.
  - intros fmt fs schema p bp props st st' r Hm. cbn in Hm.
    assert (∀ x, (∀ w, ¬ r = Ok w → w = (length (st_open st), p) → x = None) →
      frame (H1 := mem_model) (λ w, r = Ok w) (eq p) st
        (mkStore (st_files st) (st_open st ++ [(p, x)]) (st_uuids st))) as Hfr.
    { intros x Hx. split; [|done]. intros w Hw. cbn. rewrite (open_rows_snoc _ (st_uuids st)).
      case_decide as Hd; [|by destruct st]. rewrite (Hx w Hw Hd). subst w. unfold open_rows. simpl.
      by rewrite lookup_ge_None_2. }
    destruct (broken _); injection Hm as <- <-; apply Hfr; [done|]. intros w Hw ->. done.
  - intros w b st st' r Hm. cbn in Hm. destruct (open_rows st w) as [l|] eqn:Hl; injection Hm as <- <-; [|done].
    apply set_rows_frame; [by rewrite Hl|done].
  - intros w st st' r Hm. cbn in Hm. by injection Hm as <- <-.
  - intros w st st' r Hm. cbn in Hm. destruct (open_rows st w) as [l|] eqn:Hl; injection Hm as <- <-; [|done].
    apply set_rows_frame; [by rewrite Hl|]. intros q Hq. by apply lookup_insert_ne.
  - intros st st' u Hm. cbn in Hm. injection Hm as <- <-. split_and!; [..|done|done].
    + split; by apply to_string_mem_char.
    + cbn. rewrite uuid_used. lia.
    + cbn [used mem_model st_uuids]. rewrite seq_S, fmap_app, list_to_set_app_L. simpl. set_solver.
  - intros fmt fs schema p bp props st st' w Hm. cbn in Hm. destruct (broken _); [done|]. injection Hm as <- <-.
    split_and!; [unfold written; cbn; unfold open_rows; simpl; by rewrite lookup_ge_None_2| |done].
    cbn. rewrite (open_rows_snoc _ (st_uuids st)). by rewrite decide_True.
  - intros w b st st' l Hm _ Hl _. cbn in Hm, Hl. rewrite Hl in Hm. injection Hm as <-. cbn.
    rewrite open_rows_set by (by rewrite Hl). by rewrite decide_True.
  - intros w st st' l Hm Hl. cbn in Hm, Hl. rewrite Hl in Hm. by injection Hm as <-.
  - intros w st st' f l Hm Hl. cbn in Hm, Hl. rewrite Hl in Hm. injection Hm as <- <-. cbn.
    rewrite lookup_insert_eq. done.
  - intros props p st st' Hm. cbn in Hm. done.
  - intros fs p st st' Hm. cbn in Hm. done.
  - intros fmt fs schema p bp props st st' Hm. cbn in Hm. by destruct (broken _).
  - intros w b st st' l _ Hl Hm. cbn in Hm, Hl. by rewrite Hl in Hm.
  - intros w st st' l Hl Hm. cbn in Hm, Hl. by rewrite Hl in Hm.
  - intros w st st' l Hl Hm. cbn in Hm, Hl. by rewrite Hl in Hm.
Qed.
End formats.

(** Without failing creations every call works. *)
Lemma mem_works : fw_works (H1 := mem_model (λ _, false)).
Proof.
  split_and!; cbn; try (intros; by repeat eexists).
  - intros w b st l _ Hl. rewrite Hl. by eexists.
  - intros w st l Hl. rewrite Hl. by eexists.
  - intros w st l Hl. rewrite Hl. by repeat eexists.
Qed.

(** ** A run *)

Definition schema : Schema := [mkField "id" "int64" false None; mkField "vec" "binary" true None; mkField "ts" "int64" true None].
Definition policy : ColumnGroupPolicy := mkPolicy schema "parquet" (SizeBased 100 2 []).
(** A small limit, so that files roll over; the buffer holds one batch. *)
Definition props : Properties :=
  <[PROPERTY_WRITER_FILE_ROLLING_SIZE := PU64 100]> {[PROPERTY_WRITER_BUFFER_SIZE := PI32 200]}.
Definition batch1 : t := mkBatch [[1; 2; 3]; [4; 5; 6]] 3 64 0.
Definition batch2 : t := mkBatch [[7; 8; 9]] 3 64 10.
Definition ops : list (wr_op (H0 := row_batches)) :=
  [OpFlush; OpWrite None; OpWrite (Some batch1); OpWrite (Some batch2); OpFlush; OpWrite (Some batch1)].
Definition groups : list ColumnGroup := [mkGroup ["id"; "vec"] "parquet" []; mkGroup ["ts"] "parquet" []].

Lemma props_ok : properties_ok id props.
Proof.
  intros key x Hx. unfold props in Hx. apply lookup_insert_Some in Hx as [[<- <-]|[_ Hx]].
  - assert ((λ i, (GetPropertyValue id (pi_head i) "100", verdict i "100")) <$> find_info id PROPERTY_WRITER_FILE_ROLLING_SIZE
      = Some (Ok (PU64 100), Ok None)) as Hf by (vm_compute; reflexivity).
    apply fmap_Some in Hf as (info & -> & Hi). injection Hi as Hv Hr. by exists "100".
  - apply lookup_singleton_Some in Hx as [<- <-].
    assert ((λ i, (GetPropertyValue id (pi_head i) "200", verdict i "200")) <$> find_info id PROPERTY_WRITER_BUFFER_SIZE
      = Some (Ok (PI32 200), Ok None)) as Hf by (vm_compute; reflexivity).
    apply fmap_Some in Hf as (info & -> & Hi). injection Hi as Hv Hr. by exists "200".
Qed.

Definition no_files : store := mkStore ∅ [] 0.
Definition no_regex (n p : string) : option bool := Some false.

Definition never (n : nat) : bool := false.
#[local] Instance working_formats : FormatWriters := mem_formats never.
#[local] Instance working_model : FormatWriterModel := mem_model never.
#[local] Instance working_laws : FormatWriterLaws := mem_laws never.

Lemma names_distinct : NoDup (names schema).
Proof. apply (bool_decide_unpack _). vm_compute. exact I. Qed.

Lemma group_good cols :
  bool_decide (NoDup cols) = true → bool_decide (Forall (λ c, c ∈ names schema) cols) = true →
  group_ok schema (mkGroup cols "parquet" []).
Proof.
  intros Hn%bool_decide_eq_true Hs%bool_decide_eq_true. split_and!; [done| |by exists ParquetFormat].
  intros x Hx. by eapply Forall_forall in Hs.
Qed.

Lemma groups_good : Forall (group_ok schema) groups.
Proof. repeat apply Forall_cons_2; [apply group_good; vm_compute; reflexivity..|apply Forall_nil_2]. Qed.

Lemma batches_good : Forall (batch_ok schema groups) (op_batches ops).
Proof.
  assert (∀ b, num_columns b = 3 → Forall (λ g, bool_decide (0 < GetRecordBatchMemorySize (group_batch schema b g)) = true) groups →
    batch_ok schema groups b) as Hb.
  { intros b Hn Hg. split; [done|]. eapply Forall_impl; [exact Hg|]. intros g Hm _. split; [exact I|].
    intros _. by apply bool_decide_eq_true in Hm. }
  change (op_batches ops) with [batch1; batch2; batch1].
  repeat apply Forall_cons_2; [..|apply Forall_nil_2]; (apply Hb; [reflexivity|]);
    (repeat apply Forall_cons_2; [vm_compute; reflexivity..|apply Forall_nil_2]).
Qed.

Lemma written_groups_complete_witness :
  properties_ok id props ∧ policy_groups no_regex policy batch1 = Ok groups ∧
  ∃ wr, Writer_create id "base" schema policy props = Ok wr ∧
    wp (for_each (run_op no_regex id) ops;; W_close [] []) (no_files, wr)
      (λ cgs x, wr_closed x.2 = true ∧
         match op_batches ops with [] => cgs = [] | bs => Forall2 (group_closed schema x.1 bs) groups cgs end) failed.
Proof.
  split; [exact props_ok|]. split; [vm_compute; reflexivity|].
  apply (written_groups_complete (FWL := working_laws) no_regex id "base" schema groups names_distinct groups_good policy props ops no_files props_ok).
  - done.
  - intros b Hb. vm_compute in Hb. injection Hb as <-. vm_compute. reflexivity.
  - apply batches_good.
  - split; [|vm_compute; discriminate]. repeat apply Forall_cons_2; [vm_compute; reflexivity..|apply Forall_nil_2].
Defined.

(** The files of the run, evaluated: the first group rolled over twice. *)
Lemma run_evaluated :
  match Writer_create id "base" schema policy props with
  | Ok wr =>
      match (for_each (run_op no_regex id) ops;; W_close [] []) (no_files, wr) with
      | ((st, _), Ok cgs) =>
          (λ g, (columns g, (λ f, st_files st !! cgf_path f) <$> files g)) <$> cgs =
          [(["id"; "vec"], [Some [[1; 2]; [4; 5]]; Some [[7; 8]]; Some [[1; 2]; [4; 5]]]);
           (["ts"], [Some [[3]; [6]; [9]]; Some [[3]; [6]]])]
      | _ => False
      end
  | _ => False
  end.
Proof. vm_compute. reflexivity. Qed.

(** Rows that take no bytes are not counted, and closing drops the file that holds
    them. *)
Lemma zero_byte_rows_dropped :
  match Writer_create id "base" schema (mkPolicy schema "parquet" Single) props with
  | Ok wr =>
      match (run_op no_regex id (OpWrite (Some (mkBatch [[1; 2; 3]] 3 0 0)));; W_close [] []) (no_files, wr) with
      | (_, Ok cgs) => cgs = [mkGroup ["id"; "vec"; "ts"] "parquet" []]
      | _ => False
      end
  | _ => False
  end.
Proof. vm_compute. reflexivity. Qed.

(** When the second of two writers cannot be created, the first stays: writing the
    batch again makes a writer for each group once more, and the assertion on
    their number fails. *)
Lemma retried_initialization_undefined :
  let formats := mem_formats (λ n, (n =? 1)%nat) in
  match Writer_create (FWS := formats) id "base" schema policy props with
  | Ok wr =>
      let '(x, r) := W_write (FWS := formats) no_regex id (Some batch1) (no_files, wr) in
      r = Err status_IOError ∧ (W_write (FWS := formats) no_regex id (Some batch1) x).2 = Ub
  | _ => False
  end.
Proof. vm_compute. split; reflexivity. Qed.
End MemFormats.
