(* ===== verification/Segment.v ===== *)
(** * Segments

    [segment/segment_writer.cpp] and [segment/segment_reader.cpp]: a segment
    keeps the columns that are configured as LOB columns in files of their own.
    Its writer replaces the values of these columns by references and passes the
    batch on to the top-level writer; its reader resolves the references in what
    the top-level reader returns.  A writer in rewrite mode takes references
    instead of values, resolves them and stores the values again.

    The files of LOB columns and those of the column groups are separate, so the
    state has a store for each; all LOB columns share theirs.  A LOB writer or
    reader holds a pointer to the filesystem: the model gives it the store for
    the time of a call.  The top-level writer is that of [Writer]; the top-level
    reader and Arrow's tables are the class [TableReaders]. *)

From S2P Require Import Prelude CppString Status Config Paths ColumnGroups Properties Manifest ArrowData PackedMetadata ParquetWriter PackedWriter ColumnGroupPolicy ColumnGroupWriter Writer LobColumn.

(** ** The environment *)

(** [arrow::RecordBatch::schema], [arrow::Schema::Equals], and the cast of an
    array to [arrow::BinaryArray], of which [arrow::StringArray] is a subclass:
    the values of the array, [None] when it has another class. *)
Class SegmentArrays `{KVM : KeyValueMetadata} `{RB : RecordBatches} `{BM : !BatchMake} := {
  batch_schema : RecordBatch → Schema;
  Schema_Equals : Schema → Schema → bool;
  as_binary : Array → option (list (option value));
  of_binary : list (option value) → Array;
}.

(** The traversal of a [std::unordered_map<int, V>]. *)
Class IntMapOrder := iterate_int : ∀ {V}, gmap nat V → list (nat * V).
Class IntMapOrderLaws `{IntMapOrder} : Prop := iterate_int_perm : ∀ {V} (m : gmap nat V), iterate_int m ≡ₚ map_to_list m.

(** [api::Reader], the scans it makes, and [arrow::Table]. *)
Class TableReaders `{KVM : KeyValueMetadata} `{RB : RecordBatches} := {
  World : Type;                              (* what readers and scans keep, and the files *)
  TableReader : Type;
  BatchStream : Type;
  GroupChunkReader : Type;
  Table : Type;
  TR_create : list (option ColumnGroup) → Schema → list string → Properties → TableReader;
  TR_get_record_batch_reader : TableReader → string → M World Status BatchStream;
  TR_take : TableReader → list Z → Z → M World Status Table;
  TR_get_chunk_reader : TableReader → Z → option (list string) → M World Status GroupChunkReader;
  BS_ReadNext : BatchStream → M World Status (option RecordBatch);
  table_batches : Table → list RecordBatch;  (* what an [arrow::TableBatchReader] returns *)
  MakeEmpty : Schema → outcome Status Table;
  FromRecordBatches : Schema → list RecordBatch → outcome Status Table;
}.

(** A returned status, where exceptions are possible too. *)
Definition returned {S A} (m : M S Status A) : M S raised A := λ s,
  match m s with
  | (s', Ok a) => (s', Ok a)
  | (s', Err e) => (s', Err (Returned e))
  | (s', Ub) => (s', Ub)
  end.

Definition invalid {S A} : M S raised A := fail (Returned status_Invalid).

(** ** Fields *)

Section fields.
Context `{KVM : KeyValueMetadata}.

(** [GetFieldId]: a bad text in the metadata throws, a name that is no number
    gives -1. *)
Definition GetFieldId (field : Field) : outcome raised Z :=
  let from_name := Ok (default (-1) (stoll (fd_name field))) in
  match fd_metadata field with
  | None => from_name
  | Some metadata =>
      if kv_Contains metadata ARROW_FIELD_ID_KEY then
        match kv_Get metadata ARROW_FIELD_ID_KEY with
        | Ok text => match stoll text with Some id => Ok id | None => Err Thrown end
        | Err _ | Ub => Ub                   (* ValueOrDie *)
        end
      else from_name
  end.

(** The storage field of a LOB column; [field->metadata()->Copy()] dereferences
    a pointer that is null when the field has no metadata. *)
Definition storage_field (field : Field) : outcome raised Field :=
  metadata ← deref (fd_metadata field);
  Ok (mkField (fd_name field) "binary" (fd_nullable field) (Some metadata)).

(** What a segment makes of a field: its storage field, and whether it is a LOB
    column. *)
Definition classify (lob_columns : gmap Z LobColumnConfig) (field : Field) : outcome raised (Field * bool) :=
  id ← GetFieldId field;
  match lob_columns !! id with
  | Some _ => f ← storage_field field; Ok (f, true)
  | None => Ok (field, false)
  end.
End fields.

(** ** The writer *)

Record SegmentWriterConfig := mkSegmentWriterConfig {
  swc_segment_path : string;
  swc_lob_columns : gmap Z LobColumnConfig;
  swc_properties : Properties;
}.

Record SegmentWriterStats := mkSegmentStats {
  sst_total_rows : Z;
  sst_total_bytes : Z;
  sst_parquet_files_created : Z;
  sst_lob_files_created : Z;
}.

Record SegmentWriteOutput := mkSegmentOutput {
  swo_column_groups : list ColumnGroup;
  swo_lob_files : list LobFileInfo;
  swo_rows_written : Z;
}.

Section writer.
Context `{LF : LobFiles} `{KVM : KeyValueMetadata} `{RB : RecordBatches} `{BM : !BatchMake}.
Context `{FWS : !FormatWriters} `{SA : !SegmentArrays} `{IMO : IntMapOrder}.
Context (regex_match : string → string → option bool) (trim_copy : string → string).

Record SegmentWriter := mkSegmentWriter {
  sw_original_schema : Schema;
  sw_storage_schema : Schema;
  sw_config : SegmentWriterConfig;
  sw_lob_column_indices : list nat;
  sw_closed : bool;
  sw_written_rows : Z;
  sw_lob_writers : gmap nat LobColumnWriter;
  sw_lob_readers : gmap nat LobColumnReader;
  sw_rewrite_columns : gset nat;
  sw_writer : option Writer;
  sw_lob_file_results : gmap nat (list LobFileResult);
  sw_stats : SegmentWriterStats;
}.

(** The files of the LOB columns, those of the column groups, and the writer. *)
Record SegmentState := mkSegmentState {
  ss_lob : LobColumn.Store;
  ss_tables : ColumnGroupWriter.Store;
  ss_writer : SegmentWriter;
}.

Definition SW (A : Type) : Type := M SegmentState raised A.

Definition SegmentWriterImpl (original_schema storage_schema : Schema) (config : SegmentWriterConfig)
    (lob_column_indices : list nat) : SegmentWriter :=
  mkSegmentWriter original_schema storage_schema config lob_column_indices false 0 ∅ ∅ ∅ None ∅
    (mkSegmentStats 0 0 0 0).

Definition set_sw (f : SegmentWriter → SegmentWriter) (s : SegmentState) : SegmentState :=
  mkSegmentState (ss_lob s) (ss_tables s) (f (ss_writer s)).

Definition set_sw_closed (w : SegmentWriter) : SegmentWriter :=
  mkSegmentWriter (sw_original_schema w) (sw_storage_schema w) (sw_config w) (sw_lob_column_indices w) true
    (sw_written_rows w) (sw_lob_writers w) (sw_lob_readers w) (sw_rewrite_columns w) (sw_writer w)
    (sw_lob_file_results w) (sw_stats w).
Definition set_sw_lob_writers (m : gmap nat LobColumnWriter) (w : SegmentWriter) : SegmentWriter :=
  mkSegmentWriter (sw_original_schema w) (sw_storage_schema w) (sw_config w) (sw_lob_column_indices w) (sw_closed w)
    (sw_written_rows w) m (sw_lob_readers w) (sw_rewrite_columns w) (sw_writer w)
    (sw_lob_file_results w) (sw_stats w).
Definition set_sw_lob_readers (m : gmap nat LobColumnReader) (rewrite : gset nat) (w : SegmentWriter) : SegmentWriter :=
  mkSegmentWriter (sw_original_schema w) (sw_storage_schema w) (sw_config w) (sw_lob_column_indices w) (sw_closed w)
    (sw_written_rows w) (sw_lob_writers w) m rewrite (sw_writer w) (sw_lob_file_results w) (sw_stats w).
Definition set_sw_writer (wr : option Writer) (w : SegmentWriter) : SegmentWriter :=
  mkSegmentWriter (sw_original_schema w) (sw_storage_schema w) (sw_config w) (sw_lob_column_indices w) (sw_closed w)
    (sw_written_rows w) (sw_lob_writers w) (sw_lob_readers w) (sw_rewrite_columns w) wr
    (sw_lob_file_results w) (sw_stats w).
Definition set_sw_results (m : gmap nat (list LobFileResult)) (w : SegmentWriter) : SegmentWriter :=
  mkSegmentWriter (sw_original_schema w) (sw_storage_schema w) (sw_config w) (sw_lob_column_indices w) (sw_closed w)
    (sw_written_rows w) (sw_lob_writers w) (sw_lob_readers w) (sw_rewrite_columns w) (sw_writer w) m (sw_stats w).
Definition set_sw_stats (rows : Z) (st : SegmentWriterStats) (w : SegmentWriter) : SegmentWriter :=
  mkSegmentWriter (sw_original_schema w) (sw_storage_schema w) (sw_config w) (sw_lob_column_indices w) (sw_closed w)
    rows (sw_lob_writers w) (sw_lob_readers w) (sw_rewrite_columns w) (sw_writer w) (sw_lob_file_results w) st.

(** A call on the LOB writer of column [i], and on its reader; a missing entry is
    [end()] of the map. *)
Definition on_lob_writer {A} (i : nat) (m : LW A) : SW A := λ s,
  match sw_lob_writers (ss_writer s) !! i with
  | None => (s, Ub)
  | Some w =>
      let '(w', r) := returned m (set_fs (ss_lob s) w) in
      (mkSegmentState (lw_fs w') (ss_tables s)
         (set_sw_lob_writers (<[i := w']> (sw_lob_writers (ss_writer s))) (ss_writer s)), r)
  end.

Definition on_lob_reader {A} (i : nat) (m : LR A) : SW A := λ s,
  match sw_lob_readers (ss_writer s) !! i with
  | None => (s, Ub)
  | Some w =>
      let '(w', r) := returned m (set_store (ss_lob s) w) in
      (mkSegmentState (lr_fs w') (ss_tables s)
         (set_sw_lob_readers (<[i := w']> (sw_lob_readers (ss_writer s))) (sw_rewrite_columns (ss_writer s))
            (ss_writer s)), r)
  end.

(** A call on [writer_]. *)
Definition on_table_writer {A} (m : M (ColumnGroupWriter.Store * Writer) Status A) : SW A := λ s,
  match sw_writer (ss_writer s) with
  | None => (s, Ub)
  | Some w =>
      let '((st, w'), r) := returned m (ss_tables s, w) in
      (mkSegmentState (ss_lob s) st (set_sw_writer (Some w') (ss_writer s)), r)
  end.

(** *** Creation *)

(** The body of the loop over the LOB columns. *)
Definition init_lob_column (col_idx : nat) : SW unit :=
  s ← get_st;
  field ← lift (deref (sw_original_schema (ss_writer s) !! col_idx));
  id ← lift (GetFieldId field);
  if id <? 0 then invalid
  else
    match swc_lob_columns (sw_config (ss_writer s)) !! id with
    | None => invalid
    | Some config =>
        modify (λ s, set_sw (set_sw_lob_writers
          (<[col_idx := CreateLobColumnWriter (ss_lob s) config]> (sw_lob_writers (ss_writer s)))) s);;
        if rewrite_mode config then
          modify (λ s, set_sw (set_sw_lob_readers
            (<[col_idx := CreateLobColumnReader (ss_lob s) config]> (sw_lob_readers (ss_writer s)))
            ({[col_idx]} ∪ sw_rewrite_columns (ss_writer s))) s)
        else mret tt
    end.

Definition Segment_Init : SW unit :=
  s ← get_st;
  for_each init_lob_column (sw_lob_column_indices (ss_writer s));;
  let config := sw_config (ss_writer s) in
  policy ← returned (lift (create_column_group_policy trim_copy (swc_properties config)
                             (sw_storage_schema (ss_writer s))));
  match Writer_create trim_copy (swc_segment_path config) (sw_storage_schema (ss_writer s)) policy
          (swc_properties config) with
  | Ok w => modify (set_sw (set_sw_writer (Some w)))
  | Err _ | Ub => undefined
  end.

(** *** Writing *)

(** [std::static_pointer_cast<arrow::BinaryArray>]: using an array of another
    class is undefined. *)
Definition static_binary (array : Array) : outcome raised (list (option value)) := deref (as_binary array).

(** The body of the loop over the columns. *)
Definition write_column (batch : RecordBatch) (i : nat) : SW Array :=
  array ← lift (deref (batch_arrays batch !! i));
  s ← get_st;
  match sw_lob_writers (ss_writer s) !! i with
  | None => mret array
  | Some _ =>
      if bool_decide (i ∈ sw_rewrite_columns (ss_writer s)) then
        ref_array ← lift (static_binary array);
        decoded_array ← on_lob_reader i (ReadArrowArray ref_array);
        new_ref_array ← on_lob_writer i (WriteArrowArray decoded_array);
        mret (of_binary new_ref_array)
      else
        data_array ← lift (static_binary array);
        ref_array ← on_lob_writer i (WriteArrowArray data_array);
        mret (of_binary ref_array)
  end.

Fixpoint write_columns (batch : RecordBatch) (idx : list nat) : SW (list Array) :=
  match idx with
  | [] => mret []
  | i :: idx' =>
      a ← write_column batch i;
      rest ← write_columns batch idx';
      mret (a :: rest)
  end.

Definition count_rows (n : Z) (w : SegmentWriter) : SegmentWriter :=
  let rows := sw_written_rows w + n in
  set_sw_stats rows (mkSegmentStats rows (sst_total_bytes (sw_stats w)) (sst_parquet_files_created (sw_stats w))
    (sst_lob_files_created (sw_stats w))) w.

Definition Segment_Write (batch : option RecordBatch) : SW unit :=
  s ← get_st;
  let w := ss_writer s in
  if sw_closed w then invalid
  else
    match batch with
    | None => mret tt
    | Some b =>
        if num_rows b =? 0 then mret tt
        else if (if bool_decide (sw_rewrite_columns w = ∅) then negb (Schema_Equals (batch_schema b) (sw_original_schema w))
                 else negb (num_columns b =? Z.of_nat (length (sw_original_schema w)))) then invalid
        else
          cols ← write_columns b (seq 0 (Z.to_nat (num_columns b)));
          on_table_writer (W_write regex_match trim_copy (Some (Batch_Make (sw_storage_schema w) (num_rows b) cols)));;
          modify (set_sw (count_rows (num_rows b)))
    end.

Definition lob_writer_keys (s : SegmentState) : list nat := (iterate_int (sw_lob_writers (ss_writer s))).*1.
Definition lob_reader_keys (s : SegmentState) : list nat := (iterate_int (sw_lob_readers (ss_writer s))).*1.

Definition Segment_Flush : SW unit :=
  s ← get_st;
  if sw_closed (ss_writer s) then invalid
  else
    for_each (λ i, on_lob_writer i Flush) (lob_writer_keys s);;
    on_table_writer W_flush.

(** *** Closing *)

(** The body of the loop that closes the LOB writers. *)
Definition close_lob_writer (col_idx : nat) : SW unit :=
  lob_files ← on_lob_writer col_idx Close;
  modify (λ s, set_sw (set_sw_results (<[col_idx := lob_files]> (sw_lob_file_results (ss_writer s)))) s);;
  s ← get_st;
  text_writer ← lift (deref (sw_lob_writers (ss_writer s) !! col_idx));
  let w := ss_writer s in
  modify (set_sw (set_sw_stats (sw_written_rows w)
    (mkSegmentStats (sst_total_rows (sw_stats w)) (sst_total_bytes (sw_stats w))
       (sst_parquet_files_created (sw_stats w))
       (sst_lob_files_created (sw_stats w) + lob_files_created (lw_stats text_writer))))).

(** The entries of one column. *)
Definition lob_infos (schema : Schema) (e : nat * list LobFileResult) : outcome raised (list LobFileInfo) :=
  field ← deref (schema !! e.1);
  id ← GetFieldId field;
  Ok ((λ r, mkLob (lf_path r) id (lf_total_rows r) (lf_valid_rows r) (lf_file_size_bytes r)) <$> e.2).

Definition build_lob_files (schema : Schema) (results : list (nat * list LobFileResult)) :
    outcome raised (list LobFileInfo) :=
  fold_out (λ acc e, infos ← lob_infos schema e; Ok (acc ++ infos)) results [].

Definition Segment_Close : SW SegmentWriteOutput :=
  s ← get_st;
  if sw_closed (ss_writer s) then invalid
  else
    Segment_Flush;;
    s ← get_st;
    for_each close_lob_writer (lob_writer_keys s);;
    s ← get_st;
    for_each (λ i, on_lob_reader i Reader_Close) (lob_reader_keys s);;
    column_groups ← on_table_writer (W_close [] []);
    s ← get_st;
    let w := ss_writer s in
    modify (set_sw (set_sw_stats (sw_written_rows w)
      (mkSegmentStats (sst_total_rows (sw_stats w)) (sst_total_bytes (sw_stats w)) (Z.of_nat (length column_groups))
         (sst_lob_files_created (sw_stats w)))));;
    infos ← lift (build_lob_files (sw_original_schema w) (iterate_int (sw_lob_file_results w)));
    modify (set_sw set_sw_closed);;
    mret (mkSegmentOutput column_groups infos (sw_written_rows w)).

(** The statuses of the LOB writers and readers are dropped. *)
Definition Segment_Abort : SW unit :=
  s ← get_st;
  if sw_closed (ss_writer s) then mret tt
  else
    for_each (λ i, _ ← catch (on_lob_writer i Abort); mret tt) (lob_writer_keys s);;
    s ← get_st;
    for_each (λ i, _ ← catch (on_lob_reader i Reader_Close); mret tt) (lob_reader_keys s);;
    modify (set_sw set_sw_closed).

(** *** The factory *)

(** The storage schema and the positions of the LOB columns; [i] is the position
    of the first field. *)
Fixpoint build_storage (lob_columns : gmap Z LobColumnConfig) (i : nat) (schema : list Field) :
    outcome raised (list Field * list nat) :=
  match schema with
  | [] => Ok ([], [])
  | field :: schema' =>
      fl ← classify lob_columns field;
      rest ← build_storage lob_columns (S i) schema';
      Ok (fl.1 :: rest.1, if (fl.2 : bool) then i :: rest.2 else rest.2)
  end.

(** [SegmentWriter::Create]; the writer is destroyed, and so aborted, when [Init]
    fails. *)
Definition SegmentWriter_Create (has_fs : bool) (schema : option Schema) (config : SegmentWriterConfig)
    (fs : LobColumn.Store) (tables : ColumnGroupWriter.Store) : LobColumn.Store * ColumnGroupWriter.Store * outcome raised SegmentWriter :=
  if negb has_fs then (fs, tables, Err (Returned status_Invalid))
  else
    match schema with
    | None => (fs, tables, Err (Returned status_Invalid))
    | Some schema =>
        if is_empty (swc_segment_path config) then (fs, tables, Err (Returned status_Invalid))
        else
          match swc_properties config !! PROPERTY_WRITER_POLICY with
          | None => (fs, tables, Err (Returned status_Invalid))
          | Some _ =>
              match build_storage (swc_lob_columns config) 0 schema with
              | Err e => (fs, tables, Err e)
              | Ub => (fs, tables, Ub)
              | Ok (storage_fields, lob_column_indices) =>
                  match Segment_Init (mkSegmentState fs tables
                          (SegmentWriterImpl schema storage_fields config lob_column_indices)) with
                  | (s, Ok _) => (ss_lob s, ss_tables s, Ok (ss_writer s))
                  | (s, Err e) => let '(s', _) := Segment_Abort s in (ss_lob s', ss_tables s', Err e)
                  | (s, Ub) => (ss_lob s, ss_tables s, Ub)
                  end
              end
          end
    end.
End writer.

(** ** The reader *)

Record SegmentReaderConfig := mkSegmentReaderConfig {
  src_lob_columns : gmap Z LobColumnConfig;
  src_read_buffer_size : Z;
  src_properties : Properties;
}.

Section reader.
Context `{LF : LobFiles} `{KVM : KeyValueMetadata} `{RB : RecordBatches} `{BM : !BatchMake}.
Context `{SA : !SegmentArrays} `{IMO : IntMapOrder} `{TRS : !TableReaders}.

Record SegmentReader := mkSegmentReader {
  sr_original_schema : Schema;
  sr_extracted_schema : Schema;
  sr_storage_schema : Schema;
  sr_extracted_columns : list string;
  sr_config : SegmentReaderConfig;
  sr_lob_column_indices : list nat;
  sr_closed : bool;
  sr_total_rows : Z;
  sr_column_groups : list (option ColumnGroup);
  sr_reader : option TableReader;
  sr_batch_reader : option BatchStream;
  sr_lob_readers : gmap nat LobColumnReader;
}.

Record SegmentReaderState := mkSegmentReaderState {
  rs_lob : LobColumn.Store;
  rs_world : World;
  rs_reader : SegmentReader;
}.

Definition SR (A : Type) : Type := M SegmentReaderState raised A.

Definition SegmentReaderImpl (original_schema extracted_schema storage_schema : Schema)
    (extracted_columns : list string) (config : SegmentReaderConfig) (lob_column_indices : list nat) : SegmentReader :=
  mkSegmentReader original_schema extracted_schema storage_schema extracted_columns config lob_column_indices
    false 0 [] None None ∅.

Definition set_sr (f : SegmentReader → SegmentReader) (s : SegmentReaderState) : SegmentReaderState :=
  mkSegmentReaderState (rs_lob s) (rs_world s) (f (rs_reader s)).

Definition set_sr_status (closed : bool) (rows : Z) (r : SegmentReader) : SegmentReader :=
  mkSegmentReader (sr_original_schema r) (sr_extracted_schema r) (sr_storage_schema r) (sr_extracted_columns r)
    (sr_config r) (sr_lob_column_indices r) closed rows (sr_column_groups r) (sr_reader r) (sr_batch_reader r)
    (sr_lob_readers r).
Definition set_sr_reader (groups : list (option ColumnGroup)) (reader : option TableReader)
    (stream : option BatchStream) (r : SegmentReader) : SegmentReader :=
  mkSegmentReader (sr_original_schema r) (sr_extracted_schema r) (sr_storage_schema r) (sr_extracted_columns r)
    (sr_config r) (sr_lob_column_indices r) (sr_closed r) (sr_total_rows r) groups reader stream (sr_lob_readers r).
Definition set_sr_lob_readers (m : gmap nat LobColumnReader) (r : SegmentReader) : SegmentReader :=
  mkSegmentReader (sr_original_schema r) (sr_extracted_schema r) (sr_storage_schema r) (sr_extracted_columns r)
    (sr_config r) (sr_lob_column_indices r) (sr_closed r) (sr_total_rows r) (sr_column_groups r) (sr_reader r)
    (sr_batch_reader r) m.

Definition on_text_reader {A} (i : nat) (m : LR A) : SR A := λ s,
  match sr_lob_readers (rs_reader s) !! i with
  | None => (s, Ub)
  | Some w =>
      let '(w', r) := returned m (set_store (rs_lob s) w) in
      (mkSegmentReaderState (lr_fs w') (rs_world s)
         (set_sr_lob_readers (<[i := w']> (sr_lob_readers (rs_reader s))) (rs_reader s)), r)
  end.

Definition on_world {A} (m : M World Status A) : SR A := λ s,
  let '(w, r) := returned m (rs_world s) in (mkSegmentReaderState (rs_lob s) w (rs_reader s), r).

(** *** Schemas *)

(** The loop of [BuildSchemasForExtraction]: the extracted fields, the storage
    fields, and the positions of the LOB columns; [extracted_idx] is the position
    of the next extracted field. *)
Fixpoint extract_fields (lob_columns : gmap Z LobColumnConfig) (wanted : string → bool) (extracted_idx : nat)
    (schema : list Field) : outcome raised (list Field * list Field * list nat) :=
  match schema with
  | [] => Ok ([], [], [])
  | field :: schema' =>
      if negb (wanted (fd_name field)) then extract_fields lob_columns wanted extracted_idx schema'
      else
        fl ← classify lob_columns field;
        rest ← extract_fields lob_columns wanted (S extracted_idx) schema';
        Ok (field :: rest.1.1, fl.1 :: rest.1.2, if (fl.2 : bool) then extracted_idx :: rest.2 else rest.2)
  end.

Definition BuildSchemasForExtraction (original_schema : Schema) (columns : list string)
    (lob_columns : gmap Z LobColumnConfig) : outcome raised (list Field * list Field * list nat) :=
  let extract_all := bool_decide (columns = []) in
  r ← extract_fields lob_columns (λ name, extract_all || bool_decide (name ∈ columns)) 0 original_schema;
  match r.1.1 with
  | [] => Err (Returned status_Invalid)
  | _ => Ok r
  end.

(** *** Creation *)

Definition init_text_column (extracted_idx : nat) : SR unit :=
  s ← get_st;
  field ← lift (deref (sr_extracted_schema (rs_reader s) !! extracted_idx));
  id ← lift (GetFieldId field);
  if id <? 0 then invalid
  else
    match src_lob_columns (sr_config (rs_reader s)) !! id with
    | None => invalid
    | Some config =>
        modify (λ s, set_sr (set_sr_lob_readers
          (<[extracted_idx := CreateLobColumnReader (rs_lob s) config]> (sr_lob_readers (rs_reader s)))) s)
    end.

Definition SegmentReader_Init (column_groups : list (option ColumnGroup)) : SR unit :=
  s ← get_st;
  let r := rs_reader s in
  let reader := TR_create column_groups (sr_storage_schema r) (fd_name <$> sr_storage_schema r)
                  (src_properties (sr_config r)) in
  modify (set_sr (set_sr_reader column_groups (Some reader) None));;
  for_each init_text_column (sr_lob_column_indices r);;
  stream ← on_world (TR_get_record_batch_reader reader "");
  modify (set_sr (set_sr_reader column_groups (Some reader) (Some stream))).

(** *** Reading *)

(** The loop over the columns of a batch, in [ResolveLobColumns] and in the
    [ReadNext] of a stream. *)
Fixpoint resolve_columns (storage_batch : RecordBatch) (idx : list nat) : SR (list Array) :=
  match idx with
  | [] => mret []
  | i :: idx' =>
      array ← lift (deref (batch_arrays storage_batch !! i));
      s ← get_st;
      a ← match sr_lob_readers (rs_reader s) !! i with
          | None => mret array
          | Some _ =>
              match as_binary array with
              | None => invalid
              | Some ref_array => resolved ← on_text_reader i (ReadArrowArray ref_array); mret (of_binary resolved)
              end
          end;
      rest ← resolve_columns storage_batch idx';
      mret (a :: rest)
  end.

Definition ResolveLobColumns (storage_batch : RecordBatch) : SR RecordBatch :=
  s ← get_st;
  let schema := sr_extracted_schema (rs_reader s) in
  if bool_decide (sr_lob_readers (rs_reader s) = ∅) then
    mret (Batch_Make schema (num_rows storage_batch) (batch_arrays storage_batch))
  else
    cols ← resolve_columns storage_batch (seq 0 (Z.to_nat (num_columns storage_batch)));
    mret (Batch_Make schema (num_rows storage_batch) cols).

Definition reader_check_open : SR unit :=
  s ← get_st; if sr_closed (rs_reader s) then invalid else mret tt.

(** [None] is the null pointer at the end. *)
Definition SegmentReader_ReadNext : SR (option RecordBatch) :=
  reader_check_open;;
  s ← get_st;
  stream ← lift (deref (sr_batch_reader (rs_reader s)));
  storage_batch ← on_world (BS_ReadNext stream);
  match storage_batch with
  | None => mret None
  | Some b =>
      modify (λ s, set_sr (set_sr_status (sr_closed (rs_reader s)) (sr_total_rows (rs_reader s) + num_rows b)) s);;
      batch ← ResolveLobColumns b;
      mret (Some batch)
  end.

Fixpoint resolve_batches (batches : list RecordBatch) : SR (list RecordBatch) :=
  match batches with
  | [] => mret []
  | b :: batches' =>
      r ← ResolveLobColumns b;
      rest ← resolve_batches batches';
      mret (r :: rest)
  end.

Definition SegmentReader_Take (row_indices : list Z) (parallelism : Z) : SR Table :=
  reader_check_open;;
  s ← get_st;
  let schema := sr_extracted_schema (rs_reader s) in
  match row_indices with
  | [] => returned (lift (MakeEmpty schema))
  | _ =>
      reader ← lift (deref (sr_reader (rs_reader s)));
      storage_table ← on_world (TR_take reader row_indices parallelism);
      resolved_batches ← resolve_batches (table_batches storage_table);
      match resolved_batches with
      | [] => returned (lift (MakeEmpty schema))
      | _ => returned (lift (FromRecordBatches schema resolved_batches))
      end
  end.

Definition SegmentReader_Close : SR unit :=
  s ← get_st;
  if sr_closed (rs_reader s) then mret tt
  else
    for_each (λ i, on_text_reader i Reader_Close) (iterate_int (sr_lob_readers (rs_reader s))).*1;;
    modify (λ s, set_sr (set_sr_status true (sr_total_rows (rs_reader s))) s).

(** What [GetStream] returns: the scan itself, or a wrapper that refers to the
    LOB readers of the segment reader, which has to outlive it. *)
Inductive SegmentStream :=
  | PlainStream (inner : BatchStream)
  | LobResolvingRecordBatchReader (inner : BatchStream) (resolved_schema : Schema).

Definition SegmentReader_GetStream (predicate : string) : SR SegmentStream :=
  reader_check_open;;
  s ← get_st;
  reader ← lift (deref (sr_reader (rs_reader s)));
  inner ← on_world (TR_get_record_batch_reader reader predicate);
  if bool_decide (sr_lob_readers (rs_reader s) = ∅) then mret (PlainStream inner)
  else mret (LobResolvingRecordBatchReader inner (sr_extracted_schema (rs_reader s))).

Definition SegmentStream_ReadNext (stream : SegmentStream) : SR (option RecordBatch) :=
  match stream with
  | PlainStream inner => on_world (BS_ReadNext inner)
  | LobResolvingRecordBatchReader inner resolved_schema =>
      storage_batch ← on_world (BS_ReadNext inner);
      match storage_batch with
      | None => mret None
      | Some b =>
          cols ← resolve_columns b (seq 0 (Z.to_nat (num_columns b)));
          mret (Some (Batch_Make resolved_schema (num_rows b) cols))
      end
  end.

Definition SegmentReader_GetChunkReader (column_group_index : Z) (needed_columns : option (list string)) :
    SR GroupChunkReader :=
  reader_check_open;;
  s ← get_st;
  reader ← lift (deref (sr_reader (rs_reader s)));
  on_world (TR_get_chunk_reader reader column_group_index needed_columns).

(** *** The factories *)

(** What the two factories share: the schemas, then [Init]; a reader that was not
    returned is destroyed, and so closed. *)
Definition make_reader (schema : Schema) (columns : list string) (config : SegmentReaderConfig)
    (column_groups : list (option ColumnGroup)) (fs : LobColumn.Store) (w : World) :
    LobColumn.Store * World * outcome raised SegmentReader :=
  let extracted_columns := match columns with [] => fd_name <$> schema | _ => columns end in
  match BuildSchemasForExtraction schema extracted_columns (src_lob_columns config) with
  | Err e => (fs, w, Err e)
  | Ub => (fs, w, Ub)
  | Ok (extracted_schema, storage_schema, lob_column_indices) =>
      match SegmentReader_Init column_groups (mkSegmentReaderState fs w
              (SegmentReaderImpl schema extracted_schema storage_schema extracted_columns config
                 lob_column_indices)) with
      | (s, Ok _) => (rs_lob s, rs_world s, Ok (rs_reader s))
      | (s, Err e) => let '(s', _) := SegmentReader_Close s in (rs_lob s', rs_world s', Err e)
      | (s, Ub) => (rs_lob s, rs_world s, Ub)
      end
  end.

Definition SegmentReader_Create (has_fs : bool) (column_groups : option (list (option ColumnGroup)))
    (schema : option Schema) (columns : list string) (config : SegmentReaderConfig) (fs : LobColumn.Store) (w : World) :
    LobColumn.Store * World * outcome raised SegmentReader :=
  if negb has_fs then (fs, w, Err (Returned status_Invalid))
  else
    match schema, column_groups with
    | Some schema, Some groups => make_reader schema columns config groups fs w
    | _, _ => (fs, w, Err (Returned status_Invalid))
    end.

Definition SegmentReader_Open (has_fs : bool) (manifest : option (Manifest ColumnGroup)) (schema : option Schema)
    (columns : list string) (config : SegmentReaderConfig) (fs : LobColumn.Store) (w : World) :
    LobColumn.Store * World * outcome raised SegmentReader :=
  if negb has_fs then (fs, w, Err (Returned status_Invalid))
  else
    match schema, manifest with
    | Some schema, Some m => make_reader schema columns config (column_groups_ m) fs w
    | _, _ => (fs, w, Err (Returned status_Invalid))
    end.
End reader.
