(* ===== verification/SegmentCorrect.v ===== *)
(** * Segments keep their rows

    A segment that was written and closed holds, in the files of its column
    groups, every row with references in place of the values of LOB columns; each
    reference resolves to its value, and the files it needs are listed in the
    output.  A segment reader gives back the original values for whatever rows it
    is asked for. *)

From S2P Require Import Prelude CppString Status Config Paths ColumnGroups Properties Manifest ArrowData PackedMetadata ParquetWriter PackedWriter ColumnGroupPolicy ColumnGroupWriter ColumnGroupWriterCorrect Writer WriterCorrect LobColumn LobColumnCorrect LobShared LobBatchRead Segment.

(** What segments rely on of record batches: a batch has a column for each field
    of its schema, and [Make] keeps the arrays. *)
Class SegmentArraysLaws `{SA : SegmentArrays} : Prop := {
  equal_schemas b s : Schema_Equals (batch_schema b) s = true → num_columns b = Z.of_nat (length s);
  binary_back l : as_binary (of_binary l) = Some l;
  make_arrays fields n arrs : batch_arrays (Batch_Make fields n arrs) = arrs;
}.

(** ** Runs with statuses and exceptions *)

Lemma wp_returned {S A} (m : M S Status A) s Q R :
  wp m s Q (λ e, R (Returned e)) → wp (returned m) s Q R.
Proof. unfold wp, returned. by destruct (m s) as [s' [a|e|]]. Qed.

(** ** References of an array *)

(** Nulls stay nulls. *)
Definition same_nulls (data refs : list (option value)) : Prop := Forall2 (λ d r, is_Some d ↔ is_Some r) data refs.

Section arrays.
Context `{LL : LobLaws}.

Lemma write_array_nulls data b s s' b' :
  write_array data b s = (s', Ok b') → ∃ refs, b' = b ++ refs ∧ same_nulls data refs.
Proof.
  revert b s. induction data as [|d data IH]; intros b s Hw; cbn [write_array] in Hw.
  { injection Hw as <- <-. exists []. rewrite app_nil_r. split; [done|constructor]. }
  assert (∀ b1 s1 (x : option value), (is_Some d ↔ is_Some x) → array_Append b x = Ok b1 → write_array data b1 s1 = (s', Ok b') →
    ∃ refs, b' = b ++ refs ∧ same_nulls (d :: data) refs) as Hstep.
  { intros b1 s1 x Hx Ha Hr. apply array_append_ok in Ha as ->. apply IH in Hr as (refs & -> & Hn).
    exists (x :: refs). rewrite <- app_assoc. split; [done|by constructor]. }
  destruct d as [v|]; unfold mbind, M_bind, lift in Hw.
  - destruct (WriteData v s) as [s1 [ref|e|]]; try done. destruct (array_Append b (Some ref)) as [b1|e|] eqn:Ha; try done.
    eapply (Hstep b1 s1 (Some ref)); [|done|exact Hw]. by split; eexists.
  - destruct (array_Append b None) as [b1|e|] eqn:Ha; try done. eapply (Hstep b1 _ None); [done|done|exact Hw].
Qed.

(** One column of a batch written to its LOB writer. *)
Lemma write_arrow_array_spec c n hist s data :
  0 < flush_threshold_bytes c → good c n hist s →
  Forall (λ d, ∀ v, d = Some v → value_ok c v) data → n + count_of data ≤ INT32_MAX →
  wp (WriteArrowArray data) s
    (λ refs s', same_nulls data refs ∧ good c (n + count_of data) (hist ++ given data refs) s') (λ _ _, True).
Proof.
  intros Ht Hg Hv Hn. unfold WriteArrowArray. apply wp_bind. eapply check_open_good; [done|]. apply wp_bind.
  pose proof (write_array_good c Ht n hist s data [] Hg Hv Hn) as Hw. unfold wp at 1. unfold wp in Hw.
  destruct (write_array data [] s) as [s' [b|e|]] eqn:Hrun; [|done|done].
  destruct Hw as (refs & -> & _ & Hgood). apply write_array_nulls in Hrun as (refs' & He & Hnull). simpl in *. subst refs'.
  apply wp_lift_case. destruct (array_Finish refs) as [b|e|] eqn:Hf; [|done|by apply array_finish_defined in Hf].
  by apply array_finish_ok in Hf as ->.
Qed.

Lemma flush_good c n hist s :
  0 < flush_threshold_bytes c → good c n hist s → wp Flush s (λ _ s', good c n hist s') (λ _ _, True).
Proof.
  intros Ht Hg. unfold Flush. apply wp_bind. eapply check_open_good; [done|].
  eapply wp_mono; [apply (flush_roll_good c Ht n hist)|done|done]. destruct Hg as [[Hh _]|Hb]; [by left|by right].
Qed.
End arrays.

(** ** The LOB columns of a schema *)

Section lob_columns.
Context `{KVM : KeyValueMetadata}.
Implicit Types (cfgs : gmap Z LobColumnConfig) (schema : Schema).

(** The configuration of column [i], when it is a LOB column. *)
Definition lob_config cfgs schema (i : nat) : option LobColumnConfig :=
  match schema !! i with
  | Some f => match GetFieldId f with Ok id => cfgs !! id | _ => None end
  | None => None
  end.

Lemma lob_config_field cfgs schema i c :
  lob_config cfgs schema i = Some c → ∃ f id, schema !! i = Some f ∧ GetFieldId f = Ok id ∧ cfgs !! id = Some c.
Proof.
  unfold lob_config. destruct (schema !! i) as [f|]; [|done]. destruct (GetFieldId f) as [id|e|] eqn:Hid; try done.
  intros Hc. by exists f, id.
Qed.

Lemma classify_spec cfgs f f' b :
  classify cfgs f = Ok (f', b) →
  ∃ id, GetFieldId f = Ok id ∧ b = bool_decide (is_Some (cfgs !! id)) ∧ fd_name f' = fd_name f.
Proof.
  unfold classify. intros (id & Hid & Hc)%bind_Ok_inv. exists id. split; [done|].
  destruct (cfgs !! id) as [c|].
  - unfold storage_field in Hc. apply bind_Ok_inv in Hc as (g & (m & _ & [= <-])%bind_Ok_inv & [= <- <-]). done.
  - by injection Hc as <- <-.
Qed.

Lemma build_storage_spec cfgs k schema storage idx :
  build_storage cfgs k schema = Ok (storage, idx) →
  fd_name <$> storage = fd_name <$> schema ∧
  ∀ j, j ∈ idx ↔ ∃ i, j = (k + i)%nat ∧ is_Some (lob_config cfgs schema i).
Proof.
  revert k storage idx. induction schema as [|f schema IH]; intros k storage idx; cbn [build_storage].
  { intros [= <- <-]. split; [done|]. intros j. split; [by intros ?%not_elem_of_nil|]. by intros (i & _ & [? ?]). }
  intros ([f' b] & Hc & ([fs' idx'] & Hrest & [= <- <-])%bind_Ok_inv)%bind_Ok_inv. simpl in *.
  apply classify_spec in Hc as (id & Hid & -> & Hn). destruct (IH _ _ _ Hrest) as [Hnames Hidx].
  split; [by f_equal|]. intros j.
  assert (is_Some (lob_config cfgs (f :: schema) 0) ↔ is_Some (cfgs !! id)) as H0 by (unfold lob_config; simpl; by rewrite Hid).
  assert ((∃ i, j = (k + i)%nat ∧ is_Some (lob_config cfgs (f :: schema) i)) ↔
    (j = k ∧ is_Some (cfgs !! id)) ∨ j ∈ idx') as ->.
  { rewrite Hidx, <- H0. split.
    - intros ([|i] & -> & Hi); [left; by rewrite Nat.add_0_r|right]. exists i. split; [lia|done].
    - intros [[-> Hi]|(i & -> & Hi)]; [exists 0%nat|exists (S i)]; (split; [lia|done]). }
  case_bool_decide; [rewrite elem_of_cons|]; tauto.
Qed.
End lob_columns.

(** ** The writer *)

Section writer.
Context `{SL : SharedLobLaws} `{FWL : FormatWriterLaws} `{BM : !BatchMake} `{BML : !BatchMakeLaws}.
Context `{SA : !SegmentArrays} `{SAL : !SegmentArraysLaws} `{IML : IntMapOrderLaws}.
Context (regex_match : string → string → option bool) (trim_copy : string → string).
(** The configuration, the schema with its storage schema, the policy and the
    column groups that it makes. *)
Context (config : SegmentWriterConfig) (schema storage : Schema) (policy : ColumnGroupPolicy) (gs : list ColumnGroup).

Implicit Types (fs : LobColumn.Store) (st : ColumnGroupWriter.Store) (b sb : RecordBatch) (s : SegmentState).

#[local] Abbreviation lob i := (lob_config (swc_lob_columns config) schema i).

Hypothesis Hrewrite : ∀ id c, swc_lob_columns config !! id = Some c → rewrite_mode c = false.
Hypothesis Hthreshold : ∀ id c, swc_lob_columns config !! id = Some c → 0 < flush_threshold_bytes c.
Hypothesis Hseparate : ∀ i j c c', i ≠ j → lob i = Some c → lob j = Some c' → separate c c'.

Lemma lob_threshold i c : lob i = Some c → 0 < flush_threshold_bytes c.
Proof. intros (f & id & _ & _ & Hc)%lob_config_field. by eapply Hthreshold. Qed.

(** *** Creation *)

Definition with_lob_writers (m : gmap nat LobColumnWriter) s : SegmentState := set_sw (set_sw_lob_writers m) s.

Lemma init_lob_columns_spec l s :
  sw_original_schema (ss_writer s) = schema → sw_config (ss_writer s) = config →
  Forall (λ i, is_Some (lob i)) l →
  wp (for_each init_lob_column l) s
    (λ _ s', ∃ m, s' = with_lob_writers m s ∧
       ∀ i, m !! i = if decide (i ∈ l) then CreateLobColumnWriter (ss_lob s) <$> lob i else sw_lob_writers (ss_writer s) !! i)
    (λ _ _, True).
Proof.
  revert s. induction l as [|j l IH]; intros s Hs Hc Hl; cbn [for_each].
  { apply wp_ret. exists (sw_lob_writers (ss_writer s)). split; [by destruct s as [? ? []]|]. intros i. by rewrite decide_False by apply not_elem_of_nil. }
  apply Forall_cons in Hl as [[c Hj] Hl]. pose proof Hj as (f & id & Hf & Hid & Hcfg)%lob_config_field.
  eapply (wp_seq _ _ _ (λ _ s1, s1 = with_lob_writers (<[j := CreateLobColumnWriter (ss_lob s) c]> (sw_lob_writers (ss_writer s))) s)).
  { unfold init_lob_column. apply wp_bind, wp_get, wp_bind. rewrite Hs, Hf. apply wp_lift_case, wp_bind.
    rewrite Hid. apply wp_lift_case. destruct (id <? 0); [done|]. rewrite Hc, Hcfg. apply wp_bind, wp_modify.
    rewrite (Hrewrite _ _ Hcfg). by apply wp_ret. }
  intros _ s1 ->. eapply wp_mono; [by apply IH| |done]. intros _ s2 (m & -> & Hm). exists m. split; [done|].
  intros i. rewrite Hm. simpl. destruct (decide (i ∈ l)) as [Hi|Hi].
  - by rewrite decide_True by (apply elem_of_cons; auto).
  - destruct (decide (i = j)) as [->|Hne].
    + rewrite lookup_insert_eq, decide_True by (apply elem_of_cons; auto). by rewrite Hj.
    + rewrite lookup_insert_ne by done. rewrite decide_False; [done|]. by rewrite not_elem_of_cons.
Qed.

(** What a new writer is. *)
Lemma create_spec fs st fs' st' w :
  SegmentWriter_Create trim_copy true (Some schema) config fs st = (fs', st', Ok w) →
  fs' = fs ∧ st' = st ∧ ∃ storage' idx policy' wr m,
    build_storage (swc_lob_columns config) 0 schema = Ok (storage', idx) ∧
    create_column_group_policy trim_copy (swc_properties config) storage' = Ok policy' ∧
    Writer_create trim_copy (swc_segment_path config) storage' policy' (swc_properties config) = Ok wr ∧
    w = set_sw_writer (Some wr) (set_sw_lob_writers m (SegmentWriterImpl schema storage' config idx)) ∧
    ∀ i, m !! i = CreateLobColumnWriter fs <$> lob i.
Proof.
  unfold SegmentWriter_Create. cbn [negb]. destruct (is_empty _); [done|].
  destruct (swc_properties config !! PROPERTY_WRITER_POLICY); [|done].
  destruct (build_storage _ 0 schema) as [[storage' idx]|e|] eqn:Hb; try done.
  pose proof (build_storage_spec _ _ _ _ _ Hb) as [_ Hidx].
  set (s0 := mkSegmentState fs st _).
  pose proof (init_lob_columns_spec idx s0 eq_refl eq_refl) as Hinit.
  assert (Forall (λ i, is_Some (lob i)) idx) as Hall.
  { apply Forall_forall. intros j (i & -> & Hi)%Hidx. done. }
  specialize (Hinit Hall). unfold wp in Hinit. unfold Segment_Init. unfold mbind at 1, M_bind at 1, get_st at 1.
  unfold mbind at 1, M_bind at 1. change (sw_lob_column_indices (ss_writer s0)) with idx.
  destruct (for_each init_lob_column idx s0) as [s1 [[]|e|]]; [|by destruct (Segment_Abort _)|done].
  destruct Hinit as (m & -> & Hm). unfold mbind at 1, M_bind at 1, returned, lift. simpl.
  destruct (create_column_group_policy _ _ _) as [policy'|e|] eqn:Hp; [|by destruct (Segment_Abort _)|done].
  destruct (Writer_create _ _ _ _ _) as [wr|e|] eqn:Hw; try done. simpl. intros [= <- <- <-].
  split; [done|]. split; [done|]. exists storage', idx, policy', wr, m. split_and!; try done.
  intros i. rewrite Hm. destruct (decide (i ∈ idx)) as [|Hi]; [done|]. simpl. rewrite lookup_empty.
  destruct (lob i) eqn:Hl; [|done]. exfalso. apply Hi, Hidx. exists i. by rewrite Hl.
Qed.

(** *** The LOB writers *)

(** An error that a file or a full builder caused. *)
Definition segment_failed (e : raised) : Prop := ∃ e', e = Returned e' ∧ (write_failed e' ∨ ¬ fw_works).

(** The writer of each LOB column was given the entries [hist i]; [count i] bounds
    their number. *)
Definition lob_writer_ok fs (m : gmap nat LobColumnWriter) (count : nat → Z) (hist : nat → list entry) (i : nat) : Prop :=
  match lob i with
  | None => m !! i = None
  | Some c => ∃ w, m !! i = Some w ∧ own c w ∧ good c (count i) (hist i) (set_fs fs w)
  end.

Definition lob_writers_ok fs m count hist : Prop := ∀ i, lob_writer_ok fs m count hist i.

Definition upd {A} (f : nat → A) (i : nat) (x : A) (j : nat) : A := if decide (j = i) then x else f j.

Lemma upd_eq {A} (f : nat → A) i x : upd f i x i = x.
Proof. unfold upd. by rewrite decide_True. Qed.

Lemma upd_ne {A} (f : nat → A) i j x : j ≠ i → upd f i x j = f j.
Proof. intros Hne. unfold upd. by rewrite decide_False. Qed.

Lemma lob_writer_elsewhere fs fs' m m' count hist i j c :
  lob i = Some c → j ≠ i → untouched c fs fs' → m' !! j = m !! j →
  lob_writer_ok fs m count hist j → lob_writer_ok fs' m' count hist j.
Proof.
  intros Hi Hne Hu Hm. unfold lob_writer_ok. rewrite Hm. destruct (lob j) as [c'|] eqn:Hj; [|done].
  intros (w & Hw & Ho & Hg). exists w. split_and!; [done|done|].
  apply (good_elsewhere c' _ _ (set_fs fs w) fs'); [done| |done].
  eapply untouched_unchanged; [|exact Hu]. by eapply Hseparate; [|done..].
Qed.

(** A call on one LOB writer. *)
Lemma wp_on_lob_writer {A} i c (op : LW A) s count hist n' h' (P : A → Prop) :
  lob i = Some c → lob_writers_ok (ss_lob s) (sw_lob_writers (ss_writer s)) count hist →
  (∀ w, tidy c op w) →
  (∀ w, good c (count i) (hist i) w → wp op w (λ a w', P a ∧ good c n' (h' a) w') (λ _ _, True)) →
  wp (on_lob_writer i op) s
    (λ a s', P a ∧ ∃ fs' m', s' = mkSegmentState fs' (ss_tables s) (set_sw_lob_writers m' (ss_writer s)) ∧
       lob_writers_ok fs' m' (upd count i n') (upd hist i (h' a)))
    (λ e _, segment_failed e).
Proof.
  intros Hi Hok Htidy Hop. pose proof (Hok i) as Hoki. unfold lob_writer_ok in Hoki. rewrite Hi in Hoki.
  destruct Hoki as (w & Hw & Ho & Hg). unfold wp, on_lob_writer. rewrite Hw.
  specialize (Hop _ Hg). destruct (Htidy (set_fs (ss_lob s) w) Ho) as (Ho' & Hu & He).
  unfold wp in Hop. unfold returned. destruct (op (set_fs (ss_lob s) w)) as [w' [a|e|]]; simpl in *; [|..|done].
  - destruct Hop as [Ha Hg']. split; [done|]. exists (lw_fs w'), (<[i := w']> (sw_lob_writers (ss_writer s))).
    split; [done|]. intros j. destruct (decide (j = i)) as [->|Hne].
    + unfold lob_writer_ok. rewrite Hi, !upd_eq, lookup_insert_eq. exists w'. split_and!; [done|done|].
      by destruct w'.
    + unfold lob_writer_ok. rewrite !upd_ne by done.
      eapply (lob_writer_elsewhere _ _ _ _ count hist); [exact Hi|done|exact Hu|by apply lookup_insert_ne|apply Hok].
  - exists e. split; [done|]. left. by apply He.
Qed.

Lemma lob_keys s count hist i :
  lob_writers_ok (ss_lob s) (sw_lob_writers (ss_writer s)) count hist →
  i ∈ lob_writer_keys s ↔ is_Some (lob i).
Proof.
  intros Hok. unfold lob_writer_keys. rewrite (iterate_int_perm _).
  rewrite list_elem_of_fmap. specialize (Hok i). unfold lob_writer_ok in Hok. split.
  - intros ([j w] & -> & Hin%elem_of_map_to_list). simpl in *. destruct (lob j); [done|congruence].
  - intros [c Hc]. rewrite Hc in Hok. destruct Hok as (w & Hw & _). exists (i, w). split; [done|].
    by apply elem_of_map_to_list.
Qed.

(** Only the LOB store and the LOB writers differ. *)
Definition lob_only s s' : Prop :=
  ∃ fs' m', s' = mkSegmentState fs' (ss_tables s) (set_sw_lob_writers m' (ss_writer s)).

Lemma lob_only_refl s : lob_only s s.
Proof. exists (ss_lob s), (sw_lob_writers (ss_writer s)). by destruct s as [? ? []]. Qed.

Lemma lob_only_trans s1 s2 s3 : lob_only s1 s2 → lob_only s2 s3 → lob_only s1 s3.
Proof. intros (fs & m & ->) (fs' & m' & ->). by exists fs', m'. Qed.

Lemma lob_writers_ok_ext fs m count count' hist hist' :
  (∀ i, is_Some (lob i) → count i = count' i) → (∀ i, is_Some (lob i) → hist i = hist' i) →
  lob_writers_ok fs m count hist → lob_writers_ok fs m count' hist'.
Proof.
  intros Hc Hh Hok i. specialize (Hok i). unfold lob_writer_ok in *. destruct (lob i) as [c|] eqn:Hi; [|done].
  rewrite <- Hc, <- Hh; [done|by eexists..].
Qed.

Lemma upd_same {A} (f : nat → A) i j : upd f i (f i) j = f j.
Proof. unfold upd. by destruct (decide (j = i)) as [->|]. Qed.

Lemma wp_flush_lob_writers l s count hist :
  lob_writers_ok (ss_lob s) (sw_lob_writers (ss_writer s)) count hist → Forall (λ i, is_Some (lob i)) l →
  wp (for_each (λ i, on_lob_writer i Flush) l) s
    (λ _ s', lob_only s s' ∧ lob_writers_ok (ss_lob s') (sw_lob_writers (ss_writer s')) count hist)
    (λ e _, segment_failed e).
Proof.
  revert s. induction l as [|i l IH]; intros s Hok Hl; cbn [for_each].
  { apply wp_ret. split; [apply lob_only_refl|done]. }
  apply Forall_cons in Hl as [[c Hc] Hl]. eapply wp_seq.
  - apply (wp_on_lob_writer i c Flush s count hist (count i) (λ _, hist i) (λ _, True)); [done|done|apply tidy_lob_flush|].
    intros w Hg. eapply wp_mono; [apply flush_good; [by eapply lob_threshold|exact Hg]|done|done].
  - intros _ s1 (_ & fs' & m' & -> & Hok1). eapply wp_mono; [apply IH; [|done]| |done].
    + eapply lob_writers_ok_ext; [..|exact Hok1]; intros j _; apply upd_same.
    + intros _ s2 [Ho Hok2]. split; [|done]. eapply lob_only_trans; [|exact Ho]. by exists fs', m'.
Qed.

(** *** Writing a batch *)

(** What is stored for an array of column [i]. *)
Definition column_stored (i : nat) (a a' : Array) : Prop :=
  match lob i with
  | None => a' = a
  | Some _ => ∃ data refs, as_binary a = Some data ∧ a' = of_binary refs ∧ same_nulls data refs
  end.

Definition stored_as b sb : Prop :=
  ∃ cols, sb = Batch_Make storage (num_rows b) cols ∧ length cols = length (batch_arrays b) ∧
    ∀ i a a', batch_arrays b !! i = Some a → cols !! i = Some a' → column_stored i a a'.

(** The values of a column with their references. *)
Definition array_entries (a a' : option Array) : list entry :=
  match a ≫= as_binary, a' ≫= as_binary with Some data, Some refs => given data refs | _, _ => [] end.

Definition column_entries (i : nat) (p : RecordBatch * RecordBatch) : list entry :=
  array_entries (batch_arrays p.1 !! i) (batch_arrays p.2 !! i).

Definition history (i : nat) (written : list (RecordBatch * RecordBatch)) : list entry :=
  mjoin (column_entries i <$> written).

(** The LOB columns of a batch are binary, as long as the batch, and their values
    fit. *)
Definition lob_values_ok b : Prop :=
  ∀ i c, lob i = Some c → ∃ a data, batch_arrays b !! i = Some a ∧ as_binary a = Some data ∧
    Z.of_nat (length data) = num_rows b ∧ Forall (λ d, ∀ v, d = Some v → value_ok c v) data.

Lemma wp_write_column b s i a count hist :
  batch_arrays b !! i = Some a → lob_values_ok b → sw_rewrite_columns (ss_writer s) = ∅ →
  lob_writers_ok (ss_lob s) (sw_lob_writers (ss_writer s)) count hist →
  (is_Some (lob i) → count i + num_rows b ≤ INT32_MAX) →
  wp (write_column b i) s
    (λ a' s', lob_only s s' ∧ column_stored i a a' ∧
       lob_writers_ok (ss_lob s') (sw_lob_writers (ss_writer s')) (upd count i (count i + num_rows b))
         (upd hist i (hist i ++ array_entries (Some a) (Some a'))))
    (λ e _, segment_failed e).
Proof.
  intros Ha Hb Hre Hok Hn. unfold write_column. apply wp_bind, wp_lift_case. rewrite Ha. cbn [deref].
  apply wp_bind, wp_get. pose proof (Hok i) as Hoki. unfold lob_writer_ok in Hoki. unfold column_stored.
  destruct (lob i) as [c|] eqn:Hi.
  - destruct Hoki as (w & Hw & _). rewrite Hw, Hre, bool_decide_false by set_solver.
    destruct (Hb i c Hi) as (a0 & data & Ha0 & Hbin & Hlen & Hv). rewrite Ha in Ha0. injection Ha0 as <-.
    apply wp_bind, wp_lift_case. unfold static_binary. rewrite Hbin. cbn [deref].
    eapply wp_seq.
    + apply (wp_on_lob_writer i c _ s count hist (count i + num_rows b) (λ refs, hist i ++ given data refs)
               (λ refs, same_nulls data refs)); [done|done|intros; apply tidy_write_arrow_array|].
      intros w0 Hg. rewrite <- Hlen. eapply wp_mono; [apply write_arrow_array_spec; [by eapply lob_threshold|exact Hg|exact Hv|]|..|done].
      * unfold count_of. rewrite Hlen. apply Hn. by eexists.
      * done.
    + intros refs s1 (Hnull & fs' & m' & -> & Hok1). apply wp_ret. split; [by exists fs', m'|].
      split; [by exists data, refs|]. unfold array_entries. simpl. by rewrite Hbin, binary_back.
  - rewrite Hoki. apply wp_ret. split; [apply lob_only_refl|]. split; [done|]. intros j. specialize (Hok j).
    destruct (decide (j = i)) as [->|Hne]; unfold lob_writer_ok in *; [by rewrite Hi in *|]. by rewrite !upd_ne.
Qed.

(** The counts and entries after the columns from [k] on. *)
Definition counted (k n : nat) (rows : Z) (count : nat → Z) (i : nat) : Z :=
  if decide (k ≤ i < k + n)%nat then count i + rows else count i.
Definition extended (k n : nat) b (cols : list Array) (hist : nat → list entry) (i : nat) : list entry :=
  if decide (k ≤ i < k + n)%nat then hist i ++ array_entries (batch_arrays b !! i) (cols !! (i - k)%nat) else hist i.

Lemma wp_write_columns b n k s count hist :
  (k + n)%nat = length (batch_arrays b) → lob_values_ok b → sw_rewrite_columns (ss_writer s) = ∅ →
  lob_writers_ok (ss_lob s) (sw_lob_writers (ss_writer s)) count hist →
  (∀ j, (k ≤ j)%nat → is_Some (lob j) → count j + num_rows b ≤ INT32_MAX) →
  wp (write_columns b (seq k n)) s
    (λ cols s', lob_only s s' ∧ length cols = n ∧
       (∀ i a a', batch_arrays b !! (k + i)%nat = Some a → cols !! i = Some a' → column_stored (k + i) a a') ∧
       lob_writers_ok (ss_lob s') (sw_lob_writers (ss_writer s')) (counted k n (num_rows b) count)
         (extended k n b cols hist))
    (λ e _, segment_failed e).
Proof.
  intros Hk Hb. revert k s count hist Hk. induction n as [|n IH]; intros k s count hist Hk Hre Hok Hn; cbn [seq write_columns].
  { apply wp_ret. split; [apply lob_only_refl|]. split_and!; [done|done|]. eapply lob_writers_ok_ext; [..|exact Hok]; intros i _.
    - unfold counted. by rewrite decide_False by lia.
    - unfold extended. by rewrite decide_False by lia. }
  destruct (lookup_lt_is_Some_2 (batch_arrays b) k ltac:(lia)) as [a Ha]. eapply wp_seq.
  { apply (wp_write_column b s k a count hist); try done. apply Hn. lia. }
  intros a' s1 (Hs1 & Hst & Hok1). assert (sw_rewrite_columns (ss_writer s1) = ∅) as Hre1 by (by destruct Hs1 as (? & ? & ->)).
  eapply wp_seq; [apply (IH (S k) s1); [lia|done|exact Hok1|]|].
  { intros j Hj. rewrite upd_ne by lia. apply Hn. lia. }
  intros cols s2 (Hs2 & Hlen & Hall & Hok2). apply wp_ret. split; [by eapply lob_only_trans|]. split; [simpl; lia|]. split.
  - intros [|i] a0 a1 Ha0 Ha1; simpl in *.
    + rewrite Nat.add_0_r in *. congruence.
    + rewrite <- Nat.add_succ_comm in *. by apply Hall.
  - eapply lob_writers_ok_ext; [..|exact Hok2]; intros i _; [unfold counted|unfold extended];
      destruct (decide (i = k)) as [->|Hne].
    + by rewrite decide_False, decide_True, upd_eq by lia.
    + rewrite upd_ne by done. by destruct (decide (S k ≤ i < S k + n)%nat), (decide (k ≤ i < k + S n)%nat); try lia.
    + rewrite decide_False, decide_True, upd_eq by lia. by rewrite Nat.sub_diag, Ha.
    + rewrite upd_ne by done. destruct (decide (S k ≤ i < S k + n)%nat), (decide (k ≤ i < k + S n)%nat); try lia; [|done].
      replace (i - k)%nat with (S (i - S k)) by lia. done.
Qed.

(** *** The state between calls *)

Hypothesis Hnames : NoDup (names storage).
Hypothesis Hgroups : Forall (group_ok storage) gs.
Hypothesis Hsome : gs ≠ [].

Definition batch_rows_of (bs : list RecordBatch) : Z := sum_Z (num_rows <$> bs).

(** The writer after the batches [written.*1], stored as [written.*2]. *)
Record segment_inv (written : list (RecordBatch * RecordBatch)) s : Prop := {
  si_schema : sw_original_schema (ss_writer s) = schema;
  si_storage : sw_storage_schema (ss_writer s) = storage;
  si_open : sw_closed (ss_writer s) = false;
  si_rewrite : sw_rewrite_columns (ss_writer s) = ∅;
  si_readers : sw_lob_readers (ss_writer s) = ∅;
  si_results : sw_lob_file_results (ss_writer s) = ∅;
  si_rows : sw_written_rows (ss_writer s) = batch_rows_of written.*1;
  si_lob : lob_writers_ok (ss_lob s) (sw_lob_writers (ss_writer s)) (λ _, batch_rows_of written.*1) (λ i, history i written);
  si_table : ∃ wr, sw_writer (ss_writer s) = Some wr ∧
    wr_state (swc_segment_path config) storage gs policy (swc_properties config) (ss_tables s) wr written.*2;
  si_stored : Forall (λ p, stored_as p.1 p.2) written;
}.

(** What is asked of the batches. *)
Record batches_ok (bs : list RecordBatch) : Prop := {
  bo_each : Forall (λ b, Schema_Equals (batch_schema b) schema = true ∧ lob_values_ok b ∧
    ∀ sb, stored_as b sb → batch_ok storage gs sb) bs;
  bo_rows : batch_rows_of bs ≤ INT32_MAX;
  bo_groups : ∀ b sb, head bs = Some b → stored_as b sb → policy_groups regex_match policy sb = Ok gs;
  bo_within : ∀ k sbs, Forall2 stored_as (take k bs) sbs → within storage gs sbs;
}.

Lemma total_rows_app bs bs' : batch_rows_of (bs ++ bs') = batch_rows_of bs + batch_rows_of bs'.
Proof. unfold batch_rows_of. by rewrite fmap_app, sum_Z_app. Qed.

Lemma total_rows_nonneg bs : 0 ≤ batch_rows_of bs.
Proof.
  induction bs as [|b bs IH]; [done|]. unfold batch_rows_of in *. rewrite fmap_cons. simpl. rewrite rows_num. lia.
Qed.

Lemma history_snoc i written p : history i (written ++ [p]) = history i written ++ column_entries i p.
Proof. unfold history. rewrite fmap_app, join_app. simpl. by rewrite app_nil_r. Qed.

Lemma wp_on_table_writer {A} (m : M (ColumnGroupWriter.Store * Writer) Status A) s wr Q :
  sw_writer (ss_writer s) = Some wr → wp m (ss_tables s, wr) Q failed →
  wp (on_table_writer m) s
    (λ a s', ∃ st' wr', s' = mkSegmentState (ss_lob s) st' (set_sw_writer (Some wr') (ss_writer s)) ∧ Q a (st', wr'))
    (λ e _, segment_failed e).
Proof.
  intros Hwr. unfold wp, on_table_writer. rewrite Hwr. unfold returned.
  destruct (m (ss_tables s, wr)) as [[st' wr'] [a|e|]]; [|..|done].
  - intros HQ. by exists st', wr'.
  - intros He. exists e. split; [done|by right].
Qed.

Lemma wp_segment_write written bs s b :
  segment_inv written s → batches_ok (written.*1 ++ b :: bs) → num_rows b ≠ 0 →
  ∀ limit, GetValue (T := uint64_t) trim_copy (swc_properties config) PROPERTY_WRITER_FILE_ROLLING_SIZE = Ok limit →
  wp (Segment_Write regex_match trim_copy (Some b)) s (λ _ s', ∃ sb, segment_inv (written ++ [(b, sb)]) s')
    (λ e _, segment_failed e).
Proof.
  intros Hinv [Heach Hrows Hpol Hwith] Hnr limit Hlim. destruct Hinv as [Hs1 Hs2 Ho Hre Hrd Hres Hr Hlob (wr & Hwr & Hst) Hall].
  apply Forall_app in Heach as [_ [(Heq & Hv & Hbok) _]%Forall_cons].
  unfold Segment_Write. apply wp_bind, wp_get. rewrite Ho, (proj2 (Z.eqb_neq _ _) Hnr), Hre, bool_decide_true, Hs1, Heq by done.
  cbn [negb].
  assert (Z.to_nat (num_columns b) = length (batch_arrays b)) as -> by (unfold num_columns; rewrite arrays_length; lia).
  eapply wp_seq.
  { apply (wp_write_columns b (length (batch_arrays b)) 0 s (λ _, batch_rows_of written.*1) (λ i, history i written)); try done.
    intros j _ _. rewrite total_rows_app in Hrows. unfold batch_rows_of in Hrows at 2. rewrite fmap_cons in Hrows. simpl in Hrows.
    pose proof (total_rows_nonneg bs) as Hnn. unfold batch_rows_of in Hnn. lia. }
  intros cols s1 ((fs1 & m1 & ->) & Hlen & Hcols & Hlob1). rewrite Hs2.
  set (sb := Batch_Make storage (num_rows b) cols).
  assert (stored_as b sb) as Hsb by (by exists cols).
  eapply wp_seq.
  { apply (wp_on_table_writer _ _ wr (λ _ x, wr_state (swc_segment_path config) storage gs policy (swc_properties config)
      x.1 x.2 (written.*2 ++ [sb]))); [done|].
    apply (wp_wr_op regex_match trim_copy (swc_segment_path config) storage gs Hnames Hgroups policy _ limit (OpWrite (Some sb)));
      try done.
    - intros b0 Hb0. destruct written as [|[b1 sb1] written]; simpl in *.
      + injection Hb0 as <-. by eapply Hpol.
      + injection Hb0 as <-. apply Forall_cons in Hall as [Hb1 _]. by eapply Hpol.
    - constructor; [by apply Hbok|constructor].
    - apply (Hwith (S (length written))). assert (take (S (length written)) (written.*1 ++ b :: bs) = written.*1 ++ [b]) as ->.
      { rewrite take_app, length_fmap, take_ge by (rewrite length_fmap; lia). by replace (S (length written) - length written)%nat with 1%nat by lia. }
      apply Forall2_app; [|by constructor]. clear -Hall. induction Hall; constructor; done. }
  intros _ s2 (st2 & wr2 & -> & Hst2). apply wp_modify. exists sb. split; simpl; try done.
  - rewrite Hr, fmap_app, total_rows_app. unfold batch_rows_of. simpl. lia.
  - assert (∀ i, is_Some (lob i) → (i < length (batch_arrays b))%nat) as Hlt.
    { intros i [c Hc]. destruct (Hv i c Hc) as (a & _ & Ha & _). by eapply lookup_lt_Some. }
    eapply lob_writers_ok_ext; [..|exact Hlob1]; intros i Hi%Hlt.
    + unfold counted. rewrite decide_True, fmap_app, total_rows_app by lia. unfold batch_rows_of. simpl. lia.
    + unfold extended. rewrite decide_True, history_snoc by lia. unfold column_entries. simpl.
      unfold sb. by rewrite make_arrays, Nat.sub_0_r.
  - exists wr2. by rewrite fmap_app.
  - apply Forall_app. split; [done|]. by constructor.
Qed.

(** *** Sequences of calls *)

Lemma policy_of_first written bs sb :
  Forall (λ p, stored_as p.1 p.2) written → batches_ok (written.*1 ++ bs) → head written.*2 = Some sb →
  policy_groups regex_match policy sb = Ok gs.
Proof.
  intros Hall [_ _ Hpol _] Hh. destruct written as [|[b sb'] written]; [done|]. injection Hh as ->.
  apply Forall_cons in Hall as [Hb _]. by eapply Hpol.
Qed.

Lemma within_stored written bs :
  Forall (λ p, stored_as p.1 p.2) written → batches_ok (written.*1 ++ bs) → within storage gs written.*2.
Proof.
  intros Hall [_ _ _ Hwith]. apply (Hwith (length written)). rewrite take_app_length' by (by rewrite length_fmap).
  clear -Hall. induction Hall; by constructor.
Qed.

Lemma wp_segment_flush written bs s limit :
  segment_inv written s → batches_ok (written.*1 ++ bs) →
  GetValue (T := uint64_t) trim_copy (swc_properties config) PROPERTY_WRITER_FILE_ROLLING_SIZE = Ok limit →
  wp Segment_Flush s (λ _ s', segment_inv written s') (λ e _, segment_failed e).
Proof.
  intros [Hs1 Hs2 Ho Hre Hrd Hres Hr Hlob (wr & Hwr & Hst) Hall] Hb Hlim.
  unfold Segment_Flush. apply wp_bind, wp_get. rewrite Ho. eapply wp_seq.
  { apply wp_flush_lob_writers; [exact Hlob|]. apply Forall_forall. intros i Hi. by eapply lob_keys. }
  intros _ s1 [(fs1 & m1 & ->) Hlob1]. eapply wp_mono; [apply (wp_on_table_writer W_flush _ wr (λ _ x,
    wr_state (swc_segment_path config) storage gs policy (swc_properties config) x.1 x.2 written.*2)); [done|]| |done].
  - pose proof (wp_wr_op regex_match trim_copy (swc_segment_path config) storage gs Hnames Hgroups policy _ limit OpFlush _ _
      written.*2 Hst Hsome) as Hop. simpl in Hop. rewrite !app_nil_r in Hop. apply Hop; [|done|constructor|].
    + intros sb Hsb. by eapply policy_of_first.
    + by eapply within_stored.
  - intros _ s2 (st2 & wr2 & -> & Hst2). split; try done. by exists wr2.
Qed.

Inductive segment_op := SegWrite (batch : option RecordBatch) | SegFlush.

Definition segment_run (o : segment_op) : M SegmentState raised unit :=
  match o with SegWrite b => Segment_Write regex_match trim_copy b | SegFlush => Segment_Flush end.

(** The batches that are written: those with rows. *)
Definition segment_batches (ops : list segment_op) : list RecordBatch :=
  omap (λ o, match o with SegWrite (Some b) => if num_rows b =? 0 then None else Some b | _ => None end) ops.

Lemma wp_segment_ops written ops s limit :
  segment_inv written s → batches_ok (written.*1 ++ segment_batches ops) →
  GetValue (T := uint64_t) trim_copy (swc_properties config) PROPERTY_WRITER_FILE_ROLLING_SIZE = Ok limit →
  wp (for_each segment_run ops) s
    (λ _ s', ∃ written', written'.*1 = written.*1 ++ segment_batches ops ∧ segment_inv written' s')
    (λ e _, segment_failed e).
Proof.
  intros Hs Hb Hlim. revert written s Hs Hb. induction ops as [|o ops IH]; intros written s Hs Hb; cbn [for_each].
  { apply wp_ret. exists written. by rewrite app_nil_r. }
  assert (∀ bs, segment_batches (o :: ops) = bs ++ segment_batches ops →
    wp (segment_run o) s (λ _ s', ∃ new, new.*1 = bs ∧ segment_inv (written ++ new) s') (λ e _, segment_failed e) →
    wp (segment_run o;; for_each segment_run ops) s
      (λ _ s', ∃ written', written'.*1 = written.*1 ++ segment_batches (o :: ops) ∧ segment_inv written' s')
      (λ e _, segment_failed e)) as Hstep.
  { intros bs Hbs Hone. eapply wp_seq; [exact Hone|]. intros _ s1 (new & Hnew & Hs1).
    assert ((written ++ new).*1 ++ segment_batches ops = written.*1 ++ segment_batches (o :: ops)) as He.
    { by rewrite fmap_app, Hnew, <- app_assoc, Hbs. }
    eapply wp_mono; [apply (IH (written ++ new)); [done|by rewrite He]| |done].
    intros _ s2 (written' & Hw & Hs2). exists written'. split; [congruence|done]. }
  assert (segment_inv (written ++ []) s) as Hs0 by (by rewrite app_nil_r).
  destruct o as [[b|]|].
  - destruct (num_rows b =? 0) eqn:Hz.
    + apply (Hstep []); [unfold segment_batches; simpl; by rewrite Hz|]. simpl. unfold Segment_Write. apply wp_bind, wp_get.
      rewrite (si_open _ _ Hs), Hz. apply wp_ret. by exists [].
    + apply (Hstep [b]); [unfold segment_batches; simpl; by rewrite Hz|].
      eapply wp_mono; [eapply (wp_segment_write written (segment_batches ops)); [done| |by apply Z.eqb_neq|exact Hlim]| |done].
      * unfold segment_batches in Hb. simpl in Hb. by rewrite Hz in Hb.
      * intros _ s' (sb & Hs'). by exists [(b, sb)].
  - apply (Hstep []); [done|]. simpl. unfold Segment_Write. apply wp_bind, wp_get. rewrite (si_open _ _ Hs). apply wp_ret. by exists [].
  - apply (Hstep []); [done|]. eapply wp_mono; [exact (wp_segment_flush written _ s limit Hs Hb Hlim)| |done].
    intros u s1 Hs1. exists []. by rewrite app_nil_r.
Qed.

(** *** Closing *)

(** What closing the LOB writer of a column leaves. *)
Definition closed_column fs (files : list LobFileResult) (c : LobColumnConfig) (hist : list entry) : Prop :=
  ∃ K, distinct hist ∧ Forall (finished c K fs) files ∧ Forall (stored c K fs files) hist.

(** The columns in [pending] are still open. *)
Definition lob_closing fs m (results : gmap nat (list LobFileResult)) (pending : list nat) count hist : Prop :=
  (∀ i, is_Some (results !! i) → is_Some (lob i)) ∧
  ∀ i c, lob i = Some c →
    (i ∈ pending → lob_writer_ok fs m count hist i) ∧
    (i ∉ pending → ∃ files, results !! i = Some files ∧ closed_column fs files c (hist i)).

Lemma closed_column_elsewhere fs fs' files c hist :
  unchanged c fs fs' → closed_column fs files c hist → closed_column fs' files c hist.
Proof.
  intros [Hf _] (K & Hd & Hfin & Hst). assert (same_before c K fs fs') as Hsame by (intros k _; apply Hf; by exists k).
  exists K. split; [done|]. split; (eapply Forall_impl; [eassumption|]); intros ?; [by apply finished_frame|by apply stored_frame].
Qed.

Lemma wp_on_lob_close i c s count hist :
  lob i = Some c → lob_writer_ok (ss_lob s) (sw_lob_writers (ss_writer s)) count hist i →
  wp (on_lob_writer i Close) s
    (λ files s', ∃ fs' w', s' = mkSegmentState fs' (ss_tables s)
         (set_sw_lob_writers (<[i := w']> (sw_lob_writers (ss_writer s))) (ss_writer s)) ∧
       untouched c (ss_lob s) fs' ∧ closed_column fs' files c (hist i))
    (λ e _, segment_failed e).
Proof.
  intros Hi Hoki. unfold lob_writer_ok in Hoki. rewrite Hi in Hoki. destruct Hoki as (w & Hw & Ho & Hg).
  unfold wp, on_lob_writer. rewrite Hw. destruct (lob_close_tidy c (set_fs (ss_lob s) w) Ho) as [Hu He].
  pose proof (close_good c _ _ _ Hg) as Hclose. unfold wp in Hclose. unfold returned.
  destruct (Close (set_fs (ss_lob s) w)) as [w' [files|e|]]; simpl in *; [|exists e; split; [done|left; by apply He]|done].
  exists (lw_fs w'), w'. done.
Qed.

(** The fields that closing the LOB writers leaves alone. *)
Definition same_members (w w' : SegmentWriter) : Prop :=
  sw_original_schema w' = sw_original_schema w ∧ sw_written_rows w' = sw_written_rows w ∧
  sw_lob_readers w' = sw_lob_readers w ∧ sw_writer w' = sw_writer w.

Lemma wp_close_lob_writers l s count hist :
  NoDup l → Forall (λ i, is_Some (lob i)) l →
  lob_closing (ss_lob s) (sw_lob_writers (ss_writer s)) (sw_lob_file_results (ss_writer s)) l count hist →
  wp (for_each close_lob_writer l) s
    (λ _ s', ss_tables s' = ss_tables s ∧ same_members (ss_writer s) (ss_writer s') ∧
       lob_closing (ss_lob s') (sw_lob_writers (ss_writer s')) (sw_lob_file_results (ss_writer s')) [] count hist)
    (λ e _, segment_failed e).
Proof.
  intros Hnd Hl. revert s. induction Hl as [|i l [c Hi] Hl IH]; intros s Hcl; cbn [for_each].
  { by apply wp_ret. }
  apply NoDup_cons in Hnd as [Hil Hnd]. destruct Hcl as [Hres Hcl]. pose proof (Hcl i c Hi) as [Hopen _].
  eapply (wp_seq _ _ _ (λ _ s1, ss_tables s1 = ss_tables s ∧ same_members (ss_writer s) (ss_writer s1) ∧
    lob_closing (ss_lob s1) (sw_lob_writers (ss_writer s1)) (sw_lob_file_results (ss_writer s1)) l count hist)).
  - unfold close_lob_writer. eapply wp_seq; [apply (wp_on_lob_close i c s count hist Hi); apply Hopen; by left|].
    intros files s1 (fs' & w' & -> & Hu & Hdone). apply wp_bind, wp_modify, wp_bind, wp_get, wp_bind, wp_lift_case.
    simpl. rewrite lookup_insert_eq. simpl. apply wp_modify. simpl. split_and!; try done. split.
    { intros j. destruct (decide (j = i)) as [->|Hne]; [by rewrite Hi|]. rewrite lookup_insert_ne by done. apply Hres. }
    intros j c' Hj. destruct (Hcl j c' Hj) as [Hop Hfin]. split.
    + intros Hjl. assert (j ≠ i) as Hne by congruence.
      eapply (lob_writer_elsewhere _ _ _ _ count hist); [exact Hi|done|exact Hu|by apply lookup_insert_ne|].
      apply Hop. by right.
    + intros Hjl. destruct (decide (j = i)) as [->|Hne].
      { rewrite lookup_insert_eq. exists files. split; [done|]. by simplify_eq. }
      rewrite lookup_insert_ne by done. destruct Hfin as (fl & Hfl & Hcc); [by rewrite not_elem_of_cons|].
      exists fl. split; [done|]. eapply closed_column_elsewhere; [|exact Hcc].
      eapply untouched_unchanged; [|exact Hu]. eapply (Hseparate i j); [congruence|done|done].
  - intros _ s1 (Ht1 & Hm1 & Hcl1). eapply wp_mono; [by apply IH| |done].
    intros _ s2 (Ht2 & Hm2 & Hcl2). unfold same_members in *. split; [congruence|]. split; [|done].
    destruct Hm1 as (? & ? & ? & ?), Hm2 as (? & ? & ? & ?). split_and!; congruence.
Qed.

(** *** The list of LOB files *)

Lemma build_lob_files_spec l acc :
  Forall (λ e, is_Some (lob e.1)) l →
  ∃ infos, fold_out (λ acc e, infos ← lob_infos schema e; Ok (acc ++ infos)) l acc = Ok (E := raised) (acc ++ infos) ∧
    ∀ info, info ∈ infos ↔ ∃ e f r, e ∈ l ∧ schema !! e.1 = Some f ∧ r ∈ e.2 ∧ GetFieldId f = Ok (lob_field_id info) ∧
      lob_path info = lf_path r ∧ total_rows info = lf_total_rows r ∧ valid_rows info = lf_valid_rows r ∧
      file_size_bytes info = lf_file_size_bytes r.
Proof.
  intros Hl. revert acc. induction Hl as [|e l [c He] Hl IH]; intros acc; cbn [fold_out].
  { exists []. rewrite app_nil_r. split; [done|]. intros info. split; [by intros ?%not_elem_of_nil|].
    by intros (e & f & r & ?%not_elem_of_nil & _). }
  apply lob_config_field in He as (f & id & Hf & Hid & _).
  set (new := (λ r, mkLob (lf_path r) id (lf_total_rows r) (lf_valid_rows r) (lf_file_size_bytes r)) <$> e.2).
  assert (lob_infos schema e = Ok new) as ->.
  { unfold lob_infos. rewrite Hf. cbn [deref]. by rewrite bind_Ok, Hid, bind_Ok. }
  rewrite !bind_Ok. destruct (IH (acc ++ new)) as (infos & -> & Hin). exists (new ++ infos).
  rewrite app_assoc. split; [done|]. intros info. rewrite elem_of_app, Hin. split.
  - intros [(r & -> & Hr)%list_elem_of_fmap|(e' & f' & r & He' & ?)].
    + exists e, f, r. split; [by left|]. by split_and!.
    + exists e', f', r. split; [by right|done].
  - intros (e' & f' & r & [->|He']%elem_of_cons & Hf' & Hr & Hid' & Hp & Ht & Hv & Hb); [left|right].
    + apply list_elem_of_fmap. exists r. split; [|done]. destruct info. simpl in *. assert (f' = f) as -> by congruence.
      rewrite Hid in Hid'. injection Hid' as <-. congruence.
    + by exists e', f', r.
Qed.

(** *** What a closed segment holds *)

(** No row is referenced twice, every reference resolves to its value, and the
    file it needs is listed. *)
Definition segment_holds fs (written : list (RecordBatch * RecordBatch)) (files : list LobFileInfo) : Prop :=
  ∀ i c, lob i = Some c → distinct (history i written) ∧
    ∀ v ref, (v, ref) ∈ history i written →
      ref ≠ [] ∧ resolves c fs ref v ∧ ¬ bad_ref ref ∧
      ∀ id off, lob_row ref = Some (id, off) → ∃ info, info ∈ files ∧ lob_path info = BuildLOBFilePath (lob_base_path c) id.

(** Every listed file exists with the reported rows, under the field id of a LOB
    column. *)
Definition lob_files_exist fs (files : list LobFileInfo) : Prop :=
  ∀ info, info ∈ files → ∃ i f c l, lob i = Some c ∧ schema !! i = Some f ∧ GetFieldId f = Ok (lob_field_id info) ∧
    file_of fs (lob_path info) = Some l ∧ total_rows info = Z.of_nat (length l) ∧ valid_rows info = Z.of_nat (length l).

Lemma closed_holds fs results count written m infos :
  lob_closing fs m results [] count (λ i, history i written) →
  build_lob_files schema (iterate_int results) = Ok infos →
  segment_holds fs written infos ∧ lob_files_exist fs infos.
Proof.
  intros [Hres Hcl] Hb.
  assert (∀ i files, (i, files) ∈ iterate_int results ↔ results !! i = Some files) as Hit.
  { intros i files. rewrite (iterate_int_perm results). apply elem_of_map_to_list. }
  destruct (build_lob_files_spec (iterate_int results) []) as (infos' & Hb' & Hin).
  { apply Forall_forall. intros [i files] Hi%Hit. simpl. apply Hres. by eexists. }
  unfold build_lob_files in Hb. rewrite Hb' in Hb. injection Hb as ->. simpl in Hin. split.
  - intros i c Hi. destruct (Hcl i c Hi) as [_ Hc]. destruct Hc as (files & Hf & K & Hd & Hfin & Hst); [by intros ?%not_elem_of_nil|].
    split; [done|]. intros v ref Hv. eapply Forall_forall in Hst; [|exact Hv].
    destruct (stored_resolves c K fs files _ Hst) as (Hne & Hr & Hok). split_and!; [done|done|done|].
    intros id off Hrow. destruct Hst as [Hinl|(k & o & l & Hl & _ & Hp & _)].
    { unfold inline_ref in Hinl. simpl in Hinl. by subst. }
    apply lob_row_ref in Hl. simpl in Hl. rewrite Hl in Hrow. injection Hrow as <- <-.
    apply list_elem_of_fmap in Hp as (r & Hp & Hr'). pose proof Hi as (f & fid & Hfield & Hid & _)%lob_config_field.
    exists (mkLob (lf_path r) fid (lf_total_rows r) (lf_valid_rows r) (lf_file_size_bytes r)). split; [|by rewrite <- Hp].
    apply Hin. exists (i, files), f, r. split_and!; try done. by apply Hit.
  - intros info Hinfo. apply Hin in Hinfo as ([i files] & f & r & He%Hit & Hf & Hr & Hid & Hp & Ht & Hv & _). simpl in *.
    destruct (Hres i) as [c Hi]; [by eexists|]. destruct (Hcl i c Hi) as [_ Hc].
    destruct Hc as (files' & Hf' & K & _ & Hfin & _); [by intros ?%not_elem_of_nil|]. simplify_eq.
    eapply Forall_forall in Hfin; [|exact Hr]. destruct Hfin as (k & l & _ & Hpk & Hl & Hn & Hn').
    exists i, f, c, l. rewrite Hp, Ht, Hv, Hpk. by split_and!.
Qed.

Lemma wp_segment_close written bs s limit :
  segment_inv written s → batches_ok (written.*1 ++ bs) →
  GetValue (T := uint64_t) trim_copy (swc_properties config) PROPERTY_WRITER_FILE_ROLLING_SIZE = Ok limit →
  wp Segment_Close s
    (λ out s', sw_closed (ss_writer s') = true ∧ swo_rows_written out = batch_rows_of written.*1 ∧
       (match written.*2 with [] => swo_column_groups out = []
        | _ => Forall2 (group_closed storage (ss_tables s') written.*2) gs (swo_column_groups out) end) ∧
       segment_holds (ss_lob s') written (swo_lob_files out) ∧ lob_files_exist (ss_lob s') (swo_lob_files out))
    (λ e _, segment_failed e).
Proof.
  intros Hinv Hb Hlim. unfold Segment_Close. apply wp_bind, wp_get. rewrite (si_open _ _ Hinv).
  eapply wp_seq; [exact (wp_segment_flush written bs s limit Hinv Hb Hlim)|]. clear s Hinv. intros ? s Hinv.
  destruct Hinv as [Hs1 Hs2 Ho Hre Hrd Hres Hr Hlob (wr & Hwr & Hst) Hall].
  apply wp_bind, wp_get. eapply wp_seq.
  { apply (wp_close_lob_writers _ _ (λ _, batch_rows_of written.*1) (λ i, history i written)).
    - unfold lob_writer_keys. rewrite (iterate_int_perm _). apply NoDup_fst_map_to_list.
    - apply Forall_forall. intros i Hi. by eapply lob_keys.
    - rewrite Hres. split; [by intros i [? ?]|]. intros i c Hi. split; [intros _; apply Hlob|].
      intros Hn. exfalso. apply Hn. eapply lob_keys; [exact Hlob|by eexists]. }
  intros _ s1 (Ht1 & (Hm1 & Hm2 & Hm3 & Hm4) & Hcl). apply wp_bind, wp_get.
  assert (lob_reader_keys s1 = []) as ->.
  { unfold lob_reader_keys. rewrite Hm3, Hrd. pose proof (iterate_int_perm (∅ : gmap nat LobColumnReader)) as Hp.
    rewrite map_to_list_empty in Hp. apply Permutation_nil_r in Hp. by rewrite Hp. }
  apply wp_bind, wp_ret. eapply wp_seq.
  { apply (wp_on_table_writer _ s1 wr (λ cgs x, wr_closed x.2 = true ∧
      match written.*2 with [] => cgs = [] | _ => Forall2 (group_closed storage x.1 written.*2) gs cgs end)).
    - by rewrite Hm4.
    - rewrite Ht1. by eapply wp_W_close_state. }
  intros cgs s2 (st2 & wr2 & -> & _ & Hcgs). apply wp_bind, wp_get, wp_bind, wp_modify, wp_bind, wp_lift_case. simpl.
  destruct (build_lob_files_spec (iterate_int (sw_lob_file_results (ss_writer s1))) []) as (infos & Hinfos & _).
  { apply Forall_forall. intros [i files] Hi. rewrite (iterate_int_perm _) in Hi. apply elem_of_map_to_list in Hi.
    apply (proj1 Hcl). by eexists. }
  assert (build_lob_files (sw_original_schema (ss_writer s1)) (iterate_int (sw_lob_file_results (ss_writer s1))) = Ok infos)
    as Hbl by (by rewrite Hm1, Hs1).
  rewrite Hbl. apply wp_bind, wp_modify, wp_ret. simpl. split; [done|]. split; [congruence|]. split; [exact Hcgs|].
  rewrite Hm1, Hs1 in Hbl. by eapply closed_holds.
Qed.

(** A new writer, in the state between calls. *)
Lemma new_segment_writer fs st fs' st' w :
  SegmentWriter_Create trim_copy true (Some schema) config fs st = (fs', st', Ok w) → sw_storage_schema w = storage →
  create_column_group_policy trim_copy (swc_properties config) storage = Ok policy →
  segment_inv [] (mkSegmentState fs' st' w).
Proof.
  intros (-> & -> & storage' & idx & policy' & wr & m & Hb & Hp & Hw & -> & Hm)%create_spec <- Hpol. simpl in Hpol.
  rewrite Hp in Hpol. injection Hpol as ->. split; try done; simpl.
  - intros i. unfold lob_writer_ok. simpl. rewrite Hm. destruct (lob i) as [c|] eqn:Hi; [|done].
    exists (CreateLobColumnWriter fs c). split; [done|]. split; [done|].
    apply (new_writer_good c). by eapply lob_threshold.
  - exists wr. split; [done|]. unfold Writer_create in Hw. destruct (GetValueNoError _ _ _) as [size|e|]; try done.
    injection Hw as <-. done.
Qed.

(** C15: A written segment is complete.  For a writer that [Create] returned, with LOB
    columns that keep their files apart and none in rewrite mode, and any sequence
    of writes and flushes: nothing is undefined; an error comes from a file, a
    format writer or a full builder; otherwise [Close] returns the number of rows,
    column groups whose files hold every batch with references in place of its LOB
    values, and a list of existing LOB files that contains every file a reference
    needs; each reference resolves to the value it was given for, and no two
    references name the same row. *)
Theorem segment_written_complete fs st fs' st' w ops :
  properties_ok trim_copy (swc_properties config) →
  SegmentWriter_Create trim_copy true (Some schema) config fs st = (fs', st', Ok w) → sw_storage_schema w = storage →
  create_column_group_policy trim_copy (swc_properties config) storage = Ok policy →
  batches_ok (segment_batches ops) →
  wp (for_each segment_run ops;; Segment_Close) (mkSegmentState fs' st' w)
    (λ out s', ∃ stored, Forall2 stored_as (segment_batches ops) stored ∧
       swo_rows_written out = batch_rows_of (segment_batches ops) ∧
       (match stored with [] => swo_column_groups out = []
        | _ => Forall2 (group_closed storage (ss_tables s') stored) gs (swo_column_groups out) end) ∧
       segment_holds (ss_lob s') (zip (segment_batches ops) stored) (swo_lob_files out) ∧
       lob_files_exist (ss_lob s') (swo_lob_files out))
    (λ e _, segment_failed e).
Proof.
  intros Hprops Hc Hs Hp Hb. destruct (rolling_size_set trim_copy _ Hprops) as [limit Hlim].
  pose proof (new_segment_writer _ _ _ _ _ Hc Hs Hp) as Hinv.
  eapply wp_seq; [exact (wp_segment_ops [] ops _ limit Hinv Hb Hlim)|]. intros _ s1 (written & Hw & Hinv1). simpl in Hw.
  eapply wp_mono; [apply (wp_segment_close written [] s1 limit); [done|by rewrite app_nil_r, Hw|done]| |done].
  intros out s2 (_ & Hrows & Hcgs & Hholds & Hfiles). exists written.*2. rewrite <- Hw. split_and!; try done.
  - clear -Hinv1. pose proof (si_stored _ _ Hinv1) as Hall. clear Hinv1. induction Hall; by constructor.
  - by rewrite zip_fst_snd.
Qed.
End writer.
