(* ===== verification/SegmentReadCorrect.v ===== *)
(** * Reading segments

    A segment reader extracts the wanted columns in the order of the schema and
    gives back, for every row it reads, the values that the references of its
    LOB columns stand for; whatever rows are read, in batches of a scan or by a
    take, a segment that was written is read back as it was. *)

From S2P Require Import Prelude CppString Status Config Paths ColumnGroups Properties Manifest ArrowData PackedMetadata ParquetWriter PackedWriter ColumnGroupPolicy ColumnGroupWriter Writer WriterCorrect LobColumn LobColumnCorrect LobShared LobBatchRead Segment SegmentCorrect.

(** ** The schemas *)

Section schemas.
Context `{KVM : KeyValueMetadata}.
Implicit Types (cfgs : gmap Z LobColumnConfig) (schema extracted storage : list Field).

Lemma extract_fields_spec cfgs wanted k schema extracted storage idx :
  extract_fields cfgs wanted k schema = Ok (extracted, storage, idx) →
  extracted = filter (λ f, wanted (fd_name f) = true) schema ∧ fd_name <$> storage = fd_name <$> extracted ∧
  ∀ j, j ∈ idx ↔ ∃ i, j = (k + i)%nat ∧ is_Some (lob_config cfgs extracted i).
Proof.
  revert k extracted storage idx. induction schema as [|f schema IH]; intros k extracted storage idx; cbn [extract_fields].
  { intros [= <- <- <-]. split_and!; [done|done|]. intros j. split; [by intros ?%not_elem_of_nil|]. by intros (i & _ & [? ?]). }
  rewrite filter_cons. destruct (wanted (fd_name f)) eqn:Hw; cbn [negb].
  2:{ intros He. rewrite decide_False by done. by apply IH in He. }
  rewrite decide_True by done.
  intros ([f' b] & Hc & ([[ex st] idx'] & Hrest & [= <- <- <-])%bind_Ok_inv)%bind_Ok_inv. simpl in *.
  apply classify_spec in Hc as (id & Hid & -> & Hn). destruct (IH _ _ _ _ Hrest) as (-> & Hnames & Hidx).
  split; [done|]. split; [by f_equal|]. intros j. set (rest := filter _ schema) in *.
  assert (is_Some (lob_config cfgs (f :: rest) 0) ↔ is_Some (cfgs !! id)) as H0 by (unfold lob_config; simpl; by rewrite Hid).
  assert ((∃ i, j = (k + i)%nat ∧ is_Some (lob_config cfgs (f :: rest) i)) ↔
    (j = k ∧ is_Some (cfgs !! id)) ∨ j ∈ idx') as ->.
  { rewrite Hidx, <- H0. split.
    - intros ([|i] & -> & Hi); [left; by rewrite Nat.add_0_r|right]. exists i. split; [lia|done].
    - intros [[-> Hi]|(i & -> & Hi)]; [exists 0%nat|exists (S i)]; (split; [lia|done]). }
  case_bool_decide; [rewrite elem_of_cons|]; tauto.
Qed.

(** The wanted columns in the order of the schema; names that are no columns are
    ignored, unless nothing is left. *)
Lemma build_schemas_spec cfgs schema columns extracted storage idx :
  BuildSchemasForExtraction schema columns cfgs = Ok (extracted, storage, idx) →
  extracted ≠ [] ∧ extracted = filter (λ f, columns = [] ∨ fd_name f ∈ columns) schema ∧
  fd_name <$> storage = fd_name <$> extracted ∧
  ∀ j, j ∈ idx ↔ is_Some (lob_config cfgs extracted j).
Proof.
  unfold BuildSchemasForExtraction. intros ([[ex st] idx'] & He & Hr)%bind_Ok_inv. simpl in Hr.
  destruct ex as [|f ex]; [done|]. injection Hr as <- <- <-.
  apply extract_fields_spec in He as (Hex & Hn & Hidx). split; [done|]. split_and!; [|done|].
  - rewrite Hex. apply list_filter_iff. intros g. rewrite orb_true_iff, !bool_decide_eq_true. done.
  - intros j. rewrite Hidx. split; [by intros (i & -> & Hi)|]. intros Hj. by exists j.
Qed.
End schemas.

(** ** The reader *)

(** Failures of the table readers are statuses. *)
Class TableReadersLaws `{TRS : TableReaders} : Prop := {
  next_defined st w w' : BS_ReadNext st w ≠ (w', Ub);
  scan_defined r p w w' : TR_get_record_batch_reader r p w ≠ (w', Ub);
  take_rows_defined r i p w w' : TR_take r i p w ≠ (w', Ub);
  empty_defined s : MakeEmpty s ≠ Ub;
  combine_defined s bs : FromRecordBatches s bs ≠ Ub;
}.

Section reader.
Context `{LL : LobLaws} `{KVM : KeyValueMetadata} `{BL : BatchLaws} `{BM : !BatchMake} `{BML : !BatchMakeLaws} `{SA : !SegmentArrays}.
Context `{SAL : !SegmentArraysLaws} `{IML : IntMapOrderLaws} `{TRS : !TableReaders} `{TRL : !TableReadersLaws}.
Context (cfgs : gmap Z LobColumnConfig).

Implicit Types (fs : LobColumn.Store) (s : SegmentReaderState) (b : RecordBatch).

(** An error that comes from the files, from an array builder or from the table
    readers; [bad] holds of what may be wrong with the references. *)
Definition resolve_failed (e : raised) : Prop :=
  ∃ e', e = Returned e' ∧ (read_failed e' ∨ (∃ l x, array_Append l x = Err e') ∨ ∃ l, array_Finish l = Err e').

Definition table_failed (e : raised) : Prop :=
  ∃ e', e = Returned e' ∧ ((∃ st w w', BS_ReadNext st w = (w', Err e')) ∨
    (∃ r i p w w', TR_take r i p w = (w', Err e')) ∨ (∃ sch, MakeEmpty sch = Err e') ∨
    ∃ sch bs, FromRecordBatches sch bs = Err e').

(** A reader over files as they are in [fs]; [schema] is the extracted schema. *)
Definition text_readers_ok fs (schema : Schema) (store : LobColumn.Store) (readers : gmap nat LobColumnReader) : Prop :=
  ∀ j, match lob_config cfgs schema j with
       | None => readers !! j = None
       | Some c => ∃ w, readers !! j = Some w ∧ reader_ok c fs (set_store store w)
       end.

Record segment_reader_ok fs s : Prop := {
  ok_open : sr_closed (rs_reader s) = false;
  ok_readers : text_readers_ok fs (sr_extracted_schema (rs_reader s)) (rs_lob s) (sr_lob_readers (rs_reader s));
  ok_reader : is_Some (sr_reader (rs_reader s));
  ok_stream : is_Some (sr_batch_reader (rs_reader s));
}.

(** The value that a reference stands for. *)
Definition means fs (c : LobColumnConfig) (r v : option value) : Prop :=
  match r, v with None, None => True | Some ref, Some v => resolves c fs ref v | _, _ => False end.

(** A storage batch of the columns of [schema]: its LOB columns hold references
    that are not malformed, each row at most once. *)
Definition storage_batch_ok (schema : Schema) b : Prop :=
  ∀ j a c, lob_config cfgs schema j = Some c → batch_arrays b !! j = Some a →
    ∃ refs, as_binary a = Some refs ∧ Forall (λ r, ∀ ref, r = Some ref → ref ≠ [] ∧ ¬ bad_ref ref) refs ∧
      NoDup (omap (λ r, r ≫= lob_row) refs).

Definition column_resolved fs (schema : Schema) (j : nat) (a a' : Array) : Prop :=
  match lob_config cfgs schema j with
  | None => a' = a
  | Some c => ∃ refs vals, as_binary a = Some refs ∧ as_binary a' = Some vals ∧ Forall2 (means fs c) refs vals
  end.

Lemma rows_named_refs refs k :
  Forall (λ r, ∀ ref, r = Some ref → ref ≠ [] ∧ ¬ bad_ref ref) refs →
  rows_named (lob_entries k refs) = omap (λ r, r ≫= lob_row) refs.
Proof.
  intros Hall. revert k. induction Hall as [|r refs Hr Hall IH]; intros k; [done|]. cbn [lob_entries omap list_omap].
  unfold rows_named in *. rewrite fmap_app, IH. destruct r as [[|x ref]|]; [by destruct (Hr [] eq_refl)| |done].
  simpl. destruct (x =? FLAG_INLINE_DATA); done.
Qed.

Lemma text_readers_store fs schema store store' m m' j c w :
  lob_config cfgs schema j = Some c → reader_ok c fs w → lr_fs w = store' → m' = <[j := w]> m →
  text_readers_ok fs schema store m → text_readers_ok fs schema store' m'.
Proof.
  intros Hj Hw <- -> Hok i. specialize (Hok i). destruct (decide (i = j)) as [->|Hne].
  - rewrite Hj in *. exists w. rewrite lookup_insert_eq. split; [done|]. by destruct w.
  - rewrite lookup_insert_ne by done. destruct (lob_config cfgs schema i) as [c'|]; [|done].
    destruct Hok as (w' & Hw' & Hr). exists w'. split; [done|]. destruct Hr as [? ? ? ?]. split; try done.
    simpl. by destruct Hw.
Qed.

(** Only the LOB readers and their store differ. *)
Definition text_only s s' : Prop :=
  ∃ fs m, s' = mkSegmentReaderState fs (rs_world s) (set_sr_lob_readers m (rs_reader s)).

Lemma text_only_refl s : text_only s s.
Proof. exists (rs_lob s), (sr_lob_readers (rs_reader s)). by destruct s as [? ? []]. Qed.

Lemma text_only_trans s1 s2 s3 : text_only s1 s2 → text_only s2 s3 → text_only s1 s3.
Proof. intros (fs & m & ->) (fs' & m' & ->). by exists fs', m'. Qed.

(** *** Resolving *)

Lemma wp_read_text fs schema s j c refs :
  lob_config cfgs schema j = Some c → text_readers_ok fs schema (rs_lob s) (sr_lob_readers (rs_reader s)) →
  Forall (λ r, ∀ ref, r = Some ref → ref ≠ [] ∧ ¬ bad_ref ref) refs → NoDup (omap (λ r, r ≫= lob_row) refs) →
  wp (on_text_reader j (ReadArrowArray refs)) s
    (λ vals s', Forall2 (means fs c) refs vals ∧ text_only s s' ∧
       text_readers_ok fs schema (rs_lob s') (sr_lob_readers (rs_reader s')))
    (λ e _, resolve_failed e).
Proof.
  intros Hj Hok Hrefs Hnd. pose proof (Hok j) as Hw. rewrite Hj in Hw. destruct Hw as (w & Hw & Hr).
  assert (Forall (λ r, r ≠ Some []) refs) as Hne.
  { eapply Forall_impl; [exact Hrefs|]. intros r Hr0 ->. by destruct (Hr0 [] eq_refl). }
  pose proof (read_array_spec c fs _ refs Hr Hne ltac:(by rewrite rows_named_refs)) as Hread.
  unfold wp, on_text_reader. rewrite Hw. unfold wp in Hread. unfold returned.
  destruct (ReadArrowArray refs _) as [w' [vals|e|]]; [|..|done].
  - destruct Hread as (Hr' & Hlen & Hall). split; [|split; [by eexists _, _|]].
    + apply Forall2_same_length_lookup_2; [done|]. intros i r v Hi Hv. specialize (Hall i r Hi). destruct r as [ref|].
      * destruct Hall as (v' & Hv' & Ha). rewrite Hv in Hv'. injection Hv' as ->. simpl.
        destruct ref as [|x ref]; [|apply Ha].
        eapply Forall_lookup_1 in Hrefs; [|exact Hi]. by destruct (Hrefs [] eq_refl).
      * rewrite Hv in Hall. by injection Hall as ->.
    + simpl. eapply text_readers_store; [exact Hj|exact Hr'|done|done|exact Hok].
  - exists e. split; [done|]. destruct Hread as [He|[[_ (ref & Hin & Hlob & Hlen)]|He]]; [by left| |by right].
    exfalso. rewrite Forall_forall in Hrefs. destruct (Hrefs _ Hin ref eq_refl) as [_ Hbad]. apply Hbad.
    split; [|done]. destruct ref as [|x ref]; [done|]. simpl in *. intros [= ->]. done.
Qed.

Lemma wp_resolve_columns fs schema b n k s :
  (k + n)%nat = length (batch_arrays b) → storage_batch_ok schema b →
  text_readers_ok fs schema (rs_lob s) (sr_lob_readers (rs_reader s)) →
  wp (resolve_columns b (seq k n)) s
    (λ cols s', length cols = n ∧
       (∀ j a a', batch_arrays b !! (k + j)%nat = Some a → cols !! j = Some a' → column_resolved fs schema (k + j) a a') ∧
       text_only s s' ∧ text_readers_ok fs schema (rs_lob s') (sr_lob_readers (rs_reader s')))
    (λ e _, resolve_failed e).
Proof.
  intros Hk Hb. revert k s Hk. induction n as [|n IH]; intros k s Hk Hok; cbn [seq resolve_columns].
  { apply wp_ret. split_and!; [done|done|apply text_only_refl|done]. }
  destruct (lookup_lt_is_Some_2 (batch_arrays b) k ltac:(lia)) as [a Ha]. rewrite Ha.
  apply wp_bind, wp_lift_case. cbn [deref]. apply wp_bind, wp_get.
  eapply (wp_seq _ _ _ (λ a' s', column_resolved fs schema k a a' ∧ text_only s s' ∧
    text_readers_ok fs schema (rs_lob s') (sr_lob_readers (rs_reader s')))).
  { pose proof (Hok k) as Hw. unfold column_resolved. destruct (lob_config cfgs schema k) as [c|] eqn:Hc.
    - destruct Hw as (w & -> & _). destruct (Hb k a c Hc Ha) as (refs & Hbin & Hrefs & Hnd). rewrite Hbin.
      eapply wp_seq; [by apply (wp_read_text fs schema s k c refs)|]. intros vals s1 (Hm & Hs1 & Hok1). apply wp_ret.
      split; [|done]. exists refs, vals. by rewrite binary_back.
    - rewrite Hw. apply wp_ret. split; [done|]. split; [apply text_only_refl|done]. }
  intros a' s1 (Hc & Hs1 & Hok1). eapply wp_seq; [apply (IH (S k) s1); [lia|done]|].
  intros cols s2 (Hlen & Hall & Hs2 & Hok2). apply wp_ret. split; [simpl; lia|].
  split; [|split; [by eapply text_only_trans|done]].
  intros [|j] a0 a1 Ha0 Ha1; simpl in *.
  - rewrite Nat.add_0_r in *. congruence.
  - rewrite <- Nat.add_succ_comm in *. by apply Hall.
Qed.

(** A batch with the resolved columns. *)
Definition batch_resolved fs (schema : Schema) b (b' : RecordBatch) : Prop :=
  ∃ cols, b' = Batch_Make schema (num_rows b) cols ∧ length cols = length (batch_arrays b) ∧
    ∀ j a a', batch_arrays b !! j = Some a → cols !! j = Some a' → column_resolved fs schema j a a'.

Lemma num_columns_arrays b : Z.to_nat (num_columns b) = length (batch_arrays b).
Proof. unfold num_columns. rewrite arrays_length. lia. Qed.

Lemma wp_ResolveLobColumns fs s b :
  segment_reader_ok fs s → storage_batch_ok (sr_extracted_schema (rs_reader s)) b →
  wp (ResolveLobColumns b) s
    (λ b' s', batch_resolved fs (sr_extracted_schema (rs_reader s)) b b' ∧ text_only s s' ∧ segment_reader_ok fs s')
    (λ e _, resolve_failed e).
Proof.
  intros [Ho Hok Hr Hst] Hb. unfold ResolveLobColumns. apply wp_bind, wp_get. case_bool_decide as Hempty.
  - apply wp_ret. split; [|split; [apply text_only_refl|done]]. exists (batch_arrays b). split; [done|]. split; [done|].
    intros j a a' Ha Ha'. rewrite Ha in Ha'. injection Ha' as <-. unfold column_resolved. specialize (Hok j).
    destruct (lob_config _ _ j); [|done]. destruct Hok as (w & Hw & _). by rewrite Hempty, lookup_empty in Hw.
  - rewrite num_columns_arrays. eapply wp_seq; [by apply (wp_resolve_columns fs (sr_extracted_schema (rs_reader s)) b _ 0 s)|].
    intros cols s1 (Hlen & Hall & (fs1 & m1 & ->) & Hok1). apply wp_ret. split; [by exists cols|].
    split; [by exists fs1, m1|done].
Qed.

Lemma wp_on_world {A} (m : M World Status A) s Q :
  (∀ w a, m (rs_world s) = (w, Ok a) → Q a (mkSegmentReaderState (rs_lob s) w (rs_reader s))) →
  (∀ w, m (rs_world s) ≠ (w, Ub)) →
  wp (on_world m) s Q (λ e _, ∃ e' w, e = Returned e' ∧ m (rs_world s) = (w, Err e')).
Proof.
  intros HQ HU. unfold wp, on_world, returned. destruct (m (rs_world s)) as [w [a|e|]]; [by apply HQ|by exists e, w|].
  by eapply HU.
Qed.

(** [ReadNext]. *)
Lemma wp_SegmentReader_ReadNext fs s :
  segment_reader_ok fs s →
  (∀ st w w' b, sr_batch_reader (rs_reader s) = Some st → BS_ReadNext st w = (w', Ok (Some b)) →
     storage_batch_ok (sr_extracted_schema (rs_reader s)) b) →
  wp SegmentReader_ReadNext s
    (λ r s', segment_reader_ok fs s' ∧ sr_extracted_schema (rs_reader s') = sr_extracted_schema (rs_reader s) ∧
       sr_batch_reader (rs_reader s') = sr_batch_reader (rs_reader s) ∧
       ∃ st sb, sr_batch_reader (rs_reader s) = Some st ∧ BS_ReadNext st (rs_world s) = (rs_world s', Ok sb) ∧
         match sb, r with
         | None, None => sr_total_rows (rs_reader s') = sr_total_rows (rs_reader s)
         | Some sb, Some b => batch_resolved fs (sr_extracted_schema (rs_reader s)) sb b ∧
             sr_total_rows (rs_reader s') = sr_total_rows (rs_reader s) + num_rows sb
         | _, _ => False
         end)
    (λ e _, resolve_failed e ∨ table_failed e).
Proof.
  intros Hok Hb. pose proof Hok as [Ho Htx Hr [st Hst]]. unfold SegmentReader_ReadNext. apply wp_bind.
  unfold reader_check_open. apply wp_bind, wp_get. rewrite Ho. apply wp_ret, wp_bind, wp_get, wp_bind, wp_lift_case.
  rewrite Hst. cbn [deref]. apply wp_bind. eapply wp_mono; [apply (wp_on_world (BS_ReadNext st) s (λ sb s1,
    ∃ w, s1 = mkSegmentReaderState (rs_lob s) w (rs_reader s) ∧ BS_ReadNext st (rs_world s) = (w, Ok sb)))| |].
  - intros w sb Hn. by exists w.
  - intros w. apply next_defined.
  - intros sb s1 (w & -> & Hn). destruct sb as [b|].
    + apply wp_bind, wp_modify. eapply wp_seq.
      { eapply wp_mono; [apply (wp_ResolveLobColumns fs)| |intros e ? He; by left].
        - split; [done|exact Htx|done|by exists st].
        - simpl. by eapply Hb.
        - intros b' s2 H2. exact H2. }
      intros b' s2 (Hres & (fs2 & m2 & ->) & Hok2). apply wp_ret. split; [done|]. split; [done|]. split; [done|].
      exists st, (Some b). simpl in *. done.
    + apply wp_ret. split; [split; [done|exact Htx|done|by exists st]|]. split; [done|]. split; [done|].
      exists st, None. done.
  - intros e s1 (e' & w & -> & Hn). right. exists e'. split; [done|]. left. by eexists _, _, _.
Qed.

(** *** Takes *)

Lemma wp_resolve_batches fs bs s :
  segment_reader_ok fs s → Forall (storage_batch_ok (sr_extracted_schema (rs_reader s))) bs →
  wp (resolve_batches bs) s
    (λ bs' s', Forall2 (batch_resolved fs (sr_extracted_schema (rs_reader s))) bs bs' ∧ text_only s s' ∧ segment_reader_ok fs s')
    (λ e _, resolve_failed e).
Proof.
  intros Hok Hbs. revert s Hok Hbs. induction bs as [|b bs IH]; intros s Hok Hbs; cbn [resolve_batches].
  { apply wp_ret. split; [constructor|]. split; [apply text_only_refl|done]. }
  apply Forall_cons in Hbs as [Hb Hbs]. eapply wp_seq; [by apply wp_ResolveLobColumns|].
  intros b' s1 (Hb' & (fs1 & m1 & ->) & Hok1). eapply wp_seq; [by apply IH|].
  intros bs' s2 (Hbs' & Hs2 & Hok2). apply wp_ret. split; [by constructor|]. split; [|done].
  eapply text_only_trans; [|exact Hs2]. by exists fs1, m1.
Qed.

(** [Take]: the batches of the taken table are resolved one by one. *)
Lemma wp_SegmentReader_Take fs s idx parallelism :
  segment_reader_ok fs s → idx ≠ [] →
  (∀ r w w' t, TR_take r idx parallelism w = (w', Ok t) →
     Forall (storage_batch_ok (sr_extracted_schema (rs_reader s))) (table_batches t)) →
  wp (SegmentReader_Take idx parallelism) s
    (λ t s', segment_reader_ok fs s' ∧ ∃ r st bs, TR_take r idx parallelism (rs_world s) = (rs_world s', Ok st) ∧
       Forall2 (batch_resolved fs (sr_extracted_schema (rs_reader s))) (table_batches st) bs ∧
       match bs with [] => MakeEmpty (sr_extracted_schema (rs_reader s)) = Ok t
       | _ => FromRecordBatches (sr_extracted_schema (rs_reader s)) bs = Ok t end)
    (λ e _, resolve_failed e ∨ table_failed e).
Proof.
  intros Hok Hidx Hb. pose proof Hok as [Ho Htx [r Hr] Hst]. unfold SegmentReader_Take. apply wp_bind.
  unfold reader_check_open. apply wp_bind, wp_get. rewrite Ho. apply wp_ret, wp_bind, wp_get.
  destruct idx as [|i idx]; [done|]. apply wp_bind, wp_lift_case. rewrite Hr. cbn [deref]. apply wp_bind.
  eapply wp_mono; [apply (wp_on_world (TR_take r (i :: idx) parallelism) s (λ t s1,
    ∃ w, s1 = mkSegmentReaderState (rs_lob s) w (rs_reader s) ∧ TR_take r (i :: idx) parallelism (rs_world s) = (w, Ok t)))| |].
  - intros w t Ht. by exists w.
  - intros w. apply take_rows_defined.
  - intros t s1 (w & -> & Ht). apply wp_bind. eapply wp_mono; [apply (wp_resolve_batches fs)| |intros e ? He; by left].
    + split; [done|exact Htx|by exists r|done].
    + simpl. by eapply Hb.
    + intros bs s2 (Hbs & (fs2 & m2 & ->) & Hok2). simpl in *.
      destruct bs as [|b bs]; apply wp_returned, wp_lift_case.
      * destruct (MakeEmpty _) as [t'|e|] eqn:He; [|right; exists e; split; [done|]; right; right; left; by eexists|by apply empty_defined in He].
        split; [done|]. by exists r, t, [].
      * destruct (FromRecordBatches _ _) as [t'|e|] eqn:He;
          [|right; exists e; split; [done|]; right; right; right; by eexists _, _|by apply combine_defined in He].
        split; [done|]. by exists r, t, (b :: bs).
  - intros e s1 (e' & w & -> & Ht). right. exists e'. split; [done|]. right. left. by eexists _, _, _, _, _.
Qed.

(** *** Creation *)

Lemma init_text_columns_spec schema l s :
  sr_extracted_schema (rs_reader s) = schema → src_lob_columns (sr_config (rs_reader s)) = cfgs →
  Forall (λ j, is_Some (lob_config cfgs schema j)) l →
  wp (for_each init_text_column l) s
    (λ _ s', ∃ m, s' = set_sr (set_sr_lob_readers m) s ∧
       ∀ j, m !! j = if decide (j ∈ l) then CreateLobColumnReader (rs_lob s) <$> lob_config cfgs schema j
                     else sr_lob_readers (rs_reader s) !! j)
    (λ _ _, True).
Proof.
  revert s. induction l as [|j l IH]; intros s Hs Hc Hl; cbn [for_each].
  { apply wp_ret. exists (sr_lob_readers (rs_reader s)). split; [by destruct s as [? ? []]|]. intros i. by rewrite decide_False by apply not_elem_of_nil. }
  apply Forall_cons in Hl as [[c Hj] Hl]. pose proof Hj as (f & id & Hf & Hid & Hcfg)%lob_config_field.
  eapply (wp_seq _ _ _ (λ _ s1, s1 = set_sr (set_sr_lob_readers (<[j := CreateLobColumnReader (rs_lob s) c]> (sr_lob_readers (rs_reader s)))) s)).
  { unfold init_text_column. apply wp_bind, wp_get, wp_bind. rewrite Hs, Hf. apply wp_lift_case, wp_bind.
    rewrite Hid. apply wp_lift_case. destruct (id <? 0); [done|]. rewrite Hc, Hcfg. by apply wp_modify. }
  intros _ s1 ->. eapply wp_mono; [by apply IH| |done]. intros _ s2 (m & -> & Hm). exists m. split; [done|].
  intros i. rewrite Hm. simpl. destruct (decide (i ∈ l)) as [Hi|Hi].
  - by rewrite decide_True by (apply elem_of_cons; auto).
  - destruct (decide (i = j)) as [->|Hne].
    + rewrite lookup_insert_eq, decide_True by (apply elem_of_cons; auto). by rewrite Hj.
    + rewrite lookup_insert_ne by done. rewrite decide_False; [done|]. by rewrite not_elem_of_cons.
Qed.

(** A reader that a factory returned. *)
Lemma make_reader_ok fs schema columns rcfg groups fs0 w0 fs1 w1 r :
  make_reader schema columns rcfg groups fs0 w0 = (fs1, w1, Ok r) → src_lob_columns rcfg = cfgs →
  (∀ q, file_of fs0 q = file_of fs q) →
  segment_reader_ok fs (mkSegmentReaderState fs1 w1 r) ∧
  sr_extracted_schema r = filter (λ f, columns = [] ∨ fd_name f ∈ columns) (schema : list Field).
Proof.
  intros Hm Hcfg Hfs. unfold make_reader in Hm.
  set (cols := match columns with [] => fd_name <$> schema | _ => columns end) in Hm.
  destruct (BuildSchemasForExtraction schema cols (src_lob_columns rcfg)) as [[[ex st] idx]|e|] eqn:Hb; try done.
  apply build_schemas_spec in Hb as (_ & Hex & _ & Hidx). rewrite Hcfg in Hidx.
  assert (ex = filter (λ f, columns = [] ∨ fd_name f ∈ columns) (schema : list Field)) as Hex'.
  { rewrite Hex. unfold cols. destruct columns as [|x columns]; [|apply list_filter_iff; intros f; split; intros [?|?]; auto; done].
    assert (∀ (l : list Field) (P : Field → Prop) `{!∀ f, Decision (P f)}, (∀ f, f ∈ l → P f) → filter P l = l) as Hall.
    { intros l P ? HP. induction l as [|f l IHl]; [done|]. rewrite filter_cons, decide_True by (apply HP; by left).
      f_equal. apply IHl. intros g Hg. apply HP. by right. }
    rewrite !Hall; [done|by left|]. intros f Hf. right. by apply list_elem_of_fmap_2. }
  set (s0 := mkSegmentReaderState fs0 w0 _) in Hm.
  pose proof (init_text_columns_spec ex idx) as Hinit. unfold SegmentReader_Init in Hm.
  unfold mbind at 1, M_bind at 1, get_st in Hm. unfold mbind at 1, M_bind at 1, modify at 1 in Hm.
  unfold mbind at 1, M_bind at 1 in Hm. change (sr_lob_column_indices (rs_reader s0)) with idx in Hm.
  match type of Hm with context [for_each init_text_column idx ?s] => specialize (Hinit s eq_refl Hcfg); set (s1 := s) in * end.
  assert (Forall (λ j, is_Some (lob_config cfgs ex j)) idx) as Hall by (apply Forall_forall; intros j; apply Hidx).
  specialize (Hinit Hall). unfold wp in Hinit.
  destruct (for_each init_text_column idx s1) as [s2 [[]|e|]]; [|by destruct (SegmentReader_Close s2)|done].
  destruct Hinit as (m & -> & Hlook). unfold mbind, M_bind, on_world, returned in Hm. simpl in Hm.
  destruct (TR_get_record_batch_reader _ _ _) as [w2 [stream|e|]]; [|by destruct (SegmentReader_Close _)|done].
  simpl in Hm. injection Hm as <- <- <-. split; [|done]. split; simpl; [done| |by eexists..].
  intros j. specialize (Hlook j). destruct (decide (j ∈ idx)) as [Hj|Hj].
  - apply Hidx in Hj as [c Hc]. rewrite Hc in *. exists (CreateLobColumnReader fs0 c). split; [done|].
    by split.
  - destruct (lob_config cfgs ex j) as [c|] eqn:Hc; [|by rewrite Hlook].
    exfalso. apply Hj, Hidx. rewrite Hc. by eexists.
Qed.
End reader.

Lemma omap_sublist {A B} (f : A → option B) l1 l2 : l1 `sublist_of` l2 → omap f l1 `sublist_of` omap f l2.
Proof.
  induction 1 as [|x l1 l2 _ IH|x l1 l2 _ IH]; simpl; [constructor| |]; destruct (f x); [by constructor|done|by constructor|done].
Qed.

(** ** Reading back what was written *)

Section read_back.
Context `{LL : LobLaws} `{KVM : KeyValueMetadata} `{BL : BatchLaws} `{BM : !BatchMake} `{BML : !BatchMakeLaws} `{SA : !SegmentArrays}.
Context `{SAL : !SegmentArraysLaws} `{IML : IntMapOrderLaws} `{TRS : !TableReaders} `{TRL : !TableReadersLaws}.
Context (config : SegmentWriterConfig) (schema : list Field) (written : list (RecordBatch * RecordBatch)).

#[local] Abbreviation cfgs := (swc_lob_columns config).

(** The array of references [r] was handed out for the values [v] of column [i]. *)
Definition handed_out (i : nat) (r v : option value) : Prop :=
  match r, v with None, None => True | Some ref, Some v => (v, ref) ∈ history i written | _, _ => False end.

(** The LOB columns of a storage batch hold references to what was written,
    [orig j] for the column at position [j] of the extracted schema; the rows may
    be any, in any order, each at most once. *)
Definition originals (extracted : list Field) (sb : RecordBatch) (orig : nat → list (option value)) : Prop :=
  ∀ j a c, lob_config cfgs extracted j = Some c → batch_arrays sb !! j = Some a →
    ∃ i refs, schema !! i = extracted !! j ∧ as_binary a = Some refs ∧ Forall2 (handed_out i) refs (orig j) ∧
      NoDup (omap (λ r, r ≫= lob_row) refs).

(** A storage batch with its values put back. *)
Definition restored (extracted : list Field) (orig : nat → list (option value)) (sb b : RecordBatch) : Prop :=
  ∃ cols, b = Batch_Make extracted (num_rows sb) cols ∧ length cols = length (batch_arrays sb) ∧
    ∀ j a a', batch_arrays sb !! j = Some a → cols !! j = Some a' →
      match lob_config cfgs extracted j with None => a' = a | Some _ => as_binary a' = Some (orig j) end.

Lemma same_column extracted i j c :
  schema !! i = extracted !! j → lob_config cfgs extracted j = Some c → lob_config cfgs schema i = Some c.
Proof. unfold lob_config. intros Hi. rewrite <- Hi. done. Qed.

Lemma originals_ok fs files extracted sb orig :
  segment_holds config schema fs written files → originals extracted sb orig → storage_batch_ok cfgs extracted sb.
Proof.
  intros Hh Ho j a c Hj Ha. destruct (Ho j a c Hj Ha) as (i & refs & Hi & Hbin & Hall & Hnd). exists refs. split_and!; [done| |done].
  destruct (Hh i c (same_column _ _ _ _ Hi Hj)) as [_ Href]. apply Forall_forall. intros r Hr ref ->.
  apply list_elem_of_lookup in Hr as [k Hk]. eapply Forall2_lookup_l in Hall as (v & _ & Hv); [|exact Hk].
  destruct v as [v|]; [|done]. simpl in Hv. apply Href in Hv as (? & _ & ? & _). done.
Qed.

Lemma originals_restored fs files extracted sb b orig :
  segment_holds config schema fs written files → originals extracted sb orig →
  batch_resolved cfgs fs extracted sb b → restored extracted orig sb b.
Proof.
  intros Hh Ho (cols & -> & Hlen & Hall). exists cols. split; [done|]. split; [done|]. intros j a a' Ha Ha'.
  specialize (Hall j a a' Ha Ha'). unfold column_resolved in Hall. destruct (lob_config cfgs extracted j) as [c|] eqn:Hj; [|done].
  destruct Hall as (refs & vals & Hrefs & -> & Hm). destruct (Ho j a c Hj Ha) as (i & refs' & Hi & Hrefs' & Hgiven & _).
  rewrite Hrefs in Hrefs'. injection Hrefs' as <-. f_equal.
  destruct (Hh i c (same_column _ _ _ _ Hi Hj)) as [_ Href].
  clear -Hm Hgiven Href. revert vals Hm. induction Hgiven as [|r v refs orig' Hr Hgiven IH]; intros vals Hm; inversion Hm as [|? v' ? vals' Hv Hvs]; subst; [done|].
  f_equal; [|by apply IH]. destruct r as [ref|], v as [v|], v' as [v'|]; try done. simpl in *.
  apply Href in Hr as (_ & Hres & _). f_equal. by eapply resolves_fun.
Qed.

(** Calls of [ReadNext]. *)
Fixpoint read_batches (n : nat) : SR (list (option RecordBatch)) :=
  match n with
  | O => mret []
  | S n' => b ← SegmentReader_ReadNext; bs ← read_batches n'; mret (b :: bs)
  end.

(** What the scan below returns to these calls. *)
Fixpoint yields (st : BatchStream) (w : World) (sbs : list (option RecordBatch)) (w' : World) : Prop :=
  match sbs with
  | [] => w = w'
  | sb :: sbs' => ∃ w1, BS_ReadNext st w = (w1, Ok sb) ∧ yields st w1 sbs' w'
  end.

Definition rows_of_stream (sbs : list (option RecordBatch)) : Z := sum_Z (from_option num_rows 0 <$> sbs).

Lemma wp_read_batches n fs files extracted st (orig : RecordBatch → nat → list (option value)) s :
  segment_holds config schema fs written files → segment_reader_ok cfgs fs s →
  sr_extracted_schema (rs_reader s) = extracted → sr_batch_reader (rs_reader s) = Some st →
  (∀ w w' sb, BS_ReadNext st w = (w', Ok (Some sb)) → originals extracted sb (orig sb)) →
  wp (read_batches n) s
    (λ bs s', ∃ sbs, yields st (rs_world s) sbs (rs_world s') ∧
       Forall2 (λ sb b, match sb, b with None, None => True | Some sb, Some b => restored extracted (orig sb) sb b | _, _ => False end) sbs bs ∧
       sr_total_rows (rs_reader s') = sr_total_rows (rs_reader s) + rows_of_stream sbs)
    (λ e _, resolve_failed e ∨ table_failed e).
Proof.
  intros Hh Hok Hex Hst Horig. revert s Hok Hex Hst. induction n as [|n IH]; intros s Hok Hex Hst; cbn [read_batches].
  { apply wp_ret. exists []. split; [done|]. split; [constructor|]. unfold rows_of_stream. simpl. lia. }
  eapply wp_seq.
  { apply (wp_SegmentReader_ReadNext cfgs fs s Hok). intros st' w w' b Hst' Hn. rewrite Hst in Hst'. injection Hst' as <-.
    rewrite Hex. eapply originals_ok; [exact Hh|by eapply Horig]. }
  intros r s1 (Hok1 & Hex1 & Hst1 & st' & sb & Hst' & Hn & Hr). rewrite Hst in Hst'. injection Hst' as <-.
  eapply wp_seq; [apply IH; [done|congruence|congruence]|]. intros bs s2 (sbs & Hy & Hall & Hrows). apply wp_ret.
  exists (sb :: sbs). split; [by exists (rs_world s1)|]. split.
  - constructor; [|done]. destruct sb as [sb|], r as [b|]; try done. destruct Hr as [Hb _]. rewrite Hex in Hb.
    eapply originals_restored; [exact Hh|by eapply Horig|exact Hb].
  - rewrite Hrows. unfold rows_of_stream. rewrite fmap_cons. simpl. destruct sb as [sb|], r as [b|]; try done; simpl.
    + destruct Hr as [_ ->]. lia.
    + rewrite Hr. lia.
Qed.

(** C16: Segments are read back.  Let a segment hold what was written, and a reader be
    created on files that still have the same content, for any columns.  Then the
    reader has the wanted columns in the order of the schema, and after any number
    of calls of [ReadNext], if the scan below returns references to rows that were
    written, in any order but each at most once in a batch, then every batch has the
    original values in its LOB columns and the other columns unchanged; the rows
    are counted, and an error comes from the files, the scan or a builder. *)
Theorem segment_read_back n fs files rcfg groups columns fs0 w0 fs1 w1 r (orig : RecordBatch → nat → list (option value)) :
  segment_holds config schema fs written files →
  src_lob_columns rcfg = swc_lob_columns config → (∀ q, file_of fs0 q = file_of fs q) →
  SegmentReader_Create true (Some groups) (Some schema) columns rcfg fs0 w0 = (fs1, w1, Ok r) →
  let extracted := filter (λ f, columns = [] ∨ fd_name f ∈ columns) schema in
  (∀ st w w' sb, sr_batch_reader r = Some st → BS_ReadNext st w = (w', Ok (Some sb)) → originals extracted sb (orig sb)) →
  sr_extracted_schema r = extracted ∧
  wp (read_batches n) (mkSegmentReaderState fs1 w1 r)
    (λ bs s', ∃ st sbs, sr_batch_reader r = Some st ∧ yields st w1 sbs (rs_world s') ∧
       Forall2 (λ sb b, match sb, b with None, None => True | Some sb, Some b => restored extracted (orig sb) sb b | _, _ => False end) sbs bs ∧
       sr_total_rows (rs_reader s') = sr_total_rows r + rows_of_stream sbs)
    (λ e _, resolve_failed e ∨ table_failed e).
Proof.
  intros Hh Hcfg Hfs Hc extracted Horig.
  destruct (make_reader_ok cfgs fs schema columns rcfg groups fs0 w0 fs1 w1 r Hc Hcfg Hfs) as [Hok Hex].
  split; [exact Hex|]. destruct (ok_stream _ _ _ Hok) as [st Hst].
  eapply wp_mono; [apply (wp_read_batches n fs files extracted st orig); [done|done|done|done|]| |done].
  - intros w w' sb. by apply Horig.
  - intros bs s' (sbs & Hy & Hall & Hrows). by exists st, sbs.
Qed.

(** A storage batch as it was written holds the originals. *)
Lemma written_originals fs files storage b sb :
  segment_holds config schema fs written files → (b, sb) ∈ written → stored_as config schema storage b sb →
  originals schema sb (λ j, default [] (batch_arrays b !! j ≫= as_binary)).
Proof.
  intros Hh Hin (cols & -> & Hlen & Hall) j a' c Hj Ha'. rewrite make_arrays in Ha'.
  destruct (lookup_lt_is_Some_2 (batch_arrays b) j ltac:(apply lookup_lt_Some in Ha'; lia)) as [a Ha].
  specialize (Hall j a a' Ha Ha'). unfold column_stored in Hall. rewrite Hj in Hall.
  destruct Hall as (data & refs & Hdata & -> & Hnull). destruct (Hh j c Hj) as [Hd _].
  assert (given data refs `sublist_of` history j written) as Hsub.
  { apply list_elem_of_split in Hin as (l1 & l2 & ->). unfold history. rewrite fmap_app, join_app, fmap_cons. simpl.
    apply sublist_inserts_l, sublist_inserts_r. unfold column_entries, array_entries. cbn [fst snd].
    rewrite make_arrays, Ha, Ha'. cbn [mbind option_bind]. by rewrite Hdata, binary_back. }
  exists j, refs. split; [done|]. split; [apply binary_back|]. rewrite Ha. cbn [mbind option_bind]. rewrite Hdata. cbn [default].
  split.
  - assert (∀ e, e ∈ given data refs → e ∈ history j written) as Hin' by (intros e He; by eapply elem_of_sublist).
    clear -Hnull Hin'. induction Hnull as [|d r data refs Hn Hnull IH]; [constructor|]. unfold given in *. simpl in *. constructor.
    + destruct d as [v|], r as [ref|]; simpl; [apply Hin'; by left|by destruct Hn as [[] _]; eauto|by destruct Hn as [_ []]; eauto|done].
    + apply IH. intros e He. apply Hin'. apply elem_of_app. by right.
  - unfold distinct in Hd. eapply sublist_NoDup; [exact Hd|].
    assert (omap (λ r, r ≫= lob_row) refs = omap lob_row (given data refs).*2) as ->.
    { clear -Hnull. induction Hnull as [|d r data refs Hn Hnull IH]; [done|].
      assert (given (d :: data) (r :: refs) = match d, r with Some v, Some ref => [(v, ref)] | _, _ => [] end ++ given data refs)
        as -> by done.
      change (omap (λ r, r ≫= lob_row) (r :: refs)) with
        (match r ≫= lob_row with Some y => y :: omap (λ r, r ≫= lob_row) refs | None => omap (λ r, r ≫= lob_row) refs end).
      rewrite IH. destruct d as [v|], r as [ref|]; [done|by destruct Hn as [[] _]; eauto|by destruct Hn as [_ []]; eauto|done]. }
    by apply omap_sublist, fmap_sublist.
Qed.
End read_back.
