(* ===== verification/CHeap.v ===== *)
(** * The memory the C interface works on

    The functions of [src/cpp/src/ffi] hand structures of raw pointers to C
    callers and free them again.  This file is the machine they run on: blocks
    of memory with the operator that allocated them, words that may be
    indeterminate, C strings, [new], [new[]], [malloc] and their
    counterparts.  Reading an indeterminate word, an access outside a block,
    freeing a block twice or with the wrong operator is undefined behaviour.
    Any allocation may fail, as the list of faults of the state says. *)

From S2P Require Import Prelude CppString.
From Stdlib Require Import Ascii.

(** A word of a structure: indeterminate, a null pointer, an integer, or the
    address of a block. *)
Inductive val :=
  | VUndef
  | VNull
  | VInt (z : Z)
  | VPtr (b : nat).

Definition pointer := option nat.
Definition vptr (p : pointer) : val := match p with None => VNull | Some b => VPtr b end.

(** Which operator has to release a block. *)
Inductive alloc_kind := KNew | KNewArray | KMalloc.

(** [Chars s] is an array of [s.size() + 1] characters that ends with NUL;
    [Words] is a structure or an array of words or structures. *)
Inductive content :=
  | Chars (s : string)
  | Words (ws : list val).

Record mblock := mkBlock { blk_kind : alloc_kind; blk_content : content }.

#[global] Instance val_eq_dec : EqDecision val.
Proof. solve_decision. Defined.
#[global] Instance alloc_kind_eq_dec : EqDecision alloc_kind.
Proof. solve_decision. Defined.
#[global] Instance content_eq_dec : EqDecision content.
Proof. solve_decision. Defined.
#[global] Instance mblock_eq_dec : EqDecision mblock.
Proof. solve_decision. Defined.

(** [faults]: whether each of the next allocations fails; the ones after the
    list succeed. *)
Record CState := mkC { mem : gmap nat mblock; faults : list bool }.

Inductive exn := BadAlloc | InvalidArgument.
#[global] Instance exn_eq_dec : EqDecision exn.
Proof. solve_decision. Defined.

(** [Err] is a C++ exception in flight. *)
Definition CM (A : Type) : Type := M CState exn A.

(** An address that is not in use; freed addresses come back. *)
Definition fresh_addr (m : gmap nat mblock) : nat := map_fold (λ b _ n, Nat.max (S b) n) 0%nat m.

Lemma fresh_addr_above m b blk : m !! b = Some blk → (b < fresh_addr m)%nat.
Proof.
  unfold fresh_addr. revert b blk.
  apply (map_fold_weak_ind (λ n (m : gmap nat mblock), ∀ b blk, m !! b = Some blk → (b < n)%nat)).
  - intros b blk. by rewrite lookup_empty.
  - intros i x m' r Hi IH b blk. rewrite lookup_insert_Some.
    intros [[<- _]|[_ Hb]]; [lia|]. specialize (IH _ _ Hb). lia.
Qed.

Lemma fresh_addr_None m : m !! fresh_addr m = None.
Proof.
  destruct (m !! fresh_addr m) as [blk|] eqn:H; [|done].
  apply fresh_addr_above in H. lia.
Qed.

Section machine.
Implicit Types σ : CState.

(** Whether the next allocation fails, and the faults that remain. *)
Definition next_fault (l : list bool) : bool * list bool :=
  match l with [] => (false, []) | f :: l' => (f, l') end.

(** [new] and [new[]]: an exception when memory is exhausted. *)
Definition new_block (k : alloc_kind) (c : content) : CM nat := λ σ,
  let '(f, fs) := next_fault (faults σ) in
  if f then (mkC (mem σ) fs, Err BadAlloc)
  else let b := fresh_addr (mem σ) in (mkC (<[b := mkBlock k c]> (mem σ)) fs, Ok b).

(** [malloc]: a null pointer when memory is exhausted. *)
Definition malloc_block (c : content) : CM pointer := λ σ,
  let '(f, fs) := next_fault (faults σ) in
  if f then (mkC (mem σ) fs, Ok None)
  else let b := fresh_addr (mem σ) in (mkC (<[b := mkBlock KMalloc c]> (mem σ)) fs, Ok (Some b)).

(** [new char[s.size() + 1]] with the bytes of [s] and the final NUL copied in. *)
Definition new_str (s : string) : CM nat := new_block KNewArray (Chars s).
(** [new T[n]]: indeterminate words; [new T[n]{}] takes the words of the zero value. *)
Definition new_words (ws : list val) : CM nat := new_block KNewArray (Words ws).
Definition new_struct (ws : list val) : CM nat := new_block KNew (Words ws).

(** An access to a word of a block. *)
Definition load_word (b off : nat) : CM val := λ σ,
  match mem σ !! b with
  | Some (mkBlock _ (Words ws)) =>
      match ws !! off with Some v => (σ, Ok v) | None => (σ, Ub) end
  | _ => (σ, Ub)
  end.

Definition store_word (b off : nat) (v : val) : CM unit := λ σ,
  match mem σ !! b with
  | Some (mkBlock k (Words ws)) =>
      match ws !! off with
      | Some _ => (mkC (<[b := mkBlock k (Words (<[off := v]> ws))]> (mem σ)) (faults σ), Ok tt)
      | None => (σ, Ub)
      end
  | _ => (σ, Ub)
  end.

(** Reading a pointer or an integer; an indeterminate word is not read. *)
Definition as_ptr (v : val) : CM pointer :=
  match v with VNull => mret None | VPtr b => mret (Some b) | _ => undefined end.
Definition as_int (v : val) : CM Z :=
  match v with VInt z => mret z | _ => undefined end.

Definition load_ptr (b off : nat) : CM pointer := load_word b off ≫= as_ptr.
Definition load_int (b off : nat) : CM Z := load_word b off ≫= as_int.

(** A dereference: the block a pointer denotes. *)
Definition deref_ptr (p : pointer) : CM nat :=
  match p with Some b => mret b | None => undefined end.

(** The text up to the first NUL, what a [const char*] denotes. *)
Fixpoint until_nul (s : string) : string :=
  match s with
  | EmptyString => EmptyString
  | String a s' => if Ascii.eqb a "000" then EmptyString else String a (until_nul s')
  end.

Definition no_nul (s : string) : Prop := mem_char "000" s = false.

(** [std::string(const char* )]. *)
Definition read_cstr (p : pointer) : CM string := λ σ,
  match p with
  | Some b =>
      match mem σ !! b with
      | Some (mkBlock _ (Chars s)) => (σ, Ok (until_nul s))
      | _ => (σ, Ub)
      end
  | None => (σ, Ub)
  end.

(** Release with the given operator; null is ignored. *)
Definition release (k : alloc_kind) (p : pointer) : CM unit := λ σ,
  match p with
  | None => (σ, Ok tt)
  | Some b =>
      match mem σ !! b with
      | Some blk =>
          if decide (blk_kind blk = k) then (mkC (delete b (mem σ)) (faults σ), Ok tt) else (σ, Ub)
      | None => (σ, Ub)
      end
  end.
Definition delete_array : pointer → CM unit := release KNewArray.
Definition delete_struct : pointer → CM unit := release KNew.
Definition c_free : pointer → CM unit := release KMalloc.

(** [for (i = ...; i < n; i++)] with [n] iterations left. *)
Fixpoint repeat_i (f : nat → CM unit) (i n : nat) : CM unit :=
  match n with O => mret tt | S n' => f i ;; repeat_i f (S i) n' end.

(** The same over the elements of a container. *)
Fixpoint for_i {A} (f : nat → A → CM unit) (i : nat) (l : list A) : CM unit :=
  match l with [] => mret tt | x :: l' => f i x ;; for_i f (S i) l' end.

(** The same, appending a result to a vector in every iteration. *)
Fixpoint collect_i {B} (f : nat → CM B) (i n : nat) : CM (list B) :=
  match n with
  | O => mret []
  | S n' => x ← f i; l ← collect_i f (S i) n'; mret (x :: l)
  end.

(** The same, threading the container that is filled. *)
Fixpoint fold_i {B} (f : nat → B → CM B) (i n : nat) (acc : B) : CM B :=
  match n with O => mret acc | S n' => acc' ← f i acc; fold_i f (S i) n' acc' end.

(** [try { m } catch (const std::exception&) { handler }]. *)
Definition try_catch {A} (m : CM A) (handler : exn → CM A) : CM A :=
  r ← catch m;
  match r with inl a => mret a | inr e => handler e end.
End machine.

Lemma for_i_ext {A} (f g : nat → A → CM unit) l i :
  (∀ j x, f j x = g j x) → for_i f i l = for_i g i l.
Proof. intros H. revert i. induction l as [|x l IH]; intros i; simpl; [done|]. by rewrite H, IH. Qed.

(** [static_cast<uint32_t>]. *)
Definition wrap_u32 (z : Z) : Z := z mod 2 ^ 32.

Lemma wrap_u32_small z : 0 ≤ z < 2 ^ 32 → wrap_u32 z = z.
Proof. apply Z.mod_small. Qed.

Lemma until_nul_no_nul s : no_nul s → until_nul s = s.
Proof.
  unfold no_nul. induction s as [|a s IH]; simpl; [done|].
  rewrite orb_false_iff. intros [-> Hs]. by rewrite IH.
Qed.

(** Words before the place that is written stay as they are. *)
Lemma insert_after (pre ws : list val) k v :
  <[(length pre + k)%nat := v]> (pre ++ ws) = pre ++ <[k := v]> ws.
Proof. apply insert_app_r. Qed.

Lemma lookup_after (pre ws : list val) k :
  (pre ++ ws) !! (length pre + k)%nat = ws !! k.
Proof. rewrite lookup_app_r by lia. f_equal. lia. Qed.
