(* ===== verification/CHeapLogic.v ===== *)
(** * A separation logic for the memory of the C interface

    Assertions are predicates on the blocks a function owns.  The logic is
    linear: a block that is owned has to be released or handed on, so that a
    specification without a leftover says that nothing leaks.  It is an
    instance of Iris's [bi], for its proof mode. *)

From S2P Require Import Prelude CppString CHeap.
From iris.proofmode Require Export proofmode.

(** ** Assertions *)

Record hProp := HProp { holds : gmap nat mblock → Prop }.
Add Printing Constructor hProp.

Section assertions.
Implicit Types (P Q R : hProp) (m : gmap nat mblock).

Inductive h_entails_def P Q : Prop :=
  { h_entails_at : ∀ m, holds P m → holds Q m }.
Inductive h_equiv_def P Q : Prop :=
  { h_equiv_at : ∀ m, holds P m ↔ holds Q m }.
#[local] Instance h_equiv : Equiv hProp := h_equiv_def.
#[local] Instance h_equivalence : Equivalence (≡@{hProp}).
Proof.
  split.
  - intros P. by split.
  - intros P Q [H]. split. intros m. by rewrite H.
  - intros P Q R [H1] [H2]. split. intros m. by rewrite H1.
Qed.
Canonical Structure hPropO := discreteO hProp.

Definition h_emp : hProp := HProp (λ m, m = ∅).
Definition h_pure (φ : Prop) : hProp := HProp (λ _, φ).
Definition h_and P Q : hProp := HProp (λ m, holds P m ∧ holds Q m).
Definition h_or P Q : hProp := HProp (λ m, holds P m ∨ holds Q m).
Definition h_impl P Q : hProp := HProp (λ m, holds P m → holds Q m).
Definition h_forall A (Φ : A → hProp) : hProp := HProp (λ m, ∀ a, holds (Φ a) m).
Definition h_exist A (Φ : A → hProp) : hProp := HProp (λ m, ∃ a, holds (Φ a) m).
Definition h_sep P Q : hProp := HProp (λ m,
  ∃ m1 m2, m = m1 ∪ m2 ∧ m1 ##ₘ m2 ∧ holds P m1 ∧ holds Q m2).
Definition h_wand P Q : hProp := HProp (λ m,
  ∀ m', m ##ₘ m' → holds P m' → holds Q (m ∪ m')).
Definition h_persistently P : hProp := h_pure (h_entails_def h_emp P).

Lemma hProp_bi_mixin :
  BiMixin h_entails_def h_emp h_pure h_and h_or h_impl h_forall h_exist h_sep h_wand.
Proof.
  split.
  - split; [by split|]. intros P Q R [H1] [H2]. split. eauto.
  - intros P Q. split.
    + intros [H]. by split; split; intros m ?; apply H.
    + intros [[H1] [H2]]. split. intros m. split; auto.
  - intros n φ ψ H. by split.
  - intros n P P' [HP] Q Q' [HQ]. split. intros m. cbn. by rewrite HP HQ.
  - intros n P P' [HP] Q Q' [HQ]. split. intros m. cbn. by rewrite HP HQ.
  - intros n P P' [HP] Q Q' [HQ]. split. intros m. cbn. by rewrite HP HQ.
  - intros A n Φ Ψ H. split. intros m. cbn. split; intros Hm a; apply (H a), Hm.
  - intros A n Φ Ψ H. split. intros m. cbn. split; intros [a Ha]; exists a; by apply (H a).
  - intros n P P' [HP] Q Q' [HQ]. split. intros m. cbn. by setoid_rewrite HP; setoid_rewrite HQ.
  - intros n P P' [HP] Q Q' [HQ]. split. intros m. cbn. by setoid_rewrite HP; setoid_rewrite HQ.
  - intros φ P Hφ. by split.
  - intros φ P H. split. intros m Hm. by apply (H Hm).
  - intros P Q. split. by intros m [? _].
  - intros P Q. split. by intros m [_ ?].
  - intros P Q R [H1] [H2]. split. intros m ?. split; auto.
  - intros P Q. split. intros m ?. by left.
  - intros P Q. split. intros m ?. by right.
  - intros P Q R [H1] [H2]. split. intros m [?|?]; auto.
  - intros P Q R [H]. split. intros m ? ?. apply H. by split.
  - intros P Q R [H]. split. intros m [? ?]. by apply H.
  - intros A P Ψ H. split. intros m ? a. by apply (H a).
  - intros A Ψ a. split. intros m H. apply H.
  - intros A Ψ a. split. intros m H. by exists a.
  - intros A Φ Q H. split. intros m [a Ha]. by apply (H a).
  - intros P P' Q Q' [H1] [H2]. split. intros m (m1 & m2 & ? & ? & ? & ?).
    exists m1, m2. split_and!; eauto.
  - intros P. split. intros m Hm. exists ∅, m.
    split; [by rewrite (left_id_L ∅ (∪))|]. split; [apply map_disjoint_empty_l|]. by split.
  - intros P. split. intros m (m1 & m2 & -> & _ & -> & Hm). by rewrite (left_id_L ∅ (∪)).
  - intros P Q. split. intros m (m1 & m2 & -> & ? & ? & ?). exists m2, m1.
    split; [by apply map_union_comm|]. done.
  - intros P Q R. split. intros m (m12 & m3 & -> & Hd & (m1 & m2 & -> & ? & ? & ?) & ?).
    apply map_disjoint_union_l in Hd as [? ?].
    exists m1, (m2 ∪ m3). split; [by rewrite (assoc_L (∪))|].
    split; [by apply map_disjoint_union_r|]. split; [done|]. by exists m2, m3.
  - intros P Q R [H]. split. intros m Hm m' Hd Hm'. apply H. exists m, m'. done.
  - intros P Q R [H]. split. intros m (m1 & m2 & -> & Hd & H1 & H2). by apply (H m1).
Qed.

Lemma hProp_persistently_mixin :
  BiPersistentlyMixin h_entails_def h_emp h_and h_exist h_sep h_persistently.
Proof.
  eapply bi_persistently_mixin_discrete, hProp_bi_mixin; [done| |done].
  intros A Φ [H]. destruct (H ∅) as [a Ha]; [done|]. exists a. split. by intros m ->.
Qed.

Lemma hProp_later_mixin :
  BiLaterMixin h_entails_def h_pure h_or h_impl h_forall h_exist h_sep h_persistently (λ P, P).
Proof. eapply bi_later_mixin_id; [done|apply hProp_bi_mixin]. Qed.
End assertions.

Canonical Structure hPropI : bi :=
  {| bi_ofe_mixin := ofe_mixin_of hProp;
     bi_bi_mixin := hProp_bi_mixin;
     bi_bi_persistently_mixin := hProp_persistently_mixin;
     bi_bi_later_mixin := hProp_later_mixin |}.

Bind Scope bi_scope with hProp.

#[global] Instance hProp_pure_forall : BiPureForall hPropI.
Proof. intros A φ. split. intros m H a. apply (H a). Qed.

Lemma entails_at (P Q : hProp) : (P ⊢@{hPropI} Q) → ∀ m, holds P m → holds Q m.
Proof. intros H. by destruct (H : h_entails_def P Q). Qed.
Lemma entails_intro (P Q : hProp) : (∀ m, holds P m → holds Q m) → (P ⊢@{hPropI} Q).
Proof. intros H. by change (h_entails_def P Q). Qed.

(** Ownership of one block. *)
Definition pt (b : nat) (k : alloc_kind) (c : content) : hProp :=
  HProp (λ m, m = {[b := mkBlock k c]}).
#[global] Instance: Params (@pt) 3 := {}.
Notation "b ↦[ k ] c" := (pt b k c) (at level 20, k at level 5, format "b  ↦[ k ]  c") : bi_scope.

(** ** Weakest preconditions *)

Section cwp.
(** Whether no allocation fails. *)
Context (ff : bool).

(** The memory that is left: what [P] owns, and the frame [hf]. *)
Definition leaves (σ : CState) (hf : gmap nat mblock) (P : hProp) : Prop :=
  ∃ h, mem σ = h ∪ hf ∧ h ##ₘ hf ∧ (ff = true → faults σ = []) ∧ holds P h.

Definition cwp {A} (m : CM A) (Φ : A → hProp) (Ψ : exn → hProp) : hProp := HProp (λ h,
  ∀ σ hf, mem σ = h ∪ hf → h ##ₘ hf → (ff = true → faults σ = []) →
  match m σ with
  | (σ', Ok a) => leaves σ' hf (Φ a)
  | (σ', Err e) => leaves σ' hf (Ψ e)
  | (_, Ub) => False
  end).

Section rules.
Context {A : Type}.
Implicit Types (Φ : A → hProp) (Ψ : exn → hProp).

Lemma leaves_mono σ hf (P Q : hProp) : (P ⊢@{hPropI} Q) → leaves σ hf P → leaves σ hf Q.
Proof. intros HPQ (h & ? & ? & ? & ?). exists h. eauto using entails_at. Qed.

Lemma cwp_ret (a : A) Φ Ψ : Φ a ⊢ cwp (mret a) Φ Ψ.
Proof. apply entails_intro. intros h Ha σ hf ???. by exists h. Qed.

Lemma cwp_bind {B} (m : CM B) (f : B → CM A) Φ Ψ :
  cwp m (λ b, cwp (f b) Φ Ψ) Ψ ⊢ cwp (m ≫= f) Φ Ψ.
Proof.
  apply entails_intro. intros h Hm σ hf H1 H2 H3. specialize (Hm σ hf H1 H2 H3).
  rewrite /mbind /M_bind. destruct (m σ) as [σ' [b|e|]]; [|done..].
  destruct Hm as (h' & ? & ? & ? & Hf). by apply Hf.
Qed.

Lemma cwp_wand (m : CM A) Φ Ψ Φ' Ψ' :
  cwp m Φ Ψ -∗ ((∀ a, Φ a -∗ Φ' a) ∧ (∀ e, Ψ e -∗ Ψ' e)) -∗ cwp m Φ' Ψ'.
Proof.
  apply entails_intro. intros h ->. intros h1 Hd Hm. rewrite (left_id_L ∅ (∪)).
  intros h2 Hd2 [HΦ HΨ] σ hf H1 H2 H3.
  apply map_disjoint_union_l in H2 as [H2a H2b].
  specialize (Hm σ (h2 ∪ hf)).
  rewrite (assoc_L (∪)) in Hm. specialize (Hm H1).
  assert (h1 ##ₘ h2 ∪ hf) as H12 by (by apply map_disjoint_union_r).
  specialize (Hm H12 H3).
  destruct (m σ) as [σ' [a|e|]]; [| |done].
  - destruct Hm as (h' & Hm & Hd' & Hf & Ha). apply map_disjoint_union_r in Hd' as [Hd1 Hd3].
    exists (h2 ∪ h'). rewrite (map_union_comm h2 h') //. split_and!; [by rewrite -(assoc_L (∪))| |done|].
    + by apply map_disjoint_union_l.
    + rewrite (map_union_comm h' h2) //. by apply (HΦ a).
  - destruct Hm as (h' & Hm & Hd' & Hf & Ha). apply map_disjoint_union_r in Hd' as [Hd1 Hd3].
    exists (h2 ∪ h'). rewrite (map_union_comm h2 h') //. split_and!; [by rewrite -(assoc_L (∪))| |done|].
    + by apply map_disjoint_union_l.
    + rewrite (map_union_comm h' h2) //. by apply (HΨ e).
Qed.
End rules.

Implicit Types (Ψ : exn → hProp).

Lemma cwp_frame {A} (m : CM A) (Φ : A → hProp) Ψ R :
  R ∗ cwp m Φ Ψ ⊢ cwp m (λ a, R ∗ Φ a) (λ e, R ∗ Ψ e).
Proof.
  iIntros "[HR H]". iApply (cwp_wand with "H"). iSplit; iIntros (x) "H"; iFrame.
Qed.

Lemma cwp_throw {A} (e : exn) (Φ : A → hProp) Ψ : Ψ e ⊢ cwp (fail e) Φ Ψ.
Proof. apply entails_intro. intros h He σ hf ???. by exists h. Qed.

Lemma cwp_catch {A} (m : CM A) (Φ : A + exn → hProp) Ψ :
  cwp m (λ a, Φ (inl a)) (λ e, Φ (inr e)) ⊢ cwp (catch m) Φ Ψ.
Proof.
  apply entails_intro. intros h Hm σ hf H1 H2 H3. specialize (Hm σ hf H1 H2 H3).
  rewrite /catch. by destruct (m σ) as [σ' [a|e|]].
Qed.

Lemma cwp_try {A} (m : CM A) (handler : exn → CM A) Φ Ψ :
  cwp m Φ (λ e, cwp (handler e) Φ Ψ) ⊢ cwp (try_catch m handler) Φ Ψ.
Proof.
  rewrite /try_catch. rewrite -cwp_bind -cwp_catch. iIntros "H".
  iApply (cwp_wand with "H"). iSplit; iIntros (x) "H"; [by iApply cwp_ret|done].
Qed.

(** What an allocation gives: a new block, or an exception when one may fail. *)
Lemma leaves_alloc σ h hf k c fs (Φ : hProp) :
  mem σ = h ∪ hf → h ##ₘ hf → (ff = true → fs = []) →
  (h !! fresh_addr (mem σ) = None → holds Φ (h ∪ {[fresh_addr (mem σ) := mkBlock k c]})) →
  leaves (mkC (<[fresh_addr (mem σ) := mkBlock k c]> (mem σ)) fs) hf Φ.
Proof.
  intros H1 H2 H3 HΦ. pose proof (fresh_addr_None (mem σ)) as Hb. revert HΦ.
  set (b := fresh_addr (mem σ)) in *. clearbody b. intros HΦ.
  exists (h ∪ {[b := mkBlock k c]}). pose proof Hb as Hb'. rewrite H1 in Hb'.
  apply lookup_union_None in Hb' as [Hh Hf]. split_and!; [|  |done|by apply HΦ].
  - cbn. rewrite H1 insert_union_l. f_equal. rewrite insert_union_singleton_l.
    apply map_union_comm. by apply map_disjoint_singleton_l.
  - apply map_disjoint_union_l. split; [done|]. by apply map_disjoint_singleton_l.
Qed.

Lemma holds_alloc (Φ : nat → hProp) h b k c :
  h !! b = None → holds (∀ b, b ↦[k] c -∗ Φ b)%I h → holds (Φ b) (h ∪ {[b := mkBlock k c]}).
Proof. intros Hb H. apply (H b); [by apply map_disjoint_singleton_r|done]. Qed.

Lemma next_fault_ff fs : (ff = true → fs = []) → ff = true → next_fault fs = (false, []).
Proof. intros H1 H2. by rewrite H1. Qed.

Lemma cwp_new k c (Φ : nat → hProp) Ψ :
  (∀ b, b ↦[k] c -∗ Φ b) ∧ (∀ _ : ff = false, Ψ BadAlloc) ⊢ cwp (new_block k c) Φ Ψ.
Proof.
  apply entails_intro. intros h [Hok Hno] σ hf H1 H2 H3. rewrite /new_block.
  destruct (next_fault (faults σ)) as [f fs] eqn:Hf.
  assert (ff = true → f = false ∧ fs = []) as Hff.
  { intros Hff. rewrite (next_fault_ff _ H3 Hff) in Hf. by simplify_eq. }
  destruct f.
  - exists h. cbn. split_and!; [done|done|naive_solver|]. apply Hno.
    destruct ff; [|done]. by destruct Hff.
  - apply (leaves_alloc _ h); [done|done|naive_solver|]. intros Hb.
    by apply (holds_alloc Φ).
Qed.

Lemma cwp_malloc c (Φ : pointer → hProp) Ψ :
  (∀ b, b ↦[KMalloc] c -∗ Φ (Some b)) ∧ (∀ _ : ff = false, Φ None) ⊢ cwp (malloc_block c) Φ Ψ.
Proof.
  apply entails_intro. intros h [Hok Hno] σ hf H1 H2 H3. rewrite /malloc_block.
  destruct (next_fault (faults σ)) as [f fs] eqn:Hf.
  assert (ff = true → f = false ∧ fs = []) as Hff.
  { intros Hff. rewrite (next_fault_ff _ H3 Hff) in Hf. by simplify_eq. }
  destruct f.
  - exists h. cbn. split_and!; [done|done|naive_solver|]. apply Hno.
    destruct ff; [|done]. by destruct Hff.
  - apply (leaves_alloc _ h); [done|done|naive_solver|]. intros Hb.
    by apply (holds_alloc (λ b, Φ (Some b))).
Qed.

(** A block that is owned, within the whole memory. *)
Lemma owned_lookup b k c (R : hProp) m hf M0 :
  M0 = m ∪ hf → holds (b ↦[k] c ∗ R)%I m → m ##ₘ hf →
  M0 !! b = Some (mkBlock k c) ∧
  (∃ mr, holds R mr ∧ m = {[b := mkBlock k c]} ∪ mr ∧ mr !! b = None ∧ hf !! b = None).
Proof.
  intros -> (m1 & mr & -> & Hd & Hm1 & HR) Hf.
  cbn in Hm1. subst m1.
  apply map_disjoint_union_l in Hf as [Hf1 Hf2].
  apply map_disjoint_singleton_l in Hd. apply map_disjoint_singleton_l in Hf1.
  split; [|by exists mr]. do 2 apply lookup_union_Some_l. by simplify_map_eq.
Qed.

Lemma cwp_load_sep b k ws off v (Φ : val → hProp) Ψ :
  ws !! off = Some v →
  b ↦[k] Words ws ∗ (b ↦[k] Words ws -∗ Φ v) ⊢ cwp (load_word b off) Φ Ψ.
Proof.
  intros Hv. apply entails_intro. intros h Hh σ hf H1 H2 H3. rewrite /load_word.
  destruct (owned_lookup _ _ _ _ _ _ _ H1 Hh H2) as [-> _]. rewrite Hv.
  exists h. split_and!; [done..|]. revert h Hh H1 H2. intros h Hh _ _. revert h Hh.
  apply entails_at. iIntros "[H HΦ]". by iApply "HΦ".
Qed.

Lemma cwp_store_sep b k ws off v (Φ : unit → hProp) Ψ :
  (off < length ws)%nat →
  b ↦[k] Words ws ∗ (b ↦[k] Words (<[off := v]> ws) -∗ Φ tt) ⊢ cwp (store_word b off v) Φ Ψ.
Proof.
  intros Hoff. apply entails_intro. intros h Hh σ hf H1 H2 H3. rewrite /store_word.
  destruct (owned_lookup _ _ _ _ _ _ _ H1 Hh H2) as [-> (mr & HR & -> & Hb & Hf)].
  destruct (lookup_lt_is_Some_2 ws off Hoff) as [w ->].
  set (blk := mkBlock k (Words (<[off := v]> ws))).
  assert (mr ##ₘ {[b := blk]}) as Hd by (by apply map_disjoint_singleton_r).
  apply map_disjoint_union_l in H2 as [_ H2].
  exists (mr ∪ {[b := blk]}). split_and!; [| |done|by apply HR].
  - cbn. rewrite H1 -(assoc_L (∪)) -insert_union_singleton_l insert_insert_eq
      insert_union_singleton_l (assoc_L (∪)). f_equal. by apply map_union_comm.
  - apply map_disjoint_union_l. split; [done|]. by apply map_disjoint_singleton_l.
Qed.

Lemma cwp_read_cstr_sep b k s (Φ : string → hProp) Ψ :
  b ↦[k] Chars s ∗ (b ↦[k] Chars s -∗ Φ (until_nul s)) ⊢ cwp (read_cstr (Some b)) Φ Ψ.
Proof.
  apply entails_intro. intros h Hh σ hf H1 H2 H3. rewrite /read_cstr.
  destruct (owned_lookup _ _ _ _ _ _ _ H1 Hh H2) as [-> _].
  exists h. split_and!; [done..|]. revert h Hh H1 H2. intros h Hh _ _. revert h Hh.
  apply entails_at. iIntros "[H HΦ]". by iApply "HΦ".
Qed.

Lemma cwp_release_sep k b c (Φ : unit → hProp) Ψ :
  b ↦[k] c ∗ Φ tt ⊢ cwp (release k (Some b)) Φ Ψ.
Proof.
  apply entails_intro. intros h Hh σ hf H1 H2 H3. rewrite /release.
  destruct (owned_lookup _ _ _ _ _ _ _ H1 Hh H2) as [-> (mr & HR & -> & Hb & Hf)].
  cbn. rewrite decide_True //. apply map_disjoint_union_l in H2 as [_ H2].
  exists mr. split_and!; [|done|done|done]. cbn.
  rewrite H1 -(assoc_L (∪)) -insert_union_singleton_l delete_insert_id //.
  by apply lookup_union_None.
Qed.

Lemma cwp_store b k ws off v (Φ : unit → hProp) Ψ :
  (off < length ws)%nat →
  b ↦[k] Words ws -∗ (b ↦[k] Words (<[off := v]> ws) -∗ Φ tt) -∗ cwp (store_word b off v) Φ Ψ.
Proof. intros. iIntros "H HΦ". iApply cwp_store_sep; [done|]. iFrame. Qed.

(** Accesses to the structure that starts after the words [pre]. *)
Lemma cwp_store_at b k pre ws ws' i v (Φ : unit → hProp) Ψ :
  (i < length ws)%nat → <[i := v]> ws = ws' →
  b ↦[k] Words (pre ++ ws) -∗ (b ↦[k] Words (pre ++ ws') -∗ Φ tt) -∗
  cwp (store_word b (length pre + i) v) Φ Ψ.
Proof.
  intros Hi <-. iIntros "H HΦ". iApply (cwp_store with "H").
  { rewrite length_app. lia. }
  by rewrite insert_after.
Qed.

Lemma cwp_load_ptr b k ws off v p (Φ : pointer → hProp) Ψ :
  ws !! off = Some v → v = vptr p →
  b ↦[k] Words ws -∗ (b ↦[k] Words ws -∗ Φ p) -∗ cwp (load_ptr b off) Φ Ψ.
Proof.
  intros Hv ->. iIntros "H HΦ". rewrite /load_ptr. iApply cwp_bind.
  iApply (cwp_load_sep with "[$H HΦ]"); [done|]. iIntros "H".
  destruct p; iApply cwp_ret; by iApply "HΦ".
Qed.

Lemma cwp_load_ptr_at b k pre ws i v p (Φ : pointer → hProp) Ψ :
  ws !! i = Some v → v = vptr p →
  b ↦[k] Words (pre ++ ws) -∗ (b ↦[k] Words (pre ++ ws) -∗ Φ p) -∗
  cwp (load_ptr b (length pre + i)) Φ Ψ.
Proof. intros Hi Hv. iApply cwp_load_ptr; [|done]. by rewrite lookup_after. Qed.

Lemma cwp_load_int b k ws off z (Φ : Z → hProp) Ψ :
  ws !! off = Some (VInt z) →
  b ↦[k] Words ws -∗ (b ↦[k] Words ws -∗ Φ z) -∗ cwp (load_int b off) Φ Ψ.
Proof.
  intros Hv. iIntros "H HΦ". rewrite /load_int. iApply cwp_bind.
  iApply (cwp_load_sep with "[$H HΦ]"); [done|]. iIntros "H". iApply cwp_ret. by iApply "HΦ".
Qed.

Lemma cwp_load_int_at b k pre ws i z (Φ : Z → hProp) Ψ :
  ws !! i = Some (VInt z) →
  b ↦[k] Words (pre ++ ws) -∗ (b ↦[k] Words (pre ++ ws) -∗ Φ z) -∗
  cwp (load_int b (length pre + i)) Φ Ψ.
Proof. intros Hi. iApply cwp_load_int. by rewrite lookup_after. Qed.

Lemma cwp_read_cstr b k s (Φ : string → hProp) Ψ :
  b ↦[k] Chars s -∗ (b ↦[k] Chars s -∗ Φ (until_nul s)) -∗ cwp (read_cstr (Some b)) Φ Ψ.
Proof. iIntros "H HΦ". iApply cwp_read_cstr_sep. iFrame. Qed.

Lemma cwp_release k b c (Φ : unit → hProp) Ψ :
  b ↦[k] c -∗ Φ tt -∗ cwp (release k (Some b)) Φ Ψ.
Proof. iIntros "H HΦ". iApply cwp_release_sep. iFrame. Qed.

Lemma cwp_release_null k (Φ : unit → hProp) Ψ : Φ tt ⊢ cwp (release k None) Φ Ψ.
Proof. apply cwp_ret. Qed.

Lemma cwp_deref b (Φ : nat → hProp) Ψ : Φ b ⊢ cwp (deref_ptr (Some b)) Φ Ψ.
Proof. apply cwp_ret. Qed.

Lemma cwp_seq {A B} (m : CM B) (f : B → CM A) Φ0 Ψ0 (Φ : A → hProp) Ψ :
  cwp m Φ0 Ψ0 -∗ ((∀ b, Φ0 b -∗ cwp (f b) Φ Ψ) ∧ (∀ e, Ψ0 e -∗ Ψ e)) -∗ cwp (m ≫= f) Φ Ψ.
Proof. iIntros "H HΦ". iApply cwp_bind. iApply (cwp_wand with "H HΦ"). Qed.

Lemma cwp_assoc {A B C} (m : CM B) (f : B → CM C) (g : C → CM A) Φ Ψ :
  cwp ((m ≫= f) ≫= g) Φ Ψ ⊢ cwp (m ≫= λ b, f b ≫= g) Φ Ψ.
Proof.
  apply entails_intro. intros h Hm σ hf H1 H2 H3. specialize (Hm σ hf H1 H2 H3). revert Hm.
  rewrite /mbind /M_bind. by destruct (m σ) as [σ' [b|e|]].
Qed.

(** After a step that throws nothing. *)
Lemma cwp_then {A B} (m : CM B) (f : B → CM A) Φ0 (Φ : A → hProp) Ψ :
  cwp m Φ0 (λ _, False) -∗ (∀ b, Φ0 b -∗ cwp (f b) Φ Ψ) -∗ cwp (m ≫= f) Φ Ψ.
Proof.
  iIntros "H HΦ". iApply (cwp_seq with "H"). iSplit; [iApply "HΦ"|]. iIntros (e) "[]".
Qed.

Lemma cwp_mono {A} (m : CM A) (Φ0 Φ : A → hProp) Ψ0 Ψ :
  (∀ a, Φ0 a ⊢ Φ a) → (∀ e, Ψ0 e ⊢ Ψ e) → cwp m Φ0 Ψ0 ⊢ cwp m Φ Ψ.
Proof.
  intros HΦ HΨ. iIntros "H". iApply (cwp_wand with "H").
  iSplit; iIntros (x) "H"; [by iApply HΦ|by iApply HΨ].
Qed.

(** ** Loops *)

Lemma cwp_for_i {A} (f : nat → A → CM unit) (I : list A → hProp) Ψ l i :
  (∀ done x rest, l = done ++ x :: rest →
     I done ⊢ cwp (f (i + length done)%nat x) (λ _, I (done ++ [x])) Ψ) →
  I [] ⊢ cwp (for_i f i l) (λ _, I l) Ψ.
Proof.
  revert i I. induction l as [|x l IH]; intros i I Hf; cbn; [by iIntros "H"; iApply cwp_ret|].
  rewrite -cwp_bind. rewrite (Hf [] x l) // Nat.add_0_r /=.
  iIntros "H". iApply (cwp_wand with "H"). iSplit; [|iIntros (e) "$"].
  iIntros (_) "H". iRevert "H". iApply (IH (S i) (λ d, I (x :: d))).
  intros d y rest ->. rewrite (Hf (x :: d) y rest) //=. by rewrite Nat.add_succ_r.
Qed.

Lemma cwp_repeat_i (f : nat → CM unit) (I : nat → hProp) Ψ n i :
  (∀ j, (j < n)%nat → I j ⊢ cwp (f (i + j)%nat) (λ _, I (S j)) Ψ) →
  I 0%nat ⊢ cwp (repeat_i f i n) (λ _, I n) Ψ.
Proof.
  revert i I. induction n as [|n IH]; intros i I Hf; cbn; [by iIntros "H"; iApply cwp_ret|].
  rewrite -cwp_bind. rewrite (Hf 0%nat) ?Nat.add_0_r; [|lia].
  iIntros "H". iApply (cwp_wand with "H"). iSplit; [|iIntros (e) "$"].
  iIntros (_) "H". iRevert "H". iApply (IH (S i) (λ j, I (S j))).
  intros j Hj. rewrite (Hf (S j)); [|lia]. by rewrite Nat.add_succ_r.
Qed.

Lemma cwp_collect_i {B} (f : nat → CM B) (P : hProp) Ψ l i :
  (∀ j x, l !! j = Some x → P ⊢ cwp (f (i + j)%nat) (λ y, <affine> ⌜y = x⌝ ∗ P) Ψ) →
  P ⊢ cwp (collect_i f i (length l)) (λ r, <affine> ⌜r = l⌝ ∗ P) Ψ.
Proof.
  revert i. induction l as [|x l IH]; intros i Hf; cbn.
  { rewrite -cwp_ret. iIntros "$". done. }
  rewrite -cwp_bind. rewrite {1}(Hf 0%nat x) ?Nat.add_0_r //.
  iIntros "H". iApply (cwp_wand with "H"). iSplit; [|iIntros (e) "$"].
  iIntros (y) "[-> H]". iApply cwp_bind.
  iApply (cwp_wand with "[H]"); [iApply (IH with "H")|].
  { intros j y Hj. rewrite {1}(Hf (S j) y) //. by rewrite Nat.add_succ_r. }
  iSplit; [|iIntros (e) "$"]. iIntros (r) "[-> H]". iApply cwp_ret. by iFrame.
Qed.

Lemma cwp_fold_i {B} (f : nat → B → CM B) (I : nat → B → hProp) Ψ n i acc :
  (∀ j a, (j < n)%nat → I j a ⊢ cwp (f (i + j)%nat a) (I (S j)) Ψ) →
  I 0%nat acc ⊢ cwp (fold_i f i n acc) (I n) Ψ.
Proof.
  revert i I acc. induction n as [|n IH]; intros i I acc Hf; cbn; [by iIntros "H"; iApply cwp_ret|].
  rewrite -cwp_bind. rewrite (Hf 0%nat) ?Nat.add_0_r; [|lia].
  iIntros "H". iApply (cwp_wand with "H"). iSplit; [|iIntros (e) "$"].
  iIntros (a) "H". iRevert "H". iApply (IH (S i) (λ j, I (S j))).
  intros j b Hj. rewrite (Hf (S j)); [|lia]. by rewrite Nat.add_succ_r.
Qed.

(** A loop that gives up its share of every element. *)
Lemma cwp_repeat_list {V} (f : nat → CM unit) (P : hProp) (owned : V → hProp) l :
  (∀ j v, l !! j = Some v → P -∗ owned v -∗ cwp (f j) (λ _, P) (λ _, False)) →
  P -∗ ([∗ list] v ∈ l, owned v) -∗ cwp (repeat_i f 0 (length l)) (λ _, P) (λ _, False).
Proof.
  intros Hf. iIntros "HP Hl".
  iApply (cwp_mono _ (λ _, P ∗ [∗ list] v ∈ drop (length l) l, owned v)%I _ (λ _, False)%I).
  { intros _. rewrite drop_all. by iIntros "[$ _]". }
  { done. }
  iApply (cwp_repeat_i f (λ j, P ∗ [∗ list] v ∈ drop j l, owned v)%I); [|rewrite drop_0; iFrame].
  intros j Hj. destruct (lookup_lt_is_Some_2 l j Hj) as [v Hv]. rewrite (drop_S _ _ _ Hv) /=.
  iIntros "(HP & Hv & Hl)". iApply (cwp_wand with "[HP Hv]"); [iApply (Hf with "HP Hv"); done|].
  iSplit; [|iIntros (e) "[]"]. iIntros (_) "$". done.
Qed.

(** ** From the logic to runs *)

Lemma cwp_run {A} (m : CM A) (P : hProp) Φ Ψ σ h hf :
  (P ⊢ cwp m Φ Ψ) → holds P h → mem σ = h ∪ hf → h ##ₘ hf → (ff = true → faults σ = []) →
  wp m σ (λ a σ', leaves σ' hf (Φ a)) (λ e σ', leaves σ' hf (Ψ e)).
Proof.
  intros H HP H1 H2 H3. pose proof (entails_at _ _ H h HP σ hf H1 H2 H3) as Hm.
  rewrite /wp. destruct (m σ) as [σ' [a|e|]]; done.
Qed.
End cwp.
