(* ===== verification/FfiBridge.v ===== *)
(** * Column groups across the C interface

    The part of [ffi/bridge.cpp] that copies column groups into structures of
    raw pointers and back, the functions of [ffi/column_groups_c.cpp] that
    create and free these structures, and the builder of
    [ffi/v2_column_groups_builder.cpp].

    A structure is a row of words; the abbreviations are the positions of its
    fields.  A group is given by its value, [None] for a null [shared_ptr].
    What the containers of the C++ side allocate is not part of this memory. *)

From S2P Require Import Prelude CppString Status ColumnGroups CHeap.

(** [LoonColumnGroupFile]. *)
Abbreviation f_path := 0%nat.
Abbreviation f_start := 1%nat.
Abbreviation f_end := 2%nat.
Abbreviation f_keys := 3%nat.
Abbreviation f_values := 4%nat.
Abbreviation f_num := 5%nat.
Definition sizeof_file : nat := 6.
Definition undef_file : list val := [VUndef; VUndef; VUndef; VUndef; VUndef; VUndef].
Definition zero_file : list val := [VNull; VInt 0; VInt 0; VNull; VNull; VInt 0].

(** [LoonColumnGroup]. *)
Abbreviation g_columns := 0%nat.
Abbreviation g_num_columns := 1%nat.
Abbreviation g_format := 2%nat.
Abbreviation g_files := 3%nat.
Abbreviation g_num_files := 4%nat.
Definition sizeof_group : nat := 5.
Definition zero_group : list val := [VNull; VInt 0; VNull; VNull; VInt 0].

(** [LoonColumnGroups]. *)
Abbreviation gs_array := 0%nat.
Abbreviation gs_num := 1%nat.
Definition zero_groups : list val := [VNull; VInt 0].

Definition status_UnknownError : Status := mkStatus UnknownError None.

(** The words of an array of [n] structures. *)
Definition array_of (n : nat) (ws : list val) : list val := concat (replicate n ws).

(** ** Freeing *)

(** Frees the first [n] strings of the array at [b]. *)
Definition free_strings (b : nat) (n : Z) : CM unit :=
  repeat_i (λ i, p ← load_ptr b i; delete_array p) 0 (Z.to_nat n).

(** Frees the string a field points to, if any, and resets the field. *)
Definition free_field (b o : nat) : CM unit :=
  p ← load_ptr b o;
  match p with
  | Some _ => delete_array p ;; store_word b o VNull
  | None => mret tt
  end.

Definition destroy_column_group_file (b o : nat) : CM unit :=
  free_field b (o + f_path) ;;
  keys ← load_ptr b (o + f_keys);
  match keys with
  | Some kb =>
      n ← load_int b (o + f_num);
      values ← load_ptr b (o + f_values);
      repeat_i (λ i,
        k ← load_ptr kb i; delete_array k ;;
        vb ← deref_ptr values; v ← load_ptr vb i; delete_array v) 0 (Z.to_nat n) ;;
      delete_array keys ;;
      delete_array values ;;
      store_word b (o + f_keys) VNull ;;
      store_word b (o + f_values) VNull ;;
      store_word b (o + f_num) (VInt 0)
  | None => mret tt
  end.

Definition destroy_column_group (b o : nat) : CM unit :=
  columns ← load_ptr b (o + g_columns);
  match columns with
  | Some cb =>
      n ← load_int b (o + g_num_columns);
      free_strings cb n ;;
      delete_array columns ;;
      store_word b (o + g_columns) VNull ;;
      store_word b (o + g_num_columns) (VInt 0)
  | None => mret tt
  end ;;
  free_field b (o + g_format) ;;
  files ← load_ptr b (o + g_files);
  match files with
  | Some fb =>
      n ← load_int b (o + g_num_files);
      repeat_i (λ i, destroy_column_group_file fb (i * sizeof_file)) 0 (Z.to_nat n) ;;
      delete_array files ;;
      store_word b (o + g_files) VNull ;;
      store_word b (o + g_num_files) (VInt 0)
  | None => mret tt
  end.

Definition destroy_column_groups_contents (b o : nat) : CM unit :=
  array ← load_ptr b (o + gs_array);
  match array with
  | Some ab =>
      n ← load_int b (o + gs_num);
      repeat_i (λ i, destroy_column_group ab (i * sizeof_group)) 0 (Z.to_nat n) ;;
      delete_array array ;;
      store_word b (o + gs_array) VNull ;;
      store_word b (o + gs_num) (VInt 0)
  | None => mret tt
  end.

Definition loon_column_groups_destroy (cgroups : pointer) : CM unit :=
  match cgroups with
  | None => mret tt
  | Some b => destroy_column_groups_contents b 0 ;; delete_struct cgroups
  end.

(** ** Export *)

(** A string copied into word [i] of the array at [b]. *)
Definition store_str (b i : nat) (s : string) : CM unit :=
  p ← new_str s; store_word b i (VPtr p).

Definition export_column_group_file (cgf : ColumnGroupFile) (b o : nat) : CM unit :=
  path ← new_str (cgf_path cgf);
  store_word b (o + f_path) (VPtr path) ;;
  store_word b (o + f_start) (VInt (start_index cgf)) ;;
  store_word b (o + f_end) (VInt (end_index cgf)) ;;
  let props := map_to_list (cgf_properties cgf) in
  let num_props := length props in
  store_word b (o + f_num) (VInt (wrap_u32 (Z.of_nat num_props))) ;;
  if bool_decide (0 < num_props)%nat then
    keys ← new_words (replicate num_props VUndef);
    store_word b (o + f_keys) (VPtr keys) ;;
    values ← new_words (replicate num_props VUndef);
    store_word b (o + f_values) (VPtr values) ;;
    for_i (λ idx '(k, v), store_str keys idx k ;; store_str values idx v) 0 props
  else
    store_word b (o + f_keys) VNull ;;
    store_word b (o + f_values) VNull.

(** The arrays are published in the structure once they are complete. *)
Definition export_column_group (cg : ColumnGroup) (b o : nat) : CM unit :=
  let num_of_columns := length (columns cg) in
  cols ← new_words (replicate num_of_columns VUndef);
  for_i (store_str cols) 0 (columns cg) ;;
  store_word b (o + g_columns) (VPtr cols) ;;
  store_word b (o + g_num_columns) (VInt (wrap_u32 (Z.of_nat num_of_columns))) ;;
  fmt ← new_str (format cg);
  store_word b (o + g_format) (VPtr fmt) ;;
  let num_of_files := length (files cg) in
  fs ← new_words (array_of num_of_files undef_file);
  for_i (λ i f, export_column_group_file f fs (i * sizeof_file)) 0 (files cg) ;;
  store_word b (o + g_files) (VPtr fs) ;;
  store_word b (o + g_num_files) (VInt (wrap_u32 (Z.of_nat num_of_files))).

Definition column_groups_export_internal (cgs : list (option ColumnGroup)) (b o : nat) :
    CM (Result unit) :=
  store_word b (o + gs_array) VNull ;;
  store_word b (o + gs_num) (VInt 0) ;;
  array ← new_words (array_of (length cgs) zero_group);
  store_word b (o + gs_array) (VPtr array) ;;
  store_word b (o + gs_num) (VInt (wrap_u32 (Z.of_nat (length cgs)))) ;;
  for_i (λ i cg,
    match cg with
    | None => undefined
    | Some g => export_column_group g array (i * sizeof_group)
    end) 0 cgs ;;
  mret (Ok tt).

(** [out] is the word of the caller that receives the structure. *)
Definition column_groups_export (cgs : list (option ColumnGroup)) (out : nat) : CM (Result unit) :=
  try_catch (
    p ← new_struct zero_groups;
    store_word out 0 (VPtr p) ;;
    column_groups_export_internal cgs p 0)
  (λ _,
    p ← load_ptr out 0;
    match p with
    | Some _ => loon_column_groups_destroy p ;; store_word out 0 VNull
    | None => mret tt
    end ;;
    mret (Err status_UnknownError)).

(** ** Import *)

(** The string at word [i] of an array of strings. *)
Definition load_str (array : pointer) (i : nat) : CM string :=
  b ← deref_ptr array; p ← load_ptr b i; read_cstr p.

Definition import_column_group_file (b o : nat) : CM ColumnGroupFile :=
  path ← load_ptr b (o + f_path);
  path ← read_cstr path;
  start ← load_int b (o + f_start);
  end_ ← load_int b (o + f_end);
  n ← load_int b (o + f_num);
  keys ← load_ptr b (o + f_keys);
  values ← load_ptr b (o + f_values);
  props ← fold_i (λ i props,
    k ← load_str keys i; v ← load_str values i; mret (<[k := v]> props)) 0 (Z.to_nat n) ∅;
  mret (mkFile path start end_ props).

Definition import_column_group (b o : nat) : CM ColumnGroup :=
  n ← load_int b (o + g_num_columns);
  cols ← load_ptr b (o + g_columns);
  cs ← collect_i (load_str cols) 0 (Z.to_nat n);
  fmt ← load_ptr b (o + g_format);
  fmt ← read_cstr fmt;
  nf ← load_int b (o + g_num_files);
  fs ← load_ptr b (o + g_files);
  fs ← collect_i (λ i, fb ← deref_ptr fs; import_column_group_file fb (i * sizeof_file))
         0 (Z.to_nat nf);
  mret (mkGroup cs fmt fs).

(** The loop over the groups, shared by the imports of groups and manifests. *)
Definition import_groups (array : pointer) (n : Z) : CM (list ColumnGroup) :=
  collect_i (λ i, ab ← deref_ptr array; import_column_group ab (i * sizeof_group))
    0 (Z.to_nat n).

Definition column_groups_import (b o : nat) : CM (Result (list ColumnGroup)) :=
  n ← load_int b (o + gs_num);
  if n =? 0 then mret (Ok [])
  else
    array ← load_ptr b (o + gs_array);
    match array with
    | None => mret (Err status_Invalid)
    | Some _ => gs ← import_groups array n; mret (Ok gs)
    end.

(** ** [loon_column_groups_create] *)

(** The code of a [LoonFFIResult]; its message is not modelled. *)
Definition FFICode := Z.
Definition LOON_INVALID_ARGS : FFICode := 1.
Definition LOON_MEMORY_ERROR : FFICode := 2.
Definition LOON_LOGICAL_ERROR : FFICode := 4.
Definition LOON_GOT_EXCEPTION : FFICode := 5.
Definition LOON_INVALID_PROPERTIES : FFICode := 7.

(** The arguments are arrays of the caller; [file_lens] and [col_lens] are
    their lengths, [out] the caller's word, none when a null is passed. *)
Definition loon_column_groups_create (cols : pointer) (col_lens : Z) (fmt : pointer)
    (paths start_indices end_indices : pointer) (file_lens : Z) (out : pointer) : CM FFICode :=
  match cols, fmt, paths, start_indices, end_indices, out with
  | Some _, Some _, Some pb, Some sb, Some eb, Some ob =>
      if (col_lens =? 0) || (file_lens =? 0) then mret LOON_INVALID_ARGS
      else try_catch (
        cs ← collect_i (load_str cols) 0 (Z.to_nat col_lens);
        fs ← fold_i (λ i acc,
          match acc with
          | None => mret None
          | Some l =>
              p ← load_ptr pb i;
              match p with
              | None => mret None
              | Some _ =>
                  path ← read_cstr p; s ← load_int sb i; e ← load_int eb i;
                  mret (Some (l ++ [mkFile path s e ∅]))
              end
          end) 0 (Z.to_nat file_lens) (Some []);
        match fs with
        | None => mret LOON_INVALID_ARGS
        | Some fs =>
            f ← read_cstr fmt;
            st ← column_groups_export [Some (mkGroup cs f fs)] ob;
            match st with
            | Ok _ => mret LOON_SUCCESS
            | Err st => mret (FFIErrorCodeFromExtendStatus st LOON_LOGICAL_ERROR)
            | Ub => undefined
            end
        end)
      (λ _, mret LOON_GOT_EXCEPTION)
  | _, _, _, _, _, _ => mret LOON_INVALID_ARGS
  end.

(** ** [BuildLoonColumnGroups] *)

Definition LOON_FORMAT_PARQUET : string := "parquet".

(** The files of a group: file [i] starts where file [i - 1] ends.  A sum that
    leaves [int64_t] is undefined. *)
Definition build_file (fb : nat) (i : nat) (file : string) (rows cumulative : Z) : CM Z :=
  store_str fb (i * sizeof_file + f_path) file ;;
  store_word fb (i * sizeof_file + f_start) (VInt cumulative) ;;
  let stop := cumulative + rows in
  if in_int64 stop then
    store_word fb (i * sizeof_file + f_end) (VInt stop) ;;
    store_word fb (i * sizeof_file + f_keys) VNull ;;
    store_word fb (i * sizeof_file + f_values) VNull ;;
    store_word fb (i * sizeof_file + f_num) (VInt 0) ;;
    mret stop
  else undefined.

Fixpoint build_files (fb i : nat) (l : list (string * Z)) (cumulative : Z) : CM unit :=
  match l with
  | [] => mret tt
  | (file, rows) :: l' =>
      stop ← build_file fb i file rows cumulative; build_files fb (S i) l' stop
  end.

Definition build_group (b o : nat) (cols fls : list string) (rcs : list Z) : CM unit :=
  if bool_decide (cols = []) || bool_decide (fls = []) then fail InvalidArgument
  else if negb (bool_decide (length rcs = length fls)) then fail InvalidArgument
  else
    store_word b (o + g_num_columns) (VInt (wrap_u32 (Z.of_nat (length cols)))) ;;
    cb ← new_words (replicate (length cols) VNull);
    store_word b (o + g_columns) (VPtr cb) ;;
    store_str b (o + g_format) LOON_FORMAT_PARQUET ;;
    store_word b (o + g_num_files) (VInt (wrap_u32 (Z.of_nat (length fls)))) ;;
    fb ← new_words (array_of (length fls) zero_file);
    store_word b (o + g_files) (VPtr fb) ;;
    for_i (store_str cb) 0 cols ;;
    build_files fb 0 (zip fls rcs) 0.

Definition BuildLoonColumnGroups (columns_per_group files_per_group : list (list string))
    (row_counts_per_group : list (list Z)) : CM nat :=
  let num_groups := length columns_per_group in
  if negb (bool_decide (num_groups = length files_per_group)) ||
     negb (bool_decide (num_groups = length row_counts_per_group)) then fail InvalidArgument
  else if bool_decide (num_groups = 0%nat) then fail InvalidArgument
  else
    p ← new_struct zero_groups;
    try_catch (
      store_word p gs_num (VInt (wrap_u32 (Z.of_nat num_groups))) ;;
      array ← new_words (array_of num_groups zero_group);
      store_word p gs_array (VPtr array) ;;
      for_i (λ g '(cols, (fls, rcs)), build_group array (g * sizeof_group) cols fls rcs) 0
        (zip columns_per_group (zip files_per_group row_counts_per_group)) ;;
      mret p)
    (λ e, loon_column_groups_destroy (Some p) ;; fail e).
