(* ===== verification/FfiBridgeRep.v ===== *)
(** * What the structures of column groups own

    [str], [file_rep], [group_rep] say that the words of a structure represent
    a string, a file and a group, and own the blocks they point to;
    [file_owned] and [group_owned] are what the destroy functions need: a
    structure that may be half built.  The specifications of the destroy
    functions have no leftover, so that nothing leaks and nothing is freed
    twice. *)

From S2P Require Import Prelude CppString Status ColumnGroups CHeap CHeapLogic FfiBridge.

Definition str (v : val) (s : string) : hProp :=
  ∃ b, <affine> ⌜v = VPtr b⌝ ∗ b ↦[KNewArray] Chars s.
(** A string that may be missing. *)
Definition str_opt (v : val) : hProp := <affine> ⌜v = VNull⌝ ∨ ∃ s, str v s.

Definition array (v : val) (ws : list val) : hProp :=
  ∃ b, <affine> ⌜v = VPtr b⌝ ∗ b ↦[KNewArray] Words ws.

Definition strs (vs : list val) (l : list string) : hProp := [∗ list] v;s ∈ vs;l, str v s.
Definition str_opts (vs : list val) : hProp := [∗ list] v ∈ vs, str_opt v.
Definition str_array (v : val) (l : list string) : hProp := ∃ vs, array v vs ∗ strs vs l.
(** Either nothing, or an array of [n] strings that may be missing. *)
Definition str_array_opt (v : val) (n : nat) : hProp :=
  <affine> ⌜v = VNull⌝ ∨ ∃ vs, <affine> ⌜length vs = n⌝ ∗ array v vs ∗ str_opts vs.

(** The keys and the values of a map. *)
Definition kv_rep (kv vv : val) (l : list (string * string)) : hProp :=
  match l with
  | [] => <affine> ⌜kv = VNull ∧ vv = VNull⌝
  | _ => str_array kv l.*1 ∗ str_array vv l.*2
  end.
Definition kv_owned (kv vv : val) (n : Z) : hProp :=
  <affine> ⌜kv = VNull⌝ ∨
  ∃ ks vs, <affine> ⌜n = Z.of_nat (length ks) ∧ length vs = length ks⌝ ∗
    array kv ks ∗ str_opts ks ∗ array vv vs ∗ str_opts vs.

Definition file_rep (ws : list val) (f : ColumnGroupFile) : hProp :=
  ∃ pv kv vv, let l := map_to_list (cgf_properties f) in
    <affine> ⌜ws = [pv; VInt (start_index f); VInt (end_index f); kv; vv; VInt (Z.of_nat (length l))]⌝ ∗
    str pv (cgf_path f) ∗ kv_rep kv vv l.
Definition file_owned (ws : list val) : hProp :=
  ∃ pv s e kv vv n, <affine> ⌜ws = [pv; s; e; kv; vv; VInt n]⌝ ∗ str_opt pv ∗ kv_owned kv vv n.

(** An array of structures, each with its share. *)
Definition structs {A} (rep : list val → A → hProp) (v : val) (l : list A) : hProp :=
  ∃ wss, array v (concat wss) ∗ [∗ list] ws;x ∈ wss;l, rep ws x.
Definition structs_opt (owned : list val → hProp) (v : val) (n : Z) : hProp :=
  <affine> ⌜v = VNull⌝ ∨
  ∃ wss, <affine> ⌜n = Z.of_nat (length wss)⌝ ∗ array v (concat wss) ∗ [∗ list] ws ∈ wss, owned ws.

Definition group_rep (ws : list val) (g : ColumnGroup) : hProp :=
  ∃ cv fv lv, <affine> ⌜ws = [cv; VInt (Z.of_nat (length (columns g))); fv; lv;
                              VInt (Z.of_nat (length (files g)))]⌝ ∗
    str_array cv (columns g) ∗ str fv (format g) ∗ structs file_rep lv (files g).
Definition group_owned (ws : list val) : hProp :=
  ∃ cv n fv lv m, <affine> ⌜ws = [cv; VInt n; fv; lv; VInt m]⌝ ∗
    (<affine> ⌜cv = VNull⌝ ∨ ∃ vs, <affine> ⌜n = Z.of_nat (length vs)⌝ ∗ array cv vs ∗ str_opts vs) ∗
    str_opt fv ∗ structs_opt file_owned lv m.

(** The words of a [LoonColumnGroups]. *)
Definition groups_rep (ws : list val) (gs : list ColumnGroup) : hProp :=
  ∃ av, <affine> ⌜ws = [av; VInt (Z.of_nat (length gs))]⌝ ∗ structs group_rep av gs.
Definition groups_owned (ws : list val) : hProp :=
  ∃ av n, <affine> ⌜ws = [av; VInt n]⌝ ∗ structs_opt group_owned av n.

(** ** A complete structure can be freed *)

Lemma str_str_opt v s : str v s ⊢ str_opt v.
Proof. iIntros "H". iRight. by iExists s. Qed.

(** Forgetting the values the parts of an array represent. *)
Lemma parts_forget {V A} (rep : V → A → hProp) (owned : V → hProp) vs l :
  (∀ v x, rep v x ⊢ owned v) →
  ([∗ list] v;x ∈ vs;l, rep v x) ⊢ <affine> ⌜length vs = length l⌝ ∗ [∗ list] v ∈ vs, owned v.
Proof.
  intros H. revert l. induction vs as [|v vs IH]; intros [|x l]; cbn; iIntros "H";
    [done|done|done|].
  iDestruct "H" as "[Hv H]". iDestruct (IH with "H") as "[%Hl $]".
  iSplitR; [iPureIntro; lia|]. by iApply H.
Qed.

Lemma structs_forget {A} (rep : list val → A → hProp) (owned : list val → hProp) v (l : list A) :
  (∀ v x, rep v x ⊢ owned v) → structs rep v l ⊢ structs_opt owned v (Z.of_nat (length l)).
Proof.
  intros H. iIntros "(%wss & Ha & H)". iRight. iExists wss. iFrame "Ha".
  iDestruct (parts_forget _ owned with "H") as "[%Hl $]"; [done|]. by rewrite Hl.
Qed.

Lemma strs_opts vs l : strs vs l ⊢ <affine> ⌜length vs = length l⌝ ∗ str_opts vs.
Proof. apply parts_forget, str_str_opt. Qed.

Lemma kv_rep_owned kv vv l : kv_rep kv vv l ⊢ kv_owned kv vv (Z.of_nat (length l)).
Proof.
  destruct l as [|x l]; cbn [kv_rep].
  { iIntros ([-> _]). by iLeft. }
  iIntros "[(%ks & Hk & Hks) (%vs & Hv & Hvs)]". iRight. iExists ks, vs. iFrame "Hk Hv".
  iDestruct (strs_opts with "Hks") as "[%Hk $]". iDestruct (strs_opts with "Hvs") as "[%Hv $]".
  iPureIntro. rewrite !length_fmap in Hk Hv. rewrite Hk Hv. done.
Qed.

Lemma file_rep_owned ws f : file_rep ws f ⊢ file_owned ws.
Proof.
  iIntros "(%pv & %kv & %vv & -> & Hp & Hkv)".
  iExists pv, (VInt (start_index f)), (VInt (end_index f)), kv, vv, _. iSplitR; [done|].
  rewrite str_str_opt kv_rep_owned. iFrame.
Qed.

Lemma group_rep_owned ws g : group_rep ws g ⊢ group_owned ws.
Proof.
  iIntros "(%cv & %fv & %lv & -> & (%vs & Hc & Hvs) & Hf & Hl)".
  iExists cv, _, fv, lv, _. iSplitR; [done|]. iSplitL "Hc Hvs".
  - iRight. iExists vs. iFrame "Hc". iDestruct (strs_opts with "Hvs") as "[%Hvs $]". by rewrite Hvs.
  - rewrite str_str_opt (structs_forget _ _ _ _ file_rep_owned). iFrame.
Qed.

Lemma zero_group_owned : ⊢ group_owned zero_group.
Proof.
  iExists VNull, 0%Z, VNull, VNull, 0%Z. iSplitR; [done|]. iSplitR; [by iLeft|].
  iSplitR; by iLeft.
Qed.

Lemma zero_file_owned : ⊢ file_owned zero_file.
Proof. iExists VNull, _, _, VNull, VNull, 0%Z. iSplitR; [done|]. iSplitR; by iLeft. Qed.

(** Every structure has the size of its type. *)
Lemma file_rep_size ws f : file_rep ws f ⊢ <affine> ⌜length ws = sizeof_file⌝ ∗ file_rep ws f.
Proof. iIntros "(%pv & %kv & %vv & -> & H)". iSplitR; [done|]. iExists pv, kv, vv. by iFrame. Qed.
Lemma file_owned_size ws : file_owned ws ⊢ <affine> ⌜length ws = sizeof_file⌝ ∗ file_owned ws.
Proof.
  iIntros "(%pv & %s & %e & %kv & %vv & %n & -> & H)". iSplitR; [done|].
  iExists pv, s, e, kv, vv, n. by iFrame.
Qed.
Lemma group_owned_size ws : group_owned ws ⊢ <affine> ⌜length ws = sizeof_group⌝ ∗ group_owned ws.
Proof.
  iIntros "(%cv & %n & %fv & %lv & %m & -> & H)". iSplitR; [done|].
  iExists cv, n, fv, lv, m. by iFrame.
Qed.
Lemma group_rep_size ws g : group_rep ws g ⊢ <affine> ⌜length ws = sizeof_group⌝ ∗ group_rep ws g.
Proof.
  iIntros "(%cv & %fv & %lv & -> & H)". iSplitR; [done|]. iExists cv, fv, lv. by iFrame.
Qed.

(** ** The destroy functions *)

Section destroy.
Context (ff : bool).
Abbreviation cwp := (cwp ff).
Abbreviation nothrow := (λ _ : exn, False%I : hProp).

Lemma delete_opt v (p : pointer) :
  v = vptr p → str_opt v -∗ cwp (delete_array p) (λ _, emp) nothrow.
Proof.
  intros ->. iIntros "[%Hv|(%s & %b & %Hv & H)]"; destruct p; simplify_eq/=.
  - by iApply cwp_release_null.
  - by iApply (cwp_release with "H").
Qed.

(** A string word is a pointer that can be read. *)
Lemma str_opt_ptr v : str_opt v ⊢ ∃ p, <affine> ⌜v = vptr p⌝ ∗ str_opt v.
Proof.
  iIntros "[->|(%s & %b & -> & H)]".
  - iExists None. iSplitR; [done|]. by iLeft.
  - iExists (Some b). iSplitR; [done|]. iRight. iExists s, b. by iFrame.
Qed.

Lemma free_strings_spec b vs :
  b ↦[KNewArray] Words vs -∗ str_opts vs -∗
  cwp (free_strings b (Z.of_nat (length vs))) (λ _, b ↦[KNewArray] Words vs) nothrow.
Proof.
  rewrite /free_strings Nat2Z.id. iApply cwp_repeat_list. intros j v Hv.
  iIntros "Hb Hv". iDestruct (str_opt_ptr with "Hv") as (p) "[%Hp Hv]".
  iApply cwp_bind. iApply (cwp_load_ptr with "Hb"); [done|done|]. iIntros "Hb".
  iApply (cwp_wand with "[Hv]"); [by iApply (delete_opt with "Hv")|].
  iSplit; [|iIntros (e) "[]"]. iIntros (_) "_". done.
Qed.

(** One string of an array is freed. *)
Lemma free_string_spec b vs j v :
  vs !! j = Some v →
  b ↦[KNewArray] Words vs -∗ str_opt v -∗
  cwp (p ← load_ptr b j; delete_array p) (λ _, b ↦[KNewArray] Words vs) nothrow.
Proof.
  intros Hv. iIntros "Hb Hv". iDestruct (str_opt_ptr with "Hv") as (p) "[%Hp Hv]".
  iApply cwp_bind. iApply (cwp_load_ptr with "Hb"); [done|done|]. iIntros "Hb".
  iApply (cwp_wand with "[Hv]"); [by iApply (delete_opt with "Hv")|].
  iSplit; [|iIntros (e) "[]"]. iIntros (_) "_". done.
Qed.

Lemma opts_zip ks vs :
  length vs = length ks →
  str_opts ks -∗ str_opts vs -∗ [∗ list] kv ∈ zip ks vs, str_opt kv.1 ∗ str_opt kv.2.
Proof.
  revert vs. induction ks as [|k ks IH]; intros [|v vs] Hl; simplify_eq/=; iIntros "Hk Hv".
  - by iDestruct "Hk" as "_".
  - iDestruct "Hk" as "[$ Hk]". iDestruct "Hv" as "[$ Hv]". iApply (IH with "Hk Hv"). lia.
Qed.

Lemma free_pairs_spec kb ks vb vs :
  length vs = length ks →
  kb ↦[KNewArray] Words ks ∗ vb ↦[KNewArray] Words vs -∗ str_opts ks -∗ str_opts vs -∗
  cwp (repeat_i (λ i,
        k ← load_ptr kb i; delete_array k ;;
        vb ← deref_ptr (Some vb); v ← load_ptr vb i; delete_array v) 0 (length ks))
    (λ _, kb ↦[KNewArray] Words ks ∗ vb ↦[KNewArray] Words vs) nothrow.
Proof.
  intros Hl. iIntros "H Hks Hvs".
  iDestruct (opts_zip with "Hks Hvs") as "Hl"; [done|].
  assert (length ks = length (zip ks vs)) as -> by (rewrite length_zip; lia). iRevert "H Hl".
  iApply cwp_repeat_list. intros j [k v] [Hk Hv]%lookup_zip_Some. cbn.
  iIntros "[Hkb Hvb] [Hk Hv]".
  iDestruct (str_opt_ptr with "Hk") as (p) "[%Hp Hk]".
  iApply cwp_bind. iApply (cwp_load_ptr with "Hkb"); [done|done|]. iIntros "Hkb".
  iApply (cwp_then with "[Hk]"); [by iApply (delete_opt with "Hk")|]. iIntros (_) "_".
  iApply cwp_bind. iApply cwp_deref.
  iApply (cwp_wand with "[Hv Hvb]"); [by iApply (free_string_spec with "Hvb Hv")|].
  iSplit; [|iIntros (e) "[]"]. iIntros (_) "?". iFrame.
Qed.

(** A field that points to a string is freed and reset. *)
Lemma free_field_spec b pre ws i v ws' :
  ws !! i = Some v → <[i := VNull]> ws = ws' →
  b ↦[KNewArray] Words (pre ++ ws) -∗ str_opt v -∗
  cwp (free_field b (length pre + i)) (λ _, b ↦[KNewArray] Words (pre ++ ws')) nothrow.
Proof.
  rewrite /free_field. intros Hv Hws. iIntros "Hb Hv". iDestruct (str_opt_ptr with "Hv") as (p) "[%Hp Hv]".
  iApply cwp_bind. iApply (cwp_load_ptr_at with "Hb"); [done|done|]. iIntros "Hb".
  destruct p as [pb|]; subst v; cbn [vptr] in *.
  - iApply (cwp_then with "[Hv]"); [by iApply (delete_opt with "Hv")|]. iIntros (_) "_".
    iApply (cwp_store_at with "Hb"); [by eapply lookup_lt_Some|done|]. iIntros "$".
  - iDestruct "Hv" as "[_|(%s & %b' & %Hn & H)]"; [|done]. iApply cwp_ret.
    by rewrite -Hws list_insert_id.
Qed.

Lemma destroy_column_group_file_spec b pre ws post :
  b ↦[KNewArray] Words (pre ++ ws ++ post) -∗ file_owned ws -∗
  cwp (destroy_column_group_file b (length pre))
    (λ _, ∃ ws', <affine> ⌜length ws' = sizeof_file⌝ ∗ b ↦[KNewArray] Words (pre ++ ws' ++ post)) nothrow.
Proof.
  iIntros "Hb (%pv & %s & %e & %kv & %vv & %n & -> & Hp & Hkv)". cbn [app].
  rewrite /destroy_column_group_file.
  iApply (cwp_then with "[Hb Hp]"); [iApply (free_field_spec with "Hb Hp"); done|].
  iIntros (_) "Hb". cbn [insert list_insert].
  iDestruct "Hkv" as "[->|(%ks & %vs & %Hn & (%kb & -> & Hk) & Hks & (%vb & -> & Hv) & Hvs)]"; last destruct Hn as [-> Hl].
  { iApply cwp_bind. iApply (cwp_load_ptr_at with "Hb"); [done|by instantiate (1 := None)|].
    iIntros "Hb". iApply cwp_ret. iExists [_; _; _; _; _; _]. by iFrame. }
  iApply cwp_bind. iApply (cwp_load_ptr_at with "Hb"); [done|by instantiate (1 := Some _)|].
  iIntros "Hb". cbn. iApply cwp_bind. iApply (cwp_load_int_at with "Hb"); [done|]. iIntros "Hb".
  iApply cwp_bind. iApply (cwp_load_ptr_at with "Hb"); [done|by instantiate (1 := Some _)|].
  iIntros "Hb". rewrite Nat2Z.id.
  iApply (cwp_then with "[Hk Hv Hks Hvs]"); [iApply (free_pairs_spec with "[$Hk $Hv] Hks Hvs"); done|].
  iIntros (_) "[Hk Hv]".
  iApply cwp_bind. iApply (cwp_release with "Hk"). iApply cwp_bind. iApply (cwp_release with "Hv").
  iApply cwp_bind. iApply (cwp_store_at with "Hb"); [cbn; lia|done|]. iIntros "Hb".
  iApply cwp_bind. iApply (cwp_store_at with "Hb"); [cbn; lia|done|]. iIntros "Hb".
  iApply (cwp_store_at with "Hb"); [cbn; lia|done|]. iIntros "Hb".
  cbn [insert list_insert]. iExists [_; _; _; _; _; _]. by iFrame.
Qed.

(** An array of structures is destroyed in place, one after the other. *)
Lemma destroy_structs (destroy : nat → nat → CM unit) owned size b wss :
  (∀ pre ws post, b ↦[KNewArray] Words (pre ++ ws ++ post) -∗ owned ws -∗
     cwp (destroy b (length pre))
       (λ _, ∃ ws', <affine> ⌜length ws' = size⌝ ∗ b ↦[KNewArray] Words (pre ++ ws' ++ post)) nothrow) →
  b ↦[KNewArray] Words (concat wss) -∗ ([∗ list] ws ∈ wss, owned ws) -∗
  cwp (repeat_i (λ i, destroy b (i * size)%nat) 0 (length wss))
    (λ _, ∃ ws, b ↦[KNewArray] Words ws) nothrow.
Proof.
  intros Hd. iIntros "Hb Hl".
  pose (I := λ j, (∃ pre, <affine> ⌜length pre = (j * size)%nat⌝ ∗
    b ↦[KNewArray] Words (pre ++ concat (drop j wss)) ∗ [∗ list] ws ∈ drop j wss, owned ws)%I : hProp).
  iApply (cwp_mono _ _ (λ _, I (length wss)) _ nothrow).
  { intros _. rewrite /I drop_all. iIntros "(%pre & _ & Hb & _)". by iExists _. }
  { done. }
  iApply (cwp_repeat_i ff _ I); [|rewrite /I drop_0; iExists []; by iFrame].
  intros j Hj. destruct (lookup_lt_is_Some_2 wss j Hj) as [ws Hws].
  rewrite /I (drop_S _ _ _ Hws) /=. iIntros "(%pre & <- & Hb & Hw & Hl)".
  iApply (cwp_wand with "[Hb Hw]"); [iApply (Hd with "Hb Hw")|].
  iSplit; [|iIntros (e) "[]"]. iIntros (_) "(%ws' & %Hsz & Hb)".
  iExists (pre ++ ws'). rewrite -(assoc_L app). iFrame. iPureIntro. rewrite length_app. lia.
Qed.

(** Freeing a field that points to an array of structures. *)
Lemma free_structs_spec destroy owned size kd b pre ws i v n :
  (∀ b pre ws post, b ↦[KNewArray] Words (pre ++ ws ++ post) -∗ owned ws -∗
     cwp (destroy b (length pre))
       (λ _, ∃ ws', <affine> ⌜length ws' = size⌝ ∗ b ↦[KNewArray] Words (pre ++ ws' ++ post)) nothrow) →
  ws !! i = Some v → ws !! S i = Some (VInt n) →
  b ↦[kd] Words (pre ++ ws) -∗ structs_opt owned v n -∗
  cwp (arr ← load_ptr b (length pre + i);
       match arr with
       | Some fb =>
           n ← load_int b (length pre + S i);
           repeat_i (λ i, destroy fb (i * size)%nat) 0 (Z.to_nat n) ;;
           delete_array arr ;;
           store_word b (length pre + i) VNull ;;
           store_word b (length pre + S i) (VInt 0)
       | None => mret tt
       end)
    (λ _, ∃ n', b ↦[kd] Words (pre ++ <[S i := VInt n']> (<[i := VNull]> ws))) nothrow.
Proof.
  intros Hd Hv Hn. iIntros "Hb [->|(%wss & -> & (%fb & -> & Hfb) & H)]"; iApply cwp_bind.
  - iApply (cwp_load_ptr_at with "Hb"); [done|by instantiate (1 := None)|]. iIntros "Hb".
    iApply cwp_ret. iExists n. by rewrite !list_insert_id.
  - iApply (cwp_load_ptr_at with "Hb"); [done|by instantiate (1 := Some _)|]. iIntros "Hb". cbn.
    iApply cwp_bind. iApply (cwp_load_int_at with "Hb"); [done|]. iIntros "Hb". rewrite Nat2Z.id.
    iApply (cwp_then with "[Hfb H]"); [iApply (destroy_structs with "Hfb H"); apply Hd|].
    iIntros (_) "(%ws1 & Hfb)".
    iApply cwp_bind. iApply (cwp_release with "Hfb").
    iApply cwp_bind. iApply (cwp_store_at with "Hb"); [by eapply lookup_lt_Some|done|]. iIntros "Hb".
    iApply (cwp_store_at with "Hb"); [rewrite length_insert; by eapply lookup_lt_Some|done|].
    iIntros "Hb". by iExists _.
Qed.

Lemma destroy_column_group_spec b pre ws post :
  b ↦[KNewArray] Words (pre ++ ws ++ post) -∗ group_owned ws -∗
  cwp (destroy_column_group b (length pre))
    (λ _, ∃ ws', <affine> ⌜length ws' = sizeof_group⌝ ∗ b ↦[KNewArray] Words (pre ++ ws' ++ post)) nothrow.
Proof.
  iIntros "Hb (%cv & %n & %fv & %lv & %m & -> & Hc & Hf & Hl)". cbn [app].
  rewrite /destroy_column_group. iApply cwp_assoc.
  iApply (cwp_then _ _ _ (λ _, ∃ n', b ↦[KNewArray]
    Words (pre ++ VNull :: VInt n' :: fv :: lv :: VInt m :: post))%I with "[Hb Hc]").
  { iDestruct "Hc" as "[->|(%vs & -> & (%cb & -> & Hcb) & Hvs)]"; iApply cwp_bind.
    - iApply (cwp_load_ptr_at with "Hb"); [done|by instantiate (1 := None)|]. iIntros "Hb".
      iApply cwp_ret. by iExists n.
    - iApply (cwp_load_ptr_at with "Hb"); [done|by instantiate (1 := Some _)|]. iIntros "Hb". cbn.
      iApply cwp_bind. iApply (cwp_load_int_at with "Hb"); [done|]. iIntros "Hb".
      iApply (cwp_then with "[Hcb Hvs]"); [iApply (free_strings_spec with "Hcb Hvs")|].
      iIntros (_) "Hcb". iApply cwp_bind. iApply (cwp_release with "Hcb").
      iApply cwp_bind. iApply (cwp_store_at with "Hb"); [cbn; lia|done|]. iIntros "Hb".
      iApply (cwp_store_at with "Hb"); [cbn; lia|done|]. iIntros "Hb". by iExists _. }
  iIntros (_) "(%n' & Hb)".
  iApply (cwp_then with "[Hb Hf]"); [iApply (free_field_spec with "Hb Hf"); done|].
  iIntros (_) "Hb". cbn [insert list_insert].
  iApply (cwp_wand with "[Hb Hl]").
  { iApply (free_structs_spec with "Hb Hl"); [|done|done]. intros. apply destroy_column_group_file_spec. }
  iSplit; [|iIntros (e) "[]"]. iIntros (_) "(%m' & Hb)". cbn [insert list_insert].
  iExists [_; _; _; _; _]. by iFrame.
Qed.

(** [post] is what follows the structure in its block. *)
Lemma destroy_column_groups_contents_spec k b pre ws post :
  b ↦[k] Words (pre ++ ws ++ post) -∗ groups_owned ws -∗
  cwp (destroy_column_groups_contents b (length pre))
    (λ _, ∃ ws', <affine> ⌜length ws' = 2%nat⌝ ∗ b ↦[k] Words (pre ++ ws' ++ post)) nothrow.
Proof.
  iIntros "Hb (%av & %n & -> & Hl)". cbn [app].
  iApply (cwp_wand with "[Hb Hl]").
  { iApply (free_structs_spec with "Hb Hl"); [|done|done]. intros. apply destroy_column_group_spec. }
  iSplit; [|iIntros (e) "[]"]. iIntros (_) "(%m' & Hb)". cbn [insert list_insert].
  iExists [_; _]. by iFrame.
Qed.

Lemma loon_column_groups_destroy_spec b ws :
  b ↦[KNew] Words ws -∗ groups_owned ws -∗
  cwp (loon_column_groups_destroy (Some b)) (λ _, emp) nothrow.
Proof.
  iIntros "Hb Hg". rewrite /loon_column_groups_destroy.
  rewrite -{1}(app_nil_r ws). iApply (cwp_then with "[Hb Hg]").
  { iApply (destroy_column_groups_contents_spec _ _ [] with "Hb Hg"). }
  iIntros (_) "(%ws' & _ & Hb)". iApply (cwp_release with "Hb"). done.
Qed.
End destroy.
