(* ===== verification/FfiBridgeCorrect.v ===== *)
(** * Column groups cross the C interface unchanged

    The specifications of the export and import functions: what an export
    builds represents the groups, an import of it gives them back, and an
    exception in the middle of an export leaves structures that can be freed.
    The theorems about whole runs follow at the end. *)

From S2P Require Import Prelude CppString Status ColumnGroups CHeap CHeapLogic FfiBridge FfiBridgeRep.

(** The counters of the structures are [uint32_t]. *)
Definition fits_u32 (n : nat) : Prop := (Z.of_nat n < 2 ^ 32)%Z.
Definition file_fits (f : ColumnGroupFile) : Prop := fits_u32 (length (map_to_list (cgf_properties f))).
Definition group_fits (g : ColumnGroup) : Prop :=
  fits_u32 (length (columns g)) ∧ fits_u32 (length (files g)) ∧ Forall file_fits (files g).
Definition groups_fit (gs : list ColumnGroup) : Prop :=
  fits_u32 (length gs) ∧ Forall group_fits gs.

Lemma wrap_fits n : fits_u32 n → wrap_u32 (Z.of_nat n) = Z.of_nat n.
Proof. intros. apply wrap_u32_small. unfold fits_u32 in *. lia. Qed.

(** After an exception what is still owned is lost. *)
Ltac leak_rest Hff := iExists Hff; iStopProof; apply bi.True_intro.
Ltac leak_exn := let Hff := fresh "Hff" in iIntros (?) "[%Hff ?]"; leak_rest Hff.
Ltac leak_new := let Hff := fresh "Hff" in iIntros (Hff); leak_rest Hff.

Section export.
Context (ff : bool).
Abbreviation cwp := (cwp ff).
Abbreviation nothrow := (λ _ : exn, False%I : hProp).

(** What holds after an exception: only when an allocation may fail. *)
Definition thrown (R : hProp) : hProp := ∃ _ : ff = false, R.

Lemma thrown_mono R R' : (R ⊢ R') → thrown R ⊢ thrown R'.
Proof. intros H. iIntros "[%Hff H]". iExists Hff. by iApply H. Qed.

(** An allocation in front of the rest of a function. *)
Lemma cwp_new_then {A} k c (f : nat → CM A) (Φ : A → hProp) Ψ :
  (∀ b, b ↦[k] c -∗ cwp (f b) Φ Ψ) ∧ (∀ _ : ff = false, Ψ BadAlloc) ⊢ cwp (new_block k c ≫= f) Φ Ψ.
Proof. rewrite -cwp_bind -cwp_new. done. Qed.

Lemma store_str_spec b kd ws i s :
  (i < length ws)%nat →
  b ↦[kd] Words ws -∗
  cwp (store_str b i s) (λ _, ∃ v, b ↦[kd] Words (<[i := v]> ws) ∗ str v s)
    (λ _, thrown (b ↦[kd] Words ws)).
Proof.
  intros Hi. iIntros "Hb". rewrite /store_str /new_str. iApply cwp_new_then. iSplit.
  - iIntros (p) "Hp". iApply (cwp_store with "Hb"); [done|]. iIntros "Hb".
    iExists (VPtr p). by iFrame.
  - iIntros (Hff). by iExists Hff.
Qed.

(** The array of strings after some of them were stored. *)
Definition filled (b : nat) (w : val) (n : nat) (l : list string) : hProp :=
  ∃ vs, b ↦[KNewArray] Words (vs ++ replicate (n - length l) w) ∗ strs vs l.

Lemma store_str_next b w n l s :
  (length l < n)%nat →
  filled b w n l -∗
  cwp (store_str b (length l) s) (λ _, filled b w n (l ++ [s])) (λ _, thrown (filled b w n l)).
Proof.
  intros Hn. iIntros "(%vs & Hb & Hvs)". iDestruct (big_sepL2_length with "Hvs") as %Hl.
  iApply (cwp_wand with "[Hb]").
  { iApply (store_str_spec with "Hb"). rewrite length_app length_replicate. lia. }
  iSplit.
  - iIntros (_) "(%v & Hb & Hv)". iExists (vs ++ [v]). rewrite /strs big_sepL2_snoc. iFrame.
    rewrite length_app /=. destruct (n - length l)%nat as [|m] eqn:Hm; [lia|].
    rewrite -Hl insert_app_r_alt // Nat.sub_diag /= -(assoc_L app) /=.
    by replace (n - (length vs + 1))%nat with m by lia.
  - iIntros (e) "[%Hff Hb]". iExists Hff, vs. iFrame.
Qed.

Lemma filled_all b w l : filled b w (length l) l ⊢ ∃ vs, b ↦[KNewArray] Words vs ∗ strs vs l.
Proof. iIntros "(%vs & Hb & H)". rewrite Nat.sub_diag app_nil_r. iExists vs. iFrame. Qed.
Lemma filled_none b w n : b ↦[KNewArray] Words (replicate n w) ⊢ filled b w n [].
Proof. iIntros "H". iExists []. rewrite Nat.sub_0_r /strs /=. by iFrame. Qed.

Lemma fill_spec b w l :
  filled b w (length l) [] -∗
  cwp (for_i (store_str b) 0 l) (λ _, filled b w (length l) l)
    (λ _, thrown (∃ d, <affine> ⌜length d ≤ length l⌝%nat ∗ filled b w (length l) d)).
Proof.
  iApply (cwp_for_i _ _ (filled b w (length l))).
  intros d s rest Hl. iIntros "H".
  assert (length d < length l)%nat as Hd by (rewrite Hl length_app /=; lia).
  iApply (cwp_wand with "[H]"); [by iApply (store_str_next with "H")|].
  iSplit; [by iIntros (_) "$"|]. iIntros (e) "[%Hff H]". iExists Hff, d. iFrame. iPureIntro. lia.
Qed.

(** Keys and values are stored side by side. *)
Definition kv_filled (kb vb : nat) (w : val) (n : nat) (l : list (string * string)) : hProp :=
  filled kb w n l.*1 ∗ filled vb w n l.*2.

Lemma fill_pairs_spec kb vb w l :
  kv_filled kb vb w (length l) [] -∗
  cwp (for_i (λ idx '(k, v), store_str kb idx k ;; store_str vb idx v) 0 l)
    (λ _, kv_filled kb vb w (length l) l) (λ _, thrown True).
Proof.
  iApply (cwp_for_i _ _ (kv_filled kb vb w (length l))).
  intros d [k v] rest Hl. iIntros "[Hk Hv]". cbn [Nat.add].
  assert (length d < length l)%nat as Hd by (rewrite Hl length_app /=; lia).
  rewrite /kv_filled !fmap_app /=.
  iApply (cwp_seq with "[Hk]").
  { rewrite -(length_fmap fst d). iApply (store_str_next with "Hk"). by rewrite length_fmap. }
  iSplit; [|leak_exn].
  iIntros (_) "Hk". iApply (cwp_wand with "[Hv]").
  { rewrite -(length_fmap snd d). iApply (store_str_next with "Hv"). by rewrite length_fmap. }
  iSplit; [|leak_exn]. iIntros (_) "Hv". iFrame.
Qed.

Lemma kv_filled_rep kb vb w l :
  l ≠ [] → kv_filled kb vb w (length l) l ⊢ kv_rep (VPtr kb) (VPtr vb) l.
Proof.
  intros Hl. pose proof (filled_all kb w l.*1) as Hk. pose proof (filled_all vb w l.*2) as Hv.
  rewrite !length_fmap in Hk Hv. rewrite /kv_filled Hk Hv.
  iIntros "[(%ks & Hk & Hks) (%vs & Hv & Hvs)]". destruct l; [done|].
  iSplitL "Hk Hks"; iExists _; by iFrame.
Qed.

Lemma export_column_group_file_spec f b pre post :
  file_fits f →
  b ↦[KNewArray] Words (pre ++ undef_file ++ post) -∗
  cwp (export_column_group_file f b (length pre))
    (λ _, ∃ ws, b ↦[KNewArray] Words (pre ++ ws ++ post) ∗ file_rep ws f)
    (λ _, thrown True).
Proof.
  intros Hfit. iIntros "Hb". cbn [app undef_file]. rewrite /export_column_group_file.
  rewrite wrap_fits //. set (l := map_to_list (cgf_properties f)) in *.
  iApply cwp_new_then. iSplit; [|leak_new]. iIntros (p) "Hp".
  do 4 (iApply cwp_bind; iApply (cwp_store_at with "Hb"); [cbn; lia|done|]; iIntros "Hb").
  cbn [insert list_insert].
  destruct (decide (l = [])) as [Hl|Hl].
  - rewrite bool_decide_eq_false_2; [|rewrite Hl /=; lia].
    iApply cwp_bind. iApply (cwp_store_at with "Hb"); [cbn; lia|done|]. iIntros "Hb".
    iApply (cwp_store_at with "Hb"); [cbn; lia|done|]. iIntros "Hb". cbn [insert list_insert].
    iExists [_; _; _; _; _; _]. iFrame "Hb". iExists (VPtr p), VNull, VNull. rewrite -/l Hl.
    iSplitR; [done|]. iSplitL; [|done]. by iFrame.
  - rewrite bool_decide_eq_true_2; [|destruct l; cbn; [done|lia]].
    iApply cwp_new_then. iSplit; [|leak_new]. iIntros (kb) "Hk".
    iApply cwp_bind. iApply (cwp_store_at with "Hb"); [cbn; lia|done|]. iIntros "Hb".
    iApply cwp_new_then. iSplit; [|leak_new]. iIntros (vb) "Hv".
    iApply cwp_bind. iApply (cwp_store_at with "Hb"); [cbn; lia|done|]. iIntros "Hb".
    cbn [insert list_insert].
    iApply (cwp_wand with "[Hk Hv]").
    { iApply fill_pairs_spec. rewrite /kv_filled -!filled_none. iFrame. }
    iSplit; [|leak_exn]. iIntros (_) "Hkv".
    iExists [_; _; _; _; _; _]. iFrame "Hb". iExists (VPtr p), (VPtr kb), (VPtr vb). rewrite -/l.
    iSplitR; [done|]. iSplitL "Hp"; [by iFrame|]. by iApply kv_filled_rep.
Qed.

(** ** Arrays of structures filled from the front *)

Section fill_structs.
Context {A : Type} (b : nat) (rep : list val → A → hProp) (size : nat) (empty : list val).
(** What an exception leaves when the words before and after the slot are these. *)
Context (broken : exn → list val → list val → hProp).
Context (rep_size : ∀ ws x, rep ws x ⊢ <affine> ⌜length ws = size⌝ ∗ rep ws x).

Definition slots (n : nat) (l : list A) : hProp :=
  ∃ wss, b ↦[KNewArray] Words (concat wss ++ array_of (n - length l) empty) ∗
    [∗ list] ws;x ∈ wss;l, rep ws x.

Lemma reps_size wss l :
  ([∗ list] ws;x ∈ wss;l, rep ws x) ⊢
    <affine> ⌜length (concat wss) = (length l * size)%nat⌝ ∗ [∗ list] ws;x ∈ wss;l, rep ws x.
Proof.
  revert l. induction wss as [|ws wss IH]; intros [|x l]; cbn; iIntros "H"; [done|done|done|].
  iDestruct "H" as "[Hx H]". rewrite {1}rep_size. iDestruct "Hx" as "[%Hx $]".
  iDestruct (IH with "H") as "[%Hl $]". iPureIntro. rewrite length_app. lia.
Qed.

Lemma fill_structs_spec (f : A → nat → nat → CM unit) (fits : A → Prop) l :
  (∀ x pre post, fits x →
     b ↦[KNewArray] Words (pre ++ empty ++ post) -∗
     cwp (f x b (length pre)) (λ _, ∃ ws, b ↦[KNewArray] Words (pre ++ ws ++ post) ∗ rep ws x)
       (λ e, broken e pre post)) →
  Forall fits l →
  b ↦[KNewArray] Words (array_of (length l) empty) -∗
  cwp (for_i (λ i x, f x b (i * size)%nat) 0 l) (λ _, slots (length l) l)
    (λ e, ∃ wss d m, <affine> ⌜(length d + S m)%nat = length l⌝ ∗
       broken e (concat wss) (array_of m empty) ∗ [∗ list] ws;x ∈ wss;d, rep ws x).
Proof.
  intros Hf Hfits. iIntros "H".
  iAssert (slots (length l) []) with "[H]" as "H".
  { iExists []. rewrite Nat.sub_0_r /=. by iFrame. }
  iRevert "H". iApply (cwp_for_i _ _ (slots (length l))).
  intros d x rest Hl. iIntros "(%wss & Hb & Hl)". iDestruct (reps_size with "Hl") as "[%Hsz Hl]".
  assert (fits x) as Hx. { rewrite Hl in Hfits. by apply Forall_app in Hfits as [_ [? _]%Forall_cons]. }
  assert (length l - length d = S (length rest))%nat as -> by (rewrite Hl length_app /=; lia).
  rewrite /array_of /= -Hsz. iApply (cwp_wand with "[Hb]"); [by iApply (Hf with "Hb")|]. iSplit.
  - iIntros (_) "(%ws & Hb & Hw)". iExists (wss ++ [ws]). rewrite big_sepL2_snoc. iFrame.
    rewrite concat_app /= app_nil_r -(assoc_L app) length_app /=.
    by replace (length l - (length d + 1))%nat with (length rest) by (rewrite Hl length_app /=; lia).
  - iIntros (e) "H". iExists wss, d, (length rest). iFrame. iPureIntro.
    rewrite Hl length_app /=. lia.
Qed.

Lemma slots_all l : slots (length l) l ⊢ structs rep (VPtr b) l.
Proof.
  iIntros "(%wss & Hb & H)". rewrite Nat.sub_diag app_nil_r. iExists wss. iFrame. by iFrame.
Qed.
End fill_structs.

(** ** The export of groups *)

Lemma export_files_spec b fs :
  Forall file_fits fs →
  b ↦[KNewArray] Words (array_of (length fs) undef_file) -∗
  cwp (for_i (λ i f, export_column_group_file f b (i * sizeof_file)) 0 fs)
    (λ _, structs file_rep (VPtr b) fs) (λ _, thrown True).
Proof.
  intros Hf. iIntros "H". iApply (cwp_wand with "[H]").
  { iApply (fill_structs_spec b file_rep sizeof_file undef_file (λ _ _ _, thrown True) file_rep_size
              export_column_group_file file_fits with "H"); [|done].
    intros. by apply export_column_group_file_spec. }
  iSplit; [iIntros (_) "H"; by iApply slots_all|].
  iIntros (e) "(%wss & %d & %m & _ & [%Hff HT] & H)". leak_rest Hff.
Qed.

(** The slot of a group that could not be finished; the rest is lost. *)
Definition broken_group (b : nat) (pre post : list val) : hProp :=
  ∃ ws, b ↦[KNewArray] Words (pre ++ ws ++ post) ∗ group_owned ws ∗ True.

Lemma broken_slot b pre ws post (R : hProp) :
  b ↦[KNewArray] Words (pre ++ ws ++ post) -∗ group_owned ws -∗ R -∗ broken_group b pre post.
Proof. iIntros "Hb Hw HR". iExists ws. iFrame. Qed.

(** What a group owns before its files are in place. *)
Lemma partial_owned cb n fv vs l :
  n = Z.of_nat (length l) →
  cb ↦[KNewArray] Words vs -∗ strs vs l -∗ str_opt fv -∗
  group_owned [VPtr cb; VInt n; fv; VNull; VInt 0].
Proof.
  intros ->. iIntros "Hb H Hf". iDestruct (strs_opts with "H") as "[%Hl H]".
  iExists (VPtr cb), _, fv, VNull, 0%Z. iSplitR; [done|]. iFrame "Hf". iSplitL; [|by iLeft].
  iRight. iExists vs. rewrite -Hl. iFrame. done.
Qed.

Lemma export_column_group_spec g b pre post :
  group_fits g →
  b ↦[KNewArray] Words (pre ++ zero_group ++ post) -∗
  cwp (export_column_group g b (length pre))
    (λ _, ∃ ws, b ↦[KNewArray] Words (pre ++ ws ++ post) ∗ group_rep ws g)
    (λ _, thrown (broken_group b pre post)).
Proof.
  intros (Hc & Hfs & Hff). iIntros "Hb". rewrite /export_column_group !wrap_fits //.
  iApply cwp_new_then. iSplit.
  2:{ iIntros (Hf). iExists Hf. by iApply (broken_slot with "Hb [] []"); [iApply zero_group_owned|iEmpIntro]. }
  iIntros (cb) "Hcb". rewrite filled_none.
  iApply (cwp_seq with "[Hcb]"); [by iApply (fill_spec with "Hcb")|]. iSplit.
  2:{ iIntros (e) "[%Hf H]". iExists Hf. iApply (broken_slot with "Hb [] H"). iApply zero_group_owned. }
  iIntros (_) "Hcols". rewrite filled_all. iDestruct "Hcols" as (vs) "[Hcb Hvs]".
  do 2 (iApply cwp_bind; iApply (cwp_store_at with "Hb"); [cbn; lia|done|]; iIntros "Hb").
  iApply cwp_new_then. iSplit.
  2:{ iIntros (Hf). iExists Hf.
      iApply (broken_slot _ _ [_; _; _; _; _] with "Hb [Hcb Hvs]"); [|iEmpIntro].
      iApply (partial_owned with "Hcb Hvs"); [done|]. by iLeft. }
  iIntros (fb) "Hfb". iApply cwp_bind. iApply (cwp_store_at with "Hb"); [cbn; lia|done|]. iIntros "Hb".
  iApply cwp_new_then. iSplit.
  2:{ iIntros (Hf). iExists Hf.
      iApply (broken_slot _ _ [_; _; _; _; _] with "Hb [Hcb Hvs Hfb]"); [|iEmpIntro].
      iApply (partial_owned with "Hcb Hvs"); [done|]. iApply str_str_opt. by iFrame. }
  iIntros (lb) "Hlb". iApply (cwp_seq with "[Hlb]"); [by iApply (export_files_spec with "Hlb")|]. iSplit.
  2:{ iIntros (e) "[%Hf H]". iExists Hf.
      iApply (broken_slot _ _ [_; _; _; _; _] with "Hb [Hcb Hvs Hfb] H").
      iApply (partial_owned with "Hcb Hvs"); [done|]. iApply str_str_opt. by iFrame. }
  iIntros (_) "Hl". iApply cwp_bind. iApply (cwp_store_at with "Hb"); [cbn; lia|done|]. iIntros "Hb".
  iApply (cwp_store_at with "Hb"); [cbn; lia|done|]. iIntros "Hb".
  iExists [_; _; _; _; _]. iFrame "Hb". iExists (VPtr cb), (VPtr fb), (VPtr lb).
  iSplitR; [done|]. iFrame "Hl". iSplitL "Hcb Hvs"; [iExists vs; by iFrame|by iFrame].
Qed.

(** A group behind its [shared_ptr]. *)
Definition shared_rep (ws : list val) (cg : option ColumnGroup) : hProp :=
  match cg with Some g => group_rep ws g | None => False end.

Lemma shared_rep_size ws cg : shared_rep ws cg ⊢ <affine> ⌜length ws = sizeof_group⌝ ∗ shared_rep ws cg.
Proof. destruct cg; [apply group_rep_size|]. iIntros "[]". Qed.
Lemma shared_rep_owned ws cg : shared_rep ws cg ⊢ group_owned ws.
Proof. destruct cg; [apply group_rep_owned|]. iIntros "[]". Qed.

Lemma structs_shared v gs : structs shared_rep v (Some <$> gs) ⊢ structs group_rep v gs.
Proof. iIntros "(%wss & Ha & H)". iExists wss. rewrite big_sepL2_fmap_r. iFrame. Qed.

Lemma zeros_owned m : ⊢ [∗ list] ws ∈ replicate m zero_group, group_owned ws.
Proof.
  induction m as [|m IH]; cbn; [done|]. iSplitL; [iApply zero_group_owned|iApply IH].
Qed.

(** An array some of whose groups are finished, one is broken, and the others zero. *)
Lemma broken_array b wss d m n :
  (length d + S m)%nat = n →
  broken_group b (concat wss) (array_of m zero_group) -∗ ([∗ list] ws;x ∈ wss;d, shared_rep ws x) -∗
  structs_opt group_owned (VPtr b) (Z.of_nat n) ∗ True.
Proof.
  iIntros (<-) "(%ws & Hb & Hw & HT) H". iSplitR "HT"; [|done].
  iDestruct (parts_forget _ group_owned with "H") as "[%Hl H]"; [apply shared_rep_owned|].
  iRight. iExists (wss ++ ws :: replicate m zero_group).
  rewrite concat_app /= length_app /= length_replicate Hl. iSplitR; [done|].
  iSplitL "Hb"; [by iFrame|]. iFrame. iApply zeros_owned.
Qed.

Definition export_one (cg : option ColumnGroup) (b o : nat) : CM unit :=
  match cg with None => undefined | Some g => export_column_group g b o end.

Lemma column_groups_export_internal_spec gs b kd pre w1 w2 post :
  groups_fit gs →
  b ↦[kd] Words (pre ++ [w1; w2] ++ post) -∗
  cwp (column_groups_export_internal (Some <$> gs) b (length pre))
    (λ r, <affine> ⌜r = Ok tt⌝ ∗ ∃ ws, b ↦[kd] Words (pre ++ ws ++ post) ∗ groups_rep ws gs)
    (λ _, thrown (∃ ws, b ↦[kd] Words (pre ++ ws ++ post) ∗ groups_owned ws ∗ True)).
Proof.
  intros [Hn Hf]. iIntros "Hb". cbn [app]. rewrite /column_groups_export_internal length_fmap wrap_fits //.
  do 2 (iApply cwp_bind; iApply (cwp_store_at with "Hb"); [cbn; lia|done|]; iIntros "Hb").
  iApply cwp_new_then. iSplit.
  2:{ iIntros (Hff). iExists Hff, [_; _]. iFrame. iSplitL; [|done].
      iExists VNull, 0%Z. iSplitR; [done|]. by iLeft. }
  iIntros (ab) "Ha".
  do 2 (iApply cwp_bind; iApply (cwp_store_at with "Hb"); [cbn; lia|done|]; iIntros "Hb").
  cbn [insert list_insert]. iApply (cwp_seq with "[Ha]").
  { rewrite -(length_fmap Some gs).
    iApply (fill_structs_spec ab shared_rep sizeof_group zero_group (λ _ pre post, thrown (broken_group ab pre post)) shared_rep_size
              export_one (λ cg, from_option group_fits False cg) with "Ha").
    - intros [g|] pre' post' Hg; [|done]. by apply export_column_group_spec.
    - rewrite Forall_fmap. by eapply Forall_impl. }
  iSplit.
  - iIntros (_) "Ha". iApply cwp_ret. iSplitR; [done|]. rewrite slots_all structs_shared.
    iExists [_; _]. iFrame "Hb". by iFrame.
  - iIntros (e) "(%wss & %d & %m & %Hd & [%Hff Hbr] & H)". rewrite length_fmap in Hd.
    iDestruct (broken_array with "Hbr H") as "[Hs HT]"; [done|].
    iExists Hff, [_; _]. iFrame "Hb HT". by iFrame.
Qed.

Lemma column_groups_export_spec gs kd out v rest :
  groups_fit gs → (ff = false → v = VNull) →
  out ↦[kd] Words (v :: rest) -∗
  cwp (column_groups_export (Some <$> gs) out)
    (λ r, (<affine> ⌜r = Ok tt⌝ ∗ ∃ p ws, out ↦[kd] Words (VPtr p :: rest) ∗ p ↦[KNew] Words ws ∗ groups_rep ws gs) ∨
          (<affine> ⌜r = Err status_UnknownError⌝ ∗ thrown (out ↦[kd] Words (VNull :: rest) ∗ True)))
    nothrow.
Proof.
  intros Hfit Hv. iIntros "Ho". rewrite /column_groups_export. iApply cwp_try.
  iApply cwp_new_then. iSplit.
  2:{ iIntros (Hff). rewrite (Hv Hff).
      iApply cwp_bind. iApply (cwp_load_ptr with "Ho"); [done|by instantiate (1 := None)|]. iIntros "Ho".
      iApply cwp_bind. do 2 iApply cwp_ret. iRight. iSplitR; [done|]. iExists Hff. by iFrame. }
  iIntros (p) "Hp". iApply cwp_bind. iApply (cwp_store with "Ho"); [cbn; lia|]. iIntros "Ho". cbn.
  iApply (cwp_wand with "[Hp]").
  { iApply (column_groups_export_internal_spec gs p KNew [] VNull (VInt 0) [] Hfit with "Hp"). }
  iSplit.
  - iIntros (r) "(-> & %ws & Hp & Hg)". iLeft. iSplitR; [done|]. iExists p, ws. rewrite app_nil_r /=. iFrame.
  - iIntros (e) "[%Hff (%ws & Hp & Hg & HT)]". cbn. rewrite app_nil_r.
    iApply cwp_bind. iApply (cwp_load_ptr with "Ho"); [done|by instantiate (1 := Some _)|]. iIntros "Ho".
    iApply cwp_bind. iApply (cwp_then with "[Hp Hg]"); [iApply (loon_column_groups_destroy_spec with "Hp Hg")|].
    iIntros (_) "_". iApply (cwp_store with "Ho"); [cbn; lia|]. iIntros "Ho".
    iApply cwp_ret. iRight. iSplitR; [done|]. iExists Hff. by iFrame.
Qed.
End export.

(** ** Imports read what an export wrote *)

Definition file_clean (f : ColumnGroupFile) : Prop :=
  no_nul (cgf_path f) ∧ map_Forall (λ k v, no_nul k ∧ no_nul v) (cgf_properties f).
Definition group_clean (g : ColumnGroup) : Prop :=
  Forall no_nul (columns g) ∧ no_nul (format g) ∧ Forall file_clean (files g).

Section import.
Context (ff : bool).
Abbreviation cwp := (cwp ff).
Abbreviation nothrow := (λ _ : exn, False%I : hProp).

(** An array of strings at [b]. *)
Definition strs_at (b : nat) (l : list string) : hProp := ∃ vs, b ↦[KNewArray] Words vs ∗ strs vs l.

Lemma str_array_at v l : str_array v l ⊢ ∃ b, <affine> ⌜v = VPtr b⌝ ∗ strs_at b l.
Proof. iIntros "(%vs & (%b & -> & Hb) & H)". iExists b. iSplitR; [done|]. iExists vs. iFrame. Qed.
Lemma strs_at_array b l : strs_at b l ⊢ str_array (VPtr b) l.
Proof. iIntros "(%vs & Hb & H)". iExists vs. by iFrame. Qed.

Lemma read_str_spec v s p :
  no_nul s → v = vptr p →
  str v s -∗ cwp (read_cstr p) (λ r, <affine> ⌜r = s⌝ ∗ str v s) nothrow.
Proof.
  intros Hs ->. iIntros "(%b & %Hb & H)". destruct p; simplify_eq/=.
  iApply (cwp_read_cstr with "H"). iIntros "H". rewrite until_nul_no_nul //. by iFrame.
Qed.

Lemma str_ptr v s : str v s ⊢ ∃ b, <affine> ⌜v = VPtr b⌝ ∗ str v s.
Proof. iIntros "(%b & -> & H)". iExists b. by iFrame. Qed.

Lemma load_str_spec b l j s :
  l !! j = Some s → no_nul s →
  strs_at b l -∗ cwp (load_str (Some b) j) (λ r, <affine> ⌜r = s⌝ ∗ strs_at b l) nothrow.
Proof.
  intros Hj Hs. iIntros "(%vs & Hb & H)". iDestruct (big_sepL2_length with "H") as %Hl.
  destruct (lookup_lt_is_Some_2 vs j) as [v Hv]; [rewrite Hl; by eapply lookup_lt_Some|].
  iDestruct (big_sepL2_lookup_acc with "H") as "[Hs H]"; [done|done|].
  iDestruct (str_ptr with "Hs") as (sb) "[%Hsb Hs]".
  iApply cwp_bind. iApply cwp_deref. iApply cwp_bind.
  iApply (cwp_load_ptr with "Hb"); [done|by instantiate (1 := Some sb)|]. iIntros "Hb".
  iApply (cwp_wand with "[Hs]"); [by iApply (read_str_spec with "Hs")|].
  iSplit; [|iIntros (e) "[]"]. iIntros (r) "[-> Hs]". iSplitR; [done|].
  iExists vs. iFrame. by iApply "H".
Qed.

Lemma load_strs_spec b l :
  Forall no_nul l →
  strs_at b l -∗
  cwp (collect_i (load_str (Some b)) 0 (length l)) (λ r, <affine> ⌜r = l⌝ ∗ strs_at b l) nothrow.
Proof.
  intros Hl. iApply cwp_collect_i. intros j s Hj. iApply load_str_spec; [done|].
  by eapply Forall_lookup_1.
Qed.

(** The pairs read so far. *)
Lemma load_pairs_spec kb vb l :
  Forall (λ kv, no_nul kv.1 ∧ no_nul kv.2) l →
  strs_at kb l.*1 ∗ strs_at vb l.*2 -∗
  cwp (fold_i (λ i props,
      k ← load_str (Some kb) i; v ← load_str (Some vb) i; mret (<[k := v]> props)) 0 (length l) ∅)
    (λ m, <affine> ⌜m = list_to_map (M := gmap string string) (reverse l)⌝ ∗ strs_at kb l.*1 ∗ strs_at vb l.*2)
    nothrow.
Proof.
  intros Hl. pose (I := λ j (m : gmap string string),
    (<affine> ⌜m = list_to_map (reverse (take j l))⌝ ∗ strs_at kb l.*1 ∗ strs_at vb l.*2)%I : hProp).
  iIntros "H". iApply (cwp_mono _ _ (I (length l)) _ nothrow).
  { intros m. rewrite /I take_ge //. } { done. }
  iApply (cwp_fold_i ff _ I); [|rewrite /I take_0; by iFrame].
  intros j m Hj. destruct (lookup_lt_is_Some_2 l j Hj) as [[k v] Hkv].
  destruct (proj1 (Forall_lookup _ _) Hl _ _ Hkv) as [Hk Hv]. cbn in Hk, Hv.
  rewrite /I. iIntros "(-> & Hks & Hvs)".
  iApply (cwp_then with "[Hks]").
  { iApply (load_str_spec with "Hks"); [|exact Hk]. by rewrite list_lookup_fmap Hkv. }
  iIntros (k') "[-> Hks]". iApply (cwp_then with "[Hvs]").
  { iApply (load_str_spec with "Hvs"); [|exact Hv]. by rewrite list_lookup_fmap Hkv. }
  iIntros (v') "[-> Hvs]". iApply cwp_ret. iFrame. iPureIntro.
  by rewrite (take_S_r _ _ _ Hkv) reverse_app /=.
Qed.

Lemma map_from_pairs (m : gmap string string) : list_to_map (reverse (map_to_list m)) = m.
Proof.
  rewrite -{2}(list_to_map_to_list m). apply list_to_map_proper; [|by rewrite reverse_Permutation].
  rewrite reverse_Permutation. apply NoDup_fst_map_to_list.
Qed.

Lemma kv_ptrs kv vv l :
  kv_rep kv vv l ⊢ ∃ kp vp, <affine> ⌜kv = vptr kp ∧ vv = vptr vp⌝ ∗ kv_rep (vptr kp) (vptr vp) l.
Proof.
  destruct l as [|x l]; cbn [kv_rep].
  - iIntros ([-> ->]). by iExists None, None.
  - iIntros "[(%ks & (%kb & -> & Hk) & Hks) (%vs & (%vb & -> & Hv) & Hvs)]". iExists (Some kb), (Some vb).
    iSplitR; [done|]. iSplitL "Hk Hks"; iExists _; by iFrame.
Qed.

Lemma load_kv_spec kp vp l :
  Forall (λ kv, no_nul kv.1 ∧ no_nul kv.2) l →
  kv_rep (vptr kp) (vptr vp) l -∗
  cwp (fold_i (λ i props,
      k ← load_str kp i; v ← load_str vp i; mret (<[k := v]> props)) 0 (length l) ∅)
    (λ m, <affine> ⌜m = list_to_map (M := gmap string string) (reverse l)⌝ ∗ kv_rep (vptr kp) (vptr vp) l)
    nothrow.
Proof.
  intros Hl. destruct l as [|x l]; cbn [kv_rep].
  - iIntros (Hp). iApply cwp_ret. done.
  - iIntros "[Hks Hvs]". iDestruct (str_array_at with "Hks") as (kb) "[%Hk Hks]".
    iDestruct (str_array_at with "Hvs") as (vb) "[%Hv Hvs]". destruct kp, vp; simplify_eq/=. iApply (cwp_wand with "[Hks Hvs]").
    { iApply (load_pairs_spec _ _ (x :: l) with "[Hks Hvs]"); [done|]. by iSplitL "Hks". }
    iSplit; [|iIntros (e) "[]"]. iIntros (m) "(-> & Hks & Hvs)". iSplitR; [done|].
    iSplitL "Hks"; by iApply strs_at_array.
Qed.

Lemma import_column_group_file_spec f b pre ws post :
  file_clean f →
  b ↦[KNewArray] Words (pre ++ ws ++ post) -∗ file_rep ws f -∗
  cwp (import_column_group_file b (length pre))
    (λ r, <affine> ⌜r = f⌝ ∗ b ↦[KNewArray] Words (pre ++ ws ++ post) ∗ file_rep ws f) nothrow.
Proof.
  intros [Hpath Hprops]. iIntros "Hb (%pv & %kv & %vv & -> & Hp & Hkv)". cbn [app].
  iDestruct (str_ptr with "Hp") as (pb) "[-> Hp]". rewrite /import_column_group_file.
  iApply cwp_bind. iApply (cwp_load_ptr_at with "Hb"); [done|by instantiate (1 := Some pb)|]. iIntros "Hb".
  iApply (cwp_then with "[Hp]"); [by iApply (read_str_spec with "Hp")|]. iIntros (path) "[-> Hp]".
  do 3 (iApply cwp_bind; iApply (cwp_load_int_at with "Hb"); [done|]; iIntros "Hb").
  iDestruct (kv_ptrs with "Hkv") as (kp vp) "[%Hkv Hkv]". destruct Hkv as [-> ->].
  do 2 (iApply cwp_bind; iApply (cwp_load_ptr_at with "Hb"); [done|done|]; iIntros "Hb").
  rewrite Nat2Z.id. iApply (cwp_then with "[Hkv]").
  { iApply (load_kv_spec with "Hkv"). apply Forall_forall.
    intros [k v] Hkv%list_elem_of_In%list_elem_of_In%elem_of_map_to_list. apply (Hprops k v Hkv). }
  iIntros (m) "[-> Hkv]". iApply cwp_ret. iSplitR; [by rewrite map_from_pairs; destruct f|].
  iFrame "Hb". iExists _, _, _. by iFrame.
Qed.

(** Reading an array of structures. *)
Lemma collect_structs {A} (rep : list val → A → hProp) size (clean : A → Prop)
    (f : nat → nat → CM A) b wss l :
  (∀ ws x, rep ws x ⊢ <affine> ⌜length ws = size⌝ ∗ rep ws x) →
  (∀ x pre ws post, clean x →
     b ↦[KNewArray] Words (pre ++ ws ++ post) -∗ rep ws x -∗
     cwp (f b (length pre))
       (λ r, <affine> ⌜r = x⌝ ∗ b ↦[KNewArray] Words (pre ++ ws ++ post) ∗ rep ws x) nothrow) →
  Forall clean l →
  b ↦[KNewArray] Words (concat wss) ∗ ([∗ list] ws;x ∈ wss;l, rep ws x) -∗
  cwp (collect_i (λ i, fb ← deref_ptr (Some b); f fb (i * size)%nat) 0 (length l))
    (λ r, <affine> ⌜r = l⌝ ∗ b ↦[KNewArray] Words (concat wss) ∗ [∗ list] ws;x ∈ wss;l, rep ws x) nothrow.
Proof.
  intros Hsize Hf Hclean. iApply cwp_collect_i. intros j x Hj. iIntros "[Hb H]".
  iDestruct (big_sepL2_length with "H") as %Hl.
  destruct (lookup_lt_is_Some_2 wss j) as [ws Hws]; [rewrite Hl; by eapply lookup_lt_Some|].
  apply list_elem_of_split_length in Hj as (l1 & l2 & -> & ->).
  apply list_elem_of_split_length in Hws as (w1 & w2 & -> & Hw).
  apply Forall_app in Hclean as [_ [Hx _]%Forall_cons].
  iDestruct (big_sepL2_app_inv with "H") as "[H1 [Hx H2]]"; [by left|].
  iDestruct (reps_size rep size Hsize with "H1") as "[%Hsz H1]".
  rewrite concat_app concat_cons. iApply cwp_bind. iApply cwp_deref. cbn [Nat.add]. rewrite -Hsz.
  iApply (cwp_wand with "[Hb Hx]"); [by iApply (Hf with "Hb Hx")|].
  iSplit; [|iIntros (e) "[]"]. iIntros (r) "(-> & Hb & Hx)". iSplitR; [done|]. iFrame "Hb".
  iApply (big_sepL2_app with "H1"). iFrame.
Qed.

Lemma import_column_group_spec g b pre ws post :
  group_clean g →
  b ↦[KNewArray] Words (pre ++ ws ++ post) -∗ group_rep ws g -∗
  cwp (import_column_group b (length pre))
    (λ r, <affine> ⌜r = g⌝ ∗ b ↦[KNewArray] Words (pre ++ ws ++ post) ∗ group_rep ws g) nothrow.
Proof.
  intros (Hcols & Hfmt & Hfiles). iIntros "Hb (%cv & %fv & %lv & -> & Hc & Hf & (%wss & (%lb & -> & Hl) & Hfs))".
  cbn [app]. iDestruct (str_array_at with "Hc") as (cb) "[-> Hc]".
  iDestruct (str_ptr with "Hf") as (fb) "[-> Hf]". rewrite /import_column_group.
  iApply cwp_bind. iApply (cwp_load_int_at with "Hb"); [done|]. iIntros "Hb".
  iApply cwp_bind. iApply (cwp_load_ptr_at with "Hb"); [done|by instantiate (1 := Some cb)|]. iIntros "Hb".
  rewrite !Nat2Z.id. iApply (cwp_then with "[Hc]"); [by iApply (load_strs_spec with "Hc")|].
  iIntros (cs) "[-> Hc]".
  iApply cwp_bind. iApply (cwp_load_ptr_at with "Hb"); [done|by instantiate (1 := Some fb)|]. iIntros "Hb".
  iApply (cwp_then with "[Hf]"); [by iApply (read_str_spec with "Hf")|]. iIntros (fmt) "[-> Hf]".
  iApply cwp_bind. iApply (cwp_load_int_at with "Hb"); [done|]. iIntros "Hb".
  iApply cwp_bind. iApply (cwp_load_ptr_at with "Hb"); [done|by instantiate (1 := Some lb)|]. iIntros "Hb".
  rewrite Nat2Z.id. iApply (cwp_then with "[Hl Hfs]").
  { iApply (collect_structs file_rep sizeof_file file_clean import_column_group_file lb wss (files g)
              file_rep_size with "[$Hl $Hfs]"); [|done].
    intros. by apply import_column_group_file_spec. }
  iIntros (fs) "(-> & Hl & Hfs)". iApply cwp_ret. iSplitR; [by destruct g|]. iFrame "Hb".
  iExists (VPtr cb), (VPtr fb), (VPtr lb). iSplitR; [done|]. iFrame "Hf".
  iSplitL "Hc"; [by iApply strs_at_array|]. iExists wss. by iFrame.
Qed.

(** The counters are nonzero exactly when there is a group. *)
Lemma column_groups_import_spec gs k b ws post :
  Forall group_clean gs →
  b ↦[k] Words (ws ++ post) -∗ groups_rep ws gs -∗
  cwp (column_groups_import b 0)
    (λ r, <affine> ⌜r = Ok gs⌝ ∗ b ↦[k] Words (ws ++ post) ∗ groups_rep ws gs) nothrow.
Proof.
  intros Hc. iIntros "Hb (%av & -> & (%wss & (%ab & -> & Ha) & H))". cbn [app].
  rewrite /column_groups_import.
  iApply cwp_bind. iApply (cwp_load_int with "Hb"); [done|]. iIntros "Hb".
  destruct (Z.eqb_spec (Z.of_nat (length gs)) 0) as [Hz|Hz].
  - iApply cwp_ret. destruct gs; [|done]. iSplitR; [done|]. iFrame "Hb". iExists (VPtr ab). 
    iSplitR; [done|]. iExists wss. by iFrame.
  - iApply cwp_bind. iApply (cwp_load_ptr with "Hb"); [done|by instantiate (1 := Some ab)|]. iIntros "Hb".
    cbn. rewrite /import_groups Nat2Z.id. iApply (cwp_then with "[Ha H]").
    { iApply (collect_structs group_rep sizeof_group group_clean import_column_group ab wss gs
                group_rep_size with "[$Ha $H]"); [|done].
      intros. by apply import_column_group_spec. }
    iIntros (r) "(-> & Ha & H)". iApply cwp_ret. iSplitR; [done|]. iFrame "Hb". iExists (VPtr ab).
    iSplitR; [done|]. iExists wss. by iFrame.
Qed.
End import.
