(* ===== verification/FfiBuilder.v ===== *)
(** * The builder of column groups either finishes or leaves nothing

    [BuildLoonColumnGroups] initialises every array before it publishes it, so
    that whatever exception is thrown, by an allocation or by the checks of
    the arguments, the cleanup releases all of it. *)

From S2P Require Import Prelude CppString Status ColumnGroups CHeap CHeapLogic FfiBridge FfiBridgeRep FfiBridgeCorrect.

(** The arguments of one group: its columns, its files and their row counts. *)
Definition group_input : Type := list string * (list string * list Z).

(** File [i] covers the rows after those of the files before it. *)
Fixpoint built_files (l : list (string * Z)) (cumulative : Z) : list ColumnGroupFile :=
  match l with
  | [] => []
  | (file, rows) :: l' => mkFile file cumulative (cumulative + rows)%Z ∅ :: built_files l' (cumulative + rows)%Z
  end.
Definition built_group (x : group_input) : ColumnGroup :=
  mkGroup x.1 LOON_FORMAT_PARQUET (built_files (zip x.2.1 x.2.2) 0).

(** The sums of the row counts stay in [int64_t]. *)
Fixpoint sums_fit (l : list (string * Z)) (cumulative : Z) : Prop :=
  match l with
  | [] => True
  | (_, rows) :: l' => in_int64 (cumulative + rows)%Z = true ∧ sums_fit l' (cumulative + rows)%Z
  end.

Definition input_fits (x : group_input) : Prop :=
  fits_u32 (length x.1) ∧ fits_u32 (length x.2.1) ∧ sums_fit (zip x.2.1 x.2.2) 0.
(** What the code checks. *)
Definition input_valid (x : group_input) : bool :=
  negb (bool_decide (x.1 = [])) && negb (bool_decide (x.2.1 = [])) &&
  bool_decide (length x.2.2 = length x.2.1).

Lemma length_built_files l c : length (built_files l c) = length l.
Proof. revert c. induction l as [|[f n] l IH]; intros c; cbn; [done|]. by rewrite IH. Qed.

Section builder.
Context (ff : bool).
Abbreviation cwp := (cwp ff).
Abbreviation nothrow := (λ _ : exn, False%I : hProp).
Abbreviation thrown := (thrown ff).

Lemma nulls_opts m : ⊢ str_opts (replicate m VNull).
Proof.
  rewrite /str_opts. induction m as [|m IH]; cbn; [done|]. iSplitR; [by iLeft|iApply IH].
Qed.

Lemma filled_owned b n d :
  (length d ≤ n)%nat →
  filled b VNull n d ⊢ ∃ vs, <affine> ⌜length vs = n⌝ ∗ b ↦[KNewArray] Words vs ∗ str_opts vs.
Proof.
  intros Hd. iIntros "(%vs & Hb & H)". iDestruct (strs_opts with "H") as "[%Hl H]".
  iExists (vs ++ replicate (n - length d) VNull). iFrame "Hb". iSplitR.
  { iPureIntro. rewrite length_app length_replicate. lia. }
  rewrite /str_opts big_sepL_app. iFrame "H". iApply nulls_opts.
Qed.

Lemma zero_files_owned m : ⊢ [∗ list] ws ∈ replicate m zero_file, file_owned ws.
Proof. induction m as [|m IH]; cbn; [done|]. iSplitL; [iApply zero_file_owned|iApply IH]. Qed.

Lemma zero_files b m :
  b ↦[KNewArray] Words (array_of m zero_file) ⊢ structs_opt file_owned (VPtr b) (Z.of_nat m).
Proof.
  iIntros "Hb". iRight. iExists (replicate m zero_file). rewrite length_replicate.
  iSplitR; [done|]. iSplitL; [by iFrame|]. iApply zero_files_owned.
Qed.

Lemma build_file_spec fb i pre post file rows c :
  length pre = (i * sizeof_file)%nat → in_int64 (c + rows)%Z = true →
  fb ↦[KNewArray] Words (pre ++ zero_file ++ post) -∗
  cwp (build_file fb i file rows c)
    (λ r, <affine> ⌜r = (c + rows)%Z⌝ ∗ ∃ ws, fb ↦[KNewArray] Words (pre ++ ws ++ post) ∗
       file_rep ws (mkFile file c (c + rows)%Z ∅))
    (λ _, thrown (fb ↦[KNewArray] Words (pre ++ zero_file ++ post))).
Proof.
  intros Hpre Hin. iIntros "Hb". rewrite /build_file -Hpre. iApply (cwp_seq with "[Hb]").
  { iApply (store_str_spec with "Hb"). rewrite !length_app /=. lia. }
  iSplit; [|by iIntros (e) "$"]. iIntros (_) "(%v & Hb & Hv)". rewrite insert_after Hin. cbn [app zero_file insert list_insert].
  iApply cwp_bind. iApply (cwp_store_at with "Hb"); [cbn; lia|done|]. iIntros "Hb".
  do 4 (iApply cwp_bind; iApply (cwp_store_at with "Hb"); [cbn; lia|done|]; iIntros "Hb").
  iApply cwp_ret. iSplitR; [done|]. iExists [_; _; _; _; _; _]. iFrame "Hb".
  iExists v, VNull, VNull. cbn. rewrite map_to_list_empty. by iFrame.
Qed.

Lemma build_files_spec fb l : ∀ i pre c,
  length pre = (i * sizeof_file)%nat → sums_fit l c →
  fb ↦[KNewArray] Words (pre ++ array_of (length l) zero_file) -∗
  cwp (build_files fb i l c)
    (λ _, ∃ wss, fb ↦[KNewArray] Words (pre ++ concat wss) ∗ [∗ list] ws;f ∈ wss;built_files l c, file_rep ws f)
    (λ _, thrown (∃ wss, <affine> ⌜length wss = length l⌝ ∗ fb ↦[KNewArray] Words (pre ++ concat wss) ∗
       [∗ list] ws ∈ wss, file_owned ws)).
Proof.
  induction l as [|[file rows] l IH]; intros i pre c Hpre Hs; cbn [build_files built_files length].
  { iIntros "Hb". iApply cwp_ret. iExists []. by iFrame. }
  destruct Hs as [Hin Hs]. rewrite /array_of /=. iIntros "Hb". iApply (cwp_seq with "[Hb]").
  { iApply (build_file_spec with "Hb"); done. }
  iSplit.
  - iIntros (stop) "(-> & %ws & Hb & Hf)". iDestruct (file_rep_size with "Hf") as "[%Hw Hf]".
    rewrite (assoc_L app). iApply (cwp_wand with "[Hb]").
    { iApply (IH (S i) (pre ++ ws) with "Hb"); [|done]. rewrite length_app. lia. }
    iSplit.
    + iIntros (_) "(%wss & Hb & H)". iExists (ws :: wss). rewrite /= (assoc_L app). iFrame.
    + iIntros (e) "[%Hff (%wss & %Hl & Hb & H)]". iExists Hff, (ws :: wss).
      rewrite /= (assoc_L app). iFrame. rewrite file_rep_owned. iFrame. iPureIntro. lia.
  - iIntros (e) "[%Hff Hb]". iExists Hff, (zero_file :: replicate (length l) zero_file). iFrame "Hb".
    iSplitR; [by rewrite /= length_replicate|]. cbn. iSplitR; [iApply zero_file_owned|iApply zero_files_owned].
Qed.

(** The slot of a group that was not finished; nothing is lost. *)
Definition unfinished (b : nat) (pre post : list val) : hProp :=
  ∃ ws, b ↦[KNewArray] Words (pre ++ ws ++ post) ∗ group_owned ws.

Lemma unfinished_slot b pre post cb n d fv lv m :
  (length d ≤ n)%nat →
  b ↦[KNewArray] Words (pre ++ [VPtr cb; VInt (Z.of_nat n); fv; lv; VInt m] ++ post) -∗
  filled cb VNull n d -∗ str_opt fv -∗ structs_opt file_owned lv m -∗ unfinished b pre post.
Proof.
  intros Hd. iIntros "Hb Hc Hf Hl". iExists _. iFrame "Hb". rewrite filled_owned //.
  iDestruct "Hc" as (vs) "(%Hvs & Hcb & Hvs)". iExists (VPtr cb), _, fv, lv, m.
  iSplitR; [done|]. iFrame "Hf Hl". iRight. iExists vs. rewrite Hvs. by iFrame.
Qed.

Lemma files_opt fb wss n :
  length wss = n →
  fb ↦[KNewArray] Words (concat wss) -∗ ([∗ list] ws ∈ wss, file_owned ws) -∗
  structs_opt file_owned (VPtr fb) (Z.of_nat n).
Proof. iIntros (<-) "Hb H". iRight. iExists wss. by iFrame. Qed.

Definition build_one (x : group_input) (b o : nat) : CM unit := build_group b o x.1 x.2.1 x.2.2.

Lemma build_group_spec x b pre post :
  input_fits x →
  b ↦[KNewArray] Words (pre ++ zero_group ++ post) -∗
  cwp (build_one x b (length pre))
    (λ _, ∃ ws, b ↦[KNewArray] Words (pre ++ ws ++ post) ∗
       (<affine> ⌜input_valid x = true⌝ ∗ group_rep ws (built_group x)))
    (λ e, <affine> ⌜ff = true → input_valid x = false⌝ ∗ unfinished b pre post).
Proof.
  destruct x as [cols [fls rcs]]. intros (Hc & Hf & Hs). rewrite /build_one /build_group /input_valid /=.
  iIntros "Hb".
  destruct (bool_decide (cols = []) || bool_decide (fls = [])) eqn:Hne.
  { iApply cwp_throw. iSplitR.
    { iPureIntro. intros _. apply orb_true_iff in Hne as [->| ->]; cbn; [done|]. by rewrite andb_false_r. }
    iExists zero_group. iFrame. iApply zero_group_owned. }
  apply orb_false_iff in Hne as [-> ->]. cbn [negb andb].
  case_bool_decide as Hl; cbn [negb].
  2:{ iApply cwp_throw. iSplitR; [done|]. iExists zero_group. iFrame. iApply zero_group_owned. }
  rewrite !wrap_fits //. cbn [app zero_group].
  iApply cwp_bind. iApply (cwp_store_at with "Hb"); [cbn; lia|done|]. iIntros "Hb".
  iApply cwp_new_then. iSplit.
  2:{ iIntros (->). iSplitR; [done|]. iExists [_; _; _; _; _]. iFrame "Hb".
      iExists VNull, _, VNull, VNull, 0%Z. iSplitR; [done|]. iSplitR; [by iLeft|]. iSplitR; by iLeft. }
  iIntros (cb) "Hcb". rewrite filled_none.
  iApply cwp_bind. iApply (cwp_store_at with "Hb"); [cbn; lia|done|]. iIntros "Hb". cbn [insert list_insert].
  iApply (cwp_seq with "[Hb]"). { iApply (store_str_spec with "Hb"). rewrite length_app /=. lia. }
  iSplit.
  2:{ iIntros (e) "[%Hff Hb]". iSplitR; [by rewrite Hff|].
      iApply (unfinished_slot with "Hb Hcb"); [cbn; lia|by iLeft|by iLeft]. }
  iIntros (_) "(%fv & Hb & Hfv)". rewrite insert_after. cbn [insert list_insert].
  iApply cwp_bind. iApply (cwp_store_at with "Hb"); [cbn; lia|done|]. iIntros "Hb".
  iApply cwp_new_then. iSplit.
  2:{ iIntros (Hff). iSplitR; [by rewrite Hff|]. rewrite str_str_opt.
      iApply (unfinished_slot _ _ _ _ _ [] with "Hb Hcb Hfv"); [cbn; lia|by iLeft]. }
  iIntros (fb) "Hfb".
  iApply cwp_bind. iApply (cwp_store_at with "Hb"); [cbn; lia|done|]. iIntros "Hb". cbn [insert list_insert].
  iApply (cwp_seq with "[Hcb]"); [by iApply (fill_spec with "Hcb")|]. iSplit.
  2:{ iIntros (e) "[%Hff (%d & %Hd & Hcb)]". iSplitR; [by rewrite Hff|]. rewrite str_str_opt zero_files.
      by iApply (unfinished_slot with "Hb Hcb Hfv Hfb"). }
  iIntros (_) "Hcb". iApply (cwp_wand with "[Hfb]").
  { iApply (build_files_spec fb (zip fls rcs) 0 [] 0 with "[Hfb]"); [done|done|].
    rewrite length_zip Hl Nat.min_id. done. }
  iSplit.
  - iIntros (_) "(%wss & Hfb & H)". iExists [_; _; _; _; _]. iFrame "Hb".
    iSplitR; [done|].
    iExists (VPtr cb), fv, (VPtr fb). cbn. rewrite length_built_files length_zip Hl Nat.min_id.
    iSplitR; [done|]. iFrame "Hfv". rewrite filled_all. iDestruct "Hcb" as (vs) "[Hcb Hvs]".
    iSplitL "Hcb Hvs"; [iExists vs; by iFrame|]. iExists wss. by iFrame.
  - iIntros (e) "[%Hff (%wss & %Hw & Hfb & H)]". iSplitR; [by rewrite Hff|]. rewrite str_str_opt.
    rewrite length_zip Hl Nat.min_id in Hw.
    iDestruct (files_opt with "Hfb H") as "Hl"; [done|].
    by iApply (unfinished_slot with "Hb Hcb Hfv Hl").
Qed.

Definition built_rep (ws : list val) (x : group_input) : hProp :=
  <affine> ⌜input_valid x = true⌝ ∗ group_rep ws (built_group x).

Lemma built_rep_size ws x : built_rep ws x ⊢ <affine> ⌜length ws = sizeof_group⌝ ∗ built_rep ws x.
Proof.
  iIntros "[%Hv H]". iDestruct (group_rep_size with "H") as "[$ H]". iSplitR; done.
Qed.
Lemma built_rep_owned ws x : built_rep ws x ⊢ group_owned ws.
Proof. iIntros "[%Hv H]". by iApply group_rep_owned. Qed.

Lemma built_reps wss l :
  ([∗ list] ws;x ∈ wss;l, built_rep ws x) ⊢
    <affine> ⌜forallb input_valid l = true⌝ ∗ [∗ list] ws;x ∈ wss;l, group_rep ws (built_group x).
Proof.
  revert l. induction wss as [|ws wss IH]; intros [|x l]; cbn; iIntros "H"; [done|done|done|].
  iDestruct "H" as "[[%Hx $] H]". iDestruct (IH with "H") as "[%Hl $]". by rewrite Hx Hl.
Qed.

Lemma structs_built v l :
  structs built_rep v l ⊢
    <affine> ⌜forallb input_valid l = true⌝ ∗ structs group_rep v (built_group <$> l).
Proof.
  iIntros "(%wss & Ha & H)". iDestruct (built_reps with "H") as "[$ H]".
  iExists wss. rewrite big_sepL2_fmap_r. iFrame.
Qed.

Lemma unfinished_array b wss d m n :
  (length d + S m)%nat = n →
  unfinished b (concat wss) (array_of m zero_group) -∗ ([∗ list] ws;x ∈ wss;d, built_rep ws x) -∗
  structs_opt group_owned (VPtr b) (Z.of_nat n).
Proof.
  iIntros (<-) "(%ws & Hb & Hw) H".
  iDestruct (parts_forget _ group_owned with "H") as "[%Hl H]"; [apply built_rep_owned|].
  iRight. iExists (wss ++ ws :: replicate m zero_group).
  rewrite concat_app /= length_app /= length_replicate Hl. iSplitR; [done|].
  iSplitL "Hb"; [by iFrame|]. iFrame. iApply zeros_owned.
Qed.

(** The arguments as the loop over the groups sees them. *)
Definition inputs (cols fls : list (list string)) (rcs : list (list Z)) : list group_input :=
  zip cols (zip fls rcs).
Definition args_valid (cols fls : list (list string)) (rcs : list (list Z)) : bool :=
  bool_decide (length cols = length fls) && bool_decide (length cols = length rcs) &&
  negb (bool_decide (length cols = 0%nat)) && forallb input_valid (inputs cols fls rcs).

Lemma build_loop_spec allv p ab l :
  Forall (λ x, input_fits x ∧ (allv = true → input_valid x = true)) l →
  p ↦[KNew] Words [VPtr ab; VInt (Z.of_nat (length l))] -∗
  ab ↦[KNewArray] Words (array_of (length l) zero_group) -∗
  cwp (for_i (λ g '(cols, (fls, rcs)), build_group ab (g * sizeof_group) cols fls rcs) 0 l)
    (λ _, <affine> ⌜forallb input_valid l = true⌝ ∗ ∃ ws, p ↦[KNew] Words ws ∗ groups_rep ws (built_group <$> l))
    (λ _, <affine> ⌜ff = true → allv = false⌝ ∗ ∃ ws, p ↦[KNew] Words ws ∗ groups_owned ws).
Proof.
  intros Hfit. iIntros "Hp Ha".
  rewrite (for_i_ext _ (λ i x, build_one x ab (i * sizeof_group))); [|by intros j [? [? ?]]].
  iApply (cwp_wand with "[Ha]").
  { iApply (fill_structs_spec _ ab built_rep sizeof_group zero_group
      (λ e pre post, <affine> ⌜ff = true → allv = false⌝ ∗ unfinished ab pre post)%I built_rep_size
      with "Ha"); [|exact Hfit].
    intros x pre post [Hx Hv]. iIntros "Hb".
    iApply (cwp_wand with "[Hb]"); [by iApply (build_group_spec with "Hb")|].
    iSplit; [by iIntros (_) "$"|]. iIntros (e) "[%He $]". iPureIntro. intros Hff.
    specialize (He Hff). destruct allv; [|done]. by rewrite Hv in He. }
  iSplit.
  - iIntros (_) "Ha". rewrite slots_all structs_built. iDestruct "Ha" as "[$ Ha]".
    iExists _. iFrame "Hp". iExists (VPtr ab). rewrite length_fmap. by iFrame.
  - iIntros (e) "(%wss & %d & %m & %Hd & [$ Hu] & H)".
    iDestruct (unfinished_array with "Hu H") as "H"; [done|]. iExists _. iFrame "Hp". by iExists _, _; iFrame.
Qed.

Lemma BuildLoonColumnGroups_spec cols fls rcs :
  fits_u32 (length cols) → Forall input_fits (inputs cols fls rcs) →
  ⊢ cwp (BuildLoonColumnGroups cols fls rcs)
    (λ p, <affine> ⌜args_valid cols fls rcs = true⌝ ∗ ∃ ws, p ↦[KNew] Words ws ∗
       groups_rep ws (built_group <$> inputs cols fls rcs))
    (λ _, <affine> ⌜ff = true → args_valid cols fls rcs = false⌝).
Proof.
  intros Hn Hfit. rewrite /BuildLoonColumnGroups /args_valid.
  repeat case_bool_decide; cbn [negb andb orb]; try (iApply cwp_throw; done).
  assert (length (inputs cols fls rcs) = length cols) as Hl.
  { rewrite /inputs !length_zip. lia. }
  iApply cwp_new_then. iSplit; [|iIntros (Hff); iPureIntro; by rewrite Hff].
  iIntros (p) "Hp". iApply cwp_try. rewrite wrap_fits // -Hl.
  iApply cwp_bind. iApply (cwp_store with "Hp"); [cbn; lia|]. iIntros "Hp".
  iApply cwp_new_then. iSplit.
  2:{ iIntros (Hff). iApply (cwp_then with "[Hp]").
      { iApply (loon_column_groups_destroy_spec with "Hp"). iExists _, _. iSplitR; [done|]. by iLeft. }
      iIntros (_) "_". iApply cwp_throw. iPureIntro. by rewrite Hff. }
  iIntros (ab) "Ha". iApply cwp_bind. iApply (cwp_store with "Hp"); [cbn; lia|]. iIntros "Hp".
  iApply (cwp_seq with "[Hp Ha]").
  { iApply (build_loop_spec (forallb input_valid (inputs cols fls rcs)) with "Hp Ha").
    apply Forall_lookup. intros i x Hx. split; [by eapply Forall_lookup_1|].
    intros Hv. eapply forallb_forall; [exact Hv|].
    by eapply list_elem_of_In, list_elem_of_lookup_2. }
  iSplit.
  - iIntros (_) "[%Hv H]". iApply cwp_ret. by iFrame.
  - iIntros (e) "[%He (%ws & Hp & Hg)]". iApply (cwp_then with "[Hp Hg]").
    { iApply (loon_column_groups_destroy_spec with "Hp Hg"). }
    iIntros (_) "_". iApply cwp_throw. done.
Qed.
End builder.
