(* ===== verification/FfiBridgeRuns.v ===== *)
(** * Runs of the column group functions

    The specifications of [FfiBridgeCorrect] and [FfiBuilder] as statements
    about whole runs: a C caller that exports, imports and destroys, an export
    while memory runs out, and the builder. *)

From S2P Require Import Prelude CppString Status ColumnGroups CHeap CHeapLogic FfiBridge FfiBridgeRep FfiBridgeCorrect FfiBuilder.

(** ** Reading an assertion off a state *)

Section leaves.
Context (ff : bool).
Abbreviation leaves := (leaves ff).
Implicit Types (σ : CState) (hf : gmap nat mblock).

Lemma leaves_pure σ hf φ P : leaves σ hf (<affine> ⌜φ⌝ ∗ P)%I → φ ∧ leaves σ hf P.
Proof.
  intros (h & H1 & H2 & H3 & (m1 & m2 & -> & Hd & Hp & HP)).
  assert (φ ∧ m1 = ∅) as [Hφ ->] by (destruct Hp as [? Hp]; done).
  split; [done|]. exists m2. rewrite (left_id_L ∅ (∪)) in H1 H2. done.
Qed.
Lemma leaves_exist {A} σ hf (Φ : A → hProp) : leaves σ hf (∃ x, Φ x)%I → ∃ x, leaves σ hf (Φ x).
Proof. intros (h & H1 & H2 & H3 & (x & Hx)). exists x, h. done. Qed.
Lemma leaves_or σ hf P Q : leaves σ hf (P ∨ Q)%I → leaves σ hf P ∨ leaves σ hf Q.
Proof. intros (h & H1 & H2 & H3 & [H|H]); [left|right]; by exists h. Qed.
Lemma leaves_emp σ hf : leaves σ hf emp%I → mem σ = hf.
Proof. intros (h & H1 & _ & _ & Hh). change (h = ∅) in Hh. subst h. by rewrite H1 (left_id_L ∅ (∪)). Qed.
Lemma leaves_pt σ hf b k c P :
  leaves σ hf (b ↦[k] c ∗ P)%I → mem σ !! b = Some (mkBlock k c) ∧ leaves σ (<[b := mkBlock k c]> hf) P.
Proof.
  intros (h & H1 & H2 & H3 & Hh).
  destruct (owned_lookup _ _ _ _ _ _ _ H1 Hh H2) as [Hb (mr & HP & -> & Hr & Hf)].
  split; [done|]. exists mr. apply map_disjoint_union_l in H2 as [_ H2]. split_and!; [|by apply map_disjoint_insert_r|done|done].
  rewrite H1. rewrite -insert_union_r // -insert_union_singleton_l. by rewrite insert_union_l.
Qed.
Lemma leaves_true σ hf P : leaves σ hf P → hf ⊆ mem σ.
Proof. intros (h & -> & Hd & _). by apply map_union_subseteq_r. Qed.

Lemma leaves_false σ hf : ¬ leaves σ hf False%I.
Proof. by intros (h & _ & _ & _ & []). Qed.

(** Running a function that owns nothing, or one block of the caller. *)
Lemma run_emp {A} (m : CM A) Φ Ψ σ :
  (⊢ cwp ff m Φ Ψ) → (ff = true → faults σ = []) →
  wp m σ (λ a σ', leaves σ' (mem σ) (Φ a)) (λ e σ', leaves σ' (mem σ) (Ψ e)).
Proof.
  intros H Hf. eapply (cwp_run ff m emp Φ Ψ σ ∅ (mem σ)); [exact H|done| | |done].
  - by rewrite (left_id_L ∅ (∪)).
  - apply map_disjoint_empty_l.
Qed.
Lemma run_block {A} (m : CM A) b k c Φ Ψ σ :
  (b ↦[k] c ⊢ cwp ff m Φ Ψ) → mem σ !! b = Some (mkBlock k c) → (ff = true → faults σ = []) →
  wp m σ (λ a σ', leaves σ' (delete b (mem σ)) (Φ a)) (λ e σ', leaves σ' (delete b (mem σ)) (Ψ e)).
Proof.
  intros H Hb Hf. eapply (cwp_run ff m _ Φ Ψ σ {[b := mkBlock k c]} (delete b (mem σ))); [exact H|done| | |done].
  - by rewrite -insert_union_singleton_l insert_delete_id.
  - apply map_disjoint_singleton_l, lookup_delete_eq.
Qed.
(** Going on from what a function left. *)
Lemma run_from {A} (m : CM A) P Φ Ψ σ hf :
  (P ⊢ cwp ff m Φ Ψ) → leaves σ hf P →
  wp m σ (λ a σ', leaves σ' hf (Φ a)) (λ e σ', leaves σ' hf (Ψ e)).
Proof. intros H (h & H1 & H2 & H3 & HP). by eapply cwp_run. Qed.
End leaves.

(** ** A C caller *)

(** Exports the groups into its own word, imports them again and frees them. *)
Definition export_import_destroy (cgs : list (option ColumnGroup)) (out : nat) : CM (Result (list ColumnGroup)) :=
  r ← column_groups_export cgs out;
  match r with
  | Ok _ =>
      p ← load_ptr out 0;
      b ← deref_ptr p;
      gs ← column_groups_import b 0;
      loon_column_groups_destroy p ;;
      mret gs
  | Err e => mret (Err e)
  | Ub => undefined
  end.

(** Imports the groups of a structure and frees it. *)
Definition import_destroy (p : nat) : CM (Result (list ColumnGroup)) :=
  gs ← column_groups_import p 0; loon_column_groups_destroy (Some p) ;; mret gs.

Lemma import_destroy_spec ff gs p ws :
  Forall group_clean gs →
  p ↦[KNew] Words ws ∗ groups_rep ws gs ⊢
    cwp ff (import_destroy p) (λ r, <affine> ⌜r = Ok gs⌝ ∗ emp) (λ _, False).
Proof.
  intros Hc. iIntros "[Hp Hg]". rewrite /import_destroy -{1}(app_nil_r ws).
  iApply (cwp_then with "[Hp Hg]"); [by iApply (column_groups_import_spec with "Hp Hg")|].
  iIntros (r) "(-> & Hp & Hg)". rewrite app_nil_r.
  iApply (cwp_then with "[Hp Hg]").
  { iApply (loon_column_groups_destroy_spec with "Hp").
    iDestruct "Hg" as (av) "[-> Hg]". iExists av, _. iSplitR; [done|].
    rewrite (structs_forget _ _ _ _ group_rep_owned) //. }
  iIntros (_) "_". iApply cwp_ret. done.
Qed.

Lemma export_import_destroy_spec ff gs kd out v rest :
  groups_fit gs → Forall group_clean gs → (ff = false → v = VNull) →
  out ↦[kd] Words (v :: rest) ⊢
  cwp ff (export_import_destroy (Some <$> gs) out)
    (λ r, (<affine> ⌜r = Ok gs⌝ ∗ ∃ p, out ↦[kd] Words (VPtr p :: rest) ∗ emp) ∨
          (<affine> ⌜r = Err status_UnknownError⌝ ∗ thrown ff (out ↦[kd] Words (VNull :: rest) ∗ True)))
    (λ _, False).
Proof.
  intros Hfit Hc Hv. iIntros "Ho". rewrite /export_import_destroy.
  iApply (cwp_then with "[Ho]"); [by iApply (column_groups_export_spec with "Ho")|].
  iIntros (r) "[(-> & %p & %ws & Ho & Hp & Hg)|[-> H]]".
  - iApply cwp_bind. iApply (cwp_load_ptr with "Ho"); [done|by instantiate (1 := Some p)|]. iIntros "Ho".
    iApply cwp_bind. iApply cwp_deref. iApply (cwp_wand with "[Hp Hg]").
    { iApply (import_destroy_spec with "[$Hp $Hg]"). done. }
    iSplit; [|iIntros (e) "[]"]. iIntros (r) "[-> _]". iLeft. iSplitR; [done|]. iExists p. by iFrame.
  - iApply cwp_ret. iRight. by iFrame.
Qed.

(** A C caller that receives exported column groups and imports them gets
    the very groups back, and after the destroy function the memory is what it
    was, up to the word that received the pointer: nothing is leaked, freed
    twice or read outside its block.  The counters must fit their 32 bits and
    the strings hold no NUL. *)
Theorem column_groups_roundtrip gs kd out v rest σ :
  groups_fit gs → Forall group_clean gs →
  mem σ !! out = Some (mkBlock kd (Words (v :: rest))) → faults σ = [] →
  ∃ p σ', export_import_destroy (Some <$> gs) out σ = (σ', Ok (Ok gs)) ∧
    mem σ' = <[out := mkBlock kd (Words (VPtr p :: rest))]> (mem σ).
Proof.
  intros Hfit Hc Ho Hff.
  pose proof (run_block true _ out kd (Words (v :: rest)) _ _ σ
    (export_import_destroy_spec true gs kd out v rest Hfit Hc ltac:(done)) Ho (λ _, Hff)) as H.
  rewrite /wp in H. destruct (export_import_destroy _ out σ) as [σ' [r|e|]]; [|by apply leaves_false in H|done].
  apply leaves_or in H as [[-> H]%leaves_pure|[_ [Hf _]%leaves_exist]%leaves_pure]; [|done].
  apply leaves_exist in H as [p [_ H]%leaves_pt]. apply leaves_emp in H. exists p, σ'. by rewrite H insert_delete_eq.
Qed.

(** ** Exports while memory runs out *)

(** C20: Into a word that is null, whichever allocations fail, an export never
    touches memory it must not: it either succeeds and the groups can be read
    back and freed, or it reports an unknown error, leaves the caller's word
    null, and leaves every other block of the caller as it was.  What the failed
    export had already allocated may be lost.  The word must be null at the
    start: when the first allocation fails, the handler destroys whatever the
    word pointed to before. *)
Theorem column_groups_export_survives_faults gs kd out rest σ :
  groups_fit gs → Forall group_clean gs →
  mem σ !! out = Some (mkBlock kd (Words (VNull :: rest))) →
  ∃ σ' r, export_import_destroy (Some <$> gs) out σ = (σ', Ok r) ∧
    ((r = Ok gs ∧ ∃ p, mem σ' = <[out := mkBlock kd (Words (VPtr p :: rest))]> (mem σ)) ∨
     (r = Err status_UnknownError ∧ mem σ ⊆ mem σ')).
Proof.
  intros Hfit Hc Ho.
  pose proof (run_block false _ out kd (Words (VNull :: rest)) _ _ σ
    (export_import_destroy_spec false gs kd out VNull rest Hfit Hc (λ _, eq_refl)) Ho ltac:(done)) as H.
  rewrite /wp in H. destruct (export_import_destroy _ out σ) as [σ' [r|e|]]; [|by apply leaves_false in H|done].
  exists σ', r. split; [done|].
  apply leaves_or in H as [[-> H]%leaves_pure|[-> [Hf [Hout H]%leaves_pt]%leaves_exist]%leaves_pure].
  - left. split; [done|]. apply leaves_exist in H as [p [_ H]%leaves_pt]. apply leaves_emp in H.
    exists p. by rewrite H insert_delete_eq.
  - right. split; [done|]. apply leaves_true in H. rewrite insert_delete_eq insert_id // in H.
Qed.

(** ** The builder *)

Definition input_clean (x : group_input) : Prop := Forall no_nul x.1 ∧ Forall no_nul x.2.1.

Lemma built_files_clean l c : Forall no_nul l.*1 → Forall file_clean (built_files l c).
Proof.
  revert c. induction l as [|[f n] l IH]; intros c; cbn; [by constructor|].
  intros [Hf Hl]%Forall_cons. constructor; [|by apply IH]. split; [done|]. apply map_Forall_empty.
Qed.

Lemma built_group_clean x : input_clean x → group_clean (built_group x).
Proof.
  intros [Hc Hf]. split; [done|]. split; [done|]. apply built_files_clean.
  revert Hf. generalize (x.2.2). induction (x.2.1) as [|y l IH]; intros [|z r] Hl; cbn; try constructor.
  - by inversion Hl.
  - apply IH. by inversion Hl.
Qed.

(** C19: The builder of column groups, whichever allocations fail, either
    returns a structure with exactly the groups of its arguments, one file
    after the other from row 0, which can be read and freed without a trace, or it
    throws and the memory is exactly what it was before.  It throws only when
    memory ran out or the arguments are not valid. *)
Theorem BuildLoonColumnGroups_all_or_nothing cols fls rcs σ :
  fits_u32 (length cols) → Forall (λ x, input_fits x ∧ input_clean x) (inputs cols fls rcs) →
  match BuildLoonColumnGroups cols fls rcs σ with
  | (σ1, Ok p) =>
      args_valid cols fls rcs = true ∧
      ∃ σ2, import_destroy p σ1 = (σ2, Ok (Ok (built_group <$> inputs cols fls rcs))) ∧ mem σ2 = mem σ
  | (σ1, Err _) => mem σ1 = mem σ ∧ (faults σ = [] → args_valid cols fls rcs = false)
  | (_, Ub) => False
  end.
Proof.
  intros Hn [Hfit Hclean]%Forall_and. set (ff := bool_decide (faults σ = [])).
  pose proof (run_emp ff _ _ _ σ (BuildLoonColumnGroups_spec ff cols fls rcs Hn Hfit)
    (bool_decide_eq_true_1 _)) as H.
  rewrite /wp in H. destruct (BuildLoonColumnGroups cols fls rcs σ) as [σ1 [p|e|]]; [| |done].
  - apply leaves_pure in H as [Hv [ws H]%leaves_exist]. split; [done|].
    assert (Forall group_clean (built_group <$> inputs cols fls rcs)) as Hc.
    { apply Forall_fmap. eapply Forall_impl; [done|]. intros x. apply built_group_clean. }
    pose proof (run_from ff _ _ _ _ _ _ (import_destroy_spec ff _ p ws Hc) H) as H2.
    rewrite /wp in H2. destruct (import_destroy p σ1) as [σ2 [r|e|]]; [|by apply leaves_false in H2|done].
    apply leaves_pure in H2 as [-> H2%leaves_emp]. by exists σ2.
  - assert ((ff = true → args_valid cols fls rcs = false) ∧ mem σ1 = mem σ) as [Hv Hm].
    { destruct H as (h & H1 & H2 & H3 & [Hh Hp]). change (h = ∅) in Hh. subst h.
      by rewrite H1 (left_id_L ∅ (∪)). }
    split; [done|]. intros Hff. apply Hv. by apply bool_decide_eq_true_2.
Qed.
