(* ===== verification/FfiProperties.v ===== *)
(** * The properties of the C interface

    [loon_properties_create], [loon_properties_get] and [loon_properties_free]
    of [ffi/properties_c.cpp].  A [LoonProperties] is the two words
    [properties] and [count]; a [LoonProperty] is the two words [key] and
    [value].  Keys and values are copied into memory of [malloc]. *)

From S2P Require Import Prelude CppString Status ColumnGroups CHeap FfiBridge.

Abbreviation p_properties := 0%nat.
Abbreviation p_count := 1%nat.
Abbreviation kv_key := 0%nat.
Abbreviation kv_value := 1%nat.
Definition sizeof_property : nat := 2.

Definition loon_properties_free (properties : pointer) : CM unit :=
  match properties with
  | None => mret tt
  | Some b =>
      arr ← load_ptr b p_properties;
      match arr with
      | Some ab =>
          count ← load_int b p_count;
          repeat_i (λ i,
            k ← load_ptr ab (i * sizeof_property + kv_key); c_free k ;;
            v ← load_ptr ab (i * sizeof_property + kv_value); c_free v) 0 (Z.to_nat count) ;;
          c_free arr ;;
          store_word b p_properties VNull
      | None => mret tt
      end ;;
      store_word b p_count (VInt 0)
  end.

(** Word [o] receives a copy of the string, or stays null when [malloc] fails. *)
Definition copy_c_str (ab o : nat) (s : pointer) : CM unit :=
  text ← read_cstr s;
  p ← malloc_block (Chars text);
  store_word ab o (vptr p).

(** The loop over the keys, with the early returns of its body; [key_set] are
    the keys seen so far. *)
Fixpoint create_loop (kb vb b ab i n : nat) (key_set : gset string) : CM FFICode :=
  match n with
  | O => mret LOON_SUCCESS
  | S n' =>
      store_word ab (i * sizeof_property + kv_key) VNull ;;
      store_word ab (i * sizeof_property + kv_value) VNull ;;
      k ← load_ptr kb i;
      match k with
      | None => loon_properties_free (Some b) ;; mret LOON_INVALID_PROPERTIES
      | Some _ =>
          key ← read_cstr k;
          if decide (key ∈ key_set) then
            loon_properties_free (Some b) ;; mret LOON_INVALID_PROPERTIES
          else
            copy_c_str ab (i * sizeof_property + kv_key) k ;;
            v ← load_ptr vb i;
            match v with
            | None => loon_properties_free (Some b) ;; mret LOON_INVALID_PROPERTIES
            | Some _ =>
                copy_c_str ab (i * sizeof_property + kv_value) v ;;
                create_loop kb vb b ab (S i) n' ({[key]} ∪ key_set)
            end
      end
  end.

Definition loon_properties_create (keys values : pointer) (count : nat) (properties : pointer) : CM FFICode :=
  match properties with
  | None => mret LOON_INVALID_ARGS
  | Some b =>
      store_word b p_properties VNull ;;
      store_word b p_count (VInt 0) ;;
      match keys, values with
      | Some kb, Some vb =>
          if bool_decide (count = 0%nat) then mret LOON_INVALID_ARGS
          else
            arr ← malloc_block (Words (array_of count [VUndef; VUndef]));
            store_word b p_properties (vptr arr) ;;
            match arr with
            | None => mret LOON_MEMORY_ERROR
            | Some ab =>
                store_word b p_count (VInt (Z.of_nat count)) ;;
                create_loop kb vb b ab 0 count ∅
            end
      | _, _ => mret LOON_INVALID_ARGS
      end
  end.

(** The first entry whose key compares equal. *)
Fixpoint get_loop (ab i n : nat) (key : string) : CM pointer :=
  match n with
  | O => mret None
  | S n' =>
      k ← load_ptr ab (i * sizeof_property + kv_key);
      match k with
      | None => get_loop ab (S i) n' key
      | Some _ =>
          s ← read_cstr k;
          if decide (s = key) then load_ptr ab (i * sizeof_property + kv_value)
          else get_loop ab (S i) n' key
      end
  end.

(** [key] is the text of the argument, none when it is null. *)
Definition loon_properties_get (properties : pointer) (key : option string) : CM pointer :=
  match properties, key with
  | Some b, Some key =>
      arr ← load_ptr b p_properties;
      match arr with
      | Some ab => count ← load_int b p_count; get_loop ab 0 (Z.to_nat count) key
      | None => mret None
      end
  | _, _ => mret None
  end.
