(* ===== verification/FfiPropertiesCorrect.v ===== *)
(** * The properties of the C interface keep every pair

    A structure that was created finds every key it was given with its value
    and no other key, and freeing it returns all its memory.  The text copies
    are shared with nobody: the arrays of the caller are only read. *)

From S2P Require Import Prelude CppString Status ColumnGroups CHeap CHeapLogic FfiBridge FfiBridgeRep FfiBridgeCorrect FfiBridgeRuns FfiProperties.

Section properties.
Context (ff : bool).
Abbreviation cwp := (cwp ff).
Abbreviation nothrow := (λ _ : exn, False%I : hProp).

(** A copy made by [malloc]. *)
Definition mstr (v : val) (s : string) : hProp := ∃ b, <affine> ⌜v = VPtr b⌝ ∗ b ↦[KMalloc] Chars s.
(** An entry, each text possibly missing when memory ran out. *)
Definition mstr_opt (v : val) (s : string) : hProp := (∃ _ : ff = false, <affine> ⌜v = VNull⌝) ∨ mstr v s.
Definition entry_rep (ws : list val) (kv : string * string) : hProp :=
  ∃ k v, <affine> ⌜ws = [k; v]⌝ ∗ mstr_opt k kv.1 ∗ mstr_opt v kv.2.
Definition entries (ab : nat) (l : list (string * string)) : hProp :=
  ∃ wss, ab ↦[KMalloc] Words (concat wss) ∗ [∗ list] ws;kv ∈ wss;l, entry_rep ws kv.
Definition props_rep (ws : list val) (l : list (string * string)) : hProp :=
  ∃ ab, <affine> ⌜ws = [VPtr ab; VInt (Z.of_nat (length l))]⌝ ∗ entries ab l.

(** The strings of the caller, which its arrays point to. *)
Definition caller_strs (b : nat) (l : list string) : hProp :=
  ∃ k kc vs, b ↦[k] Words vs ∗ [∗ list] v;s ∈ vs;l, ∃ sb, <affine> ⌜v = VPtr sb⌝ ∗ sb ↦[kc] Chars s.

Lemma entry_rep_size ws kv : entry_rep ws kv ⊢ <affine> ⌜length ws = sizeof_property⌝ ∗ entry_rep ws kv.
Proof. iIntros "(%k & %v & -> & H)". iSplitR; [done|]. iExists k, v. by iFrame. Qed.

Lemma free_mstr v s p :
  v = vptr p → mstr_opt v s -∗ cwp (c_free p) (λ _, emp) nothrow.
Proof.
  iIntros (->) "[[%Hff %Hv]|(%b & %Hv & H)]"; destruct p; simplify_eq/=.
  - by iApply cwp_release_null.
  - by iApply (cwp_release with "H").
Qed.

Lemma mstr_ptr v s : mstr_opt v s ⊢ ∃ p, <affine> ⌜v = vptr p⌝ ∗ mstr_opt v s.
Proof.
  iIntros "[[%Hff ->]|(%b & -> & H)]".
  - iExists None. iSplitR; [done|]. iLeft. by iExists Hff.
  - iExists (Some b). iSplitR; [done|]. iRight. iExists b. by iFrame.
Qed.

(** The entries from [i] on are freed. *)
Lemma free_entries ab wss l : ∀ pre,
  ([∗ list] ws;kv ∈ wss;l, entry_rep ws kv) -∗ ab ↦[KMalloc] Words (pre ++ concat wss) -∗
  ∀ i, <affine> ⌜length pre = (i * sizeof_property)%nat⌝ -∗
  cwp (repeat_i (λ i,
      k ← load_ptr ab (i * sizeof_property + kv_key); c_free k ;;
      v ← load_ptr ab (i * sizeof_property + kv_value); c_free v) i (length l))
    (λ _, ab ↦[KMalloc] Words (pre ++ concat wss)) nothrow.
Proof.
  revert l. induction wss as [|ws wss IH]; intros [|[k0 v0] l] pre; cbn; iIntros "H Hb %i %Hi";
    [by iApply cwp_ret|done|done|].
  iDestruct "H" as "[(%k & %v & -> & Hk & Hv) H]". rewrite -Hi. iApply cwp_bind.
  iDestruct (mstr_ptr with "Hk") as (kp) "[%Hk Hk]". iDestruct (mstr_ptr with "Hv") as (vp) "[%Hv Hv]".
  iApply cwp_bind. iApply (cwp_load_ptr_at with "Hb"); [done|done|]. iIntros "Hb".
  iApply (cwp_then with "[Hk]"); [by iApply (free_mstr with "Hk")|]. iIntros (_) "_".
  iApply cwp_bind. iApply (cwp_load_ptr_at with "Hb"); [done|done|]. iIntros "Hb".
  iApply (cwp_wand with "[Hv]"); [by iApply (free_mstr with "Hv")|]. iSplit; [|iIntros (e) "[]"].
  iIntros (_) "_". rewrite (assoc_L app pre [k; v]).
  iApply (IH with "H Hb"). iPureIntro. rewrite length_app /= Hi /sizeof_property. lia.
Qed.

Lemma loon_properties_free_spec kd b ws l rest :
  b ↦[kd] Words (ws ++ rest) -∗ props_rep ws l -∗
  cwp (loon_properties_free (Some b)) (λ _, b ↦[kd] Words (VNull :: VInt 0 :: rest)) nothrow.
Proof.
  iIntros "Hb (%ab & -> & %wss & Ha & H)". cbn [app]. rewrite /loon_properties_free.
  iApply cwp_bind. iApply (cwp_load_ptr with "Hb"); [done|by instantiate (1 := Some ab)|]. iIntros "Hb".
  cbn. iApply cwp_bind. iApply cwp_bind. iApply (cwp_load_int with "Hb"); [done|]. iIntros "Hb". rewrite Nat2Z.id.
  iApply (cwp_then with "[Ha H]"); [by iApply (free_entries _ _ _ [] with "H Ha")|]. iIntros (_) "Ha".
  iApply cwp_bind. iApply (cwp_release with "Ha"). iApply (cwp_store with "Hb"); [cbn; lia|]. iIntros "Hb".
  iApply (cwp_store with "Hb"); [cbn; lia|]. iIntros "$".
Qed.

Lemma copy_c_str_spec ab pre ws i sb kc s :
  no_nul s → (i < length ws)%nat →
  sb ↦[kc] Chars s -∗ ab ↦[KMalloc] Words (pre ++ ws) -∗
  cwp (copy_c_str ab (length pre + i) (Some sb))
    (λ _, sb ↦[kc] Chars s ∗ ∃ v, ab ↦[KMalloc] Words (pre ++ <[i := v]> ws) ∗ mstr_opt v s) nothrow.
Proof.
  intros Hs Hi. iIntros "Hs Hb". rewrite /copy_c_str. iApply cwp_bind. iApply (cwp_read_cstr with "Hs").
  iIntros "Hs". rewrite until_nul_no_nul //. iApply cwp_bind. iApply cwp_malloc. iSplit.
  - iIntros (p) "Hp". iApply (cwp_store_at with "Hb"); [done|done|]. iIntros "Hb". iFrame "Hs".
    iExists (VPtr p). iFrame "Hb". iRight. by iFrame.
  - iIntros (Hff). iApply (cwp_store_at with "Hb"); [done|done|]. iIntros "Hb". iFrame "Hs".
    iExists VNull. iFrame "Hb". iLeft. by iExists Hff.
Qed.

(** Borrowing one string of the caller. *)
Lemma caller_acc b l j s :
  l !! j = Some s →
  caller_strs b l ⊢ ∃ k vs sb kc, <affine> ⌜vs !! j = Some (VPtr sb)⌝ ∗ b ↦[k] Words vs ∗
    sb ↦[kc] Chars s ∗ (b ↦[k] Words vs -∗ sb ↦[kc] Chars s -∗ caller_strs b l).
Proof.
  intros Hj. iIntros "(%k & %kc & %vs & Hb & H)". iDestruct (big_sepL2_length with "H") as %Hl.
  destruct (lookup_lt_is_Some_2 vs j) as [v Hv]; [rewrite Hl; by eapply lookup_lt_Some|].
  iDestruct (big_sepL2_lookup_acc with "H") as "[(%sb & %Hsb & Hs) H]"; [done|done|]. subst v.
  iExists k, vs, sb, kc. iFrame "Hb Hs". iSplitR; [done|]. iIntros "Hb Hs".
  iExists k, kc, vs. iFrame "Hb". iApply "H". by iFrame.
Qed.

(** One entry of the loop. *)
Lemma create_loop_spec kb vb b ab l : ∀ d wss key_set,
  NoDup (d ++ l).*1 → Forall (λ kv, no_nul kv.1 ∧ no_nul kv.2) l →
  key_set = list_to_set d.*1 →
  ab ↦[KMalloc] Words (concat wss ++ array_of (length l) [VUndef; VUndef]) -∗
  ([∗ list] ws;kv ∈ wss;d, entry_rep ws kv) -∗
  caller_strs kb (d ++ l).*1 ∗ caller_strs vb (d ++ l).*2 -∗
  cwp (create_loop kb vb b ab (length d) (length l) key_set)
    (λ r, <affine> ⌜r = LOON_SUCCESS⌝ ∗ entries ab (d ++ l) ∗
       caller_strs kb (d ++ l).*1 ∗ caller_strs vb (d ++ l).*2) nothrow.
Proof.
  induction l as [|[k v] l IH]; intros d wss key_set Hnd Hclean ->; cbn [length create_loop].
  { iIntros "Hb H Hc". iApply cwp_ret. iSplitR; [done|]. rewrite !app_nil_r. iFrame "Hc".
    iExists wss. iFrame. }
  apply Forall_cons in Hclean as [[Hk Hv] Hclean]. cbn in Hk, Hv.
  iIntros "Hb H [Hks Hvs]". iDestruct (reps_size _ _ entry_rep_size with "H") as "[%Hsz H]".
  rewrite /array_of /= -Hsz.
  do 2 (iApply cwp_bind; iApply (cwp_store_at with "Hb"); [cbn; lia|done|]; iIntros "Hb").
  cbn [insert list_insert].
  iDestruct (caller_acc _ _ (length d) k with "Hks") as (kk kvs sk kc) "(%Hsk & Hkb & Hsk & Hks)".
  { rewrite list_lookup_fmap list_lookup_middle //. }
  iApply cwp_bind. iApply (cwp_load_ptr with "Hkb"); [done|by instantiate (1 := Some sk)|]. iIntros "Hkb". cbn.
  iApply cwp_bind. iApply (cwp_read_cstr with "Hsk"). iIntros "Hsk". rewrite until_nul_no_nul //.
  rewrite decide_False.
  2:{ rewrite elem_of_list_to_set. intros Hin. rewrite fmap_app in Hnd. cbn in Hnd.
      apply NoDup_app in Hnd as (_ & Hd & _). apply (Hd k Hin). by left. }
  iApply (cwp_then with "[Hb Hsk]"); [iApply (copy_c_str_spec with "Hsk Hb"); [done|cbn; lia]|].
  iIntros (_) "(Hsk & %w1 & Hb & Hw1)". cbn [insert list_insert]. iDestruct ("Hks" with "Hkb Hsk") as "Hks".
  iDestruct (caller_acc _ _ (length d) v with "Hvs") as (vk vvs sv vc) "(%Hsv & Hvb & Hsv & Hvs)".
  { rewrite list_lookup_fmap list_lookup_middle //. }
  iApply cwp_bind. iApply (cwp_load_ptr with "Hvb"); [done|by instantiate (1 := Some sv)|]. iIntros "Hvb". cbn.
  iApply (cwp_then with "[Hb Hsv]"); [iApply (copy_c_str_spec with "Hsv Hb"); [done|cbn; lia]|].
  iIntros (_) "(Hsv & %w2 & Hb & Hw2)". cbn [insert list_insert]. iDestruct ("Hvs" with "Hvb Hsv") as "Hvs".
  rewrite (assoc_L app d [_] l : d ++ (k, v) :: l = (d ++ [(k, v)]) ++ l).
  replace (S (length d)) with (length (d ++ [(k, v)])) by (rewrite length_app /=; lia).
  iApply (IH (d ++ [(k, v)]) (wss ++ [[w1; w2]]) with "[Hb] [H Hw1 Hw2] [$Hks $Hvs]").
  - by rewrite -(assoc_L app).
  - done.
  - rewrite fmap_app list_to_set_app_L /=. set_solver.
  - by rewrite concat_app /= -(assoc_L app).
  - rewrite big_sepL2_snoc. iFrame "H". iExists w1, w2. by iFrame.
Qed.
End properties.

(** ** Create, look up, free *)

Section client.
Abbreviation cwp := (cwp true).
Abbreviation nothrow := (λ _ : exn, False%I : hProp).

Lemma mstr_there v s : mstr_opt true v s ⊢ mstr v s.
Proof. by iIntros "[[%H H]|$]". Qed.

(** What a lookup returns: the value's block, to be given back, or null. *)
Definition found (r : pointer) (ov : option string) (P : hProp) : hProp :=
  match ov with
  | None => <affine> ⌜r = None⌝ ∗ P
  | Some v => ∃ sb, <affine> ⌜r = Some sb⌝ ∗ sb ↦[KMalloc] Chars v ∗ (sb ↦[KMalloc] Chars v -∗ P)
  end.

Lemma found_wand r ov P Q : found r ov P -∗ (P -∗ Q) -∗ found r ov Q.
Proof.
  iIntros "H HPQ". destruct ov; cbn.
  - iDestruct "H" as (sb) "(-> & Hs & H)". iExists sb. iFrame. iSplitR; [done|].
    iIntros "Hs". iApply "HPQ". by iApply "H".
  - iDestruct "H" as "[-> H]". iSplitR; [done|]. by iApply "HPQ".
Qed.

Lemma get_loop_spec ab key wss l : ∀ pre i,
  Forall (λ kv, no_nul kv.1) l → length pre = (i * sizeof_property)%nat →
  ab ↦[KMalloc] Words (pre ++ concat wss) -∗ ([∗ list] ws;kv ∈ wss;l, entry_rep true ws kv) -∗
  cwp (get_loop ab i (length l) key)
    (λ r, found r ((list_to_map l : gmap string string) !! key)
       (ab ↦[KMalloc] Words (pre ++ concat wss) ∗ [∗ list] ws;kv ∈ wss;l, entry_rep true ws kv)) nothrow.
Proof.
  revert l. induction wss as [|ws wss IH]; intros [|[k v] l] pre i Hc Hi; cbn; iIntros "Hb H";
    [|done|done|].
  { iApply cwp_ret. rewrite lookup_empty /=. by iFrame. }
  apply Forall_cons in Hc as [Hk Hc]. cbn in Hk.
  iDestruct "H" as "[(%kw & %vw & -> & Hk & Hv) H]". cbn. rewrite -Hi !mstr_there.
  iDestruct "Hk" as (kb) "[-> Hk]". iDestruct "Hv" as (vb) "[-> Hv]".
  iApply cwp_bind. iApply (cwp_load_ptr_at with "Hb"); [done|by instantiate (1 := Some kb)|]. iIntros "Hb". cbn.
  iApply cwp_bind. iApply (cwp_read_cstr with "Hk"). iIntros "Hk". rewrite until_nul_no_nul //.
  assert (∀ P : hProp, kb ↦[KMalloc] Chars k -∗ vb ↦[KMalloc] Chars v -∗ P -∗
    entry_rep true [VPtr kb; VPtr vb] (k, v) ∗ P) as Hback.
  { intros P. iIntros "Hk Hv $". iExists _, _. iSplitR; [done|]. iSplitL "Hk"; iRight; by iFrame. }
  destruct (decide (k = key)) as [->|Hne].
  - iApply (cwp_load_ptr_at with "Hb"); [done|by instantiate (1 := Some vb)|]. iIntros "Hb".
    rewrite lookup_insert_eq /=. iExists vb. iSplitR; [done|]. iFrame "Hv Hb".
    iIntros "Hv". iApply (Hback with "Hk Hv H").
  - rewrite lookup_insert_ne // (assoc_L app pre [_; _]).
    iApply (cwp_wand with "[Hb H]").
    { iApply (IH with "Hb H"); [done|]. rewrite length_app /= Hi /sizeof_property. lia. }
    iSplit; [|iIntros (e) "[]"]. iIntros (r) "H". iApply (found_wand with "H").
    iIntros "[$ H]". iApply (Hback with "Hk Hv H").
Qed.

(** A C caller that looks up one key of the properties it created. *)
Definition create_get_free (keys values : pointer) (count b : nat) (key : string) : CM (FFICode * option string) :=
  rc ← loon_properties_create keys values count (Some b);
  p ← loon_properties_get (Some b) (Some key);
  r ← match p with Some _ => s ← read_cstr p; mret (Some s) | None => mret None end;
  loon_properties_free (Some b) ;;
  mret (rc, r).

Lemma create_get_free_spec kb vb l kd b w1 w2 rest key :
  l ≠ [] → NoDup l.*1 → Forall (λ kv, no_nul kv.1 ∧ no_nul kv.2) l →
  b ↦[kd] Words (w1 :: w2 :: rest) -∗ caller_strs kb l.*1 ∗ caller_strs vb l.*2 -∗
  cwp (create_get_free (Some kb) (Some vb) (length l) b key)
    (λ r, <affine> ⌜r = (LOON_SUCCESS, (list_to_map l : gmap string string) !! key)⌝ ∗
       b ↦[kd] Words (VNull :: VInt 0 :: rest) ∗ caller_strs kb l.*1 ∗ caller_strs vb l.*2) nothrow.
Proof.
  intros Hl Hnd Hc. iIntros "Hb Hcs". rewrite /create_get_free.
  iApply (cwp_then _ _ _ (λ r, <affine> ⌜r = LOON_SUCCESS⌝ ∗ ∃ ab,
    b ↦[kd] Words (VPtr ab :: VInt (Z.of_nat (length l)) :: rest) ∗ entries true ab l ∗
    caller_strs kb l.*1 ∗ caller_strs vb l.*2)%I with "[Hb Hcs]").
  { rewrite /loon_properties_create.
    do 2 (iApply cwp_bind; iApply (cwp_store with "Hb"); [cbn; lia|]; iIntros "Hb").
    rewrite bool_decide_eq_false_2; [|by destruct l].
    iApply cwp_bind. iApply cwp_malloc. iSplit; [|by iIntros (?)]. iIntros (ab) "Ha". cbn.
    iApply cwp_bind; iApply (cwp_store with "Hb"); [cbn; lia|]; iIntros "Hb".
    iApply cwp_bind; iApply (cwp_store with "Hb"); [cbn; lia|]; iIntros "Hb". cbn.
    iApply (cwp_wand with "[Ha Hcs]").
    { iApply (create_loop_spec true kb vb b ab l [] [] ∅ with "[Ha] [] Hcs"); [done|done|done|done|done]. }
    iSplit; [|iIntros (e) "[]"]. iIntros (r) "(-> & H & Hcs)". iSplitR; [done|]. iExists ab. iFrame. }
  iIntros (rc) "(-> & %ab & Hb & (%wss & Ha & H) & Hcs)". rewrite /loon_properties_get.
  iApply cwp_bind. iApply cwp_bind. iApply (cwp_load_ptr with "Hb"); [done|by instantiate (1 := Some ab)|]. iIntros "Hb". cbn.
  iApply cwp_bind. iApply (cwp_load_int with "Hb"); [done|]. iIntros "Hb". rewrite Nat2Z.id.
  iApply (cwp_wand with "[Ha H]").
  { iApply (get_loop_spec ab key wss l [] 0 with "Ha H"); [|done]. eapply Forall_impl; [done|]. by intros ? []. }
  iSplit; [|iIntros (e) "[]"]. iIntros (r) "H".
  iApply (cwp_then _ _ _ (λ s, <affine> ⌜s = (list_to_map l : gmap string string) !! key⌝ ∗
    ab ↦[KMalloc] Words (concat wss) ∗ [∗ list] ws;kv ∈ wss;l, entry_rep true ws kv)%I with "[H]").
  { destruct (list_to_map l !! key) as [v|] eqn:Hkey; cbn [found].
    - iDestruct "H" as (sb) "(-> & Hs & H)". iApply cwp_bind. iApply (cwp_read_cstr with "Hs").
      iIntros "Hs". iApply cwp_ret. rewrite until_nul_no_nul.
      + iSplitR; [done|]. by iApply "H".
      + apply elem_of_list_to_map_2, list_elem_of_lookup in Hkey as [j Hj].
        by destruct (proj1 (Forall_lookup _ _) Hc _ _ Hj).
    - iDestruct "H" as "[-> H]". iApply cwp_ret. by iFrame. }
  iIntros (s) "(-> & Ha & H)".
  iApply (cwp_then with "[Hb Ha H]").
  { iApply (loon_properties_free_spec true _ _ [_; _] l with "Hb"). iExists ab. iSplitR; [done|]. iExists wss. iFrame. }
  iIntros (_) "Hb". iApply cwp_ret. by iFrame.
Qed.

(** A caller whose memory holds a [LoonProperties] at [b] and the two arrays
    of pairwise distinct keys and of their values reads every key back with
    its value, any other key as null, and owns after the free what it owned
    before. *)
Theorem properties_create_get_free kb vb l kd b w1 w2 rest key σ hf :
  l ≠ [] → NoDup l.*1 → Forall (λ kv, no_nul kv.1 ∧ no_nul kv.2) l →
  leaves true σ hf (b ↦[kd] Words (w1 :: w2 :: rest) ∗ caller_strs kb l.*1 ∗ caller_strs vb l.*2) →
  ∃ σ', create_get_free (Some kb) (Some vb) (length l) b key σ =
      (σ', Ok (LOON_SUCCESS, (list_to_map l : gmap string string) !! key)) ∧
    leaves true σ' hf (b ↦[kd] Words (VNull :: VInt 0 :: rest) ∗ caller_strs kb l.*1 ∗ caller_strs vb l.*2).
Proof.
  intros Hl Hnd Hc Hσ.
  assert (b ↦[kd] Words (w1 :: w2 :: rest) ∗ caller_strs kb l.*1 ∗ caller_strs vb l.*2 ⊢
    cwp (create_get_free (Some kb) (Some vb) (length l) b key)
      (λ r, <affine> ⌜r = (LOON_SUCCESS, (list_to_map l : gmap string string) !! key)⌝ ∗
       b ↦[kd] Words (VNull :: VInt 0 :: rest) ∗ caller_strs kb l.*1 ∗ caller_strs vb l.*2) nothrow) as Hspec.
  { iIntros "[Hb Hcs]". by iApply (create_get_free_spec with "Hb Hcs"). }
  pose proof (run_from true _ _ _ _ _ _ Hspec Hσ) as H. rewrite /wp in H.
  destruct (create_get_free _ _ _ b key σ) as [σ' [r|e|]]; [|by apply leaves_false in H|done].
  apply leaves_pure in H as [-> H]. by exists σ'.
Qed.
End client.
