(* ===== verification/FfiManifest.v ===== *)
(** * Manifests across the C interface

    [manifest_export] and [manifest_import] of [ffi/bridge.cpp] and
    [loon_manifest_destroy] of [ffi/manifest_c.cpp], on the memory of [CHeap].
    The structure starts with an embedded [LoonColumnGroups]. *)

From S2P Require Import Prelude CppString Status ColumnGroups Manifest CHeap FfiBridge.

(** [LoonManifest]: after the column groups the delta logs, the statistics,
    the LOB files and the indexes. *)
Abbreviation m_groups := 0%nat.
Abbreviation d_paths := 2%nat.
Abbreviation d_entries := 3%nat.
Abbreviation d_num := 4%nat.
Abbreviation s_keys := 5%nat.
Abbreviation s_files := 6%nat.
Abbreviation s_file_counts := 7%nat.
Abbreviation s_meta_keys := 8%nat.
Abbreviation s_meta_values := 9%nat.
Abbreviation s_meta_counts := 10%nat.
Abbreviation s_num := 11%nat.
Abbreviation l_files := 12%nat.
Abbreviation l_num := 13%nat.
Abbreviation i_indexes := 14%nat.
Abbreviation i_num := 15%nat.
Definition zero_manifest : list val :=
  [VNull; VInt 0; VNull; VNull; VInt 0; VNull; VNull; VNull; VNull; VNull; VNull; VInt 0;
   VNull; VInt 0; VNull; VInt 0].

(** [LoonLobFileInfo]: path, field id, total rows, valid rows, size. *)
Definition sizeof_lob : nat := 5.
Definition zero_lob : list val := [VNull; VInt 0; VInt 0; VInt 0; VInt 0].

(** [LoonIndexInfo]: four strings, ten integers, the file keys and their
    number, the properties and their number. *)
Abbreviation ix_name := 0%nat.
Abbreviation ix_index := 1%nat.
Abbreviation ix_type := 2%nat.
Abbreviation ix_path := 3%nat.
Abbreviation ix_ints := 4%nat.
Abbreviation ix_files := 14%nat.
Abbreviation ix_num_files := 15%nat.
Abbreviation ix_keys := 16%nat.
Abbreviation ix_values := 17%nat.
Abbreviation ix_num := 18%nat.
Definition sizeof_index : nat := 19.
Definition zero_index : list val :=
  [VNull; VNull; VNull; VNull; VInt 0; VInt 0; VInt 0; VInt 0; VInt 0; VInt 0; VInt 0; VInt 0;
   VInt 0; VInt 0; VNull; VInt 0; VNull; VNull; VInt 0].

(** The integer fields of an index, in their order. *)
Definition index_ints (x : Index) : list Z :=
  [idx_field_id x; index_id x; build_id x; index_version x; num_rows x; serialized_size x; mem_size x;
   current_index_version x; current_scalar_index_version x; index_store_path_version x].

(** ** Export *)

(** The strings of a container copied into a new array that is published in
    word [o] of [b] before it is filled. *)
Definition export_strings (b o : nat) (l : list string) : CM unit :=
  arr ← new_words (replicate (length l) VNull);
  store_word b o (VPtr arr) ;;
  for_i (store_str arr) 0 l.

(** The same for the keys and values of a map. *)
Definition export_pairs (b ok ov : nat) (l : list (string * string)) : CM unit :=
  keys ← new_words (replicate (length l) VNull);
  store_word b ok (VPtr keys) ;;
  values ← new_words (replicate (length l) VNull);
  store_word b ov (VPtr values) ;;
  for_i (λ i '(k, v), store_str keys i k ;; store_str values i v) 0 l.

Definition export_delta_logs (delta_logs : list DeltaLog) (b : nat) : CM unit :=
  let ds := List.filter (λ d, dl_type d =? PRIMARY_KEY) delta_logs in
  if bool_decide (ds = []) then mret tt
  else
    paths ← new_words (replicate (length ds) VNull);
    store_word b d_paths (VPtr paths) ;;
    entries ← new_words (replicate (length ds) VUndef);
    store_word b d_entries (VPtr entries) ;;
    store_word b d_num (VInt (wrap_u32 (Z.of_nat (length ds)))) ;;
    for_i (λ i d,
      store_str paths i (dl_path d) ;;
      store_word entries i (VInt (wrap_u32 (num_entries d)))) 0 ds.

(** One entry of the statistics in the six parallel arrays. *)
Definition export_stat (keys files counts mkeys mvalues mcounts i : nat) (key : string) (stat : Statistics) :
    CM unit :=
  store_str keys i key ;;
  export_strings files i (paths stat) ;;
  store_word counts i (VInt (wrap_u32 (Z.of_nat (length (paths stat))))) ;;
  let meta := map_to_list (metadata stat) in
  (if bool_decide (meta = []) then mret tt
   else
     mk ← new_words (replicate (length meta) VNull);
     store_word mkeys i (VPtr mk) ;;
     mv ← new_words (replicate (length meta) VNull);
     store_word mvalues i (VPtr mv) ;;
     for_i (λ j '(k, v), store_str mk j k ;; store_str mv j v) 0 meta) ;;
  store_word mcounts i (VInt (wrap_u32 (Z.of_nat (length meta)))).

Definition export_stats (stats : gmap string Statistics) (b : nat) : CM unit :=
  let l := map_to_list stats in
  let n := length l in
  if bool_decide (l = []) then mret tt
  else
    keys ← new_words (replicate n VNull);
    store_word b s_keys (VPtr keys) ;;
    files ← new_words (replicate n VNull);
    store_word b s_files (VPtr files) ;;
    counts ← new_words (replicate n VUndef);
    store_word b s_file_counts (VPtr counts) ;;
    mkeys ← new_words (replicate n VNull);
    store_word b s_meta_keys (VPtr mkeys) ;;
    mvalues ← new_words (replicate n VNull);
    store_word b s_meta_values (VPtr mvalues) ;;
    mcounts ← new_words (replicate n VUndef);
    store_word b s_meta_counts (VPtr mcounts) ;;
    store_word b s_num (VInt (wrap_u32 (Z.of_nat n))) ;;
    for_i (λ i '(key, stat), export_stat keys files counts mkeys mvalues mcounts i key stat) 0 l.

Definition export_lob_file (x : LobFileInfo) (b o : nat) : CM unit :=
  store_str b o (lob_path x) ;;
  store_word b (o + 1) (VInt (lob_field_id x)) ;;
  store_word b (o + 2) (VInt (total_rows x)) ;;
  store_word b (o + 3) (VInt (valid_rows x)) ;;
  store_word b (o + 4) (VInt (file_size_bytes x)).

Definition export_lob_files (lob_files : list LobFileInfo) (b : nat) : CM unit :=
  if bool_decide (lob_files = []) then mret tt
  else
    arr ← new_words (array_of (length lob_files) zero_lob);
    store_word b l_files (VPtr arr) ;;
    store_word b l_num (VInt (wrap_u32 (Z.of_nat (length lob_files)))) ;;
    for_i (λ i x, export_lob_file x arr (i * sizeof_lob)) 0 lob_files.

Definition export_index (x : Index) (b o : nat) : CM unit :=
  store_str b (o + ix_name) (column_name x) ;;
  store_str b (o + ix_index) (index_name x) ;;
  store_str b (o + ix_type) (index_type x) ;;
  store_str b (o + ix_path) (idx_path x) ;;
  for_i (λ i z, store_word b (o + ix_ints + i) (VInt z)) 0 (index_ints x) ;;
  store_word b (o + ix_num_files) (VInt (wrap_u32 (Z.of_nat (length (index_file_keys x))))) ;;
  (if bool_decide (index_file_keys x = []) then mret tt
   else export_strings b (o + ix_files) (index_file_keys x)) ;;
  let props := map_to_list (idx_properties x) in
  store_word b (o + ix_num) (VInt (wrap_u32 (Z.of_nat (length props)))) ;;
  if bool_decide (props = []) then mret tt
  else export_pairs b (o + ix_keys) (o + ix_values) props.

Definition export_indexes (indexes : list Index) (b : nat) : CM unit :=
  if bool_decide (indexes = []) then mret tt
  else
    arr ← new_words (array_of (length indexes) zero_index);
    store_word b i_indexes (VPtr arr) ;;
    store_word b i_num (VInt (wrap_u32 (Z.of_nat (length indexes)))) ;;
    for_i (λ i x, export_index x arr (i * sizeof_index)) 0 indexes.

(** ** Freeing *)

(** The inner arrays of strings of an array, with their lengths in another;
    [is_null] entries are skipped. *)
Definition free_string_arrays (b : nat) (counts : pointer) (n : Z) : CM unit :=
  repeat_i (λ i,
    p ← load_ptr b i;
    match p with
    | None => mret tt
    | Some ib =>
        cb ← deref_ptr counts; c ← load_int cb i;
        free_strings ib c ;;
        delete_array p
    end) 0 (Z.to_nat n).

Definition destroy_delta_logs (b : nat) : CM unit :=
  paths ← load_ptr b d_paths;
  match paths with
  | Some pb =>
      n ← load_int b d_num;
      free_strings pb n ;; delete_array paths ;; store_word b d_paths VNull
  | None => mret tt
  end ;;
  free_field b d_entries ;;
  store_word b d_num (VInt 0).

(** One of the arrays of string arrays of the statistics. *)
Definition destroy_stat_arrays (b o oc : nat) : CM unit :=
  arr ← load_ptr b o;
  match arr with
  | Some ab =>
      n ← load_int b s_num;
      counts ← load_ptr b oc;
      free_string_arrays ab counts n ;; delete_array arr ;; store_word b o VNull
  | None => mret tt
  end.

Definition destroy_stats (b : nat) : CM unit :=
  keys ← load_ptr b s_keys;
  match keys with
  | Some kb =>
      n ← load_int b s_num;
      free_strings kb n ;; delete_array keys ;; store_word b s_keys VNull
  | None => mret tt
  end ;;
  destroy_stat_arrays b s_files s_file_counts ;;
  free_field b s_file_counts ;;
  destroy_stat_arrays b s_meta_keys s_meta_counts ;;
  destroy_stat_arrays b s_meta_values s_meta_counts ;;
  free_field b s_meta_counts ;;
  store_word b s_num (VInt 0).

Definition destroy_lob_file (b o : nat) : CM unit := p ← load_ptr b o; delete_array p.

Definition destroy_lob_files (b : nat) : CM unit :=
  files ← load_ptr b l_files;
  match files with
  | Some fb =>
      n ← load_int b l_num;
      repeat_i (λ i, destroy_lob_file fb (i * sizeof_lob)) 0 (Z.to_nat n) ;;
      delete_array files ;; store_word b l_files VNull
  | None => mret tt
  end ;;
  store_word b l_num (VInt 0).

(** An array of strings in word [o] of the structure, with its length in
    word [on]. *)
Definition destroy_strings (b o on : nat) : CM unit :=
  arr ← load_ptr b o;
  match arr with
  | Some ab => n ← load_int b on; free_strings ab n ;; delete_array arr
  | None => mret tt
  end.

Definition destroy_index (b o : nat) : CM unit :=
  p ← load_ptr b (o + ix_name); delete_array p ;;
  p ← load_ptr b (o + ix_index); delete_array p ;;
  p ← load_ptr b (o + ix_type); delete_array p ;;
  p ← load_ptr b (o + ix_path); delete_array p ;;
  destroy_strings b (o + ix_files) (o + ix_num_files) ;;
  destroy_strings b (o + ix_keys) (o + ix_num) ;;
  destroy_strings b (o + ix_values) (o + ix_num).

Definition destroy_indexes (b : nat) : CM unit :=
  indexes ← load_ptr b i_indexes;
  match indexes with
  | Some ib =>
      n ← load_int b i_num;
      repeat_i (λ i, destroy_index ib (i * sizeof_index)) 0 (Z.to_nat n) ;;
      delete_array indexes ;; store_word b i_indexes VNull
  | None => mret tt
  end ;;
  store_word b i_num (VInt 0).

Definition loon_manifest_destroy (cmanifest : pointer) : CM unit :=
  match cmanifest with
  | None => mret tt
  | Some b =>
      destroy_column_groups_contents b m_groups ;;
      destroy_delta_logs b ;;
      destroy_stats b ;;
      destroy_lob_files b ;;
      destroy_indexes b ;;
      delete_struct cmanifest
  end.

(** The fields are reset once more after the structure was value-initialised;
    the words stay the same. *)
Definition manifest_export (m : Manifest ColumnGroup) (out : nat) : CM (Result unit) :=
  try_catch (
    p ← new_struct zero_manifest;
    store_word out 0 (VPtr p) ;;
    st ← column_groups_export_internal (column_groups_ m) p m_groups;
    match st with
    | Ok _ =>
        export_delta_logs (delta_logs_ m) p ;;
        export_stats (stats_ m) p ;;
        export_lob_files (lob_files_ m) p ;;
        export_indexes (indexes_ m) p ;;
        mret (Ok tt)
    | _ => mret st
    end)
  (λ _,
    p ← load_ptr out 0;
    match p with
    | Some _ => loon_manifest_destroy p ;; store_word out 0 VNull
    | None => mret tt
    end ;;
    mret (Err status_UnknownError)).

(** ** Import *)

Definition import_delta_log (dpaths dentries : pointer) (i : nat) : CM DeltaLog :=
  path ← load_str dpaths i;
  eb ← deref_ptr dentries;
  e ← load_int eb i;
  mret (mkDelta path PRIMARY_KEY e).

(** A word of an array that must be there. *)
Definition load_elem (array : pointer) (i : nat) : CM pointer := b ← deref_ptr array; load_ptr b i.
Definition load_count (array : pointer) (i : nat) : CM Z := b ← deref_ptr array; load_int b i.

Definition import_stat (keys files counts mkeys mvalues mcounts : pointer) (i : nat) : CM (string * Statistics) :=
  key ← load_str keys i;
  nf ← load_count counts i;
  ps ← collect_i (λ j, fp ← load_elem files i; load_str fp j) 0 (Z.to_nat nf);
  meta ←
    match mkeys with
    | None => mret ∅
    | Some mkb =>
        mk ← load_ptr mkb i;
        match mk with
        | None => mret ∅
        | Some _ =>
            nm ← load_count mcounts i;
            fold_i (λ j meta,
              k ← load_str mk j;
              mv ← load_elem mvalues i;
              v ← load_str mv j;
              mret (<[k := v]> meta)) 0 (Z.to_nat nm) ∅
        end
    end;
  mret (key, mkStat ps meta).

(** The text a pointer denotes, if any. *)
Definition read_opt (p : pointer) : CM string :=
  match p with None => mret ""%string | Some _ => read_cstr p end.

(** The loop over the file keys, which may return an error. *)
Fixpoint import_file_keys (arr : pointer) (i n : nat) : CM (Result (list string)) :=
  match n with
  | O => mret (Ok [])
  | S n' =>
      p ← load_elem arr i;
      match p with
      | None => mret (Err status_Invalid)
      | Some _ =>
          s ← read_cstr p;
          r ← import_file_keys arr (S i) n';
          mret (cons s <$> r)
      end
  end.

Fixpoint import_index_props (keys values : pointer) (i n : nat) (acc : gmap string string) :
    CM (Result (gmap string string)) :=
  match n with
  | O => mret (Ok acc)
  | S n' =>
      k ← load_elem keys i;
      match k with
      | None => mret (Err status_Invalid)
      | Some _ =>
          v ← load_elem values i;
          match v with
          | None => mret (Err status_Invalid)
          | Some _ =>
              ks ← read_cstr k;
              vs ← read_cstr v;
              import_index_props keys values (S i) n' (<[ks := vs]> acc)
          end
      end
  end.

(** The checks of an index entry, then its fields. *)
Definition import_index (b o : nat) : CM (Result Index) :=
  cn ← load_ptr b (o + ix_name);
  ty ← load_ptr b (o + ix_type);
  pa ← load_ptr b (o + ix_path);
  match cn, ty, pa with
  | Some _, Some _, Some _ =>
      np ← load_int b (o + ix_num);
      keys ← load_ptr b (o + ix_keys);
      values ← load_ptr b (o + ix_values);
      if (0 <? np) && (bool_decide (keys = None) || bool_decide (values = None)) then
        mret (Err status_Invalid)
      else
        cn ← read_cstr cn;
        nm ← load_ptr b (o + ix_index);
        nm ← read_opt nm;
        ty ← read_cstr ty;
        pa ← read_cstr pa;
        zs ← collect_i (λ i, load_int b (o + ix_ints + i)) 0 10;
        nk ← load_int b (o + ix_num_files);
        fks ← load_ptr b (o + ix_files);
        if (0 <? nk) && bool_decide (fks = None) then mret (Err status_Invalid)
        else
          fk ← import_file_keys fks 0 (Z.to_nat nk);
          match fk with
          | Ok fk =>
              props ← import_index_props keys values 0 (Z.to_nat np) ∅;
              mret (
                props ← props;
                let z i := default 0 (zs !! i) in
                mret (mkIndex cn nm ty pa (z 0%nat) (z 1%nat) (z 2%nat) (z 3%nat) (z 4%nat) (z 5%nat)
                        (z 6%nat) (z 7%nat) (z 8%nat) (z 9%nat) fk props))
          | Err e => mret (Err e)
          | Ub => undefined
          end
  | _, _, _ => mret (Err status_Invalid)
  end.

Definition import_lob_file (b o : nat) : CM (Result LobFileInfo) :=
  p ← load_ptr b o;
  match p with
  | None => mret (Err status_Invalid)
  | Some _ =>
      path ← read_cstr p;
      f ← load_int b (o + 1);
      t ← load_int b (o + 2);
      v ← load_int b (o + 3);
      s ← load_int b (o + 4);
      mret (Ok (mkLob path f t v s))
  end.

(** A loop over an array of structures that may return an error. *)
Fixpoint import_structs {B} (f : nat → nat → CM (Result B)) (size : nat) (arr : pointer) (i n : nat) :
    CM (Result (list B)) :=
  match n with
  | O => mret (Ok [])
  | S n' =>
      b ← deref_ptr arr;
      r ← f b (i * size)%nat;
      match r with
      | Ok x => rest ← import_structs f size arr (S i) n'; mret (cons x <$> rest)
      | Err e => mret (Err e)
      | Ub => undefined
      end
  end.

Definition import_delta_logs (b : nat) : CM (list DeltaLog) :=
  n ← load_int b d_num;
  dp ← load_ptr b d_paths;
  de ← load_ptr b d_entries;
  collect_i (import_delta_log dp de) 0 (Z.to_nat n).

Definition import_stats (b : nat) : CM (gmap string Statistics) :=
  n ← load_int b s_num;
  keys ← load_ptr b s_keys;
  files ← load_ptr b s_files;
  counts ← load_ptr b s_file_counts;
  mkeys ← load_ptr b s_meta_keys;
  mvalues ← load_ptr b s_meta_values;
  mcounts ← load_ptr b s_meta_counts;
  fold_i (λ i acc,
    kv ← import_stat keys files counts mkeys mvalues mcounts i;
    mret (<[kv.1 := kv.2]> acc)) 0 (Z.to_nat n) ∅.

Definition manifest_import (b : nat) : CM (Result (Manifest ColumnGroup)) :=
  gn ← load_int b gs_num;
  ga ← load_ptr b gs_array;
  gs ← import_groups ga gn;
  ds ← import_delta_logs b;
  ss ← import_stats b;
  xn ← load_int b i_num;
  xa ← load_ptr b i_indexes;
  xs ← import_structs import_index sizeof_index xa 0 (Z.to_nat xn);
  match xs with
  | Ok xs =>
      ln ← load_int b l_num;
      la ← load_ptr b l_files;
      ls ← import_structs import_lob_file sizeof_lob la 0 (Z.to_nat ln);
      mret (ls ← ls; mret (mkManifest MANIFEST_VERSION (Some <$> gs) ds ss xs ls))
  | Err e => mret (Err e)
  | Ub => undefined
  end.
