(* ===== verification/FfiManifestRep.v ===== *)
(** * Exported manifests and what they own

    The representation of each part of a [LoonManifest] and the specifications
    of the functions that export them.  No allocation fails here: what the
    export does when memory runs out is in [FfiSample]. *)

From S2P Require Import Prelude CppString Status ColumnGroups Manifest CHeap CHeapLogic FfiBridge FfiBridgeRep FfiBridgeCorrect FfiManifest.

Section manifest_export.
Abbreviation cwp := (cwp true).

(** ** The rules of the logic when no allocation fails *)

Section rules.
Context {A : Type}.
Implicit Types (Φ : A → hProp) (Ψ : exn → hProp).

Lemma new_true k c (f : nat → CM A) Φ Ψ :
  (∀ b, b ↦[k] c -∗ cwp (f b) Φ Ψ) ⊢ cwp (new_block k c ≫= f) Φ Ψ.
Proof. rewrite -(cwp_new_then true). iIntros "H". iSplit; [done|]. by iIntros (?). Qed.

(** A step whose exceptions cannot happen. *)
Lemma seq_true {B} (m : CM B) (f : B → CM A) (Φ0 : B → hProp) R Φ Ψ :
  cwp m Φ0 (λ e, thrown true (R e)) -∗ (∀ b, Φ0 b -∗ cwp (f b) Φ Ψ) -∗ cwp (m ≫= f) Φ Ψ.
Proof.
  iIntros "H HΦ". iApply (cwp_seq with "H"). iSplit; [iApply "HΦ"|]. by iIntros (e) "[%Hf ?]".
Qed.
End rules.

(** The same for the last step. *)
Lemma last_true {B} (m : CM B) (Φ0 Φ : B → hProp) R Ψ :
  cwp m Φ0 (λ e, thrown true (R e)) -∗ (∀ b, Φ0 b -∗ Φ b) -∗ cwp m Φ Ψ.
Proof.
  iIntros "H HΦ". iApply (cwp_wand with "H"). iSplit; [iApply "HΦ"|]. by iIntros (e) "[%Hf ?]".
Qed.

(** A word of a structure, at a known distance from the start of the block. *)
Lemma store_in b k pre ws ws' n i v (Φ : unit → hProp) Ψ :
  n = (length pre + i)%nat → (i < length ws)%nat → <[i := v]> ws = ws' →
  b ↦[k] Words (pre ++ ws) -∗ (b ↦[k] Words (pre ++ ws') -∗ Φ tt) -∗ cwp (store_word b n v) Φ Ψ.
Proof. intros ->. apply cwp_store_at. Qed.

Lemma store_str_in b k pre ws n i s (Φ : unit → hProp) Ψ :
  n = (length pre + i)%nat → (i < length ws)%nat →
  b ↦[k] Words (pre ++ ws) -∗
  (∀ v, b ↦[k] Words (pre ++ <[i := v]> ws) -∗ str v s -∗ Φ tt) -∗ cwp (store_str b n s) Φ Ψ.
Proof.
  intros -> Hi. iIntros "Hb HΦ".
  iApply (last_true _ _ _ (λ _, b ↦[k] Words (pre ++ ws))%I with "[Hb]").
  { iApply (store_str_spec with "Hb"). rewrite length_app. lia. }
  iIntros ([]) "(%v & Hb & Hv)". rewrite insert_after. iApply ("HΦ" with "Hb Hv").
Qed.

Lemma export_strings_in b k pre ws n i l (Φ : unit → hProp) Ψ :
  n = (length pre + i)%nat → (i < length ws)%nat →
  b ↦[k] Words (pre ++ ws) -∗
  (∀ v, b ↦[k] Words (pre ++ <[i := v]> ws) -∗ str_array v l -∗ Φ tt) -∗
  cwp (export_strings b n l) Φ Ψ.
Proof.
  intros Hn Hi. iIntros "Hb HΦ". rewrite /export_strings. iApply new_true. iIntros (ab) "Ha".
  iApply cwp_bind. iApply (store_in with "Hb"); [done|done|done|]. iIntros "Hb". rewrite filled_none.
  iApply (last_true with "[Ha]"); [iApply (fill_spec with "Ha")|]. iIntros ([]) "Ha".
  rewrite filled_all. iDestruct "Ha" as (vs) "[Ha H]". iApply ("HΦ" with "Hb"). iExists vs. by iFrame.
Qed.

Lemma fill_pairs_true kb vb l (Φ : unit → hProp) Ψ :
  l ≠ [] →
  kb ↦[KNewArray] Words (replicate (length l) VNull) -∗ vb ↦[KNewArray] Words (replicate (length l) VNull) -∗
  (kv_rep (VPtr kb) (VPtr vb) l -∗ Φ tt) -∗
  cwp (for_i (λ i '(k, v), store_str kb i k ;; store_str vb i v) 0 l) Φ Ψ.
Proof.
  intros Hl. iIntros "Hk Hv HΦ". iApply (last_true with "[Hk Hv]").
  { iApply (fill_pairs_spec true kb vb VNull). rewrite /kv_filled !filled_none. iFrame. }
  iIntros ([]) "H". iApply "HΦ". by iApply kv_filled_rep.
Qed.

Lemma export_pairs_in b k pre ws nk nv i j l (Φ : unit → hProp) Ψ :
  l ≠ [] → nk = (length pre + i)%nat → nv = (length pre + j)%nat → (i < length ws)%nat → (j < length ws)%nat →
  b ↦[k] Words (pre ++ ws) -∗
  (∀ kv vv, b ↦[k] Words (pre ++ <[j := vv]> (<[i := kv]> ws)) -∗ kv_rep kv vv l -∗ Φ tt) -∗
  cwp (export_pairs b nk nv l) Φ Ψ.
Proof.
  intros Hl Hk Hv Hi Hj. iIntros "Hb HΦ". rewrite /export_pairs. iApply new_true. iIntros (kb) "Hkb".
  iApply cwp_bind. iApply (store_in with "Hb"); [done|done|done|]. iIntros "Hb".
  iApply new_true. iIntros (vb) "Hvb".
  iApply cwp_bind. iApply (store_in with "Hb"); [done|by rewrite length_insert|done|]. iIntros "Hb".
  iApply (fill_pairs_true with "Hkb Hvb"); [done|]. iApply ("HΦ" with "Hb").
Qed.

(** ** Delta logs *)

(** The logs the C interface knows. *)
Definition pk_logs (l : list DeltaLog) : list DeltaLog := List.filter (λ d, dl_type d =? PRIMARY_KEY)%Z l.

Definition entry_word (d : DeltaLog) : val := VInt (wrap_u32 (num_entries d)).
Definition deltas_rep (w2 w3 w4 : val) (ds : list DeltaLog) : hProp :=
  match ds with
  | [] => <affine> ⌜w2 = VNull ∧ w3 = VNull ∧ w4 = VInt 0⌝
  | _ => <affine> ⌜w4 = VInt (Z.of_nat (length ds))⌝ ∗ str_array w2 (dl_path <$> ds) ∗ array w3 (entry_word <$> ds)
  end.

(** Words stored one after the other. *)
Definition words_filled (b : nat) (w : val) (n : nat) (vs : list val) : hProp :=
  b ↦[KNewArray] Words (vs ++ replicate (n - length vs) w).

Lemma words_open b w n vs :
  (length vs < n)%nat → words_filled b w n vs ⊢ b ↦[KNewArray] Words (vs ++ w :: replicate (n - S (length vs)) w).
Proof.
  intros Hn. rewrite /words_filled. destruct (n - length vs)%nat as [|m] eqn:Hm; [lia|].
  by replace (n - S (length vs))%nat with m by lia.
Qed.
Lemma words_close b w n vs v :
  b ↦[KNewArray] Words (vs ++ v :: replicate (n - S (length vs)) w) ⊢ words_filled b w n (vs ++ [v]).
Proof. rewrite /words_filled length_app -(assoc_L app) /= Nat.add_1_r //. Qed.

Lemma words_next b w n vs i v (Φ : unit → hProp) Ψ :
  i = length vs → (i < n)%nat →
  words_filled b w n vs -∗ (words_filled b w n (vs ++ [v]) -∗ Φ tt) -∗ cwp (store_word b i v) Φ Ψ.
Proof.
  iIntros (-> Hn) "Hb HΦ". rewrite words_open //.
  iApply (store_in b _ vs (w :: replicate (n - S (length vs)) w) _ _ 0 v with "Hb"); [lia|cbn; lia|done|].
  iIntros "Hb". iApply "HΦ". by rewrite words_close.
Qed.

Lemma words_none b w n : b ↦[KNewArray] Words (replicate n w) ⊢ words_filled b w n [].
Proof. rewrite /words_filled /= Nat.sub_0_r //. Qed.
Lemma words_all b w n vs : length vs = n → words_filled b w n vs ⊢ array (VPtr b) vs.
Proof. intros <-. rewrite /words_filled Nat.sub_diag app_nil_r. iIntros "H". by iFrame. Qed.

Lemma fill_deltas pb eb ds :
  filled pb VNull (length ds) [] ∗ words_filled eb VUndef (length ds) [] -∗
  cwp (for_i (λ i d, store_str pb i (dl_path d) ;; store_word eb i (VInt (wrap_u32 (num_entries d)))) 0 ds)
    (λ _, filled pb VNull (length ds) (dl_path <$> ds) ∗ words_filled eb VUndef (length ds) (entry_word <$> ds))
    (λ _, False).
Proof.
  iApply (cwp_for_i _ _ (λ l, filled pb VNull (length ds) (dl_path <$> l) ∗
    words_filled eb VUndef (length ds) (entry_word <$> l))%I).
  intros l d rest Hds. iIntros "[Hp He]". cbn [Nat.add].
  assert (length l < length ds)%nat as Hl by (rewrite Hds length_app /=; lia).
  rewrite !fmap_app /=. iApply (seq_true with "[Hp]").
  { rewrite -(length_fmap dl_path l). iApply (store_str_next with "Hp"). by rewrite length_fmap. }
  iIntros (_) "Hp". iApply (words_next with "He"); [by rewrite length_fmap|done|]. iIntros "He". iFrame.
Qed.

Lemma filled_array b w n l : length l = n → filled b w n l ⊢ str_array (VPtr b) l.
Proof. intros <-. rewrite filled_all. iIntros "(%vs & Hb & H)". iExists vs. by iFrame. Qed.

Lemma export_delta_logs_spec b pre post l :
  length pre = 2%nat → fits_u32 (length (pk_logs l)) →
  b ↦[KNew] Words (pre ++ [VNull; VNull; VInt 0] ++ post) -∗
  cwp (export_delta_logs l b)
    (λ _, ∃ w2 w3 w4, b ↦[KNew] Words (pre ++ [w2; w3; w4] ++ post) ∗ deltas_rep w2 w3 w4 (pk_logs l))
    (λ _, False).
Proof.
  intros Hpre Hfit. iIntros "Hb". cbn [app]. rewrite /export_delta_logs. fold (pk_logs l).
  case_bool_decide as Hds.
  { iApply cwp_ret. rewrite Hds. iExists VNull, VNull, (VInt 0). by iFrame. }
  rewrite wrap_fits //. iApply new_true. iIntros (pb) "Hp". rewrite filled_none.
  iApply cwp_bind. iApply (store_in _ _ _ _ _ _ 0 with "Hb"); [lia|cbn; lia|done|]. iIntros "Hb".
  iApply new_true. iIntros (eb) "He". rewrite words_none.
  iApply cwp_bind. iApply (store_in _ _ _ _ _ _ 1 with "Hb"); [lia|cbn; lia|done|]. iIntros "Hb".
  iApply cwp_bind. iApply (store_in _ _ _ _ _ _ 2 with "Hb"); [lia|cbn; lia|done|]. iIntros "Hb".
  cbn [insert list_insert]. iApply (cwp_wand with "[Hp He]"); [iApply (fill_deltas with "[$Hp $He]")|].
  iSplit; [|iIntros (e) "[]"]. iIntros (_) "[Hp He]".
  rewrite filled_array ?words_all ?length_fmap //. iExists _, _, _. iFrame "Hb".
  destruct (pk_logs l); [done|]. by iFrame.
Qed.

(** ** LOB files *)

Definition lob_rep (ws : list val) (x : LobFileInfo) : hProp :=
  ∃ pv, <affine> ⌜ws = [pv; VInt (lob_field_id x); VInt (total_rows x); VInt (valid_rows x);
                        VInt (file_size_bytes x)]⌝ ∗ str pv (lob_path x).
Lemma lob_rep_size ws x : lob_rep ws x ⊢ <affine> ⌜length ws = sizeof_lob⌝ ∗ lob_rep ws x.
Proof. iIntros "(%pv & -> & H)". iSplitR; [done|]. iExists pv. by iFrame. Qed.

(** An array of structures that is missing when there is nothing to tell. *)
Definition structs_or_null {A} (rep : list val → A → hProp) (w1 w2 : val) (l : list A) : hProp :=
  match l with
  | [] => <affine> ⌜w1 = VNull ∧ w2 = VInt 0⌝
  | _ => <affine> ⌜w2 = VInt (Z.of_nat (length l))⌝ ∗ structs rep w1 l
  end.

Lemma export_lob_file_spec x b pre post :
  b ↦[KNewArray] Words (pre ++ zero_lob ++ post) -∗
  cwp (export_lob_file x b (length pre))
    (λ _, ∃ ws, b ↦[KNewArray] Words (pre ++ ws ++ post) ∗ lob_rep ws x) (λ _, False).
Proof.
  iIntros "Hb". cbn [app zero_lob]. rewrite /export_lob_file. iApply cwp_bind.
  iApply (store_str_in _ _ _ _ _ 0 with "Hb"); [lia|cbn; lia|]. iIntros (v) "Hb Hv". cbn [insert list_insert].
  do 3 (iApply cwp_bind; iApply (cwp_store_at with "Hb"); [cbn; lia|done|]; iIntros "Hb").
  iApply (cwp_store_at with "Hb"); [cbn; lia|done|]. iIntros "Hb". cbn [insert list_insert].
  iExists [_; _; _; _; _]. iFrame "Hb". iExists v. by iFrame.
Qed.

(** An array of structures exported into two words of the manifest. *)
Lemma export_structs_spec {A} (f : A → nat → nat → CM unit) (rep : list val → A → hProp) size zero (fits : A → Prop)
    b pre post n1 n2 (l : list A) :
  (∀ ws x, rep ws x ⊢ <affine> ⌜length ws = size⌝ ∗ rep ws x) →
  (∀ x b pre post, fits x → b ↦[KNewArray] Words (pre ++ zero ++ post) -∗
     cwp (f x b (length pre)) (λ _, ∃ ws, b ↦[KNewArray] Words (pre ++ ws ++ post) ∗ rep ws x) (λ _, False)) →
  n1 = length pre → n2 = S (length pre) → fits_u32 (length l) → Forall fits l →
  b ↦[KNew] Words (pre ++ [VNull; VInt 0] ++ post) -∗
  cwp (if bool_decide (l = []) then mret tt
       else
         arr ← new_words (array_of (length l) zero);
         store_word b n1 (VPtr arr) ;;
         store_word b n2 (VInt (wrap_u32 (Z.of_nat (length l)))) ;;
         for_i (λ i x, f x arr (i * size)%nat) 0 l)
    (λ _, ∃ w1 w2, b ↦[KNew] Words (pre ++ [w1; w2] ++ post) ∗ structs_or_null rep w1 w2 l)
    (λ _, False).
Proof.
  intros Hsize Hf -> -> Hfit Hfits. iIntros "Hb". cbn [app]. case_bool_decide as Hl.
  { iApply cwp_ret. subst l. iExists VNull, (VInt 0). by iFrame. }
  rewrite wrap_fits //. iApply new_true. iIntros (ab) "Ha".
  iApply cwp_bind. iApply (store_in _ _ _ _ _ _ 0 with "Hb"); [lia|cbn; lia|done|]. iIntros "Hb".
  iApply cwp_bind. iApply (store_in _ _ _ _ _ _ 1 with "Hb"); [lia|cbn; lia|done|]. iIntros "Hb".
  cbn [insert list_insert]. iApply (cwp_wand with "[Ha]").
  { iApply (fill_structs_spec true ab rep size zero (λ _ _ _, False)%I Hsize f fits with "Ha"); [|done].
    intros x pre' post' Hx. by apply Hf. }
  iSplit.
  - iIntros (_) "H". rewrite slots_all. iExists _, _. iFrame "Hb". destruct l; [done|]. by iFrame.
  - iIntros (e) "(%wss & %d & %m & _ & [] & _)".
Qed.

(** ** Indexes *)

(** Strings whose array is missing when there are none. *)
Definition strs_or_null (v : val) (l : list string) : hProp :=
  match l with [] => <affine> ⌜v = VNull⌝ | _ => str_array v l end.

Definition index_fits (x : Index) : Prop :=
  fits_u32 (length (index_file_keys x)) ∧ fits_u32 (length (map_to_list (idx_properties x))).

Definition index_rep (ws : list val) (x : Index) : hProp :=
  ∃ v1 v2 v3 v4 fv kv vv, let props := map_to_list (idx_properties x) in
    <affine> ⌜ws = [v1; v2; v3; v4] ++ (VInt <$> index_ints x) ++
      [fv; VInt (Z.of_nat (length (index_file_keys x))); kv; vv; VInt (Z.of_nat (length props))]⌝ ∗
    str v1 (column_name x) ∗ str v2 (index_name x) ∗ str v3 (index_type x) ∗ str v4 (idx_path x) ∗
    strs_or_null fv (index_file_keys x) ∗ kv_rep kv vv props.

Lemma index_rep_size ws x : index_rep ws x ⊢ <affine> ⌜length ws = sizeof_index⌝ ∗ index_rep ws x.
Proof.
  iIntros "(%v1 & %v2 & %v3 & %v4 & %fv & %kv & %vv & -> & H)". iSplitR; [done|].
  iExists v1, v2, v3, v4, fv, kv, vv. by iFrame.
Qed.

Lemma export_index_spec x b pre post :
  index_fits x →
  b ↦[KNewArray] Words (pre ++ zero_index ++ post) -∗
  cwp (export_index x b (length pre))
    (λ _, ∃ ws, b ↦[KNewArray] Words (pre ++ ws ++ post) ∗ index_rep ws x) (λ _, False).
Proof.
  intros [Hf Hp]. iIntros "Hb". cbn [app zero_index]. rewrite /export_index !wrap_fits //.
  iApply cwp_bind. iApply (store_str_in _ _ _ _ _ 0 with "Hb"); [lia|cbn; lia|]. iIntros (v1) "Hb H1".
  iApply cwp_bind. iApply (store_str_in _ _ _ _ _ 1 with "Hb"); [lia|cbn; lia|]. iIntros (v2) "Hb H2".
  iApply cwp_bind. iApply (store_str_in _ _ _ _ _ 2 with "Hb"); [lia|cbn; lia|]. iIntros (v3) "Hb H3".
  iApply cwp_bind. iApply (store_str_in _ _ _ _ _ 3 with "Hb"); [lia|cbn; lia|]. iIntros (v4) "Hb H4".
  cbn [insert list_insert index_ints for_i].
  iApply cwp_bind.
  do 10 (iApply cwp_bind; rewrite -Nat.add_assoc; cbn [Nat.add];
    iApply (cwp_store_at with "Hb"); [cbn; lia|done|]; iIntros "Hb"; cbn [insert list_insert]).
  iApply cwp_ret.
  iApply cwp_bind. iApply (cwp_store_at with "Hb"); [cbn; lia|done|]. iIntros "Hb". cbn [insert list_insert].
  iApply (cwp_then _ _ _ (λ _, ∃ fv, b ↦[KNewArray] Words (pre ++ v1 :: v2 :: v3 :: v4 ::
      (VInt <$> index_ints x) ++ fv :: VInt (Z.of_nat (length (index_file_keys x))) :: VNull :: VNull :: VInt 0 :: post) ∗
    strs_or_null fv (index_file_keys x))%I with "[Hb]").
  { case_bool_decide as Hk.
    - iApply cwp_ret. rewrite Hk. iExists VNull. by iFrame.
    - iApply (export_strings_in _ _ _ _ _ 14 with "Hb"); [lia|cbn; lia|]. iIntros (fv) "Hb Hfv".
      iExists fv. iFrame "Hb". by destruct (index_file_keys x). }
  iIntros (_) "(%fv & Hb & Hfv)". cbn [app index_ints fmap list_fmap].
  iApply cwp_bind. iApply (cwp_store_at with "Hb"); [cbn; lia|done|]. iIntros "Hb". cbn [insert list_insert].
  set (props := map_to_list (idx_properties x)). case_bool_decide as Hnil.
  - iApply cwp_ret. iExists ([v1; v2; v3; v4] ++ (VInt <$> index_ints x) ++ [fv; _; VNull; VNull; _]). iFrame "Hb".
    iExists v1, v2, v3, v4, fv, VNull, VNull. iSplitR; [done|]. iFrame. fold props. by rewrite Hnil.
  - iApply (export_pairs_in _ _ _ _ _ _ 16 17 with "Hb"); [done|lia|lia|cbn; lia|cbn; lia|].
    iIntros (kv vv) "Hb Hkv". cbn [insert list_insert].
    iExists ([v1; v2; v3; v4] ++ (VInt <$> index_ints x) ++ [fv; _; kv; vv; _]). iFrame "Hb".
    iExists v1, v2, v3, v4, fv, kv, vv. iSplitR; [done|]. iFrame.
Qed.

Lemma export_lob_files_spec b pre post l :
  length pre = 12%nat → fits_u32 (length l) →
  b ↦[KNew] Words (pre ++ [VNull; VInt 0] ++ post) -∗
  cwp (export_lob_files l b)
    (λ _, ∃ w1 w2, b ↦[KNew] Words (pre ++ [w1; w2] ++ post) ∗ structs_or_null lob_rep w1 w2 l) (λ _, False).
Proof.
  intros Hpre Hl. iApply (export_structs_spec export_lob_file lob_rep sizeof_lob zero_lob (λ _, True)).
  - apply lob_rep_size.
  - intros. apply export_lob_file_spec.
  - by rewrite Hpre.
  - by rewrite Hpre.
  - done.
  - by apply Forall_true.
Qed.

Lemma export_indexes_spec b pre post l :
  length pre = 14%nat → fits_u32 (length l) → Forall index_fits l →
  b ↦[KNew] Words (pre ++ [VNull; VInt 0] ++ post) -∗
  cwp (export_indexes l b)
    (λ _, ∃ w1 w2, b ↦[KNew] Words (pre ++ [w1; w2] ++ post) ∗ structs_or_null index_rep w1 w2 l) (λ _, False).
Proof.
  intros Hpre Hl Hfits. iApply (export_structs_spec export_index index_rep sizeof_index zero_index index_fits).
  - apply index_rep_size.
  - intros. by apply export_index_spec.
  - by rewrite Hpre.
  - by rewrite Hpre.
  - done.
  - done.
Qed.

(** ** Statistics *)

(** The words of one entry in the arrays of pointers. *)
Record stat_row := mkRow { r_key : val; r_files : val; r_meta_keys : val; r_meta_values : val }.

Definition meta_list (s : Statistics) : list (string * string) := map_to_list (metadata s).
Definition stat_rep (r : stat_row) (ks : string * Statistics) : hProp :=
  str (r_key r) ks.1 ∗ str_array (r_files r) (paths ks.2) ∗
  kv_rep (r_meta_keys r) (r_meta_values r) (meta_list ks.2).
Definition file_count (ks : string * Statistics) : val := VInt (Z.of_nat (length (paths ks.2))).
Definition meta_count (ks : string * Statistics) : val := VInt (Z.of_nat (length (meta_list ks.2))).
Definition stat_fits (ks : string * Statistics) : Prop :=
  fits_u32 (length (paths ks.2)) ∧ fits_u32 (length (meta_list ks.2)).

Definition stats_rep (ws : list val) (l : list (string * Statistics)) : hProp :=
  match l with
  | [] => <affine> ⌜ws = [VNull; VNull; VNull; VNull; VNull; VNull; VInt 0]⌝
  | _ => ∃ kv fv cv mkv mvv mcv rows,
      <affine> ⌜ws = [kv; fv; cv; mkv; mvv; mcv; VInt (Z.of_nat (length l))]⌝ ∗
      array kv (r_key <$> rows) ∗ array fv (r_files <$> rows) ∗ array cv (file_count <$> l) ∗
      array mkv (r_meta_keys <$> rows) ∗ array mvv (r_meta_values <$> rows) ∗ array mcv (meta_count <$> l) ∗
      [∗ list] r;ks ∈ rows;l, stat_rep r ks
  end.

(** The six arrays after some entries. *)
Definition stats_filled (kb fb cb mkb mvb mcb n : nat) (d : list (string * Statistics)) : hProp :=
  ∃ rows,
    words_filled kb VNull n (r_key <$> rows) ∗ words_filled fb VNull n (r_files <$> rows) ∗
    words_filled cb VUndef n (file_count <$> d) ∗ words_filled mkb VNull n (r_meta_keys <$> rows) ∗
    words_filled mvb VNull n (r_meta_values <$> rows) ∗ words_filled mcb VUndef n (meta_count <$> d) ∗
    [∗ list] r;ks ∈ rows;d, stat_rep r ks.

Lemma export_meta_spec mkb mvb n ks vs i (l : list (string * string)) :
  length ks = i → length vs = i → (i < n)%nat →
  words_filled mkb VNull n ks ∗ words_filled mvb VNull n vs -∗
  cwp (if bool_decide (l = []) then mret tt
       else
         mk ← new_words (replicate (length l) VNull);
         store_word mkb i (VPtr mk) ;;
         mv ← new_words (replicate (length l) VNull);
         store_word mvb i (VPtr mv) ;;
         for_i (λ j '(k, v), store_str mk j k ;; store_str mv j v) 0 l)
    (λ _, ∃ k v, words_filled mkb VNull n (ks ++ [k]) ∗ words_filled mvb VNull n (vs ++ [v]) ∗ kv_rep k v l)
    (λ _, False).
Proof.
  intros Hk Hv Hn. iIntros "[Hks Hvs]". case_bool_decide as Hl.
  - iApply cwp_ret. iExists VNull, VNull. do 2 (rewrite words_open; [|lia]). rewrite !words_close. iFrame. by rewrite Hl.
  - iApply new_true. iIntros (mk) "Hmk". iApply cwp_bind.
    iApply (words_next with "Hks"); [done|done|]. iIntros "Hks".
    iApply new_true. iIntros (mv) "Hmv". iApply cwp_bind.
    iApply (words_next with "Hvs"); [done|done|]. iIntros "Hvs".
    iApply (fill_pairs_true with "Hmk Hmv"); [done|]. iIntros "H". iExists _, _. iFrame.
Qed.

Lemma export_stat_spec kb fb cb mkb mvb mcb n d key stat :
  stat_fits (key, stat) → (length d < n)%nat →
  stats_filled kb fb cb mkb mvb mcb n d -∗
  cwp (export_stat kb fb cb mkb mvb mcb (length d) key stat)
    (λ _, stats_filled kb fb cb mkb mvb mcb n (d ++ [(key, stat)])) (λ _, False).
Proof.
  intros [Hf Hm] Hn. iIntros "(%rows & Hk & Hfs & Hc & Hmk & Hmv & Hmc & H)".
  iDestruct (big_sepL2_length with "H") as %Hl. cbn in Hf, Hm.
  rewrite /export_stat !wrap_fits //. fold (meta_list stat).
  do 2 (rewrite words_open; [|rewrite length_fmap; lia]).
  iApply cwp_bind. iApply (store_str_in _ _ _ _ _ 0 with "Hk"); [rewrite length_fmap; lia|cbn; lia|].
  iIntros (k) "Hk Hks". cbn [insert list_insert]. iDestruct (words_close with "Hk") as "Hk".
  iApply cwp_bind. iApply (export_strings_in _ _ _ _ _ 0 with "Hfs"); [rewrite length_fmap; lia|cbn; lia|].
  iIntros (f) "Hfs Hpaths". cbn [insert list_insert]. iDestruct (words_close with "Hfs") as "Hfs".
  iApply cwp_bind. iApply (words_next with "Hc"); [by rewrite length_fmap|done|]. iIntros "Hc".
  iApply (cwp_then with "[Hmk Hmv]").
  { iApply (export_meta_spec with "[$Hmk $Hmv]"); [by rewrite length_fmap|by rewrite length_fmap|done]. }
  iIntros (_) "(%mk & %mv & Hmk & Hmv & Hmeta)".
  iApply (words_next with "Hmc"); [by rewrite length_fmap|done|]. iIntros "Hmc".
  iExists (rows ++ [mkRow k f mk mv]). rewrite !fmap_app big_sepL2_snoc /=. iFrame.
Qed.

Lemma export_stats_spec b pre post (stats : gmap string Statistics) :
  length pre = 5%nat → fits_u32 (length (map_to_list stats)) → Forall stat_fits (map_to_list stats) →
  b ↦[KNew] Words (pre ++ [VNull; VNull; VNull; VNull; VNull; VNull; VInt 0] ++ post) -∗
  cwp (export_stats stats b)
    (λ _, ∃ ws, b ↦[KNew] Words (pre ++ ws ++ post) ∗ stats_rep ws (map_to_list stats)) (λ _, False).
Proof.
  intros Hpre Hfit Hfits. iIntros "Hb". cbn [app]. rewrite /export_stats. set (l := map_to_list stats) in *.
  case_bool_decide as Hl.
  { iApply cwp_ret. rewrite Hl. iExists [_; _; _; _; _; _; _]. by iFrame. }
  rewrite wrap_fits //.
  iApply new_true. iIntros (kb) "Hk". rewrite words_none.
  iApply cwp_bind. iApply (store_in _ _ _ _ _ _ 0 with "Hb"); [lia|cbn; lia|done|]. iIntros "Hb".
  iApply new_true. iIntros (fb) "Hf". rewrite words_none.
  iApply cwp_bind. iApply (store_in _ _ _ _ _ _ 1 with "Hb"); [lia|cbn; lia|done|]. iIntros "Hb".
  iApply new_true. iIntros (cb) "Hc". rewrite words_none.
  iApply cwp_bind. iApply (store_in _ _ _ _ _ _ 2 with "Hb"); [lia|cbn; lia|done|]. iIntros "Hb".
  iApply new_true. iIntros (mkb) "Hmk". rewrite words_none.
  iApply cwp_bind. iApply (store_in _ _ _ _ _ _ 3 with "Hb"); [lia|cbn; lia|done|]. iIntros "Hb".
  iApply new_true. iIntros (mvb) "Hmv". rewrite words_none.
  iApply cwp_bind. iApply (store_in _ _ _ _ _ _ 4 with "Hb"); [lia|cbn; lia|done|]. iIntros "Hb".
  iApply new_true. iIntros (mcb) "Hmc". rewrite words_none.
  iApply cwp_bind. iApply (store_in _ _ _ _ _ _ 5 with "Hb"); [lia|cbn; lia|done|]. iIntros "Hb".
  iApply cwp_bind. iApply (store_in _ _ _ _ _ _ 6 with "Hb"); [lia|cbn; lia|done|]. iIntros "Hb".
  cbn [insert list_insert].
  iApply (cwp_wand _ _ _ (λ _, False)%I with "[Hk Hf Hc Hmk Hmv Hmc]").
  { iApply (cwp_for_i _ _ (stats_filled kb fb cb mkb mvb mcb (length l))).
    - intros d [key stat] rest Hd. cbn [Nat.add]. iIntros "H". iApply (export_stat_spec with "H").
      + rewrite Hd in Hfits. by apply Forall_app in Hfits as [_ [? _]%Forall_cons].
      + rewrite Hd length_app /=. lia.
    - iExists []. by iFrame. }
  iSplit; [|iIntros (e) "[]"]. iIntros (_) "(%rows & Hk & Hf & Hc & Hmk & Hmv & Hmc & H)".
  iDestruct (big_sepL2_length with "H") as %Hr.
  rewrite !words_all ?length_fmap //. iExists [_; _; _; _; _; _; _]. iFrame "Hb".
  destruct l; [done|]. iExists _, _, _, _, _, _, rows. by iFrame.
Qed.
End manifest_export.
