(* ===== verification/FfiManifestCorrect.v ===== *)
(** * Manifests cross the C interface

    The specifications of the import and of the destruction of a manifest, and
    the theorem about a whole round trip.  What crosses is everything but the
    delta logs of other types than primary key, the upper bits of the numbers
    of deleted entries, and the version. *)

From S2P Require Import Prelude CppString Status ColumnGroups Manifest CHeap CHeapLogic FfiBridge FfiBridgeRep FfiBridgeCorrect FfiBuilder FfiBridgeRuns FfiManifest FfiManifestRep.

Section manifest.
Abbreviation cwp := (cwp true).
Abbreviation nothrow := (λ _ : exn, False%I : hProp).

(** ** Accesses at a known distance from the start of a block *)

Lemma load_ptr_in b k pre ws n i v p (Φ : pointer → hProp) Ψ :
  n = (length pre + i)%nat → ws !! i = Some v → v = vptr p →
  b ↦[k] Words (pre ++ ws) -∗ (b ↦[k] Words (pre ++ ws) -∗ Φ p) -∗ cwp (load_ptr b n) Φ Ψ.
Proof. intros ->. apply cwp_load_ptr_at. Qed.
Lemma load_int_in b k pre ws n i z (Φ : Z → hProp) Ψ :
  n = (length pre + i)%nat → ws !! i = Some (VInt z) →
  b ↦[k] Words (pre ++ ws) -∗ (b ↦[k] Words (pre ++ ws) -∗ Φ z) -∗ cwp (load_int b n) Φ Ψ.
Proof. intros ->. apply cwp_load_int_at. Qed.

(** ** Delta logs *)

Definition delta_clean (d : DeltaLog) : Prop := no_nul (dl_path d).
(** A delta log as it comes back. *)
Definition ffi_log (d : DeltaLog) : DeltaLog := mkDelta (dl_path d) PRIMARY_KEY (wrap_u32 (num_entries d)).

Lemma import_delta_logs_spec b k pre post w2 w3 w4 ds :
  length pre = 2%nat → Forall delta_clean ds →
  b ↦[k] Words (pre ++ [w2; w3; w4] ++ post) -∗ deltas_rep w2 w3 w4 ds -∗
  cwp (import_delta_logs b) (λ r, <affine> ⌜r = ffi_log <$> ds⌝ ∗
    b ↦[k] Words (pre ++ [w2; w3; w4] ++ post) ∗ deltas_rep w2 w3 w4 ds) nothrow.
Proof.
  intros Hpre Hc. iIntros "Hb Hd". cbn [app]. rewrite /import_delta_logs.
  destruct (decide (ds = [])) as [->|Hds].
  { iDestruct "Hd" as %(-> & -> & ->).
    iApply cwp_bind. iApply (load_int_in _ _ _ _ _ 2 with "Hb"); [lia|done|]. iIntros "Hb".
    iApply cwp_bind. iApply (load_ptr_in _ _ _ _ _ 0 _ None with "Hb"); [lia|done|done|]. iIntros "Hb".
    iApply cwp_bind. iApply (load_ptr_in _ _ _ _ _ 1 _ None with "Hb"); [lia|done|done|]. iIntros "Hb".
    iApply cwp_ret. by iFrame. }
  assert (deltas_rep w2 w3 w4 ds = (<affine> ⌜w4 = VInt (Z.of_nat (length ds))⌝ ∗
    str_array w2 (dl_path <$> ds) ∗ array w3 (entry_word <$> ds))%I) as -> by (by destruct ds).
  iDestruct "Hd" as "(-> & Hp & (%eb & -> & He))".
  iDestruct (str_array_at with "Hp") as (pb) "[-> Hp]".
  iApply cwp_bind. iApply (load_int_in _ _ _ _ _ 2 with "Hb"); [lia|done|]. iIntros "Hb".
  iApply cwp_bind. iApply (load_ptr_in _ _ _ _ _ 0 _ (Some pb) with "Hb"); [lia|done|done|]. iIntros "Hb".
  iApply cwp_bind. iApply (load_ptr_in _ _ _ _ _ 1 _ (Some eb) with "Hb"); [lia|done|done|]. iIntros "Hb".
  rewrite Nat2Z.id. iApply (cwp_wand with "[Hp He]").
  { rewrite -(length_fmap ffi_log ds).
    iApply (cwp_collect_i true _ (strs_at pb (dl_path <$> ds) ∗ eb ↦[KNewArray] Words (entry_word <$> ds))%I
      nothrow (ffi_log <$> ds) 0); [|iFrame].
    intros j x Hj. apply list_lookup_fmap_Some in Hj as (d & -> & Hj). iIntros "[Hp He]".
    rewrite /import_delta_log. iApply (cwp_then with "[Hp]").
    { iApply (load_str_spec with "Hp"); [by rewrite list_lookup_fmap Hj|by eapply (Forall_lookup_1 _ _ _ _ Hc)]. }
    iIntros (path) "[-> Hp]". iApply cwp_bind. iApply cwp_deref. iApply cwp_bind.
    iApply (cwp_load_int with "He"); [by rewrite list_lookup_fmap Hj|]. iIntros "He". iApply cwp_ret. by iFrame. }
  iSplit; [|iIntros (e) "[]"]. iIntros (r) "(-> & Hp & He)". iSplitR; [done|]. iFrame "Hb".
  iSplitR; [done|]. iSplitL "Hp"; [by iApply strs_at_array|by iFrame].
Qed.

(** ** Arrays of structures with errors *)

Lemma import_structs_spec {A} (f : nat → nat → CM (Result A)) (rep : list val → A → hProp) size (clean : A → Prop) b wss l :
  (∀ ws x, rep ws x ⊢ <affine> ⌜length ws = size⌝ ∗ rep ws x) →
  (∀ x pre ws post, clean x →
     b ↦[KNewArray] Words (pre ++ ws ++ post) -∗ rep ws x -∗
     cwp (f b (length pre))
       (λ r, <affine> ⌜r = Ok x⌝ ∗ b ↦[KNewArray] Words (pre ++ ws ++ post) ∗ rep ws x) nothrow) →
  Forall clean l → ∀ pre i, length pre = (i * size)%nat →
  b ↦[KNewArray] Words (pre ++ concat wss) -∗ ([∗ list] ws;x ∈ wss;l, rep ws x) -∗
  cwp (import_structs f size (Some b) i (length l))
    (λ r, <affine> ⌜r = Ok l⌝ ∗ b ↦[KNewArray] Words (pre ++ concat wss) ∗ [∗ list] ws;x ∈ wss;l, rep ws x) nothrow.
Proof.
  intros Hsize Hf Hc. revert l Hc. induction wss as [|ws wss IH]; intros [|x l] Hc pre i Hi; cbn; iIntros "Hb H";
    [by iApply cwp_ret; iFrame|done|done|].
  apply Forall_cons in Hc as [Hx Hc]. iDestruct "H" as "[Hx H]".
  rewrite {1}Hsize. iDestruct "Hx" as "[%Hw Hx]".
  iApply cwp_bind. iApply cwp_deref. rewrite -Hi. iApply (cwp_then with "[Hb Hx]"); [by iApply (Hf with "Hb Hx")|].
  iIntros (r) "(-> & Hb & Hx)". rewrite (assoc_L app). iApply (cwp_then with "[Hb H]").
  { iApply (IH with "Hb H"); [done|]. rewrite length_app. lia. }
  iIntros (r) "(-> & Hb & H)". iApply cwp_ret. cbn. by iFrame.
Qed.

(** The two words of the manifest that hold such an array, in front of the
    rest of the import. *)
Lemma import_array_in {A B} (f : nat → nat → CM (Result A)) (rep : list val → A → hProp) size (clean : A → Prop)
    p k pre post n1 n2 w1 w2 l (kont : Result (list A) → CM B) (Φ : B → hProp) :
  (∀ ws x, rep ws x ⊢ <affine> ⌜length ws = size⌝ ∗ rep ws x) →
  (∀ b x pre ws post, clean x →
     b ↦[KNewArray] Words (pre ++ ws ++ post) -∗ rep ws x -∗
     cwp (f b (length pre))
       (λ r, <affine> ⌜r = Ok x⌝ ∗ b ↦[KNewArray] Words (pre ++ ws ++ post) ∗ rep ws x) nothrow) →
  Forall clean l → n1 = length pre → n2 = S (length pre) →
  p ↦[k] Words (pre ++ [w1; w2] ++ post) -∗ structs_or_null rep w1 w2 l -∗
  (p ↦[k] Words (pre ++ [w1; w2] ++ post) -∗ structs_or_null rep w1 w2 l -∗ cwp (kont (Ok l)) Φ nothrow) -∗
  cwp (n ← load_int p n2; a ← load_ptr p n1; xs ← import_structs f size a 0 (Z.to_nat n); kont xs) Φ nothrow.
Proof.
  intros Hsize Hf Hc -> ->. iIntros "Hp H Hk". cbn [app].
  destruct (decide (l = [])) as [->|Hl].
  { iDestruct "H" as %[-> ->].
    iApply cwp_bind. iApply (load_int_in _ _ _ _ _ 1 with "Hp"); [lia|done|]. iIntros "Hp".
    iApply cwp_bind. iApply (load_ptr_in _ _ _ _ _ 0 _ None with "Hp"); [lia|done|done|]. iIntros "Hp".
    iApply cwp_bind. iApply cwp_ret. by iApply ("Hk" with "Hp"). }
  assert (structs_or_null rep w1 w2 l = (<affine> ⌜w2 = VInt (Z.of_nat (length l))⌝ ∗ structs rep w1 l)%I)
    as -> by (by destruct l).
  iDestruct "H" as "(-> & %wss & (%b & -> & Hb) & H)".
  iApply cwp_bind. iApply (load_int_in _ _ _ _ _ 1 with "Hp"); [lia|done|]. iIntros "Hp".
  iApply cwp_bind. iApply (load_ptr_in _ _ _ _ _ 0 _ (Some b) with "Hp"); [lia|done|done|]. iIntros "Hp".
  rewrite Nat2Z.id. iApply (cwp_then with "[Hb H]").
  { iApply (import_structs_spec f rep size clean b wss l Hsize (Hf b) Hc [] 0 with "Hb H"). done. }
  iIntros (r) "(-> & Hb & H)". iApply ("Hk" with "Hp"). iSplitR; [done|]. iExists wss. by iFrame.
Qed.

(** ** LOB files *)

Definition lob_clean (x : LobFileInfo) : Prop := no_nul (lob_path x).

Lemma import_lob_file_spec b x pre ws post :
  lob_clean x →
  b ↦[KNewArray] Words (pre ++ ws ++ post) -∗ lob_rep ws x -∗
  cwp (import_lob_file b (length pre))
    (λ r, <affine> ⌜r = Ok x⌝ ∗ b ↦[KNewArray] Words (pre ++ ws ++ post) ∗ lob_rep ws x) nothrow.
Proof.
  intros Hx. iIntros "Hb (%pv & -> & Hs)". cbn [app]. rewrite /import_lob_file.
  iDestruct (str_ptr with "Hs") as (pb) "[-> Hs]".
  iApply cwp_bind. iApply (load_ptr_in _ _ _ _ _ 0 _ (Some pb) with "Hb"); [lia|done|done|]. iIntros "Hb".
  iApply (cwp_then with "[Hs]"); [by iApply (read_str_spec with "Hs")|]. iIntros (path) "[-> Hs]".
  do 4 (iApply cwp_bind; iApply (cwp_load_int_at with "Hb"); [done|]; iIntros "Hb").
  iApply cwp_ret. iSplitR; [by destruct x|]. iFrame "Hb". iExists _. by iFrame.
Qed.

(** ** Indexes *)

Definition pairs_clean (m : gmap string string) : Prop := map_Forall (λ k v, no_nul k ∧ no_nul v) m.
Lemma pairs_clean_list m : pairs_clean m → Forall (λ kv, no_nul kv.1 ∧ no_nul kv.2) (map_to_list m).
Proof. intros H. apply Forall_lookup. intros i [k v] Hkv%list_elem_of_lookup_2%elem_of_map_to_list. apply (H k v Hkv). Qed.

Definition index_clean (x : Index) : Prop :=
  no_nul (column_name x) ∧ no_nul (index_name x) ∧ no_nul (index_type x) ∧ no_nul (idx_path x) ∧
  Forall no_nul (index_file_keys x) ∧ pairs_clean (idx_properties x).

(** One element of an array of strings, which is never null. *)
Lemma load_elem_spec b l j s (Φ : pointer → hProp) Ψ :
  l !! j = Some s →
  strs_at b l -∗ (∀ sb, (str (VPtr sb) s ∗ (str (VPtr sb) s -∗ strs_at b l)) -∗ Φ (Some sb)) -∗
  cwp (load_elem (Some b) j) Φ Ψ.
Proof.
  intros Hj. iIntros "(%vs & Hb & H) HΦ". iDestruct (big_sepL2_length with "H") as %Hl.
  destruct (lookup_lt_is_Some_2 vs j) as [v Hv]; [rewrite Hl; by eapply lookup_lt_Some|].
  iDestruct (big_sepL2_lookup_acc with "H") as "[Hs H]"; [done|done|].
  iDestruct (str_ptr with "Hs") as (sb) "[%Hsb Hs]". subst v.
  iApply cwp_bind. iApply cwp_deref. iApply (cwp_load_ptr with "Hb"); [done|by instantiate (1 := Some sb)|].
  iIntros "Hb". iApply "HΦ". iFrame "Hs". iIntros "Hs". iExists vs. iFrame "Hb". by iApply "H".
Qed.

Lemma import_file_keys_spec b l : Forall no_nul l →
  ∀ n i, (i + n)%nat = length l →
  strs_at b l -∗ cwp (import_file_keys (Some b) i n) (λ r, <affine> ⌜r = Ok (drop i l)⌝ ∗ strs_at b l) nothrow.
Proof.
  intros Hc n. induction n as [|n IH]; intros i Hi; cbn; iIntros "H".
  { iApply cwp_ret. rewrite drop_ge; [|lia]. by iFrame. }
  destruct (lookup_lt_is_Some_2 l i) as [s Hs]; [lia|].
  iApply cwp_bind. iApply (load_elem_spec with "H"); [done|]. iIntros (sb) "[Hs H]".
  iApply (cwp_then with "[Hs]"); [iApply (read_str_spec with "Hs"); [by eapply Forall_lookup_1|done]|].
  iIntros (r) "[-> Hs]". iDestruct ("H" with "Hs") as "H".
  iApply (cwp_then with "[H]"); [iApply (IH with "H"); lia|]. iIntros (r) "[-> H]". iApply cwp_ret. cbn.
  rewrite (drop_S _ _ _ Hs). by iFrame.
Qed.

(** Pairs inserted one after the other. *)
Definition insert_pairs (l : list (string * string)) (acc : gmap string string) : gmap string string :=
  foldl (λ m kv, <[kv.1 := kv.2]> m) acc l.

Lemma insert_pairs_map m : insert_pairs (map_to_list m) ∅ = m.
Proof.
  assert (∀ l acc, insert_pairs l acc = foldr (λ kv m, <[kv.1 := kv.2]> m) acc (reverse l)) as ->.
  { intros l. rewrite /insert_pairs. induction l as [|x l IH]; intros acc; [done|].
    rewrite reverse_cons foldr_app -IH. done. }
  apply (map_from_pairs m).
Qed.

Lemma import_index_props_spec kb vb l : Forall (λ kv, no_nul kv.1 ∧ no_nul kv.2) l →
  ∀ n i acc, (i + n)%nat = length l →
  strs_at kb l.*1 -∗ strs_at vb l.*2 -∗
  cwp (import_index_props (Some kb) (Some vb) i n acc)
    (λ r, <affine> ⌜r = Ok (insert_pairs (drop i l) acc)⌝ ∗ strs_at kb l.*1 ∗ strs_at vb l.*2) nothrow.
Proof.
  intros Hc n. induction n as [|n IH]; intros i acc Hi; cbn; iIntros "Hk Hv".
  { iApply cwp_ret. rewrite drop_ge; [|lia]. by iFrame. }
  destruct (lookup_lt_is_Some_2 l i) as [[k v] Hkv]; [lia|].
  destruct (proj1 (Forall_lookup _ _) Hc _ _ Hkv) as [Hkc Hvc]. cbn in Hkc, Hvc.
  iApply cwp_bind. iApply (load_elem_spec with "Hk"); [by rewrite list_lookup_fmap Hkv|]. iIntros (sk) "[Hsk Hk]".
  iApply cwp_bind. iApply (load_elem_spec with "Hv"); [by rewrite list_lookup_fmap Hkv|]. iIntros (sv) "[Hsv Hv]".
  iApply (cwp_then with "[Hsk]"); [iApply (read_str_spec with "Hsk"); [done|done]|].
  iIntros (r) "[-> Hsk]". iDestruct ("Hk" with "Hsk") as "Hk".
  iApply (cwp_then with "[Hsv]"); [iApply (read_str_spec with "Hsv"); [done|done]|].
  iIntros (r) "[-> Hsv]". iDestruct ("Hv" with "Hsv") as "Hv".
  iApply (cwp_wand with "[Hk Hv]"); [iApply (IH with "Hk Hv"); lia|]. iSplit; [|iIntros (e) "[]"].
  iIntros (r) "(-> & Hk & Hv)". rewrite (drop_S _ _ _ Hkv). by iFrame.
Qed.

(** The ten integers are read with one loop. *)
Lemma read_ints b k pre zs v1 v2 v3 v4 post :
  length zs = 10%nat →
  b ↦[k] Words (pre ++ v1 :: v2 :: v3 :: v4 :: (VInt <$> zs) ++ post) -∗
  cwp (collect_i (λ i, load_int b (length pre + ix_ints + i)) 0 10)
    (λ r, <affine> ⌜r = zs⌝ ∗ b ↦[k] Words (pre ++ v1 :: v2 :: v3 :: v4 :: (VInt <$> zs) ++ post)) nothrow.
Proof.
  intros Hl. rewrite -Hl. iApply cwp_collect_i. intros j z Hj. iIntros "Hb".
  iApply (load_int_in _ _ _ _ _ (4 + j) with "Hb"); [lia| |].
  - cbn. rewrite lookup_app_l ?list_lookup_fmap ?Hj //. rewrite length_fmap. by eapply lookup_lt_Some.
  - iIntros "Hb". by iFrame.
Qed.

Lemma strs_or_null_ptr v l : strs_or_null v l ⊢ ∃ p, <affine> ⌜v = vptr p ∧ (p = None ↔ l = [])⌝ ∗ strs_or_null v l.
Proof.
  destruct l as [|x l]; cbn [strs_or_null].
  - iIntros (->). iExists None. done.
  - iIntros "(%vs & (%b & -> & Hb) & H)". iExists (Some b). iSplitR; [done|]. iExists vs. by iFrame.
Qed.

Lemma import_keys_opt v p l :
  Forall no_nul l → v = vptr p → strs_or_null v l -∗
  cwp (import_file_keys p 0 (length l)) (λ r, <affine> ⌜r = Ok l⌝ ∗ strs_or_null v l) nothrow.
Proof.
  iIntros (Hc ->) "H". destruct l as [|x l].
  - iApply cwp_ret. by iFrame.
  - cbn [strs_or_null]. iDestruct (str_array_at with "H") as (b) "[%Hb H]". destruct p as [pb|]; cbn in Hb; simplify_eq.
    iApply (cwp_wand with "[H]"); [iApply (import_file_keys_spec b (x :: l) Hc with "H"); done|].
    iSplit; [|iIntros (e) "[]"]. iIntros (r) "[-> H]". iSplitR; [done|]. by iApply strs_at_array.
Qed.

Lemma import_props_opt kp vp l :
  Forall (λ kv, no_nul kv.1 ∧ no_nul kv.2) l →
  kv_rep (vptr kp) (vptr vp) l -∗
  cwp (import_index_props kp vp 0 (length l) ∅)
    (λ r, <affine> ⌜r = Ok (insert_pairs l ∅)⌝ ∗ kv_rep (vptr kp) (vptr vp) l) nothrow.
Proof.
  intros Hc. destruct l as [|x l]; cbn [kv_rep]; iIntros "H".
  - iApply cwp_ret. by iFrame.
  - iDestruct "H" as "[Hk Hv]". iDestruct (str_array_at with "Hk") as (kb) "[%Hk Hks]".
    iDestruct (str_array_at with "Hv") as (vb) "[%Hv Hvs]".
    destruct kp, vp; cbn in Hk, Hv; simplify_eq.
    iApply (cwp_wand with "[Hks Hvs]").
    { iApply (import_index_props_spec kb vb (x :: l) Hc (S (length l)) 0 ∅ with "Hks Hvs"). done. }
    iSplit; [|iIntros (e) "[]"]. iIntros (r) "(-> & Hk & Hv)". iSplitR; [done|].
    iSplitL "Hk"; by iApply strs_at_array.
Qed.

(** A pointer to properties is null exactly when there are none. *)
Lemma kv_ptrs_null kv vv l :
  kv_rep kv vv l ⊢ ∃ kp vp, <affine> ⌜kv = vptr kp ∧ vv = vptr vp ∧ (l ≠ [] → kp ≠ None ∧ vp ≠ None)⌝ ∗
    kv_rep (vptr kp) (vptr vp) l.
Proof.
  destruct l as [|x l]; cbn [kv_rep].
  - iIntros ([-> ->]). by iExists None, None.
  - iIntros "[(%ks & (%kb & -> & Hk) & Hks) (%vs & (%vb & -> & Hv) & Hvs)]". iExists (Some kb), (Some vb).
    iSplitR; [done|]. iSplitL "Hk Hks"; iExists _; by iFrame.
Qed.

(** The value of the next check for an early error return. *)
Ltac first_check v :=
  match goal with |- context [if ?c then mret (Err status_Invalid) else _] => assert (c = v) as -> end.

Lemma index_from_fields x :
  let z i := default 0%Z (index_ints x !! i) in
  mkIndex (column_name x) (index_name x) (index_type x) (idx_path x) (z 0%nat) (z 1%nat) (z 2%nat) (z 3%nat)
    (z 4%nat) (z 5%nat) (z 6%nat) (z 7%nat) (z 8%nat) (z 9%nat) (index_file_keys x) (idx_properties x) = x.
Proof. by destruct x. Qed.

Lemma import_index_spec b x pre ws post :
  index_clean x →
  b ↦[KNewArray] Words (pre ++ ws ++ post) -∗ index_rep ws x -∗
  cwp (import_index b (length pre))
    (λ r, <affine> ⌜r = Ok x⌝ ∗ b ↦[KNewArray] Words (pre ++ ws ++ post) ∗ index_rep ws x) nothrow.
Proof.
  intros (Hcn & Hin & Hty & Hpa & Hfk & Hpr).
  iIntros "Hb (%v1 & %v2 & %v3 & %v4 & %fv & %kv & %vv & -> & H1 & H2 & H3 & H4 & Hf & Hkv)".
  iDestruct (str_ptr with "H1") as (p1) "[-> H1]". iDestruct (str_ptr with "H2") as (p2) "[-> H2]".
  iDestruct (str_ptr with "H3") as (p3) "[-> H3]". iDestruct (str_ptr with "H4") as (p4) "[-> H4]".
  iDestruct (kv_ptrs_null with "Hkv") as (kp vp) "[%Hk Hkv]". destruct Hk as (-> & -> & Hkn).
  iDestruct (strs_or_null_ptr with "Hf") as (fp) "[%Hfp Hf]". destruct Hfp as [-> Hfn].
  rewrite -!(assoc_L app). cbn [app]. rewrite /import_index.
  iApply cwp_bind. iApply (load_ptr_in _ _ _ _ _ 0 _ (Some p1) with "Hb"); [lia|done|done|]. iIntros "Hb".
  iApply cwp_bind. iApply (load_ptr_in _ _ _ _ _ 2 _ (Some p3) with "Hb"); [lia|done|done|]. iIntros "Hb".
  iApply cwp_bind. iApply (load_ptr_in _ _ _ _ _ 3 _ (Some p4) with "Hb"); [lia|done|done|]. iIntros "Hb".
  iApply cwp_bind. iApply (load_int_in _ _ _ _ _ 18 with "Hb"); [lia|done|]. iIntros "Hb".
  iApply cwp_bind. iApply (load_ptr_in _ _ _ _ _ 16 _ kp with "Hb"); [lia|done|done|]. iIntros "Hb".
  iApply cwp_bind. iApply (load_ptr_in _ _ _ _ _ 17 _ vp with "Hb"); [lia|done|done|]. iIntros "Hb".
  first_check false.
  { destruct (decide (map_to_list (idx_properties x) = [])) as [->|Hne]; [done|]. destruct (Hkn Hne) as [? ?].
    rewrite !bool_decide_eq_false_2 // andb_false_r //. }
  iApply (cwp_then with "[H1]"); [by iApply (read_str_spec with "H1")|]. iIntros (r1) "[-> H1]".
  iApply cwp_bind. iApply (load_ptr_in _ _ _ _ _ 1 _ (Some p2) with "Hb"); [lia|done|done|]. iIntros "Hb".
  iApply (cwp_then with "[H2]"); [by iApply (read_str_spec with "H2")|]. iIntros (r2) "[-> H2]".
  iApply (cwp_then with "[H3]"); [by iApply (read_str_spec with "H3")|]. iIntros (r3) "[-> H3]".
  iApply (cwp_then with "[H4]"); [by iApply (read_str_spec with "H4")|]. iIntros (r4) "[-> H4]".
  iApply (cwp_then with "[Hb]"); [by iApply (read_ints _ _ _ (index_ints x) with "Hb")|]. iIntros (zs) "[-> Hb]".
  iApply cwp_bind. iApply (load_int_in _ _ _ _ _ 15 with "Hb"); [lia|done|]. iIntros "Hb".
  iApply cwp_bind. iApply (load_ptr_in _ _ _ _ _ 14 _ fp with "Hb"); [lia|done|done|]. iIntros "Hb".
  first_check false.
  { destruct (decide (index_file_keys x = [])) as [->|Hne]; [done|].
    rewrite bool_decide_eq_false_2 ?andb_false_r //. by intros ?%Hfn. }
  rewrite !Nat2Z.id. iApply (cwp_then with "[Hf]"); [by iApply (import_keys_opt with "Hf")|]. iIntros (fk) "[-> Hf]".
  iApply (cwp_then with "[Hkv]"); [iApply (import_props_opt with "Hkv"); by apply pairs_clean_list|].
  iIntros (pr) "[-> Hkv]". iApply cwp_ret. iSplitR.
  { iPureIntro. rewrite insert_pairs_map. cbn [mbind outcome_bind mret outcome_ret]. by rewrite index_from_fields. }
  iFrame "Hb". iExists _, _, _, _, _, _, _. by iFrame.
Qed.

(** ** Statistics *)

Definition stat_clean (ks : string * Statistics) : Prop :=
  no_nul ks.1 ∧ Forall no_nul (paths ks.2) ∧ pairs_clean (metadata ks.2).

(** The six arrays of the statistics. *)
Definition stats_arrays (kb fb cb mkb mvb mcb : nat) (rows : list stat_row) (l : list (string * Statistics)) : hProp :=
  kb ↦[KNewArray] Words (r_key <$> rows) ∗ fb ↦[KNewArray] Words (r_files <$> rows) ∗
  cb ↦[KNewArray] Words (file_count <$> l) ∗ mkb ↦[KNewArray] Words (r_meta_keys <$> rows) ∗
  mvb ↦[KNewArray] Words (r_meta_values <$> rows) ∗ mcb ↦[KNewArray] Words (meta_count <$> l).

Lemma stats_rep_open ws l :
  l ≠ [] →
  stats_rep ws l ⊢ ∃ kb fb cb mkb mvb mcb rows,
    <affine> ⌜ws = [VPtr kb; VPtr fb; VPtr cb; VPtr mkb; VPtr mvb; VPtr mcb; VInt (Z.of_nat (length l))]⌝ ∗
    stats_arrays kb fb cb mkb mvb mcb rows l ∗ [∗ list] r;ks ∈ rows;l, stat_rep r ks.
Proof.
  intros Hl. destruct l as [|x l]; [done|]. cbn [stats_rep].
  iIntros "(%kv & %fv & %cv & %mkv & %mvv & %mcv & %rows & -> & (%kb & -> & Hk) & (%fb & -> & Hf) &
    (%cb & -> & Hc) & (%mkb & -> & Hmk) & (%mvb & -> & Hmv) & (%mcb & -> & Hmc) & H)".
  iExists kb, fb, cb, mkb, mvb, mcb, rows. by iFrame.
Qed.

Lemma stats_rep_close kb fb cb mkb mvb mcb rows l :
  l ≠ [] →
  stats_arrays kb fb cb mkb mvb mcb rows l -∗ ([∗ list] r;ks ∈ rows;l, stat_rep r ks) -∗
  stats_rep [VPtr kb; VPtr fb; VPtr cb; VPtr mkb; VPtr mvb; VPtr mcb; VInt (Z.of_nat (length l))] l.
Proof.
  intros Hl. destruct l as [|x l]; [done|]. cbn [stats_rep].
  iIntros "(Hk & Hf & Hc & Hmk & Hmv & Hmc) H". iExists _, _, _, _, _, _, rows. by iFrame.
Qed.

Lemma import_paths_spec fb (vs : list val) ab i l :
  vs !! i = Some (VPtr ab) → Forall no_nul l →
  fb ↦[KNewArray] Words vs ∗ strs_at ab l -∗
  cwp (collect_i (λ j, fp ← load_elem (Some fb) i; load_str fp j) 0 (length l))
    (λ r, <affine> ⌜r = l⌝ ∗ fb ↦[KNewArray] Words vs ∗ strs_at ab l) nothrow.
Proof.
  intros Hi Hc. iApply cwp_collect_i. intros j s Hj. iIntros "[Hf Ha]". rewrite /load_elem.
  iApply cwp_bind. iApply cwp_bind. iApply cwp_deref.
  iApply (cwp_load_ptr with "Hf"); [done|by instantiate (1 := Some ab)|]. iIntros "Hf".
  iApply (cwp_wand with "[Ha]"); [iApply (load_str_spec with "Ha"); [done|by eapply Forall_lookup_1]|].
  iSplit; [|iIntros (e) "[]"]. iIntros (r) "[-> Ha]". by iFrame.
Qed.

Lemma import_meta_spec kb vb mvb (vs : list val) i l :
  vs !! i = Some (VPtr vb) → Forall (λ kv, no_nul kv.1 ∧ no_nul kv.2) l →
  mvb ↦[KNewArray] Words vs ∗ strs_at kb l.*1 ∗ strs_at vb l.*2 -∗
  cwp (fold_i (λ j meta,
        k ← load_str (Some kb) j;
        mv ← load_elem (Some mvb) i;
        v ← load_str mv j;
        mret (<[k := v]> meta)) 0 (length l) ∅)
    (λ m, <affine> ⌜m = list_to_map (M := gmap string string) (reverse l)⌝ ∗
       mvb ↦[KNewArray] Words vs ∗ strs_at kb l.*1 ∗ strs_at vb l.*2) nothrow.
Proof.
  intros Hi Hl. pose (I := λ j (m : gmap string string),
    (<affine> ⌜m = list_to_map (reverse (take j l))⌝ ∗ mvb ↦[KNewArray] Words vs ∗
     strs_at kb l.*1 ∗ strs_at vb l.*2)%I : hProp).
  iIntros "H". iApply (cwp_mono _ _ (I (length l)) _ nothrow).
  { intros m. rewrite /I take_ge //. } { done. }
  iApply (cwp_fold_i true _ I); [|rewrite /I take_0; by iFrame].
  intros j m Hj. destruct (lookup_lt_is_Some_2 l j Hj) as [[k v] Hkv].
  destruct (proj1 (Forall_lookup _ _) Hl _ _ Hkv) as [Hk Hv]. cbn in Hk, Hv.
  rewrite /I. iIntros "(-> & Hmv & Hks & Hvs)".
  iApply (cwp_then with "[Hks]").
  { iApply (load_str_spec with "Hks"); [|exact Hk]. by rewrite list_lookup_fmap Hkv. }
  iIntros (k') "[-> Hks]". rewrite /load_elem. iApply cwp_bind. iApply cwp_bind. iApply cwp_deref.
  iApply (cwp_load_ptr with "Hmv"); [done|by instantiate (1 := Some vb)|]. iIntros "Hmv".
  iApply (cwp_then with "[Hvs]").
  { iApply (load_str_spec with "Hvs"); [|exact Hv]. by rewrite list_lookup_fmap Hkv. }
  iIntros (v') "[-> Hvs]". iApply cwp_ret. iFrame. iPureIntro.
  by rewrite (take_S_r _ _ _ Hkv) reverse_app /=.
Qed.

Lemma import_stat_spec kb fb cb mkb mvb mcb rows l i r ks :
  rows !! i = Some r → l !! i = Some ks → stat_clean ks →
  stats_arrays kb fb cb mkb mvb mcb rows l -∗ stat_rep r ks -∗
  cwp (import_stat (Some kb) (Some fb) (Some cb) (Some mkb) (Some mvb) (Some mcb) i)
    (λ x, <affine> ⌜x = ks⌝ ∗ stats_arrays kb fb cb mkb mvb mcb rows l ∗ stat_rep r ks) nothrow.
Proof.
  intros Hr Hks (Hkey & Hpaths & Hmeta). iIntros "(Hk & Hf & Hc & Hmk & Hmv & Hmc) (Hkey & Hp & Hm)".
  assert (∀ f : stat_row → val, (f <$> rows) !! i = Some (f r)) as Hrow.
  { intros f. by rewrite list_lookup_fmap Hr. }
  iDestruct (str_ptr with "Hkey") as (sb) "[%Hsb Hkey]". iDestruct (str_array_at with "Hp") as (ab) "[%Hab Hp]".
  iDestruct (kv_ptrs with "Hm") as (kp vp) "[%Hkv Hm]". destruct Hkv as [Hmk Hmv].
  rewrite /import_stat /load_count. iApply cwp_bind. rewrite /load_str. iApply cwp_bind. iApply cwp_deref.
  iApply cwp_bind. iApply (cwp_load_ptr _ _ _ _ _ _ (Some sb) with "Hk"); [apply Hrow|done|]. iIntros "Hk".
  iApply (cwp_wand with "[Hkey]"); [by iApply (read_str_spec with "Hkey")|]. iSplit; [|iIntros (e) "[]"].
  iIntros (key) "[-> Hkey]". iApply cwp_bind. iApply cwp_bind. iApply cwp_deref.
  iApply (cwp_load_int with "Hc"); [by rewrite list_lookup_fmap Hks|]. iIntros "Hc". rewrite Nat2Z.id.
  iApply (cwp_then with "[Hf Hp]").
  { iApply (import_paths_spec with "[$Hf $Hp]"); [by rewrite Hrow Hab|done]. }
  iIntros (ps) "(-> & Hf & Hp)".
  iApply (cwp_then _ _ _ (λ meta, <affine> ⌜meta = metadata ks.2⌝ ∗ mkb ↦[KNewArray] Words (r_meta_keys <$> rows) ∗
    mvb ↦[KNewArray] Words (r_meta_values <$> rows) ∗ mcb ↦[KNewArray] Words (meta_count <$> l) ∗
    kv_rep (vptr kp) (vptr vp) (meta_list ks.2))%I with "[Hmk Hmv Hmc Hm]").
  { iApply cwp_bind. iApply (cwp_load_ptr _ _ _ _ _ _ kp with "Hmk"); [apply Hrow|done|]. iIntros "Hmk".
    destruct (decide (meta_list ks.2 = [])) as [Hnil|Hne].
    - rewrite Hnil. iDestruct "Hm" as %[Hkn Hvn]. destruct kp; [done|]. iApply cwp_ret. iFrame.
      iPureIntro. split; [|done]. symmetry. by apply map_to_list_empty_iff.
    - iAssert (str_array (vptr kp) (meta_list ks.2).*1 ∗ str_array (vptr vp) (meta_list ks.2).*2)%I with "[Hm]" as "[Ha Hb]".
      { by destruct (meta_list ks.2). }
      iDestruct (str_array_at with "Ha") as (mb) "[%Hmb Ha]". iDestruct (str_array_at with "Hb") as (wb) "[%Hwb Hb]".
      destruct kp as [kp|]; cbn in Hmb; simplify_eq. destruct vp as [vp|]; cbn in Hwb; simplify_eq.
      iApply cwp_bind. iApply cwp_bind. iApply cwp_deref.
      iApply (cwp_load_int with "Hmc"); [by rewrite list_lookup_fmap Hks|]. iIntros "Hmc". rewrite Nat2Z.id.
      iApply (cwp_wand with "[Hmv Ha Hb]").
      { iApply (import_meta_spec with "[$Hmv $Ha $Hb]"); [by rewrite Hrow Hmv|by apply pairs_clean_list]. }
      iSplit; [|iIntros (e) "[]"]. iIntros (m) "(-> & Hmv & Ha & Hb)". iFrame. iSplitR.
      { iPureIntro. apply map_from_pairs. }
      rewrite !strs_at_array. destruct (meta_list ks.2); [done|]. iFrame. }
  iIntros (meta) "(-> & Hmk & Hmv & Hmc & Hm)". iApply cwp_ret. iSplitR; [by destruct ks as [? []]|].
  iFrame "Hk Hf Hc Hmk Hmv Hmc Hkey". rewrite Hab Hmk Hmv. iFrame "Hm". by iApply strs_at_array.
Qed.

Lemma import_stats_spec b k pre ws post (stats : gmap string Statistics) :
  length pre = 5%nat → Forall stat_clean (map_to_list stats) →
  b ↦[k] Words (pre ++ ws ++ post) -∗ stats_rep ws (map_to_list stats) -∗
  cwp (import_stats b) (λ r, <affine> ⌜r = stats⌝ ∗ b ↦[k] Words (pre ++ ws ++ post) ∗
    stats_rep ws (map_to_list stats)) nothrow.
Proof.
  intros Hpre Hc. iIntros "Hb H". rewrite /import_stats.
  destruct (decide (map_to_list stats = [])) as [Hnil|Hne].
  { rewrite Hnil. iDestruct "H" as %->. cbn [app].
    iApply cwp_bind. iApply (load_int_in _ _ _ _ _ 6 with "Hb"); [lia|done|]. iIntros "Hb".
    do 6 (iApply cwp_bind; iApply (load_ptr_in _ _ _ _ _ _ _ None with "Hb"); [rewrite Hpre; reflexivity|done|done|]; iIntros "Hb").
    iApply cwp_ret. iFrame. iPureIntro. split; [|done]. symmetry. by apply map_to_list_empty_iff. }
  iDestruct (stats_rep_open with "H") as (kb fb cb mkb mvb mcb rows) "(-> & Ha & H)"; [done|]. cbn [app].
  iApply cwp_bind. iApply (load_int_in _ _ _ _ _ 6 with "Hb"); [lia|done|]. iIntros "Hb".
  do 6 (iApply cwp_bind; iApply (load_ptr_in _ _ _ _ _ _ _ (Some _) with "Hb"); [rewrite Hpre; reflexivity|done|done|]; iIntros "Hb").
  rewrite Nat2Z.id. set (l := map_to_list stats) in *.
  pose (I := λ j (acc : gmap string Statistics), (<affine> ⌜acc = list_to_map (reverse (take j l))⌝ ∗
    stats_arrays kb fb cb mkb mvb mcb rows l ∗ [∗ list] r;ks ∈ rows;l, stat_rep r ks)%I : hProp).
  iApply (cwp_wand true _ (I (length l)) nothrow with "[Ha H]").
  { iApply (cwp_fold_i true _ I); [|rewrite /I take_0; by iFrame].
    intros j acc Hj. destruct (lookup_lt_is_Some_2 l j Hj) as [ks Hks]. rewrite /I. iIntros "(-> & Ha & H)".
    iDestruct (big_sepL2_length with "H") as %Hl.
    destruct (lookup_lt_is_Some_2 rows j) as [r Hr]; [lia|].
    iDestruct (big_sepL2_lookup_acc with "H") as "[Hs H]"; [done|done|]. cbn [Nat.add].
    iApply (cwp_then with "[Ha Hs]").
    { iApply (import_stat_spec with "Ha Hs"); [done|done|by eapply (Forall_lookup_1 _ _ _ _ Hc)]. }
    iIntros (x) "(-> & Ha & Hs)". iApply cwp_ret. iFrame "Ha". iSplitR; [|by iApply "H"].
    iPureIntro. by rewrite (take_S_r _ _ _ Hks) reverse_app /=. }
  iSplit; [|iIntros (e) "[]"]. iIntros (acc) "(-> & Ha & H)". rewrite take_ge; [|done]. iFrame "Hb".
  iSplitR.
  { iPureIntro. etransitivity; [|apply (list_to_map_to_list stats)]. apply list_to_map_proper; [|by rewrite reverse_Permutation].
    rewrite reverse_Permutation. apply NoDup_fst_map_to_list. }
  by iApply (stats_rep_close with "Ha H").
Qed.

(** ** The whole manifest *)

Definition manifest_rep (ws : list val) (gs : list ColumnGroup) (m : Manifest ColumnGroup) : hProp :=
  ∃ g w2 w3 w4 s w12 w13 w14 w15,
    <affine> ⌜ws = g ++ [w2; w3; w4] ++ s ++ [w12; w13; w14; w15]⌝ ∗
    groups_rep g gs ∗ deltas_rep w2 w3 w4 (pk_logs (delta_logs_ m)) ∗
    stats_rep s (map_to_list (stats_ m)) ∗ structs_or_null lob_rep w12 w13 (lob_files_ m) ∗
    structs_or_null index_rep w14 w15 (indexes_ m).

Definition manifest_fits (gs : list ColumnGroup) (m : Manifest ColumnGroup) : Prop :=
  groups_fit gs ∧ fits_u32 (length (pk_logs (delta_logs_ m))) ∧
  fits_u32 (length (map_to_list (stats_ m))) ∧ Forall stat_fits (map_to_list (stats_ m)) ∧
  fits_u32 (length (lob_files_ m)) ∧ fits_u32 (length (indexes_ m)) ∧ Forall index_fits (indexes_ m).
Definition manifest_clean (gs : list ColumnGroup) (m : Manifest ColumnGroup) : Prop :=
  Forall group_clean gs ∧ Forall delta_clean (pk_logs (delta_logs_ m)) ∧
  Forall stat_clean (map_to_list (stats_ m)) ∧ Forall lob_clean (lob_files_ m) ∧ Forall index_clean (indexes_ m).

(** What crosses the interface. *)
Definition ffi_view (gs : list ColumnGroup) (m : Manifest ColumnGroup) : Manifest ColumnGroup :=
  mkManifest MANIFEST_VERSION (Some <$> gs) (ffi_log <$> pk_logs (delta_logs_ m)) (stats_ m) (indexes_ m) (lob_files_ m).

Lemma stats_rep_size ws l : stats_rep ws l ⊢ <affine> ⌜length ws = 7%nat⌝ ∗ stats_rep ws l.
Proof.
  destruct l as [|x l]; cbn [stats_rep].
  - iIntros (->). done.
  - iIntros "(%kv & %fv & %cv & %mkv & %mvv & %mcv & %rows & -> & H)". iSplitR; [done|].
    iExists kv, fv, cv, mkv, mvv, mcv, rows. by iFrame.
Qed.
Lemma groups_rep_size ws l : groups_rep ws l ⊢ <affine> ⌜length ws = 2%nat⌝ ∗ groups_rep ws l.
Proof. iIntros "(%av & -> & H)". iSplitR; [done|]. iExists av. by iFrame. Qed.

Lemma manifest_export_spec gs m kd out v rest :
  column_groups_ m = Some <$> gs → manifest_fits gs m →
  out ↦[kd] Words (v :: rest) -∗
  cwp (manifest_export m out)
    (λ r, <affine> ⌜r = Ok tt⌝ ∗ ∃ p ws, out ↦[kd] Words (VPtr p :: rest) ∗ p ↦[KNew] Words ws ∗ manifest_rep ws gs m)
    nothrow.
Proof.
  intros Hgs (Hg & Hd & Hs & Hsf & Hl & Hi & Hif). iIntros "Ho". rewrite /manifest_export. iApply cwp_try.
  iApply new_true. iIntros (p) "Hp". iApply cwp_bind. iApply (cwp_store with "Ho"); [cbn; lia|]. iIntros "Ho".
  rewrite Hgs. iApply (seq_true with "[Hp]").
  { iApply (column_groups_export_internal_spec true gs p KNew [] VNull (VInt 0)
      [VNull; VNull; VInt 0; VNull; VNull; VNull; VNull; VNull; VNull; VInt 0; VNull; VInt 0; VNull; VInt 0] Hg with "Hp"). }
  iIntros (st) "(-> & %g & Hp & Hg)". iDestruct (groups_rep_size with "Hg") as "[%Hgl Hg]". cbn [app].
  iApply (cwp_then with "[Hp]").
  { by iApply (export_delta_logs_spec p g (VNull :: VNull :: VNull :: VNull :: VNull :: VNull :: VInt 0 ::
      VNull :: VInt 0 :: VNull :: VInt 0 :: []) with "Hp"). }
  iIntros (_) "(%w2 & %w3 & %w4 & Hp & Hd)".
  rewrite (assoc_L app g). iApply (cwp_then with "[Hp]").
  { iApply (export_stats_spec p (g ++ [w2; w3; w4]) [VNull; VInt 0; VNull; VInt 0] with "Hp"); [|done|done].
    rewrite length_app Hgl //. }
  iIntros (_) "(%s & Hp & Hs)". iDestruct (stats_rep_size with "Hs") as "[%Hsl Hs]".
  rewrite (assoc_L app _ s). iApply (cwp_then with "[Hp]").
  { iApply (export_lob_files_spec p ((g ++ [w2; w3; w4]) ++ s) [VNull; VInt 0] with "Hp"); [|done].
    rewrite !length_app Hgl Hsl //. }
  iIntros (_) "(%w12 & %w13 & Hp & Hl)". rewrite (assoc_L app _ [w12; w13]). iApply (cwp_then with "[Hp]").
  { iApply (export_indexes_spec p (((g ++ [w2; w3; w4]) ++ s) ++ [w12; w13]) [] with "[Hp]"); [|done|done|done].
    rewrite !length_app Hgl Hsl //. }
  iIntros (_) "(%w14 & %w15 & Hp & Hi)". iApply cwp_ret. iSplitR; [done|]. iExists p, _. iFrame "Ho Hp".
  iExists g, w2, w3, w4, s, w12, w13, w14, w15. iFrame. by rewrite -!(assoc_L app).
Qed.
End manifest.
