(* ===== verification/FfiManifestRuns.v ===== *)
(** * A manifest through the C interface and back

    The import of a whole manifest, its destruction, and the theorem about a
    C caller that exports, imports and frees a manifest. *)

From S2P Require Import Prelude CppString Status ColumnGroups Manifest CHeap CHeapLogic FfiBridge FfiBridgeRep FfiBridgeCorrect FfiBuilder FfiBridgeRuns FfiManifest FfiManifestRep FfiManifestCorrect.

Section manifest_runs.
Abbreviation cwp := (cwp true).
Abbreviation nothrow := (λ _ : exn, False%I : hProp).

Lemma manifest_import_spec b k ws gs m :
  manifest_clean gs m →
  b ↦[k] Words ws -∗ manifest_rep ws gs m -∗
  cwp (manifest_import b)
    (λ r, <affine> ⌜r = Ok (ffi_view gs m)⌝ ∗ b ↦[k] Words ws ∗ manifest_rep ws gs m) nothrow.
Proof.
  intros (Hg & Hd & Hs & Hl & Hi).
  iIntros "Hb (%g & %w2 & %w3 & %w4 & %s & %w12 & %w13 & %w14 & %w15 & -> & Hg & Hd & Hs & Hl & Hi)".
  iDestruct (stats_rep_size with "Hs") as "[%Hsl Hs]".
  iDestruct "Hg" as (av) "(-> & %wss & (%ab & -> & Ha) & Hgs)". rewrite /manifest_import. cbn [app].
  iApply cwp_bind. iApply (cwp_load_int with "Hb"); [done|]. iIntros "Hb".
  iApply cwp_bind. iApply (cwp_load_ptr _ _ _ _ _ _ (Some ab) with "Hb"); [done|done|]. iIntros "Hb".
  rewrite /import_groups Nat2Z.id. iApply (cwp_then with "[Ha Hgs]").
  { iApply (collect_structs true group_rep sizeof_group group_clean import_column_group ab wss gs
      group_rep_size with "[$Ha $Hgs]"); [|done]. intros. by apply import_column_group_spec. }
  iIntros (r) "(-> & Ha & Hgs)".
  set (g := [VPtr ab; VInt (Z.of_nat (length gs))]).
  iApply (cwp_then with "[Hb Hd]").
  { by iApply (import_delta_logs_spec b k g (s ++ [w12; w13; w14; w15]) with "Hb Hd"). }
  iIntros (ds) "(-> & Hb & Hd)". rewrite (assoc_L app g). iApply (cwp_then with "[Hb Hs]").
  { by iApply (import_stats_spec b k (g ++ [w2; w3; w4]) s [w12; w13; w14; w15] with "Hb Hs"). }
  iIntros (ss) "(-> & Hb & Hs)". rewrite (assoc_L app _ s). set (pre := (g ++ [w2; w3; w4]) ++ s).
  assert (length pre = 12%nat) as Hpre by (rewrite /pre !length_app Hsl //).
  change (pre ++ [w12; w13; w14; w15]) with (pre ++ [w12; w13] ++ [w14; w15]). rewrite (assoc_L app pre).
  iApply (import_array_in import_index index_rep sizeof_index index_clean _ _ (pre ++ [w12; w13]) []
    with "[Hb] Hi"); [apply index_rep_size| |done|by rewrite length_app Hpre|by rewrite length_app Hpre|done|].
  { intros. by apply import_index_spec. }
  iIntros "Hb Hi". rewrite -(assoc_L app pre). 
  iApply (import_array_in import_lob_file lob_rep sizeof_lob lob_clean _ _ pre [w14; w15]
    with "Hb Hl"); [apply lob_rep_size| |done|done|by rewrite Hpre|].
  { intros. by apply import_lob_file_spec. }
  iIntros "Hb Hl". iApply cwp_ret. iSplitR; [done|].
  iSplitL "Hb"; [by rewrite /pre -!(assoc_L app)|].
  iExists g, w2, w3, w4, s, w12, w13, w14, w15. iSplitR; [done|]. iFrame "Hd Hs Hl Hi".
  iExists (VPtr ab). iSplitR; [done|]. iExists wss. by iFrame.
Qed.

(** ** Destruction *)

(** An array without strings of its own. *)
Lemma free_array_field b k pre ws n i v c (Φ : unit → hProp) Ψ :
  n = (length pre + i)%nat → ws !! i = Some v →
  b ↦[k] Words (pre ++ ws) -∗ (∃ fb, <affine> ⌜v = VPtr fb⌝ ∗ fb ↦[KNewArray] c) -∗
  (b ↦[k] Words (pre ++ <[i := VNull]> ws) -∗ Φ tt) -∗ cwp (free_field b n) Φ Ψ.
Proof.
  iIntros (Hn Hv) "Hb (%fb & -> & Hf) HΦ". rewrite /free_field.
  iApply cwp_bind. iApply (load_ptr_in _ _ _ _ _ i _ (Some fb) with "Hb"); [done|done|done|]. iIntros "Hb".
  iApply cwp_bind. iApply (cwp_release with "Hf").
  iApply (store_in with "Hb"); [done|by eapply lookup_lt_Some|done|]. done.
Qed.
Lemma free_null_field b k pre ws n i (Φ : unit → hProp) Ψ :
  n = (length pre + i)%nat → ws !! i = Some VNull →
  b ↦[k] Words (pre ++ ws) -∗ (b ↦[k] Words (pre ++ ws) -∗ Φ tt) -∗ cwp (free_field b n) Φ Ψ.
Proof.
  iIntros (Hn Hv) "Hb HΦ". rewrite /free_field.
  iApply cwp_bind. iApply (load_ptr_in _ _ _ _ _ i _ None with "Hb"); [done|done|done|]. iIntros "Hb".
  iApply cwp_ret. by iApply "HΦ".
Qed.

(** An array of strings in a field, freed with its strings. *)
Lemma free_str_array b l n :
  n = Z.of_nat (length l) →
  strs_at b l -∗ cwp (free_strings b n) (λ _, ∃ vs, b ↦[KNewArray] Words vs) nothrow.
Proof.
  iIntros (->) "(%vs & Hb & H)". iDestruct (strs_opts with "H") as "[%Hl H]". rewrite -Hl.
  iApply (cwp_wand with "[Hb H]"); [iApply (free_strings_spec with "Hb H")|].
  iSplit; [|iIntros (e) "[]"]. iIntros (_) "Hb". by iExists vs.
Qed.

Lemma destroy_delta_logs_spec b k pre post w2 w3 w4 ds :
  length pre = 2%nat →
  b ↦[k] Words (pre ++ [w2; w3; w4] ++ post) -∗ deltas_rep w2 w3 w4 ds -∗
  cwp (destroy_delta_logs b)
    (λ _, ∃ ws, <affine> ⌜length ws = 3%nat⌝ ∗ b ↦[k] Words (pre ++ ws ++ post)) nothrow.
Proof.
  intros Hpre. iIntros "Hb H". cbn [app]. rewrite /destroy_delta_logs. iApply cwp_bind.
  destruct (decide (ds = [])) as [->|Hne].
  - iDestruct "H" as %(-> & -> & ->).
    iApply (load_ptr_in _ _ _ _ _ 0 _ None with "Hb"); [lia|done|done|]. iIntros "Hb".
    iApply cwp_bind. iApply cwp_ret.
    iApply cwp_bind. iApply (free_null_field _ _ _ _ _ 1 with "Hb"); [lia|done|]. iIntros "Hb".
    iApply (store_in _ _ _ _ _ _ 2 with "Hb"); [lia|cbn; lia|done|]. iIntros "Hb". by iExists [_; _; _]; iFrame.
  - assert (deltas_rep w2 w3 w4 ds = (<affine> ⌜w4 = VInt (Z.of_nat (length ds))⌝ ∗
      str_array w2 (dl_path <$> ds) ∗ array w3 (entry_word <$> ds))%I) as -> by (by destruct ds).
    iDestruct "H" as "(-> & Hp & He)". iDestruct (str_array_at with "Hp") as (pb) "[-> Hp]".
    iApply (load_ptr_in _ _ _ _ _ 0 _ (Some pb) with "Hb"); [lia|done|done|]. iIntros "Hb".
    iApply cwp_bind. iApply cwp_bind. iApply (load_int_in _ _ _ _ _ 2 with "Hb"); [lia|done|]. iIntros "Hb".
    iApply (cwp_then with "[Hp]"); [iApply (free_str_array with "Hp"); by rewrite length_fmap|].
    iIntros (_) "(%vs & Hp)". iApply cwp_bind. iApply (cwp_release with "Hp").
    iApply (store_in _ _ _ _ _ _ 0 with "Hb"); [lia|cbn; lia|done|]. iIntros "Hb". cbn [insert list_insert].
    iApply cwp_bind. iApply (free_array_field _ _ _ _ _ 1 with "Hb He"); [lia|done|]. iIntros "Hb".
    iApply (store_in _ _ _ _ _ _ 2 with "Hb"); [lia|cbn; lia|done|]. iIntros "Hb". by iExists [_; _; _]; iFrame.
Qed.

(** An array of strings that may be missing, and the arrays of them that the
    statistics hold. *)
Definition inner (v : val) (l : list string) : hProp := <affine> ⌜v = VNull⌝ ∨ str_array v l.

Lemma free_string_arrays_spec ab cb vs cs (ls : list (list string)) :
  (∀ j x, ls !! j = Some x → cs !! j = Some (VInt (Z.of_nat (length x)))) →
  ab ↦[KNewArray] Words vs -∗ cb ↦[KNewArray] Words cs -∗ ([∗ list] v;l ∈ vs;ls, inner v l) -∗
  cwp (free_string_arrays ab (Some cb) (Z.of_nat (length ls)))
    (λ _, ab ↦[KNewArray] Words vs ∗ cb ↦[KNewArray] Words cs) nothrow.
Proof.
  intros Hcs. iIntros "Ha Hc H". iDestruct (big_sepL2_length with "H") as %Hl.
  rewrite /free_string_arrays Nat2Z.id.
  pose (I := λ j, (ab ↦[KNewArray] Words vs ∗ cb ↦[KNewArray] Words cs ∗
    [∗ list] v;l ∈ drop j vs;drop j ls, inner v l)%I : hProp).
  iApply (cwp_wand true _ (λ _, I (length ls)) nothrow with "[Ha Hc H]").
  { iApply (cwp_repeat_i true _ I); [|rewrite /I !drop_0; iFrame].
    intros j Hj. destruct (lookup_lt_is_Some_2 ls j Hj) as [x Hx].
    destruct (lookup_lt_is_Some_2 vs j) as [v Hv]; [lia|].
    rewrite /I (drop_S _ _ _ Hx) (drop_S _ _ _ Hv) /=. iIntros "(Ha & Hc & Hv & H)".
    iApply cwp_bind. iDestruct "Hv" as "[%Hn|Hv]".
    - iApply (cwp_load_ptr _ _ _ _ _ _ None with "Ha"); [done|done|]. iIntros "Ha". iApply cwp_ret. iFrame.
    - iDestruct (str_array_at with "Hv") as (ib) "[%Hib Hv]".
      iApply (cwp_load_ptr _ _ _ _ _ _ (Some ib) with "Ha"); [done|done|]. iIntros "Ha". cbn.
      iApply cwp_bind. iApply cwp_deref. iApply cwp_bind.
      iApply (cwp_load_int with "Hc"); [by apply Hcs|]. iIntros "Hc".
      iApply (cwp_then with "[Hv]"); [by iApply (free_str_array with "Hv")|]. iIntros (_) "(%ws & Hv)".
      iApply (cwp_release with "Hv"). iFrame. }
  iSplit; [|iIntros (e) "[]"]. iIntros (_) "($ & $ & H)". rewrite !drop_ge //; lia.
Qed.

Lemma destroy_stat_arrays_in b k pre ws o oc i ic ab cb vs cs ls (Φ : unit → hProp) Ψ :
  length pre = 5%nat → o = (length pre + i)%nat → oc = (length pre + ic)%nat →
  ws !! i = Some (VPtr ab) → ws !! ic = Some (VPtr cb) → ws !! 6%nat = Some (VInt (Z.of_nat (length ls))) →
  (∀ j x, ls !! j = Some x → cs !! j = Some (VInt (Z.of_nat (length x)))) →
  b ↦[k] Words (pre ++ ws) -∗ ab ↦[KNewArray] Words vs -∗ cb ↦[KNewArray] Words cs -∗
  ([∗ list] v;l ∈ vs;ls, inner v l) -∗
  (b ↦[k] Words (pre ++ <[i := VNull]> ws) -∗ cb ↦[KNewArray] Words cs -∗ Φ tt) -∗
  cwp (destroy_stat_arrays b o oc) Φ Ψ.
Proof.
  intros Hpre -> -> Hi Hic Hn Hcs. iIntros "Hb Ha Hc H HΦ". rewrite /destroy_stat_arrays.
  iApply cwp_bind. iApply (load_ptr_in _ _ _ _ _ i _ (Some ab) with "Hb"); [done|done|done|]. iIntros "Hb". cbn.
  iApply cwp_bind. iApply (load_int_in _ _ _ _ _ 6 with "Hb"); [by rewrite Hpre|done|]. iIntros "Hb".
  iApply cwp_bind. iApply (load_ptr_in _ _ _ _ _ ic _ (Some cb) with "Hb"); [done|done|done|]. iIntros "Hb".
  iApply (cwp_then with "[Ha Hc H]"); [by iApply (free_string_arrays_spec with "Ha Hc H")|].
  iIntros (_) "[Ha Hc]". iApply cwp_bind. iApply (cwp_release with "Ha").
  iApply (store_in with "Hb"); [done|by eapply lookup_lt_Some|done|]. iIntros "Hb". iApply ("HΦ" with "Hb Hc").
Qed.

Lemma kv_rep_inner k v l : kv_rep k v l ⊢ inner k l.*1 ∗ inner v l.*2.
Proof.
  destruct l as [|x l]; cbn [kv_rep].
  - iIntros ([-> ->]). iSplitL; by iLeft.
  - iIntros "[Hk Hv]". iSplitL "Hk"; by iRight.
Qed.

Lemma stat_rows_split rows l :
  ([∗ list] r;ks ∈ rows;l, stat_rep r ks) ⊢
    strs (r_key <$> rows) l.*1 ∗
    ([∗ list] v;x ∈ r_files <$> rows;(λ ks, paths ks.2) <$> l, inner v x) ∗
    ([∗ list] v;x ∈ r_meta_keys <$> rows;(λ ks, (meta_list ks.2).*1) <$> l, inner v x) ∗
    ([∗ list] v;x ∈ r_meta_values <$> rows;(λ ks, (meta_list ks.2).*2) <$> l, inner v x).
Proof.
  rewrite /strs. revert l. induction rows as [|r rows IH]; intros [|ks l]; cbn; iIntros "H"; [by auto|done|done|].
  iDestruct "H" as "[(Hk & Hf & Hm) H]". iDestruct (IH with "H") as "($ & $ & $ & $)".
  iFrame "Hk". iSplitL "Hf"; [by iRight|]. by iApply kv_rep_inner.
Qed.

Lemma destroy_stats_spec b k pre ws post l :
  length pre = 5%nat →
  b ↦[k] Words (pre ++ ws ++ post) -∗ stats_rep ws l -∗
  cwp (destroy_stats b) (λ _, ∃ ws, <affine> ⌜length ws = 7%nat⌝ ∗ b ↦[k] Words (pre ++ ws ++ post)) nothrow.
Proof.
  intros Hpre. iIntros "Hb H". rewrite /destroy_stats.
  destruct (decide (l = [])) as [->|Hne].
  { iDestruct "H" as %->. cbn [app].
    iApply cwp_bind. iApply (load_ptr_in _ _ _ _ _ 0 _ None with "Hb"); [lia|done|done|]. iIntros "Hb".
    iApply cwp_bind. iApply cwp_ret. rewrite /destroy_stat_arrays.
    iApply cwp_bind. iApply cwp_bind. iApply (load_ptr_in _ _ _ _ _ 1 _ None with "Hb"); [lia|done|done|]. iIntros "Hb".
    iApply cwp_ret. iApply cwp_bind. iApply (free_null_field _ _ _ _ _ 2 with "Hb"); [lia|done|]. iIntros "Hb".
    iApply cwp_bind. iApply cwp_bind. iApply (load_ptr_in _ _ _ _ _ 3 _ None with "Hb"); [lia|done|done|]. iIntros "Hb".
    iApply cwp_ret. iApply cwp_bind. iApply cwp_bind. iApply (load_ptr_in _ _ _ _ _ 4 _ None with "Hb"); [lia|done|done|]. iIntros "Hb".
    iApply cwp_ret. iApply cwp_bind. iApply (free_null_field _ _ _ _ _ 5 with "Hb"); [lia|done|]. iIntros "Hb".
    iApply (store_in _ _ _ _ _ _ 6 with "Hb"); [lia|cbn; lia|done|]. iIntros "Hb".
    cbn [insert list_insert]. by iExists [_; _; _; _; _; _; _]; iFrame. }
  iDestruct (stats_rep_open with "H") as (kb fb cb mkb mvb mcb rows) "(-> & (Hk & Hf & Hc & Hmk & Hmv & Hmc) & H)"; [done|].
  rewrite stat_rows_split. iDestruct "H" as "(Hks & Hfs & Hmks & Hmvs)". cbn [app].
  iApply cwp_bind. iApply (load_ptr_in _ _ _ _ _ 0 _ (Some kb) with "Hb"); [lia|done|done|]. iIntros "Hb".
  iApply cwp_bind. iApply cwp_bind. iApply (load_int_in _ _ _ _ _ 6 with "Hb"); [lia|done|]. iIntros "Hb".
  iApply (cwp_then with "[Hk Hks]").
  { iApply (free_str_array kb l.*1); [by rewrite length_fmap|]. iExists _. iFrame. }
  iIntros (_) "(%vs & Hk)". iApply cwp_bind. iApply (cwp_release with "Hk").
  iApply (store_in _ _ _ _ _ _ 0 with "Hb"); [lia|cbn; lia|done|]. iIntros "Hb". cbn [insert list_insert].
  iApply cwp_bind.
  iApply (destroy_stat_arrays_in _ _ _ _ _ _ 1 2 fb cb _ _ ((λ ks, paths ks.2) <$> l) with "Hb Hf Hc Hfs");
    [done|lia|lia|done|done|by rewrite length_fmap| |].
  { intros j x (ks & -> & Hks)%list_lookup_fmap_Some. by rewrite list_lookup_fmap Hks. }
  iIntros "Hb Hc". cbn [insert list_insert].
  iApply cwp_bind. iApply (free_array_field _ _ _ _ _ 2 with "Hb [Hc]"); [lia|done|by iFrame|]. iIntros "Hb".
  cbn [insert list_insert]. iApply cwp_bind.
  iApply (destroy_stat_arrays_in _ _ _ _ _ _ 3 5 mkb mcb _ _ ((λ ks, (meta_list ks.2).*1) <$> l) with "Hb Hmk Hmc Hmks");
    [done|lia|lia|done|done|by rewrite length_fmap| |].
  { intros j x (ks & -> & Hks)%list_lookup_fmap_Some. by rewrite list_lookup_fmap Hks length_fmap. }
  iIntros "Hb Hmc". cbn [insert list_insert]. iApply cwp_bind.
  iApply (destroy_stat_arrays_in _ _ _ _ _ _ 4 5 mvb mcb _ _ ((λ ks, (meta_list ks.2).*2) <$> l) with "Hb Hmv Hmc Hmvs");
    [done|lia|lia|done|done|by rewrite length_fmap| |].
  { intros j x (ks & -> & Hks)%list_lookup_fmap_Some. by rewrite list_lookup_fmap Hks length_fmap. }
  iIntros "Hb Hmc". cbn [insert list_insert].
  iApply cwp_bind. iApply (free_array_field _ _ _ _ _ 5 with "Hb [Hmc]"); [lia|done|by iFrame|]. iIntros "Hb".
  iApply (store_in _ _ _ _ _ _ 6 with "Hb"); [lia|cbn; lia|done|]. iIntros "Hb".
  cbn [insert list_insert]. by iExists [_; _; _; _; _; _; _]; iFrame.
Qed.

(** A string in a field is freed, the field keeps its word. *)
Lemma free_loaded {A} b k pre ws n i v s (K : CM A) (Φ : A → hProp) Ψ :
  n = (length pre + i)%nat → ws !! i = Some v →
  b ↦[k] Words (pre ++ ws) -∗ str v s -∗ (b ↦[k] Words (pre ++ ws) -∗ cwp K Φ Ψ) -∗
  cwp (p ← load_ptr b n; delete_array p ;; K) Φ Ψ.
Proof.
  iIntros (Hn Hv) "Hb (%sb & -> & Hs) HΦ".
  iApply cwp_bind. iApply (load_ptr_in _ _ _ _ _ i _ (Some sb) with "Hb"); [done|done|done|]. iIntros "Hb".
  iApply cwp_bind. iApply (cwp_release with "Hs"). by iApply "HΦ".
Qed.

Lemma destroy_strings_in b k pre ws o on i j v l (Φ : unit → hProp) Ψ :
  o = (length pre + i)%nat → on = (length pre + j)%nat →
  ws !! i = Some v → ws !! j = Some (VInt (Z.of_nat (length l))) →
  b ↦[k] Words (pre ++ ws) -∗ strs_or_null v l -∗ (b ↦[k] Words (pre ++ ws) -∗ Φ tt) -∗
  cwp (destroy_strings b o on) Φ Ψ.
Proof.
  iIntros (Ho Hon Hv Hn) "Hb H HΦ". rewrite /destroy_strings. iApply cwp_bind.
  destruct (decide (l = [])) as [->|Hne].
  - iDestruct "H" as %->. iApply (load_ptr_in _ _ _ _ _ i _ None with "Hb"); [done|done|done|]. iIntros "Hb".
    iApply cwp_ret. by iApply "HΦ".
  - iAssert (str_array v l) with "[H]" as "H"; [by destruct l|].
    iDestruct (str_array_at with "H") as (ab) "[-> H]".
    iApply (load_ptr_in _ _ _ _ _ i _ (Some ab) with "Hb"); [done|done|done|]. iIntros "Hb". cbn.
    iApply cwp_bind. iApply (load_int_in _ _ _ _ _ j with "Hb"); [done|done|]. iIntros "Hb".
    iApply (cwp_then with "[H]"); [by iApply (free_str_array with "H")|]. iIntros (_) "(%vs & H)".
    iApply (cwp_release with "H"). by iApply "HΦ".
Qed.

Lemma kv_rep_strs k v l : kv_rep k v l ⊢ strs_or_null k l.*1 ∗ strs_or_null v l.*2.
Proof. destruct l as [|x l]; cbn; [iIntros ([-> ->]); done|]. done. Qed.

Lemma destroy_index_spec b pre ws post :
  b ↦[KNewArray] Words (pre ++ ws ++ post) -∗ (∃ x, index_rep ws x) -∗
  cwp (destroy_index b (length pre))
    (λ _, ∃ ws', <affine> ⌜length ws' = sizeof_index⌝ ∗ b ↦[KNewArray] Words (pre ++ ws' ++ post)) nothrow.
Proof.
  iIntros "Hb (%x & %v1 & %v2 & %v3 & %v4 & %fv & %kv & %vv & -> & H1 & H2 & H3 & H4 & Hf & Hkv)".
  rewrite kv_rep_strs. iDestruct "Hkv" as "[Hk Hv]". rewrite -!(assoc_L app). cbn [app].
  rewrite /destroy_index.
  iApply (free_loaded _ _ _ _ _ 0 with "Hb H1"); [lia|done|]. iIntros "Hb".
  iApply (free_loaded _ _ _ _ _ 1 with "Hb H2"); [lia|done|]. iIntros "Hb".
  iApply (free_loaded _ _ _ _ _ 2 with "Hb H3"); [lia|done|]. iIntros "Hb".
  iApply (free_loaded _ _ _ _ _ 3 with "Hb H4"); [lia|done|]. iIntros "Hb".
  iApply cwp_bind. iApply (destroy_strings_in _ _ _ _ _ _ 14 15 with "Hb Hf"); [lia|lia|done|done|]. iIntros "Hb".
  iApply cwp_bind. iApply (destroy_strings_in _ _ _ _ _ _ 16 18 with "Hb Hk"); [lia|lia|done|by rewrite length_fmap|].
  iIntros "Hb". iApply (destroy_strings_in _ _ _ _ _ _ 17 18 with "Hb Hv"); [lia|lia|done|by rewrite length_fmap|].
  iIntros "Hb". iExists ([v1; v2; v3; v4] ++ (VInt <$> index_ints x) ++ [fv; _; kv; vv; _]). by iFrame.
Qed.

Lemma destroy_lob_file_spec b pre ws post :
  b ↦[KNewArray] Words (pre ++ ws ++ post) -∗ (∃ x, lob_rep ws x) -∗
  cwp (destroy_lob_file b (length pre))
    (λ _, ∃ ws', <affine> ⌜length ws' = sizeof_lob⌝ ∗ b ↦[KNewArray] Words (pre ++ ws' ++ post)) nothrow.
Proof.
  iIntros "Hb (%x & %pv & -> & (%pb & -> & Hs))". cbn [app]. rewrite /destroy_lob_file.
  iApply cwp_bind. iApply (load_ptr_in _ _ _ _ _ 0 _ (Some pb) with "Hb"); [lia|done|done|]. iIntros "Hb".
  iApply (cwp_release with "Hs"). iExists [_; _; _; _; _]. by iFrame.
Qed.

(** An array of structures in two words of the manifest. *)
Lemma destroy_array_spec {A} (destroy : nat → nat → CM unit) (rep : list val → A → hProp) size
    p k pre post n1 n2 w1 w2 (l : list A) :
  (∀ b pre ws post, b ↦[KNewArray] Words (pre ++ ws ++ post) -∗ (∃ x, rep ws x) -∗
     cwp (destroy b (length pre))
       (λ _, ∃ ws', <affine> ⌜length ws' = size⌝ ∗ b ↦[KNewArray] Words (pre ++ ws' ++ post)) nothrow) →
  n1 = length pre → n2 = S (length pre) →
  p ↦[k] Words (pre ++ [w1; w2] ++ post) -∗ structs_or_null rep w1 w2 l -∗
  cwp (a ← load_ptr p n1;
       match a with
       | Some fb =>
           n ← load_int p n2;
           repeat_i (λ i, destroy fb (i * size)%nat) 0 (Z.to_nat n) ;;
           delete_array a ;; store_word p n1 VNull
       | None => mret tt
       end ;;
       store_word p n2 (VInt 0))
    (λ _, ∃ ws, <affine> ⌜length ws = 2%nat⌝ ∗ p ↦[k] Words (pre ++ ws ++ post)) nothrow.
Proof.
  intros Hd -> ->. iIntros "Hp H". cbn [app]. iApply cwp_bind. destruct (decide (l = [])) as [->|Hne].
  - iDestruct "H" as %[-> ->]. iApply (load_ptr_in _ _ _ _ _ 0 _ None with "Hp"); [lia|done|done|]. iIntros "Hp".
    iApply cwp_bind. iApply cwp_ret. iApply (store_in _ _ _ _ _ _ 1 with "Hp"); [lia|cbn; lia|done|]. iIntros "Hp".
    by iExists [_; _]; iFrame.
  - assert (structs_or_null rep w1 w2 l = (<affine> ⌜w2 = VInt (Z.of_nat (length l))⌝ ∗ structs rep w1 l)%I)
      as -> by (by destruct l).
    iDestruct "H" as "(-> & %wss & (%b & -> & Hb) & H)".
    iDestruct (parts_forget _ (λ ws, ∃ x, rep ws x)%I with "H") as "[%Hl H]"; [intros ws x; iIntros "H"; by iExists x|].
    iApply (load_ptr_in _ _ _ _ _ 0 _ (Some b) with "Hp"); [lia|done|done|]. iIntros "Hp". cbn.
    iApply cwp_bind. iApply cwp_bind. iApply (load_int_in _ _ _ _ _ 1 with "Hp"); [lia|done|]. iIntros "Hp".
    rewrite Nat2Z.id -Hl. iApply (cwp_then with "[Hb H]"); [iApply (destroy_structs with "Hb H"); apply Hd|].
    iIntros (_) "(%ws & Hb)". iApply cwp_bind. iApply (cwp_release with "Hb").
    iApply (store_in _ _ _ _ _ _ 0 with "Hp"); [lia|cbn; lia|done|]. iIntros "Hp". cbn [insert list_insert].
    iApply (store_in _ _ _ _ _ _ 1 with "Hp"); [lia|cbn; lia|done|]. iIntros "Hp". by iExists [_; _]; iFrame.
Qed.

Lemma groups_rep_owned ws gs : groups_rep ws gs ⊢ groups_owned ws.
Proof.
  iIntros "(%av & -> & H)". iExists av, _. iSplitR; [done|]. by rewrite (structs_forget _ _ _ _ group_rep_owned).
Qed.

Lemma loon_manifest_destroy_spec b ws gs m :
  b ↦[KNew] Words ws -∗ manifest_rep ws gs m -∗ cwp (loon_manifest_destroy (Some b)) (λ _, emp) nothrow.
Proof.
  iIntros "Hb (%g & %w2 & %w3 & %w4 & %s & %w12 & %w13 & %w14 & %w15 & -> & Hg & Hd & Hs & Hl & Hi)".
  rewrite groups_rep_owned. rewrite /loon_manifest_destroy. iApply (cwp_then with "[Hb Hg]").
  { iApply (destroy_column_groups_contents_spec true _ _ [] g with "Hb Hg"). }
  clear g. iIntros (_) "(%g & %Hgl & Hb)". cbn [app]. iApply (cwp_then with "[Hb Hd]").
  { by iApply (destroy_delta_logs_spec _ _ g (s ++ [w12; w13; w14; w15]) with "Hb Hd"). }
  iIntros (_) "(%d & %Hdl & Hb)". rewrite (assoc_L app g). iApply (cwp_then with "[Hb Hs]").
  { iApply (destroy_stats_spec _ _ (g ++ d) s [w12; w13; w14; w15] with "Hb Hs"). rewrite length_app. lia. }
  clear s. iIntros (_) "(%s & %Hsl & Hb)". rewrite (assoc_L app _ s). set (pre := (g ++ d) ++ s).
  assert (length pre = 12%nat) as Hpre by (rewrite /pre !length_app; lia).
  iApply (cwp_then with "[Hb Hl]").
  { iApply (destroy_array_spec destroy_lob_file lob_rep sizeof_lob _ _ pre [w14; w15] with "Hb Hl");
      [intros; apply destroy_lob_file_spec|done|by rewrite Hpre]. }
  iIntros (_) "(%lw & %Hll & Hb)". rewrite (assoc_L app pre). iApply (cwp_then with "[Hb Hi]").
  { iApply (destroy_array_spec destroy_index index_rep sizeof_index _ _ (pre ++ lw) [] with "[Hb] Hi");
      [intros; apply destroy_index_spec|rewrite length_app Hpre Hll //|rewrite length_app Hpre Hll //|done]. }
  iIntros (_) "(%xw & _ & Hb)". by iApply (cwp_release with "Hb").
Qed.
End manifest_runs.

(** A C caller that exports a manifest into its own word, imports it again
    and frees it. *)
Definition manifest_export_import_destroy (m : Manifest ColumnGroup) (out : nat) : CM (Result (Manifest ColumnGroup)) :=
  r ← manifest_export m out;
  match r with
  | Ok _ =>
      p ← load_ptr out 0;
      b ← deref_ptr p;
      m' ← manifest_import b;
      loon_manifest_destroy p ;;
      mret m'
  | Err e => mret (Err e)
  | Ub => undefined
  end.

Lemma manifest_export_import_destroy_spec gs m kd out v rest :
  column_groups_ m = Some <$> gs → manifest_fits gs m → manifest_clean gs m →
  out ↦[kd] Words (v :: rest) ⊢
  cwp true (manifest_export_import_destroy m out)
    (λ r, <affine> ⌜r = Ok (ffi_view gs m)⌝ ∗ ∃ p, out ↦[kd] Words (VPtr p :: rest) ∗ emp)
    (λ _, False).
Proof.
  intros Hgs Hfit Hc. iIntros "Ho". rewrite /manifest_export_import_destroy.
  iApply (cwp_then with "[Ho]"); [by iApply (manifest_export_spec with "Ho")|].
  iIntros (r) "(-> & %p & %ws & Ho & Hp & Hm)".
  iApply cwp_bind. iApply (cwp_load_ptr with "Ho"); [done|by instantiate (1 := Some p)|]. iIntros "Ho".
  iApply cwp_bind. iApply cwp_deref.
  iApply (cwp_then with "[Hp Hm]"); [by iApply (manifest_import_spec with "Hp Hm")|].
  iIntros (r) "(-> & Hp & Hm)".
  iApply (cwp_then with "[Hp Hm]"); [iApply (loon_manifest_destroy_spec with "Hp Hm")|].
  iIntros (_) "_". iApply cwp_ret. iSplitR; [done|]. iExists p. by iFrame.
Qed.

(** C18: A C caller that receives an exported manifest and imports it gets the
    manifest back, column groups, statistics, indexes and LOB files unchanged,
    with exactly the delta logs of type primary key, their numbers of entries
    cut to 32 bits; and after the destroy function the memory is what it was,
    up to the word that received the pointer. *)
Theorem manifest_roundtrip gs m kd out v rest σ :
  column_groups_ m = Some <$> gs → manifest_fits gs m → manifest_clean gs m →
  mem σ !! out = Some (mkBlock kd (Words (v :: rest))) → faults σ = [] →
  ∃ p σ', manifest_export_import_destroy m out σ = (σ', Ok (Ok (ffi_view gs m))) ∧
    mem σ' = <[out := mkBlock kd (Words (VPtr p :: rest))]> (mem σ).
Proof.
  intros Hgs Hfit Hc Ho Hff.
  pose proof (run_block true _ out kd (Words (v :: rest)) _ _ σ
    (manifest_export_import_destroy_spec gs m kd out v rest Hgs Hfit Hc) Ho (λ _, Hff)) as H.
  rewrite /wp in H. destruct (manifest_export_import_destroy _ out σ) as [σ' [r|e|]]; [|by apply leaves_false in H|done].
  apply leaves_pure in H as [-> H]. apply leaves_exist in H as [p [_ H]%leaves_pt]. apply leaves_emp in H.
  exists p, σ'. by rewrite H insert_delete_eq.
Qed.
