(* ===== verification/FfiTransaction.v ===== *)
(** * Transactions across the C interface

    The functions [loon_transaction_*] of [ffi/manifest_c.cpp]: they unpack the
    C structures, call the class [Transaction] and pack what it returns.  The
    memory of C is that of [CHeap]; the objects of C++ are a [Session]: the
    world of the transactions, the filesystem cache and the transaction that
    the caller's handle stands for, none when the handle is zero. *)

From S2P Require Import Prelude CppString Status StorageUri ColumnGroups Properties FsConfig FsProducers FsCache Manifest ManifestCodec FileSystem ManifestIO Updates Transaction CHeap FfiBridge FfiProperties FfiManifest.

Definition LOON_ARROW_ERROR : FFICode := 3.
Definition LOON_TRANSACTION_RESOLVE_FAIL : Z := 0.
Definition LOON_TRANSACTION_RESOLVE_OVERWRITE : Z := 2.

(** A place inside a block: a pointer to an element of an array of structures. *)
Abbreviation place := (option (nat * nat)).

Record Session (S D : Type) := mkSession {
  ses_world : World S;
  ses_fs : FsState D;
  ses_txn : option Transaction;
}.
Arguments mkSession {S D} _ _ _.
Arguments ses_world {S D} _.
Arguments ses_fs {S D} _.
Arguments ses_txn {S D} _.

Section transaction.
Context {S : Type} `{FileSystem S} `{UriParser} `{Avro}.
Context {D : Type} `{LocalDisk D} `{CloudEnv} `{AwsUriParser}.
Context (trim_copy : string → string) `{HashOrder} `{StdHash}.
Implicit Types s : Session S D.

Definition set_world (w : World S) s : Session S D := mkSession w (ses_fs s) (ses_txn s).
Definition set_ses_fs (f : FsState D) s : Session S D := mkSession (ses_world s) f (ses_txn s).
Definition set_txn (t : option Transaction) s : Session S D := mkSession (ses_world s) (ses_fs s) t.

Abbreviation SM := (CM (Session S D * FFICode)).

(** The [try] around a body that returns a code. *)
Definition guarded s (m : SM) : SM := try_catch m (λ _, mret (s, LOON_GOT_EXCEPTION)).

(** [RETURN_ARROW_ERROR_IF], then the rest of the body. *)
Definition or_error {A} s (fallback : FFICode) (r : Result A) (k : A → SM) : SM :=
  match r with
  | Ok a => k a
  | Err st => mret (s, FFIErrorCodeFromExtendStatus st fallback)
  | Ub => undefined
  end.

(** An update recorded in the transaction. *)
Definition recorded s (f : Transaction → Transaction) : SM :=
  mret (set_txn (f <$> ses_txn s) s, LOON_SUCCESS).

(** [std::make_shared] of the groups that were imported. *)
Definition share_groups (gs : list ColumnGroup) (w : World S) : World S * ColumnGroups :=
  (mkWorld (w_heap w ++ gs) (w_cache w) (w_fs w), fresh_ptrs (length (w_heap w)) (length gs)).

(** ** Opening and closing *)

(** The loop of [ConvertFFIProperties] over the structure: a null key or value
    is an assertion that fails. *)
Fixpoint convert_loop (ab i n : nat) (p : Properties) : CM (Properties * option string) :=
  match n with
  | O => mret (p, None)
  | Datatypes.S n' =>
      k ← load_ptr ab (i * sizeof_property + kv_key);
      key ← read_cstr k;
      v ← load_ptr ab (i * sizeof_property + kv_value);
      value ← read_cstr v;
      match SetValue trim_copy p key value true with
      | Ok (p', Some e) => mret (p', Some e)
      | Ok (p', None) => convert_loop ab (Datatypes.S i) n' p'
      | _ => undefined
      end
  end.

Definition convert_properties (b : nat) : CM (Properties * option string) :=
  arr ← load_ptr b p_properties;
  match arr with
  | Some ab => count ← load_int b p_count; convert_loop ab 0 (Z.to_nat count) ∅
  | None => mret (∅, None)
  end.

Definition select_resolver (resolve_id : Z) : Resolver :=
  if resolve_id =? LOON_TRANSACTION_RESOLVE_OVERWRITE then OverwriteResolver else FailResolver.

(** [address] is where the new transaction lies; the world is that of the
    filesystem the cache returns. *)
Definition loon_transaction_begin (base_path properties : pointer) (read_version resolve_id retry_limit : Z)
    (out_handle : pointer) (address : Z) s : SM :=
  match base_path, properties with
  | Some _, Some pb =>
      guarded s (
        '(props, opt) ← convert_properties pb;
        match opt with
        | Some _ => mret (s, LOON_INVALID_PROPERTIES)
        | None =>
            path ← read_cstr base_path;
            let '(f, fs_result) := FilesystemCache_get trim_copy props path (ses_fs s) in
            let s := set_ses_fs f s in
            or_error s LOON_ARROW_ERROR fs_result (λ _,
              let '(w, transaction_result) :=
                Open path read_version (select_resolver resolve_id) retry_limit (ses_world s) in
              let s := set_world w s in
              or_error s LOON_ARROW_ERROR transaction_result (λ t,
                ob ← deref_ptr out_handle;
                store_word ob 0 (VInt address) ;;
                mret (set_txn (Some t) s, LOON_SUCCESS)))
        end)
  | _, _ => mret (s, LOON_INVALID_ARGS)
  end.

(** The commit loop does not end for the largest retry limit. *)
Definition loon_transaction_commit (out_committed_version : pointer) s : SM :=
  match ses_txn s, out_committed_version with
  | Some t, Some ob =>
      guarded s (
        match Commit t (ses_world s) with
        | Some (w, commit_result) =>
            let s := set_world w s in
            or_error s LOON_LOGICAL_ERROR commit_result (λ v,
              store_word ob 0 (VInt v) ;; mret (s, LOON_SUCCESS))
        | None => undefined
        end)
  | _, _ => mret (s, LOON_INVALID_ARGS)
  end.

Definition loon_transaction_destroy s : Session S D := set_txn None s.

(** ** Reading *)

(** The manifest with the groups its pointers denote. *)
Definition manifest_value (h : Heap) (m : Manifest loc) : Manifest ColumnGroup :=
  with_groups m (view_ptr h <$> column_groups_ m).

Definition loon_transaction_get_manifest (out_manifest : pointer) s : SM :=
  match ses_txn s, out_manifest with
  | Some t, Some ob =>
      guarded s (
        or_error s LOON_ARROW_ERROR (GetManifest t) (λ m,
          st ← manifest_export (manifest_value (w_heap (ses_world s)) m) ob;
          or_error s LOON_LOGICAL_ERROR st (λ _, mret (s, LOON_SUCCESS))))
  | _, _ => mret (s, LOON_INVALID_ARGS)
  end.

Definition loon_transaction_get_read_version (out_read_version : pointer) s : SM :=
  match ses_txn s, out_read_version with
  | Some t, Some ob => guarded s (store_word ob 0 (VInt (GetReadVersion t)) ;; mret (s, LOON_SUCCESS))
  | _, _ => mret (s, LOON_INVALID_ARGS)
  end.

(** ** Recording updates *)

Definition loon_transaction_drop_column (column_name : pointer) s : SM :=
  match ses_txn s, column_name with
  | Some _, Some _ => guarded s (name ← read_cstr column_name; recorded s (txn_DropColumn name))
  | _, _ => mret (s, LOON_INVALID_ARGS)
  end.

(** The temporary structure on the stack has one group and is not null, so
    that its import is that of the group. *)
Definition loon_transaction_add_column_group (column_group : place) s : SM :=
  match ses_txn s, column_group with
  | Some _, Some (b, o) =>
      guarded s (
        g ← import_column_group b o;
        let '(w, cgs) := share_groups [g] (ses_world s) in
        match cgs with
        | cg :: _ => recorded (set_world w s) (txn_AddColumnGroup cg)
        | [] => mret (s, LOON_INVALID_ARGS)
        end)
  | _, _ => mret (s, LOON_INVALID_ARGS)
  end.

(** A null structure is dereferenced. *)
Definition loon_transaction_append_files (column_groups : pointer) s : SM :=
  match ses_txn s with
  | Some _ =>
      guarded s (
        b ← deref_ptr column_groups;
        import_st ← column_groups_import b 0;
        or_error s LOON_LOGICAL_ERROR import_st (λ gs,
          let '(w, cgs) := share_groups gs (ses_world s) in
          recorded (set_world w s) (txn_AppendFiles cgs)))
  | None => mret (s, LOON_INVALID_ARGS)
  end.

Definition loon_transaction_add_delta_log (path : pointer) (num_entries : Z) s : SM :=
  match ses_txn s, path with
  | Some _, Some _ =>
      guarded s (path ← read_cstr path; recorded s (txn_AddDeltaLog (mkDelta path PRIMARY_KEY num_entries)))
  | _, _ => mret (s, LOON_INVALID_ARGS)
  end.

(** The strings of an array that are there. *)
Fixpoint read_present (b i n : nat) : CM (list string) :=
  match n with
  | O => mret []
  | Datatypes.S n' =>
      p ← load_ptr b i;
      match p with
      | None => read_present b (Datatypes.S i) n'
      | Some _ => x ← read_cstr p; rest ← read_present b (Datatypes.S i) n'; mret (x :: rest)
      end
  end.

(** The pairs of which neither part is missing. *)
Definition read_present_pairs (kb vb n : nat) : CM (gmap string string) :=
  fold_i (λ i acc,
    k ← load_ptr kb i;
    match k with
    | None => mret acc
    | Some _ =>
        v ← load_ptr vb i;
        match v with
        | None => mret acc
        | Some _ => ks ← read_cstr k; vs ← read_cstr v; mret (<[ks := vs]> acc)
        end
    end) 0 n ∅.

Definition loon_transaction_update_stat (key files : pointer) (files_len : nat)
    (metadata_keys metadata_values : pointer) (metadata_len : nat) s : SM :=
  match ses_txn s, key, files with
  | Some _, Some _, Some fb =>
      guarded s (
        ps ← read_present fb 0 files_len;
        meta ←
          match metadata_keys, metadata_values with
          | Some kb, Some vb => read_present_pairs kb vb metadata_len
          | _, _ => mret ∅
          end;
        k ← read_cstr key;
        recorded s (txn_UpdateStat k (mkStat ps meta)))
  | _, _, _ => mret (s, LOON_INVALID_ARGS)
  end.

(** The checks and the copy are those of the import of a manifest; every
    refusal is the same code here. *)
Definition loon_transaction_add_index_info (index_info : place) s : SM :=
  match ses_txn s, index_info with
  | Some _, Some (b, o) =>
      guarded s (
        r ← import_index b o;
        match r with
        | Ok index => recorded s (txn_AddIndexInfo index)
        | Err _ => mret (s, LOON_INVALID_ARGS)
        | Ub => undefined
        end)
  | _, _ => mret (s, LOON_INVALID_ARGS)
  end.

Definition loon_transaction_drop_index (index_id : Z) s : SM :=
  match ses_txn s with
  | Some _ => if index_id =? 0 then mret (s, LOON_INVALID_ARGS) else guarded s (recorded s (txn_DropIndex index_id))
  | None => mret (s, LOON_INVALID_ARGS)
  end.

(** A missing path is the empty one. *)
Definition loon_transaction_add_lob_file (lob_file : place) s : SM :=
  match ses_txn s, lob_file with
  | Some _, Some (b, o) =>
      guarded s (
        p ← load_ptr b o;
        path ← read_opt p;
        f ← load_int b (o + 1);
        t ← load_int b (o + 2);
        v ← load_int b (o + 3);
        z ← load_int b (o + 4);
        recorded s (txn_AddLobFile (mkLob path f t v z)))
  | _, _ => mret (s, LOON_INVALID_ARGS)
  end.
End transaction.
