(* ===== verification/FfiTransactionCorrect.v ===== *)
(** * What a C caller records is what it commits

    The functions that record updates record what their structures denote, and
    leave the memory of the caller as it was; a manifest that a transaction
    hands out is the one it read; and a commit through the C interface stores
    the manifest with the groups that were appended from C structures. *)

From S2P Require Import Prelude CppString Status StorageUri Paths ColumnGroups Properties FsConfig FsProducers FsCache Manifest ManifestCodec FileSystem ManifestIO Updates Transaction CHeap CHeapLogic FfiBridge FfiBridgeRep FfiBridgeCorrect FfiBuilder FfiBridgeRuns FfiProperties FfiPropertiesCorrect FfiManifest FfiManifestRep FfiManifestCorrect FfiManifestRuns FfiTransaction.

(** ** Groups that were just imported *)

(** Recording an append of new groups keeps a transaction in order: their
    locations are nowhere else. *)
Lemma txn_ok_append h t mv uv gs :
  txn_ok h t mv uv →
  drop_spec (dropped_columns_ (updates_ t)) (groups mv) ≠ [] ∨ appended_files_ (updates_ t) = [] →
  txn_ok (h ++ gs) (txn_AppendFiles (fresh_ptrs (length h) (length gs)) t) mv (AppendFiles gs uv).
Proof.
  intros (rm & Hrm & Hv & (Ha & Hp & Hu) & (Hd1 & Hd2) & _) Hdrop.
  exists rm. split; [done|]. split; [by apply manifest_view_app|]. split; [|split; [split|]].
  - split; [by apply points_app_heap|]. split; [|done]. cbn.
    apply Forall2_app; [eapply Forall2_impl; [exact Hp|]; intros; by apply points_app_heap|].
    constructor; [|done]. pose proof (points_fresh h gs []) as Hf. by rewrite app_nil_r in Hf.
  - cbn. rewrite join_app. cbn [mjoin list_join]. rewrite app_nil_r.
    apply NoDup_app. split; [done|]. split; [|apply fresh_ptrs_nodup].
    intros q Hq. by eapply batches_old.
  - cbn. intros p Hpa. rewrite join_app. cbn [mjoin list_join]. rewrite app_nil_r.
    intros [Hin|Hin]%elem_of_app; [by eapply Hd2|exact (points_old _ _ _ _ _ Ha Hpa Hin)].
  - cbn. destruct Hdrop as [Hdrop|Hnil]; [by left|right]. by rewrite length_app Hnil.
Qed.

Section recorders.
Context {S : Type} `{FileSystem S} `{UriParser} `{Avro}.
Context {D : Type} `{LocalDisk D} `{CloudEnv} `{AwsUriParser}.
Context (trim_copy : string → string) `{HashOrder} `{StdHash}.
Abbreviation cwp := (cwp true).
Abbreviation nothrow := (λ _ : exn, False%I : hProp).
Implicit Types s : Session S D.

(** What the session is after an update was recorded. *)
Definition recorded_session (f : Transaction → Transaction) s : Session S D := set_txn (f <$> ses_txn s) s.
Definition appended (gs : list ColumnGroup) s : Session S D :=
  let '(w, cgs) := share_groups gs (ses_world s) in
  recorded_session (txn_AppendFiles cgs) (set_world w s).
Definition added (g : ColumnGroup) s : Session S D :=
  let '(w, cgs) := share_groups [g] (ses_world s) in
  recorded_session (λ t, foldr txn_AddColumnGroup t cgs) (set_world w s).

Lemma cwp_guarded s (m : CM (Session S D * FFICode)) Φ :
  cwp m Φ nothrow ⊢ cwp (guarded s m) Φ nothrow.
Proof.
  rewrite /guarded -cwp_try. iIntros "H". iApply (cwp_wand with "H").
  iSplit; [iIntros (r) "$"|iIntros (e) "[]"].
Qed.

Lemma append_files_spec b kd ws gs t s :
  ses_txn s = Some t → Forall group_clean gs →
  b ↦[kd] Words ws -∗ groups_rep ws gs -∗
  cwp (loon_transaction_append_files (Some b) s)
    (λ r, <affine> ⌜r = (appended gs s, LOON_SUCCESS)⌝ ∗ b ↦[kd] Words ws ∗ groups_rep ws gs) nothrow.
Proof.
  intros Ht Hc. iIntros "Hb Hg". rewrite /loon_transaction_append_files Ht. iApply cwp_guarded.
  iApply cwp_bind. iApply cwp_deref. rewrite -{1}(app_nil_r ws).
  iApply (cwp_then with "[Hb Hg]"); [by iApply (column_groups_import_spec with "Hb Hg")|].
  iIntros (r) "(-> & Hb & Hg)". rewrite app_nil_r. iApply cwp_ret. by iFrame.
Qed.

Lemma add_column_group_spec b pre ws post g t s :
  ses_txn s = Some t → group_clean g →
  b ↦[KNewArray] Words (pre ++ ws ++ post) -∗ group_rep ws g -∗
  cwp (loon_transaction_add_column_group (Some (b, length pre)) s)
    (λ r, <affine> ⌜r = (added g s, LOON_SUCCESS)⌝ ∗ b ↦[KNewArray] Words (pre ++ ws ++ post) ∗ group_rep ws g)
    nothrow.
Proof.
  intros Ht Hc. iIntros "Hb Hg". rewrite /loon_transaction_add_column_group Ht. iApply cwp_guarded.
  iApply (cwp_then with "[Hb Hg]"); [by iApply (import_column_group_spec with "Hb Hg")|].
  iIntros (r) "(-> & Hb & Hg)". iApply cwp_ret. by iFrame.
Qed.

Lemma add_index_info_spec b pre ws post x t s :
  ses_txn s = Some t → index_clean x →
  b ↦[KNewArray] Words (pre ++ ws ++ post) -∗ index_rep ws x -∗
  cwp (loon_transaction_add_index_info (Some (b, length pre)) s)
    (λ r, <affine> ⌜r = (recorded_session (txn_AddIndexInfo x) s, LOON_SUCCESS)⌝ ∗
       b ↦[KNewArray] Words (pre ++ ws ++ post) ∗ index_rep ws x) nothrow.
Proof.
  intros Ht Hc. iIntros "Hb Hx". rewrite /loon_transaction_add_index_info Ht. iApply cwp_guarded.
  iApply (cwp_then with "[Hb Hx]"); [by iApply (import_index_spec with "Hb Hx")|].
  iIntros (r) "(-> & Hb & Hx)". iApply cwp_ret. by iFrame.
Qed.

Lemma add_lob_file_spec b pre ws post x t s :
  ses_txn s = Some t → lob_clean x →
  b ↦[KNewArray] Words (pre ++ ws ++ post) -∗ lob_rep ws x -∗
  cwp (loon_transaction_add_lob_file (Some (b, length pre)) s)
    (λ r, <affine> ⌜r = (recorded_session (txn_AddLobFile x) s, LOON_SUCCESS)⌝ ∗
       b ↦[KNewArray] Words (pre ++ ws ++ post) ∗ lob_rep ws x) nothrow.
Proof.
  intros Ht Hc. iIntros "Hb (%pv & -> & Hs)". cbn [app]. rewrite /loon_transaction_add_lob_file Ht.
  iApply cwp_guarded. iDestruct (str_ptr with "Hs") as (pb) "[-> Hs]".
  iApply cwp_bind. iApply (load_ptr_in _ _ _ _ _ 0 _ (Some pb) with "Hb"); [lia|done|done|]. iIntros "Hb".
  iApply (cwp_then with "[Hs]"); [by iApply (read_str_spec with "Hs")|]. iIntros (path) "[-> Hs]".
  do 4 (iApply cwp_bind; iApply (cwp_load_int_at with "Hb"); [done|]; iIntros "Hb").
  iApply cwp_ret. iSplitR; [by destruct x|]. iFrame "Hb". iExists _. by iFrame.
Qed.

(** ** Strings of the caller *)

Lemma drop_column_spec b k c t s :
  ses_txn s = Some t → no_nul c →
  b ↦[k] Chars c -∗
  cwp (loon_transaction_drop_column (Some b) s)
    (λ r, <affine> ⌜r = (recorded_session (txn_DropColumn c) s, LOON_SUCCESS)⌝ ∗ b ↦[k] Chars c) nothrow.
Proof.
  intros Ht Hc. iIntros "Hb". rewrite /loon_transaction_drop_column Ht. iApply cwp_guarded.
  iApply cwp_bind. iApply (cwp_read_cstr with "Hb"). iIntros "Hb". rewrite until_nul_no_nul //.
  iApply cwp_ret. by iFrame.
Qed.

Lemma add_delta_log_spec b k c n t s :
  ses_txn s = Some t → no_nul c →
  b ↦[k] Chars c -∗
  cwp (loon_transaction_add_delta_log (Some b) n s)
    (λ r, <affine> ⌜r = (recorded_session (txn_AddDeltaLog (mkDelta c PRIMARY_KEY n)) s, LOON_SUCCESS)⌝ ∗
       b ↦[k] Chars c) nothrow.
Proof.
  intros Ht Hc. iIntros "Hb". rewrite /loon_transaction_add_delta_log Ht. iApply cwp_guarded.
  iApply cwp_bind. iApply (cwp_read_cstr with "Hb"). iIntros "Hb". rewrite until_nul_no_nul //.
  iApply cwp_ret. by iFrame.
Qed.

(** An array of the caller whose strings may be missing. *)
Definition caller_opt (v : val) (x : option string) : hProp :=
  match x with
  | None => <affine> ⌜v = VNull⌝
  | Some c => ∃ b k, <affine> ⌜v = VPtr b⌝ ∗ b ↦[k] Chars c
  end.
Definition caller_opts (b : nat) (l : list (option string)) : hProp :=
  ∃ k vs, b ↦[k] Words vs ∗ [∗ list] v;x ∈ vs;l, caller_opt v x.
Definition clean_opt (x : option string) : Prop := match x with Some c => no_nul c | None => True end.

(** Loading an element leaves it, and the way back to the array, in hand. *)
Definition loaded (b : nat) (l : list (option string)) (p : pointer) (x : option string) : hProp :=
  match x with
  | None => <affine> ⌜p = None⌝ ∗ caller_opts b l
  | Some c => ∃ sb k, <affine> ⌜p = Some sb⌝ ∗ sb ↦[k] Chars c ∗ (sb ↦[k] Chars c -∗ caller_opts b l)
  end.

Lemma load_opt_spec b l j x (Φ : pointer → hProp) :
  l !! j = Some x →
  caller_opts b l -∗ (∀ p, loaded b l p x -∗ Φ p) -∗ cwp (load_ptr b j) Φ nothrow.
Proof.
  intros Hj. iIntros "(%k & %vs & Hb & H) HΦ". iDestruct (big_sepL2_length with "H") as %Hl.
  destruct (lookup_lt_is_Some_2 vs j) as [v Hv]; [rewrite Hl; by eapply lookup_lt_Some|].
  iDestruct (big_sepL2_lookup_acc with "H") as "[Hx H]"; [done|done|].
  destruct x as [c|]; cbn [caller_opt loaded].
  - iDestruct "Hx" as (sb kc) "[-> Hs]".
    iApply (cwp_load_ptr with "Hb"); [done|by instantiate (1 := Some sb)|]. iIntros "Hb". iApply "HΦ".
    iExists sb, kc. iFrame "Hs". iSplitR; [done|]. iIntros "Hs". iExists k, vs. iFrame "Hb". iApply "H".
    iExists sb, kc. by iFrame.
  - iDestruct "Hx" as "->".
    iApply (cwp_load_ptr with "Hb"); [done|by instantiate (1 := None)|]. iIntros "Hb". iApply "HΦ".
    iSplitR; [done|]. iExists k, vs. iFrame "Hb". by iApply "H".
Qed.

Lemma read_loaded b l p c (Φ : string → hProp) :
  no_nul c → loaded b l p (Some c) -∗ (caller_opts b l -∗ Φ c) -∗ cwp (read_cstr p) Φ nothrow.
Proof.
  intros Hc. iIntros "(%sb & %k & -> & Hs & H) HΦ". iApply (cwp_read_cstr with "Hs"). iIntros "Hs".
  rewrite until_nul_no_nul //. iApply "HΦ". by iApply "H".
Qed.

Lemma read_present_spec b l : Forall clean_opt l → ∀ n i, (i + n)%nat = length l →
  caller_opts b l -∗
  cwp (read_present b i n) (λ r, <affine> ⌜r = omap id (drop i l)⌝ ∗ caller_opts b l) nothrow.
Proof.
  intros Hc n. induction n as [|n IH]; intros i Hi; cbn [read_present]; iIntros "H".
  { iApply cwp_ret. iFrame. by rewrite drop_ge; [|lia]. }
  destruct (lookup_lt_is_Some_2 l i) as [x Hx]; [lia|]. rewrite (drop_S _ _ _ Hx).
  pose proof (Forall_lookup_1 _ _ _ _ Hc Hx) as Hcx.
  iApply cwp_bind. iApply (load_opt_spec with "H"); [done|]. iIntros (p) "H". destruct x as [c|].
  - iAssert (∃ sb, <affine> ⌜p = Some sb⌝ ∗ loaded b l p (Some c))%I with "[H]" as (sb) "[-> H]".
    { iDestruct "H" as (sb k) "[-> H]". iExists sb. iSplitR; [done|]. iExists sb, k. by iFrame. }
    iApply cwp_bind. iApply (read_loaded with "H"); [done|]. iIntros "H".
    iApply (cwp_then with "[H]"); [iApply (IH with "H"); lia|]. iIntros (r) "[-> H]". iApply cwp_ret. by iFrame.
  - iDestruct "H" as "[-> H]". iApply (cwp_wand with "[H]"); [iApply (IH with "H"); lia|].
    iSplit; [|iIntros (e) "[]"]. iIntros (r) "[-> H]". by iFrame.
Qed.

(** What the pairs of two arrays add up to. *)
Definition add_pair (acc : gmap string string) (kv : option string * option string) : gmap string string :=
  match kv with (Some k, Some v) => <[k := v]> acc | _ => acc end.
Definition present_pairs (l : list (option string * option string)) : gmap string string := foldl add_pair ∅ l.

Lemma read_present_pairs_spec kb vb l :
  Forall (λ kv, clean_opt kv.1 ∧ clean_opt kv.2) l →
  caller_opts kb l.*1 ∗ caller_opts vb l.*2 -∗
  cwp (read_present_pairs kb vb (length l))
    (λ m, <affine> ⌜m = present_pairs l⌝ ∗ caller_opts kb l.*1 ∗ caller_opts vb l.*2) nothrow.
Proof.
  intros Hc. pose (I := λ j (m : gmap string string),
    (<affine> ⌜m = present_pairs (take j l)⌝ ∗ caller_opts kb l.*1 ∗ caller_opts vb l.*2)%I : hProp).
  iIntros "H". iApply (cwp_mono _ _ (I (length l)) _ nothrow).
  { intros m. rewrite /I take_ge //. } { done. }
  iApply (cwp_fold_i true _ I); [|rewrite /I take_0; by iFrame].
  intros j m Hj. destruct (lookup_lt_is_Some_2 l j Hj) as [[k v] Hkv].
  destruct (Forall_lookup_1 _ _ _ _ Hc Hkv) as [Hk Hv]. cbn in Hk, Hv.
  rewrite /I (take_S_r _ _ _ Hkv) /present_pairs foldl_app. cbn [foldl].
  iIntros "(-> & Hks & Hvs)". rewrite Nat.add_0_l.
  iApply cwp_bind. iApply (load_opt_spec with "Hks"); [by rewrite list_lookup_fmap Hkv|]. cbn [fst].
  iIntros (p) "Hks". destruct k as [k|]; [|iDestruct "Hks" as "[-> Hks]"; iApply cwp_ret; by iFrame].
  iDestruct "Hks" as (sb ck) "(-> & Hs & Hks)".
  iApply cwp_bind. iApply (load_opt_spec with "Hvs"); [by rewrite list_lookup_fmap Hkv|]. cbn [snd].
  iIntros (q) "Hvs". destruct v as [v|].
  2:{ iDestruct "Hvs" as "[-> Hvs]". iApply cwp_ret. iFrame "Hvs". iSplitR; [done|]. by iApply "Hks". }
  iDestruct "Hvs" as (vb' cv) "(-> & Hv & Hvs)".
  iApply cwp_bind. iApply (cwp_read_cstr with "Hs"). iIntros "Hs".
  iApply cwp_bind. iApply (cwp_read_cstr with "Hv"). iIntros "Hv".
  iApply cwp_ret. rewrite !until_nul_no_nul //. iSplitR; [done|].
  iSplitL "Hks Hs"; [by iApply "Hks"|by iApply "Hvs"].
Qed.

(** A statistic takes the files and the pairs that are there. *)
Lemma update_stat_spec b k key fb fl kb vb l t s :
  ses_txn s = Some t → no_nul key → Forall clean_opt fl → Forall (λ kv, clean_opt kv.1 ∧ clean_opt kv.2) l →
  b ↦[k] Chars key -∗ caller_opts fb fl -∗ caller_opts kb l.*1 ∗ caller_opts vb l.*2 -∗
  cwp (loon_transaction_update_stat (Some b) (Some fb) (length fl) (Some kb) (Some vb) (length l) s)
    (λ r, <affine> ⌜r = (recorded_session (txn_UpdateStat key (mkStat (omap id fl) (present_pairs l))) s, LOON_SUCCESS)⌝ ∗
       b ↦[k] Chars key ∗ caller_opts fb fl ∗ caller_opts kb l.*1 ∗ caller_opts vb l.*2) nothrow.
Proof.
  intros Ht Hk Hf Hl. iIntros "Hb Hfs Hkv". rewrite /loon_transaction_update_stat Ht. iApply cwp_guarded.
  iApply (cwp_then with "[Hfs]"); [by iApply (read_present_spec _ _ Hf _ 0 with "Hfs")|].
  iIntros (ps) "[-> Hfs]". rewrite drop_0.
  iApply (cwp_then with "[Hkv]"); [by iApply (read_present_pairs_spec with "Hkv")|].
  iIntros (m) "[-> Hkv]". iApply cwp_bind. iApply (cwp_read_cstr with "Hb"). iIntros "Hb".
  rewrite until_nul_no_nul //. iApply cwp_ret. by iFrame.
Qed.
End recorders.

(** ** C callers *)

Section callers.
Context {S : Type} {FS : FileSystem S} {FL : FsLaws S} {UP : UriParser} {AV : Avro} {AL : AvroLaws}.
Context {D : Type} `{LocalDisk D} `{CloudEnv} `{AwsUriParser}.
Context (trim_copy : string → string) `{HashOrder} `{StdHash}.
Implicit Types s : Session S D.
Abbreviation cwp := (cwp true).

(** Exports groups into its word, has them appended and frees them. *)
Definition append_exported (gs : list ColumnGroup) (out : nat) s : CM (Session S D * FFICode) :=
  r ← column_groups_export (Some <$> gs) out;
  match r with
  | Ok _ =>
      p ← load_ptr out 0;
      sc ← loon_transaction_append_files p s;
      loon_column_groups_destroy p ;;
      mret sc
  | Err st => mret (s, FFIErrorCodeFromExtendStatus st LOON_LOGICAL_ERROR)
  | Ub => undefined
  end.

(** Then commits into another word. *)
Definition append_and_commit (gs : list ColumnGroup) (out out_version : nat) s : CM (Session S D * FFICode) :=
  '(s, rc) ← append_exported gs out s;
  if (rc =? LOON_SUCCESS)%Z then loon_transaction_commit (Some out_version) s else mret (s, rc).

(** Asks for the manifest, imports it and frees it. *)
Definition get_and_import (out : nat) s : CM (Session S D * FFICode * Result (Manifest ColumnGroup)) :=
  sc ← loon_transaction_get_manifest (Some out) s;
  if (sc.2 =? LOON_SUCCESS)%Z then
    p ← load_ptr out 0;
    b ← deref_ptr p;
    m ← manifest_import b;
    loon_manifest_destroy p ;;
    mret (sc, m)
  else mret (sc, Err status_Invalid).

Lemma append_exported_spec gs kd out v rest t s :
  ses_txn s = Some t → groups_fit gs → Forall group_clean gs →
  out ↦[kd] Words (v :: rest) ⊢
  cwp (append_exported gs out s)
    (λ r, <affine> ⌜r = (appended gs s, LOON_SUCCESS)⌝ ∗ ∃ p, out ↦[kd] Words (VPtr p :: rest) ∗ emp)
    (λ _, False).
Proof.
  intros Ht Hfit Hc. iIntros "Ho". rewrite /append_exported.
  iApply (cwp_then with "[Ho]"); [by iApply (column_groups_export_spec true with "Ho")|].
  iIntros (r) "[(-> & %p & %ws & Ho & Hp & Hg)|[_ [%Hf HT]]]"; [|done].
  iApply cwp_bind. iApply (cwp_load_ptr with "Ho"); [done|by instantiate (1 := Some p)|]. iIntros "Ho".
  iApply (cwp_then with "[Hp Hg]"); [by iApply (append_files_spec with "Hp Hg")|].
  iIntros (r) "(-> & Hp & Hg)".
  iApply (cwp_then with "[Hp Hg]"); [iApply (loon_column_groups_destroy_spec with "Hp"); by iApply groups_rep_owned|].
  iIntros (_) "_". iApply cwp_ret. iSplitR; [done|]. iExists p. by iFrame.
Qed.

Lemma append_exported_runs gs kd out v rest t s σ :
  ses_txn s = Some t → groups_fit gs → Forall group_clean gs →
  mem σ !! out = Some (mkBlock kd (Words (v :: rest))) → faults σ = [] →
  ∃ p σ', append_exported gs out s σ = (σ', Ok (appended gs s, LOON_SUCCESS)) ∧
    mem σ' = <[out := mkBlock kd (Words (VPtr p :: rest))]> (mem σ).
Proof.
  intros Ht Hfit Hc Ho Hff.
  pose proof (run_block true _ out kd (Words (v :: rest)) _ _ σ
    (append_exported_spec gs kd out v rest t s Ht Hfit Hc) Ho (λ _, Hff)) as Hr.
  rewrite /wp in Hr. destruct (append_exported _ out s σ) as [σ' [r|e|]]; [|by apply leaves_false in Hr|done].
  apply leaves_pure in Hr as [-> Hr]. apply leaves_exist in Hr as [p [_ Hr]%leaves_pt]. apply leaves_emp in Hr.
  exists p, σ'. by rewrite Hr insert_delete_eq.
Qed.

Lemma appended_txn gs t s :
  ses_txn s = Some t →
  ses_txn (appended gs s) = Some (txn_AppendFiles (fresh_ptrs (length (w_heap (ses_world s))) (length gs)) t).
Proof. intros Ht. cbn. by rewrite Ht. Qed.

(** No error has the code of success. *)
Lemma error_code_nonzero st fb : fb ≠ LOON_SUCCESS → FFIErrorCodeFromExtendStatus st fb ≠ LOON_SUCCESS.
Proof.
  intros Hfb. rewrite /FFIErrorCodeFromExtendStatus /FFIErrorCodeFromExtendStatusCode.
  destruct (UnwrapStatus st) as [c|]; [rewrite ext_code_from_to_int; by destruct c|by destruct (_ =? _)%Z].
Qed.

Lemma commit_success t ob k v rest s σ s' σ' :
  ses_txn s = Some t → mem σ !! ob = Some (mkBlock k (Words (v :: rest))) →
  loon_transaction_commit (Some ob) s σ = (σ', Ok (s', LOON_SUCCESS)) →
  ∃ w ver, Commit t (ses_world s) = Some (w, Ok ver) ∧ s' = set_world w s ∧
    mem σ' = <[ob := mkBlock k (Words (VInt ver :: rest))]> (mem σ).
Proof.
  intros Ht Hob. rewrite /loon_transaction_commit Ht /guarded /try_catch /mbind /M_bind /catch.
  destruct (Commit t (ses_world s)) as [[w [ver|st|]]|]; cbn; [|intros [= _ _ Hc]|done|done].
  - rewrite /M_bind /store_word Hob. cbn. intros [= <- <-]. by exists w, ver.
  - by apply error_code_nonzero in Hc.
Qed.

(** C17: What a C caller appends is what it commits.  A caller exports groups,
    passes them to [loon_transaction_append_files], frees them and commits; if
    the run ends with the success code then its word holds a version, the file
    of that version stands for the specified result of appending these very groups,
    together with what was recorded before, to the manifest the transaction
    read, and the memory of the caller has changed in its two words only. *)
Theorem c_commit_stores_appended gs t mv uv kd out v rest kd2 ob v2 rest2 s σ s' σ' :
  ses_txn s = Some t → builtin (resolver_ t) → txn_ok (w_heap (ses_world s)) t mv uv →
  drop_spec (dropped_columns_ (updates_ t)) (groups mv) ≠ [] ∨ appended_files_ (updates_ t) = [] →
  groups_fit gs → Forall group_clean gs → out ≠ ob →
  mem σ !! out = Some (mkBlock kd (Words (v :: rest))) →
  mem σ !! ob = Some (mkBlock kd2 (Words (v2 :: rest2))) → faults σ = [] →
  append_and_commit gs out ob s σ = (σ', Ok (s', LOON_SUCCESS)) →
  ∃ p ver mv' data, let path := get_manifest_filepath (base_path_ t) ver in
    mem σ' = <[ob := mkBlock kd2 (Words (VInt ver :: rest2))]> (<[out := mkBlock kd (Words (VPtr p :: rest))]> (mem σ)) ∧
    apply_spec mv (AppendFiles gs uv) = Ok mv' ∧ serialize (relative_to path mv') = Ok data ∧
    fs_files (w_fs (ses_world s')) !! path = Some data ∧
    (manifest_codec_ok mv' → manifest_paths_ok (base_path_for_manifest path) mv' →
     file_denotes (fs_files (w_fs (ses_world s'))) path (at_current_version mv')).
Proof.
  intros Ht Hb Hok Hdrop Hfit Hc Hne Ho Hob Hff Hrun.
  destruct (append_exported_runs gs kd out v rest t s σ Ht Hfit Hc Ho Hff) as (p & σ1 & Ha & Hm1).
  rewrite /append_and_commit /mbind /M_bind Ha in Hrun. cbn -[appended] in Hrun.
  assert (mem σ1 !! ob = Some (mkBlock kd2 (Words (v2 :: rest2)))) as Hob1 by by rewrite Hm1 lookup_insert_ne.
  destruct (commit_success _ ob kd2 v2 rest2 _ _ _ _ (appended_txn gs t s Ht) Hob1 Hrun)
    as (w & ver & Hcm & -> & Hm).
  destruct (commit_denotes (txn_AppendFiles _ t) mv (AppendFiles gs uv) (ses_world (appended gs s)) _ _ Hb (txn_ok_append _ _ _ _ gs Hok Hdrop) Hcm)
    as (mv' & data & Hap & Hse & Hfile & Hden).
  exists p, ver, mv', data. by rewrite Hm Hm1.
Qed.

(** What the pointers of a manifest denote. *)
Lemma manifest_value_view h m mv : manifest_view h m mv → manifest_value h m = mv.
Proof.
  intros (gs & Hp & ->). rewrite /manifest_value /with_groups. f_equal.
  induction Hp as [|p g ps gs Hpg _ IH]; [done|]. cbn. by rewrite Hpg IH.
Qed.

Lemma get_and_import_spec gs t rm mv kd out v rest s :
  ses_txn s = Some t → read_manifest_ t = Some rm → manifest_view (w_heap (ses_world s)) rm mv →
  column_groups_ mv = Some <$> gs → manifest_fits gs mv → manifest_clean gs mv →
  out ↦[kd] Words (v :: rest) ⊢
  cwp (get_and_import out s)
    (λ r, <affine> ⌜r = (s, LOON_SUCCESS, Ok (ffi_view gs mv))⌝ ∗ ∃ p, out ↦[kd] Words (VPtr p :: rest) ∗ emp)
    (λ _, False).
Proof.
  intros Ht Hrm Hv Hgs Hfit Hc. iIntros "Ho". rewrite /get_and_import.
  iApply (cwp_then _ _ _ (λ sc, <affine> ⌜sc = (s, LOON_SUCCESS)⌝ ∗ ∃ p ws,
    out ↦[kd] Words (VPtr p :: rest) ∗ p ↦[KNew] Words ws ∗ manifest_rep ws gs mv)%I with "[Ho]").
  { rewrite /loon_transaction_get_manifest Ht. iApply cwp_guarded. rewrite /GetManifest Hrm. cbn [or_error].
    rewrite (manifest_value_view _ _ _ Hv).
    iApply (cwp_then with "[Ho]"); [by iApply (manifest_export_spec with "Ho")|].
    iIntros (r) "(-> & H)". cbn [or_error]. iApply cwp_ret. by iFrame. }
  iIntros (sc) "(-> & %p & %ws & Ho & Hp & Hm)". cbn [snd].
  change (LOON_SUCCESS =? LOON_SUCCESS)%Z with true. cbv iota.
  iApply cwp_bind. iApply (cwp_load_ptr with "Ho"); [done|by instantiate (1 := Some p)|]. iIntros "Ho".
  iApply cwp_bind. iApply cwp_deref.
  iApply (cwp_then with "[Hp Hm]"); [by iApply (manifest_import_spec with "Hp Hm")|].
  iIntros (r) "(-> & Hp & Hm)".
  iApply (cwp_then with "[Hp Hm]"); [iApply (loon_manifest_destroy_spec with "Hp Hm")|].
  iIntros (_) "_". iApply cwp_ret. iSplitR; [done|]. iExists p. by iFrame.
Qed.

(** The manifest a transaction hands out through the C interface is the one it
    read, as far as it crosses; the session and all but one word of the memory
    stay as they were. *)
Theorem c_manifest_is_read_manifest gs t rm mv kd out v rest s σ :
  ses_txn s = Some t → read_manifest_ t = Some rm → manifest_view (w_heap (ses_world s)) rm mv →
  column_groups_ mv = Some <$> gs → manifest_fits gs mv → manifest_clean gs mv →
  mem σ !! out = Some (mkBlock kd (Words (v :: rest))) → faults σ = [] →
  ∃ p σ', get_and_import out s σ = (σ', Ok (s, LOON_SUCCESS, Ok (ffi_view gs mv))) ∧
    mem σ' = <[out := mkBlock kd (Words (VPtr p :: rest))]> (mem σ).
Proof.
  intros Ht Hrm Hv Hgs Hfit Hc Ho Hff.
  pose proof (run_block true _ out kd (Words (v :: rest)) _ _ σ
    (get_and_import_spec gs t rm mv kd out v rest s Ht Hrm Hv Hgs Hfit Hc) Ho (λ _, Hff)) as Hr.
  rewrite /wp in Hr. destruct (get_and_import out s σ) as [σ' [r|e|]]; [|by apply leaves_false in Hr|done].
  apply leaves_pure in Hr as [-> Hr]. apply leaves_exist in Hr as [p [_ Hr]%leaves_pt]. apply leaves_emp in Hr.
  exists p, σ'. by rewrite Hr insert_delete_eq.
Qed.
End callers.
