(* ===== verification/FfiSample.v ===== *)
(** * Runs of the C interface on concrete memory

    The theorems about the C interface at concrete groups, manifests and
    arguments, and evaluated runs of the error paths: what an export loses when
    memory runs out, and the inputs on which the code reads memory that was
    never written. *)

From S2P Require Import Prelude CppString Status ColumnGroups Manifest CHeap CHeapLogic FfiBridge FfiBridgeRep FfiBridgeCorrect FfiBuilder FfiBridgeRuns FfiProperties FfiPropertiesCorrect FfiManifest FfiManifestRep FfiManifestCorrect FfiManifestRuns.

(** The conditions of the theorems are decidable. *)
#[global] Instance no_nul_dec s : Decision (no_nul s).
Proof. unfold no_nul. apply _. Defined.
#[global] Instance fits_u32_dec n : Decision (fits_u32 n).
Proof. unfold fits_u32. apply _. Defined.
#[global] Instance file_fits_dec f : Decision (file_fits f).
Proof. unfold file_fits. apply _. Defined.
#[global] Instance group_fits_dec g : Decision (group_fits g).
Proof. unfold group_fits. apply _. Defined.
#[global] Instance groups_fit_dec gs : Decision (groups_fit gs).
Proof. unfold groups_fit. apply _. Defined.
#[global] Instance pairs_clean_dec l : Decision (pairs_clean l).
Proof. apply map_Forall_dec. intros k v. apply and_dec; apply no_nul_dec. Defined.
#[global] Instance file_clean_dec f : Decision (file_clean f).
Proof. apply and_dec; [apply no_nul_dec|apply pairs_clean_dec]. Defined.
#[global] Instance group_clean_dec g : Decision (group_clean g).
Proof. unfold group_clean. apply _. Defined.
#[global] Instance stat_fits_dec x : Decision (stat_fits x).
Proof. unfold stat_fits. apply _. Defined.
#[global] Instance stat_clean_dec x : Decision (stat_clean x).
Proof. unfold stat_clean. apply _. Defined.
#[global] Instance index_fits_dec x : Decision (index_fits x).
Proof. unfold index_fits. apply _. Defined.
#[global] Instance index_clean_dec x : Decision (index_clean x).
Proof. unfold index_clean. apply _. Defined.
#[global] Instance lob_clean_dec x : Decision (lob_clean x).
Proof. unfold lob_clean. apply _. Defined.
#[global] Instance delta_clean_dec x : Decision (delta_clean x).
Proof. unfold delta_clean. apply _. Defined.
#[global] Instance manifest_fits_dec gs m : Decision (manifest_fits gs m).
Proof. unfold manifest_fits. apply _. Defined.
#[global] Instance manifest_clean_dec gs m : Decision (manifest_clean gs m).
Proof. unfold manifest_clean. apply _. Defined.

(** Decides a condition by computing it. *)
Ltac compute_decide := refine (bool_decide_eq_true_1 _ _); vm_compute; reflexivity.

Module SampleFfi.
(** Block 7 is the word of the caller that receives a structure. *)
Definition caller (v : val) (fs : list bool) : CState :=
  mkC {[7%nat := mkBlock KMalloc (Words [v])]} fs.
(** The [n]-th allocation from now, and only that one, fails. *)
Definition fail_at (n : nat) : list bool := replicate n false ++ [true].
Definition blocks (σ : CState) : nat := size (mem σ).

(** ** Column groups *)

Definition g1 : ColumnGroup :=
  mkGroup ["a"; "bc"]%string "parquet" [mkFile "p/1" 0 5 {["k"%string := "v"%string]}; mkFile "p/2" 5 9 ∅].

Lemma column_groups_roundtrip_witness :
  ∃ p σ', export_import_destroy (Some <$> [g1; g1]) 7 (caller VUndef []) = (σ', Ok (Ok [g1; g1])) ∧
    mem σ' = <[7%nat := mkBlock KMalloc (Words [VPtr p])]> (mem (caller VUndef [])).
Proof. apply (column_groups_roundtrip [g1; g1] KMalloc 7 VUndef []); [compute_decide|compute_decide|done|done]. Defined.

Lemma column_groups_export_survives_faults_witness :
  ∃ σ' r, export_import_destroy (Some <$> [g1]) 7 (caller VNull (fail_at 6)) = (σ', Ok r) ∧
    ((r = Ok [g1] ∧ ∃ p, mem σ' = <[7%nat := mkBlock KMalloc (Words [VPtr p])]> (mem (caller VNull (fail_at 6)))) ∨
     (r = Err status_UnknownError ∧ mem (caller VNull (fail_at 6)) ⊆ mem σ')).
Proof. apply (column_groups_export_survives_faults [g1] KMalloc 7 []); [compute_decide|compute_decide|done]. Defined.

Definition cols2 : list (list string) := [["a"]; ["b"; "c"]]%string.
Definition fls2 : list (list string) := [["f"]; ["g"; "h"]]%string.
Definition rcs2 : list (list Z) := [[3]; [1; 2]]%Z.

Lemma BuildLoonColumnGroups_all_or_nothing_witness :
  match BuildLoonColumnGroups cols2 fls2 rcs2 (caller VNull []) with
  | (σ1, Ok p) =>
      args_valid cols2 fls2 rcs2 = true ∧
      ∃ σ2, import_destroy p σ1 = (σ2, Ok (Ok (built_group <$> inputs cols2 fls2 rcs2))) ∧
        mem σ2 = mem (caller VNull [])
  | (σ1, Err _) => mem σ1 = mem (caller VNull []) ∧ (faults (caller VNull []) = [] → args_valid cols2 fls2 rcs2 = false)
  | (_, Ub) => False
  end.
Proof.
  apply BuildLoonColumnGroups_all_or_nothing; [done|].
  repeat constructor; vm_compute; repeat split; done.
Defined.

(** The structure that the builder returns is that of the row counts. *)
Example built_ranges :
  built_group <$> inputs cols2 fls2 rcs2 =
    [mkGroup ["a"]%string "parquet" [mkFile "f" 0 3 ∅];
     mkGroup ["b"; "c"]%string "parquet" [mkFile "g" 0 1 ∅; mkFile "h" 1 3 ∅]].
Proof. by vm_compute. Qed.
(** A failing allocation inside the builder leaves nothing behind. *)
Example build_fails_cleanly :
  (λ n, let '(σ, r) := BuildLoonColumnGroups cols2 fls2 rcs2 (caller VNull (fail_at n)) in
        (blocks σ, bool_decide (r = Err BadAlloc))) <$> seq 0 14 = replicate 14 (1%nat, true).
Proof. vm_compute. reflexivity. Qed.
(** A null group: the code dereferences it. *)
Example export_null_group : (column_groups_export [None] 7 (caller VNull [])).2 = Ub.
Proof. by vm_compute. Qed.

(** The comment of the export says that the arrays are assigned at once so
    that the destroy functions can clean up; those inside a group are not, and
    what they hold is lost: the last failing allocation loses six blocks. *)
Example export_leaks :
  (λ n, let '(σ, r) := column_groups_export [Some g1] 7 (caller VNull (fail_at n)) in
        (blocks σ, bool_decide (r = Ok (Err status_UnknownError)))) <$> seq 0 13 =
    (λ b, (b, true)) <$> [1; 1; 1; 2; 3; 1; 1; 2; 3; 4; 5; 6; 7]%nat.
Proof. vm_compute. reflexivity. Qed.

(** When the very first allocation fails, the handler looks at the word of the
    caller, which was not written yet: an indeterminate word is read, and a
    structure the caller still had there is destroyed. *)
Example export_reads_indeterminate_word :
  (column_groups_export [Some g1] 7 (caller VUndef (fail_at 0))).2 = Ub.
Proof. by vm_compute. Qed.
Definition caller_with_groups (fs : list bool) : CState :=
  mkC {[7%nat := mkBlock KMalloc (Words [VPtr 8]); 8%nat := mkBlock KNew (Words zero_groups)]} fs.
Example export_destroys_previous :
  column_groups_export [Some g1] 7 (caller_with_groups (fail_at 0)) =
    (caller VNull [], Ok (Err status_UnknownError)).
Proof. vm_compute. reflexivity. Qed.

(** ** Manifests *)

Definition m1 : Manifest ColumnGroup :=
  mkManifest MANIFEST_VERSION [Some g1]
    [mkDelta "d1" PRIMARY_KEY 5; mkDelta "d2" POSITIONAL 6; mkDelta "d3" PRIMARY_KEY 4294967297]
    {["s1"%string := mkStat ["x"]%string {["mk"%string := "mv"%string]}; "s2"%string := mkStat ["y"; "z"]%string ∅]}
    [mkIndex "c" "n" "t" "p" 1 2 3 4 5 6 7 8 9 10 ["fk"]%string {["ik"%string := "iv"%string]}]
    [mkLob "l" 1 2 3 4].

Lemma manifest_roundtrip_witness :
  ∃ p σ', manifest_export_import_destroy m1 7 (caller VUndef []) = (σ', Ok (Ok (ffi_view [g1] m1))) ∧
    mem σ' = <[7%nat := mkBlock KMalloc (Words [VPtr p])]> (mem (caller VUndef [])).
Proof. apply (manifest_roundtrip [g1] m1 KMalloc 7 VUndef []); [done|compute_decide|compute_decide|done|done]. Defined.

(** The positional delta log is gone and the number of entries of the third is 1. *)
Example manifest_loses_delta_logs :
  delta_logs_ (ffi_view [g1] m1) = [mkDelta "d1" PRIMARY_KEY 5; mkDelta "d3" PRIMARY_KEY 1].
Proof. by vm_compute. Qed.

(** A failing copy of a statistic: the cleanup reads a counter that was never
    written.  Before the statistics and after them the cleanup is complete. *)
Example manifest_cleanup_undefined :
  filter (λ n, (manifest_export m1 7 (caller VNull (fail_at n))).2 = Ub) (seq 0 50) = [25; 27; 28; 29; 32; 33]%nat.
Proof. vm_compute. reflexivity. Qed.

(** ** Properties *)

(** The array of keys at 1, the array of values at 2, the structure at 7 and
    the given words of the two arrays; 3 and 4 are the keys, 5 and 6 the values. *)
Definition props_caller (ks vs : list val) (fs : list bool) : CState :=
  mkC {[1%nat := mkBlock KMalloc (Words ks); 2%nat := mkBlock KMalloc (Words vs);
        3%nat := mkBlock KMalloc (Chars "k1"); 4%nat := mkBlock KMalloc (Chars "k2");
        5%nat := mkBlock KMalloc (Chars "v1"); 6%nat := mkBlock KMalloc (Chars "v2");
        7%nat := mkBlock KMalloc (Words [VUndef; VUndef])]} fs.
Definition create (ks vs : list val) (fs : list bool) : CState * outcome exn FFICode :=
  loon_properties_create (Some 1%nat) (Some 2%nat) (length ks) (Some 7%nat) (props_caller ks vs fs).

Example properties_found :
  (create_get_free (Some 1%nat) (Some 2%nat) 2 7 "k2" (props_caller [VPtr 3; VPtr 4] [VPtr 5; VPtr 6] [])).2 =
    Ok (LOON_SUCCESS, Some "v2"%string).
Proof. by vm_compute. Qed.
(** A repeated key in the last place is refused cleanly, as the tests have it. *)
Example duplicate_last_refused :
  let '(σ, r) := create [VPtr 3; VPtr 3] [VPtr 5; VPtr 6] [] in
  r = Ok LOON_INVALID_PROPERTIES ∧ blocks σ = 7%nat.
Proof. by vm_compute. Qed.
(** Anywhere else the entries after it are freed although nothing was written
    to them; the same holds for a null key or value. *)
Example duplicate_before_last_undefined : (create [VPtr 3; VPtr 3; VPtr 4] [VPtr 5; VPtr 6; VPtr 5] []).2 = Ub.
Proof. by vm_compute. Qed.
Example null_key_before_last_undefined : (create [VNull; VPtr 4] [VPtr 5; VPtr 6] []).2 = Ub.
Proof. by vm_compute. Qed.
Example null_value_before_last_undefined : (create [VPtr 3; VPtr 4] [VNull; VPtr 6] []).2 = Ub.
Proof. by vm_compute. Qed.
(** When a copy of a key cannot be allocated the call succeeds without it. *)
Example key_lost_silently :
  let '(σ, r) := create [VPtr 3] [VPtr 5] [false; true] in
  r = Ok LOON_SUCCESS ∧ (loon_properties_get (Some 7%nat) (Some "k1"%string) σ).2 = Ok None.
Proof. by vm_compute. Qed.
End SampleFfi.
