(* ===== verification/FfiTransactionSample.v ===== *)
(** * Transactions of a C caller, evaluated

    A caller whose memory and session are concrete: the theorem on committed
    groups at an append that races with another writer, a whole run from
    [loon_transaction_begin], and the version [-2], which is not what the
    comment of [ffi_c.h] says. *)

From S2P Require Import Prelude CppString Status StorageUri Paths LruCache ColumnGroups Properties FsConfig FsProducers FsCache Manifest ManifestCodec FileSystem ManifestIO Updates Transaction CHeap CHeapLogic FfiBridge FfiBridgeCorrect FfiProperties FfiManifest FfiManifestCorrect FfiTransaction FfiTransactionCorrect FfiSample.

Module SampleFfiTransaction.
Import MemFs SampleCloud SampleConfig SampleFsCache.
#[local] Existing Instance ToyAvro.avro.
#[local] Existing Instance ToyAvro.avro_laws.
#[local] Existing Instance ToyUri.parser.

Definition group : ColumnGroup :=
  mkGroup ["id"; "vec"]%string "parquet" [mkFile "seg/_data/0_a.parquet" 0 100 ∅].

(** Another writer claims version 1 just before the first attempt's write. *)
Definition world : World State :=
  mkWorld [] getCache (mkState ∅ [{[ get_manifest_filepath "seg" 1 := "x"%string ]}]).
Definition txn : Transaction := mkTxn 0 (Some empty_manifest) "seg" no_updates OverwriteResolver 1.
Definition session : Session State (gset string) := mkSession world (FilesystemCache_new ∅) (Some txn).

(** Block 7 receives the groups, block 9 the version. *)
Definition memory : CState :=
  mkC {[7%nat := mkBlock KMalloc (Words [VUndef]); 9%nat := mkBlock KMalloc (Words [VUndef])]} [].

Definition run : CState * outcome exn (Session State (gset string) * FFICode) :=
  append_and_commit [group] 7 9 session memory.
Definition memory_after : CState := Eval vm_compute in run.1.
Definition session_after : Session State (gset string) := match run.2 with Ok (s, _) => s | _ => session end.

Lemma txn_in_order : txn_ok (w_heap (ses_world session)) txn empty_manifest no_updates.
Proof.
  exists empty_manifest. split; [reflexivity|]. split; [exists []; split; [constructor|reflexivity]|].
  split; [repeat split; repeat constructor|]. split; [|right; vm_compute; lia]. split.
  - apply (bool_decide_unpack _); vm_compute; exact I.
  - intros p Hp. apply elem_of_nil in Hp. destruct Hp.
Defined.

Lemma run_ends : append_and_commit [group] 7 9 session memory = (memory_after, Ok (session_after, LOON_SUCCESS)).
Proof.
  assert (match run.2 with Ok (_, rc) => (rc =? LOON_SUCCESS)%Z | _ => false end = true) as Hrc by (vm_compute; reflexivity).
  assert (run.1 = memory_after) as Hm by (vm_compute; reflexivity).
  unfold session_after. change (append_and_commit [group] 7 9 session memory) with run.
  destruct run as [σ [[s rc]|e|]]; [|discriminate Hrc..]. apply Z.eqb_eq in Hrc. cbn [fst] in Hm. by rewrite Hm Hrc.
Defined.

Lemma c_commit_stores_appended_witness :
  ∃ ver mv', CHeap.mem memory_after !! 9%nat = Some (mkBlock KMalloc (Words [VInt ver])) ∧
    apply_spec empty_manifest (AppendFiles [group] no_updates) = Ok mv' ∧
    file_denotes (fs_files (w_fs (ses_world session_after))) (get_manifest_filepath "seg" ver) (at_current_version mv').
Proof.
  destruct (c_commit_stores_appended [group] txn empty_manifest no_updates KMalloc 7 VUndef [] KMalloc 9 VUndef []
    session memory session_after memory_after) as (p & ver & mv' & data & Hm & Hs & _ & _ & Hd).
  - reflexivity.
  - right. reflexivity.
  - exact txn_in_order.
  - right. reflexivity.
  - compute_decide.
  - compute_decide.
  - discriminate.
  - reflexivity.
  - reflexivity.
  - reflexivity.
  - exact run_ends.
  - exists ver, mv'. split; [rewrite Hm; apply lookup_insert_eq|]. split; [exact Hs|].
    vm_compute in Hs. injection Hs as <-. apply Hd.
    + repeat split; try (intros ? ? _; exact I); repeat constructor.
      eexists; split; [reflexivity|]. repeat constructor.
    + assert (VInt ver = VInt 2) as [= ->].
      { assert (CHeap.mem memory_after !! 9%nat = Some (mkBlock KMalloc (Words [VInt ver]))) as H9
          by (rewrite Hm; apply lookup_insert_eq). vm_compute in H9. congruence. }
      change (base_path_for_manifest _) with "seg"%string.
      split_and!; [|apply Forall_nil_2|exact (map_Forall_empty _)|apply Forall_nil_2|apply Forall_nil_2].
      apply Forall_singleton. intros g [= <-]. apply Forall_singleton.
      eapply (IoSample.stored _ _ "0_a.parquet"); vm_compute; reflexivity.
Defined.

(** ** Opening *)

(** A store with the committed version 2 and its group, no transaction, and in
    memory a path, empty properties and the word for the handle. *)
Definition opened_session : Session State (gset string) := set_txn None session_after.
Definition begin_memory : CState :=
  mkC {[1%nat := mkBlock KMalloc (Chars "seg"); 3%nat := mkBlock KMalloc (Words [VNull; VInt 0]);
        7%nat := mkBlock KMalloc (Words [VUndef])]} [].
Definition begin (read_version resolve_id : Z) (out : pointer) : CState * outcome exn (Session State (gset string) * FFICode) :=
  loon_transaction_begin id (Some 1%nat) (Some 3%nat) read_version resolve_id 1 out 4096 opened_session begin_memory.

(** What the new transaction reads: its version and the number of its groups. *)
Definition opens_at (r : CState * outcome exn (Session State (gset string) * FFICode)) : option (FFICode * Z * nat) :=
  match r.2 with
  | Ok (s, rc) =>
      t ← ses_txn s; m ← read_manifest_ t; Some (rc, read_version_ t, length (column_groups_ m))
  | _ => None
  end.

Example begin_latest : opens_at (begin (-1) LOON_TRANSACTION_RESOLVE_FAIL (Some 7%nat)) = Some (LOON_SUCCESS, 2%Z, 1%nat).
Proof. vm_compute. reflexivity. Qed.
(** The comment of [ffi_c.h] says that every negative version means the
    greatest one; only [-1] does.  With [-2] the transaction starts from the
    empty manifest, to which the resolver that overwrites applies its updates. *)
Example begin_minus_two : opens_at (begin (-2) LOON_TRANSACTION_RESOLVE_OVERWRITE (Some 7%nat)) = Some (LOON_SUCCESS, (-2)%Z, 0%nat).
Proof. vm_compute. reflexivity. Qed.
(** Neither the word for the handle nor the structure of an append is checked. *)
Example begin_null_handle : (begin (-1) LOON_TRANSACTION_RESOLVE_FAIL None).2 = Ub.
Proof. by vm_compute. Qed.
Example append_null_groups : (loon_transaction_append_files None session memory).2 = Ub.
Proof. by vm_compute. Qed.
End SampleFfiTransaction.
